(* ===== verification/_CoqProject ===== *)
-Q . S2P
Prelude.v
Roaring.v
Versioned.v
Slot.v
Config.v
Sort.v
SortFacts.v
SortTheorems.v
Filter.v
FilterFacts.v
FilterTheorems.v
Float64.v
Bytes.v
BucketDiffLog.v
TimeBuckets.v
Query.v
Dictionary.v
Planner.v
Executor.v
ExecutorFacts.v
ExecutorTheorems.v
Radix.v
RadixFacts.v
RadixTheorems.v
Coalescer.v
IndexFacts.v
CoalescerTheorems.v
Mutation.v
MutationFacts.v
MutationTheorems.v
Engine.v
EngineFacts.v
EngineInvariant.v
EngineTheorems.v
Validation.v
Ops.v
OpsTheorems.v
OpsWal.v
OpsWalFacts.v
OpsWalTheorems.v
CacheKeys.v
MetaIndex.v
MetaIndexTheorems.v
CacheEntry.v
CacheEval.v
CacheEvalTheorems.v
UnifiedCache.v
UnifiedCacheFacts.v
UnifiedCacheTheorems.v
CacheCollect.v
CacheWorker.v
CacheCoherence.v
CacheWorkerTheorems.v
CachePage.v
CacheMerge.v
ShardStore.v
ShardStoreTheorems.v
ShardBitmap.v
ShardBitmapTheorems.v
Encoding.v
DocShards.v
DocShardsTheorems.v
EngineStore.v
DocWriters.v
DocWritersTheorems.v
Text.v
OpsProcessor.v
OpsProcessorTheorems.v
OpsBatchTheorems.v
Parsing.v
Expression.v
ExpressionTheorems.v
Parsers.v
ParserTheorems.v
WarmRegistry.v
Prefilter.v
PrefilterTheorems.v
DocCache.v
