(* ===== verification/Prelude.v ===== *)
(** * BitDex: a verification development (root file and prelude)

    BitDex is an in-memory bitmap index.  Documents are integer slots; every value of a
    filter field has a roaring bitmap of the slots that hold it, every sort field has one
    bitmap per bit of its value, and an alive bitmap says which slots exist.  A query
    intersects filter bitmaps, walks the sort layers for the first page, and may be
    answered from a bounded result cache that is maintained after each flush.  Writes
    arrive as documents or as operations from a replicated log, become bitmap operations,
    and are flushed in batches.

    ** Files and what they model

    Index structures:
    - [Roaring]: the interface of the third-party bitmap crate ([RoaringOps] with the
      laws [Roaring]); [Bitset] is an instance, so every law can hold.
    - [Versioned] (src/versioned_bitmap.rs): base plus pending diff, [models vb s].
    - [Slot] (src/slot.rs): allocation, recycling, liveness, deferred activation.
    - [Sort], [SortFacts], [SortTheorems] (src/sort.rs): bit-sliced values, top-N with
      cursors, unloading.
    - [Filter], [FilterFacts], [FilterTheorems] (src/filter.rs): fields, the index with
      [Arc] aliasing as a heap, and interleavings of writers with compaction.
    - [Radix], [RadixFacts], [RadixTheorems] (src/radix_sort.rs): the bucketed order of
      expanded cache entries.
    - [TimeBuckets] (src/time_buckets.rs), [BucketDiffLog] (src/bucket_diff_log.rs):
      windows of recent slots and the persisted log of their expiries.
    - [Dictionary] (src/dictionary.rs), [Config], [Validation] (src/config.rs),
      [Float64] and [Bytes] (binary64 arithmetic and byte encodings they share).
    Reads:
    - [Query] (src/query.rs, src/types.rs), [Planner] (src/planner.rs), [Executor],
      [ExecutorFacts], [ExecutorTheorems] (src/executor.rs).
    - [Text], [Parsing] (what the parsers use of the standard library, and combinators
      with their grammars), [Parsers], [ParserTheorems] (src/parser/): the JSON, compact
      and Meilisearch query formats.
    - [WarmRegistry] (src/warm_registry.rs): hot query shapes across restarts;
      [Prefilter], [PrefilterTheorems] (src/prefilter.rs and its use by the engine): named
      filter sets with a computed bitmap, substituted into queries, and their promotion.
    Writes:
    - [Coalescer], [IndexFacts], [CoalescerTheorems] (src/write_coalescer.rs): the whole
      index as [IndexState], batches and their application.
    - [Mutation], [MutationFacts], [MutationTheorems] (src/mutation.rs): documents into
      bitmap operations, and the direct mutation engine over a document store interface.
    - [Engine], [EngineFacts], [EngineInvariant], [EngineTheorems] (src/engine.rs,
      src/concurrency.rs): the synchronous engine; [EngineStore]: the engine over the
      modelled [DocStoreV3], which is an instance of its document store interface.
    - [Ops], [OpsTheorems] (src/pg_sync/ops.rs, op_dedup.rs), [OpsWal], [OpsWalFacts],
      [OpsWalTheorems] (src/ops_wal.rs): replicated operations and their log.
    - [OpsProcessor], [OpsProcessorTheorems], [OpsBatchTheorems] (src/ops_processor.rs,
      src/ingester.rs): operations into bitmap operations, schedules, computed sorts.
    - [Expression], [ExpressionTheorems] (src/dump_expression.rs): the filter and field
      expressions of a bulk load.
    Persistence:
    - [ShardStore], [ShardStoreTheorems] (src/shard_store.rs): snapshot plus operation log
      per shard, compaction, crash states, interleaved appends; generic in its codecs.
    - [ShardBitmap], [ShardBitmapTheorems] (src/shard_store_bitmap.rs): filter buckets,
      sort layers and the alive bitmap.
    - [Encoding], [DocShards], [DocShardsTheorems], [DocWriters], [DocWritersTheorems]
      (src/shard_store_doc.rs): documents and the writers of a bulk load.
    - [DocCache] (src/doc_cache.rs): generations of documents as objects in a heap, and
      document reads through them (definitions only).
    The result cache:
    - [CacheKeys] (src/cache.rs), [MetaIndex], [MetaIndexTheorems] (src/meta_index.rs),
      [CacheEntry], [CacheEval], [CacheEvalTheorems], [UnifiedCache],
      [UnifiedCacheFacts], [UnifiedCacheTheorems], [CacheCollect], [CachePage]
      (src/unified_cache.rs), [CacheWorker], [CacheCoherence], [CacheWorkerTheorems],
      [CacheMerge] (src/cache_worker.rs).

    A struct is a [Record] (usually [t] in a [Module] named after the type), an enum an
    [Inductive], a method a [Definition] of the same name; mutation is state passing,
    errors are [result] or [option], concurrent maps are [gmap]s, and where a hash map's
    iteration order matters the order is an argument.

    ** What the theorems show

    - Reads are right: [execute_correct] (a query returns exactly the page its clauses,
      sort and cursor denote), [evaluate_clause_correct], [top_n_correct],
      [paginate_complete], [execute_from_radix_correct]; [native_filter_correct] for the
      evaluator of cache maintenance, [substitution_preserves_results] for prefilters.
    - Writes are right: [diff_document_correct], [flush_effect],
      [batch_equals_sequential], [engine_query_correct] and [engine_mutations_correct]
      (queries after any mutations answer from the document map, also over the shard
      files of [DocStoreV3]), [filter_field_refines], [vb_refines_set],
      [concurrent_writes_tracked]; [set_op_exact], [computed_sort_exact],
      [scheduled_slot_hidden] and [sweep_terminates] for replicated operations.
    - Persistence and replication: [wal_refines_queue], [diff_log_append_roundtrip],
      [diff_log_compaction_crash_safe], [dedup_preserves_effect], [shard_store_refines],
      [sort_layers_durable], [indexed_read_exact], [doc_put_get],
      [streaming_writer_refines], [persist_crash_safe].
    - The cache stays right: [cache_indexes_agree], [meta_index_exact],
      [filter_work_complete], [maintenance_evaluation_exact], [coalesce_exact],
      [worker_keeps_coherent] and [cached_page_correct].
    - Input is read right: [json_query_roundtrip], [meili_grammar], [expression_grammar]
      (a parser accepts exactly the phrases of its grammar), [indexed_evaluation_agrees],
      [validate_exact].
    - Where the code departs from its intent or its comments, a theorem exhibits it
      ([not_eq_null_depends_on_position], [batch_reorders_same_slot],
      [torn_rewrite_promoted], [torn_record_hides_appends], [reinsertion_lost],
      [republish_mixes_times], [away_and_back_corrupts_sort], [default_write_lost],
      [default_value_never_indexed], [wide_cursor_depends_on_path],
      [restore_over_live_entry], [cancel_after_schedule_wins], ...).

    The conditions of each theorem are in its comment.  Those that recur: sort fields have
    at most 32 layers (values are reconstructed in 32 bits), slots are 32-bit numbers, a
    cursor's value fits the sort field, bitmaps hold live slots only, and sizes fit the
    length fields of the file formats.  Specifications are written apart from the code
    they are about: slot-level meanings of clauses, sorted lists for pages, maps for
    stores, inductive grammars for parsers, relations for what a call asks for.

    ** Interfaces and parameters

    [RoaringOps]/[Roaring] (bitmaps), [Checksum] (CRC-32), [RoaringSerde] (portable bitmap
    bytes), [MsgPack] (MessagePack values), [JsonText] and [OpsJson] (serde_json text) are
    third-party code, each with an instance used by the witnesses; [WarmText] (the JSON of
    the warm file) and [DocDisk] (the shard files behind the document cache) are what two
    components read and write.  Between components: [DocStoreOps]/[DocStoreView]/
    [DocStore] (the document store of the synchronous engine, with the instance
    [docstore_v3]), [SnapshotCodec], [OpCodec] and [ShardingStrategy] (what a shard store
    is generic in), [BitmapSink] (where the operation processor sends bitmap operations),
    [EngineOps]/[EngineLaws] (what it asks of the concurrent engine).  [to_lowercase]
    (Unicode lower case), [fmt_f64] (Display of an [f64]) and [memory_bytes] (size of a
    cache entry) are function parameters.

    ** Fuel

    Loops that are not structural carry fuel that is shown or evidently enough: the log
    and shard readers use the length of the data (each entry consumes bytes; a packed
    value one more), paging the number of candidates, [dedup_fuel] the nesting depth of
    fan-outs, [OpsWal.read_loop] the number of generations plus one, the overdue sweep its
    limit plus one, tokenizers the length of the input and parsers the number of tokens
    plus one, clause canonicalization the height of the clause, eviction loops the number
    of generations or entries, [slot_matches_op] the length of the operator.

    ** Not modelled

    Threads, channels, snapshot publication, lazy loading and the cache paths of queries
    in src/concurrent_engine.rs; the persisted result cache (src/bound_store.rs) and the
    metadata files (src/shard_store_meta.rs); the HTTP server, relay and Postgres clients
    (network I/O); bulk loading over memory-mapped files and thread pools; SQL text
    generation; metrics, tracing and byte-size accounting outside the document cache;
    binaries. *)

From stdpp Require Export base tactics list gmap sets strings sorting pretty.
From Stdlib Require Export NArith ZArith Lia.

(** ** Scopes and machine integers

    Unsigned Rust integers ([u8], [u32], [u64], [usize]) are [N]; signed ones are
    [Z].  Wrap-around of release builds is written out with the functions below;
    Rust's [saturating_sub] on unsigned integers is [N.sub]. *)

Global Open Scope N_scope.
Global Open Scope list_scope.

Definition u32_max : N := 4294967295.
Definition u64_max : N := 18446744073709551615.

(** [x as u32] for an unsigned [x], and [a + b] on [u32] in a release build. *)
Definition wrap32 (x : N) : N := x mod 4294967296.
Definition wrap64 (x : N) : N := x mod 18446744073709551616.

(** [v as u64] and [v as u32] for [v : i64] (two's complement). *)
Definition i64_as_u64 (v : Z) : N := Z.to_N (v mod 18446744073709551616)%Z.
Definition i64_as_u32 (v : Z) : N := Z.to_N (v mod 4294967296)%Z.

(** [v as i64] for [v : u64]. *)
Definition u64_as_i64 (v : N) : Z :=
  let w := Z.of_N (wrap64 v) in
  if (w <? 9223372036854775808)%Z then w else (w - 18446744073709551616)%Z.

(** ** Error values (error.rs) *)

Inductive BitdexError : Type :=
  | SlotNotFound (slot : N)
  | FieldNotFound (name : string)
  | InvalidValue (field reason : string)
  | Schema (msg : string)
  | Config (msg : string)
  | QueryParse (msg : string)
  | CapacityExceeded (msg : string)
  | Storage (msg : string)
  | Io (msg : string)
  | QueryTooExpensive (field : string) (field_loaded_values cap : N).

Inductive result (A : Type) : Type :=
  | Ok (a : A)
  | Err (e : BitdexError).
Arguments Ok {A} _.
Arguments Err {A} _.

Definition result_bind {A C : Type} (m : result A) (k : A -> result C) : result C :=
  match m with
  | Ok a => k a
  | Err e => Err e
  end.

Declare Scope bitdex_scope.
Delimit Scope bitdex_scope with bitdex.
Notation "'let?' x := m 'in' k" := (result_bind m (fun x => k))
  (at level 10, x pattern, m at level 100, k at level 200) : bitdex_scope.

(** ** Tactics *)

(** Case analysis on every boolean test and option match in the goal. *)
Ltac crush_if :=
  repeat match goal with
  | |- context [if ?b then _ else _] => let E := fresh "E" in destruct b eqn:E
  | H : context [if ?b then _ else _] |- _ => let E := fresh "E" in destruct b eqn:E
  end.

(** Turn boolean comparisons on [N] into propositions that [lia] reads. *)
Ltac bool_to_prop :=
  repeat match goal with
  | H : _ && _ = true |- _ => apply andb_true_iff in H; destruct H
  | H : _ || _ = false |- _ => apply orb_false_iff in H; destruct H
  | H : negb _ = true |- _ => apply negb_true_iff in H
  | H : negb _ = false |- _ => apply negb_false_iff in H
  | H : (_ <? _) = true |- _ => apply N.ltb_lt in H
  | H : (_ <? _) = false |- _ => apply N.ltb_ge in H
  | H : (_ <=? _) = true |- _ => apply N.leb_le in H
  | H : (_ <=? _) = false |- _ => apply N.leb_gt in H
  | H : (_ =? _) = true |- _ => apply N.eqb_eq in H
  | H : (_ =? _) = false |- _ => apply N.eqb_neq in H
  end.

Create HintDb bitdex.

(** ** Generic lemmas on lists *)

(** A strictly ascending list is determined by its elements. *)
Lemma sorted_lt_ext (l1 l2 : list N) :
  StronglySorted N.lt l1 -> StronglySorted N.lt l2 ->
  (forall x, x ∈ l1 <-> x ∈ l2) -> l1 = l2.
Proof.
  intros H1; revert l2; induction H1 as [|x l1 Hs IH Hx]; intros l2 H2 Heq.
  - destruct l2 as [|y l2]; [done|]. exfalso.
    apply (not_elem_of_nil y), Heq. apply elem_of_cons. by left.
  - destruct H2 as [|y l2 Hs2 Hy].
    { exfalso. apply (not_elem_of_nil x), Heq. apply elem_of_cons. by left. }
    rewrite Forall_forall in Hx, Hy. setoid_rewrite elem_of_cons in Heq.
    assert (x = y) as ->.
    { destruct (proj1 (Heq x)) as [->|Hx2]; [by left|done|].
      destruct (proj2 (Heq y)) as [->|Hy1]; [by left|done|].
      specialize (Hx _ Hy1). specialize (Hy _ Hx2). lia. }
    f_equal. apply IH; [done|]. intros z. split; intros Hz.
    + destruct (proj1 (Heq z)) as [->|?]; [by right| |done].
      specialize (Hx _ Hz). lia.
    + destruct (proj2 (Heq z)) as [->|?]; [by right| |done].
      specialize (Hy _ Hz). lia.
Qed.

Lemma sorted_lt_NoDup (l : list N) : StronglySorted N.lt l -> NoDup l.
Proof.
  induction 1 as [|x l Hs IH Hx]; constructor; [|done].
  rewrite Forall_forall in Hx. intros Hin. specialize (Hx _ Hin). lia.
Qed.

Lemma foldl_ext {A C : Type} (f g : A -> C -> A) (l : list C) (a : A) :
  (forall a x, f a x = g a x) -> foldl f a l = foldl g a l.
Proof. intros H. revert a. induction l as [|x l IH]; intros a; simpl; [done|]. by rewrite H. Qed.

Lemma filter_all {A : Type} (P : A -> Prop) `{!forall x, Decision (P x)} (l : list A) :
  Forall P l -> filter P l = l.
Proof. induction 1 as [|x l Hx _ IH]; [done|]. rewrite filter_cons, IH. by rewrite decide_True. Qed.

Lemma omap_ext_in {A C : Type} (f g : A -> option C) (l : list A) :
  (forall a, a ∈ l -> f a = g a) -> omap f l = omap g l.
Proof.
  intros H. induction l as [|a l IH]; [done|]. cbn [omap list_omap].
  rewrite (H a) by (apply elem_of_cons; by left).
  rewrite IH by (intros; apply H, elem_of_cons; by right). done.
Qed.

(** ** Sorting by a total order *)

Section sorting.
Context {A : Type} (R : relation A) `{!forall x y, Decision (R x y)}.
Context `{!Transitive R, !Total R, !AntiSymm (=) R}.
Implicit Types l : list A.

Lemma merge_sort_sorted l : StronglySorted R (merge_sort R l).
Proof. apply (StronglySorted_merge_sort R). Qed.

(** Sorting forgets the input order. *)
Lemma merge_sort_unique l1 l2 : StronglySorted R l1 -> l1 ≡ₚ l2 -> l1 = merge_sort R l2.
Proof.
  intros Hs Hp. apply (StronglySorted_unique R); [done|apply merge_sort_sorted|].
  by rewrite merge_sort_Permutation.
Qed.

Lemma StronglySorted_filter (P : A -> Prop) `{!forall x, Decision (P x)} l :
  StronglySorted R l -> StronglySorted R (filter P l).
Proof.
  induction 1 as [|x l Hs IH Hx]; [constructor|].
  rewrite filter_cons. case_decide; [|done]. constructor; [done|].
  rewrite Forall_forall in Hx |- *. intros y [_ Hy]%list_elem_of_filter. auto.
Qed.

Lemma merge_sort_filter (P : A -> Prop) `{!forall x, Decision (P x)} l :
  filter P (merge_sort R l) = merge_sort R (filter P l).
Proof.
  apply merge_sort_unique; [apply StronglySorted_filter, merge_sort_sorted|].
  by rewrite merge_sort_Permutation.
Qed.

(** A subset of size [k] that precedes everything outside it is the first [k]. *)
Lemma merge_sort_top_k l f :
  NoDup l -> NoDup f -> (forall x, x ∈ f -> x ∈ l) ->
  (forall x y, x ∈ f -> y ∈ l -> y ∉ f -> R x y) ->
  merge_sort R f = take (length f) (merge_sort R l).
Proof.
  intros Hl Hf Hsub Htop. destruct (submseteq_Permutation f l) as [rest Hp].
  { apply NoDup_submseteq; [done|]. intros x. apply Hsub. }
  assert (merge_sort R f ++ merge_sort R rest = merge_sort R l) as <-.
  { apply merge_sort_unique.
    - apply StronglySorted_app_2; [|apply merge_sort_sorted..].
      intros x y Hx Hy. rewrite merge_sort_Permutation in Hx, Hy.
      rewrite Hp in Hl. apply NoDup_app in Hl as (_ & Hd & _).
      apply Htop; [done| |by intros ?; eapply Hd]. rewrite Hp. apply elem_of_app. by right.
    - rewrite !merge_sort_Permutation. by symmetry. }
  rewrite take_app_length'; [done|]. by rewrite merge_sort_Permutation.
Qed.

(** What follows an element in sorted order is what is not below it. *)
Lemma sorted_after p x q :
  StronglySorted R (p ++ x :: q) -> NoDup (p ++ x :: q) ->
  filter (fun y => ~ R y x) (p ++ x :: q) = q.
Proof.
  intros Hs Hn. rewrite filter_app, filter_cons.
  apply StronglySorted_app in Hs as (Hcross & _ & Hs2).
  apply StronglySorted_cons in Hs2 as [Hx _].
  rewrite decide_False by (intros Hne; apply Hne; destruct (total R x x); done).
  replace (filter (fun y => ~ R y x) p) with (@nil A); simpl.
  - apply NoDup_app in Hn as (_ & _ & Hn). apply NoDup_cons in Hn as [Hxq _].
    clear -Hx Hxq AntiSymm0. induction q as [|y q IH]; [done|].
    rewrite filter_cons, decide_True.
    + f_equal. apply IH; [by inversion Hx|]. intros ?. apply Hxq. apply elem_of_cons. by right.
    + intros Hyx. apply Hxq. rewrite (anti_symm R x y); [apply elem_of_cons; by left| |done].
      by inversion Hx.
  - symmetry. induction p as [|y p IH]; [done|]. rewrite filter_cons, decide_False.
    + apply IH; [intros; apply Hcross; [apply elem_of_cons; by right|done]|].
      by apply NoDup_cons in Hn as [_ Hn].
    + intros Hno. apply Hno, Hcross; apply elem_of_cons; by left.
Qed.

End sorting.

(** ** Bits *)

(** Agreement on the bits from [i] up, as a comparison of shifted values. *)
Lemma shiftr_succ (a : N) (i : nat) :
  N.shiftr a (N.of_nat i) = 2 * N.shiftr a (N.of_nat (S i)) + N.b2n (N.testbit a (N.of_nat i)).
Proof.
  rewrite Nat2N.inj_succ, <- N.add_1_r, <- N.shiftr_shiftr.
  rewrite <- (N.add_0_l (N.of_nat i)) at 3. rewrite <- N.shiftr_spec by lia.
  rewrite <- N.div2_spec, N.bit0_odd. apply N.div2_odd.
Qed.

Lemma shiftr_lt_mono (a b i : N) : N.shiftr a i < N.shiftr b i -> a < b.
Proof.
  rewrite !N.shiftr_div_pow2. intros H. destruct (N.lt_ge_cases a b) as [|Hge]; [done|].
  exfalso. apply (N.Div0.div_le_mono b a (2 ^ i)) in Hge. lia.
Qed.

Lemma shiftr_eq_bits_lt (a b : N) (i : nat) :
  N.shiftr a (N.of_nat (S i)) = N.shiftr b (N.of_nat (S i)) ->
  N.testbit a (N.of_nat i) = true -> N.testbit b (N.of_nat i) = false -> b < a.
Proof.
  intros Heq Ha Hb. apply (shiftr_lt_mono _ _ (N.of_nat i)).
  rewrite (shiftr_succ a i), (shiftr_succ b i), Heq, Ha, Hb. simpl. lia.
Qed.

Lemma shiftr_eq_succ (a b : N) (i : nat) :
  N.shiftr a (N.of_nat (S i)) = N.shiftr b (N.of_nat (S i)) ->
  N.testbit a (N.of_nat i) = N.testbit b (N.of_nat i) ->
  N.shiftr a (N.of_nat i) = N.shiftr b (N.of_nat i).
Proof. intros Heq Hb. by rewrite (shiftr_succ a i), (shiftr_succ b i), Heq, Hb. Qed.

(** A number whose bits from [n] up are clear is below [2^n]. *)
Lemma testbit_bound (a n : N) : (forall j, n <= j -> N.testbit a j = false) -> a < 2 ^ n.
Proof.
  intros H. destruct (N.eq_dec a 0) as [->|Hz]; [apply N.neq_0_lt_0, N.pow_nonzero; lia|].
  apply N.log2_lt_pow2; [lia|]. destruct (N.lt_ge_cases (N.log2 a) n) as [|Hge]; [done|].
  specialize (H _ Hge). by rewrite N.bit_log2 in H.
Qed.

Lemma shiftr_bound (a n : N) : a < 2 ^ n -> N.shiftr a n = 0.
Proof. intros H. rewrite N.shiftr_div_pow2. by apply N.div_small. Qed.

(** ** Stable sorting

    Rust's [slice::sort_by] / [sort_by_key] is stable: elements with equal keys
    keep their order. *)

Section stable_sort.
Context {A : Type} (key : A -> N).

Fixpoint stable_insert (x : A) (l : list A) : list A :=
  match l with
  | [] => [x]
  | y :: l' => if key x <=? key y then x :: l else y :: stable_insert x l'
  end.

Definition stable_sort_by_key (l : list A) : list A := foldr stable_insert [] l.

Lemma stable_insert_perm x l : stable_insert x l ≡ₚ x :: l.
Proof.
  induction l as [|y l IH]; simpl; [done|]. crush_if; [done|].
  rewrite IH. apply Permutation_swap.
Qed.

Lemma stable_sort_perm l : stable_sort_by_key l ≡ₚ l.
Proof. induction l as [|x l IH]; simpl; [done|]. by rewrite stable_insert_perm, IH. Qed.

Lemma stable_insert_sorted x l :
  StronglySorted (fun a b => key a <= key b) l ->
  StronglySorted (fun a b => key a <= key b) (stable_insert x l).
Proof.
  induction 1 as [|y l Hs IH Hy]; simpl; [repeat constructor|].
  crush_if; bool_to_prop.
  - constructor; [by constructor|]. constructor; [done|].
    eapply Forall_impl; [exact Hy|]. simpl. lia.
  - constructor; [done|]. rewrite stable_insert_perm. constructor; [lia|done].
Qed.

Lemma stable_sort_sorted l :
  StronglySorted (fun a b => key a <= key b) (stable_sort_by_key l).
Proof. induction l; simpl; [constructor|by apply stable_insert_sorted]. Qed.

(** Stability: the elements with a given key keep their order. *)
Lemma stable_insert_filter k x l :
  filter (fun y => key y = k) (stable_insert x l)
  = filter (fun y => key y = k) [x] ++ filter (fun y => key y = k) l.
Proof.
  induction l as [|y l IH]; cbn [stable_insert]; [by rewrite app_nil_r|].
  destruct (N.leb_spec (key x) (key y)) as [|Hlt].
  - rewrite (filter_cons _ x (y :: l)), (filter_cons _ x []). by case_decide.
  - rewrite !(filter_cons _ y), IH, (filter_cons _ x []), filter_nil.
    repeat case_decide; simpl; try done. lia.
Qed.

Lemma stable_sort_stable k l :
  filter (fun y => key y = k) (stable_sort_by_key l) = filter (fun y => key y = k) l.
Proof.
  induction l as [|x l IH]; [done|]. cbn [stable_sort_by_key foldr].
  fold (stable_sort_by_key l). rewrite stable_insert_filter, IH, (filter_cons _ x l), (filter_cons _ x []).
  by case_decide.
Qed.

End stable_sort.

(** Sorting tagged payloads by their tag is sorting by the key. *)
Lemma stable_insert_tagged {A C : Type} (f : A -> C) (key : A -> N) (x : A) (l : list A) :
  stable_insert snd (f x, key x) ((fun c => (f c, key c)) <$> l)
  = (fun c => (f c, key c)) <$> stable_insert key x l.
Proof.
  induction l as [|y l IH]; simpl; [done|]. crush_if; [done|]. rewrite fmap_cons. f_equal. apply IH.
Qed.

Lemma stable_sort_tagged {A C : Type} (f : A -> C) (key : A -> N) (l : list A) :
  stable_sort_by_key snd ((fun c => (f c, key c)) <$> l)
  = (fun c => (f c, key c)) <$> stable_sort_by_key key l.
Proof.
  unfold stable_sort_by_key. induction l as [|x l IH]; [done|].
  rewrite fmap_cons. cbn [foldr]. by rewrite IH, stable_insert_tagged.
Qed.

(** Filters that agree on the members of the list. *)
Lemma list_filter_iff_strong (P Q : N -> Prop) `{!forall x, Decision (P x), !forall x, Decision (Q x)}
    (l : list N) :
  (forall x, x ∈ l -> P x <-> Q x) -> filter P l = filter Q l.
Proof.
  induction l as [|x l IH]; intros Hpq; [done|]. rewrite !filter_cons.
  rewrite IH by (intros; apply Hpq, elem_of_cons; by right).
  specialize (Hpq x (list_elem_of_here _ _)). destruct (decide (P x)), (decide (Q x)); tauto.
Qed.

(** ** Signed integers through their two's complement *)

Definition is_i64 (v : Z) : Prop := (-9223372036854775808 <= v < 9223372036854775808)%Z.

Lemma i64_as_u64_bound v : i64_as_u64 v < 18446744073709551616.
Proof. unfold i64_as_u64. pose proof (Z.mod_pos_bound v 18446744073709551616 eq_refl). lia. Qed.

Lemma u64_as_i64_as_u64 v : is_i64 v -> u64_as_i64 (i64_as_u64 v) = v.
Proof.
  intros [H1 H2]. pose proof (i64_as_u64_bound v) as Hb. unfold u64_as_i64, wrap64. rewrite N.mod_small by done.
  unfold i64_as_u64. rewrite Z2N.id by (apply Z.mod_pos_bound; done).
  destruct (Z_lt_le_dec v 0) as [Hv|Hv].
  - rewrite <- (Z.mod_add v 1) by done. rewrite Z.mod_small by lia.
    destruct (Z.ltb_spec (v + 1 * 18446744073709551616) 9223372036854775808); lia.
  - rewrite Z.mod_small by lia. destruct (Z.ltb_spec v 9223372036854775808); lia.
Qed.
