(* ===== verification/Roaring.v ===== *)
(** * The bitmap interface

    The engine stores every index as a bitmap of the third-party [roaring] crate.
    That crate is not part of the repository, so it is an interface here: the
    class [RoaringOps] lists the operations the engine calls and the class
    [Roaring] states what the crate documents about them (a bitmap is a finite
    set of [u32], [iter] enumerates it in ascending order).  Every component is
    defined over an arbitrary implementation; [Bitset] is one, so the laws are
    satisfiable and every definition can be evaluated. *)

From S2P Require Import Prelude.

(** ** Operations *)

Class RoaringOps (B : Type) := {
  rb_new : B;
  rb_insert : B -> N -> B;
  rb_remove : B -> N -> B;
  rb_contains : B -> N -> bool;
  rb_or : B -> B -> B;
  rb_and : B -> B -> B;
  rb_sub : B -> B -> B;
  rb_len : B -> N;
  rb_is_empty : B -> bool;
  rb_min : B -> option N;
  rb_max : B -> option N;
  rb_iter : B -> list N;
  (** [remove_range(lo..=hi)] *)
  rb_remove_range : B -> N -> N -> B;
}.

(** Membership in a bitmap is membership in its enumeration; [≡] and [⊆] on
    bitmaps are then stdpp's set relations. *)
Global Instance rb_elem_of {B} `{!RoaringOps B} : ElemOf N B := fun x b => x ∈ rb_iter b.

Lemma rb_elem_of_iter {B} `{!RoaringOps B} (b : B) (x : N) : x ∈ b <-> x ∈ rb_iter b.
Proof. done. Qed.

(** ** Documented behaviour *)

Class Roaring (B : Type) `{!RoaringOps B} : Prop := {
  rb_iter_sorted : forall b : B, StronglySorted N.lt (rb_iter b);
  rb_elem_of_new : forall x, x ∉ (rb_new : B);
  rb_elem_of_insert : forall (b : B) x y, y ∈ rb_insert b x <-> y = x \/ y ∈ b;
  rb_elem_of_remove : forall (b : B) x y, y ∈ rb_remove b x <-> y <> x /\ y ∈ b;
  rb_contains_true : forall (b : B) x, rb_contains b x = true <-> x ∈ b;
  rb_elem_of_or : forall (a b : B) x, x ∈ rb_or a b <-> x ∈ a \/ x ∈ b;
  rb_elem_of_and : forall (a b : B) x, x ∈ rb_and a b <-> x ∈ a /\ x ∈ b;
  rb_elem_of_sub : forall (a b : B) x, x ∈ rb_sub a b <-> x ∈ a /\ x ∉ b;
  rb_len_iter : forall b : B, rb_len b = N.of_nat (length (rb_iter b));
  rb_is_empty_true : forall b : B, rb_is_empty b = true <-> rb_iter b = [];
  rb_min_iter : forall b : B, rb_min b = head (rb_iter b);
  rb_max_iter : forall b : B, rb_max b = last (rb_iter b);
  rb_elem_of_remove_range : forall (b : B) lo hi x,
    x ∈ rb_remove_range b lo hi <-> x ∈ b /\ ~ (lo <= x <= hi);
}.

(** ** Derived lemmas and automation

    [set_solver] decides membership, inclusion and [≡] goals on bitmaps through
    the [SetUnfoldElemOf] instances below. *)

Section derived.
Context {B : Type} `{HB : Roaring B}.
Implicit Types (a b : B) (x y : N).


Lemma rb_contains_false b x : rb_contains b x = false <-> x ∉ b.
Proof. rewrite <- not_true_iff_false, rb_contains_true. done. Qed.

Lemma rb_contains_decide b x : rb_contains b x = bool_decide (x ∈ rb_iter b).
Proof.
  destruct (rb_contains b x) eqn:E; symmetry.
  - apply bool_decide_eq_true. by apply rb_contains_true.
  - apply bool_decide_eq_false. by apply rb_contains_false.
Qed.

Global Instance rb_elem_of_dec x b : Decision (x ∈ b).
Proof. unfold elem_of, rb_elem_of. apply _. Defined.

Lemma rb_is_empty_spec b : rb_is_empty b = true <-> forall x, x ∉ b.
Proof.
  rewrite rb_is_empty_true. split.
  - intros Hb x. unfold elem_of, rb_elem_of. rewrite Hb. apply not_elem_of_nil.
  - intros Hb. destruct (rb_iter b) as [|y l] eqn:E; [done|].
    exfalso. apply (Hb y). unfold elem_of, rb_elem_of. rewrite E. apply elem_of_cons. by left.
Qed.

Lemma rb_is_empty_false b : rb_is_empty b = false <-> exists x, x ∈ b.
Proof.
  rewrite <- not_true_iff_false, rb_is_empty_true. split.
  - intros Hb. destruct (rb_iter b) as [|y l] eqn:E; [done|].
    exists y. unfold elem_of, rb_elem_of. rewrite E. apply elem_of_cons. by left.
  - intros [x Hx] Hb. unfold elem_of, rb_elem_of in Hx. rewrite Hb in Hx.
    by apply not_elem_of_nil in Hx.
Qed.

(** Bitmaps with the same elements have the same enumeration. *)
Lemma rb_iter_ext a b : a ≡ b -> rb_iter a = rb_iter b.
Proof. intros Hab. apply sorted_lt_ext; [apply rb_iter_sorted..|]. apply Hab. Qed.

Lemma rb_iter_NoDup b : NoDup (rb_iter b).
Proof. apply sorted_lt_NoDup, rb_iter_sorted. Qed.

Global Instance set_unfold_rb_new x : SetUnfoldElemOf x (rb_new : B) False.
Proof. constructor. split; [apply rb_elem_of_new|done]. Qed.

Global Instance set_unfold_rb_insert x y b P :
  SetUnfoldElemOf y b P -> SetUnfoldElemOf y (rb_insert b x) (y = x \/ P).
Proof. intros [HP]. constructor. by rewrite rb_elem_of_insert, HP. Qed.

Global Instance set_unfold_rb_remove x y b P :
  SetUnfoldElemOf y b P -> SetUnfoldElemOf y (rb_remove b x) (y <> x /\ P).
Proof. intros [HP]. constructor. by rewrite rb_elem_of_remove, HP. Qed.

Global Instance set_unfold_rb_or x a b P Q :
  SetUnfoldElemOf x a P -> SetUnfoldElemOf x b Q -> SetUnfoldElemOf x (rb_or a b) (P \/ Q).
Proof. intros [HP] [HQ]. constructor. by rewrite rb_elem_of_or, HP, HQ. Qed.

Global Instance set_unfold_rb_and x a b P Q :
  SetUnfoldElemOf x a P -> SetUnfoldElemOf x b Q -> SetUnfoldElemOf x (rb_and a b) (P /\ Q).
Proof. intros [HP] [HQ]. constructor. by rewrite rb_elem_of_and, HP, HQ. Qed.

Global Instance set_unfold_rb_sub x a b P Q :
  SetUnfoldElemOf x a P -> SetUnfoldElemOf x b Q -> SetUnfoldElemOf x (rb_sub a b) (P /\ ~ Q).
Proof. intros [HP] [HQ]. constructor. by rewrite rb_elem_of_sub, HP, HQ. Qed.

Global Instance rb_or_proper : Proper ((≡) ==> (≡) ==> (≡)) (rb_or (B := B)).
Proof. intros a a' Ha b b' Hb. set_solver. Qed.
Global Instance rb_and_proper : Proper ((≡) ==> (≡) ==> (≡)) (rb_and (B := B)).
Proof. intros a a' Ha b b' Hb. set_solver. Qed.
Global Instance rb_sub_proper : Proper ((≡) ==> (≡) ==> (≡)) (rb_sub (B := B)).
Proof. intros a a' Ha b b' Hb. set_solver. Qed.
Global Instance rb_insert_proper : Proper ((≡) ==> (=) ==> (≡)) (rb_insert (B := B)).
Proof. intros a a' Ha x x' ->. set_solver. Qed.
Global Instance rb_remove_proper : Proper ((≡) ==> (=) ==> (≡)) (rb_remove (B := B)).
Proof. intros a a' Ha x x' ->. set_solver. Qed.
Global Instance rb_iter_proper : Proper ((≡) ==> (=)) (rb_iter (B := B)).
Proof. intros a b. apply rb_iter_ext. Qed.
Global Instance rb_len_proper : Proper ((≡) ==> (=)) (rb_len (B := B)).
Proof. intros a b Hab. rewrite !rb_len_iter. by rewrite (rb_iter_ext _ _ Hab). Qed.
Global Instance rb_contains_proper : Proper ((≡) ==> (=) ==> (=)) (rb_contains (B := B)).
Proof. intros a b Hab x ? <-. rewrite !rb_contains_decide. by rewrite (rb_iter_ext _ _ Hab). Qed.
Global Instance rb_is_empty_proper : Proper ((≡) ==> (=)) (rb_is_empty (B := B)).
Proof.
  intros a b Hab. apply eq_true_iff_eq. rewrite !rb_is_empty_true.
  by rewrite (rb_iter_ext _ _ Hab).
Qed.

(** Cardinalities of disjoint parts add up. *)
Lemma rb_len_permutation a (l : list N) :
  NoDup l -> (forall x, x ∈ a <-> x ∈ l) -> rb_len a = N.of_nat (length l).
Proof.
  intros Hl Ha. rewrite rb_len_iter. f_equal. apply Permutation_length.
  apply NoDup_Permutation; [apply rb_iter_NoDup|done|]. intros x. apply Ha.
Qed.

Lemma rb_len_disjoint a b c :
  (forall x, x ∈ c <-> x ∈ a \/ x ∈ b) -> (forall x, x ∈ a -> x ∈ b -> False) ->
  rb_len c = rb_len a + rb_len b.
Proof.
  intros Hc Hd. rewrite !rb_len_iter.
  rewrite <- rb_len_iter, (rb_len_permutation c (rb_iter a ++ rb_iter b)).
  - rewrite length_app. lia.
  - apply NoDup_app. split_and!; [apply rb_iter_NoDup| |apply rb_iter_NoDup].
    intros x Hx Hx'. by apply (Hd x).
  - intros x. rewrite Hc, elem_of_app. done.
Qed.

Lemma rb_len_zero a : rb_len a = 0 <-> forall x, x ∉ a.
Proof.
  rewrite rb_len_iter, <- rb_is_empty_spec, rb_is_empty_true.
  destruct (rb_iter a); simpl; split; intros; try done; lia.
Qed.

Lemma rb_len_subset a b : (forall x, x ∈ a -> x ∈ b) -> rb_len a <= rb_len b.
Proof.
  intros Hab. rewrite (rb_len_disjoint a (rb_sub b a) b); [lia| |set_solver].
  intros x. destruct (decide (x ∈ a)); set_solver.
Qed.

(** Bitmaps collected by a conditional insert over an enumeration. *)
Lemma elem_of_fold_insert_if (f : N -> bool) (l : list N) b x :
  x ∈ foldl (fun acc y => if f y then rb_insert acc y else acc) b l
  <-> x ∈ b \/ (x ∈ l /\ f x = true).
Proof.
  revert b. induction l as [|y l IH]; intros b; simpl.
  { rewrite elem_of_nil. tauto. }
  rewrite IH, elem_of_cons. destruct (f y) eqn:E; [rewrite rb_elem_of_insert|]; naive_solver congruence.
Qed.

End derived.

(** ** A concrete implementation: finite sets of [N] *)

Record Bitset : Type := MkBitset { bits : gset N }.

(** The bitmap holding the listed positions. *)
Definition bitset (l : list N) : Bitset := MkBitset (list_to_set l).

Global Instance Bitset_ops : RoaringOps Bitset := {
  rb_new := MkBitset ∅;
  rb_insert b x := MkBitset ({[x]} ∪ bits b);
  rb_remove b x := MkBitset (bits b ∖ {[x]});
  rb_contains b x := bool_decide (x ∈ bits b);
  rb_or a b := MkBitset (bits a ∪ bits b);
  rb_and a b := MkBitset (bits a ∩ bits b);
  rb_sub a b := MkBitset (bits a ∖ bits b);
  rb_len b := N.of_nat (size (bits b));
  rb_is_empty b := bool_decide (bits b = ∅);
  rb_min b := head (merge_sort N.le (elements (bits b)));
  rb_max b := last (merge_sort N.le (elements (bits b)));
  rb_iter b := merge_sort N.le (elements (bits b));
  rb_remove_range b lo hi := MkBitset (filter (fun x => ~ (lo <= x <= hi)) (bits b));
}.

Lemma Bitset_elem_of (b : Bitset) x : x ∈ b <-> x ∈ bits b.
Proof. unfold elem_of at 1, rb_elem_of. simpl. rewrite merge_sort_Permutation. apply elem_of_elements. Qed.

Lemma sorted_le_NoDup_lt (l : list N) :
  StronglySorted N.le l -> NoDup l -> StronglySorted N.lt l.
Proof.
  induction 1 as [|x l Hs IH Hx]; intros Hnd; constructor; inversion_clear Hnd; [by apply IH|].
  rewrite Forall_forall in Hx |- *. intros y Hy. specialize (Hx _ Hy).
  assert (x <> y) by (intros ->; done). lia.
Qed.

Global Instance Bitset_roaring : Roaring Bitset.
Proof.
  split.
  - intros b. apply sorted_le_NoDup_lt.
    + apply (StronglySorted_merge_sort N.le).
    + simpl. rewrite merge_sort_Permutation. apply NoDup_elements.
  - intros x. rewrite Bitset_elem_of. set_solver.
  - intros b x y. rewrite !Bitset_elem_of. simpl. set_solver.
  - intros b x y. rewrite !Bitset_elem_of. simpl. set_solver.
  - intros b x. rewrite Bitset_elem_of. simpl. apply bool_decide_eq_true.
  - intros a b x. rewrite !Bitset_elem_of. simpl. set_solver.
  - intros a b x. rewrite !Bitset_elem_of. simpl. set_solver.
  - intros a b x. rewrite !Bitset_elem_of. simpl. set_solver.
  - intros b. simpl. rewrite merge_sort_Permutation. done.
  - intros b. simpl. rewrite bool_decide_eq_true. split.
    + intros ->. reflexivity.
    + intros He. apply set_eq. intros x.
      rewrite <- Bitset_elem_of, rb_elem_of_iter. simpl. rewrite He. set_solver.
  - done.
  - done.
  - intros b lo hi x. rewrite !Bitset_elem_of. simpl. rewrite elem_of_filter. tauto.
Qed.
