(* ===== verification/Versioned.v ===== *)
(** * Versioned bitmaps (src/versioned_bitmap.rs)

    A [VersionedBitmap] is a base bitmap with a pending [BitmapDiff]; reads fuse
    the two, [merge] compacts the diff into the base, and a field can drop its
    base ("unload") while writes keep landing in the diff.  [Arc] is value
    semantics here: [Arc::make_mut] is clone-on-write, so an update never shows
    through another handle.

    [models vb s] is the abstraction relation to a finite set; the theorems show
    that every mutation implements the set operation it is named after, that all
    read paths agree with the set, and that unloading loses no write. *)

From S2P Require Import Prelude Roaring.

(** ** The diff layer *)

Module BitmapDiff.

Record t (B : Type) : Type := mk { sets : B; clears : B }.
Arguments mk {B} _ _.
Arguments sets {B} _.
Arguments clears {B} _.

Section ops.
Context {B : Type} `{!RoaringOps B}.

Definition new : t B := mk rb_new rb_new.

Definition is_empty (d : t B) : bool := rb_is_empty (sets d) && rb_is_empty (clears d).

Definition insert (d : t B) (bit : N) : t B :=
  mk (rb_insert (sets d) bit) (rb_remove (clears d) bit).

Definition remove (d : t B) (bit : N) : t B :=
  mk (rb_remove (sets d) bit) (rb_insert (clears d) bit).

Definition clear (d : t B) : t B := mk rb_new rb_new.

(** A bit is pending in at most one direction. *)
Definition disjoint (d : t B) : Prop := forall x, x ∈ sets d -> x ∈ clears d -> False.

End ops.

End BitmapDiff.

(** ** The versioned bitmap *)

Module VersionedBitmap.

Record t (B : Type) : Type := mk {
  base : B;
  diff : BitmapDiff.t B;
  generation : N;
  is_loaded : bool;
}.
Arguments mk {B} _ _ _ _.
Arguments base {B} _.
Arguments diff {B} _.
Arguments generation {B} _.
Arguments is_loaded {B} _.

Section ops.
Context {B : Type} `{!RoaringOps B}.

Definition new (b : B) : t B := mk b BitmapDiff.new 0 true.

Definition new_empty : t B := new rb_new.

Definition new_unloaded : t B := mk rb_new BitmapDiff.new 0 false.

Definition from_arc (b : B) : t B := mk b BitmapDiff.new 0 true.

Definition insert (vb : t B) (bit : N) : t B :=
  mk (base vb) (BitmapDiff.insert (diff vb) bit) (generation vb) (is_loaded vb).

Definition remove (vb : t B) (bit : N) : t B :=
  mk (base vb) (BitmapDiff.remove (diff vb) bit) (generation vb) (is_loaded vb).

Definition contains (vb : t B) (bit : N) : bool :=
  if rb_contains (BitmapDiff.sets (diff vb)) bit then true
  else rb_contains (base vb) bit && negb (rb_contains (BitmapDiff.clears (diff vb)) bit).

Definition apply_diff (vb : t B) (candidates : B) : B :=
  let result := rb_and candidates (base vb) in
  let result := rb_or result (rb_and candidates (BitmapDiff.sets (diff vb))) in
  rb_sub result (BitmapDiff.clears (diff vb)).

Definition fused (vb : t B) : B :=
  if BitmapDiff.is_empty (diff vb) then base vb
  else rb_sub (rb_or (base vb) (BitmapDiff.sets (diff vb))) (BitmapDiff.clears (diff vb)).

Definition fused_cow (vb : t B) : B :=
  if BitmapDiff.is_empty (diff vb) then base vb
  else rb_sub (rb_or (base vb) (BitmapDiff.sets (diff vb))) (BitmapDiff.clears (diff vb)).

Definition fused_arc (vb : t B) : B :=
  if BitmapDiff.is_empty (diff vb) then base vb
  else rb_sub (rb_or (base vb) (BitmapDiff.sets (diff vb))) (BitmapDiff.clears (diff vb)).

Definition base_len (vb : t B) : N := rb_len (base vb).

Definition fused_len (vb : t B) : N :=
  if BitmapDiff.is_empty (diff vb) then rb_len (base vb) else rb_len (fused_cow vb).

Definition is_dirty (vb : t B) : bool := negb (BitmapDiff.is_empty (diff vb)).

Definition merge (vb : t B) : t B :=
  if BitmapDiff.is_empty (diff vb) || negb (is_loaded vb) then vb
  else
    let base' := rb_or (base vb) (BitmapDiff.sets (diff vb)) in
    let base' := rb_sub base' (BitmapDiff.clears (diff vb)) in
    mk base' BitmapDiff.new (wrap64 (generation vb + 1)) (is_loaded vb).

Definition fused_contains (vb : t B) (slot : N) : bool :=
  if BitmapDiff.is_empty (diff vb) then rb_contains (base vb) slot
  else if rb_contains (BitmapDiff.sets (diff vb)) slot then true
  else if rb_contains (BitmapDiff.clears (diff vb)) slot then false
  else rb_contains (base vb) slot.

(** The state change of [merge_with_timing]; the returned durations are wall
    clock readings and are not modelled. *)
Definition merge_with_timing (vb : t B) : t B :=
  if BitmapDiff.is_empty (diff vb) || negb (is_loaded vb) then vb
  else
    let base' := rb_or (base vb) (BitmapDiff.sets (diff vb)) in
    let base' := rb_sub base' (BitmapDiff.clears (diff vb)) in
    mk base' BitmapDiff.new (wrap64 (generation vb + 1)) (is_loaded vb).

Definition insert_bulk (vb : t B) (slots : list N) : t B :=
  let d := foldl (fun d bit =>
    BitmapDiff.mk (rb_insert (BitmapDiff.sets d) bit) (rb_remove (BitmapDiff.clears d) bit))
    (diff vb) slots in
  mk (base vb) d (generation vb) (is_loaded vb).

Definition or_into_base (vb : t B) (bitmap : B) : t B :=
  mk (rb_or (base vb) bitmap) (diff vb) (generation vb) (is_loaded vb).

Definition clear_base_and_unload (vb : t B) : t B :=
  mk rb_new (diff vb) (generation vb) false.

Definition clone_diff_only (vb : t B) : t B :=
  mk rb_new (diff vb) (generation vb) false.

Definition load_base (vb : t B) (bitmap : B) : t B :=
  mk (rb_or (base vb) bitmap) (diff vb) (generation vb) true.

Definition mark_loaded (vb : t B) : t B :=
  mk (base vb) (diff vb) (generation vb) true.

Definition swap_diff (vb : t B) (new_diff : BitmapDiff.t B) : t B :=
  mk (base vb) new_diff (generation vb) (is_loaded vb).

Definition replace_base_preserve_diff (vb : t B) (bitmap : B) : t B :=
  if is_loaded vb && negb (rb_is_empty (base vb)) then vb
  else mk bitmap (diff vb) (generation vb) true.

(** ** Specification *)

Definition wf (vb : t B) : Prop := BitmapDiff.disjoint (diff vb).

(** Logical membership: pending sets, and base bits not pending removal. *)
Global Instance vb_elem_of : ElemOf N (t B) := fun x vb =>
  x ∈ BitmapDiff.sets (diff vb) \/ (x ∈ base vb /\ x ∉ BitmapDiff.clears (diff vb)).

(** [vb] represents the finite set [s]. *)
Definition models (vb : t B) (s : gset N) : Prop :=
  wf vb /\ forall x, x ∈ vb <-> x ∈ s.

(** The mutations that write through the diff layer, and compaction. *)
Inductive op : Type :=
  | Insert (bit : N)
  | Remove (bit : N)
  | InsertBulk (slots : list N)
  | Merge
  | MergeWithTiming.

Definition step (vb : t B) (o : op) : t B :=
  match o with
  | Insert x => insert vb x
  | Remove x => remove vb x
  | InsertBulk l => insert_bulk vb l
  | Merge => merge vb
  | MergeWithTiming => merge_with_timing vb
  end.

Definition spec_step (s : gset N) (o : op) : gset N :=
  match o with
  | Insert x => {[x]} ∪ s
  | Remove x => s ∖ {[x]}
  | InsertBulk l => list_to_set l ∪ s
  | Merge | MergeWithTiming => s
  end.

Definition run (vb : t B) (ops : list op) : t B := foldl step vb ops.
Definition spec_run (s : gset N) (ops : list op) : gset N := foldl spec_step s ops.

End ops.

End VersionedBitmap.

(** ** Lemmas *)

Section facts.
Context {B : Type} `{HB : Roaring B}.
Implicit Types (vb : VersionedBitmap.t B) (d : BitmapDiff.t B) (s : gset N) (x : N).

Import VersionedBitmap.

Lemma vb_elem_of_unfold x vb :
  x ∈ vb <-> x ∈ BitmapDiff.sets (diff vb) \/
             (x ∈ base vb /\ x ∉ BitmapDiff.clears (diff vb)).
Proof. done. Qed.

Lemma diff_is_empty_true d :
  BitmapDiff.is_empty d = true <->
  (forall x, x ∉ BitmapDiff.sets d) /\ (forall x, x ∉ BitmapDiff.clears d).
Proof. unfold BitmapDiff.is_empty. rewrite andb_true_iff, !rb_is_empty_spec. done. Qed.

Lemma wf_new b : wf (new b).
Proof. intros x Hx. set_solver. Qed.

Lemma elem_of_new x b : x ∈ new b <-> x ∈ b.
Proof. rewrite vb_elem_of_unfold. simpl. set_solver. Qed.

Lemma elem_of_new_empty x : x ∉ (new_empty : t B).
Proof. unfold new_empty. rewrite elem_of_new. set_solver. Qed.

Lemma wf_insert vb x : wf vb -> wf (insert vb x).
Proof. intros Hwf y. simpl. specialize (Hwf y). set_solver. Qed.

Lemma elem_of_vb_insert vb x y : y ∈ insert vb x <-> y = x \/ y ∈ vb.
Proof.
  rewrite !vb_elem_of_unfold. simpl. destruct (decide (y = x)); set_solver.
Qed.

Lemma wf_remove vb x : wf vb -> wf (remove vb x).
Proof. intros Hwf y. simpl. specialize (Hwf y). set_solver. Qed.

Lemma elem_of_vb_remove vb x y : wf vb -> y ∈ remove vb x <-> y <> x /\ y ∈ vb.
Proof.
  intros Hwf. rewrite !vb_elem_of_unfold. simpl.
  specialize (Hwf y). destruct (decide (y = x)); set_solver.
Qed.

Lemma insert_bulk_foldl vb slots : insert_bulk vb slots = foldl insert vb slots.
Proof.
  revert vb. induction slots as [|x l IH]; intros vb; [by destruct vb|].
  simpl. rewrite <- IH. done.
Qed.

Lemma wf_insert_bulk vb slots : wf vb -> wf (insert_bulk vb slots).
Proof.
  rewrite insert_bulk_foldl. revert vb.
  induction slots as [|x l IH]; intros vb Hwf; [done|]. by apply IH, wf_insert.
Qed.

Lemma elem_of_insert_bulk vb slots y : y ∈ insert_bulk vb slots <-> y ∈ slots \/ y ∈ vb.
Proof.
  rewrite insert_bulk_foldl. revert vb.
  induction slots as [|x l IH]; intros vb; simpl; [set_solver|].
  rewrite IH, elem_of_vb_insert, elem_of_cons. tauto.
Qed.

Lemma merge_with_timing_merge vb : merge_with_timing vb = merge vb.
Proof. done. Qed.

Lemma wf_merge vb : wf vb -> wf (merge vb).
Proof. unfold merge. intros Hwf. crush_if; [done|]. intros x Hx. set_solver. Qed.

Lemma elem_of_merge vb x : wf vb -> x ∈ merge vb <-> x ∈ vb.
Proof.
  unfold merge. intros Hwf. crush_if; [done|].
  rewrite !vb_elem_of_unfold. simpl. specialize (Hwf x). set_solver.
Qed.

(** After [merge] a loaded bitmap has no pending diff. *)
Lemma merge_clean vb : is_loaded vb = true -> is_dirty (merge vb) = false.
Proof.
  unfold merge, is_dirty. intros Hl.
  destruct (BitmapDiff.is_empty (diff vb)) eqn:E; simpl; [by rewrite E|].
  rewrite Hl. simpl. apply negb_false_iff, diff_is_empty_true. split; intros x; set_solver.
Qed.

Lemma is_loaded_merge vb : is_loaded (merge vb) = is_loaded vb.
Proof. unfold merge. by crush_if. Qed.

Lemma elem_of_fused vb x : wf vb -> x ∈ fused vb <-> x ∈ vb.
Proof.
  unfold fused. intros Hwf. rewrite vb_elem_of_unfold.
  destruct (BitmapDiff.is_empty (diff vb)) eqn:E.
  - apply diff_is_empty_true in E as [E1 E2]. specialize (E1 x). specialize (E2 x). tauto.
  - specialize (Hwf x). set_solver.
Qed.

Lemma fused_cow_fused vb : fused_cow vb = fused vb.
Proof. done. Qed.

Lemma fused_arc_fused vb : fused_arc vb = fused vb.
Proof. done. Qed.

Lemma contains_true vb x : contains vb x = true <-> x ∈ vb.
Proof.
  unfold contains. rewrite vb_elem_of_unfold.
  destruct (rb_contains (BitmapDiff.sets (diff vb)) x) eqn:E.
  - apply rb_contains_true in E. tauto.
  - apply rb_contains_false in E.
    rewrite andb_true_iff, negb_true_iff, rb_contains_true, rb_contains_false. tauto.
Qed.

Lemma contains_false vb x : contains vb x = false <-> x ∉ vb.
Proof. rewrite <- contains_true. destruct (contains vb x); naive_solver. Qed.

Lemma fused_contains_true vb x : fused_contains vb x = true <-> x ∈ vb.
Proof.
  unfold fused_contains. rewrite vb_elem_of_unfold.
  destruct (BitmapDiff.is_empty (diff vb)) eqn:E.
  { apply diff_is_empty_true in E as [E1 E2]. rewrite rb_contains_true.
    specialize (E1 x). specialize (E2 x). tauto. }
  destruct (rb_contains (BitmapDiff.sets (diff vb)) x) eqn:Es.
  { apply rb_contains_true in Es. tauto. }
  destruct (rb_contains (BitmapDiff.clears (diff vb)) x) eqn:Ec;
    rewrite ?rb_contains_true; [apply rb_contains_true in Ec|apply rb_contains_false in Ec];
    apply rb_contains_false in Es; split; try done; tauto.
Qed.

Lemma elem_of_apply_diff vb c x : wf vb -> x ∈ apply_diff vb c <-> x ∈ c /\ x ∈ vb.
Proof.
  intros Hwf. unfold apply_diff. rewrite vb_elem_of_unfold. specialize (Hwf x). set_solver.
Qed.

Lemma not_dirty_base vb x : is_dirty vb = false -> x ∈ vb <-> x ∈ base vb.
Proof.
  unfold is_dirty. rewrite negb_false_iff, diff_is_empty_true, vb_elem_of_unfold.
  intros [E1 E2]. specialize (E1 x). specialize (E2 x). tauto.
Qed.

Lemma fused_len_fused vb : fused_len vb = rb_len (fused vb).
Proof. unfold fused_len. rewrite fused_cow_fused. unfold fused. by crush_if. Qed.

Lemma step_models vb s o : models vb s -> models (step vb o) (spec_step s o).
Proof.
  intros [Hwf Hs]. destruct o; simpl; rewrite ?merge_with_timing_merge; split;
    auto using wf_insert, wf_remove, wf_insert_bulk, wf_merge; intros x.
  - rewrite elem_of_vb_insert, Hs. set_solver.
  - rewrite elem_of_vb_remove, Hs by done. set_solver.
  - rewrite elem_of_insert_bulk, Hs. set_solver.
  - by rewrite elem_of_merge.
  - by rewrite elem_of_merge.
Qed.

Lemma run_models vb s ops : models vb s -> models (run vb ops) (spec_run s ops).
Proof.
  revert vb s. induction ops as [|o ops IH]; intros vb s H; [done|].
  simpl. by apply IH, step_models.
Qed.

(** While unloaded, the ops touch only the diff layer. *)
Lemma run_unloaded vb ops :
  is_loaded vb = false ->
  base (run vb ops) = base vb /\ is_loaded (run vb ops) = false.
Proof.
  revert vb. induction ops as [|o ops IH]; intros vb Hl; [done|]. simpl.
  assert (base (step vb o) = base vb /\ is_loaded (step vb o) = false) as [E1 E2].
  { destruct o; try done; simpl; unfold merge, merge_with_timing;
      rewrite Hl; simpl; rewrite orb_true_r; done. }
  rewrite <- E1. by apply IH.
Qed.

(** Reloading a base commutes with the writes that arrived while unloaded. *)
Lemma run_reload vb disk s ops :
  is_loaded vb = false -> (forall x, x ∉ base vb) ->
  models (mk disk (diff vb) (generation vb) true) s ->
  models (mk disk (diff (run vb ops)) (generation (run vb ops)) true) (spec_run s ops).
Proof.
  revert vb s. induction ops as [|o ops IH]; intros vb s Hl Hb Hm; [done|]. simpl.
  assert (is_loaded (step vb o) = false /\ base (step vb o) = base vb) as [Hl' Hb'].
  { destruct (run_unloaded vb [o] Hl) as [? ?]. done. }
  apply IH; [done|by rewrite Hb'|].
  assert (forall o', o' = o -> ~ (o' = Merge \/ o' = MergeWithTiming) ->
    models (mk disk (diff (step vb o')) (generation (step vb o')) true) (spec_step s o')) as Hw.
  { intros o' -> Hno. pose proof (step_models _ _ o Hm) as Hst.
    destruct o; try done; exfalso; tauto. }
  destruct o; try (by apply Hw; [done|intros [|]; done]);
    simpl; unfold merge, merge_with_timing; rewrite Hl; simpl; by rewrite orb_true_r.
Qed.

End facts.

#[export] Hint Resolve wf_new wf_insert wf_remove wf_insert_bulk wf_merge : bitdex.

(** ** Properties *)

Section properties.
Context {B : Type} `{HB : Roaring B}.
Import VersionedBitmap.

(** C23: a versioned bitmap implements a finite set: after any sequence of inserts,
    removes, bulk inserts and compactions, the diff stays disjoint and every read
    path ([contains], [fused_contains], [fused], [fused_cow], [fused_arc],
    [apply_diff], [fused_len]) agrees with the set obtained by applying the same
    operations to the set the bitmap represented before. *)
Theorem vb_refines_set (vb : t B) (s : gset N) (ops : list op) (candidates : B) :
  models vb s ->
  let vb' := run vb ops in
  let s' := spec_run s ops in
  wf vb' /\
  (forall x, contains vb' x = bool_decide (x ∈ s')) /\
  (forall x, fused_contains vb' x = bool_decide (x ∈ s')) /\
  (forall x, x ∈ fused vb' <-> x ∈ s') /\
  fused_cow vb' = fused vb' /\ fused_arc vb' = fused vb' /\
  (forall x, x ∈ apply_diff vb' candidates <-> x ∈ candidates /\ x ∈ s') /\
  fused_len vb' = N.of_nat (size s').
Proof.
  intros Hm. destruct (run_models _ _ ops Hm) as [Hwf Hs]. cbv zeta.
  split_and!; [done| | | |done|done| |].
  - intros x. apply eq_true_iff_eq. rewrite contains_true, Hs, bool_decide_eq_true. done.
  - intros x. apply eq_true_iff_eq. rewrite fused_contains_true, Hs, bool_decide_eq_true. done.
  - intros x. by rewrite elem_of_fused.
  - intros x. by rewrite elem_of_apply_diff, Hs.
  - rewrite fused_len_fused.
    rewrite (rb_len_permutation _ (elements (spec_run s ops))); [done|apply NoDup_elements|].
    intros x. by rewrite elem_of_fused, Hs, elem_of_elements.
Qed.

(** unloading loses no write.  If the fused bitmap is saved, the base dropped
    (in place, or through a diff-only clone), any sequence of operations arrives
    while the base is absent, and the saved bitmap is then loaded back (by OR or
    by replacement), the result represents the original set with exactly those
    operations applied. *)
Theorem vb_unload_reload (vb : t B) (s : gset N) (disk : B) (ops : list op) :
  models vb s ->
  disk ≡ fused vb ->
  models (load_base (run (clear_base_and_unload vb) ops) disk) (spec_run s ops) /\
  models (replace_base_preserve_diff (run (clone_diff_only vb) ops) disk) (spec_run s ops).
Proof.
  intros [Hwf Hs] Hdisk.
  assert (models (mk disk (diff vb) (generation vb) true) s) as Hm.
  { split; [done|]. intros x. rewrite <- Hs, vb_elem_of_unfold. simpl.
    rewrite (Hdisk x), elem_of_fused, vb_elem_of_unfold by done. specialize (Hwf x). tauto. }
  pose proof (run_reload (clear_base_and_unload vb) disk s ops eq_refl rb_elem_of_new Hm) as Hr.
  destruct (run_unloaded (clear_base_and_unload vb) ops eq_refl) as [Hb Hl].
  change (clone_diff_only vb) with (clear_base_and_unload vb).
  split.
  - destruct Hr as [Hr1 Hr2]. split; [done|]. intros x. rewrite <- Hr2, !vb_elem_of_unfold.
    simpl. rewrite Hb. set_solver.
  - unfold replace_base_preserve_diff. rewrite Hl. done.
Qed.

(** A reload never regresses a resident layer: when the bitmap is loaded with
    a non-empty base, [replace_base_preserve_diff] ignores the disk snapshot;
    otherwise the snapshot becomes the base, the pending diff is kept, and the
    bitmap is marked loaded. *)
Lemma vb_replace_base_guard (vb : t B) (disk : B) :
  wf vb ->
  let vb' := replace_base_preserve_diff vb disk in
  is_loaded vb' = true /\ diff vb' = diff vb /\ wf vb' /\
  (is_loaded vb = true -> rb_is_empty (base vb) = false -> vb' = vb) /\
  (is_loaded vb = false \/ rb_is_empty (base vb) = true ->
   forall x, x ∈ vb' <->
     x ∈ BitmapDiff.sets (diff vb) \/ (x ∈ disk /\ x ∉ BitmapDiff.clears (diff vb))).
Proof.
  intros Hwf. cbv zeta. unfold replace_base_preserve_diff.
  destruct (is_loaded vb) eqn:El, (rb_is_empty (base vb)) eqn:Ee; simpl;
    split_and!; try done; intros [|]; done.
Qed.

End properties.

Lemma vb_refines_set_witness :
  let vb := VersionedBitmap.run (VersionedBitmap.new (bitset [1; 2; 7]))
    [VersionedBitmap.Insert 5; VersionedBitmap.Remove 2; VersionedBitmap.Merge;
     VersionedBitmap.InsertBulk [8; 9]; VersionedBitmap.Remove 9] in
  VersionedBitmap.fused_len vb = 4 /\ VersionedBitmap.contains vb 9 = false /\
  VersionedBitmap.contains vb 8 = true.
Proof.
  pose proof (vb_refines_set (VersionedBitmap.new (bitset [1; 2; 7])) {[1; 2; 7]}
    [VersionedBitmap.Insert 5; VersionedBitmap.Remove 2; VersionedBitmap.Merge;
     VersionedBitmap.InsertBulk [8; 9]; VersionedBitmap.Remove 9] (bitset [])) as H.
  destruct H as (_ & Hc & _ & _ & _ & _ & _ & Hl).
  - split; [apply wf_new|]. intros x. rewrite elem_of_new, Bitset_elem_of. simpl. set_solver.
  - cbv zeta. split_and!; [rewrite Hl; vm_compute; reflexivity|rewrite Hc; vm_compute; reflexivity|].
    rewrite Hc. vm_compute. reflexivity.
Defined.

Lemma vb_unload_reload_witness :
  VersionedBitmap.models
    (VersionedBitmap.load_base
      (VersionedBitmap.run
        (VersionedBitmap.clear_base_and_unload (VersionedBitmap.new (bitset [1; 2])))
        [VersionedBitmap.Remove 1; VersionedBitmap.Merge; VersionedBitmap.Insert 4])
      (bitset [1; 2])) {[2; 4]}.
Proof.
  assert (VersionedBitmap.models (VersionedBitmap.new (bitset [1; 2])) {[1; 2]}) as Hm.
  { split; [apply wf_new|]. intros x. rewrite elem_of_new, Bitset_elem_of. simpl. set_solver. }
  destruct (vb_unload_reload (VersionedBitmap.new (bitset [1; 2])) {[1; 2]} (bitset [1; 2])
    [VersionedBitmap.Remove 1; VersionedBitmap.Merge; VersionedBitmap.Insert 4] Hm) as [H _].
  - intros x. done.
  - replace {[2; 4]} with (VersionedBitmap.spec_run {[1; 2]}
      [VersionedBitmap.Remove 1; VersionedBitmap.Merge; VersionedBitmap.Insert 4]); [exact H|].
    vm_compute. reflexivity.
Defined.

Lemma vb_replace_base_guard_witness :
  VersionedBitmap.replace_base_preserve_diff (VersionedBitmap.new (bitset [3])) (bitset [4])
  = VersionedBitmap.new (bitset [3]).
Proof.
  destruct (vb_replace_base_guard (VersionedBitmap.new (bitset [3])) (bitset [4])) as (_ & _ & _ & H & _).
  - apply wf_new.
  - apply H; vm_compute; reflexivity.
Defined.
