(* ===== verification/Slot.v ===== *)
(** * Slot allocation (src/slot.rs)

    [SlotAllocator] tracks which document slots are alive, which are recycled,
    the high-water mark, and the slots waiting for a scheduled activation.  The
    atomic counter is a field (each operation takes [&mut self]); [u32]
    arithmetic wraps as in a release build. *)

From S2P Require Import Prelude Roaring Versioned.

Module SlotAllocator.

Record t (B : Type) : Type := mk {
  next_slot : N;
  alive : VersionedBitmap.t B;
  clean : B;
  (** [BTreeMap<u64, Vec<u32>>]; traversals go through [sorted_keys]. *)
  deferred : gmap N (list N);
  all_alive : bool;
}.
Arguments mk {B} _ _ _ _ _.
Arguments next_slot {B} _.
Arguments alive {B} _.
Arguments clean {B} _.
Arguments deferred {B} _.
Arguments all_alive {B} _.

(** Keys of a B-tree map in ascending order. *)
Definition sorted_keys {A} (m : gmap N A) : list N := merge_sort N.le (elements (dom m)).

Section ops.
Context {B : Type} `{!RoaringOps B}.

Definition new : t B := mk 0 VersionedBitmap.new_empty rb_new ∅ true.

Definition from_state (next : N) (al cl : B) : t B :=
  mk next (VersionedBitmap.new al) cl ∅ false.

Definition allocate (st : t B) (postgres_id : N) : result N * t B :=
  let slot := postgres_id in
  let current := next_slot st in
  let next' := if current <=? slot then wrap32 (slot + 1) else current in
  (Ok slot, mk next' (VersionedBitmap.insert (alive st) slot) (rb_remove (clean st) slot)
              (deferred st) (all_alive st)).

Definition allocate_next (st : t B) : N * t B :=
  match rb_min (clean st) with
  | Some recycled =>
      (recycled, mk (next_slot st) (VersionedBitmap.insert (alive st) recycled)
                   (rb_remove (clean st) recycled) (deferred st) (all_alive st))
  | None =>
      let slot := next_slot st in
      (slot, mk (wrap32 (slot + 1)) (VersionedBitmap.insert (alive st) slot)
               (clean st) (deferred st) (all_alive st))
  end.

Definition delete (st : t B) (slot : N) : result unit * t B :=
  if negb (VersionedBitmap.contains (alive st) slot) then (Err (SlotNotFound slot), st)
  else (Ok tt, mk (next_slot st) (VersionedBitmap.remove (alive st) slot) (clean st)
                 (deferred st) false).

Definition is_alive (st : t B) (slot : N) : bool := VersionedBitmap.contains (alive st) slot.

Definition was_ever_allocated (st : t B) (slot : N) : bool := slot <? next_slot st.

Definition all_slots_alive (st : t B) : bool := all_alive st.

Definition alive_bitmap (st : t B) : B := VersionedBitmap.base (alive st).

Definition alive_fused_cow (st : t B) : B := VersionedBitmap.fused_cow (alive st).

Definition alive_insert_bulk (st : t B) (slots : list N) : t B :=
  let max_seen := foldl (fun m slot => if m <=? slot then wrap32 (slot + 1) else m)
                    (next_slot st) slots in
  let next' := if next_slot st <? max_seen then max_seen else next_slot st in
  mk next' (VersionedBitmap.insert_bulk (alive st) slots) (clean st) (deferred st) (all_alive st).

Definition alive_or_bitmap (st : t B) (bitmap : B) : t B :=
  let next' :=
    match rb_max bitmap with
    | Some max_slot =>
        let current := next_slot st in
        if current <? wrap32 (max_slot + 1) then wrap32 (max_slot + 1) else current
    | None => next_slot st
    end in
  mk next' (VersionedBitmap.or_into_base (alive st) bitmap) (clean st) (deferred st) (all_alive st).

Definition alive_remove_one (st : t B) (slot : N) : t B :=
  mk (next_slot st) (VersionedBitmap.remove (alive st) slot) (clean st) (deferred st) false.

Definition merge_alive (st : t B) : t B :=
  mk (next_slot st) (VersionedBitmap.merge (alive st)) (clean st) (deferred st) (all_alive st).

(** The [debug_assert!] that the slot is not alive is absent from release builds. *)
Definition mark_clean (st : t B) (slot : N) : t B :=
  mk (next_slot st) (alive st) (rb_insert (clean st) slot) (deferred st) (all_alive st).

Definition alive_count (st : t B) : N := VersionedBitmap.fused_len (alive st).

Definition dead_count (st : t B) : N :=
  next_slot st - VersionedBitmap.fused_len (alive st) - rb_len (clean st).

Definition clean_count (st : t B) : N := rb_len (clean st).

Definition slot_counter (st : t B) : N := next_slot st.

(** [retain] on the outer map with an inner [retain]: drop the slot from every
    list, then drop the lists that became empty. *)
Definition cancel_deferred (st : t B) (slot : N) : t B :=
  let lists := filter (fun s => s <> slot) <$> deferred st in
  mk (next_slot st) (alive st) (clean st) (filter (fun kv => kv.2 <> []) lists) (all_alive st).

Definition schedule_alive (st : t B) (slot activate_at_unix : N) : t B :=
  let current := next_slot st in
  let next' := if current <=? slot then wrap32 (slot + 1) else current in
  let st1 := cancel_deferred (mk next' (alive st) (clean st) (deferred st) (all_alive st)) slot in
  let old := default [] (deferred st1 !! activate_at_unix) in
  mk (next_slot st1) (alive st1) (clean st1)
     (<[activate_at_unix := old ++ [slot]]> (deferred st1)) (all_alive st1).

Definition activate_key (acc : list N * t B) (key : N) : list N * t B :=
  let '(activated, st) := acc in
  match deferred st !! key with
  | Some slots =>
      (activated ++ slots,
       mk (next_slot st) (foldl VersionedBitmap.insert (alive st) slots) (clean st)
          (base.delete key (deferred st)) (all_alive st))
  | None => (activated, st)
  end.

Definition activate_due (st : t B) (now_unix : N) : list N * t B :=
  let due_keys := filter (fun k => k <= now_unix) (sorted_keys (deferred st)) in
  foldl activate_key ([], st) due_keys.

Definition set_deferred (st : t B) (m : gmap N (list N)) : t B :=
  mk (next_slot st) (alive st) (clean st) m (all_alive st).

Definition deferred_count (st : t B) : N :=
  foldr (fun k acc => N.of_nat (length (default [] (deferred st !! k))) + acc) 0
    (sorted_keys (deferred st)).

Definition is_deferred (st : t B) (slot : N) : bool :=
  existsb (fun k => bool_decide (slot ∈ default [] (deferred st !! k)))
    (sorted_keys (deferred st)).

(** ** Invariant *)

(** The slots waiting under some activation time. *)
Definition waiting (st : t B) (slot : N) : Prop :=
  exists k l, deferred st !! k = Some l /\ slot ∈ l.

Record inv (st : t B) : Prop := {
  inv_wf : VersionedBitmap.wf (alive st);
  inv_high_water : forall x, x ∈ alive st -> x < next_slot st;
  inv_clean_dead : forall x, x ∈ clean st -> x ∉ alive st;
  inv_clean_high_water : forall x, x ∈ clean st -> x < next_slot st;
  inv_deferred_high_water : forall x, waiting st x -> x < next_slot st;
  inv_deferred_one_key : forall x k1 k2 l1 l2,
    deferred st !! k1 = Some l1 -> deferred st !! k2 = Some l2 ->
    x ∈ l1 -> x ∈ l2 -> k1 = k2;
  inv_deferred_nodup : forall k l, deferred st !! k = Some l -> NoDup l;
}.

(** The allocator's transitions, with what a caller guarantees: ids leave room
    for the [+ 1] of the high-water mark, a slot marked clean is allocated and
    dead, and a bulk load or a deferred slot is not one of the recycled slots. *)
Inductive op : Type :=
  | Allocate (id : N)
  | AllocateNext
  | Delete (slot : N)
  | AliveInsertBulk (slots : list N)
  | AliveRemoveOne (slot : N)
  | MergeAlive
  | MarkClean (slot : N)
  | ScheduleAlive (slot at_unix : N)
  | CancelDeferred (slot : N)
  | ActivateDue (now : N).

Definition step (st : t B) (o : op) : t B :=
  match o with
  | Allocate id => (allocate st id).2
  | AllocateNext => (allocate_next st).2
  | Delete slot => (delete st slot).2
  | AliveInsertBulk l => alive_insert_bulk st l
  | AliveRemoveOne slot => alive_remove_one st slot
  | MergeAlive => merge_alive st
  | MarkClean slot => mark_clean st slot
  | ScheduleAlive slot k => schedule_alive st slot k
  | CancelDeferred slot => cancel_deferred st slot
  | ActivateDue now => (activate_due st now).2
  end.

Definition allowed (st : t B) (o : op) : Prop :=
  match o with
  | Allocate id => id < u32_max
  | AllocateNext => next_slot st < u32_max
  | AliveInsertBulk l => forall x, x ∈ l -> x < u32_max /\ x ∉ clean st
  | MarkClean slot => slot ∉ alive st /\ slot < next_slot st
  | ScheduleAlive slot _ => slot < u32_max
  | ActivateDue now => forall x, waiting st x -> x ∉ clean st
  | _ => True
  end.

Inductive reachable : t B -> Prop :=
  | reach_new : reachable new
  | reach_step st o : reachable st -> allowed st o -> reachable (step st o).

End ops.

End SlotAllocator.

(** ** Lemmas *)

Section slot_facts.
Context {B : Type} `{HB : Roaring B}.
Import SlotAllocator.
Implicit Types (st : SlotAllocator.t B) (x : N).

Lemma elem_of_sorted_keys {A} (m : gmap N A) k : k ∈ sorted_keys m <-> is_Some (m !! k).
Proof.
  unfold sorted_keys. rewrite merge_sort_Permutation, elem_of_elements. apply elem_of_dom.
Qed.

Lemma sorted_keys_NoDup {A} (m : gmap N A) : NoDup (sorted_keys m).
Proof. unfold sorted_keys. rewrite merge_sort_Permutation. apply NoDup_elements. Qed.

Lemma wf_foldl_insert (vb : VersionedBitmap.t B) l :
  VersionedBitmap.wf vb -> VersionedBitmap.wf (foldl VersionedBitmap.insert vb l).
Proof. rewrite <- insert_bulk_foldl. apply wf_insert_bulk. Qed.

Lemma elem_of_foldl_insert (vb : VersionedBitmap.t B) l x :
  x ∈ foldl VersionedBitmap.insert vb l <-> x ∈ l \/ x ∈ vb.
Proof. rewrite <- insert_bulk_foldl. apply elem_of_insert_bulk. Qed.

Lemma wrap32_small n : n <= u32_max -> wrap32 n = n.
Proof. unfold wrap32, u32_max. intros. apply N.mod_small. lia. Qed.

(** What one pass over the due keys does. *)
Lemma foldl_activate_key keys acc st :
  NoDup keys ->
  let r := foldl activate_key (acc, st) keys in
  let slots := mjoin ((fun k => default [] (deferred st !! k)) <$> keys) in
  r.1 = acc ++ slots /\
  next_slot r.2 = next_slot st /\ clean r.2 = clean st /\ all_alive r.2 = all_alive st /\
  alive r.2 = foldl VersionedBitmap.insert (alive st) slots /\
  (forall k, deferred r.2 !! k = if decide (k ∈ keys) then None else deferred st !! k).
Proof.
  revert acc st. induction keys as [|k keys IH]; intros acc st Hnd; cbv zeta.
  { simpl. rewrite app_nil_r. by split_and!. }
  apply NoDup_cons in Hnd as [Hk Hnd].
  change (foldl activate_key (acc, st) (k :: keys))
    with (foldl activate_key (activate_key (acc, st) k) keys).
  rewrite fmap_cons. cbn [mjoin list_join].
  set (st' := (activate_key (acc, st) k).2).
  set (slots_k := default [] (deferred st !! k)).
  assert (activate_key (acc, st) k = (acc ++ slots_k, st')) as Hstep.
  { unfold st', slots_k, activate_key. destruct (deferred st !! k); simpl; [done|].
    by rewrite app_nil_r. }
  assert (forall k', deferred st' !! k' = if decide (k' = k) then None else deferred st !! k') as Hd.
  { intros k'. unfold st', activate_key. destruct (deferred st !! k) eqn:E; simpl; case_decide; subst.
    - apply lookup_delete_eq.
    - by apply lookup_delete_ne.
    - done.
    - done. }
  assert (next_slot st' = next_slot st /\ clean st' = clean st /\ all_alive st' = all_alive st /\
    alive st' = foldl VersionedBitmap.insert (alive st) slots_k) as (E1 & E2 & E3 & E4).
  { unfold st', slots_k, activate_key. by destruct (deferred st !! k). }
  rewrite Hstep. specialize (IH (acc ++ slots_k) st' Hnd).
  assert ((fun k0 => default [] (deferred st' !! k0)) <$> keys =
          (fun k0 => default [] (deferred st !! k0)) <$> keys) as Hext.
  { apply list_fmap_ext. intros i k0 Hi. rewrite Hd, decide_False; [done|].
    intros ->. apply Hk. by eapply list_elem_of_lookup_2. }
  rewrite Hext, E1, E2, E3, E4 in IH.
  destruct IH as (I1 & I2 & I3 & I4 & I5 & I6). split_and!; [|done..| |].
  - rewrite I1. by rewrite <- (assoc_L (++)).
  - by rewrite I5, foldl_app.
  - intros k'. rewrite I6, Hd. repeat case_decide; try done; set_solver.
Qed.

(** The slots an activation at [now] returns: the waiting lists of the due times,
    earliest time first. *)
Definition due_slots (st : SlotAllocator.t B) (now : N) : list N :=
  mjoin ((fun k => default [] (deferred st !! k)) <$>
    filter (fun k => k <= now) (sorted_keys (deferred st))).

Lemma activate_due_spec st now :
  let r := activate_due st now in
  r.1 = due_slots st now /\
  next_slot r.2 = next_slot st /\ clean r.2 = clean st /\ all_alive r.2 = all_alive st /\
  alive r.2 = foldl VersionedBitmap.insert (alive st) (due_slots st now) /\
  (forall k, deferred r.2 !! k = if decide (k <= now) then None else deferred st !! k).
Proof.
  unfold activate_due.
  pose proof (foldl_activate_key (filter (fun k => k <= now) (sorted_keys (deferred st))) [] st)
    as (I1 & I2 & I3 & I4 & I5 & I6).
  { apply NoDup_filter, sorted_keys_NoDup. }
  cbv zeta. split_and!; try done. intros k. rewrite I6.
  destruct (decide (k <= now)) as [Hle|Hgt].
  - case_decide as Hin; [done|]. destruct (deferred st !! k) eqn:E; [|done].
    exfalso. apply Hin. apply list_elem_of_filter. rewrite elem_of_sorted_keys, E. eauto.
  - rewrite decide_False; [done|]. rewrite list_elem_of_filter. naive_solver.
Qed.

Lemma elem_of_due_slots st now x :
  x ∈ due_slots st now <-> exists k l, deferred st !! k = Some l /\ k <= now /\ x ∈ l.
Proof.
  unfold due_slots. rewrite list_elem_of_join. split.
  - intros (l & Hx & Hl). apply list_elem_of_fmap in Hl as (k & -> & Hk).
    apply list_elem_of_filter in Hk as [Hle Hk]. apply elem_of_sorted_keys in Hk as [l Hl].
    rewrite Hl in Hx. eauto.
  - intros (k & l & Hk & Hle & Hx). exists l. split; [done|].
    apply list_elem_of_fmap. exists k. rewrite Hk. split; [done|].
    apply list_elem_of_filter. rewrite elem_of_sorted_keys, Hk. eauto.
Qed.

Lemma lookup_cancel st slot k :
  deferred (cancel_deferred st slot) !! k =
  match deferred st !! k with
  | Some l => let l' := filter (fun s => s <> slot) l in
              if decide (l' = []) then None else Some l'
  | None => None
  end.
Proof.
  unfold cancel_deferred. simpl. rewrite map_lookup_filter, lookup_fmap.
  destruct (deferred st !! k) as [l|]; simpl; [|done].
  case_guard; case_decide; try done; contradiction.
Qed.

Lemma cancel_lookup_Some st slot k l' :
  deferred (cancel_deferred st slot) !! k = Some l' ->
  exists l, deferred st !! k = Some l /\ l' = filter (fun s => s <> slot) l /\ l' <> [].
Proof.
  rewrite lookup_cancel. destruct (deferred st !! k) as [l|]; [|done]. simpl.
  case_decide; [done|]. intros [= <-]. eauto.
Qed.

Lemma waiting_cancel st slot x :
  waiting (cancel_deferred st slot) x <-> waiting st x /\ x <> slot.
Proof.
  unfold waiting. split.
  - intros (k & l' & Hk & Hx). apply cancel_lookup_Some in Hk as (l & Hl & -> & _).
    apply list_elem_of_filter in Hx. naive_solver.
  - intros [(k & l & Hk & Hx) Hne]. exists k, (filter (fun s => s <> slot) l).
    assert (x ∈ filter (fun s => s <> slot) l) as Hin by (by apply list_elem_of_filter).
    split; [|done]. rewrite lookup_cancel, Hk. simpl. rewrite decide_False; [done|].
    intros E. rewrite E in Hin. by apply not_elem_of_nil in Hin.
Qed.

Lemma schedule_deferred st slot at_unix k :
  deferred (schedule_alive st slot at_unix) !! k =
  if decide (k = at_unix)
  then Some (default [] (deferred (cancel_deferred st slot) !! k) ++ [slot])
  else deferred (cancel_deferred st slot) !! k.
Proof.
  unfold schedule_alive. simpl. case_decide as Hk; [subst; apply lookup_insert_eq|].
  by apply lookup_insert_ne.
Qed.

(** The high-water mark covers a slot once it is bumped to it. *)
Lemma bump_high_water n slot :
  slot < u32_max ->
  let n' := if n <=? slot then wrap32 (slot + 1) else n in n <= n' /\ slot < n'.
Proof.
  intros Hs. cbv zeta. destruct (n <=? slot) eqn:E; bool_to_prop; [|lia].
  rewrite wrap32_small by lia. lia.
Qed.

Lemma foldl_bump_high_water l n :
  (forall x, x ∈ l -> x < u32_max) ->
  let m := foldl (fun m slot => if m <=? slot then wrap32 (slot + 1) else m) n l in
  n <= m /\ forall x, x ∈ l -> x < m.
Proof.
  revert n. induction l as [|y l IH]; intros n Hl; simpl; [set_solver by lia|].
  destruct (bump_high_water n y) as [H1 H2]; [apply Hl; set_solver|].
  destruct (IH (if n <=? y then wrap32 (y + 1) else n)) as [I1 I2]; [set_solver|].
  split; [lia|]. intros x [->|Hx]%elem_of_cons; [lia|by apply I2].
Qed.

Lemma inv_new : inv (new : t B).
Proof.
  split; simpl.
  - apply wf_new.
  - intros x Hx. by apply elem_of_new_empty in Hx.
  - intros x Hx. set_solver.
  - intros x Hx. set_solver.
  - intros x (k & l & Hk & _). simpl in Hk. by rewrite lookup_empty in Hk.
  - intros x k1 k2 l1 l2 Hk. by rewrite lookup_empty in Hk.
  - intros k l Hk. by rewrite lookup_empty in Hk.
Qed.

Lemma inv_allocate st id : inv st -> id < u32_max -> inv (allocate st id).2.
Proof.
  intros [H1 H2 H3 H4 H5 H6 H7] Hid. destruct (bump_high_water (next_slot st) id Hid) as [Hb1 Hb2].
  split; simpl; auto with bitdex; intros x.
  - rewrite elem_of_vb_insert. intros [->|Hx]; [lia|]. specialize (H2 _ Hx). lia.
  - rewrite elem_of_vb_insert, rb_elem_of_remove. intros [Hne Hx] [->|Hx']; [done|]. by apply (H3 x).
  - rewrite rb_elem_of_remove. intros [_ Hx]. specialize (H4 _ Hx). lia.
  - intros Hx. specialize (H5 _ Hx). lia.
Qed.

Lemma rb_min_elem_of (b : B) x : rb_min b = Some x -> x ∈ b.
Proof.
  rewrite rb_min_iter, rb_elem_of_iter. destruct (rb_iter b); simpl; [done|].
  intros [= ->]. set_solver.
Qed.

Lemma inv_allocate_next st : inv st -> next_slot st < u32_max -> inv (allocate_next st).2.
Proof.
  intros [H1 H2 H3 H4 H5 H6 H7] Hn. unfold allocate_next.
  destruct (rb_min (clean st)) as [r|] eqn:Er; simpl.
  - apply rb_min_elem_of in Er. split; simpl; auto with bitdex; intros x.
    + rewrite elem_of_vb_insert. intros [->|Hx]; auto.
    + rewrite elem_of_vb_insert, rb_elem_of_remove. intros [Hne Hx] [->|Hx']; [done|]. by apply (H3 x).
    + rewrite rb_elem_of_remove. intros [_ Hx]. auto.
  - rewrite wrap32_small by lia. split; simpl; auto with bitdex; intros x.
    + rewrite elem_of_vb_insert. intros [->|Hx]; [lia|]. specialize (H2 _ Hx). lia.
    + rewrite elem_of_vb_insert. intros Hx [->|Hx']; [|by apply (H3 x)].
      specialize (H4 _ Hx). lia.
    + intros Hx. specialize (H4 _ Hx). lia.
    + intros Hx. specialize (H5 _ Hx). lia.
Qed.

Lemma inv_alive_remove_one st slot : inv st -> inv (alive_remove_one st slot).
Proof.
  intros [H1 H2 H3 H4 H5 H6 H7]. split; simpl; auto with bitdex; intros x.
  - rewrite elem_of_vb_remove by done. intros [_ Hx]. auto.
  - rewrite elem_of_vb_remove by done. intros Hx [_ Hx']. by apply (H3 x).
Qed.

Lemma inv_delete st slot : inv st -> inv (delete st slot).2.
Proof.
  intros Hi. unfold delete. destruct (VersionedBitmap.contains (alive st) slot); simpl; [|done].
  by apply (inv_alive_remove_one st slot).
Qed.

Lemma inv_alive_insert_bulk st l :
  inv st -> (forall x, x ∈ l -> x < u32_max /\ x ∉ clean st) -> inv (alive_insert_bulk st l).
Proof.
  intros [H1 H2 H3 H4 H5 H6 H7] Hl. unfold alive_insert_bulk.
  destruct (foldl_bump_high_water l (next_slot st)) as [Hb1 Hb2]; [by intros; apply Hl|].
  set (m := foldl _ _ _) in *.
  assert ((if next_slot st <? m then m else next_slot st) = m) as ->.
  { destruct (next_slot st <? m) eqn:E; bool_to_prop; lia. }
  split; simpl; auto with bitdex; intros x.
  - rewrite elem_of_insert_bulk. intros [Hx|Hx]; [auto|]. specialize (H2 _ Hx). lia.
  - rewrite elem_of_insert_bulk. intros Hx [Hx'|Hx']; [by apply (Hl x)|by apply (H3 x)].
  - intros Hx. specialize (H4 _ Hx). lia.
  - intros Hx. specialize (H5 _ Hx). lia.
Qed.

Lemma inv_cancel_deferred st slot : inv st -> inv (cancel_deferred st slot).
Proof.
  intros [H1 H2 H3 H4 H5 H6 H7]. split; [done|done|done|done|..].
  - intros x Hx. apply waiting_cancel in Hx as [Hx _]. by apply H5.
  - intros x k1 k2 l1 l2 Hk1 Hk2 Hx1 Hx2.
    apply cancel_lookup_Some in Hk1 as (m1 & Hm1 & -> & _).
    apply cancel_lookup_Some in Hk2 as (m2 & Hm2 & -> & _).
    apply list_elem_of_filter in Hx1 as [_ Hx1]. apply list_elem_of_filter in Hx2 as [_ Hx2].
    by eapply (H6 x).
  - intros k l Hk. apply cancel_lookup_Some in Hk as (m & Hm & -> & _). apply NoDup_filter. eauto.
Qed.

Lemma cancel_not_elem st slot k l : deferred (cancel_deferred st slot) !! k = Some l -> slot ∉ l.
Proof.
  intros Hk. apply cancel_lookup_Some in Hk as (m & _ & -> & _).
  rewrite list_elem_of_filter. naive_solver.
Qed.

Lemma inv_schedule_alive st slot at_unix :
  inv st -> slot < u32_max -> inv (schedule_alive st slot at_unix).
Proof.
  intros Hi Hs. destruct (bump_high_water (next_slot st) slot Hs) as [Hb1 Hb2].
  pose proof (inv_cancel_deferred st slot Hi) as [_ _ _ _ C5 C6 C7].
  destruct Hi as [H1 H2 H3 H4 H5 H6 H7].
  assert (forall k l x, deferred (schedule_alive st slot at_unix) !! k = Some l -> x ∈ l ->
    (x = slot /\ k = at_unix) \/
    (x <> slot /\ exists l', deferred (cancel_deferred st slot) !! k = Some l' /\ x ∈ l')) as Hin.
  { intros k l x Hk Hx. rewrite schedule_deferred in Hk. case_decide as Hd.
    - apply (inj Some) in Hk as <-.
      apply elem_of_app in Hx as [Hx|Hx%list_elem_of_singleton]; [|by left].
      destruct (deferred (cancel_deferred st slot) !! k) as [l'|] eqn:E;
        [|by apply not_elem_of_nil in Hx].
      right. split; [|eauto]. intros ->. by eapply cancel_not_elem in E.
    - right. split; [|eauto]. intros ->. by eapply cancel_not_elem in Hk. }
  split; try done.
  - intros x Hx. specialize (H2 _ Hx). simpl. lia.
  - intros x Hx. specialize (H4 _ Hx). simpl. lia.
  - intros x (k & l & Hk & Hx). destruct (Hin _ _ _ Hk Hx) as [[-> _]|(_ & l' & Hl' & Hx')]; [done|].
    assert (x < next_slot st) by (apply C5; by exists k, l'). simpl. lia.
  - intros x k1 k2 l1 l2 Hk1 Hk2 Hx1 Hx2.
    destruct (Hin _ _ _ Hk1 Hx1) as [[-> ->]|(Hn1 & l1' & Hl1 & Hx1')],
      (Hin _ _ _ Hk2 Hx2) as [[E ->]|(Hn2 & l2' & Hl2 & Hx2')]; try done. eauto.
  - intros k l Hk. rewrite (schedule_deferred st slot at_unix k) in Hk. case_decide; [|eauto].
    apply (inj Some) in Hk as <-.
    destruct (deferred (cancel_deferred st slot) !! k) as [l'|] eqn:E; cbn [default from_option].
    + apply NoDup_app. split_and!; [eauto| |apply NoDup_singleton].
      intros x Hx ->%list_elem_of_singleton. by eapply cancel_not_elem in E.
    + apply NoDup_singleton.
Qed.

Lemma inv_activate_due st now :
  inv st -> (forall x, waiting st x -> x ∉ clean st) -> inv (activate_due st now).2.
Proof.
  intros [H1 H2 H3 H4 H5 H6 H7] Hc.
  destruct (activate_due_spec st now) as (_ & E1 & E2 & E3 & E4 & E5).
  assert (forall x, x ∈ due_slots st now -> waiting st x) as Hw.
  { intros x (k & l & Hk & _ & Hx)%elem_of_due_slots. by exists k, l. }
  assert (forall k l, deferred (activate_due st now).2 !! k = Some l -> deferred st !! k = Some l) as Hd.
  { intros k l. rewrite E5. by case_decide. }
  split.
  - rewrite E4. by apply wf_foldl_insert.
  - intros x. rewrite E4, E1, elem_of_foldl_insert. intros [Hx|Hx]; auto.
  - intros x. rewrite E4, E2, elem_of_foldl_insert. intros Hx [Hx'|Hx']; [|by apply (H3 x)].
    by apply (Hc x); auto.
  - intros x. rewrite E1, E2. auto.
  - intros x (k & l & Hk & Hx). rewrite E1. apply H5. exists k, l. auto.
  - intros x k1 k2 l1 l2 Hk1 Hk2. apply H6; auto.
  - intros k l Hk. eauto.
Qed.

Lemma inv_merge_alive st : inv st -> inv (merge_alive st).
Proof.
  intros [H1 H2 H3 H4 H5 H6 H7]. split; try done.
  - by apply wf_merge.
  - intros x Hx. apply (elem_of_merge (alive st) x H1) in Hx. by apply H2.
  - intros x Hx Hx'. apply (elem_of_merge (alive st) x H1) in Hx'. by apply (H3 x).
Qed.

Lemma inv_mark_clean st slot :
  inv st -> slot ∉ alive st -> slot < next_slot st -> inv (mark_clean st slot).
Proof.
  intros [H1 H2 H3 H4 H5 H6 H7] Ha1 Ha2. split; try done.
  - intros x Hx. apply rb_elem_of_insert in Hx as [->|Hx]; [done|]. by apply H3.
  - intros x Hx. apply rb_elem_of_insert in Hx as [->|Hx]; [done|]. by apply H4.
Qed.

Lemma inv_step st o : inv st -> allowed st o -> inv (step st o).
Proof.
  intros Hi Ha. destruct o; simpl in Ha; unfold step;
    [apply inv_allocate|apply inv_allocate_next|apply inv_delete|apply inv_alive_insert_bulk
    |apply inv_alive_remove_one|apply inv_merge_alive|apply inv_mark_clean
    |apply inv_schedule_alive|apply inv_cancel_deferred|apply inv_activate_due];
    try done; by destruct Ha.
Qed.

End slot_facts.

(** ** Properties *)

Section slot_properties.
Context {B : Type} `{HB : Roaring B}.
Import SlotAllocator.

(** in every state reachable through the allocator's operations the alive
    bitmap's diff is consistent, every alive, recycled or waiting slot lies below
    the high-water mark, no recycled slot is alive, and a slot waits under at
    most one activation time, once. *)
Theorem slot_reachable_inv (st : t B) : reachable st -> inv st.
Proof. induction 1 as [|st o _ IH Ha]; [apply inv_new|by apply inv_step]. Qed.

(** [allocate_next] hands out a slot that is not alive: the smallest recycled
    slot when there is one, else the high-water mark, which then advances; the
    slot becomes alive, stops being recycled, and no other slot changes. *)
Theorem allocate_next_fresh (st : t B) :
  inv st -> next_slot st < u32_max ->
  let (slot, st') := allocate_next st in
  is_alive st slot = false /\
  (forall x, is_alive st' x = (x =? slot) || is_alive st x) /\
  slot ∉ clean st' /\
  (slot ∈ clean st /\ (forall x, x ∈ clean st -> slot <= x) /\ next_slot st' = next_slot st \/
   (forall x, x ∉ clean st) /\ slot = next_slot st /\ next_slot st' = slot + 1).
Proof.
  intros [H1 H2 H3 H4 H5 H6 H7] Hn. unfold allocate_next, is_alive.
  assert (forall r x, VersionedBitmap.contains (VersionedBitmap.insert (alive st) r) x =
    (x =? r) || VersionedBitmap.contains (alive st) x) as Hins.
  { intros r x. apply eq_true_iff_eq.
    rewrite orb_true_iff, N.eqb_eq, !contains_true, elem_of_vb_insert. done. }
  destruct (rb_min (clean st)) as [r|] eqn:Er; simpl.
  - pose proof (rb_min_elem_of _ _ Er) as Hr. split_and!; auto.
    + apply contains_false. auto.
    + rewrite rb_elem_of_remove. naive_solver.
    + left. split_and!; [done| |done]. intros x Hx.
      pose proof (rb_iter_sorted (clean st)) as Hs. rewrite rb_min_iter in Er.
      rewrite rb_elem_of_iter in Hx. destruct (rb_iter (clean st)) as [|y l]; [done|].
      injection Er as ->. inversion_clear Hs as [|? ? _ Hall].
      apply elem_of_cons in Hx as [->|Hx]; [lia|].
      rewrite Forall_forall in Hall. specialize (Hall _ Hx). lia.
  - assert (forall x, x ∉ clean st) as He.
    { rewrite rb_min_iter in Er. apply rb_is_empty_spec, rb_is_empty_true.
      by destruct (rb_iter (clean st)). }
    split_and!; auto.
    + apply contains_false. intros Hx. specialize (H2 _ Hx). lia.
    + right. rewrite wrap32_small by lia. done.
Qed.

(** deferred activation.  After scheduling a slot, it waits under exactly the
    requested time (an earlier schedule is forgotten); [activate_due now] then
    returns the waiting lists whose time has come, earliest first, makes exactly
    those slots alive, and leaves the later ones waiting; a cancelled slot is not
    activated. *)
Theorem deferred_activation (st : t B) (slot at_unix now : N) :
  inv st -> slot < u32_max ->
  let st1 := schedule_alive st slot at_unix in
  let '(activated, st2) := activate_due st1 now in
  (forall k l, deferred st1 !! k = Some l -> (slot ∈ l <-> k = at_unix)) /\
  activated = due_slots st1 now /\
  (slot ∈ activated <-> at_unix <= now) /\
  (forall x, x ∈ alive st2 <-> x ∈ activated \/ x ∈ alive st) /\
  (forall x, waiting st2 x <-> waiting st1 x /\ x ∉ activated) /\
  slot ∉ (activate_due (cancel_deferred st slot) now).1.
Proof.
  intros Hi Hs. cbv zeta.
  pose proof (inv_schedule_alive st slot at_unix Hi Hs) as [_ _ _ _ _ J6 _].
  set (st1 := schedule_alive st slot at_unix) in *.
  assert (forall k l, deferred st1 !! k = Some l -> (slot ∈ l <-> k = at_unix)) as Hkey.
  { intros k l Hk. unfold st1 in Hk. rewrite schedule_deferred in Hk. case_decide.
    - apply (inj Some) in Hk as <-. rewrite elem_of_app, list_elem_of_singleton. naive_solver.
    - split; [|done]. intros Hx. by eapply cancel_not_elem in Hk. }
  destruct (activate_due_spec st1 now) as (E1 & _ & _ & _ & E4 & E5).
  destruct (activate_due st1 now) as [activated st2] eqn:Eact. simpl in E1, E4, E5.
  split_and!; [done|done| | | |].
  - rewrite E1, elem_of_due_slots. split.
    + intros (k & l & Hk & Hle & Hx). by rewrite <- (proj1 (Hkey _ _ Hk) Hx).
    + intros Hle. exists at_unix. unfold st1. rewrite schedule_deferred, decide_True by done.
      eexists. split_and!; [done|done|]. rewrite elem_of_app, list_elem_of_singleton. by right.
  - intros x. rewrite E4, elem_of_foldl_insert, E1. done.
  - intros x. rewrite E1, elem_of_due_slots. unfold waiting. setoid_rewrite E5. split.
    + intros (k & l & Hk & Hx). case_decide; [done|]. split; [eauto|].
      intros (k' & l' & Hk' & Hle & Hx'). rewrite (J6 x k' k l' l) in Hle by done. lia.
    + intros [(k & l & Hk & Hx) Hn]. exists k, l. split; [|done].
      case_decide; [|done]. exfalso. apply Hn. by exists k, l.
  - destruct (activate_due_spec (cancel_deferred st slot) now) as (-> & _).
    rewrite elem_of_due_slots. intros (k & l & Hk & _ & Hx). by eapply cancel_not_elem in Hk.
Qed.

(** deleting is exactly clearing the alive bit: it fails with [SlotNotFound]
    and changes nothing when the slot is not alive, and otherwise the slot, and
    no other, stops being alive and the count drops by one. *)
Theorem delete_clears_alive (st : t B) (slot : N) :
  inv st ->
  let '(r, st') := delete st slot in
  (is_alive st slot = false -> r = Err (SlotNotFound slot) /\ st' = st) /\
  (is_alive st slot = true ->
   r = Ok tt /\ all_slots_alive st' = false /\
   (forall x, is_alive st' x = negb (x =? slot) && is_alive st x) /\
   alive_count st = alive_count st' + 1).
Proof.
  intros [H1 _ _ _ _ _ _]. unfold delete, is_alive, alive_count.
  destruct (VersionedBitmap.contains (alive st) slot) eqn:E; simpl; split; try done.
  intros _. split_and!; [done|done| |].
  - intros x. apply eq_true_iff_eq.
    rewrite andb_true_iff, negb_true_iff, N.eqb_neq, !contains_true, elem_of_vb_remove; done.
  - apply contains_true in E. rewrite !fused_len_fused, N.add_comm.
    rewrite (rb_len_disjoint (rb_insert rb_new slot)
      (VersionedBitmap.fused (VersionedBitmap.remove (alive st) slot))).
    + f_equal. apply (rb_len_permutation _ [slot]); [apply NoDup_singleton|]. intros x. set_solver.
    + intros x. rewrite !elem_of_fused, elem_of_vb_remove by eauto with bitdex.
      rewrite rb_elem_of_insert. pose proof (rb_elem_of_new (B := B) x).
      destruct (decide (x = slot)); naive_solver.
    + intros x. rewrite elem_of_fused, elem_of_vb_remove by eauto with bitdex.
      rewrite rb_elem_of_insert. pose proof (rb_elem_of_new (B := B) x). naive_solver.
Qed.

End slot_properties.

(** Allocating the largest 32-bit id resets the high-water mark: the counter
    wraps to 0, so the slot that was just allocated, and every other slot, then
    reads as never allocated. *)
Lemma allocate_max_id_wraps :
  let st := (SlotAllocator.allocate (SlotAllocator.new : SlotAllocator.t Bitset) u32_max).2 in
  SlotAllocator.is_alive st u32_max = true /\
  SlotAllocator.slot_counter st = 0 /\
  forall x, SlotAllocator.was_ever_allocated st x = false.
Proof.
  cbv zeta. split; [vm_compute; reflexivity|split; [vm_compute; reflexivity|]].
  intros x. unfold SlotAllocator.was_ever_allocated. apply N.ltb_ge. apply N.le_0_l.
Qed.

Definition demo_alloc : SlotAllocator.t Bitset :=
  SlotAllocator.step (SlotAllocator.step (SlotAllocator.step SlotAllocator.new
    (SlotAllocator.Allocate 5)) (SlotAllocator.Delete 5)) (SlotAllocator.MarkClean 5).

Lemma demo_alloc_reachable : SlotAllocator.reachable demo_alloc.
Proof.
  apply SlotAllocator.reach_step; [apply SlotAllocator.reach_step;
    [apply SlotAllocator.reach_step; [apply SlotAllocator.reach_new|]|]|].
  - vm_compute. reflexivity.
  - exact I.
  - split; [|vm_compute; reflexivity]. apply contains_false. vm_compute. reflexivity.
Defined.

Lemma demo_alloc_inv : SlotAllocator.inv demo_alloc.
Proof.
  unfold demo_alloc. apply inv_mark_clean; [apply inv_delete, inv_allocate; [apply inv_new|]| |];
    [vm_compute; reflexivity| |vm_compute; reflexivity].
  apply contains_false. vm_compute. reflexivity.
Qed.

Lemma slot_reachable_inv_witness : SlotAllocator.inv demo_alloc.
Proof. apply (slot_reachable_inv demo_alloc), demo_alloc_reachable. Defined.

Lemma allocate_next_fresh_witness :
  SlotAllocator.allocate_next demo_alloc = (5, (SlotAllocator.allocate_next demo_alloc).2) /\
  SlotAllocator.is_alive demo_alloc 5 = false.
Proof.
  pose proof (allocate_next_fresh demo_alloc demo_alloc_inv ltac:(vm_compute; reflexivity)) as H.
  destruct H as (H & _). split; [vm_compute; reflexivity|exact H].
Defined.

Lemma deferred_activation_witness :
  (SlotAllocator.activate_due
    (SlotAllocator.schedule_alive (SlotAllocator.new : SlotAllocator.t Bitset) 7 100) 150).1 = [7] /\
  7 ∈ (SlotAllocator.activate_due
    (SlotAllocator.schedule_alive (SlotAllocator.new : SlotAllocator.t Bitset) 7 100) 150).1.
Proof.
  split; [vm_compute; reflexivity|].
  pose proof (deferred_activation (SlotAllocator.new : SlotAllocator.t Bitset) 7 100 150
    inv_new ltac:(vm_compute; reflexivity)) as H.
  destruct (SlotAllocator.activate_due _ 150) as [activated st2].
  destruct H as (_ & _ & H & _). apply H. vm_compute. discriminate.
Defined.

Lemma delete_clears_alive_witness :
  (SlotAllocator.delete demo_alloc 5).1 = Err (SlotNotFound 5).
Proof.
  pose proof (delete_clears_alive demo_alloc 5 demo_alloc_inv) as H.
  destruct (SlotAllocator.delete demo_alloc 5) as [r st']. destruct H as [H _].
  apply H. vm_compute. reflexivity.
Defined.
