(* ===== verification/Config.v ===== *)
(** * Field configuration (src/config.rs, src/filter.rs)

    The configuration records the index components carry.  [f64] settings are
    IEEE binary64 values ([spec_float]). *)

From S2P Require Import Prelude.
From Stdlib Require Export SpecFloat.

Inductive FilterFieldType : Type :=
  | SingleValue
  | MultiValue
  | Boolean.

Global Instance FilterFieldType_eq_dec : EqDecision FilterFieldType.
Proof. solve_decision. Defined.

Record BucketConfig : Type := MkBucketConfig {
  bc_name : string;
  bc_duration_secs : N;
  bc_refresh_interval_secs : N;
}.

Record FieldBehaviors : Type := MkFieldBehaviors {
  range_buckets : list BucketConfig;
  fb_sort_field : option string;
}.

Record EvictionConfig : Type := MkEvictionConfig { idle_seconds : spec_float }.

Record FilterFieldConfig : Type := MkFilterFieldConfig {
  ff_name : string;
  ff_field_type : FilterFieldType;
  behaviors : option FieldBehaviors;
  eviction : option EvictionConfig;
  ff_eager_load : bool;
  per_value_lazy : bool;
  max_range_scan_values : option N;
}.

Inductive ComputedOp : Type :=
  | Greatest
  | Least.

Record ComputedField : Type := MkComputedField {
  cf_op : ComputedOp;
  source_fields : list string;
}.

Record SortFieldConfig : Type := MkSortFieldConfig {
  sf_name : string;
  source_type : string;
  encoding : string;
  sf_bits : N;
  sf_eager_load : bool;
  computed : option ComputedField;
}.

(** A filter field with the serde defaults. *)
Definition filter_config (name : string) (ty : FilterFieldType) : FilterFieldConfig :=
  MkFilterFieldConfig name ty None None false false None.

(** A sort field with the serde defaults ([source_type], [encoding], no computation). *)
Definition sort_config (name : string) (bits : N) : SortFieldConfig :=
  MkSortFieldConfig name "uint32" "linear" bits false None.
