(* ===== verification/Sort.v ===== *)
(** * Bit-sliced sort fields (src/sort.rs)

    A sort field keeps one versioned bitmap per bit position; [top_n] finds the
    first [limit] candidates in (value, slot) order by walking the layers from
    the most significant bit.  Values are [u32]; shifts use the masked amount of
    a release build.  The fused view is cached inside the field, so reads thread
    the field's state. *)

From S2P Require Import Prelude Roaring Versioned Config.

(** [(value >> bit) & 1 == 1] on [u32]. *)
Definition bit_set (value : N) (bit : nat) : bool :=
  N.land (N.shiftr value (N.of_nat bit mod 32)) 1 =? 1.

(** [1u32 << bit]. *)
Definition one_shl (bit : nat) : N := wrap32 (N.shiftl 1 (N.of_nat bit mod 32)).

Module SortField.

Record t (B : Type) : Type := mk {
  bit_layers : list (VersionedBitmap.t B);
  num_bits : nat;
  config : SortFieldConfig;
  fused_cache : option (list B);
}.
Arguments mk {B} _ _ _ _.
Arguments bit_layers {B} _.
Arguments num_bits {B} _.
Arguments config {B} _.
Arguments fused_cache {B} _.

(** The bits [0..n] from the most significant down. *)
Definition bits_down (n : nat) : list nat := rev (seq 0 n).

Section ops.
Context {B : Type} `{!RoaringOps B}.

Definition new (cfg : SortFieldConfig) : t B :=
  let n := N.to_nat (sf_bits cfg) in
  mk (replicate n VersionedBitmap.new_empty) n cfg None.

(** [Clone]: the copy starts with a cold cache. *)
Definition clone (sf : t B) : t B := mk (bit_layers sf) (num_bits sf) (config sf) None.

Definition invalidate_fused (sf : t B) : t B :=
  mk (bit_layers sf) (num_bits sf) (config sf) None.

Definition with_layers (sf : t B) (layers : list (VersionedBitmap.t B)) : t B :=
  mk layers (num_bits sf) (config sf) (fused_cache sf).

Definition fused_layers (sf : t B) : list B * t B :=
  match fused_cache sf with
  | Some fused => (fused, sf)
  | None =>
      let fused := VersionedBitmap.fused_arc <$> bit_layers sf in
      (fused, mk (bit_layers sf) (num_bits sf) (config sf) (Some fused))
  end.

Definition insert (sf : t B) (slot value : N) : t B :=
  let sf := invalidate_fused sf in
  with_layers sf (foldl (fun layers bit =>
    if bit_set value bit then alter (fun vb => VersionedBitmap.insert vb slot) bit layers
    else layers) (bit_layers sf) (seq 0 (num_bits sf))).

Definition slot_has_any_bit (sf : t B) (slot : N) : bool :=
  existsb (fun layer => VersionedBitmap.contains layer slot) (bit_layers sf).

Definition remove (sf : t B) (slot : N) : t B :=
  let sf := invalidate_fused sf in
  with_layers sf ((fun layer => VersionedBitmap.remove layer slot) <$> bit_layers sf).

Definition update (sf : t B) (slot old_value new_value : N) : t B :=
  let sf := invalidate_fused sf in
  let diff := N.lxor old_value new_value in
  with_layers sf (foldl (fun layers bit =>
    if bit_set diff bit then
      if bit_set old_value bit
      then alter (fun vb => VersionedBitmap.remove vb slot) bit layers
      else alter (fun vb => VersionedBitmap.insert vb slot) bit layers
    else layers) (bit_layers sf) (seq 0 (num_bits sf))).

Definition set_layer_bulk (sf : t B) (bit : nat) (slots : list N) : t B :=
  let sf := invalidate_fused sf in
  match bit_layers sf !! bit with
  | Some layer => with_layers sf (<[bit := VersionedBitmap.insert_bulk layer slots]> (bit_layers sf))
  | None => sf
  end.

Definition or_layer (sf : t B) (bit : nat) (bitmap : B) : t B :=
  let sf := invalidate_fused sf in
  match bit_layers sf !! bit with
  | Some layer => with_layers sf (<[bit := VersionedBitmap.or_into_base layer bitmap]> (bit_layers sf))
  | None => sf
  end.

Definition clear_layer_bulk (sf : t B) (bit : nat) (slots : list N) : t B :=
  let sf := invalidate_fused sf in
  match bit_layers sf !! bit with
  | Some layer => with_layers sf (<[bit := foldl VersionedBitmap.remove layer slots]> (bit_layers sf))
  | None => sf
  end.

Definition layer (sf : t B) (bit : nat) : option B := VersionedBitmap.base <$> bit_layers sf !! bit.

Definition layer_fused (sf : t B) (bit : nat) : option B :=
  VersionedBitmap.fused_cow <$> bit_layers sf !! bit.

(** One pass of the bifurcation loop over [bits]; [layers[bit]] is in range for
    every bit the callers pass. *)
Fixpoint bifurcate_loop (descending : bool) (layers : list B) (bits : list nat)
    (result remaining : B) (remaining_limit : N) : B * B * N :=
  match bits with
  | [] => (result, remaining, remaining_limit)
  | bit :: bits' =>
      if (remaining_limit =? 0) || rb_is_empty remaining then (result, remaining, remaining_limit)
      else
        let layer := default rb_new (layers !! bit) in
        let preferred := if descending then rb_and remaining layer else rb_sub remaining layer in
        let preferred_count := rb_len preferred in
        if preferred_count =? 0 then
          bifurcate_loop descending layers bits' result remaining remaining_limit
        else if remaining_limit <=? preferred_count then
          bifurcate_loop descending layers bits' result preferred remaining_limit
        else
          bifurcate_loop descending layers bits' (rb_or result preferred)
            (rb_sub remaining preferred) (remaining_limit - preferred_count)
  end.

Definition bifurcate_with_layers (num_bits : nat) (candidates : B) (limit : N)
    (descending : bool) (layers : list B) : B :=
  if rb_len candidates <=? limit then candidates
  else
    let '(result, remaining, remaining_limit) :=
      bifurcate_loop descending layers (bits_down num_bits) rb_new candidates limit in
    if (0 <? remaining_limit) && negb (rb_is_empty remaining) then
      if descending
      then foldl rb_insert result (take (N.to_nat remaining_limit) (rev (rb_iter remaining)))
      else foldl rb_insert result (take (N.to_nat remaining_limit) (rb_iter remaining))
    else result.

Definition reconstruct_value_with_layers (slot : N) (layers : list B) : N :=
  foldl (fun value bl => if rb_contains bl.2 slot then N.lor value (one_shl bl.1) else value)
    0 (imap pair layers).

(** The comparators of [order_results_with_layers] on [(slot, value)] pairs. *)
Definition entry_le (descending : bool) (a b : N * N) : Prop :=
  if descending then b.2 < a.2 \/ (a.2 = b.2 /\ b.1 <= a.1)
  else a.2 < b.2 \/ (a.2 = b.2 /\ a.1 <= b.1).

Global Instance entry_le_dec descending a b : Decision (entry_le descending a b).
Proof. unfold entry_le. destruct descending; apply _. Defined.

Definition order_results_with_layers (result_bitmap : B) (descending : bool) (layers : list B)
    : list N :=
  let entries := (fun slot => (slot, reconstruct_value_with_layers slot layers))
                   <$> rb_iter result_bitmap in
  fst <$> merge_sort (entry_le descending) entries.

Fixpoint cursor_loop (descending : bool) (cursor_value : N) (layers : list B) (bits : list nat)
    (confirmed equal : B) : B * B :=
  match bits with
  | [] => (confirmed, equal)
  | bit :: bits' =>
      if rb_is_empty equal then (confirmed, equal)
      else
        let layer := default rb_new (layers !! bit) in
        if descending then
          if bit_set cursor_value bit then
            cursor_loop descending cursor_value layers bits'
              (rb_or confirmed (rb_sub equal layer)) (rb_and equal layer)
          else
            cursor_loop descending cursor_value layers bits' confirmed (rb_sub equal layer)
        else
          if bit_set cursor_value bit then
            cursor_loop descending cursor_value layers bits' confirmed (rb_and equal layer)
          else
            cursor_loop descending cursor_value layers bits'
              (rb_or confirmed (rb_and equal layer)) (rb_sub equal layer)
  end.

Definition apply_cursor_filter_with_layers (num_bits : nat) (candidates : B) (descending : bool)
    (cursor_sort_value cursor_slot_id : N) (layers : list B) : B :=
  let cursor_value := wrap32 cursor_sort_value in
  let '(confirmed, equal) :=
    cursor_loop descending cursor_value layers (bits_down num_bits) rb_new candidates in
  if negb (rb_is_empty equal) then
    let equal := if descending then rb_remove_range equal cursor_slot_id u32_max
                 else rb_remove_range equal 0 cursor_slot_id in
    rb_or confirmed equal
  else confirmed.

Definition top_n (sf : t B) (candidates : B) (limit : N) (descending : bool)
    (cursor : option (N * N)) : list N * t B :=
  if rb_is_empty candidates || (limit =? 0) then ([], sf)
  else
    let '(layers, sf) := fused_layers sf in
    let candidates :=
      match cursor with
      | Some (cursor_sort_value, cursor_slot_id) =>
          apply_cursor_filter_with_layers (num_bits sf) candidates descending
            cursor_sort_value cursor_slot_id layers
      | None => candidates
      end in
    if rb_is_empty candidates then ([], sf)
    else
      let top_n_bitmap := bifurcate_with_layers (num_bits sf) candidates limit descending layers in
      (order_results_with_layers top_n_bitmap descending layers, sf).

Definition reconstruct_value (sf : t B) (slot : N) : N :=
  foldl (fun value bit =>
    match bit_layers sf !! bit with
    | Some vb => if VersionedBitmap.fused_contains vb slot then N.lor value (one_shl bit) else value
    | None => value
    end) 0 (seq 0 (num_bits sf)).

Definition slots_in_range (sf : t B) (universe : B) (min_value max_value : N) : B :=
  foldl (fun result slot =>
    let val := reconstruct_value sf slot in
    if (min_value <=? val) && (val <? max_value) then rb_insert result slot else result)
    rb_new (rb_iter universe).

Definition merge_all (sf : t B) : t B :=
  let sf := invalidate_fused sf in
  with_layers sf (VersionedBitmap.merge <$> bit_layers sf).

Definition has_dirty (sf : t B) : bool := existsb VersionedBitmap.is_dirty (bit_layers sf).

Definition merge_dirty (sf : t B) : t B :=
  let sf := invalidate_fused sf in
  with_layers sf ((fun layer =>
    if negb (VersionedBitmap.is_dirty layer) then layer
    else VersionedBitmap.merge_with_timing layer) <$> bit_layers sf).

Definition is_fully_loaded (sf : t B) : bool := forallb VersionedBitmap.is_loaded (bit_layers sf).

Definition load_layers (sf : t B) (layers : list B) : t B :=
  let sf := invalidate_fused sf in
  with_layers sf (foldl (fun acc ib =>
    if (ib.1 <? length acc)%nat
    then alter (fun vb => VersionedBitmap.replace_base_preserve_diff vb ib.2) ib.1 acc
    else acc) (bit_layers sf) (imap pair layers)).

Definition layer_bases (sf : t B) : list B := VersionedBitmap.base <$> bit_layers sf.

Definition layer_bases_fused (sf : t B) : list B := VersionedBitmap.fused_cow <$> bit_layers sf.

Definition clear_bases_and_unload (sf : t B) : t B :=
  let sf := invalidate_fused sf in
  with_layers sf (VersionedBitmap.clear_base_and_unload <$> bit_layers sf).

(** ** Specification *)

(** Field well-formedness: one layer per bit, consistent diffs, and a cached
    fused view that is the fused view of the current layers. *)
Record wf (sf : t B) : Prop := {
  wf_length : length (bit_layers sf) = num_bits sf;
  wf_layers : Forall VersionedBitmap.wf (bit_layers sf);
  wf_cache : forall fused, fused_cache sf = Some fused ->
    fused = VersionedBitmap.fused_arc <$> bit_layers sf;
}.

(** The result order on slots, for a value assignment. *)
Definition slot_le (descending : bool) (value : N -> N) (a b : N) : Prop :=
  entry_le descending (a, value a) (b, value b).

Global Instance slot_le_dec descending value a b : Decision (slot_le descending value a b).
Proof. unfold slot_le. apply _. Defined.

(** [slot] sorts strictly after the cursor position [(v, s)]. *)
Definition after_cursor (descending : bool) (value : N -> N) (cursor : N * N) (slot : N) : Prop :=
  if descending then value slot < cursor.1 \/ (value slot = cursor.1 /\ slot < cursor.2)
  else cursor.1 < value slot \/ (value slot = cursor.1 /\ cursor.2 < slot).

Global Instance after_cursor_dec descending value c s : Decision (after_cursor descending value c s).
Proof. unfold after_cursor. destruct descending; apply _. Defined.

(** The page a query asks for, defined by sorting: the first [limit] candidates
    after the cursor. *)
Definition top_n_spec (value : N -> N) (candidates : list N) (limit : N) (descending : bool)
    (cursor : option (N * N)) : list N :=
  let cands := match cursor with
    | Some c => filter (after_cursor descending value c) candidates
    | None => candidates
    end in
  take (N.to_nat limit) (merge_sort (slot_le descending value) cands).

(** Enumerate a result set page by page, resuming each page at the last entry of
    the one before, as a keyset-paginating client does. *)
Fixpoint paginate (fuel : nat) (sf : t B) (candidates : B) (limit : N) (descending : bool)
    (cursor : option (N * N)) : list N :=
  match fuel with
  | O => []
  | S fuel =>
      let '(page, sf') := top_n sf candidates limit descending cursor in
      match last page with
      | Some s => page ++ paginate fuel sf' candidates limit descending
                    (Some (reconstruct_value sf' s, s))
      | None => []
      end
  end.

End ops.

End SortField.

(** ** The collection of sort fields

    [Arc] with [make_mut] on mutation is value semantics: a published snapshot
    never sees a later change. *)

Module SortIndex.

Section ops.
Context {B : Type} `{!RoaringOps B}.
Notation index := (gmap string (SortField.t B)).

Definition new : index := ∅.

Definition add_field (idx : index) (cfg : SortFieldConfig) : index :=
  <[sf_name cfg := SortField.new cfg]> idx.

Definition remove_field (idx : index) (name : string) : bool * index :=
  (bool_decide (is_Some (idx !! name)), delete name idx).

Definition get_field (idx : index) (name : string) : option (SortField.t B) := idx !! name.

(** Run a mutation through [get_field_mut]; [Arc::make_mut] may clone the field,
    which resets its cache, and every mutation drops the cache as well. *)
Definition get_field_mut (idx : index) (name : string) (f : SortField.t B -> SortField.t B) : index :=
  alter f name idx.

(** The replacement field [unload_field] and [unload_from] build. *)
Definition unloaded_copy (old : SortField.t B) : SortField.t B :=
  let new_field := SortField.new (SortField.config old) in
  SortField.with_layers new_field
    (foldl (fun layers ivb =>
      <[ivb.1 := if VersionedBitmap.is_dirty ivb.2
                 then VersionedBitmap.clone_diff_only ivb.2
                 else VersionedBitmap.new_unloaded]> layers)
      (SortField.bit_layers new_field) (imap pair (SortField.bit_layers old))).

Definition unload_field (idx : index) (name : string) : index :=
  match idx !! name with
  | Some old => <[name := unloaded_copy old]> idx
  | None => idx
  end.

Definition copy_field_arc_from (idx source : index) (name : string) : index :=
  match source !! name with
  | Some f => <[name := f]> idx
  | None => idx
  end.

Definition unload_from (idx source : index) (name : string) : index :=
  match source !! name with
  | Some source_field => <[name := unloaded_copy source_field]> idx
  | None => idx
  end.

End ops.

End SortIndex.
