(* ===== verification/SortFacts.v ===== *)
(** * Lemmas on sort fields

    The result order is total; the bifurcation loop keeps the candidates that
    sort first ([bif_inv]), the cursor walk partitions candidates against the
    cursor's bits ([cur_inv]), reconstruction reads the fused layers, and the
    layer updates keep a field well formed. *)

From S2P Require Import Prelude Roaring Versioned Config Sort.

(** ** The result order *)

Section order_facts.
Implicit Types (value : N -> N) (a b c : N).
Import SortField.

Global Instance slot_le_trans desc value : Transitive (slot_le desc value).
Proof. intros a b c. unfold slot_le, entry_le. destruct desc; simpl; lia. Qed.

Global Instance slot_le_total desc value : Total (slot_le desc value).
Proof. intros a b. unfold slot_le, entry_le. destruct desc; simpl; lia. Qed.

Global Instance slot_le_antisym desc value : AntiSymm (=) (slot_le desc value).
Proof. intros a b. unfold slot_le, entry_le. destruct desc; simpl; lia. Qed.

Lemma slot_le_ext desc v1 v2 a b :
  v1 a = v2 a -> v1 b = v2 b -> slot_le desc v1 a b <-> slot_le desc v2 a b.
Proof. unfold slot_le, entry_le. intros -> ->. done. Qed.

(** Being after the cursor of a slot is not sorting at or before it. *)
Lemma after_cursor_slot desc value a b :
  after_cursor desc value (value b, b) a <-> ~ slot_le desc value a b.
Proof. unfold after_cursor, slot_le, entry_le. destruct desc; simpl; lia. Qed.

(** Sorting [(slot, value)] entries is sorting the slots. *)
Lemma sort_entries_pairs desc value (l : list N) :
  merge_sort (entry_le desc) ((fun s => (s, value s)) <$> l) =
  (fun s => (s, value s)) <$> merge_sort (slot_le desc value) l.
Proof.
  assert (Transitive (entry_le desc)) by (intros [] [] []; unfold entry_le; destruct desc; simpl; lia).
  assert (Total (entry_le desc)) by (intros [] []; unfold entry_le; destruct desc; simpl; lia).
  assert (AntiSymm (=) (entry_le desc)).
  { intros [] []. unfold entry_le. destruct desc; simpl; intros; f_equal; lia. }
  symmetry. apply (merge_sort_unique (entry_le desc)).
  - apply (StronglySorted_fmap _ (slot_le desc value)); [done|]. apply (merge_sort_sorted _).
  - by rewrite merge_sort_Permutation.
Qed.

Lemma fst_entries (value : N -> N) (l : list N) : fst <$> ((fun s => (s, value s)) <$> l) = l.
Proof. rewrite <- list_fmap_compose. apply list_fmap_id. Qed.

Lemma sort_entries desc value (l : list N) :
  fst <$> merge_sort (entry_le desc) ((fun s => (s, value s)) <$> l) =
  merge_sort (slot_le desc value) l.
Proof. by rewrite sort_entries_pairs, fst_entries. Qed.

End order_facts.

(** ** Bifurcation *)

Section bifurcate.
Context {B : Type} `{HB : Roaring B}.
Context (layers : list B) (num_bits : nat) (value : N -> N) (desc : bool).
Context (Hbits : forall i slot, (i < num_bits)%nat ->
  N.testbit (value slot) (N.of_nat i) = rb_contains (default rb_new (layers !! i)) slot).
Context (Hhigh : forall slot, N.shiftr (value slot) (N.of_nat num_bits) = 0).
Implicit Types (result remaining candidates : B).
Import SortField.

(** Strictly better by value alone. *)
Definition better (x y : N) : Prop := if desc then value y < value x else value x < value y.

Lemma better_slot_le x y : better x y -> slot_le desc value x y.
Proof. unfold better, slot_le, entry_le. destruct desc; simpl; lia. Qed.

(** The loop invariant once the bits from [i] up have been examined. *)
Record bif_inv candidates (limit : N) (i : nat) result remaining (lim : N) : Prop := {
  bi_res : forall x, x ∈ result -> x ∈ candidates /\ x ∉ remaining;
  bi_rem : forall x, x ∈ remaining -> x ∈ candidates;
  bi_prefix : forall x y, x ∈ remaining -> y ∈ remaining ->
    N.shiftr (value x) (N.of_nat i) = N.shiftr (value y) (N.of_nat i);
  bi_res_better : forall r y, r ∈ result -> y ∈ candidates -> y ∉ result -> better r y;
  bi_rem_better : forall x y, x ∈ remaining -> y ∈ candidates -> y ∉ result -> y ∉ remaining ->
    better x y;
  bi_len : rb_len result + lim = limit;
  bi_lim : lim <= rb_len remaining;
}.

(** The preferred half of [remaining] at a bit: membership, and its order. *)
Definition preferred (bit : nat) remaining : B :=
  let layer := default rb_new (layers !! bit) in
  if desc then rb_and remaining layer else rb_sub remaining layer.

Lemma elem_of_preferred bit remaining x :
  (bit < num_bits)%nat ->
  x ∈ preferred bit remaining <->
  x ∈ remaining /\ N.testbit (value x) (N.of_nat bit) = desc.
Proof.
  intros Hbit. unfold preferred. rewrite Hbits by done.
  destruct desc; rewrite ?rb_elem_of_and, ?rb_elem_of_sub.
  - by rewrite rb_contains_true.
  - by rewrite rb_contains_false.
Qed.

Lemma preferred_better bit x y :
  N.shiftr (value x) (N.of_nat (S bit)) = N.shiftr (value y) (N.of_nat (S bit)) ->
  N.testbit (value x) (N.of_nat bit) = desc -> N.testbit (value y) (N.of_nat bit) = negb desc ->
  better x y.
Proof.
  intros Heq Hx Hy. unfold better. destruct desc.
  - by eapply shiftr_eq_bits_lt.
  - eapply shiftr_eq_bits_lt; [by symmetry|done..].
Qed.

Lemma not_preferred bit remaining y :
  (bit < num_bits)%nat -> y ∈ remaining -> y ∉ preferred bit remaining ->
  N.testbit (value y) (N.of_nat bit) = negb desc.
Proof.
  intros Hbit Hy Hn. rewrite elem_of_preferred in Hn by done.
  destruct (N.testbit (value y) (N.of_nat bit)) eqn:E, desc; try done; naive_solver.
Qed.

(** Case 1: no slot has the preferred bit. *)
Lemma bif_step_skip cands limit i res rem lim :
  (i < num_bits)%nat -> bif_inv cands limit (S i) res rem lim ->
  rb_len (preferred i rem) = 0 -> bif_inv cands limit i res rem lim.
Proof.
  intros Hi [H1 H2 H3 H4 H5 H6 H7] Hlen. split; try done. intros x y Hx Hy.
  apply shiftr_eq_succ; [by apply H3|]. rewrite rb_len_zero in Hlen.
  by rewrite (not_preferred i rem x), (not_preferred i rem y).
Qed.

(** Case 2: enough slots have it; narrow to them. *)
Lemma bif_step_narrow cands limit i res rem lim :
  (i < num_bits)%nat -> bif_inv cands limit (S i) res rem lim ->
  lim <= rb_len (preferred i rem) -> bif_inv cands limit i res (preferred i rem) lim.
Proof.
  intros Hi [H1 H2 H3 H4 H5 H6 H7] Hlim.
  assert (forall x, x ∈ preferred i rem <-> x ∈ rem /\ N.testbit (value x) (N.of_nat i) = desc) as Hp
    by (intros; by apply elem_of_preferred).
  split; try done.
  - intros x Hx. rewrite Hp. naive_solver.
  - intros x [Hx _]%Hp. auto.
  - intros x y [Hx Ex]%Hp [Hy Ey]%Hp. apply shiftr_eq_succ; [by apply H3|]. congruence.
  - intros x y [Hx Ex]%Hp Hy Hyr Hyp. destruct (decide (y ∈ rem)) as [Hyrem|]; [|by apply H5].
    apply (preferred_better i); [by apply H3|done|]. by apply (not_preferred i rem).
Qed.

(** Case 3: too few slots have it; they all win, the search goes on below. *)
Lemma bif_step_take cands limit i res rem lim :
  (i < num_bits)%nat -> bif_inv cands limit (S i) res rem lim ->
  rb_len (preferred i rem) < lim ->
  bif_inv cands limit i (rb_or res (preferred i rem)) (rb_sub rem (preferred i rem))
    (lim - rb_len (preferred i rem)).
Proof.
  intros Hi [H1 H2 H3 H4 H5 H6 H7] Hlim.
  assert (forall x, x ∈ preferred i rem <-> x ∈ rem /\ N.testbit (value x) (N.of_nat i) = desc) as Hp
    by (intros; by apply elem_of_preferred).
  assert (rb_len rem = rb_len (preferred i rem) + rb_len (rb_sub rem (preferred i rem))) as Hsplit.
  { apply rb_len_disjoint; intros x; rewrite rb_elem_of_sub; [|naive_solver].
    destruct (decide (x ∈ preferred i rem)); rewrite Hp in *; naive_solver. }
  assert (rb_len (rb_or res (preferred i rem)) = rb_len res + rb_len (preferred i rem)) as Hor.
  { apply rb_len_disjoint; intros x; [apply rb_elem_of_or|].
    rewrite Hp. intros Hx [Hx' _]. by apply (H1 x Hx). }
  split; [..|lia|lia].
  - intros x. rewrite rb_elem_of_or, rb_elem_of_sub. intros [Hx|Hx]; [naive_solver|].
    split; [|naive_solver]. apply H2. by apply Hp.
  - intros x [Hx _]%rb_elem_of_sub. auto.
  - intros x y [Hx Ex]%rb_elem_of_sub [Hy Ey]%rb_elem_of_sub.
    apply shiftr_eq_succ; [by apply H3|].
    by rewrite (not_preferred i rem x), (not_preferred i rem y).
  - intros r y [Hr|Hr]%rb_elem_of_or Hy Hn; rewrite rb_elem_of_or in Hn; [naive_solver|].
    pose proof Hr as [Hr1 Hr2]%Hp.
    destruct (decide (y ∈ rem)) as [Hyrem|]; [|apply H5; naive_solver].
    apply (preferred_better i); [by apply H3|done|]. apply (not_preferred i rem); naive_solver.
  - intros x y [Hx _]%rb_elem_of_sub Hy Hn Hn'. rewrite rb_elem_of_or in Hn.
    rewrite rb_elem_of_sub in Hn'. apply H5; naive_solver.
Qed.

Lemma bits_down_S n : bits_down (S n) = n :: bits_down n.
Proof. unfold bits_down. rewrite seq_S, rev_app_distr. done. Qed.

Lemma bifurcate_loop_inv cands limit i res rem lim :
  (i <= num_bits)%nat -> bif_inv cands limit i res rem lim ->
  exists j res' rem' lim',
    bifurcate_loop desc layers (bits_down i) res rem lim = (res', rem', lim') /\
    bif_inv cands limit j res' rem' lim' /\ (j = 0%nat \/ lim' = 0).
Proof.
  revert res rem lim. induction i as [|i IH]; intros res rem lim Hi Hinv.
  { exists 0%nat, res, rem, lim. auto. }
  rewrite bits_down_S. cbn [bifurcate_loop].
  destruct ((lim =? 0) || rb_is_empty rem) eqn:Estop.
  { exists (S i), res, rem, lim. split_and!; [done|done|right].
    apply orb_true_iff in Estop as [E|E]; bool_to_prop; [done|].
    pose proof (bi_lim _ _ _ _ _ _ Hinv) as Hl.
    rewrite rb_is_empty_spec in E. apply rb_len_zero in E. lia. }
  change (if desc then rb_and rem (default rb_new (layers !! i))
          else rb_sub rem (default rb_new (layers !! i))) with (preferred i rem).
  destruct (rb_len (preferred i rem) =? 0) eqn:E0; bool_to_prop.
  { apply IH; [lia|]. by apply bif_step_skip. }
  destruct (lim <=? rb_len (preferred i rem)) eqn:E1; bool_to_prop.
  - apply IH; [lia|]. by apply bif_step_narrow.
  - apply IH; [lia|]. by apply bif_step_take.
Qed.

Lemma bif_inv_init cands limit :
  limit <= rb_len cands -> bif_inv cands limit num_bits rb_new cands limit.
Proof.
  intros Hl. split.
  - intros x Hx. by apply rb_elem_of_new in Hx.
  - done.
  - intros x y _ _. by rewrite !Hhigh.
  - intros r y Hr. by apply rb_elem_of_new in Hr.
  - naive_solver.
  - rewrite (proj2 (rb_len_zero rb_new)); [lia|]. apply rb_elem_of_new.
  - done.
Qed.

Lemma elem_of_foldl_rb_insert (b : B) l x : x ∈ foldl rb_insert b l <-> x ∈ l \/ x ∈ b.
Proof.
  revert b. induction l as [|y l IH]; intros b; simpl; [set_solver|].
  rewrite IH, rb_elem_of_insert, elem_of_cons. tauto.
Qed.

(** The band of equal values is cut at the end that sorts first. *)
Lemma band_taken rem k x y (l := if desc then rev (rb_iter rem) else rb_iter rem) :
  (forall a b, a ∈ rem -> b ∈ rem -> value a = value b) ->
  x ∈ take k l -> y ∈ rem -> y ∉ take k l -> slot_le desc value x y.
Proof.
  intros Hv Hx Hy Hn.
  assert (forall a, a ∈ l <-> a ∈ rem) as Hl.
  { intros a. unfold l. rewrite (rb_elem_of_iter rem a).
    destruct desc; [|done]. rewrite !list_elem_of_In, <- in_rev. done. }
  assert (x ∈ rem) as Hxr.
  { apply Hl. rewrite <- (take_drop k l). apply elem_of_app. by left. }
  assert (y ∈ drop k l) as Hyd.
  { apply Hl in Hy. rewrite <- (take_drop k l) in Hy. apply elem_of_app in Hy as [?|?]; done. }
  pose proof (rb_iter_sorted rem) as Hs.
  assert (StronglySorted (if desc then flip N.lt else N.lt) l) as Hsl.
  { unfold l. destruct desc; [|done]. clear -Hs. induction Hs as [|z l Hs IH Hz]; [constructor|].
    simpl. apply StronglySorted_app_2; [|done|repeat constructor].
    intros a b Ha Hb%list_elem_of_singleton. subst. rewrite Forall_forall in Hz. apply Hz.
    rewrite list_elem_of_In in Ha |- *. by apply in_rev. }
  rewrite <- (take_drop k l) in Hsl.
  pose proof (StronglySorted_app_1_elem_of _ _ _ _ _ Hsl Hx Hyd) as Hlt.
  unfold slot_le, entry_le. rewrite (Hv x y Hxr Hy). destruct desc; simpl in *; right; unfold flip in *; lia.
Qed.

(** What [bifurcate_with_layers] returns: [min limit |candidates|] candidates that
    sort before all the others. *)
Lemma bifurcate_spec cands limit :
  let f := bifurcate_with_layers num_bits cands limit desc layers in
  (forall x, x ∈ f -> x ∈ cands) /\
  rb_len f = N.min limit (rb_len cands) /\
  (forall x y, x ∈ f -> y ∈ cands -> y ∉ f -> slot_le desc value x y).
Proof.
  cbv zeta. unfold bifurcate_with_layers.
  destruct (rb_len cands <=? limit) eqn:El; bool_to_prop.
  { split_and!; [done|lia|done]. }
  destruct (bifurcate_loop_inv cands limit num_bits rb_new cands limit) as
    (j & res & rem & lim & -> & [H1 H2 H3 H4 H5 H6 H7] & Hj); [done|apply bif_inv_init; lia|].
  set (l := if desc then rev (rb_iter rem) else rb_iter rem).
  assert ((if (0 <? lim) && negb (rb_is_empty rem)
    then if desc then foldl rb_insert res (take (N.to_nat lim) (rev (rb_iter rem)))
         else foldl rb_insert res (take (N.to_nat lim) (rb_iter rem))
    else res) = foldl rb_insert res (take (N.to_nat lim) l)) as ->.
  { destruct ((0 <? lim) && negb (rb_is_empty rem)) eqn:E; [unfold l; by destruct desc|].
    assert (lim = 0) as ->; [|done].
    apply andb_false_iff in E as [E|E]; bool_to_prop; [lia|].
    rewrite rb_is_empty_spec in E. apply rb_len_zero in E. lia. }
  assert (forall x, x ∈ l <-> x ∈ rem) as Hl.
  { intros a. unfold l. rewrite (rb_elem_of_iter rem a).
    destruct desc; [|done]. rewrite !list_elem_of_In, <- in_rev. done. }
  assert (forall x, x ∈ take (N.to_nat lim) l -> x ∈ rem) as Ht.
  { intros x Hx. apply Hl. rewrite <- (take_drop (N.to_nat lim) l). apply elem_of_app. by left. }
  assert (NoDup l) as Hnd.
  { unfold l. destruct desc; [|apply rb_iter_NoDup]. rewrite <- Permutation_rev.
    apply rb_iter_NoDup. }
  assert (length l = N.to_nat (rb_len rem)) as Hlen.
  { rewrite rb_len_iter, Nat2N.id. unfold l. destruct desc; [apply length_rev|done]. }
  split_and!.
  - intros x [Hx|Hx]%elem_of_foldl_rb_insert; [apply H2; auto|by apply H1].
  - rewrite (rb_len_permutation _ (rb_iter res ++ take (N.to_nat lim) l)).
    + rewrite length_app, length_take, Hlen. rewrite rb_len_iter in H6. lia.
    + apply NoDup_app. split_and!; [apply rb_iter_NoDup| |].
      * intros x Hx Hx'. apply (H1 x Hx). auto.
      * rewrite <- (take_drop (N.to_nat lim) l) in Hnd. by apply NoDup_app in Hnd as [Hnd _].
    + intros x. rewrite elem_of_foldl_rb_insert, elem_of_app. rewrite (rb_elem_of_iter res). tauto.
  - intros x y Hx Hy Hn. rewrite elem_of_foldl_rb_insert in Hx, Hn.
    destruct Hx as [Hx|Hx]; [|apply better_slot_le; apply H4; naive_solver].
    destruct (decide (y ∈ rem)) as [Hyr|Hyr].
    + apply (band_taken rem (N.to_nat lim)); [|done|done|naive_solver].
      intros a b Ha Hb. destruct Hj as [->| ->].
      * specialize (H3 a b Ha Hb). by rewrite !N.shiftr_0_r in H3.
      * simpl in Hx. by apply not_elem_of_nil in Hx.
    + apply better_slot_le. apply H5; naive_solver.
Qed.

End bifurcate.

(** ** The cursor filter *)

Lemma bit_set_0 i : bit_set 0 i = false.
Proof. unfold bit_set. by rewrite N.shiftr_0_l, N.land_0_l. Qed.

Lemma bit_set_testbit v i : (i < 32)%nat -> bit_set v i = N.testbit v (N.of_nat i).
Proof.
  intros Hi. unfold bit_set. rewrite N.mod_small by lia.
  rewrite <- (N.add_0_l (N.of_nat i)) at 2. rewrite <- N.shiftr_spec by lia.
  rewrite N.bit0_odd. change 1 with (N.ones 1) at 1. rewrite N.land_ones, N.pow_1_r, <- N.bit0_mod.
  rewrite N.bit0_odd. by destruct (N.odd (N.shiftr v (N.of_nat i))).
Qed.

Section cursor.
Context {B : Type} `{HB : Roaring B}.
Context (layers : list B) (num_bits : nat) (value : N -> N) (desc : bool) (cv : N).
Context (Hn : (num_bits <= 32)%nat).
Context (Hbits : forall i slot, (i < num_bits)%nat ->
  N.testbit (value slot) (N.of_nat i) = rb_contains (default rb_new (layers !! i)) slot).
Context (Hhigh : forall slot, N.shiftr (value slot) (N.of_nat num_bits) = 0).
Import SortField.

(** The cursor value as the walk sees it: its low [num_bits] bits. *)
Definition cursor_bits : N := cv mod 2 ^ N.of_nat num_bits.

Lemma cursor_bits_testbit i :
  (i < num_bits)%nat -> N.testbit cursor_bits (N.of_nat i) = bit_set cv i.
Proof.
  intros Hi. unfold cursor_bits. rewrite bit_set_testbit by lia.
  apply N.mod_pow2_bits_low. lia.
Qed.

Lemma cursor_bits_high : N.shiftr cursor_bits (N.of_nat num_bits) = 0.
Proof. apply shiftr_bound, N.mod_lt. apply N.pow_nonzero. lia. Qed.

(** Strictly past the cursor, looking at the bits from [i] up. *)
Definition past (i : nat) (x : N) : Prop :=
  if desc then N.shiftr (value x) (N.of_nat i) < N.shiftr cursor_bits (N.of_nat i)
  else N.shiftr cursor_bits (N.of_nat i) < N.shiftr (value x) (N.of_nat i).

Definition level (i : nat) (x : N) : Prop :=
  N.shiftr (value x) (N.of_nat i) = N.shiftr cursor_bits (N.of_nat i).

Record cur_inv (cands : B) (i : nat) (confirmed equal : B) : Prop := {
  ci_conf : forall x, x ∈ confirmed <-> x ∈ cands /\ past i x;
  ci_eq : forall x, x ∈ equal <-> x ∈ cands /\ level i x;
}.

(** Refining both classes by one bit. *)
Lemma level_succ i x :
  (i < num_bits)%nat ->
  level i x <-> level (S i) x /\
    rb_contains (default rb_new (layers !! i)) x = bit_set cv i.
Proof.
  intros Hi. unfold level. rewrite <- Hbits, <- cursor_bits_testbit by done.
  rewrite (shiftr_succ (value x) i), (shiftr_succ cursor_bits i).
  destruct (N.testbit (value x) (N.of_nat i)), (N.testbit cursor_bits (N.of_nat i)); simpl;
    split; intros; try (split; [lia|done]); destruct_and?; try lia; done.
Qed.

Lemma past_succ i x :
  (i < num_bits)%nat ->
  past i x <-> past (S i) x \/
    (level (S i) x /\ bit_set cv i = desc /\
     rb_contains (default rb_new (layers !! i)) x = negb desc).
Proof.
  intros Hi. unfold past, level. rewrite <- Hbits, <- cursor_bits_testbit by done.
  rewrite (shiftr_succ (value x) i), (shiftr_succ cursor_bits i).
  destruct desc, (N.testbit (value x) (N.of_nat i)), (N.testbit cursor_bits (N.of_nat i)); simpl;
    split; intros; destruct_or?; destruct_and?; try done; try lia;
    (destruct (N.lt_total (N.shiftr (value x) (N.of_nat (S i))) (N.shiftr cursor_bits (N.of_nat (S i))))
      as [?|[?|?]]; first [left; lia | right; split_and!; [lia|done|done] | lia]).
Qed.

Lemma cursor_loop_inv cands i confirmed equal :
  (i <= num_bits)%nat -> cur_inv cands i confirmed equal ->
  exists confirmed' equal',
    cursor_loop desc cv layers (bits_down i) confirmed equal = (confirmed', equal') /\
    cur_inv cands 0 confirmed' equal'.
Proof.
  revert confirmed equal. induction i as [|i IH]; intros confirmed equal Hi Hinv.
  { exists confirmed, equal. done. }
  rewrite bits_down_S. cbn [cursor_loop].
  assert (Hi' : (i < num_bits)%nat) by lia.
  pose proof (fun x => level_succ i x Hi') as Hlev. pose proof (fun x => past_succ i x Hi') as Hpast.
  destruct Hinv as [Hc He].
  destruct (rb_is_empty equal) eqn:Eempty.
  { exists confirmed, equal. split; [done|]. rewrite rb_is_empty_spec in Eempty.
    assert (forall j x, (j <= S i)%nat -> x ∈ cands -> ~ level j x) as Hno.
    { intros j x Hj Hx Hl. apply (Eempty x), He. split; [done|]. clear -Hl Hj.
      unfold level in *. replace (N.of_nat (S i)) with (N.of_nat j + (N.of_nat (S i) - N.of_nat j)) by lia.
      rewrite <- !N.shiftr_shiftr. congruence. }
    assert (forall j x, (j <= S i)%nat -> x ∈ cands -> past j x <-> past (S i) x) as Hp.
    { intros j x Hj Hx. remember (S i - j)%nat as k eqn:Ek. revert j Hj Ek.
      induction k as [|k IHk]; intros j Hj Ek; [by replace j with (S i) by lia|].
      rewrite past_succ by lia. rewrite (IHk (S j)) by lia.
      specialize (Hno (S j) x ltac:(lia) Hx). tauto. }
    split; intros x.
    - rewrite Hc. split; intros [Hx Hpx]; (split; [done|]); apply (Hp 0%nat x); done || lia.
    - rewrite He. split; intros [Hx Hl]; exfalso; by eapply Hno; [| |exact Hl]; [lia|]. }
  destruct desc eqn:Ed, (bit_set cv i) eqn:Eb; apply IH; try lia; split; intros x;
    rewrite ?rb_elem_of_or, ?rb_elem_of_sub, ?rb_elem_of_and, ?Hc, ?He, ?Hlev, ?Hpast,
      <- ?rb_contains_true, ?not_true_iff_false, ?Ed, ?Eb;
    destruct (rb_contains (default rb_new (layers !! i)) x); naive_solver.
Qed.

Lemma cursor_filter_spec cands slot_id x :
  (forall y, y ∈ cands -> y <= u32_max) -> cv <= u32_max ->
  x ∈ apply_cursor_filter_with_layers num_bits cands desc cv slot_id layers <->
  x ∈ cands /\ after_cursor desc value (cursor_bits, slot_id) x.
Proof.
  intros Hu Hcv. unfold apply_cursor_filter_with_layers.
  assert (wrap32 cv = cv) as -> by (unfold wrap32, u32_max in *; apply N.mod_small; lia).
  destruct (cursor_loop_inv cands num_bits rb_new cands) as (conf & eq & -> & [Hc He]); [done|..].
  { split; intros y.
    - split; [by intros ?%rb_elem_of_new|]. unfold past.
      rewrite Hhigh, cursor_bits_high. destruct desc; lia.
    - unfold level. rewrite Hhigh, cursor_bits_high. tauto. }
  assert (forall y, past 0 y <->
    if desc then value y < cursor_bits else cursor_bits < value y) as Hp.
  { intros y. unfold past. by rewrite !N.shiftr_0_r. }
  assert (forall y, level 0 y <-> value y = cursor_bits) as Hl.
  { intros y. unfold level. by rewrite !N.shiftr_0_r. }
  assert (x ∈ (if negb (rb_is_empty eq) then
      rb_or conf (if desc then rb_remove_range eq slot_id u32_max else rb_remove_range eq 0 slot_id)
    else conf) <-> x ∈ conf \/
      (x ∈ eq /\ if desc then ~ (slot_id <= x <= u32_max) else ~ (0 <= x <= slot_id))) as Hx.
  { destruct (rb_is_empty eq) eqn:E; simpl.
    - rewrite rb_is_empty_spec in E. specialize (E x). tauto.
    - destruct desc; rewrite rb_elem_of_or, rb_elem_of_remove_range; tauto. }
  cbv zeta. rewrite Hx, Hc, He, Hp, Hl. unfold after_cursor.
  destruct desc; simpl; (split; [intros [[? ?]|[[? ?] ?]]|intros [? [?|[? ?]]]]);
    (try (specialize (Hu x ltac:(done)))); try (split; [done|]); try tauto;
    first [right; split; [done|lia] | left; done | right; split; [done|lia] ].
Qed.

End cursor.

(** ** Value reconstruction *)

Section reconstruct.
Context {B : Type} `{HB : Roaring B}.
Import SortField.
Implicit Types (sf : SortField.t B) (slot : N).

Lemma one_shl_testbit i j : (i < 32)%nat -> N.testbit (one_shl i) j = (j =? N.of_nat i).
Proof.
  intros Hi. unfold one_shl, wrap32. rewrite (N.mod_small (N.of_nat i) 32) by lia.
  rewrite N.shiftl_1_l.
  rewrite N.mod_small.
  - rewrite N.pow2_bits_eqb. apply N.eqb_sym.
  - change 4294967296 with (2 ^ 32). apply N.pow_lt_mono_r; lia.
Qed.

(** Bits collected by OR-ing the set layers. *)
Lemma foldl_lor_testbit {A} (has : A -> bool) (idx : A -> nat) (l : list A) acc j :
  (forall a, a ∈ l -> (idx a < 32)%nat) ->
  N.testbit (foldl (fun v a => if has a then N.lor v (one_shl (idx a)) else v) acc l) j =
  N.testbit acc j || existsb (fun a => has a && (j =? N.of_nat (idx a))) l.
Proof.
  revert acc. induction l as [|a l IH]; intros acc Hl; simpl; [by rewrite orb_false_r|].
  rewrite IH by (intros; apply Hl; apply elem_of_cons; by right).
  destruct (has a); simpl; [|done].
  rewrite N.lor_spec, one_shl_testbit by (apply Hl, elem_of_cons; by left).
  by rewrite orb_assoc.
Qed.

Lemma reconstruct_with_layers_testbit slot (layers : list B) (i : nat) :
  (length layers <= 32)%nat ->
  N.testbit (reconstruct_value_with_layers slot layers) (N.of_nat i) =
  rb_contains (default rb_new (layers !! i)) slot.
Proof.
  intros Hlen. unfold reconstruct_value_with_layers.
  rewrite (foldl_lor_testbit (fun bl => rb_contains bl.2 slot) fst).
  2:{ intros [k b] (k' & b' & [= -> ->] & Hk)%elem_of_lookup_imap_1.
      apply lookup_lt_Some in Hk. simpl. lia. }
  rewrite N.bits_0. simpl. apply eq_true_iff_eq. rewrite existsb_exists. split.
  - intros ([k b] & Hin & Hb). apply list_elem_of_In in Hin.
    apply elem_of_lookup_imap_1 in Hin as (k' & b' & [= -> ->] & Hk).
    simpl in Hb. apply andb_true_iff in Hb as [Hb Hj%N.eqb_eq].
    apply Nat2N.inj in Hj as ->. by rewrite Hk.
  - intros Hc. destruct (layers !! i) as [b|] eqn:E; simpl in Hc.
    + exists (i, b). split.
      * apply list_elem_of_In. by apply (elem_of_lookup_imap_2 pair).
      * simpl. by rewrite Hc, N.eqb_refl.
    + exfalso. apply rb_contains_true in Hc. by apply rb_elem_of_new in Hc.
Qed.

(** Logical membership of a slot in layer [i]. *)
Definition layer_has sf (i : nat) slot : Prop :=
  exists vb, bit_layers sf !! i = Some vb /\ slot ∈ vb.

Lemma reconstruct_testbit sf slot (j : N) :
  (num_bits sf <= 32)%nat ->
  N.testbit (reconstruct_value sf slot) j = true <->
  exists i, j = N.of_nat i /\ (i < num_bits sf)%nat /\ layer_has sf i slot.
Proof.
  intros Hn. unfold reconstruct_value.
  set (has := fun bit => match bit_layers sf !! bit with
    | Some vb => VersionedBitmap.fused_contains vb slot | None => false end).
  assert (forall l acc, foldl (fun value bit =>
    match bit_layers sf !! bit with
    | Some vb => if VersionedBitmap.fused_contains vb slot then N.lor value (one_shl bit) else value
    | None => value end) acc l =
    foldl (fun v bit => if has bit then N.lor v (one_shl bit) else v) acc l) as ->.
  { induction l as [|b l IH]; intros acc; [done|]. simpl. rewrite IH. f_equal. unfold has.
    by destruct (bit_layers sf !! b). }
  rewrite (foldl_lor_testbit has (fun b => b)).
  2:{ intros a Ha. apply list_elem_of_In, in_seq in Ha. lia. }
  rewrite N.bits_0. simpl. rewrite existsb_exists. unfold layer_has, has. split.
  - intros (i & Hi%in_seq & Hb). apply andb_true_iff in Hb as [Hb Hj%N.eqb_eq].
    exists i. split_and!; [done|lia|]. destruct (bit_layers sf !! i) as [vb|]; [|done].
    exists vb. split; [done|]. by apply fused_contains_true.
  - intros (i & -> & Hi & vb & Hvb & Hs). exists i. split; [apply in_seq; lia|].
    rewrite Hvb, N.eqb_refl, andb_true_r. by apply fused_contains_true.
Qed.

(** Reading through the fused view gives the same value. *)
Lemma reconstruct_fused sf slot :
  wf sf -> (num_bits sf <= 32)%nat ->
  reconstruct_value_with_layers slot (VersionedBitmap.fused_arc <$> bit_layers sf) =
  reconstruct_value sf slot.
Proof.
  intros [Hl Hw _] Hn. apply N.bits_inj. intros j. rewrite <- (N2Nat.id j).
  set (i := N.to_nat j). apply eq_true_iff_eq.
  rewrite reconstruct_with_layers_testbit, reconstruct_testbit by (rewrite ?length_fmap; lia).
  rewrite list_lookup_fmap. unfold layer_has. split.
  - intros Hc. destruct (bit_layers sf !! i) as [vb|] eqn:E; simpl in Hc.
    + exists i. split_and!; [done|apply lookup_lt_Some in E; lia|]. exists vb. split; [done|].
      apply elem_of_fused; [by eapply Forall_lookup_1|]. by apply rb_contains_true.
    + apply rb_contains_true in Hc. by apply rb_elem_of_new in Hc.
  - intros (i' & Hi & _ & vb & Hvb & Hs). apply Nat2N.inj in Hi as <-. rewrite Hvb. simpl.
    apply rb_contains_true. apply (elem_of_fused vb); [by eapply Forall_lookup_1|done].
Qed.

Lemma reconstruct_bound sf slot :
  (num_bits sf <= 32)%nat -> reconstruct_value sf slot < 2 ^ N.of_nat (num_bits sf).
Proof.
  intros Hn. apply testbit_bound. intros j Hj. apply not_true_iff_false.
  rewrite reconstruct_testbit by done. intros (i & -> & Hi & _). lia.
Qed.

Lemma fused_layers_spec sf :
  wf sf -> (fused_layers sf).1 = VersionedBitmap.fused_arc <$> bit_layers sf /\
  bit_layers (fused_layers sf).2 = bit_layers sf /\
  num_bits (fused_layers sf).2 = num_bits sf /\ wf (fused_layers sf).2.
Proof.
  intros Hwf. unfold fused_layers. destruct (fused_cache sf) as [fused|] eqn:E; simpl.
  - split_and!; [by apply wf_cache|done..].
  - split_and!; [done..|]. destruct Hwf as [H1 H2 _]. split; [done|done|]. by intros ? [= <-].
Qed.

(** Sorting under value assignments that agree. *)
Lemma merge_sort_slot_le_ext desc v1 v2 l :
  (forall x, x ∈ l -> v1 x = v2 x) ->
  merge_sort (slot_le desc v1) l = merge_sort (slot_le desc v2) l.
Proof.
  intros Hv. apply (merge_sort_unique (slot_le desc v2)); [|by rewrite merge_sort_Permutation].
  pose proof (merge_sort_sorted (slot_le desc v1) l) as Hs.
  assert (forall x, x ∈ merge_sort (slot_le desc v1) l -> v1 x = v2 x) as Hv'.
  { intros x. rewrite merge_sort_Permutation. auto. }
  clear Hv. induction Hs as [|x m Hs IH Hx]; constructor.
  - apply IH. intros y Hy. apply Hv', elem_of_cons. by right.
  - rewrite Forall_forall in Hx |- *. intros y Hy.
    apply (slot_le_ext desc v1 v2); [apply Hv', elem_of_cons; by left| |by apply Hx].
    apply Hv', elem_of_cons. by right.
Qed.

(** The page selected from a candidate bitmap, cursor already applied. *)
Lemma page_spec sf cands limit desc (layers := VersionedBitmap.fused_arc <$> bit_layers sf) :
  wf sf -> (num_bits sf <= 32)%nat ->
  order_results_with_layers (bifurcate_with_layers (num_bits sf) cands limit desc layers) desc layers
  = take (N.to_nat limit) (merge_sort (slot_le desc (reconstruct_value sf)) (rb_iter cands)).
Proof.
  intros Hwf Hn. unfold order_results_with_layers. rewrite sort_entries.
  rewrite (merge_sort_slot_le_ext _ _ (reconstruct_value sf))
    by (intros; by apply reconstruct_fused).
  destruct (bifurcate_spec layers (num_bits sf) (reconstruct_value sf) desc) with
    (cands := cands) (limit := limit) as (H1 & H2 & H3).
  { intros i slot Hi. rewrite <- reconstruct_fused by done.
    apply reconstruct_with_layers_testbit. unfold layers.
    rewrite length_fmap, (wf_length _ Hwf). done. }
  { intros slot. by apply shiftr_bound, reconstruct_bound. }
  set (f := bifurcate_with_layers _ _ _ _ _) in *.
  rewrite (merge_sort_top_k (slot_le desc (reconstruct_value sf)) (rb_iter cands) (rb_iter f));
    [|apply rb_iter_NoDup|apply rb_iter_NoDup|done|done].
  rewrite !rb_len_iter in H2.
  destruct (N.le_ge_cases limit (N.of_nat (length (rb_iter cands)))) as [Hle|Hge].
  - f_equal. lia.
  - rewrite !take_ge; [done|..]; rewrite merge_sort_Permutation; lia.
Qed.

End reconstruct.

(** ** Layer updates *)

Section updates.
Context {B : Type} `{HB : Roaring B}.
Import SortField.
Implicit Types (sf : SortField.t B) (slot : N) (vb : VersionedBitmap.t B).

(** A loop that changes the layer it visits by [g]. *)
Lemma foldl_seq_lookup {A} (F : list A -> nat -> list A) (g : nat -> A -> A) k n (l : list A) i :
  (forall l bit j, F l bit !! j = if decide (j = bit) then g bit <$> l !! j else l !! j) ->
  foldl F l (seq k n) !! i =
  if decide (k <= i < k + n)%nat then g i <$> l !! i else l !! i.
Proof.
  intros HF. revert k l. induction n as [|n IH]; intros k l; simpl.
  { rewrite decide_False by lia. done. }
  rewrite IH, HF. repeat case_decide; subst; try lia; done.
Qed.

Lemma foldl_length {A C} (F : list A -> C -> list A) (l : list A) (cs : list C) :
  (forall l c, length (F l c) = length l) -> length (foldl F l cs) = length l.
Proof. intros HF. revert l. induction cs as [|c cs IH]; intros l; simpl; [done|]. by rewrite IH. Qed.

Lemma lookup_alter_if {A} (f : A -> A) (l : list A) (b j : nat) (c : bool) :
  (if c then alter f b l else l) !! j =
  if decide (j = b) then (fun x => if c then f x else x) <$> l !! j else l !! j.
Proof.
  destruct c; case_decide; subst.
  - by rewrite list_lookup_alter_eq.
  - by rewrite list_lookup_alter_ne.
  - by destruct (l !! b).
  - done.
Qed.

(** What [insert] and [update] do to layer [i]. *)
Definition insert_layer (slot value : N) (i : nat) vb : VersionedBitmap.t B :=
  if bit_set value i then VersionedBitmap.insert vb slot else vb.

Definition update_layer (slot old_value new_value : N) (i : nat) vb : VersionedBitmap.t B :=
  if bit_set (N.lxor old_value new_value) i then
    if bit_set old_value i then VersionedBitmap.remove vb slot else VersionedBitmap.insert vb slot
  else vb.

Lemma insert_lookup sf slot value i :
  wf sf -> bit_layers (insert sf slot value) !! i = insert_layer slot value i <$> bit_layers sf !! i.
Proof.
  intros Hwf. unfold insert, with_layers, invalidate_fused. simpl.
  rewrite (foldl_seq_lookup _ (insert_layer slot value)).
  - case_decide; [done|]. rewrite lookup_ge_None_2; [done|]. rewrite (wf_length _ Hwf). lia.
  - intros l bit j. apply lookup_alter_if.
Qed.

Lemma update_lookup sf slot old_value new_value i :
  wf sf -> bit_layers (update sf slot old_value new_value) !! i =
  update_layer slot old_value new_value i <$> bit_layers sf !! i.
Proof.
  intros Hwf. unfold update, with_layers, invalidate_fused. simpl.
  rewrite (foldl_seq_lookup _ (update_layer slot old_value new_value)).
  - case_decide; [done|]. rewrite lookup_ge_None_2; [done|]. rewrite (wf_length _ Hwf). lia.
  - intros l bit j. unfold update_layer.
    destruct (bit_set (N.lxor old_value new_value) bit), (bit_set old_value bit);
      try apply (lookup_alter_if _ l bit j true); by apply (lookup_alter_if (fun v => v) l bit j false).
Qed.

(** A field with the same shape, consistent layers and a cold cache is well formed. *)
Lemma wf_mk layers n cfg :
  length layers = n -> Forall VersionedBitmap.wf layers -> wf (mk layers n cfg None : t B).
Proof. intros. by split. Qed.

Lemma wf_of_lookup sf sf' (g : nat -> VersionedBitmap.t B -> VersionedBitmap.t B) :
  wf sf -> num_bits sf' = num_bits sf -> fused_cache sf' = None ->
  length (bit_layers sf') = length (bit_layers sf) ->
  (forall i, bit_layers sf' !! i = g i <$> bit_layers sf !! i) ->
  (forall i vb, VersionedBitmap.wf vb -> VersionedBitmap.wf (g i vb)) ->
  wf sf'.
Proof.
  intros [H1 H2 _] Hn Hc Hl Hg Hw. split; [lia| |by rewrite Hc].
  apply Forall_lookup. intros i vb Hi. rewrite Hg in Hi.
  apply fmap_Some in Hi as (vb' & Hvb' & ->). apply Hw. by eapply Forall_lookup_1.
Qed.

Lemma wf_insert_sf sf slot value : wf sf -> wf (insert sf slot value).
Proof.
  intros Hwf. eapply (wf_of_lookup sf _ (insert_layer slot value)); [done|done|done| | |].
  - apply foldl_length. intros l c. destruct (bit_set value c); [apply length_alter|done].
  - intros i. by apply insert_lookup.
  - intros i vb Hvb. unfold insert_layer. destruct (bit_set value i); auto with bitdex.
Qed.

Lemma wf_update_sf sf slot o n : wf sf -> wf (update sf slot o n).
Proof.
  intros Hwf. eapply (wf_of_lookup sf _ (update_layer slot o n)); [done|done|done| | |].
  - apply foldl_length. intros l c.
    destruct (bit_set (N.lxor o n) c), (bit_set o c); rewrite ?length_alter; done.
  - intros i. by apply update_lookup.
  - intros i vb Hvb. unfold update_layer.
    destruct (bit_set (N.lxor o n) i), (bit_set o i); auto with bitdex.
Qed.

Lemma wf_fmap_sf sf (f : VersionedBitmap.t B -> VersionedBitmap.t B) :
  wf sf -> (forall vb, VersionedBitmap.wf vb -> VersionedBitmap.wf (f vb)) ->
  wf (mk (f <$> bit_layers sf) (num_bits sf) (config sf) None).
Proof.
  intros [H1 H2 _] Hf. apply wf_mk; [by rewrite length_fmap|].
  apply Forall_fmap. eapply Forall_impl; [done|]. intros vb. apply Hf.
Qed.

Lemma wf_one_layer sf bit (f : VersionedBitmap.t B -> VersionedBitmap.t B) :
  wf sf -> (forall vb, VersionedBitmap.wf vb -> VersionedBitmap.wf (f vb)) ->
  wf (match bit_layers sf !! bit with
      | Some layer => mk (<[bit := f layer]> (bit_layers sf)) (num_bits sf) (config sf) None
      | None => mk (bit_layers sf) (num_bits sf) (config sf) None end).
Proof.
  intros [H1 H2 _] Hf. destruct (bit_layers sf !! bit) as [vb|] eqn:E; apply wf_mk; try done.
  - by rewrite length_insert.
  - apply Forall_insert; [done|]. apply Hf. by eapply Forall_lookup_1.
Qed.

Lemma wf_foldl_remove vb slots : VersionedBitmap.wf vb -> VersionedBitmap.wf (foldl VersionedBitmap.remove vb slots).
Proof. revert vb. induction slots; intros vb Hvb; simpl; auto with bitdex. Qed.

Lemma load_layers_lookup sf disk i :
  bit_layers (load_layers sf disk) !! i =
  match disk !! i with
  | Some b => (fun vb => VersionedBitmap.replace_base_preserve_diff vb b) <$> bit_layers sf !! i
  | None => bit_layers sf !! i
  end.
Proof.
  unfold load_layers, with_layers, invalidate_fused. simpl.
  assert (forall (ps : list (nat * B)) (l : list (VersionedBitmap.t B)),
    NoDup ps.*1 ->
    foldl (fun acc ib => if (ib.1 <? length acc)%nat
      then alter (fun vb => VersionedBitmap.replace_base_preserve_diff vb ib.2) ib.1 acc
      else acc) l ps !! i =
    match list_find (fun ib => ib.1 = i) ps with
    | Some (_, ib) => (fun vb => VersionedBitmap.replace_base_preserve_diff vb ib.2) <$> l !! i
    | None => l !! i
    end) as Hfold.
  { induction ps as [|[k b] ps IH]; intros l Hnd; [done|]. cbn [foldl list_find].
    rewrite fmap_cons in Hnd. apply NoDup_cons in Hnd as [Hk Hnd]. rewrite IH by done.
    assert ((if (k <? length l)%nat
      then alter (fun vb => VersionedBitmap.replace_base_preserve_diff vb b) k l else l) !! i =
      if decide (i = k) then (fun vb => VersionedBitmap.replace_base_preserve_diff vb b) <$> l !! i
      else l !! i) as Hstep.
    { destruct (Nat.ltb_spec k (length l)); [apply (lookup_alter_if _ l k i true)|].
      case_decide; [subst|done]. by rewrite (lookup_ge_None_2 l k). }
    cbn [fst snd]. rewrite Hstep. destruct (decide (k = i)) as [->|Hne].
    - rewrite decide_True by done.
      destruct (list_find (fun ib : nat * B => ib.1 = i) ps) as [[m [k' b']]|] eqn:E; [|done].
      exfalso. apply list_find_Some in E as (Hm & Hk' & _). cbn [fst] in Hk'. apply Hk.
      apply list_elem_of_fmap. exists (k', b'). split; [done|]. by eapply list_elem_of_lookup_2.
    - rewrite decide_False by done.
      by destruct (list_find (fun ib : nat * B => ib.1 = i) ps) as [[m [k' b']]|]. }
  rewrite Hfold.
  2:{ clear Hfold. assert ((imap pair disk).*1 = seq 0 (length disk)) as ->.
      { apply list_eq. intros j. rewrite list_lookup_fmap, list_lookup_imap.
        destruct (disk !! j) eqn:E; simpl.
        - apply lookup_lt_Some in E. by rewrite lookup_seq_lt.
        - apply lookup_ge_None in E. by rewrite lookup_seq_ge. }
      apply NoDup_seq. }
  destruct (disk !! i) as [b|] eqn:E.
  - destruct (list_find (fun ib : nat * B => ib.1 = i) (imap pair disk)) as [[m [k b']]|] eqn:Ef.
    + apply list_find_Some in Ef as (Hm & Hk & _). rewrite list_lookup_imap in Hm.
      apply fmap_Some in Hm as (b'' & Hb'' & [= -> ->]). cbn [fst] in Hk. subst m.
      cbn [snd]. by simplify_eq.
    + exfalso. apply list_find_None in Ef. rewrite Forall_forall in Ef.
      apply (Ef (i, b)); [|done]. by apply (elem_of_lookup_imap_2 pair).
  - destruct (list_find (fun ib : nat * B => ib.1 = i) (imap pair disk)) as [[m [k b']]|] eqn:Ef; [|done].
    exfalso. apply list_find_Some in Ef as (Hm & Hk & _). rewrite list_lookup_imap in Hm.
    apply fmap_Some in Hm as (b'' & Hb'' & [= -> ->]). cbn [fst] in Hk. congruence.
Qed.

Lemma wf_load_layers sf disk : wf sf -> wf (load_layers sf disk).
Proof.
  intros Hwf.
  apply (wf_of_lookup sf _ (fun i vb => match disk !! i with
    | Some b => VersionedBitmap.replace_base_preserve_diff vb b | None => vb end)); [done|done|done| | |].
  - apply foldl_length. intros l [k b]. simpl. destruct (k <? length l)%nat; [apply length_alter|done].
  - intros i. rewrite load_layers_lookup. destruct (disk !! i); [done|].
    by destruct (bit_layers sf !! i).
  - intros i vb Hvb. destruct (disk !! i); [|done].
    unfold VersionedBitmap.replace_base_preserve_diff. by crush_if.
Qed.

End updates.
