(* ===== verification/SortTheorems.v ===== *)
(** * Properties of sort fields

    [top_n] returns the page that sorting would (for any cursor), paging visits
    every candidate once in order, the cached fused view is never stale, stored
    values read back, and unloading a field loses no write. *)

From S2P Require Import Prelude Roaring Versioned Config Sort SortFacts.

Section sort_theorems.
Context {B : Type} `{HB : Roaring B}.
Import SortField.
Implicit Types (sf : SortField.t B) (slot : N).

(** The cursor as compared: the low [num_bits] bits of its value. *)
Definition norm_cursor (sf : SortField.t B) (cursor : option (N * N)) : option (N * N) :=
  (fun c => (c.1 mod 2 ^ N.of_nat (num_bits sf), c.2)) <$> cursor.

Lemma filter_iter_sorted (b : B) (P : N -> Prop) `{!forall x, Decision (P x)} :
  StronglySorted N.lt (filter P (rb_iter b)).
Proof.
  pose proof (rb_iter_sorted b) as Hs. induction Hs as [|x l Hs IH Hx]; [constructor|].
  rewrite filter_cons. case_decide; [|done]. constructor; [done|].
  rewrite Forall_forall in Hx |- *. intros y [_ Hy]%list_elem_of_filter. auto.
Qed.

Lemma wrap32_mod_pow2 v n : (n <= 32)%nat -> wrap32 v mod 2 ^ N.of_nat n = v mod 2 ^ N.of_nat n.
Proof.
  intros Hn. unfold wrap32. change 4294967296 with (2 ^ 32).
  apply N.bits_inj. intros j. destruct (N.lt_ge_cases j (N.of_nat n)) as [Hlt|Hge].
  - rewrite !N.mod_pow2_bits_low by lia. done.
  - rewrite !N.mod_pow2_bits_high by lia. done.
Qed.

Lemma cursor_iter sf cands desc v s (layers := VersionedBitmap.fused_arc <$> bit_layers sf) :
  wf sf -> (num_bits sf <= 32)%nat -> (forall x, x ∈ cands -> x <= u32_max) ->
  rb_iter (apply_cursor_filter_with_layers (num_bits sf) cands desc v s layers) =
  filter (after_cursor desc (reconstruct_value sf) (v mod 2 ^ N.of_nat (num_bits sf), s)) (rb_iter cands).
Proof.
  intros Hwf Hn Hu. apply sorted_lt_ext; [apply rb_iter_sorted|apply filter_iter_sorted|].
  intros x. rewrite <- rb_elem_of_iter, list_elem_of_filter.
  assert (apply_cursor_filter_with_layers (num_bits sf) cands desc v s layers =
    apply_cursor_filter_with_layers (num_bits sf) cands desc (wrap32 v) s layers) as ->.
  { unfold apply_cursor_filter_with_layers. f_equal. unfold wrap32. by rewrite N.Div0.mod_mod. }
  rewrite (cursor_filter_spec layers (num_bits sf) (reconstruct_value sf) desc (wrap32 v)).
  - unfold cursor_bits. rewrite wrap32_mod_pow2 by done. rewrite <- rb_elem_of_iter. tauto.
  - done.
  - intros i slot Hi. rewrite <- reconstruct_fused by done.
    apply reconstruct_with_layers_testbit. unfold layers. rewrite length_fmap, (wf_length _ Hwf). done.
  - intros slot. by apply shiftr_bound, reconstruct_bound.
  - done.
  - unfold wrap32, u32_max. pose proof (N.mod_lt v 4294967296). lia.
Qed.

Lemma top_n_state sf cands limit desc cursor :
  wf sf -> wf (top_n sf cands limit desc cursor).2 /\
  bit_layers (top_n sf cands limit desc cursor).2 = bit_layers sf /\
  num_bits (top_n sf cands limit desc cursor).2 = num_bits sf.
Proof.
  intros Hwf. unfold top_n. destruct (rb_is_empty cands || (limit =? 0)); [done|].
  destruct (fused_layers_spec sf Hwf) as (_ & H2 & H3 & H4).
  destruct (fused_layers sf) as [layers sf']. simpl in *. by crush_if.
Qed.

Lemma reconstruct_same_layers sf sf' slot :
  bit_layers sf' = bit_layers sf -> num_bits sf' = num_bits sf ->
  reconstruct_value sf' slot = reconstruct_value sf slot.
Proof. unfold reconstruct_value. by intros -> ->. Qed.

Lemma iter_empty (b : B) : rb_is_empty b = true -> rb_iter b = [].
Proof. apply rb_is_empty_true. Qed.

Lemma top_n_eq_spec sf cands limit desc cursor :
  wf sf -> (num_bits sf <= 32)%nat -> (forall x, x ∈ cands -> x <= u32_max) ->
  (top_n sf cands limit desc cursor).1 =
  top_n_spec (reconstruct_value sf) (rb_iter cands) limit desc (norm_cursor sf cursor).
Proof.
  intros Hwf Hn Hu. unfold top_n, top_n_spec.
  destruct (rb_is_empty cands || (limit =? 0)) eqn:E.
  { apply orb_true_iff in E as [E|E]; bool_to_prop.
    - rewrite (iter_empty _ E). destruct cursor, (N.to_nat limit); reflexivity.
    - subst. done. }
  destruct (fused_layers_spec sf Hwf) as (H1 & H2 & H3 & H4).
  destruct (fused_layers sf) as [layers sf'] eqn:Ef. simpl in *. subst layers. rewrite H3.
  assert (forall c : B, (if rb_is_empty c then ([], sf') else
    (order_results_with_layers (bifurcate_with_layers (num_bits sf) c limit desc
       (VersionedBitmap.fused_arc <$> bit_layers sf)) desc
       (VersionedBitmap.fused_arc <$> bit_layers sf), sf')).1 =
    take (N.to_nat limit) (merge_sort (slot_le desc (reconstruct_value sf)) (rb_iter c))) as Hpage.
  { intros c. destruct (rb_is_empty c) eqn:Ec; simpl; [|by apply page_spec].
    rewrite (iter_empty _ Ec). by destruct (N.to_nat limit). }
  rewrite Hpage. destruct cursor as [[v s]|]; simpl; [|done].
  by rewrite (cursor_iter sf cands desc v s).
Qed.

(** C16: top-N retrieval is correct: on a well-formed field of at most 32 layers and
    candidates that are 32-bit slots, the most-significant-bit-first walk returns exactly
    the first [limit] candidates in (value, slot) order that come after the cursor, in
    order, for both directions and with or without pending diffs; the cursor's value is
    read modulo 2 to the number of layers; the field's layers are unchanged. *)
Theorem top_n_correct sf (candidates : B) (limit : N) (descending : bool) (cursor : option (N * N)) :
  wf sf -> (num_bits sf <= 32)%nat -> (forall x, x ∈ candidates -> x <= u32_max) ->
  let '(page, sf') := top_n sf candidates limit descending cursor in
  page = top_n_spec (reconstruct_value sf) (rb_iter candidates) limit descending
           (norm_cursor sf cursor) /\
  bit_layers sf' = bit_layers sf /\ wf sf'.
Proof.
  intros Hwf Hn Hu. pose proof (top_n_eq_spec sf candidates limit descending cursor Hwf Hn Hu) as H1.
  pose proof (top_n_state sf candidates limit descending cursor Hwf) as (H2 & H3 & _).
  by destruct (top_n sf candidates limit descending cursor).
Qed.

(** One page followed by the pages after its last entry. *)
Lemma paginate_step sf cands limit desc (rest : list N) fuel p x cursor :
  wf sf -> (num_bits sf <= 32)%nat -> (forall y, y ∈ cands -> y <= u32_max) -> 0 < limit ->
  (length rest < fuel)%nat ->
  merge_sort (slot_le desc (reconstruct_value sf)) (rb_iter cands) = (p ++ [x]) ++ rest ->
  cursor = Some (reconstruct_value sf x, x) ->
  paginate fuel sf cands limit desc cursor = rest.
Proof.
  revert sf rest p x cursor. induction fuel as [|fuel IH]; intros sf rest p x cursor Hwf Hn Hu Hl Hf HL ->; [lia|].
  set (L := merge_sort (slot_le desc (reconstruct_value sf)) (rb_iter cands)) in *.
  assert (NoDup L) as Hnd by (unfold L; rewrite merge_sort_Permutation; apply rb_iter_NoDup).
  cbn [paginate].
  pose proof (top_n_eq_spec sf cands limit desc (Some (reconstruct_value sf x, x)) Hwf Hn Hu) as Htop.
  pose proof (top_n_state sf cands limit desc (Some (reconstruct_value sf x, x)) Hwf) as (Hw' & Hb' & Hn').
  destruct (top_n sf cands limit desc (Some (reconstruct_value sf x, x))) as [page sf']. simpl in *.
  unfold top_n_spec in Htop. simpl in Htop.
  rewrite (N.mod_small (reconstruct_value sf x)) in Htop by (by apply reconstruct_bound).
  rewrite <- (merge_sort_filter (slot_le desc (reconstruct_value sf))) in Htop.
  fold L in Htop. rewrite (list_filter_iff _ (fun y => ~ slot_le desc (reconstruct_value sf) y x) L) in Htop
    by (intros y; apply after_cursor_slot).
  rewrite HL, <- app_assoc in Htop. simpl in Htop.
  rewrite (sorted_after (slot_le desc (reconstruct_value sf))) in Htop.
  2:{ rewrite <- app_assoc in HL. simpl in HL. rewrite <- HL. apply (merge_sort_sorted _). }
  2:{ rewrite <- app_assoc in HL. simpl in HL. by rewrite <- HL. }
  destruct (last page) as [s|] eqn:Es.
  - apply last_Some in Es as [p' Hp'].
    rewrite <- (take_drop (N.to_nat limit) rest). rewrite Htop. f_equal.
    eapply (IH sf' (drop (N.to_nat limit) rest) (p ++ [x] ++ p') s); try done.
    + by rewrite Hn'.
    + rewrite length_drop. assert (0 < length rest)%nat; [|lia].
      destruct rest; [|simpl; lia]. rewrite take_nil in Htop. subst. by destruct p'.
    + assert (merge_sort (slot_le desc (reconstruct_value sf')) (rb_iter cands) = L) as ->.
      { apply merge_sort_slot_le_ext. intros. by apply reconstruct_same_layers. }
      rewrite HL. rewrite <- (take_drop (N.to_nat limit) rest) at 1.
      rewrite <- Htop, Hp'. by rewrite <- !app_assoc.
  - apply last_None in Es. subst page. destruct rest as [|y rest]; [done|].
    destruct (N.to_nat limit) eqn:El; [lia|]. done.
Qed.

(** C17: keyset pagination is complete and duplicate-free: starting without a
    cursor and resuming each page after the last entry of the one before, a
    client sees every candidate exactly once, in sorted order, and stops; ties in
    the sort value that straddle a page boundary are not dropped. *)
Theorem paginate_complete sf (candidates : B) (limit : N) (descending : bool) (fuel : nat) :
  wf sf -> (num_bits sf <= 32)%nat -> (forall x, x ∈ candidates -> x <= u32_max) -> 0 < limit ->
  (length (rb_iter candidates) < fuel)%nat ->
  paginate fuel sf candidates limit descending None =
  merge_sort (slot_le descending (reconstruct_value sf)) (rb_iter candidates).
Proof.
  intros Hwf Hn Hu Hl Hf. destruct fuel as [|fuel]; [lia|]. cbn [paginate].
  pose proof (top_n_eq_spec sf candidates limit descending None Hwf Hn Hu) as Htop.
  pose proof (top_n_state sf candidates limit descending None Hwf) as (Hw' & Hb' & Hn').
  destruct (top_n sf candidates limit descending None) as [page sf']. simpl in *.
  unfold top_n_spec in Htop. simpl in Htop.
  set (L := merge_sort (slot_le descending (reconstruct_value sf)) (rb_iter candidates)) in *.
  assert (length L = length (rb_iter candidates)) as Hlen by (unfold L; by rewrite merge_sort_Permutation).
  destruct (last page) as [s|] eqn:Es.
  - apply last_Some in Es as [p' Hp'].
    rewrite <- (take_drop (N.to_nat limit) L), <- Htop. f_equal.
    apply (paginate_step sf' candidates limit descending (drop (N.to_nat limit) L) fuel p' s); try done.
    + by rewrite Hn'.
    + rewrite length_drop, Hlen. assert (0 < length (rb_iter candidates))%nat; [|lia].
      rewrite <- Hlen. destruct L; [|simpl; lia]. rewrite take_nil in Htop. subst. by destruct p'.
    + rewrite <- Hp', Htop, take_drop.
      apply merge_sort_slot_le_ext. intros. by apply reconstruct_same_layers.
  - apply last_None in Es. subst page. destruct L as [|y L']; [done|].
    destruct (N.to_nat limit) eqn:El; [lia|]. done.
Qed.

(** *** Stored values *)

Lemma reconstruct_unique sf slot v :
  (num_bits sf <= 32)%nat -> v < 2 ^ N.of_nat (num_bits sf) ->
  (forall i, (i < num_bits sf)%nat -> N.testbit v (N.of_nat i) = true <-> layer_has sf i slot) ->
  reconstruct_value sf slot = v.
Proof.
  intros Hn Hv Hbits. apply N.bits_inj. intros j. apply eq_true_iff_eq.
  rewrite reconstruct_testbit by done. split.
  - intros (i & -> & Hi & Hh). by apply Hbits.
  - intros Hj. destruct (N.lt_ge_cases j (N.of_nat (num_bits sf))) as [Hlt|Hge].
    + exists (N.to_nat j). rewrite N2Nat.id. split_and!; [done|lia|].
      apply Hbits; [lia|]. by rewrite N2Nat.id.
    + rewrite <- (N.mod_small _ _ Hv), N.mod_pow2_bits_high in Hj; done.
Qed.

Lemma layer_has_testbit sf slot i :
  (num_bits sf <= 32)%nat -> (i < num_bits sf)%nat ->
  layer_has sf i slot <-> N.testbit (reconstruct_value sf slot) (N.of_nat i) = true.
Proof.
  intros Hn Hi. rewrite reconstruct_testbit by done. split; [eauto|].
  intros (i' & Heq & _ & Hh). apply Nat2N.inj in Heq as ->. done.
Qed.

(** The value read back from layers that were changed by [g], bit by bit. *)
Lemma reconstruct_changed sf sf' (g : nat -> VersionedBitmap.t B -> VersionedBitmap.t B) slot v :
  wf sf -> (num_bits sf <= 32)%nat -> num_bits sf' = num_bits sf ->
  (forall i, bit_layers sf' !! i = g i <$> bit_layers sf !! i) ->
  v < 2 ^ N.of_nat (num_bits sf) ->
  (forall i vb, (i < num_bits sf)%nat -> VersionedBitmap.wf vb ->
    (slot ∈ vb <-> N.testbit (reconstruct_value sf slot) (N.of_nat i) = true) ->
    (slot ∈ g i vb <-> N.testbit v (N.of_nat i) = true)) ->
  reconstruct_value sf' slot = v.
Proof.
  intros Hwf Hn Hn' Hg Hv Hbit. apply reconstruct_unique; rewrite Hn'; [done..|].
  intros i Hi. destruct (lookup_lt_is_Some_2 (bit_layers sf) i) as [vb Hvb].
  { by rewrite (wf_length _ Hwf). }
  rewrite <- (Hbit i vb Hi).
  - unfold layer_has. rewrite Hg, Hvb. naive_solver.
  - by eapply Forall_lookup_1; [apply wf_layers|].
  - rewrite <- layer_has_testbit by done. unfold layer_has. rewrite Hvb. naive_solver.
Qed.

Definition stored_value sf (v : N) : N := v mod 2 ^ N.of_nat (num_bits sf).

Lemma stored_bound sf v : stored_value sf v < 2 ^ N.of_nat (num_bits sf).
Proof. apply N.mod_lt, N.pow_nonzero. lia. Qed.

Lemma stored_testbit sf v i :
  (num_bits sf <= 32)%nat -> (i < num_bits sf)%nat ->
  N.testbit (stored_value sf v) (N.of_nat i) = bit_set v i.
Proof.
  intros Hn Hi. unfold stored_value. rewrite N.mod_pow2_bits_low by lia.
  symmetry. apply bit_set_testbit. lia.
Qed.

Lemma insert_layer_elem slot value i (vb : VersionedBitmap.t B) s :
  s ∈ insert_layer slot value i vb <-> (s = slot /\ bit_set value i = true) \/ s ∈ vb.
Proof.
  unfold insert_layer. destruct (bit_set value i); [rewrite elem_of_vb_insert|]; naive_solver.
Qed.

Lemma update_layer_elem slot o n i (vb : VersionedBitmap.t B) s :
  VersionedBitmap.wf vb -> (i < 32)%nat ->
  s ∈ update_layer slot o n i vb <->
  if decide (s = slot /\ bit_set o i <> bit_set n i) then bit_set n i = true else s ∈ vb.
Proof.
  intros Hvb Hi. unfold update_layer.
  rewrite bit_set_testbit, N.lxor_spec, <- !bit_set_testbit by done.
  destruct (bit_set o i), (bit_set n i); simpl; case_decide;
    rewrite ?elem_of_vb_insert, ?elem_of_vb_remove by done; naive_solver.
Qed.

Lemma reconstruct_insert sf slot value s :
  wf sf -> (num_bits sf <= 32)%nat ->
  reconstruct_value (insert sf slot value) s =
  if decide (s = slot) then N.lor (reconstruct_value sf s) (stored_value sf value)
  else reconstruct_value sf s.
Proof.
  intros Hwf Hn. apply (reconstruct_changed sf _ (insert_layer slot value));
    [done|done|done|intros; by apply insert_lookup| |].
  - case_decide; [|by apply reconstruct_bound]. apply testbit_bound. intros j Hj.
    rewrite N.lor_spec, <- (N.mod_small _ _ (reconstruct_bound sf s Hn)).
    by rewrite <- (N.mod_small _ _ (stored_bound sf value)), !N.mod_pow2_bits_high.
  - intros i vb Hi _ Hs. rewrite insert_layer_elem, Hs. case_decide; [|naive_solver].
    rewrite N.lor_spec, orb_true_iff, stored_testbit by done. tauto.
Qed.

Lemma reconstruct_update sf slot o n s :
  wf sf -> (num_bits sf <= 32)%nat ->
  (s = slot -> stored_value sf o = reconstruct_value sf slot) ->
  reconstruct_value (update sf slot o n) s =
  if decide (s = slot) then stored_value sf n else reconstruct_value sf s.
Proof.
  intros Hwf Hn Ho. apply (reconstruct_changed sf _ (update_layer slot o n));
    [done|done|done|intros; by apply update_lookup| |].
  - case_decide; [apply stored_bound|by apply reconstruct_bound].
  - intros i vb Hi Hvb Hs. rewrite update_layer_elem by (done || lia).
    destruct (decide (s = slot)) as [->|Hne]; [|rewrite decide_False by naive_solver; done].
    rewrite stored_testbit by done. rewrite <- Ho, stored_testbit in Hs by done.
    case_decide as Hd; [done|]. rewrite Hs.
    destruct (bit_set o i), (bit_set n i); naive_solver.
Qed.

Lemma reconstruct_remove sf slot s :
  wf sf -> (num_bits sf <= 32)%nat ->
  reconstruct_value (remove sf slot) s =
  if decide (s = slot) then 0 else reconstruct_value sf s.
Proof.
  intros Hwf Hn. apply (reconstruct_changed sf _ (fun _ vb => VersionedBitmap.remove vb slot));
    [done|done|done|intros; apply list_lookup_fmap| |].
  - case_decide; [|by apply reconstruct_bound]. apply N.neq_0_lt_0, N.pow_nonzero. lia.
  - intros i vb Hi Hvb Hs. rewrite elem_of_vb_remove by done.
    case_decide; [rewrite N.bits_0|]; naive_solver.
Qed.

(** stored values read back.  [insert] ORs the value into the slot's bits (so a
    slot without bits reads back exactly the value), [update] with the stored old
    value makes the slot read back the new one, [remove] makes it read 0; no
    other slot's value changes. *)
Theorem sort_value_roundtrip sf (slot value old_value : N) :
  wf sf -> (num_bits sf <= 32)%nat ->
  stored_value sf old_value = reconstruct_value sf slot ->
  reconstruct_value (insert sf slot value) slot =
    N.lor (reconstruct_value sf slot) (stored_value sf value) /\
  reconstruct_value (update sf slot old_value value) slot = stored_value sf value /\
  reconstruct_value (remove sf slot) slot = 0 /\
  (forall other, other <> slot ->
   reconstruct_value (insert sf slot value) other = reconstruct_value sf other /\
   reconstruct_value (update sf slot old_value value) other = reconstruct_value sf other /\
   reconstruct_value (remove sf slot) other = reconstruct_value sf other).
Proof.
  intros Hwf Hn Ho. rewrite reconstruct_insert, reconstruct_update, reconstruct_remove by done.
  rewrite !decide_True by done. split_and!; try done. intros other Hne.
  rewrite reconstruct_insert, reconstruct_update, reconstruct_remove by done.
  by rewrite !decide_False.
Qed.

(** *** Reachable fields *)

(** Every operation that writes the layers or the cache. *)
Inductive op : Type :=
  | OpInsert (slot value : N)
  | OpRemove (slot : N)
  | OpUpdate (slot old_value new_value : N)
  | OpSetLayerBulk (bit : nat) (slots : list N)
  | OpOrLayer (bit : nat) (bitmap : B)
  | OpClearLayerBulk (bit : nat) (slots : list N)
  | OpMergeAll
  | OpMergeDirty
  | OpLoadLayers (layers : list B)
  | OpClearBasesAndUnload
  | OpClone
  | OpTopN (candidates : B) (limit : N) (descending : bool) (cursor : option (N * N)).

Definition step sf (o : op) : t B :=
  match o with
  | OpInsert slot v => insert sf slot v
  | OpRemove slot => remove sf slot
  | OpUpdate slot o n => update sf slot o n
  | OpSetLayerBulk bit slots => set_layer_bulk sf bit slots
  | OpOrLayer bit b => or_layer sf bit b
  | OpClearLayerBulk bit slots => clear_layer_bulk sf bit slots
  | OpMergeAll => merge_all sf
  | OpMergeDirty => merge_dirty sf
  | OpLoadLayers layers => load_layers sf layers
  | OpClearBasesAndUnload => clear_bases_and_unload sf
  | OpClone => clone sf
  | OpTopN c l d cur => (top_n sf c l d cur).2
  end.

Lemma wf_new_sf cfg : wf (new cfg : t B).
Proof.
  apply wf_mk; [by rewrite length_replicate|]. apply Forall_replicate, wf_new.
Qed.

Lemma wf_step sf o : wf sf -> wf (step sf o).
Proof.
  intros Hwf. destruct o; simpl.
  - by apply wf_insert_sf.
  - apply (wf_fmap_sf sf); auto with bitdex.
  - by apply wf_update_sf.
  - apply (wf_one_layer sf bit (fun layer => VersionedBitmap.insert_bulk layer slots)); auto with bitdex.
  - by apply (wf_one_layer sf bit (fun layer => VersionedBitmap.or_into_base layer bitmap)).
  - apply (wf_one_layer sf bit (fun layer => foldl VersionedBitmap.remove layer slots));
      [done|]. intros. by apply wf_foldl_remove.
  - apply (wf_fmap_sf sf); auto with bitdex.
  - apply (wf_fmap_sf sf); [done|]. intros vb Hvb. rewrite merge_with_timing_merge.
    crush_if; auto with bitdex.
  - by apply wf_load_layers.
  - by apply (wf_fmap_sf sf).
  - destruct Hwf. by apply wf_mk.
  - by apply top_n_state.
Qed.

Lemma wf_foldl_step sf ops : wf sf -> wf (foldl step sf ops).
Proof. revert sf. induction ops; intros sf Hwf; simpl; auto using wf_step. Qed.

(** the cached fused view is never stale: after any sequence of writes, loads,
    compactions, clones and queries on a new field, the field is well formed; in
    particular a cached view equals the fused view of the current layers. *)
Theorem sort_cache_coherent (cfg : SortFieldConfig) (ops : list op) :
  let sf := foldl step (new cfg) ops in
  wf sf /\ (fused_layers sf).1 = VersionedBitmap.fused_arc <$> bit_layers sf.
Proof.
  cbv zeta. assert (wf (foldl step (new cfg) ops)) as Hwf by apply wf_foldl_step, wf_new_sf.
  split; [done|]. by apply fused_layers_spec.
Qed.

(** *** Unloading *)

(** The writes a field can receive while it is unloaded. *)
Inductive write : Type :=
  | WInsert (slot value : N)
  | WUpdate (slot old_value new_value : N)
  | WRemove (slot : N).

Definition apply_write sf (w : write) : t B :=
  match w with
  | WInsert slot v => insert sf slot v
  | WUpdate slot o n => update sf slot o n
  | WRemove slot => remove sf slot
  end.

(** What a write does to layer [i]. *)
Definition write_layer (w : write) (i : nat) (vb : VersionedBitmap.t B) : VersionedBitmap.t B :=
  match w with
  | WInsert slot v => insert_layer slot v i vb
  | WUpdate slot o n => update_layer slot o n i vb
  | WRemove slot => VersionedBitmap.remove vb slot
  end.

Lemma apply_write_lookup sf w i :
  wf sf -> bit_layers (apply_write sf w) !! i = write_layer w i <$> bit_layers sf !! i.
Proof.
  intros Hwf. destruct w; simpl; [by apply insert_lookup|by apply update_lookup|].
  apply list_lookup_fmap.
Qed.

(** [u] is unloaded and, with [disk] as its base, holds what [l] holds. *)
Record twin (disk : B) (u l : VersionedBitmap.t B) : Prop := {
  tw_wf_u : VersionedBitmap.wf u;
  tw_wf_l : VersionedBitmap.wf l;
  tw_unloaded : VersionedBitmap.is_loaded u = false;
  tw_same : forall x, x ∈ VersionedBitmap.mk disk (VersionedBitmap.diff u) 0 true <-> x ∈ l;
}.

Lemma twin_insert disk u l x :
  twin disk u l -> twin disk (VersionedBitmap.insert u x) (VersionedBitmap.insert l x).
Proof.
  intros [H1 H2 H3 H4]. split; [by apply wf_insert|by apply wf_insert|done|]. intros y.
  rewrite (elem_of_vb_insert l), <- H4.
  apply (elem_of_vb_insert (VersionedBitmap.mk disk (VersionedBitmap.diff u) 0 true)).
Qed.

Lemma twin_remove disk u l x :
  twin disk u l -> twin disk (VersionedBitmap.remove u x) (VersionedBitmap.remove l x).
Proof.
  intros [H1 H2 H3 H4]. split; [by apply wf_remove|by apply wf_remove|done|]. intros y.
  rewrite (elem_of_vb_remove l), <- H4 by done.
  by apply (elem_of_vb_remove (VersionedBitmap.mk disk (VersionedBitmap.diff u) 0 true)).
Qed.

Lemma twin_write disk u l w i : twin disk u l -> twin disk (write_layer w i u) (write_layer w i l).
Proof.
  intros Ht. destruct w; simpl; unfold insert_layer, update_layer; crush_if;
    auto using twin_insert, twin_remove.
Qed.

(** Layerwise: the unloaded field [su] mirrors the resident field [sl]. *)
Record mirror (disk : list B) (su sl : t B) : Prop := {
  mi_wf_u : wf su;
  mi_wf_l : wf sl;
  mi_bits : num_bits su = num_bits sl;
  mi_layers : forall i u l, bit_layers su !! i = Some u -> bit_layers sl !! i = Some l ->
    exists d, disk !! i = Some d /\ twin d u l;
}.

Lemma mirror_write disk su sl w : mirror disk su sl -> mirror disk (apply_write su w) (apply_write sl w).
Proof.
  intros [H1 H2 H3 H4]. split.
  - destruct w; [by apply wf_insert_sf|by apply wf_update_sf|apply (wf_fmap_sf su); auto with bitdex].
  - destruct w; [by apply wf_insert_sf|by apply wf_update_sf|apply (wf_fmap_sf sl); auto with bitdex].
  - by destruct w.
  - intros i u l. rewrite !apply_write_lookup by done.
    intros (u' & Hu & ->)%fmap_Some (l' & Hl & ->)%fmap_Some.
    destruct (H4 _ _ _ Hu Hl) as (d & Hd & Ht). exists d. split; [done|]. by apply twin_write.
Qed.

Lemma mirror_reload disk su sl slot :
  mirror disk su sl -> (num_bits sl <= 32)%nat ->
  reconstruct_value (load_layers su disk) slot = reconstruct_value sl slot.
Proof.
  intros [H1 H2 H3 H4] Hn. apply reconstruct_unique; simpl; rewrite H3; [done|by apply reconstruct_bound|].
  intros i Hi. rewrite <- layer_has_testbit by done. unfold layer_has.
  destruct (lookup_lt_is_Some_2 (bit_layers su) i) as [u Hu]; [rewrite (wf_length _ H1); lia|].
  destruct (lookup_lt_is_Some_2 (bit_layers sl) i) as [l Hl]; [rewrite (wf_length _ H2); lia|].
  destruct (H4 _ _ _ Hu Hl) as (d & Hd & [T1 T2 T3 T4]).
  rewrite load_layers_lookup, Hd, Hu, Hl. simpl. specialize (T4 slot).
  unfold VersionedBitmap.replace_base_preserve_diff. rewrite T3. simpl.
  rewrite !vb_elem_of_unfold in *. simpl in *. split.
  - intros (? & [= <-] & Hs). eexists. split; [done|]. by apply T4.
  - intros (? & [= <-] & Hs). eexists. split; [done|]. simpl. by apply T4.
Qed.

(** Overwriting positions [0..] one by one. *)
Lemma foldl_insert_imap {A C} (h : A -> C) (l : list A) (init : list C) :
  length init = length l ->
  foldl (fun acc ix => <[ix.1 := h ix.2]> acc) init (imap pair l) = h <$> l.
Proof.
  assert (forall k, (length l <= k)%nat -> length init = k ->
    length (foldl (fun acc ix => <[ix.1 := h ix.2]> acc) init (imap pair l)) = k /\
    forall j x, l !! j = Some x ->
      foldl (fun acc ix => <[ix.1 := h ix.2]> acc) init (imap pair l) !! j = Some (h x)) as Hgen.
  { induction l as [|x l IH] using rev_ind; intros k Hk Hi; [split; [done|]; intros j y Hj; by rewrite lookup_nil in Hj|].
    rewrite length_app in Hk. simpl in Hk. destruct (IH k) as [IH1 IH2]; [lia|done|].
    rewrite imap_app, foldl_app. simpl. rewrite Nat.add_0_r. split; [by rewrite length_insert|].
    intros j y Hj. destruct (decide (j = length l)) as [->|Hne].
    - rewrite lookup_app_r, Nat.sub_diag in Hj by lia. injection Hj as ->.
      apply list_lookup_insert_eq. lia.
    - rewrite list_lookup_insert_ne by done. apply IH2.
      rewrite lookup_app_Some in Hj. destruct Hj as [Hj|[Hj1 Hj2]]; [done|].
      apply lookup_lt_Some in Hj2. simpl in Hj2. lia. }
  intros Hlen. destruct (Hgen (length l)) as [H1 H2]; [lia|done|].
  apply list_eq. intros j. rewrite list_lookup_fmap. destruct (l !! j) as [x|] eqn:E; simpl; [by apply H2|].
  apply lookup_ge_None. apply lookup_ge_None in E. lia.
Qed.

Lemma unloaded_copy_layers sf :
  wf sf -> num_bits sf = N.to_nat (sf_bits (config sf)) ->
  bit_layers (SortIndex.unloaded_copy sf) =
  (fun vb => if VersionedBitmap.is_dirty vb then VersionedBitmap.clone_diff_only vb
             else VersionedBitmap.new_unloaded) <$> bit_layers sf.
Proof.
  intros Hwf Hc. unfold SortIndex.unloaded_copy. simpl.
  apply (foldl_insert_imap (fun vb => if VersionedBitmap.is_dirty vb
    then VersionedBitmap.clone_diff_only vb else VersionedBitmap.new_unloaded)).
  by rewrite length_replicate, <- Hc, (wf_length _ Hwf).
Qed.

Lemma mirror_unload sf :
  wf sf -> num_bits sf = N.to_nat (sf_bits (config sf)) ->
  mirror (layer_bases_fused sf) (SortIndex.unloaded_copy sf) sf.
Proof.
  intros Hwf Hc. pose proof (unloaded_copy_layers sf Hwf Hc) as Hl. split; [|done| |].
  - unfold SortIndex.unloaded_copy in *. apply wf_mk.
    + simpl in *. rewrite Hl, length_fmap, <- Hc. by apply wf_length.
    + simpl in *. rewrite Hl. apply Forall_fmap. eapply Forall_impl; [by apply wf_layers|].
      intros vb Hvb. simpl. crush_if; [done|]. apply (wf_new rb_new).
  - simpl. by rewrite Hc.
  - intros i u l Hu Hli. rewrite Hl, list_lookup_fmap, Hli in Hu. injection Hu as <-.
    assert (VersionedBitmap.wf l) as Hw by (by eapply Forall_lookup_1; [apply wf_layers|]).
    exists (VersionedBitmap.fused_cow l). split.
    { unfold layer_bases_fused. by rewrite list_lookup_fmap, Hli. }
    destruct (VersionedBitmap.is_dirty l) eqn:Ed; split; try done.
    + intros x. rewrite vb_elem_of_unfold. simpl. rewrite elem_of_fused, vb_elem_of_unfold by done.
      specialize (Hw x). tauto.
    + apply (wf_new rb_new).
    + intros x. rewrite vb_elem_of_unfold. simpl. rewrite elem_of_fused by done.
      pose proof (rb_elem_of_new (B := B) x). tauto.
Qed.

(** unloading a sort field loses no write: if the fused layers are saved, the
    field replaced by its unloaded copy, any sequence of inserts, updates and
    removes applied, and the saved layers loaded, every slot reads the value it
    would have had if the field had stayed resident. *)
Theorem sort_unload_reload sf (ws : list write) (slot : N) :
  wf sf -> num_bits sf = N.to_nat (sf_bits (config sf)) -> (num_bits sf <= 32)%nat ->
  reconstruct_value
    (load_layers (foldl apply_write (SortIndex.unloaded_copy sf) ws) (layer_bases_fused sf)) slot =
  reconstruct_value (foldl apply_write sf ws) slot.
Proof.
  intros Hwf Hc Hn. pose proof (mirror_unload sf Hwf Hc) as Hm.
  set (disk := layer_bases_fused sf) in *. clearbody disk.
  revert Hm Hn. generalize (SortIndex.unloaded_copy sf) as su. clear Hwf Hc.
  revert sf. induction ws as [|w ws IH]; intros sf su Hm Hn; [by apply mirror_reload|].
  simpl. apply IH; [by apply mirror_write|]. by destruct w.
Qed.

End sort_theorems.

(** ** Witnesses *)

Definition demo_sort : SortField.t Bitset :=
  foldl step (SortField.new (sort_config "reactionCount" 8))
    [OpInsert 1 5; OpInsert 2 9; OpInsert 3 5; OpMergeAll; OpInsert 4 5; OpUpdate 2 9 7].

Lemma demo_sort_wf : SortField.wf demo_sort.
Proof. apply wf_foldl_step, wf_new_sf. Qed.

Lemma bitset_u32 (l : list N) :
  Forall (fun x => x <= u32_max) l -> forall x, x ∈ bitset l -> x <= u32_max.
Proof.
  intros Hl x Hx. rewrite Bitset_elem_of in Hx. simpl in Hx. apply elem_of_list_to_set in Hx.
  rewrite Forall_forall in Hl. auto.
Qed.

Lemma top_n_correct_witness :
  (SortField.top_n demo_sort (bitset [1; 2; 3; 4]) 2 true None).1 = [2; 4] /\
  (SortField.top_n demo_sort (bitset [1; 2; 3; 4]) 2 true (Some (5, 4))).1 = [3; 1].
Proof.
  assert (forall cur, (SortField.top_n demo_sort (bitset [1; 2; 3; 4]) 2 true cur).1 =
    SortField.top_n_spec (SortField.reconstruct_value demo_sort) [1; 2; 3; 4] 2 true
      (norm_cursor demo_sort cur)) as H.
  { intros cur. pose proof (top_n_correct demo_sort (bitset [1; 2; 3; 4]) 2 true cur demo_sort_wf) as H.
    destruct (SortField.top_n demo_sort (bitset [1; 2; 3; 4]) 2 true cur).
    destruct H as (H & _); [vm_compute; lia|apply bitset_u32; repeat constructor; vm_compute; discriminate|].
    exact H. }
  split; rewrite H; vm_compute; reflexivity.
Defined.

Lemma paginate_complete_witness :
  SortField.paginate 5 demo_sort (bitset [1; 2; 3; 4]) 2 true None = [2; 4; 3; 1].
Proof.
  rewrite (paginate_complete demo_sort (bitset [1; 2; 3; 4]) 2 true 5 demo_sort_wf);
    [vm_compute; reflexivity|vm_compute; lia| |vm_compute; reflexivity|vm_compute; lia].
  apply bitset_u32. repeat constructor; vm_compute; discriminate.
Defined.

Lemma sort_value_roundtrip_witness :
  SortField.reconstruct_value (SortField.update demo_sort 2 7 200) 2 = 200.
Proof.
  destruct (sort_value_roundtrip demo_sort 2 200 7 demo_sort_wf) as (_ & H & _);
    [vm_compute; lia|vm_compute; reflexivity|]. rewrite H. vm_compute. reflexivity.
Defined.

Lemma sort_unload_reload_witness :
  SortField.reconstruct_value
    (SortField.load_layers
      (foldl apply_write (SortIndex.unloaded_copy demo_sort) [WUpdate 2 7 12; WRemove 1])
      (SortField.layer_bases_fused demo_sort)) 2 = 12.
Proof.
  rewrite (sort_unload_reload demo_sort [WUpdate 2 7 12; WRemove 1] 2 demo_sort_wf);
    [vm_compute; reflexivity|vm_compute; reflexivity|vm_compute; lia].
Defined.

Lemma sort_cache_coherent_witness : SortField.wf demo_sort.
Proof.
  apply (sort_cache_coherent (sort_config "reactionCount" 8)
    [OpInsert 1 5; OpInsert 2 9; OpInsert 3 5; OpMergeAll; OpInsert 4 5; OpUpdate 2 9 7]).
Defined.
