(* ===== verification/Filter.v ===== *)
(** * Filter fields and the filter index (src/filter.rs)

    A [FilterField] maps every distinct value of a field to the versioned bitmap
    of the slots that hold it, with a side set of the values whose bitmap has
    pending diffs.  Both live behind locks, so every method works on a shared
    reference; an operation is the sequence of its critical sections.

    A [FilterIndex] maps field names to shared ([Arc]) fields.  Because the fields
    are mutated through the shared reference, indexes are modelled with an
    explicit heap: an index holds addresses, a write through one index is seen
    through every index that holds the same address, and unloading a field
    replaces the address. *)

From S2P Require Import Prelude Roaring Versioned Config.

Definition NULL_BITMAP_KEY : N := u64_max.

Module FilterField.

Record t (B : Type) : Type := mk {
  bitmaps : gmap N (VersionedBitmap.t B);
  dirty_values : gset N;
  config : FilterFieldConfig;
}.
Arguments mk {B} _ _ _.
Arguments bitmaps {B} _.
Arguments dirty_values {B} _.
Arguments config {B} _.

Section ops.
Context {B : Type} `{!RoaringOps B}.

(** The two critical sections: the bitmap map, and the dirty set. *)
Definition with_bitmaps (f : t B) (m : gmap N (VersionedBitmap.t B)) : t B :=
  mk m (dirty_values f) (config f).
Definition with_dirty (f : t B) (d : gset N) : t B := mk (bitmaps f) d (config f).

Definition new (cfg : FilterFieldConfig) : t B := mk ∅ ∅ cfg.

Definition clone (f : t B) : t B := mk (bitmaps f) (dirty_values f) (config f).

Definition mark_dirty (f : t B) (value : N) : t B := with_dirty f ({[value]} ∪ dirty_values f).

Definition is_lazy_field (f : t B) : bool :=
  negb (ff_eager_load (config f))
  && (bool_decide (ff_field_type (config f) = MultiValue) || per_value_lazy (config f)).

Definition new_inserted_vb (f : t B) : VersionedBitmap.t B :=
  if is_lazy_field f then VersionedBitmap.new_unloaded else VersionedBitmap.new_empty.

(** [w.entry(value).or_insert_with(fresh)] followed by an update in place. *)
Definition entry_update (m : gmap N (VersionedBitmap.t B)) (value : N) (fresh : VersionedBitmap.t B)
    (upd : VersionedBitmap.t B -> VersionedBitmap.t B) : gmap N (VersionedBitmap.t B) :=
  <[value := upd (default fresh (m !! value))]> m.

Definition load_from (f : t B) (data : gmap N B) : t B :=
  with_bitmaps f (map_fold (fun value bitmap m => <[value := VersionedBitmap.new bitmap]> m)
                           (bitmaps f) data).

Definition insert (f : t B) (value slot : N) : t B :=
  let m := entry_update (bitmaps f) value (new_inserted_vb f)
             (fun vb => VersionedBitmap.insert vb slot) in
  mark_dirty (with_bitmaps f m) value.

Definition remove (f : t B) (value slot : N) : t B :=
  let m := entry_update (bitmaps f) value VersionedBitmap.new_unloaded
             (fun vb => VersionedBitmap.remove vb slot) in
  mark_dirty (with_bitmaps f m) value.

Definition insert_bulk (f : t B) (value : N) (slots : list N) : t B :=
  let m := entry_update (bitmaps f) value (new_inserted_vb f)
             (fun vb => VersionedBitmap.insert_bulk vb slots) in
  mark_dirty (with_bitmaps f m) value.

Definition or_bitmap (f : t B) (value : N) (bitmap : B) : t B :=
  with_bitmaps f (entry_update (bitmaps f) value VersionedBitmap.new_empty
    (fun vb => VersionedBitmap.or_into_base vb bitmap)).

Definition remove_bulk (f : t B) (value : N) (slots : list N) : t B :=
  let m := entry_update (bitmaps f) value VersionedBitmap.new_unloaded
             (fun vb => foldl VersionedBitmap.remove vb slots) in
  mark_dirty (with_bitmaps f m) value.

Definition remove_from_all (f : t B) (slot : N) : t B :=
  let m := (fun vb => VersionedBitmap.remove vb slot) <$> bitmaps f in
  let touched := elements (dom (bitmaps f)) in
  foldl mark_dirty (with_bitmaps f m) touched.

Definition get (f : t B) (value : N) : option B := VersionedBitmap.base <$> bitmaps f !! value.

Definition get_versioned (f : t B) (value : N) : option (VersionedBitmap.t B) := bitmaps f !! value.

Definition bitmap_keys (f : t B) : list N := elements (dom (bitmaps f)).

Definition remove_value (f : t B) (value : N) : t B :=
  mk (delete value (bitmaps f)) (dirty_values f ∖ {[value]}) (config f).

Definition loaded_value_count (f : t B) : nat := size (bitmaps f).

Definition vb_and (vb : VersionedBitmap.t B) (candidates : B) : B :=
  if VersionedBitmap.is_dirty vb then VersionedBitmap.apply_diff vb candidates
  else rb_and candidates (VersionedBitmap.base vb).

Definition apply_diff_eq (f : t B) (value : N) (candidates : B) : option B :=
  (fun vb => vb_and vb candidates) <$> bitmaps f !! value.

Definition union_with_diff (f : t B) (values : list N) (candidates : B) : B :=
  foldl (fun result value =>
      match bitmaps f !! value with
      | Some vb => rb_or result (vb_and vb candidates)
      | None => result
      end) rb_new values.

Definition cardinality (f : t B) (value : N) : N :=
  match bitmaps f !! value with
  | Some vb => VersionedBitmap.base_len vb
  | None => 0
  end.

Definition distinct_count (f : t B) : nat := size (bitmaps f).

Definition union (f : t B) (values : list N) : B :=
  foldl (fun result value =>
      match bitmaps f !! value with
      | Some vb => rb_or result (VersionedBitmap.base vb)
      | None => result
      end) rb_new values.

(** The loop returns early with the empty bitmap at the first absent value. *)
Fixpoint intersect_rest (m : gmap N (VersionedBitmap.t B)) (result : B) (values : list N) : B :=
  match values with
  | [] => result
  | value :: rest =>
      match m !! value with
      | Some vb => intersect_rest m (rb_and result (VersionedBitmap.base vb)) rest
      | None => rb_new
      end
  end.

Definition intersection (f : t B) (values : list N) : option B :=
  match values with
  | [] => None
  | first :: rest =>
      match bitmaps f !! first with
      | None => None
      | Some vb => Some (intersect_rest (bitmaps f) (VersionedBitmap.base vb) rest)
      end
  end.

Definition bitmap_count (f : t B) : nat := size (bitmaps f).

Definition clear_bases_and_unload (f : t B) : t B :=
  with_bitmaps f (VersionedBitmap.clear_base_and_unload <$> bitmaps f).

Definition load_field_complete (f : t B) (data : gmap N B) : t B :=
  let m := map_fold (fun value bitmap m =>
      entry_update m value VersionedBitmap.new_unloaded
        (fun vb => VersionedBitmap.load_base vb bitmap)) (bitmaps f) data in
  with_bitmaps f (VersionedBitmap.mark_loaded <$> m).

Definition load_values (f : t B) (data : gmap N B) (requested : list N) : t B :=
  with_bitmaps f (foldl (fun m value =>
      match data !! value with
      | Some bitmap => entry_update m value VersionedBitmap.new_unloaded
                         (fun vb => VersionedBitmap.load_base vb bitmap)
      | None => entry_update m value VersionedBitmap.new_empty VersionedBitmap.mark_loaded
      end) (bitmaps f) requested).

Definition has_dirty (f : t B) : bool := negb (bool_decide (dirty_values f = ∅)).

Definition has_loaded_dirty (f : t B) : bool :=
  existsb (fun v =>
      match bitmaps f !! v with
      | Some vb => VersionedBitmap.is_loaded vb && VersionedBitmap.is_dirty vb
      | None => false
      end) (elements (dirty_values f)).

(** [merge_dirty], second critical section: merge the drained values, collect
    the ones to requeue. *)
Definition merge_one (acc : gmap N (VersionedBitmap.t B) * list N) (value : N)
  : gmap N (VersionedBitmap.t B) * list N :=
  let '(m, requeue) := acc in
  match m !! value with
  | Some vb =>
      if negb (VersionedBitmap.is_dirty vb) then (m, requeue)
      else if VersionedBitmap.is_loaded vb then (<[value := VersionedBitmap.merge vb]> m, requeue)
      else (m, requeue ++ [value])
  | None => (m, requeue)
  end.

Definition merge_drained (m : gmap N (VersionedBitmap.t B)) (dirty : list N)
  : gmap N (VersionedBitmap.t B) * list N := foldl merge_one (m, []) dirty.

Definition merge_dirty (f : t B) : t B :=
  let dirty := elements (dirty_values f) in
  match dirty with
  | [] => f
  | _ =>
      let '(m, requeue) := merge_drained (bitmaps f) dirty in
      mk m (list_to_set requeue) (config f)
  end.

Definition merge_all (f : t B) : t B := merge_dirty f.

Definition merge_field (f : t B) (value : N) : t B :=
  match bitmaps f !! value with
  | Some vb =>
      if VersionedBitmap.is_dirty vb then
        if VersionedBitmap.is_loaded vb
        then mk (<[value := VersionedBitmap.merge vb]> (bitmaps f)) (dirty_values f ∖ {[value]}) (config f)
        else mark_dirty f value
      else with_dirty f (dirty_values f ∖ {[value]})
  | None => f
  end.

Definition insert_versioned (f : t B) (value : N) (vb : VersionedBitmap.t B) : t B :=
  let f' := with_bitmaps f (<[value := vb]> (bitmaps f)) in
  if VersionedBitmap.is_dirty vb then mark_dirty f' value
  else with_dirty f' (dirty_values f' ∖ {[value]}).

(** The field [unload_field] and [unload_from] build: the pending diffs only. *)
Definition diff_only_field (old : t B) : t B :=
  map_fold (fun value vb nf =>
      if VersionedBitmap.is_dirty vb
      then insert_versioned nf value (VersionedBitmap.clone_diff_only vb)
      else nf) (new (config old)) (bitmaps old).

End ops.

End FilterField.

(** ** The index *)

Module FilterIndex.

(** Addresses of shared fields, and the fields behind them. *)
Notation addr := N.
Notation heap B := (gmap N (FilterField.t B)).
Notation index := (gmap string N).

Section ops.
Context {B : Type} `{!RoaringOps B}.

Definition new : index := ∅.

(** [Arc::new]: a fresh address. *)
Definition alloc (h : heap B) (f : FilterField.t B) : heap B * addr :=
  let a := fresh (dom h) in (<[a := f]> h, a).

Definition add_field (h : heap B) (idx : index) (cfg : FilterFieldConfig) : heap B * index :=
  let '(h', a) := alloc h (FilterField.new cfg) in (h', <[ff_name cfg := a]> idx).

Definition remove_field (idx : index) (name : string) : bool * index :=
  (bool_decide (is_Some (idx !! name)), delete name idx).

Definition get_field (h : heap B) (idx : index) (name : string) : option (FilterField.t B) :=
  a ← idx !! name; h !! a.

(** A method call on the reference [get_field] returns: it mutates the shared field. *)
Definition with_field (h : heap B) (idx : index) (name : string)
    (f : FilterField.t B -> FilterField.t B) : heap B :=
  match idx !! name with
  | Some a => alter f a h
  | None => h
  end.

Definition unload_field (h : heap B) (idx : index) (name : string) : heap B * index :=
  match get_field h idx name with
  | Some old =>
      let '(h', a) := alloc h (FilterField.diff_only_field old) in (h', <[name := a]> idx)
  | None => (h, idx)
  end.

Definition copy_field_arc_from (idx source : index) (name : string) : index :=
  match source !! name with
  | Some a => <[name := a]> idx
  | None => idx
  end.

Definition unload_from (h : heap B) (idx source : index) (name : string) : heap B * index :=
  match get_field h source name with
  | Some old =>
      let '(h', a) := alloc h (FilterField.diff_only_field old) in (h', <[name := a]> idx)
  | None => (h, idx)
  end.

Definition total_bitmap_count (h : heap B) (idx : index) : nat :=
  map_fold (fun _ a n => match h !! a with
                         | Some f => (FilterField.bitmap_count f + n)%nat
                         | None => n
                         end) 0%nat idx.

End ops.

End FilterIndex.
