(* ===== verification/FilterFacts.v ===== *)
(** * Filter fields: lemmas

    The abstraction of a field is the relation "slot [x] holds value [v]"
    ([has]); [tracked] is the invariant that makes the side set of dirty values
    sufficient for compaction. *)

From S2P Require Import Prelude Roaring Versioned Config Filter.

Section facts.
Context {B : Type} `{HB : Roaring B}.
Implicit Types (f : FilterField.t B) (vb : VersionedBitmap.t B) (v x : N)
  (m : gmap N (VersionedBitmap.t B)).
Import FilterField.

(** Slot [x] holds value [v]. *)
Definition has f v x : Prop := exists vb, bitmaps f !! v = Some vb /\ x ∈ vb.

(** Every bitmap with a pending diff is in the side set. *)
Definition tracked f : Prop :=
  forall v vb, bitmaps f !! v = Some vb -> VersionedBitmap.is_dirty vb = true -> v ∈ dirty_values f.

Definition bitmaps_wf m : Prop :=
  forall v vb, m !! v = Some vb -> VersionedBitmap.wf vb.

Definition field_inv f : Prop := bitmaps_wf (bitmaps f) /\ tracked f.

Lemma has_lookup f v x vb : bitmaps f !! v = Some vb -> has f v x <-> x ∈ vb.
Proof. intros H. unfold has. rewrite H. naive_solver. Qed.

Lemma has_None f v x : bitmaps f !! v = None -> ~ has f v x.
Proof. intros H (vb & H' & _). congruence. Qed.

Lemma wf_unloaded : VersionedBitmap.wf (VersionedBitmap.new_unloaded : VersionedBitmap.t B).
Proof. intros x Hx. simpl in Hx. by apply rb_elem_of_new in Hx. Qed.

Lemma elem_of_unloaded x : x ∉ (VersionedBitmap.new_unloaded : VersionedBitmap.t B).
Proof. rewrite vb_elem_of_unfold. simpl. set_solver. Qed.

Lemma wf_new_inserted f : VersionedBitmap.wf (new_inserted_vb f).
Proof. unfold new_inserted_vb. destruct (is_lazy_field f); [apply wf_unloaded|apply wf_new]. Qed.

Lemma elem_of_new_inserted f x : x ∉ new_inserted_vb f.
Proof.
  unfold new_inserted_vb. destruct (is_lazy_field f); [apply elem_of_unloaded|apply elem_of_new_empty].
Qed.

(** Updating the entry of one value through the diff layer. *)
Lemma entry_update_inv f v fresh upd :
  field_inv f -> VersionedBitmap.wf fresh ->
  (forall vb, VersionedBitmap.wf vb -> VersionedBitmap.wf (upd vb)) ->
  field_inv (mark_dirty (with_bitmaps f (entry_update (bitmaps f) v fresh upd)) v).
Proof.
  intros [Hw Ht] Hfresh Hupd. unfold entry_update. split; simpl.
  - intros v' vb'. simpl. rewrite lookup_insert. case_decide; [|apply Hw].
    intros [= <-]. apply Hupd. destruct (bitmaps f !! v) eqn:E; [by eapply Hw|done].
  - intros v' vb'. simpl. rewrite lookup_insert. case_decide as Hv.
    + intros _ _. apply elem_of_union_l. by apply elem_of_singleton.
    + intros H1 H2. apply elem_of_union_r. by eapply Ht.
Qed.

Lemma entry_update_has f v fresh upd v' x (P : Prop) :
  bitmaps_wf (bitmaps f) -> VersionedBitmap.wf fresh ->
  (forall y, y ∉ fresh) ->
  (forall vb, VersionedBitmap.wf vb -> x ∈ upd vb <-> (P \/ x ∈ vb)) ->
  has (mark_dirty (with_bitmaps f (entry_update (bitmaps f) v fresh upd)) v) v' x
  <-> (v' = v /\ P) \/ has f v' x.
Proof.
  intros Hw Hf He Hupd. unfold has, entry_update. simpl. setoid_rewrite lookup_insert.
  destruct (decide (v = v')) as [->|Hne].
  - assert (x ∈ upd (default fresh (bitmaps f !! v')) <-> P \/ x ∈ default fresh (bitmaps f !! v')) as Hu.
    { apply Hupd. destruct (bitmaps f !! v') eqn:E; [by eapply Hw|done]. }
    specialize (He x). destruct (bitmaps f !! v'); simpl in *; naive_solver.
  - naive_solver.
Qed.

Lemma entry_remove_has f v upd v' x (P : Prop) `{!Decision P} :
  bitmaps_wf (bitmaps f) ->
  (forall vb, VersionedBitmap.wf vb -> x ∈ upd vb <-> (~ P /\ x ∈ vb)) ->
  has (mark_dirty (with_bitmaps f
        (entry_update (bitmaps f) v VersionedBitmap.new_unloaded upd)) v) v' x
  <-> ~ (v' = v /\ P) /\ has f v' x.
Proof.
  intros Hw Hupd. unfold has, entry_update. simpl. setoid_rewrite lookup_insert.
  destruct (decide (v = v')) as [->|Hne].
  - pose proof (elem_of_unloaded x) as He.
    assert (x ∈ upd (default VersionedBitmap.new_unloaded (bitmaps f !! v'))
      <-> ~ P /\ x ∈ default VersionedBitmap.new_unloaded (bitmaps f !! v')) as Hu.
    { apply Hupd. destruct (bitmaps f !! v') eqn:E; [by eapply Hw|apply wf_unloaded]. }
    destruct (bitmaps f !! v'); simpl in *; naive_solver.
  - naive_solver.
Qed.

Lemma wf_remove_all vb slots : VersionedBitmap.wf vb -> VersionedBitmap.wf (foldl VersionedBitmap.remove vb slots).
Proof. revert vb. induction slots as [|s l IH]; intros vb Hw; simpl; [done|]. by apply IH, wf_remove. Qed.

Lemma elem_of_remove_all vb slots x :
  VersionedBitmap.wf vb -> x ∈ foldl VersionedBitmap.remove vb slots <-> x ∉ slots /\ x ∈ vb.
Proof.
  revert vb. induction slots as [|s l IH]; intros vb Hw; simpl; [rewrite elem_of_nil; tauto|].
  rewrite IH by (by apply wf_remove). rewrite elem_of_vb_remove by done. rewrite not_elem_of_cons. tauto.
Qed.

(** *** Marking *)

Lemma mark_all_bitmaps l f : bitmaps (foldl mark_dirty f l) = bitmaps f.
Proof. revert f. induction l as [|v l IH]; intros f; simpl; [done|]. by rewrite IH. Qed.

Lemma mark_all_dirty l f : dirty_values (foldl mark_dirty f l) = list_to_set l ∪ dirty_values f.
Proof.
  revert f. induction l as [|v l IH]; intros f; simpl; [set_solver|]. rewrite IH. simpl. set_solver.
Qed.

Lemma remove_from_all_inv f x : field_inv f -> field_inv (remove_from_all f x).
Proof.
  intros [Hw Ht]. unfold remove_from_all. split.
  - rewrite mark_all_bitmaps. intros v vb. simpl. rewrite lookup_fmap.
    destruct (bitmaps f !! v) eqn:E; simpl; [|done]. intros [= <-]. by eapply wf_remove, Hw.
  - intros v vb. rewrite mark_all_bitmaps, mark_all_dirty. simpl. rewrite lookup_fmap.
    intros (vb' & Hvb & _)%fmap_Some _.
    apply elem_of_union_l, elem_of_list_to_set, elem_of_elements, elem_of_dom. by exists vb'.
Qed.

Lemma remove_from_all_has f s v x :
  bitmaps_wf (bitmaps f) -> has (remove_from_all f s) v x <-> x <> s /\ has f v x.
Proof.
  intros Hw. unfold has, remove_from_all. rewrite mark_all_bitmaps. simpl. rewrite lookup_fmap.
  destruct (bitmaps f !! v) as [vb|] eqn:E; simpl; [|naive_solver].
  split.
  - intros (vb' & [= <-] & Hx). rewrite elem_of_vb_remove in Hx by (by eapply Hw). naive_solver.
  - intros (Hne & vb' & [= <-] & Hx). eexists. split; [done|].
    rewrite elem_of_vb_remove by (by eapply Hw). done.
Qed.

(** *** Merging *)

(** What the second critical section of [merge_dirty] does to one value. *)
Definition merge_if (l : list N) v vb : VersionedBitmap.t B :=
  if bool_decide (v ∈ l) && VersionedBitmap.is_dirty vb && VersionedBitmap.is_loaded vb
  then VersionedBitmap.merge vb else vb.

Lemma merge_loop_lookup l : forall m rq v, NoDup l ->
  let '(m', rq') := foldl merge_one (m, rq) l in
  m' !! v = merge_if l v <$> m !! v
  /\ (v ∈ rq' <-> v ∈ rq \/ (v ∈ l /\ exists vb, m !! v = Some vb
        /\ VersionedBitmap.is_dirty vb = true /\ VersionedBitmap.is_loaded vb = false)).
Proof.
  induction l as [|a l IH]; intros m rq v Hnd; cbn [foldl].
  { split; [by destruct (m !! v)|]. rewrite elem_of_nil. tauto. }
  inversion_clear Hnd as [|?? Ha Hl].
  destruct (merge_one (m, rq) a) as [m1 rq1] eqn:E1. specialize (IH m1 rq1 v Hl).
  destruct (foldl merge_one (m1, rq1) l) as [m2 rq2]. destruct IH as [H1 H2].
  rewrite H1, H2. clear H1 H2. unfold merge_one in E1.
  destruct (decide (v = a)) as [->|Hne].
  - assert (forall vb, merge_if l a vb = vb) as Hno.
    { intros vb. unfold merge_if. by rewrite bool_decide_false. }
    destruct (m !! a) as [vb|] eqn:Ea.
    + destruct (VersionedBitmap.is_dirty vb) eqn:Ed; simpl in E1;
        [destruct (VersionedBitmap.is_loaded vb) eqn:Eld|]; injection E1 as <- <-;
        rewrite ?lookup_insert_eq, ?Ea; simpl; rewrite Hno; unfold merge_if;
        rewrite ?(bool_decide_true (a ∈ a :: l)) by (apply elem_of_cons; by left);
        rewrite ?Ed, ?Eld; simpl; (split; [done|]); rewrite ?elem_of_app, ?list_elem_of_singleton, elem_of_cons;
        naive_solver congruence.
    + injection E1 as <- <-. rewrite Ea. split; [done|]. naive_solver.
  - assert (m1 !! v = m !! v) as Hv.
    { destruct (m !! a) as [vb|]; [|by simplify_eq].
      destruct (negb _); [by simplify_eq|]. destruct (VersionedBitmap.is_loaded vb); simplify_eq; [|done].
      by rewrite lookup_insert_ne. }
    assert (v ∈ rq1 <-> v ∈ rq) as Hq.
    { destruct (m !! a) as [vb|]; [|by simplify_eq].
      destruct (negb _); [by simplify_eq|]. destruct (VersionedBitmap.is_loaded vb); simplify_eq; [done|].
      rewrite elem_of_app, list_elem_of_singleton. tauto. }
    rewrite Hv, Hq, elem_of_cons. split; [|naive_solver].
    destruct (m !! v); simpl; [|done]. f_equal. unfold merge_if.
    by rewrite (bool_decide_ext (v ∈ l) (v ∈ a :: l)) by (rewrite elem_of_cons; naive_solver).
Qed.

Lemma merge_if_wf l v vb : VersionedBitmap.wf vb -> VersionedBitmap.wf (merge_if l v vb).
Proof. intros H. unfold merge_if. crush_if; [by apply wf_merge|done]. Qed.

Lemma merge_if_elem l v vb x : VersionedBitmap.wf vb -> x ∈ merge_if l v vb <-> x ∈ vb.
Proof. intros H. unfold merge_if. crush_if; [by apply elem_of_merge|done]. Qed.


Lemma merge_dirty_lookup f v :
  bitmaps (merge_dirty f) !! v = merge_if (elements (dirty_values f)) v <$> bitmaps f !! v.
Proof.
  unfold merge_dirty. destruct (elements (dirty_values f)) as [|a l] eqn:E.
  { by destruct (bitmaps f !! v). }
  rewrite <- E. unfold merge_drained.
  pose proof (merge_loop_lookup (elements (dirty_values f)) (bitmaps f) [] v (NoDup_elements _)) as H.
  destruct (foldl _ _ _) as [m' rq']. by destruct H.
Qed.

Lemma merge_dirty_values f v :
  v ∈ dirty_values (merge_dirty f) <->
  v ∈ dirty_values f /\ exists vb, bitmaps f !! v = Some vb
    /\ VersionedBitmap.is_dirty vb = true /\ VersionedBitmap.is_loaded vb = false.
Proof.
  unfold merge_dirty. destruct (elements (dirty_values f)) as [|a l] eqn:E.
  { rewrite <- (elem_of_elements (dirty_values f)), E, elem_of_nil. tauto. }
  rewrite <- E. unfold merge_drained.
  pose proof (merge_loop_lookup (elements (dirty_values f)) (bitmaps f) [] v (NoDup_elements _)) as H.
  destruct (foldl _ _ _) as [m' rq']. destruct H as [_ H]. simpl.
  rewrite elem_of_list_to_set, H, elem_of_elements, elem_of_nil. tauto.
Qed.

Lemma merge_dirty_inv f : field_inv f -> field_inv (merge_dirty f).
Proof.
  intros [Hw Ht]. split.
  - intros v vb. rewrite merge_dirty_lookup. intros (vb0 & H & ->)%fmap_Some. by eapply merge_if_wf, Hw.
  - intros v vb. rewrite merge_dirty_lookup, merge_dirty_values. intros (vb0 & H & ->)%fmap_Some Hd.
    unfold merge_if in Hd. destruct (VersionedBitmap.is_dirty vb0) eqn:Ed.
    + assert (v ∈ dirty_values f) as Hin by (by eapply Ht). split; [done|].
      rewrite bool_decide_true in Hd by (by apply elem_of_elements).
      destruct (VersionedBitmap.is_loaded vb0) eqn:El; simpl in Hd; [|eauto].
      by rewrite merge_clean in Hd.
    + rewrite andb_false_r in Hd. simpl in Hd. congruence.
Qed.

Lemma merge_dirty_has f v x : bitmaps_wf (bitmaps f) -> has (merge_dirty f) v x <-> has f v x.
Proof.
  intros Hw. unfold has. rewrite merge_dirty_lookup.
  destruct (bitmaps f !! v) as [vb|] eqn:E; simpl; [|naive_solver].
  specialize (Hw _ _ E). split; intros (? & [= <-] & H); eexists; (split; [done|]);
    by apply (merge_if_elem (elements (dirty_values f)) v vb x Hw).
Qed.

Lemma merge_field_inv f v : field_inv f -> field_inv (merge_field f v).
Proof.
  intros [Hw Ht]. unfold merge_field. destruct (bitmaps f !! v) as [vb|] eqn:E; [|done].
  destruct (VersionedBitmap.is_dirty vb) eqn:Ed; [destruct (VersionedBitmap.is_loaded vb) eqn:El|].
  - split; simpl.
    + intros v' vb'. rewrite lookup_insert. case_decide; [|apply Hw].
      intros [= <-]. by eapply wf_merge, Hw.
    + intros v' vb'. simpl. rewrite lookup_insert. case_decide.
      * intros [= <-]. by rewrite merge_clean.
      * intros H1 H2. apply elem_of_difference. split; [by eapply Ht|]. by intros ->%elem_of_singleton.
  - split; [done|]. intros v' vb' H1 H2. simpl. apply elem_of_union_r. by eapply Ht.
  - split; [done|]. intros v' vb' H1 H2. simpl in *. apply elem_of_difference.
    split; [by eapply Ht|]. intros ->%elem_of_singleton. congruence.
Qed.

Lemma merge_field_has f v v' x :
  bitmaps_wf (bitmaps f) -> has (merge_field f v) v' x <-> has f v' x.
Proof.
  intros Hw. unfold merge_field. destruct (bitmaps f !! v) as [vb|] eqn:E; [|done].
  destruct (VersionedBitmap.is_dirty vb); [destruct (VersionedBitmap.is_loaded vb)|]; [|done..].
  unfold has. simpl. rewrite lookup_insert. case_decide as Hv; [|done]. subst v'. rewrite E.
  split; intros (? & [= <-] & H); eexists; (split; [done|]);
    by apply (elem_of_merge vb x (Hw _ _ E)).
Qed.

(** *** Loading and unloading *)

Lemma load_field_complete_lookup f (data : gmap N B) v :
  bitmaps (load_field_complete f data) !! v =
  match data !! v with
  | Some b => Some (VersionedBitmap.mark_loaded
      (VersionedBitmap.load_base (default VersionedBitmap.new_unloaded (bitmaps f !! v)) b))
  | None => VersionedBitmap.mark_loaded <$> bitmaps f !! v
  end.
Proof.
  unfold load_field_complete. simpl. rewrite lookup_fmap.
  enough (forall m, m = map_fold (fun value bitmap m => entry_update m value VersionedBitmap.new_unloaded
      (fun vb => VersionedBitmap.load_base vb bitmap)) (bitmaps f) data ->
    m !! v = match data !! v with
      | Some b => Some (VersionedBitmap.load_base (default VersionedBitmap.new_unloaded (bitmaps f !! v)) b)
      | None => bitmaps f !! v
      end) as H.
  { rewrite (H _ eq_refl). by destruct (data !! v). }
  intros m ->. revert v. apply (map_fold_weak_ind (fun r d => forall v, r !! v = match d !! v with
      | Some b => Some (VersionedBitmap.load_base (default VersionedBitmap.new_unloaded (bitmaps f !! v)) b)
      | None => bitmaps f !! v
      end)).
  - intros v. by rewrite lookup_empty.
  - intros i b d r Hi IH v. unfold entry_update. rewrite !lookup_insert.
    case_decide; [|apply IH]. subst. by rewrite IH, Hi.
Qed.

Lemma diff_only_lookup f v :
  bitmaps (diff_only_field f) !! v =
    (vb ← bitmaps f !! v;
     if VersionedBitmap.is_dirty vb then Some (VersionedBitmap.clone_diff_only vb) else None)
  /\ (v ∈ dirty_values (diff_only_field f) <->
      exists vb, bitmaps f !! v = Some vb /\ VersionedBitmap.is_dirty vb = true)
  /\ config (diff_only_field f) = config f.
Proof.
  unfold diff_only_field. revert v.
  apply (map_fold_weak_ind (fun r d => forall v,
    bitmaps r !! v = (vb ← d !! v;
      if VersionedBitmap.is_dirty vb then Some (VersionedBitmap.clone_diff_only vb) else None)
    /\ (v ∈ dirty_values r <-> exists vb, d !! v = Some vb /\ VersionedBitmap.is_dirty vb = true)
    /\ config r = config f)).
  - intros v. simpl. rewrite !lookup_empty. split_and!; [done| |done].
    split; [by intros ?%elem_of_empty|naive_solver].
  - intros i vb d r Hi IH v. destruct (IH v) as (H1 & H2 & H3).
    destruct (decide (i = v)) as [->|Hne].
    + rewrite lookup_insert_eq. rewrite Hi in H1, H2. simpl in *.
      destruct (VersionedBitmap.is_dirty vb) eqn:Ed.
      * unfold insert_versioned.
        replace (VersionedBitmap.is_dirty (VersionedBitmap.clone_diff_only vb)) with true by done.
        simpl. rewrite lookup_insert_eq. split_and!; [done| |done].
        split; [eauto|]. intros _. apply elem_of_union_l. by apply elem_of_singleton.
      * rewrite H1, H2. split_and!; [done| |done]. naive_solver congruence.
    + rewrite lookup_insert_ne by done.
      destruct (VersionedBitmap.is_dirty vb) eqn:Ed; [|done].
      unfold insert_versioned.
      replace (VersionedBitmap.is_dirty (VersionedBitmap.clone_diff_only vb)) with true by done.
      simpl. rewrite lookup_insert_ne by done. split_and!; [done| |done].
      rewrite elem_of_union, elem_of_singleton, H2. naive_solver.
Qed.

End facts.
