(* ===== verification/FilterTheorems.v ===== *)
(** * Filter fields: properties

    A field refines a finite relation between values and slots; compaction
    changes no answer and leaves only unloaded values dirty; unloading a field
    and reloading it from disk loses no write; and any interleaving of writers
    with a compaction keeps every pending diff reachable. *)

From S2P Require Import Prelude Roaring Versioned Config Filter FilterFacts.

(** ** Refinement to a relation *)

Section refinement.
Context {B : Type} `{HB : Roaring B}.
Implicit Types (f : FilterField.t B) (v x : N) (s : gset (N * N)).
Import FilterField.

Inductive fop : Type :=
  | FInsert (value slot : N)
  | FRemove (value slot : N)
  | FInsertBulk (value : N) (slots : list N)
  | FRemoveBulk (value : N) (slots : list N)
  | FRemoveFromAll (slot : N)
  | FMergeDirty
  | FMergeField (value : N).

Definition fstep f (o : fop) : t B :=
  match o with
  | FInsert v x => insert f v x
  | FRemove v x => remove f v x
  | FInsertBulk v l => insert_bulk f v l
  | FRemoveBulk v l => remove_bulk f v l
  | FRemoveFromAll x => remove_from_all f x
  | FMergeDirty => merge_dirty f
  | FMergeField v => merge_field f v
  end.

Definition fspec s (o : fop) : gset (N * N) :=
  match o with
  | FInsert v x => {[(v, x)]} ∪ s
  | FRemove v x => s ∖ {[(v, x)]}
  | FInsertBulk v l => list_to_set (pair v <$> l) ∪ s
  | FRemoveBulk v l => s ∖ list_to_set (pair v <$> l)
  | FRemoveFromAll x => filter (fun p => p.2 <> x) s
  | FMergeDirty | FMergeField _ => s
  end.

Lemma fstep_inv f o : field_inv f -> field_inv (fstep f o).
Proof.
  intros Hf. destruct o; simpl.
  - apply entry_update_inv; [done|apply wf_new_inserted|]. intros vb. by apply wf_insert.
  - apply entry_update_inv; [done|apply wf_unloaded|]. intros vb. by apply wf_remove.
  - apply entry_update_inv; [done|apply wf_new_inserted|]. intros vb. by apply wf_insert_bulk.
  - apply entry_update_inv; [done|apply wf_unloaded|]. intros vb. by apply wf_remove_all.
  - by apply remove_from_all_inv.
  - by apply merge_dirty_inv.
  - by apply merge_field_inv.
Qed.

Lemma elem_of_pairs v l v' x : (v', x) ∈ (list_to_set (pair v <$> l) : gset (N * N)) <-> v' = v /\ x ∈ l.
Proof. rewrite elem_of_list_to_set, list_elem_of_fmap. naive_solver. Qed.

Lemma fstep_has f s o :
  bitmaps_wf (bitmaps f) -> (forall v x, has f v x <-> (v, x) ∈ s) ->
  forall v x, has (fstep f o) v x <-> (v, x) ∈ fspec s o.
Proof.
  intros Hw Hs v' x. destruct o as [v y|v y|v l|v l|y| |v]; cbn [fstep fspec].
  - unfold insert. rewrite (entry_update_has _ _ _ _ _ _ (x = y)), Hs, elem_of_union, elem_of_singleton;
      [naive_solver|done|apply wf_new_inserted|apply elem_of_new_inserted|].
    intros vb _. apply elem_of_vb_insert.
  - unfold remove. rewrite (entry_remove_has _ _ _ _ _ (x = y)), Hs, elem_of_difference, elem_of_singleton;
      [naive_solver|done|]. intros vb. by apply elem_of_vb_remove.
  - unfold insert_bulk. rewrite (entry_update_has _ _ _ _ _ _ (x ∈ l)), Hs, elem_of_union, elem_of_pairs;
      [naive_solver|done|apply wf_new_inserted|apply elem_of_new_inserted|].
    intros vb _. apply elem_of_insert_bulk.
  - unfold remove_bulk. rewrite (entry_remove_has _ _ _ _ _ (x ∈ l)), Hs, elem_of_difference, elem_of_pairs;
      [naive_solver|done|]. intros vb. by apply elem_of_remove_all.
  - rewrite remove_from_all_has, Hs, elem_of_filter by done. simpl. tauto.
  - by rewrite merge_dirty_has, Hs.
  - by rewrite merge_field_has, Hs.
Qed.

Definition frun f (ops : list fop) : t B := foldl fstep f ops.
Definition fspec_run s (ops : list fop) : gset (N * N) := foldl fspec s ops.

Lemma frun_has ops : forall f s,
  field_inv f -> (forall v x, has f v x <-> (v, x) ∈ s) ->
  field_inv (frun f ops) /\ forall v x, has (frun f ops) v x <-> (v, x) ∈ fspec_run s ops.
Proof.
  induction ops as [|o ops IH]; intros f s Hf Hs; simpl; [done|].
  apply IH; [by apply fstep_inv|]. apply fstep_has; [apply Hf|done].
Qed.

Lemma new_inv cfg : field_inv (new cfg : t B).
Proof. split; intros v vb; simpl; by rewrite lookup_empty. Qed.

Lemma elem_of_vb_and vb c x :
  VersionedBitmap.wf vb -> x ∈ vb_and vb c <-> x ∈ c /\ x ∈ vb.
Proof.
  intros Hw. unfold vb_and. destruct (VersionedBitmap.is_dirty vb) eqn:E.
  - by apply elem_of_apply_diff.
  - rewrite rb_elem_of_and. by rewrite (not_dirty_base vb x E).
Qed.

Lemma elem_of_union_with_diff f vs c x :
  bitmaps_wf (bitmaps f) ->
  x ∈ union_with_diff f vs c <-> x ∈ c /\ exists v, v ∈ vs /\ has f v x.
Proof.
  intros Hw. unfold union_with_diff.
  assert (forall acc, x ∈ foldl (fun result value => match bitmaps f !! value with
      | Some vb => rb_or result (vb_and vb c) | None => result end) acc vs
    <-> x ∈ acc \/ (x ∈ c /\ exists v, v ∈ vs /\ has f v x)) as H.
  { induction vs as [|v vs IH]; intros acc; simpl.
    - setoid_rewrite elem_of_nil. naive_solver.
    - rewrite IH. setoid_rewrite elem_of_cons. destruct (bitmaps f !! v) as [vb|] eqn:E.
      + rewrite rb_elem_of_or, elem_of_vb_and by (by eapply Hw).
        pose proof (has_lookup f v x vb E). naive_solver.
      + pose proof (has_None f v x E). naive_solver. }
  rewrite H. split; [intros [?%rb_elem_of_new|]|]; tauto.
Qed.

(** C22: A filter field implements a finite relation between values and slots:
    after any sequence of inserts, removes, bulk updates, dead-slot clean-ups and
    compactions, the diff-aware read paths ([apply_diff_eq] for one value,
    [union_with_diff] for a list of values) return exactly the candidates that
    the relation holds for, and every pending diff is tracked for compaction. *)
Theorem filter_field_refines (cfg : FilterFieldConfig) (ops : list fop) :
  let f := frun (new cfg : t B) ops in
  let s := fspec_run ∅ ops in
  tracked f
  /\ (forall v c, match apply_diff_eq f v c with
                  | Some r => forall x, x ∈ r <-> x ∈ c /\ (v, x) ∈ s
                  | None => forall x, (v, x) ∉ s
                  end)
  /\ (forall vs c x, x ∈ union_with_diff f vs c <-> x ∈ c /\ exists v, v ∈ vs /\ (v, x) ∈ s).
Proof.
  intros f s. destruct (frun_has ops (new cfg : t B) ∅ (new_inv cfg)) as [[Hw Ht] Hs].
  { intros v x. split; [|by intros ?%elem_of_empty]. intros (vb & H & _). simpl in H.
    by rewrite lookup_empty in H. }
  fold f in Hw, Ht, Hs. fold s in Hs. split_and!; [done| |].
  - intros v c. unfold apply_diff_eq. destruct (bitmaps f !! v) as [vb|] eqn:E; simpl.
    + intros x. rewrite elem_of_vb_and by (by eapply Hw).
      by rewrite <- Hs, (has_lookup f v x vb E).
    + intros x. rewrite <- Hs. by apply has_None.
  - intros vs c x. rewrite elem_of_union_with_diff by done. by setoid_rewrite Hs.
Qed.

(** Compaction changes no answer and leaves exactly the unloaded values with
    pending diffs in the dirty set; afterwards the base-only reads ([get],
    [cardinality]) of every loaded value are exact, and no loaded value is dirty. *)
Theorem merge_dirty_compacts (f : t B) :
  field_inv f ->
  let f' := merge_dirty f in
  (forall v x, has f' v x <-> has f v x)
  /\ (forall v, v ∈ dirty_values f' <-> exists vb, bitmaps f !! v = Some vb
        /\ VersionedBitmap.is_dirty vb = true /\ VersionedBitmap.is_loaded vb = false)
  /\ (forall v vb, bitmaps f !! v = Some vb -> VersionedBitmap.is_loaded vb = true ->
        exists b, get f' v = Some b /\ cardinality f' v = rb_len b /\ forall x, x ∈ b <-> has f v x)
  /\ has_loaded_dirty f' = false.
Proof.
  intros Hf f'. pose proof (merge_dirty_inv f Hf) as [Hw' Ht']. destruct Hf as [Hw Ht].
  assert (forall v vb, bitmaps f !! v = Some vb -> VersionedBitmap.is_loaded vb = true ->
    exists vb', bitmaps f' !! v = Some vb' /\ VersionedBitmap.is_dirty vb' = false) as Hclean.
  { intros v vb E El. unfold f'. rewrite merge_dirty_lookup, E. simpl. eexists. split; [done|].
    unfold merge_if. rewrite El. destruct (VersionedBitmap.is_dirty vb) eqn:Ed.
    - rewrite bool_decide_true by (apply elem_of_elements; by eapply Ht). by apply merge_clean.
    - by rewrite andb_false_r. }
  split_and!.
  - intros v x. by apply merge_dirty_has.
  - intros v. unfold f'. rewrite merge_dirty_values. split; [tauto|].
    intros (vb & E & Ed & El). split; [by eapply Ht|eauto].
  - intros v vb E El. destruct (Hclean v vb E El) as (vb' & E' & Ed').
    exists (VersionedBitmap.base vb'). unfold get, cardinality. rewrite E'. split_and!; [done|done|].
    intros x. rewrite <- (merge_dirty_has f v x Hw). fold f'.
    rewrite (has_lookup f' v x vb' E'). by rewrite (not_dirty_base vb' x Ed').
  - unfold has_loaded_dirty. apply not_true_iff_false. rewrite existsb_exists.
    intros (v & Hv & Hx). apply list_elem_of_In, elem_of_elements in Hv. unfold f' in *.
    rewrite merge_dirty_values in Hv. destruct Hv as (_ & vb & E & Ed & El).
    rewrite merge_dirty_lookup, E in Hx. simpl in Hx. unfold merge_if in Hx.
    rewrite El, andb_false_r in Hx. simpl in Hx. by rewrite El in Hx.
Qed.

End refinement.

(** ** Unloading and reloading *)

Section lazy.
Context {B : Type} `{HB : Roaring B}.
Implicit Types (f : FilterField.t B) (v x : N) (disk : gmap N B) (R : N -> N -> Prop).
Import FilterField.

(** The persisted relation. *)
Definition on_disk disk v x : Prop := exists b, disk !! v = Some b /\ x ∈ b.

(** Every value in memory is a diff-only placeholder. *)
Definition diff_only f : Prop :=
  forall v vb, bitmaps f !! v = Some vb ->
    VersionedBitmap.wf vb /\ VersionedBitmap.is_loaded vb = false
    /\ forall x, x ∉ VersionedBitmap.base vb.

(** What an unloaded field stands for: the persisted relation with the pending
    diffs applied. *)
Definition logical disk f v x : Prop :=
  match bitmaps f !! v with
  | Some vb => x ∈ BitmapDiff.sets (VersionedBitmap.diff vb)
               \/ (on_disk disk v x /\ x ∉ BitmapDiff.clears (VersionedBitmap.diff vb))
  | None => on_disk disk v x
  end.

(** The writes that reach a field while it is unloaded, with compaction. *)
Inductive lop : Type :=
  | LInsertBulk (value : N) (slots : list N)
  | LRemoveBulk (value : N) (slots : list N)
  | LMergeDirty.

Definition lstep f (o : lop) : t B :=
  match o with
  | LInsertBulk v l => insert_bulk f v l
  | LRemoveBulk v l => remove_bulk f v l
  | LMergeDirty => merge_dirty f
  end.

Definition lspec R (o : lop) : N -> N -> Prop :=
  match o with
  | LInsertBulk v l => fun v' x => (v' = v /\ x ∈ l) \/ R v' x
  | LRemoveBulk v l => fun v' x => ~ (v' = v /\ x ∈ l) /\ R v' x
  | LMergeDirty => R
  end.

(** Pending diffs after a bulk update, read against any base. *)
Lemma bulk_insert_pending vb l (P : Prop) x :
  x ∈ BitmapDiff.sets (VersionedBitmap.diff (VersionedBitmap.insert_bulk vb l))
  \/ (P /\ x ∉ BitmapDiff.clears (VersionedBitmap.diff (VersionedBitmap.insert_bulk vb l)))
  <-> x ∈ l \/ x ∈ BitmapDiff.sets (VersionedBitmap.diff vb)
      \/ (P /\ x ∉ BitmapDiff.clears (VersionedBitmap.diff vb)).
Proof.
  rewrite insert_bulk_foldl. revert vb. induction l as [|y l IH]; intros vb; simpl.
  { rewrite elem_of_nil. tauto. }
  rewrite IH, elem_of_cons. simpl. rewrite rb_elem_of_insert, rb_elem_of_remove.
  destruct (decide (x = y)); tauto.
Qed.

Lemma bulk_remove_pending vb l (P : Prop) x :
  x ∈ BitmapDiff.sets (VersionedBitmap.diff (foldl VersionedBitmap.remove vb l))
  \/ (P /\ x ∉ BitmapDiff.clears (VersionedBitmap.diff (foldl VersionedBitmap.remove vb l)))
  <-> x ∉ l /\ (x ∈ BitmapDiff.sets (VersionedBitmap.diff vb)
      \/ (P /\ x ∉ BitmapDiff.clears (VersionedBitmap.diff vb))).
Proof.
  revert vb. induction l as [|y l IH]; intros vb; simpl.
  { rewrite elem_of_nil. tauto. }
  rewrite IH, not_elem_of_cons. simpl. rewrite rb_elem_of_insert, rb_elem_of_remove.
  destruct (decide (x = y)); tauto.
Qed.

Lemma bulk_keeps_base vb l :
  (VersionedBitmap.base (VersionedBitmap.insert_bulk vb l) = VersionedBitmap.base vb
   /\ VersionedBitmap.is_loaded (VersionedBitmap.insert_bulk vb l) = VersionedBitmap.is_loaded vb)
  /\ (VersionedBitmap.base (foldl VersionedBitmap.remove vb l) = VersionedBitmap.base vb
   /\ VersionedBitmap.is_loaded (foldl VersionedBitmap.remove vb l) = VersionedBitmap.is_loaded vb).
Proof.
  split; [done|]. revert vb. induction l as [|y l IH]; intros vb; simpl; [done|].
  by destruct (IH (VersionedBitmap.remove vb y)) as [-> ->].
Qed.

(** A bulk update of a lazy field seeds an unloaded placeholder. *)
Lemma entry_update_diff_only f v upd :
  diff_only f ->
  (forall vb, VersionedBitmap.wf vb -> VersionedBitmap.wf (upd vb)) ->
  (forall vb, VersionedBitmap.base (upd vb) = VersionedBitmap.base vb
              /\ VersionedBitmap.is_loaded (upd vb) = VersionedBitmap.is_loaded vb) ->
  diff_only (mark_dirty (with_bitmaps f
    (entry_update (bitmaps f) v VersionedBitmap.new_unloaded upd)) v).
Proof.
  intros Hd Hw Hk v' vb'. unfold entry_update. simpl. rewrite lookup_insert.
  case_decide as Hv; [|apply Hd]. intros [= <-].
  set (vb := default VersionedBitmap.new_unloaded (bitmaps f !! v)).
  assert (VersionedBitmap.wf vb /\ VersionedBitmap.is_loaded vb = false
    /\ forall x, x ∉ VersionedBitmap.base vb) as (H1 & H2 & H3).
  { subst vb. destruct (bitmaps f !! v) eqn:E; [by apply (Hd v)|].
    split; [apply wf_unloaded|]. split; [done|]. intros x. apply rb_elem_of_new. }
  destruct (Hk vb) as [-> ->]. auto.
Qed.

Lemma lstep_ok disk f o :
  is_lazy_field f = true -> diff_only f ->
  is_lazy_field (lstep f o) = true /\ diff_only (lstep f o)
  /\ forall v x, logical disk (lstep f o) v x <-> lspec (logical disk f) o v x.
Proof.
  intros Hlazy Hd. destruct o as [v l|v l|]; simpl.
  - unfold insert_bulk, new_inserted_vb. rewrite Hlazy. split_and!; [done| |].
    + apply entry_update_diff_only; [done|by intros; apply wf_insert_bulk|]. intros vb. apply bulk_keeps_base.
    + intros v' x. unfold logical, entry_update. simpl. rewrite lookup_insert.
      case_decide as Hv; [subst v'|naive_solver]. rewrite bulk_insert_pending.
      destruct (bitmaps f !! v); simpl; [tauto|]. pose proof (rb_elem_of_new (B := B) x). tauto.
  - unfold remove_bulk. split_and!; [done| |].
    + apply entry_update_diff_only; [done|by intros; apply wf_remove_all|]. intros vb. apply bulk_keeps_base.
    + intros v' x. unfold logical, entry_update. simpl. rewrite lookup_insert.
      case_decide as Hv; [subst v'|naive_solver]. rewrite bulk_remove_pending.
      destruct (bitmaps f !! v); simpl; [tauto|]. pose proof (rb_elem_of_new (B := B) x). tauto.
  - assert (forall v, bitmaps (merge_dirty f) !! v = bitmaps f !! v) as Hsame.
    { intros v. rewrite merge_dirty_lookup. destruct (bitmaps f !! v) as [vb|] eqn:E; simpl; [|done].
      unfold merge_if. destruct (Hd v vb E) as (_ & -> & _). by rewrite andb_false_r. }
    split_and!.
    + unfold is_lazy_field, merge_dirty in *. destruct (elements (dirty_values f)); [done|].
      by destruct (merge_drained _ _).
    + intros v vb. rewrite Hsame. apply Hd.
    + intros v x. unfold logical. by rewrite Hsame.
Qed.

Definition lrun f (ops : list lop) : t B := foldl lstep f ops.

Lemma lrun_ok disk ops : forall f R,
  is_lazy_field f = true -> diff_only f -> (forall v x, logical disk f v x <-> R v x) ->
  diff_only (lrun f ops)
  /\ forall v x, logical disk (lrun f ops) v x <-> foldl lspec R ops v x.
Proof.
  induction ops as [|o ops IH]; intros f R Hl Hd HR; cbn [foldl]; [done|].
  destruct (lstep_ok disk f o Hl Hd) as (Hl' & Hd' & Hs).
  apply (IH (lstep f o)); [done|done|]. intros v x. rewrite Hs.
  destruct o; simpl; by setoid_rewrite HR.
Qed.

(** Loading brings exactly the logical content into memory. *)
Lemma load_complete_logical disk f v x :
  diff_only f -> has (load_field_complete f disk) v x <-> logical disk f v x.
Proof.
  intros Hd. unfold has, logical, on_disk. rewrite load_field_complete_lookup.
  destruct (disk !! v) as [b|] eqn:Eb, (bitmaps f !! v) as [vb|] eqn:Ev; simpl.
  - destruct (Hd v vb Ev) as (_ & _ & Hb). specialize (Hb x).
    setoid_rewrite vb_elem_of_unfold. split.
    + intros (? & [= <-] & H). simpl in H. rewrite rb_elem_of_or in H. naive_solver.
    + intros H. eexists. split; [done|]. simpl. rewrite rb_elem_of_or. naive_solver.
  - setoid_rewrite vb_elem_of_unfold. split.
    + intros (? & [= <-] & H). simpl in H. rewrite rb_elem_of_or in H.
      pose proof (rb_elem_of_new (B := B) x). naive_solver.
    + intros (? & [= <-] & H). eexists. split; [done|]. simpl. rewrite rb_elem_of_or.
      pose proof (rb_elem_of_new (B := B) x). tauto.
  - destruct (Hd v vb Ev) as (_ & _ & Hb). specialize (Hb x).
    setoid_rewrite vb_elem_of_unfold. naive_solver.
  - naive_solver.
Qed.

(** The memory content agrees with the disk, up to the pending diffs. *)
Definition persisted disk f : Prop :=
  forall v, match bitmaps f !! v with
            | Some vb => VersionedBitmap.wf vb /\ forall x, x ∈ VersionedBitmap.base vb <-> on_disk disk v x
            | None => forall x, ~ on_disk disk v x
            end.

Lemma diff_only_unloaded disk f :
  persisted disk f ->
  diff_only (diff_only_field f)
  /\ forall v x, logical disk (diff_only_field f) v x <-> has f v x.
Proof.
  intros Hp. split.
  - intros v vb'. destruct (diff_only_lookup f v) as (-> & _).
    specialize (Hp v). destruct (bitmaps f !! v) as [vb|]; simpl; [|done].
    destruct (VersionedBitmap.is_dirty vb); [|done]. intros [= <-].
    split; [apply Hp|]. split; [done|]. intros x. apply rb_elem_of_new.
  - intros v x. unfold logical, has. destruct (diff_only_lookup f v) as (-> & _).
    specialize (Hp v). destruct (bitmaps f !! v) as [vb|] eqn:E; simpl.
    + destruct Hp as [Hw Hb]. specialize (Hb x).
      destruct (VersionedBitmap.is_dirty vb) eqn:Ed; simpl.
      * setoid_rewrite vb_elem_of_unfold. naive_solver.
      * pose proof (not_dirty_base vb x Ed). naive_solver.
    + specialize (Hp x). naive_solver.
Qed.

End lazy.

Section lazy_properties.
Context {B : Type} `{HB : Roaring B}.
Import FilterField.

(** Unloading a lazy field loses nothing: the index gets a fresh field with
    the pending diffs only, writes and compactions keep accumulating in it, and
    reloading the persisted bitmaps yields exactly the relation before unloading
    with the later writes applied in order.  A published snapshot that shares
    the old field keeps seeing the old relation. *)
Theorem filter_unload_reload (h : gmap N (t B)) (idx : gmap string N) (name : string) (a : N) (f : t B)
    (disk : gmap N B) (ops : list lop) :
  idx !! name = Some a -> h !! a = Some f -> is_lazy_field f = true -> persisted disk f ->
  let '(h1, idx1) := FilterIndex.unload_field h idx name in
  let h2 := FilterIndex.with_field h1 idx1 name (fun g => lrun g ops) in
  let h3 := FilterIndex.with_field h2 idx1 name (fun g => load_field_complete g disk) in
  FilterIndex.get_field h3 idx name = Some f
  /\ exists f3, FilterIndex.get_field h3 idx1 name = Some f3
     /\ forall v x, has f3 v x <-> foldl lspec (has f) ops v x.
Proof.
  intros Hidx Hh Hlazy Hp. unfold FilterIndex.unload_field, FilterIndex.get_field at 1, FilterIndex.alloc.
  rewrite Hidx. simpl. rewrite Hh.
  set (a' := fresh (dom h)). set (nf := diff_only_field f).
  assert (a' <> a) as Hfresh.
  { intros E. apply (is_fresh (dom h)). fold a'. rewrite E. apply elem_of_dom. by eexists. }
  unfold FilterIndex.with_field, FilterIndex.get_field. rewrite !lookup_insert_eq, Hidx. simpl.
  rewrite !lookup_alter_ne, lookup_insert_ne by done. split; [done|].
  rewrite !lookup_alter_eq, lookup_insert_eq. simpl. eexists. split; [done|].
  destruct (diff_only_unloaded disk f Hp) as [Hd Hl].
  assert (is_lazy_field nf = true) as Hlazy'.
  { unfold is_lazy_field, nf in *. by rewrite (proj2 (proj2 (diff_only_lookup f 0))). }
  destruct (lrun_ok disk ops nf (has f) Hlazy' Hd Hl) as [Hd' Hl'].
  intros v x. by rewrite load_complete_logical, Hl'.
Qed.

(** For a field that is not lazy per value the promise that diffs accumulate
    while it is unloaded does not hold: an insert seeds an empty bitmap that
    counts as loaded, so a following remove of a persisted slot is compacted
    against that empty base, and reloading from disk brings the removed slot
    back. *)
Theorem eager_seed_loses_remove (f : t B) (disk : gmap N B) (v s x : N) :
  is_lazy_field f = false -> dirty_values f = ∅ -> bitmaps f !! v = None -> on_disk disk v x -> s <> x ->
  let f' := merge_dirty (remove_bulk (insert_bulk f v [s]) v [x]) in
  ~ has f' v x /\ has (load_field_complete f' disk) v x.
Proof.
  intros Hlazy Hdirty Hv (b & Hb & Hx) Hsx f'.
  set (vb := VersionedBitmap.remove (VersionedBitmap.insert_bulk VersionedBitmap.new_empty [s]) x).
  assert (bitmaps f' !! v = Some (VersionedBitmap.merge vb)) as E.
  { subst f'. rewrite merge_dirty_lookup. unfold remove_bulk, insert_bulk, entry_update, new_inserted_vb.
    rewrite Hlazy. simpl. rewrite !lookup_insert_eq, Hv. simpl. f_equal. unfold merge_if.
    rewrite bool_decide_true.
    - simpl. destruct (VersionedBitmap.is_dirty vb) eqn:Ed; fold vb; rewrite Ed; [done|].
      exfalso. apply negb_false_iff, diff_is_empty_true in Ed as [_ Ed]. apply (Ed x). simpl. set_solver.
    - rewrite elem_of_elements. simpl. set_solver. }
  assert (VersionedBitmap.wf vb) as Hw by (apply wf_remove, wf_insert_bulk, wf_new).
  split.
  - rewrite (has_lookup f' v x _ E), elem_of_merge by done. unfold vb.
    rewrite elem_of_vb_remove by (apply wf_insert_bulk, wf_new). naive_solver.
  - unfold has. rewrite load_field_complete_lookup, Hb, E. simpl. eexists. split; [done|].
    assert (VersionedBitmap.is_dirty (VersionedBitmap.merge vb) = false) as Hc by (by apply merge_clean).
    apply negb_false_iff, diff_is_empty_true in Hc as [_ Hc].
    rewrite vb_elem_of_unfold. right. simpl. rewrite rb_elem_of_or. split; [by right|apply Hc].
Qed.

End lazy_properties.

(** ** Interleaving writers and a compaction

    Every method of a field is a sequence of critical sections.  A configuration
    is the shared field and the tasks in flight: what is left of the operations
    that have released a lock but not finished.  [writes] records the bitmap
    updates in the order in which the lock serialised them. *)

Section concurrency.
Context {B : Type} `{HB : Roaring B}.
Implicit Types (f : FilterField.t B) (v x : N).
Import FilterField.

Inductive task : Type :=
  (** a writer that has updated the bitmaps and still has to mark the value *)
  | TMark (value : N)
  (** [merge_dirty] after draining the dirty set *)
  | TDrained (values : list N)
  (** [merge_dirty] after merging, before putting back the unloaded values *)
  | TRequeue (values : list N).

Record cfg : Type := MkCfg {
  shared : t B;
  tasks : list task;
  writes : list fop;
}.

(** The bitmap half of a write. *)
Definition write_bitmaps f (o : fop) : option (t B * N) :=
  match o with
  | FInsert v x => Some (with_bitmaps f (entry_update (bitmaps f) v (new_inserted_vb f)
      (fun vb => VersionedBitmap.insert vb x)), v)
  | FRemove v x => Some (with_bitmaps f (entry_update (bitmaps f) v VersionedBitmap.new_unloaded
      (fun vb => VersionedBitmap.remove vb x)), v)
  | FInsertBulk v l => Some (with_bitmaps f (entry_update (bitmaps f) v (new_inserted_vb f)
      (fun vb => VersionedBitmap.insert_bulk vb l)), v)
  | FRemoveBulk v l => Some (with_bitmaps f (entry_update (bitmaps f) v VersionedBitmap.new_unloaded
      (fun vb => foldl VersionedBitmap.remove vb l)), v)
  | FRemoveFromAll _ | FMergeDirty | FMergeField _ => None
  end.

Inductive cstep : cfg -> cfg -> Prop :=
  | step_write f ts ws o f' v :
      write_bitmaps f o = Some (f', v) ->
      cstep (MkCfg f ts ws) (MkCfg f' (TMark v :: ts) (ws ++ [o]))
  | step_mark f ts1 ts2 ws v :
      cstep (MkCfg f (ts1 ++ TMark v :: ts2) ws) (MkCfg (mark_dirty f v) (ts1 ++ ts2) ws)
  | step_drain f ts ws :
      cstep (MkCfg f ts ws) (MkCfg (with_dirty f ∅) (TDrained (elements (dirty_values f)) :: ts) ws)
  | step_merge f ts1 ts2 ws l m requeue :
      merge_drained (bitmaps f) l = (m, requeue) ->
      cstep (MkCfg f (ts1 ++ TDrained l :: ts2) ws)
            (MkCfg (with_bitmaps f m) (ts1 ++ TRequeue requeue :: ts2) ws)
  | step_requeue f ts1 ts2 ws l :
      cstep (MkCfg f (ts1 ++ TRequeue l :: ts2) ws)
            (MkCfg (with_dirty f (list_to_set l ∪ dirty_values f)) (ts1 ++ ts2) ws).

(** Values some task still answers for. *)
Definition task_values (tk : task) : list N :=
  match tk with TMark v => [v] | TDrained l => l | TRequeue l => l end.

Definition pending (ts : list task) v : Prop := exists tk, tk ∈ ts /\ v ∈ task_values tk.

(** The drained lists have no duplicates; the requeued values are the rest. *)
Definition task_ok (tk : task) : Prop :=
  match tk with TDrained l => NoDup l | _ => True end.

Definition cfg_inv (c : cfg) : Prop :=
  bitmaps_wf (bitmaps (shared c))
  /\ Forall task_ok (tasks c)
  /\ (forall v vb, bitmaps (shared c) !! v = Some vb -> VersionedBitmap.is_dirty vb = true ->
        v ∈ dirty_values (shared c) \/ pending (tasks c) v)
  /\ (forall v x, has (shared c) v x <-> (v, x) ∈ fspec_run ∅ (writes c)).

Lemma pending_cons tk ts v : pending (tk :: ts) v <-> v ∈ task_values tk \/ pending ts v.
Proof. unfold pending. setoid_rewrite elem_of_cons. naive_solver. Qed.

Lemma pending_mid tk ts1 ts2 v :
  pending (ts1 ++ tk :: ts2) v <-> v ∈ task_values tk \/ pending (ts1 ++ ts2) v.
Proof. unfold pending. setoid_rewrite elem_of_app. setoid_rewrite elem_of_cons. naive_solver. Qed.

(** A write is its bitmap half followed by the marking. *)
Lemma write_bitmaps_fstep f o f' v :
  write_bitmaps f o = Some (f', v) -> fstep f o = mark_dirty f' v /\ dirty_values f' = dirty_values f
  /\ forall v', v' <> v -> bitmaps f' !! v' = bitmaps f !! v'.
Proof.
  destruct o; simpl; try done; intros [= <- <-]; (split; [done|]); (split; [done|]);
    intros v' Hv'; unfold entry_update; simpl; by rewrite lookup_insert_ne.
Qed.

Lemma write_bitmaps_wf f o f' v :
  bitmaps_wf (bitmaps f) -> write_bitmaps f o = Some (f', v) -> bitmaps_wf (bitmaps f').
Proof.
  intros Hw. assert (field_inv (with_dirty f (dom (bitmaps f)))) as Hi.
  { split; [done|]. intros v' vb H _. simpl in *. apply elem_of_dom. by eexists. }
  pose proof (proj1 (fstep_inv _ o Hi)) as Ho.
  destruct o; simpl; try done; intros [= <- <-]; exact Ho.
Qed.

(** The merge step: loaded values become clean, the others stay answered for. *)
Lemma cstep_merge_inv f ts1 ts2 ws l m rq :
  cfg_inv (MkCfg f (ts1 ++ TDrained l :: ts2) ws) -> merge_drained (bitmaps f) l = (m, rq) ->
  cfg_inv (MkCfg (with_bitmaps f m) (ts1 ++ TRequeue rq :: ts2) ws).
Proof.
  intros (Hw & Hok & Ht & Hs) Hm. simpl in *.
  rewrite Forall_app, Forall_cons in Hok. destruct Hok as (Hok1 & Hnd & Hok2). simpl in Hnd.
  assert (forall v, m !! v = merge_if l v <$> bitmaps f !! v /\ (v ∈ rq <-> v ∈ l /\
    exists vb, bitmaps f !! v = Some vb /\ VersionedBitmap.is_dirty vb = true
      /\ VersionedBitmap.is_loaded vb = false)) as Hl.
  { intros v. pose proof (merge_loop_lookup l (bitmaps f) [] v Hnd) as H.
    unfold merge_drained in Hm. rewrite Hm in H. rewrite elem_of_nil in H. tauto. }
  split_and!; simpl.
  - intros v vb. rewrite (proj1 (Hl v)). intros (vb0 & H0 & ->)%fmap_Some. apply merge_if_wf. by eapply Hw.
  - apply Forall_app. split; [done|]. by constructor.
  - intros v vb. rewrite (proj1 (Hl v)). intros (vb0 & H0 & ->)%fmap_Some Hd.
    rewrite pending_mid. simpl. rewrite (proj2 (Hl v)). unfold merge_if in Hd.
    destruct (VersionedBitmap.is_dirty vb0) eqn:Ed;
      [|rewrite andb_false_r in Hd; simpl in Hd; congruence].
    destruct (Ht v vb0 H0 Ed) as [|Hp]; [by left|]. rewrite pending_mid in Hp. simpl in Hp.
    destruct Hp as [Hin|]; [|tauto]. rewrite bool_decide_true in Hd by done.
    destruct (VersionedBitmap.is_loaded vb0) eqn:El; [by simpl in Hd; rewrite merge_clean in Hd|].
    right. left. eauto.
  - intros v x. rewrite <- Hs. unfold has. simpl. rewrite (proj1 (Hl v)).
    destruct (bitmaps f !! v) as [vb|] eqn:E; simpl; [|naive_solver].
    pose proof (merge_if_elem l v vb x (Hw _ _ E)). naive_solver.
Qed.

Lemma cstep_inv c c' : cfg_inv c -> cstep c c' -> cfg_inv c'.
Proof.
  intros (Hw & Hok & Ht & Hs) Hstep.
  destruct Hstep as [f ts ws o f' v Ho|f ts1 ts2 ws v|f ts ws|f ts1 ts2 ws l m rq Hm|f ts1 ts2 ws l];
    simpl in *.
  - destruct (write_bitmaps_fstep f o f' v Ho) as (Hstep & Hdirty & Hother).
    split_and!; simpl; [by eapply write_bitmaps_wf|by constructor| |].
    + intros v' vb' H1 H2. rewrite pending_cons. simpl. rewrite list_elem_of_singleton, Hdirty.
      destruct (decide (v' = v)); [tauto|]. rewrite Hother in H1 by done.
      destruct (Ht v' vb' H1 H2); tauto.
    + intros v' x. unfold fspec_run. rewrite foldl_app. simpl.
      rewrite <- (fstep_has f _ o Hw Hs v' x), Hstep. done.
  - split_and!; simpl; [done| | |done].
    + rewrite Forall_app, Forall_cons in Hok. apply Forall_app. tauto.
    + intros v' vb' H1 H2. destruct (Ht v' vb' H1 H2) as [Hin|Hp]; [set_solver|].
      rewrite pending_mid in Hp. simpl in Hp. rewrite list_elem_of_singleton in Hp.
      destruct Hp; [set_solver|by right].
  - split_and!; simpl; [done| | |done].
    + constructor; [apply NoDup_elements|done].
    + intros v' vb' H1 H2. right. rewrite pending_cons. simpl. rewrite elem_of_elements. by apply (Ht v' vb').
  - by eapply (cstep_merge_inv f ts1 ts2 ws l); [split_and!|].
  - split_and!; simpl; [done| | |done].
    + rewrite Forall_app, Forall_cons in Hok. apply Forall_app. tauto.
    + intros v' vb' H1 H2. rewrite elem_of_union, elem_of_list_to_set.
      destruct (Ht v' vb' H1 H2) as [Hin|Hp]; [tauto|]. rewrite pending_mid in Hp. simpl in Hp. tauto.
Qed.

Lemma init_inv fc : cfg_inv (MkCfg (new fc) [] []).
Proof.
  split_and!; simpl; [|done| |].
  - intros v vb. simpl. by rewrite lookup_empty.
  - intros v vb. simpl. by rewrite lookup_empty.
  - intros v x. split; [|by intros ?%elem_of_empty]. intros (vb & H & _). simpl in H.
    by rewrite lookup_empty in H.
Qed.

Lemma csteps_inv c c' : rtc cstep c c' -> cfg_inv c -> cfg_inv c'.
Proof. induction 1; intros Hi; [done|]. by eapply IHrtc, cstep_inv. Qed.

(** However writers and compactions of one field interleave, no write is lost
    and compaction forgets nothing: in every reachable configuration the field
    holds exactly the writes in the order in which the bitmap lock serialised
    them, and once no operation is in flight every value with a pending diff is
    in the dirty set. *)
Theorem concurrent_writes_tracked (fc : FilterFieldConfig) (c : cfg) :
  rtc cstep (MkCfg (new fc) [] []) c ->
  (forall v x, has (shared c) v x <-> (v, x) ∈ fspec_run ∅ (writes c))
  /\ (tasks c = [] -> tracked (shared c)).
Proof.
  intros Hr. destruct (csteps_inv _ _ Hr (init_inv fc)) as (_ & _ & Ht & Hs). split; [done|].
  intros He v vb H1 H2. destruct (Ht v vb H1 H2) as [|(tk & Htk & _)]; [done|].
  rewrite He in Htk. by apply elem_of_nil in Htk.
Qed.

End concurrency.

(** ** Witnesses *)

Definition demo_tags : FilterField.t Bitset :=
  frun (FilterField.new (filter_config "tagIds" MultiValue)) [FInsert 7 1; FInsertBulk 7 [2; 3]; FRemove 9 4].

Lemma demo_tags_inv : field_inv demo_tags.
Proof. repeat apply fstep_inv. apply new_inv. Qed.

Lemma merge_dirty_compacts_witness :
  let f := frun (FilterField.new (filter_config "nsfwLevel" SingleValue) : FilterField.t Bitset)
             [FInsert 1 5; FRemove 2 6] in
  (forall v x, has (FilterField.merge_dirty f) v x <-> has f v x)
  /\ FilterField.has_loaded_dirty (FilterField.merge_dirty f) = false
  /\ FilterField.dirty_values (FilterField.merge_dirty f) = {[2]}.
Proof.
  intros f. assert (field_inv f) as Hf by (repeat apply fstep_inv; apply new_inv).
  destruct (merge_dirty_compacts f Hf) as (H1 & _ & _ & H4).
  split; [exact H1|]. split; [exact H4|]. vm_compute. reflexivity.
Defined.

Definition demo_disk : gmap N Bitset := {[7 := bitset [1; 2]]}.
Definition demo_loaded : FilterField.t Bitset :=
  FilterField.load_from (FilterField.new (filter_config "tagIds" MultiValue)) demo_disk.

Lemma demo_loaded_persisted : persisted demo_disk demo_loaded.
Proof.
  intros v. unfold demo_loaded, FilterField.load_from. simpl.
  unfold on_disk, demo_disk. rewrite map_fold_singleton. simpl.
  destruct (decide (v = 7)) as [->|Hv].
  - rewrite lookup_insert_eq, lookup_singleton_eq. split; [apply wf_new|]. naive_solver.
  - rewrite lookup_insert_ne, lookup_empty, lookup_singleton_ne by done. naive_solver.
Qed.

Lemma filter_unload_reload_witness :
  let h : gmap N (FilterField.t Bitset) := {[0 := demo_loaded]} in
  let idx : gmap string N := {["tagIds"%string := 0]} in
  let '(h1, idx1) := FilterIndex.unload_field h idx "tagIds" in
  let h2 := FilterIndex.with_field h1 idx1 "tagIds" (fun g => lrun g [LRemoveBulk 7 [1]; LMergeDirty]) in
  let h3 := FilterIndex.with_field h2 idx1 "tagIds" (fun g => FilterField.load_field_complete g demo_disk) in
  exists f3, FilterIndex.get_field h3 idx1 "tagIds" = Some f3
  /\ forall v x, has f3 v x <-> ~ (v = 7 /\ x ∈ [1]) /\ has demo_loaded v x.
Proof.
  pose proof (filter_unload_reload {[0 := demo_loaded]} {["tagIds"%string := 0]} "tagIds" 0 demo_loaded
    demo_disk [LRemoveBulk 7 [1]; LMergeDirty] eq_refl eq_refl eq_refl demo_loaded_persisted) as H.
  cbv zeta. destruct (FilterIndex.unload_field _ _ _) as [h1 idx1].
  destruct H as [_ H]. exact H.
Defined.

Lemma eager_seed_loses_remove_witness :
  let f : FilterField.t Bitset := FilterField.new (filter_config "nsfwLevel" SingleValue) in
  let f' := FilterField.merge_dirty (FilterField.remove_bulk (FilterField.insert_bulk f 7 [5]) 7 [1]) in
  ~ has f' 7 1 /\ has (FilterField.load_field_complete f' demo_disk) 7 1.
Proof.
  apply (eager_seed_loses_remove (FilterField.new (filter_config "nsfwLevel" SingleValue)) demo_disk 7 5 1);
    [reflexivity|reflexivity|reflexivity| |done].
  exists (bitset [1; 2]). split; [reflexivity|]. apply rb_contains_true. vm_compute. reflexivity.
Defined.

(** A writer that is preempted between updating the bitmap and marking the value,
    with a whole compaction in between. *)
Lemma concurrent_writes_tracked_witness :
  exists c : cfg (B := Bitset), tasks c = [] /\ writes c = [FInsert 7 1] /\ tracked (shared c).
Proof.
  pose (f0 := FilterField.new (filter_config "tagIds" MultiValue) : FilterField.t Bitset).
  destruct (write_bitmaps f0 (FInsert 7 1)) as [[f1 v]|] eqn:E; [|discriminate E].
  assert (rtc cstep (MkCfg f0 [] []) (MkCfg (FilterField.mark_dirty
    (FilterField.with_dirty (FilterField.with_dirty f1 ∅) ∅) v) [] [FInsert 7 1])) as Hr.
  { eapply rtc_l; [by apply step_write|]. simpl.
    eapply rtc_l; [apply step_drain|]. simpl.
    eapply rtc_l; [apply (step_merge _ [] [TMark v] _ _ (FilterField.bitmaps f1) [])|].
    { injection E as <- <-. reflexivity. }
    eapply rtc_l; [apply (step_requeue _ [] [TMark v] _ [])|].
    eapply rtc_l; [apply (step_mark _ [] [] _ v)|]. injection E as <- <-. apply rtc_refl. }
  eexists. split; [|split; [|apply (concurrent_writes_tracked _ _ Hr)]]; reflexivity.
Defined.

Lemma filter_field_refines_witness :
  let f := frun (FilterField.new (filter_config "tagIds" MultiValue) : FilterField.t Bitset)
             [FInsertBulk 7 [1; 2]; FRemove 7 1; FMergeDirty; FInsert 9 1] in
  rb_iter (FilterField.union_with_diff f [7; 9] (bitset [1; 2; 3])) = [1; 2]
  /\ 3 ∉ FilterField.union_with_diff f [7; 9] (bitset [1; 2; 3]).
Proof.
  destruct (filter_field_refines (B := Bitset) (filter_config "tagIds" MultiValue)
    [FInsertBulk 7 [1; 2]; FRemove 7 1; FMergeDirty; FInsert 9 1]) as (_ & _ & Hu).
  split; [vm_compute; reflexivity|]. rewrite Hu. intros [_ (v & _ & Hv)]. revert Hv.
  assert (set_Forall (fun p : N * N => p.2 <> 3)
    (fspec_run ∅ [FInsertBulk 7 [1; 2]; FRemove 7 1; FMergeDirty; FInsert 9 1])) as HS.
  { apply (bool_decide_unpack _). vm_compute. exact I. }
  intros Hv. by apply (HS _ Hv).
Defined.
