(* ===== verification/Float64.v ===== *)
(** * IEEE binary64 arithmetic used by the engine's thresholds

    The [f64] operations of Rust that the sources use, on [spec_float]:
    conversion from an unsigned integer, [+], [*], [round] and the saturating
    casts [as u64] / [as usize]. *)

From S2P Require Import Prelude.
From Stdlib Require Export SpecFloat.

Definition f64_prec : Z := 53.
Definition f64_emax : Z := 1024.

(** [n as f64]: round to nearest, ties to even. *)
Definition f64_of_N (n : N) : spec_float :=
  binary_normalize f64_prec f64_emax (Z.of_N n) 0 false.

Definition f64_add : spec_float -> spec_float -> spec_float := SFadd f64_prec f64_emax.
Definition f64_mul : spec_float -> spec_float -> spec_float := SFmul f64_prec f64_emax.

Definition f64_one : spec_float := f64_of_N 1.

(** [n / d] of two integers, used to write decimal constants such as [0.10]. *)
Definition f64_ratio (n d : N) : spec_float := SFdiv f64_prec f64_emax (f64_of_N n) (f64_of_N d).

(** Casting a real integer value to [u64] saturates at both ends. *)
Definition saturate_u64 (negative : bool) (magnitude : N) : N :=
  if negative then 0 else N.min magnitude u64_max.

(** [x as u64]: truncation towards zero, saturating, NaN to 0. *)
Definition f64_as_u64 (x : spec_float) : N :=
  match x with
  | S754_zero _ | S754_nan => 0
  | S754_infinity s => if s then 0 else u64_max
  | S754_finite s m e =>
      saturate_u64 s (if (0 <=? e)%Z then N.shiftl (Npos m) (Z.to_N e)
                      else N.shiftr (Npos m) (Z.to_N (- e)))
  end.

(** [x.round() as u64]: [round] is half away from zero and its result is an
    integer, so the cast only saturates. *)
Definition f64_round_as_u64 (x : spec_float) : N :=
  match x with
  | S754_zero _ | S754_nan => 0
  | S754_infinity s => if s then 0 else u64_max
  | S754_finite s m e =>
      saturate_u64 s
        (if (0 <=? e)%Z then N.shiftl (Npos m) (Z.to_N e)
         else N.shiftr (Npos m + N.shiftl 1 (Z.to_N (- e) - 1)) (Z.to_N (- e)))
  end.

(** Reference points: 10% of a day, of a week, and a compaction factor of 1.5. *)
Example f64_ten_percent_day :
  f64_round_as_u64 (f64_mul (f64_of_N 86400) (f64_ratio 1 10)) = 8640.
Proof. vm_compute. reflexivity. Qed.

Example f64_half_up : f64_round_as_u64 (f64_mul (f64_of_N 5) (f64_ratio 1 2)) = 3.
Proof. vm_compute. reflexivity. Qed.

Example f64_trunc : f64_as_u64 (f64_mul (f64_of_N 5) (f64_add f64_one (f64_ratio 1 2))) = 7.
Proof. vm_compute. reflexivity. Qed.

Example f64_nan_casts_to_zero : f64_as_u64 S754_nan = 0.
Proof. reflexivity. Qed.

(** The casts stay inside [u64]. *)
Lemma f64_as_u64_bound x : f64_as_u64 x <= u64_max.
Proof. destruct x as [|[]| |[] m e]; simpl; unfold u64_max; try lia. Qed.
