(* ===== verification/Bytes.v ===== *)
(** * Byte-level encodings shared by the persistent logs

    A byte is an [N] below 256, a file a list of bytes.  [to_le_bytes] and
    [from_le_bytes] are Rust's little-endian conversions of fixed-width
    integers.  The checksum crate [crc32fast] and the portable serialization of
    the [roaring] crate are not part of the repository: they are the interface
    classes [Checksum] and [RoaringSerde], with [crc32_ieee] and
    [Bitset_serde] as concrete instances. *)

From S2P Require Import Prelude Roaring.

(** ** Little-endian integers *)

Fixpoint to_le_bytes (width : nat) (n : N) : list N :=
  match width with
  | O => []
  | S w => n mod 256 :: to_le_bytes w (n / 256)
  end.

Fixpoint from_le_bytes (bytes : list N) : N :=
  match bytes with
  | [] => 0
  | b :: rest => b + 256 * from_le_bytes rest
  end.

Lemma length_to_le_bytes w n : length (to_le_bytes w n) = w.
Proof. revert n. induction w; intros n; simpl; auto. Qed.

(** Decoding an encoded integer gives it back modulo its width. *)
Lemma from_to_le_bytes w n : from_le_bytes (to_le_bytes w n) = n mod (256 ^ N.of_nat w).
Proof.
  revert n. induction w as [|w IH]; intros n; simpl.
  { by rewrite N.mod_1_r. }
  rewrite IH. replace (N.of_nat (S w)) with (N.succ (N.of_nat w)) by lia.
  rewrite N.pow_succ_r by lia.
  rewrite (N.Div0.mod_mul_r n 256). lia.
Qed.

Lemma from_to_le_bytes_small w n : n < 256 ^ N.of_nat w -> from_le_bytes (to_le_bytes w n) = n.
Proof. intros Hn. rewrite from_to_le_bytes. by apply N.mod_small. Qed.

#[export] Hint Rewrite length_to_le_bytes : bitdex.

(** [data.len()] and [data[lo..hi]]; every use in the sources is in range. *)
Definition byte_len (data : list N) : N := N.of_nat (length data).

Definition slice (data : list N) (lo hi : N) : list N :=
  take (N.to_nat (hi - lo)) (drop (N.to_nat lo) data).

Lemma byte_len_app a b : byte_len (a ++ b) = byte_len a + byte_len b.
Proof. unfold byte_len. rewrite length_app. lia. Qed.

Lemma byte_len_le_bytes w n : byte_len (to_le_bytes w n) = N.of_nat w.
Proof. unfold byte_len. by rewrite length_to_le_bytes. Qed.

#[export] Hint Rewrite byte_len_app byte_len_le_bytes : bitdex.

(** The fields of a record laid out one after the other. *)
Lemma slice_skip (a b : list N) lo hi :
  byte_len a <= lo -> slice (a ++ b) lo hi = slice b (lo - byte_len a) (hi - byte_len a).
Proof.
  unfold byte_len, slice. intros Hlo. rewrite drop_app_ge by lia.
  f_equal; [|f_equal]; lia.
Qed.

Lemma slice_here (a b : list N) n : byte_len a = n -> slice (a ++ b) 0 n = a.
Proof.
  unfold byte_len, slice. intros <-. simpl. rewrite drop_0.
  replace (N.to_nat (N.of_nat (length a) - 0)) with (length a) by lia.
  apply take_app_length.
Qed.

Lemma slice_all (a : list N) n : byte_len a = n -> slice a 0 n = a.
Proof. intros Hn. rewrite <- (app_nil_r a) at 1. by apply slice_here. Qed.

Lemma slice_app_l (a b : list N) lo hi :
  lo <= hi -> hi <= byte_len a -> slice (a ++ b) lo hi = slice a lo hi.
Proof.
  unfold byte_len, slice. intros H1 H2. rewrite drop_app_le by lia.
  apply take_app_le. rewrite length_drop. lia.
Qed.

Lemma slice_take (l : list N) k lo hi :
  lo <= hi -> hi <= N.of_nat k -> slice (take k l) lo hi = slice l lo hi.
Proof.
  intros H1 H2. unfold slice. rewrite !take_drop_commute, take_take.
  by rewrite Nat.min_l by lia.
Qed.

(** Positions relative to a prefix already read. *)
Lemma slice_after (pre rest : list N) a b :
  slice (pre ++ rest) (byte_len pre + a) (byte_len pre + b) = slice rest a b.
Proof. rewrite slice_skip by lia. f_equal; lia. Qed.

Lemma slice_after0 (pre rest : list N) b :
  slice (pre ++ rest) (byte_len pre) (byte_len pre + b) = slice rest 0 b.
Proof. rewrite <- (N.add_0_r (byte_len pre)) at 1. apply slice_after. Qed.

Lemma drop_byte_len (a b : list N) : drop (N.to_nat (byte_len a)) (a ++ b) = b.
Proof. unfold byte_len. by rewrite Nat2N.id, drop_app_length. Qed.

(** ** The checksum interface *)

Class Checksum := {
  crc32 : list N -> N;
  (** a [u32] *)
  crc32_bound : forall l, crc32 l < 4294967296;
}.

(** CRC-32 (IEEE 802.3, reflected), bit by bit. *)
Definition crc32_step (crc : N) (_ : nat) : N :=
  if N.odd crc then N.lxor (N.shiftr crc 1) 0xEDB88320 else N.shiftr crc 1.

Definition crc32_byte (crc byte : N) : N :=
  foldl crc32_step (N.lxor crc byte) (seq 0 8).

Definition crc32_ieee (l : list N) : N :=
  wrap32 (N.lxor (foldl crc32_byte 0xFFFFFFFF l) 0xFFFFFFFF).

Lemma crc32_ieee_bound l : crc32_ieee l < 4294967296.
Proof. unfold crc32_ieee, wrap32. apply N.mod_lt. done. Qed.

#[export] Instance crc32_ieee_checksum : Checksum :=
  {| crc32 := crc32_ieee; crc32_bound := crc32_ieee_bound |}.

(** The check value of the CRC-32 catalogue: the ASCII string 123456789. *)
Example crc32_ieee_check :
  crc32_ieee [49; 50; 51; 52; 53; 54; 55; 56; 57] = 0xCBF43926.
Proof. vm_compute. reflexivity. Qed.

(** ** The bitmap serialization interface *)

Class RoaringSerde (B : Type) `{!RoaringOps B} := {
  rb_serialize : B -> list N;
  rb_deserialize : list N -> option B;
  (** [deserialize_from] reads back what [serialize_into] wrote. *)
  rb_serde_roundtrip : forall b : B, rb_deserialize (rb_serialize b) = Some b;
}.

(** A concrete instance for [Bitset]: the binary digits of its [Countable]
    encoding, one per byte. *)
Fixpoint pos_to_bytes (p : positive) : list N :=
  match p with
  | xH => []
  | xO q => 0 :: pos_to_bytes q
  | xI q => 1 :: pos_to_bytes q
  end.

Fixpoint bytes_to_pos (l : list N) : positive :=
  match l with
  | [] => xH
  | b :: l' => if b =? 0 then xO (bytes_to_pos l') else xI (bytes_to_pos l')
  end.

Lemma bytes_to_pos_to_bytes p : bytes_to_pos (pos_to_bytes p) = p.
Proof. induction p as [p IH|p IH|]; simpl; by rewrite ?IH. Qed.

Lemma pos_to_bytes_small p : Forall (fun b => b < 256) (pos_to_bytes p).
Proof. induction p; simpl; constructor; done || lia. Qed.

#[export, refine] Instance Bitset_serde : RoaringSerde Bitset := {|
  rb_serialize b := pos_to_bytes (encode (elements (bits b)));
  rb_deserialize l := bitset <$> decode (bytes_to_pos l);
|}.
Proof.
  intros [X]. rewrite bytes_to_pos_to_bytes, decode_encode. simpl.
  unfold bitset. by rewrite list_to_set_elements_L.
Defined.

Example Bitset_serde_demo :
  (bits <$> rb_deserialize (rb_serialize (bitset [7; 3]))) = Some (bits (bitset [3; 7])).
Proof. vm_compute. reflexivity. Qed.
