(* ===== verification/BucketDiffLog.v ===== *)
(** * The time-bucket diff log (src/bucket_diff_log.rs)

    [PendingBucketDiffs] keeps the most recent expiry diffs of a time bucket with
    their union; [BucketDiffLog] persists them in an append-only file, one
    checksummed entry per diff, and compacts the file by writing a temporary
    file and renaming it.  Files are byte lists in a finite map [fs]; a crash is
    modelled by the intermediate states a run goes through ([crash_state]).
    Failing system calls are not modelled. *)

From S2P Require Import Prelude Roaring Float64 Bytes.
From Stdlib Require Import Ascii.

Record BucketDiff (B : Type) : Type := MkBucketDiff {
  cutoff_before : N;
  cutoff_after : N;
  expired : B;
}.
Arguments MkBucketDiff {B} _ _ _.
Arguments cutoff_before {B} _.
Arguments cutoff_after {B} _.
Arguments expired {B} _.

(** ** Pending diffs *)

Module PendingBucketDiffs.

Record t (B : Type) : Type := mk {
  diffs : list (BucketDiff B);
  merged_expired : B;
  current_cutoff : N;
  max_diffs : nat;
}.
Arguments mk {B} _ _ _ _.
Arguments diffs {B} _.
Arguments merged_expired {B} _.
Arguments current_cutoff {B} _.
Arguments max_diffs {B} _.

Section ops.
Context {B : Type} `{!RoaringOps B}.

Definition compute_merged (ds : list (BucketDiff B)) : B :=
  foldl (fun merged d => rb_or merged (expired d)) rb_new ds.

Definition new (max_diffs : nat) : t B := mk [] rb_new 0 max_diffs.

Definition from_diffs (ds : list (BucketDiff B)) (max_diffs : nat) : t B :=
  mk ds (compute_merged ds) (default 0 (cutoff_after <$> last ds)) max_diffs.

(** [while diffs.len() > max_diffs { diffs.remove(0) }] *)
Fixpoint trim (max_diffs : nat) (ds : list (BucketDiff B)) : list (BucketDiff B) :=
  match ds with
  | [] => []
  | _ :: rest => if (max_diffs <? length ds)%nat then trim max_diffs rest else ds
  end.

Definition push (p : t B) (d : BucketDiff B) : t B :=
  let ds := trim (max_diffs p) (diffs p ++ [d]) in
  mk ds (compute_merged ds) (cutoff_after d) (max_diffs p).

Definition oldest_cutoff (p : t B) : N := default 0 (cutoff_before <$> head (diffs p)).

Definition len (p : t B) : nat := length (diffs p).

Definition is_empty (p : t B) : bool := bool_decide (diffs p = []).

(** Bring a cached result up to date with one AND-NOT. *)
Definition apply_merged (p : t B) (b : B) : B := rb_sub b (merged_expired p).

(** What it replaces: applying the retained diffs one at a time. *)
Definition apply_each (p : t B) (b : B) : B :=
  foldl (fun b d => rb_sub b (expired d)) b (diffs p).

End ops.

(** *** Facts *)

Section facts.
Context {B : Type} `{HB : Roaring B}.
Implicit Types (p : t B) (ds : list (BucketDiff B)) (b : B).

Lemma elem_of_merged_acc ds b x :
  x ∈ foldl (fun merged d => rb_or merged (expired d)) b ds
  <-> x ∈ b \/ exists d, d ∈ ds /\ x ∈ expired d.
Proof.
  revert b. induction ds as [|d ds IH]; intros b; simpl; [set_solver|].
  rewrite IH, rb_elem_of_or. setoid_rewrite elem_of_cons. naive_solver.
Qed.

Lemma elem_of_compute_merged ds x :
  x ∈ compute_merged ds <-> exists d, d ∈ ds /\ x ∈ expired d.
Proof.
  unfold compute_merged. rewrite elem_of_merged_acc.
  split; [intros [Hx|?]; [by apply rb_elem_of_new in Hx|done]|by right].
Qed.

Lemma elem_of_apply_each ds b x :
  x ∈ foldl (fun b d => rb_sub b (expired d)) b ds
  <-> x ∈ b /\ ~ exists d, d ∈ ds /\ x ∈ expired d.
Proof.
  revert b. induction ds as [|d ds IH]; intros b; simpl; [set_solver|].
  rewrite IH, rb_elem_of_sub. setoid_rewrite elem_of_cons. naive_solver.
Qed.

Lemma trim_drop n ds : trim n ds = drop (length ds - n) ds.
Proof.
  induction ds as [|d ds IH]; [by rewrite drop_nil|].
  cbn [trim]. destruct (Nat.ltb_spec n (length (d :: ds))) as [Hn|Hn]; cbn [length] in *.
  - rewrite IH. by replace (S (length ds) - n)%nat with (S (length ds - n)) by lia.
  - by replace (S (length ds) - n)%nat with 0%nat by lia.
Qed.

(** The pending state after a sequence of refresh cycles. *)
Definition push_all (p : t B) (ds : list (BucketDiff B)) : t B := foldl push p ds.

Lemma push_all_diffs p ds :
  diffs p = drop (length (diffs p) - max_diffs p) (diffs p) ->
  diffs (push_all p ds)
  = drop (length (diffs p ++ ds) - max_diffs p) (diffs p ++ ds)
  /\ max_diffs (push_all p ds) = max_diffs p.
Proof.
  revert p. induction ds as [|d ds IH]; intros p Hp; simpl.
  { rewrite !app_nil_r. by split. }
  destruct (IH (push p d)) as [-> ->]; simpl; rewrite !trim_drop.
  { symmetry. rewrite length_drop.
    replace (_ - _ - max_diffs p)%nat with 0%nat by lia. apply drop_0. }
  split; [|done]. rewrite length_app, length_drop, !length_app, <- drop_app_le.
  - rewrite drop_drop, <- app_assoc. simpl. f_equal. lia.
  - rewrite length_app. lia.
Qed.

Lemma push_all_cutoff p ds :
  current_cutoff (push_all p ds) = default (current_cutoff p) (cutoff_after <$> last ds).
Proof.
  induction ds as [|d ds IH] using rev_ind; [done|].
  unfold push_all. by rewrite foldl_app, last_snoc.
Qed.

Lemma push_all_merged p ds :
  merged_expired p = compute_merged (diffs p) ->
  merged_expired (push_all p ds) = compute_merged (diffs (push_all p ds)).
Proof. revert p. induction ds as [|d ds IH]; intros p Hp; simpl; [done|]. by apply IH. Qed.

End facts.

End PendingBucketDiffs.

(** Cutoffs are snapped down to the refresh interval. *)
Definition snap_cutoff (ts interval : N) : N :=
  if interval =? 0 then ts else ts / interval * interval.

Lemma snap_cutoff_le ts interval : snap_cutoff ts interval <= ts.
Proof.
  unfold snap_cutoff. crush_if; bool_to_prop; [done|].
  rewrite N.mul_comm. by apply N.Div0.mul_div_le.
Qed.

Lemma snap_cutoff_close ts interval : interval <> 0 -> ts < snap_cutoff ts interval + interval.
Proof.
  intros Hi. unfold snap_cutoff. destruct (N.eqb_spec interval 0); [done|].
  pose proof (N.mul_succ_div_gt ts interval Hi). lia.
Qed.

(** ** The append-only log *)

Module BucketDiffLog.

Definition ENTRY_HEADER_SIZE : N := 20.
Definition CRC_SIZE : N := 4.

(** The file system: the bytes of each existing file. *)
Notation fs := (gmap string (list N)).

Record t : Type := mk {
  path : string;
  max_diffs : nat;
  compaction_threshold_pct : spec_float;
}.

Definition new (path : string) (max_diffs : nat) (pct : spec_float) : t := mk path max_diffs pct.

(** [path.with_extension("log.tmp")]: everything after the last dot of the last
    path component is replaced (the component does not start with its only dot). *)
Fixpoint strip_extension (rev_path : list ascii) : option (list ascii) :=
  match rev_path with
  | [] => None
  | c :: rest =>
      if bool_decide (c = "/"%char) then None
      else if bool_decide (c = "."%char) then Some rest
      else strip_extension rest
  end.

Definition tmp_path (log : t) : string :=
  let chars := String.list_ascii_of_string (path log) in
  let stem := match strip_extension (reverse chars) with
              | Some r => reverse r
              | None => chars
              end in
  String.append (String.string_of_list_ascii stem) ".log.tmp".

Section ops.
Context {B : Type} `{!RoaringOps B, !Checksum, !RoaringSerde B}.

(** One entry: header, bitmap, checksum of both.  The buffer both [append] and
    [compact_if_needed] build. *)
Definition entry_payload (d : BucketDiff B) : list N :=
  let bitmap_bytes := rb_serialize (expired d) in
  to_le_bytes 8 (cutoff_before d) ++ to_le_bytes 8 (cutoff_after d)
  ++ to_le_bytes 4 (wrap32 (byte_len bitmap_bytes)) ++ bitmap_bytes.

Definition encode_entry (d : BucketDiff B) : list N :=
  entry_payload d ++ to_le_bytes 4 (crc32 (entry_payload d)).

Definition append (log : t) (f : fs) (d : BucketDiff B) : fs :=
  <[path log := default [] (f !! path log) ++ encode_entry d]> f.

(** The loop of [read_all]; each round consumes at least 24 bytes, so
    [data.len()] rounds are enough ([read_all_enough_fuel]). *)
Fixpoint read_loop (fuel : nat) (data : list N) (pos : N) (diffs : list (BucketDiff B))
  : list (BucketDiff B) :=
  match fuel with
  | O => diffs
  | S fuel' =>
      if pos + ENTRY_HEADER_SIZE <=? byte_len data then
        let before := from_le_bytes (slice data pos (pos + 8)) in
        let after := from_le_bytes (slice data (pos + 8) (pos + 16)) in
        let bitmap_len := from_le_bytes (slice data (pos + 16) (pos + 20)) in
        let entry_end := pos + ENTRY_HEADER_SIZE + bitmap_len + CRC_SIZE in
        if byte_len data <? entry_end then diffs
        else
          let payload := slice data pos (pos + ENTRY_HEADER_SIZE + bitmap_len) in
          let stored_crc :=
            from_le_bytes (slice data (pos + ENTRY_HEADER_SIZE + bitmap_len) entry_end) in
          if negb (stored_crc =? crc32 payload) then diffs
          else
            let bitmap_data :=
              slice data (pos + ENTRY_HEADER_SIZE) (pos + ENTRY_HEADER_SIZE + bitmap_len) in
            match rb_deserialize bitmap_data with
            | Some bitmap =>
                read_loop fuel' data entry_end (diffs ++ [MkBucketDiff before after bitmap])
            | None => diffs
            end
      else diffs
  end.

Definition read_bytes (data : list N) : list (BucketDiff B) := read_loop (length data) data 0 [].

Definition read_all (log : t) (f : fs) : list (BucketDiff B) :=
  match f !! path log with
  | None => []
  | Some data => read_bytes data
  end.

(** The last [max_diffs] entries. *)
Definition retain (max_diffs : nat) (all : list (BucketDiff B)) : list (BucketDiff B) :=
  drop (length all - max_diffs) all.

Definition read_retained (log : t) (f : fs) : list (BucketDiff B) :=
  retain (max_diffs log) (read_all log f).

Definition entry_count (log : t) (f : fs) : nat := length (read_all log f).

Definition compaction_threshold (log : t) : N :=
  f64_as_u64 (f64_mul (f64_of_N (N.of_nat (max_diffs log)))
                      (f64_add f64_one (compaction_threshold_pct log))).

Definition compact_if_needed (log : t) (f : fs) : bool * fs :=
  let all := read_all log f in
  if N.of_nat (length all) <=? compaction_threshold log then (false, f)
  else
    let retained := retain (max_diffs log) all in
    let f1 := foldl (fun g d => <[tmp_path log := default [] (g !! tmp_path log) ++ encode_entry d]> g)
                    (<[tmp_path log := []]> f) retained in
    let f2 := match f1 !! tmp_path log with
              | Some data => <[path log := data]> (delete (tmp_path log) f1)
              | None => f1
              end in
    (true, f2).

(** The states a process that dies during [compact_if_needed] can leave behind:
    before it, with any part of the temporary file written, after the rename. *)
Inductive crash_state (log : t) (f : fs) : fs -> Prop :=
  | crash_before : crash_state log f f
  | crash_writing (k : nat) :
      crash_state log f
        (<[tmp_path log := take k (mjoin (encode_entry <$> retain (max_diffs log) (read_all log f)))]> f)
  | crash_after : crash_state log f (compact_if_needed log f).2.

(** Entries the writer can represent: [u64] cutoffs, a bitmap below 4 GiB. *)
Definition valid_entry (d : BucketDiff B) : Prop :=
  cutoff_before d < 18446744073709551616 /\ cutoff_after d < 18446744073709551616
  /\ byte_len (rb_serialize (expired d)) < 4294967296.

Global Instance valid_entry_dec d : Decision (valid_entry d).
Proof. unfold valid_entry. apply _. Defined.

End ops.

Section facts.
Context {B : Type} `{HB : Roaring B, !Checksum, !RoaringSerde B}.
Implicit Types (d : BucketDiff B) (ds : list (BucketDiff B)) (log : t) (f : fs).

Lemma byte_len_payload d : byte_len (entry_payload d) = 20 + byte_len (rb_serialize (expired d)).
Proof. unfold entry_payload. autorewrite with bitdex. lia. Qed.

Lemma byte_len_entry d : byte_len (encode_entry d) = 24 + byte_len (rb_serialize (expired d)).
Proof. unfold encode_entry. autorewrite with bitdex. rewrite byte_len_payload. lia. Qed.

(** The header fields of an entry, wherever at least its header is present. *)
Lemma entry_header d rest :
  valid_entry d ->
  let data := entry_payload d ++ rest in
  from_le_bytes (slice data 0 8) = cutoff_before d
  /\ from_le_bytes (slice data 8 16) = cutoff_after d
  /\ from_le_bytes (slice data 16 20) = byte_len (rb_serialize (expired d))
  /\ slice data 20 (20 + byte_len (rb_serialize (expired d))) = rb_serialize (expired d).
Proof.
  intros (Hb & Ha & Hl) data. subst data. unfold entry_payload. rewrite <- !app_assoc.
  set (s := rb_serialize (expired d)) in *.
  assert (wrap32 (byte_len s) = byte_len s) as -> by (by apply N.mod_small).
  split_and!.
  - rewrite slice_here by apply byte_len_le_bytes. by apply from_to_le_bytes_small.
  - rewrite slice_skip, slice_here by (rewrite byte_len_le_bytes; done).
    by apply from_to_le_bytes_small.
  - do 2 rewrite slice_skip by (rewrite !byte_len_le_bytes; done). rewrite !byte_len_le_bytes.
    rewrite slice_here by (rewrite byte_len_le_bytes; done). by apply from_to_le_bytes_small.
  - do 3 rewrite slice_skip by (rewrite !byte_len_le_bytes; done). rewrite !byte_len_le_bytes.
    rewrite slice_here by lia. done.
Qed.

(** One round of the reader on a complete entry. *)
Lemma read_loop_entry fuel pre d post acc :
  valid_entry d ->
  read_loop (S fuel) (pre ++ encode_entry d ++ post) (byte_len pre) acc
  = read_loop fuel (pre ++ encode_entry d ++ post) (byte_len (pre ++ encode_entry d)) (acc ++ [d]).
Proof.
  intros Hv. set (data := pre ++ encode_entry d ++ post).
  assert (byte_len data = byte_len pre + (24 + byte_len (rb_serialize (expired d))) + byte_len post)
    as Hlen by (subst data; rewrite !byte_len_app, byte_len_entry; lia).
  destruct (entry_header d (to_le_bytes 4 (crc32 (entry_payload d)) ++ post) Hv)
    as (H1 & H2 & H3 & H4).
  assert (data = pre ++ entry_payload d ++ to_le_bytes 4 (crc32 (entry_payload d)) ++ post) as Hd.
  { subst data. unfold encode_entry. by rewrite <- app_assoc. }
  assert (forall a b, slice data (byte_len pre + a) (byte_len pre + b) = slice
    (entry_payload d ++ to_le_bytes 4 (crc32 (entry_payload d)) ++ post) a b) as Hs.
  { intros a b. rewrite Hd. apply slice_after. }
  cbn [read_loop]. unfold ENTRY_HEADER_SIZE, CRC_SIZE.
  rewrite (proj2 (N.leb_le _ _)) by lia.
  rewrite (Hs 8 16), (Hs 16 20), Hd, slice_after0, H1, H2, H3, <- Hd.
  rewrite (proj2 (N.ltb_ge _ _)) by lia.
  rewrite <- !N.add_assoc, !Hs, H4, Hd, slice_after0, <- Hd.
  rewrite (slice_here (entry_payload d)) by apply byte_len_payload.
  rewrite slice_skip by (rewrite byte_len_payload; lia). rewrite byte_len_payload.
  replace (20 + byte_len (rb_serialize (expired d)) - (20 + byte_len (rb_serialize (expired d))))
    with 0 by lia.
  rewrite slice_here by (rewrite byte_len_le_bytes; lia).
  rewrite from_to_le_bytes_small by apply crc32_bound. rewrite N.eqb_refl. simpl negb. cbv iota.
  rewrite rb_serde_roundtrip. destruct d; simpl. f_equal.
  rewrite byte_len_app, byte_len_entry. simpl. lia.
Qed.

(** A torn entry stops the reader. *)
Lemma read_loop_torn fuel pre d k acc :
  valid_entry d -> (k < length (encode_entry d))%nat ->
  read_loop fuel (pre ++ take k (encode_entry d)) (byte_len pre) acc = acc.
Proof.
  intros Hv Hk. destruct fuel as [|fuel]; [done|]. cbn [read_loop].
  unfold ENTRY_HEADER_SIZE, CRC_SIZE. set (torn := take k (encode_entry d)).
  assert (byte_len torn = N.of_nat k) as Hlt.
  { unfold byte_len, torn. rewrite length_take. lia. }
  destruct (N.leb_spec (byte_len pre + 20) (byte_len (pre ++ torn))) as [H20|]; [|done].
  rewrite byte_len_app, Hlt in H20.
  assert (slice (pre ++ torn) (byte_len pre + 16) (byte_len pre + 20)
          = slice (encode_entry d) 16 20) as ->.
  { rewrite slice_after. apply slice_take; lia. }
  destruct (entry_header d (to_le_bytes 4 (crc32 (entry_payload d))) Hv) as (_ & _ & H3 & _).
  unfold encode_entry. rewrite H3. rewrite (proj2 (N.ltb_lt _ _)); [done|].
  rewrite byte_len_app, Hlt. pose proof (byte_len_entry d) as Hl. unfold byte_len in *. lia.
Qed.

(** So does an entry whose checksum does not match. *)
Lemma read_loop_bad_crc fuel pre rest acc :
  let m := from_le_bytes (slice rest 16 20) in
  from_le_bytes (slice rest (20 + m) (20 + m + 4)) <> crc32 (slice rest 0 (20 + m)) ->
  read_loop fuel (pre ++ rest) (byte_len pre) acc = acc.
Proof.
  intros m Hm. destruct fuel as [|fuel]; [done|]. cbn [read_loop].
  unfold ENTRY_HEADER_SIZE, CRC_SIZE. rewrite slice_after. fold m.
  destruct (_ <=? _); [|done]. destruct (_ <? _); [done|].
  rewrite <- !N.add_assoc, slice_after, slice_after0, N.add_assoc.
  by rewrite (proj2 (N.eqb_neq _ _) Hm).
Qed.

(** Reading a file of complete entries, followed by anything. *)
Lemma read_loop_entries ds : forall fuel pre post acc,
  Forall valid_entry ds -> (length ds <= fuel)%nat ->
  read_loop fuel (pre ++ mjoin (encode_entry <$> ds) ++ post) (byte_len pre) acc
  = read_loop (fuel - length ds) (pre ++ mjoin (encode_entry <$> ds) ++ post)
      (byte_len (pre ++ mjoin (encode_entry <$> ds))) (acc ++ ds).
Proof.
  induction ds as [|d ds IH]; intros fuel pre post acc Hv Hf.
  { change (mjoin (encode_entry <$> [])) with (@nil N). rewrite !app_nil_r. by rewrite Nat.sub_0_r. }
  inversion_clear Hv as [|?? Hd Hds]. cbn [length] in *. destruct fuel as [|fuel]; [lia|].
  change (mjoin (encode_entry <$> d :: ds)) with (encode_entry d ++ mjoin (encode_entry <$> ds)).
  rewrite <- (app_assoc (encode_entry d)), read_loop_entry by done.
  rewrite (app_assoc pre (encode_entry d)), IH by (done || lia).
  rewrite <- !app_assoc. done.
Qed.

Lemma length_entries ds : (length ds <= length (mjoin (encode_entry <$> ds)))%nat.
Proof.
  induction ds as [|d ds IH]; [done|].
  change (mjoin (encode_entry <$> d :: ds)) with (encode_entry d ++ mjoin (encode_entry <$> ds)).
  rewrite length_app. cbn [length].
  pose proof (byte_len_entry d) as Hl. unfold byte_len in Hl. lia.
Qed.

Lemma read_loop_end fuel data acc : read_loop fuel data (byte_len data) acc = acc.
Proof.
  destruct fuel; [done|]. cbn [read_loop]. unfold ENTRY_HEADER_SIZE.
  by rewrite (proj2 (N.leb_gt _ _)) by lia.
Qed.

(** Reading from the start of a file. *)
Lemma read_bytes_prefix ds post :
  Forall valid_entry ds ->
  read_bytes (mjoin (encode_entry <$> ds) ++ post)
  = read_loop (length (mjoin (encode_entry <$> ds) ++ post) - length ds)
      (mjoin (encode_entry <$> ds) ++ post) (byte_len (mjoin (encode_entry <$> ds))) ds.
Proof.
  intros Hds. apply (read_loop_entries ds _ [] post []); [done|].
  rewrite length_app. pose proof (length_entries ds). lia.
Qed.

Lemma read_bytes_torn ds d k :
  Forall valid_entry ds -> valid_entry d -> (k < length (encode_entry d))%nat ->
  read_bytes (mjoin (encode_entry <$> ds) ++ take k (encode_entry d)) = ds.
Proof. intros Hds Hd Hk. rewrite read_bytes_prefix by done. by apply read_loop_torn. Qed.

Lemma read_bytes_entries ds :
  Forall valid_entry ds -> read_bytes (mjoin (encode_entry <$> ds)) = ds.
Proof.
  intros Hds. pose proof (read_bytes_prefix ds [] Hds) as Hr.
  rewrite app_nil_r in Hr. rewrite Hr. apply read_loop_end.
Qed.

(** More fuel than [data.len()] changes nothing: the loop has finished. *)
Lemma read_loop_fuel data : forall fuel fuel' pos acc,
  byte_len data < pos + N.of_nat fuel -> (fuel <= fuel')%nat ->
  read_loop fuel' data pos acc = read_loop fuel data pos acc.
Proof.
  induction fuel as [|fuel IH]; intros fuel' pos acc Hf Hle.
  - destruct fuel'; [done|]. cbn [read_loop]. unfold ENTRY_HEADER_SIZE.
    by rewrite (proj2 (N.leb_gt _ _)) by lia.
  - destruct fuel' as [|fuel']; [lia|]. cbn [read_loop]. cbv zeta.
    unfold ENTRY_HEADER_SIZE, CRC_SIZE. crush_if; try done.
    destruct (rb_deserialize _); [|done]. apply IH; lia.
Qed.

Lemma read_all_append log f ds d :
  f !! path log = Some (mjoin (encode_entry <$> ds)) -> Forall valid_entry ds -> valid_entry d ->
  read_all log (append log f d) = ds ++ [d].
Proof.
  intros Hf Hds Hd. unfold read_all, append. rewrite lookup_insert_eq, Hf. simpl.
  replace (mjoin (encode_entry <$> ds) ++ encode_entry d)
    with (mjoin (encode_entry <$> (ds ++ [d]))).
  - apply read_bytes_entries, Forall_app. auto.
  - rewrite fmap_app, join_app. simpl. by rewrite app_nil_r.
Qed.

(** The temporary file [compact_if_needed] builds. *)
Lemma compact_tmp_file p ds : forall (g : fs) content,
  g !! p = Some content ->
  foldl (fun g d => <[p := default [] (g !! p) ++ encode_entry d]> g) g ds
  = <[p := content ++ mjoin (encode_entry <$> ds)]> g.
Proof.
  induction ds as [|d ds IH]; intros g content Hg; simpl.
  - by rewrite app_nil_r, insert_id.
  - rewrite Hg. simpl. rewrite (IH _ (content ++ encode_entry d)) by apply lookup_insert_eq.
    by rewrite insert_insert_eq, <- app_assoc.
Qed.

Lemma compact_result log f :
  tmp_path log <> path log ->
  let all := read_all log f in
  compact_if_needed log f =
    if N.of_nat (length all) <=? compaction_threshold log then (false, f)
    else (true, <[path log := mjoin (encode_entry <$> retain (max_diffs log) all)]>
                  (delete (tmp_path log) f)).
Proof.
  intros Hne all. subst all. unfold compact_if_needed. crush_if; [done|].
  rewrite (compact_tmp_file _ _ _ []) by apply lookup_insert_eq.
  rewrite lookup_insert_eq, insert_insert_eq, delete_insert_eq. done.
Qed.

Lemma retain_length n ds : (length (retain n ds) <= n)%nat.
Proof. unfold retain. rewrite length_drop. lia. Qed.

Lemma retain_idemp n ds : retain n (retain n ds) = retain n ds.
Proof.
  unfold retain. rewrite length_drop.
  replace (_ - _ - n)%nat with 0%nat by lia. apply drop_0.
Qed.

Lemma retain_valid n ds : Forall valid_entry ds -> Forall valid_entry (retain n ds).
Proof. apply Forall_drop. Qed.

End facts.

End BucketDiffLog.

(** ** Properties *)

Section properties.
Context {B : Type} `{HB : Roaring B, !Checksum, !RoaringSerde B}.
Import BucketDiffLog.

(** After any sequence of refresh cycles the pending diffs are exactly the
    most recent [max_diffs] ones, the cutoff is the newest one, and subtracting
    the pre-computed union once gives the same bitmap as replaying the retained
    diffs one by one. *)
Theorem pending_diffs_correct (n : nat) (ds : list (BucketDiff B)) :
  let p := foldl PendingBucketDiffs.push (PendingBucketDiffs.new n) ds in
  PendingBucketDiffs.diffs p = drop (length ds - n) ds
  /\ (PendingBucketDiffs.len p <= n)%nat
  /\ PendingBucketDiffs.current_cutoff p = default 0 (cutoff_after <$> last ds)
  /\ forall b, PendingBucketDiffs.apply_merged p b ≡ PendingBucketDiffs.apply_each p b.
Proof.
  intros p. subst p. change (foldl _ _ ds) with (PendingBucketDiffs.push_all
    (PendingBucketDiffs.new n) ds).
  destruct (PendingBucketDiffs.push_all_diffs (PendingBucketDiffs.new n) ds) as [Hd _]; [done|].
  simpl in Hd. split_and!; [done| | |].
  - unfold PendingBucketDiffs.len. rewrite Hd, length_drop. lia.
  - by rewrite PendingBucketDiffs.push_all_cutoff.
  - intros b x. unfold PendingBucketDiffs.apply_merged, PendingBucketDiffs.apply_each.
    rewrite rb_elem_of_sub, PendingBucketDiffs.push_all_merged by done.
    by rewrite PendingBucketDiffs.elem_of_compute_merged, PendingBucketDiffs.elem_of_apply_each.
Qed.

Lemma append_all_file (log : t) (ds : list (BucketDiff B)) : forall (f : fs) content,
  default [] (f !! path log) = content ->
  default [] (foldl (append log) f ds !! path log) = content ++ mjoin (encode_entry <$> ds).
Proof.
  induction ds as [|d ds IH]; intros f content Hf; simpl.
  - by rewrite app_nil_r.
  - rewrite (IH _ (content ++ encode_entry d)).
    + by rewrite <- app_assoc.
    + unfold append. by rewrite lookup_insert_eq, Hf.
Qed.

(** A file that does not exist reads like an empty one. *)
Lemma read_all_default (log : t) (f : fs) :
  read_all log f = read_bytes (B := B) (default [] (f !! path log)).
Proof. unfold read_all. by destruct (f !! path log). Qed.

(** Diffs appended to a fresh log are read back in order, and a write of one
    more entry that was cut anywhere (a crash) is discarded without losing any
    of the complete entries before it. *)
Theorem diff_log_append_roundtrip (log : t) (f : fs) (ds : list (BucketDiff B)) :
  f !! path log = None -> Forall valid_entry ds ->
  let f' := foldl (append log) f ds in
  read_all log f' = ds
  /\ forall d k, valid_entry d -> (k < length (encode_entry d))%nat ->
       read_all log (<[path log := default [] (f' !! path log) ++ take k (encode_entry d)]> f') = ds.
Proof.
  intros Hf Hds f'. subst f'.
  assert (default [] (foldl (append log) f ds !! path log) = mjoin (encode_entry <$> ds)) as Hfile.
  { rewrite (append_all_file log ds f []); [done|]. by rewrite Hf. }
  split.
  - rewrite read_all_default, Hfile. by apply read_bytes_entries.
  - intros d k Hd Hk. rewrite read_all_default, lookup_insert_eq, Hfile. simpl.
    by apply read_bytes_torn.
Qed.

(** Compaction is crash-safe: whatever state a run of [compact_if_needed]
    that dies on the way leaves behind, the retained entries read from the log
    are the ones from before; and when it runs to the end after crossing its
    threshold the log holds at most [max_diffs] entries. *)
Theorem diff_log_compaction_crash_safe (log : t) (f f' : fs) (ds : list (BucketDiff B)) :
  tmp_path log <> path log -> read_all log f = ds -> Forall valid_entry ds ->
  crash_state (B := B) log f f' ->
  read_retained (B := B) log f' = read_retained log f
  /\ (compact_if_needed (B := B) log f = (true, f') -> (entry_count (B := B) log f' <= max_diffs log)%nat).
Proof.
  intros Hne Hall Hds Hcrash. unfold read_retained, entry_count. rewrite Hall.
  assert (forall b g, compact_if_needed (B := B) log f = (b, g) -> b = true ->
    read_all log g = retain (max_diffs log) ds) as Hdone.
  { intros b g. rewrite compact_result, Hall by done. crush_if; intros [= <- <-]; [done|].
    intros _. unfold read_all. rewrite lookup_insert_eq.
    apply read_bytes_entries. by apply retain_valid. }
  split.
  - destruct Hcrash as [|k|].
    + by rewrite Hall.
    + unfold read_all in *. rewrite lookup_insert_ne by done. by rewrite Hall.
    + destruct (compact_if_needed log f) as [b g] eqn:E. destruct b; simpl.
      * rewrite (Hdone _ _ eq_refl eq_refl). apply retain_idemp.
      * revert E. rewrite compact_result, Hall by done. crush_if; intros [= <-]. by rewrite Hall.
  - intros E. rewrite (Hdone _ _ E eq_refl). apply retain_length.
Qed.

(** A torn entry is discarded but never removed, so it hides every diff
    appended after it: when its checksum does not match the bytes that follow,
    the log keeps reading as the entries before the tear however many diffs are
    appended, and compaction does not run either.  The module comment promises
    that only the trailing entry is lost. *)
Theorem torn_tail_hides_appends
    (log : t) (f : fs) (ds es : list (BucketDiff B)) (d : BucketDiff B) (k : nat) :
  let torn := take k (encode_entry d) in
  let rest := torn ++ mjoin (encode_entry <$> es) in
  let n := ENTRY_HEADER_SIZE + byte_len (rb_serialize (expired d)) in
  Forall valid_entry ds -> valid_entry d -> (20 <= k < length (encode_entry d))%nat ->
  f !! path log = Some (mjoin (encode_entry <$> ds) ++ torn) ->
  from_le_bytes (slice rest n (n + CRC_SIZE)) <> crc32 (slice rest 0 n) ->
  read_all log (foldl (append log) f es) = ds
  /\ (N.of_nat (length ds) <= compaction_threshold log ->
      compact_if_needed (B := B) log (foldl (append log) f es) = (false, foldl (append log) f es)).
Proof.
  intros torn rest n Hds Hd Hk Hf Hcrc.
  assert (read_all log (foldl (append log) f es) = ds) as Hr.
  { rewrite read_all_default, (append_all_file log es f (mjoin (encode_entry <$> ds) ++ torn))
      by (by rewrite Hf).
    rewrite <- app_assoc. rewrite read_bytes_prefix by done. fold rest.
    apply read_loop_bad_crc. subst rest torn.
    assert (from_le_bytes (slice (take k (encode_entry d) ++ mjoin (encode_entry <$> es)) 16 20)
            = byte_len (rb_serialize (expired d))) as ->; [|done].
    rewrite slice_app_l by (unfold byte_len; rewrite ?length_take; lia).
    rewrite slice_take by lia.
    by destruct (entry_header d (to_le_bytes 4 (crc32 (entry_payload d))) Hd) as (_ & _ & ? & _). }
  split; [done|]. intros Hle. unfold compact_if_needed. rewrite Hr.
  by rewrite (proj2 (N.leb_le _ _) Hle).
Qed.

End properties.

(** ** Witnesses *)

Definition demo_log : BucketDiffLog.t :=
  BucketDiffLog.new "buckets/24h.log" 1 (f64_ratio 1 2).
Definition demo_d1 : BucketDiff Bitset := MkBucketDiff 100 200 (bitset [3; 5]).
Definition demo_d2 : BucketDiff Bitset := MkBucketDiff 200 300 (bitset [8]).

Example demo_tmp_path : BucketDiffLog.tmp_path demo_log = "buckets/24h.log.tmp"%string.
Proof. reflexivity. Qed.

Lemma diff_log_append_roundtrip_witness :
  BucketDiffLog.read_all demo_log (foldl (BucketDiffLog.append demo_log) ∅ [demo_d1; demo_d2])
  = [demo_d1; demo_d2].
Proof.
  destruct (diff_log_append_roundtrip demo_log ∅ [demo_d1; demo_d2]) as [H _]; [| |exact H].
  - reflexivity.
  - repeat constructor; vm_compute; reflexivity.
Defined.

Lemma diff_log_compaction_crash_safe_witness :
  let f := foldl (BucketDiffLog.append demo_log) ∅ [demo_d1; demo_d2] in
  let f' := (BucketDiffLog.compact_if_needed (B := Bitset) demo_log f).2 in
  BucketDiffLog.compact_if_needed (B := Bitset) demo_log f = (true, f')
  /\ BucketDiffLog.read_retained (B := Bitset) demo_log f' = BucketDiffLog.read_retained demo_log f
  /\ (BucketDiffLog.entry_count (B := Bitset) demo_log f' <= 1)%nat.
Proof.
  intros f f'.
  assert (BucketDiffLog.compact_if_needed (B := Bitset) demo_log f = (true, f')) as E.
  { vm_compute. reflexivity. }
  destruct (diff_log_compaction_crash_safe demo_log f f' [demo_d1; demo_d2]) as [H1 H2].
  - done.
  - vm_compute. reflexivity.
  - repeat constructor; vm_compute; reflexivity.
  - apply BucketDiffLog.crash_after.
  - split; [exact E|]. split; [exact H1|]. by apply H2.
Defined.

Lemma torn_tail_hides_appends_witness :
  let torn := take 30 (BucketDiffLog.encode_entry demo_d2) in
  let f : gmap string (list N) :=
    {["buckets/24h.log"%string := BucketDiffLog.encode_entry demo_d1 ++ torn]} in
  BucketDiffLog.read_all demo_log (foldl (BucketDiffLog.append demo_log) f [demo_d2; demo_d1])
  = [demo_d1].
Proof.
  intros torn f.
  destruct (torn_tail_hides_appends demo_log f [demo_d1] [demo_d2; demo_d1] demo_d2 30)
    as [H _]; [| | | | |exact H].
  - repeat constructor; vm_compute; reflexivity.
  - repeat constructor; vm_compute; reflexivity.
  - split; [vm_compute; lia|]. apply Nat.ltb_lt. vm_compute. reflexivity.
  - vm_compute. reflexivity.
  - intros H. vm_compute in H. discriminate H.
Defined.

Lemma pending_diffs_correct_witness :
  PendingBucketDiffs.diffs (foldl PendingBucketDiffs.push (PendingBucketDiffs.new 1) [demo_d1; demo_d2])
  = [demo_d2].
Proof. apply (pending_diffs_correct 1 [demo_d1; demo_d2]). Defined.
