(* ===== verification/TimeBuckets.v ===== *)
(** * Time buckets (src/time_buckets.rs)

    A [TimeBucketManager] keeps, for one timestamp field, a bitmap per named
    window ("24h", "7d", ...) of the slots whose timestamp lies in
    [[now - duration, now]].  Buckets are rebuilt periodically, maintained live
    on inserts and deletes, and reconciled against candidate sets computed on an
    older snapshot; queries snap their range to a bucket. *)

From S2P Require Import Prelude Roaring Versioned Config Sort Float64 Bytes BucketDiffLog.

Module TimeBucket.

Record t (B : Type) : Type := mk {
  name : string;
  duration_secs : N;
  refresh_interval_secs : N;
  bitmap : B;
  last_refreshed : N;
  last_cutoff : N;
}.
Arguments mk {B} _ _ _ _ _ _.
Arguments name {B} _.
Arguments duration_secs {B} _.
Arguments refresh_interval_secs {B} _.
Arguments bitmap {B} _.
Arguments last_refreshed {B} _.
Arguments last_cutoff {B} _.

Section ops.
Context {B : Type} `{!RoaringOps B}.

Definition new (name : string) (duration_secs refresh_interval_secs : N) : t B :=
  mk name duration_secs refresh_interval_secs rb_new 0 0.

Definition needs_refresh (b : t B) (now : N) : bool :=
  refresh_interval_secs b <=? now - last_refreshed b.

Definition len (b : t B) : N := rb_len (bitmap b).

Definition with_bitmap (b : t B) (bm : B) : t B :=
  mk (name b) (duration_secs b) (refresh_interval_secs b) bm (last_refreshed b) (last_cutoff b).

Definition insert_slot (b : t B) (slot : N) : t B := with_bitmap b (rb_insert (bitmap b) slot).

Definition remove_slot (b : t B) (slot : N) : t B := with_bitmap b (rb_remove (bitmap b) slot).

Definition set_last_cutoff (b : t B) (cutoff : N) : t B :=
  mk (name b) (duration_secs b) (refresh_interval_secs b) (bitmap b) (last_refreshed b) cutoff.

(** [wall] is the reading of the system clock ([SystemTime::now]). *)
Definition subtract_expired (b : t B) (expired : B) (new_cutoff wall : N) : t B :=
  let bm := if rb_is_empty expired then bitmap b else rb_sub (bitmap b) expired in
  mk (name b) (duration_secs b) (refresh_interval_secs b) bm wall new_cutoff.

(** Replace the bitmap and restart the refresh timer (the common tail of
    [load_persisted], [rebuild_bucket] and [rebuild_bucket_from_bitmap]). *)
Definition restart (b : t B) (bm : B) (now : N) : t B :=
  let cutoff := now - duration_secs b in
  let snapped := snap_cutoff cutoff (refresh_interval_secs b) in
  mk (name b) (duration_secs b) (refresh_interval_secs b) bm now snapped.

End ops.

End TimeBucket.

(** [now.saturating_sub(duration) <= ts && ts <= now] *)
Definition in_window (duration now ts : N) : bool := (now - duration <=? ts) && (ts <=? now).

Module TimeBucketManager.

Record t (B : Type) : Type := mk {
  field_name : string;
  sort_field_name : string;
  buckets : gmap string (TimeBucket.t B);
  sorted_names : list string;
}.
Arguments mk {B} _ _ _ _.
Arguments field_name {B} _.
Arguments sort_field_name {B} _.
Arguments buckets {B} _.
Arguments sorted_names {B} _.

Section ops.
Context {B : Type} `{!RoaringOps B}.

Definition with_buckets (m : t B) (bs : gmap string (TimeBucket.t B)) : t B :=
  mk (field_name m) (sort_field_name m) bs (sorted_names m).

Definition duration_of (bs : gmap string (TimeBucket.t B)) (name : string) : N :=
  default 0 (TimeBucket.duration_secs <$> bs !! name).

(** A later configuration entry of the same name overwrites the bucket, and its
    name is listed again. *)
Definition new_with_sort_field (field_name sort_field_name : string)
    (bucket_configs : list BucketConfig) : t B :=
  let bs := foldl (fun bs c =>
      <[bc_name c := TimeBucket.new (bc_name c) (bc_duration_secs c) (bc_refresh_interval_secs c)]> bs)
    ∅ bucket_configs in
  let names := bc_name <$> bucket_configs in
  mk field_name sort_field_name bs (stable_sort_by_key (duration_of bs) names).

Definition new (field_name : string) (bucket_configs : list BucketConfig) : t B :=
  new_with_sort_field field_name field_name bucket_configs.

Definition load_persisted (m : t B) (persisted : list (string * B)) (now : N) : t B :=
  with_buckets m (foldl (fun bs '(name, bm) => alter (fun b => TimeBucket.restart b bm now) name bs)
                        (buckets m) persisted).

(** [self.buckets[name]] panics on a missing key: [None]. *)
Definition all_buckets (m : t B) : option (list (string * B)) :=
  mapM (fun name => b ← buckets m !! name; Some (name, TimeBucket.bitmap b)) (sorted_names m).

Definition refresh_due (m : t B) (now : N) : list string :=
  filter (fun name => default false ((fun b => TimeBucket.needs_refresh b now) <$> buckets m !! name) = true)
         (sorted_names m).

Definition rebuild_bucket (m : t B) (bucket_name : string) (values : list (N * N)) (now : N) : t B :=
  with_buckets m (alter (fun b =>
    let bm := foldl (fun bm '(slot, ts) =>
        if in_window (TimeBucket.duration_secs b) now ts then rb_insert bm slot else bm)
      rb_new values in
    TimeBucket.restart b bm now) bucket_name (buckets m)).

Definition get_bucket (m : t B) (name : string) : option (TimeBucket.t B) := buckets m !! name.

(** [get_bucket_mut] followed by an update through the reference. *)
Definition get_bucket_mut (m : t B) (name : string) (f : TimeBucket.t B -> TimeBucket.t B) : t B :=
  with_buckets m (alter f name (buckets m)).

Definition rebuild_bucket_from_bitmap (m : t B) (bucket_name : string) (bm : B) (now : N) : t B :=
  with_buckets m (alter (fun b => TimeBucket.restart b bm now) bucket_name (buckets m)).

Definition abs_delta (a b : N) : N := if b <? a then a - b else b - a.

Definition threshold (bd : N) (tolerance_pct : spec_float) : N :=
  f64_round_as_u64 (f64_mul (f64_of_N bd) tolerance_pct).

(** The scan of [snap_duration]; [None] is the panic of a missing bucket. *)
Fixpoint snap_scan (bs : gmap string (TimeBucket.t B)) (duration : N) (tolerance_pct : spec_float)
    (names : list string) (best_name : option string) (best_delta : N) : option (option string) :=
  match names with
  | [] => Some best_name
  | name :: rest =>
      match bs !! name with
      | None => None
      | Some bucket =>
          let bd := TimeBucket.duration_secs bucket in
          let delta := abs_delta duration bd in
          if (delta <=? threshold bd tolerance_pct) && (delta <? best_delta)
          then snap_scan bs duration tolerance_pct rest (Some name) delta
          else snap_scan bs duration tolerance_pct rest best_name best_delta
      end
  end.

Definition snap_duration (m : t B) (duration : N) (tolerance_pct : spec_float)
  : option (option string) :=
  snap_scan (buckets m) duration tolerance_pct (sorted_names m) None u64_max.

Fixpoint first_covering (bs : gmap string (TimeBucket.t B)) (duration : N) (names : list string)
  : option (option string) :=
  match names with
  | [] => Some None
  | name :: rest =>
      match bs !! name with
      | None => None
      | Some bucket =>
          if duration <=? TimeBucket.duration_secs bucket then Some (Some name)
          else first_covering bs duration rest
      end
  end.

Definition snap_nearest (m : t B) (duration : N) : option string :=
  match first_covering (buckets m) duration (sorted_names m) with
  | None => None
  | Some (Some name) => Some name
  | Some None => Some (default "_none"%string (last (sorted_names m)))
  end.

Definition insert_slot (m : t B) (slot timestamp now : N) : t B :=
  with_buckets m ((fun b =>
    if in_window (TimeBucket.duration_secs b) now timestamp then TimeBucket.insert_slot b slot else b)
    <$> buckets m).

Definition remove_slot (m : t B) (slot : N) : t B :=
  with_buckets m ((fun b => TimeBucket.remove_slot b slot) <$> buckets m).

Definition bucket_names (m : t B) : list string := sorted_names m.

Definition force_refresh_due (m : t B) : t B :=
  with_buckets m ((fun b => TimeBucket.mk (TimeBucket.name b) (TimeBucket.duration_secs b)
    (TimeBucket.refresh_interval_secs b) (TimeBucket.bitmap b) 0 (TimeBucket.last_cutoff b))
    <$> buckets m).

Definition set_refresh_interval (m : t B) (bucket_name : string) (interval_secs : N) : bool * t B :=
  match buckets m !! bucket_name with
  | Some b => (true, with_buckets m (<[bucket_name :=
      TimeBucket.mk (TimeBucket.name b) (TimeBucket.duration_secs b) interval_secs
        (TimeBucket.bitmap b) (TimeBucket.last_refreshed b) (TimeBucket.last_cutoff b)]> (buckets m)))
  | None => (false, m)
  end.

Definition bucket_count (m : t B) : nat := size (buckets m).

End ops.

Section reconcile.
Context {B : Type} `{!RoaringOps B}.

(** The candidates of one bucket that are confirmed against the current state. *)
Definition confirmed_stale (sort_field : SortField.t B) (alive : B) (now_secs cutoff : N)
    (current stale : B) : B :=
  foldl (fun still slot =>
      if negb (rb_contains current slot) then still
      else if negb (rb_contains alive slot) then rb_insert still slot
      else
        let val := SortField.reconstruct_value sort_field slot in
        if (val <? cutoff) || (now_secs <? val) then rb_insert still slot else still)
    rb_new (rb_iter stale).

Definition confirmed_missing (sort_field : SortField.t B) (alive : B) (now_secs cutoff : N)
    (current missing : B) : B :=
  foldl (fun add slot =>
      if negb (rb_contains alive slot) then add
      else
        let val := SortField.reconstruct_value sort_field slot in
        if (cutoff <=? val) && (val <=? now_secs) && negb (rb_contains current slot)
        then rb_insert add slot else add)
    rb_new (rb_iter missing).

(** One round of the loop: [None] when the bucket is unknown or unchanged. *)
Definition reconcile_one (m : t B) (sort_field : SortField.t B) (alive : B) (now_secs wall : N)
    (name : string) (stale missing : B) : option (t B * (string * N * N)) :=
  match get_bucket m name with
  | None => None
  | Some bucket =>
      let cutoff := now_secs - TimeBucket.duration_secs bucket in
      let last_cut := TimeBucket.last_cutoff bucket in
      let current := TimeBucket.bitmap bucket in
      let still := confirmed_stale sort_field alive now_secs cutoff current stale in
      let add := confirmed_missing sort_field alive now_secs cutoff current missing in
      if rb_is_empty still && rb_is_empty add then None
      else
        let m' := get_bucket_mut m name (fun b =>
          let b := if rb_is_empty still then b
                   else TimeBucket.subtract_expired b still last_cut wall in
          foldl TimeBucket.insert_slot b (rb_iter add)) in
        Some (m', (name, rb_len still, rb_len add))
  end.

Definition reconcile_round (sort_field : SortField.t B) (alive : B) (now_secs wall : N)
    (acc : t B * list (string * N * N)) (candidate : string * B * B)
  : t B * list (string * N * N) :=
  let '(m, per_bucket) := acc in
  let '(name, stale, missing) := candidate in
  match reconcile_one m sort_field alive now_secs wall name stale missing with
  | None => (m, per_bucket)
  | Some (m', row) => (m', per_bucket ++ [row])
  end.

Definition reconcile_apply (m : t B) (sort_field : SortField.t B) (alive : B) (now_secs wall : N)
    (candidates : list (string * B * B)) : t B * list (string * N * N) :=
  foldl (reconcile_round sort_field alive now_secs wall) (m, []) candidates.

End reconcile.

(** *** Well-formedness: the name list and the bucket map agree *)

Section wf.
Context {B : Type}.

Record wf (m : t B) : Prop := {
  wf_names : forall name, name ∈ sorted_names m <-> is_Some (buckets m !! name);
  wf_sorted : StronglySorted (fun a b => duration_of (buckets m) a <= duration_of (buckets m) b)
                (sorted_names m);
  wf_key : forall name b, buckets m !! name = Some b -> TimeBucket.name b = name;
}.

(** Updates that keep the shape: same names, same durations. *)
Definition same_shape (bs bs' : gmap string (TimeBucket.t B)) : Prop :=
  forall name,
    (fun b => (TimeBucket.name b, TimeBucket.duration_secs b)) <$> bs !! name
    = (fun b => (TimeBucket.name b, TimeBucket.duration_secs b)) <$> bs' !! name.

Global Instance same_shape_preorder : PreOrder same_shape.
Proof. split; [done|]. intros a b c Hab Hbc n. by rewrite (Hab n). Qed.

Lemma same_shape_alter f name bs :
  (forall b, TimeBucket.name (f b) = TimeBucket.name b
             /\ TimeBucket.duration_secs (f b) = TimeBucket.duration_secs b) ->
  same_shape bs (alter f name bs).
Proof.
  intros Hf n. destruct (decide (n = name)) as [->|Hn].
  - rewrite lookup_alter_eq. destruct (bs !! name) as [b|]; simpl; [|done].
    by destruct (Hf b) as [-> ->].
  - by rewrite lookup_alter_ne.
Qed.

Lemma same_shape_fmap f bs :
  (forall b, TimeBucket.name (f b) = TimeBucket.name b
             /\ TimeBucket.duration_secs (f b) = TimeBucket.duration_secs b) ->
  same_shape bs (f <$> bs).
Proof.
  intros Hf n. rewrite lookup_fmap. destruct (bs !! n) as [b|]; simpl; [|done].
  by destruct (Hf b) as [-> ->].
Qed.

Lemma same_shape_duration bs bs' name : same_shape bs bs' -> duration_of bs name = duration_of bs' name.
Proof.
  intros H. unfold duration_of. specialize (H name).
  destruct (bs !! name), (bs' !! name); simpl in *; congruence.
Qed.

Lemma wf_same_shape m bs : wf m -> same_shape (buckets m) bs -> wf (with_buckets m bs).
Proof.
  intros [H1 H2 H3] Hs. split; simpl.
  - intros name. rewrite H1. specialize (Hs name).
    destruct (buckets m !! name), (bs !! name); simpl in *; split; intros []; done || by eexists.
  - clear H1 H3. induction H2 as [|a l Hl IH Ha]; constructor; [done|].
    eapply Forall_impl; [exact Ha|]. intros b Hb. simpl in Hb.
    by rewrite <- !(same_shape_duration _ _ _ Hs).
  - intros name b Hb. specialize (Hs name). rewrite Hb in Hs. simpl in Hs.
    destruct (buckets m !! name) as [b0|] eqn:E; simplify_eq/=. specialize (H3 _ _ E). congruence.
Qed.

End wf.

(** *** Every operation keeps the manager well-formed *)

Section preservation.
Context {B : Type} `{!RoaringOps B}.

Lemma new_buckets_lookup (cs : list BucketConfig) (bs : gmap string (TimeBucket.t B)) name :
  let bs' := foldl (fun bs c =>
      <[bc_name c := TimeBucket.new (bc_name c) (bc_duration_secs c) (bc_refresh_interval_secs c)]> bs)
    bs cs in
  (is_Some (bs' !! name) <-> name ∈ (bc_name <$> cs) \/ is_Some (bs !! name))
  /\ ((forall n b, bs !! n = Some b -> TimeBucket.name b = n) ->
      forall n b, bs' !! n = Some b -> TimeBucket.name b = n).
Proof.
  revert bs. induction cs as [|c cs IH]; intros bs; simpl.
  { rewrite elem_of_nil. tauto. }
  destruct (IH (<[bc_name c := TimeBucket.new (bc_name c) (bc_duration_secs c)
    (bc_refresh_interval_secs c)]> bs)) as [H1 H2]. split.
  - rewrite H1, elem_of_cons, lookup_insert_is_Some.
    destruct (decide (bc_name c = name)); naive_solver.
  - intros Hk. apply H2. intros n b. rewrite lookup_insert. case_decide; [|apply Hk].
    subst. by intros [= <-].
Qed.

Lemma new_wf field sort_field (cs : list BucketConfig) : wf (new_with_sort_field (B := B) field sort_field cs).
Proof.
  split; simpl.
  - intros name. rewrite stable_sort_perm.
    rewrite (proj1 (new_buckets_lookup cs ∅ name)), lookup_empty, is_Some_alt. tauto.
  - apply stable_sort_sorted.
  - apply (new_buckets_lookup cs ∅ field). intros n b. by rewrite lookup_empty.
Qed.

(** The operations as steps. *)
Inductive op : Type :=
  | OpLoadPersisted (persisted : list (string * B)) (now : N)
  | OpRebuild (bucket : string) (values : list (N * N)) (now : N)
  | OpRebuildFrom (bucket : string) (bm : B) (now : N)
  | OpSubtractExpired (bucket : string) (expired : B) (new_cutoff wall : N)
  | OpInsertSlot (slot timestamp now : N)
  | OpRemoveSlot (slot : N)
  | OpForceRefresh
  | OpSetInterval (bucket : string) (interval : N)
  | OpReconcile (sort_field : SortField.t B) (alive : B) (now wall : N)
      (candidates : list (string * B * B)).

Definition step (m : t B) (o : op) : t B :=
  match o with
  | OpLoadPersisted p now => load_persisted m p now
  | OpRebuild b vs now => rebuild_bucket m b vs now
  | OpRebuildFrom b bm now => rebuild_bucket_from_bitmap m b bm now
  | OpSubtractExpired b e c w =>
      get_bucket_mut m b (fun b => TimeBucket.subtract_expired b e c w)
  | OpInsertSlot s ts now => insert_slot m s ts now
  | OpRemoveSlot s => remove_slot m s
  | OpForceRefresh => force_refresh_due m
  | OpSetInterval b i => (set_refresh_interval m b i).2
  | OpReconcile sf alive now wall cs => (reconcile_apply m sf alive now wall cs).1
  end.

Lemma insert_slots_shape (l : list N) (b : TimeBucket.t B) :
  TimeBucket.name (foldl TimeBucket.insert_slot b l) = TimeBucket.name b
  /\ TimeBucket.duration_secs (foldl TimeBucket.insert_slot b l) = TimeBucket.duration_secs b
  /\ TimeBucket.last_cutoff (foldl TimeBucket.insert_slot b l) = TimeBucket.last_cutoff b.
Proof. revert b. induction l as [|x l IH]; intros b; simpl; [done|]. by destruct (IH (TimeBucket.insert_slot b x)) as (-> & -> & ->). Qed.

Lemma reconcile_one_wf m sf alive now wall name stale missing m' row :
  wf m -> reconcile_one m sf alive now wall name stale missing = Some (m', row) -> wf m'.
Proof.
  intros Hwf. unfold reconcile_one. destruct (get_bucket m name); [|done].
  destruct (_ && _); [done|]. intros [= <- _]. apply wf_same_shape; [done|].
  apply same_shape_alter. intros b.
  match goal with |- context [foldl _ ?b0 ?l] => destruct (insert_slots_shape l b0) as (-> & -> & _) end.
  by destruct (rb_is_empty _).
Qed.

Lemma step_wf m o : wf m -> wf (step m o).
Proof.
  intros Hwf. destruct o; simpl.
  - apply wf_same_shape; [done|]. generalize (buckets m). clear Hwf.
    induction persisted as [|[n bm] l IH]; intros bs; simpl; [done|].
    etrans; [|apply IH]. by apply same_shape_alter.
  - apply wf_same_shape; [done|]. by apply same_shape_alter.
  - apply wf_same_shape; [done|]. by apply same_shape_alter.
  - apply wf_same_shape; [done|]. by apply same_shape_alter.
  - apply wf_same_shape; [done|]. apply same_shape_fmap. intros b. by destruct (in_window _ _ _).
  - apply wf_same_shape; [done|]. by apply same_shape_fmap.
  - apply wf_same_shape; [done|]. by apply same_shape_fmap.
  - unfold set_refresh_interval. destruct (buckets m !! bucket) as [b|] eqn:E; [|done].
    apply wf_same_shape; [done|]. intros n. rewrite lookup_insert.
    case_decide; [|done]. subst. by rewrite E.
  - unfold reconcile_apply. generalize (@nil (string * N * N)).
    revert m Hwf. induction candidates as [|[[n st] mi] l IH]; intros m Hwf rows; simpl; [done|].
    destruct (reconcile_one m sort_field alive now wall n st mi) as [[m' row]|] eqn:E; [|by apply IH].
    apply IH. by eapply reconcile_one_wf.
Qed.

Definition run (m : t B) (ops : list op) : t B := foldl step m ops.

Lemma run_wf m ops : wf m -> wf (run m ops).
Proof. revert m. induction ops as [|o ops IH]; intros m Hm; simpl; [done|]. apply IH, step_wf, Hm. Qed.

Lemma step_names m o : sorted_names (step m o) = sorted_names m.
Proof.
  destruct o; simpl; try done.
  - unfold set_refresh_interval. by destruct (buckets m !! bucket).
  - unfold reconcile_apply. generalize (@nil (string * N * N)).
    revert m. induction candidates as [|[[n st] mi] l IH]; intros m rows; simpl; [done|].
    unfold reconcile_one. destruct (get_bucket m n); [|apply IH].
    destruct (_ && _); [apply IH|]. by rewrite IH.
Qed.

Lemma run_names m ops : sorted_names (run m ops) = sorted_names m.
Proof. revert m. induction ops as [|o ops IH]; intros m; simpl; [done|]. by rewrite IH, step_names. Qed.

End preservation.

(** *** Snapping *)

Section snapping.
Context {B : Type}.
Implicit Types (bs : gmap string (TimeBucket.t B)).

Lemma duration_of_lookup bs name b : bs !! name = Some b -> duration_of bs name = TimeBucket.duration_secs b.
Proof. intros H. unfold duration_of. by rewrite H. Qed.

Lemma first_covering_spec bs d names :
  (forall n, n ∈ names -> is_Some (bs !! n)) ->
  StronglySorted (fun a b => duration_of bs a <= duration_of bs b) names ->
  match first_covering bs d names with
  | None => False
  | Some (Some n) => n ∈ names /\ d <= duration_of bs n
      /\ forall n', n' ∈ names -> d <= duration_of bs n' -> duration_of bs n <= duration_of bs n'
  | Some None => forall n', n' ∈ names -> duration_of bs n' < d
  end.
Proof.
  intros Hp. induction 1 as [|a l Hl IH Ha]; simpl.
  { intros n' Hn. by apply elem_of_nil in Hn. }
  destruct (Hp a) as [b Hb]; [apply elem_of_cons; by left|]. rewrite Hb.
  rewrite <- (duration_of_lookup _ _ _ Hb). rewrite Forall_forall in Ha.
  destruct (N.leb_spec d (duration_of bs a)) as [Hd|Hd].
  - split_and!; [apply elem_of_cons; by left|done|].
    intros n' [->|Hn']%elem_of_cons _; [done|]. by apply Ha.
  - assert (forall n, n ∈ l -> is_Some (bs !! n)) as Hp'.
    { intros n Hn. apply Hp, elem_of_cons. by right. }
    specialize (IH Hp'). destruct (first_covering bs d l) as [[n|]|]; [| |done].
    + destruct IH as (H1 & H2 & H3). split_and!; [apply elem_of_cons; by right|done|].
      intros n' [->|Hn']%elem_of_cons; [lia|]. by apply H3.
    + intros n' [->|Hn']%elem_of_cons; [done|]. by apply IH.
Qed.

Lemma sorted_last_max bs names n n' :
  StronglySorted (fun a b => duration_of bs a <= duration_of bs b) names ->
  last names = Some n -> n' ∈ names -> duration_of bs n' <= duration_of bs n.
Proof.
  induction 1 as [|a l Hl IH Ha]; [done|]. rewrite Forall_forall in Ha. rewrite last_cons.
  destruct (last l) as [z|] eqn:E; intros [= ->] [->|Hin]%elem_of_cons.
  - apply Ha. apply last_Some in E as [l' ->]. apply elem_of_app. right. by apply list_elem_of_singleton.
  - by apply IH.
  - done.
  - apply last_None in E as ->. by apply elem_of_nil in Hin.
Qed.

(** How far a bucket is from a requested duration, and whether it is close enough. *)
Definition delta_of bs (d : N) (n : string) : N := abs_delta d (duration_of bs n).
Definition close_enough bs (d : N) (tol : spec_float) (n : string) : Prop :=
  delta_of bs d n <= threshold (duration_of bs n) tol.

Lemma snap_scan_spec bs d tol names : forall best_name best_delta,
  (forall n, n ∈ names -> is_Some (bs !! n)) ->
  exists r, snap_scan bs d tol names best_name best_delta = Some r
  /\ ((r = best_name /\ forall n, n ∈ names -> close_enough bs d tol n -> best_delta <= delta_of bs d n)
      \/ exists n, r = Some n /\ n ∈ names /\ close_enough bs d tol n /\ delta_of bs d n < best_delta
           /\ forall n', n' ∈ names -> close_enough bs d tol n' -> delta_of bs d n <= delta_of bs d n').
Proof.
  induction names as [|a l IH]; intros bn bd Hp; simpl.
  { exists bn. split; [done|]. left. split; [done|]. intros n Hn. by apply elem_of_nil in Hn. }
  destruct (Hp a) as [b Hb]; [apply elem_of_cons; by left|]. rewrite Hb.
  rewrite <- (duration_of_lookup _ _ _ Hb). fold (delta_of bs d a).
  assert (forall n, n ∈ l -> is_Some (bs !! n)) as Hp'.
  { intros n Hn. apply Hp, elem_of_cons. by right. }
  destruct (_ && _) eqn:E.
  - apply andb_true_iff in E as [E1%N.leb_le E2%N.ltb_lt].
    destruct (IH (Some a) (delta_of bs d a) Hp') as (r & -> & Hr). exists r. split; [done|]. right.
    destruct Hr as [[-> Hmin]|(n & -> & Hn & Hc & Hlt & Hmin)].
    + exists a. split_and!; [done|apply elem_of_cons; by left|done|done|].
      intros n' [->|Hn']%elem_of_cons Hc'; [done|]. by apply Hmin.
    + exists n. split_and!; [done|apply elem_of_cons; by right|done|lia|].
      intros n' [->|Hn']%elem_of_cons Hc'; [lia|]. by apply Hmin.
  - destruct (IH bn bd Hp') as (r & -> & Hr). exists r. split; [done|].
    assert (close_enough bs d tol a -> bd <= delta_of bs d a) as Ha.
    { intros Hc. apply andb_false_iff in E as [E%N.leb_gt|E%N.ltb_ge]; [|done].
      unfold close_enough in Hc. lia. }
    destruct Hr as [[-> Hmin]|(n & -> & Hn & Hc & Hlt & Hmin)]; [left|right].
    + split; [done|]. intros n [->|Hn]%elem_of_cons; [done|]. by apply Hmin.
    + exists n. split_and!; [done|apply elem_of_cons; by right|done|done|].
      intros n' [->|Hn']%elem_of_cons Hc'; [specialize (Ha Hc'); lia|]. by apply Hmin.
Qed.

Lemma snap_nearest_spec (m : t B) d :
  wf m -> exists n, snap_nearest m d = Some n
  /\ (sorted_names m <> [] ->
      n ∈ sorted_names m
      /\ ((d <= duration_of (buckets m) n
           /\ forall n', n' ∈ sorted_names m -> d <= duration_of (buckets m) n' ->
                duration_of (buckets m) n <= duration_of (buckets m) n')
          \/ forall n', n' ∈ sorted_names m ->
               duration_of (buckets m) n' < d /\ duration_of (buckets m) n' <= duration_of (buckets m) n)).
Proof.
  intros [H1 H2 H3]. unfold snap_nearest.
  pose proof (first_covering_spec (buckets m) d (sorted_names m)
    (fun n Hn => proj1 (H1 n) Hn) H2) as Hc.
  destruct (first_covering _ _ _) as [[n|]|]; [| |done].
  - exists n. split; [done|]. intros _. destruct Hc as (? & ? & ?). eauto.
  - eexists. split; [done|]. intros Hne. destruct (last (sorted_names m)) as [z|] eqn:E.
    + simpl. split.
      * apply last_Some in E as [l' ->]. apply elem_of_app. right. by apply list_elem_of_singleton.
      * right. intros n' Hn'. split; [by apply Hc|]. by eapply sorted_last_max.
    + by apply last_None in E.
Qed.

Lemma snap_duration_spec (m : t B) d tol :
  wf m -> exists r, snap_duration m d tol = Some r
  /\ match r with
     | Some n => n ∈ sorted_names m /\ close_enough (buckets m) d tol n
         /\ forall n', n' ∈ sorted_names m -> close_enough (buckets m) d tol n' ->
              delta_of (buckets m) d n <= delta_of (buckets m) d n'
     | None => forall n, n ∈ sorted_names m -> close_enough (buckets m) d tol n ->
         u64_max <= delta_of (buckets m) d n
     end.
Proof.
  intros [H1 H2 H3].
  destruct (snap_scan_spec (buckets m) d tol (sorted_names m) None u64_max
    (fun n Hn => proj1 (H1 n) Hn)) as (r & Hr & Hs).
  exists r. split; [done|]. destruct Hs as [[-> Hmin]|(n & -> & Hn & Hc & _ & Hmin)]; auto.
Qed.

End snapping.

(** *** Reconciliation *)

Section reconcile_facts.
Context {B : Type} `{HB : Roaring B}.
Context (sf : SortField.t B) (alive : B) (now wall : N).

(** A slot that belongs into a bucket of the given duration right now. *)
Definition belongs (duration x : N) : Prop :=
  x ∈ alive /\ in_window duration now (SortField.reconstruct_value sf x) = true.

Global Instance belongs_dec d x : Decision (belongs d x).
Proof. unfold belongs. apply _. Defined.

Lemma not_in_window d v : in_window d now v = negb ((v <? now - d) || (now <? v)).
Proof. unfold in_window. by rewrite negb_orb, !N.leb_antisym. Qed.

Lemma elem_of_confirmed_stale d current stale x :
  x ∈ confirmed_stale sf alive now (now - d) current stale
  <-> x ∈ stale /\ x ∈ current /\ ~ belongs d x.
Proof.
  unfold confirmed_stale.
  set (f y := rb_contains current y && negb (rb_contains alive y &&
    in_window d now (SortField.reconstruct_value sf y))).
  replace (foldl _ rb_new (rb_iter stale)) with
    (foldl (fun acc y => if f y then rb_insert acc y else acc) rb_new (rb_iter stale)).
  - rewrite elem_of_fold_insert_if, <- rb_elem_of_iter. unfold f, belongs.
    rewrite andb_true_iff, negb_true_iff, rb_contains_true, <- not_true_iff_false, andb_true_iff,
      rb_contains_true.
    split; [intros [?%rb_elem_of_new|]|]; tauto.
  - apply foldl_ext. intros acc y. unfold f. rewrite not_in_window.
    by destruct (rb_contains current y), (rb_contains alive y), (_ || _).
Qed.

Lemma elem_of_confirmed_missing d current missing x :
  x ∈ confirmed_missing sf alive now (now - d) current missing
  <-> x ∈ missing /\ x ∉ current /\ belongs d x.
Proof.
  unfold confirmed_missing.
  set (f y := rb_contains alive y && (in_window d now (SortField.reconstruct_value sf y)
    && negb (rb_contains current y))).
  replace (foldl _ rb_new (rb_iter missing)) with
    (foldl (fun acc y => if f y then rb_insert acc y else acc) rb_new (rb_iter missing)).
  - rewrite elem_of_fold_insert_if, <- rb_elem_of_iter. unfold f, belongs.
    rewrite !andb_true_iff, negb_true_iff, rb_contains_true, rb_contains_false.
    split; [intros [?%rb_elem_of_new|]|]; tauto.
  - apply foldl_ext. intros acc y. unfold f, in_window.
    by destruct (rb_contains alive y).
Qed.

Lemma elem_of_insert_slots (l : list N) (b : TimeBucket.t B) x :
  x ∈ TimeBucket.bitmap (foldl TimeBucket.insert_slot b l) <-> x ∈ l \/ x ∈ TimeBucket.bitmap b.
Proof.
  revert b. induction l as [|y l IH]; intros b; simpl; [rewrite elem_of_nil; tauto|].
  rewrite IH, elem_of_cons. simpl. rewrite rb_elem_of_insert. tauto.
Qed.

(** What a reconciliation may do to a bucket: keep its window and cutoff, keep
    every member that belongs, add only members that belong. *)
Definition evolves (b b' : TimeBucket.t B) : Prop :=
  TimeBucket.duration_secs b' = TimeBucket.duration_secs b
  /\ TimeBucket.last_cutoff b' = TimeBucket.last_cutoff b
  /\ (forall x, belongs (TimeBucket.duration_secs b) x ->
        x ∈ TimeBucket.bitmap b -> x ∈ TimeBucket.bitmap b')
  /\ (forall x, x ∈ TimeBucket.bitmap b' ->
        x ∈ TimeBucket.bitmap b \/ belongs (TimeBucket.duration_secs b) x).

Global Instance evolves_preorder : PreOrder evolves.
Proof.
  split.
  - intros b. unfold evolves. tauto.
  - intros a b c (H1 & H2 & H3 & H4) (H5 & H6 & H7 & H8). rewrite H1 in H7, H8.
    unfold evolves. split_and!; [congruence|congruence|auto|].
    intros x Hx. destruct (H8 x Hx) as [Hx'|]; [|by right]. by apply H4.
Qed.

(** The candidates cover every wrong and every absent member of the bucket. *)
Definition covers (b : TimeBucket.t B) (stale missing : B) : Prop :=
  forall x, (x ∈ TimeBucket.bitmap b -> ~ belongs (TimeBucket.duration_secs b) x -> x ∈ stale)
         /\ (x ∉ TimeBucket.bitmap b -> belongs (TimeBucket.duration_secs b) x -> x ∈ missing).

Definition exact (b : TimeBucket.t B) : Prop :=
  forall x, x ∈ TimeBucket.bitmap b <-> belongs (TimeBucket.duration_secs b) x.

Lemma evolves_covers b b' stale missing :
  evolves b b' -> covers b stale missing -> covers b' stale missing.
Proof.
  intros (H1 & H2 & H3 & H4) Hc x. destruct (Hc x) as [Hs Hm]. rewrite H1. split.
  - intros Hx Hn. destruct (H4 x Hx); [|done]. by apply Hs.
  - intros Hx Hb. apply Hm; [|done]. intros Hx'. by apply Hx, H3.
Qed.

Lemma evolves_exact b b' : evolves b b' -> exact b -> exact b'.
Proof.
  intros (H1 & H2 & H3 & H4) He x. rewrite H1. split.
  - intros Hx. destruct (H4 x Hx); [|done]. by apply He.
  - intros Hx. apply H3; [done|]. by apply He.
Qed.

(** The bucket one confirmed round leaves behind. *)
Definition reconciled (b : TimeBucket.t B) (stale missing : B) : TimeBucket.t B :=
  let still := confirmed_stale sf alive now (now - TimeBucket.duration_secs b) (TimeBucket.bitmap b) stale in
  let add := confirmed_missing sf alive now (now - TimeBucket.duration_secs b) (TimeBucket.bitmap b) missing in
  foldl TimeBucket.insert_slot
    (if rb_is_empty still then b
     else TimeBucket.subtract_expired b still (TimeBucket.last_cutoff b) wall) (rb_iter add).

Lemma elem_of_reconciled b stale missing x :
  x ∈ TimeBucket.bitmap (reconciled b stale missing) <->
  (x ∈ TimeBucket.bitmap b /\ ~ (x ∈ stale /\ ~ belongs (TimeBucket.duration_secs b) x))
  \/ (x ∈ missing /\ belongs (TimeBucket.duration_secs b) x).
Proof.
  unfold reconciled. cbv zeta. rewrite elem_of_insert_slots, <- rb_elem_of_iter,
    elem_of_confirmed_missing.
  set (still := confirmed_stale _ _ _ _ _ _).
  assert (forall b1, b1 = (if rb_is_empty still then b
    else TimeBucket.subtract_expired b still (TimeBucket.last_cutoff b) wall) ->
    (x ∈ TimeBucket.bitmap b1 <-> x ∈ TimeBucket.bitmap b /\ x ∉ still)) as H.
  { intros b1 ->. destruct (rb_is_empty still) eqn:E; simpl.
    - rewrite rb_is_empty_spec in E. specialize (E x). tauto.
    - rewrite E. apply rb_elem_of_sub. }
  rewrite (H _ eq_refl). unfold still. rewrite elem_of_confirmed_stale.
  destruct (decide (x ∈ TimeBucket.bitmap b)); tauto.
Qed.

Lemma reconciled_evolves b stale missing : evolves b (reconciled b stale missing).
Proof.
  unfold evolves. split_and!.
  - unfold reconciled. cbv zeta. rewrite (proj1 (proj2 (insert_slots_shape _ _))).
    by destruct (rb_is_empty _).
  - unfold reconciled. cbv zeta. rewrite (proj2 (proj2 (insert_slots_shape _ _))).
    by destruct (rb_is_empty _).
  - intros x Hb Hx. rewrite elem_of_reconciled. tauto.
  - intros x. rewrite elem_of_reconciled. tauto.
Qed.

Lemma reconciled_exact b stale missing :
  covers b stale missing -> exact (reconciled b stale missing).
Proof.
  intros Hc x. rewrite elem_of_reconciled. destruct (Hc x) as [Hs Hm].
  rewrite (proj1 (reconciled_evolves b stale missing)).
  destruct (decide (x ∈ TimeBucket.bitmap b)), (decide (belongs (TimeBucket.duration_secs b) x)); tauto.
Qed.

Lemma reconciled_len b stale missing :
  let still := confirmed_stale sf alive now (now - TimeBucket.duration_secs b) (TimeBucket.bitmap b) stale in
  let add := confirmed_missing sf alive now (now - TimeBucket.duration_secs b) (TimeBucket.bitmap b) missing in
  TimeBucket.len (reconciled b stale missing) + rb_len still = TimeBucket.len b + rb_len add.
Proof.
  intros still add. unfold TimeBucket.len.
  rewrite (rb_len_disjoint (rb_sub (TimeBucket.bitmap b) still) add
    (TimeBucket.bitmap (reconciled b stale missing))).
  - rewrite (rb_len_disjoint (rb_sub (TimeBucket.bitmap b) still) still (TimeBucket.bitmap b)); [lia| |].
    + intros x. rewrite rb_elem_of_sub. subst still. rewrite elem_of_confirmed_stale.
      destruct (decide (x ∈ stale)), (decide (belongs (TimeBucket.duration_secs b) x)); tauto.
    + intros x. rewrite rb_elem_of_sub. tauto.
  - intros x. rewrite elem_of_reconciled, rb_elem_of_sub. subst still add.
    rewrite elem_of_confirmed_stale, elem_of_confirmed_missing.
    destruct (decide (x ∈ TimeBucket.bitmap b)), (decide (belongs (TimeBucket.duration_secs b) x)); tauto.
  - intros x. subst add. rewrite rb_elem_of_sub, elem_of_confirmed_missing. tauto.
Qed.

(** The rows reported for one bucket, summed. *)
Fixpoint totals (name : string) (rows : list (string * N * N)) : N * N :=
  match rows with
  | [] => (0, 0)
  | (n, pruned, backfilled) :: rest =>
      let '(p, a) := totals name rest in
      if bool_decide (n = name) then (pruned + p, backfilled + a) else (p, a)
  end.

Lemma totals_app name rows rows' :
  totals name (rows ++ rows')
  = ((totals name rows).1 + (totals name rows').1, (totals name rows).2 + (totals name rows').2).
Proof.
  induction rows as [|[[n p] a] rows IH]; simpl.
  - by destruct (totals name rows').
  - rewrite IH. destruct (totals name rows), (totals name rows'). simpl.
    case_bool_decide; simpl; f_equal; lia.
Qed.

Lemma reconciled_noop b stale missing :
  rb_is_empty (confirmed_stale sf alive now (now - TimeBucket.duration_secs b) (TimeBucket.bitmap b) stale) = true ->
  rb_is_empty (confirmed_missing sf alive now (now - TimeBucket.duration_secs b) (TimeBucket.bitmap b) missing) = true ->
  reconciled b stale missing = b.
Proof. intros H1 H2. unfold reconciled. rewrite H1. apply rb_is_empty_true in H2. by rewrite H2. Qed.

Lemma rb_len_empty (b : B) : rb_is_empty b = true -> rb_len b = 0.
Proof. intros H. by apply rb_len_zero, rb_is_empty_spec. Qed.

(** One round updates exactly the named bucket, and reports what it changed. *)
Lemma reconcile_round_spec m rows cn st mi name b :
  buckets m !! name = Some b ->
  let '(m', rows') := reconcile_round sf alive now wall (m, rows) (cn, st, mi) in
  let b' := if bool_decide (cn = name) then reconciled b st mi else b in
  buckets m' !! name = Some b'
  /\ TimeBucket.len b' + ((totals name rows').1 - (totals name rows).1)
     = TimeBucket.len b + ((totals name rows').2 - (totals name rows).2)
  /\ (totals name rows).1 <= (totals name rows').1 /\ (totals name rows).2 <= (totals name rows').2.
Proof.
  intros Hb. simpl. unfold reconcile_one, get_bucket. case_bool_decide as Hn.
  - subst cn. rewrite Hb. pose proof (reconciled_len b st mi) as Hlen. simpl in Hlen.
    destruct (_ && _) eqn:E.
    + apply andb_true_iff in E as [E1 E2]. rewrite reconciled_noop by done.
      split_and!; [done|lia|lia|lia].
    + rewrite totals_app. simpl. rewrite bool_decide_true by done. simpl.
      rewrite lookup_alter_eq, Hb. split_and!; [done|lia|lia|lia].
  - destruct (buckets m !! cn) as [b0|]; [|split_and!; [done|lia|lia|lia]].
    destruct (_ && _); [split_and!; [done|lia|lia|lia]|].
    rewrite totals_app. simpl. rewrite bool_decide_false by done. simpl.
    rewrite lookup_alter_ne by done. split_and!; [done|lia|lia|lia].
Qed.

Lemma reconcile_loop_spec candidates : forall m rows name b,
  buckets m !! name = Some b ->
  let '(m', rows') := foldl (reconcile_round sf alive now wall) (m, rows) candidates in
  exists b', buckets m' !! name = Some b' /\ evolves b b'
  /\ (forall stale missing, (name, stale, missing) ∈ candidates -> covers b stale missing -> exact b')
  /\ TimeBucket.len b' + ((totals name rows').1 - (totals name rows).1)
     = TimeBucket.len b + ((totals name rows').2 - (totals name rows).2)
  /\ (totals name rows).1 <= (totals name rows').1 /\ (totals name rows).2 <= (totals name rows').2.
Proof.
  induction candidates as [|[[cn st] mi] l IH]; intros m rows name b Hb; cbn [foldl].
  { exists b. split_and!; try done; [|lia..]. intros ?? H. by apply elem_of_nil in H. }
  pose proof (reconcile_round_spec m rows cn st mi name b Hb) as Hr.
  destruct (reconcile_round _ _ _ _ _ _) as [m1 rows1]. destruct Hr as (Hb1 & Hl1 & Hp1 & Ha1).
  specialize (IH m1 rows1 name _ Hb1). destruct (foldl _ _ _) as [m2 rows2].
  destruct IH as (b2 & Hb2 & He2 & Hx2 & Hl2 & Hp2 & Ha2).
  assert (evolves b (if bool_decide (cn = name) then reconciled b st mi else b)) as He1.
  { case_bool_decide; [apply reconciled_evolves|done]. }
  exists b2. split_and!; [done|by etrans| |lia|lia|lia].
  intros stale missing [Heq|Hin]%elem_of_cons Hc.
  - simplify_eq. rewrite bool_decide_true in He2 by done.
    eapply evolves_exact; [exact He2|]. by apply reconciled_exact.
  - eapply Hx2; [exact Hin|]. by eapply evolves_covers.
Qed.

End reconcile_facts.

Section rebuild_facts.
Context {B : Type} `{HB : Roaring B}.

Lemma elem_of_rebuild d now (values : list (N * N)) (b : B) x :
  x ∈ foldl (fun bm '(slot, ts) => if in_window d now ts then rb_insert bm slot else bm) b values
  <-> x ∈ b \/ exists ts, (x, ts) ∈ values /\ in_window d now ts = true.
Proof.
  revert b. induction values as [|[s ts] l IH]; intros b; simpl.
  { split; [tauto|]. intros [?|(ts & H & _)]; [done|]. by apply elem_of_nil in H. }
  rewrite IH. setoid_rewrite elem_of_cons.
  destruct (in_window d now ts) eqn:E; [rewrite rb_elem_of_insert|]; naive_solver congruence.
Qed.

End rebuild_facts.

End TimeBucketManager.

(** ** Properties *)

Section properties.
Context {B : Type} `{HB : Roaring B}.
Import TimeBucketManager.

(** Snapping never panics, whatever happened to the manager since it was
    configured.  [snap_nearest] returns the shortest bucket that covers the
    requested duration, or the longest bucket when none does; [snap_duration]
    returns a bucket within tolerance that is nearest to the requested duration
    among all buckets within tolerance, and nothing only when there is none. *)
Theorem snapping_correct (field sort_field : string) (cs : list BucketConfig) (ops : list (op (B := B)))
    (d : N) (tol : spec_float) :
  let m := run (new_with_sort_field field sort_field cs) ops in
  (exists n, snap_nearest m d = Some n
   /\ (cs <> [] ->
       n ∈ bucket_names m
       /\ ((d <= duration_of (buckets m) n
            /\ forall n', n' ∈ bucket_names m -> d <= duration_of (buckets m) n' ->
                 duration_of (buckets m) n <= duration_of (buckets m) n')
           \/ forall n', n' ∈ bucket_names m ->
                duration_of (buckets m) n' < d /\ duration_of (buckets m) n' <= duration_of (buckets m) n)))
  /\ (exists r, snap_duration m d tol = Some r
   /\ match r with
      | Some n => n ∈ bucket_names m /\ close_enough (buckets m) d tol n
          /\ forall n', n' ∈ bucket_names m -> close_enough (buckets m) d tol n' ->
               delta_of (buckets m) d n <= delta_of (buckets m) d n'
      | None => forall n, n ∈ bucket_names m -> close_enough (buckets m) d tol n ->
          u64_max <= delta_of (buckets m) d n
      end).
Proof.
  intros m. assert (wf m) as Hwf by (apply run_wf, new_wf).
  assert (cs <> [] -> sorted_names m <> []) as Hne.
  { destruct cs as [|c cs']; [done|]. intros _ Hnil.
    assert (bc_name c ∈ sorted_names (new_with_sort_field (B := B) field sort_field (c :: cs'))) as Hin.
    { simpl. rewrite stable_insert_perm. apply elem_of_cons. by left. }
    assert (sorted_names m = sorted_names (new_with_sort_field (B := B) field sort_field (c :: cs'))) as Hs.
    { apply run_names. }
    rewrite <- Hs, Hnil in Hin. by apply elem_of_nil in Hin. }
  split; [|by apply snap_duration_spec].
  destruct (snap_nearest_spec m d Hwf) as (n & Hn & Hs). exists n. auto.
Qed.

(** Reconciling against candidates computed on an older snapshot is safe and
    complete: whatever the candidate sets, no member that belongs (alive and in
    the window now) is pruned, nothing that does not belong is added, and the
    cutoff is not advanced; when the candidates of a bucket cover its wrong and
    its absent members the bucket ends up exactly right; and the reported counts
    add up to the change of its size. *)
Theorem reconcile_apply_correct (m : t B) (sf : SortField.t B) (alive : B) (now wall : N)
    (candidates : list (string * B * B)) (name : string) (b : TimeBucket.t B) :
  get_bucket m name = Some b ->
  let '(m', rows) := reconcile_apply m sf alive now wall candidates in
  exists b', get_bucket m' name = Some b'
  /\ TimeBucket.last_cutoff b' = TimeBucket.last_cutoff b
  /\ (forall x, x ∈ TimeBucket.bitmap b -> belongs sf alive now (TimeBucket.duration_secs b) x ->
        x ∈ TimeBucket.bitmap b')
  /\ (forall x, x ∈ TimeBucket.bitmap b' -> x ∉ TimeBucket.bitmap b ->
        belongs sf alive now (TimeBucket.duration_secs b) x)
  /\ (forall stale missing, (name, stale, missing) ∈ candidates ->
        covers sf alive now b stale missing ->
        forall x, x ∈ TimeBucket.bitmap b' <-> belongs sf alive now (TimeBucket.duration_secs b) x)
  /\ TimeBucket.len b' + (totals name rows).1 = TimeBucket.len b + (totals name rows).2.
Proof.
  intros Hb. unfold reconcile_apply.
  pose proof (reconcile_loop_spec sf alive now wall candidates m [] name b Hb) as H.
  destruct (foldl _ _ _) as [m' rows].
  destruct H as (b' & Hb' & (Hd & Hc & Hk & Ha) & Hx & Hl & _). simpl in Hl. rewrite !N.sub_0_r in Hl.
  exists b'. split_and!; [done|done|auto| |by intros st mi Hin Hcov x; rewrite (Hx st mi Hin Hcov x), Hd|done].
  intros x Hx' Hn. by destruct (Ha x Hx').
Qed.

(** Live maintenance events at one point in time. *)
Inductive live_event : Type :=
  | LiveInsert (slot timestamp : N)
  | LiveRemove (slot : N).

Definition live_step (now : N) (m : t B) (e : live_event) : t B :=
  match e with
  | LiveInsert slot ts => insert_slot m slot ts now
  | LiveRemove slot => remove_slot m slot
  end.

Definition live_spec (values : list (N * N)) (e : live_event) : list (N * N) :=
  match e with
  | LiveInsert slot ts => (slot, ts) :: values
  | LiveRemove slot => filter (fun p => p.1 <> slot) values
  end.

(** The bucket is exactly the window over the recorded values. *)
Definition window_of (now : N) (values : list (N * N)) (b : TimeBucket.t B) : Prop :=
  forall x, x ∈ TimeBucket.bitmap b <->
    exists ts, (x, ts) ∈ values /\ in_window (TimeBucket.duration_secs b) now ts = true.

Lemma live_step_window now values m e name b :
  buckets m !! name = Some b -> window_of now values b ->
  exists b', buckets (live_step now m e) !! name = Some b' /\ window_of now (live_spec values e) b'.
Proof.
  intros Hb Hw. destruct e as [s ts|s]; simpl; rewrite lookup_fmap, Hb; simpl; eexists; (split; [done|]).
  - intros x. setoid_rewrite elem_of_cons.
    destruct (in_window (TimeBucket.duration_secs b) now ts) eqn:E; simpl.
    + rewrite rb_elem_of_insert, (Hw x). naive_solver.
    + rewrite (Hw x). naive_solver congruence.
  - intros x. simpl. rewrite rb_elem_of_remove, (Hw x).
    setoid_rewrite list_elem_of_filter. simpl. naive_solver.
Qed.

(** A rebuilt bucket followed by any live inserts and deletes holds exactly
    the slots whose recorded timestamp lies in the window. *)
Theorem rebuild_and_maintain_exact (m : t B) (name : string) (values : list (N * N)) (now : N)
    (events : list live_event) :
  is_Some (get_bucket m name) ->
  exists b, get_bucket (foldl (live_step now) (rebuild_bucket m name values now) events) name = Some b
  /\ window_of now (foldl live_spec values events) b.
Proof.
  intros [b0 Hb0]. unfold get_bucket in *.
  assert (exists b, buckets (rebuild_bucket m name values now) !! name = Some b
    /\ window_of now values b) as (b & Hb & Hw).
  { simpl. rewrite lookup_alter_eq, Hb0. simpl. eexists. split; [done|]. intros x. simpl.
    rewrite elem_of_rebuild. split; [intros [?%rb_elem_of_new|]|]; tauto. }
  clear Hb0. generalize dependent (rebuild_bucket m name values now). clear m b0.
  revert values b Hw. induction events as [|e events IH]; intros values b Hw m Hb; simpl.
  { by exists b. }
  destruct (live_step_window now values m e name b Hb Hw) as (b' & Hb' & Hw').
  by eapply IH.
Qed.

End properties.

(** ** Witnesses *)

Definition demo_buckets : TimeBucketManager.t Bitset :=
  TimeBucketManager.new "sortAt"
    [MkBucketConfig "7d" 604800 3600; MkBucketConfig "24h" 86400 300].

Example demo_buckets_sorted : TimeBucketManager.bucket_names demo_buckets = ["24h"; "7d"]%string.
Proof. vm_compute. reflexivity. Qed.

Definition demo_sort_field : SortField.t Bitset :=
  SortField.insert (SortField.insert (SortField.new (sort_config "sortAt" 32)) 1 1000000) 2 900000.

Lemma reconcile_apply_correct_witness :
  let m := TimeBucketManager.rebuild_bucket demo_buckets "24h" [(2, 1000000)] 1000000 in
  let '(m', rows) := TimeBucketManager.reconcile_apply m demo_sort_field (bitset [1; 2]) 1000000 0
                       [("24h"%string, bitset [2], bitset [1])] in
  rows = [("24h"%string, 1, 1)]
  /\ exists b', TimeBucketManager.get_bucket m' "24h" = Some b' /\ rb_iter (TimeBucket.bitmap b') = [1].
Proof.
  set (m := TimeBucketManager.rebuild_bucket demo_buckets "24h" [(2, 1000000)] 1000000).
  destruct (TimeBucketManager.get_bucket m "24h") as [b|] eqn:E; [|vm_compute in E; discriminate E].
  pose proof (reconcile_apply_correct m demo_sort_field (bitset [1; 2]) 1000000 0
                [("24h"%string, bitset [2], bitset [1])] "24h" b E) as H.
  cbv zeta. destruct (TimeBucketManager.reconcile_apply _ _ _ _ _ _) as [m' rows] eqn:Er.
  destruct H as (b' & Hb' & _). split; [vm_compute in Er; by injection Er as _ <-|].
  exists b'. split; [done|]. vm_compute in Er. injection Er as <- _.
  vm_compute in Hb'. injection Hb' as <-. vm_compute. reflexivity.
Defined.

Lemma rebuild_and_maintain_exact_witness :
  exists b, TimeBucketManager.get_bucket
    (foldl (live_step 1000000) (TimeBucketManager.rebuild_bucket demo_buckets "24h" [(1, 950000); (2, 10)] 1000000)
       [LiveInsert 3 1000000; LiveRemove 1]) "24h" = Some b
  /\ window_of 1000000 [(3, 1000000); (2, 10)] b.
Proof.
  apply (rebuild_and_maintain_exact demo_buckets "24h" [(1, 950000); (2, 10)] 1000000
    [LiveInsert 3 1000000; LiveRemove 1]). vm_compute. by eexists.
Defined.
