(* ===== verification/Query.v ===== *)
(** * Queries (src/query.rs, src/types.rs)

    The query language: values, filter clauses, sort clauses and cursors, the
    conversions of values into bitmap keys, their display forms, and the
    pre-processing step that replaces range filters on a bucketed timestamp by
    the pre-computed bitmap of a time bucket. *)

From S2P Require Import Prelude Roaring Versioned Config Sort Float64 Bytes BucketDiffLog.
From S2P Require Import TimeBuckets.
Local Open Scope string_scope.

(** ** Data *)

Inductive Value : Type :=
  | Integer (v : Z)
  | Float (v : spec_float)
  | Bool (b : bool)
  | Str (s : string).

Inductive FilterClause (B : Type) : Type :=
  | Eq (field : string) (value : Value)
  | NotEq (field : string) (value : Value)
  | In (field : string) (values : list Value)
  | NotIn (field : string) (values : list Value)
  | Gt (field : string) (value : Value)
  | Lt (field : string) (value : Value)
  | Gte (field : string) (value : Value)
  | Lte (field : string) (value : Value)
  | Not (inner : FilterClause B)
  | And (clauses : list (FilterClause B))
  | Or (clauses : list (FilterClause B))
  | IsNull (field : string)
  | IsNotNull (field : string)
  | BucketBitmap (field bucket_name : string) (bitmap : B).
Arguments Eq {B} _ _.
Arguments NotEq {B} _ _.
Arguments In {B} _ _.
Arguments NotIn {B} _ _.
Arguments Gt {B} _ _.
Arguments Lt {B} _ _.
Arguments Gte {B} _ _.
Arguments Lte {B} _ _.
Arguments Not {B} _.
Arguments And {B} _.
Arguments Or {B} _.
Arguments IsNull {B} _.
Arguments IsNotNull {B} _.
Arguments BucketBitmap {B} _ _ _.

(** Induction through the clause lists. *)
Section clause_ind.
Context {B : Type} (P : FilterClause B -> Prop).
Hypothesis HEq : forall f v, P (Eq f v).
Hypothesis HNotEq : forall f v, P (NotEq f v).
Hypothesis HIn : forall f vs, P (In f vs).
Hypothesis HNotIn : forall f vs, P (NotIn f vs).
Hypothesis HGt : forall f v, P (Gt f v).
Hypothesis HLt : forall f v, P (Lt f v).
Hypothesis HGte : forall f v, P (Gte f v).
Hypothesis HLte : forall f v, P (Lte f v).
Hypothesis HNot : forall c, P c -> P (Not c).
Hypothesis HAnd : forall cs, Forall P cs -> P (And cs).
Hypothesis HOr : forall cs, Forall P cs -> P (Or cs).
Hypothesis HIsNull : forall f, P (IsNull f).
Hypothesis HIsNotNull : forall f, P (IsNotNull f).
Hypothesis HBucket : forall f n b, P (BucketBitmap f n b).

Fixpoint FilterClause_nested_ind (c : FilterClause B) : P c :=
  let list_ind := fix go (cs : list (FilterClause B)) : Forall P cs :=
    match cs with
    | [] => List.Forall_nil P
    | c :: cs' => @List.Forall_cons _ P c cs' (FilterClause_nested_ind c) (go cs')
    end in
  match c with
  | Eq f v => HEq f v
  | NotEq f v => HNotEq f v
  | In f vs => HIn f vs
  | NotIn f vs => HNotIn f vs
  | Gt f v => HGt f v
  | Lt f v => HLt f v
  | Gte f v => HGte f v
  | Lte f v => HLte f v
  | Not c => HNot c (FilterClause_nested_ind c)
  | And cs => HAnd cs (list_ind cs)
  | Or cs => HOr cs (list_ind cs)
  | IsNull f => HIsNull f
  | IsNotNull f => HIsNotNull f
  | BucketBitmap f n b => HBucket f n b
  end.
End clause_ind.

Inductive SortDirection : Type := Asc | Desc.

Global Instance SortDirection_eq_dec : EqDecision SortDirection.
Proof. solve_decision. Defined.

Record SortClause : Type := MkSortClause { sc_field : string; sc_direction : SortDirection }.

Record CursorPosition : Type := MkCursorPosition { cp_sort_value : N; cp_slot_id : N }.

Record BitdexQuery (B : Type) : Type := MkBitdexQuery {
  q_filters : list (FilterClause B);
  q_sort : option SortClause;
  q_limit : N;
  q_cursor : option CursorPosition;
  q_offset : option N;
  q_skip_cache : bool;
}.
Arguments MkBitdexQuery {B} _ _ _ _ _ _.
Arguments q_filters {B} _.
Arguments q_sort {B} _.
Arguments q_limit {B} _.
Arguments q_cursor {B} _.
Arguments q_offset {B} _.
Arguments q_skip_cache {B} _.

Record QueryResult : Type := MkQueryResult {
  qr_ids : list N;
  qr_cursor : option CursorPosition;
  qr_total_matched : N;
}.

(** ** Value conversions (types.rs) *)

Definition as_bitmap_key (v : Value) : option N :=
  match v with
  | Bool b => Some (if b then 1 else 0)
  | Integer v => Some (i64_as_u64 v)
  | Float _ | Str _ => None
  end.

Definition as_sort_u32 (v : Value) : option N :=
  match v with
  | Integer v => Some (i64_as_u32 v)
  | _ => None
  end.

(** ** Display

    The decimal form Rust prints for an [f64] is the parameter [fmt_f64]. *)

Section display.
Context (fmt_f64 : spec_float -> string).

Definition value_to_string (v : Value) : string :=
  match v with
  | Integer v => pretty v
  | Float v => fmt_f64 v
  | Bool b => if b then "true" else "false"
  | Str s => s
  end.

(** [parts.join(sep)] *)
Fixpoint join (sep : string) (parts : list string) : string :=
  match parts with
  | [] => ""
  | [p] => p
  | p :: rest => p ++ sep ++ join sep rest
  end.

Fixpoint clause_to_string {B : Type} (c : FilterClause B) : string :=
  match c with
  | Eq field val => field ++ " = " ++ value_to_string val
  | NotEq field val => field ++ " != " ++ value_to_string val
  | In field vals => field ++ " IN [" ++ join ", " (value_to_string <$> vals) ++ "]"
  | NotIn field vals => field ++ " NOT IN [" ++ join ", " (value_to_string <$> vals) ++ "]"
  | Gt field val => field ++ " > " ++ value_to_string val
  | Lt field val => field ++ " < " ++ value_to_string val
  | Gte field val => field ++ " >= " ++ value_to_string val
  | Lte field val => field ++ " <= " ++ value_to_string val
  | Not inner => "NOT(" ++ clause_to_string inner ++ ")"
  | And clauses => "(" ++ join " AND " (map clause_to_string clauses) ++ ")"
  | Or clauses => "(" ++ join " OR " (map clause_to_string clauses) ++ ")"
  | BucketBitmap field bucket_name _ => field ++ " ~bucket(" ++ bucket_name ++ ")"
  | IsNull field => field ++ " IS NULL"
  | IsNotNull field => field ++ " IS NOT NULL"
  end.

Definition query_to_string {B : Type} (q : BitdexQuery B) : string :=
  (match q_filters q with
   | [] => "WHERE *"
   | fs => "WHERE " ++ join " AND " (clause_to_string <$> fs)
   end)
  ++ (match q_sort q with
      | Some s => " ORDER BY " ++ sc_field s ++ " "
                  ++ (match sc_direction s with Asc => "Asc" | Desc => "Desc" end)
      | None => ""
      end)
  ++ " LIMIT " ++ pretty (q_limit q)
  ++ (match q_offset q with Some o => " OFFSET " ++ pretty o | None => "" end)
  ++ (match q_cursor q with
      | Some c => " CURSOR(val=" ++ pretty (cp_sort_value c) ++ ", slot=" ++ pretty (cp_slot_id c) ++ ")"
      | None => ""
      end).

End display.

Example query_display :
  query_to_string (B := Bitset) (fun _ => "f")
    (MkBitdexQuery [Eq "nsfwLevel" (Integer (-1)); Or [IsNull "x"; In "t" [Integer 1; Bool true]]]
       (Some (MkSortClause "id" Desc)) 50 (Some (MkCursorPosition 7 9)) None false)
  = "WHERE nsfwLevel = -1 AND (x IS NULL OR t IN [1, true]) ORDER BY id Desc LIMIT 50 CURSOR(val=7, slot=9)".
Proof. vm_compute. reflexivity. Qed.

(** ** Bucket snapping *)

(** Timestamps above 1e11 are milliseconds.  Rust's [i64] division truncates
    towards zero; the dividend is positive here. *)
Definition ts_to_secs (ts : Z) : Z := if (100000000000 <? ts)%Z then (ts / 1000)%Z else ts.

Definition ts_secs_u64 (ts : N) : N := (if 100000000000 <? ts then ts / 1000 else ts)%N.

Record BucketSnapContext (B : Type) : Type := MkBucketSnapContext {
  managers : gmap string (TimeBucketManager.t B);
  now_secs : N;
  tolerance_pct : spec_float;
  always_snap : bool;
}.
Arguments MkBucketSnapContext {B} _ _ _ _.
Arguments managers {B} _.
Arguments now_secs {B} _.
Arguments tolerance_pct {B} _.
Arguments always_snap {B} _.

Section snap.
Context {B : Type} `{!RoaringOps B}.
Context (ctx : BucketSnapContext B).

(** The window a threshold timestamp asks for. *)
Definition requested_duration (ts : Z) : N := (now_secs ctx - i64_as_u64 (ts_to_secs ts))%N.

(** The outer [option] is the panic of a missing bucket. *)
Definition try_snap_to_bucket (field : string) (ts : Z) : option (option (FilterClause B)) :=
  match managers ctx !! field with
  | None => Some None
  | Some manager =>
      match TimeBucketManager.snap_duration manager (requested_duration ts) (tolerance_pct ctx) with
      | None => None
      | Some None => Some None
      | Some (Some bucket_name) =>
          match TimeBucketManager.get_bucket manager bucket_name with
          | None => Some None
          | Some bucket => Some (Some (BucketBitmap field bucket_name (TimeBucket.bitmap bucket)))
          end
      end
  end.

(** The branch of [snap_clause] for [Gt] and [Gte] on an integer. *)
Definition snap_range (clause : FilterClause B) (field : string) (ts : Z) : option (FilterClause B) :=
  match try_snap_to_bucket field ts with
  | None => None
  | Some (Some snapped) => Some snapped
  | Some None =>
      match managers ctx !! field with
      | None => Some clause
      | Some manager =>
          if always_snap ctx then
            match TimeBucketManager.snap_nearest manager (requested_duration ts) with
            | None => None
            | Some bucket_name =>
                match TimeBucketManager.get_bucket manager bucket_name with
                | Some bucket => Some (BucketBitmap field bucket_name (TimeBucket.bitmap bucket))
                | None => Some (BucketBitmap field "_none" rb_new)
                end
            end
          else Some (BucketBitmap field "_none" rb_new)
      end
  end.

Fixpoint snap_clause (clause : FilterClause B) : option (FilterClause B) :=
  let snap_all := fix go (cs : list (FilterClause B)) : option (list (FilterClause B)) :=
    match cs with
    | [] => Some []
    | c :: cs' =>
        match snap_clause c with
        | None => None
        | Some c' => match go cs' with Some l => Some (c' :: l) | None => None end
        end
    end in
  match clause with
  | Gt field (Integer ts) | Gte field (Integer ts) => snap_range clause field ts
  | And inner => And <$> snap_all inner
  | Or inner => Or <$> snap_all inner
  | other => Some other
  end.

Definition snap_range_clauses (clauses : list (FilterClause B)) : option (list (FilterClause B)) :=
  mapM snap_clause clauses.

End snap.

Local Close Scope string_scope.

Section facts.
Context {B : Type} `{!RoaringOps B}.
Context (ctx : BucketSnapContext B).
Implicit Types (c : FilterClause B) (field : string).

Definition managers_wf : Prop :=
  forall field m, managers ctx !! field = Some m -> TimeBucketManager.wf m.

(** A clause the pre-processing must leave alone: no lower bound on a bucketed
    field, except under a negation. *)
Fixpoint unsnapped (clause : FilterClause B) : bool :=
  match clause with
  | Gt field (Integer _) | Gte field (Integer _) => bool_decide (managers ctx !! field = None)
  | And inner | Or inner => forallb unsnapped inner
  | _ => true
  end.

Lemma snap_range_None clause field ts :
  managers ctx !! field = None -> snap_range ctx clause field ts = Some clause.
Proof. intros H. unfold snap_range, try_snap_to_bucket. by rewrite H. Qed.

(** The buckets that a range filter can be replaced by. *)
Definition snap_choice (m : TimeBucketManager.t B) (d : N) (name : string) : Prop :=
  (TimeBucketManager.close_enough (TimeBucketManager.buckets m) d (tolerance_pct ctx) name
   /\ forall n', n' ∈ TimeBucketManager.bucket_names m ->
        TimeBucketManager.close_enough (TimeBucketManager.buckets m) d (tolerance_pct ctx) n' ->
        TimeBucketManager.delta_of (TimeBucketManager.buckets m) d name
        <= TimeBucketManager.delta_of (TimeBucketManager.buckets m) d n')
  \/ (d <= TimeBucketManager.duration_of (TimeBucketManager.buckets m) name
      /\ forall n', n' ∈ TimeBucketManager.bucket_names m ->
           d <= TimeBucketManager.duration_of (TimeBucketManager.buckets m) n' ->
           TimeBucketManager.duration_of (TimeBucketManager.buckets m) name
           <= TimeBucketManager.duration_of (TimeBucketManager.buckets m) n')
  \/ (forall n', n' ∈ TimeBucketManager.bucket_names m ->
        TimeBucketManager.duration_of (TimeBucketManager.buckets m) n' < d
        /\ TimeBucketManager.duration_of (TimeBucketManager.buckets m) n'
           <= TimeBucketManager.duration_of (TimeBucketManager.buckets m) name).

Lemma snap_range_spec clause field ts m :
  managers ctx !! field = Some m -> TimeBucketManager.wf m ->
  TimeBucketManager.bucket_names m <> [] -> always_snap ctx = true ->
  exists name bucket,
    snap_range ctx clause field ts = Some (BucketBitmap field name (TimeBucket.bitmap bucket))
    /\ TimeBucketManager.get_bucket m name = Some bucket
    /\ snap_choice m (requested_duration ctx ts) name.
Proof.
  intros Hm Hwf Hne Ha. unfold snap_range, try_snap_to_bucket. rewrite Hm, Ha.
  assert (forall n, n ∈ TimeBucketManager.sorted_names m ->
    exists b, TimeBucketManager.get_bucket m n = Some b) as Hin.
  { intros n Hn. by apply (TimeBucketManager.wf_names m Hwf) in Hn as [b Hb]; exists b. }
  destruct (TimeBucketManager.snap_duration_spec m (requested_duration ctx ts) (tolerance_pct ctx) Hwf)
    as (r & -> & Hr).
  destruct r as [n|].
  - destruct Hr as (Hn & Hc & Hmin). destruct (Hin n Hn) as [b Hb]. rewrite Hb.
    exists n, b. split_and!; [done|done|]. by left.
  - destruct (TimeBucketManager.snap_nearest_spec m (requested_duration ctx ts) Hwf) as (n & -> & Hn).
    destruct (Hn Hne) as [Hn' Hspec]. destruct (Hin n Hn') as [b Hb]. rewrite Hb.
    exists n, b. split_and!; [done|done|]. by right.
Qed.

Lemma snap_range_total clause field ts :
  managers_wf -> is_Some (snap_range ctx clause field ts).
Proof.
  intros Hw. unfold snap_range, try_snap_to_bucket.
  destruct (managers ctx !! field) as [m|] eqn:E; [|by eexists].
  specialize (Hw _ _ E).
  destruct (TimeBucketManager.snap_duration_spec m (requested_duration ctx ts) (tolerance_pct ctx) Hw)
    as (r & -> & _).
  destruct (TimeBucketManager.snap_nearest_spec m (requested_duration ctx ts) Hw) as (n & -> & _).
  destruct r as [n'|]; [destruct (TimeBucketManager.get_bucket m n'); [by eexists|]|];
    destruct (always_snap ctx); destruct (TimeBucketManager.get_bucket m n); by eexists.
Qed.

(** The list recursion of [snap_clause] is [mapM]. *)
Lemma snap_clause_list (cs : list (FilterClause B)) :
  (fix go (cs : list (FilterClause B)) : option (list (FilterClause B)) :=
    match cs with
    | [] => Some []
    | c :: cs' =>
        match snap_clause ctx c with
        | None => None
        | Some c' => match go cs' with Some l => Some (c' :: l) | None => None end
        end
    end) cs = mapM (snap_clause ctx) cs.
Proof.
  induction cs as [|c cs IH]; [done|]. cbn [mapM mbind option_bind mret option_ret].
  rewrite IH. destruct (snap_clause ctx c); simpl; [|done]. by destruct (mapM _ _).
Qed.

Lemma snap_clause_And cs : snap_clause ctx (And cs) = And <$> mapM (snap_clause ctx) cs.
Proof. cbn [snap_clause]. by rewrite snap_clause_list. Qed.

Lemma snap_clause_Or cs : snap_clause ctx (Or cs) = Or <$> mapM (snap_clause ctx) cs.
Proof. cbn [snap_clause]. by rewrite snap_clause_list. Qed.

Lemma snap_clause_total c : managers_wf -> is_Some (snap_clause ctx c).
Proof.
  intros Hw. assert (forall cs, Forall (fun c => is_Some (snap_clause ctx c)) cs ->
    is_Some (mapM (snap_clause ctx) cs)) as Hl by (intros cs; apply mapM_is_Some_2).
  induction c as [f v|f v|f vs|f vs|f v|f v|f v|f v|c IH|cs IH|cs IH|f|f|f n b]
    using FilterClause_nested_ind; try (by eexists).
  - destruct v; simpl; try (by eexists). by apply snap_range_total.
  - destruct v; simpl; try (by eexists). by apply snap_range_total.
  - rewrite snap_clause_And. destruct (Hl _ IH) as [l ->]. by eexists.
  - rewrite snap_clause_Or. destruct (Hl _ IH) as [l ->]. by eexists.
Qed.

Lemma snap_clause_unsnapped c : unsnapped c = true -> snap_clause ctx c = Some c.
Proof.
  assert (forall cs, Forall (fun c => unsnapped c = true -> snap_clause ctx c = Some c) cs ->
    forallb unsnapped cs = true -> mapM (snap_clause ctx) cs = Some cs) as Hl.
  { induction 1 as [|c1 cs Hc Hcs IH]; simpl; [done|].
    intros [H1 H2]%andb_true_iff. rewrite Hc, IH by done. done. }
  induction c as [f v|f v|f vs|f vs|f v|f v|f v|f v|c IH|cs IH|cs IH|f|f|f n b]
    using FilterClause_nested_ind; try done.
  - destruct v; try done. intros H%bool_decide_eq_true. by apply snap_range_None.
  - destruct v; try done. intros H%bool_decide_eq_true. by apply snap_range_None.
  - intros H. rewrite snap_clause_And. by rewrite (Hl _ IH H).
  - intros H. rewrite snap_clause_Or. by rewrite (Hl _ IH H).
Qed.

End facts.

(** ** Properties *)

Section properties.
Context {B : Type} `{!RoaringOps B}.

(** With the bucket managers of a configured engine the pre-processing never
    panics, and it leaves every clause alone that puts no lower bound on a
    bucketed field (lower bounds under a negation are left alone too). *)
Theorem snap_range_clauses_total (ctx : BucketSnapContext B) (clauses : list (FilterClause B)) :
  managers_wf ctx ->
  is_Some (snap_range_clauses ctx clauses)
  /\ (Forall (fun c => unsnapped ctx c = true) clauses -> snap_range_clauses ctx clauses = Some clauses).
Proof.
  intros Hw. unfold snap_range_clauses. split.
  - apply mapM_is_Some_2, Forall_forall. intros c _. by apply snap_clause_total.
  - intros Hall. apply mapM_Some_2. induction Hall; constructor; [by apply snap_clause_unsnapped|done].
Qed.

(** A lower bound on a bucketed field is replaced by the bitmap of a bucket
    that is either the nearest one within tolerance of the requested window, or
    the shortest one that covers it, or the longest one when none covers it; and
    a timestamp in milliseconds requests the same window as the same instant in
    seconds. *)
Theorem snap_lower_bound (ctx : BucketSnapContext B) (field : string) (m : TimeBucketManager.t B)
    (secs millis : Z) :
  managers ctx !! field = Some m -> TimeBucketManager.wf m ->
  TimeBucketManager.bucket_names m <> [] -> always_snap ctx = true ->
  (100000000 < secs <= 100000000000)%Z -> (0 <= millis < 1000)%Z ->
  exists name bucket,
    snap_clause ctx (Gte field (Integer secs)) = Some (BucketBitmap field name (TimeBucket.bitmap bucket))
    /\ snap_clause ctx (Gt field (Integer (secs * 1000 + millis)))
       = Some (BucketBitmap field name (TimeBucket.bitmap bucket))
    /\ TimeBucketManager.get_bucket m name = Some bucket
    /\ snap_choice ctx m (now_secs ctx - Z.to_N secs) name.
Proof.
  intros Hm Hwf Hne Ha Hs Hms.
  assert (requested_duration ctx secs = now_secs ctx - Z.to_N secs) as E1.
  { unfold requested_duration, ts_to_secs, i64_as_u64.
    destruct (Z.ltb_spec 100000000000 secs); [lia|]. by rewrite Z.mod_small by lia. }
  assert (requested_duration ctx (secs * 1000 + millis) = now_secs ctx - Z.to_N secs) as E2.
  { unfold requested_duration, ts_to_secs, i64_as_u64.
    destruct (Z.ltb_spec 100000000000 (secs * 1000 + millis)); [|lia].
    rewrite Z.div_add_l, Z.div_small, Z.add_0_r by lia. by rewrite Z.mod_small by lia. }
  destruct (snap_range_spec ctx (Gte field (Integer secs)) field secs m Hm Hwf Hne Ha)
    as (n & b & H1 & H2 & H3). rewrite E1 in H3.
  exists n, b. split_and!; [done| |done|done]. revert H1. simpl.
  unfold snap_range, try_snap_to_bucket. rewrite E1, E2, Hm, Ha.
  destruct (TimeBucketManager.snap_duration _ _ _) as [[n'|]|]; [| |done].
  - destruct (TimeBucketManager.get_bucket m n'); [done|].
    destruct (TimeBucketManager.snap_nearest _ _) as [n''|]; [|done].
    by destruct (TimeBucketManager.get_bucket m n'').
  - destruct (TimeBucketManager.snap_nearest _ _) as [n''|]; [|done].
    by destruct (TimeBucketManager.get_bucket m n'').
Qed.

(** A lower bound at a negative timestamp asks for everything, but the cast
    to [u64] makes the requested window empty: the clause is treated as a window
    of length zero, for every negative timestamp. *)
Lemma snap_negative_is_zero_window (ctx : BucketSnapContext B) (ts : Z) :
  (-9223372036854775808 <= ts < 0)%Z -> now_secs ctx <= 9223372036854775807 ->
  requested_duration ctx ts = 0.
Proof.
  intros Hts Hnow. unfold requested_duration, ts_to_secs, i64_as_u64.
  destruct (Z.ltb_spec 100000000000 ts); [lia|].
  rewrite <- (Z.mod_add ts 1) by done. rewrite Z.mod_small by lia. lia.
Qed.

End properties.

(** ** Witnesses *)

Definition demo_ctx : BucketSnapContext Bitset :=
  MkBucketSnapContext
    {["sortAt"%string := TimeBucketManager.rebuild_bucket demo_buckets "7d" [(4, 1699999000)] 1700000000]}
    1700000000 (f64_ratio 1 10) true.

Lemma demo_ctx_wf : managers_wf demo_ctx.
Proof.
  intros field m H. simpl in H. apply lookup_singleton_Some in H as [_ <-].
  apply (TimeBucketManager.step_wf demo_buckets
    (TimeBucketManager.OpRebuild "7d" [(4, 1699999000)] 1700000000)).
  apply TimeBucketManager.new_wf.
Qed.

Lemma snap_range_clauses_total_witness :
  snap_range_clauses demo_ctx [Eq "a" (Integer 1); Not (Gt "sortAt" (Integer 0))]
  = Some [Eq "a" (Integer 1); Not (Gt "sortAt" (Integer 0))].
Proof.
  apply (snap_range_clauses_total demo_ctx [Eq "a" (Integer 1); Not (Gt "sortAt" (Integer 0))] demo_ctx_wf).
  repeat constructor.
Defined.

Lemma snap_lower_bound_witness :
  exists name bucket,
    snap_clause demo_ctx (Gte "sortAt" (Integer 1699400000))
      = Some (BucketBitmap "sortAt" name (TimeBucket.bitmap bucket))
    /\ snap_clause demo_ctx (Gt "sortAt" (Integer 1699400000123))
      = Some (BucketBitmap "sortAt" name (TimeBucket.bitmap bucket))
    /\ name = "7d"%string.
Proof.
  destruct (snap_lower_bound demo_ctx "sortAt"
    (TimeBucketManager.rebuild_bucket demo_buckets "7d" [(4, 1699999000)] 1700000000) 1699400000 123)
    as (n & b & H1 & H2 & H3 & _); [reflexivity| |done|done|lia|lia|].
  - by apply (demo_ctx_wf "sortAt").
  - exists n, b. split; [exact H1|]. split; [exact H2|]. vm_compute in H1. by injection H1.
Defined.

Lemma snap_negative_is_zero_window_witness :
  requested_duration demo_ctx (-1) = 0
  /\ exists b, snap_clause demo_ctx (Gt "sortAt" (Integer (-1))) = Some (BucketBitmap "sortAt" "24h" b).
Proof.
  split; [apply (snap_negative_is_zero_window demo_ctx (-1)); vm_compute; done|].
  eexists. vm_compute. reflexivity.
Defined.
