(* ===== verification/Dictionary.v ===== *)
(** * String dictionaries (src/dictionary.rs)

    A [FieldDictionary] assigns integer keys to the strings of a low-cardinality
    field, case-insensitively, and remembers the first spelling of each.  Rust's
    Unicode [str::to_lowercase] is the parameter [to_lowercase]; no theorem
    depends on what it does beyond being a function.  The dictionary file is a
    serialized snapshot; writing it (temporary file, fsync, rename) is file
    system plumbing and is not modelled. *)

From S2P Require Import Prelude.

Module FieldDictionary.

Record t : Type := mk {
  map : gmap string Z;
  originals : gmap string string;
  next_key : Z;
  dirty : bool;
}.

Record snapshot_t : Type := MkSnapshot {
  forward : gmap string Z;
  snap_originals : gmap string string;
}.

Section ops.
Context (to_lowercase : string -> string).

Definition new : t := mk ∅ ∅ 1 false.

(** The largest key, starting from 0. *)
Definition max_key (forward : gmap string Z) : Z :=
  map_fold (fun _ key m => if (m <? key)%Z then key else m) 0%Z forward.

Definition from_snapshot (s : snapshot_t) : t :=
  mk (forward s) (snap_originals s) (max_key (forward s) + 1)%Z false.

Definition get_or_insert (d : t) (value : string) : Z * t :=
  let lower := to_lowercase value in
  match map d !! lower with
  | Some key => (key, d)
  | None =>
      let key := next_key d in
      (key, mk (<[lower := key]> (map d))
               (match originals d !! lower with
                | Some _ => originals d
                | None => <[lower := value]> (originals d)
                end)
               (key + 1)%Z true)
  end.

Definition get (d : t) (value : string) : option Z := map d !! to_lowercase value.

Definition is_dirty (d : t) : bool := dirty d.

Definition clear_dirty (d : t) : t := mk (map d) (originals d) (next_key d) false.

Definition snapshot (d : t) : snapshot_t := MkSnapshot (map d) (originals d).

Definition to_string_map (s : snapshot_t) : gmap string Z := forward s.

Definition to_reverse_map (s : snapshot_t) : gmap Z string :=
  map_fold (fun lower key rev =>
      <[key := default lower (snap_originals s !! lower)]> rev) ∅ (forward s).

(** Keys are positive, below [next_key] and pairwise distinct. *)
Record inv (d : t) : Prop := {
  inv_range : forall l k, map d !! l = Some k -> (0 < k < next_key d)%Z;
  inv_inj : forall l l' k, map d !! l = Some k -> map d !! l' = Some k -> l = l';
  inv_next : (0 < next_key d)%Z;
}.

Inductive op : Type :=
  | GetOrInsert (value : string)
  | ClearDirty
  | Reload.

(** [Reload]: the process restarts from a saved snapshot. *)
Definition step (d : t) (o : op) : t :=
  match o with
  | GetOrInsert v => (get_or_insert d v).2
  | ClearDirty => clear_dirty d
  | Reload => from_snapshot (snapshot d)
  end.

Definition run (d : t) (ops : list op) : t := foldl step d ops.

Lemma dict_inv_new : inv new.
Proof. split; simpl; intros; try (by rewrite lookup_empty in *); lia. Qed.

Lemma max_key_bound (m : gmap string Z) :
  (0 <= max_key m)%Z /\ forall l k, m !! l = Some k -> (k <= max_key m)%Z.
Proof.
  unfold max_key. apply (map_fold_weak_ind (fun r (m : gmap string Z) =>
    (0 <= r)%Z /\ forall l k, m !! l = Some k -> (k <= r)%Z)).
  - split; [lia|]. intros l k. by rewrite lookup_empty.
  - intros i k m' r Hi [H0 Hr]. split.
    + destruct (Z.ltb_spec r k); lia.
    + intros l k'. rewrite lookup_insert. case_decide.
      * intros [= <-]. destruct (Z.ltb_spec r k); lia.
      * intros Hl. specialize (Hr _ _ Hl). destruct (Z.ltb_spec r k); lia.
Qed.

Lemma inv_get_or_insert d v : inv d -> inv (get_or_insert d v).2.
Proof.
  intros [H1 H2 H3]. unfold get_or_insert.
  destruct (map d !! to_lowercase v) as [k|] eqn:E; [done|]. split; simpl.
  - intros l k. rewrite lookup_insert. case_decide; [intros [= <-]; lia|].
    intros Hl. specialize (H1 _ _ Hl). lia.
  - intros l l' k. rewrite !lookup_insert. repeat case_decide; intros Hk Hk'; simplify_eq; try done.
    + specialize (H1 _ _ Hk'). lia.
    + specialize (H1 _ _ Hk). lia.
    + by eapply H2.
  - lia.
Qed.

Lemma dict_inv_step d o : inv d -> inv (step d o).
Proof.
  intros Hi. destruct o; simpl.
  - by apply inv_get_or_insert.
  - destruct Hi as [H1 H2 H3]. by split.
  - destruct Hi as [H1 H2 H3]. destruct (max_key_bound (map d)) as [Hm0 Hm]. split; simpl.
    + intros l k Hl. specialize (Hm _ _ Hl). specialize (H1 _ _ Hl). lia.
    + done.
    + lia.
Qed.

Lemma run_inv d ops : inv d -> inv (run d ops).
Proof. revert d. induction ops as [|o ops IH]; intros d Hd; simpl; [done|]. by apply IH, dict_inv_step. Qed.

(** An assigned key survives every later operation. *)
Lemma step_stable d o l k : map d !! l = Some k -> map (step d o) !! l = Some k.
Proof.
  intros Hl. destruct o; simpl; [|done|done]. unfold get_or_insert.
  destruct (map d !! to_lowercase value) eqn:E; [done|]. simpl.
  rewrite lookup_insert_ne; [done|]. intros <-. congruence.
Qed.

Lemma run_stable d ops l k : map d !! l = Some k -> map (run d ops) !! l = Some k.
Proof. revert d. induction ops as [|o ops IH]; intros d Hd; simpl; [done|]. by apply IH, step_stable. Qed.

(** The first spelling survives too. *)
Lemma step_original d o l s : originals d !! l = Some s -> originals (step d o) !! l = Some s.
Proof.
  intros Hl. destruct o; simpl; [|done|done]. unfold get_or_insert.
  destruct (map d !! to_lowercase value) eqn:E; [done|]. simpl.
  destruct (originals d !! to_lowercase value) eqn:Eo; [done|].
  rewrite lookup_insert_ne; [done|]. intros <-. congruence.
Qed.

Lemma run_original d ops l s : originals d !! l = Some s -> originals (run d ops) !! l = Some s.
Proof. revert d. induction ops as [|o ops IH]; intros d Hd; simpl; [done|]. by apply IH, step_original. Qed.

Lemma reverse_map_lookup (s : snapshot_t) l k :
  (forall l' k', forward s !! l' = Some k' -> k' = k -> l' = l) -> forward s !! l = Some k ->
  to_reverse_map s !! k = Some (default l (snap_originals s !! l)).
Proof.
  intros Hinj Hl. unfold to_reverse_map.
  enough (forall m : gmap string Z, m ⊆ forward s ->
    (l ∈ dom m -> map_fold (fun lower key rev =>
      <[key := default lower (snap_originals s !! lower)]> rev) (∅ : gmap Z string) m !! k
      = Some (default l (snap_originals s !! l)))) as H.
  { apply H; [done|]. apply elem_of_dom. by eexists. }
  intros m. apply (map_fold_weak_ind (fun (r : gmap Z string) (m : gmap string Z) => m ⊆ forward s ->
    l ∈ dom m -> r !! k = Some (default l (snap_originals s !! l)))).
  - intros _. rewrite dom_empty. by intros ?%elem_of_empty.
  - intros i k' m' r Hi IH Hsub Hin. assert (forward s !! i = Some k') as Hik.
    { eapply lookup_weaken; [apply lookup_insert_eq|done]. }
    rewrite lookup_insert. case_decide as Hk.
    + subst k'. by rewrite (Hinj i k Hik eq_refl).
    + apply IH.
      * etrans; [by apply insert_subseteq|done].
      * rewrite dom_insert, elem_of_union, elem_of_singleton in Hin.
        destruct Hin as [->|]; [congruence|done].
Qed.

End ops.

End FieldDictionary.

(** ** Properties *)

Section properties.
Context (to_lowercase : string -> string).
Import FieldDictionary.

(** A dictionary never aliases two strings: in a dictionary that has seen any
    sequence of insertions, persists and restarts from its snapshot, inserting a
    string yields a positive key that all later lookups of any spelling of it
    return, whatever is inserted in between; strings that differ beyond case get
    different keys; and the reverse map serves a stored spelling of the string. *)
Theorem dictionary_keys_stable (before after : list op) (v w : string) :
  let d0 := run to_lowercase new before in
  let '(k, d1) := get_or_insert to_lowercase d0 v in
  let d2 := run to_lowercase d1 after in
  (0 < k)%Z
  /\ (to_lowercase w = to_lowercase v -> get to_lowercase d2 w = Some k)
  /\ (to_lowercase w <> to_lowercase v -> get to_lowercase d2 w <> Some k)
  /\ to_reverse_map (snapshot d2) !! k
     = Some (default (to_lowercase v) (originals d2 !! to_lowercase v))
  /\ (map d0 !! to_lowercase v = None -> originals d0 !! to_lowercase v = None ->
      to_reverse_map (snapshot d2) !! k = Some v).
Proof.
  intros d0. assert (inv d0) as Hi by (apply run_inv, dict_inv_new).
  pose proof (inv_get_or_insert to_lowercase d0 v Hi) as Hi1.
  assert (let '(k, d1) := get_or_insert to_lowercase d0 v in map d1 !! to_lowercase v = Some k
    /\ (map d0 !! to_lowercase v = None -> originals d0 !! to_lowercase v = None ->
        originals d1 !! to_lowercase v = Some v)) as Hk.
  { unfold get_or_insert. destruct (map d0 !! to_lowercase v) eqn:E; simpl; [done|].
    rewrite lookup_insert_eq. split; [done|]. intros _ ->. apply lookup_insert_eq. }
  destruct (get_or_insert to_lowercase d0 v) as [k d1]. simpl in Hi1. destruct Hk as [Hk Ho].
  intros d2. assert (inv d2) as Hi2 by (by apply run_inv).
  assert (map d2 !! to_lowercase v = Some k) as Hk2 by (by apply run_stable).
  assert (to_reverse_map (snapshot d2) !! k
    = Some (default (to_lowercase v) (originals d2 !! to_lowercase v))) as Hrev.
  { apply (reverse_map_lookup (snapshot d2)); [|done].
    intros l' k' Hl' ->. by eapply (inv_inj _ Hi2). }
  split_and!; [|intros E; unfold get; by rewrite E| |done|].
  - by destruct (inv_range _ Hi2 _ _ Hk2).
  - intros Hne Hw. apply Hne. by eapply (inv_inj _ Hi2).
  - intros H1 H2. rewrite Hrev.
    pose proof (run_original to_lowercase d1 after _ _ (Ho H1 H2)) as Hs. fold d2 in Hs. by rewrite Hs.
Qed.

End properties.

(** ASCII lower-casing, an instance of the parameter. *)
Definition ascii_lower (c : Ascii.ascii) : Ascii.ascii :=
  let n := Ascii.N_of_ascii c in
  if (65 <=? n) && (n <=? 90) then Ascii.ascii_of_N (n + 32) else c.

Fixpoint string_lower (s : string) : string :=
  match s with
  | EmptyString => EmptyString
  | String c s' => String (ascii_lower c) (string_lower s')
  end.

Example dictionary_demo :
  let d := FieldDictionary.run string_lower FieldDictionary.new
             [FieldDictionary.GetOrInsert "SD 1.5"; FieldDictionary.GetOrInsert "Flux"] in
  (FieldDictionary.get string_lower d "sd 1.5",
   FieldDictionary.to_reverse_map (FieldDictionary.snapshot d) !! 1%Z)
  = (Some 1%Z, Some "SD 1.5"%string).
Proof. vm_compute. reflexivity. Qed.
