(* ===== verification/Planner.v ===== *)
(** * The query planner (src/planner.rs)

    Filter clauses are reordered by an estimate of their cardinality read from
    the bitmaps' metadata; small estimates switch the executor to an in-memory
    sort.  [fields] is what the filter index resolves names to at the time of the
    query (the planner and the executor only read it). *)

From S2P Require Import Prelude Roaring Versioned Slot Config Sort Filter Float64 Bytes.
From S2P Require Import BucketDiffLog TimeBuckets Query Dictionary.

Definition SORT_FIRST_THRESHOLD : N := 1000.

Definition StringMaps : Type := gmap string (gmap string Z).

Record PlannerContext : Type := MkPlannerContext {
  pc_string_maps : option StringMaps;
  pc_dictionaries : option (gmap string FieldDictionary.t);
}.

Definition value_to_bitmap_key (v : Value) : option N :=
  match v with
  | Bool b => Some (if b then 1 else 0)
  | Integer v => Some (i64_as_u64 v)
  | Float _ | Str _ => None
  end.

Record QueryPlan (B : Type) : Type := MkQueryPlan {
  ordered_clauses : list (FilterClause B);
  use_simple_sort : bool;
  estimated_result_size : N;
}.
Arguments MkQueryPlan {B} _ _ _.
Arguments ordered_clauses {B} _.
Arguments use_simple_sort {B} _.
Arguments estimated_result_size {B} _.

Section planner.
Context {B : Type} `{!RoaringOps B}.
Context (to_lowercase : string -> string).
Context (fields : gmap string (FilterField.t B)).

Definition planner_resolve_value_key (field : string) (val : Value) (ctx : option PlannerContext)
  : option N :=
  match value_to_bitmap_key val with
  | Some key => Some key
  | None =>
      match val, ctx with
      | Str s, Some ctx =>
          let from_maps :=
            maps ← pc_string_maps ctx; field_map ← maps !! field; field_map !! to_lowercase s in
          match from_maps with
          | Some v => Some (i64_as_u64 v)
          | None =>
              dicts ← pc_dictionaries ctx; dict ← dicts !! field;
              i64_as_u64 <$> FieldDictionary.get to_lowercase dict s
          end
      | _, _ => None
      end
  end.

(** [for v in values { if let Some(key) = ... { total += ff.cardinality(key) } }] *)
Definition sum_cardinalities (ff : FilterField.t B) (field : string) (values : list Value)
    (ctx : option PlannerContext) : N :=
  foldl (fun total v =>
      match planner_resolve_value_key field v ctx with
      | Some key => wrap64 (total + FilterField.cardinality ff key)
      | None => total
      end) 0 values.

Fixpoint estimate_cardinality (clause : FilterClause B) (alive_count : N)
    (ctx : option PlannerContext) : N :=
  match clause with
  | Eq field value =>
      match fields !! field with
      | Some ff =>
          match planner_resolve_value_key field value ctx with
          | Some key => FilterField.cardinality ff key
          | None => alive_count
          end
      | None => alive_count
      end
  | NotEq field value =>
      match fields !! field with
      | Some ff =>
          match planner_resolve_value_key field value ctx with
          | Some key => alive_count - FilterField.cardinality ff key
          | None => alive_count
          end
      | None => alive_count
      end
  | In field values =>
      match fields !! field with
      | Some ff => N.min (sum_cardinalities ff field values ctx) alive_count
      | None => alive_count
      end
  | NotIn field values =>
      match fields !! field with
      | Some ff => alive_count - N.min (sum_cardinalities ff field values ctx) alive_count
      | None => alive_count
      end
  | Not inner => alive_count - estimate_cardinality inner alive_count ctx
  | And clauses =>
      match map (fun c => estimate_cardinality c alive_count ctx) clauses with
      | [] => 0
      | e :: es => foldl N.min e es
      end
  | Or clauses =>
      N.min (foldl (fun total e => wrap64 (total + e)) 0
               (map (fun c => estimate_cardinality c alive_count ctx) clauses)) alive_count
  | Gt _ _ | Lt _ _ | Gte _ _ | Lte _ _ => alive_count / 2
  | BucketBitmap _ _ bitmap => rb_len bitmap
  | IsNull field =>
      match fields !! field with
      | Some ff => FilterField.cardinality ff NULL_BITMAP_KEY
      | None => alive_count / 10
      end
  | IsNotNull field =>
      let null_count := match fields !! field with
                        | Some ff => FilterField.cardinality ff NULL_BITMAP_KEY
                        | None => alive_count / 10
                        end in
      alive_count - null_count
  end.

Definition plan_query_with_context (clauses : list (FilterClause B)) (slots : SlotAllocator.t B)
    (ctx : option PlannerContext) : QueryPlan B :=
  let alive_count := SlotAllocator.alive_count slots in
  match clauses with
  | [] => MkQueryPlan [] (alive_count <? SORT_FIRST_THRESHOLD) alive_count
  | _ =>
      let clause_estimates :=
        stable_sort_by_key snd ((fun c => (c, estimate_cardinality c alive_count ctx)) <$> clauses) in
      let estimated_result_size := default alive_count (snd <$> head clause_estimates) in
      MkQueryPlan (fst <$> clause_estimates)
        (estimated_result_size <? SORT_FIRST_THRESHOLD) estimated_result_size
  end.

Definition plan_query (clauses : list (FilterClause B)) (slots : SlotAllocator.t B) : QueryPlan B :=
  plan_query_with_context clauses slots None.

Definition optimize_and_clause (clauses : list (FilterClause B)) (alive_count : N)
  : list (FilterClause B) :=
  fst <$> stable_sort_by_key snd ((fun c => (c, estimate_cardinality c alive_count None)) <$> clauses).

Definition should_use_andnot (clause : FilterClause B) (alive_count : N) : bool :=
  match clause with
  | Not inner => estimate_cardinality inner alive_count None <? alive_count / 10
  | NotEq field value =>
      match fields !! field with
      | Some ff =>
          match value_to_bitmap_key value with
          | Some key => FilterField.cardinality ff key <? alive_count / 10
          | None => false
          end
      | None => false
      end
  | _ => false
  end.

Lemma fst_pairs {A} (key : A -> N) (l : list A) : fst <$> ((fun c => (c, key c)) <$> l) = l.
Proof. rewrite <- list_fmap_compose. apply list_fmap_id. Qed.

Lemma optimize_and_clause_sort clauses n :
  optimize_and_clause clauses n = stable_sort_by_key (fun c => estimate_cardinality c n None) clauses.
Proof. unfold optimize_and_clause. by rewrite (stable_sort_tagged (fun c => c)), fst_pairs. Qed.

Lemma plan_ordered clauses slots ctx :
  ordered_clauses (plan_query_with_context clauses slots ctx)
  = stable_sort_by_key (fun c => estimate_cardinality c (SlotAllocator.alive_count slots) ctx) clauses.
Proof.
  unfold plan_query_with_context. destruct clauses as [|c cs]; [done|]. cbn [ordered_clauses].
  by rewrite (stable_sort_tagged (fun c => c)), fst_pairs.
Qed.

(** Planning only reorders: the planned clauses are a permutation of the
    query's clauses in ascending order of estimated cardinality (clauses with the
    same estimate keep their order), the estimated result size is the smallest
    estimate, and the in-memory sort is chosen exactly below the threshold. *)
Theorem plan_is_sorted_permutation (clauses : list (FilterClause B)) (slots : SlotAllocator.t B)
    (ctx : option PlannerContext) :
  let estimate c := estimate_cardinality c (SlotAllocator.alive_count slots) ctx in
  let plan := plan_query_with_context clauses slots ctx in
  ordered_clauses plan ≡ₚ clauses
  /\ StronglySorted (fun a b => estimate a <= estimate b) (ordered_clauses plan)
  /\ (forall n, filter (fun c => estimate c = n) (ordered_clauses plan) = filter (fun c => estimate c = n) clauses)
  /\ (forall c, c ∈ clauses -> estimated_result_size plan <= estimate c)
  /\ (clauses <> [] -> exists c, c ∈ clauses /\ estimated_result_size plan = estimate c)
  /\ use_simple_sort plan = (estimated_result_size plan <? SORT_FIRST_THRESHOLD).
Proof.
  intros estimate plan. subst plan. rewrite plan_ordered.
  set (alive := SlotAllocator.alive_count slots).
  assert (clauses <> [] -> exists c, head (stable_sort_by_key estimate clauses) = Some c
    /\ estimated_result_size (plan_query_with_context clauses slots ctx) = estimate c) as Hhead.
  { intros Hne. destruct (stable_sort_by_key estimate clauses) as [|c l] eqn:E.
    - exfalso. apply Hne, Permutation_nil. rewrite <- (stable_sort_perm estimate clauses). by rewrite E.
    - exists c. split; [done|]. unfold plan_query_with_context. destruct clauses as [|c0 cs]; [done|].
      cbn [estimated_result_size]. fold alive. rewrite (stable_sort_tagged (fun c => c) estimate), E. done. }
  split_and!.
  - apply stable_sort_perm.
  - apply stable_sort_sorted.
  - intros n. apply (stable_sort_stable estimate).
  - intros c Hc. destruct Hhead as (c0 & Hc0 & ->); [intros ->; by apply elem_of_nil in Hc|].
    pose proof (stable_sort_sorted estimate clauses) as Hs.
    rewrite <- (stable_sort_perm estimate) in Hc.
    destruct (stable_sort_by_key estimate clauses) as [|c1 l]; [done|]. simplify_eq/=.
    inversion_clear Hs as [|?? _ Hall]. apply elem_of_cons in Hc as [->|Hc]; [done|].
    rewrite Forall_forall in Hall. by apply Hall.
  - intros Hne. destruct (Hhead Hne) as (c0 & Hc0 & ->). exists c0. split; [|done].
    rewrite <- (stable_sort_perm estimate). destruct (stable_sort_by_key estimate clauses); [done|].
    simplify_eq/=. apply elem_of_cons. by left.
  - unfold plan_query_with_context. by destruct clauses.
Qed.

End planner.
