(* ===== verification/Executor.v ===== *)
(** * The query executor (src/executor.rs)

    Filter clauses are evaluated to bitmaps and intersected (with shortcuts that
    work on the accumulator directly), then the result is sorted and paginated.
    The executor only reads the index, so it is a record of what it borrows;
    metrics, tracing and timing have no effect on the result and are omitted.
    Ids are slot numbers ([u32] cast to [i64]). *)

From S2P Require Import Prelude Roaring Versioned Slot Config Sort Filter Float64 Bytes.
From S2P Require Import BucketDiffLog TimeBuckets Query Dictionary Planner.
Local Open Scope bitdex_scope.

Record QueryExecutor (B : Type) : Type := MkQueryExecutor {
  ex_slots : SlotAllocator.t B;
  ex_filters : gmap string (FilterField.t B);
  ex_sorts : gmap string (SortField.t B);
  max_page_size : N;
  time_buckets : option (TimeBucketManager.t B);
  now_unix : N;
  string_maps : option StringMaps;
  case_sensitive_fields : option (gset string);
  dictionaries : option (gmap string FieldDictionary.t);
}.
Arguments MkQueryExecutor {B} _ _ _ _ _ _ _ _ _.
Arguments ex_slots {B} _.
Arguments ex_filters {B} _.
Arguments ex_sorts {B} _.
Arguments max_page_size {B} _.
Arguments time_buckets {B} _.
Arguments now_unix {B} _.
Arguments string_maps {B} _.
Arguments case_sensitive_fields {B} _.
Arguments dictionaries {B} _.

(** [result.unwrap_or_default()] on an optional bitmap. *)
Definition or_default {B : Type} `{!RoaringOps B} (b : option B) : B := default rb_new b.

Section executor.
Context {B : Type} `{!RoaringOps B}.
Context (to_lowercase : string -> string).
Context (ex : QueryExecutor B).

Definition new_executor (slots : SlotAllocator.t B) (filters : gmap string (FilterField.t B))
    (sorts : gmap string (SortField.t B)) (max_page : N) : QueryExecutor B :=
  MkQueryExecutor slots filters sorts max_page None 0 None None None.

(** The planner and the executor have identical copies of [value_to_bitmap_key]. *)
Definition resolve_value_key (field : string) (val : Value) : option N :=
  match value_to_bitmap_key val with
  | Some key => Some key
  | None =>
      match val with
      | Str s =>
          let from_maps :=
            maps ← string_maps ex;
            field_map ← maps !! field;
            let is_case_sensitive := match case_sensitive_fields ex with
                                     | Some cs => bool_decide (field ∈ cs)
                                     | None => false
                                     end in
            field_map !! (if is_case_sensitive then s else to_lowercase s) in
          match from_maps with
          | Some v => Some (i64_as_u64 v)
          | None =>
              dicts ← dictionaries ex; dict ← dicts !! field;
              i64_as_u64 <$> FieldDictionary.get to_lowercase dict s
          end
      | _ => None
      end
  end.

Definition alive : B := SlotAllocator.alive_bitmap (ex_slots ex).

Definition id_bitmap_single (value : Value) : result B :=
  match value with
  | Integer v =>
      let slot := i64_as_u32 v in
      Ok (if rb_contains alive slot then rb_insert rb_new slot else rb_new)
  | _ => Err (InvalidValue "id" "id must be an integer")
  end.

Definition id_bitmap_multi (values : list Value) : result B :=
  Ok (foldl (fun bm v =>
      match v with
      | Integer id =>
          let slot := i64_as_u32 id in
          if rb_contains alive slot then rb_insert bm slot else bm
      | _ => bm
      end) rb_new values).

(** [ff.get_versioned(key)] fused, when the value is known. *)
Definition fused_value (ff : FilterField.t B) (field : string) (value : Value) : option B :=
  match resolve_value_key field value with
  | Some key => VersionedBitmap.fused_cow <$> FilterField.get_versioned ff key
  | None => None
  end.

(** The null sentinel's bitmap of a field, if it has one. *)
Definition null_value (ff : FilterField.t B) : option B :=
  VersionedBitmap.fused_cow <$> FilterField.get_versioned ff NULL_BITMAP_KEY.

Definition sub_null (field : string) (result : B) : B :=
  match ex_filters ex !! field with
  | Some ff => match null_value ff with
               | Some nulls => rb_sub result nulls
               | None => result
               end
  | None => result
  end.

(** The [Eq] and [In] arms of [evaluate_clause] (also reached from [NotEq] and [NotIn]). *)
Definition evaluate_eq (field : string) (value : Value) : result B :=
  if bool_decide (field = "id"%string) then id_bitmap_single value
  else match ex_filters ex !! field with
       | Some ff =>
           match resolve_value_key field value with
           | None => Ok rb_new
           | Some key => Ok (or_default (VersionedBitmap.fused <$> FilterField.get_versioned ff key))
           end
       | None => Err (FieldNotFound field)
       end.

Definition evaluate_in (field : string) (values : list Value) : result B :=
  if bool_decide (field = "id"%string) then id_bitmap_multi values
  else match ex_filters ex !! field with
       | Some ff =>
           let keys := omap (resolve_value_key field) values in
           Ok (foldl (fun result key =>
               match FilterField.get_versioned ff key with
               | Some vb => rb_or result (VersionedBitmap.fused_cow vb)
               | None => result
               end) rb_new keys)
       | None => Err (FieldNotFound field)
       end.

Definition range_scan (field : string) (value : Value) (predicate : N -> N -> bool) : result B :=
  match ex_filters ex !! field with
  | None => Err (FieldNotFound field)
  | Some ff =>
      let loaded := N.of_nat (FilterField.loaded_value_count ff) in
      let too_expensive := match max_range_scan_values (FilterField.config ff) with
                           | Some cap => cap <? loaded
                           | None => false
                           end in
      if too_expensive
      then Err (QueryTooExpensive field loaded (default 0 (max_range_scan_values (FilterField.config ff))))
      else match value_to_bitmap_key value with
           | None => Err (InvalidValue field "cannot convert to bitmap key for range filter")
           | Some target =>
               Ok (map_fold (fun key vb result =>
                   if key =? NULL_BITMAP_KEY then result
                   else if predicate key target then
                     if VersionedBitmap.is_dirty vb then rb_or result (VersionedBitmap.fused vb)
                     else rb_or result (VersionedBitmap.base vb)
                   else result) rb_new (FilterField.bitmaps ff))
           end
  end.

(** The bucket a threshold on the bucketed field snaps to (10% tolerance).  The
    panic of a missing bucket cannot happen for a configured manager
    ([snapping_correct]). *)
Definition snapped_bucket (tb : TimeBucketManager.t B) (threshold : N) : option B :=
  match TimeBucketManager.snap_duration tb (now_unix ex - threshold) (f64_ratio 1 10) with
  | Some (Some bucket_name) => TimeBucket.bitmap <$> TimeBucketManager.get_bucket tb bucket_name
  | _ => None
  end.

(** The time-bucket shortcut of the range arms: the manager, when [field] is its
    field, with the unit-normalized threshold. *)
Definition bucket_threshold (field : string) (value : Value) : option (TimeBucketManager.t B * N) :=
  tb ← time_buckets ex;
  if bool_decide (field = TimeBucketManager.field_name tb) then
    threshold ← value_to_bitmap_key value; Some (tb, ts_secs_u64 threshold)
  else None.

Definition evaluate_lower (field : string) (value : Value) (predicate : N -> N -> bool) : result B :=
  match bucket_threshold field value with
  | Some (tb, threshold) =>
      match snapped_bucket tb threshold with
      | Some bucket => Ok bucket
      | None => range_scan field value predicate
      end
  | None => range_scan field value predicate
  end.

Definition evaluate_upper (field : string) (value : Value) (predicate : N -> N -> bool) : result B :=
  match bucket_threshold field value with
  | Some (tb, threshold) =>
      if now_unix ex <=? threshold then Ok alive
      else match snapped_bucket tb threshold with
           | Some bucket => Ok (rb_sub alive bucket)
           | None => range_scan field value predicate
           end
  | None => range_scan field value predicate
  end.

(** The [And] loop over already ordered results: the first error wins. *)
Fixpoint and_results (acc : option B) (rs : list (result B)) : result (option B) :=
  match rs with
  | [] => Ok acc
  | Ok bitmap :: rest =>
      and_results (Some match acc with Some existing => rb_and existing bitmap | None => bitmap end) rest
  | Err e :: _ => Err e
  end.

(** One round of the [Or] loop; [full] is what [evaluate_clause] returns for the clause. *)
Definition or_round (result : B) (clause : FilterClause B) (full : Prelude.result B) : Prelude.result B :=
  let fallback := let? bitmap := full in Ok (rb_or result bitmap) in
  match clause with
  | Eq field value =>
      if bool_decide (field = "id"%string) then fallback
      else match ex_filters ex !! field with
           | Some ff => Ok (match fused_value ff field value with
                            | Some b => rb_or result b
                            | None => result
                            end)
           | None => fallback
           end
  | In field values =>
      if bool_decide (field = "id"%string) then fallback
      else match ex_filters ex !! field with
           | Some ff => Ok (foldl (fun result v =>
               match fused_value ff field v with
               | Some b => rb_or result b
               | None => result
               end) result values)
           | None => fallback
           end
  | _ => fallback
  end.

Fixpoint or_results (acc : B) (crs : list (FilterClause B * result B)) : result B :=
  match crs with
  | [] => Ok acc
  | (c, r) :: rest => let? acc' := or_round acc c r in or_results acc' rest
  end.

(** [evaluate_clause].  In the [And] arm the sub-clauses are evaluated in the
    order of [optimize_and_clause]; evaluation has no effects, so the results
    are computed first and ordered by the same key ([evaluate_clause_And]). *)
Fixpoint evaluate_clause (clause : FilterClause B) : result B :=
  match clause with
  | Eq field value => evaluate_eq field value
  | NotEq field value =>
      let? eq_bitmap := evaluate_eq field value in
      Ok (sub_null field (rb_sub alive eq_bitmap))
  | In field values => evaluate_in field values
  | NotIn field values =>
      let? in_bitmap := evaluate_in field values in
      Ok (sub_null field (rb_sub alive in_bitmap))
  | Not inner =>
      let? inner_bitmap := evaluate_clause inner in
      Ok (rb_sub alive inner_bitmap)
  | And clauses =>
      let n := SlotAllocator.alive_count (ex_slots ex) in
      let pairs := map (fun c => (evaluate_clause c,
        estimate_cardinality to_lowercase (ex_filters ex) c n None)) clauses in
      let? b := and_results None (fst <$> stable_sort_by_key snd pairs) in
      Ok (or_default b)
  | Or clauses => or_results rb_new (map (fun c => (c, evaluate_clause c)) clauses)
  | Gt field value => evaluate_lower field value (fun k t => t <? k)
  | Gte field value => evaluate_lower field value (fun k t => t <=? k)
  | Lt field value => evaluate_upper field value (fun k t => k <? t)
  | Lte field value => evaluate_upper field value (fun k t => k <=? t)
  | BucketBitmap _ _ bitmap => Ok bitmap
  | IsNull field =>
      match ex_filters ex !! field with
      | None => Err (FieldNotFound field)
      | Some ff => Ok (or_default (VersionedBitmap.fused <$> FilterField.get_versioned ff NULL_BITMAP_KEY))
      end
  | IsNotNull field =>
      match ex_filters ex !! field with
      | None => Err (FieldNotFound field)
      | Some ff =>
          Ok (rb_sub alive (or_default (VersionedBitmap.fused <$>
                              FilterField.get_versioned ff NULL_BITMAP_KEY)))
      end
  end.

(** The [Eq] and [In] arms of [evaluate_clause_with_candidates]. *)
Definition union_values (ff : FilterField.t B) (field : string) (values : list Value) (candidates : B) : B :=
  foldl (fun result v =>
      match fused_value ff field v with
      | Some b => rb_or result (rb_and candidates b)
      | None => result
      end) rb_new values.

Fixpoint evaluate_clause_with_candidates (clause : FilterClause B) (candidates : B) : result B :=
  match clause with
  | Eq field value =>
      match ex_filters ex !! field with
      | Some ff => Ok (match fused_value ff field value with
                       | Some b => rb_and candidates b
                       | None => rb_new
                       end)
      | None => let? full := evaluate_clause clause in Ok (rb_and candidates full)
      end
  | In field values =>
      match ex_filters ex !! field with
      | Some ff => Ok (union_values ff field values candidates)
      | None => let? full := evaluate_clause clause in Ok (rb_and candidates full)
      end
  | And inner =>
      (fix go (cs : list (FilterClause B)) (result : B) : Prelude.result B :=
         match cs with
         | [] => Ok result
         | c :: cs' =>
             let? result := evaluate_clause_with_candidates c result in
             if rb_is_empty result then Ok result else go cs' result
         end) inner candidates
  | Or inner =>
      (fix go (cs : list (FilterClause B)) (result : B) : Prelude.result B :=
         match cs with
         | [] => Ok result
         | c :: cs' =>
             let? hits := evaluate_clause_with_candidates c candidates in
             go cs' (rb_or result hits)
         end) inner rb_new
  | _ => let? full := evaluate_clause clause in Ok (rb_and candidates full)
  end.

(** [Some (Ok acc')]: the clause was applied to the accumulator in place. *)
Definition try_and_by_ref (acc : B) (clause : FilterClause B) : option (result B) :=
  match clause with
  | Eq field value =>
      if bool_decide (field = "id"%string) then None
      else ff ← ex_filters ex !! field;
           b ← fused_value ff field value; Some (Ok (rb_and acc b))
  | In field values =>
      if bool_decide (field = "id"%string) then None
      else ff ← ex_filters ex !! field; Some (Ok (union_values ff field values acc))
  | BucketBitmap _ _ bitmap => Some (Ok (rb_and acc bitmap))
  | Not inner =>
      match evaluate_clause_with_candidates inner acc with
      | Ok inner_hits => Some (Ok (rb_sub acc inner_hits))
      | Err e => Some (Err e)
      end
  | NotEq field value =>
      if bool_decide (field = "id"%string) then None
      else ff ← ex_filters ex !! field;
           b ← fused_value ff field value; Some (Ok (rb_sub acc b))
  | NotIn field values =>
      if bool_decide (field = "id"%string) then None
      else ff ← ex_filters ex !! field;
           Some (Ok (foldl (fun acc v =>
             match fused_value ff field v with
             | Some b => rb_sub acc b
             | None => acc
             end) acc values))
  | _ => None
  end.

(** The loop of [compute_filters_traced]. *)
Fixpoint compute_loop (clauses : list (FilterClause B)) (acc : option B) : result (option B) :=
  match clauses with
  | [] => Ok acc
  | clause :: rest =>
      match acc with
      | None => let? bitmap := evaluate_clause clause in compute_loop rest (Some bitmap)
      | Some a =>
          if rb_is_empty a then compute_loop rest acc
          else match try_and_by_ref a clause with
               | Some (Ok a') => if rb_len a' =? 0 then Ok (Some a') else compute_loop rest (Some a')
               | Some (Err e) => Err e
               | None =>
                   let? bitmap := evaluate_clause clause in
                   let a' := rb_and a bitmap in
                   if rb_len a' =? 0 then Ok (Some a') else compute_loop rest (Some a')
               end
      end
  end.

Definition compute_filters (clauses : list (FilterClause B)) : result B :=
  match clauses with
  | [] => Ok alive
  | _ => let? b := compute_loop clauses None in Ok (or_default b)
  end.

Fixpoint slot_matches_filters (slot : N) (clauses : list (FilterClause B)) : result bool :=
  match clauses with
  | [] => Ok true
  | clause :: rest =>
      let? bitmap := evaluate_clause clause in
      if negb (rb_contains bitmap slot) then Ok false else slot_matches_filters slot rest
  end.

End executor.

(** ** Sorting and pagination *)

Section pagination.
Context {B : Type} `{!RoaringOps B}.
Context (to_lowercase : string -> string).
Context (ex : QueryExecutor B).

(** The cursor after the last id of a slot-ordered page. *)
Definition slot_cursor (ids : list N) : option CursorPosition :=
  (fun last_id => MkCursorPosition last_id last_id) <$> last ids.

Definition slot_order_paginate_dir (candidates : B) (limit : N) (cursor : option CursorPosition)
    (ascending : bool) : list N * option CursorPosition :=
  match cursor with
  | Some cursor =>
      let narrowed :=
        if ascending then rb_remove_range candidates 0 (cp_slot_id cursor)
        else rb_remove_range candidates (cp_slot_id cursor) u32_max in
      if rb_is_empty narrowed then ([], None)
      else
        let ids := if ascending then take (N.to_nat limit) (rb_iter narrowed)
                   else take (N.to_nat limit) (rev (rb_iter narrowed)) in
        (ids, slot_cursor ids)
  | None =>
      if rb_is_empty candidates then ([], None)
      else
        let ids := if ascending then take (N.to_nat limit) (rb_iter candidates)
                   else take (N.to_nat limit) (rev (rb_iter candidates)) in
        (ids, slot_cursor ids)
  end.

Definition slot_order_paginate (candidates : B) (limit : N) (cursor : option CursorPosition)
  : list N * option CursorPosition := slot_order_paginate_dir candidates limit cursor false.

Definition cursor_pair (c : CursorPosition) : N * N := (cp_sort_value c, cp_slot_id c).

(** The cursor after the last slot of a sorted page. *)
Definition sort_cursor (sf : SortField.t B) (slots : list N) : option CursorPosition :=
  (fun last_slot => MkCursorPosition (SortField.reconstruct_value sf last_slot) last_slot) <$> last slots.

(** [top_n] also returns the field with its fused view cached; the cache is part
    of the shared sort field and does not affect later answers
    ([sort_cache_coherent]). *)
Definition sort_and_paginate (candidates : B) (sort : SortClause) (limit : N)
    (cursor : option CursorPosition) : result (list N * option CursorPosition) :=
  match ex_sorts ex !! sc_field sort with
  | None => Err (FieldNotFound (sc_field sort))
  | Some sort_field =>
      let descending := bool_decide (sc_direction sort = Desc) in
      let sorted_slots :=
        (SortField.top_n sort_field candidates limit descending (cursor_pair <$> cursor)).1 in
      Ok (sorted_slots, sort_cursor sort_field sorted_slots)
  end.

(** The [retain] closure on [(slot, value)] entries. *)
Definition past_cursor (descending : bool) (cursor_value cursor_slot : N) (entry : N * N) : bool :=
  let '(slot, value) := entry in
  if descending then (value <? cursor_value) || ((value =? cursor_value) && (slot <? cursor_slot))
  else (cursor_value <? value) || ((value =? cursor_value) && (cursor_slot <? slot)).

(** [entries.sort_unstable_by]: the comparison is a total order without ties (slots
    are distinct), so every sorting algorithm gives the same list. *)
Definition simple_sort_and_paginate (candidates : B) (sort : SortClause) (limit : N)
    (cursor : option CursorPosition) : result (list N * option CursorPosition) :=
  match ex_sorts ex !! sc_field sort with
  | None => Err (FieldNotFound (sc_field sort))
  | Some sort_field =>
      let descending := bool_decide (sc_direction sort = Desc) in
      let entries := (fun slot => (slot, SortField.reconstruct_value sort_field slot))
                       <$> rb_iter candidates in
      let entries := merge_sort (SortField.entry_le descending) entries in
      let entries :=
        match cursor with
        | Some cursor =>
            let cursor_value := wrap32 (cp_sort_value cursor) in
            let cursor_slot := cp_slot_id cursor in
            filter (fun sv => past_cursor descending cursor_value cursor_slot sv = true) entries
        | None => entries
        end in
      let result_slots := fst <$> take (N.to_nat limit) entries in
      Ok (result_slots, sort_cursor sort_field result_slots)
  end.

Definition execute_from_bitmap_inner (filter_bitmap : B) (sort : option SortClause) (limit : N)
    (cursor : option CursorPosition) (use_simple_sort : bool) : result QueryResult :=
  let total_matched := rb_len filter_bitmap in
  let use_simple_sort := use_simple_sort || (total_matched <? 1000) in
  let? page :=
    match sort with
    | Some sort_clause =>
        if use_simple_sort then simple_sort_and_paginate filter_bitmap sort_clause limit cursor
        else sort_and_paginate filter_bitmap sort_clause limit cursor
    | None => Ok (slot_order_paginate filter_bitmap limit cursor)
    end in
  Ok (MkQueryResult page.1 page.2 total_matched).

Definition execute_from_bitmap (filter_bitmap : B) (sort : option SortClause) (limit : N)
    (cursor : option CursorPosition) (use_simple_sort : bool) : result QueryResult :=
  execute_from_bitmap_inner filter_bitmap sort (N.min limit (max_page_size ex)) cursor use_simple_sort.

Definition execute_from_bitmap_unclamped (filter_bitmap : B) (sort : option SortClause) (limit : N)
    (cursor : option CursorPosition) (use_simple_sort : bool) : result QueryResult :=
  execute_from_bitmap_inner filter_bitmap sort limit cursor use_simple_sort.

Definition execute (filters : list (FilterClause B)) (sort : option SortClause) (limit : N)
    (cursor : option CursorPosition) : result QueryResult :=
  let limit := N.min limit (max_page_size ex) in
  let ctx := MkPlannerContext (string_maps ex) (dictionaries ex) in
  let plan := plan_query_with_context to_lowercase (ex_filters ex) filters (ex_slots ex) (Some ctx) in
  let? filter_bitmap := compute_filters to_lowercase ex (ordered_clauses plan) in
  let total_matched := rb_len filter_bitmap in
  let use_simple_sort := use_simple_sort plan || (total_matched <? 1000) in
  let? page :=
    match sort with
    | Some sort_clause =>
        if use_simple_sort then simple_sort_and_paginate filter_bitmap sort_clause limit cursor
        else sort_and_paginate filter_bitmap sort_clause limit cursor
    | None => Ok (slot_order_paginate filter_bitmap limit cursor)
    end in
  Ok (MkQueryResult page.1 page.2 total_matched).

(** [slice::partition_point]: the length of the prefix that satisfies the predicate
    (the keys are partitioned by it). *)
Fixpoint partition_point (pred : N -> bool) (keys : list N) : nat :=
  match keys with
  | [] => 0
  | k :: rest => if pred k then S (partition_point pred rest) else 0
  end%nat.

(** [None] is a panic: [sorted_keys[end_idx - 1]] with [end_idx = 0]. *)
Definition execute_from_sorted_keys (sorted_keys : list N) (direction : SortDirection) (limit : N)
    (cursor : option CursorPosition) (total_matched : N) : option QueryResult :=
  let limit := N.to_nat (N.min limit (max_page_size ex)) in
  let start_idx :=
    match cursor with
    | Some cursor =>
        let cursor_key := N.lor (wrap64 (N.shiftl (cp_sort_value cursor) 32)) (cp_slot_id cursor) in
        match direction with
        | Desc => partition_point (fun k => cursor_key <=? k) sorted_keys
        | Asc => partition_point (fun k => k <=? cursor_key) sorted_keys
        end
    | None => 0%nat
    end in
  let end_idx := Nat.min (start_idx + limit) (length sorted_keys) in
  let ids := (fun key => N.land key 0xFFFFFFFF) <$> take (end_idx - start_idx) (drop start_idx sorted_keys) in
  if (end_idx <? length sorted_keys)%nat then
    match end_idx with
    | O => None
    | S last_idx =>
        match sorted_keys !! last_idx with
        | None => None
        | Some last_key =>
            Some (MkQueryResult ids
              (Some (MkCursorPosition (N.shiftr last_key 32) (N.land last_key 0xFFFFFFFF))) total_matched)
        end
    end
  else Some (MkQueryResult ids None total_matched).

End pagination.
