(* ===== verification/ExecutorFacts.v ===== *)
(** * The query executor: semantics and lemmas

    [matches ex c x] is the meaning of a filter clause for one slot; the lemmas
    relate the bitmaps the executor computes to it. *)

From S2P Require Import Prelude Roaring Versioned Slot Config Sort Filter FilterFacts Float64 Bytes.
From S2P Require Import BucketDiffLog TimeBuckets Query Dictionary Planner Executor.
Local Open Scope bitdex_scope.

Section semantics.
Context {B : Type} `{!RoaringOps B}.
Context (to_lowercase : string -> string).
Context (ex : QueryExecutor B).
Implicit Types (c : FilterClause B) (x : N).

(** Slot [x] holds the given value in the given field. *)
Definition holds_value (field : string) (value : Value) x : Prop :=
  exists ff key, ex_filters ex !! field = Some ff
    /\ resolve_value_key to_lowercase ex field value = Some key /\ has ff key x.

Definition is_null (field : string) x : Prop :=
  exists ff, ex_filters ex !! field = Some ff /\ has ff NULL_BITMAP_KEY x.

(** The pseudo-field "id" addresses the slot itself, through [as u32]. *)
Definition matches_eq (field : string) (value : Value) x : Prop :=
  if bool_decide (field = "id"%string)
  then x ∈ alive ex /\ exists v, value = Integer v /\ x = i64_as_u32 v
  else holds_value field value x.

Definition matches_in (field : string) (values : list Value) x : Prop :=
  exists v, v ∈ values /\ matches_eq field v x.

Definition matches_range (field : string) (value : Value) (predicate : N -> N -> bool) x : Prop :=
  exists ff target key, ex_filters ex !! field = Some ff
    /\ value_to_bitmap_key value = Some target /\ key <> NULL_BITMAP_KEY
    /\ predicate key target = true /\ has ff key x.

Definition matches_lower (field : string) (value : Value) (predicate : N -> N -> bool) x : Prop :=
  match bucket_threshold ex field value with
  | Some (tb, threshold) =>
      match snapped_bucket ex tb threshold with
      | Some bucket => x ∈ bucket
      | None => matches_range field value predicate x
      end
  | None => matches_range field value predicate x
  end.

Definition matches_upper (field : string) (value : Value) (predicate : N -> N -> bool) x : Prop :=
  match bucket_threshold ex field value with
  | Some (tb, threshold) =>
      if now_unix ex <=? threshold then x ∈ alive ex
      else match snapped_bucket ex tb threshold with
           | Some bucket => x ∈ alive ex /\ x ∉ bucket
           | None => matches_range field value predicate x
           end
  | None => matches_range field value predicate x
  end.

Fixpoint matches c x : Prop :=
  match c with
  | Eq field value => matches_eq field value x
  | NotEq field value => x ∈ alive ex /\ ~ matches_eq field value x /\ ~ is_null field x
  | In field values => matches_in field values x
  | NotIn field values => x ∈ alive ex /\ ~ matches_in field values x /\ ~ is_null field x
  | Not inner => x ∈ alive ex /\ ~ matches inner x
  | And clauses => clauses <> [] /\ foldr and True (map (fun c => matches c x) clauses)
  | Or clauses => foldr or False (map (fun c => matches c x) clauses)
  | Gt field value => matches_lower field value (fun k t => t <? k) x
  | Gte field value => matches_lower field value (fun k t => t <=? k) x
  | Lt field value => matches_upper field value (fun k t => k <? t) x
  | Lte field value => matches_upper field value (fun k t => k <=? t) x
  | BucketBitmap _ _ bitmap => x ∈ bitmap
  | IsNull field => is_null field x
  | IsNotNull field => x ∈ alive ex /\ ~ is_null field x
  end.

(** Clauses the executor accepts: known fields, integer ids, scannable ranges. *)
Definition known (field : string) : bool := bool_decide (is_Some (ex_filters ex !! field)).

Definition scannable (field : string) (value : Value) : bool :=
  match ex_filters ex !! field with
  | None => false
  | Some ff =>
      match max_range_scan_values (FilterField.config ff) with
      | Some cap => negb (cap <? N.of_nat (FilterField.loaded_value_count ff))
      | None => true
      end && bool_decide (is_Some (value_to_bitmap_key value))
  end.

Definition valid_lower (field : string) (value : Value) : bool :=
  match bucket_threshold ex field value with
  | Some (tb, threshold) => bool_decide (is_Some (snapped_bucket ex tb threshold)) || scannable field value
  | None => scannable field value
  end.

Definition valid_upper (field : string) (value : Value) : bool :=
  match bucket_threshold ex field value with
  | Some (tb, threshold) => (now_unix ex <=? threshold)
      || bool_decide (is_Some (snapped_bucket ex tb threshold)) || scannable field value
  | None => scannable field value
  end.

Definition valid_eq (field : string) (value : Value) : bool :=
  if bool_decide (field = "id"%string) then match value with Integer _ => true | _ => false end
  else known field.

Fixpoint valid_clause c : bool :=
  match c with
  | Eq field value | NotEq field value => valid_eq field value
  | In field _ | NotIn field _ => bool_decide (field = "id"%string) || known field
  | Gt field value | Gte field value => valid_lower field value
  | Lt field value | Lte field value => valid_upper field value
  | Not inner => valid_clause inner
  | And clauses | Or clauses => forallb valid_clause clauses
  | IsNull field | IsNotNull field => known field
  | BucketBitmap _ _ _ => true
  end.

Definition fields_wf : Prop :=
  forall field ff, ex_filters ex !! field = Some ff -> bitmaps_wf (FilterField.bitmaps ff).

End semantics.

Section evaluation.
Context {B : Type} `{HB : Roaring B}.
Context (to_lowercase : string -> string).
Context (ex : QueryExecutor B).
Context (Hwf : fields_wf ex).
Implicit Types (c : FilterClause B) (x : N).

Notation resolve := (resolve_value_key to_lowercase ex).
Notation sem := (matches to_lowercase ex).

Lemma elem_of_fused_opt ff field key x :
  ex_filters ex !! field = Some ff ->
  x ∈ or_default (VersionedBitmap.fused <$> FilterField.get_versioned ff key) <-> has ff key x.
Proof.
  intros Hff. unfold or_default, FilterField.get_versioned, has.
  destruct (FilterField.bitmaps ff !! key) as [vb|] eqn:E; simpl.
  - rewrite elem_of_fused by (by eapply Hwf). naive_solver.
  - pose proof (rb_elem_of_new (B := B) x). naive_solver.
Qed.

(** A value's fused bitmap, when it exists, holds exactly its slots. *)
Lemma fused_value_spec ff field value x :
  ex_filters ex !! field = Some ff ->
  match fused_value to_lowercase ex ff field value with
  | Some b => x ∈ b <-> holds_value to_lowercase ex field value x
  | None => ~ holds_value to_lowercase ex field value x
  end.
Proof.
  intros Hff. unfold fused_value, holds_value. rewrite Hff.
  destruct (resolve field value) as [key|]; [|naive_solver].
  pose proof (elem_of_fused_opt ff field key x Hff) as H. revert H.
  unfold FilterField.get_versioned, or_default.
  destruct (FilterField.bitmaps ff !! key) as [vb|] eqn:E; simpl; rewrite ?fused_cow_fused.
  - intros ->. naive_solver.
  - intros _. unfold has. naive_solver.
Qed.

Lemma id_bitmap_elem (v : Z) x :
  x ∈ (if rb_contains (alive ex) (i64_as_u32 v) then rb_insert rb_new (i64_as_u32 v) else rb_new)
  <-> x ∈ alive ex /\ x = i64_as_u32 v.
Proof.
  pose proof (rb_elem_of_new (B := B) x).
  destruct (rb_contains (alive ex) (i64_as_u32 v)) eqn:E.
  - apply rb_contains_true in E. rewrite rb_elem_of_insert. naive_solver.
  - apply rb_contains_false in E. naive_solver.
Qed.

Lemma evaluate_eq_ok field value :
  valid_eq ex field value = true ->
  exists b, evaluate_eq to_lowercase ex field value = Ok b
    /\ forall x, x ∈ b <-> matches_eq to_lowercase ex field value x.
Proof.
  unfold valid_eq, evaluate_eq, matches_eq, known. case_bool_decide as Hid.
  - destruct value; try done. intros _. eexists. split; [done|]. intros x.
    rewrite id_bitmap_elem. naive_solver.
  - intros [ff Hff]%bool_decide_eq_true. unfold holds_value. rewrite Hff.
    destruct (resolve field value) as [key|]; eexists; (split; [done|]); intros x.
    + rewrite (elem_of_fused_opt ff field key x Hff). naive_solver.
    + pose proof (rb_elem_of_new (B := B) x). naive_solver.
Qed.

Lemma id_multi_elem (values : list Value) x : forall acc : B,
  x ∈ foldl (fun bm v => match v with
      | Integer id => let slot := i64_as_u32 id in if rb_contains (alive ex) slot then rb_insert bm slot else bm
      | _ => bm end) acc values
  <-> x ∈ acc \/ (x ∈ alive ex /\ exists v, Integer v ∈ values /\ x = i64_as_u32 v).
Proof.
  induction values as [|v values IH]; intros acc; simpl.
  { setoid_rewrite elem_of_nil. naive_solver. }
  rewrite IH. setoid_rewrite elem_of_cons. destruct v as [z| | |]; try naive_solver.
  destruct (rb_contains (alive ex) (i64_as_u32 z)) eqn:E.
  - apply rb_contains_true in E. rewrite rb_elem_of_insert. naive_solver.
  - apply rb_contains_false in E. naive_solver.
Qed.

Lemma union_keys_elem (ff : FilterField.t B) field (keys : list N) x :
  ex_filters ex !! field = Some ff -> forall acc : B,
  x ∈ foldl (fun result key => match FilterField.get_versioned ff key with
      | Some vb => rb_or result (VersionedBitmap.fused_cow vb) | None => result end) acc keys
  <-> x ∈ acc \/ exists key, key ∈ keys /\ has ff key x.
Proof.
  intros Hff. induction keys as [|key keys IH]; intros acc; simpl.
  { setoid_rewrite elem_of_nil. naive_solver. }
  rewrite IH. setoid_rewrite elem_of_cons. unfold FilterField.get_versioned.
  destruct (FilterField.bitmaps ff !! key) as [vb|] eqn:E.
  - rewrite rb_elem_of_or, fused_cow_fused, elem_of_fused by (by eapply Hwf).
    pose proof (has_lookup ff key x vb E). naive_solver.
  - pose proof (has_None ff key x E). naive_solver.
Qed.

Lemma evaluate_in_ok field values :
  bool_decide (field = "id"%string) || known ex field = true ->
  exists b, evaluate_in to_lowercase ex field values = Ok b
    /\ forall x, x ∈ b <-> matches_in to_lowercase ex field values x.
Proof.
  unfold evaluate_in, matches_in, matches_eq, known. case_bool_decide as Hid; simpl.
  - intros _. eexists. split; [done|]. intros x. rewrite id_multi_elem.
    pose proof (rb_elem_of_new (B := B) x). naive_solver.
  - intros [ff Hff]%bool_decide_eq_true. rewrite Hff. eexists. split; [done|]. intros x.
    rewrite (union_keys_elem ff field _ x Hff). setoid_rewrite list_elem_of_omap. unfold holds_value.
    pose proof (rb_elem_of_new (B := B) x). rewrite Hff. naive_solver.
Qed.

Lemma sub_null_elem field (b : B) x :
  x ∈ sub_null ex field b <-> x ∈ b /\ ~ is_null ex field x.
Proof.
  unfold sub_null, is_null, null_value, FilterField.get_versioned.
  destruct (ex_filters ex !! field) as [ff|] eqn:Hff; [|naive_solver].
  destruct (FilterField.bitmaps ff !! NULL_BITMAP_KEY) as [vb|] eqn:E; simpl.
  - rewrite rb_elem_of_sub, fused_cow_fused, elem_of_fused by (by eapply Hwf).
    pose proof (has_lookup ff NULL_BITMAP_KEY x vb E). naive_solver.
  - pose proof (has_None ff NULL_BITMAP_KEY x E). naive_solver.
Qed.

Lemma range_fold_elem (ff : FilterField.t B) field (predicate : N -> N -> bool) target x :
  ex_filters ex !! field = Some ff ->
  x ∈ map_fold (fun key vb result =>
      if key =? NULL_BITMAP_KEY then result
      else if predicate key target then
        if VersionedBitmap.is_dirty vb then rb_or result (VersionedBitmap.fused vb)
        else rb_or result (VersionedBitmap.base vb)
      else result) (rb_new : B) (FilterField.bitmaps ff)
  <-> exists key, key <> NULL_BITMAP_KEY /\ predicate key target = true /\ has ff key x.
Proof.
  intros Hff. pose proof (Hwf _ _ Hff) as Hw0. unfold has. revert Hw0.
  pose (sel key := key <> NULL_BITMAP_KEY /\ predicate key target = true).
  enough (forall m, bitmaps_wf m -> x ∈ map_fold (fun key vb result =>
      if key =? NULL_BITMAP_KEY then result
      else if predicate key target then
        if VersionedBitmap.is_dirty vb then rb_or result (VersionedBitmap.fused vb)
        else rb_or result (VersionedBitmap.base vb)
      else result) (rb_new : B) m
    <-> exists key vb, m !! key = Some vb /\ sel key /\ x ∈ vb) as H.
  { intros Hw0. rewrite (H _ Hw0). unfold sel. naive_solver. }
  apply (map_fold_weak_ind (fun r m => bitmaps_wf m -> x ∈ r <->
    exists key vb, m !! key = Some vb /\ sel key /\ x ∈ vb)).
  - intros _. pose proof (rb_elem_of_new (B := B) x). setoid_rewrite lookup_empty. naive_solver.
  - intros key vb m r Hk IH Hw.
    assert (bitmaps_wf m) as Hm.
    { intros k vb' Hk'. apply (Hw k). by rewrite lookup_insert_ne by congruence. }
    assert (VersionedBitmap.wf vb) as Hvb by (apply (Hw key), lookup_insert_eq).
    assert ((exists k vb', <[key := vb]> m !! k = Some vb' /\ sel k /\ x ∈ vb')
      <-> (sel key /\ x ∈ vb) \/ x ∈ r) as ->.
    { rewrite (IH Hm). setoid_rewrite lookup_insert_Some. split.
      - intros (k & vb' & [[<- <-]|[_ Hv]] & HP & Hx); [by left|right; eauto].
      - intros [[HP Hx]|(k & vb' & Hv & HP & Hx)]; [eauto 10|].
        exists k, vb'. split; [|done]. right. split; [congruence|done]. }
    unfold sel. destruct (N.eqb_spec key NULL_BITMAP_KEY) as [->|Hne]; [tauto|].
    destruct (predicate key target) eqn:Ep; [|naive_solver congruence].
    destruct (VersionedBitmap.is_dirty vb) eqn:Ed; rewrite rb_elem_of_or.
    + rewrite elem_of_fused by done. tauto.
    + rewrite <- (not_dirty_base vb x Ed). tauto.
Qed.

Lemma range_scan_ok field value predicate :
  scannable ex field value = true ->
  exists b, range_scan ex field value predicate = Ok b
    /\ forall x, x ∈ b <-> matches_range ex field value predicate x.
Proof.
  unfold scannable, range_scan, matches_range.
  destruct (ex_filters ex !! field) as [ff|] eqn:Hff; [|done].
  intros [Hcap [target Ht]%bool_decide_eq_true]%andb_true_iff.
  assert (match max_range_scan_values (FilterField.config ff) with
    | Some cap => cap <? N.of_nat (FilterField.loaded_value_count ff) | None => false end = false) as ->.
  { destruct (max_range_scan_values _); [by apply negb_true_iff|done]. }
  rewrite Ht. eexists. split; [done|]. intros x.
  rewrite (range_fold_elem ff field predicate target x Hff). naive_solver.
Qed.

Lemma evaluate_lower_ok field value predicate :
  valid_lower ex field value = true ->
  exists b, evaluate_lower ex field value predicate = Ok b
    /\ forall x, x ∈ b <-> matches_lower ex field value predicate x.
Proof.
  unfold valid_lower, evaluate_lower, matches_lower.
  destruct (bucket_threshold ex field value) as [[tb th]|]; [|by apply range_scan_ok].
  destruct (snapped_bucket ex tb th) as [bucket|]; simpl; [|by apply range_scan_ok].
  intros _. by eexists.
Qed.

Lemma evaluate_upper_ok field value predicate :
  valid_upper ex field value = true ->
  exists b, evaluate_upper ex field value predicate = Ok b
    /\ forall x, x ∈ b <-> matches_upper ex field value predicate x.
Proof.
  unfold valid_upper, evaluate_upper, matches_upper.
  destruct (bucket_threshold ex field value) as [[tb th]|]; [|by apply range_scan_ok].
  destruct (now_unix ex <=? th); simpl; [intros _; by eexists|].
  destruct (snapped_bucket ex tb th) as [bucket|]; simpl; [|by apply range_scan_ok].
  intros _. eexists. split; [done|]. intros x. apply rb_elem_of_sub.
Qed.

(** *** Conjunction and disjunction *)

(** [r] is the bitmap of clause [c]. *)
Definition evaluates (r : result B) c : Prop :=
  exists b, r = Ok b /\ forall x, x ∈ b <-> sem c x.

Lemma foldr_and_Forall (P : FilterClause B -> Prop) cs : foldr and True (map P cs) <-> Forall P cs.
Proof. induction cs as [|c cs IH]; simpl; [split; auto|]. by rewrite IH, Forall_cons. Qed.

Lemma foldr_or_Exists (P : FilterClause B -> Prop) cs : foldr or False (map P cs) <-> Exists P cs.
Proof. induction cs as [|c cs IH]; simpl; [rewrite Exists_nil; done|]. by rewrite IH, Exists_cons. Qed.

Lemma sem_And cs x : sem (And cs) x <-> cs <> [] /\ Forall (fun c => sem c x) cs.
Proof. simpl. by rewrite (foldr_and_Forall (fun c => sem c x)). Qed.

Lemma sem_Or cs x : sem (Or cs) x <-> Exists (fun c => sem c x) cs.
Proof. simpl. apply (foldr_or_Exists (fun c => sem c x)). Qed.

Lemma and_results_ok (rs : list (result B)) (cs : list (FilterClause B)) : forall acc,
  Forall2 evaluates rs cs ->
  exists r, and_results acc rs = Ok r
  /\ (r = None <-> acc = None /\ cs = [])
  /\ forall b, r = Some b -> forall x, x ∈ b <->
       match acc with Some a => x ∈ a | None => True end /\ Forall (fun c => sem c x) cs.
Proof.
  intros acc H. revert acc. induction H as [|r c rs cs (b & -> & Hb) Hrest IH]; intros acc; cbn [and_results].
  - exists acc. split; [done|]. split; [tauto|]. intros b -> x. split; [|tauto]. by split.
  - destruct (IH (Some match acc with Some existing => rb_and existing b | None => b end))
      as (r & -> & Hn & Hr). exists r. split; [done|]. split.
    + rewrite Hn. split; [by intros [? _]|by intros [_ ?]].
    + intros b' -> x. rewrite (Hr b' eq_refl x), Forall_cons, <- Hb.
      destruct acc; [rewrite rb_elem_of_and|]; tauto.
Qed.

Lemma fused_values_elem (ff : FilterField.t B) field (values : list Value) x (g : B -> B) (P : Prop) :
  ex_filters ex !! field = Some ff -> (forall b, x ∈ g b <-> P /\ x ∈ b) -> forall acc : B,
  x ∈ foldl (fun result v => match fused_value to_lowercase ex ff field v with
      | Some b => rb_or result (g b) | None => result end) acc values
  <-> x ∈ acc \/ (P /\ exists v, v ∈ values /\ holds_value to_lowercase ex field v x).
Proof.
  intros Hff Hg. induction values as [|v values IH]; intros acc; simpl.
  { setoid_rewrite elem_of_nil. naive_solver. }
  rewrite IH. setoid_rewrite elem_of_cons. pose proof (fused_value_spec ff field v x Hff) as Hv.
  destruct (fused_value to_lowercase ex ff field v) as [b|]; [rewrite rb_elem_of_or, Hg|]; naive_solver.
Qed.

Lemma or_round_ok (acc : B) c r :
  evaluates r c ->
  exists b, or_round to_lowercase ex acc c r = Ok b /\ forall x, x ∈ b <-> x ∈ acc \/ sem c x.
Proof.
  intros (b & -> & Hb).
  assert (exists b', (let? bitmap := Ok b in Ok (rb_or acc bitmap)) = Ok b'
    /\ forall x, x ∈ b' <-> x ∈ acc \/ sem c x) as Hfall.
  { eexists. split; [done|]. intros x. by rewrite rb_elem_of_or, Hb. }
  destruct c as [field value| |field values| | | | | | | | | | |]; try exact Hfall; unfold or_round.
  - case_bool_decide as Hid; [exact Hfall|].
    destruct (ex_filters ex !! field) as [ff|] eqn:Hff; [|exact Hfall].
    eexists. split; [done|]. intros x. simpl. unfold matches_eq. rewrite bool_decide_false by done.
    pose proof (fused_value_spec ff field value x Hff) as Hv.
    destruct (fused_value to_lowercase ex ff field value); [rewrite rb_elem_of_or|]; naive_solver.
  - case_bool_decide as Hid; [exact Hfall|].
    destruct (ex_filters ex !! field) as [ff|] eqn:Hff; [|exact Hfall].
    eexists. split; [done|]. intros x.
    rewrite (fused_values_elem ff field values x (fun b => b) True Hff) by (intros; tauto).
    simpl. unfold matches_in, matches_eq. rewrite bool_decide_false by done. tauto.
Qed.

Lemma or_results_ok (crs : list (FilterClause B * result B)) : forall acc : B,
  Forall (fun cr => evaluates cr.2 cr.1) crs ->
  exists b, or_results to_lowercase ex acc crs = Ok b
    /\ forall x, x ∈ b <-> x ∈ acc \/ Exists (fun c => sem c x) (fst <$> crs).
Proof.
  induction crs as [|[c r] crs IH]; intros acc Hall; cbn [or_results].
  { exists acc. split; [done|]. intros x. simpl. rewrite Exists_nil. tauto. }
  apply Forall_cons in Hall as [Hc Hrest]. simpl in Hc.
  destruct (or_round_ok acc c r Hc) as (b & -> & Hb). simpl.
  destruct (IH b Hrest) as (b' & -> & Hb'). exists b'. split; [done|].
  intros x. rewrite Hb', Hb, Exists_cons. tauto.
Qed.

(** The [And] arm evaluates the clauses in the planner's order. *)
Lemma evaluate_clause_And cs :
  evaluate_clause to_lowercase ex (And cs) =
  (let? b := and_results None (evaluate_clause to_lowercase ex <$>
     optimize_and_clause to_lowercase (ex_filters ex) cs (SlotAllocator.alive_count (ex_slots ex))) in
   Ok (or_default b)).
Proof.
  cbn [evaluate_clause]. rewrite optimize_and_clause_sort.
  set (key c := estimate_cardinality to_lowercase (ex_filters ex) c (SlotAllocator.alive_count (ex_slots ex)) None).
  change (map _ cs) with ((fun c => (evaluate_clause to_lowercase ex c, key c)) <$> cs).
  rewrite (stable_sort_tagged (evaluate_clause to_lowercase ex) key).
  by rewrite <- list_fmap_compose.
Qed.

Lemma evaluate_And_ok cs :
  Forall (fun c => evaluates (evaluate_clause to_lowercase ex c) c) cs ->
  evaluates (evaluate_clause to_lowercase ex (And cs)) (And cs).
Proof.
  intros Hcs. rewrite evaluate_clause_And.
  set (cs' := optimize_and_clause _ _ _ _).
  assert (cs' ≡ₚ cs) as Hperm.
  { unfold cs'. rewrite optimize_and_clause_sort. apply stable_sort_perm. }
  assert (Forall2 evaluates (evaluate_clause to_lowercase ex <$> cs') cs') as Hall.
  { apply Forall2_fmap_l, Forall_Forall2_diag. by rewrite Hperm. }
  destruct (and_results_ok _ _ None Hall) as (r & -> & Hn & Hr). simpl.
  assert (cs' = [] <-> cs = []) as Hnil.
  { split; intros E; rewrite E in Hperm;
      [by apply Permutation_nil_l in Hperm|by apply Permutation_nil_r in Hperm]. }
  eexists. split; [done|]. intros x. rewrite sem_And.
  assert (Forall (fun c => sem c x) cs <-> Forall (fun c => sem c x) cs') as -> by (by rewrite Hperm).
  destruct r as [b|]; simpl.
  - rewrite (Hr b eq_refl x). split; [|tauto]. intros [_ Hf]. split; [|done].
    intros E. apply Hnil in E. naive_solver.
  - destruct Hn as [Hn _]. destruct (Hn eq_refl) as [_ E].
    apply Hnil in E. pose proof (rb_elem_of_new (B := B) x). naive_solver.
Qed.

Lemma evaluate_Or_ok cs :
  Forall (fun c => evaluates (evaluate_clause to_lowercase ex c) c) cs ->
  evaluates (evaluate_clause to_lowercase ex (Or cs)) (Or cs).
Proof.
  intros Hcs. cbn [evaluate_clause].
  set (crs := map (fun c => (c, evaluate_clause to_lowercase ex c)) cs).
  assert (Forall (fun cr => evaluates cr.2 cr.1) crs) as Hall.
  { unfold crs. induction Hcs; simpl; constructor; auto. }
  destruct (or_results_ok crs rb_new Hall) as (b & -> & Hb). exists b. split; [done|].
  intros x. rewrite Hb, sem_Or. replace (fst <$> crs) with cs.
  - pose proof (rb_elem_of_new (B := B) x). tauto.
  - unfold crs. clear. induction cs as [|c cs IH]; simpl; [done|]. f_equal. apply IH.
Qed.

Lemma evaluate_clause_ok c : valid_clause ex c = true -> evaluates (evaluate_clause to_lowercase ex c) c.
Proof.
  assert (forall cs, Forall (fun c => valid_clause ex c = true -> evaluates (evaluate_clause to_lowercase ex c) c) cs ->
    forallb (valid_clause ex) cs = true -> Forall (fun c => evaluates (evaluate_clause to_lowercase ex c) c) cs) as Hl.
  { induction 1 as [|c1 cs Hc Hcs IH]; simpl; [by constructor|].
    intros [H1 H2]%andb_true_iff. constructor; auto. }
  induction c as [f v|f v|f vs|f vs|f v|f v|f v|f v|c IH|cs IH|cs IH|f|f|f n b]
    using FilterClause_nested_ind; intros Hv; simpl in Hv.
  - by apply evaluate_eq_ok.
  - destruct (evaluate_eq_ok f v Hv) as (b & Hb & He). unfold evaluates. cbn [evaluate_clause]. rewrite Hb.
    eexists. split; [done|]. intros x. rewrite sub_null_elem, rb_elem_of_sub, He. simpl. tauto.
  - by apply evaluate_in_ok.
  - destruct (evaluate_in_ok f vs Hv) as (b & Hb & He). unfold evaluates. cbn [evaluate_clause]. rewrite Hb.
    eexists. split; [done|]. intros x. rewrite sub_null_elem, rb_elem_of_sub, He. simpl. tauto.
  - by apply evaluate_lower_ok.
  - by apply evaluate_upper_ok.
  - by apply evaluate_lower_ok.
  - by apply evaluate_upper_ok.
  - destruct (IH Hv) as (b & Hb & He). unfold evaluates. cbn [evaluate_clause]. rewrite Hb.
    eexists. split; [done|]. intros x. rewrite rb_elem_of_sub, He. done.
  - apply evaluate_And_ok. by apply Hl.
  - apply evaluate_Or_ok. by apply Hl.
  - unfold known in Hv. apply bool_decide_eq_true in Hv as [ff Hff]. unfold evaluates.
    cbn [evaluate_clause matches]. unfold is_null. rewrite Hff. eexists. split; [done|]. intros x.
    rewrite (elem_of_fused_opt ff f NULL_BITMAP_KEY x Hff). naive_solver.
  - unfold known in Hv. apply bool_decide_eq_true in Hv as [ff Hff]. unfold evaluates.
    cbn [evaluate_clause matches]. unfold is_null. rewrite Hff. eexists. split; [done|]. intros x.
    rewrite rb_elem_of_sub, (elem_of_fused_opt ff f NULL_BITMAP_KEY x Hff). naive_solver.
  - unfold evaluates. by exists b.
Qed.

End evaluation.

(** ** The shortcuts on the accumulator *)

Section accumulate.
Context {B : Type} `{HB : Roaring B}.
Context (to_lowercase : string -> string).
Context (ex : QueryExecutor B).
Implicit Types (c : FilterClause B) (x : N).

Notation sem := (matches to_lowercase ex).

(** What the index maintains: consistent bitmaps, no filter field named "id", and
    no stale bits of dead slots in filter bitmaps and time buckets ("filter
    bitmaps are kept clean"). *)
Record index_ok : Prop := {
  ok_wf : fields_wf ex;
  ok_id : ex_filters ex !! "id"%string = None;
  ok_clean : forall field ff v x, ex_filters ex !! field = Some ff -> has ff v x -> x ∈ alive ex;
  ok_buckets : forall tb th b x, time_buckets ex = Some tb -> snapped_bucket ex tb th = Some b ->
    x ∈ b -> x ∈ alive ex;
}.

(** The pre-computed bucket bitmaps of a clause hold no dead slots. *)
Fixpoint clause_clean c : Prop :=
  match c with
  | BucketBitmap _ _ bitmap => forall x, x ∈ bitmap -> x ∈ alive ex
  | And clauses | Or clauses => foldr and True (map clause_clean clauses)
  | _ => True
  end.

(** No empty conjunction where the accumulator shortcuts would meet one. *)
Fixpoint no_empty_and c : bool :=
  match c with
  | And clauses => negb (bool_decide (length clauses = 0%nat)) && forallb no_empty_and clauses
  | Or clauses => forallb no_empty_and clauses
  | _ => true
  end.

(** Where a shortcut and the full evaluation agree: a negated equality needs a
    field without nulls, a negation no empty conjunction. *)
Definition shortcut_safe c : Prop :=
  match c with
  | NotEq field _ | NotIn field _ => forall x, ~ is_null ex field x
  | Not inner => no_empty_and inner = true
  | _ => True
  end.

Context (Hok : index_ok).

Lemma matches_eq_alive field value x : matches_eq to_lowercase ex field value x -> x ∈ alive ex.
Proof.
  unfold matches_eq. case_bool_decide; [tauto|].
  intros (ff & key & Hff & _ & Hx). by eapply (ok_clean Hok).
Qed.

Lemma matches_range_alive field value p x : matches_range ex field value p x -> x ∈ alive ex.
Proof. intros (ff & t & key & Hff & _ & _ & _ & Hx). by eapply (ok_clean Hok). Qed.

Lemma bucket_threshold_tb field value tb th :
  bucket_threshold ex field value = Some (tb, th) -> time_buckets ex = Some tb.
Proof.
  unfold bucket_threshold. destruct (time_buckets ex) as [tb'|]; simpl; [|done].
  case_bool_decide; [|done]. destruct (value_to_bitmap_key value); simpl; [|done]. by intros [= <- _].
Qed.

Lemma matches_lower_alive field value p x : matches_lower ex field value p x -> x ∈ alive ex.
Proof.
  unfold matches_lower. destruct (bucket_threshold ex field value) as [[tb th]|] eqn:E.
  - destruct (snapped_bucket ex tb th) as [b|] eqn:Eb; [|apply matches_range_alive].
    apply (ok_buckets Hok tb th); [by eapply bucket_threshold_tb|done].
  - apply matches_range_alive.
Qed.

Lemma matches_upper_alive field value p x : matches_upper ex field value p x -> x ∈ alive ex.
Proof.
  unfold matches_upper. destruct (bucket_threshold ex field value) as [[tb th]|] eqn:E.
  - destruct (now_unix ex <=? th); [done|].
    destruct (snapped_bucket ex tb th); [tauto|apply matches_range_alive].
  - apply matches_range_alive.
Qed.

(** Only live slots match. *)
Lemma matches_alive c x : clause_clean c -> sem c x -> x ∈ alive ex.
Proof.
  induction c as [f v|f v|f vs|f vs|f v|f v|f v|f v|c IH|cs IH|cs IH|f|f|f n b]
    using FilterClause_nested_ind; intros Hc; try (simpl; tauto).
  - apply matches_eq_alive.
  - intros (v & _ & Hv). by eapply matches_eq_alive.
  - apply matches_lower_alive.
  - apply matches_upper_alive.
  - apply matches_lower_alive.
  - apply matches_upper_alive.
  - rewrite sem_And. intros [Hne Hall]. destruct cs as [|c cs]; [done|].
    inversion_clear IH as [|?? H1 _]. inversion_clear Hall as [|?? H2 _].
    simpl in Hc. apply H1; tauto.
  - rewrite sem_Or. simpl in Hc. intros Hex. induction cs as [|c cs IHcs]; [by apply Exists_nil in Hex|].
    inversion_clear IH as [|?? H1 H2]. simpl in Hc. apply Exists_cons in Hex as [Hx|Hx]; [apply H1; tauto|].
    apply IHcs; tauto.
  - intros (ff & Hff & Hx). by eapply (ok_clean Hok).
  - simpl in *. auto.
Qed.

(** *** Evaluation against candidates *)

(** [r] is the set of candidates that match [c]. *)
Definition narrows (r : result B) (cands : B) c : Prop :=
  exists b, r = Ok b /\ forall x, x ∈ b <-> x ∈ cands /\ sem c x.

Lemma narrow_full c cands :
  valid_clause ex c = true ->
  narrows (let? full := evaluate_clause to_lowercase ex c in Ok (rb_and cands full)) cands c.
Proof.
  intros Hv. destruct (evaluate_clause_ok to_lowercase ex (ok_wf Hok) c Hv) as (b & -> & Hb).
  eexists. split; [done|]. intros x. by rewrite rb_elem_of_and, Hb.
Qed.

Lemma elem_of_union_values ff field values cands x :
  ex_filters ex !! field = Some ff ->
  x ∈ union_values to_lowercase ex ff field values cands <->
  x ∈ cands /\ exists v, v ∈ values /\ holds_value to_lowercase ex field v x.
Proof.
  intros Hff. unfold union_values.
  rewrite (fused_values_elem to_lowercase ex (ok_wf Hok) ff field values x (rb_and cands) (x ∈ cands) Hff)
    by (intros; apply rb_elem_of_and).
  pose proof (rb_elem_of_new (B := B) x). tauto.
Qed.

Lemma not_id field ff : ex_filters ex !! field = Some ff -> bool_decide (field = "id"%string) = false.
Proof. intros H. apply bool_decide_eq_false. intros ->. rewrite (ok_id Hok) in H. done. Qed.

(** The conjunction loop: it stops early on an empty result. *)
Lemma narrow_And cs : forall cands,
  Forall (fun c => forall cands, narrows (evaluate_clause_with_candidates to_lowercase ex c cands) cands c) cs ->
  exists b, (fix go (cs : list (FilterClause B)) (result : B) : Prelude.result B :=
      match cs with
      | [] => Ok result
      | c :: cs' =>
          let? result := evaluate_clause_with_candidates to_lowercase ex c result in
          if rb_is_empty result then Ok result else go cs' result
      end) cs cands = Ok b
    /\ forall x, x ∈ b <-> x ∈ cands /\ Forall (fun c => sem c x) cs.
Proof.
  induction cs as [|c cs IH]; intros cands Hall.
  { exists cands. split; [done|]. intros x. rewrite Forall_nil. tauto. }
  inversion_clear Hall as [|?? Hc Hcs]. destruct (Hc cands) as (b & -> & Hb). simpl.
  destruct (rb_is_empty b) eqn:E.
  - exists b. split; [done|]. intros x. rewrite rb_is_empty_spec in E. specialize (E x).
    rewrite Hb in E. rewrite Hb, Forall_cons. tauto.
  - destruct (IH b Hcs) as (b' & -> & Hb'). exists b'. split; [done|].
    intros x. rewrite Hb', Hb, Forall_cons. tauto.
Qed.

Lemma narrow_Or cs cands : forall acc : B,
  Forall (fun c => forall cands, narrows (evaluate_clause_with_candidates to_lowercase ex c cands) cands c) cs ->
  exists b, (fix go (cs : list (FilterClause B)) (result : B) : Prelude.result B :=
      match cs with
      | [] => Ok result
      | c :: cs' =>
          let? hits := evaluate_clause_with_candidates to_lowercase ex c cands in
          go cs' (rb_or result hits)
      end) cs acc = Ok b
    /\ forall x, x ∈ b <-> x ∈ acc \/ (x ∈ cands /\ Exists (fun c => sem c x) cs).
Proof.
  induction cs as [|c cs IH]; intros acc Hall.
  { exists acc. split; [done|]. intros x. rewrite Exists_nil. tauto. }
  inversion_clear Hall as [|?? Hc Hcs]. destruct (Hc cands) as (b & -> & Hb). simpl.
  destruct (IH (rb_or acc b) Hcs) as (b' & -> & Hb'). exists b'. split; [done|].
  intros x. rewrite Hb', rb_elem_of_or, Hb, Exists_cons. tauto.
Qed.

Lemma forallb_Forall_impl (p q : FilterClause B -> bool) (R : FilterClause B -> Prop) cs :
  Forall (fun c => p c = true -> q c = true -> R c) cs ->
  forallb p cs = true -> forallb q cs = true -> Forall R cs.
Proof.
  induction 1 as [|c cs Hc _ IH]; simpl; [by constructor|].
  intros [??]%andb_true_iff [??]%andb_true_iff. constructor; auto.
Qed.

Lemma evaluate_with_candidates_ok c :
  valid_clause ex c = true -> no_empty_and c = true ->
  forall cands, narrows (evaluate_clause_with_candidates to_lowercase ex c cands) cands c.
Proof.
  induction c as [f v|f v|f vs|f vs|f v|f v|f v|f v|c IH|cs IH|cs IH|f|f|f n b]
    using FilterClause_nested_ind; intros Hv Hne cands;
    try (by apply narrow_full).
  - cbn [evaluate_clause_with_candidates].
    destruct (ex_filters ex !! f) as [ff|] eqn:Hff; [|by apply (narrow_full (Eq f v))].
    eexists. split; [done|]. intros x. simpl. unfold matches_eq. rewrite (not_id f ff Hff).
    pose proof (fused_value_spec to_lowercase ex (ok_wf Hok) ff f v x Hff) as H.
    pose proof (rb_elem_of_new (B := B) x).
    destruct (fused_value to_lowercase ex ff f v); [rewrite rb_elem_of_and|]; tauto.
  - cbn [evaluate_clause_with_candidates].
    destruct (ex_filters ex !! f) as [ff|] eqn:Hff; [|by apply (narrow_full (In f vs))].
    eexists. split; [done|]. intros x. rewrite (elem_of_union_values ff f vs cands x Hff).
    simpl. unfold matches_in, matches_eq. by rewrite (not_id f ff Hff).
  - simpl in Hv, Hne. apply andb_true_iff in Hne as [Hnil Hne].
    destruct (narrow_And cs cands) as (b & Hb & He); [by eapply forallb_Forall_impl|].
    exists b. split; [done|]. intros x. rewrite He, sem_And.
    assert (cs <> []) by (by intros ->). tauto.
  - simpl in Hv, Hne.
    destruct (narrow_Or cs cands rb_new) as (b & Hb & He); [by eapply forallb_Forall_impl|].
    exists b. split; [done|]. intros x. rewrite He, sem_Or.
    pose proof (rb_elem_of_new (B := B) x). tauto.
Qed.

(** *** The shortcut and the loop *)

Lemma sub_values_elem ff field values x :
  ex_filters ex !! field = Some ff -> forall acc : B,
  x ∈ foldl (fun acc v => match fused_value to_lowercase ex ff field v with
      | Some b => rb_sub acc b | None => acc end) acc values
  <-> x ∈ acc /\ ~ exists v, v ∈ values /\ holds_value to_lowercase ex field v x.
Proof.
  intros Hff. induction values as [|v values IH]; intros acc; simpl.
  { setoid_rewrite elem_of_nil. naive_solver. }
  rewrite IH. setoid_rewrite elem_of_cons.
  pose proof (fused_value_spec to_lowercase ex (ok_wf Hok) ff field v x Hff) as Hv.
  destruct (fused_value to_lowercase ex ff field v) as [b|]; [rewrite rb_elem_of_sub|]; naive_solver.
Qed.

Lemma try_and_by_ref_ok acc c r :
  valid_clause ex c = true -> shortcut_safe c -> (forall x, x ∈ acc -> x ∈ alive ex) ->
  try_and_by_ref to_lowercase ex acc c = Some r -> narrows r acc c.
Proof.
  intros Hv Hs Ha.
  destruct c as [f v|f v|f vs|f vs|f v|f v|f v|f v|c|cs|cs|f|f|f n b]; try done; cbn [try_and_by_ref].
  - case_bool_decide as Hid; [done|]. destruct (ex_filters ex !! f) as [ff|] eqn:Hff; simpl; [|done].
    destruct (fused_value to_lowercase ex ff f v) as [b|] eqn:E; simpl; [|done]. intros [= <-].
    eexists. split; [done|]. intros x. simpl. unfold matches_eq. rewrite bool_decide_false by done.
    pose proof (fused_value_spec to_lowercase ex (ok_wf Hok) ff f v x Hff) as H. rewrite E in H.
    rewrite rb_elem_of_and. tauto.
  - case_bool_decide as Hid; [done|]. destruct (ex_filters ex !! f) as [ff|] eqn:Hff; simpl; [|done].
    destruct (fused_value to_lowercase ex ff f v) as [b|] eqn:E; simpl; [|done]. intros [= <-].
    eexists. split; [done|]. intros x. simpl. unfold matches_eq. rewrite bool_decide_false by done.
    pose proof (fused_value_spec to_lowercase ex (ok_wf Hok) ff f v x Hff) as H. rewrite E in H.
    simpl in Hs. specialize (Hs x). specialize (Ha x). rewrite rb_elem_of_sub. tauto.
  - case_bool_decide as Hid; [done|]. destruct (ex_filters ex !! f) as [ff|] eqn:Hff; simpl; [|done].
    intros [= <-]. eexists. split; [done|]. intros x. rewrite (elem_of_union_values ff f vs acc x Hff).
    simpl. unfold matches_in, matches_eq. by rewrite bool_decide_false.
  - case_bool_decide as Hid; [done|]. destruct (ex_filters ex !! f) as [ff|] eqn:Hff; simpl; [|done].
    intros [= <-]. eexists. split; [done|]. intros x. rewrite (sub_values_elem ff f vs x Hff acc).
    simpl in Hs. specialize (Hs x). specialize (Ha x).
    simpl. unfold matches_in, matches_eq. rewrite bool_decide_false by done. tauto.
  - destruct (evaluate_with_candidates_ok c Hv Hs acc) as (b & -> & Hb). intros [= <-].
    eexists. split; [done|]. intros x. specialize (Ha x). rewrite rb_elem_of_sub, Hb. simpl.
    destruct (decide (x ∈ acc)); tauto.
  - intros [= <-]. eexists. split; [done|]. intros x. apply rb_elem_of_and.
Qed.

(** A clause the accumulator loop handles exactly. *)
Definition clause_ok c : Prop := valid_clause ex c = true /\ shortcut_safe c /\ clause_clean c.

Lemma compute_loop_ok cs : forall acc,
  Forall clause_ok cs -> (forall a, acc = Some a -> forall x, x ∈ a -> x ∈ alive ex) ->
  exists r, compute_loop to_lowercase ex cs acc = Ok r
  /\ (r = None <-> acc = None /\ cs = [])
  /\ forall b, r = Some b -> forall x, x ∈ b <->
       match acc with Some a => x ∈ a | None => True end /\ Forall (fun c => sem c x) cs.
Proof.
  induction cs as [|c cs IH]; intros acc Hall Ha; cbn [compute_loop].
  { exists acc. split; [done|]. split; [tauto|]. intros b -> x. rewrite Forall_nil. tauto. }
  inversion_clear Hall as [|?? Hc Hcs]. destruct Hc as (Hv & Hs & Hcl).
  assert (forall a a', acc = Some a -> (forall x, x ∈ a' <-> x ∈ a /\ sem c x) ->
    exists r, (if rb_len a' =? 0 then Ok (Some a') else compute_loop to_lowercase ex cs (Some a')) = Ok r
    /\ (r = None <-> acc = None /\ c :: cs = [])
    /\ forall b, r = Some b -> forall x, x ∈ b <-> x ∈ a /\ Forall (fun c => sem c x) (c :: cs)) as Hnext.
  { intros a a' -> Hsem. destruct (N.eqb_spec (rb_len a') 0) as [E|E].
    - exists (Some a'). split; [done|]. split; [naive_solver|]. intros b [= <-] x.
      apply rb_len_zero with (x := x) in E. rewrite Hsem in E. rewrite Hsem, Forall_cons. tauto.
    - destruct (IH (Some a') Hcs) as (r & -> & Hn & Hr).
      { intros ? [= <-] x Hx. apply (Ha a eq_refl). by apply Hsem in Hx as [? _]. }
      exists r. split; [done|]. split; [naive_solver|]. intros b -> x.
      rewrite (Hr b eq_refl x), Hsem, Forall_cons. tauto. }
  destruct (evaluate_clause_ok to_lowercase ex (ok_wf Hok) c Hv) as (full & Hfull & Hb).
  destruct acc as [a|].
  - destruct (rb_is_empty a) eqn:E.
    { destruct (IH (Some a) Hcs Ha) as (r & -> & Hn & Hr). exists r. split; [done|].
      split; [naive_solver|]. intros b -> x. rewrite (Hr b eq_refl x), Forall_cons.
      rewrite rb_is_empty_spec in E. specialize (E x). tauto. }
    destruct (try_and_by_ref to_lowercase ex a c) as [r|] eqn:Et.
    + destruct (try_and_by_ref_ok a c r Hv Hs (Ha a eq_refl) Et) as (a' & -> & Hsem).
      by apply (Hnext a).
    + rewrite Hfull. simpl. apply (Hnext a); [done|]. intros x. by rewrite rb_elem_of_and, Hb.
  - rewrite Hfull. simpl. destruct (IH (Some full) Hcs) as (r & -> & Hn & Hr).
    { intros ? [= <-] x Hx. apply Hb in Hx. by eapply matches_alive. }
    exists r. split; [done|]. split; [naive_solver|]. intros b -> x.
    rewrite (Hr b eq_refl x), Hb, Forall_cons. tauto.
Qed.

Lemma compute_filters_ok cs :
  Forall clause_ok cs ->
  exists b, compute_filters to_lowercase ex cs = Ok b
    /\ forall x, x ∈ b <-> x ∈ alive ex /\ Forall (fun c => sem c x) cs.
Proof.
  intros Hall. unfold compute_filters. destruct cs as [|c cs].
  { exists (alive ex). split; [done|]. intros x. rewrite Forall_nil. tauto. }
  destruct (compute_loop_ok (c :: cs) None Hall) as (r & -> & Hn & Hr); [done|]. simpl.
  eexists. split; [done|]. intros x. destruct r as [b|].
  - simpl. rewrite (Hr b eq_refl x). split; [|tauto]. intros [_ Hx]. split; [|done].
    inversion_clear Hx as [|?? Hc _]. inversion_clear Hall as [|?? (_ & _ & Hcl) _]. by eapply matches_alive.
  - destruct Hn as [Hn _]. by destruct (Hn eq_refl).
Qed.

End accumulate.
