(* ===== verification/ExecutorTheorems.v ===== *)
(** * The query executor: properties

    [execute] returns exactly the page its clauses, sort and cursor denote; the
    shortcuts agree with full evaluation where the index allows it, and the
    theorems at the end pin down where they do not. *)

From S2P Require Import Prelude Roaring Versioned Slot Config Sort SortFacts SortTheorems Filter.
From S2P Require Import FilterFacts FilterTheorems Float64 Bytes BucketDiffLog TimeBuckets Query.
From S2P Require Import Dictionary Planner Executor ExecutorFacts.
Local Open Scope bitdex_scope.

Section paging.
Context {B : Type} `{HB : Roaring B}.
Context (to_lowercase : string -> string).
Context (ex : QueryExecutor B).
Implicit Types (b : B) (sf : SortField.t B).

(** A cursor as the executor hands them out: its value fits the sort field. *)
Definition cursor_fits sf (cursor : option CursorPosition) : Prop :=
  match cursor with
  | Some c => cp_sort_value c < 2 ^ N.of_nat (SortField.num_bits sf)
  | None => True
  end.

(** The page a query denotes, from the ascending list of matching slots. *)
Definition page_of (sort : option SortClause) (matched : list N) (limit : N)
    (cursor : option CursorPosition) : list N :=
  match sort with
  | Some s =>
      match ex_sorts ex !! sc_field s with
      | Some sf => SortField.top_n_spec (SortField.reconstruct_value sf) matched limit
                     (bool_decide (sc_direction s = Desc)) (cursor_pair <$> cursor)
      | None => []
      end
  | None =>
      take (N.to_nat limit) (match cursor with
        | Some c => filter (fun x => x < cp_slot_id c) (rev matched)
        | None => rev matched
        end)
  end.

(** The sort clause of a query names a usable field. *)
Definition sort_ok (sort : option SortClause) (cursor : option CursorPosition) : Prop :=
  match sort with
  | Some s => exists sf, ex_sorts ex !! sc_field s = Some sf /\ SortField.wf sf
                /\ (SortField.num_bits sf <= 32)%nat /\ cursor_fits sf cursor
  | None => True
  end.

Lemma filter_pairs (value : N -> N) (P : N -> Prop) `{!forall x, Decision (P x)}
    (q : N * N -> bool) (l : list N) :
  (forall s, q (s, value s) = true <-> P s) ->
  filter (fun sv => q sv = true) ((fun s => (s, value s)) <$> l) = (fun s => (s, value s)) <$> filter P l.
Proof.
  intros Hq. induction l as [|s l IH]; [done|]. rewrite fmap_cons, !filter_cons, IH.
  destruct (decide (q (s, value s) = true)) as [E|E]; rewrite Hq in E.
  - by rewrite decide_True.
  - by rewrite decide_False.
Qed.

Lemma past_cursor_spec desc value v s slot :
  past_cursor desc v s (slot, value slot) = true <-> SortField.after_cursor desc value (v, s) slot.
Proof.
  unfold past_cursor, SortField.after_cursor. simpl.
  destruct desc; rewrite orb_true_iff, andb_true_iff, !N.ltb_lt, N.eqb_eq; tauto.
Qed.

Lemma pow2_le_u32 n : (n <= 32)%nat -> 2 ^ N.of_nat n <= 4294967296.
Proof. intros H. change 4294967296 with (2 ^ 32). apply N.pow_le_mono_r; lia. Qed.

(** The in-memory sort computes the same page as the specification. *)
Lemma simple_sort_page b sort sf limit cursor :
  ex_sorts ex !! sc_field sort = Some sf -> (SortField.num_bits sf <= 32)%nat -> cursor_fits sf cursor ->
  simple_sort_and_paginate ex b sort limit cursor =
  Ok (let ids := SortField.top_n_spec (SortField.reconstruct_value sf) (rb_iter b) limit
                   (bool_decide (sc_direction sort = Desc)) (cursor_pair <$> cursor) in
      (ids, sort_cursor sf ids)).
Proof.
  intros Hsf Hn Hc. unfold simple_sort_and_paginate. rewrite Hsf.
  set (desc := bool_decide (sc_direction sort = Desc)). cbv zeta. rewrite sort_entries_pairs.
  set (value := SortField.reconstruct_value sf).
  assert (forall l : list N, fst <$> take (N.to_nat limit) ((fun s => (s, value s)) <$> l)
    = take (N.to_nat limit) l) as Htake by (intros l; by rewrite <- fmap_take, fst_entries).
  unfold SortField.top_n_spec. destruct cursor as [[v s]|]; simpl.
  - rewrite (filter_pairs value (SortField.after_cursor desc value (v, s))).
    + by rewrite Htake, (merge_sort_filter (SortField.slot_le desc value)).
    + intros x. rewrite <- past_cursor_spec. simpl in Hc. pose proof (pow2_le_u32 _ Hn).
      unfold wrap32. by rewrite N.mod_small by lia.
  - by rewrite Htake.
Qed.

(** So does the bit-layer traversal. *)
Lemma sort_page b sort sf limit cursor :
  ex_sorts ex !! sc_field sort = Some sf -> SortField.wf sf -> (SortField.num_bits sf <= 32)%nat ->
  cursor_fits sf cursor -> (forall x, x ∈ b -> x <= u32_max) ->
  sort_and_paginate ex b sort limit cursor =
  Ok (let ids := SortField.top_n_spec (SortField.reconstruct_value sf) (rb_iter b) limit
                   (bool_decide (sc_direction sort = Desc)) (cursor_pair <$> cursor) in
      (ids, sort_cursor sf ids)).
Proof.
  intros Hsf Hwf Hn Hc Hu. unfold sort_and_paginate. rewrite Hsf. cbv zeta.
  rewrite (top_n_eq_spec sf b limit _ (cursor_pair <$> cursor) Hwf Hn Hu).
  replace (norm_cursor sf (cursor_pair <$> cursor)) with (cursor_pair <$> cursor); [done|].
  destruct cursor as [[v s]|]; simpl; [|done]. simpl in Hc. unfold norm_cursor. simpl.
  by rewrite N.mod_small.
Qed.

Lemma rev_filter_lt (l : list N) (k : N) :
  rev (filter (fun x => x < k) l) = filter (fun x => x < k) (rev l).
Proof.
  induction l as [|x l IH]; [done|]. rewrite filter_cons. simpl. rewrite filter_app, filter_cons, filter_nil.
  rewrite <- IH. case_decide; simpl; [done|]. by rewrite app_nil_r.
Qed.

(** Slot order: newest first, below the cursor. *)
Lemma slot_order_page b limit cursor :
  (forall x, x ∈ b -> x <= u32_max) ->
  (slot_order_paginate b limit cursor).1 = page_of None (rb_iter b) limit cursor.
Proof.
  intros Hu. unfold slot_order_paginate, slot_order_paginate_dir, page_of.
  destruct cursor as [c|].
  - assert (rb_iter (rb_remove_range b (cp_slot_id c) u32_max)
      = filter (fun x => x < cp_slot_id c) (rb_iter b)) as Hit.
    { apply sorted_lt_ext; [apply rb_iter_sorted|apply filter_iter_sorted|].
      intros x. rewrite <- rb_elem_of_iter, rb_elem_of_remove_range, list_elem_of_filter, <- rb_elem_of_iter.
      specialize (Hu x). split; [|intros [??]; split; [done|lia]]. intros [Hx Hr].
      split; [|done]. specialize (Hu Hx). lia. }
    destruct (rb_is_empty _) eqn:E.
    + apply rb_is_empty_true in E. rewrite Hit in E. rewrite <- rev_filter_lt, E. by destruct (N.to_nat limit).
    + by rewrite Hit, rev_filter_lt.
  - destruct (rb_is_empty b) eqn:E; [|done]. apply rb_is_empty_true in E. rewrite E.
    by destruct (N.to_nat limit).
Qed.

(** Both sort paths, and slot order, give the denoted page. *)
Lemma paginate_page b sort limit cursor (simple : bool) :
  sort_ok sort cursor -> (forall x, x ∈ b -> x <= u32_max) ->
  exists p, (match sort with
     | Some sort_clause =>
         if simple then simple_sort_and_paginate ex b sort_clause limit cursor
         else sort_and_paginate ex b sort_clause limit cursor
     | None => Ok (slot_order_paginate b limit cursor)
     end) = Ok p /\ p.1 = page_of sort (rb_iter b) limit cursor.
Proof.
  intros Hs Hu. destruct sort as [s|]; simpl.
  - destruct Hs as (sf & Hsf & Hwf & Hn & Hc). rewrite Hsf.
    destruct simple; [rewrite (simple_sort_page b s sf)|rewrite (sort_page b s sf)]; eauto.
  - eexists. split; [done|]. by apply slot_order_page.
Qed.

End paging.

Section executor_properties.
Context {B : Type} `{HB : Roaring B}.
Context (to_lowercase : string -> string).
Context (ex : QueryExecutor B).
Implicit Types (c : FilterClause B) (x : N).

(** C15: Evaluating a clause computes its meaning: for every clause over known
    fields (and within the range-scan limits) evaluation succeeds, and the bitmap
    holds exactly the slots that match the clause, with pending diffs applied;
    negations exclude nulls, and a conjunction is evaluated in the planner's order. *)
Theorem evaluate_clause_correct (c : FilterClause B) :
  fields_wf ex -> valid_clause ex c = true ->
  exists b, evaluate_clause to_lowercase ex c = Ok b
    /\ forall x, x ∈ b <-> matches to_lowercase ex c x.
Proof. intros Hwf Hv. by apply evaluate_clause_ok. Qed.

(** What [execute] returns, shared with the engine's theorems. *)
Lemma execute_page (filters : list (FilterClause B)) (sort : option SortClause) (limit : N)
    (cursor : option CursorPosition) :
  index_ok ex -> Forall (clause_ok ex) filters -> sort_ok ex sort cursor ->
  (forall x, x ∈ alive ex -> x <= u32_max) ->
  exists r matched,
    execute to_lowercase ex filters sort limit cursor = Ok r
    /\ StronglySorted N.lt matched
    /\ (forall x, x ∈ matched <-> x ∈ alive ex /\ Forall (fun c => matches to_lowercase ex c x) filters)
    /\ qr_total_matched r = N.of_nat (length matched)
    /\ qr_ids r = page_of ex sort matched (N.min limit (max_page_size ex)) cursor.
Proof.
  intros Hok Hall Hsort Hu. unfold execute.
  set (plan := plan_query_with_context _ _ _ _ _).
  assert (ordered_clauses plan ≡ₚ filters) as Hperm.
  { unfold plan. rewrite plan_ordered. apply stable_sort_perm. }
  destruct (compute_filters_ok to_lowercase ex Hok (ordered_clauses plan)) as (b & -> & Hb).
  { by rewrite Hperm. }
  simpl. destruct (paginate_page ex b sort (N.min limit (max_page_size ex)) cursor
    (use_simple_sort plan || (rb_len b <? 1000)) Hsort) as (p & Hp & Hids).
  { intros x Hx. apply Hu. by apply Hb in Hx as [? _]. }
  rewrite Hp. simpl. eexists _, (rb_iter b). split; [done|]. split_and!.
  - apply rb_iter_sorted.
  - intros x. by rewrite <- rb_elem_of_iter, Hb, Hperm.
  - apply rb_len_iter.
  - done.
Qed.

(** C3: The query pipeline is correct end to end, under these conditions: the filter
    bitmaps and bucket bitmaps hold live slots only and no filter field is called id; the
    clauses name known fields, are within the range-scan limits and their pre-computed
    bitmaps hold live slots only; a top-level [NotEq] or [NotIn] is on a field without
    null slots and a top-level [Not] contains no empty [And]; the sort field exists, has
    at most 32 layers and the cursor's value fits them; slots are 32-bit numbers. Then
    [execute] succeeds; the slots it pages through are exactly the live slots that match
    every clause, in whatever order the planner evaluates them and through the accumulator
    shortcuts; the total is their number; and the ids are the page that the sort
    direction, cursor and clamped limit denote, for the in-memory sort and for the
    bit-layer sort alike. (Without the condition on nulls the shortcuts change the result;
    see the finding on executor.rs:448.) *)
Theorem execute_correct (filters : list (FilterClause B)) (sort : option SortClause) (limit : N)
    (cursor : option CursorPosition) :
  index_ok ex -> Forall (clause_ok ex) filters -> sort_ok ex sort cursor ->
  (forall x, x ∈ alive ex -> x <= u32_max) ->
  exists r matched,
    execute to_lowercase ex filters sort limit cursor = Ok r
    /\ StronglySorted N.lt matched
    /\ (forall x, x ∈ matched <-> x ∈ alive ex /\ Forall (fun c => matches to_lowercase ex c x) filters)
    /\ qr_total_matched r = N.of_nat (length matched)
    /\ qr_ids r = page_of ex sort matched (N.min limit (max_page_size ex)) cursor.
Proof. intros Hok Hall Hsort Hu. by apply execute_page. Qed.

End executor_properties.

(** ** Pages from packed keys *)

Section sorted_keys.
Context {B : Type} (ex : QueryExecutor B).

(** [(sort_value << 32) | slot_id] *)
Definition pack (value slot : N) : N := N.lor (N.shiftl value 32) slot.

Lemma pack_shiftr value slot : slot < 4294967296 -> N.shiftr (pack value slot) 32 = value.
Proof.
  intros Hs. unfold pack. rewrite N.shiftr_lor, N.shiftr_shiftl_l by lia.
  rewrite (shiftr_bound slot 32) by done. rewrite N.lor_0_r. apply N.shiftl_0_r.
Qed.

Lemma pack_land value slot : slot < 4294967296 -> N.land (pack value slot) 0xFFFFFFFF = slot.
Proof.
  intros Hs. unfold pack. change 0xFFFFFFFF with (N.ones 32).
  rewrite N.land_lor_distr_l, !N.land_ones, N.shiftl_mul_pow2, N.Div0.mod_mul, N.lor_0_l.
  by apply N.mod_small.
Qed.

Lemma pack_add value slot : slot < 4294967296 -> pack value slot = value * 4294967296 + slot.
Proof.
  intros Hs. rewrite (N.div_mod (pack value slot) 4294967296) by done.
  rewrite <- (pack_shiftr value slot Hs) at 3. rewrite N.shiftr_div_pow2.
  rewrite <- (pack_land value slot Hs) at 4. change 0xFFFFFFFF with (N.ones 32). rewrite N.land_ones.
  change (2 ^ 32) with 4294967296. lia.
Qed.

(** Binary search finds the suffix of a sorted list after the cursor. *)
Lemma partition_point_drop {R : relation N} (p : N -> bool) (l : list N) :
  StronglySorted R l -> (forall a b, R a b -> p b = true -> p a = true) ->
  drop (partition_point p l) l = filter (fun k => p k = false) l.
Proof.
  intros Hs Hp. induction Hs as [|a l Hs IH Ha]; [done|]. simpl partition_point.
  rewrite filter_cons. destruct (p a) eqn:E; cbn [drop].
  - by rewrite decide_False.
  - rewrite decide_True by done. f_equal. symmetry. apply filter_all. apply (Forall_impl _ _ _ Ha).
    intros b Hb. destruct (p b) eqn:Eb; [|done]. rewrite <- E. symmetry. eauto.
Qed.

Lemma partition_point_le (p : N -> bool) (l : list N) : (partition_point p l <= length l)%nat.
Proof. induction l as [|a l IH]; simpl; [lia|]. destruct (p a); lia. Qed.


Lemma keys_page_ids (keys : list N) (start limit : nat) :
  (start <= length keys)%nat ->
  take (Nat.min (start + limit) (length keys) - start) (drop start keys) = take limit (drop start keys).
Proof.
  intros Hs. destruct (decide (start + limit <= length keys)%nat).
  - f_equal. lia.
  - rewrite !take_ge; [done|..]; rewrite length_drop; lia.
Qed.

(** The order of the keys, descending or ascending. *)
Definition key_le (desc : bool) (a b : N) : Prop := if desc then b <= a else a <= b.

Lemma pack_le (desc : bool) (value : N -> N) a b :
  a < 4294967296 -> b < 4294967296 ->
  SortField.slot_le desc value a b -> key_le desc (pack (value a) a) (pack (value b) b).
Proof.
  intros Ha Hb. rewrite !pack_add by done. unfold SortField.slot_le, SortField.entry_le, key_le. simpl.
  destruct desc; nia.
Qed.

Lemma packed_sorted desc (value : N -> N) (l : list N) :
  Forall (fun s => s < 4294967296) l -> StronglySorted (SortField.slot_le desc value) l ->
  StronglySorted (key_le desc) ((fun s => pack (value s) s) <$> l).
Proof.
  intros Hl Hs. induction Hs as [|a l Hs IH Ha]; [constructor|].
  inversion_clear Hl as [|?? Hal Hll]. rewrite fmap_cons. constructor; [by apply IH|].
  apply Forall_fmap. rewrite Forall_forall in Ha, Hll |- *. intros b Hb. simpl.
  apply pack_le; auto.
Qed.

(** Comparing a packed key with the packed cursor is comparing positions. *)
Lemma pack_after (desc : bool) (value : N -> N) s (v cs : N) :
  s < 4294967296 -> cs < 4294967296 ->
  (if desc then pack v cs <=? pack (value s) s else pack (value s) s <=? pack v cs) = false
  <-> SortField.after_cursor desc value (v, cs) s.
Proof.
  intros Hs Hcs. rewrite !pack_add by done. unfold SortField.after_cursor. simpl.
  destruct desc; rewrite N.leb_gt; nia.
Qed.

Lemma filter_fmap_pack (desc : bool) (value : N -> N) v cs (l : list N) :
  Forall (fun s => s < 4294967296) l -> cs < 4294967296 ->
  filter (fun k => (if desc then pack v cs <=? k else k <=? pack v cs) = false)
    ((fun s : N => pack (value s) s) <$> l)
  = (fun s => pack (value s) s) <$> filter (SortField.after_cursor desc value (v, cs)) l.
Proof.
  intros Hl Hcs. induction Hl as [|s l Hs Hl IH]; [done|]. rewrite fmap_cons, !filter_cons, IH.
  destruct (decide (SortField.after_cursor desc value (v, cs) s)) as [E|E].
  - rewrite decide_True; [done|]. by apply pack_after.
  - rewrite decide_False; [done|]. by rewrite pack_after.
Qed.

Lemma unpack_pack (value : N -> N) (l : list N) :
  Forall (fun s => s < 4294967296) l ->
  (fun key : N => N.land key 0xFFFFFFFF) <$> ((fun s => pack (value s) s) <$> l) = l.
Proof.
  induction 1 as [|s l Hs _ IH]; [done|]. rewrite !fmap_cons, IH. f_equal. by apply pack_land.
Qed.

(** The suffix of the keys a cursor resumes at. *)
Definition keys_start (direction : SortDirection) (cursor : option CursorPosition) (keys : list N) : nat :=
  match cursor with
  | Some cursor =>
      let cursor_key := N.lor (wrap64 (N.shiftl (cp_sort_value cursor) 32)) (cp_slot_id cursor) in
      match direction with
      | Desc => partition_point (fun k => cursor_key <=? k) keys
      | Asc => partition_point (fun k => k <=? cursor_key) keys
      end
  | None => 0%nat
  end.

Lemma keys_start_drop (value : N -> N) (slots : list N) direction cursor :
  Forall (fun s => s < 4294967296) slots ->
  (forall c, cursor = Some c -> cp_sort_value c < 4294967296 /\ cp_slot_id c < 4294967296) ->
  let desc := bool_decide (direction = Desc) in
  let sorted := merge_sort (SortField.slot_le desc value) slots in
  let keys := (fun s => pack (value s) s) <$> sorted in
  drop (keys_start direction cursor keys) keys
  = (fun s => pack (value s) s) <$> merge_sort (SortField.slot_le desc value)
      (match cursor_pair <$> cursor with
       | Some c => filter (SortField.after_cursor desc value c) slots
       | None => slots
       end).
Proof.
  intros Hl Hc desc sorted keys. destruct cursor as [[v cs]|]; simpl; [|done].
  destruct (Hc _ eq_refl) as [Hv Hcs]. simpl in Hv, Hcs.
  assert (wrap64 (N.shiftl v 32) = N.shiftl v 32) as Hw.
  { unfold wrap64. apply N.mod_small. rewrite N.shiftl_mul_pow2. change (2 ^ 32) with 4294967296. lia. }
  assert (Forall (fun s => s < 4294967296) sorted) as Hl'.
  { unfold sorted. by rewrite merge_sort_Permutation. }
  assert (StronglySorted (key_le desc) keys) as Hs.
  { apply packed_sorted; [done|]. apply (merge_sort_sorted _). }
  change (cursor_pair (MkCursorPosition v cs)) with (v, cs).
  rewrite <- (merge_sort_filter (SortField.slot_le desc value)). fold sorted.
  rewrite <- (filter_fmap_pack desc value v cs sorted Hl' Hcs). fold keys. rewrite Hw. fold (pack v cs).
  subst desc. destruct direction; simpl in *; rewrite (partition_point_drop _ keys Hs); try done;
    intros a b Hab; unfold key_le in Hab; rewrite !N.leb_le; lia.
Qed.

(** Serving a page from the cached packed keys is the same as sorting: for keys
    packed from slots in sorted order, a non-zero page size and a 32-bit cursor, the
    binary search and slice return exactly the denoted page. *)
Theorem sorted_keys_page_correct (value : N -> N) (slots : list N) (direction : SortDirection)
    (limit : N) (cursor : option CursorPosition) (total : N) :
  let desc := bool_decide (direction = Desc) in
  let keys := (fun s => pack (value s) s) <$> merge_sort (SortField.slot_le desc value) slots in
  Forall (fun s => s < 4294967296) slots -> 0 < N.min limit (max_page_size ex) ->
  (forall c, cursor = Some c -> cp_sort_value c < 4294967296 /\ cp_slot_id c < 4294967296) ->
  exists r, execute_from_sorted_keys ex keys direction limit cursor total = Some r
  /\ qr_ids r = SortField.top_n_spec value slots (N.min limit (max_page_size ex)) desc (cursor_pair <$> cursor)
  /\ qr_total_matched r = total.
Proof.
  intros desc keys Hl Hlim Hc. set (start := keys_start direction cursor keys).
  assert (start <= length keys)%nat as Hstart.
  { unfold start, keys_start. destruct cursor; [|lia]. destruct direction; apply partition_point_le. }
  set (n := N.to_nat (N.min limit (max_page_size ex))).
  assert ((fun key : N => N.land key 0xFFFFFFFF) <$> take (Nat.min (start + n) (length keys) - start) (drop start keys)
    = SortField.top_n_spec value slots (N.min limit (max_page_size ex)) desc (cursor_pair <$> cursor)) as Hids.
  { rewrite keys_page_ids by done. unfold start, keys, desc. rewrite keys_start_drop by done.
    rewrite <- fmap_take. rewrite unpack_pack; [done|].
    apply Forall_take. rewrite merge_sort_Permutation. destruct (cursor_pair <$> cursor); [|done].
    rewrite Forall_forall in Hl |- *. intros x [_ Hx]%list_elem_of_filter. auto. }
  unfold execute_from_sorted_keys. cbv zeta. fold (keys_start direction cursor keys). fold start n.
  destruct (Nat.min (start + n) (length keys) <? length keys)%nat eqn:E.
  - apply Nat.ltb_lt in E. destruct (Nat.min (start + n) (length keys)) as [|e] eqn:Ee; [lia|].
    destruct (keys !! e) as [k|] eqn:Ek; [by eexists|]. apply lookup_ge_None in Ek. lia.
  - by eexists.
Qed.

End sorted_keys.

(** ** Where the shortcuts and the encodings differ *)

Section limits.
Context {B : Type} `{HB : Roaring B}.
Context (to_lowercase : string -> string).
Context (ex : QueryExecutor B).

(** C35: Whether a null value passes [NotEq] depends on the clause's position: full
    evaluation excludes nulls ("null values are not not-equal, they are unknown"),
    the accumulator shortcut taken for every clause after the first does not.  A
    slot that is null in the field, matches the first clause and does not hold the
    value is in the result of the pair although it does not match the second. *)
Theorem not_eq_null_depends_on_position (c1 : FilterClause B) (field : string) (value : Value)
    (ff : FilterField.t B) (b1 b : B) (x : N) :
  fields_wf ex -> field <> "id"%string -> ex_filters ex !! field = Some ff ->
  fused_value to_lowercase ex ff field value = Some b ->
  evaluate_clause to_lowercase ex c1 = Ok b1 -> x ∈ b1 ->
  is_null ex field x -> ~ holds_value to_lowercase ex field value x ->
  (exists r, compute_filters to_lowercase ex [c1; NotEq field value] = Ok r /\ x ∈ r)
  /\ (exists r, compute_filters to_lowercase ex [NotEq field value] = Ok r /\ x ∉ r).
Proof.
  intros Hwf Hid Hff Hb Hc1 Hx Hnull Hval. split.
  - pose proof (fused_value_spec to_lowercase ex Hwf ff field value x Hff) as Hspec. rewrite Hb in Hspec.
    assert (x ∈ rb_sub b1 b) as Hin by (rewrite rb_elem_of_sub; tauto).
    unfold compute_filters. cbn [compute_loop]. rewrite Hc1. cbn [result_bind].
    destruct (rb_is_empty b1) eqn:E; [rewrite rb_is_empty_spec in E; by specialize (E x)|].
    cbn [try_and_by_ref]. rewrite bool_decide_false by done. rewrite Hff. simpl. rewrite Hb. simpl.
    destruct (N.eqb_spec (rb_len (rb_sub b1 b)) 0) as [E0|_]; simpl; eexists; split; done.
  - destruct (evaluate_clause_ok to_lowercase ex Hwf (NotEq field value)) as (r & Hr & Hm).
    { simpl. unfold valid_eq, known. rewrite bool_decide_false by done. by rewrite Hff. }
    exists r. unfold compute_filters. cbn [compute_loop]. rewrite Hr. simpl. split; [done|].
    rewrite Hm. simpl. tauto.
Qed.

(** An id filter only sees the low 32 bits: ids that differ by a multiple of
    2^32 select the same slot, so a query for an id outside the 32-bit range
    returns an unrelated document instead of nothing. *)
Lemma id_filter_wraps (id k : Z) :
  evaluate_clause to_lowercase ex (Eq "id" (Integer (id + k * 4294967296)))
  = evaluate_clause to_lowercase ex (Eq "id" (Integer id)).
Proof. simpl. unfold evaluate_eq. simpl. unfold i64_as_u32. by rewrite Z.mod_add. Qed.

(** The value -1 is indistinguishable from null: its bitmap key is the null
    sentinel, so on every known field an equality filter for -1 is [IsNull], and
    a bitmap operation with that key acts on the null bitmap (documents with negative
    filter values are rejected before they reach it, see [mutation_bitmap_key]). *)
Lemma minus_one_is_null (field : string) (ff : FilterField.t B) (slot : N) :
  field <> "id"%string -> ex_filters ex !! field = Some ff ->
  evaluate_clause to_lowercase ex (Eq field (Integer (-1)))
  = evaluate_clause to_lowercase ex (IsNull field)
  /\ option_map (fun key => FilterField.insert ff key slot) (value_to_bitmap_key (Integer (-1)))
     = Some (FilterField.insert ff NULL_BITMAP_KEY slot).
Proof.
  intros Hid Hff. cbn [evaluate_clause]. unfold evaluate_eq. rewrite bool_decide_false, Hff by done.
  split; reflexivity.
Qed.

End limits.

(** ** Witnesses *)

Definition demo_slots : SlotAllocator.t Bitset :=
  SlotAllocator.merge_alive (foldl (fun s id => (SlotAllocator.allocate s id).2) SlotAllocator.new [1; 2; 3; 4]).

Definition level_ops : list fop := [FInsert 5 1; FInsert 7 2; FInsert 5 4; FMergeDirty].
Definition tag_ops : list fop :=
  [FInsertBulk 10 [1; 2; 3; 4]; FInsert 11 2; FRemove 10 4; FInsert NULL_BITMAP_KEY 3].

Definition demo_level : FilterField.t Bitset :=
  frun (FilterField.new (filter_config "level" SingleValue)) level_ops.
Definition demo_tag : FilterField.t Bitset :=
  frun (FilterField.new (filter_config "tag" MultiValue)) tag_ops.

Definition demo_ex : QueryExecutor Bitset :=
  MkQueryExecutor demo_slots {["level"%string := demo_level; "tag"%string := demo_tag]}
    {["reactionCount"%string := demo_sort]} 100 None 0 None None None.

(** A field built by a run of operations holds the specified relation. *)
Lemma demo_field (cfg : FilterFieldConfig) (ops : list fop) :
  let f := frun (FilterField.new cfg : FilterField.t Bitset) ops in
  bitmaps_wf (FilterField.bitmaps f) /\ forall v x, has f v x <-> (v, x) ∈ fspec_run ∅ ops.
Proof.
  destruct (frun_has ops (FilterField.new cfg : FilterField.t Bitset) ∅ (new_inv cfg)) as [[Hw _] Hs].
  - intros v x. split; [|by intros ?%elem_of_empty]. intros (vb & H & _). simpl in H. by rewrite lookup_empty in H.
  - by split.
Qed.

Lemma demo_lookup field ff :
  ex_filters demo_ex !! field = Some ff ->
  (field = "level"%string /\ ff = demo_level) \/ (field = "tag"%string /\ ff = demo_tag).
Proof.
  simpl. rewrite lookup_insert. case_decide; [intros [= <-]; by left|].
  intros [<- <-]%lookup_singleton_Some. by right.
Qed.

Lemma demo_fields_wf : fields_wf demo_ex.
Proof.
  intros field ff [[_ ->]|[_ ->]]%demo_lookup; [apply (demo_field _ level_ops)|apply (demo_field _ tag_ops)].
Qed.

Lemma demo_index_ok : index_ok demo_ex.
Proof.
  split.
  - apply demo_fields_wf.
  - reflexivity.
  - intros field ff v x Hff Hx.
    assert (forall S : gset (N * N), set_Forall (fun p => rb_contains (alive demo_ex) p.2 = true) S ->
      (v, x) ∈ S -> x ∈ alive demo_ex) as Hall.
    { intros S HS Hin. apply rb_contains_true. apply (HS _ Hin). }
    apply demo_lookup in Hff as [[_ ->]|[_ ->]].
    + apply (demo_field _ level_ops) in Hx. apply (Hall _) in Hx; [done|].
      apply (bool_decide_unpack _). vm_compute. exact I.
    + apply (demo_field _ tag_ops) in Hx. apply (Hall _) in Hx; [done|].
      apply (bool_decide_unpack _). vm_compute. exact I.
  - done.
Qed.

Lemma evaluate_clause_correct_witness :
  exists b, evaluate_clause string_lower demo_ex (Or [Eq "level" (Integer 7); Gte "tag" (Integer 11)]) = Ok b
    /\ forall x, x ∈ b <-> matches string_lower demo_ex (Or [Eq "level" (Integer 7); Gte "tag" (Integer 11)]) x.
Proof. apply evaluate_clause_correct; [apply demo_fields_wf|vm_compute; reflexivity]. Defined.

Lemma execute_correct_witness :
  exists r matched,
    execute string_lower demo_ex [Eq "tag" (Integer 10); In "level" [Integer 5; Integer 7]]
      (Some (MkSortClause "reactionCount" Desc)) 10 None = Ok r
    /\ qr_ids r = page_of demo_ex (Some (MkSortClause "reactionCount" Desc)) matched 10 None
    /\ qr_ids r = [2; 1].
Proof.
  destruct (execute_correct string_lower demo_ex [Eq "tag" (Integer 10); In "level" [Integer 5; Integer 7]]
    (Some (MkSortClause "reactionCount" Desc)) 10 None) as (r & matched & H1 & _ & _ & _ & H5).
  - apply demo_index_ok.
  - repeat constructor.
  - exists demo_sort. split; [reflexivity|]. split; [apply demo_sort_wf|]. split; [vm_compute; lia|done].
  - intros x Hx. apply rb_contains_true in Hx. unfold alive in Hx.
    assert (x ∈ bitset [1; 2; 3; 4]) as Hx'.
    { apply rb_contains_true. rewrite <- Hx. reflexivity. }
    revert Hx'. apply bitset_u32. repeat constructor; vm_compute; discriminate.
  - exists r, matched. split; [exact H1|]. split; [exact H5|]. vm_compute in H1. by injection H1 as <-.
Defined.

Lemma sorted_keys_page_correct_witness :
  exists r, execute_from_sorted_keys demo_ex [pack 9 2; pack 5 4; pack 5 1] Desc 2
              (Some (MkCursorPosition 9 2)) 3 = Some r
  /\ qr_ids r = [4; 1].
Proof.
  pose (value := fun s : N => if s =? 2 then 9 else 5).
  destruct (sorted_keys_page_correct demo_ex value [1; 2; 4] Desc 2 (Some (MkCursorPosition 9 2)) 3)
    as (r & H1 & H2 & _).
  - repeat constructor.
  - vm_compute. reflexivity.
  - intros c [= <-]. vm_compute. done.
  - exists r. split; [exact H1|]. rewrite H2. vm_compute. reflexivity.
Defined.

(** Slot 3 has no level but a null tag. *)
Lemma not_eq_null_depends_on_position_witness :
  (exists r, compute_filters string_lower demo_ex [Eq "tag" (Integer 10); NotEq "tag" (Integer 11)] = Ok r /\ 3 ∈ r)
  /\ (exists r, compute_filters string_lower demo_ex [NotEq "tag" (Integer 11)] = Ok r /\ 3 ∉ r).
Proof.
  eapply (not_eq_null_depends_on_position string_lower demo_ex (Eq "tag" (Integer 10)) "tag" (Integer 11)
    demo_tag _ _ 3).
  - apply demo_fields_wf.
  - done.
  - reflexivity.
  - vm_compute. reflexivity.
  - vm_compute. reflexivity.
  - apply rb_contains_true. vm_compute. reflexivity.
  - exists demo_tag. split; [reflexivity|]. apply (demo_field _ tag_ops).
    apply (bool_decide_unpack _). vm_compute. exact I.
  - intros (ff & key & Hff & Hkey & Hx). simpl in Hff. injection Hff as <-. vm_compute in Hkey.
    injection Hkey as <-. apply (demo_field _ tag_ops) in Hx. revert Hx.
    apply (bool_decide_unpack _). vm_compute. exact I.
Defined.

Lemma minus_one_is_null_witness :
  evaluate_clause string_lower demo_ex (Eq "tag" (Integer (-1)))
  = evaluate_clause string_lower demo_ex (IsNull "tag").
Proof. apply (minus_one_is_null string_lower demo_ex "tag" demo_tag 3); [done|reflexivity]. Defined.

(** A cursor value that does not fit the field's bits is compared as it is by the in-memory
    sort and through its low bits by the walk over the layers, so the page depends on the
    path: after the cursor 261 on an 8-bit field, descending, the first returns everything
    below 261, the second everything below 5. *)
Lemma wide_cursor_depends_on_path :
  let sort := MkSortClause "reactionCount" Desc in
  let page f := match f with Ok (ids, _) => ids | Err _ => [] end in
  page (simple_sort_and_paginate demo_ex (bitset [1; 2; 3; 4]) sort 10 (Some (MkCursorPosition 261 1))) = [2; 4; 3; 1]
  /\ page (sort_and_paginate demo_ex (bitset [1; 2; 3; 4]) sort 10 (Some (MkCursorPosition 261 1))) = [].
Proof. vm_compute. split; reflexivity. Qed.
