(* ===== verification/Radix.v ===== *)
(** * The radix sort index (src/radix_sort.rs, src/executor.rs)

    Expanded cache entries keep their slots in 256 buckets by the top 8 bits of
    the 32-bit sort value, with cumulative counts for offset skipping.  The
    executor's radix path pages through the buckets in sort order instead of
    traversing 32 bit layers over the whole set. *)

From S2P Require Import Prelude Roaring Versioned Slot Config Sort SortFacts SortTheorems Filter.
From S2P Require Import Float64 Bytes BucketDiffLog TimeBuckets Query Dictionary Planner Executor.
From S2P Require Import ExecutorTheorems.

Module RadixSortIndex.

Record t (B : Type) : Type := mk {
  buckets : list (option B);
  cumulative_desc : list N;
  cumulative_asc : list N;
  counts_dirty : bool;
}.
Arguments mk {B} _ _ _ _.
Arguments buckets {B} _.
Arguments cumulative_desc {B} _.
Arguments cumulative_asc {B} _.
Arguments counts_dirty {B} _.

(** [value >> 24] of a [u32] *)
Definition prefix_of (value : N) : nat := N.to_nat (N.shiftr value 24).

Section ops.
Context {B : Type} `{!RoaringOps B}.

(** [get_or_insert_with(RoaringBitmap::new).insert(slot)] *)
Definition bucket_insert (bs : list (option B)) (prefix : nat) (slot : N) : list (option B) :=
  alter (fun b => Some (rb_insert (default rb_new b) slot)) prefix bs.

Definition bucket_len (b : option B) : N :=
  match b with Some bm => wrap32 (rb_len bm) | None => 0 end.

(** Running totals along a list, [u32] additions. *)
Fixpoint running_totals (running : N) (lens : list N) : list N :=
  match lens with
  | [] => []
  | n :: rest => let running := wrap32 (running + n) in running :: running_totals running rest
  end.

Definition rebuild_counts (r : t B) : t B :=
  let lens := bucket_len <$> buckets r in
  mk (buckets r) (reverse (running_totals 0 (reverse lens))) (running_totals 0 lens) false.

Definition from_entries (entries : list (N * N)) : t B :=
  let bs := foldl (fun bs '(slot, value) => bucket_insert bs (prefix_of value) slot)
              (replicate 256 None) entries in
  rebuild_counts (mk bs (replicate 256 0) (replicate 256 0) true).

Definition from_bitmap (bitmap : B) (value_fn : N -> N) : t B :=
  from_entries ((fun slot => (slot, value_fn slot)) <$> rb_iter bitmap).

Definition insert (r : t B) (slot sort_value : N) : t B :=
  mk (bucket_insert (buckets r) (prefix_of sort_value) slot)
     (cumulative_desc r) (cumulative_asc r) true.

Definition remove (r : t B) (slot sort_value : N) : t B :=
  mk (alter (fun b => (fun bm => rb_remove bm slot) <$> b) (prefix_of sort_value) (buckets r))
     (cumulative_desc r) (cumulative_asc r) true.

(** The first bucket that contains the slot loses it. *)
Fixpoint remove_first (bs : list (option B)) (slot : N) : option (list (option B)) :=
  match bs with
  | [] => None
  | Some bm :: rest =>
      if rb_contains bm slot then Some (Some (rb_remove bm slot) :: rest)
      else cons (Some bm) <$> remove_first rest slot
  | None :: rest => cons None <$> remove_first rest slot
  end.

Definition remove_blind (r : t B) (slot : N) : t B :=
  match remove_first (buckets r) slot with
  | Some bs => mk bs (cumulative_desc r) (cumulative_asc r) true
  | None => r
  end.

Definition is_dirty (r : t B) : bool := counts_dirty r.

Definition total_slots (r : t B) : N :=
  if counts_dirty r then foldl (fun total b => wrap32 (total + bucket_len b)) 0 (buckets r)
  else default 0 (cumulative_desc r !! 0%nat).

(** The search loop over [(prefix, cumulative)] pairs in iteration order. *)
Fixpoint find_offset (cums : list (nat * N)) (offset prev_cum : N) : option (nat * N) :=
  match cums with
  | [] => None
  | (i, cum) :: rest =>
      if offset <? cum then Some (i, offset - prev_cum) else find_offset rest offset cum
  end.

Definition offset_to_bucket (r : t B) (offset : N) (direction : SortDirection)
  : option (nat * N) * t B :=
  let r := if counts_dirty r then rebuild_counts r else r in
  (match direction with
   | Desc => find_offset (reverse (imap pair (cumulative_desc r))) offset 0
   | Asc => find_offset (imap pair (cumulative_asc r)) offset 0
   end, r).

Definition bucket (r : t B) (prefix : nat) : option B := mjoin (buckets r !! prefix).

(** What the bucket iterator yields: the non-empty buckets in sort order. *)
Definition iter_buckets (r : t B) (direction : SortDirection) : list (nat * B) :=
  let all := imap pair (buckets r) in
  let ordered := match direction with Desc => reverse all | Asc => all end in
  omap (fun '(idx, b) =>
    bm ← b; if rb_is_empty bm then None else Some (idx, bm)) ordered.

Definition populated_buckets (r : t B) : nat := length (omap id (buckets r)).

End ops.

End RadixSortIndex.

(** ** The executor's radix path *)

Section execute_from_radix.
Context {B : Type} `{!RoaringOps B}.
Context (ex : QueryExecutor B).

(** The loop of [execute_from_radix]: one [top_n] per bucket until the page is full. *)
Fixpoint radix_loop (sort_field : SortField.t B) (direction : SortDirection)
    (cursor_prefix : option nat) (cursor_param : option (N * N))
    (bs : list (nat * B)) (remaining : N) (result_ids : list N) : list N :=
  match bs with
  | [] => result_ids
  | (prefix, bucket_bm) :: rest =>
      if remaining =? 0 then result_ids
      else
        let skip := match cursor_prefix with
                    | Some cp => match direction with
                                 | Desc => (cp <? prefix)%nat
                                 | Asc => (prefix <? cp)%nat
                                 end
                    | None => false
                    end in
        if skip then
          radix_loop sort_field direction cursor_prefix cursor_param rest remaining result_ids
        else
          let bucket_cursor :=
            if bool_decide (cursor_prefix = Some prefix) then cursor_param else None in
          let sorted_slots := (SortField.top_n sort_field bucket_bm remaining
            (bool_decide (direction = Desc)) bucket_cursor).1 in
          (* at most [remaining] slots come back, so the inner break never cuts *)
          let taken := take (N.to_nat remaining) sorted_slots in
          radix_loop sort_field direction cursor_prefix cursor_param rest
            (remaining - N.of_nat (length taken)) (result_ids ++ taken)
  end.

Definition execute_from_radix (radix : RadixSortIndex.t B) (sort_clause : SortClause) (limit : N)
    (cursor : option CursorPosition) (total_matched : N) : result QueryResult :=
  match ex_sorts ex !! sc_field sort_clause with
  | None => Err (FieldNotFound (sc_field sort_clause))
  | Some sort_field =>
      let direction := sc_direction sort_clause in
      let limit := N.min limit (max_page_size ex) in
      let cursor_prefix := (fun c => N.to_nat (N.shiftr (cp_sort_value c) 24 mod 256)) <$> cursor in
      let ids := radix_loop sort_field direction cursor_prefix (cursor_pair <$> cursor)
                   (RadixSortIndex.iter_buckets radix direction) limit [] in
      Ok (MkQueryResult ids (sort_cursor sort_field ids) total_matched)
  end.

End execute_from_radix.
