(* ===== verification/RadixFacts.v ===== *)
(** * The radix sort index: lemmas and properties *)

From S2P Require Import Prelude Roaring Versioned Slot Config Sort SortFacts SortTheorems Filter.
From S2P Require Import Float64 Bytes BucketDiffLog TimeBuckets Query Dictionary Planner Executor.
From S2P Require Import ExecutorTheorems Radix.

(** ** Sorting by prefix first *)

Section by_prefix.
Context (prefix : N -> nat).

(** The part of a list with a given prefix. *)
Definition part (l : list N) (p : nat) : list N := filter (fun x => prefix x = p) l.

Lemma filter_split (P Q : N -> Prop) `{!forall x, Decision (P x), !forall x, Decision (Q x),
    !forall x, Decision (P x \/ Q x)} (l : list N) :
  (forall x, P x -> Q x -> False) ->
  filter (fun x => P x \/ Q x) l ≡ₚ filter P l ++ filter Q l.
Proof.
  intros Hd. induction l as [|x l IH]; [done|]. rewrite !filter_cons.
  destruct (decide (P x)) as [HP|HP], (decide (Q x)) as [HQ|HQ].
  - exfalso. eauto.
  - rewrite decide_True by tauto. simpl. by rewrite IH.
  - rewrite decide_True by tauto. rewrite IH. apply Permutation_middle.
  - rewrite decide_False by tauto. done.
Qed.

Lemma parts_perm (l : list N) (ps : list nat) :
  NoDup ps -> filter (fun x => prefix x ∈ ps) l ≡ₚ mjoin (part l <$> ps).
Proof.
  induction 1 as [|p ps Hp Hnd IH]; simpl.
  - induction l as [|x l IHl]; [done|]. rewrite filter_cons.
    rewrite decide_False by apply not_elem_of_nil. exact IHl.
  - rewrite <- IH. rewrite (list_filter_iff _ (fun x => prefix x = p \/ prefix x ∈ ps))
      by (intros; apply elem_of_cons).
    apply filter_split. intros x Hx Hx'. subst p. done.
Qed.

Context (R : relation N) `{!forall x y, Decision (R x y)} `{!Transitive R, !Total R, !AntiSymm (=) R}.

Lemma sorted_join (l : list N) (ps : list nat) (before : relation nat) :
  StronglySorted before ps -> (forall x y, before (prefix x) (prefix y) -> R x y) ->
  StronglySorted R (mjoin ((fun p => merge_sort R (part l p)) <$> ps)).
Proof.
  intros Hs HR. induction Hs as [|p ps Hs IH Hp]; simpl; [constructor|].
  apply StronglySorted_app. split_and!; [|apply (merge_sort_sorted R)|done].
  intros x y. rewrite merge_sort_Permutation. intros [<- _]%list_elem_of_filter.
  rewrite list_elem_of_join. intros (ys & Hy & Hys). apply list_elem_of_fmap in Hys as (q & -> & Hq).
  rewrite merge_sort_Permutation in Hy. apply list_elem_of_filter in Hy as [<- _].
  rewrite Forall_forall in Hp. auto.
Qed.

(** Sorting is sorting the parts and concatenating them in prefix order. *)
Lemma merge_sort_parts (l : list N) (ps : list nat) (before : relation nat) :
  NoDup ps -> StronglySorted before ps -> (forall x y, before (prefix x) (prefix y) -> R x y) ->
  Forall (fun x => prefix x ∈ ps) l ->
  merge_sort R l = mjoin ((fun p => merge_sort R (part l p)) <$> ps).
Proof.
  intros Hnd Hs HR Hall. symmetry. apply (merge_sort_unique R); [by eapply sorted_join|].
  assert (mjoin ((fun p => merge_sort R (part l p)) <$> ps) ≡ₚ mjoin (part l <$> ps)) as ->.
  { clear Hnd Hs Hall. induction ps as [|p ps IH]; simpl; [done|]. by rewrite IH, merge_sort_Permutation. }
  rewrite <- parts_perm by done. by rewrite filter_all.
Qed.

End by_prefix.

(** ** What an index represents *)

Lemma imap_pair_zip {A : Type} (l : list A) : imap pair l = zip (seq 0 (length l)) l.
Proof.
  enough (forall n, imap (fun i x => (n + i, x)%nat) l = zip (seq n (length l)) l) as H by apply (H 0%nat).
  induction l as [|x l IH]; intros n; [done|]. simpl. f_equal; [f_equal; lia|].
  rewrite <- IH. apply imap_ext. intros i y _. simpl. f_equal. lia.
Qed.

Lemma reverse_zip {A C : Type} (l : list A) (k : list C) :
  length l = length k -> reverse (zip l k) = zip (reverse l) (reverse k).
Proof.
  revert k. induction l as [|x l IH]; intros [|y k] Hlen; try done. simpl in *.
  rewrite !reverse_cons, IH by lia. rewrite zip_with_app; [done|]. rewrite !length_reverse. lia.
Qed.

Section radix.
Context {B : Type} `{HB : Roaring B}.
Context (value : N -> N) (Hvalue : forall x, value x < 4294967296).
Import RadixSortIndex.
Implicit Types (r : t B) (S : B) (x : N) (p : nat).

Notation prefix := (fun x => prefix_of (value x)).

Lemma prefix_bound x : (prefix_of (value x) < 256)%nat.
Proof.
  unfold prefix_of. rewrite N.shiftr_div_pow2. specialize (Hvalue x).
  assert (value x / 2 ^ 24 < 256); [|lia]. apply N.Div0.div_lt_upper_bound. simpl. lia.
Qed.

(** The contents of a bucket. *)
Definition bucket_of r p : B := default rb_new (mjoin (buckets r !! p)).

(** Bucket [p] holds exactly the slots of [S] whose value has prefix [p]. *)
Definition represents r S : Prop :=
  length (buckets r) = 256%nat
  /\ forall x p, (p < 256)%nat -> x ∈ bucket_of r p <-> x ∈ S /\ prefix_of (value x) = p.

(** The cumulative counts are current unless marked dirty. *)
Definition counts_ok r : Prop :=
  counts_dirty r = false ->
  cumulative_desc r = cumulative_desc (rebuild_counts r)
  /\ cumulative_asc r = cumulative_asc (rebuild_counts r).

Lemma elem_of_bucket_insert (bs : list (option B)) slot q x p :
  length bs = 256%nat -> (p < 256)%nat ->
  x ∈ (default rb_new (mjoin (bucket_insert bs q slot !! p)) : B)
  <-> (x = slot /\ p = q) \/ x ∈ (default rb_new (mjoin (bs !! p)) : B).
Proof.
  intros Hl Hp. unfold bucket_insert. destruct (decide (p = q)) as [->|Hne].
  - rewrite list_lookup_alter_eq. destruct (lookup_lt_is_Some_2 bs q) as [b Hb]; [lia|].
    rewrite Hb. simpl. rewrite rb_elem_of_insert. tauto.
  - rewrite list_lookup_alter_ne by done. tauto.
Qed.

Lemma represents_insert r S x : represents r S -> represents (insert r x (value x)) (rb_insert S x).
Proof.
  intros [Hl Hr]. split; [exact (eq_trans (length_alter _ _ _) Hl)|].
  intros y p Hp. unfold bucket_of, insert. cbn [buckets]. rewrite elem_of_bucket_insert by done.
  fold (bucket_of r p). rewrite Hr, rb_elem_of_insert by done. naive_solver.
Qed.

Lemma elem_of_bucket_remove r x q y p :
  length (buckets r) = 256%nat -> (p < 256)%nat ->
  y ∈ (default rb_new (mjoin (alter (fun b => (fun bm => rb_remove bm x) <$> b) q (buckets r) !! p)) : B)
  <-> ~ (y = x /\ p = q) /\ y ∈ bucket_of r p.
Proof.
  intros Hl Hp. unfold bucket_of. destruct (decide (p = q)) as [->|Hne].
  - rewrite list_lookup_alter_eq. destruct (lookup_lt_is_Some_2 (buckets r) q) as [b Hb]; [lia|].
    rewrite Hb. simpl. destruct b as [bm|]; simpl; [rewrite rb_elem_of_remove; tauto|].
    pose proof (rb_elem_of_new (B := B) y). tauto.
  - rewrite list_lookup_alter_ne by done. tauto.
Qed.

Lemma represents_remove r S x : represents r S -> represents (remove r x (value x)) (rb_remove S x).
Proof.
  intros [Hl Hr]. split; [exact (eq_trans (length_alter _ _ _) Hl)|].
  intros y p Hp. unfold bucket_of at 1, remove. cbn [buckets]. rewrite elem_of_bucket_remove by done.
  rewrite Hr, rb_elem_of_remove by done. naive_solver.
Qed.

(** [remove_blind] edits the one bucket that has the slot. *)
Lemma remove_first_spec (bs : list (option B)) x :
  match remove_first bs x with
  | Some bs' => exists q bm, bs !! q = Some (Some bm) /\ x ∈ bm
      /\ bs' = alter (fun b => (fun bm => rb_remove bm x) <$> b) q bs
  | None => forall q bm, bs !! q = Some (Some bm) -> x ∉ bm
  end.
Proof.
  induction bs as [|b bs IH]; simpl; [intros q bm; by rewrite lookup_nil|].
  assert (match cons b <$> remove_first bs x with
    | Some bs' => exists q bm, (b :: bs) !! q = Some (Some bm) /\ x ∈ bm
        /\ bs' = alter (fun b => (fun bm => rb_remove bm x) <$> b) q (b :: bs)
    | None => (forall bm, b = Some bm -> x ∉ bm) -> forall q bm, (b :: bs) !! q = Some (Some bm) -> x ∉ bm
    end) as Hrest.
  { destruct (remove_first bs x) as [bs'|]; simpl.
    - destruct IH as (q & bm & H1 & H2 & ->). exists (Datatypes.S q), bm. done.
    - intros Hb q bm. destruct q; simpl; [intros [= ->]; by apply Hb|apply IH]. }
  destruct b as [bm|].
  - destruct (rb_contains bm x) eqn:E.
    + exists 0%nat, bm. split; [done|]. split; [by apply rb_contains_true|done].
    + destruct (cons (Some bm) <$> remove_first bs x); [done|]. apply Hrest.
      intros ? [= <-]. by apply rb_contains_false.
  - destruct (cons None <$> remove_first bs x); [done|]. apply Hrest. done.
Qed.

Lemma represents_remove_blind r S x : represents r S -> represents (remove_blind r x) (rb_remove S x).
Proof.
  intros Hrep. pose proof Hrep as [Hl Hr]. unfold remove_blind.
  pose proof (remove_first_spec (buckets r) x) as Hf. destruct (remove_first (buckets r) x) as [bs'|].
  - destruct Hf as (q & bm & Hq & Hx & ->).
    assert (q < 256)%nat as Hq256 by (apply lookup_lt_Some in Hq; lia).
    assert (prefix_of (value x) = q) as Hpq.
    { apply (Hr x q Hq256). unfold bucket_of. by rewrite Hq. }
    pose proof (represents_remove r S x Hrep) as [H1 H2]. unfold remove in *. rewrite Hpq in *.
    split; [done|]. exact H2.
  - split; [done|]. intros y p Hp. rewrite Hr, rb_elem_of_remove by done.
    split; [|tauto]. intros [Hy Hpy]. split; [split; [|done]|done]. intros ->.
    destruct (buckets r !! p) as [[bm|]|] eqn:E.
    + apply (Hf p bm E).
      assert (x ∈ bucket_of r p) as Hin by (apply Hr; done). unfold bucket_of in Hin. by rewrite E in Hin.
    + assert (x ∈ bucket_of r p) as Hin by (apply Hr; done). unfold bucket_of in Hin. rewrite E in Hin.
      by apply rb_elem_of_new in Hin.
    + apply lookup_ge_None in E. lia.
Qed.

Lemma represents_from_bitmap S : represents (from_bitmap S value) S.
Proof.
  unfold from_bitmap, from_entries.
  enough (forall (l : list N) (bs : list (option B)) (P : N -> Prop), length bs = 256%nat ->
    (forall x p, (p < 256)%nat -> x ∈ (default rb_new (mjoin (bs !! p)) : B) <-> P x /\ prefix_of (value x) = p) ->
    let bs' := foldl (fun bs '(slot, v) => bucket_insert bs (prefix_of v) slot) bs ((fun s => (s, value s)) <$> l) in
    length bs' = 256%nat /\ forall x p, (p < 256)%nat ->
      x ∈ (default rb_new (mjoin (bs' !! p)) : B) <-> (x ∈ l \/ P x) /\ prefix_of (value x) = p) as H.
  { destruct (H (rb_iter S) (replicate 256 None) (fun _ => False)) as [H1 H2]; [done| |].
    - intros x p Hp. rewrite lookup_replicate_2 by done. simpl.
      pose proof (rb_elem_of_new (B := B) x). tauto.
    - split; [exact H1|]. intros x p Hp. unfold bucket_of, rebuild_counts. cbn [buckets]. rewrite H2 by done.
      rewrite <- rb_elem_of_iter. tauto. }
  induction l as [|s l IH]; intros bs P Hl HP; cbn [foldl fmap list_fmap].
  { split; [done|]. intros x p Hp. rewrite HP, elem_of_nil by done. tauto. }
  destruct (IH (bucket_insert bs (prefix_of (value s)) s) (fun x => x = s \/ P x)) as [H1 H2].
  - exact (eq_trans (length_alter _ _ _) Hl).
  - intros x p Hp. rewrite elem_of_bucket_insert, HP by done. naive_solver.
  - split; [exact H1|]. intros x p Hp. rewrite H2, elem_of_cons by done. tauto.
Qed.


(** *** Buckets in sort order *)

Definition order (direction : SortDirection) : list nat :=
  match direction with Asc => seq 0 256 | Desc => reverse (seq 0 256) end.

Definition before (direction : SortDirection) : relation nat :=
  match direction with Asc => lt | Desc => gt end.

Notation slot_order direction := (SortField.slot_le (bool_decide (direction = Desc)) value).

Lemma seq_sorted k n : StronglySorted lt (seq k n).
Proof.
  revert k. induction n as [|n IH]; intros k; simpl; constructor; [done|].
  apply Forall_forall. intros x Hx%elem_of_seq. lia.
Qed.

Lemma reverse_sorted {A : Type} (R : relation A) (l : list A) :
  StronglySorted R l -> StronglySorted (flip R) (reverse l).
Proof.
  induction 1 as [|x l Hs IH Hx]; [constructor|]. rewrite reverse_cons.
  apply StronglySorted_app. split_and!; [|done|repeat constructor].
  intros y z Hy Hz. apply list_elem_of_singleton in Hz as ->. rewrite elem_of_reverse in Hy.
  rewrite Forall_forall in Hx. by apply Hx.
Qed.

Lemma order_facts direction :
  NoDup (order direction) /\ StronglySorted (before direction) (order direction)
  /\ forall p, p ∈ order direction <-> (p < 256)%nat.
Proof.
  destruct direction; unfold order, before; split_and!.
  - apply NoDup_seq.
  - apply seq_sorted.
  - intros p. rewrite elem_of_seq. lia.
  - rewrite reverse_Permutation. apply NoDup_seq.
  - apply (reverse_sorted lt), seq_sorted.
  - intros p. rewrite elem_of_reverse, elem_of_seq. lia.
Qed.

(** A smaller prefix means a smaller value. *)
Lemma prefix_lt v w : (prefix_of v < prefix_of w)%nat -> v < w.
Proof. unfold prefix_of. intros H. apply (shiftr_lt_mono _ _ 24). lia. Qed.

Lemma before_slot_le direction x y :
  before direction (prefix_of (value x)) (prefix_of (value y)) -> slot_order direction x y.
Proof.
  unfold SortField.slot_le, SortField.entry_le. cbn [fst snd].
  destruct direction; cbn [before]; intros H; [rewrite bool_decide_false by done|rewrite bool_decide_true by done];
    left; by apply prefix_lt.
Qed.

Lemma bucket_iter r S p :
  represents r S -> (p < 256)%nat -> rb_iter (bucket_of r p) = part prefix (rb_iter S) p.
Proof.
  intros [_ Hr] Hp. apply sorted_lt_ext; [apply rb_iter_sorted|apply filter_iter_sorted|].
  intros x. rewrite <- rb_elem_of_iter, Hr by done. unfold part.
  rewrite list_elem_of_filter, <- rb_elem_of_iter. tauto.
Qed.

Lemma buckets_zip r S :
  represents r S -> imap pair (buckets r) = (fun p => (p, mjoin (buckets r !! p))) <$> seq 0 256.
Proof.
  intros [Hl _]. apply list_eq. intros i. rewrite list_lookup_imap, list_lookup_fmap.
  destruct (decide (i < 256)%nat) as [Hi|Hi].
  - rewrite lookup_seq_lt by done. destruct (lookup_lt_is_Some_2 (buckets r) i) as [b Hb]; [lia|].
    rewrite Hb. cbn. by rewrite Hb.
  - rewrite lookup_seq_ge, (lookup_ge_None_2 (buckets r)) by lia. done.
Qed.

Lemma iter_buckets_order r S direction :
  represents r S ->
  iter_buckets r direction =
  omap (fun p => if rb_is_empty (bucket_of r p) then None else Some (p, bucket_of r p)) (order direction).
Proof.
  intros Hr. unfold iter_buckets. cbv zeta. rewrite (buckets_zip r S Hr).
  set (g := fun p => (p, mjoin (buckets r !! p))).
  assert (forall ps : list nat, omap (fun '(idx, b) => bm ← b; if rb_is_empty bm then None else Some (idx, bm)) (g <$> ps)
    = omap (fun p => if rb_is_empty (bucket_of r p) then None else Some (p, bucket_of r p)) ps) as H.
  { induction ps as [|p ps IH]; [done|]. rewrite fmap_cons. cbn [omap list_omap]. rewrite <- IH.
    unfold g at 1, bucket_of. destruct (mjoin (buckets r !! p)) as [bm|]; cbn [mbind option_bind default]; [done|].
    by rewrite (proj2 (rb_is_empty_spec rb_new)) by apply rb_elem_of_new. }
  destruct direction; unfold order.
  - apply H.
  - rewrite <- H. f_equal.
Qed.

(** *** The radix path of the executor *)

Definition after (direction : SortDirection) (cursor : option (N * N)) : N -> Prop :=
  fun x => match cursor with
           | Some c => SortField.after_cursor (bool_decide (direction = Desc)) value c x
           | None => True
           end.

Global Instance after_dec direction cursor x : Decision (after direction cursor x).
Proof. unfold after. destruct cursor; apply _. Defined.

(** The part of the page one bucket contributes. *)
Definition bucket_page r direction cursor p : list N :=
  merge_sort (slot_order direction) (filter (after direction cursor) (rb_iter (bucket_of r p))).

Lemma after_by_prefix direction v s x :
  v < 4294967296 ->
  (before direction (prefix_of (value x)) (prefix_of v) -> ~ after direction (Some (v, s)) x)
  /\ (before direction (prefix_of v) (prefix_of (value x)) -> after direction (Some (v, s)) x).
Proof.
  intros Hv. unfold after, SortField.after_cursor, before. cbn [fst snd].
  destruct direction; [rewrite bool_decide_false by done|rewrite bool_decide_true by done];
    (split; intros H%prefix_lt; [|by left]); lia.
Qed.

Lemma cursor_prefix_of v : v < 4294967296 -> N.to_nat (N.shiftr v 24 mod 256) = prefix_of v.
Proof.
  intros Hv. unfold prefix_of. rewrite N.mod_small; [done|].
  rewrite N.shiftr_div_pow2. apply N.Div0.div_lt_upper_bound. cbn. lia.
Qed.

Lemma filter_none (P : N -> Prop) `{!forall x, Decision (P x)} (l : list N) :
  Forall (fun x => ~ P x) l -> filter P l = [].
Proof. induction 1 as [|x l Hx _ IH]; [done|]. rewrite filter_cons. by rewrite decide_False. Qed.

(** All bucket pages together are the sorted, filtered set. *)
Lemma bucket_pages_sorted r S direction cursor :
  represents r S ->
  mjoin (bucket_page r direction cursor <$> order direction)
  = merge_sort (slot_order direction) (filter (after direction cursor) (rb_iter S)).
Proof.
  intros Hr. destruct (order_facts direction) as (Hnd & Hs & Hin).
  pose proof (merge_sort_parts prefix (slot_order direction) (filter (after direction cursor) (rb_iter S))
    (order direction) (before direction) Hnd Hs (before_slot_le direction)) as ->.
  - f_equal. apply list_fmap_ext. intros i p Hp. apply list_elem_of_lookup_2, Hin in Hp.
    unfold bucket_page. rewrite (bucket_iter r S p Hr Hp). unfold part. f_equal.
    rewrite !list_filter_filter. apply list_filter_iff. tauto.
  - apply Forall_forall. intros x _. apply Hin, prefix_bound.
Qed.

(** The cursor prefix the executor computes. *)
Definition cursor_prefix (cursor : option (N * N)) : option nat := (fun c => prefix_of c.1) <$> cursor.

Lemma bucket_page_skip r S direction v s p :
  represents r S -> (p < 256)%nat -> v < 4294967296 -> before direction p (prefix_of v) ->
  bucket_page r direction (Some (v, s)) p = [].
Proof.
  intros Hr Hp Hv Hb. unfold bucket_page. rewrite (bucket_iter r S p Hr Hp). unfold part.
  rewrite filter_none; [done|]. apply Forall_forall. intros x [Hx _]%list_elem_of_filter.
  apply after_by_prefix; [done|]. by rewrite Hx.
Qed.

Lemma bucket_page_all r S direction v s p :
  represents r S -> (p < 256)%nat -> v < 4294967296 -> before direction (prefix_of v) p ->
  bucket_page r direction (Some (v, s)) p = bucket_page r direction None p.
Proof.
  intros Hr Hp Hv Hb. unfold bucket_page. rewrite (bucket_iter r S p Hr Hp). unfold part. f_equal.
  apply list_filter_iff_strong. intros x [Hx _]%list_elem_of_filter. split; [done|]. intros _.
  apply after_by_prefix; [done|]. by rewrite Hx.
Qed.

(** What [top_n] returns for one bucket. *)
Lemma bucket_top_n sf r direction cursor p n :
  SortField.wf sf -> (SortField.num_bits sf <= 32)%nat -> SortField.reconstruct_value sf = value ->
  (forall x, x ∈ bucket_of r p -> x <= u32_max) ->
  (forall c, cursor = Some c -> c.1 < 2 ^ N.of_nat (SortField.num_bits sf)) ->
  (SortField.top_n sf (bucket_of r p) n (bool_decide (direction = Desc)) cursor).1
  = take (N.to_nat n) (bucket_page r direction cursor p).
Proof.
  intros Hwf Hn Hval Hu Hc. rewrite (top_n_eq_spec sf _ n _ cursor Hwf Hn Hu), Hval.
  unfold SortField.top_n_spec, bucket_page, norm_cursor. destruct cursor as [[v s]|].
  - specialize (Hc _ eq_refl). cbn [fst] in Hc. cbn [fmap option_fmap option_map fst snd].
    by rewrite N.mod_small.
  - cbn [fmap option_fmap option_map]. do 2 f_equal. symmetry. apply filter_all. by apply Forall_true.
Qed.

Lemma radix_loop_spec sf r S direction cursor :
  represents r S -> SortField.wf sf -> (SortField.num_bits sf <= 32)%nat ->
  SortField.reconstruct_value sf = value -> (forall x, x ∈ S -> x <= u32_max) ->
  (forall c, cursor = Some c -> c.1 < 2 ^ N.of_nat (SortField.num_bits sf)) ->
  forall ps n acc, Forall (fun p => p < 256)%nat ps ->
  radix_loop sf direction (cursor_prefix cursor) cursor
    (omap (fun p => if rb_is_empty (bucket_of r p) then None else Some (p, bucket_of r p)) ps) n acc
  = acc ++ take (N.to_nat n) (mjoin (bucket_page r direction cursor <$> ps)).
Proof.
  intros Hr Hwf Hn Hval Hu Hc. pose proof (pow2_le_u32 _ Hn) as Hpow.
  induction ps as [|p ps IH]; intros n acc Hps.
  { change (acc = acc ++ take (N.to_nat n) []). by rewrite take_nil, app_nil_r. }
  inversion_clear Hps as [|?? Hp Hps']. cbn [omap list_omap fmap list_fmap mjoin list_join].
  assert (forall x, x ∈ bucket_of r p -> x <= u32_max) as Hup.
  { intros x Hx. apply (proj2 Hr x p Hp) in Hx as [Hx _]. auto. }
  destruct (rb_is_empty (bucket_of r p)) eqn:E.
  { rewrite IH by done. unfold bucket_page at 2. apply rb_is_empty_true in E. by rewrite E. }
  cbn [radix_loop]. destruct (N.eqb_spec n 0) as [->|Hn0]; [by rewrite app_nil_r|].
  assert (forall c, take (N.to_nat n) (bucket_page r direction c p) = take (N.to_nat n) (bucket_page r direction cursor p) ->
    (c = cursor \/ c = None) ->
    radix_loop sf direction (cursor_prefix cursor) cursor
      (omap (fun p => if rb_is_empty (bucket_of r p) then None else Some (p, bucket_of r p)) ps)
      (n - N.of_nat (length (take (N.to_nat n) (SortField.top_n sf (bucket_of r p) n (bool_decide (direction = Desc)) c).1)))
      (acc ++ take (N.to_nat n) (SortField.top_n sf (bucket_of r p) n (bool_decide (direction = Desc)) c).1)
    = acc ++ take (N.to_nat n) (bucket_page r direction cursor p ++ mjoin (bucket_page r direction cursor <$> ps))) as Hgo.
  { intros c Hcp Hcc. rewrite IH by done. rewrite (bucket_top_n sf r direction c p n) by
      (done || (destruct Hcc; subst c; [done|intros ? [=]])).
    rewrite Hcp, take_take, Nat.min_id, take_app, <- app_assoc. do 3 f_equal.
    rewrite length_take. lia. }
  destruct cursor as [[v s]|]; cbn [cursor_prefix fmap option_fmap option_map fst].
  - specialize (Hc _ eq_refl). cbn [fst] in Hc. assert (v < 4294967296) as Hv by lia.
    destruct (match direction with Desc => (prefix_of v <? p)%nat | Asc => (p <? prefix_of v)%nat end) eqn:Esk.
    + assert (before direction p (prefix_of v)) as Hb.
      { destruct direction; apply Nat.ltb_lt in Esk; cbn [before]; lia. }
      rewrite (bucket_page_skip r S direction v s p Hr Hp Hv Hb).
      change (Some (prefix_of v)) with (cursor_prefix (Some (v, s))). by rewrite IH.
    + change (Some (prefix_of v)) with (cursor_prefix (Some (v, s))).
      destruct (bool_decide (cursor_prefix (Some (v, s)) = Some p)) eqn:Hcur; [apply Hgo; [done|by left]|].
      apply bool_decide_eq_false in Hcur. apply Hgo; [|by right].
      rewrite (bucket_page_all r S direction v s p Hr Hp Hv); [done|].
      assert (prefix_of v <> p) as Hne by (intros <-; done).
      destruct direction; apply Nat.ltb_ge in Esk; cbn [before]; lia.
  - rewrite (bool_decide_false (None = Some p)) by done. apply Hgo; [done|by left].
Qed.

End radix.
