(* ===== verification/RadixTheorems.v ===== *)
(** * The radix sort index: properties

    A radix index built from a bitmap and maintained by any sequence of its
    operations stays an exact bucketing of the set; offsets resolve to the right
    bucket; the executor's radix path returns the page of the specification. *)

From S2P Require Import Prelude Roaring Versioned Slot Config Sort SortFacts SortTheorems Filter.
From S2P Require Import Float64 Bytes BucketDiffLog TimeBuckets Query Dictionary Planner Executor.
From S2P Require Import ExecutorTheorems Radix RadixFacts.

Local Open Scope bitdex_scope.

(** The operations of an index, as the cache issues them: the sort value of a slot
    is read from the sort field when the slot enters or leaves. *)
Inductive rop : Type :=
| RInsert (slot : N)
| RRemove (slot : N)
| RRemoveBlind (slot : N)
| ROffset (offset : N) (direction : SortDirection).

Section maintenance.
Context {B : Type} `{HB : Roaring B}.
Context (value : N -> N).
Import RadixSortIndex.
Implicit Types (r : t B) (S : B) (x : N) (p : nat).

Definition rstep r (o : rop) : t B :=
  match o with
  | RInsert x => insert r x (value x)
  | RRemove x => remove r x (value x)
  | RRemoveBlind x => remove_blind r x
  | ROffset offset direction => (offset_to_bucket r offset direction).2
  end.

Definition rrun r (ops : list rop) : t B := foldl rstep r ops.

(** The set the operations maintain. *)
Definition rspec_step S (o : rop) : B :=
  match o with
  | RInsert x => rb_insert S x
  | RRemove x | RRemoveBlind x => rb_remove S x
  | ROffset _ _ => S
  end.

Definition rspec_run S (ops : list rop) : B := foldl rspec_step S ops.

Definition radix_inv r S : Prop := represents value r S /\ counts_ok r.

Lemma rebuild_inv r S : represents value r S -> radix_inv (rebuild_counts r) S.
Proof. intros Hr. split; [exact Hr|]. intros _. done. Qed.

Lemma rstep_inv r S o : radix_inv r S -> radix_inv (rstep r o) (rspec_step S o).
Proof.
  intros [Hr Hc]. destruct o as [x|x|x|offset direction]; cbn [rstep rspec_step].
  - split; [by apply represents_insert|]. intros [=].
  - split; [by apply represents_remove|]. intros [=].
  - split; [by apply represents_remove_blind|]. unfold remove_blind.
    destruct (remove_first (buckets r) x); [intros [=]|exact Hc].
  - unfold offset_to_bucket. cbv zeta. cbn [snd].
    destruct (counts_dirty r); [by apply rebuild_inv|by split].
Qed.

Lemma rrun_inv ops r S : radix_inv r S -> radix_inv (rrun r ops) (rspec_run S ops).
Proof.
  revert r S. induction ops as [|o ops IH]; intros r S Hr; [done|]. by apply IH, rstep_inv.
Qed.

Lemma from_bitmap_inv S : radix_inv (from_bitmap S value) S.
Proof. split; [apply represents_from_bitmap|]. intros _. done. Qed.

(** *** Offsets *)

Context (Hvalue : forall x, value x < 4294967296).

Lemma length_mjoin_cons (f : nat -> list N) p ps :
  length (mjoin (f <$> p :: ps)) = (length (f p) + length (mjoin (f <$> ps)))%nat.
Proof. rewrite fmap_cons. cbn [mjoin list_join]. apply length_app. Qed.

(** The search over running totals finds the list the offset falls into. *)
Lemma find_offset_spec (f : nat -> list N) ps k offset :
  k + N.of_nat (length (mjoin (f <$> ps))) < 4294967296 -> k <= offset ->
  let res := find_offset (zip ps (running_totals k ((fun p => N.of_nat (length (f p))) <$> ps))) offset k in
  mjoin (f <$> ps) !! N.to_nat (offset - k) = (po ← res; f po.1 !! N.to_nat po.2)
  /\ (res = None <-> k + N.of_nat (length (mjoin (f <$> ps))) <= offset)
  /\ (forall p o, res = Some (p, o) -> p ∈ ps /\ o < N.of_nat (length (f p))).
Proof.
  revert k. induction ps as [|p ps IH]; intros k Hk Hoff; cbv zeta.
  { cbn. split; [done|]. split; [|done]. split; [intros _; lia|done]. }
  rewrite length_mjoin_cons in Hk |- *. rewrite !fmap_cons. cbn [mjoin list_join running_totals zip_with].
  assert (wrap32 (k + N.of_nat (length (f p))) = k + N.of_nat (length (f p))) as ->.
  { unfold wrap32. apply N.mod_small. lia. }
  cbn [find_offset]. destruct (N.ltb_spec offset (k + N.of_nat (length (f p)))) as [Hlt|Hge].
  - cbn [mbind option_bind fst snd]. split_and!.
    + apply lookup_app_l. lia.
    + split; [done|lia].
    + intros q o [= <- <-]. split; [apply elem_of_cons; by left|lia].
  - destruct (IH (k + N.of_nat (length (f p)))) as (H1 & H2 & H3); [lia|lia|]. cbv zeta in *. split_and!.
    + rewrite lookup_app_r by lia. rewrite <- H1. f_equal. lia.
    + rewrite H2. lia.
    + intros q o Hq. destruct (H3 q o Hq). split; [apply elem_of_cons; by right|done].
Qed.

Notation page r direction := (bucket_page value r direction None).

Lemma page_length r S direction p :
  represents value r S -> (p < 256)%nat -> rb_len (bucket_of r p) = N.of_nat (length (page r direction p)).
Proof.
  intros Hr Hp. rewrite rb_len_iter. f_equal. unfold bucket_page. rewrite merge_sort_Permutation.
  by rewrite filter_all by by apply Forall_true.
Qed.

Lemma bucket_lens r S direction :
  represents value r S -> rb_len S < 4294967296 ->
  bucket_len <$> buckets r = (fun p => N.of_nat (length (page r direction p))) <$> seq 0 256.
Proof.
  intros Hr HS. apply list_eq. intros i. rewrite !list_lookup_fmap.
  destruct (decide (i < 256)%nat) as [Hi|Hi].
  - rewrite lookup_seq_lt by done. destruct (lookup_lt_is_Some_2 (buckets r) i) as [b Hb].
    { destruct Hr as [-> _]. lia. }
    rewrite Hb. cbn [fmap option_fmap option_map]. f_equal. rewrite <- (page_length r S), Nat.add_0_l by done.
    assert (rb_len (bucket_of r i) < 4294967296) as Hlt.
    { rewrite rb_len_iter, (bucket_iter value r S i Hr Hi). rewrite rb_len_iter in HS.
      pose proof (length_filter (fun x => prefix_of (value x) = i) (rb_iter S)). unfold part. lia. }
    revert Hlt. unfold bucket_of. rewrite Hb. cbn [mjoin option_join]. unfold bucket_len.
    destruct b as [bm|]; cbn [default]; intros Hlt; [by apply N.mod_small|].
    symmetry. apply (rb_len_permutation _ []); [constructor|]. intros x.
    pose proof (rb_elem_of_new (B := B) x) as Hn. rewrite elem_of_nil. exact (conj Hn (False_ind _)).
  - rewrite lookup_seq_ge, (lookup_ge_None_2 (buckets r)) by (destruct Hr; lia). done.
Qed.

Lemma running_totals_length k l : length (running_totals k l) = length l.
Proof. revert k. induction l as [|x l IH]; intros k; [done|]. cbn. by rewrite IH. Qed.

(** The pairs searched, in iteration order. *)
Lemma offset_pairs r S direction :
  radix_inv r S -> rb_len S < 4294967296 -> forall offset,
  (offset_to_bucket r offset direction).1 =
  find_offset (zip (order direction)
    (running_totals 0 ((fun p => N.of_nat (length (page r direction p))) <$> order direction))) offset 0.
Proof.
  intros [Hr Hc] HS offset. unfold offset_to_bucket. cbv zeta. cbn [fst].
  set (r' := if counts_dirty r then rebuild_counts r else r).
  assert (cumulative_desc r' = cumulative_desc (rebuild_counts r)
    /\ cumulative_asc r' = cumulative_asc (rebuild_counts r)) as [Hd Ha].
  { subst r'. destruct (counts_dirty r) eqn:E; [done|by apply Hc]. }
  pose proof (bucket_lens r S direction Hr HS) as Hl.
  destruct direction; rewrite ?Hd, ?Ha; unfold rebuild_counts; cbn [cumulative_desc cumulative_asc];
    rewrite imap_pair_zip, Hl; unfold order.
  - by rewrite running_totals_length, length_fmap, length_seq.
  - rewrite <- fmap_reverse, length_reverse, running_totals_length, length_fmap, length_reverse, length_seq.
    rewrite reverse_zip by (rewrite length_reverse, running_totals_length, length_fmap, length_reverse; done).
    by rewrite reverse_involutive.
Qed.

(** *** Totals and iteration *)

Lemma foldl_running (l : list (option B)) k :
  foldl (fun total b => wrap32 (total + bucket_len b)) k l
  = default k (last (running_totals k (bucket_len <$> l))).
Proof.
  revert k. induction l as [|b l IH]; intros k; [done|]. cbn [foldl]. rewrite IH, fmap_cons.
  cbn [running_totals]. rewrite last_cons.
  by destruct (last (running_totals (wrap32 (k + bucket_len b)) (bucket_len <$> l))).
Qed.

Lemma last_running (f : nat -> list N) ps k :
  k + N.of_nat (length (mjoin (f <$> ps))) < 4294967296 ->
  default k (last (running_totals k ((fun p => N.of_nat (length (f p))) <$> ps)))
  = k + N.of_nat (length (mjoin (f <$> ps))).
Proof.
  revert k. induction ps as [|p ps IH]; intros k Hk; [cbn; lia|].
  rewrite length_mjoin_cons in Hk |- *. rewrite fmap_cons. cbn [running_totals].
  assert (wrap32 (k + N.of_nat (length (f p))) = k + N.of_nat (length (f p))) as ->.
  { unfold wrap32. apply N.mod_small. lia. }
  rewrite last_cons. specialize (IH (k + N.of_nat (length (f p)))).
  destruct (last (running_totals _ _)); cbn [default] in IH |- *; unfold id in *; rewrite IH; lia.
Qed.

(** The pages of all buckets have as many slots as the set. *)
Lemma pages_length r S direction :
  represents value r S -> N.of_nat (length (mjoin (page r direction <$> order direction))) = rb_len S.
Proof.
  intros Hr. rewrite (bucket_pages_sorted value Hvalue r S direction None Hr), merge_sort_Permutation.
  by rewrite filter_all, rb_len_iter by by apply Forall_true.
Qed.

Lemma total_slots_ok r S : radix_inv r S -> rb_len S < 4294967296 -> total_slots r = rb_len S.
Proof.
  intros [Hr Hc] HS. unfold total_slots. destruct (counts_dirty r) eqn:E.
  - rewrite foldl_running, (bucket_lens r S Asc Hr HS), last_running; pose proof (pages_length r S Asc Hr) as Hp;
      unfold order in Hp; lia.
  - destruct (Hc E) as [-> _]. unfold rebuild_counts. cbn [cumulative_desc].
    rewrite (bucket_lens r S Desc Hr HS), <- fmap_reverse, <- head_lookup, head_reverse.
    pose proof (pages_length r S Desc Hr) as Hp. unfold order in Hp.
    pose proof (last_running (page r Desc) (reverse (seq 0 256)) 0) as Hl. cbv beta in Hl. lia.
Qed.

Lemma iter_buckets_sorted r S direction :
  represents value r S -> StronglySorted (before direction) (fst <$> iter_buckets r direction).
Proof.
  intros Hr. rewrite (iter_buckets_order value r S direction Hr).
  destruct (order_facts direction) as (_ & Hs & _). induction Hs as [|p ps Hs IH Hp]; [constructor|].
  cbn [omap list_omap]. destruct (rb_is_empty (bucket_of r p)); [exact IH|].
  rewrite fmap_cons. constructor; [exact IH|]. rewrite Forall_forall in Hp |- *.
  intros q Hq. apply list_elem_of_fmap in Hq as ([q' bm] & -> & Hq). apply list_elem_of_omap in Hq as (q & Hq & Hqe).
  destruct (rb_is_empty (bucket_of r q)); [done|]. injection Hqe as <- <-. by apply Hp.
Qed.

Lemma bucket_bound r S p bm : represents value r S -> bucket r p = Some bm -> (p < 256)%nat.
Proof.
  intros [Hl _] Hb. unfold bucket in Hb. destruct (buckets r !! p) eqn:E; [|done].
  apply lookup_lt_Some in E. lia.
Qed.

Lemma rb_is_empty_len (b : B) : rb_is_empty b = true <-> rb_len b = 0.
Proof. by rewrite rb_is_empty_spec, rb_len_zero. Qed.

Lemma iter_buckets_elem r S direction p bm :
  represents value r S ->
  (p, bm) ∈ iter_buckets r direction <-> bucket r p = Some bm /\ rb_len bm <> 0.
Proof.
  intros Hr. rewrite (iter_buckets_order value r S direction Hr), list_elem_of_omap.
  destruct (order_facts direction) as (_ & _ & Hin). split.
  - intros (q & _ & Hq). destruct (rb_is_empty (bucket_of r q)) eqn:E; [done|]. injection Hq as <- <-.
    assert (rb_len (bucket_of r q) <> 0) as Hne by (rewrite <- rb_is_empty_len, E; done).
    split; [|done]. revert Hne E. unfold bucket, bucket_of. destruct (mjoin (buckets r !! q)); [done|].
    intros Hne. exfalso. apply Hne, rb_is_empty_len, rb_is_empty_spec, rb_elem_of_new.
  - intros [Hb Hne]. exists p. split; [apply Hin; by eapply bucket_bound|].
    assert (bucket_of r p = bm) as -> by (unfold bucket_of; unfold bucket in Hb; by rewrite Hb).
    destruct (rb_is_empty bm) eqn:E; [by apply rb_is_empty_len in E|done].
Qed.

Lemma bucket_elem r S x p :
  represents value r S -> (p < 256)%nat ->
  (exists bm, bucket r p = Some bm /\ x ∈ bm) <-> x ∈ S /\ prefix_of (value x) = p.
Proof.
  intros [Hl Hr] Hp. rewrite <- (Hr x p Hp). unfold bucket, bucket_of.
  destruct (mjoin (buckets r !! p)) as [bm|]; cbn [default]; split.
  - by intros (? & [= <-] & ?).
  - eauto.
  - by intros (? & [=] & ?).
  - by intros ?%rb_elem_of_new.
Qed.

End maintenance.

Section radix_properties.
Context {B : Type} `{HB : Roaring B}.
Import RadixSortIndex.

(** Radix index maintenance: an index built from a bitmap and then maintained
    by any sequence of inserts, removes (with or without the sort value) and offset
    queries holds, in bucket [p], exactly the slots of the maintained set whose sort
    value has top byte [p]; bucket iteration yields each non-empty bucket once, in
    the direction's order, and the total is the cardinality of the set. *)
Theorem radix_maintained (value : N -> N) (S : B) (ops : list rop) :
  (forall x, value x < 4294967296) -> rb_len (rspec_run S ops) < 4294967296 ->
  let r := rrun value (from_bitmap S value) ops in
  let S' := rspec_run S ops in
  (forall x p, (p < 256)%nat ->
    (exists bm, bucket r p = Some bm /\ x ∈ bm) <-> x ∈ S' /\ prefix_of (value x) = p)
  /\ (forall direction, StronglySorted (before direction) (fst <$> iter_buckets r direction)
      /\ forall p bm, (p, bm) ∈ iter_buckets r direction <-> bucket r p = Some bm /\ rb_len bm <> 0)
  /\ total_slots r = rb_len S'.
Proof.
  intros Hv HS r S'. destruct (rrun_inv value ops _ _ (from_bitmap_inv value S)) as [Hr Hc].
  split_and!.
  - intros x p. by apply (bucket_elem value r S').
  - intros direction. split; [by apply (iter_buckets_sorted value r S')|].
    intros p bm. by apply (iter_buckets_elem value r S').
  - by apply (total_slots_ok value Hv r S').
Qed.

(** Deep pagination: the bucket and inner offset that [offset_to_bucket]
    returns address exactly the slot at that offset of the whole sorted set (the
    inner offset in the sorted bucket), in both directions and on a dirty or clean
    index; it returns nothing exactly when the offset is past the end. *)
Theorem radix_offset_correct (value : N -> N) (r : t B) (S : B) (offset : N) (direction : SortDirection) :
  (forall x, value x < 4294967296) -> radix_inv value r S -> rb_len S < 4294967296 ->
  let sorted := merge_sort (SortField.slot_le (bool_decide (direction = Desc)) value) in
  let result := (offset_to_bucket r offset direction).1 in
  sorted (rb_iter S) !! N.to_nat offset
  = ('(p, within) ← result; bm ← bucket r p; sorted (rb_iter bm) !! N.to_nat within)
  /\ (result = None <-> rb_len S <= offset)
  /\ radix_inv value (offset_to_bucket r offset direction).2 S.
Proof.
  intros Hv Hinv HS sorted result. pose proof Hinv as [Hr _].
  split_and!; [| |exact (rstep_inv value r S (ROffset offset direction) Hinv)];
    subst result; rewrite (offset_pairs value r S direction Hinv HS);
    destruct (find_offset_spec (bucket_page value r direction None) (order direction) 0 offset)
      as (H1 & H2 & H3); rewrite ?(pages_length value Hv r S direction Hr) in *; try lia.
  - rewrite (bucket_pages_sorted value Hv r S direction None Hr), N.sub_0_r in H1.
    rewrite filter_all in H1 by by apply Forall_true. subst sorted. rewrite H1.
    destruct (find_offset _ _ _) as [[p o]|]; cbn [mbind option_bind fst snd]; [|done].
    destruct (H3 p o eq_refl) as [Hp Ho]. apply order_facts in Hp.
    rewrite <- (page_length value r S direction p Hr Hp) in Ho.
    unfold bucket_page, bucket_of in *. unfold bucket. destruct (mjoin (buckets r !! p)) as [bm|]; cbn [mbind option_bind].
    + by rewrite filter_all by by apply Forall_true.
    + exfalso. cbn [default] in Ho.
      assert (rb_len (rb_new : B) = 0) as Hz by apply rb_is_empty_len, rb_is_empty_spec, rb_elem_of_new. lia.
  - exact H2.
Qed.

(** C24: The radix path of the executor is the sorted traversal: over an index that
    buckets the matching set by the values of the sort field (at most 32 layers, 32-bit
    slots), for a cursor whose value fits the field, [execute_from_radix] succeeds and
    returns the specified page (the slots after the cursor in sort order, at most [min
    limit max_page_size] of them) with the same continuation cursor as [sort_and_paginate]
    over the whole set. *)
Theorem execute_from_radix_correct (ex : QueryExecutor B) (sf : SortField.t B) (r : t B) (S : B)
    (sort : SortClause) (limit : N) (cursor : option CursorPosition) (total : N) :
  ex_sorts ex !! sc_field sort = Some sf -> SortField.wf sf -> (SortField.num_bits sf <= 32)%nat ->
  cursor_fits sf cursor -> (forall x, x ∈ S -> x <= u32_max) ->
  represents (SortField.reconstruct_value sf) r S ->
  let limit' := N.min limit (max_page_size ex) in
  exists res, execute_from_radix ex r sort limit cursor total = Ok res
  /\ qr_ids res = SortField.top_n_spec (SortField.reconstruct_value sf) (rb_iter S) limit'
                    (bool_decide (sc_direction sort = Desc)) (cursor_pair <$> cursor)
  /\ sort_and_paginate ex S sort limit' cursor = Ok (qr_ids res, qr_cursor res)
  /\ qr_total_matched res = total.
Proof.
  intros Hsf Hwf Hn Hc Hu Hr limit'. pose proof (pow2_le_u32 _ Hn) as Hpow.
  assert (forall x, SortField.reconstruct_value sf x < 4294967296) as Hv.
  { intros x. pose proof (reconstruct_bound sf x Hn). lia. }
  unfold execute_from_radix. rewrite Hsf. cbv zeta. eexists. split; [reflexivity|].
  cbn [qr_ids qr_cursor qr_total_matched]. fold limit'.
  assert ((fun c => N.to_nat (N.shiftr (cp_sort_value c) 24 mod 256)) <$> cursor
    = cursor_prefix (cursor_pair <$> cursor)) as ->.
  { destruct cursor as [[v s]|]; [|done]. cbn. f_equal. apply cursor_prefix_of. cbn in Hc. lia. }
  rewrite (iter_buckets_order (SortField.reconstruct_value sf) r S _ Hr).
  rewrite (radix_loop_spec (SortField.reconstruct_value sf) sf r S) ;try done.
  2:{ intros c Hcc. destruct cursor as [[v s]|]; [|done]. by injection Hcc as <-. }
  2:{ apply Forall_forall. intros p Hp. by apply order_facts in Hp. }
  rewrite (bucket_pages_sorted _ Hv r S _ _ Hr). cbn [app].
  rewrite (sort_page ex S sort sf limit' cursor) by done.
  split_and!; [|cbv zeta; do 2 f_equal|done]; unfold SortField.top_n_spec, after; destruct cursor as [[v s]|]; cbn;
    rewrite ?filter_all by (by apply Forall_true); done.
Qed.


End radix_properties.

(** ** Witnesses *)

Definition demo_value (x : N) : N := (x mod 256) * 16777216.

Lemma demo_value_bound x : demo_value x < 4294967296.
Proof. unfold demo_value. pose proof (N.mod_lt x 256). lia. Qed.

Definition demo_radix : RadixSortIndex.t Bitset :=
  rrun demo_value (RadixSortIndex.from_bitmap (bitset [3; 7; 9]) demo_value) [RInsert 12; RRemoveBlind 7].

Lemma radix_maintained_witness :
  RadixSortIndex.total_slots demo_radix = 3
  /\ (3%nat, bitset [3]) ∈ RadixSortIndex.iter_buckets demo_radix Desc.
Proof.
  destruct (radix_maintained demo_value (bitset [3; 7; 9]) [RInsert 12; RRemoveBlind 7] demo_value_bound)
    as (_ & Hit & Htot).
  - vm_compute. reflexivity.
  - split.
    + unfold demo_radix. rewrite Htot. vm_compute. reflexivity.
    + apply Hit. split; vm_compute; [reflexivity|discriminate].
Defined.

Lemma radix_offset_correct_witness :
  (RadixSortIndex.offset_to_bucket demo_radix 1 Desc).1 = Some (9%nat, 0)
  /\ merge_sort (SortField.slot_le true demo_value) [3; 9; 12] !! 1%nat = Some 9.
Proof.
  split; [vm_compute; reflexivity|].
  destruct (radix_offset_correct demo_value demo_radix (bitset [3; 9; 12]) 1 Desc demo_value_bound)
    as (H1 & _).
  - exact (rrun_inv demo_value [RInsert 12; RRemoveBlind 7] _ _ (from_bitmap_inv demo_value (bitset [3; 7; 9]))).
  - vm_compute. reflexivity.
  - transitivity (merge_sort (SortField.slot_le (bool_decide (Desc = Desc)) demo_value)
      (rb_iter (bitset [3; 9; 12])) !! N.to_nat 1); [vm_compute; reflexivity|].
    rewrite H1. vm_compute. reflexivity.
Defined.

Lemma execute_from_radix_correct_witness :
  exists res,
    execute_from_radix demo_ex
      (RadixSortIndex.from_bitmap (bitset [1; 2; 4]) (SortField.reconstruct_value demo_sort))
      (MkSortClause "reactionCount" Desc) 2 None 3 = Ok res
    /\ qr_ids res = [2; 4].
Proof.
  destruct (execute_from_radix_correct demo_ex demo_sort
    (RadixSortIndex.from_bitmap (bitset [1; 2; 4]) (SortField.reconstruct_value demo_sort))
    (bitset [1; 2; 4]) (MkSortClause "reactionCount" Desc) 2 None 3) as (res & H1 & H2 & _).
  - reflexivity.
  - apply demo_sort_wf.
  - vm_compute. lia.
  - done.
  - apply bitset_u32. repeat constructor; vm_compute; discriminate.
  - apply represents_from_bitmap.
  - exists res. split; [exact H1|]. rewrite H2. vm_compute. reflexivity.
Defined.
