(* ===== verification/Coalescer.v ===== *)
(** * The write coalescer (src/write_coalescer.rs)

    Mutations travel as [MutationOp] values through a channel; the flush thread
    drains the channel into a [WriteBatch], groups the operations by target bitmap
    and applies the groups in bulk. *)

From S2P Require Import Prelude Roaring Versioned Slot Config Sort Filter.

Inductive MutationOp : Type :=
| FilterInsert (field : string) (value : N) (slots : list N)
| FilterRemove (field : string) (value : N) (slots : list N)
| SortSet (field : string) (bit_layer : nat) (slots : list N)
| SortClear (field : string) (bit_layer : nat) (slots : list N)
| AliveInsert (slots : list N)
| AliveRemove (slots : list N)
| DeferredAlive (slot activate_at : N)
| DeferredCancel (slot : N).

(** The bitmap state every writer works on: the [&mut SlotAllocator], the
    [&mut FilterIndex] and the [&mut SortIndex] of the operations below. *)
Record IndexState (B : Type) : Type := MkIndexState {
  ix_slots : SlotAllocator.t B;
  ix_filters : gmap string (FilterField.t B);
  ix_sorts : gmap string (SortField.t B);
}.
Arguments MkIndexState {B} _ _ _.
Arguments ix_slots {B} _.
Arguments ix_filters {B} _.
Arguments ix_sorts {B} _.

(** [if let Some(field) = filters.get_field(name) { f(field) }], on the index of a
    state; unknown fields are skipped. *)
Definition with_filter {B : Type} (st : IndexState B) (name : string)
    (f : FilterField.t B -> FilterField.t B) : IndexState B :=
  MkIndexState (ix_slots st) (alter f name (ix_filters st)) (ix_sorts st).

Definition with_sort {B : Type} (st : IndexState B) (name : string)
    (f : SortField.t B -> SortField.t B) : IndexState B :=
  MkIndexState (ix_slots st) (ix_filters st) (alter f name (ix_sorts st)).

Definition with_slots {B : Type} (st : IndexState B)
    (f : SlotAllocator.t B -> SlotAllocator.t B) : IndexState B :=
  MkIndexState (f (ix_slots st)) (ix_filters st) (ix_sorts st).

Module WriteBatch.

(** Groups by target bitmap: the keys are [FilterGroupKey] and [SortGroupKey]. *)
Record t : Type := mk {
  ops : list MutationOp;
  filter_inserts : gmap (string * N) (list N);
  filter_removes : gmap (string * N) (list N);
  sort_sets : gmap (string * nat) (list N);
  sort_clears : gmap (string * nat) (list N);
  alive_inserts : list N;
  alive_removes : list N;
  deferred_muts : list (N * option N);
}.

Definition new : t := mk [] ∅ ∅ ∅ ∅ [] [] [].

Definition push_ops (b : t) (new_ops : list MutationOp) : t :=
  mk (ops b ++ new_ops) (filter_inserts b) (filter_removes b) (sort_sets b) (sort_clears b)
     (alive_inserts b) (alive_removes b) (deferred_muts b).

Definition len (b : t) : nat := length (ops b).
Definition is_empty (b : t) : bool := match ops b with [] => true | _ => false end.

(** [entry(key).or_default().extend(slots)] *)
Definition extend {K : Type} `{Countable K} (m : gmap K (list N)) (key : K) (slots : list N)
  : gmap K (list N) := <[key := default [] (m !! key) ++ slots]> m.

Definition group_op (b : t) (op : MutationOp) : t :=
  let '(mk os fi fr ss sc ai ar dm) := b in
  match op with
  | FilterInsert field value slots => mk os (extend fi (field, value) slots) fr ss sc ai ar dm
  | FilterRemove field value slots => mk os fi (extend fr (field, value) slots) ss sc ai ar dm
  | SortSet field bit_layer slots => mk os fi fr (extend ss (field, bit_layer) slots) sc ai ar dm
  | SortClear field bit_layer slots => mk os fi fr ss (extend sc (field, bit_layer) slots) ai ar dm
  | AliveInsert slots => mk os fi fr ss sc (ai ++ slots) ar dm
  | AliveRemove slots => mk os fi fr ss sc ai (ar ++ slots) dm
  | DeferredAlive slot activate_at => mk os fi fr ss sc ai ar (dm ++ [(slot, Some activate_at)])
  | DeferredCancel slot => mk os fi fr ss sc ai ar (dm ++ [(slot, None)])
  end.

(** [sort_unstable] on slot ids; equal ids are indistinguishable. *)
Definition sort_slots (slots : list N) : list N := merge_sort N.le slots.

Definition group_and_sort (b : t) : t :=
  let '(mk _ fi fr ss sc ai ar dm) := foldl group_op new (ops b) in
  mk [] (sort_slots <$> fi) (sort_slots <$> fr) (sort_slots <$> ss) (sort_slots <$> sc)
     (sort_slots ai) (sort_slots ar) dm.

Definition has_alive_mutations (b : t) : bool :=
  match alive_inserts b, alive_removes b with [], [] => false | _, _ => true end.

Definition has_deferred_alive (b : t) : bool :=
  match deferred_muts b with [] => false | _ => true end.

(** The extracted entries, inserts first; within a kind in map order. *)
Definition take_tier2_mutations (b : t) (tier2_fields : gset string)
  : list (string * N * list N * bool) * t :=
  let is_tier2 (kv : (string * N) * list N) := kv.1.1 ∈ tier2_fields in
  let row (is_set : bool) (kv : (string * N) * list N) := (kv.1.1, kv.1.2, kv.2, is_set) in
  ((row true <$> map_to_list (filter is_tier2 (filter_inserts b)))
     ++ (row false <$> map_to_list (filter is_tier2 (filter_removes b))),
   mk (ops b) (filter (fun kv => ~ is_tier2 kv) (filter_inserts b))
      (filter (fun kv => ~ is_tier2 kv) (filter_removes b))
      (sort_sets b) (sort_clears b) (alive_inserts b) (alive_removes b) (deferred_muts b)).

Definition mutated_sort_slots (b : t) : gmap string (gset N) :=
  let add (m : gmap string (gset N)) (kv : (string * nat) * list N) :=
    <[kv.1.1 := default ∅ (m !! kv.1.1) ∪ list_to_set kv.2]> m in
  foldl add (foldl add ∅ (map_to_list (sort_sets b))) (map_to_list (sort_clears b)).

Definition mutated_filter_fields (b : t) : gset string :=
  list_to_set ((fun kv => kv.1.1) <$> map_to_list (filter_inserts b))
  ∪ list_to_set ((fun kv => kv.1.1) <$> map_to_list (filter_removes b)).

Section apply.
Context {B : Type} `{!RoaringOps B}.

Definition apply_deferred (sl : SlotAllocator.t B) (dm : N * option N) : SlotAllocator.t B :=
  match dm.2 with
  | Some activate_at => SlotAllocator.schedule_alive sl dm.1 activate_at
  | None => SlotAllocator.cancel_deferred sl dm.1
  end.

(** [if !alive_inserts.is_empty() { alive_insert_bulk(..) }] *)
Definition insert_alive (sl : SlotAllocator.t B) (l : list N) : SlotAllocator.t B :=
  match l with [] => sl | _ => SlotAllocator.alive_insert_bulk sl l end.

(** [apply], with the iteration orders of the four hash maps as arguments. *)
Definition apply_in_order (fr fi : list ((string * N) * list N)) (sc ss : list ((string * nat) * list N))
    (b : t) (st : IndexState B) : IndexState B :=
  let st := foldl (fun st '((field, value), slots) =>
    with_filter st field (fun f => FilterField.remove_bulk f value slots)) st fr in
  let st := foldl (fun st '((field, value), slots) =>
    with_filter st field (fun f => FilterField.insert_bulk f value slots)) st fi in
  let st := foldl (fun st '((field, bit), slots) =>
    with_sort st field (fun f => SortField.clear_layer_bulk f bit slots)) st sc in
  let st := foldl (fun st '((field, bit), slots) =>
    with_sort st field (fun f => SortField.set_layer_bulk f bit slots)) st ss in
  with_slots st (fun sl =>
    let sl := insert_alive sl (alive_inserts b) in
    let sl := foldl SlotAllocator.alive_remove_one sl (alive_removes b) in
    let sl := foldl apply_deferred sl (deferred_muts b) in
    SlotAllocator.merge_alive sl).

Definition apply (b : t) (st : IndexState B) : IndexState B :=
  apply_in_order (map_to_list (filter_removes b)) (map_to_list (filter_inserts b))
    (map_to_list (sort_clears b)) (map_to_list (sort_sets b)) b st.

End apply.

End WriteBatch.

(** ** Sender and coalescer *)

Module WriteCoalescer.

(** The channel contents, the batch under construction, and the counter and the
    pending set shared with every sender; [connected] is false once the receiver
    is gone. *)
Record t : Type := mk {
  channel : list MutationOp;
  batch : WriteBatch.t;
  deferred_seq : N;
  deferred_pending : gset N;
  connected : bool;
}.

Definition new : t := mk [] WriteBatch.new 0 ∅ true.

(** [MutationSender::send]: [false] when the channel is disconnected. *)
Definition send (c : t) (op : MutationOp) : bool * t :=
  let '(mk ch b dseq pending conn) := c in
  let '(pending, is_deferred) :=
    match op with
    | DeferredAlive slot _ => ({[slot]} ∪ pending, true)
    | DeferredCancel slot => (pending ∖ {[slot]}, true)
    | _ => (pending, false)
    end in
  let dseq := if is_deferred then wrap64 (dseq + 1) else dseq in
  if conn then (true, mk (ch ++ [op]) b dseq pending conn)
  else (false, mk ch b (if is_deferred then wrap64 (dseq + u64_max) else dseq) pending conn).

(** [MutationSender::send_batch]: stops at the first failure. *)
Fixpoint send_batch (c : t) (ops : list MutationOp) : bool * t :=
  match ops with
  | [] => (true, c)
  | op :: rest =>
      match send c op with
      | (true, c) => send_batch c rest
      | (false, c) => (false, c)
      end
  end.

Definition push_ops (c : t) (ops : list MutationOp) : t :=
  mk (channel c) (WriteBatch.push_ops (batch c) ops) (deferred_seq c) (deferred_pending c) (connected c).

(** [prepare]: drain the channel, group and sort; the number of operations. *)
Definition prepare (c : t) : nat * t :=
  let b := WriteBatch.push_ops (batch c) (channel c) in
  if WriteBatch.is_empty b then (0%nat, mk [] b (deferred_seq c) (deferred_pending c) (connected c))
  else (WriteBatch.len b,
        mk [] (WriteBatch.group_and_sort b) (deferred_seq c) (deferred_pending c) (connected c)).

Section flush.
Context {B : Type} `{!RoaringOps B}.

Definition apply_prepared (c : t) (st : IndexState B) : IndexState B := WriteBatch.apply (batch c) st.

Definition flush (c : t) (st : IndexState B) : nat * t * IndexState B :=
  let '(count, c) := prepare c in
  match count with
  | O => (O, c, st)
  | _ => (count, c, apply_prepared c st)
  end.

End flush.

Definition deferred_alive_count (c : t) : nat := length (WriteBatch.deferred_muts (batch c)).

Definition deferred_scheduled_slots (c : t) : list N :=
  omap (fun dm : N * option N => _ ← dm.2; Some dm.1) (WriteBatch.deferred_muts (batch c)).

End WriteCoalescer.
