(* ===== verification/IndexFacts.v ===== *)
(** * The bitmap state as seen by writers: lemmas

    What a state holds ([fhas], [sbit], [live]) and how the single-field writes
    change it; shared by the coalescer, the mutation engine and the engine. *)

From S2P Require Import Prelude Roaring Versioned Slot Config Sort SortFacts SortTheorems.
From S2P Require Import Filter FilterFacts Coalescer.

Section field_lemmas.
Context {B : Type} `{HB : Roaring B}.
Implicit Types (f : FilterField.t B) (sf : SortField.t B) (v x : N).

Notation fwf f := (bitmaps_wf (FilterField.bitmaps f)).

Lemma has_insert f v y v' x :
  fwf f -> has (FilterField.insert f v y) v' x <-> (v' = v /\ x = y) \/ has f v' x.
Proof.
  intros Hw. unfold FilterField.insert. rewrite (entry_update_has _ _ _ _ _ _ (x = y));
    [done|done|apply wf_new_inserted|apply elem_of_new_inserted|]. intros vb _. apply elem_of_vb_insert.
Qed.

Lemma has_remove f v y v' x :
  fwf f -> has (FilterField.remove f v y) v' x <-> ~ (v' = v /\ x = y) /\ has f v' x.
Proof.
  intros Hw. unfold FilterField.remove. rewrite (entry_remove_has _ _ _ _ _ (x = y)); [done|done|].
  intros vb. by apply elem_of_vb_remove.
Qed.

Lemma has_insert_bulk f v l v' x :
  fwf f -> has (FilterField.insert_bulk f v l) v' x <-> (v' = v /\ x ∈ l) \/ has f v' x.
Proof.
  intros Hw. unfold FilterField.insert_bulk. rewrite (entry_update_has _ _ _ _ _ _ (x ∈ l));
    [done|done|apply wf_new_inserted|apply elem_of_new_inserted|]. intros vb _. apply elem_of_insert_bulk.
Qed.

Lemma has_remove_bulk f v l v' x :
  fwf f -> has (FilterField.remove_bulk f v l) v' x <-> ~ (v' = v /\ x ∈ l) /\ has f v' x.
Proof.
  intros Hw. unfold FilterField.remove_bulk. rewrite (entry_remove_has _ _ _ _ _ (x ∈ l)); [done|done|].
  intros vb. by apply elem_of_remove_all.
Qed.

Lemma entry_update_bitmaps_wf f v fresh upd :
  fwf f -> VersionedBitmap.wf fresh ->
  (forall vb, VersionedBitmap.wf vb -> VersionedBitmap.wf (upd vb)) ->
  bitmaps_wf (FilterField.entry_update (FilterField.bitmaps f) v fresh upd).
Proof.
  intros Hw Hf Hu v' vb. unfold FilterField.entry_update. rewrite lookup_insert.
  case_decide; [|apply Hw]. intros [= <-]. apply Hu.
  destruct (FilterField.bitmaps f !! v) eqn:E; [by eapply Hw|done].
Qed.

Lemma fwf_new cfg : fwf (FilterField.new cfg : FilterField.t B).
Proof. intros v vb H. cbn in H. by rewrite lookup_empty in H. Qed.

Lemma fwf_insert f v y : fwf f -> fwf (FilterField.insert f v y).
Proof.
  intros Hw. apply entry_update_bitmaps_wf; [done|apply wf_new_inserted|]. intros vb. by apply wf_insert.
Qed.

Lemma fwf_remove f v y : fwf f -> fwf (FilterField.remove f v y).
Proof.
  intros Hw. apply entry_update_bitmaps_wf; [done|apply wf_unloaded|]. intros vb. by apply wf_remove.
Qed.

Lemma fwf_insert_bulk f v l : fwf f -> fwf (FilterField.insert_bulk f v l).
Proof.
  intros Hw. apply entry_update_bitmaps_wf; [done|apply wf_new_inserted|]. intros vb. by apply wf_insert_bulk.
Qed.

Lemma fwf_remove_bulk f v l : fwf f -> fwf (FilterField.remove_bulk f v l).
Proof.
  intros Hw. apply entry_update_bitmaps_wf; [done|apply wf_unloaded|]. intros vb. by apply wf_remove_all.
Qed.

Lemma fwf_merge_dirty f : fwf f -> fwf (FilterField.merge_dirty f).
Proof.
  intros Hw v vb. rewrite merge_dirty_lookup. intros H. apply fmap_Some in H as (vb' & Hvb & ->).
  apply merge_if_wf. by eapply Hw.
Qed.

(** One layer of a sort field changed. *)
Lemma layer_has_one sf bit (g : VersionedBitmap.t B -> VersionedBitmap.t B) sf' i x :
  (forall j, SortField.bit_layers sf' !! j
     = if decide (j = bit) then g <$> SortField.bit_layers sf !! j else SortField.bit_layers sf !! j) ->
  layer_has sf' i x <->
  if decide (i = bit) then exists vb, SortField.bit_layers sf !! i = Some vb /\ x ∈ g vb
  else layer_has sf i x.
Proof.
  intros Hl. unfold layer_has. rewrite Hl. case_decide; [|done].
  destruct (SortField.bit_layers sf !! i); naive_solver.
Qed.

Lemma set_layer_lookup sf bit l j :
  SortField.bit_layers (SortField.set_layer_bulk sf bit l) !! j =
  if decide (j = bit) then (fun vb => VersionedBitmap.insert_bulk vb l) <$> SortField.bit_layers sf !! j
  else SortField.bit_layers sf !! j.
Proof.
  unfold SortField.set_layer_bulk. cbv zeta. cbn [SortField.invalidate_fused SortField.bit_layers].
  destruct (SortField.bit_layers sf !! bit) as [vb|] eqn:E; cbn [SortField.with_layers SortField.bit_layers].
  - case_decide; [subst; rewrite E, list_lookup_insert_eq; [done|by eapply lookup_lt_Some]|].
    by apply list_lookup_insert_ne.
  - case_decide; [subst; by rewrite E|done].
Qed.

Lemma clear_layer_lookup sf bit l j :
  SortField.bit_layers (SortField.clear_layer_bulk sf bit l) !! j =
  if decide (j = bit) then (fun vb => foldl VersionedBitmap.remove vb l) <$> SortField.bit_layers sf !! j
  else SortField.bit_layers sf !! j.
Proof.
  unfold SortField.clear_layer_bulk. cbv zeta. cbn [SortField.invalidate_fused SortField.bit_layers].
  destruct (SortField.bit_layers sf !! bit) as [vb|] eqn:E; cbn [SortField.with_layers SortField.bit_layers].
  - case_decide; [subst; rewrite E, list_lookup_insert_eq; [done|by eapply lookup_lt_Some]|].
    by apply list_lookup_insert_ne.
  - case_decide; [subst; by rewrite E|done].
Qed.

Lemma layer_has_set sf bit l i x :
  layer_has (SortField.set_layer_bulk sf bit l) i x <->
  (i = bit /\ x ∈ l /\ is_Some (SortField.bit_layers sf !! i)) \/ layer_has sf i x.
Proof.
  rewrite (layer_has_one sf bit _ _ i x (set_layer_lookup sf bit l)). unfold layer_has.
  case_decide; [|naive_solver]. setoid_rewrite elem_of_insert_bulk. unfold is_Some. naive_solver.
Qed.

Lemma layer_has_clear sf bit l i x :
  SortField.wf sf ->
  layer_has (SortField.clear_layer_bulk sf bit l) i x <-> ~ (i = bit /\ x ∈ l) /\ layer_has sf i x.
Proof.
  intros Hw. rewrite (layer_has_one sf bit _ _ i x (clear_layer_lookup sf bit l)). unfold layer_has.
  case_decide as Hi; [|naive_solver]. split.
  - intros (vb & Hvb & Hx). rewrite elem_of_remove_all in Hx
      by by eapply Forall_lookup_1; [apply (SortField.wf_layers _ Hw)|]. naive_solver.
  - intros [Hn (vb & Hvb & Hx)]. exists vb. split; [done|]. rewrite elem_of_remove_all
      by by eapply Forall_lookup_1; [apply (SortField.wf_layers _ Hw)|]. naive_solver.
Qed.

(** Layers changed bit by bit. *)
Lemma layer_has_changed sf sf' (g : nat -> VersionedBitmap.t B -> VersionedBitmap.t B) i x :
  (forall j, SortField.bit_layers sf' !! j = g j <$> SortField.bit_layers sf !! j) ->
  layer_has sf' i x <-> exists vb, SortField.bit_layers sf !! i = Some vb /\ x ∈ g i vb.
Proof. intros Hg. unfold layer_has. rewrite Hg. destruct (SortField.bit_layers sf !! i); cbn; naive_solver. Qed.

Lemma layer_has_lt sf i x : SortField.wf sf -> layer_has sf i x -> (i < SortField.num_bits sf)%nat.
Proof. intros Hw (vb & Hvb & _). apply lookup_lt_Some in Hvb. by rewrite (SortField.wf_length _ Hw) in Hvb. Qed.

Lemma layer_some sf i :
  SortField.wf sf -> (i < SortField.num_bits sf)%nat ->
  exists vb, SortField.bit_layers sf !! i = Some vb /\ VersionedBitmap.wf vb.
Proof.
  intros Hw Hi. destruct (lookup_lt_is_Some_2 (SortField.bit_layers sf) i) as [vb Hvb].
  { by rewrite (SortField.wf_length _ Hw). }
  exists vb. split; [done|]. by eapply Forall_lookup_1; [apply (SortField.wf_layers _ Hw)|].
Qed.

Lemma layer_has_insert sf slot value i x :
  SortField.wf sf -> (i < SortField.num_bits sf)%nat ->
  layer_has (SortField.insert sf slot value) i x <->
  (x = slot /\ bit_set value i = true) \/ layer_has sf i x.
Proof.
  intros Hw Hi. rewrite (layer_has_changed sf _ (insert_layer slot value)) by (intros; by apply insert_lookup).
  destruct (layer_some sf i Hw Hi) as (vb & Hvb & _). unfold layer_has. rewrite Hvb.
  setoid_rewrite insert_layer_elem. naive_solver.
Qed.

Lemma layer_has_remove sf slot i x :
  SortField.wf sf -> layer_has (SortField.remove sf slot) i x <-> x <> slot /\ layer_has sf i x.
Proof.
  intros Hw. rewrite (layer_has_changed sf _ (fun _ vb => VersionedBitmap.remove vb slot))
    by (intros; apply list_lookup_fmap).
  unfold layer_has. split.
  - intros (vb & Hvb & Hx). rewrite elem_of_vb_remove in Hx
      by by eapply Forall_lookup_1; [apply (SortField.wf_layers _ Hw)|]. naive_solver.
  - intros [Hn (vb & Hvb & Hx)]. exists vb. split; [done|]. by rewrite elem_of_vb_remove
      by by eapply Forall_lookup_1; [apply (SortField.wf_layers _ Hw)|].
Qed.

Lemma layer_has_update sf slot o n i x :
  SortField.wf sf -> (SortField.num_bits sf <= 32)%nat -> (i < SortField.num_bits sf)%nat ->
  layer_has (SortField.update sf slot o n) i x <->
  if decide (x = slot /\ bit_set o i <> bit_set n i) then bit_set n i = true else layer_has sf i x.
Proof.
  intros Hw Hn Hi. rewrite (layer_has_changed sf _ (update_layer slot o n)) by (intros; by apply update_lookup).
  destruct (layer_some sf i Hw Hi) as (vb & Hvb & Hwf). unfold layer_has. rewrite Hvb.
  pose proof (update_layer_elem slot o n i vb x Hwf ltac:(lia)) as Hu. case_decide; naive_solver.
Qed.

Lemma set_layer_bits sf bit l : SortField.num_bits (SortField.set_layer_bulk sf bit l) = SortField.num_bits sf.
Proof. unfold SortField.set_layer_bulk. cbv zeta. by destruct (_ !! bit). Qed.

Lemma clear_layer_bits sf bit l : SortField.num_bits (SortField.clear_layer_bulk sf bit l) = SortField.num_bits sf.
Proof. unfold SortField.clear_layer_bulk. cbv zeta. by destruct (_ !! bit). Qed.

End field_lemmas.

(** ** What a state holds *)

Section state_lemmas.
Context {B : Type} `{HB : Roaring B}.
Implicit Types (st : IndexState B) (v x : N) (field : string).

Definition fhas st field v x : Prop := exists ff, ix_filters st !! field = Some ff /\ has ff v x.

Definition sbit st field (i : nat) x : Prop := exists sf, ix_sorts st !! field = Some sf /\ layer_has sf i x.

Definition live st x : Prop := x ∈ SlotAllocator.alive (ix_slots st).

(** The layers a sort field has. *)
Definition layers_of st field : option nat := SortField.num_bits <$> ix_sorts st !! field.

Record state_wf st : Prop := {
  swf_filters : forall field ff, ix_filters st !! field = Some ff -> bitmaps_wf (FilterField.bitmaps ff);
  swf_sorts : forall field sf, ix_sorts st !! field = Some sf -> SortField.wf sf;
  swf_alive : VersionedBitmap.wf (SlotAllocator.alive (ix_slots st));
}.

(** The parts of a state that a write to a filter field leaves alone, and so on. *)
Lemma fhas_with_filter st name g field v x (P : Prop) :
  (forall ff, ix_filters st !! name = Some ff -> has (g ff) v x <-> P) ->
  fhas (with_filter st name g) field v x <->
  if decide (field = name) then is_Some (ix_filters st !! name) /\ P else fhas st field v x.
Proof.
  intros Hg. unfold fhas, with_filter. cbn [ix_filters]. destruct (decide (field = name)) as [->|Hne].
  - rewrite lookup_alter_eq. unfold is_Some. destruct (ix_filters st !! name) eqn:E; cbn; naive_solver.
  - by rewrite lookup_alter_ne.
Qed.

Lemma fhas_remove_bulk st name v l field v' x :
  state_wf st ->
  fhas (with_filter st name (fun f => FilterField.remove_bulk f v l)) field v' x <->
  ~ (field = name /\ v' = v /\ x ∈ l) /\ fhas st field v' x.
Proof.
  intros Hw. rewrite (fhas_with_filter _ _ _ _ _ _ (~ (v' = v /\ x ∈ l) /\ fhas st name v' x)).
  - case_decide as Hf; [subst field|naive_solver]. unfold fhas, is_Some. naive_solver.
  - intros ff Hff. rewrite has_remove_bulk by by eapply swf_filters. unfold fhas. naive_solver.
Qed.

Lemma fhas_insert_bulk st name v l field v' x :
  state_wf st ->
  fhas (with_filter st name (fun f => FilterField.insert_bulk f v l)) field v' x <->
  (field = name /\ v' = v /\ x ∈ l /\ is_Some (ix_filters st !! name)) \/ fhas st field v' x.
Proof.
  intros Hw. rewrite (fhas_with_filter _ _ _ _ _ _ ((v' = v /\ x ∈ l) \/ fhas st name v' x)).
  - case_decide as Hf; [subst field|naive_solver]. unfold fhas, is_Some. naive_solver.
  - intros ff Hff. rewrite has_insert_bulk by by eapply swf_filters. unfold fhas. naive_solver.
Qed.

Lemma sbit_with_sort st name g field i x (P : Prop) :
  (forall sf, ix_sorts st !! name = Some sf -> layer_has (g sf) i x <-> P) ->
  sbit (with_sort st name g) field i x <->
  if decide (field = name) then is_Some (ix_sorts st !! name) /\ P else sbit st field i x.
Proof.
  intros Hg. unfold sbit, with_sort. cbn [ix_sorts]. destruct (decide (field = name)) as [->|Hne].
  - rewrite lookup_alter_eq. unfold is_Some. destruct (ix_sorts st !! name) eqn:E; cbn; naive_solver.
  - by rewrite lookup_alter_ne.
Qed.

Lemma sbit_clear st name bit l field i x :
  state_wf st ->
  sbit (with_sort st name (fun f => SortField.clear_layer_bulk f bit l)) field i x <->
  ~ (field = name /\ i = bit /\ x ∈ l) /\ sbit st field i x.
Proof.
  intros Hw. rewrite (sbit_with_sort _ _ _ _ _ _ (~ (i = bit /\ x ∈ l) /\ sbit st name i x)).
  - case_decide as Hf; [subst field|naive_solver]. unfold sbit, is_Some. naive_solver.
  - intros sf Hsf. rewrite layer_has_clear by by eapply swf_sorts. unfold sbit. naive_solver.
Qed.

(** Setting a bit of a layer the field has. *)
Lemma sbit_set st name bit l field i x :
  state_wf st ->
  sbit (with_sort st name (fun f => SortField.set_layer_bulk f bit l)) field i x <->
  (field = name /\ i = bit /\ x ∈ l /\ (exists n, layers_of st name = Some n /\ (i < n)%nat)) \/ sbit st field i x.
Proof.
  intros Hw. destruct (ix_sorts st !! name) as [sf|] eqn:E.
  - assert (is_Some (SortField.bit_layers sf !! i) <-> (exists n, layers_of st name = Some n /\ (i < n)%nat)) as Hlt.
    { unfold layers_of. rewrite lookup_lt_is_Some, E. cbn.
      rewrite (SortField.wf_length sf (swf_sorts st Hw _ _ E)). naive_solver. }
    rewrite (sbit_with_sort _ _ _ _ _ _ ((i = bit /\ x ∈ l /\ is_Some (SortField.bit_layers sf !! i)) \/ sbit st name i x)).
    + case_decide as Hf; [subst field|naive_solver]. rewrite E. unfold sbit, is_Some in *. naive_solver.
    + rewrite E. intros ? [= <-]. rewrite layer_has_set. unfold sbit. rewrite E. naive_solver.
  - unfold sbit, with_sort, layers_of. cbn [ix_sorts]. rewrite E. cbn.
    destruct (decide (field = name)) as [->|Hne].
    + rewrite lookup_alter_eq, E. naive_solver.
    + rewrite lookup_alter_ne by done. naive_solver.
Qed.

(** *** Well-formedness *)

Lemma wf_with_filter st name g :
  state_wf st -> (forall ff, bitmaps_wf (FilterField.bitmaps ff) -> bitmaps_wf (FilterField.bitmaps (g ff))) ->
  state_wf (with_filter st name g).
Proof.
  intros [H1 H2 H3] Hg. split; cbn [with_filter ix_filters ix_sorts ix_slots]; [|done|done]. intros field ff.
  rewrite lookup_alter. case_decide; [|apply H1]. subst field. intros H. apply fmap_Some in H as (ff' & Hff' & ->).
  eauto.
Qed.

Lemma wf_with_sort st name g :
  state_wf st -> (forall sf, SortField.wf sf -> SortField.wf (g sf)) -> state_wf (with_sort st name g).
Proof.
  intros [H1 H2 H3] Hg. split; cbn [with_sort ix_filters ix_sorts ix_slots]; [done| |done]. intros field sf.
  rewrite lookup_alter. case_decide; [|apply H2]. subst field. intros H. apply fmap_Some in H as (sf' & Hsf' & ->).
  eauto.
Qed.

Lemma wf_with_slots st g :
  state_wf st -> VersionedBitmap.wf (SlotAllocator.alive (g (ix_slots st))) -> state_wf (with_slots st g).
Proof. intros [H1 H2 H3] Hg. by split. Qed.

Lemma wf_set_layer sf bit l : SortField.wf sf -> SortField.wf (SortField.set_layer_bulk sf bit l).
Proof. intros Hw. exact (wf_step sf (OpSetLayerBulk bit l) Hw). Qed.

Lemma wf_clear_layer sf bit l : SortField.wf sf -> SortField.wf (SortField.clear_layer_bulk sf bit l).
Proof. intros Hw. exact (wf_step sf (OpClearLayerBulk bit l) Hw). Qed.

(** The fields of a state never change, only their bitmaps. *)
Definition same_fields st st' : Prop :=
  (forall field, is_Some (ix_filters st' !! field) <-> is_Some (ix_filters st !! field))
  /\ (forall field, layers_of st' field = layers_of st field).

Lemma same_fields_refl st : same_fields st st.
Proof. split; done. Qed.

Lemma same_fields_trans st1 st2 st3 : same_fields st1 st2 -> same_fields st2 st3 -> same_fields st1 st3.
Proof. intros [H1 H2] [H3 H4]. split; [intros; by rewrite H3|intros; by rewrite H4]. Qed.

Lemma same_fields_filter st name g : same_fields st (with_filter st name g).
Proof.
  split; [|done]. intros field. cbn [with_filter ix_filters]. rewrite lookup_alter.
  case_decide; [subst; by rewrite fmap_is_Some|done].
Qed.

Lemma same_fields_sort st name g :
  (forall sf, SortField.num_bits (g sf) = SortField.num_bits sf) -> same_fields st (with_sort st name g).
Proof.
  intros Hg. split; [done|]. intros field. unfold layers_of. cbn [with_sort ix_sorts]. rewrite lookup_alter.
  case_decide; [subst|done]. rewrite <- option_fmap_compose. apply option_fmap_ext. intros sf. apply Hg.
Qed.

End state_lemmas.

#[export] Hint Resolve same_fields_refl same_fields_filter same_fields_sort
  wf_set_layer wf_clear_layer fwf_insert_bulk fwf_remove_bulk fwf_insert fwf_remove : bitdex.
