(* ===== verification/CoalescerTheorems.v ===== *)
(** * The write coalescer: properties

    The exact effect of applying a batch, and when it agrees with applying the
    operations one by one. *)

From S2P Require Import Prelude Roaring Versioned Slot Config Sort SortFacts SortTheorems.
From S2P Require Import Filter FilterFacts Coalescer IndexFacts.

(** ** The effects of a list of operations, per target *)

Definition sel_fi (field : string) (v : N) (o : MutationOp) : list N :=
  match o with FilterInsert f' v' l => if decide ((f', v') = (field, v)) then l else [] | _ => [] end.
Definition sel_fr (field : string) (v : N) (o : MutationOp) : list N :=
  match o with FilterRemove f' v' l => if decide ((f', v') = (field, v)) then l else [] | _ => [] end.
Definition sel_ss (field : string) (i : nat) (o : MutationOp) : list N :=
  match o with SortSet f' i' l => if decide ((f', i') = (field, i)) then l else [] | _ => [] end.
Definition sel_sc (field : string) (i : nat) (o : MutationOp) : list N :=
  match o with SortClear f' i' l => if decide ((f', i') = (field, i)) then l else [] | _ => [] end.
Definition sel_ai (o : MutationOp) : list N := match o with AliveInsert l => l | _ => [] end.
Definition sel_ar (o : MutationOp) : list N := match o with AliveRemove l => l | _ => [] end.
Definition sel_dm (o : MutationOp) : list (N * option N) :=
  match o with DeferredAlive s at_ => [(s, Some at_)] | DeferredCancel s => [(s, None)] | _ => [] end.

(** What the operations of [ops] together do to one target. *)
Definition all_of {A : Type} (sel : MutationOp -> list A) (ops : list MutationOp) : list A :=
  mjoin (sel <$> ops).

Lemma all_of_app {A} (sel : MutationOp -> list A) ops1 ops2 :
  all_of sel (ops1 ++ ops2) = all_of sel ops1 ++ all_of sel ops2.
Proof. unfold all_of. by rewrite fmap_app, join_app. Qed.

Lemma elem_of_all_of {A} (sel : MutationOp -> list A) ops x :
  x ∈ all_of sel ops <-> exists o, o ∈ ops /\ x ∈ sel o.
Proof.
  unfold all_of. rewrite list_elem_of_join. setoid_rewrite list_elem_of_fmap. naive_solver.
Qed.

(** ** Grouping *)

Section grouping.
Import WriteBatch.

(** A part of the batch that collects what [sel] selects. *)
Lemma gather {A} (get : t -> list A) (sel : MutationOp -> list A) :
  (forall b o, get (group_op b o) = get b ++ sel o) ->
  forall os b, get (foldl group_op b os) = get b ++ all_of sel os.
Proof.
  intros Hg os. induction os as [|o os IH]; intros b; [by rewrite app_nil_r|].
  cbn [foldl]. rewrite IH, Hg. by rewrite <- app_assoc.
Qed.

Lemma extend_lookup {K} `{Countable K} (m : gmap K (list N)) k k' l :
  default [] (extend m k l !! k') = default [] (m !! k') ++ (if decide (k = k') then l else []).
Proof.
  unfold extend. rewrite lookup_insert. case_decide; [by subst|]. by rewrite app_nil_r.
Qed.

Ltac gather_tac := intros [os fi fr ss sc ai ar dm] []; cbn; rewrite ?extend_lookup, ?app_nil_r; done.

Lemma group_fi ops field v :
  default [] (filter_inserts (foldl group_op new ops) !! (field, v)) = all_of (sel_fi field v) ops.
Proof. refine (gather (fun b => default [] (filter_inserts b !! (field, v))) (sel_fi field v) _ ops new). gather_tac. Qed.

Lemma group_fr ops field v :
  default [] (filter_removes (foldl group_op new ops) !! (field, v)) = all_of (sel_fr field v) ops.
Proof. refine (gather (fun b => default [] (filter_removes b !! (field, v))) (sel_fr field v) _ ops new). gather_tac. Qed.

Lemma group_ss ops field i :
  default [] (sort_sets (foldl group_op new ops) !! (field, i)) = all_of (sel_ss field i) ops.
Proof. refine (gather (fun b => default [] (sort_sets b !! (field, i))) (sel_ss field i) _ ops new). gather_tac. Qed.

Lemma group_sc ops field i :
  default [] (sort_clears (foldl group_op new ops) !! (field, i)) = all_of (sel_sc field i) ops.
Proof. refine (gather (fun b => default [] (sort_clears b !! (field, i))) (sel_sc field i) _ ops new). gather_tac. Qed.

Lemma group_ai ops : alive_inserts (foldl group_op new ops) = all_of sel_ai ops.
Proof. refine (gather alive_inserts sel_ai _ ops new). gather_tac. Qed.

Lemma group_ar ops : alive_removes (foldl group_op new ops) = all_of sel_ar ops.
Proof. refine (gather alive_removes sel_ar _ ops new). gather_tac. Qed.

Lemma group_dm ops : deferred_muts (foldl group_op new ops) = all_of sel_dm ops.
Proof. refine (gather deferred_muts sel_dm _ ops new). gather_tac. Qed.

Definition grouped (os : list MutationOp) : t := group_and_sort (push_ops new os).

Lemma grouped_eq os :
  let b := foldl group_op new os in
  grouped os = mk [] (sort_slots <$> filter_inserts b) (sort_slots <$> filter_removes b)
    (sort_slots <$> sort_sets b) (sort_slots <$> sort_clears b)
    (sort_slots (alive_inserts b)) (sort_slots (alive_removes b)) (deferred_muts b).
Proof. unfold grouped, group_and_sort. cbn [push_ops ops new app]. by destruct (foldl group_op new os). Qed.

(** Membership in a group is membership in the selected slots. *)
Lemma group_elem {K} `{Countable K} (m : gmap K (list N)) (groups : list (K * list N)) k x :
  groups ≡ₚ map_to_list (sort_slots <$> m) ->
  (exists l, (k, l) ∈ groups /\ x ∈ l) <-> x ∈ default [] (m !! k).
Proof.
  intros Hp. setoid_rewrite Hp. setoid_rewrite elem_of_map_to_list. rewrite lookup_fmap.
  destruct (m !! k) as [l0|]; cbn.
  - unfold sort_slots. split.
    + intros (l & [= <-] & Hx). by rewrite merge_sort_Permutation in Hx.
    + intros Hx. eexists. split; [done|]. by rewrite merge_sort_Permutation.
  - split; [naive_solver|]. by intros ?%not_elem_of_nil.
Qed.

End grouping.

(** ** Applying groups *)

Section applying.
Context {B : Type} `{HB : Roaring B}.
Implicit Types (st : IndexState B) (field : string) (v x : N).

Lemma apply_removes (fr : list ((string * N) * list N)) st :
  state_wf st ->
  let st' := foldl (fun st '((field, value), slots) =>
    with_filter st field (fun f => FilterField.remove_bulk f value slots)) st fr in
  state_wf st' /\ same_fields st st' /\ ix_sorts st' = ix_sorts st /\ ix_slots st' = ix_slots st
  /\ forall field v x, fhas st' field v x <->
       fhas st field v x /\ ~ exists l, ((field, v), l) ∈ fr /\ x ∈ l.
Proof.
  revert st. induction fr as [|[[f0 v0] l0] fr IH]; intros st Hw; cbn [foldl].
  - split_and!; auto with bitdex. intros. setoid_rewrite elem_of_nil. naive_solver.
  - destruct (IH (with_filter st f0 (fun f => FilterField.remove_bulk f v0 l0))) as (H1 & H2 & H3 & H4 & H5).
    { apply wf_with_filter; auto with bitdex. }
    split_and!; [done|by eapply same_fields_trans; [apply same_fields_filter|]|done|done|].
    intros field v x. rewrite H5, fhas_remove_bulk by done. setoid_rewrite elem_of_cons. naive_solver.
Qed.

Lemma apply_inserts (fi : list ((string * N) * list N)) st :
  state_wf st ->
  let st' := foldl (fun st '((field, value), slots) =>
    with_filter st field (fun f => FilterField.insert_bulk f value slots)) st fi in
  state_wf st' /\ same_fields st st' /\ ix_sorts st' = ix_sorts st /\ ix_slots st' = ix_slots st
  /\ forall field v x, fhas st' field v x <->
       fhas st field v x \/ (is_Some (ix_filters st !! field) /\ exists l, ((field, v), l) ∈ fi /\ x ∈ l).
Proof.
  revert st. induction fi as [|[[f0 v0] l0] fi IH]; intros st Hw; cbn [foldl].
  - split_and!; auto with bitdex. intros. setoid_rewrite elem_of_nil. naive_solver.
  - destruct (IH (with_filter st f0 (fun f => FilterField.insert_bulk f v0 l0))) as (H1 & H2 & H3 & H4 & H5).
    { apply wf_with_filter; auto with bitdex. }
    split_and!; [done|by eapply same_fields_trans; [apply same_fields_filter|]|done|done|].
    intros field v x. rewrite H5, fhas_insert_bulk by done.
    rewrite (proj1 (same_fields_filter st f0 (fun f => FilterField.insert_bulk f v0 l0)) field).
    setoid_rewrite elem_of_cons. naive_solver.
Qed.

Lemma apply_clears (sc : list ((string * nat) * list N)) st :
  state_wf st ->
  let st' := foldl (fun st '((field, bit), slots) =>
    with_sort st field (fun f => SortField.clear_layer_bulk f bit slots)) st sc in
  state_wf st' /\ same_fields st st' /\ ix_filters st' = ix_filters st /\ ix_slots st' = ix_slots st
  /\ forall field i x, sbit st' field i x <->
       sbit st field i x /\ ~ exists l, ((field, i), l) ∈ sc /\ x ∈ l.
Proof.
  revert st. induction sc as [|[[f0 i0] l0] sc IH]; intros st Hw; cbn [foldl].
  - split_and!; auto with bitdex. intros. setoid_rewrite elem_of_nil. naive_solver.
  - destruct (IH (with_sort st f0 (fun f => SortField.clear_layer_bulk f i0 l0))) as (H1 & H2 & H3 & H4 & H5).
    { apply wf_with_sort; auto with bitdex. }
    split_and!; [done| |done|done|].
    + eapply same_fields_trans; [apply same_fields_sort; intros; apply clear_layer_bits|done].
    + intros field i x. rewrite H5, sbit_clear by done. setoid_rewrite elem_of_cons. naive_solver.
Qed.

Lemma apply_sets (ss : list ((string * nat) * list N)) st :
  state_wf st ->
  let st' := foldl (fun st '((field, bit), slots) =>
    with_sort st field (fun f => SortField.set_layer_bulk f bit slots)) st ss in
  state_wf st' /\ same_fields st st' /\ ix_filters st' = ix_filters st /\ ix_slots st' = ix_slots st
  /\ forall field i x, sbit st' field i x <->
       sbit st field i x \/ ((exists n, layers_of st field = Some n /\ (i < n)%nat)
                             /\ exists l, ((field, i), l) ∈ ss /\ x ∈ l).
Proof.
  revert st. induction ss as [|[[f0 i0] l0] ss IH]; intros st Hw; cbn [foldl].
  - split_and!; auto with bitdex. intros. setoid_rewrite elem_of_nil. naive_solver.
  - destruct (IH (with_sort st f0 (fun f => SortField.set_layer_bulk f i0 l0))) as (H1 & H2 & H3 & H4 & H5).
    { apply wf_with_sort; auto with bitdex. }
    assert (same_fields st (with_sort st f0 (fun f => SortField.set_layer_bulk f i0 l0))) as Hs.
    { apply same_fields_sort. intros. apply set_layer_bits. }
    split_and!; [done|by eapply same_fields_trans|done|done|].
    intros field i x. rewrite H5, sbit_set by done. rewrite (proj2 Hs field).
    setoid_rewrite elem_of_cons. naive_solver.
Qed.

(** *** Slots *)

Implicit Types (sl : SlotAllocator.t B).

Lemma alive_remove_all l sl :
  SlotAllocator.alive (foldl SlotAllocator.alive_remove_one sl l)
    = foldl VersionedBitmap.remove (SlotAllocator.alive sl) l
  /\ SlotAllocator.deferred (foldl SlotAllocator.alive_remove_one sl l) = SlotAllocator.deferred sl
  /\ SlotAllocator.next_slot (foldl SlotAllocator.alive_remove_one sl l) = SlotAllocator.next_slot sl.
Proof. revert sl. induction l as [|y l IH]; intros sl; [done|]. exact (IH (SlotAllocator.alive_remove_one sl y)). Qed.

Lemma apply_deferred_alive dms sl :
  SlotAllocator.alive (foldl WriteBatch.apply_deferred sl dms) = SlotAllocator.alive sl.
Proof.
  revert sl. induction dms as [|[y [at_|]] dms IH]; intros sl; [done| |]; cbn [foldl]; by rewrite IH.
Qed.

(** What a run of deferred mutations does to the waiting lists depends only on them. *)
Lemma apply_deferred_waiting dms sl sl' :
  SlotAllocator.deferred sl = SlotAllocator.deferred sl' ->
  SlotAllocator.deferred (foldl WriteBatch.apply_deferred sl dms)
  = SlotAllocator.deferred (foldl WriteBatch.apply_deferred sl' dms).
Proof.
  revert sl sl'. induction dms as [|[y [at_|]] dms IH]; intros sl sl' Heq; [done| |]; cbn [foldl]; apply IH;
    unfold WriteBatch.apply_deferred, SlotAllocator.schedule_alive, SlotAllocator.cancel_deferred; cbn; by rewrite Heq.
Qed.

Lemma apply_slots (ai ar : list N) dms sl :
  VersionedBitmap.wf (SlotAllocator.alive sl) ->
  let sl1 := WriteBatch.insert_alive sl ai in
  let sl' := SlotAllocator.merge_alive
    (foldl WriteBatch.apply_deferred (foldl SlotAllocator.alive_remove_one sl1 ar) dms) in
  VersionedBitmap.wf (SlotAllocator.alive sl')
  /\ (forall x, x ∈ SlotAllocator.alive sl' <-> (x ∈ SlotAllocator.alive sl \/ x ∈ ai) /\ x ∉ ar)
  /\ SlotAllocator.deferred sl' = SlotAllocator.deferred (foldl WriteBatch.apply_deferred sl dms).
Proof.
  intros Hw sl1 sl'.
  assert (VersionedBitmap.wf (SlotAllocator.alive sl1)
    /\ (forall x, x ∈ SlotAllocator.alive sl1 <-> x ∈ SlotAllocator.alive sl \/ x ∈ ai)
    /\ SlotAllocator.deferred sl1 = SlotAllocator.deferred sl) as (Hw1 & Ha1 & Hd1).
  { subst sl1. destruct ai as [|y ai]; [split_and!; [done| |done]; intros; rewrite elem_of_nil; tauto|].
    split_and!; [by apply wf_insert_bulk| |done]. intros x. cbn [WriteBatch.insert_alive SlotAllocator.alive_insert_bulk SlotAllocator.alive].
    rewrite elem_of_insert_bulk. tauto. }
  destruct (alive_remove_all ar sl1) as (Hra & Hrd & _).
  subst sl'. cbn [SlotAllocator.merge_alive SlotAllocator.alive SlotAllocator.deferred].
  rewrite apply_deferred_alive, Hra. split_and!.
  - by apply wf_merge, wf_remove_all.
  - intros x. rewrite elem_of_merge by by apply wf_remove_all. rewrite elem_of_remove_all, Ha1 by done. tauto.
  - apply apply_deferred_waiting. by rewrite Hrd.
Qed.

End applying.

(** ** The effect of a batch *)

Section batch_properties.
Context {B : Type} `{HB : Roaring B}.
Implicit Types (st : IndexState B) (field : string) (v x : N).

(** The state [st'] is [st] after the effects of [ops], with removes before inserts
    on filter bitmaps and sort layers, inserts before removes on the alive bitmap,
    and the deferred mutations in their order. *)
Record batch_effect (ops : list MutationOp) st st' : Prop := {
  be_wf : state_wf st';
  be_fields : same_fields st st';
  be_filter : forall field v x, fhas st' field v x <->
    (is_Some (ix_filters st !! field) /\ x ∈ all_of (sel_fi field v) ops)
    \/ (fhas st field v x /\ x ∉ all_of (sel_fr field v) ops);
  be_sort : forall field i x, sbit st' field i x <->
    ((exists n, layers_of st field = Some n /\ (i < n)%nat) /\ x ∈ all_of (sel_ss field i) ops)
    \/ (sbit st field i x /\ x ∉ all_of (sel_sc field i) ops);
  be_live : forall x, live st' x <-> (live st x \/ x ∈ all_of sel_ai ops) /\ x ∉ all_of sel_ar ops;
  be_deferred : SlotAllocator.deferred (ix_slots st')
    = SlotAllocator.deferred (foldl WriteBatch.apply_deferred (ix_slots st) (all_of sel_dm ops));
}.

Lemma apply_in_order_effect ops fr fi sc ss st :
  state_wf st ->
  fr ≡ₚ map_to_list (WriteBatch.filter_removes (grouped ops)) ->
  fi ≡ₚ map_to_list (WriteBatch.filter_inserts (grouped ops)) ->
  sc ≡ₚ map_to_list (WriteBatch.sort_clears (grouped ops)) ->
  ss ≡ₚ map_to_list (WriteBatch.sort_sets (grouped ops)) ->
  batch_effect ops st (WriteBatch.apply_in_order fr fi sc ss (grouped ops) st).
Proof.
  intros Hw. rewrite grouped_eq.
  cbn [WriteBatch.filter_removes WriteBatch.filter_inserts WriteBatch.sort_clears WriteBatch.sort_sets].
  intros Hfr Hfi Hsc Hss. unfold WriteBatch.apply_in_order.
  cbn [WriteBatch.alive_inserts WriteBatch.alive_removes WriteBatch.deferred_muts].
  destruct (apply_removes fr st Hw) as (W1 & F1 & S1 & L1 & E1). set (st1 := foldl _ st fr) in *.
  destruct (apply_inserts fi st1 W1) as (W2 & F2 & S2 & L2 & E2). set (st2 := foldl _ st1 fi) in *.
  destruct (apply_clears sc st2 W2) as (W3 & F3 & S3 & L3 & E3). set (st3 := foldl _ st2 sc) in *.
  destruct (apply_sets ss st3 W3) as (W4 & F4 & S4 & L4 & E4). set (st4 := foldl _ st3 ss) in *.
  set (ai := WriteBatch.sort_slots (WriteBatch.alive_inserts (foldl WriteBatch.group_op WriteBatch.new ops))).
  set (ar := WriteBatch.sort_slots (WriteBatch.alive_removes (foldl WriteBatch.group_op WriteBatch.new ops))).
  assert (ix_slots st4 = ix_slots st) as Hsl by congruence.
  destruct (apply_slots ai ar (WriteBatch.deferred_muts (foldl WriteBatch.group_op WriteBatch.new ops)) (ix_slots st4))
    as (W5 & A5 & D5); [rewrite Hsl; apply Hw|].
  assert (same_fields st st4) as Hsf by (repeat (eapply same_fields_trans; [eassumption|]); apply same_fields_refl).
  split.
  - apply wf_with_slots; [exact W4|exact W5].
  - exact Hsf.
  - intros field v x. transitivity (fhas st2 field v x).
    { unfold fhas. cbn [with_slots ix_filters]. by rewrite S4, S3. }
    rewrite E2, E1, (group_elem _ fr (field, v) x Hfr), (group_elem _ fi (field, v) x Hfi), group_fi, group_fr.
    rewrite (proj1 F1 field). tauto.
  - intros field i x. transitivity (sbit st4 field i x); [done|].
    rewrite E4, E3, (group_elem _ sc (field, i) x Hsc), (group_elem _ ss (field, i) x Hss), group_ss, group_sc.
    assert (layers_of st3 field = layers_of st field) as ->.
    { by rewrite (proj2 F3), (proj2 F2), (proj2 F1). }
    assert (sbit st2 field i x <-> sbit st field i x) as -> by (unfold sbit; by rewrite S2, S1). tauto.
  - intros x. unfold live. cbn [with_slots ix_slots]. rewrite A5, Hsl. subst ai ar. unfold WriteBatch.sort_slots.
    by rewrite !merge_sort_Permutation, group_ai, group_ar.
  - cbn [with_slots ix_slots]. rewrite D5, Hsl. by rewrite group_dm.
Qed.

(** *** One operation at a time *)

Definition apply_op st (o : MutationOp) : IndexState B :=
  match o with
  | FilterInsert field v l => with_filter st field (fun f => FilterField.insert_bulk f v l)
  | FilterRemove field v l => with_filter st field (fun f => FilterField.remove_bulk f v l)
  | SortSet field i l => with_sort st field (fun f => SortField.set_layer_bulk f i l)
  | SortClear field i l => with_sort st field (fun f => SortField.clear_layer_bulk f i l)
  | AliveInsert l => with_slots st (fun sl => SlotAllocator.alive_insert_bulk sl l)
  | AliveRemove l => with_slots st (fun sl => foldl SlotAllocator.alive_remove_one sl l)
  | DeferredAlive s at_ => with_slots st (fun sl => SlotAllocator.schedule_alive sl s at_)
  | DeferredCancel s => with_slots st (fun sl => SlotAllocator.cancel_deferred sl s)
  end.

(** A later operation of the batch undoes an earlier one on the same bit, but the
    batch applies their kinds in the other order. *)
Definition conflict (earlier later : MutationOp) : Prop :=
  match earlier, later with
  | FilterInsert f v l, FilterRemove f' v' l' => (f, v) = (f', v') /\ exists x, x ∈ l /\ x ∈ l'
  | SortSet f i l, SortClear f' i' l' => (f, i) = (f', i') /\ exists x, x ∈ l /\ x ∈ l'
  | AliveRemove l, AliveInsert l' => exists x, x ∈ l /\ x ∈ l'
  | _, _ => False
  end.

Lemma all_of_one {A} (sel : MutationOp -> list A) o : all_of sel [o] = sel o.
Proof. unfold all_of. cbn. apply app_nil_r. Qed.

Lemma sel_conflict o o' x :
  ~ conflict o o' ->
  (forall field v, x ∈ sel_fi field v o -> x ∉ sel_fr field v o')
  /\ (forall field i, x ∈ sel_ss field i o -> x ∉ sel_sc field i o')
  /\ (x ∈ sel_ar o -> x ∉ sel_ai o').
Proof.
  intros Hn. split_and!; intros; intro; destruct o, o'; cbn in *;
    repeat match goal with
    | H : _ ∈ [] |- _ => by apply not_elem_of_nil in H
    | H : context [decide ?P] |- _ => destruct (decide P)
    end; simplify_eq; naive_solver.
Qed.

(** The shape of the effect on a part an operation does not touch. *)
Lemma no_effect (P Q : Prop) x : P <-> (Q /\ x ∈ []) \/ (P /\ x ∉ []).
Proof. rewrite elem_of_nil. tauto. Qed.

Lemma no_effect_live (P : Prop) x : P <-> (P \/ x ∈ []) /\ x ∉ [].
Proof. rewrite elem_of_nil. tauto. Qed.

Lemma apply_op_effect st o : state_wf st -> batch_effect [o] st (apply_op st o).
Proof.
  intros Hw. pose proof (swf_alive st Hw) as Ha.
  destruct o as [f w l|f w l|f j l|f j l|l|l|s at_|s]; cbn [apply_op]; split; intros;
    rewrite ?all_of_one; cbn [sel_fi sel_fr sel_ss sel_sc sel_ai sel_ar sel_dm];
    try exact (no_effect _ _ x); try exact (no_effect_live _ x); try (split; done); auto with bitdex.
  - apply wf_with_filter; auto with bitdex.
  - rewrite fhas_insert_bulk by done. case_decide; simplify_eq; rewrite ?elem_of_nil; naive_solver.
  - apply wf_with_filter; auto with bitdex.
  - rewrite fhas_remove_bulk by done. case_decide; simplify_eq; rewrite ?elem_of_nil; naive_solver.
  - apply wf_with_sort; auto with bitdex.
  - apply same_fields_sort. intros. apply set_layer_bits.
  - rewrite sbit_set by done. case_decide; simplify_eq; rewrite ?elem_of_nil; naive_solver.
  - apply wf_with_sort; auto with bitdex.
  - apply same_fields_sort. intros. apply clear_layer_bits.
  - rewrite sbit_clear by done. case_decide; simplify_eq; rewrite ?elem_of_nil; naive_solver.
  - apply wf_with_slots; [done|]. by apply wf_insert_bulk.
  - unfold live. cbn. rewrite elem_of_insert_bulk, elem_of_nil. tauto.
  - apply wf_with_slots; [done|]. rewrite (proj1 (alive_remove_all l _)). by apply wf_remove_all.
  - unfold live. cbn. rewrite (proj1 (alive_remove_all l _)), elem_of_remove_all, elem_of_nil by done. tauto.
  - cbn. apply (alive_remove_all l).
  - by apply wf_with_slots.
  - by apply wf_with_slots.
Qed.

(** Effects compose when nothing in the second part undoes the first. *)
Lemma batch_effect_app ops1 ops2 st st1 st2 :
  (forall o o', o ∈ ops1 -> o' ∈ ops2 -> ~ conflict o o') ->
  batch_effect ops1 st st1 -> batch_effect ops2 st1 st2 -> batch_effect (ops1 ++ ops2) st st2.
Proof.
  intros Hn E1 E2.
  assert (forall x, (forall field v, x ∈ all_of (sel_fi field v) ops1 -> x ∉ all_of (sel_fr field v) ops2)
    /\ (forall field i, x ∈ all_of (sel_ss field i) ops1 -> x ∉ all_of (sel_sc field i) ops2)
    /\ (x ∈ all_of sel_ar ops1 -> x ∉ all_of sel_ai ops2)) as Hc.
  { intros x. setoid_rewrite elem_of_all_of. split_and!; intros;
      intros (o' & Ho' & Hx'); destruct_and?; repeat match goal with H : exists _, _ |- _ => destruct H as (? & ? & ?) end;
      edestruct sel_conflict as (S1 & S2 & S3); [by eapply Hn|..]; naive_solver. }
  split.
  - apply (be_wf _ _ _ E2).
  - eapply same_fields_trans; [apply (be_fields _ _ _ E1)|apply (be_fields _ _ _ E2)].
  - intros field v x. destruct (Hc x) as [Hc1 _]. specialize (Hc1 field v).
    rewrite (be_filter _ _ _ E2), (be_filter _ _ _ E1), !all_of_app, !elem_of_app.
    rewrite (proj1 (be_fields _ _ _ E1) field). tauto.
  - intros field i x. destruct (Hc x) as [_ [Hc1 _]]. specialize (Hc1 field i).
    rewrite (be_sort _ _ _ E2), (be_sort _ _ _ E1), !all_of_app, !elem_of_app.
    rewrite (proj2 (be_fields _ _ _ E1) field). tauto.
  - intros x. destruct (Hc x) as [_ [_ Hc1]].
    rewrite (be_live _ _ _ E2), (be_live _ _ _ E1), !all_of_app, !elem_of_app. tauto.
  - rewrite (be_deferred _ _ _ E2), all_of_app, foldl_app.
    apply apply_deferred_waiting, (be_deferred _ _ _ E1).
Qed.

Lemma batch_effect_nil st : state_wf st -> batch_effect [] st st.
Proof.
  intros Hw. split; [done|apply same_fields_refl|..]; intros; cbn; rewrite ?elem_of_nil; try done; tauto.
Qed.

Lemma sequential_effect ops st :
  state_wf st -> StronglySorted (fun a b => ~ conflict a b) ops -> batch_effect ops st (foldl apply_op st ops).
Proof.
  intros Hw Hs. revert st Hw. induction Hs as [|o ops Hs IH Ho]; intros st Hw; [by apply batch_effect_nil|].
  pose proof (apply_op_effect st o Hw) as E. cbn [foldl]. apply (batch_effect_app [o] ops st (apply_op st o)); [|done|].
  - intros o1 o2 ->%list_elem_of_singleton Ho2. rewrite Forall_forall in Ho. auto.
  - apply IH, (be_wf _ _ _ E).
Qed.

(** Two states that answer every question about bitmaps the same way. *)
Definition same_contents st1 st2 : Prop :=
  (forall field v x, fhas st1 field v x <-> fhas st2 field v x)
  /\ (forall field i x, sbit st1 field i x <-> sbit st2 field i x)
  /\ (forall x, live st1 x <-> live st2 x)
  /\ SlotAllocator.deferred (ix_slots st1) = SlotAllocator.deferred (ix_slots st2).

Lemma effects_agree ops st st1 st2 :
  batch_effect ops st st1 -> batch_effect ops st st2 -> same_contents st1 st2.
Proof.
  intros E1 E2. split_and!; intros.
  - by rewrite (be_filter _ _ _ E1), (be_filter _ _ _ E2).
  - by rewrite (be_sort _ _ _ E1), (be_sort _ _ _ E2).
  - by rewrite (be_live _ _ _ E1), (be_live _ _ _ E2).
  - by rewrite (be_deferred _ _ _ E1), (be_deferred _ _ _ E2).
Qed.

Lemma grouped_apply_effect ops st : state_wf st -> batch_effect ops st (WriteBatch.apply (grouped ops) st).
Proof. intros Hw. by apply apply_in_order_effect. Qed.

(** C11: What a flush does: it takes the pushed and the queued operations, leaves the
    channel empty, and (in whatever order the hash maps are iterated) every filter value
    and sort layer ends up with its inserts and with what it had before minus its removes,
    the alive bitmap with what it had or gained minus its removes, and the waiting lists
    as if the deferred mutations had been made one by one in arrival order (where the
    comment at write_coalescer.rs:121 promises that cancellations go first; see the
    findings). *)
Theorem flush_effect (c : WriteCoalescer.t) st :
  state_wf st ->
  let ops := WriteBatch.ops (WriteCoalescer.batch c) ++ WriteCoalescer.channel c in
  let '(count, c', st') := WriteCoalescer.flush c st in
  count = length ops
  /\ WriteCoalescer.channel c' = []
  /\ batch_effect ops st st'
  /\ (ops <> [] -> forall fr fi sc ss,
       fr ≡ₚ map_to_list (WriteBatch.filter_removes (WriteCoalescer.batch c')) ->
       fi ≡ₚ map_to_list (WriteBatch.filter_inserts (WriteCoalescer.batch c')) ->
       sc ≡ₚ map_to_list (WriteBatch.sort_clears (WriteCoalescer.batch c')) ->
       ss ≡ₚ map_to_list (WriteBatch.sort_sets (WriteCoalescer.batch c')) ->
       same_contents (WriteBatch.apply_in_order fr fi sc ss (WriteCoalescer.batch c') st) st').
Proof.
  intros Hw ops. destruct c as [ch [os fi0 fr0 ss0 sc0 ai0 ar0 dm0] dseq pend conn].
  unfold WriteCoalescer.flush, WriteCoalescer.prepare.
  cbn [WriteCoalescer.batch WriteCoalescer.channel WriteBatch.push_ops WriteBatch.ops] in *.
  unfold WriteBatch.is_empty, WriteBatch.push_ops.
  cbn [WriteBatch.ops WriteBatch.filter_inserts WriteBatch.filter_removes WriteBatch.sort_sets
    WriteBatch.sort_clears WriteBatch.alive_inserts WriteBatch.alive_removes WriteBatch.deferred_muts].
  subst ops. destruct (os ++ ch) as [|o ops'] eqn:E; cbv beta iota zeta.
  { split_and!; [done|done|by apply batch_effect_nil|done]. }
  unfold WriteBatch.len. cbn [WriteBatch.ops length]. cbv beta iota zeta.
  assert (WriteBatch.group_and_sort (WriteBatch.mk (o :: ops') fi0 fr0 ss0 sc0 ai0 ar0 dm0)
    = grouped (o :: ops')) as -> by done.
  unfold WriteCoalescer.apply_prepared. cbn [WriteCoalescer.batch WriteCoalescer.channel].
  pose proof (grouped_apply_effect (o :: ops') st Hw) as He.
  split_and!; [done|done|exact He|]. intros _ fr fi sc ss Hfr Hfi Hsc Hss.
  eapply effects_agree; [|exact He]. by apply apply_in_order_effect.
Qed.

(** C14: Batching is transparent for batches in which no operation undoes an earlier
    one on the same bit against the batch's order (an insert followed by a remove
    of the same filter bit, a set followed by a clear of the same sort bit, an
    alive remove followed by an alive insert): the state after the bulk
    application holds exactly what it would hold after applying the operations
    one by one. *)
Theorem batch_equals_sequential (ops : list MutationOp) st :
  state_wf st -> StronglySorted (fun a b => ~ conflict a b) ops ->
  same_contents (WriteBatch.apply (grouped ops) st) (foldl apply_op st ops).
Proof.
  intros Hw Hs. eapply effects_agree; [by apply grouped_apply_effect|by apply sequential_effect].
Qed.

(** The operations of two consecutive updates of one slot: a field goes from [a] to
    [b] and back to [a]; and of a delete followed by a re-insert. *)
Definition there_and_back (field : string) (a b x : N) : list MutationOp :=
  [FilterRemove field a [x]; FilterInsert field b [x]; FilterRemove field b [x]; FilterInsert field a [x]].

Definition delete_reinsert (x : N) : list MutationOp := [AliveRemove [x]; AliveInsert [x]].

(** C36: Batching is not transparent when one flush carries two updates of the same
    slot: after a value changed from [a] to [b] and back, applied one by one the
    slot holds [a] only, but the batch leaves it under both; and a slot deleted
    and re-inserted within one batch ends up dead, although it was inserted last. *)
Theorem batch_reorders_same_slot st (field : string) (a b x : N) :
  state_wf st -> a <> b -> fhas st field a x -> ~ fhas st field b x ->
  let batched := WriteBatch.apply (grouped (there_and_back field a b x)) st in
  let one_by_one := foldl apply_op st (there_and_back field a b x) in
  (fhas batched field a x /\ fhas batched field b x)
  /\ (fhas one_by_one field a x /\ ~ fhas one_by_one field b x)
  /\ ~ live (WriteBatch.apply (grouped (delete_reinsert x)) st) x
  /\ live (foldl apply_op st (delete_reinsert x)) x.
Proof.
  intros Hw Hab Ha Hb batched one_by_one.
  assert (is_Some (ix_filters st !! field)) as Hf by (destruct Ha as (ff & -> & _); done).
  assert (forall w, x ∈ all_of (sel_fi field w) (there_and_back field a b x) <-> w = a \/ w = b) as Hins.
  { intros w. unfold all_of. cbn. repeat case_decide; simplify_eq; set_solver. }
  pose proof (grouped_apply_effect (there_and_back field a b x) st Hw) as E.
  pose proof (grouped_apply_effect (delete_reinsert x) st Hw) as E'.
  assert (state_wf (apply_op st (AliveRemove [x]))) as Hw2 by apply (be_wf _ _ _ (apply_op_effect st (AliveRemove [x]) Hw)).
  split_and!.
  - apply (be_filter _ _ _ E). left. rewrite Hins. auto.
  - apply (be_filter _ _ _ E). left. rewrite Hins. auto.
  - subst one_by_one. cbn [there_and_back foldl apply_op].
    rewrite fhas_insert_bulk, fhas_remove_bulk, fhas_insert_bulk, fhas_remove_bulk
      by (repeat (apply wf_with_filter; auto with bitdex); done).
    left. split_and!; [done|done|by apply list_elem_of_singleton|]. cbn. rewrite !lookup_alter_eq. by rewrite !fmap_is_Some.
  - subst one_by_one. cbn [there_and_back foldl apply_op].
    rewrite fhas_insert_bulk, fhas_remove_bulk by (repeat (apply wf_with_filter; auto with bitdex); done).
    intros [(_ & Heq & _)|[Hn _]]; [congruence|]. apply Hn. split_and!; [done|done|by apply list_elem_of_singleton].
  - rewrite (be_live _ _ _ E'). intros [_ Hn]. apply Hn. cbn. by apply list_elem_of_singleton.
  - cbn [delete_reinsert foldl]. apply (be_live _ _ _ (apply_op_effect _ (AliveInsert [x]) Hw2)). cbn.
    rewrite list_elem_of_singleton. split; [by right|]. apply not_elem_of_nil.
Qed.

(** Deferred mutations are made in arrival order: a cancellation that follows a schedule of
    the same slot in a batch wins, and the slot does not wait any more. *)
Lemma cancel_after_schedule_wins st x activate_at :
  state_wf st -> ~ SlotAllocator.waiting (ix_slots (WriteBatch.apply (grouped [DeferredAlive x activate_at; DeferredCancel x]) st)) x.
Proof.
  intros Hw (k & l & Hk & Hx). rewrite (be_deferred _ _ _ (grouped_apply_effect [DeferredAlive x activate_at; DeferredCancel x] st Hw)) in Hk.
  cbn [all_of sel_dm mjoin list_join fmap list_fmap app foldl WriteBatch.apply_deferred fst snd] in Hk.
  apply cancel_lookup_Some in Hk as (l0 & _ & -> & _). by apply list_elem_of_filter in Hx as [Hx _].
Qed.

End batch_properties.

(** ** Witnesses *)

Definition demo_index : IndexState Bitset :=
  MkIndexState (SlotAllocator.merge_alive (SlotAllocator.allocate SlotAllocator.new 1).2)
    {["tag"%string := FilterField.insert (FilterField.new (filter_config "tag" MultiValue)) 10 1]}
    {["score"%string := SortField.insert (SortField.new (sort_config "score" 8)) 1 5]}.

Lemma demo_index_wf : state_wf demo_index.
Proof.
  split.
  - intros field ff. cbn [demo_index ix_filters]. intros [<- <-]%lookup_singleton_Some.
    apply fwf_insert, fwf_new.
  - intros field sf. cbn [demo_index ix_sorts]. intros [<- <-]%lookup_singleton_Some.
    apply wf_insert_sf, wf_new_sf.
  - apply wf_merge, wf_insert, wf_new.
Qed.

Definition demo_ops : list MutationOp :=
  [FilterRemove "tag" 10 [1]; FilterInsert "tag" 20 [1]; SortClear "score" 0 [1]; SortSet "score" 1 [1];
   AliveInsert [2; 1]; DeferredAlive 7 900].

Lemma flush_effect_witness :
  let '(count, _, st') := WriteCoalescer.flush (WriteCoalescer.send_batch WriteCoalescer.new demo_ops).2 demo_index in
  count = 6%nat /\ fhas st' "tag" 20 1 /\ live st' 2.
Proof.
  pose proof (flush_effect (WriteCoalescer.send_batch WriteCoalescer.new demo_ops).2 demo_index demo_index_wf) as H.
  destruct (WriteCoalescer.flush _ _) as [[count c'] st']. destruct H as (H1 & _ & He & _). split_and!.
  - rewrite H1. reflexivity.
  - apply (be_filter _ _ _ He). left. split; [by eexists|]. apply (bool_decide_unpack _). vm_compute. exact I.
  - apply (be_live _ _ _ He). split; [right|]; apply (bool_decide_unpack _); vm_compute; exact I.
Defined.

Lemma batch_equals_sequential_witness :
  same_contents (WriteBatch.apply (grouped demo_ops) demo_index) (foldl apply_op demo_index demo_ops).
Proof.
  apply batch_equals_sequential; [apply demo_index_wf|]. unfold demo_ops.
  repeat constructor; intros H; cbn in H; naive_solver.
Defined.

Lemma batch_reorders_same_slot_witness :
  fhas (WriteBatch.apply (grouped (there_and_back "tag" 10 20 1)) demo_index) "tag" 20 1.
Proof.
  apply (batch_reorders_same_slot demo_index "tag" 10 20 1 demo_index_wf); [done| |].
  - eexists. split; [reflexivity|]. apply has_insert; [apply fwf_new|by left].
  - intros (ff & Hff & Hx). cbn in Hff. injection Hff as <-. apply has_insert in Hx; [|apply fwf_new].
    destruct Hx as [[Hne _]|(vb & Hvb & _)]; [discriminate Hne|]. cbn in Hvb. by rewrite lookup_empty in Hvb.
Defined.
