(* ===== verification/Mutation.v ===== *)
(** * Mutations (src/mutation.rs)

    Documents are turned into bitmap operations: the diff functions that feed the
    write coalescer, and the mutation engine that edits the bitmaps directly. *)

From S2P Require Import Prelude Roaring Versioned Slot Config Sort Filter Float64 Query Coalescer.

Local Open Scope bitdex_scope.

(** ** Configuration read by the write path (config.rs) *)

Inductive FieldValueType : Type :=
| FVInteger
| FVBoolean
| FVString
| FVMappedString
| FVLowCardinalityString
| FVIntegerArray
| FVExistsBoolean.

Global Instance FieldValueType_eq_dec : EqDecision FieldValueType.
Proof. solve_decision. Defined.

(** The parts of a field mapping, of the deferral settings and of the configuration
    that the modelled code reads ([data_schema] is flattened into its fields). *)
Record FieldMapping : Type := MkFieldMapping {
  fm_source : string;
  fm_target : string;
  fm_value_type : FieldValueType;
  fm_doc_only : bool;
  fm_filter_only : bool;
  fm_nullable : bool;
}.

Record DeferredAliveConfig : Type := MkDeferredAliveConfig {
  da_source_field : string;
  da_ms_to_seconds : bool;
}.

Record TimeBucketFieldConfig : Type := MkTimeBucketFieldConfig {
  tb_filter_field : string;
  tb_sort_field : string;
  tb_range_buckets : list BucketConfig;
}.

Record Configuration : Type := MkConfiguration {
  filter_fields : list FilterFieldConfig;
  sort_fields : list SortFieldConfig;
  cfg_time_buckets : option TimeBucketFieldConfig;
  cfg_max_page_size : N;
  cache_decay_rate : spec_float;
  deferred_alive : option DeferredAliveConfig;
  schema_id_field : string;
  schema_schema_version : N;
  schema_fields : list FieldMapping;
}.

(** A configuration with the default settings for everything but its fields and
    page size ([default_cache_decay_rate] is 0.95). *)
Definition basic_config (filters : list FilterFieldConfig) (sorts : list SortFieldConfig) (page : N) : Configuration :=
  MkConfiguration filters sorts None page (f64_ratio 95 100) None "" 1 [].

(** ** Documents *)

Inductive FieldValue : Type :=
| Single (v : Value)
| Multi (vs : list Value).

Notation Fields := (gmap string FieldValue).

Record Document : Type := MkDocument { doc_fields : Fields }.

Record StoredDoc : Type := MkStoredDoc { sd_fields : Fields; schema_version : N }.

(** A patch lists its changes in the iteration order of its hash map. *)
Record PatchField : Type := MkPatchField { pf_old : FieldValue; pf_new : FieldValue }.
Record PatchPayload : Type := MkPatchPayload { patch_fields : list (string * PatchField) }.

(** ** Values *)

(** The key of -1 is the null sentinel and is rejected. *)
Definition mutation_bitmap_key (val : Value) : option N :=
  match val with
  | Bool b => Some (if b then 1 else 0)
  | Integer v => let key := i64_as_u64 v in if key =? NULL_BITMAP_KEY then None else Some key
  | Float _ | Str _ => None
  end.

Definition value_to_sort_u32 (val : Value) : option N :=
  match val with
  | Integer v => Some (i64_as_u32 (Z.max v 0))
  | _ => None
  end.

Definition values_equal (a b : Value) : bool :=
  match a, b with
  | Integer a, Integer b => (a =? b)%Z
  | Bool a, Bool b => eqb a b
  | Float a, Float b => SFeqb a b
  | Str a, Str b => bool_decide (a = b)
  | _, _ => false
  end.

Definition field_values_equal (a b : option FieldValue) : bool :=
  match a, b with
  | None, None => true
  | Some (Single va), Some (Single vb) => values_equal va vb
  | Some (Multi va), Some (Multi vb) =>
      (length va =? length vb)%nat && forallb (fun ab => values_equal ab.1 ab.2) (zip va vb)
  | _, _ => false
  end.

Definition field_values (val : FieldValue) : list Value :=
  match val with Single v => [v] | Multi vs => vs end.

Definition collect_filter_remove_ops (field : string) (slot : N) (val : FieldValue) : list MutationOp :=
  omap (fun v => key ← mutation_bitmap_key v; Some (FilterRemove field key [slot])) (field_values val).

Definition collect_filter_insert_ops (field : string) (slot : N) (val : FieldValue) : list MutationOp :=
  omap (fun v => key ← mutation_bitmap_key v; Some (FilterInsert field key [slot])) (field_values val).

(** ** Sort values *)

(** The sort value of an optional field value: [and_then] on [Single]. *)
Definition single_sort (val : option FieldValue) : option N :=
  match val with
  | Some (Single v) => value_to_sort_u32 v
  | _ => None
  end.

Definition field_to_sort_u32 (fields : Fields) (name : string) : option N := single_sort (fields !! name).

Definition apply_computed_op (op : ComputedOp) (values : list N) : N :=
  match values with
  | [] => 0
  | v :: rest => match op with
                 | Greatest => foldl N.max v rest
                 | Least => foldl N.min v rest
                 end
  end.

(** [if values.is_empty() { None } else { Some(apply_computed_op(..)) }] *)
Definition computed_value (op : ComputedOp) (values : list N) : option N :=
  match values with [] => None | _ => Some (apply_computed_op op values) end.

Definition resolve_computed_sort (computed : ComputedField) (old_fields new_fields : Fields)
  : option N * option N :=
  let any_changed := existsb (fun f =>
    match new_fields !! f with
    | Some v => negb (field_values_equal (old_fields !! f) (Some v))
    | None => false
    end) (source_fields computed) in
  if negb any_changed then (None, None)
  else
    (computed_value (cf_op computed) (omap (field_to_sort_u32 old_fields) (source_fields computed)),
     computed_value (cf_op computed)
       (omap (fun f => match field_to_sort_u32 new_fields f with
                       | Some v => Some v
                       | None => field_to_sort_u32 old_fields f
                       end) (source_fields computed))).

Definition emit_sort_diff_ops (field : string) (num_bits : nat) (slot : N) (old_sort new_sort : option N)
  : list MutationOp :=
  match old_sort, new_sort with
  | Some old_s, Some new_s =>
      let diff := N.lxor old_s new_s in
      omap (fun bit =>
        if bit_set diff bit then
          Some (if bit_set new_s bit then SortSet field bit [slot] else SortClear field bit [slot])
        else None) (seq 0 num_bits)
  | Some _, None => (fun bit => SortClear field bit [slot]) <$> seq 0 num_bits
  | None, Some new_s =>
      omap (fun bit => if bit_set new_s bit then Some (SortSet field bit [slot]) else None) (seq 0 num_bits)
  | None, None => []
  end.

(** ** Deferral *)

(** The activation time of a document that is to be deferred: the timestamp of the
    configured field, when it is in the future of the clock reading [now]. *)
Definition deferral (config : Configuration) (new_fields : Fields) (now : N) : option N :=
  match deferred_alive config with
  | Some da =>
      match new_fields !! da_source_field da with
      | Some (Single (Integer ts)) =>
          let activate_at := i64_as_u64 ts in
          let activate_at := if da_ms_to_seconds da then activate_at / 1000 else activate_at in
          if now <? activate_at then Some activate_at else None
      | _ => None
      end
  | None => None
  end.

(** Removing the bits of a stored document: its filter values, and the set bits of
    its sort values. *)
Definition clear_filter_ops (config : Configuration) (slot : N) (old_fields : Fields) : list MutationOp :=
  mjoin ((fun fc =>
    match old_fields !! ff_name fc with
    | Some old_val => collect_filter_remove_ops (ff_name fc) slot old_val
    | None => []
    end) <$> filter_fields config).

Definition clear_sort_ops (config : Configuration) (slot : N) (old_fields : Fields) : list MutationOp :=
  mjoin ((fun sc =>
    match single_sort (old_fields !! sf_name sc) with
    | Some old_s =>
        omap (fun bit => if bit_set old_s bit then Some (SortClear (sf_name sc) bit [slot]) else None)
          (seq 0 (N.to_nat (sf_bits sc)))
    | None => []
    end) <$> sort_fields config).

(** ** exists_boolean shadows *)

Definition shadow_targets (config : Configuration) : list string :=
  fm_target <$> filter (fun fm => fm_value_type fm = FVExistsBoolean) (schema_fields config).

(** The first sibling mapping of the same source whose target the document has. *)
Fixpoint sibling_probe (siblings : list FieldMapping) (fm : FieldMapping) (fields : Fields)
  : option FieldValue :=
  match siblings with
  | [] => None
  | sibling :: rest =>
      if bool_decide (fm_source sibling = fm_source fm) && bool_decide (fm_target sibling <> fm_target fm) then
        match fields !! fm_target sibling with
        | Some v => Some v
        | None => sibling_probe rest fm fields
        end
      else sibling_probe rest fm fields
  end.

Definition derive_exists_boolean_shadows (config : Configuration) (fields : Fields) : list (string * bool) :=
  (fun fm =>
     let probe := match sibling_probe (schema_fields config) fm fields with
                  | Some v => Some v
                  | None => fields !! fm_source fm
                  end in
     (fm_target fm, bool_decide (is_Some probe)))
  <$> filter (fun fm => fm_value_type fm = FVExistsBoolean) (schema_fields config).

Definition shadow_ops (config : Configuration) (slot : N) (fields : Fields) : list MutationOp :=
  mjoin ((fun '(name, derived) =>
    let set_key := if derived : bool then 1 else 0 in
    let clear_key := if derived : bool then 0 else 1 in
    [FilterRemove name clear_key [slot]; FilterInsert name set_key [slot]])
    <$> derive_exists_boolean_shadows config fields).

(** ** The diff functions *)

(** The filter operations for a field whose value changes from [old_val] to [new_val]. *)
Definition filter_diff_ops (field : string) (slot : N) (old_val new_val : option FieldValue) : list MutationOp :=
  if field_values_equal old_val new_val then []
  else from_option (collect_filter_remove_ops field slot) [] old_val
       ++ from_option (collect_filter_insert_ops field slot) [] new_val.

Definition upsert_filter_ops (config : Configuration) (slot : N) (old_fields new_fields : Fields)
  : list MutationOp :=
  mjoin ((fun fc =>
    if bool_decide (ff_name fc ∈ shadow_targets config) then []
    else filter_diff_ops (ff_name fc) slot (old_fields !! ff_name fc) (new_fields !! ff_name fc))
    <$> filter_fields config).

(** The sort operations for a field whose value changes. *)
Definition sort_diff_ops (sc : SortFieldConfig) (slot : N) (old_sort new_sort : option N) : list MutationOp :=
  if bool_decide (old_sort = new_sort) then []
  else emit_sort_diff_ops (sf_name sc) (N.to_nat (sf_bits sc)) slot old_sort new_sort.

(** A sort field read directly from the document. *)
Definition direct_sort_diff_ops (sc : SortFieldConfig) (slot : N) (old_val new_val : option FieldValue)
  : list MutationOp :=
  if field_values_equal old_val new_val then []
  else sort_diff_ops sc slot (single_sort old_val) (single_sort new_val).

Definition upsert_sort_ops (config : Configuration) (slot : N) (old_fields new_fields : Fields)
  : list MutationOp :=
  mjoin ((fun sc =>
    match computed sc with
    | Some c => let '(old_sort, new_sort) := resolve_computed_sort c old_fields new_fields in
                sort_diff_ops sc slot old_sort new_sort
    | None => direct_sort_diff_ops sc slot (old_fields !! sf_name sc) (new_fields !! sf_name sc)
    end) <$> sort_fields config).

Definition fresh_filter_ops (config : Configuration) (slot : N) (new_fields : Fields) : list MutationOp :=
  mjoin ((fun fc =>
    if bool_decide (ff_name fc ∈ shadow_targets config) then []
    else from_option (collect_filter_insert_ops (ff_name fc) slot) [] (new_fields !! ff_name fc))
    <$> filter_fields config).

(** The sort value of a document on a fresh insert. *)
Definition fresh_sort_value (sc : SortFieldConfig) (new_fields : Fields) : option N :=
  match computed sc with
  | Some c => computed_value (cf_op c) (omap (field_to_sort_u32 new_fields) (source_fields c))
  | None => single_sort (new_fields !! sf_name sc)
  end.

(** Full overwrite: a set or a clear for every bit. *)
Definition fresh_sort_ops (config : Configuration) (slot : N) (new_fields : Fields) : list MutationOp :=
  mjoin ((fun sc =>
    match fresh_sort_value sc new_fields with
    | Some sort_val =>
        (fun bit => if bit_set sort_val bit then SortSet (sf_name sc) bit [slot]
                    else SortClear (sf_name sc) bit [slot]) <$> seq 0 (N.to_nat (sf_bits sc))
    | None => []
    end) <$> sort_fields config).

Definition diff_document (slot : N) (old_doc : option StoredDoc) (new_doc : Document) (config : Configuration)
    (is_upsert : bool) (now : N) : list MutationOp :=
  let new_fields := doc_fields new_doc in
  match deferral config new_fields now with
  | Some activate_at =>
      match old_doc with
      | Some old => clear_filter_ops config slot (sd_fields old) ++ clear_sort_ops config slot (sd_fields old)
                    ++ [AliveRemove [slot]]
      | None => []
      end ++ [DeferredAlive slot activate_at]
  | None =>
      (if is_upsert then
         let old_fields := from_option sd_fields ∅ old_doc in
         upsert_filter_ops config slot old_fields new_fields
         ++ upsert_sort_ops config slot old_fields new_fields
       else
         match old_doc with
         | Some old => clear_filter_ops config slot (sd_fields old) ++ clear_sort_ops config slot (sd_fields old)
         | None => []
         end
         ++ fresh_filter_ops config slot new_fields ++ fresh_sort_ops config slot new_fields)
      ++ shadow_ops config slot new_fields ++ [AliveInsert [slot]]
  end.

Definition diff_document_partial (slot : N) (old_doc : option StoredDoc) (new_doc : Document)
    (config : Configuration) (now : N) : list MutationOp :=
  let new_fields := doc_fields new_doc in
  let old_fields := from_option sd_fields ∅ old_doc in
  match deferral config new_fields now with
  | Some activate_at =>
      clear_filter_ops config slot old_fields ++ clear_sort_ops config slot old_fields
      ++ [AliveRemove [slot]; DeferredAlive slot activate_at]
  | None =>
      mjoin ((fun fc =>
        match new_fields !! ff_name fc with
        | Some v => filter_diff_ops (ff_name fc) slot (old_fields !! ff_name fc) (Some v)
        | None => []
        end) <$> filter_fields config)
      ++ mjoin ((fun sc =>
        match computed sc with
        | Some c =>
            if existsb (fun f => bool_decide (is_Some (new_fields !! f))) (source_fields c) then
              let '(old_sort, new_sort) := resolve_computed_sort c old_fields new_fields in
              sort_diff_ops sc slot old_sort new_sort
            else []
        | None =>
            match new_fields !! sf_name sc with
            | Some v => direct_sort_diff_ops sc slot (old_fields !! sf_name sc) (Some v)
            | None => []
            end
        end) <$> sort_fields config)
  end.

Definition diff_patch (slot : N) (patch : PatchPayload) (config : Configuration) : list MutationOp :=
  mjoin ((fun '(field_name, change) =>
    (if existsb (fun fc => bool_decide (ff_name fc = field_name)) (filter_fields config) then
       collect_filter_remove_ops field_name slot (pf_old change)
       ++ collect_filter_insert_ops field_name slot (pf_new change)
     else [])
    ++ match List.find (fun sc => bool_decide (sf_name sc = field_name)) (sort_fields config) with
       | Some sc =>
           match pf_old change, pf_new change with
           | Single old_val, Single new_val =>
               match value_to_sort_u32 old_val, value_to_sort_u32 new_val with
               | Some old_sort, Some new_sort =>
                   emit_sort_diff_ops field_name (N.to_nat (sf_bits sc)) slot (Some old_sort) (Some new_sort)
               | _, _ => []
               end
           | _, _ => []
           end
       | None => []
       end) <$> patch_fields patch).

(** ** The document store, as an interface *)

Class DocStoreOps (D : Type) : Type := {
  ds_get : D -> N -> result (option StoredDoc);
  ds_put : D -> N -> StoredDoc -> result D;
}.

(** What the engine relies on, for the states of a store that are [ds_sound] and the
    documents that fit it: reads succeed; a put succeeds and changes one document, which
    is read back with the schema version the store reports.  [EngineStore] proves this of
    the shard store of documents, opened without recorded field defaults. *)
Class DocStoreView (D : Type) : Type := {
  ds_sound : D -> Prop;
  ds_fits : D -> Fields -> Prop;
  ds_version : D -> N;
}.

Class DocStore (D : Type) `{!DocStoreOps D, !DocStoreView D} : Prop := {
  ds_get_ok : forall d id, ds_sound d -> id <= u32_max -> exists o, ds_get d id = Ok o;
  ds_put_get : forall d id fields, ds_sound d -> id <= u32_max -> ds_fits d fields ->
    exists d', ds_put d id (MkStoredDoc fields 0) = Ok d' /\ ds_sound d' /\ ds_version d' = ds_version d
      /\ forall j, j <= u32_max -> ds_get d' j = if decide (j = id) then Ok (Some (MkStoredDoc fields (ds_version d))) else ds_get d j;
}.

(** ** The mutation engine *)

Module MutationEngine.

Section ops.
Context {B D : Type} `{!RoaringOps B} `{!DocStoreOps D}.
Context (config : Configuration).

(** The bitmap state and the document store it borrows. *)
Record state : Type := mk { index : IndexState B; docstore : D }.

Implicit Types (st : state) (ix : IndexState B).

Definition clear_filter_bits (f : FilterField.t B) (id : N) (val : FieldValue) : FilterField.t B :=
  foldl (fun f v => from_option (fun key => FilterField.remove f key id) f (mutation_bitmap_key v))
    f (field_values val).

Definition set_filter_bits (f : FilterField.t B) (id : N) (val : FieldValue) : FilterField.t B :=
  foldl (fun f v => from_option (fun key => FilterField.insert f key id) f (mutation_bitmap_key v))
    f (field_values val).

Definition update_filter ix (id : N) (old_fields new_fields : Fields) (fc : FilterFieldConfig) : IndexState B :=
  let field_name := ff_name fc in
  let old_val := old_fields !! field_name in
  let new_val := new_fields !! field_name in
  if field_values_equal old_val new_val then ix
  else with_filter ix field_name (fun f =>
    let f := from_option (clear_filter_bits f id) f old_val in
    from_option (set_filter_bits f id) f new_val).

Definition update_sort ix (id : N) (old_fields new_fields : Fields) (sc : SortFieldConfig) : IndexState B :=
  let field_name := sf_name sc in
  let old_val := old_fields !! field_name in
  let new_val := new_fields !! field_name in
  if field_values_equal old_val new_val then ix
  else with_sort ix field_name (fun f =>
    match single_sort old_val, single_sort new_val with
    | Some old_s, Some new_s => SortField.update f id old_s new_s
    | Some _, None => SortField.remove f id
    | None, Some new_s => SortField.insert f id new_s
    | None, None => f
    end).

Definition diff_and_update ix (id : N) (old_doc : option StoredDoc) (new_doc : Document) : IndexState B :=
  let old_fields := from_option sd_fields ∅ old_doc in
  let ix := foldl (fun ix fc => update_filter ix id old_fields (doc_fields new_doc) fc) ix (filter_fields config) in
  foldl (fun ix sc => update_sort ix id old_fields (doc_fields new_doc) sc) ix (sort_fields config).

Definition clear_old_bitmaps ix (id : N) (old_doc : StoredDoc) : IndexState B :=
  let ix := foldl (fun ix fc =>
    from_option (fun old_val => with_filter ix (ff_name fc) (fun f => clear_filter_bits f id old_val)) ix
      (sd_fields old_doc !! ff_name fc)) ix (filter_fields config) in
  foldl (fun ix sc =>
    match single_sort (sd_fields old_doc !! sf_name sc) with
    | Some _ => with_sort ix (sf_name sc) (fun f => SortField.remove f id)
    | None => ix
    end) ix (sort_fields config).

Definition set_all_bitmaps ix (id : N) (doc : Document) : IndexState B :=
  let ix := foldl (fun ix fc =>
    from_option (fun val => with_filter ix (ff_name fc) (fun f => set_filter_bits f id val)) ix
      (doc_fields doc !! ff_name fc)) ix (filter_fields config) in
  foldl (fun ix sc =>
    match single_sort (doc_fields doc !! sf_name sc) with
    | Some sort_val => with_sort ix (sf_name sc) (fun f => SortField.insert f id sort_val)
    | None => ix
    end) ix (sort_fields config).

(** [for (_, field) in self.sorts.fields_mut() { field.merge_dirty() }] *)
Definition merge_sorts ix : IndexState B :=
  MkIndexState (ix_slots ix) (ix_filters ix) (SortField.merge_dirty <$> ix_sorts ix).

Definition merge_alive ix : IndexState B := with_slots ix SlotAllocator.merge_alive.

Definition put st (id : N) (doc : Document) : result unit * state :=
  let updated :=
    if SlotAllocator.is_alive (ix_slots (index st)) id then
      let? old_doc := ds_get (docstore st) id in
      Ok (diff_and_update (index st) id old_doc doc)
    else
      let? ix :=
        if SlotAllocator.was_ever_allocated (ix_slots (index st)) id then
          let? old_doc := ds_get (docstore st) id in
          Ok (from_option (clear_old_bitmaps (index st) id) (index st) old_doc)
        else Ok (index st) in
      Ok (set_all_bitmaps ix id doc) in
  match updated with
  | Err e => (Err e, st)
  | Ok ix =>
      match SlotAllocator.allocate (ix_slots ix) id with
      | (Err e, sl) => (Err e, mk (with_slots ix (fun _ => sl)) (docstore st))
      | (Ok _, sl) =>
          let ix := with_slots ix (fun _ => sl) in
          match ds_put (docstore st) id (MkStoredDoc (doc_fields doc) 0) with
          | Err e => (Err e, mk ix (docstore st))
          | Ok d => (Ok tt, mk (merge_alive (merge_sorts ix)) d)
          end
      end
  end.

Definition patch_field ix (id : N) (field_name : string) (change : PatchField) : IndexState B :=
  let ix := with_filter ix field_name (fun f =>
    set_filter_bits (clear_filter_bits f id (pf_old change)) id (pf_new change)) in
  with_sort ix field_name (fun f =>
    match pf_old change, pf_new change with
    | Single old_val, Single new_val =>
        match value_to_sort_u32 old_val, value_to_sort_u32 new_val with
        | Some old_sort, Some new_sort => SortField.update f id old_sort new_sort
        | _, _ => f
        end
    | _, _ => f
    end).

Definition patch st (id : N) (p : PatchPayload) : result unit * state :=
  if negb (SlotAllocator.is_alive (ix_slots (index st)) id) then (Err (SlotNotFound id), st)
  else
    let ix := foldl (fun ix '(name, change) => patch_field ix id name change) (index st) (patch_fields p) in
    (Ok tt, mk (merge_sorts ix) (docstore st)).

Definition delete st (id : N) : result unit * state :=
  match ds_get (docstore st) id with
  | Err e => (Err e, st)
  | Ok old_doc =>
      let ix := from_option (fun doc => merge_sorts (clear_old_bitmaps (index st) id doc)) (index st) old_doc in
      match SlotAllocator.delete (ix_slots ix) id with
      | (Err e, sl) => (Err e, mk (with_slots ix (fun _ => sl)) (docstore st))
      | (Ok _, sl) => (Ok tt, mk (merge_alive (with_slots ix (fun _ => sl))) (docstore st))
      end
  end.

(** One round of [delete_where]; a failed read skips the clean-up only. *)
Definition delete_slot st (slot : N) : result bool * state :=
  if SlotAllocator.is_alive (ix_slots (index st)) slot then
    let ix := match ds_get (docstore st) slot with
              | Ok (Some doc) => clear_old_bitmaps (index st) slot doc
              | _ => index st
              end in
    match SlotAllocator.delete (ix_slots ix) slot with
    | (Err e, sl) => (Err e, mk (with_slots ix (fun _ => sl)) (docstore st))
    | (Ok _, sl) => (Ok true, mk (with_slots ix (fun _ => sl)) (docstore st))
    end
  else (Ok false, st).

Fixpoint delete_loop st (slots : list N) (count : N) : result N * state :=
  match slots with
  | [] => (Ok count, st)
  | slot :: rest =>
      match delete_slot st slot with
      | (Ok deleted, st) => delete_loop st rest (if deleted then wrap64 (count + 1) else count)
      | (Err e, st) => (Err e, st)
      end
  end.

Definition delete_where st (matching_slots : B) : result N * state :=
  match delete_loop st (rb_iter matching_slots) 0 with
  | (Ok count, st) => (Ok count, mk (merge_alive (merge_sorts (index st))) (docstore st))
  | (Err e, st) => (Err e, st)
  end.

End ops.

Arguments mk {B D} _ _.
Arguments index {B D} _.
Arguments docstore {B D} _.

End MutationEngine.
