(* ===== verification/MutationFacts.v ===== *)
(** * Mutations: lemmas

    What the diff functions emit, per field and value. *)

From S2P Require Import Prelude Roaring Versioned Slot Config Sort SortFacts SortTheorems.
From S2P Require Import Filter FilterFacts Float64 Query Coalescer IndexFacts CoalescerTheorems Mutation.

(** ** Values *)

(** The bitmap keys of a field value. *)
Definition keys_of (val : option FieldValue) : list N :=
  from_option (fun val => omap mutation_bitmap_key (field_values val)) [] val.

Lemma values_equal_keys a b :
  values_equal a b = true ->
  mutation_bitmap_key a = mutation_bitmap_key b /\ value_to_sort_u32 a = value_to_sort_u32 b.
Proof.
  destruct a, b; cbn; try done.
  - by intros ->%Z.eqb_eq.
  - by intros ->%eqb_prop.
Qed.

Lemma field_values_equal_keys a b :
  field_values_equal a b = true -> keys_of a = keys_of b /\ single_sort a = single_sort b.
Proof.
  destruct a as [[va|va]|], b as [[vb|vb]|]; cbn; try done.
  - intros [H1 H2]%values_equal_keys. by rewrite H1.
  - rewrite andb_true_iff, Nat.eqb_eq. intros [Hl Hf]. split; [|done].
    revert vb Hl Hf. induction va as [|a va IH]; intros [|b vb]; cbn; try done.
    intros [= Hl] [[H1 _]%values_equal_keys H2]%andb_true_iff. rewrite H1, (IH vb) by done. done.
Qed.

(** ** Operations about one slot *)

Definition op_slots (o : MutationOp) : list N :=
  match o with
  | FilterInsert _ _ l | FilterRemove _ _ l | SortSet _ _ l | SortClear _ _ l | AliveInsert l | AliveRemove l => l
  | DeferredAlive s _ | DeferredCancel s => [s]
  end.

Definition about (slot : N) (ops : list MutationOp) : Prop := Forall (fun o => op_slots o = [slot]) ops.

Section about.
Context (slot : N) (ops : list MutationOp) (Ha : about slot ops).

(** One effect of a list about one slot is one operation of it. *)
Ltac about_tac :=
  unfold about in Ha; rewrite Forall_forall in Ha; rewrite elem_of_all_of; split;
  [ intros (o & Ho & Hx); pose proof (Ha o Ho) as Hs;
    destruct o; cbn in *; try (by apply not_elem_of_nil in Hx); try case_decide; simplify_eq;
    try (by apply not_elem_of_nil in Hx); apply list_elem_of_singleton in Hx; by subst
  | intros [-> Ho]; eexists; split; [exact Ho|]; cbn; rewrite ?decide_True by done; by apply list_elem_of_singleton ].

Lemma sel_fi_about field v x :
  x ∈ all_of (sel_fi field v) ops <-> x = slot /\ FilterInsert field v [slot] ∈ ops.
Proof. about_tac. Qed.

Lemma sel_fr_about field v x :
  x ∈ all_of (sel_fr field v) ops <-> x = slot /\ FilterRemove field v [slot] ∈ ops.
Proof. about_tac. Qed.

Lemma sel_ss_about field i x :
  x ∈ all_of (sel_ss field i) ops <-> x = slot /\ SortSet field i [slot] ∈ ops.
Proof. about_tac. Qed.

Lemma sel_sc_about field i x :
  x ∈ all_of (sel_sc field i) ops <-> x = slot /\ SortClear field i [slot] ∈ ops.
Proof. about_tac. Qed.

Lemma sel_ai_about x : x ∈ all_of sel_ai ops <-> x = slot /\ AliveInsert [slot] ∈ ops.
Proof. about_tac. Qed.

Lemma sel_ar_about x : x ∈ all_of sel_ar ops <-> x = slot /\ AliveRemove [slot] ∈ ops.
Proof. about_tac. Qed.

End about.

Lemma elem_of_mjoin_fmap {A C : Type} (f : A -> list C) (l : list A) (c : C) :
  c ∈ mjoin (f <$> l) <-> exists a, a ∈ l /\ c ∈ f a.
Proof. rewrite list_elem_of_join. setoid_rewrite list_elem_of_fmap. naive_solver. Qed.

(** ** What is emitted *)

Lemma elem_of_collect_insert field slot val o :
  o ∈ collect_filter_insert_ops field slot val
  <-> exists key, key ∈ keys_of (Some val) /\ o = FilterInsert field key [slot].
Proof.
  unfold collect_filter_insert_ops, keys_of. cbn [from_option]. setoid_rewrite list_elem_of_omap. split.
  - intros (v & Hv & Ho). destruct (mutation_bitmap_key v) as [key|] eqn:E; [|done]. injection Ho as <-. eauto.
  - intros (key & (v & Hv & Hk) & ->). exists v. by rewrite Hk.
Qed.

Lemma elem_of_collect_remove field slot val o :
  o ∈ collect_filter_remove_ops field slot val
  <-> exists key, key ∈ keys_of (Some val) /\ o = FilterRemove field key [slot].
Proof.
  unfold collect_filter_remove_ops, keys_of. cbn [from_option]. setoid_rewrite list_elem_of_omap. split.
  - intros (v & Hv & Ho). destruct (mutation_bitmap_key v) as [key|] eqn:E; [|done]. injection Ho as <-. eauto.
  - intros (key & (v & Hv & Hk) & ->). exists v. by rewrite Hk.
Qed.

Lemma elem_of_option_insert field slot val o :
  o ∈ from_option (collect_filter_insert_ops field slot) [] val
  <-> exists key, key ∈ keys_of val /\ o = FilterInsert field key [slot].
Proof.
  destruct val as [val|]; cbn [from_option]; [apply elem_of_collect_insert|]. cbn.
  setoid_rewrite elem_of_nil. naive_solver.
Qed.

Lemma elem_of_option_remove field slot val o :
  o ∈ from_option (collect_filter_remove_ops field slot) [] val
  <-> exists key, key ∈ keys_of val /\ o = FilterRemove field key [slot].
Proof.
  destruct val as [val|]; cbn [from_option]; [apply elem_of_collect_remove|]. cbn.
  setoid_rewrite elem_of_nil. naive_solver.
Qed.

Lemma elem_of_filter_diff field slot old new o :
  o ∈ filter_diff_ops field slot old new <->
  field_values_equal old new = false /\
  ((exists key, key ∈ keys_of old /\ o = FilterRemove field key [slot])
   \/ exists key, key ∈ keys_of new /\ o = FilterInsert field key [slot]).
Proof.
  unfold filter_diff_ops. destruct (field_values_equal old new); [rewrite elem_of_nil; naive_solver|].
  rewrite elem_of_app, elem_of_option_insert, elem_of_option_remove. naive_solver.
Qed.

(** The set and clear operations of a changed sort value, bit by bit. *)
Lemma elem_of_sort_diff sc slot o n op :
  op ∈ sort_diff_ops sc slot o n <-> o <> n /\
  exists bit, (bit < N.to_nat (sf_bits sc))%nat /\
    match o, n with
    | Some old_s, Some new_s => bit_set (N.lxor old_s new_s) bit = true
        /\ op = (if bit_set new_s bit then SortSet (sf_name sc) bit [slot] else SortClear (sf_name sc) bit [slot])
    | Some _, None => op = SortClear (sf_name sc) bit [slot]
    | None, Some new_s => bit_set new_s bit = true /\ op = SortSet (sf_name sc) bit [slot]
    | None, None => False
    end.
Proof.
  unfold sort_diff_ops. case_bool_decide as Hon; [rewrite elem_of_nil; naive_solver|].
  unfold emit_sort_diff_ops. destruct o as [old_s|], n as [new_s|].
  - rewrite list_elem_of_omap. setoid_rewrite elem_of_seq. split.
    + intros (bit & Hb & E). destruct (bit_set (N.lxor old_s new_s) bit) eqn:Ed; [|done]. injection E as <-.
      split; [done|]. exists bit. split; [lia|done].
    + intros (_ & bit & Hb & Hd & ->). exists bit. split; [lia|]. by rewrite Hd.
  - rewrite list_elem_of_fmap. setoid_rewrite elem_of_seq. split.
    + intros (bit & -> & Hb). split; [done|]. exists bit. split; [lia|done].
    + intros (_ & bit & Hb & ->). exists bit. split; [done|lia].
  - rewrite list_elem_of_omap. setoid_rewrite elem_of_seq. split.
    + intros (bit & Hb & E). destruct (bit_set new_s bit) eqn:Ed; [|done]. injection E as <-.
      split; [done|]. exists bit. split; [lia|done].
    + intros (_ & bit & Hb & Hd & ->). exists bit. split; [lia|]. by rewrite Hd.
  - done.
Qed.

(** Applying the operations of a changed value gives the bits of the new value. *)
Lemma sort_diff_result sc slot o n i (P : Prop) :
  (N.to_nat (sf_bits sc) <= 32)%nat -> (i < N.to_nat (sf_bits sc))%nat ->
  (P <-> bit_set (default 0 o) i = true) ->
  (SortSet (sf_name sc) i [slot] ∈ sort_diff_ops sc slot o n
   \/ (P /\ SortClear (sf_name sc) i [slot] ∉ sort_diff_ops sc slot o n))
  <-> bit_set (default 0 n) i = true.
Proof.
  intros Hb Hi HP. rewrite HP. rewrite !elem_of_sort_diff. clear HP P.
  destruct (decide (o = n)) as [->|Hne]; [naive_solver|].
  assert (bit_set 0 i = false) as H0.
  { rewrite bit_set_testbit by lia. apply N.bits_0. }
  destruct o as [o|], n as [n|]; cbn [default]; unfold id; rewrite ?H0.
  - assert (bit_set (N.lxor o n) i = xorb (bit_set o i) (bit_set n i)) as Hx.
    { rewrite !bit_set_testbit by lia. apply N.lxor_spec. }
    destruct (bit_set o i) eqn:Eo, (bit_set n i) eqn:En; cbn in Hx; split; try done.
    + intros _. right. split; [done|]. intros (_ & bit & _ & Hd & Ho).
      destruct (bit_set n bit) eqn:E; simplify_eq. congruence.
    + intros [(_ & bit & _ & Hd & Ho)|[_ Hn]].
      * destruct (bit_set n bit) eqn:E; simplify_eq. congruence.
      * exfalso. apply Hn. split; [done|]. exists i. rewrite Hx, En. done.
    + intros _. left. split; [done|]. exists i. rewrite Hx, En. done.
    + intros [(_ & bit & _ & Hd & Ho)|[? _]]; [|done]. destruct (bit_set n bit) eqn:E; simplify_eq. congruence.
  - split; [|done]. intros [(_ & bit & _ & ?)|[_ Hn]]; [done|]. exfalso. apply Hn. split; [done|]. by exists i.
  - split; [|intros Hn; left; split; [done|by exists i]]. intros [(_ & bit & _ & Hd & Ho)|[? _]]; [|done].
    by simplify_eq.
  - done.
Qed.

(** ** Kinds of operations *)

Definition filtery (o : MutationOp) : Prop :=
  match o with FilterInsert _ _ _ | FilterRemove _ _ _ => True | _ => False end.
Definition sorty (o : MutationOp) : Prop :=
  match o with SortSet _ _ _ | SortClear _ _ _ => True | _ => False end.

(** An operation of a filter list, about [slot]; and of a sort list. *)
Definition filter_list (slot : N) (ops : list MutationOp) : Prop :=
  forall o, o ∈ ops -> filtery o /\ op_slots o = [slot].
Definition sort_list (slot : N) (ops : list MutationOp) : Prop :=
  forall o, o ∈ ops -> sorty o /\ op_slots o = [slot].

Lemma filter_list_mjoin {A : Type} slot (f : A -> list MutationOp) (l : list A) :
  (forall a, a ∈ l -> filter_list slot (f a)) -> filter_list slot (mjoin (f <$> l)).
Proof. intros Hf o. rewrite elem_of_mjoin_fmap. intros (a & Ha & Ho). by apply (Hf a). Qed.

Lemma sort_list_mjoin {A : Type} slot (f : A -> list MutationOp) (l : list A) :
  (forall a, a ∈ l -> sort_list slot (f a)) -> sort_list slot (mjoin (f <$> l)).
Proof. intros Hf o. rewrite elem_of_mjoin_fmap. intros (a & Ha & Ho). by apply (Hf a). Qed.

Lemma filter_list_diff field slot old new : filter_list slot (filter_diff_ops field slot old new).
Proof. intros o. rewrite elem_of_filter_diff. naive_solver. Qed.

Lemma sort_diff_shape sc slot o n op :
  op ∈ sort_diff_ops sc slot o n ->
  exists bit, op = SortSet (sf_name sc) bit [slot] \/ op = SortClear (sf_name sc) bit [slot].
Proof.
  rewrite elem_of_sort_diff. intros (_ & bit & _ & H). exists bit.
  destruct o, n; [destruct H as [_ ->]; destruct (bit_set _ _)|..]; naive_solver.
Qed.

Lemma sort_list_diff sc slot o n : sort_list slot (sort_diff_ops sc slot o n).
Proof. intros op (bit & [->| ->])%sort_diff_shape; done. Qed.

Lemma elem_of_upsert_filter cfg slot old new o :
  o ∈ upsert_filter_ops cfg slot old new <->
  exists fc, fc ∈ filter_fields cfg /\ ff_name fc ∉ shadow_targets cfg
    /\ o ∈ filter_diff_ops (ff_name fc) slot (old !! ff_name fc) (new !! ff_name fc).
Proof.
  unfold upsert_filter_ops. rewrite elem_of_mjoin_fmap. split; intros (fc & Hfc & Ho); exists fc; (split; [done|]).
  - case_bool_decide; [by apply not_elem_of_nil in Ho|done].
  - destruct Ho as [Hs Ho]. by rewrite bool_decide_false.
Qed.

Lemma elem_of_fresh_filter cfg slot new o :
  o ∈ fresh_filter_ops cfg slot new <->
  exists fc key, fc ∈ filter_fields cfg /\ ff_name fc ∉ shadow_targets cfg
    /\ key ∈ keys_of (new !! ff_name fc) /\ o = FilterInsert (ff_name fc) key [slot].
Proof.
  unfold fresh_filter_ops. rewrite elem_of_mjoin_fmap. split.
  - intros (fc & Hfc & Ho). case_bool_decide; [by apply not_elem_of_nil in Ho|].
    apply elem_of_option_insert in Ho as (key & Hk & ->). eauto 10.
  - intros (fc & key & Hfc & Hs & Hk & ->). exists fc. split; [done|].
    rewrite bool_decide_false by done. apply elem_of_option_insert. eauto.
Qed.

Lemma elem_of_clear_filter cfg slot old o :
  o ∈ clear_filter_ops cfg slot old <->
  exists fc key, fc ∈ filter_fields cfg /\ key ∈ keys_of (old !! ff_name fc)
    /\ o = FilterRemove (ff_name fc) key [slot].
Proof.
  unfold clear_filter_ops. rewrite elem_of_mjoin_fmap. split.
  - intros (fc & Hfc & Ho). destruct (old !! ff_name fc) as [val|] eqn:E; [|by apply not_elem_of_nil in Ho].
    apply elem_of_collect_remove in Ho as (key & Hk & ->). exists fc, key. by rewrite E.
  - intros (fc & key & Hfc & Hk & ->). exists fc. split; [done|].
    destruct (old !! ff_name fc) as [val|] eqn:E; [|by apply not_elem_of_nil in Hk].
    apply elem_of_collect_remove. eauto.
Qed.

Lemma elem_of_clear_sort cfg slot old o :
  o ∈ clear_sort_ops cfg slot old <->
  exists sc old_s bit, sc ∈ sort_fields cfg /\ single_sort (old !! sf_name sc) = Some old_s
    /\ (bit < N.to_nat (sf_bits sc))%nat /\ bit_set old_s bit = true /\ o = SortClear (sf_name sc) bit [slot].
Proof.
  unfold clear_sort_ops. rewrite elem_of_mjoin_fmap. split.
  - intros (sc & Hsc & Ho). destruct (single_sort (old !! sf_name sc)) as [s|] eqn:E; [|by apply not_elem_of_nil in Ho].
    apply list_elem_of_omap in Ho as (bit & Hb%elem_of_seq & Ho).
    destruct (bit_set s bit) eqn:Eb; [|done]. injection Ho as <-. exists sc, s, bit. split_and!; done || lia.
  - intros (sc & s & bit & Hsc & E & Hb & Eb & ->). exists sc. split; [done|]. rewrite E. apply list_elem_of_omap.
    exists bit. rewrite Eb. split; [apply elem_of_seq; lia|done].
Qed.

Lemma elem_of_fresh_sort cfg slot new o :
  o ∈ fresh_sort_ops cfg slot new <->
  exists sc v bit, sc ∈ sort_fields cfg /\ fresh_sort_value sc new = Some v
    /\ (bit < N.to_nat (sf_bits sc))%nat
    /\ o = (if bit_set v bit then SortSet (sf_name sc) bit [slot] else SortClear (sf_name sc) bit [slot]).
Proof.
  unfold fresh_sort_ops. rewrite elem_of_mjoin_fmap. split.
  - intros (sc & Hsc & Ho). destruct (fresh_sort_value sc new) as [v|] eqn:E; [|by apply not_elem_of_nil in Ho].
    apply list_elem_of_fmap in Ho as (bit & -> & Hb%elem_of_seq). exists sc, v, bit. split_and!; done || lia.
  - intros (sc & v & bit & Hsc & E & Hb & ->). exists sc. split; [done|]. rewrite E. apply list_elem_of_fmap.
    exists bit. split; [done|]. apply elem_of_seq. lia.
Qed.

(** The value of a sort field before and after an upsert, as the diff sees it. *)
Definition upsert_pair (sc : SortFieldConfig) (old new : Fields) : option N * option N :=
  match computed sc with
  | Some c => resolve_computed_sort c old new
  | None => if field_values_equal (old !! sf_name sc) (new !! sf_name sc) then (None, None)
            else (single_sort (old !! sf_name sc), single_sort (new !! sf_name sc))
  end.

Lemma upsert_sort_ops_pairs cfg slot old new :
  upsert_sort_ops cfg slot old new
  = mjoin ((fun sc => sort_diff_ops sc slot (upsert_pair sc old new).1 (upsert_pair sc old new).2)
           <$> sort_fields cfg).
Proof.
  unfold upsert_sort_ops. f_equal. apply list_fmap_ext. intros _ sc _. unfold upsert_pair.
  destruct (computed sc) as [c|]; [by destruct (resolve_computed_sort c old new)|].
  unfold direct_sort_diff_ops. by destruct (field_values_equal _ _).
Qed.

(** *** Shadows *)

Lemma derive_names cfg fields :
  fst <$> derive_exists_boolean_shadows cfg fields = shadow_targets cfg.
Proof.
  unfold derive_exists_boolean_shadows, shadow_targets. rewrite <- list_fmap_compose. done.
Qed.

Definition shadow_key (derived : bool) : N := if derived then 1 else 0.

Lemma elem_of_shadow_ops cfg slot fields o :
  o ∈ shadow_ops cfg slot fields <->
  exists name derived, (name, derived) ∈ derive_exists_boolean_shadows cfg fields
    /\ (o = FilterRemove name (shadow_key (negb derived)) [slot] \/ o = FilterInsert name (shadow_key derived) [slot]).
Proof.
  unfold shadow_ops. rewrite elem_of_mjoin_fmap. split.
  - intros ([name derived] & Hd & Ho). exists name, derived. split; [done|].
    rewrite !elem_of_cons, elem_of_nil in Ho. destruct derived; cbn; tauto.
  - intros (name & derived & Hd & Ho). exists (name, derived). split; [done|].
    rewrite !elem_of_cons, elem_of_nil. destruct derived; cbn in *; tauto.
Qed.

Lemma derive_unique cfg fields name d1 d2 :
  NoDup (shadow_targets cfg) -> (name, d1) ∈ derive_exists_boolean_shadows cfg fields ->
  (name, d2) ∈ derive_exists_boolean_shadows cfg fields -> d1 = d2.
Proof.
  rewrite <- (derive_names cfg fields). generalize (derive_exists_boolean_shadows cfg fields) as l.
  induction l as [|[n d] l IH]; intros Hnd H1 H2; [by apply not_elem_of_nil in H1|].
  rewrite fmap_cons in Hnd. apply NoDup_cons in Hnd as [Hn Hnd].
  assert (forall d', (name, d') ∈ l -> name ∈ fst <$> l) as Hin.
  { intros d' Hd'. apply list_elem_of_fmap. by exists (name, d'). }
  apply elem_of_cons in H1, H2. naive_solver.
Qed.
