(* ===== verification/MutationTheorems.v ===== *)
(** * Mutations: properties of the diff functions

    Applying the operations that [diff_document] emits, as one batch, takes the
    index from the old document of a slot to the new one. *)

From S2P Require Import Prelude Roaring Versioned Slot Config Sort SortFacts SortTheorems.
From S2P Require Import Filter FilterFacts Float64 Query Coalescer IndexFacts CoalescerTheorems Mutation.
From S2P Require Import MutationFacts.

Section documents.
Context {B : Type} `{HB : Roaring B}.
Implicit Types (cfg : Configuration) (st : IndexState B) (fields : Fields) (slot v x : N).

(** The state has the configured fields, of at most 32 bits, with distinct names. *)
Record config_matches cfg st : Prop := {
  cm_filters : forall fc, fc ∈ filter_fields cfg -> is_Some (ix_filters st !! ff_name fc);
  cm_sorts : forall sc, sc ∈ sort_fields cfg -> layers_of st (sf_name sc) = Some (N.to_nat (sf_bits sc));
  cm_bits : forall sc, sc ∈ sort_fields cfg -> (N.to_nat (sf_bits sc) <= 32)%nat;
  cm_names : NoDup (sf_name <$> sort_fields cfg);
  cm_shadows : NoDup (shadow_targets cfg);
}.

(** The bitmaps hold for [slot] what the fields of a document say. Shadow fields
    (derived booleans) only hold the keys 0 and 1. *)
Record slot_indexed cfg st fields slot : Prop := {
  si_filter : forall fc v, fc ∈ filter_fields cfg -> ff_name fc ∉ shadow_targets cfg ->
    fhas st (ff_name fc) v slot <-> v ∈ keys_of (fields !! ff_name fc);
  si_shadow : forall fc v, fc ∈ filter_fields cfg -> ff_name fc ∈ shadow_targets cfg ->
    fhas st (ff_name fc) v slot -> v = 0 \/ v = 1;
  si_sort : forall sc i, sc ∈ sort_fields cfg -> (i < N.to_nat (sf_bits sc))%nat ->
    sbit st (sf_name sc) i slot <-> bit_set (default 0 (fresh_sort_value sc fields)) i = true;
}.

(** No source of a computed sort field disappears. *)
Definition keeps_sources cfg (old new : Fields) : Prop :=
  forall sc c f, sc ∈ sort_fields cfg -> computed sc = Some c -> f ∈ source_fields c ->
    is_Some (field_to_sort_u32 old f) -> is_Some (field_to_sort_u32 new f).

(** Sort fields are determined by their names. *)
Lemma same_name_same_field (l : list SortFieldConfig) sc sc' :
  NoDup (sf_name <$> l) -> sc ∈ l -> sc' ∈ l -> sf_name sc = sf_name sc' -> sc = sc'.
Proof.
  induction l as [|s l IH]; intros Hnd H1 H2 Hn; [by apply not_elem_of_nil in H1|].
  rewrite fmap_cons in Hnd. apply NoDup_cons in Hnd as [Hs Hnd].
  apply elem_of_cons in H1 as [->|H1], H2 as [->|H2]; [done| | |by apply IH].
  - exfalso. apply Hs. rewrite Hn. by apply (list_elem_of_fmap_2 sf_name).
  - exfalso. apply Hs. rewrite <- Hn. by apply (list_elem_of_fmap_2 sf_name).
Qed.

(** *** Computed values *)

Lemma omap_none {A C : Type} (l : list A) : omap (fun _ => None : option C) l = [].
Proof. by induction l. Qed.

(** The pair the diff compares is the pair of values of the two documents, or the
    values are the same. *)
Lemma upsert_pair_values cfg sc old new :
  sc ∈ sort_fields cfg -> keeps_sources cfg old new ->
  upsert_pair sc old new = (fresh_sort_value sc old, fresh_sort_value sc new)
  \/ (upsert_pair sc old new = (None, None) /\ fresh_sort_value sc old = fresh_sort_value sc new).
Proof.
  intros Hsc Hk. unfold upsert_pair, fresh_sort_value. destruct (computed sc) as [c|] eqn:Ec.
  - unfold resolve_computed_sort. destruct (existsb _ _) eqn:E; cbn [negb]; [left|right]; (split || f_equal); try done.
    + f_equal. apply omap_ext_in. intros f Hf. specialize (Hk sc c f Hsc Ec Hf).
      destruct (field_to_sort_u32 new f); [done|]. destruct (field_to_sort_u32 old f); [|done].
      destruct Hk as [? ?]; [by eexists|done].
    + f_equal. apply omap_ext_in. intros f Hf. specialize (Hk sc c f Hsc Ec Hf).
      assert (match new !! f with Some v => negb (field_values_equal (old !! f) (Some v)) | None => false end = false) as Hn.
      { apply not_true_iff_false. intros Ht. apply not_true_iff_false in E. apply E, existsb_exists.
        exists f. split; [by apply list_elem_of_In|done]. }
      unfold field_to_sort_u32 in *. destruct (new !! f) as [v|] eqn:En.
      * apply negb_false_iff, field_values_equal_keys in Hn as [_ Hn]. done.
      * cbn [single_sort] in *. destruct (single_sort (old !! f)); [|done]. destruct Hk as [? ?]; [by eexists|done].
  - destruct (field_values_equal _ _) eqn:E; [|by left]. right. split; [done|].
    apply (field_values_equal_keys _ _ E).
Qed.

(** *** The body of a diff *)

(** The operations of [diff_document] before the shadow and alive operations. *)
Definition diff_body cfg slot (old_doc : option StoredDoc) new (is_upsert : bool) : list MutationOp :=
  if is_upsert then
    let old_fields := from_option sd_fields ∅ old_doc in
    upsert_filter_ops cfg slot old_fields new ++ upsert_sort_ops cfg slot old_fields new
  else
    match old_doc with
    | Some old => clear_filter_ops cfg slot (sd_fields old) ++ clear_sort_ops cfg slot (sd_fields old)
    | None => []
    end ++ fresh_filter_ops cfg slot new ++ fresh_sort_ops cfg slot new.

Lemma clear_filter_empty cfg slot : clear_filter_ops cfg slot ∅ = [].
Proof.
  unfold clear_filter_ops. induction (filter_fields cfg) as [|fc l IH]; [done|].
  rewrite fmap_cons, lookup_empty. exact IH.
Qed.

Lemma clear_sort_empty cfg slot : clear_sort_ops cfg slot ∅ = [].
Proof.
  unfold clear_sort_ops. induction (sort_fields cfg) as [|sc l IH]; [done|].
  rewrite fmap_cons, lookup_empty. exact IH.
Qed.

Lemma diff_body_fresh cfg slot old_doc new :
  diff_body cfg slot old_doc new false =
  let old := from_option sd_fields ∅ old_doc in
  (clear_filter_ops cfg slot old ++ clear_sort_ops cfg slot old)
  ++ fresh_filter_ops cfg slot new ++ fresh_sort_ops cfg slot new.
Proof.
  destruct old_doc; [reflexivity|]. cbv zeta. cbn [from_option].
  by rewrite clear_filter_empty, clear_sort_empty.
Qed.

Lemma upsert_filter_list cfg slot old new : filter_list slot (upsert_filter_ops cfg slot old new).
Proof.
  intros o (fc & _ & _ & Ho)%elem_of_upsert_filter. by eapply filter_list_diff.
Qed.

Lemma upsert_sort_list cfg slot old new : sort_list slot (upsert_sort_ops cfg slot old new).
Proof. rewrite upsert_sort_ops_pairs. apply sort_list_mjoin. intros sc _. apply sort_list_diff. Qed.

Lemma fresh_filter_list cfg slot new : filter_list slot (fresh_filter_ops cfg slot new).
Proof. intros o (fc & key & _ & _ & _ & ->)%elem_of_fresh_filter. done. Qed.

Lemma clear_filter_list cfg slot old : filter_list slot (clear_filter_ops cfg slot old).
Proof. intros o (fc & key & _ & _ & ->)%elem_of_clear_filter. done. Qed.

Lemma clear_sort_list cfg slot old : sort_list slot (clear_sort_ops cfg slot old).
Proof. intros o (sc & s & bit & _ & _ & _ & _ & ->)%elem_of_clear_sort. done. Qed.

Lemma fresh_sort_list cfg slot new : sort_list slot (fresh_sort_ops cfg slot new).
Proof. intros o (sc & w & bit & _ & _ & _ & ->)%elem_of_fresh_sort. by destruct (bit_set w bit). Qed.

(** Every operation of the body is a filter or a sort operation about the slot. *)
Lemma diff_body_kind cfg slot old_doc new is_upsert o :
  o ∈ diff_body cfg slot old_doc new is_upsert -> (filtery o \/ sorty o) /\ op_slots o = [slot].
Proof.
  destruct is_upsert; [cbn [diff_body]|rewrite diff_body_fresh; cbv zeta]; rewrite !elem_of_app.
  - intros [H%upsert_filter_list|H%upsert_sort_list]; tauto.
  - intros [[H%clear_filter_list|H%clear_sort_list]|[H%fresh_filter_list|H%fresh_sort_list]]; tauto.
Qed.

(** The filter operations of the body, and its sort operations. *)
Lemma diff_body_filter cfg slot old_doc new is_upsert o :
  filtery o -> o ∈ diff_body cfg slot old_doc new is_upsert <->
  (let old := from_option sd_fields ∅ old_doc in
   if is_upsert then o ∈ upsert_filter_ops cfg slot old new
   else o ∈ clear_filter_ops cfg slot old \/ o ∈ fresh_filter_ops cfg slot new).
Proof.
  intros Hf. assert (~ sorty o) as Hs by (destruct o; cbn in *; tauto).
  destruct is_upsert; [cbn [diff_body]|rewrite diff_body_fresh; cbv zeta]; rewrite !elem_of_app.
  - split; [|tauto]. intros [H|H%upsert_sort_list]; tauto.
  - split; [|tauto]. intros [[H|H%clear_sort_list]|[H|H%fresh_sort_list]]; tauto.
Qed.

Lemma diff_body_sort cfg slot old_doc new is_upsert o :
  sorty o -> o ∈ diff_body cfg slot old_doc new is_upsert <->
  (let old := from_option sd_fields ∅ old_doc in
   if is_upsert then o ∈ upsert_sort_ops cfg slot old new
   else o ∈ clear_sort_ops cfg slot old \/ o ∈ fresh_sort_ops cfg slot new).
Proof.
  intros Hf. assert (~ filtery o) as Hs by (destruct o; cbn in *; tauto).
  destruct is_upsert; [cbn [diff_body]|rewrite diff_body_fresh; cbv zeta]; rewrite !elem_of_app.
  - split; [|tauto]. intros [H%upsert_filter_list|H]; tauto.
  - split; [|tauto]. intros [[H%clear_filter_list|H]|[H%fresh_filter_list|H]]; tauto.
Qed.

(** Applied to the bits of the old document the body gives the bits of the new one. *)
Lemma body_filter_result cfg slot old_doc new is_upsert fc v (P : Prop) :
  fc ∈ filter_fields cfg -> ff_name fc ∉ shadow_targets cfg ->
  (P <-> v ∈ keys_of (from_option sd_fields ∅ old_doc !! ff_name fc)) ->
  let body := diff_body cfg slot old_doc new is_upsert in
  (FilterInsert (ff_name fc) v [slot] ∈ body \/ (P /\ FilterRemove (ff_name fc) v [slot] ∉ body))
  <-> v ∈ keys_of (new !! ff_name fc).
Proof.
  intros Hfc Hs HP body. subst body. set (old := from_option sd_fields ∅ old_doc) in *.
  rewrite !diff_body_filter by done. fold old. cbv zeta. destruct is_upsert.
  - rewrite !elem_of_upsert_filter. setoid_rewrite elem_of_filter_diff. rewrite HP.
    destruct (field_values_equal (old !! ff_name fc) (new !! ff_name fc)) eqn:E.
    + pose proof (field_values_equal_keys _ _ E) as [Hk _]. rewrite <- Hk. split.
      * intros [(fc' & _ & _ & E' & [(? & _ & ?)|(key & _ & Heq)])|[? _]]; [done| |done].
        injection Heq as Hn _. congruence.
      * intros Hv. right. split; [done|]. intros (fc' & _ & _ & E' & [(key & _ & Heq)|(? & _ & ?)]); [|done].
        injection Heq as Hn _. congruence.
    + split.
      * intros [(fc' & _ & _ & _ & [(? & _ & ?)|(key & Hkey & Heq)])|[Hv Hn]]; [done| |].
        { injection Heq as Hn <-. by rewrite Hn. }
        exfalso. apply Hn. exists fc. naive_solver.
      * intros Hv. left. exists fc. naive_solver.
  - rewrite !elem_of_clear_filter, !elem_of_fresh_filter, HP. split.
    + intros [[(fc' & key & _ & _ & ?)|(fc' & key & _ & _ & Hk & Heq)]|[Hv Hn]]; [done| |].
      { injection Heq as Hn <-. by rewrite Hn. }
      exfalso. apply Hn. left. eauto.
    + intros Hv. left. right. eauto 10.
Qed.

Lemma body_shadow_result cfg slot old_doc new is_upsert name v :
  name ∈ shadow_targets cfg ->
  FilterInsert name v [slot] ∉ diff_body cfg slot old_doc new is_upsert.
Proof.
  intros Hs. rewrite diff_body_filter by done. cbv zeta. destruct is_upsert.
  - rewrite elem_of_upsert_filter. setoid_rewrite elem_of_filter_diff. naive_solver.
  - rewrite elem_of_clear_filter, elem_of_fresh_filter. naive_solver.
Qed.

(** The sort operations of an upsert for one field. *)
Lemma elem_of_upsert_sort cfg slot old new sc i o :
  NoDup (sf_name <$> sort_fields cfg) -> sc ∈ sort_fields cfg ->
  o = SortSet (sf_name sc) i [slot] \/ o = SortClear (sf_name sc) i [slot] ->
  o ∈ upsert_sort_ops cfg slot old new <->
  o ∈ sort_diff_ops sc slot (upsert_pair sc old new).1 (upsert_pair sc old new).2.
Proof.
  intros Hnd Hsc Ho. rewrite upsert_sort_ops_pairs, elem_of_mjoin_fmap. split; [|by exists sc].
  intros (sc' & Hsc' & Hin). replace sc with sc'; [done|].
  apply (same_name_same_field (sort_fields cfg)); [done..|].
  apply sort_diff_shape in Hin as (bit & [-> | ->]); destruct Ho; congruence.
Qed.

Lemma upsert_sort_result cfg slot old new sc i (P : Prop) :
  NoDup (sf_name <$> sort_fields cfg) -> sc ∈ sort_fields cfg ->
  (N.to_nat (sf_bits sc) <= 32)%nat -> (i < N.to_nat (sf_bits sc))%nat -> keeps_sources cfg old new ->
  (P <-> bit_set (default 0 (fresh_sort_value sc old)) i = true) ->
  let ops := upsert_sort_ops cfg slot old new in
  (SortSet (sf_name sc) i [slot] ∈ ops \/ (P /\ SortClear (sf_name sc) i [slot] ∉ ops))
  <-> bit_set (default 0 (fresh_sort_value sc new)) i = true.
Proof.
  intros Hnd Hsc Hb Hi Hk HP ops. subst ops. rewrite !(elem_of_upsert_sort cfg slot old new sc i) by tauto.
  destruct (upsert_pair_values cfg sc old new Hsc Hk) as [->|[-> Heq]]; cbn [fst snd].
  - by apply sort_diff_result.
  - rewrite <- Heq, <- HP. rewrite !elem_of_sort_diff. naive_solver.
Qed.

(** The sort operations of a fresh insert for one field. *)
Lemma elem_of_fresh_sort_field cfg slot new sc i (b : bool) :
  NoDup (sf_name <$> sort_fields cfg) -> sc ∈ sort_fields cfg -> (i < N.to_nat (sf_bits sc))%nat ->
  (if b then SortSet (sf_name sc) i [slot] else SortClear (sf_name sc) i [slot]) ∈ fresh_sort_ops cfg slot new
  <-> exists w, fresh_sort_value sc new = Some w /\ bit_set w i = b.
Proof.
  intros Hnd Hsc Hi. rewrite elem_of_fresh_sort. split.
  - intros (sc' & w & bit & Hsc' & Ew & _ & Heq).
    assert (sc' = sc) as ->.
    { apply (same_name_same_field (sort_fields cfg)); [done..|]. destruct b, (bit_set w bit); congruence. }
    exists w. split; [done|]. destruct b, (bit_set w bit) eqn:E; congruence.
  - intros (w & Ew & <-). exists sc, w, i. split_and!; done.
Qed.

(** A field without a value in the new document: the bits it had are cleared. *)
Lemma dropped_value_cleared cfg slot old new sc i :
  sc ∈ sort_fields cfg -> (i < 32)%nat -> (i < N.to_nat (sf_bits sc))%nat -> keeps_sources cfg old new ->
  fresh_sort_value sc new = None -> bit_set (default 0 (fresh_sort_value sc old)) i = true ->
  SortClear (sf_name sc) i [slot] ∈ clear_sort_ops cfg slot old.
Proof.
  intros Hsc Hi32 Hi Hk En Hp. apply elem_of_clear_sort. unfold fresh_sort_value in *.
  destruct (computed sc) as [c|] eqn:Ec.
  - exfalso. revert Hp. enough (omap (field_to_sort_u32 old) (source_fields c) = []) as ->.
    { cbn. by rewrite bit_set_0. }
    rewrite <- (omap_none (source_fields c)). apply omap_ext_in. intros f Hf.
    specialize (Hk sc c f Hsc Ec Hf). destruct (field_to_sort_u32 old f); [|done].
    destruct Hk as [u Hu]; [by eexists|]. exfalso.
    destruct (omap (field_to_sort_u32 new) (source_fields c)) as [|y l] eqn:E; [|done].
    apply (not_elem_of_nil u). rewrite <- E. apply list_elem_of_omap. eauto.
  - destruct (single_sort (old !! sf_name sc)) as [os|] eqn:Eo; [by exists sc, os, i|].
    cbn in Hp. by rewrite bit_set_0 in Hp.
Qed.

Lemma fresh_sort_result cfg slot old new sc i (P : Prop) :
  NoDup (sf_name <$> sort_fields cfg) -> sc ∈ sort_fields cfg ->
  (N.to_nat (sf_bits sc) <= 32)%nat -> (i < N.to_nat (sf_bits sc))%nat -> keeps_sources cfg old new ->
  (P <-> bit_set (default 0 (fresh_sort_value sc old)) i = true) ->
  let mem o := o ∈ clear_sort_ops cfg slot old \/ o ∈ fresh_sort_ops cfg slot new in
  (mem (SortSet (sf_name sc) i [slot]) \/ (P /\ ~ mem (SortClear (sf_name sc) i [slot])))
  <-> bit_set (default 0 (fresh_sort_value sc new)) i = true.
Proof.
  intros Hnd Hsc Hb Hi Hk HP mem. subst mem. cbv beta.
  pose proof (elem_of_fresh_sort_field cfg slot new sc i true Hnd Hsc Hi) as Hset.
  pose proof (elem_of_fresh_sort_field cfg slot new sc i false Hnd Hsc Hi) as Hclear. cbv iota in Hset, Hclear.
  rewrite Hset, Hclear. split.
  - intros [[(?&?&?&?&?&?&?&?)%elem_of_clear_sort|(w & -> & Hw)]|[Hp Hn]]; [done|done|].
    destruct (fresh_sort_value sc new) as [w|] eqn:E.
    + cbn. destruct (bit_set w i) eqn:Ew; [done|]. exfalso. eauto.
    + exfalso. apply Hn. left. apply HP in Hp. by eapply (dropped_value_cleared cfg slot old new); [|lia|..].
  - destruct (fresh_sort_value sc new) as [w|]; [eauto|]. cbn. by rewrite bit_set_0 by lia.
Qed.

Lemma body_sort_result cfg slot old_doc new is_upsert sc i (P : Prop) :
  NoDup (sf_name <$> sort_fields cfg) -> sc ∈ sort_fields cfg ->
  (N.to_nat (sf_bits sc) <= 32)%nat -> (i < N.to_nat (sf_bits sc))%nat ->
  keeps_sources cfg (from_option sd_fields ∅ old_doc) new ->
  (P <-> bit_set (default 0 (fresh_sort_value sc (from_option sd_fields ∅ old_doc))) i = true) ->
  let body := diff_body cfg slot old_doc new is_upsert in
  (SortSet (sf_name sc) i [slot] ∈ body \/ (P /\ SortClear (sf_name sc) i [slot] ∉ body))
  <-> bit_set (default 0 (fresh_sort_value sc new)) i = true.
Proof.
  intros Hnd Hsc Hb Hi Hk HP body. subst body. rewrite !diff_body_sort by done. cbv zeta.
  destruct is_upsert; [by apply upsert_sort_result|by apply fresh_sort_result].
Qed.

(** *** The whole diff *)

Lemma diff_document_visible slot old_doc new cfg is_upsert now :
  deferral cfg (doc_fields new) now = None ->
  diff_document slot old_doc new cfg is_upsert now
  = diff_body cfg slot old_doc (doc_fields new) is_upsert
    ++ shadow_ops cfg slot (doc_fields new) ++ [AliveInsert [slot]].
Proof. intros Hd. unfold diff_document. rewrite Hd. by destruct is_upsert. Qed.

Lemma diff_document_deferred slot old_doc new cfg is_upsert now at_ :
  deferral cfg (doc_fields new) now = Some at_ ->
  diff_document slot old_doc new cfg is_upsert now
  = (let old := from_option sd_fields ∅ old_doc in
     (clear_filter_ops cfg slot old ++ clear_sort_ops cfg slot old
      ++ (if old_doc then [AliveRemove [slot]] else [])) ++ [DeferredAlive slot at_]).
Proof.
  intros Hd. unfold diff_document. rewrite Hd. destruct old_doc; [done|]. cbv zeta. cbn [from_option].
  by rewrite clear_filter_empty, clear_sort_empty.
Qed.

Lemma shadow_list cfg slot fields : filter_list slot (shadow_ops cfg slot fields).
Proof. intros o (name & d & _ & [-> | ->])%elem_of_shadow_ops; done. Qed.

Lemma diff_document_about slot old_doc new cfg is_upsert now :
  about slot (diff_document slot old_doc new cfg is_upsert now).
Proof.
  unfold about. apply Forall_forall. intros o. destruct (deferral cfg (doc_fields new) now) as [at_|] eqn:E.
  - rewrite (diff_document_deferred _ _ _ _ _ _ at_) by done. cbv zeta. rewrite !elem_of_app, list_elem_of_singleton.
    intros [[H%clear_filter_list|[H%clear_sort_list|H]]| ->]; [tauto|tauto| |done].
    destruct old_doc; [|by apply not_elem_of_nil in H]. by apply list_elem_of_singleton in H as ->.
  - rewrite diff_document_visible by done. rewrite !elem_of_app, list_elem_of_singleton.
    intros [H%diff_body_kind|[H%shadow_list| ->]]; tauto || done.
Qed.

(** A batch about one slot changes nothing of the others. *)
Lemma about_others slot ops st st' x :
  about slot ops -> batch_effect ops st st' -> x <> slot ->
  (forall field v, fhas st' field v x <-> fhas st field v x)
  /\ (forall field i, sbit st' field i x <-> sbit st field i x)
  /\ (live st' x <-> live st x).
Proof.
  intros Ha He Hx. split_and!; intros.
  - rewrite (be_filter _ _ _ He), (sel_fi_about slot ops Ha), (sel_fr_about slot ops Ha). tauto.
  - rewrite (be_sort _ _ _ He), (sel_ss_about slot ops Ha), (sel_sc_about slot ops Ha). tauto.
  - rewrite (be_live _ _ _ He), (sel_ai_about slot ops Ha), (sel_ar_about slot ops Ha). tauto.
Qed.

(** What the index holds for a visible document: its own values, and the derived
    value of every shadow field. *)
Definition shadows_derived cfg st fields slot : Prop :=
  forall fc derived v, fc ∈ filter_fields cfg ->
    (ff_name fc, derived) ∈ derive_exists_boolean_shadows cfg fields ->
    fhas st (ff_name fc) v slot <-> v = shadow_key derived.

Section visible.
Context (cfg : Configuration) (slot : N) (old_doc : option StoredDoc) (new : Document) (is_upsert : bool) (now : N).
Context (st st' : IndexState B).
Context (Hd : deferral cfg (doc_fields new) now = None).
Context (Hm : config_matches cfg st) (Hi : slot_indexed cfg st (from_option sd_fields ∅ old_doc) slot).
Context (Hk : keeps_sources cfg (from_option sd_fields ∅ old_doc) (doc_fields new)).
Context (He : batch_effect (diff_document slot old_doc new cfg is_upsert now) st st').

Notation body := (diff_body cfg slot old_doc (doc_fields new) is_upsert).

Lemma visible_elem o :
  o ∈ diff_document slot old_doc new cfg is_upsert now <->
  o ∈ body \/ o ∈ shadow_ops cfg slot (doc_fields new) \/ o = AliveInsert [slot].
Proof. rewrite diff_document_visible by done. by rewrite !elem_of_app, list_elem_of_singleton. Qed.

Lemma visible_fhas fc v :
  fc ∈ filter_fields cfg ->
  fhas st' (ff_name fc) v slot <->
  FilterInsert (ff_name fc) v [slot] ∈ diff_document slot old_doc new cfg is_upsert now
  \/ (fhas st (ff_name fc) v slot
      /\ FilterRemove (ff_name fc) v [slot] ∉ diff_document slot old_doc new cfg is_upsert now).
Proof.
  intros Hfc. pose proof (diff_document_about slot old_doc new cfg is_upsert now) as Ha.
  rewrite (be_filter _ _ _ He), (sel_fi_about slot _ Ha), (sel_fr_about slot _ Ha).
  pose proof (cm_filters _ _ Hm fc Hfc). tauto.
Qed.

Lemma visible_filter fc v :
  fc ∈ filter_fields cfg -> ff_name fc ∉ shadow_targets cfg ->
  fhas st' (ff_name fc) v slot <-> v ∈ keys_of (doc_fields new !! ff_name fc).
Proof.
  intros Hfc Hs. rewrite visible_fhas by done.
  rewrite <- (body_filter_result cfg slot old_doc (doc_fields new) is_upsert fc v (fhas st (ff_name fc) v slot) Hfc Hs)
    by by apply (si_filter _ _ _ _ Hi).
  assert (forall o, filtery o -> (forall f w l, o = FilterInsert f w l \/ o = FilterRemove f w l -> f = ff_name fc) ->
    o ∈ diff_document slot old_doc new cfg is_upsert now <-> o ∈ body) as Hbody.
  { intros o Ho Hf. rewrite visible_elem. split; [|tauto]. intros [?|[H| ->]]; [done| |done]. exfalso.
    apply elem_of_shadow_ops in H as (name & d & Hder & Heq). apply Hs.
    rewrite <- (derive_names cfg (doc_fields new)). apply list_elem_of_fmap. exists (name, d). split; [|done]. cbn.
    symmetry. destruct Heq as [-> | ->]; eapply Hf; eauto. }
  rewrite !Hbody by (done || naive_solver). done.
Qed.

Lemma visible_shadow fc derived v :
  fc ∈ filter_fields cfg -> (ff_name fc, derived) ∈ derive_exists_boolean_shadows cfg (doc_fields new) ->
  fhas st' (ff_name fc) v slot <-> v = shadow_key derived.
Proof.
  intros Hfc Hder. rewrite visible_fhas, !visible_elem by done.
  assert (ff_name fc ∈ shadow_targets cfg) as Hs.
  { rewrite <- (derive_names cfg (doc_fields new)). apply list_elem_of_fmap. by exists (ff_name fc, derived). }
  assert (forall d, (ff_name fc, d) ∈ derive_exists_boolean_shadows cfg (doc_fields new) -> d = derived) as Hu.
  { intros d H. by eapply derive_unique; [apply (cm_shadows _ _ Hm)| |]. }
  pose proof (body_shadow_result cfg slot old_doc (doc_fields new) is_upsert (ff_name fc) v Hs) as Hb.
  rewrite !elem_of_shadow_ops. split.
  - intros [[?|[(name & d & Hn & [?|Heq])|?]]|[Hold Hn]]; try done.
    + simplify_eq. by rewrite (Hu d Hn).
    + destruct (decide (v = shadow_key (negb derived))) as [->|Hne].
      * exfalso. apply Hn. right. left. eauto 10.
      * destruct (si_shadow _ _ _ _ Hi fc v Hfc Hs Hold) as [->| ->]; by destruct derived.
  - intros ->. left. right. left. eauto 10.
Qed.

Lemma visible_sort sc i :
  sc ∈ sort_fields cfg -> (i < N.to_nat (sf_bits sc))%nat ->
  sbit st' (sf_name sc) i slot <-> bit_set (default 0 (fresh_sort_value sc (doc_fields new))) i = true.
Proof.
  intros Hsc Hlt. pose proof (diff_document_about slot old_doc new cfg is_upsert now) as Ha.
  rewrite (be_sort _ _ _ He), (sel_ss_about slot _ Ha), (sel_sc_about slot _ Ha).
  rewrite <- (body_sort_result cfg slot old_doc (doc_fields new) is_upsert sc i (sbit st (sf_name sc) i slot)
    (cm_names _ _ Hm) Hsc (cm_bits _ _ Hm sc Hsc) Hlt Hk) by by apply (si_sort _ _ _ _ Hi).
  rewrite (cm_sorts _ _ Hm sc Hsc).
  assert (forall o, sorty o -> o ∈ diff_document slot old_doc new cfg is_upsert now <-> o ∈ body) as Hbody.
  { intros o Ho. rewrite visible_elem. split; [|tauto]. intros [?|[H%shadow_list| ->]]; [done| |done].
    destruct o; cbn in *; tauto. }
  rewrite !Hbody by done. naive_solver.
Qed.

Lemma visible_live : live st' slot.
Proof.
  pose proof (diff_document_about slot old_doc new cfg is_upsert now) as Ha.
  apply (be_live _ _ _ He). rewrite (sel_ai_about slot _ Ha), (sel_ar_about slot _ Ha), !visible_elem.
  split; [right; auto|]. intros [_ [H%diff_body_kind|[H%shadow_list|?]]]; [cbn in H; tauto|cbn in H; tauto|done].
Qed.

End visible.

(** *** Deferred documents *)

Section deferred.
Context (cfg : Configuration) (slot : N) (old_doc : option StoredDoc) (new : Document) (is_upsert : bool) (now at_ : N).
Context (st st' : IndexState B).
Context (Hd : deferral cfg (doc_fields new) now = Some at_).
Context (Hi : slot_indexed cfg st (from_option sd_fields ∅ old_doc) slot).
Context (He : batch_effect (diff_document slot old_doc new cfg is_upsert now) st st').

Notation old := (from_option sd_fields ∅ old_doc).

Lemma deferred_elem o :
  o ∈ diff_document slot old_doc new cfg is_upsert now <->
  o ∈ clear_filter_ops cfg slot old \/ o ∈ clear_sort_ops cfg slot old
  \/ (is_Some old_doc /\ o = AliveRemove [slot]) \/ o = DeferredAlive slot at_.
Proof.
  rewrite (diff_document_deferred _ _ _ _ _ _ at_) by done. cbv zeta.
  rewrite !elem_of_app, list_elem_of_singleton. destruct old_doc.
  - rewrite list_elem_of_singleton. unfold is_Some. naive_solver.
  - rewrite elem_of_nil. unfold is_Some. naive_solver.
Qed.

Lemma deferred_filter fc v :
  fc ∈ filter_fields cfg -> ff_name fc ∉ shadow_targets cfg -> ~ fhas st' (ff_name fc) v slot.
Proof.
  intros Hfc Hs. pose proof (diff_document_about slot old_doc new cfg is_upsert now) as Ha.
  rewrite (be_filter _ _ _ He), (sel_fi_about slot _ Ha), (sel_fr_about slot _ Ha), !deferred_elem.
  rewrite (si_filter _ _ _ _ Hi fc v Hfc Hs). intros [[_ [_ Ho]]|[Hold Hn]].
  - destruct Ho as [(fc' & key & _ & _ & ?)%elem_of_clear_filter|[H%clear_sort_list|[[_ ?]|?]]]; try done.
    cbn in H. tauto.
  - apply Hn. split; [done|]. left. apply elem_of_clear_filter. by exists fc, v.
Qed.

Lemma deferred_sort sc i :
  sc ∈ sort_fields cfg -> computed sc = None -> (N.to_nat (sf_bits sc) <= 32)%nat ->
  (i < N.to_nat (sf_bits sc))%nat -> ~ sbit st' (sf_name sc) i slot.
Proof.
  intros Hsc Hc Hb Hlt. pose proof (diff_document_about slot old_doc new cfg is_upsert now) as Ha.
  rewrite (be_sort _ _ _ He), (sel_ss_about slot _ Ha), (sel_sc_about slot _ Ha), !deferred_elem.
  rewrite (si_sort _ _ _ _ Hi sc i Hsc Hlt). unfold fresh_sort_value. rewrite Hc. intros [[_ [_ Ho]]|[Hold Hn]].
  - destruct Ho as [H%clear_filter_list|[(?&?&?&_&_&_&_&?)%elem_of_clear_sort|[[_ ?]|?]]]; try done.
    cbn in H. tauto.
  - apply Hn. split; [done|]. right. left. destruct (single_sort (old !! sf_name sc)) as [os|] eqn:Eo.
    + apply elem_of_clear_sort. exists sc, os, i. split_and!; done.
    + cbn in Hold. rewrite bit_set_testbit in Hold by lia. by rewrite N.bits_0 in Hold.
Qed.

Lemma deferred_live : is_Some old_doc -> ~ live st' slot.
Proof.
  intros Ho. pose proof (diff_document_about slot old_doc new cfg is_upsert now) as Ha.
  rewrite (be_live _ _ _ He), (sel_ar_about slot _ Ha). intros [_ Hn]. apply Hn. split; [done|].
  apply deferred_elem. right. right. by left.
Qed.

Lemma deferred_waiting :
  SlotAllocator.deferred (ix_slots st')
  = SlotAllocator.deferred (SlotAllocator.schedule_alive (ix_slots st) slot at_).
Proof.
  rewrite (be_deferred _ _ _ He), (diff_document_deferred _ _ _ _ _ _ at_) by done. cbv zeta.
  assert (forall ops, (forall o, o ∈ ops -> sel_dm o = []) -> all_of sel_dm ops = []) as Hnil.
  { induction ops as [|o ops IH]; intros Ho; [done|]. unfold all_of. rewrite fmap_cons. cbn [mjoin list_join].
    rewrite (Ho o) by (apply elem_of_cons; by left). apply IH. intros. apply Ho, elem_of_cons. by right. }
  rewrite all_of_app, Hnil; [done|]. intros o. rewrite !elem_of_app.
  intros [H%clear_filter_list|[H%clear_sort_list|H]].
  - destruct o; cbn in *; tauto.
  - destruct o; cbn in *; tauto.
  - destruct old_doc; [|by apply not_elem_of_nil in H]. by apply list_elem_of_singleton in H as ->.
Qed.

End deferred.


(** A computed sort field keeps a source that a full replacement dropped: when
    every source field the new document still has is unchanged, an upsert emits
    nothing for the field, so the slot keeps the value computed from the old
    document, whatever the value of the new document is. *)
Theorem dropped_source_keeps_stale_sort (cfg : Configuration) (slot : N) (old : StoredDoc) (new : Document)
    (now : N) (sc : SortFieldConfig) (c : ComputedField) (i : nat) st :
  state_wf st -> config_matches cfg st -> deferral cfg (doc_fields new) now = None ->
  sc ∈ sort_fields cfg -> computed sc = Some c ->
  (forall f (v : FieldValue), f ∈ source_fields c -> doc_fields new !! f = Some v ->
     field_values_equal (sd_fields old !! f) (Some v) = true) ->
  let st' := WriteBatch.apply (grouped (diff_document slot (Some old) new cfg true now)) st in
  sbit st' (sf_name sc) i slot <-> sbit st (sf_name sc) i slot.
Proof.
  intros Hw Hm Hd Hsc Hc Heq st'.
  pose proof (grouped_apply_effect (diff_document slot (Some old) new cfg true now) st Hw) as He.
  pose proof (diff_document_about slot (Some old) new cfg true now) as Ha. subst st'.
  rewrite (be_sort _ _ _ He), (sel_ss_about slot _ Ha), (sel_sc_about slot _ Ha).
  enough (forall o, o = SortSet (sf_name sc) i [slot] \/ o = SortClear (sf_name sc) i [slot] ->
    o ∉ diff_document slot (Some old) new cfg true now) as Hno.
  { pose proof (Hno _ (or_introl eq_refl)). pose proof (Hno _ (or_intror eq_refl)). tauto. }
  intros o Ho. rewrite (visible_elem cfg slot (Some old) new true now Hd).
  intros [H|[H%shadow_list| ->]]; [|destruct Ho; subst; cbn in H; tauto|destruct Ho; done].
  apply diff_body_sort in H; [|destruct Ho; by subst]. cbv zeta in H.
  apply (elem_of_upsert_sort cfg slot _ _ sc i) in H; [|apply (cm_names _ _ Hm)|done|done].
  enough (upsert_pair sc (sd_fields old) (doc_fields new) = (None, None)) as Hpair.
  { rewrite elem_of_sort_diff in H. cbn [from_option] in H. rewrite Hpair in H. naive_solver. }
  unfold upsert_pair, resolve_computed_sort. rewrite Hc. destruct (existsb _ _) eqn:E; [|done]. exfalso.
  apply existsb_exists in E as (f & Hf & E). apply list_elem_of_In in Hf.
  destruct (doc_fields new !! f) as [v|] eqn:Ev; [|done]. by rewrite (Heq f v Hf Ev) in E.
Qed.

End documents.

(** ** Witnesses *)

Definition demo_cfg : Configuration :=
  basic_config [filter_config "tag" MultiValue] [sort_config "score" 8] 100.

Definition demo_doc (tags : list Z) (score : Z) : Fields :=
  {["tag"%string := Multi (Integer <$> tags); "score"%string := Single (Integer score)]}.

Lemma demo_cfg_matches : config_matches demo_cfg demo_index.
Proof.
  split; cbn.
  - intros fc ->%list_elem_of_singleton. by eexists.
  - intros sc ->%list_elem_of_singleton. reflexivity.
  - intros sc ->%list_elem_of_singleton. vm_compute. lia.
  - apply NoDup_singleton.
  - apply NoDup_nil_2.
Qed.

Lemma demo_slot_indexed : slot_indexed demo_cfg demo_index (demo_doc [10%Z] 5) 1.
Proof.
  split.
  - intros fc v ->%list_elem_of_singleton _.
    change (keys_of _) with (keys_of (Some (Multi [Integer 10]))).
    replace (keys_of (Some (Multi [Integer 10]))) with [10] by reflexivity. rewrite list_elem_of_singleton. split.
    + intros (ff & Hff & Hx). cbn in Hff. injection Hff as <-. apply has_insert in Hx; [|apply fwf_new].
      destruct Hx as [[-> _]|(vb & Hvb & _)]; [done|]. cbn in Hvb. by rewrite lookup_empty in Hvb.
    + intros ->. eexists. split; [reflexivity|]. apply has_insert; [apply fwf_new|by left].
  - intros fc v _ ?%not_elem_of_nil. done.
  - intros sc i ->%list_elem_of_singleton Hi. split.
    + intros (sf & Hsf & Hx). cbn in Hsf. injection Hsf as <-.
      apply layer_has_insert in Hx; [|apply wf_new_sf|done]. destruct Hx as [[_ ?]|(vb & Hvb & Hx)]; [done|].
      cbn in Hvb. apply lookup_replicate in Hvb as [-> _]. exfalso. by apply (elem_of_new_empty 1).
    + intros Hb. eexists. split; [reflexivity|]. apply layer_has_insert; [apply wf_new_sf|done|by left].
Qed.


(** Old document {a: 5, b: 9}, new document {a: 5}: the greatest was 9, is 5. *)
Definition latest : SortFieldConfig :=
  MkSortFieldConfig "latest" "uint32" "linear" 8 false (Some (MkComputedField Greatest ["a"%string; "b"%string])).
Definition latest_cfg : Configuration := basic_config [] [latest] 100.
Definition latest_index : IndexState Bitset :=
  MkIndexState SlotAllocator.new ∅ {["latest"%string := SortField.insert (SortField.new latest) 1 9]}.
Definition latest_old : Fields := {["a"%string := Single (Integer 5); "b"%string := Single (Integer 9)]}.
Definition latest_new : Fields := {["a"%string := Single (Integer 5)]}.

Lemma latest_index_wf : state_wf latest_index.
Proof.
  split.
  - intros field ff H. cbn in H. by rewrite lookup_empty in H.
  - intros field sf. cbn [latest_index ix_sorts]. intros [<- <-]%lookup_singleton_Some. apply wf_insert_sf, wf_new_sf.
  - apply wf_new.
Qed.

Lemma dropped_source_keeps_stale_sort_witness :
  sbit (WriteBatch.apply (grouped (diff_document 1 (Some (MkStoredDoc latest_old 0)) (MkDocument latest_new)
          latest_cfg true 0)) latest_index) "latest" 3 1
  /\ fresh_sort_value latest latest_new = Some 5.
Proof.
  split; [|reflexivity].
  apply (dropped_source_keeps_stale_sort latest_cfg 1 (MkStoredDoc latest_old 0) (MkDocument latest_new) 0 latest
    (MkComputedField Greatest ["a"%string; "b"%string]) 3 latest_index latest_index_wf).
  - split; cbn.
    + intros fc ?%not_elem_of_nil. done.
    + intros sc ->%list_elem_of_singleton. reflexivity.
    + intros sc ->%list_elem_of_singleton. vm_compute. lia.
    + apply NoDup_singleton.
    + apply NoDup_nil_2.
  - reflexivity.
  - by apply list_elem_of_singleton.
  - reflexivity.
  - intros f v Hf Hv. cbn [doc_fields] in Hv. unfold latest_new in Hv. apply lookup_singleton_Some in Hv as [<- <-]. reflexivity.
  - eexists. split; [reflexivity|]. apply layer_has_insert; [apply wf_new_sf|vm_compute; lia|by left].
Defined.
