(* ===== verification/Engine.v ===== *)
(** * The engine (src/engine.rs, src/concurrency.rs)

    The single-threaded engine ties the components together: mutations through the
    mutation engine, queries through the executor, with the in-flight tracker for
    post-validation. *)

From S2P Require Import Prelude Roaring Versioned Slot Config Sort Filter Float64 Bytes.
From S2P Require Import BucketDiffLog TimeBuckets Query Dictionary Planner Executor Coalescer Mutation.

Local Open Scope bitdex_scope.

Module InFlightTracker.

(** The set of slots being written. *)
Definition t : Type := gset N.

Definition new : t := ∅.
Definition mark_in_flight (s : t) (slot_id : N) : t := {[slot_id]} ∪ s.
Definition clear_in_flight (s : t) (slot_id : N) : t := s ∖ {[slot_id]}.
Definition is_in_flight (s : t) (slot_id : N) : bool := bool_decide (slot_id ∈ s).

(** Result ids are [i64] slot ids, so never negative here; [id as u32] truncates. *)
Definition find_overlapping (s : t) (result_ids : list N) : list N :=
  omap (fun id => let slot := wrap32 id in if bool_decide (slot ∈ s) then Some slot else None) result_ids.

Definition find_overlapping_bitmap {B : Type} `{!RoaringOps B} (s : t) (candidates : B) : B :=
  foldl (fun overlapping slot => if rb_contains candidates slot then rb_insert overlapping slot else overlapping)
    rb_new (elements s).

Definition in_flight_count (s : t) : nat := size s.
Definition has_in_flight (s : t) : bool := negb (bool_decide (s = ∅)).

End InFlightTracker.

Module Engine.

Section engine.
Context {B D : Type} `{!RoaringOps B} `{!DocStoreOps D}.
Context (to_lowercase : string -> string).

Record t : Type := mk {
  index : IndexState B;
  in_flight : InFlightTracker.t;
  docstore : D;
  config : Configuration;
}.

Implicit Types (e : t) (ix : IndexState B).

(** [new] and [new_with_path] after the configuration was validated, over the
    opened document store. *)
Definition new (cfg : Configuration) (store : D) : t :=
  let filters := foldl (fun m fc => <[ff_name fc := FilterField.new fc]> m) ∅ (filter_fields cfg) in
  let sorts := foldl SortIndex.add_field SortIndex.new (sort_fields cfg) in
  mk (MkIndexState SlotAllocator.new filters sorts) InFlightTracker.new store cfg.

(** The eager merges after every mutation. *)
Definition merge_all ix : IndexState B :=
  MkIndexState (SlotAllocator.merge_alive (ix_slots ix)) (FilterField.merge_dirty <$> ix_filters ix)
    (SortField.merge_dirty <$> ix_sorts ix).

(** Run a mutation with the slot marked in flight. *)
Definition with_in_flight e (id : N)
    (run : MutationEngine.state (B := B) (D := D) -> result unit * MutationEngine.state (B := B) (D := D))
  : result unit * t :=
  let marked := InFlightTracker.mark_in_flight (in_flight e) id in
  let '(res, st) := run (MutationEngine.mk (index e) (docstore e)) in
  (res, mk (merge_all (MutationEngine.index st)) (InFlightTracker.clear_in_flight marked id)
           (MutationEngine.docstore st) (config e)).

Definition put e (id : N) (doc : Document) : result unit * t :=
  with_in_flight e id (fun st => MutationEngine.put (config e) st id doc).

Definition patch e (id : N) (p : PatchPayload) : result unit * t :=
  with_in_flight e id (fun st => MutationEngine.patch st id p).

Definition delete e (id : N) : result unit * t :=
  with_in_flight e id (fun st => MutationEngine.delete (config e) st id).

Definition executor e (max_page : N) : QueryExecutor B :=
  new_executor (ix_slots (index e)) (ix_filters (index e)) (ix_sorts (index e)) max_page.

Definition delete_where e (filters : list (FilterClause B)) : result N * t :=
  match execute to_lowercase (executor e u32_max) filters None u32_max None with
  | Err err => (Err err, e)
  | Ok r =>
      let matching := foldl (fun b id => rb_insert b (wrap32 id)) rb_new (qr_ids r) in
      let '(res, st) := MutationEngine.delete_where (config e) (MutationEngine.mk (index e) (docstore e)) matching in
      (res, mk (merge_all (MutationEngine.index st)) (in_flight e) (MutationEngine.docstore st) (config e))
  end.

(** The slots of [overlapping] that no longer qualify. *)
Fixpoint invalid_slots (ex : QueryExecutor B) (alive : B) (filters : list (FilterClause B)) (overlapping : list N)
  : result (list N) :=
  match overlapping with
  | [] => Ok []
  | slot :: rest =>
      if negb (rb_contains alive slot) then
        let? invalid := invalid_slots ex alive filters rest in Ok (slot :: invalid)
      else
        let? ok := slot_matches_filters to_lowercase ex slot filters in
        let? invalid := invalid_slots ex alive filters rest in
        Ok (if ok : bool then invalid else slot :: invalid)
  end.

Definition post_validate e (r : QueryResult) (filters : list (FilterClause B)) (ex : QueryExecutor B)
  : result QueryResult :=
  if negb (InFlightTracker.has_in_flight (in_flight e)) then Ok r
  else
    match InFlightTracker.find_overlapping (in_flight e) (qr_ids r) with
    | [] => Ok r
    | overlapping =>
        let? invalid := invalid_slots ex (SlotAllocator.alive_bitmap (ix_slots (index e))) filters overlapping in
        Ok (MkQueryResult (filter (fun id => wrap32 id ∉ invalid) (qr_ids r)) (qr_cursor r) (qr_total_matched r))
    end.

Definition apply_offset (offset : N) (r : QueryResult) : QueryResult :=
  if (0 <? offset) && negb (bool_decide (qr_ids r = [])) then
    if N.of_nat (length (qr_ids r)) <=? offset then MkQueryResult [] None (qr_total_matched r)
    else MkQueryResult (drop (N.to_nat offset) (qr_ids r)) (qr_cursor r) (qr_total_matched r)
  else r.

Definition execute_query e (query : BitdexQuery B) : result QueryResult :=
  let ex := executor e (cfg_max_page_size (config e)) in
  let offset := match q_cursor query with None => default 0 (q_offset query) | Some _ => 0 end in
  let fetch_limit := N.min (q_limit query + offset) u64_max in
  let? r := execute to_lowercase ex (q_filters query) (q_sort query) fetch_limit (q_cursor query) in
  post_validate e (apply_offset offset r) (q_filters query) ex.

Definition query e (filters : list (FilterClause B)) (sort : option SortClause) (limit : N) : result QueryResult :=
  let ex := executor e (cfg_max_page_size (config e)) in
  let? r := execute to_lowercase ex filters sort limit None in
  post_validate e r filters ex.

Definition alive_count e : N := SlotAllocator.alive_count (ix_slots (index e)).
Definition dead_count e : N := SlotAllocator.dead_count (ix_slots (index e)).
Definition slot_counter e : N := SlotAllocator.slot_counter (ix_slots (index e)).

End engine.

Arguments mk {B D} _ _ _ _.
Arguments index {B D} _.
Arguments in_flight {B D} _.
Arguments docstore {B D} _.
Arguments config {B D} _.

End Engine.
