(* ===== verification/EngineFacts.v ===== *)
(** * The engine: lemmas

    How the steps of the mutation engine move the bitmaps from one set of
    documents to another. *)

From S2P Require Import Prelude Roaring Versioned Slot Config Sort SortFacts SortTheorems.
From S2P Require Import Filter FilterFacts Float64 Bytes BucketDiffLog TimeBuckets Query Dictionary Planner.
From S2P Require Import Executor Coalescer IndexFacts Mutation MutationFacts Engine.

Notation Docs := (gmap N Fields).

(** What the bitmaps hold for a set of documents, by slot. *)
Definition doc_bits (docs : Docs) (name : string) (v x : N) : Prop :=
  exists fields, docs !! x = Some fields /\ v ∈ keys_of (fields !! name).

Definition doc_sort_bits (docs : Docs) (name : string) (i : nat) (x : N) : Prop :=
  exists fields, docs !! x = Some fields /\ bit_set (default 0 (single_sort (fields !! name))) i = true.

Section filter_steps.
Context {B : Type} `{HB : Roaring B}.
Implicit Types (f : FilterField.t B) (ix : IndexState B) (id v x : N).

Lemma clear_filter_bits_has f id val :
  bitmaps_wf (FilterField.bitmaps f) ->
  bitmaps_wf (FilterField.bitmaps (MutationEngine.clear_filter_bits f id val))
  /\ forall v x, has (MutationEngine.clear_filter_bits f id val) v x
       <-> has f v x /\ ~ (x = id /\ v ∈ keys_of (Some val)).
Proof.
  unfold MutationEngine.clear_filter_bits, keys_of. cbn [from_option].
  revert f. induction (field_values val) as [|a l IH]; intros f Hw; cbn [foldl omap list_omap].
  { split; [done|]. intros. rewrite elem_of_nil. tauto. }
  destruct (mutation_bitmap_key a) as [key|]; cbn [from_option]; [|by apply IH].
  destruct (IH (FilterField.remove f key id)) as [H1 H2]; [by apply fwf_remove|].
  split; [done|]. intros v x. rewrite H2, has_remove, elem_of_cons by done. tauto.
Qed.

Lemma set_filter_bits_has f id val :
  bitmaps_wf (FilterField.bitmaps f) ->
  bitmaps_wf (FilterField.bitmaps (MutationEngine.set_filter_bits f id val))
  /\ forall v x, has (MutationEngine.set_filter_bits f id val) v x
       <-> has f v x \/ (x = id /\ v ∈ keys_of (Some val)).
Proof.
  unfold MutationEngine.set_filter_bits, keys_of. cbn [from_option].
  revert f. induction (field_values val) as [|a l IH]; intros f Hw; cbn [foldl omap list_omap].
  { split; [done|]. intros. rewrite elem_of_nil. tauto. }
  destruct (mutation_bitmap_key a) as [key|]; cbn [from_option]; [|by apply IH].
  destruct (IH (FilterField.insert f key id)) as [H1 H2]; [by apply fwf_insert|].
  split; [done|]. intros v x. rewrite H2, has_insert, elem_of_cons by done. tauto.
Qed.

(** A step on one filter field that moves it from the bits [src] to the bits [tgt]. *)
Record filter_step ix ix' (name : string) (tgt : N -> N -> Prop) : Prop := {
  fs_wf : state_wf ix';
  fs_fields : same_fields ix ix';
  fs_sorts : ix_sorts ix' = ix_sorts ix;
  fs_slots : ix_slots ix' = ix_slots ix;
  fs_other : forall field v x, field <> name -> fhas ix' field v x <-> fhas ix field v x;
  fs_here : forall v x, fhas ix' name v x <-> tgt v x;
}.

Lemma filter_step_with ix name g (tgt : N -> N -> Prop) :
  state_wf ix -> is_Some (ix_filters ix !! name) ->
  (forall ff, ix_filters ix !! name = Some ff -> bitmaps_wf (FilterField.bitmaps ff) ->
     bitmaps_wf (FilterField.bitmaps (g ff)) /\ forall v x, has (g ff) v x <-> tgt v x) ->
  filter_step ix (with_filter ix name g) name tgt.
Proof.
  intros Hw [ff Hff] Hg. destruct (Hg ff Hff) as [H1 H2]; [by eapply swf_filters|]. split.
  - destruct Hw as [W1 W2 W3]. split; cbn [with_filter ix_filters ix_sorts ix_slots]; [|done|done].
    intros field ff'. rewrite lookup_alter. case_decide; [subst; rewrite Hff; by intros [= <-]|apply W1].
  - apply same_fields_filter.
  - done.
  - done.
  - intros field v x Hne. unfold fhas. cbn [with_filter ix_filters]. by rewrite lookup_alter_ne.
  - intros v x. unfold fhas. cbn [with_filter ix_filters]. rewrite lookup_alter_eq, Hff. cbn. naive_solver.
Qed.

Lemma filter_step_id ix name (tgt : N -> N -> Prop) :
  state_wf ix -> (forall v x, fhas ix name v x <-> tgt v x) -> filter_step ix ix name tgt.
Proof. intros Hw Ht. split; auto with bitdex. Qed.

(** Steps over a list of distinct fields. *)
Lemma filter_steps (l : list FilterFieldConfig) (step : IndexState B -> FilterFieldConfig -> IndexState B)
    (src tgt : string -> N -> N -> Prop) ix :
  state_wf ix -> NoDup (ff_name <$> l) ->
  (forall fc, fc ∈ l -> is_Some (ix_filters ix !! ff_name fc)
     /\ forall v x, fhas ix (ff_name fc) v x <-> src (ff_name fc) v x) ->
  (forall ix fc, fc ∈ l -> state_wf ix -> is_Some (ix_filters ix !! ff_name fc) ->
     (forall v x, fhas ix (ff_name fc) v x <-> src (ff_name fc) v x) ->
     filter_step ix (step ix fc) (ff_name fc) (tgt (ff_name fc))) ->
  let ix' := foldl step ix l in
  state_wf ix' /\ same_fields ix ix' /\ ix_sorts ix' = ix_sorts ix /\ ix_slots ix' = ix_slots ix
  /\ (forall field v x, field ∉ ff_name <$> l -> fhas ix' field v x <-> fhas ix field v x)
  /\ (forall fc v x, fc ∈ l -> fhas ix' (ff_name fc) v x <-> tgt (ff_name fc) v x).
Proof.
  revert ix. induction l as [|fc l IH]; intros ix Hw Hnd Hsrc Hstep; cbn [foldl].
  { split_and!; auto with bitdex. intros fc v x Hfc. by apply not_elem_of_nil in Hfc. }
  rewrite fmap_cons in Hnd. apply NoDup_cons in Hnd as [Hn Hnd].
  destruct (Hsrc fc) as [Hs1 Hs2]; [apply elem_of_cons; by left|].
  pose proof (Hstep ix fc ltac:(apply elem_of_cons; by left) Hw Hs1 Hs2) as Hf.
  destruct (IH (step ix fc)) as (W & F & S & L & O & T).
  - apply (fs_wf _ _ _ _ Hf).
  - done.
  - intros fc' Hfc'. destruct (Hsrc fc') as [H1 H2]; [apply elem_of_cons; by right|].
    split; [by apply (fs_fields _ _ _ _ Hf)|]. intros v x. rewrite (fs_other _ _ _ _ Hf); [done|].
    intros Heq. apply Hn. rewrite <- Heq. by apply (list_elem_of_fmap_2 ff_name).
  - intros ix2 fc' Hfc'. apply Hstep, elem_of_cons. by right.
  - split_and!.
    + done.
    + eapply same_fields_trans; [apply (fs_fields _ _ _ _ Hf)|done].
    + by rewrite S, (fs_sorts _ _ _ _ Hf).
    + by rewrite L, (fs_slots _ _ _ _ Hf).
    + intros field v x. rewrite fmap_cons, not_elem_of_cons. intros [H1 H2].
      by rewrite O, (fs_other _ _ _ _ Hf).
    + intros fc' v x [->|Hfc']%elem_of_cons; [|by apply T]. rewrite O by done. apply (fs_here _ _ _ _ Hf).
Qed.

End filter_steps.

Section sort_steps.
Context {B : Type} `{HB : Roaring B}.
Implicit Types (sf : SortField.t B) (ix : IndexState B) (id v x : N).

(** A step on one sort field, with [n] layers, that moves it to the bits [tgt]. *)
Record sort_step ix ix' (name : string) (n : nat) (tgt : nat -> N -> Prop) : Prop := {
  ss_wf : state_wf ix';
  ss_fields : same_fields ix ix';
  ss_filters : ix_filters ix' = ix_filters ix;
  ss_slots : ix_slots ix' = ix_slots ix;
  ss_other : forall field i x, field <> name -> sbit ix' field i x <-> sbit ix field i x;
  ss_here : forall i x, (i < n)%nat -> sbit ix' name i x <-> tgt i x;
}.

Lemma sort_step_with ix name n g (tgt : nat -> N -> Prop) :
  state_wf ix -> layers_of ix name = Some n ->
  (forall sf, SortField.num_bits (g sf) = SortField.num_bits sf) ->
  (forall sf, ix_sorts ix !! name = Some sf -> SortField.wf sf -> SortField.num_bits sf = n ->
     SortField.wf (g sf) /\ forall i x, (i < n)%nat -> layer_has (g sf) i x <-> tgt i x) ->
  sort_step ix (with_sort ix name g) name n tgt.
Proof.
  intros Hw Hn Hb Hg. unfold layers_of in Hn. apply fmap_Some in Hn as (sf & Hsf & Hn).
  destruct (Hg sf Hsf) as [H1 H2]; [by eapply swf_sorts|done|]. split.
  - destruct Hw as [W1 W2 W3]. split; cbn [with_sort ix_filters ix_sorts ix_slots]; [done| |done].
    intros field sf'. rewrite lookup_alter. case_decide; [subst; rewrite Hsf; by intros [= <-]|apply W2].
  - by apply same_fields_sort.
  - done.
  - done.
  - intros field i x Hne. unfold sbit. cbn [with_sort ix_sorts]. by rewrite lookup_alter_ne.
  - intros i x Hi. unfold sbit. cbn [with_sort ix_sorts]. rewrite lookup_alter_eq, Hsf. cbn. naive_solver.
Qed.

Lemma sort_step_id ix name n (tgt : nat -> N -> Prop) :
  state_wf ix -> (forall i x, (i < n)%nat -> sbit ix name i x <-> tgt i x) -> sort_step ix ix name n tgt.
Proof. intros Hw Ht. split; auto with bitdex. Qed.

Lemma sort_steps (l : list SortFieldConfig) (step : IndexState B -> SortFieldConfig -> IndexState B)
    (src tgt : string -> nat -> N -> Prop) ix :
  state_wf ix -> NoDup (sf_name <$> l) ->
  (forall sc, sc ∈ l -> layers_of ix (sf_name sc) = Some (N.to_nat (sf_bits sc))
     /\ forall i x, (i < N.to_nat (sf_bits sc))%nat -> sbit ix (sf_name sc) i x <-> src (sf_name sc) i x) ->
  (forall ix sc, sc ∈ l -> state_wf ix -> layers_of ix (sf_name sc) = Some (N.to_nat (sf_bits sc)) ->
     (forall i x, (i < N.to_nat (sf_bits sc))%nat -> sbit ix (sf_name sc) i x <-> src (sf_name sc) i x) ->
     sort_step ix (step ix sc) (sf_name sc) (N.to_nat (sf_bits sc)) (tgt (sf_name sc))) ->
  let ix' := foldl step ix l in
  state_wf ix' /\ same_fields ix ix' /\ ix_filters ix' = ix_filters ix /\ ix_slots ix' = ix_slots ix
  /\ (forall field i x, field ∉ sf_name <$> l -> sbit ix' field i x <-> sbit ix field i x)
  /\ (forall sc i x, sc ∈ l -> (i < N.to_nat (sf_bits sc))%nat ->
        sbit ix' (sf_name sc) i x <-> tgt (sf_name sc) i x).
Proof.
  revert ix. induction l as [|sc l IH]; intros ix Hw Hnd Hsrc Hstep; cbn [foldl].
  { split_and!; auto with bitdex. intros sc i x Hsc. by apply not_elem_of_nil in Hsc. }
  rewrite fmap_cons in Hnd. apply NoDup_cons in Hnd as [Hn Hnd].
  destruct (Hsrc sc) as [Hs1 Hs2]; [apply elem_of_cons; by left|].
  pose proof (Hstep ix sc ltac:(apply elem_of_cons; by left) Hw Hs1 Hs2) as Hf.
  destruct (IH (step ix sc)) as (W & F & S & L & O & T).
  - apply (ss_wf _ _ _ _ _ Hf).
  - done.
  - intros sc' Hsc'. destruct (Hsrc sc') as [H1 H2]; [apply elem_of_cons; by right|].
    split; [by rewrite (proj2 (ss_fields _ _ _ _ _ Hf))|]. intros i x Hi. rewrite (ss_other _ _ _ _ _ Hf); [by apply H2|].
    intros Heq. apply Hn. rewrite <- Heq. by apply (list_elem_of_fmap_2 sf_name).
  - intros ix2 sc' Hsc'. apply Hstep, elem_of_cons. by right.
  - split_and!.
    + done.
    + eapply same_fields_trans; [apply (ss_fields _ _ _ _ _ Hf)|done].
    + by rewrite S, (ss_filters _ _ _ _ _ Hf).
    + by rewrite L, (ss_slots _ _ _ _ _ Hf).
    + intros field i x. rewrite fmap_cons, not_elem_of_cons. intros [H1 H2].
      by rewrite O, (ss_other _ _ _ _ _ Hf).
    + intros sc' i x [->|Hsc']%elem_of_cons Hi; [|by apply T]. rewrite O by done. by apply (ss_here _ _ _ _ _ Hf).
Qed.

Lemma layer_has_merge_dirty sf i x :
  SortField.wf sf -> layer_has (SortField.merge_dirty sf) i x <-> layer_has sf i x.
Proof.
  intros Hw. rewrite (layer_has_changed sf _ (fun _ layer =>
    if negb (VersionedBitmap.is_dirty layer) then layer else VersionedBitmap.merge_with_timing layer))
    by (intros; apply list_lookup_fmap).
  unfold layer_has. assert (forall vb, SortField.bit_layers sf !! i = Some vb -> VersionedBitmap.wf vb) as Hv.
  { intros vb Hvb. by eapply Forall_lookup_1; [apply (SortField.wf_layers _ Hw)|]. }
  split; intros (vb & Hvb & Hx); exists vb; (split; [done|]); destruct (negb (VersionedBitmap.is_dirty vb)); try done;
    rewrite merge_with_timing_merge, elem_of_merge in *; auto.
Qed.

(** Merging everything changes no contents. *)
Lemma merge_all_contents ix :
  state_wf ix ->
  let ix' := Engine.merge_all ix in
  state_wf ix' /\ same_fields ix ix'
  /\ (forall field v x, fhas ix' field v x <-> fhas ix field v x)
  /\ (forall field i x, sbit ix' field i x <-> sbit ix field i x)
  /\ (forall x, live ix' x <-> live ix x).
Proof.
  intros Hw. cbv zeta. split_and!.
  - split; cbn [Engine.merge_all ix_filters ix_sorts ix_slots].
    + intros field ff. rewrite lookup_fmap. intros (ff' & Hff & ->)%fmap_Some.
      apply fwf_merge_dirty. by eapply swf_filters.
    + intros field sf. rewrite lookup_fmap. intros (sf' & Hsf & ->)%fmap_Some.
      exact (wf_step sf' OpMergeDirty (swf_sorts _ Hw _ _ Hsf)).
    + apply wf_merge, Hw.
  - split.
    + intros field. cbn [Engine.merge_all ix_filters]. by rewrite lookup_fmap, fmap_is_Some.
    + intros field. unfold layers_of. cbn [Engine.merge_all ix_sorts]. rewrite lookup_fmap, <- option_fmap_compose. done.
  - intros field v x. unfold fhas. cbn [Engine.merge_all ix_filters]. rewrite lookup_fmap.
    destruct (ix_filters ix !! field) as [ff|] eqn:E; cbn; [|naive_solver].
    pose proof (merge_dirty_has ff v x (swf_filters _ Hw _ _ E)). naive_solver.
  - intros field i x. unfold sbit. cbn [Engine.merge_all ix_sorts]. rewrite lookup_fmap.
    destruct (ix_sorts ix !! field) as [sf|] eqn:E; cbn; [|naive_solver].
    pose proof (layer_has_merge_dirty sf i x (swf_sorts _ Hw _ _ E)). naive_solver.
  - intros x. unfold live. cbn [Engine.merge_all ix_slots SlotAllocator.merge_alive SlotAllocator.alive].
    apply elem_of_merge, Hw.
Qed.

End sort_steps.

(** ** From one set of documents to another *)

Lemma doc_bits_insert (docs : Docs) id fields name v x :
  doc_bits (<[id := fields]> docs) name v x <->
  (x = id /\ v ∈ keys_of (fields !! name)) \/ (x <> id /\ doc_bits docs name v x).
Proof. unfold doc_bits. rewrite lookup_insert. case_decide; naive_solver. Qed.

Lemma doc_bits_delete (docs : Docs) id name v x :
  doc_bits (delete id docs) name v x <-> x <> id /\ doc_bits docs name v x.
Proof. unfold doc_bits. rewrite lookup_delete. case_decide; naive_solver. Qed.

Lemma doc_sort_bits_insert (docs : Docs) id fields name i x :
  doc_sort_bits (<[id := fields]> docs) name i x <->
  (x = id /\ bit_set (default 0%N (single_sort (fields !! name))) i = true)
  \/ (x <> id /\ doc_sort_bits docs name i x).
Proof. unfold doc_sort_bits. rewrite lookup_insert. case_decide; naive_solver. Qed.

Lemma doc_sort_bits_delete (docs : Docs) id name i x :
  doc_sort_bits (delete id docs) name i x <-> x <> id /\ doc_sort_bits docs name i x.
Proof. unfold doc_sort_bits. rewrite lookup_delete. case_decide; naive_solver. Qed.
