(* ===== verification/EngineInvariant.v ===== *)
(** * The engine: the bitmaps mirror the documents

    [bits_ok cfg ix docs]: every configured filter bitmap and sort layer holds
    exactly the bits of the documents [docs].  Each step of the mutation engine
    moves the index from one set of documents to the next. *)

From S2P Require Import Prelude Roaring Versioned Slot Config Sort SortFacts SortTheorems.
From S2P Require Import Filter FilterFacts Float64 Bytes BucketDiffLog TimeBuckets Query Dictionary Planner.
From S2P Require Import Executor Coalescer IndexFacts Mutation MutationFacts Engine EngineFacts.

(** Distinct names, no filter field called "id", layers that fit a [u32]. *)
Record config_ok (cfg : Configuration) : Prop := {
  cfg_filters : NoDup (ff_name <$> filter_fields cfg);
  cfg_sorts : NoDup (sf_name <$> sort_fields cfg);
  cfg_no_id : "id"%string ∉ ff_name <$> filter_fields cfg;
  cfg_bits : Forall (fun sc => sf_bits sc <= 32)%N (sort_fields cfg);
}.

Section bits.
Context {B : Type} `{HB : Roaring B}.
Context (cfg : Configuration) (Hcfg : config_ok cfg).
Implicit Types (ix : IndexState B) (docs : Docs) (id v x : N) (fields : Fields).

Record bits_ok ix docs : Prop := {
  bo_wf : state_wf ix;
  bo_filters : forall name, is_Some (ix_filters ix !! name) <-> name ∈ ff_name <$> filter_fields cfg;
  bo_sorts : forall sc, sc ∈ sort_fields cfg -> layers_of ix (sf_name sc) = Some (N.to_nat (sf_bits sc));
  bo_fhas : forall fc v x, fc ∈ filter_fields cfg ->
    fhas ix (ff_name fc) v x <-> doc_bits docs (ff_name fc) v x;
  bo_sbit : forall sc i x, sc ∈ sort_fields cfg -> (i < N.to_nat (sf_bits sc))%nat ->
    sbit ix (sf_name sc) i x <-> doc_sort_bits docs (sf_name sc) i x;
}.

(** The same contents in the same fields. *)
Lemma bits_ok_same ix ix' docs :
  bits_ok ix docs -> state_wf ix' -> same_fields ix ix' ->
  (forall field v x, fhas ix' field v x <-> fhas ix field v x) ->
  (forall field i x, sbit ix' field i x <-> sbit ix field i x) ->
  bits_ok ix' docs.
Proof.
  intros [H1 H2 H3 H4 H5] Hw [F1 F2] Hf Hs. split; [done|..].
  - intros name. by rewrite F1.
  - intros sc Hsc. rewrite F2. auto.
  - intros. rewrite Hf. auto.
  - intros. rewrite Hs. auto.
Qed.

(** The shape shared by the three updates of the mutation engine. *)
Lemma bits_ok_change ix docs docs' (fstep : IndexState B -> FilterFieldConfig -> IndexState B)
    (sstep : IndexState B -> SortFieldConfig -> IndexState B) :
  bits_ok ix docs ->
  (forall ix fc, state_wf ix -> is_Some (ix_filters ix !! ff_name fc) ->
     (forall v x, fhas ix (ff_name fc) v x <-> doc_bits docs (ff_name fc) v x) ->
     filter_step ix (fstep ix fc) (ff_name fc) (doc_bits docs' (ff_name fc))) ->
  (forall ix sc n, state_wf ix -> (n <= 32)%nat -> layers_of ix (sf_name sc) = Some n ->
     (forall i x, (i < n)%nat -> sbit ix (sf_name sc) i x <-> doc_sort_bits docs (sf_name sc) i x) ->
     sort_step ix (sstep ix sc) (sf_name sc) n (doc_sort_bits docs' (sf_name sc))) ->
  let ix' := foldl sstep (foldl fstep ix (filter_fields cfg)) (sort_fields cfg) in
  bits_ok ix' docs' /\ ix_slots ix' = ix_slots ix.
Proof.
  intros [H1 H2 H3 H4 H5] Hf Hs. cbv zeta.
  destruct (filter_steps (filter_fields cfg) fstep (doc_bits docs) (doc_bits docs') ix H1 (cfg_filters _ Hcfg))
    as (W & [F1 F2] & S & L & O & T).
  { intros fc Hfc. split; [apply H2; by apply (list_elem_of_fmap_2 ff_name)|]. eauto. }
  { intros ix1 fc _. apply Hf. }
  set (ix1 := foldl fstep ix (filter_fields cfg)) in *.
  destruct (sort_steps (sort_fields cfg) sstep (doc_sort_bits docs) (doc_sort_bits docs') ix1 W (cfg_sorts _ Hcfg))
    as (W' & [F1' F2'] & S' & L' & O' & T').
  { intros sc Hsc. split; [rewrite F2; auto|]. intros i x Hi. unfold sbit. rewrite S. by apply H5. }
  { intros ix2 sc Hsc Hw2 Hl2. apply Hs; [done| |done].
    pose proof (proj1 (Forall_forall _ _) (cfg_bits _ Hcfg) sc Hsc) as Hb. cbn in Hb. lia. }
  split; [|by rewrite L', L]. split; [done|..].
  - intros name. by rewrite F1', F1.
  - intros sc Hsc. rewrite F2', F2. auto.
  - intros fc v x Hfc. unfold fhas. rewrite S'. by apply T.
  - done.
Qed.

Lemma fhas_here ix name ff v x : ix_filters ix !! name = Some ff -> fhas ix name v x <-> has ff v x.
Proof. unfold fhas. intros ->. naive_solver. Qed.

Lemma sbit_here ix name sf i x : ix_sorts ix !! name = Some sf -> sbit ix name i x <-> layer_has sf i x.
Proof. unfold sbit. intros ->. naive_solver. Qed.

Lemma clear_opt_has f id val :
  bitmaps_wf (FilterField.bitmaps f) ->
  let f' := from_option (MutationEngine.clear_filter_bits f id) f val in
  bitmaps_wf (FilterField.bitmaps f')
  /\ forall v x, has f' v x <-> has f v x /\ ~ (x = id /\ v ∈ keys_of val).
Proof.
  intros Hw. destruct val as [val|]; [by apply clear_filter_bits_has|]. cbn. split; [done|].
  intros. rewrite elem_of_nil. tauto.
Qed.

Lemma set_opt_has f id val :
  bitmaps_wf (FilterField.bitmaps f) ->
  let f' := from_option (MutationEngine.set_filter_bits f id) f val in
  bitmaps_wf (FilterField.bitmaps f')
  /\ forall v x, has f' v x <-> has f v x \/ (x = id /\ v ∈ keys_of val).
Proof.
  intros Hw. destruct val as [val|]; [by apply set_filter_bits_has|]. cbn. split; [done|].
  intros. rewrite elem_of_nil. tauto.
Qed.

(** The old document's bits for the slot of [id]. *)
Lemma doc_bits_at docs id fields name v :
  docs !! id = Some fields -> doc_bits docs name v id <-> v ∈ keys_of (fields !! name).
Proof. unfold doc_bits. intros ->. naive_solver. Qed.

Lemma doc_sort_bits_at docs id fields name i :
  docs !! id = Some fields ->
  doc_sort_bits docs name i id <-> bit_set (default 0%N (single_sort (fields !! name))) i = true.
Proof. unfold doc_sort_bits. intros ->. naive_solver. Qed.

(** An upsert of a live document. *)
Lemma update_filter_step docs id old new ix fc :
  docs !! id = Some old -> state_wf ix -> is_Some (ix_filters ix !! ff_name fc) ->
  (forall v x, fhas ix (ff_name fc) v x <-> doc_bits docs (ff_name fc) v x) ->
  filter_step ix (MutationEngine.update_filter ix id old new fc) (ff_name fc)
    (doc_bits (<[id := new]> docs) (ff_name fc)).
Proof.
  intros Hold Hw Hin Hsrc. unfold MutationEngine.update_filter. cbv zeta.
  destruct (field_values_equal _ _) eqn:E.
  - apply filter_step_id; [done|]. intros v x. apply field_values_equal_keys in E as [E _].
    rewrite Hsrc, doc_bits_insert. destruct (decide (x = id)) as [->|]; [|naive_solver].
    rewrite (doc_bits_at docs id old) by done. rewrite E. naive_solver.
  - apply filter_step_with; [done|done|]. intros ff Hff Hwf.
    destruct (clear_opt_has ff id (old !! ff_name fc) Hwf) as [C1 C2].
    destruct (set_opt_has _ id (new !! ff_name fc) C1) as [S1 S2].
    split; [exact S1|]. intros v x. rewrite (S2 v x), (C2 v x), <- (fhas_here ix (ff_name fc)), Hsrc, doc_bits_insert by done.
    destruct (decide (x = id)) as [->|]; [|naive_solver]. rewrite (doc_bits_at docs id old) by done. naive_solver.
Qed.

Lemma update_sort_step docs id old new ix sc n :
  docs !! id = Some old -> state_wf ix -> (n <= 32)%nat -> layers_of ix (sf_name sc) = Some n ->
  (forall i x, (i < n)%nat -> sbit ix (sf_name sc) i x <-> doc_sort_bits docs (sf_name sc) i x) ->
  sort_step ix (MutationEngine.update_sort ix id old new sc) (sf_name sc) n
    (doc_sort_bits (<[id := new]> docs) (sf_name sc)).
Proof.
  intros Hold Hw Hn Hl Hsrc. unfold MutationEngine.update_sort. cbv zeta.
  destruct (field_values_equal _ _) eqn:E.
  - apply sort_step_id; [done|]. intros i x Hi. apply field_values_equal_keys in E as [_ E].
    rewrite Hsrc, doc_sort_bits_insert by done. destruct (decide (x = id)) as [->|]; [|naive_solver].
    rewrite (doc_sort_bits_at docs id old) by done. rewrite E. naive_solver.
  - apply sort_step_with; [done|done|..].
    { intros sf. by destruct (single_sort (old !! _)), (single_sort (new !! _)). }
    intros sf Hsf Hwf Hb.
    assert (forall i x, (i < n)%nat -> layer_has sf i x <-> doc_sort_bits docs (sf_name sc) i x) as Hlay.
    { intros. rewrite <- (sbit_here ix (sf_name sc)) by done. auto. }
    destruct (single_sort (old !! sf_name sc)) as [o|] eqn:Eo, (single_sort (new !! sf_name sc)) as [w|] eqn:En.
    + split; [exact (wf_step sf (OpUpdate id o w) Hwf)|]. intros i x Hi.
      rewrite layer_has_update, doc_sort_bits_insert, En by (done || lia). cbn.
      specialize (Hlay i x Hi). destruct (decide (x = id)) as [->|]; [|rewrite decide_False by tauto; naive_solver].
      rewrite (doc_sort_bits_at docs id old), Eo in Hlay by done. cbn in Hlay.
      case_decide as Hd; [naive_solver|]. destruct (bit_set o i), (bit_set w i); naive_solver.
    + split; [exact (wf_step sf (OpRemove id) Hwf)|]. intros i x Hi.
      rewrite layer_has_remove, doc_sort_bits_insert, En, Hlay by done. cbn. rewrite bit_set_0. naive_solver.
    + split; [exact (wf_step sf (OpInsert id w) Hwf)|]. intros i x Hi.
      rewrite layer_has_insert, doc_sort_bits_insert, En, Hlay by (done || lia). cbn.
      destruct (decide (x = id)) as [->|]; [|naive_solver].
      rewrite (doc_sort_bits_at docs id old), Eo by done. cbn. rewrite bit_set_0. naive_solver.
    + split; [done|]. intros i x Hi. rewrite doc_sort_bits_insert, En, Hlay by done. cbn. rewrite bit_set_0.
      destruct (decide (x = id)) as [->|]; [|naive_solver].
      rewrite (doc_sort_bits_at docs id old), Eo by done. cbn. rewrite bit_set_0. naive_solver.
Qed.

Lemma diff_and_update_ok ix docs id old gen (doc : Document) :
  bits_ok ix docs -> docs !! id = Some old ->
  let ix' := MutationEngine.diff_and_update cfg ix id (Some (MkStoredDoc old gen)) doc in
  bits_ok ix' (<[id := doc_fields doc]> docs) /\ ix_slots ix' = ix_slots ix.
Proof.
  intros Hb Hold. apply bits_ok_change with docs; [done|..].
  - intros. by apply update_filter_step.
  - intros. by apply update_sort_step.
Qed.

(** Clearing a document that is the live one, or a leftover of a dead slot. *)
Lemma clear_old_bitmaps_ok ix docs id old gen :
  bits_ok ix docs -> docs !! id = Some old \/ docs !! id = None ->
  let ix' := MutationEngine.clear_old_bitmaps cfg ix id (MkStoredDoc old gen) in
  bits_ok ix' (delete id docs) /\ ix_slots ix' = ix_slots ix.
Proof.
  intros Hb Hold. apply bits_ok_change with docs; [done|..].
  - intros ix1 fc Hw Hin Hsrc. cbn [sd_fields].
    assert (forall v x, doc_bits (delete id docs) (ff_name fc) v x <->
      doc_bits docs (ff_name fc) v x /\ ~ (x = id /\ v ∈ keys_of (old !! ff_name fc))) as Ht.
    { intros v x. rewrite doc_bits_delete. destruct (decide (x = id)) as [->|]; [|naive_solver].
      destruct Hold as [Hold|Hold]; [rewrite (doc_bits_at docs id old) by done; naive_solver|].
      unfold doc_bits. rewrite Hold. naive_solver. }
    destruct (old !! ff_name fc) as [val|] eqn:E; cbn [from_option].
    + apply filter_step_with; [done|done|]. intros ff Hff Hwf.
      destruct (clear_filter_bits_has ff id val Hwf) as [C1 C2]. split; [done|]. intros v x.
      rewrite C2, Ht, <- (fhas_here ix1 (ff_name fc)), Hsrc by done. done.
    + apply filter_step_id; [done|]. intros v x. rewrite Ht, Hsrc. cbn. rewrite elem_of_nil. naive_solver.
  - intros ix1 sc n Hw Hn Hl Hsrc. cbn [sd_fields].
    destruct (single_sort (old !! sf_name sc)) as [o|] eqn:E.
    + apply sort_step_with; [done|done|done|]. intros sf Hsf Hwf Hbits.
      split; [exact (wf_step sf (OpRemove id) Hwf)|]. intros i x Hi.
      rewrite layer_has_remove, doc_sort_bits_delete, <- (sbit_here ix1 (sf_name sc)), Hsrc by done. done.
    + apply sort_step_id; [done|]. intros i x Hi. rewrite Hsrc, doc_sort_bits_delete by done.
      destruct (decide (x = id)) as [->|]; [|naive_solver].
      destruct Hold as [Hold|Hold];
        [rewrite (doc_sort_bits_at docs id old), E by done; cbn; rewrite bit_set_0; naive_solver|].
      unfold doc_sort_bits. rewrite Hold. naive_solver.
Qed.

Lemma set_all_bitmaps_ok ix docs id (doc : Document) :
  bits_ok ix docs -> docs !! id = None ->
  let ix' := MutationEngine.set_all_bitmaps cfg ix id doc in
  bits_ok ix' (<[id := doc_fields doc]> docs) /\ ix_slots ix' = ix_slots ix.
Proof.
  intros Hb Hid. apply bits_ok_change with docs; [done|..].
  - intros ix1 fc Hw Hin Hsrc.
    assert (forall v x, doc_bits (<[id := doc_fields doc]> docs) (ff_name fc) v x <->
      doc_bits docs (ff_name fc) v x \/ (x = id /\ v ∈ keys_of (doc_fields doc !! ff_name fc))) as Ht.
    { intros v x. rewrite doc_bits_insert. destruct (decide (x = id)) as [->|]; [|naive_solver].
      unfold doc_bits. rewrite Hid. naive_solver. }
    destruct (doc_fields doc !! ff_name fc) as [val|] eqn:E; cbn [from_option].
    + apply filter_step_with; [done|done|]. intros ff Hff Hwf.
      destruct (set_filter_bits_has ff id val Hwf) as [C1 C2]. split; [done|]. intros v x.
      rewrite C2, Ht, <- (fhas_here ix1 (ff_name fc)), Hsrc by done. done.
    + apply filter_step_id; [done|]. intros v x. rewrite Ht, Hsrc. cbn. rewrite elem_of_nil. naive_solver.
  - intros ix1 sc n Hw Hn Hl Hsrc.
    assert (forall i, ~ doc_sort_bits docs (sf_name sc) i id) as Hnone.
    { intros i. unfold doc_sort_bits. rewrite Hid. naive_solver. }
    destruct (single_sort (doc_fields doc !! sf_name sc)) as [w|] eqn:E.
    + apply sort_step_with; [done|done|done|]. intros sf Hsf Hwf Hbits.
      split; [exact (wf_step sf (OpInsert id w) Hwf)|]. intros i x Hi.
      rewrite layer_has_insert, doc_sort_bits_insert, <- (sbit_here ix1 (sf_name sc)), Hsrc, E by (done || lia). cbn.
      destruct (decide (x = id)) as [->|]; naive_solver.
    + apply sort_step_id; [done|]. intros i x Hi. rewrite Hsrc, doc_sort_bits_insert, E by done. cbn.
      rewrite bit_set_0. destruct (decide (x = id)) as [->|]; naive_solver.
Qed.

End bits.

(** ** The mutation engine *)

Local Open Scope bitdex_scope.

Section mutation_steps.
Context {B D : Type} `{HB : Roaring B} `{HD : DocStore D}.
Context (cfg : Configuration) (Hcfg : config_ok cfg).
Implicit Types (ix : IndexState B) (docs : Docs) (id x : N).

Notation state := (@MutationEngine.state B D).
Implicit Types (st : state).

(** The index, the live slots and the store agree with the documents. *)
Record mut_ok st docs : Prop := {
  mo_bits : bits_ok cfg (MutationEngine.index st) docs;
  mo_live : forall x, live (MutationEngine.index st) x <-> is_Some (docs !! x);
  mo_store : forall x fields, docs !! x = Some fields ->
    ds_get (MutationEngine.docstore st) x = Ok (Some (MkStoredDoc fields (ds_version (MutationEngine.docstore st))));
  mo_sound : ds_sound (MutationEngine.docstore st);
  mo_loaded : VersionedBitmap.is_loaded (SlotAllocator.alive (ix_slots (MutationEngine.index st))) = true;
  mo_range : forall x, is_Some (docs !! x) -> (x < u32_max)%N;
}.

Lemma is_alive_docs st docs id :
  mut_ok st docs ->
  SlotAllocator.is_alive (ix_slots (MutationEngine.index st)) id = bool_decide (is_Some (docs !! id)).
Proof.
  intros Hok. apply eq_true_iff_eq. unfold SlotAllocator.is_alive.
  rewrite contains_true, bool_decide_eq_true. apply (mo_live _ _ Hok).
Qed.

(** Changing the alive bitmap only. *)
Lemma mut_ok_slots ix d docs' sl :
  bits_ok cfg ix docs' ->
  VersionedBitmap.wf (SlotAllocator.alive sl) -> VersionedBitmap.is_loaded (SlotAllocator.alive sl) = true ->
  (forall x, x ∈ SlotAllocator.alive sl <-> is_Some (docs' !! x)) ->
  (forall x fields, docs' !! x = Some fields -> ds_get d x = Ok (Some (MkStoredDoc fields (ds_version d)))) ->
  ds_sound d ->
  (forall x, is_Some (docs' !! x) -> (x < u32_max)%N) ->
  mut_ok (MutationEngine.mk (with_slots ix (fun _ => sl)) d) docs'.
Proof.
  intros Hb Hw Hl Hx Hd Hs Hr. split; try done. cbn [MutationEngine.index].
  apply (bits_ok_same _ ix); [done| |by split|done|done].
  apply wf_with_slots; [apply Hb|done].
Qed.

(** Merges change no contents. *)
Lemma bits_ok_merge_sorts ix docs : bits_ok cfg ix docs -> bits_ok cfg (MutationEngine.merge_sorts ix) docs.
Proof.
  intros H1. pose proof (bo_wf _ _ _ H1) as [W1 W2 W3]. apply (bits_ok_same _ ix); [done|..].
  - split; [done| |done]. intros field sf. cbn [MutationEngine.merge_sorts ix_sorts]. rewrite lookup_fmap.
    intros (sf' & Hsf & ->)%fmap_Some. exact (wf_step sf' OpMergeDirty (W2 _ _ Hsf)).
  - split; [done|]. intros field. unfold layers_of. cbn [MutationEngine.merge_sorts ix_sorts].
    by rewrite lookup_fmap, <- option_fmap_compose.
  - done.
  - intros field i x. unfold sbit. cbn [MutationEngine.merge_sorts ix_sorts]. rewrite lookup_fmap.
    destruct (ix_sorts ix !! field) as [sf|] eqn:E; cbn; [|naive_solver].
    pose proof (layer_has_merge_dirty sf i x (W2 _ _ E)). naive_solver.
Qed.

Lemma mut_ok_merge_sorts ix d docs :
  mut_ok (MutationEngine.mk ix d) docs -> mut_ok (MutationEngine.mk (MutationEngine.merge_sorts ix) d) docs.
Proof. intros [H1 H2 H3 HS H4 H5]. split; try done. by apply bits_ok_merge_sorts. Qed.

Lemma mut_ok_merge_alive ix d docs :
  mut_ok (MutationEngine.mk ix d) docs -> mut_ok (MutationEngine.mk (MutationEngine.merge_alive ix) d) docs.
Proof.
  intros [H1 H2 H3 HS H4 H5]. cbn [MutationEngine.index MutationEngine.docstore] in *.
  pose proof (swf_alive _ (bo_wf _ _ _ H1)) as Hw.
  apply (mut_ok_slots ix d); try done.
  - by apply wf_merge.
  - cbn. by rewrite is_loaded_merge.
  - intros x. cbn. rewrite elem_of_merge by done. apply H2.
Qed.

Lemma mut_ok_merge_all ix d docs :
  mut_ok (MutationEngine.mk ix d) docs -> mut_ok (MutationEngine.mk (Engine.merge_all ix) d) docs.
Proof.
  intros [H1 H2 H3 HS H4 H5]. cbn [MutationEngine.index MutationEngine.docstore] in *.
  destruct (merge_all_contents ix (bo_wf _ _ _ H1)) as (W & F & Hf & Hs & Hl). split; try done.
  - by apply (bits_ok_same _ ix).
  - intros x. rewrite <- H2. apply Hl.
  - cbn. by rewrite is_loaded_merge.
Qed.

(** The bitmaps after the two branches of [put]. *)
Lemma put_bitmaps st docs id (doc : Document) :
  mut_ok st docs -> id <= u32_max ->
  exists ix', (if SlotAllocator.is_alive (ix_slots (MutationEngine.index st)) id then
      let? old_doc := ds_get (MutationEngine.docstore st) id in
      Ok (MutationEngine.diff_and_update cfg (MutationEngine.index st) id old_doc doc)
    else
      let? ix :=
        if SlotAllocator.was_ever_allocated (ix_slots (MutationEngine.index st)) id then
          let? old_doc := ds_get (MutationEngine.docstore st) id in
          Ok (from_option (MutationEngine.clear_old_bitmaps cfg (MutationEngine.index st) id)
                (MutationEngine.index st) old_doc)
        else Ok (MutationEngine.index st) in
      Ok (MutationEngine.set_all_bitmaps cfg ix id doc)) = Ok ix'
  /\ bits_ok cfg ix' (<[id := doc_fields doc]> docs)
  /\ ix_slots ix' = ix_slots (MutationEngine.index st).
Proof.
  intros Hok Hid. rewrite (is_alive_docs st docs) by done. case_bool_decide as Hl.
  - destruct Hl as [old Hold]. rewrite (mo_store _ _ Hok _ _ Hold). cbn. eexists. split; [done|].
    apply diff_and_update_ok; [done|apply Hok|done].
  - assert (docs !! id = None) as Hnone by by apply eq_None_not_Some.
    assert (exists ix, (if SlotAllocator.was_ever_allocated (ix_slots (MutationEngine.index st)) id then
          let? old_doc := ds_get (MutationEngine.docstore st) id in
          Ok (from_option (MutationEngine.clear_old_bitmaps cfg (MutationEngine.index st) id)
                (MutationEngine.index st) old_doc)
        else Ok (MutationEngine.index st)) = Ok ix
      /\ bits_ok cfg ix docs /\ ix_slots ix = ix_slots (MutationEngine.index st)) as (ix & -> & Hb & Hs).
    { destruct (SlotAllocator.was_ever_allocated _ _); [|eexists; split_and!; [done|apply Hok|done]].
      destruct (ds_get_ok (MutationEngine.docstore st) id (mo_sound _ _ Hok) Hid) as [[[old gen]|] ->]; cbn;
        [|eexists; split_and!; [done|apply Hok|done]].
      eexists. split; [done|]. rewrite <- (delete_id docs id Hnone) at 1.
      apply clear_old_bitmaps_ok; [done|apply Hok|by right]. }
    cbn. eexists. split; [done|]. rewrite <- Hs. by apply set_all_bitmaps_ok.
Qed.

Lemma mut_put st docs id (doc : Document) :
  mut_ok st docs -> (id < u32_max)%N -> ds_fits (MutationEngine.docstore st) (doc_fields doc) ->
  exists st', MutationEngine.put cfg st id doc = (Ok tt, st') /\ mut_ok st' (<[id := doc_fields doc]> docs).
Proof.
  intros Hok Hid Hfit. assert (id <= u32_max) as Hid' by lia. unfold MutationEngine.put. destruct (put_bitmaps st docs id doc Hok Hid') as (ix & -> & Hb & Hs).
  unfold SlotAllocator.allocate. rewrite Hs.
  destruct (ds_put_get (MutationEngine.docstore st) id (doc_fields doc) (mo_sound _ _ Hok) Hid' Hfit) as (d & -> & Hsound & Hver & Hd).
  eexists. split; [done|]. apply mut_ok_merge_alive, mut_ok_merge_sorts.
  pose proof (swf_alive _ (bo_wf _ _ _ (mo_bits _ _ Hok))) as Hw.
  apply (mut_ok_slots ix d); [done|..]; cbn [SlotAllocator.alive].
  - by apply wf_insert.
  - apply (mo_loaded _ _ Hok).
  - intros x. rewrite elem_of_vb_insert, lookup_insert. pose proof (mo_live _ _ Hok x) as Hl. unfold live in Hl.
    case_decide as Hx; [subst; split; [by eexists|by left]|]. rewrite Hl. naive_solver.
  - intros x fields. rewrite lookup_insert, Hver. case_decide as Hx.
    + subst. intros [= <-]. by rewrite Hd, decide_True by done.
    + intros Hf. rewrite Hd, decide_False by (done || (apply N.lt_le_incl, (mo_range _ _ Hok); by eexists)). by apply (mo_store _ _ Hok).
  - done.
  - intros x. rewrite lookup_insert. case_decide; [by subst|apply (mo_range _ _ Hok)].
Qed.

(** Clearing the bits of a slot and then its liveness. *)
Lemma kill_slot st ix docs id :
  mut_ok st docs -> bits_ok cfg ix (delete id docs) -> ix_slots ix = ix_slots (MutationEngine.index st) ->
  mut_ok (MutationEngine.mk (with_slots ix (fun _ => (SlotAllocator.delete (ix_slots ix) id).2))
            (MutationEngine.docstore st)) (delete id docs).
Proof.
  intros [H1 H2 H3 HS H4 H5] Hb Hs. pose proof (swf_alive _ (bo_wf _ _ _ H1)) as Hw. rewrite Hs.
  unfold live in H2. unfold SlotAllocator.delete. set (d := MutationEngine.docstore st) in *.
  assert (forall x fields, delete id docs !! x = Some fields -> docs !! x = Some fields /\ x <> id) as Hd.
  { intros x fields. rewrite lookup_delete. case_decide; naive_solver. }
  assert (forall x, is_Some (delete id docs !! x) <-> x <> id /\ is_Some (docs !! x)) as Hd'.
  { intros x. rewrite lookup_delete. unfold is_Some. case_decide; naive_solver. }
  destruct (VersionedBitmap.contains _ id) eqn:E; cbn [negb snd];
    (apply (mut_ok_slots ix d); [done|..]; cbn [SlotAllocator.alive]);
    try (intros x fields [Hx _]%Hd; by apply H3); try (intros x [_ Hx]%Hd'; by apply H5); try done.
  - by apply wf_remove.
  - intros x. by rewrite elem_of_vb_remove, Hd', H2 by done.
  - intros x. rewrite Hd', H2. split; [|naive_solver]. intros Hx. split; [|done]. intros ->.
    apply contains_false in E. apply E. by apply H2.
Qed.

(** The bits of a slot whose stored document, if any, was cleared. *)
Lemma clear_stored st docs id :
  mut_ok st docs -> id <= u32_max ->
  exists o, ds_get (MutationEngine.docstore st) id = Ok o
    /\ let ix' := from_option (MutationEngine.clear_old_bitmaps cfg (MutationEngine.index st) id)
                    (MutationEngine.index st) o in
       bits_ok cfg ix' (delete id docs) /\ ix_slots ix' = ix_slots (MutationEngine.index st).
Proof.
  intros Hok Hid. destruct (docs !! id) as [fields|] eqn:E.
  - rewrite (mo_store _ _ Hok _ _ E). eexists. split; [done|].
    apply clear_old_bitmaps_ok; [done|apply Hok|by left].
  - destruct (ds_get_ok (MutationEngine.docstore st) id (mo_sound _ _ Hok) Hid) as [[[old gen]|] ->]; eexists; (split; [done|]); cbn.
    + apply clear_old_bitmaps_ok; [done|apply Hok|by right].
    + rewrite delete_id by done. split; [apply Hok|done].
Qed.

Lemma delete_result sl id :
  (SlotAllocator.delete sl id).1
  = if SlotAllocator.is_alive (B := B) sl id then Ok tt else Err (SlotNotFound id).
Proof. unfold SlotAllocator.delete, SlotAllocator.is_alive. by destruct (VersionedBitmap.contains _ id). Qed.

(** A delete succeeds for live documents only; either way the document is gone. *)
Lemma mut_delete st docs id :
  mut_ok st docs -> id <= u32_max ->
  exists st', MutationEngine.delete cfg st id
      = (if bool_decide (is_Some (docs !! id)) then Ok tt else Err (SlotNotFound id), st')
    /\ mut_ok st' (delete id docs).
Proof.
  intros Hok Hid. unfold MutationEngine.delete. destruct (clear_stored st docs id Hok Hid) as (o & -> & Hb & Hs).
  set (ix := from_option (fun doc => MutationEngine.merge_sorts _) _ o).
  assert (bits_ok cfg ix (delete id docs) /\ ix_slots ix = ix_slots (MutationEngine.index st)) as [Hb' Hs'].
  { destruct o as [doc|]; [|done]. cbn in *. split; [|done].
    by apply bits_ok_merge_sorts. }
  pose proof (kill_slot st ix docs id Hok Hb' Hs') as Hk.
  pose proof (delete_result (ix_slots ix) id) as Hr. rewrite Hs', (is_alive_docs st docs id Hok) in Hr.
  rewrite Hs' in *. destruct (SlotAllocator.delete (ix_slots (MutationEngine.index st)) id) as [res sl]. cbn in *. subst res.
  case_bool_decide; eexists; (split; [done|]); [by apply mut_ok_merge_alive|done].
Qed.

(** One round of [delete_where]. *)
Lemma mut_delete_slot st docs id :
  mut_ok st docs ->
  exists st', MutationEngine.delete_slot cfg st id = (Ok (bool_decide (is_Some (docs !! id))), st')
    /\ mut_ok st' (delete id docs).
Proof.
  intros Hok. unfold MutationEngine.delete_slot. rewrite (is_alive_docs st docs id Hok). case_bool_decide as Hl.
  - destruct (clear_stored st docs id Hok) as (o & -> & Hb & Hs); [by apply N.lt_le_incl, (mo_range _ _ Hok)|].
    set (ix := from_option (MutationEngine.clear_old_bitmaps cfg (MutationEngine.index st) id)
                 (MutationEngine.index st) o) in *.
    replace (match o with Some doc => _ | None => _ end) with ix by by destruct o.
    pose proof (kill_slot st ix docs id Hok Hb Hs) as Hk.
    pose proof (delete_result (ix_slots ix) id) as Hr. rewrite Hs, (is_alive_docs st docs id Hok) in Hr.
    rewrite bool_decide_true in Hr by done. rewrite Hs in *.
    destruct (SlotAllocator.delete (ix_slots (MutationEngine.index st)) id) as [res sl]. cbn in *. subst res. eauto.
  - eexists. split; [done|]. rewrite delete_id; [done|]. by apply eq_None_not_Some.
Qed.

(** The documents left after deleting a list of slots, and how many there were. *)
Definition remaining docs (slots : list N) : Docs := foldl (fun docs slot => delete slot docs) docs slots.

Lemma lookup_remaining docs slots x :
  remaining docs slots !! x = if decide (x ∈ slots) then None else docs !! x.
Proof.
  revert docs. induction slots as [|s slots IH]; intros docs; cbn [remaining foldl]; [done|].
  fold (remaining (delete s docs) slots). rewrite IH, lookup_delete.
  repeat case_decide; try done; rewrite elem_of_cons in *; naive_solver.
Qed.

Lemma mut_delete_loop slots : forall st docs count,
  mut_ok st docs -> NoDup slots -> count < 2 ^ 64 ->
  exists st', MutationEngine.delete_loop cfg st slots count
      = (Ok (wrap64 (count + N.of_nat (length (filter (fun x => is_Some (docs !! x)) slots)))), st')
    /\ mut_ok st' (remaining docs slots).
Proof.
  induction slots as [|s slots IH]; intros st docs count Hok Hnd Hc; cbn [MutationEngine.delete_loop].
  { exists st. split; [|done]. cbn. unfold wrap64. by rewrite N.add_0_r, N.mod_small. }
  apply NoDup_cons in Hnd as [Hs Hnd]. destruct (mut_delete_slot st docs s Hok) as (st1 & -> & Hok1).
  assert (length (filter (fun x => is_Some (delete s docs !! x)) slots)
    = length (filter (fun x => is_Some (docs !! x)) slots)) as Hlen.
  { f_equal. apply list_filter_iff_strong. intros x Hx. rewrite lookup_delete_ne; [done|]. by intros ->. }
  destruct (IH st1 (delete s docs) (if bool_decide (is_Some (docs !! s)) then wrap64 (count + 1) else count))
    as (st' & -> & Hok'); [done|done| |].
  { case_bool_decide; [|done]. apply N.mod_lt. done. }
  exists st'. split; [|done]. rewrite Hlen, filter_cons. do 2 f_equal. case_bool_decide as Hd.
  - rewrite decide_True by done. cbn [length]. unfold wrap64. rewrite N.Div0.add_mod_idemp_l. f_equal. lia.
  - by rewrite decide_False.
Qed.

End mutation_steps.
