(* ===== verification/EngineTheorems.v ===== *)
(** * The engine: properties

    Puts, deletes and delete-wheres act on a map of documents; a query on the
    engine returns the page of exactly the documents that match it. *)

From S2P Require Import Prelude Roaring Versioned Slot Config Sort SortFacts SortTheorems.
From S2P Require Import Filter FilterFacts Float64 Bytes BucketDiffLog TimeBuckets Query Dictionary Planner.
From S2P Require Import Executor ExecutorFacts ExecutorTheorems Coalescer IndexFacts Mutation MutationFacts.
From S2P Require Import CoalescerTheorems MutationTheorems Engine EngineFacts EngineInvariant.
Local Open Scope bitdex_scope.

(** ** What a clause means for a document *)

Definition doc_holds (fields : Fields) (field : string) (value : Value) : bool :=
  match value_to_bitmap_key value with
  | Some key => bool_decide (key ∈ keys_of (fields !! field))
  | None => false
  end.

Definition doc_null (fields : Fields) (field : string) : bool :=
  bool_decide (NULL_BITMAP_KEY ∈ keys_of (fields !! field)).

(** The pseudo-field "id" addresses the document by its slot. *)
Definition doc_eq (x : N) (fields : Fields) (field : string) (value : Value) : bool :=
  if bool_decide (field = "id"%string)
  then match value with Integer v => x =? i64_as_u32 v | _ => false end
  else doc_holds fields field value.

Definition doc_range (fields : Fields) (field : string) (value : Value) (predicate : N -> N -> bool) : bool :=
  match value_to_bitmap_key value with
  | Some target => existsb (fun key => negb (key =? NULL_BITMAP_KEY) && predicate key target) (keys_of (fields !! field))
  | None => false
  end.

Fixpoint doc_matches {B : Type} `{!RoaringOps B} (x : N) (fields : Fields) (c : FilterClause B) : bool :=
  match c with
  | Eq field value => doc_eq x fields field value
  | NotEq field value => negb (doc_eq x fields field value) && negb (doc_null fields field)
  | In field values => existsb (doc_eq x fields field) values
  | NotIn field values => negb (existsb (doc_eq x fields field) values) && negb (doc_null fields field)
  | Gt field value => doc_range fields field value (fun k t => t <? k)
  | Gte field value => doc_range fields field value (fun k t => t <=? k)
  | Lt field value => doc_range fields field value (fun k t => k <? t)
  | Lte field value => doc_range fields field value (fun k t => k <=? t)
  | Not inner => negb (doc_matches x fields inner)
  | And clauses => negb (bool_decide (length clauses = 0%nat)) && forallb (doc_matches x fields) clauses
  | Or clauses => existsb (doc_matches x fields) clauses
  | IsNull field => doc_null fields field
  | IsNotNull field => negb (doc_null fields field)
  | BucketBitmap _ _ bitmap => rb_contains bitmap x
  end.

(** The documents a list of clauses selects. *)
Definition doc_selected {B : Type} `{!RoaringOps B} (filters : list (FilterClause B)) (x : N) (fields : Fields) : bool :=
  forallb (doc_matches x fields) filters.

(** A document's value in a sort field of the given width. *)
Definition doc_sort_value (docs : Docs) (field : string) (bits : nat) (x : N) : N :=
  default 0 (docs !! x ≫= fun fields => single_sort (fields !! field)) mod 2 ^ N.of_nat bits.

(** The configured sort field of a name. *)
Definition find_sort_config (cfg : Configuration) (field : string) : option SortFieldConfig :=
  List.find (fun sc => bool_decide (sf_name sc = field)) (sort_fields cfg).

(** A sort a query may ask for: a configured field, and a cursor value of its width. *)
Definition askable_sort (cfg : Configuration) (sort : option SortClause) (cursor : option CursorPosition) : bool :=
  match sort with
  | None => true
  | Some s =>
      match find_sort_config cfg (sc_field s), cursor with
      | None, _ => false
      | Some _, None => true
      | Some sc, Some c => cp_sort_value c <? 2 ^ sf_bits sc
      end
  end.

(** The page of a query over the documents: sorted by their values, or newest slot
    first, after the cursor. *)
Definition doc_page (cfg : Configuration) (docs : Docs) (sort : option SortClause) (matched : list N) (limit : N)
    (cursor : option CursorPosition) : list N :=
  match sort with
  | Some s =>
      match find_sort_config cfg (sc_field s) with
      | Some sc => SortField.top_n_spec (doc_sort_value docs (sc_field s) (N.to_nat (sf_bits sc))) matched limit
                     (bool_decide (sc_direction s = Desc)) (cursor_pair <$> cursor)
      | None => []
      end
  | None =>
      take (N.to_nat limit) (match cursor with
        | Some c => filter (fun x => x < cp_slot_id c) (rev matched)
        | None => rev matched
        end)
  end.

(** Clauses without pre-computed bitmaps or empty conjunctions. *)
Fixpoint plain_clause {B : Type} (c : FilterClause B) : bool :=
  match c with
  | BucketBitmap _ _ _ => false
  | Not inner => plain_clause inner
  | And clauses => negb (bool_decide (length clauses = 0%nat)) && forallb plain_clause clauses
  | Or clauses => forallb plain_clause clauses
  | _ => true
  end.

Lemma null_not_key val : NULL_BITMAP_KEY ∉ keys_of val.
Proof.
  destruct val as [val|]; cbn; [|by intros ?%elem_of_nil]. intros (v & _ & Hk)%list_elem_of_omap.
  destruct v; cbn in Hk; try done.
  - destruct (i64_as_u64 v =? NULL_BITMAP_KEY) eqn:E; [done|]. injection Hk as Hk. rewrite Hk in E.
    by apply N.eqb_neq in E.
  - by destruct b.
Qed.

Lemma plain_no_empty_and {B : Type} (c : FilterClause B) : plain_clause c = true -> no_empty_and c = true.
Proof.
  assert (forall cs : list (FilterClause B), Forall (fun c => plain_clause c = true -> no_empty_and c = true) cs ->
    forallb plain_clause cs = true -> forallb no_empty_and cs = true) as Hl.
  { induction 1 as [|c1 cs Hc Hcs IH]; cbn; [done|]. rewrite !andb_true_iff. naive_solver. }
  induction c as [f v|f v|f vs|f vs|f v|f v|f v|f v|c IH|cs IH|cs IH|f|f|f n b]
    using FilterClause_nested_ind; try done; cbn [plain_clause no_empty_and]; [|by apply Hl].
  rewrite !andb_true_iff. intros [H1 H2]. auto.
Qed.

(** Lists whose members agree on two predicates. *)
Lemma Forall_iff_list {A : Type} (P Q : A -> Prop) (l : list A) :
  Forall (fun a => P a <-> Q a) l -> Forall P l <-> Forall Q l.
Proof. induction 1; rewrite ?Forall_nil, ?Forall_cons; tauto. Qed.

Lemma Exists_iff_list {A : Type} (P Q : A -> Prop) (l : list A) :
  Forall (fun a => P a <-> Q a) l -> Exists P l <-> Exists Q l.
Proof. induction 1; rewrite ?Exists_nil, ?Exists_cons; tauto. Qed.

Lemma forallb_Forall {A : Type} (p : A -> bool) (l : list A) : forallb p l = true <-> Forall (fun a => p a = true) l.
Proof. induction l; cbn; rewrite ?Forall_nil, ?Forall_cons, ?andb_true_iff; tauto. Qed.

Lemma existsb_Exists {A : Type} (p : A -> bool) (l : list A) : existsb p l = true <-> Exists (fun a => p a = true) l.
Proof. induction l; cbn; rewrite ?Exists_nil, ?Exists_cons, ?orb_true_iff; [done|tauto]. Qed.

(** Fields registered one by one. *)
Lemma foldl_insert_lookup {A V : Type} (key : A -> string) (val : A -> V) (l : list A) (m : gmap string V) (k : string) (v : V) :
  NoDup (key <$> l) -> (forall a, a ∈ l -> m !! key a = None) ->
  foldl (fun m a => <[key a := val a]> m) m l !! k = Some v <->
  m !! k = Some v \/ exists a, a ∈ l /\ k = key a /\ v = val a.
Proof.
  revert m. induction l as [|a l IH]; intros m Hnd Hm; cbn [foldl].
  { setoid_rewrite elem_of_nil. naive_solver. }
  rewrite fmap_cons in Hnd. apply NoDup_cons in Hnd as [Hn Hnd].
  assert (forall b, b ∈ l -> key b <> key a) as Hne.
  { intros b Hb Heq. apply Hn. rewrite <- Heq. by apply (list_elem_of_fmap_2 key). }
  pose proof (Hm a ltac:(apply elem_of_cons; by left)) as Ha.
  rewrite IH; [|done|].
  - rewrite lookup_insert. setoid_rewrite elem_of_cons. case_decide as Hk; [subst k; rewrite Ha; naive_solver|].
    split; [naive_solver|]. intros [?|(b & [->|Hb] & -> & ->)]; [by left|done|]. right. eauto.
  - intros b Hb. rewrite lookup_insert_ne by (intros ?; by apply (Hne b)). apply Hm, elem_of_cons. by right.
Qed.

Section engine.
Context {B D : Type} `{HB : Roaring B} `{HD : DocStore D}.
Context (to_lowercase : string -> string).
Implicit Types (e : Engine.t (B := B) (D := D)) (docs : Docs) (x : N) (c : FilterClause B).

(** ** The invariant *)

Record engine_ok (cfg : Configuration) e docs : Prop := {
  eo_config : Engine.config e = cfg;
  eo_mut : mut_ok cfg (MutationEngine.mk (Engine.index e) (Engine.docstore e)) docs;
  eo_merged : VersionedBitmap.is_dirty (SlotAllocator.alive (ix_slots (Engine.index e))) = false;
  eo_idle : Engine.in_flight e = ∅;
}.

(** What a query may ask of the engine. *)
Definition askable e c : bool :=
  valid_clause (Engine.executor e (cfg_max_page_size (Engine.config e))) c && plain_clause c.

(** All engines the operations reach, with the documents they hold. *)
Inductive history (cfg : Configuration) : Engine.t (B := B) (D := D) -> Docs -> Prop :=
| history_new store : ds_sound store -> history cfg (Engine.new cfg store) ∅
| history_put e docs id doc :
    history cfg e docs -> id < u32_max -> ds_fits (Engine.docstore e) (doc_fields doc) ->
    history cfg (Engine.put e id doc).2 (<[id := doc_fields doc]> docs)
| history_delete e docs id :
    history cfg e docs -> id <= u32_max -> history cfg (Engine.delete e id).2 (delete id docs)
| history_delete_where e docs filters :
    history cfg e docs -> forallb (askable e) filters = true ->
    history cfg (Engine.delete_where to_lowercase e filters).2
      (filter (fun p => doc_selected filters p.1 p.2 = false) docs).

Section one_engine.
Context (cfg : Configuration) (Hcfg : config_ok cfg).
Context (e : Engine.t (B := B) (D := D)) (docs : Docs) (Hok : engine_ok cfg e docs).
Context (max_page : N).

Notation ex := (Engine.executor e max_page).

Lemma engine_filter field v x :
  is_Some (ix_filters (Engine.index e) !! field) ->
  fhas (Engine.index e) field v x <-> doc_bits docs field v x.
Proof.
  intros Hf. apply (bo_filters _ _ _ (mo_bits _ _ _ (eo_mut _ _ _ Hok))) in Hf.
  apply list_elem_of_fmap in Hf as (fc & -> & Hfc).
  by apply (bo_fhas _ _ _ (mo_bits _ _ _ (eo_mut _ _ _ Hok))).
Qed.

Lemma engine_has field ff v x :
  ex_filters ex !! field = Some ff -> has ff v x <-> doc_bits docs field v x.
Proof.
  intros Hff. rewrite <- engine_filter by by eexists. symmetry. by apply fhas_here.
Qed.

Lemma engine_alive x : x ∈ alive ex <-> is_Some (docs !! x).
Proof.
  rewrite <- (mo_live _ _ _ (eo_mut _ _ _ Hok)). cbn. unfold live, alive, SlotAllocator.alive_bitmap. cbn.
  symmetry. apply not_dirty_base, (eo_merged _ _ _ Hok).
Qed.

Lemma engine_index_ok : index_ok ex.
Proof.
  split.
  - intros field ff Hff. by eapply (swf_filters _ (bo_wf _ _ _ (mo_bits _ _ _ (eo_mut _ _ _ Hok)))).
  - apply eq_None_not_Some. intros Hs.
    apply (bo_filters _ _ _ (mo_bits _ _ _ (eo_mut _ _ _ Hok))) in Hs. by apply (cfg_no_id _ Hcfg).
  - intros field ff v x Hff Hx. apply engine_alive. apply (engine_has _ _ _ _ Hff) in Hx as (fields & -> & _).
    by eexists.
  - done.
Qed.

Section one_doc.
Context (x : N) (fields : Fields) (Hdoc : docs !! x = Some fields).

Lemma engine_doc_bits field v : doc_bits docs field v x <-> v ∈ keys_of (fields !! field).
Proof. by apply doc_bits_at. Qed.

Lemma engine_resolve field value : resolve_value_key to_lowercase ex field value = value_to_bitmap_key value.
Proof. unfold resolve_value_key. by destruct value. Qed.

Lemma engine_holds field value :
  known ex field = true -> holds_value to_lowercase ex field value x <-> doc_holds fields field value = true.
Proof.
  unfold known. rewrite bool_decide_eq_true. intros [ff Hff]. unfold holds_value, doc_holds. rewrite engine_resolve.
  destruct (value_to_bitmap_key value) as [key|]; [|naive_solver].
  rewrite bool_decide_eq_true, <- engine_doc_bits, <- (engine_has _ ff) by done. naive_solver.
Qed.

Lemma engine_null field : ~ is_null ex field x.
Proof.
  intros (ff & Hff & Hn). apply (engine_has _ _ _ _ Hff) in Hn. apply engine_doc_bits in Hn. by apply null_not_key in Hn.
Qed.

Lemma doc_null_false field : doc_null fields field = false.
Proof. apply bool_decide_eq_false, null_not_key. Qed.

Lemma engine_eq field value :
  bool_decide (field = "id"%string) || known ex field = true ->
  matches_eq to_lowercase ex field value x <-> doc_eq x fields field value = true.
Proof.
  unfold matches_eq, doc_eq. case_bool_decide as Hf; cbn [orb]; intros Hv.
  - rewrite engine_alive. split; [|destruct value; try done; intros ->%N.eqb_eq; eauto].
    intros (_ & v & -> & ->). apply N.eqb_refl.
  - by apply engine_holds.
Qed.

Lemma engine_valid_eq field value :
  valid_eq ex field value = true -> bool_decide (field = "id"%string) || known ex field = true.
Proof. unfold valid_eq. by case_bool_decide. Qed.

Lemma engine_in field values :
  bool_decide (field = "id"%string) || known ex field = true ->
  matches_in to_lowercase ex field values x <-> existsb (doc_eq x fields field) values = true.
Proof.
  intros Hv. unfold matches_in. rewrite existsb_exists. setoid_rewrite <- engine_eq; [|done].
  by setoid_rewrite list_elem_of_In.
Qed.

Lemma engine_range field value p :
  scannable ex field value = true ->
  matches_range ex field value p x <-> doc_range fields field value p = true.
Proof.
  unfold scannable, matches_range, doc_range. destruct (ex_filters ex !! field) as [ff|] eqn:Hff; [|done].
  intros [_ Hv%bool_decide_eq_true]%andb_true_iff. destruct Hv as [target Ht]. rewrite Ht, existsb_exists.
  setoid_rewrite <- list_elem_of_In. setoid_rewrite <- engine_doc_bits.
  setoid_rewrite andb_true_iff. setoid_rewrite negb_true_iff. setoid_rewrite N.eqb_neq. split.
  - intros (ff' & t & key & [= <-] & [= <-] & Hn & Hp & Hx). exists key. split; [|done].
    by apply (engine_has _ _ _ _ Hff).
  - intros (key & Hx & Hn & Hp). exists ff, target, key. split_and!; try done. by apply (engine_has _ _ _ _ Hff).
Qed.

Lemma forall_matches cs :
  Forall (fun c => valid_clause ex c && plain_clause c = true ->
    matches to_lowercase ex c x <-> doc_matches x fields c = true) cs ->
  forallb (valid_clause ex) cs = true -> forallb plain_clause cs = true ->
  Forall (fun c => matches to_lowercase ex c x <-> doc_matches x fields c = true) cs.
Proof.
  induction 1 as [|c cs Hc Hcs IH]; cbn; [by constructor|].
  intros [H1 H2]%andb_true_iff [H3 H4]%andb_true_iff. constructor; [by apply Hc, andb_true_iff|auto].
Qed.

(** The executor's meaning of a clause is the document's. *)
Lemma engine_matches c :
  valid_clause ex c && plain_clause c = true ->
  matches to_lowercase ex c x <-> doc_matches x fields c = true.
Proof.
  assert (x ∈ alive ex) as Ha by (apply engine_alive; by eexists).
  pose proof engine_null as Hn. pose proof doc_null_false as Hd.
  induction c as [f v|f v|f vs|f vs|f v|f v|f v|f v|c IH|cs IH|cs IH|f|f|f n b] using FilterClause_nested_ind;
    intros [Hv Hp]%andb_true_iff; cbn [valid_clause plain_clause] in Hv, Hp; cbn [doc_matches].
  - by apply engine_eq, (engine_valid_eq _ v).
  - cbn. rewrite Hd, andb_true_r, negb_true_iff, <- not_true_iff_false, <- engine_eq by by apply (engine_valid_eq _ v).
    naive_solver.
  - by apply engine_in.
  - cbn. rewrite Hd, andb_true_r, negb_true_iff, <- not_true_iff_false, <- engine_in by done. naive_solver.
  - by apply engine_range.
  - by apply engine_range.
  - by apply engine_range.
  - by apply engine_range.
  - cbn [matches]. rewrite IH by by apply andb_true_iff. rewrite negb_true_iff, <- not_true_iff_false. tauto.
  - apply andb_true_iff in Hp as [Hl Hp]. rewrite sem_And, Hl. cbn [andb].
    pose proof (forall_matches cs IH Hv Hp) as Hall. rewrite (Forall_iff_list _ _ cs Hall), forallb_Forall.
    split; [tauto|]. split; [|done]. intros ->. done.
  - rewrite sem_Or, (Exists_iff_list _ _ cs (forall_matches cs IH Hv Hp)). by rewrite existsb_Exists.
  - cbn [matches]. rewrite Hd. naive_solver.
  - cbn [matches]. rewrite Hd. naive_solver.
  - done.
Qed.

Lemma engine_matches_all filters :
  Forall (fun c => valid_clause ex c && plain_clause c = true) filters ->
  Forall (fun c => matches to_lowercase ex c x) filters <-> Forall (fun c => doc_matches x fields c = true) filters.
Proof. intros Hf. apply Forall_iff_list. eapply Forall_impl; [exact Hf|]. intros c. apply engine_matches. Qed.

End one_doc.

Lemma askable_ok c : valid_clause ex c && plain_clause c = true -> clause_ok ex c.
Proof.
  intros [Hv Hp]%andb_true_iff. split; [done|].
  assert (forall field x, ~ is_null ex field x) as Hn.
  { intros field x Hx. pose proof Hx as (ff & Hff & Hh). apply (engine_has _ _ _ _ Hff) in Hh as (fields & Hd & _).
    by eapply engine_null. }
  split.
  - destruct c; cbn; try done. cbn in Hp. by apply plain_no_empty_and.
  - clear Hv. revert Hp. induction c as [f v|f v|f vs|f vs|f v|f v|f v|f v|c IH|cs IH|cs IH|f|f|f n b]
      using FilterClause_nested_ind; try done; cbn [plain_clause clause_clean].
    + rewrite andb_true_iff. intros [_ Hp]. induction IH; cbn in *; [done|]. apply andb_true_iff in Hp as []. auto.
    + intros Hp. induction IH; cbn in *; [done|]. apply andb_true_iff in Hp as []. auto.
Qed.

Lemma find_sort_config_Some field sc :
  find_sort_config cfg field = Some sc -> sc ∈ sort_fields cfg /\ sf_name sc = field.
Proof. intros [Hin Hn%bool_decide_eq_true]%find_some. by rewrite list_elem_of_In. Qed.

(** The sort layers of a configured field spell the documents' values. *)
Lemma engine_sort field sc :
  find_sort_config cfg field = Some sc ->
  exists sf, ex_sorts ex !! field = Some sf /\ SortField.wf sf /\ SortField.num_bits sf = N.to_nat (sf_bits sc)
    /\ (SortField.num_bits sf <= 32)%nat
    /\ forall x, SortField.reconstruct_value sf x = doc_sort_value docs field (SortField.num_bits sf) x.
Proof.
  intros [Hsc Hname]%find_sort_config_Some. pose proof (mo_bits _ _ _ (eo_mut _ _ _ Hok)) as Hb.
  pose proof (bo_sorts _ _ _ Hb sc Hsc) as Hl. unfold layers_of in Hl. rewrite Hname in Hl.
  apply fmap_Some in Hl as (sf & Hsf & Hn). cbn in Hsf. exists sf.
  pose proof (proj1 (Forall_forall _ _) (cfg_bits _ Hcfg) sc Hsc) as Hbits. cbn in Hbits.
  assert (SortField.num_bits sf <= 32)%nat as H32 by lia.
  split_and!; [done| |done|done|].
  { by eapply (swf_sorts _ (bo_wf _ _ _ Hb)). }
  intros x. apply N.bits_inj. intros j. apply eq_true_iff_eq. rewrite reconstruct_testbit by done.
  unfold doc_sort_value. destruct (decide (j < N.of_nat (SortField.num_bits sf))) as [Hj|Hj].
  - rewrite N.mod_pow2_bits_low by done. pose proof (bo_sbit _ _ _ Hb sc (N.to_nat j) x Hsc ltac:(lia)) as Hs.
    rewrite Hname in Hs. cbn in Hs. rewrite (sbit_here _ _ sf) in Hs by done. unfold doc_sort_bits in Hs.
    assert (forall v, N.testbit v j = bit_set v (N.to_nat j)) as Hbit.
    { intros v. rewrite bit_set_testbit by lia. by rewrite N2Nat.id. }
    rewrite Hbit. clear Hbit. split.
    + intros (i & -> & Hi & Hx). rewrite Nat2N.id in *. apply Hs in Hx as (fields & -> & Hx). exact Hx.
    + intros Hx. exists (N.to_nat j). split_and!; [lia|lia|]. apply Hs.
      destruct (docs !! x) as [fields|] eqn:Ed; cbn in Hx; [by eexists|]. by rewrite bit_set_0 in Hx.
  - rewrite N.mod_pow2_bits_high by lia. split; [|done]. intros (i & -> & Hi & _). lia.
Qed.

Lemma top_n_spec_ext (v1 v2 : N -> N) l limit desc cursor :
  (forall x, v1 x = v2 x) ->
  SortField.top_n_spec v1 l limit desc cursor = SortField.top_n_spec v2 l limit desc cursor.
Proof.
  intros Hv. unfold SortField.top_n_spec. f_equal. rewrite (merge_sort_slot_le_ext _ v1 v2) by auto.
  f_equal. destruct cursor as [c|]; [|done]. apply list_filter_iff. intros x. unfold SortField.after_cursor.
  by rewrite Hv.
Qed.

(** The executor over the engine's index answers for the documents. *)
Lemma engine_execute filters sort limit cursor :
  forallb (fun c => valid_clause ex c && plain_clause c) filters = true -> askable_sort cfg sort cursor = true ->
  exists r matched, execute to_lowercase ex filters sort limit cursor = Ok r
    /\ StronglySorted N.lt matched
    /\ (forall x, x ∈ matched <-> exists fields, docs !! x = Some fields /\ doc_selected filters x fields = true)
    /\ qr_total_matched r = N.of_nat (length matched)
    /\ qr_ids r = doc_page cfg docs sort matched (N.min limit max_page) cursor.
Proof.
  intros Hf Hs. apply forallb_Forall in Hf.
  destruct (execute_page to_lowercase ex filters sort limit cursor) as (r & matched & Hr & Hsort & Hm & Ht & Hids).
  - apply engine_index_ok.
  - eapply Forall_impl; [exact Hf|]. intros c. apply askable_ok.
  - destruct sort as [s|]; [|done]. cbn in Hs. destruct (find_sort_config cfg (sc_field s)) as [sc|] eqn:E; [|done].
    destruct (engine_sort _ _ E) as (sf & H1 & H2 & H3 & H4 & _). exists sf. split_and!; try done.
    destruct cursor as [c|]; [|done]. cbn. apply N.ltb_lt in Hs. rewrite H3, N2Nat.id. done.
  - intros x Hx%engine_alive. apply N.lt_le_incl, (mo_range _ _ _ (eo_mut _ _ _ Hok)), Hx.
  - exists r, matched. split_and!; try done.
    + intros x. rewrite Hm, engine_alive. unfold is_Some, doc_selected. setoid_rewrite forallb_Forall. split.
      * intros [[fields Hd] Hall]. exists fields. split; [done|]. by apply (engine_matches_all x fields Hd filters Hf).
      * intros (fields & Hd & Hall). split; [by eexists|]. by apply (engine_matches_all x fields Hd filters Hf).
    + rewrite Hids. unfold page_of, doc_page. destruct sort as [s|]; [|done]. cbn in Hs.
      destruct (find_sort_config cfg (sc_field s)) as [sc|] eqn:E; [|done].
      destruct (engine_sort _ _ E) as (sf & -> & _ & <- & _ & Hv). by apply top_n_spec_ext.
Qed.

End one_engine.
(** ** The operations *)

Lemma merged_ok cfg ix d docs :
  mut_ok cfg (MutationEngine.mk ix d) docs -> engine_ok cfg (Engine.mk (Engine.merge_all ix) ∅ d cfg) docs.
Proof.
  intros Hm. split; cbn; [done|by apply mut_ok_merge_all| |done].
  apply merge_clean, (mo_loaded _ _ _ Hm).
Qed.

Lemma in_flight_cleared e id :
  Engine.in_flight e = ∅ ->
  InFlightTracker.clear_in_flight (InFlightTracker.mark_in_flight (Engine.in_flight e) id) id = ∅.
Proof. unfold InFlightTracker.clear_in_flight, InFlightTracker.mark_in_flight. intros ->. set_solver. Qed.

Lemma engine_put cfg e docs id doc :
  config_ok cfg -> engine_ok cfg e docs -> id < u32_max -> ds_fits (Engine.docstore e) (doc_fields doc) ->
  (Engine.put e id doc).1 = Ok tt /\ engine_ok cfg (Engine.put e id doc).2 (<[id := doc_fields doc]> docs).
Proof.
  intros Hcfg [Hc Hm Hd Hi] Hid Hfit. unfold Engine.put, Engine.with_in_flight. rewrite Hc.
  destruct (mut_put cfg Hcfg _ docs id doc Hm Hid Hfit) as (st & -> & Hst). rewrite in_flight_cleared by done.
  split; [done|]. apply merged_ok. by destruct st.
Qed.

Lemma engine_delete cfg e docs id :
  config_ok cfg -> engine_ok cfg e docs -> id <= u32_max ->
  (Engine.delete e id).1 = (if bool_decide (is_Some (docs !! id)) then Ok tt else Err (SlotNotFound id))
  /\ engine_ok cfg (Engine.delete e id).2 (delete id docs).
Proof.
  intros Hcfg [Hc Hm Hd Hi] Hid. unfold Engine.delete, Engine.with_in_flight. rewrite Hc.
  destruct (mut_delete cfg Hcfg _ docs id Hm Hid) as (st & -> & Hst). rewrite in_flight_cleared by done.
  split; [done|]. apply merged_ok. by destruct st.
Qed.

Lemma sorted_length (l : list N) lo hi :
  StronglySorted N.lt l -> (forall x, x ∈ l -> lo <= x < hi) -> lo <= hi -> N.of_nat (length l) <= hi - lo.
Proof.
  intros Hs. revert lo. induction Hs as [|x l Hs IH Hx]; intros lo Hb Hlh; cbn [length]; [lia|].
  pose proof (Hb x ltac:(apply elem_of_cons; by left)) as Hxb.
  enough (N.of_nat (length l) <= hi - (x + 1)) by lia. apply IH; [|lia].
  intros y Hy. pose proof (Hb y ltac:(apply elem_of_cons; by right)).
  pose proof (proj1 (Forall_forall _ _) Hx y Hy). lia.
Qed.

Lemma elem_of_insert_ids (ids : list N) (b : B) x :
  (forall y, y ∈ ids -> y <= u32_max) ->
  x ∈ foldl (fun b id => rb_insert b (wrap32 id)) b ids <-> x ∈ ids \/ x ∈ b.
Proof.
  revert b. induction ids as [|y ids IH]; intros b Hu; cbn [foldl].
  { rewrite elem_of_nil. tauto. }
  rewrite IH by (intros; apply Hu, elem_of_cons; by right).
  rewrite rb_elem_of_insert, elem_of_cons, wrap32_small by (apply Hu, elem_of_cons; by left). tauto.
Qed.

(** Everything that matches is fetched, none of it beyond the page limit. *)
Lemma delete_where_fetch cfg e docs filters :
  config_ok cfg -> engine_ok cfg e docs -> forallb (askable e) filters = true ->
  exists r, execute to_lowercase (Engine.executor e u32_max) filters None u32_max None = Ok r
    /\ NoDup (qr_ids r)
    /\ forall x, x ∈ qr_ids r <-> exists fields, docs !! x = Some fields /\ doc_selected filters x fields = true.
Proof.
  intros Hcfg Hok Hf.
  destruct (engine_execute cfg Hcfg e docs Hok u32_max filters None u32_max None Hf eq_refl)
    as (r & matched & Hr & Hs & Hm & _ & Hids).
  assert (forall x, x ∈ matched -> 0 <= x < u32_max) as Hb.
  { intros x (fields & Hx & _)%Hm. split; [lia|]. apply (mo_range _ _ _ (eo_mut _ _ _ Hok)). by eexists. }
  pose proof (sorted_length matched 0 u32_max Hs Hb ltac:(lia)) as Hlen.
  assert (qr_ids r = rev matched) as Hrev.
  { rewrite Hids. unfold doc_page. rewrite N.min_id. apply take_ge. rewrite length_rev. lia. }
  exists r. split; [done|]. rewrite Hrev. split.
  - rewrite <- (Permutation_rev matched). by apply sorted_lt_NoDup.
  - intros x. rewrite <- (Permutation_rev matched). apply Hm.
Qed.

(** The documents that stay are those no slot was fetched for. *)
Lemma remaining_filter docs filters (slots : list N) :
  (forall x, x ∈ slots <-> exists fields, docs !! x = Some fields /\ doc_selected (B := B) filters x fields = true) ->
  remaining docs slots = filter (fun p => doc_selected filters p.1 p.2 = false) docs.
Proof.
  intros Hs. apply map_eq. intros x. rewrite lookup_remaining. apply option_eq. intros fields.
  rewrite map_lookup_filter_Some. cbn. rewrite <- not_true_iff_false. case_decide as Hx.
  - rewrite Hs in Hx. destruct Hx as (fields' & Hf & Hm). split; [done|]. rewrite Hf. intros [[= ->] Hn]. done.
  - rewrite Hs in Hx. split; [|tauto]. intros Hf. split; [done|]. eauto.
Qed.

Lemma selected_count docs filters (slots : list N) :
  NoDup slots ->
  (forall x, x ∈ slots <-> exists fields, docs !! x = Some fields /\ doc_selected (B := B) filters x fields = true) ->
  size (filter (fun p => doc_selected filters p.1 p.2 = true) docs) = length slots.
Proof.
  intros Hnd Hs. rewrite <- size_dom, <- (size_list_to_set (C := gset N) slots) by done. f_equal.
  apply set_eq. intros x. rewrite elem_of_list_to_set, Hs, elem_of_dom. unfold is_Some.
  by setoid_rewrite map_lookup_filter_Some.
Qed.

Lemma engine_delete_where cfg e docs filters :
  config_ok cfg -> engine_ok cfg e docs -> forallb (askable e) filters = true ->
  (Engine.delete_where to_lowercase e filters).1
    = Ok (wrap64 (N.of_nat (size (filter (fun p => doc_selected filters p.1 p.2 = true) docs))))
  /\ engine_ok cfg (Engine.delete_where to_lowercase e filters).2
       (filter (fun p => doc_selected filters p.1 p.2 = false) docs).
Proof.
  intros Hcfg Hok Hf. destruct (delete_where_fetch cfg e docs filters Hcfg Hok Hf) as (r & Hr & Hnd & Hm).
  unfold Engine.delete_where. rewrite Hr. set (matching := foldl _ _ _).
  assert (forall x, x ∈ rb_iter matching <-> x ∈ qr_ids r) as Hit.
  { intros x. rewrite <- rb_elem_of_iter. unfold matching. rewrite elem_of_insert_ids.
    - pose proof (rb_elem_of_new (B := B) x). tauto.
    - intros y (fields & Hy & _)%Hm. apply N.lt_le_incl, (mo_range _ _ _ (eo_mut _ _ _ Hok)). by eexists. }
  assert (forall x, x ∈ rb_iter matching <-> exists fields, docs !! x = Some fields
    /\ doc_selected filters x fields = true) as Hsel by (intros x; by rewrite Hit, Hm).
  assert (NoDup (rb_iter matching)) as Hnd' by apply sorted_lt_NoDup, rb_iter_sorted.
  destruct Hok as [Hc Hmut Hd Hi]. unfold MutationEngine.delete_where. rewrite Hc.
  destruct (mut_delete_loop cfg Hcfg (rb_iter matching) _ docs 0 Hmut Hnd') as (st & -> & Hst); [done|].
  rewrite (remaining_filter docs filters _ Hsel) in Hst.
  rewrite (selected_count docs filters _ Hnd' Hsel), Hi. split.
  - cbn. rewrite N.add_0_l. do 4 f_equal. apply filter_all, Forall_forall. intros x (fields & Hx & _)%Hsel. by eexists.
  - apply merged_ok, mut_ok_merge_alive, mut_ok_merge_sorts. by destruct st.
Qed.

Lemma new_bits_ok cfg store :
  config_ok cfg -> bits_ok cfg (Engine.index (Engine.new (B := B) (D := D) cfg store)) ∅.
Proof.
  intros Hcfg. set (ix := Engine.index _).
  assert (forall name ff, ix_filters ix !! name = Some ff <->
    exists fc, fc ∈ filter_fields cfg /\ name = ff_name fc /\ ff = FilterField.new fc) as Hf.
  { intros name ff. cbn. rewrite (foldl_insert_lookup ff_name FilterField.new) by (done || apply Hcfg).
    rewrite lookup_empty. naive_solver. }
  assert (forall name sf, ix_sorts ix !! name = Some sf <->
    exists sc, sc ∈ sort_fields cfg /\ name = sf_name sc /\ sf = SortField.new sc) as Hs.
  { intros name sf. cbn. unfold SortIndex.add_field, SortIndex.new.
    rewrite (foldl_insert_lookup sf_name SortField.new) by (done || apply Hcfg). rewrite lookup_empty. naive_solver. }
  split.
  - split; [| |apply wf_new].
    + intros field ff (fc & _ & _ & ->)%Hf. apply fwf_new.
    + intros field sf (sc & _ & _ & ->)%Hs. apply wf_new_sf.
  - intros name. unfold is_Some. setoid_rewrite Hf. rewrite list_elem_of_fmap. naive_solver.
  - intros sc Hsc. unfold layers_of. rewrite (proj2 (Hs (sf_name sc) (SortField.new sc))) by eauto. done.
  - intros fc v x Hfc. unfold fhas, doc_bits. rewrite (proj2 (Hf (ff_name fc) (FilterField.new fc))) by eauto.
    split; [|rewrite lookup_empty; naive_solver]. intros (ff & [= <-] & vb & Hvb & _). cbn in Hvb.
    by rewrite lookup_empty in Hvb.
  - intros sc i x Hsc Hi. unfold sbit, doc_sort_bits. rewrite (proj2 (Hs (sf_name sc) (SortField.new sc))) by eauto.
    split; [|rewrite lookup_empty; naive_solver]. intros (sf & [= <-] & vb & Hvb & Hx). cbn in Hvb.
    apply lookup_replicate in Hvb as [-> _]. by apply elem_of_new_empty in Hx.
Qed.

Lemma new_clean : VersionedBitmap.is_dirty (VersionedBitmap.new_empty : VersionedBitmap.t B) = false.
Proof.
  unfold VersionedBitmap.is_dirty. apply negb_false_iff, diff_is_empty_true. cbn.
  split; intros x; apply rb_elem_of_new.
Qed.

Lemma history_ok cfg e docs : config_ok cfg -> history cfg e docs -> engine_ok cfg e docs.
Proof.
  intros Hcfg. induction 1 as [store Hstore|e docs id doc _ IH Hid Hfit|e docs id _ IH Hid|e docs filters _ IH Hf].
  - split; [done| |apply new_clean|done]. split; cbn.
    + by apply (new_bits_ok cfg store).
    + intros x. rewrite lookup_empty. unfold live. cbn. split; [by intros ?%elem_of_new_empty|by intros []].
    + intros x fields. by rewrite lookup_empty.
    + done.
    + done.
    + intros x. rewrite lookup_empty. by intros [].
  - by apply engine_put.
  - by apply engine_delete.
  - by apply engine_delete_where.
Qed.

(** C4: The engine answers queries about the documents it was given. Start from a
    configuration with distinct filter names, none of them id, distinct sort names and
    sort fields of at most 32 bits, and from a new engine over a document store in a sound
    state; make any sequence of puts (32-bit ids below the largest, documents that fit the
    store), deletes and delete-wheres. Then a query without offset whose clauses name
    known fields within the scan limits and contain no pre-computed bucket bitmaps and no
    empty conjunctions, sorted by a known field (or not at all) with a cursor value that
    fits the field, succeeds, matches exactly the current documents whose fields satisfy
    every clause, reports their number, and returns the page of them in the order of their
    sort values (or newest slot first) after the cursor. The store is an interface whose
    laws the modelled DocStoreV3, opened without recorded defaults, is proved to satisfy;
    the witness runs on it. (With recorded defaults the engine diffs against a filled-in
    document, see the finding on mutation.rs:788.) *)
Theorem engine_query_correct (cfg : Configuration) e (docs : Docs) (query : BitdexQuery B) :
  config_ok cfg -> history cfg e docs ->
  forallb (askable e) (q_filters query) = true -> askable_sort cfg (q_sort query) (q_cursor query) = true ->
  q_offset query = None -> q_limit query <= u64_max ->
  exists r matched,
    Engine.execute_query to_lowercase e query = Ok r
    /\ StronglySorted N.lt matched
    /\ (forall x, x ∈ matched <-> exists fields, docs !! x = Some fields
          /\ doc_selected (q_filters query) x fields = true)
    /\ qr_total_matched r = N.of_nat (length matched)
    /\ qr_ids r = doc_page cfg docs (q_sort query) matched
          (N.min (q_limit query) (cfg_max_page_size cfg)) (q_cursor query).
Proof.
  intros Hcfg Hh Hf Hs Ho Hl. pose proof (history_ok cfg e docs Hcfg Hh) as Hok.
  unfold Engine.execute_query. rewrite Ho. cbn [default].
  replace (match q_cursor query with Some _ => 0 | None => 0 end) with 0 by by destruct (q_cursor query).
  rewrite N.add_0_r, N.min_l by done. rewrite (eo_config _ _ _ Hok).
  unfold askable in Hf. rewrite (eo_config _ _ _ Hok) in Hf.
  destruct (engine_execute cfg Hcfg e docs Hok (cfg_max_page_size cfg) (q_filters query) (q_sort query)
    (q_limit query) (q_cursor query) Hf Hs) as (r & matched & -> & H1 & H2 & H3 & H4).
  exists r, matched. split; [|done]. cbn. unfold Engine.post_validate, Engine.apply_offset. cbn.
  by rewrite (eo_idle _ _ _ Hok).
Qed.

(** C5: The engine's writes act on the documents. Start from a configuration with distinct
    filter names, none of them id, distinct sort names and sort fields of at most 32 bits,
    and from a new engine over a document store in a sound state; make any sequence of
    puts (32-bit ids below the largest, documents that fit the store), deletes and
    delete-wheres (known fields within the scan limits, no pre-computed bucket bitmaps, no
    empty conjunctions). Then a put of a document that fits the store succeeds, a delete
    succeeds when the document exists and otherwise reports SlotNotFound, a delete-where
    returns how many documents satisfied its clauses; every document the engine holds
    reads from the store with exactly its fields and the schema version the store reports,
    no write is left in flight, and the count of live documents is their number. The store
    is an interface whose laws the modelled DocStoreV3, opened without recorded defaults,
    is proved to satisfy; the witness runs on it. *)
Theorem engine_mutations_correct (cfg : Configuration) e (docs : Docs) :
  config_ok cfg -> history cfg e docs ->
  (forall id doc, id < u32_max -> ds_fits (Engine.docstore e) (doc_fields doc) -> (Engine.put e id doc).1 = Ok tt)
  /\ (forall id, id <= u32_max -> (Engine.delete e id).1 = if bool_decide (is_Some (docs !! id)) then Ok tt else Err (SlotNotFound id))
  /\ (forall filters, forallb (askable e) filters = true ->
       (Engine.delete_where to_lowercase e filters).1
       = Ok (wrap64 (N.of_nat (size (filter (fun p => doc_selected filters p.1 p.2 = true) docs)))))
  /\ (forall id fields, docs !! id = Some fields ->
       ds_get (Engine.docstore e) id = Ok (Some (MkStoredDoc fields (ds_version (Engine.docstore e)))))
  /\ InFlightTracker.has_in_flight (Engine.in_flight e) = false
  /\ Engine.alive_count e = N.of_nat (size docs).
Proof.
  intros Hcfg Hh. pose proof (history_ok cfg e docs Hcfg Hh) as Hok. split_and!.
  - intros id doc Hid Hfit. by apply (engine_put cfg e docs).
  - intros id Hid. by apply (engine_delete cfg e docs).
  - intros filters Hf. by apply (engine_delete_where cfg e docs).
  - apply (mo_store _ _ _ (eo_mut _ _ _ Hok)).
  - unfold InFlightTracker.has_in_flight. by rewrite (eo_idle _ _ _ Hok).
  - unfold Engine.alive_count, SlotAllocator.alive_count. rewrite fused_len_fused, rb_len_iter. f_equal.
    pose proof (swf_alive _ (bo_wf _ _ _ (mo_bits _ _ _ (eo_mut _ _ _ Hok)))) as Hw. cbn in Hw.
    rewrite <- size_dom, <- (size_list_to_set (C := gset N) (rb_iter _)) by apply sorted_lt_NoDup, rb_iter_sorted.
    f_equal. apply set_eq. intros x.
    rewrite elem_of_list_to_set, <- rb_elem_of_iter, elem_of_fused, elem_of_dom by done.
    apply (mo_live _ _ _ (eo_mut _ _ _ Hok)).
Qed.

End engine.
