(* ===== verification/Validation.v ===== *)
(** * Configuration validation (src/config.rs)

    [Config::validate] and [DataSchema::validate], check by check, and what a
    configuration that passes them guarantees to the components. *)

From S2P Require Import Prelude Roaring Versioned Slot Config Sort SortFacts SortTheorems.
From S2P Require Import Filter FilterFacts Float64 Bytes BucketDiffLog TimeBuckets Query Dictionary Planner.
From S2P Require Import Executor Coalescer IndexFacts Mutation MutationFacts Engine EngineFacts EngineInvariant.

Local Open Scope bitdex_scope.
Local Open Scope string_scope.

Notation cfg_err msg := (Err (Config msg)).

(** [x > y] on [f64]: false when either side is NaN. *)
Definition f64_gt (x y : spec_float) : bool := SFltb y x.
Definition f64_le (x y : spec_float) : bool := SFleb x y.

(** The loop over range buckets, with the names seen so far; [at_] and [sep] shape the
    messages of its two copies. *)
Fixpoint validate_buckets (at_ sep : string) (seen : gset string) (buckets : list BucketConfig) : result unit :=
  match buckets with
  | [] => Ok tt
  | bucket :: rest =>
      if bool_decide (bc_name bucket = "") then cfg_err (at_ ++ ": bucket name must not be empty")
      else if bool_decide (bc_name bucket ∈ seen) then cfg_err (at_ ++ ": duplicate bucket name '" ++ bc_name bucket ++ "'")
      else if (bc_duration_secs bucket =? 0)%N
      then cfg_err (at_ ++ sep ++ " bucket '" ++ bc_name bucket ++ "': duration_secs must be > 0")
      else if (bc_refresh_interval_secs bucket =? 0)%N
      then cfg_err (at_ ++ sep ++ " bucket '" ++ bc_name bucket ++ "': refresh_interval_secs must be > 0")
      else validate_buckets at_ sep ({[bc_name bucket]} ∪ seen) rest
  end.

Definition validate_eviction (f : FilterFieldConfig) : result unit :=
  match eviction f with
  | None => Ok tt
  | Some ev =>
      if negb (bool_decide (ff_field_type f = MultiValue))
      then cfg_err ("filter field '" ++ ff_name f ++ "': eviction is only supported on multi_value fields")
      else if f64_le (idle_seconds ev) (S754_zero false)
      then cfg_err ("filter field '" ++ ff_name f ++ "': eviction.idle_seconds must be > 0")
      else Ok tt
  end.

Definition validate_behaviors (f : FilterFieldConfig) : result unit :=
  match behaviors f with
  | None => Ok tt
  | Some b => validate_buckets ("filter field '" ++ ff_name f ++ "'") "," ∅ (range_buckets b)
  end.

Fixpoint validate_filters (seen : gset string) (fields : list FilterFieldConfig) : result unit :=
  match fields with
  | [] => Ok tt
  | f :: rest =>
      if bool_decide (ff_name f = "") then cfg_err "filter field name must not be empty"
      else if bool_decide (ff_name f ∈ seen) then cfg_err ("duplicate filter field: " ++ ff_name f)
      else let? _ := validate_eviction f in
           let? _ := validate_behaviors f in
           validate_filters ({[ff_name f]} ∪ seen) rest
  end.

Definition validate_time_buckets (tb : option TimeBucketFieldConfig) : result unit :=
  match tb with
  | None => Ok tt
  | Some tb =>
      if bool_decide (tb_filter_field tb = "") then cfg_err "time_buckets.filter_field must not be empty"
      else if bool_decide (tb_sort_field tb = "") then cfg_err "time_buckets.sort_field must not be empty"
      else validate_buckets "time_buckets" "" ∅ (tb_range_buckets tb)
  end.

Definition validate_deferred (da : option DeferredAliveConfig) : result unit :=
  match da with
  | None => Ok tt
  | Some da => if bool_decide (da_source_field da = "")
               then cfg_err "deferred_alive.source_field must not be empty" else Ok tt
  end.

Fixpoint validate_sorts (seen : gset string) (fields : list SortFieldConfig) : result unit :=
  match fields with
  | [] => Ok tt
  | s :: rest =>
      if bool_decide (sf_name s = "") then cfg_err "sort field name must not be empty"
      else if bool_decide (sf_name s ∈ seen) then cfg_err ("duplicate sort field: " ++ sf_name s)
      else if ((sf_bits s =? 0) || (64 <? sf_bits s))%N
      then cfg_err ("sort field '" ++ sf_name s ++ "': bits must be 1-64, got " ++ pretty (sf_bits s))
      else validate_sorts ({[sf_name s]} ∪ seen) rest
  end.

Definition validate (cfg : Configuration) : result unit :=
  if (cfg_max_page_size cfg =? 0)%N then cfg_err "max_page_size must be > 0"
  else if f64_le (cache_decay_rate cfg) (S754_zero false) || f64_gt (cache_decay_rate cfg) f64_one
  then cfg_err "cache.decay_rate must be in (0.0, 1.0]"
  else let? _ := validate_filters ∅ (filter_fields cfg) in
       let? _ := validate_time_buckets (cfg_time_buckets cfg) in
       let? _ := validate_deferred (deferred_alive cfg) in
       validate_sorts ∅ (sort_fields cfg).

(** [DataSchema::validate]. *)
Fixpoint validate_mappings (fields : list FieldMapping) : result unit :=
  match fields with
  | [] => Ok tt
  | fm :: rest =>
      if fm_doc_only fm && fm_filter_only fm
      then cfg_err ("Field '" ++ fm_target fm ++ "' cannot be both doc_only and filter_only")
      else validate_mappings rest
  end.

Definition validate_schema (cfg : Configuration) : result unit :=
  if (schema_schema_version cfg <? 1)%N then cfg_err "data_schema.schema_version must be >= 1"
  else validate_mappings (schema_fields cfg).

(** ** What validation promises *)

Local Open Scope N_scope.

(** Non-empty, distinct names. *)
Definition named {A : Type} (name : A -> string) (l : list A) : Prop :=
  NoDup (name <$> l) /\ Forall (fun a => name a <> ""%string) l.

Definition buckets_valid (l : list BucketConfig) : Prop :=
  named bc_name l /\ Forall (fun b => 0 < bc_duration_secs b /\ 0 < bc_refresh_interval_secs b) l.

(** An [f64] that is not at most zero: positive, or NaN. *)
Definition not_le_zero (x : spec_float) : Prop := f64_le x (S754_zero false) = false.

Definition filter_valid (f : FilterFieldConfig) : Prop :=
  match eviction f with
  | Some ev => ff_field_type f = MultiValue /\ not_le_zero (idle_seconds ev)
  | None => True
  end
  /\ match behaviors f with Some b => buckets_valid (range_buckets b) | None => True end.

Record valid_config (cfg : Configuration) : Prop := {
  vc_page : 0 < cfg_max_page_size cfg;
  vc_decay : not_le_zero (cache_decay_rate cfg) /\ f64_gt (cache_decay_rate cfg) f64_one = false;
  vc_filters : named ff_name (filter_fields cfg) /\ Forall filter_valid (filter_fields cfg);
  vc_time : match cfg_time_buckets cfg with
            | Some tb => tb_filter_field tb <> ""%string /\ tb_sort_field tb <> ""%string
                         /\ buckets_valid (tb_range_buckets tb)
            | None => True
            end;
  vc_deferred : match deferred_alive cfg with Some da => da_source_field da <> ""%string | None => True end;
  vc_sorts : named sf_name (sort_fields cfg) /\ Forall (fun s => 1 <= sf_bits s <= 64) (sort_fields cfg);
}.

(** ** The checks, one by one *)

(** Names checked against the ones seen before. *)
Definition named_from {A : Type} (name : A -> string) (seen : gset string) (l : list A) : Prop :=
  named name l /\ Forall (fun a => name a ∉ seen) l.

Lemma named_from_cons {A : Type} (name : A -> string) seen a l :
  named_from name seen (a :: l) <->
  name a <> ""%string /\ name a ∉ seen /\ named_from name ({[name a]} ∪ seen) l.
Proof.
  unfold named_from, named. rewrite fmap_cons, NoDup_cons, !Forall_cons.
  assert (Forall (fun b => name b ∉ {[name a]} ∪ seen) l <-> name a ∉ name <$> l /\ Forall (fun b => name b ∉ seen) l) as ->.
  { rewrite !Forall_forall, list_elem_of_fmap. set_solver. }
  tauto.
Qed.

Lemma named_from_nil {A : Type} (name : A -> string) seen : named_from name seen [].
Proof. repeat split; by constructor. Qed.

Lemma named_from_empty {A : Type} (name : A -> string) (l : list A) : named_from name ∅ l <-> named name l.
Proof. unfold named_from. rewrite !Forall_forall. set_solver. Qed.

(** Split the next check of a validation loop. *)
Ltac check_step := case_bool_decide; [split; [done|naive_solver] |].

Lemma validate_buckets_ok at_ sep seen l :
  validate_buckets at_ sep seen l = Ok tt <->
  named_from bc_name seen l /\ Forall (fun b => 0 < bc_duration_secs b /\ 0 < bc_refresh_interval_secs b) l.
Proof.
  revert seen. induction l as [|b l IH]; intros seen; cbn [validate_buckets].
  { split; [|done]. intros _. split; [apply named_from_nil|constructor]. }
  rewrite named_from_cons, Forall_cons. do 2 check_step.
  destruct (N.eqb_spec (bc_duration_secs b) 0); [split; [done|lia]|].
  destruct (N.eqb_spec (bc_refresh_interval_secs b) 0); [split; [done|lia]|].
  rewrite IH. assert (0 < bc_duration_secs b /\ 0 < bc_refresh_interval_secs b) by lia. tauto.
Qed.

Lemma validate_buckets_valid at_ sep l : validate_buckets at_ sep ∅ l = Ok tt <-> buckets_valid l.
Proof. by rewrite validate_buckets_ok, named_from_empty. Qed.

Lemma bind_ok (m : result unit) (k : unit -> result unit) : result_bind m k = Ok tt <-> m = Ok tt /\ k tt = Ok tt.
Proof. destruct m as [[]|]; cbn; naive_solver. Qed.

Lemma validate_filter_ok f :
  validate_eviction f = Ok tt /\ validate_behaviors f = Ok tt <-> filter_valid f.
Proof.
  unfold filter_valid, validate_eviction, validate_behaviors, not_le_zero.
  assert (match behaviors f with Some b => validate_buckets ("filter field '" ++ ff_name f ++ "'") "," ∅ (range_buckets b)
          | None => Ok tt end = Ok tt <-> match behaviors f with Some b => buckets_valid (range_buckets b) | None => True end)
    as -> by (destruct (behaviors f); [apply validate_buckets_valid|done]).
  destruct (eviction f) as [ev|]; [|naive_solver]. case_bool_decide; cbn [negb]; [|naive_solver].
  destruct (f64_le _ _); naive_solver.
Qed.

Lemma validate_filters_ok seen l :
  validate_filters seen l = Ok tt <-> named_from ff_name seen l /\ Forall filter_valid l.
Proof.
  revert seen. induction l as [|f l IH]; intros seen; cbn [validate_filters].
  { split; [|done]. intros _. split; [apply named_from_nil|constructor]. }
  rewrite named_from_cons, Forall_cons, <- validate_filter_ok. do 2 check_step.
  rewrite !bind_ok, IH. tauto.
Qed.

Lemma validate_sorts_ok seen l :
  validate_sorts seen l = Ok tt <-> named_from sf_name seen l /\ Forall (fun s => 1 <= sf_bits s <= 64) l.
Proof.
  revert seen. induction l as [|s l IH]; intros seen; cbn [validate_sorts].
  { split; [|done]. intros _. split; [apply named_from_nil|constructor]. }
  rewrite named_from_cons, Forall_cons. do 2 check_step.
  destruct (N.eqb_spec (sf_bits s) 0), (N.ltb_spec 64 (sf_bits s)); cbn [orb]; try (split; [done|lia]).
  rewrite IH. assert (1 <= sf_bits s <= 64) by lia. tauto.
Qed.

Lemma validate_time_ok tb :
  validate_time_buckets tb = Ok tt <->
  match tb with
  | Some tb => tb_filter_field tb <> ""%string /\ tb_sort_field tb <> ""%string /\ buckets_valid (tb_range_buckets tb)
  | None => True
  end.
Proof.
  destruct tb as [tb|]; [|done]. cbn [validate_time_buckets]. do 2 check_step. rewrite validate_buckets_valid. tauto.
Qed.

Lemma validate_deferred_ok da :
  validate_deferred da = Ok tt <-> match da with Some da => da_source_field da <> ""%string | None => True end.
Proof. destruct da as [da|]; [|done]. cbn. case_bool_decide; naive_solver. Qed.

(** Every rejection is a configuration error. *)
Definition config_error (r : result unit) : Prop := match r with Ok _ | Err (Config _) => True | _ => False end.

Lemma bind_config_error m k : config_error m -> (forall u, config_error (k u)) -> config_error (result_bind m k).
Proof. destruct m as [[]|]; cbn; auto. Qed.

Lemma validate_buckets_error at_ sep seen l : config_error (validate_buckets at_ sep seen l).
Proof. revert seen. induction l as [|b l IH]; intros seen; cbn; [done|]. repeat case_match; done || apply IH. Qed.

Lemma validate_config_error cfg : config_error (validate cfg).
Proof.
  unfold validate. do 2 (case_match; [done|]).
  apply bind_config_error; [|intros _; apply bind_config_error; [|intros _; apply bind_config_error; [|intros _]]].
  - generalize (∅ : gset string). induction (filter_fields cfg) as [|f l IH]; intros seen; cbn [validate_filters]; [done|].
    do 2 (case_match; [done|]). apply bind_config_error; [|intros _; apply bind_config_error; [|intros _; apply IH]].
    + unfold validate_eviction. repeat case_match; done.
    + unfold validate_behaviors. case_match; [apply validate_buckets_error|done].
  - unfold validate_time_buckets. repeat case_match; done || apply validate_buckets_error.
  - unfold validate_deferred. repeat case_match; done.
  - generalize (∅ : gset string). induction (sort_fields cfg) as [|f l IH]; intros seen; cbn; [done|].
    repeat case_match; done || apply IH.
Qed.

Lemma validate_valid cfg : validate cfg = Ok tt <-> valid_config cfg.
Proof.
  unfold validate. destruct (N.eqb_spec (cfg_max_page_size cfg) 0).
  { split; [done|]. intros [H _ _ _ _ _]. lia. }
  destruct (f64_le (cache_decay_rate cfg) (S754_zero false)) eqn:E1;
    [split; [done|]; intros [_ [H _] _ _ _ _]; unfold not_le_zero in H; congruence|].
  destruct (f64_gt (cache_decay_rate cfg) f64_one) eqn:E2;
    [split; [done|]; intros [_ [_ H] _ _ _ _]; congruence|].
  cbn [orb]. rewrite !bind_ok, validate_filters_ok, validate_sorts_ok, !named_from_empty,
    validate_time_ok, validate_deferred_ok. split.
  + intros (H1 & H2 & H3 & H4). split; try done. lia.
  + intros [H1 H2 H3 H4 H5 H6]. done.
Qed.


(** A validated configuration has the shape the engine needs, up to the two
    conditions validation does not check: a filter field called "id" is accepted
    (clauses on "id" never reach it), and so are layers beyond the 32 bits of a
    sort value. *)
Lemma validated_config_ok (cfg : Configuration) :
  validate cfg = Ok tt -> "id"%string ∉ ff_name <$> filter_fields cfg ->
  Forall (fun sc => sf_bits sc <= 32) (sort_fields cfg) -> config_ok cfg.
Proof.
  intros Hv%validate_valid Hid Hb. destruct Hv as [_ _ [[Hf _] _] _ _ [[Hs _] _]]. by split.
Qed.

(** Not-a-number passes the range checks of [f64] settings. *)
Lemma nan_decay_accepted :
  validate (MkConfiguration [] [] None 1 S754_nan None "" 1 []) = Ok tt.
Proof. reflexivity. Qed.

(** The time buckets may name a sort field that is not configured. *)
Lemma unknown_bucket_sort_field_accepted :
  validate (MkConfiguration [] [] (Some (MkTimeBucketFieldConfig "sortAtUnix" "sortAt" [])) 1
              (f64_ratio 95 100) None "" 1 []) = Ok tt.
Proof. vm_compute. reflexivity. Qed.

(** [DataSchema::validate] accepts the schemas whose version is positive and whose
    fields are not at once stored-only and index-only. *)
Lemma validate_schema_exact (cfg : Configuration) :
  validate_schema cfg = Ok tt <->
  1 <= schema_schema_version cfg /\ Forall (fun fm => ~ (fm_doc_only fm = true /\ fm_filter_only fm = true)) (schema_fields cfg).
Proof.
  unfold validate_schema. destruct (N.ltb_spec (schema_schema_version cfg) 1); [split; [done|lia]|].
  transitivity (Forall (fun fm => ~ (fm_doc_only fm = true /\ fm_filter_only fm = true)) (schema_fields cfg)); [|tauto].
  induction (schema_fields cfg) as [|fm l IH]; cbn [validate_mappings]; [split; [constructor|done]|].
  rewrite Forall_cons, <- IH. destruct (fm_doc_only fm), (fm_filter_only fm); cbn; naive_solver.
Qed.
