(* ===== verification/Ops.v ===== *)
(** * Sync operations and their deduplication (src/pg_sync/ops.rs, src/pg_sync/op_dedup.rs)

    The operations the sync pipeline ships, and [dedup_ops], which compresses a
    batch before it is sent and again before it is applied.  [serde_json] values
    are the constructors of its [Value] type; printing and parsing them is an
    interface ([JsonText]). *)

From S2P Require Import Prelude Config.

(** [serde_json::Value]; a number is an integer (an [i64] or a [u64]) or an [f64]. *)
Inductive JsonValue : Type :=
| JNull
| JBool (b : bool)
| JInt (n : Z)
| JFloat (f : spec_float)
| JString (s : string)
| JArray (vs : list JsonValue)
| JObject (fields : list (string * JsonValue)).

(** [Value::to_string] and [serde_json::from_str]. *)
Class JsonText : Type := {
  json_to_string : JsonValue -> string;
  json_from_str : string -> option JsonValue;
}.

Inductive Op : Type :=
| OpSet (field : string) (value : JsonValue)
| OpRemove (field : string) (value : JsonValue)
| OpAdd (field : string) (value : JsonValue)
| OpDelete
| OpAlive
| OpQueryOpSet (query : option string) (ops : list Op).

Record EntityOps : Type := MkEntityOps {
  entity_id : Z;
  eo_ops : list Op;
  creates_slot : bool;
}.

Definition is_delete (op : Op) : bool := match op with OpDelete => true | _ => false end.

(** How deep fan-outs are nested. *)
Fixpoint op_depth (op : Op) : nat :=
  match op with
  | OpQueryOpSet _ ops => S (foldr Nat.max 0%nat (map op_depth ops))
  | _ => 0%nat
  end.

Definition ops_depth (ops : list Op) : nat := foldr Nat.max 0%nat (map op_depth ops).

Section dedup.
Context `{JT : JsonText}.

(** Move a key to the back of the emission order. *)
Definition touch_multi_value_key (order : list (string * string)) (key : string * string) : list (string * string) :=
  match list_find (fun k => k = key) order with
  | Some (pos, _) => take pos order ++ drop (S pos) order ++ [key]
  | None => order ++ [key]
  end.

(** The locals of [dedup_entity_ops]. *)
Record dedup_state : Type := MkDedup {
  last_set : gmap string JsonValue;
  last_remove : gmap string JsonValue;
  last_scalar_is_set : gmap string bool;
  scalar_field_order : list string;
  multi_value_net : gmap (string * string) Z;
  multi_value_order : list (string * string);
  query_ops : gmap (option string) (list Op);
  query_order : list (option string);
}.

Definition dedup_init : dedup_state := MkDedup ∅ ∅ ∅ [] ∅ [] ∅ [].

(** The multi-value bookkeeping shared by [Remove] and [Add]. *)
Definition count_multi (st : dedup_state) (field : string) (value : JsonValue) (delta : Z) : dedup_state :=
  let key := (field, json_to_string value) in
  MkDedup (last_set st) (last_remove st) (last_scalar_is_set st) (scalar_field_order st)
    (<[key := (default 0 (multi_value_net st !! key) + delta)%Z]> (multi_value_net st))
    (touch_multi_value_key (multi_value_order st) key) (query_ops st) (query_order st).

(** One round of the collecting loop. *)
Definition dedup_op (set_fields : gset string) (st : dedup_state) (op : Op) : dedup_state :=
  match op with
  | OpSet field value =>
      let first := bool_decide (last_set st !! field = None) && bool_decide (last_remove st !! field = None) in
      MkDedup (<[field := value]> (last_set st)) (last_remove st) (<[field := true]> (last_scalar_is_set st))
        (if first then scalar_field_order st ++ [field] else scalar_field_order st)
        (multi_value_net st) (multi_value_order st) (query_ops st) (query_order st)
  | OpRemove field value =>
      if bool_decide (field ∈ set_fields) then
        let first := bool_decide (last_remove st !! field = None) && bool_decide (last_set st !! field = None) in
        MkDedup (last_set st) (<[field := value]> (last_remove st)) (<[field := false]> (last_scalar_is_set st))
          (if first then scalar_field_order st ++ [field] else scalar_field_order st)
          (multi_value_net st) (multi_value_order st) (query_ops st) (query_order st)
      else count_multi st field value (-1)
  | OpAdd field value => count_multi st field value 1
  | OpQueryOpSet query nested =>
      MkDedup (last_set st) (last_remove st) (last_scalar_is_set st) (scalar_field_order st)
        (multi_value_net st) (multi_value_order st)
        (<[query := default [] (query_ops st !! query) ++ nested]> (query_ops st))
        (if bool_decide (query_ops st !! query = None) then query_order st ++ [query] else query_order st)
  | OpDelete => st (* unreachable: handled before the loop *)
  | OpAlive => st
  end.

(** The scalar fields of a batch: those some [Set] writes. *)
Definition set_fields_of (ops : list Op) : gset string :=
  foldl (fun acc op => match op with OpSet field _ => {[field]} ∪ acc | _ => acc end) ∅ ops.

Definition emit_removes (st : dedup_state) : list Op :=
  omap (fun field => OpRemove field <$> last_remove st !! field) (scalar_field_order st).

Definition emit_sets (st : dedup_state) : list Op :=
  omap (fun field => if default false (last_scalar_is_set st !! field)
                     then OpSet field <$> last_set st !! field else None) (scalar_field_order st).

Definition emit_multi (st : dedup_state) : list Op :=
  omap (fun key : string * string =>
      let net := default 0%Z (multi_value_net st !! key) in
      let value := default (JString key.2) (json_from_str key.2) in
      if (net =? 0)%Z then None
      else if (0 <? net)%Z then Some (OpAdd key.1 value) else Some (OpRemove key.1 value))
    (multi_value_order st).

(** The recursion goes into merged fan-outs; [fuel] bounds the nesting depth. *)
Fixpoint dedup_fuel (fuel : nat) (ops : list Op) : list Op :=
  match ops with
  | [] => []
  | _ =>
      if existsb is_delete ops then [OpDelete]
      else
        let st := foldl (dedup_op (set_fields_of ops)) dedup_init ops in
        let fan_outs :=
          match fuel with
          | O => []
          | S fuel =>
              omap (fun query =>
                  nested ← query_ops st !! query;
                  match dedup_fuel fuel nested with
                  | [] => None
                  | nested => Some (OpQueryOpSet query nested)
                  end) (query_order st)
          end in
        emit_removes st ++ emit_sets st ++ emit_multi st ++ fan_outs
  end.

Definition dedup_entity_ops (ops : list Op) : list Op := dedup_fuel (ops_depth ops) ops.

(** ** Batches of entities *)

Record batch_state : Type := MkBatch {
  entity_map : gmap Z (list Op);
  creates_slot_map : gmap Z bool;
  entity_order : list Z;
}.

Definition batch_entry (b : batch_state) (entry : EntityOps) : batch_state :=
  let id := entity_id entry in
  MkBatch (<[id := default [] (entity_map b !! id) ++ eo_ops entry]> (entity_map b))
    (if creates_slot entry then <[id := true]> (creates_slot_map b) else creates_slot_map b)
    (if bool_decide (entity_map b !! id = None) then entity_order b ++ [id] else entity_order b).

Definition dedup_ops (batch : list EntityOps) : list EntityOps :=
  let b := foldl batch_entry (MkBatch ∅ ∅ []) batch in
  let deduped := dedup_entity_ops <$> entity_map b in
  omap (fun id =>
      ops ← deduped !! id;
      match ops with
      | [] => None
      | ops => Some (MkEntityOps id ops (default false (creates_slot_map b !! id)))
      end) (entity_order b).

End dedup.
