(* ===== verification/OpsTheorems.v ===== *)
(** * Deduplication of sync operations: properties

    What [dedup_ops] keeps: batches of entities against their declarative form,
    enough fuel for nested fan-outs, and the effect of an entity's operations on
    the values its document holds. *)

From S2P Require Import Prelude Config Ops.

(** ** The effect of operations on one document

    A document holds a set of (field, printed value) pairs.  As in the bitmaps,
    [Set] and [Add] insert a pair and [Remove] clears one. *)

Section effect.
Context `{JT : JsonText}.
Implicit Types (held : gset (string * string)) (p : string * string) (ops : list Op).

Definition pair_of (field : string) (value : JsonValue) : string * string := (field, json_to_string value).

Definition apply_op held (op : Op) : gset (string * string) :=
  match op with
  | OpSet field value | OpAdd field value => {[pair_of field value]} ∪ held
  | OpRemove field value => held ∖ {[pair_of field value]}
  | _ => held
  end.

Definition apply_ops held ops : gset (string * string) := foldl apply_op held ops.

(** What an operation does to one pair: [Some true] inserts it, [Some false] clears it. *)
Definition touch p (op : Op) : option bool :=
  match op with
  | OpSet field value | OpAdd field value => if decide (pair_of field value = p) then Some true else None
  | OpRemove field value => if decide (pair_of field value = p) then Some false else None
  | _ => None
  end.

Definition touches p ops : list bool := omap (touch p) ops.

(** The last operation on a pair decides. *)
Lemma apply_ops_touches held ops p :
  p ∈ apply_ops held ops <-> default (bool_decide (p ∈ held)) (last (touches p ops)) = true.
Proof.
  revert held. induction ops as [|op ops IH]; intros held.
  { cbn. by rewrite bool_decide_eq_true. }
  change (apply_ops held (op :: ops)) with (apply_ops (apply_op held op) ops).
  change (touches p (op :: ops)) with
    (match touch p op with Some b => b :: touches p ops | None => touches p ops end).
  rewrite IH. assert (bool_decide (p ∈ apply_op held op) = default (bool_decide (p ∈ held)) (touch p op)) as Hb.
  { destruct op; cbn; try case_decide; cbn; try done; apply bool_decide_ext || apply eq_true_iff_eq;
      rewrite ?bool_decide_eq_true; set_solver. }
  rewrite Hb. destruct (touch p op) as [b|]; [|done]. rewrite last_cons. by destruct (last (touches p ops)).
Qed.

Lemma touches_app p l1 l2 : touches p (l1 ++ l2) = touches p l1 ++ touches p l2.
Proof. apply omap_app. Qed.

End effect.

(** ** The loop's state, field by field *)

Section state.
Context `{JT : JsonText}.
Implicit Types (ops : list Op) (field : string) (key : string * string).

Definition sets_on field (op : Op) : option JsonValue :=
  match op with OpSet f v => if decide (f = field) then Some v else None | _ => None end.

Definition removes_on field (op : Op) : option JsonValue :=
  match op with OpRemove f v => if decide (f = field) then Some v else None | _ => None end.

(** A scalar operation on a field, and whether it sets. *)
Definition scalar_on field (op : Op) : option bool :=
  match op with
  | OpSet f _ => if decide (f = field) then Some true else None
  | OpRemove f _ => if decide (f = field) then Some false else None
  | _ => None
  end.

Lemma elem_of_set_fields ops field : field ∈ set_fields_of ops <-> exists v, OpSet field v ∈ ops.
Proof.
  unfold set_fields_of.
  assert (forall acc : gset string, field ∈ foldl (fun acc op => match op with OpSet f _ => {[f]} ∪ acc | _ => acc end) acc ops
    <-> field ∈ acc \/ exists v, OpSet field v ∈ ops) as Hall.
  { induction ops as [|op ops IH]; intros acc; cbn [foldl]; [setoid_rewrite elem_of_nil; naive_solver|].
    rewrite IH. setoid_rewrite elem_of_cons. destruct op; try naive_solver.
    rewrite elem_of_union, elem_of_singleton. naive_solver. }
  rewrite Hall. set_solver.
Qed.

Section run.
Context (set_fields : gset string).

Notation run := (foldl (dedup_op set_fields) dedup_init).

Lemma run_snoc ops op : run (ops ++ [op]) = dedup_op set_fields (run ops) op.
Proof. by rewrite foldl_app. Qed.

Lemma last_omap_snoc {A C : Type} (f : A -> option C) (l : list A) (a : A) :
  last (omap f (l ++ [a])) = match f a with Some c => Some c | None => last (omap f l) end.
Proof.
  rewrite omap_app. cbn. destruct (f a); cbn; [|by rewrite app_nil_r]. by rewrite last_snoc.
Qed.

Lemma run_last_set ops field : last_set (run ops) !! field = last (omap (sets_on field) ops).
Proof.
  induction ops as [|op ops IH] using rev_ind; [apply lookup_empty|]. rewrite run_snoc, last_omap_snoc.
  destruct op; cbn; try done.
  - rewrite lookup_insert. case_decide; congruence || done.
  - by case_bool_decide.
Qed.

Lemma run_last_remove ops field :
  last_remove (run ops) !! field = if decide (field ∈ set_fields) then last (omap (removes_on field) ops) else None.
Proof.
  induction ops as [|op ops IH] using rev_ind; [cbn; rewrite lookup_empty; by case_decide|].
  rewrite run_snoc, last_omap_snoc. destruct op as [f v|f v|f v| | |q l]; cbn; try done.
  case_bool_decide as Hf; cbn.
  - rewrite lookup_insert. destruct (decide (f = field)) as [->|]; [|done]. by rewrite decide_True.
  - rewrite IH. destruct (decide (f = field)) as [->|]; [|done]. by rewrite !decide_False.
Qed.

Lemma run_is_set ops field :
  field ∈ set_fields -> last_scalar_is_set (run ops) !! field = last (omap (scalar_on field) ops).
Proof.
  intros Hs. induction ops as [|op ops IH] using rev_ind; [apply lookup_empty|]. rewrite run_snoc, last_omap_snoc.
  destruct op as [f v|f v|f v| | |q l]; cbn; try done.
  - rewrite lookup_insert. case_decide; congruence || done.
  - case_bool_decide as Hf; cbn.
    + rewrite lookup_insert. case_decide; congruence || done.
    + rewrite IH. case_decide; [|done]. by subst.
Qed.

(** The order lists the scalar fields once each. *)
Lemma run_scalar_order ops :
  NoDup (scalar_field_order (run ops))
  /\ forall field, field ∈ scalar_field_order (run ops) <->
       is_Some (last_set (run ops) !! field) \/ is_Some (last_remove (run ops) !! field).
Proof.
  induction ops as [|op ops [IH1 IH2]] using rev_ind.
  { split; [constructor|]. intros field. cbn. rewrite !lookup_empty, elem_of_nil. split; [done|]. by intros [[]|[]]. }
  rewrite run_snoc. set (st := run ops) in *.
  assert (forall f, bool_decide (last_set st !! f = None) && bool_decide (last_remove st !! f = None) = true <->
    f ∉ scalar_field_order st) as Hfirst.
  { intros f. rewrite IH2, andb_true_iff, !bool_decide_eq_true, !eq_None_not_Some. tauto. }
  assert (forall f, (NoDup (if bool_decide (last_set st !! f = None) && bool_decide (last_remove st !! f = None)
      then scalar_field_order st ++ [f] else scalar_field_order st))
    /\ forall field, field ∈ (if bool_decide (last_set st !! f = None) && bool_decide (last_remove st !! f = None)
      then scalar_field_order st ++ [f] else scalar_field_order st) <-> field = f \/ field ∈ scalar_field_order st) as Hord.
  { intros f. pose proof (Hfirst f) as Hf. destruct (_ && _).
    - split; [apply NoDup_app; split_and!; [done| |apply NoDup_singleton]|].
      + intros x Hx ->%list_elem_of_singleton. by apply Hf.
      + intros field. rewrite elem_of_app, list_elem_of_singleton. tauto.
    - split; [done|]. intros field. split; [tauto|]. intros [->|H]; [|done].
      destruct (decide (f ∈ scalar_field_order st)); [done|]. by apply Hf in n. }
  destruct op as [f v|f v|f v| | |q l]; cbn; try done.
  - destruct (Hord f) as [H1 H2]. split; [done|]. intros field. rewrite H2, IH2, lookup_insert. unfold is_Some.
    case_decide; naive_solver.
  - case_bool_decide; cbn; [|done]. rewrite andb_comm. destruct (Hord f) as [H1 H2]. split; [done|]. intros field.
    rewrite H2, IH2, lookup_insert. unfold is_Some. case_decide; naive_solver.
Qed.

Lemma touch_key_spec (order : list (string * string)) key :
  NoDup order ->
  NoDup (touch_multi_value_key order key) /\ forall k, k ∈ touch_multi_value_key order key <-> k = key \/ k ∈ order.
Proof.
  intros Hnd. unfold touch_multi_value_key. destruct (list_find _ order) as [[pos k0]|] eqn:E.
  - apply list_find_Some in E as (Hl & -> & _).
    assert (take pos order ++ drop (S pos) order ++ [key] ≡ₚ order) as Hp.
    { rewrite <- (take_drop_middle order pos key Hl) at 3. rewrite Permutation_app_comm with (l := drop _ _). done. }
    split; [by rewrite Hp|]. intros k. rewrite Hp. split; [tauto|]. intros [->|?]; [|done].
    by eapply list_elem_of_lookup_2.
  - apply list_find_None in E. rewrite Forall_forall in E. split.
    + apply NoDup_app. split_and!; [done| |apply NoDup_singleton]. intros k Hk ->%list_elem_of_singleton. by eapply E.
    + intros k. rewrite elem_of_app, list_elem_of_singleton. tauto.
Qed.

(** What an operation adds to the net count of a multi-value pair. *)
Definition multi_on key (op : Op) : option Z :=
  match op with
  | OpAdd f v => if decide (pair_of f v = key) then Some 1%Z else None
  | OpRemove f v => if decide (f ∉ set_fields /\ pair_of f v = key) then Some (-1)%Z else None
  | _ => None
  end.

Definition net_of (l : list Z) : Z := foldr Z.add 0%Z l.

Lemma net_of_snoc l z : net_of (l ++ [z]) = (net_of l + z)%Z.
Proof. induction l as [|y l IH]; cbn; [lia|]. fold (net_of (l ++ [z])) (net_of l). rewrite IH. lia. Qed.

Lemma run_multi ops :
  NoDup (multi_value_order (run ops))
  /\ (forall key, key ∈ multi_value_order (run ops) <-> omap (multi_on key) ops <> [])
  /\ (forall key, default 0%Z (multi_value_net (run ops) !! key) = net_of (omap (multi_on key) ops)).
Proof.
  induction ops as [|op ops (IH1 & IH2 & IH3)] using rev_ind.
  { split_and!; [constructor| |done]. intros key. by rewrite elem_of_nil. }
  assert (forall f v d, (forall key, multi_on key op = if decide (pair_of f v = key) then Some d else None) ->
    dedup_op set_fields (run ops) op = count_multi (run ops) f v d ->
    NoDup (multi_value_order (run (ops ++ [op])))
    /\ (forall key, key ∈ multi_value_order (run (ops ++ [op])) <-> omap (multi_on key) (ops ++ [op]) <> [])
    /\ (forall key, default 0%Z (multi_value_net (run (ops ++ [op])) !! key) = net_of (omap (multi_on key) (ops ++ [op]))))
    as Hmulti.
  { intros f v d Hm Hr. rewrite run_snoc, Hr. unfold count_multi. cbn. fold (pair_of f v).
    destruct (touch_key_spec (multi_value_order (run ops)) (pair_of f v) IH1) as [T1 T2]. split_and!; [done|..].
    - intros key. rewrite T2, IH2, omap_app. cbn. rewrite Hm. case_decide; cbn; [|rewrite app_nil_r; naive_solver].
      split; [|naive_solver]. by destruct (omap _ ops).
    - intros key. rewrite omap_app, lookup_insert. cbn. rewrite Hm.
      case_decide; cbn; [subst; by rewrite net_of_snoc, <- IH3|by rewrite app_nil_r]. }
  assert ((forall key, multi_on key op = None) -> multi_value_order (dedup_op set_fields (run ops) op) = multi_value_order (run ops) ->
    multi_value_net (dedup_op set_fields (run ops) op) = multi_value_net (run ops) ->
    NoDup (multi_value_order (run (ops ++ [op])))
    /\ (forall key, key ∈ multi_value_order (run (ops ++ [op])) <-> omap (multi_on key) (ops ++ [op]) <> [])
    /\ (forall key, default 0%Z (multi_value_net (run (ops ++ [op])) !! key) = net_of (omap (multi_on key) (ops ++ [op]))))
    as Hother.
  { intros Hm H1 H2. rewrite run_snoc, H1, H2. split_and!; [done|..]; intros key; rewrite omap_app; cbn;
      rewrite Hm, app_nil_r; auto. }
  destruct op as [f v|f v|f v| | |q l]; try (by apply Hother).
  - destruct (decide (f ∈ set_fields)) as [Hf|Hf].
    + apply Hother; cbn; [|by rewrite bool_decide_true..]. intros key. rewrite decide_False; [done|]. tauto.
    + apply (Hmulti f v (-1)%Z); cbn; [|by rewrite bool_decide_false]. intros key.
      repeat case_decide; tauto || done.
  - by apply (Hmulti f v 1%Z).
Qed.

(** Fan-outs are merged by query, in first-arrival order. *)
Definition nested_of (query : option string) (op : Op) : option (list Op) :=
  match op with OpQueryOpSet q l => if decide (q = query) then Some l else None | _ => None end.

Lemma run_queries ops :
  NoDup (query_order (run ops))
  /\ (forall q, q ∈ query_order (run ops) <-> is_Some (query_ops (run ops) !! q))
  /\ (forall q, query_ops (run ops) !! q
       = match omap (nested_of q) ops with [] => None | l => Some (mjoin l) end).
Proof.
  induction ops as [|op ops (IH1 & IH2 & IH3)] using rev_ind.
  { split_and!; [constructor| |]; intros q; cbn; rewrite lookup_empty; [|done]. rewrite elem_of_nil. split; [done|by intros []]. }
  rewrite run_snoc. destruct op as [f v|f v|f v| | |q l];
    try (split_and!; [done|done|]; intros q'; rewrite omap_app; cbn; by rewrite app_nil_r).
  { cbn. case_bool_decide; cbn; split_and!; try done; intros q'; rewrite omap_app; cbn; by rewrite app_nil_r. }
  cbn [dedup_op query_ops query_order]. split_and!.
  - case_bool_decide as Hq; [|done]. apply NoDup_app. split_and!; [done| |apply NoDup_singleton].
    intros q' Hq' ->%list_elem_of_singleton. apply IH2 in Hq' as [? Hs]. congruence.
  - intros q'. rewrite lookup_insert. case_bool_decide as Hq; rewrite ?elem_of_app, ?list_elem_of_singleton, IH2;
      case_decide as Hd; subst; unfold is_Some; try naive_solver.
    destruct (query_ops (run ops) !! q'); naive_solver.
  - intros q'. rewrite omap_app, lookup_insert. cbn. case_decide as Hd; [|cbn; rewrite app_nil_r; apply IH3].
    subst q'. cbn. rewrite IH3. destruct (omap (nested_of q) ops) as [|a l']; cbn; [by rewrite app_nil_r|].
    f_equal. rewrite join_app. cbn. by rewrite app_nil_r, <- app_assoc.
Qed.

End run.
End state.

(** ** Enough fuel *)

Section fuel.
Context `{JT : JsonText}.
Implicit Types (ops : list Op).

Lemma op_depth_le op ops : op ∈ ops -> (op_depth op <= ops_depth ops)%nat.
Proof. unfold ops_depth. induction 1 as [|? ? ? ? IH]; cbn; lia. Qed.

Lemma ops_depth_bound ops n : (forall op, op ∈ ops -> (op_depth op <= n)%nat) -> (ops_depth ops <= n)%nat.
Proof.
  unfold ops_depth. induction ops as [|op ops IH]; cbn; intros Hb; [lia|].
  pose proof (Hb op ltac:(apply elem_of_cons; by left)). specialize (IH ltac:(intros; apply Hb, elem_of_cons; by right)). lia.
Qed.

Lemma nested_in_ops query ops l : l ∈ omap (nested_of query) ops <-> OpQueryOpSet query l ∈ ops.
Proof.
  rewrite list_elem_of_omap. split.
  - intros (o & Ho & Hn). destruct o; try done. cbn in Hn. case_decide; [|done]. by simplify_eq.
  - intros Ho. eexists. split; [exact Ho|]. cbn. by rewrite decide_True.
Qed.

(** Merged fan-outs are one level less deep than the batch. *)
Lemma merged_depth set_fields ops query nested :
  query_ops (foldl (dedup_op set_fields) dedup_init ops) !! query = Some nested ->
  (S (ops_depth nested) <= ops_depth ops)%nat.
Proof.
  destruct (run_queries set_fields ops) as (_ & _ & Hq). rewrite Hq.
  destruct (omap (nested_of query) ops) as [|a l] eqn:E; [done|]. intros [= <-].
  assert (forall l', l' ∈ a :: l -> (S (ops_depth l') <= ops_depth ops)%nat) as Hl.
  { intros l' Hl'. rewrite <- E in Hl'. apply nested_in_ops in Hl'. by apply op_depth_le in Hl'. }
  pose proof (Hl a ltac:(apply elem_of_cons; by left)) as Ha.
  change (a ++ mjoin l) with (mjoin (a :: l)).
  assert (ops_depth (mjoin (a :: l)) <= ops_depth ops - 1)%nat; [|lia].
  apply ops_depth_bound. intros op (l' & Hop & Hl')%list_elem_of_join.
  pose proof (op_depth_le _ _ Hop). specialize (Hl l' Hl'). lia.
Qed.

Lemma dedup_fuel_enough n : forall m ops,
  (ops_depth ops <= n)%nat -> (ops_depth ops <= m)%nat -> dedup_fuel n ops = dedup_fuel m ops.
Proof.
  assert (forall k ops, (ops_depth ops <= 0)%nat -> dedup_fuel 0 ops = dedup_fuel k ops) as Hzero.
  { intros k ops Hd. destruct ops as [|o ops]; [by destruct k|]. destruct k as [|k]; [done|]. cbn [dedup_fuel].
    destruct (existsb _ _); [done|]. do 3 f_equal. set (st := foldl _ _ _).
    destruct (query_order st) as [|q l] eqn:E; [done|]. exfalso.
    destruct (run_queries (set_fields_of (o :: ops)) (o :: ops)) as (_ & Hq & _). fold st in Hq.
    destruct (proj1 (Hq q)) as [nested Hn]; [rewrite E; apply elem_of_cons; by left|]. apply merged_depth in Hn. lia. }
  induction n as [|n IH]; intros m ops Hn Hm; [apply Hzero; lia|].
  destruct m as [|m]; [symmetry; apply Hzero; lia|]. destruct ops as [|o ops]; [done|]. cbn [dedup_fuel].
  destruct (existsb _ _); [done|]. do 3 f_equal. set (st := foldl _ _ _). apply omap_ext_in. intros q _.
  destruct (query_ops st !! q) as [nested|] eqn:E; [|done]. apply merged_depth in E. cbn. by rewrite (IH m) by lia.
Qed.

(** The recursion equation of [dedup_entity_ops], for batches without a delete. *)
Lemma dedup_unfold ops :
  existsb is_delete ops = false ->
  dedup_entity_ops ops =
  let st := foldl (dedup_op (set_fields_of ops)) dedup_init ops in
  emit_removes st ++ emit_sets st ++ emit_multi st ++
  omap (fun query => nested ← query_ops st !! query;
          match dedup_entity_ops nested with [] => None | nested => Some (OpQueryOpSet query nested) end) (query_order st).
Proof.
  intros Hd. destruct ops as [|o ops]; [done|]. unfold dedup_entity_ops.
  rewrite (dedup_fuel_enough (ops_depth (o :: ops)) (S (ops_depth (o :: ops)))) by lia. cbn [dedup_fuel]. rewrite Hd. cbv zeta. do 3 f_equal.
  apply omap_ext_in. intros q _. destruct (query_ops _ !! q) as [nested|] eqn:E; [|done]. apply merged_depth in E. cbn.
  by rewrite (dedup_fuel_enough (ops_depth (o :: ops)) (ops_depth nested)) by lia.
Qed.

End fuel.

(** ** Properties *)

Section properties.
Context `{JT : JsonText}.
Implicit Types (ops : list Op) (held : gset (string * string)).

(** The operations on one field. *)
Definition on_field (field : string) (op : Op) : Prop :=
  match op with OpSet f _ | OpRemove f _ | OpAdd f _ => f = field | _ => False end.

Global Instance on_field_dec field op : Decision (on_field field op).
Proof. destruct op; cbn; apply _. Defined.

(** Each operation changes the pair: inserts and removals alternate. *)
Fixpoint alternates (present : bool) (l : list bool) : Prop :=
  match l with
  | [] => True
  | b :: l => b = negb present /\ alternates b l
  end.

(** The streams the sync triggers emit for one entity in one batch: a scalar field
    is written at most once, after the removal of its old value if there is one,
    and the operations on a multi-value field are deltas. *)
Definition delta_stream held ops : Prop :=
  forall field,
    if decide (field ∈ set_fields_of ops) then
      exists v, filter (on_field field) ops = [OpSet field v]
        \/ exists o, filter (on_field field) ops = [OpRemove field o; OpSet field v]
    else forall k, alternates (bool_decide ((field, k) ∈ held)) (touches (field, k) ops).

(** The values of a batch survive printing and parsing. *)
Definition op_prints (op : Op) : Prop :=
  match op with
  | OpSet _ v | OpRemove _ v | OpAdd _ v => json_from_str (json_to_string v) = Some v
  | _ => True
  end.

Lemma touches_on_field p ops : touches p ops = touches p (filter (on_field p.1) ops).
Proof.
  unfold touches. induction ops as [|op ops IH]; [done|]. rewrite filter_cons. cbn. case_decide as Hon; cbn; [by rewrite IH|].
  rewrite <- IH. destruct op; cbn in *; try done; rewrite decide_False; try done; intros <-; by apply Hon.
Qed.

Lemma omap_on_field {C : Type} (g : Op -> option C) field ops :
  (forall op, ~ on_field field op -> g op = None) -> omap g ops = omap g (filter (on_field field) ops).
Proof.
  intros Hg. induction ops as [|op ops IH]; [done|]. rewrite filter_cons. cbn. case_decide as Hon; cbn; [by rewrite IH|].
  by rewrite Hg, <- IH.
Qed.

Lemma omap_omap {A C E : Type} (f : C -> option E) (g : A -> option C) (l : list A) :
  omap f (omap g l) = omap (fun x => g x ≫= f) l.
Proof. induction l as [|x l IH]; cbn; [done|]. destruct (g x); cbn; by rewrite IH. Qed.

(** Only one member of a list without duplicates contributes. *)
Lemma omap_single {A C : Type} `{!EqDecision A} (f : A -> option C) (l : list A) (a : A) :
  NoDup l -> (forall x, x <> a -> f x = None) -> (a ∉ l -> f a = None) -> omap f l = option_list (f a).
Proof.
  intros Hnd Hf Ha. induction Hnd as [|x l Hx Hnd IH]; cbn.
  { rewrite Ha; [done|]. apply not_elem_of_nil. }
  assert (forall l', a ∉ l' -> omap f l' = []) as Hnone.
  { induction l' as [|y l' IHl]; cbn; [done|]. rewrite not_elem_of_cons. intros [H1 H2].
    rewrite Hf by congruence. by apply IHl. }
  destruct (decide (x = a)) as [->|Hne].
  - rewrite (Hnone l Hx). by destruct (f a).
  - rewrite Hf by done. apply IH. intros Hn. apply Ha. rewrite not_elem_of_cons. split; [congruence|done].
Qed.

Section emitted.
Context (set_fields : gset string) (ops : list Op) (p : string * string).
Let st := foldl (dedup_op set_fields) dedup_init ops.

Lemma touch_other_field (field : string) (v : JsonValue) :
  field <> p.1 -> touch p (OpRemove field v) = None /\ touch p (OpSet field v) = None /\ touch p (OpAdd field v) = None.
Proof.
  intros Hf. assert (pair_of field v <> p) as Hp by (intros <-; by apply Hf).
  cbn. by rewrite !decide_False.
Qed.

Lemma touches_removes :
  touches p (emit_removes st) = option_list (last_remove st !! p.1 ≫= fun v => touch p (OpRemove p.1 v)).
Proof.
  unfold touches, emit_removes. rewrite omap_omap. destruct (run_scalar_order set_fields ops) as [Hnd Hin].
  rewrite (omap_single _ _ p.1 Hnd).
  - by destruct (last_remove st !! p.1).
  - intros field Hf. destruct (last_remove st !! field) as [v|]; [|done]. by apply touch_other_field.
  - intros Hn. destruct (last_remove st !! p.1) eqn:E; [|done]. destruct Hn. apply Hin. right. by eexists.
Qed.

Lemma touches_sets :
  touches p (emit_sets st) =
  option_list (if default false (last_scalar_is_set st !! p.1) then last_set st !! p.1 ≫= fun v => touch p (OpSet p.1 v) else None).
Proof.
  unfold touches, emit_sets. rewrite omap_omap. destruct (run_scalar_order set_fields ops) as [Hnd Hin].
  rewrite (omap_single _ _ p.1 Hnd).
  - destruct (default _ _); [|done]. by destruct (last_set st !! p.1).
  - intros field Hf. destruct (default _ _); [|done]. destruct (last_set st !! field) as [v|]; [|done].
    by apply touch_other_field.
  - intros Hn. destruct (default _ _); [|done]. destruct (last_set st !! p.1) eqn:E; [|done]. destruct Hn. apply Hin.
    left. by eexists.
Qed.

(** Net counts come back as the pair they were counted for. *)
Lemma touches_multi :
  Forall op_prints ops ->
  let net := net_of (omap (multi_on set_fields p) ops) in
  touches p (emit_multi st) = if (net =? 0)%Z then [] else [(0 <? net)%Z].
Proof.
  intros Hpr. cbv zeta. destruct (run_multi set_fields ops) as (Hnd & Hin & Hnet).
  assert (forall key, key ∈ multi_value_order st ->
    json_to_string (default (JString key.2) (json_from_str key.2)) = key.2) as Hprint.
  { intros key Hk. apply Hin in Hk. destruct (omap (multi_on set_fields key) ops) as [|z l] eqn:E; [done|].
    assert (z ∈ omap (multi_on set_fields key) ops) as Hz by (rewrite E; apply elem_of_cons; by left).
    apply list_elem_of_omap in Hz as (op & Hop & Hm). rewrite Forall_forall in Hpr. specialize (Hpr op Hop).
    destruct op as [| f v | f v | | | ]; cbn in Hm; try done; case_decide as Hd; try done.
    - destruct Hd as [_ <-]. cbn in *. by rewrite Hpr.
    - destruct Hd. cbn in *. by rewrite Hpr. }
  unfold touches, emit_multi. rewrite omap_omap. fold st in Hnd, Hin, Hnet.
  rewrite (omap_ext_in _ (fun key => let net := default 0%Z (multi_value_net st !! key) in
    if (net =? 0)%Z then None else if decide (key = p) then Some (0 <? net)%Z else None)).
  - rewrite (omap_single _ _ p Hnd); cbv zeta; rewrite ?Hnet.
    + destruct (_ =? 0)%Z; [done|]. by rewrite decide_True.
    + intros key Hk. destruct (_ =? 0)%Z; [done|]. by rewrite decide_False.
    + intros Hn. rewrite Hin in Hn. destruct (omap (multi_on set_fields p) ops); [done|]. by destruct Hn.
  - intros [f k] Hk. cbv zeta. destruct (_ =? 0)%Z; [done|]. specialize (Hprint (f, k) Hk). cbn in Hprint.
    destruct (0 <? _)%Z; cbn; unfold pair_of; by rewrite Hprint.
Qed.

Lemma touches_fan_outs (l : list (option string)) (rec : list Op -> list Op) :
  touches p (omap (fun query => nested ← query_ops st !! query;
     match rec nested with [] => None | nested => Some (OpQueryOpSet query nested) end) l) = [].
Proof.
  unfold touches. rewrite omap_omap. induction l as [|q l IH]; [done|]. cbn.
  destruct (query_ops st !! q) as [nested|]; cbn; [|done]. by destruct (rec nested).
Qed.

End emitted.

(** Alternating operations change a pair by their net count. *)
Lemma alternates_net (b : bool) (l : list bool) :
  alternates b l ->
  (Z.b2z b + net_of (map (fun x : bool => if x then 1 else -1)%Z l) = Z.b2z (default b (last l)))%Z.
Proof.
  revert b. induction l as [|x l IH]; intros b; [cbn; lia|]. intros [-> Ha]. specialize (IH _ Ha). rewrite last_cons.
  unfold net_of in *. cbn [map foldr] in *. destruct (last l) as [[]|], b; cbn [default id Z.b2z negb] in *; lia.
Qed.

(** On a field without sets the touches of a pair are its counted operations. *)
Lemma multi_touches set_fields p ops :
  p.1 ∉ set_fields -> (forall v, OpSet p.1 v ∉ ops) ->
  omap (multi_on set_fields p) ops = map (fun x : bool => if x then 1 else -1)%Z (touches p ops).
Proof.
  intros Hs. induction ops as [|op ops IH]; intros Hn; [done|]. cbn.
  rewrite IH by (intros v Hv; apply (Hn v), elem_of_cons; by right).
  destruct op as [f v|f v|f v| | |q l]; cbn; try done.
  - rewrite decide_False; [done|]. intros <-. apply (Hn v), elem_of_cons. by left.
  - destruct (decide (pair_of f v = p)) as [<-|]; [rewrite decide_True by done|rewrite decide_False by tauto]; done.
  - by case_decide.
Qed.

Lemma no_set_on ops field : field ∉ set_fields_of ops -> omap (sets_on field) ops = [] /\ forall v, OpSet field v ∉ ops.
Proof.
  intros Hf. assert (forall v, OpSet field v ∉ ops) as Hn.
  { intros v Hv. apply Hf, elem_of_set_fields. eauto. }
  split; [|done]. destruct (omap (sets_on field) ops) as [|v l] eqn:E; [done|].
  assert (v ∈ omap (sets_on field) ops) as Hv by (rewrite E; apply elem_of_cons; by left).
  apply list_elem_of_omap in Hv as (op & Hop & Hs). destruct op; cbn in Hs; try done. case_decide; [|done].
  simplify_eq. by apply Hn in Hop.
Qed.

(** The pairs of a field that is written once. *)
Lemma scalar_effect ops p v :
  p.1 ∈ set_fields_of ops -> Forall op_prints ops ->
  (filter (on_field p.1) ops = [OpSet p.1 v] \/ exists o, filter (on_field p.1) ops = [OpRemove p.1 o; OpSet p.1 v]) ->
  let st := foldl (dedup_op (set_fields_of ops)) dedup_init ops in
  touches p (emit_removes st ++ emit_sets st ++ emit_multi st) = touches p ops.
Proof.
  intros Hs Hpr Hf. cbv zeta. rewrite !touches_app, touches_removes, touches_sets, touches_multi by done.
  rewrite run_last_remove, run_last_set, run_is_set by done. rewrite decide_True by done.
  rewrite (touches_on_field p ops).
  rewrite (omap_on_field (removes_on p.1) p.1), (omap_on_field (sets_on p.1) p.1), (omap_on_field (scalar_on p.1) p.1),
    (omap_on_field (multi_on (set_fields_of ops) p) p.1).
  2-5: intros op Hn; destruct op as [f w|f w|f w| | |q l]; cbn in *; try done; rewrite ?decide_False; try done;
    intros ?; apply Hn; naive_solver.
  destruct Hf as [->|[o ->]]; cbn; rewrite ?(decide_True (P := p.1 = p.1)) by done; cbn.
  - by case_decide.
  - rewrite (decide_False (P := p.1 ∉ set_fields_of ops /\ _)) by tauto. cbn. by repeat case_decide.
Qed.

(** C13: Deduplication preserves what an entity's operations do: for a batch of delta
    operations (each scalar field written at most once, multi-value operations that
    really change the document) whose values survive printing, the document holds
    the same values after the deduplicated operations as after the original ones,
    in whatever order sets, removals and additions of different values arrived. *)
Theorem dedup_preserves_effect (held : gset (string * string)) (ops : list Op) :
  existsb is_delete ops = false -> Forall op_prints ops -> delta_stream held ops ->
  apply_ops held (dedup_entity_ops ops) = apply_ops held ops.
Proof.
  intros Hd Hpr Hstream. apply set_eq. intros p. rewrite !apply_ops_touches, dedup_unfold by done. cbv zeta.
  rewrite !app_assoc, touches_app, touches_fan_outs, app_nil_r, <- app_assoc.
  specialize (Hstream p.1). case_decide as Hs.
  - destruct Hstream as [v Hf]. by rewrite (scalar_effect ops p v).
  - destruct (no_set_on ops p.1 Hs) as [Hn1 Hn2]. specialize (Hstream p.2). rewrite <- surjective_pairing in Hstream.
    rewrite !touches_app, touches_removes, touches_sets, touches_multi by done.
    rewrite run_last_remove, run_last_set, Hn1, (decide_False (P := p.1 ∈ _)) by done. cbn [last mbind option_bind].
    rewrite multi_touches by done. pose proof (alternates_net _ _ Hstream) as Hnet.
    set (net := net_of _) in *. set (b := bool_decide (p ∈ held)) in *.
    destruct (default false _); cbn [option_list app];
      destruct (Z.eqb_spec net 0), (Z.ltb_spec 0 net); cbn [default id last]; try lia;
      destruct b, (default _ (last (touches p ops))); cbn [Z.b2z] in Hnet; done || lia.
Qed.

(** The entries of an entity, and the entities in first-arrival order. *)
Definition entries_of (id : Z) (batch : list EntityOps) : list EntityOps := filter (fun e => entity_id e = id) batch.

Definition arrivals (batch : list EntityOps) : list Z :=
  foldl (fun ids e => if decide (entity_id e ∈ ids) then ids else ids ++ [entity_id e]) [] batch.

Lemma entries_of_snoc id batch e :
  entries_of id (batch ++ [e]) = entries_of id batch ++ (if decide (entity_id e = id) then [e] else []).
Proof. unfold entries_of. rewrite filter_app, filter_cons, filter_nil. by case_decide. Qed.

Lemma arrivals_spec batch :
  NoDup (arrivals batch) /\ forall id, id ∈ arrivals batch <-> entries_of id batch <> [].
Proof.
  induction batch as [|e batch [IH1 IH2]] using rev_ind.
  { split; [constructor|]. intros id. by rewrite elem_of_nil. }
  unfold arrivals. rewrite foldl_app. fold (arrivals batch). cbn [foldl]. case_decide as He.
  - split; [done|]. intros id. rewrite entries_of_snoc, IH2. case_decide as Hd; [|by rewrite app_nil_r].
    subst id. apply IH2 in He. split; [by destruct (entries_of _ batch)|done].
  - split.
    + apply NoDup_app. split_and!; [done| |apply NoDup_singleton]. intros x Hx ->%list_elem_of_singleton. done.
    + intros id. rewrite elem_of_app, list_elem_of_singleton, entries_of_snoc, IH2. case_decide as Hd.
      * subst. split; [by destruct (entries_of _ batch)|]. by right.
      * rewrite app_nil_r. naive_solver.
Qed.

(** The maps [dedup_ops] builds over a batch. *)
Lemma batch_run batch :
  let b := foldl batch_entry (MkBatch ∅ ∅ []) batch in
  entity_order b = arrivals batch
  /\ (forall id, entity_map b !! id
       = match entries_of id batch with [] => None | mine => Some (mjoin (eo_ops <$> mine)) end)
  /\ forall id, default false (creates_slot_map b !! id) = existsb creates_slot (entries_of id batch).
Proof.
  induction batch as [|e batch (IH1 & IH2 & IH3)] using rev_ind; cbv zeta in *.
  { split_and!; [done| |]; intros id; cbn; by rewrite lookup_empty. }
  rewrite foldl_app. cbn [foldl]. set (b := foldl batch_entry _ batch) in *. unfold batch_entry. cbn. split_and!.
  - unfold arrivals. rewrite foldl_app. fold (arrivals batch). cbn [foldl]. rewrite <- IH1.
    assert (entity_map b !! entity_id e = None <-> entity_id e ∉ entity_order b) as Hnone.
    { rewrite IH2, IH1, (proj2 (arrivals_spec batch)). destruct (entries_of _ batch); naive_solver. }
    case_bool_decide as H1; case_decide as H2; try done; tauto.
  - intros id. rewrite lookup_insert, entries_of_snoc, IH2. case_decide as Hd; [|rewrite app_nil_r; apply IH2].
    subst id. destruct (entries_of (entity_id e) batch) as [|a l]; cbn; [by rewrite app_nil_r|].
    f_equal. rewrite fmap_app, join_app. cbn. by rewrite app_nil_r, app_assoc.
  - intros id. rewrite entries_of_snoc, existsb_app, <- IH3. destruct (creates_slot e) eqn:Ec.
    + rewrite lookup_insert. case_decide; cbn; rewrite ?Ec, ?orb_true_r, ?orb_false_r; done.
    + case_decide; cbn; by rewrite ?Ec, ?orb_false_r.
Qed.

(** A batch is deduplicated per entity: the result lists every entity once, in
    the order of first arrival, with the deduplication of the concatenation of all
    its operations, and with [creates_slot] if any of its entries had it; entities
    whose operations cancel out are dropped. *)
Theorem dedup_batch_exact (batch : list EntityOps) :
  dedup_ops batch =
    omap (fun id =>
        match dedup_entity_ops (mjoin (eo_ops <$> entries_of id batch)) with
        | [] => None
        | ops => Some (MkEntityOps id ops (existsb creates_slot (entries_of id batch)))
        end) (arrivals batch)
  /\ NoDup (arrivals batch) /\ forall id, id ∈ arrivals batch <-> exists e, e ∈ batch /\ entity_id e = id.
Proof.
  destruct (arrivals_spec batch) as [Hnd Hin]. split_and!; [|done|].
  - unfold dedup_ops. destruct (batch_run batch) as (-> & Hm & Hc). apply omap_ext_in. intros id Hid%Hin.
    rewrite lookup_fmap, <- Hc.
    assert (entity_map (foldl batch_entry (MkBatch ∅ ∅ []) batch) !! id
      = Some (mjoin (eo_ops <$> entries_of id batch))) as -> by (rewrite Hm; by destruct (entries_of id batch)).
    change (?f <$> Some ?x) with (Some (f x)). cbn [mbind option_bind]. by destruct (dedup_entity_ops _).
  - intros id. rewrite Hin. split.
    + destruct (entries_of id batch) as [|e l] eqn:E; [done|]. intros _. exists e.
      assert (e ∈ entries_of id batch) as He by (rewrite E; apply elem_of_cons; by left).
      apply list_elem_of_filter in He. tauto.
    + intros (e & He & Hid) Hn. assert (e ∈ entries_of id batch) as Hx by (apply list_elem_of_filter; done).
      rewrite Hn in Hx. by apply elem_of_nil in Hx.
Qed.

(** Two updates of one scalar field in one batch lose the removal of the original
    value: from [o], the stream [Remove o; Set v1; Remove v1; Set v2] keeps only
    the last removal and the last write, so the document ends under both [o] and
    [v2] although the stream leaves it under [v2] alone. *)
Theorem dedup_forgets_first_removal (field : string) (o v1 v2 : JsonValue) :
  NoDup (json_to_string <$> [o; v1; v2]) ->
  let ops := [OpRemove field o; OpSet field v1; OpRemove field v1; OpSet field v2] in
  let held := {[pair_of field o]} in
  apply_ops held (dedup_entity_ops ops) = {[pair_of field o; pair_of field v2]}
  /\ apply_ops held ops = {[pair_of field v2]}.
Proof.
  intros Hnd ops held.
  assert (dedup_entity_ops ops = [OpRemove field v1; OpSet field v2]) as ->.
  { unfold dedup_entity_ops, ops. cbn. rewrite bool_decide_true by set_solver. cbn.
    rewrite ?lookup_insert_eq, ?lookup_empty. cbn. rewrite ?bool_decide_true by done. cbn.
    unfold emit_removes, emit_sets, emit_multi. cbn.
    rewrite ?lookup_insert_eq, ?lookup_insert_ne, ?lookup_insert_eq by done. done. }
  assert (pair_of field o <> pair_of field v1 /\ pair_of field o <> pair_of field v2
    /\ pair_of field v1 <> pair_of field v2) as Hne.
  { cbn in Hnd. rewrite !NoDup_cons, !not_elem_of_cons in Hnd. unfold pair_of. naive_solver. }
  unfold apply_ops, ops, held. cbn [foldl apply_op]. clear Hnd ops held.
  revert Hne. generalize (pair_of field o), (pair_of field v1), (pair_of field v2). intros a b c (H1 & H2 & H3).
  split; apply set_eq; intros x; rewrite !elem_of_union, ?elem_of_difference, ?elem_of_union, ?elem_of_difference, !elem_of_singleton;
    destruct (decide (x = a)), (decide (x = b)), (decide (x = c)); subst; naive_solver.
Qed.

End properties.

(** ** Two more limits *)

(** An entity whose only operation is the signal that creates it is dropped, and its
    slot is never created. *)
Lemma alive_only_entity_dropped `{JT : JsonText} (id : Z) : dedup_ops [MkEntityOps id [OpAlive] true] = [].
Proof.
  unfold dedup_ops. destruct (batch_run [MkEntityOps id [OpAlive] true]) as (-> & Hm & _).
  unfold arrivals. cbn [foldl]. rewrite decide_False by apply not_elem_of_nil. cbn [app omap list_omap].
  rewrite lookup_fmap, Hm. unfold entries_of. rewrite filter_cons_True, filter_nil by done. done.
Qed.

(** A delete absorbs the operations after it, too. *)
Lemma delete_absorbs_later `{JT : JsonText} (field : string) (v : JsonValue) :
  dedup_entity_ops [OpDelete; OpSet field v] = [OpDelete].
Proof. done. Qed.

(** ** Witnesses *)

(** Decimal printing of the integers 0 to 9. *)
Local Instance demo_json : JsonText := {
  json_to_string v := match v with JInt n => pretty n | _ => "null" end;
  json_from_str s := JInt <$> List.find (fun n => bool_decide (pretty n = s)) (Z.of_nat <$> seq 0 10);
}.

Definition demo_entity_ops : list Op :=
  [OpAdd "tags" (JInt 7); OpRemove "level" (JInt 1); OpRemove "tags" (JInt 4); OpSet "level" (JInt 2);
   OpRemove "tags" (JInt 7); OpQueryOpSet (Some "postId eq 3") [OpSet "level" (JInt 5)]].

Lemma dedup_preserves_effect_witness :
  dedup_entity_ops demo_entity_ops
    = [OpRemove "level" (JInt 1); OpSet "level" (JInt 2); OpRemove "tags" (JInt 4);
       OpQueryOpSet (Some "postId eq 3") [OpSet "level" (JInt 5)]]
  /\ apply_ops {[("level", "1"); ("tags", "4")]} (dedup_entity_ops demo_entity_ops)
     = apply_ops {[("level", "1"); ("tags", "4")]} demo_entity_ops.
Proof.
  split; [vm_compute; reflexivity|]. apply dedup_preserves_effect.
  - reflexivity.
  - repeat constructor.
  - intros field. case_decide as Hs.
    + apply elem_of_set_fields in Hs as [v Hv]. unfold demo_entity_ops in Hv.
      rewrite !elem_of_cons, elem_of_nil in Hv. exists (JInt 2). right. exists (JInt 1).
      assert (field = "level"%string) as -> by naive_solver. reflexivity.
    + intros k. rewrite touches_on_field. cbn [fst]. destruct (decide (field = "tags"%string)) as [->|Hf].
      * change (filter _ _) with [OpAdd "tags" (JInt 7); OpRemove "tags" (JInt 4); OpRemove "tags" (JInt 7)].
        destruct (decide (k = "7"%string)) as [->|H7]; [vm_compute; done|].
        destruct (decide (k = "4"%string)) as [->|H4]; [vm_compute; done|].
        unfold touches. cbn. rewrite !decide_False; [done|..]; intros [= <-]; done.
      * assert (field <> "level"%string) as Hl.
        { intros ->. apply Hs, elem_of_set_fields. exists (JInt 2). unfold demo_entity_ops. rewrite !elem_of_cons. tauto. }
        unfold demo_entity_ops. rewrite !filter_cons. cbn [on_field].
        rewrite !(decide_False (P := "tags"%string = field)), !(decide_False (P := "level"%string = field)) by congruence.
        rewrite (decide_False (P := False)) by tauto. done.
Defined.

Lemma dedup_forgets_first_removal_witness :
  pair_of "level" (JInt 1) = ("level", "1")%string
  /\ apply_ops {[pair_of "level" (JInt 1)]} (dedup_entity_ops [OpRemove "level" (JInt 1); OpSet "level" (JInt 2);
       OpRemove "level" (JInt 2); OpSet "level" (JInt 3)])
     = {[pair_of "level" (JInt 1); pair_of "level" (JInt 3)]}.
Proof.
  split; [vm_compute; reflexivity|].
  assert (NoDup (json_to_string <$> [JInt 1; JInt 2; JInt 3])) as Hnd.
  { apply (bool_decide_unpack _). vm_compute. exact I. }
  exact (proj1 (dedup_forgets_first_removal "level" (JInt 1) (JInt 2) (JInt 3) Hnd)).
Defined.
