(* ===== verification/OpsWal.v ===== *)
(** * The operations log (src/ops_wal.rs)

    An append-only log of entity operations in generation files, with rotation, a
    reader that follows it across generations, and retention keyed to the durable
    cursor.  The directory is the bytes of its files by name; I/O errors are not
    modelled.  The JSON text of an operation list is an interface ([OpsJson]). *)

From S2P Require Import Prelude Roaring Config Bytes Ops.
From Stdlib Require Import Ascii DecimalString DecimalN.

(** ** Decimal numbers: [format!] and [str::parse] of unsigned integers *)

Definition print_dec (n : N) : string := NilZero.string_of_uint (N.to_uint n).

(** [s.parse::<uN>()]: an optional plus sign, digits, in range. *)
Definition parse_dec (max : N) (s : string) : option N :=
  let digits := match s with String "+"%char rest => rest | _ => s end in
  d ← NilZero.uint_of_string digits;
  let n := N.of_uint d in if n <=? max then Some n else None.

(** [format!("{:06}")]. *)
Fixpoint zeros (n : nat) : string := match n with O => ""%string | S n => String "0"%char (zeros n) end.

Definition pad6 (s : string) : string := String.append (zeros (6 - String.length s)) s.

(** ** File names *)

Notation dir := (gmap string (list N)).

Definition wal_filename (gen : N) : string := String.append "ops_" (String.append (pad6 (print_dec gen)) ".wal").

(** [strip_suffix]. *)
Definition strip_suffix (suffix s : string) : option string :=
  let k := (String.length s - String.length suffix)%nat in
  if bool_decide (String.append (String.substring 0 k s) suffix = s) then Some (String.substring 0 k s) else None.

(** [strip_prefix("ops_")]. *)
Definition strip_ops (s : string) : option string :=
  match s with
  | String "o"%char (String "p"%char (String "s"%char (String "_"%char rest))) => Some rest
  | _ => None
  end.

Definition parse_generation (name : string) : option N :=
  if bool_decide (name = "ops.wal"%string) then Some 0
  else s ← strip_ops name; s ← strip_suffix ".wal" s; parse_dec u32_max s.

(** Directory entries come in an unspecified order; the generations are sorted. *)
Definition list_generations (d : dir) : list N := merge_sort N.le (omap parse_generation (elements (dom d))).

Definition gen_path (d : dir) (gen : N) : string :=
  if (gen =? 0) && bool_decide (is_Some (d !! "ops.wal"%string)) then "ops.wal" else wal_filename gen.

(** ** Cursors *)

Record WalCursor : Type := MkWalCursor { wc_generation : N; wc_offset : N }.

(** [str::trim] of ASCII white space. *)
Definition is_space (c : ascii) : bool :=
  bool_decide (c ∈ ["009"%char; "010"%char; "011"%char; "012"%char; "013"%char; " "%char]).

Fixpoint trim_start (s : string) : string :=
  match s with
  | String c rest => if is_space c then trim_start rest else s
  | EmptyString => EmptyString
  end.

Definition string_rev (s : string) : string := String.string_of_list_ascii (rev (String.list_ascii_of_string s)).

Definition trim (s : string) : string := string_rev (trim_start (string_rev (trim_start s))).

(** [split_once(':')]. *)
Fixpoint split_colon (s : string) : option (string * string) :=
  match s with
  | EmptyString => None
  | String c rest =>
      if bool_decide (c = ":"%char) then Some (EmptyString, rest)
      else '(a, b) ← split_colon rest; Some (String c a, b)
  end.

Definition parse_cursor (s : string) : WalCursor :=
  match split_colon (trim s) with
  | Some (g, o) => MkWalCursor (default 0 (parse_dec u32_max g)) (default 0 (parse_dec u64_max o))
  | None => MkWalCursor 0 (default 0 (parse_dec u64_max (trim s)))
  end.

Definition serialize_cursor (c : WalCursor) : string :=
  String.append (print_dec (wc_generation c)) (String.append ":" (print_dec (wc_offset c))).

(** The cursor file: its text when it exists. *)
Definition load_cursor (text : option string) : WalCursor :=
  default (MkWalCursor 0 0) (parse_cursor <$> text).

Definition save_cursor (c : WalCursor) : option string := Some (serialize_cursor c).

(** ** Records *)

Definition HEADER_SIZE : N := 13.
Definition FLAG_CREATES_SLOT : N := 1.
Definition CRC_SIZE : N := 4.
Definition DEFAULT_ROTATION_SIZE : N := 104857600.

(** [serde_json::to_vec] and [from_slice] on operation lists. *)
Class OpsJson : Type := {
  ops_to_json : list Op -> list N;
  ops_from_json : list N -> option (list Op);
}.

Section wal.
Context `{OJ : OpsJson} `{CK : Checksum}.

(** [entity_id.to_le_bytes()] of an [i64]. *)
Definition crc_input (e : EntityOps) : list N :=
  to_le_bytes 8 (i64_as_u64 (entity_id e))
  ++ [if creates_slot e then FLAG_CREATES_SLOT else 0] ++ ops_to_json (eo_ops e).

Definition encode_record (e : EntityOps) : list N :=
  to_le_bytes 4 (wrap32 (byte_len (ops_to_json (eo_ops e)))) ++ crc_input e ++ to_le_bytes 4 (crc32 (crc_input e)).

(** ** The writer *)

Record WalWriter : Type := MkWalWriter { ww_generation : N; rotation_size : N }.

Definition with_rotation_size (d : dir) (rotation : N) : WalWriter :=
  MkWalWriter (N.max (default 1 (last (list_generations d))) 1) rotation.

Definition new_writer (d : dir) : WalWriter := with_rotation_size d DEFAULT_ROTATION_SIZE.

Definition file_len (d : dir) (name : string) : N := default 0 (byte_len <$> d !! name).

Definition append_batch (w : WalWriter) (d : dir) (batch : list EntityOps) : N * WalWriter * dir :=
  match batch with
  | [] => (0, w, d)
  | _ =>
      let gen := if rotation_size w <=? file_len d (wal_filename (ww_generation w))
                 then wrap32 (ww_generation w + 1) else ww_generation w in
      let name := wal_filename gen in
      let bytes := mjoin (encode_record <$> batch) in
      (wrap64 (byte_len bytes), MkWalWriter gen (rotation_size w), <[name := default [] (d !! name) ++ bytes]> d)
  end.

(** ** The reader *)

Record WalBatch : Type := MkWalBatch {
  wb_entries : list EntityOps;
  wb_bytes_read : N;
  wb_crc_failures : N;
}.

(** The decoding loop of [read_file]: the entries, the position it stops at and the
    records it had to skip.  A round consumes at least 17 bytes, so the length of
    the data bounds the rounds. *)
Fixpoint read_records (fuel : nat) (data : list N) (max : nat) (entries : list EntityOps) (pos failures : N)
  : list EntityOps * N * N :=
  match fuel with
  | O => (entries, pos, failures)
  | S fuel =>
      if (length entries <? max)%nat && (pos + HEADER_SIZE <=? byte_len data) then
        let plen := from_le_bytes (slice data pos (pos + 4)) in
        let eid := u64_as_i64 (from_le_bytes (slice data (pos + 4) (pos + 12))) in
        let flags := from_le_bytes (slice data (pos + 12) (pos + 13)) in
        let creates := negb (N.land flags FLAG_CREATES_SLOT =? 0) in
        let end_ := pos + HEADER_SIZE + plen + CRC_SIZE in
        if byte_len data <? end_ then (entries, pos, failures)
        else
          let crc_in := slice data (pos + 4) (pos + HEADER_SIZE + plen) in
          let stored := from_le_bytes (slice data (pos + HEADER_SIZE + plen) end_) in
          if negb (stored =? crc32 crc_in) then read_records fuel data max entries end_ (failures + 1)
          else
            let ops_data := slice data (pos + HEADER_SIZE) (pos + HEADER_SIZE + plen) in
            match ops_from_json ops_data with
            | Some ops => read_records fuel data max (entries ++ [MkEntityOps eid ops creates]) end_ failures
            | None => read_records fuel data max entries end_ (failures + 1)
            end
      else (entries, pos, failures)
  end.

Definition read_file (file : list N) (offset : N) (max : nat) : list EntityOps * N * N :=
  if byte_len file <=? offset then ([], 0, 0)
  else
    let data := drop (N.to_nat offset) file in
    read_records (length data) data max [] 0 0.

Definition next_gen (d : dir) (gen : N) : option N := List.find (fun g => gen <? g) (list_generations d).

(** The loop of [read_batch]; every round but the last moves to a later generation,
    so one more round than there are generations is enough. *)
Fixpoint read_loop (fuel : nat) (d : dir) (max : nat) (c : WalCursor) (acc : WalBatch) : WalBatch * WalCursor :=
  match fuel with
  | O => (acc, c)
  | S fuel =>
      let hop := fun otherwise =>
        match next_gen d (wc_generation c) with
        | Some g => read_loop fuel d max (MkWalCursor g 0) acc
        | None => otherwise
        end in
      match d !! gen_path d (wc_generation c) with
      | None => hop (acc, c)
      | Some file =>
          if byte_len file <=? wc_offset c then hop (acc, c)
          else
            let '(entries, pos, failures) := read_file file (wc_offset c) (max - length (wb_entries acc)) in
            let acc' := MkWalBatch (wb_entries acc ++ entries) (wb_bytes_read acc + pos) (wb_crc_failures acc + failures) in
            let c' := MkWalCursor (wc_generation c) (wc_offset c + pos) in
            if (max <=? length (wb_entries acc'))%nat then (acc', c')
            else if (byte_len file <=? wc_offset c') || (wc_offset c' =? wc_offset c) then
              match next_gen d (wc_generation c) with
              | Some g => read_loop fuel d max (MkWalCursor g 0) acc'
              | None => (acc', c')
              end
            else (acc', c')
      end
  end.

Definition read_batch (d : dir) (c : WalCursor) (max_records : nat) : WalBatch * WalCursor :=
  read_loop (S (length (list_generations d))) d max_records c (MkWalBatch [] 0 0).

Definition has_more (d : dir) (c : WalCursor) : bool :=
  (wc_offset c <? file_len d (gen_path d (wc_generation c))) || bool_decide (is_Some (next_gen d (wc_generation c))).

Definition delete_gens_below (d : dir) (durable_gen : N) : dir :=
  foldl (fun d g => if g <? durable_gen then delete (gen_path d g) d else d) d (list_generations d).

End wal.
