(* ===== verification/OpsWalFacts.v ===== *)
(** * The operations log: lemmas

    File names and cursors print and parse back; a record is read back wherever it
    lies in a file; the generations of a directory after its files change. *)

From S2P Require Import Prelude Roaring Config Bytes Ops OpsWal.
From Stdlib Require Import Ascii DecimalString DecimalN.

(** ** Decimal numbers *)

Definition is_digit (c : ascii) : bool :=
  bool_decide (c ∈ ["0"; "1"; "2"; "3"; "4"; "5"; "6"; "7"; "8"; "9"]%char).

Fixpoint all_chars (P : ascii -> bool) (s : string) : bool :=
  match s with EmptyString => true | String c rest => P c && all_chars P rest end.

Lemma all_chars_app P s1 s2 : all_chars P (String.append s1 s2) = all_chars P s1 && all_chars P s2.
Proof. induction s1 as [|c s1 IH]; simpl; [done|]. by rewrite IH, andb_assoc. Qed.

Lemma string_of_uint_digits d : all_chars is_digit (NilEmpty.string_of_uint d) = true.
Proof. induction d; simpl; auto. Qed.

Lemma to_uint_nonnil n : N.to_uint n <> Decimal.Nil.
Proof. destruct n as [|p]; [done|]. apply DecimalPos.Unsigned.to_uint_nonnil. Qed.

Lemma print_dec_empty n : print_dec n = NilEmpty.string_of_uint (N.to_uint n).
Proof. pose proof (to_uint_nonnil n). unfold print_dec. by destruct (N.to_uint n). Qed.

Lemma print_dec_digits n : all_chars is_digit (print_dec n) = true.
Proof. rewrite print_dec_empty. apply string_of_uint_digits. Qed.

(** Leading zeros do not change the number. *)
Lemma uint_of_zeros k s d :
  NilEmpty.uint_of_string s = Some d ->
  exists d', NilEmpty.uint_of_string (String.append (zeros k) s) = Some d' /\ N.of_uint d' = N.of_uint d.
Proof.
  intros Hs. induction k as [|k [d' [H1 H2]]]; simpl; [by eauto|].
  rewrite H1. simpl. eexists; split; [done|]. by rewrite <- H2.
Qed.

Lemma parse_dec_digits max s d :
  s <> EmptyString -> all_chars is_digit s = true -> NilEmpty.uint_of_string s = Some d -> N.of_uint d <= max ->
  parse_dec max s = Some (N.of_uint d).
Proof.
  intros Hne Hs Hd Hmax. destruct s as [|c s]; [done|]. unfold parse_dec.
  assert (c <> "+"%char) as Hc by (intros ->; done).
  assert (match String c s with String "+"%char rest => rest | _ => String c s end = String c s) as ->.
  { destruct c as [[] [] [] [] [] [] [] []]; done. }
  unfold NilZero.uint_of_string. rewrite Hd. simpl. by rewrite (proj2 (N.leb_le _ _)).
Qed.

Lemma print_dec_nonempty n : print_dec n <> EmptyString.
Proof. rewrite print_dec_empty. pose proof (to_uint_nonnil n). by destruct (N.to_uint n). Qed.

Lemma parse_print_dec max n : n <= max -> parse_dec max (print_dec n) = Some n.
Proof.
  intros Hn. rewrite (parse_dec_digits max _ (N.to_uint n)).
  - by rewrite Unsigned.of_to.
  - apply print_dec_nonempty.
  - apply print_dec_digits.
  - rewrite print_dec_empty. apply NilEmpty.usu.
  - by rewrite Unsigned.of_to.
Qed.

Lemma zeros_digits k : all_chars is_digit (zeros k) = true.
Proof. induction k; simpl; auto. Qed.

Lemma parse_pad6 max n : n <= max -> parse_dec max (pad6 (print_dec n)) = Some n.
Proof.
  intros Hn. unfold pad6. set (k := (6 - _)%nat).
  destruct (uint_of_zeros k (print_dec n) (N.to_uint n)) as (d & Hd & Heq).
  { rewrite print_dec_empty. apply NilEmpty.usu. }
  rewrite Unsigned.of_to in Heq. rewrite (parse_dec_digits max _ d); [by rewrite Heq| |by rewrite all_chars_app, zeros_digits, print_dec_digits|done|by rewrite Heq].
  pose proof (print_dec_nonempty n). by destruct k, (print_dec n).
Qed.

(** ** File names *)

Lemma substring_app s t : String.substring 0 (String.length s) (String.append s t) = s.
Proof. induction s as [|c s IH]; simpl; [by destruct t|]. by rewrite IH. Qed.

Lemma string_length_app s t : String.length (String.append s t) = (String.length s + String.length t)%nat.
Proof. induction s as [|c s IH]; simpl; auto. Qed.

Lemma strip_suffix_app s t : strip_suffix t (String.append s t) = Some s.
Proof.
  unfold strip_suffix. rewrite string_length_app, Nat.add_sub, substring_app. by rewrite bool_decide_true.
Qed.

Lemma parse_generation_filename g : g <= u32_max -> parse_generation (wal_filename g) = Some g.
Proof.
  intros Hg. unfold parse_generation, wal_filename. rewrite bool_decide_false by (by intros [=]).
  change (strip_ops _) with (Some (String.append (pad6 (print_dec g)) ".wal")). cbn [mbind option_bind].
  rewrite strip_suffix_app. by apply parse_pad6.
Qed.

Lemma wal_filename_inj g1 g2 : g1 <= u32_max -> g2 <= u32_max -> wal_filename g1 = wal_filename g2 -> g1 = g2.
Proof.
  intros H1 H2 H. apply parse_generation_filename in H1, H2. rewrite H in H1. congruence.
Qed.

(** ** Cursors *)

Lemma split_colon_app s t : all_chars is_digit s = true -> split_colon (String.append s (String ":" t)) = Some (s, t).
Proof.
  induction s as [|c s IH]; cbn [all_chars]; intros Hs; [done|].
  change (String.append (String c s) ?u) with (String c (String.append s u)). cbn [split_colon].
  apply andb_prop in Hs as [Hc Hs]. rewrite bool_decide_false by (by intros ->). by rewrite IH.
Qed.

Lemma trim_start_solid s : all_chars (fun c => negb (is_space c)) s = true -> trim_start s = s.
Proof. destruct s as [|c s]; simpl; [done|]. by destruct (is_space c). Qed.

Lemma all_chars_list P s : all_chars P s = forallb P (String.list_ascii_of_string s).
Proof. induction s as [|c s IH]; simpl; [done|]. by rewrite IH. Qed.

Lemma forallb_rev {A : Type} (P : A -> bool) l : forallb P (rev l) = forallb P l.
Proof. induction l as [|x l IH]; simpl; [done|]. rewrite forallb_app, IH. simpl. by rewrite andb_true_r, andb_comm. Qed.

Lemma string_rev_rev s : string_rev (string_rev s) = s.
Proof.
  unfold string_rev. rewrite String.list_ascii_of_string_of_list_ascii, rev_involutive.
  apply String.string_of_list_ascii_of_string.
Qed.

Lemma trim_solid s : all_chars (fun c => negb (is_space c)) s = true -> trim s = s.
Proof.
  intros Hs. unfold trim. rewrite (trim_start_solid s) by done. rewrite trim_start_solid; [apply string_rev_rev|].
  rewrite all_chars_list in Hs |- *. unfold string_rev. by rewrite String.list_ascii_of_string_of_list_ascii, forallb_rev.
Qed.

Lemma digit_solid s : all_chars is_digit s = true -> all_chars (fun c => negb (is_space c)) s = true.
Proof.
  induction s as [|c s IH]; cbn [all_chars]; [done|]. intros [Hc Hs]%andb_prop. rewrite (IH Hs), andb_true_r.
  by destruct c as [[] [] [] [] [] [] [] []].
Qed.

Lemma parse_serialize_cursor c :
  wc_generation c <= u32_max -> wc_offset c <= u64_max -> parse_cursor (serialize_cursor c) = c.
Proof.
  intros Hg Ho. destruct c as [g o]; simpl in *. unfold parse_cursor, serialize_cursor; cbn [wc_generation wc_offset].
  change (String.append ":" ?t) with (String ":" t). rewrite trim_solid.
  - rewrite split_colon_app by apply print_dec_digits. by rewrite !parse_print_dec.
  - rewrite all_chars_app. cbn [all_chars]. rewrite !digit_solid by apply print_dec_digits. done.
Qed.

(** ** Records *)

Section records.
Context `{OJ : OpsJson} `{CK : Checksum}.
Implicit Types (e : EntityOps) (es : list EntityOps) (d : dir).

(** An entry that fits its record: an [i64] id, a payload of less than 4 GiB, and
    operations that serde reads back as it wrote them. *)
Definition entry_fits e : Prop :=
  is_i64 (entity_id e) /\ byte_len (ops_to_json (eo_ops e)) < 4294967296
  /\ ops_from_json (ops_to_json (eo_ops e)) = Some (eo_ops e).

Definition encode_all es : list N := mjoin (encode_record <$> es).

Lemma encode_all_app es1 es2 : encode_all (es1 ++ es2) = encode_all es1 ++ encode_all es2.
Proof. unfold encode_all. by rewrite fmap_app, join_app. Qed.

Lemma byte_len_crc_input e : byte_len (crc_input e) = 9 + byte_len (ops_to_json (eo_ops e)).
Proof. unfold crc_input. autorewrite with bitdex. unfold byte_len. simpl. lia. Qed.

Lemma byte_len_record e : byte_len (encode_record e) = 17 + byte_len (ops_to_json (eo_ops e)).
Proof. unfold encode_record. autorewrite with bitdex. rewrite byte_len_crc_input. lia. Qed.

Lemma encode_all_length es : (length es <= length (encode_all es))%nat.
Proof.
  induction es as [|e es IH]; [done|]. change (encode_all (e :: es)) with (encode_record e ++ encode_all es).
  rewrite length_app. pose proof (byte_len_record e) as H. unfold byte_len in H. simpl. lia.
Qed.

(** The fields of a record. *)
Lemma record_fields e rest :
  entry_fits e ->
  let data := encode_record e ++ rest in
  let plen := byte_len (ops_to_json (eo_ops e)) in
  from_le_bytes (slice data 0 4) = plen
  /\ u64_as_i64 (from_le_bytes (slice data 4 12)) = entity_id e
  /\ negb (N.land (from_le_bytes (slice data 12 13)) FLAG_CREATES_SLOT =? 0) = creates_slot e
  /\ slice data 13 (13 + plen) = ops_to_json (eo_ops e)
  /\ slice data 4 (13 + plen) = crc_input e
  /\ from_le_bytes (slice data (13 + plen) (17 + plen)) = crc32 (crc_input e).
Proof.
  intros (Hid & Hlen & _) data plen. subst data.
  unfold encode_record. rewrite <- !app_assoc. change (byte_len (ops_to_json (eo_ops e))) with plen. change (plen < 4294967296) in Hlen.
  assert (wrap32 plen = plen) as -> by (by apply N.mod_small).
  split; [rewrite slice_here by apply byte_len_le_bytes; by apply from_to_le_bytes_small|].
  rewrite !(slice_skip (to_le_bytes 4 plen)) by (rewrite byte_len_le_bytes; lia).
  rewrite !byte_len_le_bytes.
  replace (13 + plen - N.of_nat 4) with (9 + plen) by lia.
  assert (byte_len (crc_input e) = 9 + plen) as Hc by apply byte_len_crc_input.
  assert (slice (crc_input e ++ to_le_bytes 4 (crc32 (crc_input e)) ++ rest) (4 - N.of_nat 4) (9 + plen) = crc_input e)
    as -> by (by apply slice_here).
  rewrite (slice_skip (crc_input e) _ (9 + plen)) by lia. rewrite Hc.
  replace (9 + plen - (9 + plen)) with 0 by lia. replace (17 + plen - N.of_nat 4 - (9 + plen)) with 4 by lia.
  rewrite (slice_here (to_le_bytes 4 _)) by apply byte_len_le_bytes.
  rewrite (from_to_le_bytes_small 4 (crc32 _)) by apply crc32_bound.
  unfold crc_input. rewrite <- !app_assoc. split_and!; [| | |done|done].
  - rewrite slice_here by (by rewrite byte_len_le_bytes).
    rewrite from_to_le_bytes_small by apply i64_as_u64_bound. by apply u64_as_i64_as_u64.
  - rewrite slice_skip by (by rewrite byte_len_le_bytes). rewrite byte_len_le_bytes.
    rewrite slice_here by done. by destruct (creates_slot e).
  - rewrite slice_skip by (by rewrite byte_len_le_bytes). rewrite byte_len_le_bytes.
    rewrite slice_skip by done. rewrite slice_here; [done|]. change (byte_len [_]) with 1. lia.
Qed.

(** One round of the reader on a complete record. *)
Lemma read_records_step fuel pre e post max acc f :
  entry_fits e -> (length acc < max)%nat ->
  read_records (S fuel) (pre ++ encode_record e ++ post) max acc (byte_len pre) f
  = read_records fuel (pre ++ encode_record e ++ post) max (acc ++ [e]) (byte_len (pre ++ encode_record e)) f.
Proof.
  intros He Hmax. destruct (record_fields e post He) as (H1 & H2 & H3 & H4 & H5 & H6).
  pose proof (byte_len_record e) as Hr. set (plen := byte_len (ops_to_json (eo_ops e))) in *.
  set (rest := encode_record e ++ post) in *. assert (17 + plen <= byte_len rest) as Hl by (subst rest; rewrite byte_len_app; lia).
  cbn [read_records]. unfold HEADER_SIZE, CRC_SIZE. rewrite (proj2 (Nat.ltb_lt _ _) Hmax), byte_len_app, (byte_len_app pre (encode_record e)), Hr.
  rewrite (proj2 (N.leb_le _ _)) by lia. cbn [andb].
  rewrite slice_after0, !slice_after, H1, H2, H3.
  replace (byte_len pre + 13 + plen + 4) with (byte_len pre + (17 + plen)) by lia.
  replace (byte_len pre + 13 + plen) with (byte_len pre + (13 + plen)) by lia.
  rewrite !slice_after, H4, H5, H6, N.eqb_refl.
  rewrite (proj2 (N.ltb_ge _ _)) by lia. cbn [negb]. destruct He as (_ & _ & ->). by destruct e.
Qed.

Lemma read_records_all fuel pre es max acc f :
  Forall entry_fits es -> (length es < fuel)%nat -> (length acc <= max)%nat ->
  let new := take (max - length acc) es in
  read_records fuel (pre ++ encode_all es) max acc (byte_len pre) f
  = (acc ++ new, byte_len (pre ++ encode_all new), f).
Proof.
  intros Hes. revert fuel pre acc. induction Hes as [|e es He Hes IH]; intros [|fuel] pre acc Hf Hacc new; subst new; simpl in Hf; try lia.
  - cbn [read_records]. rewrite take_nil, !app_nil_r. unfold HEADER_SIZE.
    by rewrite (proj2 (N.leb_gt _ _)), andb_false_r by lia.
  - destruct (decide (length acc < max)%nat) as [Hlt|Hge].
    + change (encode_all (e :: es)) with (encode_record e ++ encode_all es). rewrite read_records_step by done.
      rewrite (app_assoc pre), IH by (rewrite ?length_app; simpl; lia). rewrite length_app. simpl.
      replace (max - length acc)%nat with (S (max - (length acc + 1))) by lia. simpl.
      rewrite <- !app_assoc. done.
    + replace (max - length acc)%nat with 0%nat by lia. cbn [read_records take].
      rewrite (proj2 (Nat.ltb_ge _ _)) by lia. cbn [andb]. by rewrite !app_nil_r.
Qed.

Lemma encode_all_nil es : byte_len (encode_all es) = 0 -> es = [].
Proof. pose proof (encode_all_length es). unfold byte_len. destruct es; simpl in *; [done|lia]. Qed.

Lemma encode_all_lt es : es <> [] -> (length es < length (encode_all es))%nat.
Proof.
  destruct es as [|e es]; [done|]. intros _. change (encode_all (e :: es)) with (encode_record e ++ encode_all es).
  pose proof (encode_all_length es). pose proof (byte_len_record e) as Hr. unfold byte_len in Hr. rewrite length_app. simpl. lia.
Qed.

(** [read_file] from a record boundary. *)
Lemma read_file_all es1 es2 max :
  Forall entry_fits es2 ->
  read_file (encode_all (es1 ++ es2)) (byte_len (encode_all es1)) max
  = (take max es2, byte_len (encode_all (take max es2)), 0).
Proof.
  intros Hes. unfold read_file. rewrite encode_all_app, byte_len_app.
  destruct (N.leb_spec (byte_len (encode_all es1) + byte_len (encode_all es2)) (byte_len (encode_all es1))) as [Hle|Hgt].
  - assert (es2 = []) as -> by (apply encode_all_nil; lia). by rewrite take_nil.
  - rewrite drop_byte_len.
    pose proof (read_records_all (length (encode_all es2)) [] es2 max [] 0 Hes) as Hr. simpl in Hr.
    rewrite Nat.sub_0_r in Hr. apply Hr; [|lia]. apply encode_all_lt. intros ->. change (byte_len (encode_all [])) with 0 in Hgt. lia.
Qed.

(** A record whose header announces more bytes than the file has stops the reader. *)
Lemma read_records_short fuel data max f :
  13 <= byte_len data -> byte_len data < 17 + from_le_bytes (slice data 0 4) ->
  read_records fuel data max [] 0 f = ([], 0, f).
Proof.
  intros H13 Hs. destruct fuel as [|fuel]; [done|]. cbn [read_records]. unfold HEADER_SIZE, CRC_SIZE.
  destruct (_ && _); [|done]. rewrite (proj2 (N.ltb_lt _ _)); [done|]. change (0 + 4) with 4. lia.
Qed.

End records.
