(* ===== verification/OpsWalTheorems.v ===== *)
(** * The operations log: properties

    The log files, their writer and their reader implement a queue: whatever the
    interleaving of appends, reads, cursor saves, retention and restarts, the reader
    delivers the appended entries in order, each one again only after a restart from
    the saved cursor.  A torn record at the end of the newest file hides what is
    appended behind it. *)

From S2P Require Import Prelude Roaring Config Bytes Ops OpsWal OpsWalFacts.

(** ** The generations of a directory *)

#[local] Instance N_le_total : Total N.le.
Proof. intros x y. lia. Qed.

Section generations.
Implicit Types (d : dir) (g : N) (name : string).

Lemma list_generations_sorted d : StronglySorted N.le (list_generations d).
Proof. by apply (merge_sort_sorted N.le). Qed.

Lemma list_generations_perm d : list_generations d ≡ₚ omap parse_generation (elements (dom d)).
Proof. apply merge_sort_Permutation. Qed.

Lemma elem_of_list_generations d g :
  g ∈ list_generations d <-> exists name, is_Some (d !! name) /\ parse_generation name = Some g.
Proof.
  rewrite list_generations_perm, list_elem_of_omap. setoid_rewrite elem_of_elements. setoid_rewrite elem_of_dom. done.
Qed.

Lemma list_generations_new d name g x :
  d !! name = None -> parse_generation name = Some g ->
  list_generations (<[name := x]> d) ≡ₚ g :: list_generations d.
Proof.
  intros Hd Hp. rewrite !list_generations_perm, dom_insert_L, elements_disj_union by (apply not_elem_of_dom in Hd; set_solver).
  rewrite elements_singleton. simpl. by rewrite Hp.
Qed.

Lemma list_generations_old d name x :
  is_Some (d !! name) -> list_generations (<[name := x]> d) = list_generations d.
Proof.
  intros Hd. unfold list_generations. rewrite dom_insert_L. apply elem_of_dom in Hd.
  by replace ({[name]} ∪ dom d) with (dom d) by set_solver.
Qed.

Lemma list_generations_delete d name g :
  is_Some (d !! name) -> parse_generation name = Some g ->
  list_generations d ≡ₚ g :: list_generations (delete name d).
Proof.
  intros [x Hd] Hp. rewrite <- (list_generations_new (delete name d) name g x) by (done || apply lookup_delete_eq).
  by rewrite insert_delete_id.
Qed.

Lemma gen_path_parses d g : g <= u32_max -> parse_generation (gen_path d g) = Some g.
Proof.
  intros Hg. unfold gen_path. destruct (N.eqb_spec g 0) as [->|]; [|by apply parse_generation_filename].
  simpl. case_bool_decide; [done|by apply parse_generation_filename].
Qed.

Lemma gen_path_pos d g : 0 < g -> gen_path d g = wal_filename g.
Proof. intros Hg. unfold gen_path. by rewrite (proj2 (N.eqb_neq _ _)) by lia. Qed.

Lemma gen_path_absent d g : g <= u32_max -> g ∉ list_generations d -> d !! gen_path d g = None.
Proof.
  intros Hb Hg. apply eq_None_not_Some. intros Hs. apply Hg, elem_of_list_generations.
  exists (gen_path d g). split; [done|by apply gen_path_parses].
Qed.

End generations.

(** ** The log a directory holds *)

Section log.
Context `{OJ : OpsJson} `{CK : Checksum}.
Implicit Types (d : dir) (L : list (N * list EntityOps)) (es rest : list EntityOps) (c : WalCursor).

Definition file_ok d (p : N * list EntityOps) : Prop :=
  p.1 <= u32_max /\ d !! gen_path d p.1 = Some (encode_all p.2) /\ Forall entry_fits p.2.

(** One complete file per generation, generations in order. *)
Record wal_dir d L : Prop := {
  wd_gens : list_generations d = L.*1;
  wd_sorted : StronglySorted N.lt L.*1;
  wd_files : Forall (file_ok d) L;
}.

Definition log_entries L : list EntityOps := mjoin L.*2.

(** A cursor that lies on a record boundary, and what it has yet to deliver. *)
Inductive cursor_at L : WalCursor -> list EntityOps -> Prop :=
| at_start : Forall (fun p => 0 < p.1) L -> cursor_at L (MkWalCursor 0 0) (log_entries L)
| at_gen L1 g es1 es2 L2 :
    L = L1 ++ (g, es1 ++ es2) :: L2 ->
    cursor_at L (MkWalCursor g (byte_len (encode_all es1))) (es2 ++ log_entries L2).

Lemma sorted_split L1 g es L2 :
  StronglySorted N.lt (L1 ++ (g, es) :: L2).*1 ->
  Forall (fun p => p.1 < g) L1 /\ Forall (fun p => g < p.1) L2.
Proof.
  rewrite fmap_app, fmap_cons. simpl. intros Hs. apply StronglySorted_app in Hs as (H1 & _ & H2).
  split.
  - apply Forall_forall. intros p Hp. apply (H1 p.1 g); [|by left]. apply list_elem_of_fmap. by exists p.
  - apply StronglySorted_inv in H2 as [_ H2]. by rewrite Forall_fmap in H2.
Qed.

Lemma find_first (P : N -> bool) (l1 : list N) x l2 :
  Forall (fun y => P y = false) l1 -> P x = true -> List.find P (l1 ++ x :: l2) = Some x.
Proof. intros H1 Hx. induction H1 as [|y l1 Hy _ IH]; simpl; [by rewrite Hx|by rewrite Hy]. Qed.

Lemma find_none (P : N -> bool) (l : list N) : Forall (fun y => P y = false) l -> List.find P l = None.
Proof. induction 1 as [|y l Hy _ IH]; simpl; [done|by rewrite Hy]. Qed.

(** The reader hops to the following generation. *)
Lemma next_gen_split d L1 g es L2 :
  wal_dir d (L1 ++ (g, es) :: L2) -> next_gen d g = fst <$> head L2.
Proof.
  intros [Hg Hs _]. destruct (sorted_split _ _ _ _ Hs) as [H1 H2]. unfold next_gen. rewrite Hg, fmap_app, fmap_cons.
  assert (Forall (fun y => (g <? y) = false) L1.*1) as H1'.
  { apply Forall_fmap. eapply Forall_impl; [exact H1|]. simpl. intros p Hp. apply N.ltb_ge. lia. }
  destruct L2 as [|[g2 es'] L2]; simpl.
  - apply find_none, Forall_app. split; [done|]. constructor; [|constructor]. apply N.ltb_ge. lia.
  - rewrite cons_middle, app_assoc. apply find_first; [|by apply Forall_cons in H2 as [?%N.ltb_lt _]].
    apply Forall_app. split; [done|]. constructor; [|constructor]. apply N.ltb_ge. lia.
Qed.

Lemma log_entries_cons g es L : log_entries ((g, es) :: L) = es ++ log_entries L.
Proof. done. Qed.

Lemma log_entries_app L1 L2 : log_entries (L1 ++ L2) = log_entries L1 ++ log_entries L2.
Proof. unfold log_entries. by rewrite fmap_app, join_app. Qed.

(** What a read round owes its caller. *)
Definition read_spec L max c rest (acc : WalBatch) (r : WalBatch * WalCursor) : Prop :=
  let new := take (max - length (wb_entries acc)) rest in
  wb_entries r.1 = wb_entries acc ++ new
  /\ wb_bytes_read r.1 = wb_bytes_read acc + byte_len (encode_all new)
  /\ wb_crc_failures r.1 = wb_crc_failures acc
  /\ cursor_at L r.2 (drop (max - length (wb_entries acc)) rest)
  /\ wc_generation c <= wc_generation r.2.

Lemma read_spec_hop L max c c' rest acc r :
  wc_generation c <= wc_generation c' -> read_spec L max c' rest acc r -> read_spec L max c rest acc r.
Proof. intros Hc (H1 & H2 & H3 & H4 & H5). unfold read_spec. split_and!; auto. lia. Qed.

Lemma encode_all_more es1 es2 : es2 <> [] -> byte_len (encode_all es1) < byte_len (encode_all (es1 ++ es2)).
Proof. intros H%encode_all_lt. rewrite encode_all_app, byte_len_app. unfold byte_len. lia. Qed.

(** A round that read a whole generation hands over to the rest of the log. *)
Lemma read_spec_more L max c es rest (acc : WalBatch) r c' :
  (length es <= max - length (wb_entries acc))%nat -> wc_generation c <= wc_generation c' ->
  read_spec L max c' rest
    (MkWalBatch (wb_entries acc ++ es) (wb_bytes_read acc + byte_len (encode_all es)) (wb_crc_failures acc)) r ->
  read_spec L max c (es ++ rest) acc r.
Proof.
  intros Hm Hg. unfold read_spec. simpl. rewrite length_app. intros (-> & -> & -> & H4 & H5).
  rewrite take_app_ge, drop_app_ge by lia.
  replace (max - length (wb_entries acc) - length es)%nat with (max - (length (wb_entries acc) + length es))%nat by lia.
  split_and!; [by rewrite app_assoc|by rewrite encode_all_app, byte_len_app, N.add_assoc|done|done|lia].
Qed.

(** A generation that is used up: the reader hops or stops. *)
Lemma read_spec_stop L max c acc c' :
  cursor_at L c' [] -> wc_generation c <= wc_generation c' -> read_spec L max c [] acc (acc, c').
Proof.
  intros Hc Hg. unfold read_spec. simpl. rewrite take_nil, drop_nil, app_nil_r. change (byte_len (encode_all [])) with 0.
  split_and!; [done|lia|done..].
Qed.

(** One round of the reader on the generation of its cursor. *)
Lemma read_round d L max L1 g es1 es2 L2 fuel acc :
  wal_dir d L -> L = L1 ++ (g, es1 ++ es2) :: L2 ->
  let new := take (max - length (wb_entries acc)) es2 in
  let acc' := MkWalBatch (wb_entries acc ++ new) (wb_bytes_read acc + byte_len (encode_all new)) (wb_crc_failures acc) in
  let c' := MkWalCursor g (byte_len (encode_all (es1 ++ new))) in
  let hop := match head L2 with Some p => read_loop fuel d max (MkWalCursor p.1 0) acc' | None => (acc', c') end in
  read_loop (S fuel) d max (MkWalCursor g (byte_len (encode_all es1))) acc
  = if decide (es2 <> [] /\ max <= length (wb_entries acc'))%nat then (acc', c') else hop.
Proof.
  intros Hd HL new acc' c' hop.
  pose proof (wd_files _ _ Hd) as Hfs. rewrite HL, Forall_app, Forall_cons in Hfs. destruct Hfs as (_ & (_ & Hfile & Hfit) & _).
  simpl in Hfile, Hfit. apply Forall_app in Hfit as [_ Hfit].
  assert (next_gen d g = _) as Hn by (apply (next_gen_split d L1 g (es1 ++ es2)); by rewrite <- HL).
  cbn [read_loop wc_generation wc_offset]. rewrite Hfile, Hn. destruct (decide (es2 = [])) as [->|Hne].
  - rewrite app_nil_r, N.leb_refl, decide_False by naive_solver. subst new hop acc' c'. rewrite take_nil, !app_nil_r.
    change (byte_len (encode_all [])) with 0. rewrite N.add_0_r. destruct acc. by destruct (head L2).
  - pose proof (encode_all_more es1 es2 Hne) as Hlt. rewrite (proj2 (N.leb_gt _ _)) by done.
    rewrite read_file_all by done. fold new. cbn [wb_entries]. rewrite N.add_0_r. fold acc'.
    rewrite <- byte_len_app, <- encode_all_app. fold c'. change (wb_entries acc ++ new) with (wb_entries acc').
    destruct (Nat.leb_spec max (length (wb_entries acc'))) as [Hle|Hgt].
    { by rewrite decide_True. }
    rewrite decide_False by (intros [_ ?]; lia).
    assert (new = es2) as Hnew.
    { subst new. apply take_ge. subst acc'. simpl in Hgt. rewrite length_app, length_take in Hgt. lia. }
    rewrite Hnew, N.leb_refl. cbn [orb]. subst hop. by destruct (head L2).
Qed.

(** A round that fills the batch. *)
Lemma read_spec_full L L1 max g es1 es2 L2 acc :
  L = L1 ++ (g, es1 ++ es2) :: L2 ->
  let new := take (max - length (wb_entries acc)) es2 in
  (max <= length (wb_entries acc ++ new))%nat ->
  read_spec L max (MkWalCursor g 0) (es2 ++ log_entries L2) acc
    (MkWalBatch (wb_entries acc ++ new) (wb_bytes_read acc + byte_len (encode_all new)) (wb_crc_failures acc),
     MkWalCursor g (byte_len (encode_all (es1 ++ new)))).
Proof.
  intros HL new Hfull. set (m := (max - length (wb_entries acc))%nat) in *.
  assert (m <= length es2)%nat as Hm by (subst new; rewrite length_app, length_take in Hfull; lia).
  unfold read_spec. fold m. simpl. rewrite take_app_le, drop_app_le by lia. split_and!; try done.
  apply (at_gen L L1). rewrite HL. subst new. by rewrite <- app_assoc, take_drop.
Qed.

Lemma read_loop_at d L max : forall L2 L1 g es1 es2 fuel acc,
  wal_dir d L -> L = L1 ++ (g, es1 ++ es2) :: L2 -> (length L2 < fuel)%nat ->
  read_spec L max (MkWalCursor g 0) (es2 ++ log_entries L2) acc
    (read_loop fuel d max (MkWalCursor g (byte_len (encode_all es1))) acc).
Proof.
  induction L2 as [|[g2 es'] L2 IH]; intros L1 g es1 es2 [|fuel] acc Hd HL Hf; simpl in Hf; try lia;
    rewrite (read_round d L max L1 g es1 es2 _ fuel acc Hd HL);
    (case_decide as Hfull; [apply (read_spec_full L L1); [done|by destruct Hfull]|]); cbn [head fst];
    set (new := take (max - length (wb_entries acc)) es2) in *.
  all: assert (length es2 <= max - length (wb_entries acc))%nat as Hle by
    (destruct (decide (es2 = [])) as [->|Hne]; [simpl; lia|]; subst new; simpl in Hfull;
     rewrite length_app, length_take in Hfull; apply Nat.nlt_ge; intros Hlt; apply Hfull; split; [done|lia]).
  all: assert (new = es2) as -> by (by apply take_ge); clear Hfull.
  - apply (read_spec_more _ _ _ _ _ _ _ (MkWalCursor g 0)); [done|done|]. apply read_spec_stop; [|done].
    apply (at_gen L L1 g (es1 ++ es2) [] []). by rewrite app_nil_r.
  - apply (read_spec_more _ _ _ _ _ _ _ (MkWalCursor g2 0)); [done| |].
    { simpl. pose proof (wd_sorted _ _ Hd) as Hs. rewrite HL in Hs. apply sorted_split in Hs as [_ Hs].
      apply Forall_cons in Hs as [Hs _]. simpl in Hs. lia. }
    apply (IH (L1 ++ [(g, es1 ++ es2)]) g2 [] es'); [done| |lia]. by rewrite HL, <- app_assoc.
Qed.

(** [read_batch] from a record boundary. *)
Lemma read_batch_at d L c rest max :
  wal_dir d L -> cursor_at L c rest -> read_spec L max c rest (MkWalBatch [] 0 0) (read_batch d c max).
Proof.
  intros Hd Hc. unfold read_batch. rewrite (wd_gens _ _ Hd), length_fmap. destruct Hc as [Hpos|L1 g es1 es2 L2 HL].
  - cbn [read_loop wc_generation]. rewrite gen_path_absent; [|done|].
    2:{ rewrite (wd_gens _ _ Hd). rewrite list_elem_of_fmap. intros (p & Hp & Hin). rewrite Forall_forall in Hpos. specialize (Hpos p Hin). lia. }
    destruct L as [|[g es] L].
    + unfold next_gen. rewrite (wd_gens _ _ Hd). simpl. apply read_spec_stop; [|done]. by apply at_start.
    + unfold next_gen. rewrite (wd_gens _ _ Hd). cbn [fmap list_fmap List.find fst].
      apply Forall_cons in Hpos as [Hg Hpos]. simpl in Hg. rewrite (proj2 (N.ltb_lt _ _) Hg).
      apply (read_spec_hop _ _ _ (MkWalCursor g 0)); [simpl; lia|].
      apply (read_loop_at d ((g, es) :: L) max L [] g [] es); [done|done|simpl; lia].
  - apply (read_spec_hop _ _ _ (MkWalCursor g 0)); [done|].
    apply (read_loop_at d L max L2 L1 g es1 es2); [done|done|]. rewrite HL, length_app. simpl. lia.
Qed.

(** *** The writer *)

Definition writer_at (w : WalWriter) L : Prop := ww_generation w = N.max (default 1 (last L.*1)) 1.

Lemma sorted_le_last L p : StronglySorted N.lt L.*1 -> p ∈ L -> p.1 <= default 1 (last L.*1).
Proof.
  intros Hs Hp. destruct L as [|[g es] L' _] using rev_ind; [by apply not_elem_of_nil in Hp|].
  rewrite fmap_app. simpl. rewrite last_snoc. simpl. rewrite fmap_app in Hs.
  apply elem_of_app in Hp as [Hp|Hp%list_elem_of_singleton]; [|by subst].
  apply N.lt_le_incl. apply (StronglySorted_app_1_elem_of _ _ _ _ _ Hs); [|by left]. apply list_elem_of_fmap. by exists p.
Qed.

Lemma writer_at_bound w L p : writer_at w L -> StronglySorted N.lt L.*1 -> p ∈ L -> p.1 <= ww_generation w.
Proof. intros Hw Hs Hp. pose proof (sorted_le_last L p Hs Hp). unfold writer_at in Hw. lia. Qed.

(** Writing one generation file leaves the others alone. *)
Lemma file_ok_other d g x p :
  g <= u32_max -> p.1 <> g -> file_ok d p -> file_ok (<[wal_filename g := x]> d) p.
Proof.
  intros Hg Hne (Hb & Hf & Hfit). assert (gen_path (<[wal_filename g := x]> d) p.1 = gen_path d p.1) as Hp.
  { unfold gen_path. by rewrite lookup_insert_ne by (by intros [=]). }
  split_and!; [done| |done]. rewrite Hp, lookup_insert_ne; [done|]. intros Heq. apply Hne.
  pose proof (gen_path_parses d p.1 Hb) as H1. rewrite <- Heq, parse_generation_filename in H1 by done. congruence.
Qed.

Lemma file_ok_here d g es :
  0 < g <= u32_max -> Forall entry_fits es -> file_ok (<[wal_filename g := encode_all es]> d) (g, es).
Proof. intros [Hg Hb] Hes. split_and!; [done| |done]. simpl. rewrite gen_path_pos by done. apply lookup_insert_eq. Qed.

Lemma sorted_gens_unique d (l : list N) :
  StronglySorted N.lt l -> list_generations d ≡ₚ l -> list_generations d = l.
Proof.
  intros Hl Hp. apply (StronglySorted_unique N.le); [apply list_generations_sorted| |done].
  clear Hp. induction Hl as [|x l Hl IH Hx]; constructor; [done|]. eapply Forall_impl; [exact Hx|]. simpl. intros. lia.
Qed.

(** A file for a new, later generation. *)
Lemma wal_dir_new d L g es :
  wal_dir d L -> 0 < g <= u32_max -> Forall (fun p => p.1 < g) L -> Forall entry_fits es ->
  d !! wal_filename g = None /\ wal_dir (<[wal_filename g := encode_all es]> d) (L ++ [(g, es)]).
Proof.
  intros [Hg Hs Hf] Hb Hlt Hes.
  assert (d !! wal_filename g = None) as Hnone.
  { rewrite <- (gen_path_pos d g) by lia. apply gen_path_absent; [lia|]. rewrite Hg, list_elem_of_fmap.
    intros (p & -> & Hp). rewrite Forall_forall in Hlt. specialize (Hlt p Hp). lia. }
  assert (StronglySorted N.lt (L ++ [(g, es)]).*1) as Hs'.
  { rewrite fmap_app. apply StronglySorted_app_2; [|done|repeat constructor].
    intros x1 x2 (p & -> & Hp)%list_elem_of_fmap ->%list_elem_of_singleton. rewrite Forall_forall in Hlt. by apply Hlt. }
  split; [done|split; [|done|]].
  - apply sorted_gens_unique; [done|]. rewrite (list_generations_new d _ g) by (done || apply parse_generation_filename; lia).
    rewrite Hg, fmap_app. simpl. apply Permutation_cons_append.
  - apply Forall_app. split; [|constructor; [|constructor]; by apply file_ok_here].
    apply Forall_forall. intros p Hp. rewrite Forall_forall in Hf, Hlt. apply file_ok_other; [lia| |by apply Hf].
    specialize (Hlt p Hp). lia.
Qed.

(** More entries in the newest file. *)
Lemma wal_dir_extend d L g es batch :
  wal_dir d (L ++ [(g, es)]) -> 0 < g -> Forall entry_fits batch ->
  d !! wal_filename g = Some (encode_all es)
  /\ wal_dir (<[wal_filename g := encode_all (es ++ batch)]> d) (L ++ [(g, es ++ batch)]).
Proof.
  intros [Hg Hs Hf] Hpos Hb. pose proof (sorted_split L g es [] Hs) as [Hlt _].
  apply Forall_app in Hf as [HfL [(Hgb & Hfile & Hfit) _]%Forall_cons]. simpl in *. rewrite gen_path_pos in Hfile by done.
  split; [done|split].
  - rewrite list_generations_old by (by rewrite Hfile). rewrite Hg, !fmap_app. done.
  - rewrite fmap_app in *. done.
  - apply Forall_app. split; [|constructor; [apply file_ok_here; [done|by apply Forall_app]|constructor]].
    apply Forall_forall. intros p Hp. rewrite Forall_forall in HfL, Hlt. apply file_ok_other; [done| |by apply HfL].
    specialize (Hlt p Hp). lia.
Qed.

Lemma cursor_at_new L c rest g batch :
  cursor_at L c rest -> 0 < g -> cursor_at (L ++ [(g, batch)]) c (rest ++ batch).
Proof.
  assert (log_entries [(g, batch)] = batch) as Hb by (unfold log_entries; simpl; by rewrite app_nil_r).
  intros [Hpos|L1 g1 es1 es2 L2 HL] Hg.
  - rewrite <- Hb at 2. rewrite <- log_entries_app. apply at_start. apply Forall_app. by repeat constructor.
  - rewrite <- app_assoc. rewrite <- Hb at 2. rewrite <- log_entries_app. apply (at_gen _ L1 g1). by rewrite HL, <- app_assoc.
Qed.

Lemma cursor_at_extend L g es c rest batch :
  cursor_at (L ++ [(g, es)]) c rest -> cursor_at (L ++ [(g, es ++ batch)]) c (rest ++ batch).
Proof.
  assert (forall es, log_entries [(g, es)] = es) as Hb by (intros es'; unfold log_entries; simpl; by rewrite app_nil_r).
  remember (L ++ [(g, es)]) as L0 eqn:HL0. intros [Hpos|L1 g1 es1 es2 L2 HL].
  - subst L0. apply Forall_app in Hpos as [Hpos [Hg _]%Forall_cons]. rewrite log_entries_app, Hb, <- app_assoc.
    replace (log_entries L ++ es ++ batch) with (log_entries (L ++ [(g, es ++ batch)])) by (by rewrite log_entries_app, Hb).
    apply at_start. apply Forall_app. by repeat constructor.
  - rewrite HL0 in HL. destruct L2 as [|[g2 es'] L2 _] using rev_ind.
    + apply app_inj_tail in HL as [-> [= -> ->]]. change (log_entries []) with (@nil EntityOps). rewrite app_nil_r, <- app_assoc.
      pose proof (at_gen (L1 ++ [(g1, es1 ++ es2 ++ batch)]) L1 g1 es1 (es2 ++ batch) [] eq_refl) as H.
      change (log_entries []) with (@nil EntityOps) in H. by rewrite app_nil_r in H.
    + rewrite app_comm_cons, app_assoc in HL. apply app_inj_tail in HL as [-> [= -> ->]].
      rewrite log_entries_app, Hb, <- !app_assoc.
      replace (log_entries L2 ++ es' ++ batch) with (log_entries (L2 ++ [(g2, es' ++ batch)])) by (by rewrite log_entries_app, Hb).
      apply (at_gen _ L1). by rewrite <- app_comm_cons.
Qed.

(** What appending a batch does to the log. *)
Definition appended L (w w' : WalWriter) d' L' batch : Prop :=
  wal_dir d' L' /\ writer_at w' L' /\ log_entries L' = log_entries L ++ batch
  /\ (forall c rest, cursor_at L c rest -> cursor_at L' c (rest ++ batch))
  /\ ww_generation w' <= ww_generation w + 1 /\ rotation_size w' = rotation_size w.

Lemma write_batch d L w gen batch :
  wal_dir d L -> writer_at w L -> Forall entry_fits batch ->
  ww_generation w <= gen <= ww_generation w + 1 -> gen <= u32_max ->
  exists L', appended L w (MkWalWriter gen (rotation_size w))
               (<[wal_filename gen := default [] (d !! wal_filename gen) ++ encode_all batch]> d) L' batch.
Proof.
  intros Hd Hw Hb Hgen Hmax. pose proof (wd_sorted _ _ Hd) as Hs.
  assert (0 < gen) as Hpos by (unfold writer_at in Hw; lia).
  assert (forall p, p ∈ L -> p.1 <= ww_generation w) as Hle by (intros p; by apply (writer_at_bound w L)).
  destruct (decide (gen ∈ L.*1)) as [Hin|Hout].
  - apply list_elem_of_fmap in Hin as ([g es] & Hg & Hp). simpl in Hg. subst g.
    destruct L as [|[g0 es0] L' _] using rev_ind; [by apply not_elem_of_nil in Hp|].
    assert (g0 = gen) as ->.
    { pose proof (sorted_le_last _ _ Hs Hp) as H1. rewrite fmap_app in H1. simpl in H1. rewrite last_snoc in H1. simpl in H1.
      specialize (Hle (g0, es0)). simpl in Hle. rewrite elem_of_app, list_elem_of_singleton in Hle. specialize (Hle (or_intror eq_refl)). lia. }
    destruct (wal_dir_extend d L' gen es0 batch Hd Hpos Hb) as [Hf Hd']. rewrite Hf. simpl. rewrite <- encode_all_app.
    exists (L' ++ [(gen, es0 ++ batch)]). split_and!; [done| | | |simpl; lia|done].
    + unfold writer_at. rewrite fmap_app. simpl. rewrite last_snoc. simpl. lia.
    + rewrite !log_entries_app. unfold log_entries at 2 4. simpl. by rewrite !app_nil_r, <- app_assoc.
    + intros c rest. apply cursor_at_extend.
  - assert (Forall (fun p => p.1 < gen) L) as Hlt.
    { apply Forall_forall. intros p Hp. specialize (Hle p Hp). enough (p.1 <> gen) by lia.
      intros <-. apply Hout, list_elem_of_fmap. by exists p. }
    destruct (wal_dir_new d L gen batch Hd (conj Hpos Hmax) Hlt Hb) as [Hf Hd']. rewrite Hf. simpl.
    exists (L ++ [(gen, batch)]). split_and!; [done| | | |simpl; lia|done].
    + unfold writer_at. rewrite fmap_app. simpl. rewrite last_snoc. simpl. lia.
    + rewrite log_entries_app. unfold log_entries at 2. simpl. by rewrite app_nil_r.
    + intros c rest Hc. by apply cursor_at_new.
Qed.

Lemma append_batch_at d L w batch :
  wal_dir d L -> writer_at w L -> Forall entry_fits batch -> ww_generation w < u32_max ->
  exists L', appended L w (append_batch w d batch).1.2 (append_batch w d batch).2 L' batch.
Proof.
  intros Hd Hw Hb Hmax. destruct batch as [|e batch].
  - exists L. simpl. split_and!; [done|done|by rewrite app_nil_r| |lia|done]. intros c rest. by rewrite app_nil_r.
  - apply write_batch; [done..| |]; crush_if; unfold wrap32; try (rewrite N.mod_small by (unfold u32_max in *; lia)); lia.
Qed.

(** *** Retention *)

Lemma wal_dir_delete d g es L : wal_dir d ((g, es) :: L) -> wal_dir (delete (gen_path d g) d) L.
Proof.
  intros [Hg Hs Hf]. apply Forall_cons in Hf as [(Hb & Hfile & _) Hf]. simpl in *.
  apply StronglySorted_inv in Hs as [Hs Hlt]. assert (parse_generation (gen_path d g) = Some g) as Hp by (by apply gen_path_parses).
  split; [|done|].
  - apply sorted_gens_unique; [done|]. pose proof (list_generations_delete d (gen_path d g) g) as H. rewrite Hg in H.
    symmetry. apply (Permutation_cons_inv (a := g)). apply H; [by rewrite Hfile|done].
  - apply Forall_forall. intros p Hpin. rewrite Forall_forall in Hf. destruct (Hf p Hpin) as (Hpb & Hpf & Hfit).
    assert (g < p.1) as Hgp by (rewrite Forall_forall in Hlt; apply Hlt, list_elem_of_fmap; by exists p).
    split_and!; [done| |done]. rewrite gen_path_pos in Hpf by lia. rewrite gen_path_pos by lia. rewrite lookup_delete_ne; [done|].
    intros Heq. rewrite Heq, parse_generation_filename in Hp by done. assert (p.1 = g) by congruence. lia.
Qed.

Lemma foldl_keep {A C : Type} (f : A -> C -> A) (l : list C) (a : A) :
  Forall (fun x => f a x = a) l -> foldl f a l = a.
Proof. induction 1 as [|x l Hx _ IH]; simpl; [done|]. by rewrite Hx. Qed.

Lemma delete_gens_at d L gen :
  wal_dir d L -> wal_dir (delete_gens_below d gen) (filter (fun p => gen <= p.1) L).
Proof.
  intros Hd. unfold delete_gens_below. rewrite (wd_gens _ _ Hd). revert d Hd.
  induction L as [|[g es] L IH]; intros d Hd; simpl; [done|].
  destruct (N.ltb_spec g gen) as [Hlt|Hge].
  - rewrite filter_cons_False by (simpl; lia). by apply wal_dir_delete, IH in Hd.
  - pose proof (sorted_split [] g es L (wd_sorted _ _ Hd)) as [_ Hlt]. rewrite filter_all, foldl_keep; [done| |].
    + apply Forall_fmap. eapply Forall_impl; [exact Hlt|]. intros p Hp. simpl in *. by rewrite (proj2 (N.ltb_ge _ _)) by lia.
    + constructor; [done|]. eapply Forall_impl; [exact Hlt|]. intros p Hp. simpl in *. lia.
Qed.

(** Sorted generations: retention keeps a suffix. *)
Lemma keep_suffix L gen : StronglySorted N.lt L.*1 -> exists A, L = A ++ filter (fun p => gen <= p.1) L.
Proof.
  induction L as [|[g es] L IH]; intros Hs; [by exists []|]. pose proof (sorted_split [] g es L Hs) as [_ Hlt].
  destruct (decide (gen <= g)) as [Hge|].
  - exists []. rewrite filter_all; [done|]. constructor; [done|]. eapply Forall_impl; [exact Hlt|]. intros p Hp. simpl in *. lia.
  - apply StronglySorted_inv in Hs as [Hs _]. destruct (IH Hs) as [A HA]. exists ((g, es) :: A).
    rewrite filter_cons_False by done. simpl. by rewrite <- HA.
Qed.

Lemma keep_from L1 g es L2 :
  StronglySorted N.lt (L1 ++ (g, es) :: L2).*1 ->
  filter (fun p => g <= p.1) (L1 ++ (g, es) :: L2) = (g, es) :: L2.
Proof.
  intros Hs. apply sorted_split in Hs as [H1 H2]. rewrite filter_app, filter_cons_True by (simpl; lia).
  rewrite (filter_all _ L2) by (eapply Forall_impl; [exact H2|]; intros p Hp; simpl in *; lia).
  induction H1 as [|p L1 Hp _ IH]; [done|]. by rewrite filter_cons_False by lia.
Qed.

Lemma cursor_at_keep L c rest gen :
  StronglySorted N.lt L.*1 -> cursor_at L c rest -> gen <= wc_generation c ->
  cursor_at (filter (fun p => gen <= p.1) L) c rest.
Proof.
  intros Hs [Hpos|L1 g es1 es2 L2 HL] Hgen; simpl in Hgen.
  - rewrite filter_all; [by apply at_start|]. eapply Forall_impl; [exact Hpos|]. intros p Hp. simpl in *. lia.
  - apply (at_gen _ (filter (fun p => gen <= p.1) L1)). rewrite HL in Hs |- *.
    apply sorted_split in Hs as [_ H2]. rewrite filter_app, filter_cons_True by (simpl; lia).
    rewrite (filter_all _ L2); [done|]. eapply Forall_impl; [exact H2|]. intros p Hp. simpl in *. lia.
Qed.

Lemma writer_at_keep L w c rest :
  StronglySorted N.lt L.*1 -> cursor_at L c rest -> writer_at w L ->
  writer_at w (filter (fun p => wc_generation c <= p.1) L).
Proof.
  intros Hs [Hpos|L1 g es1 es2 L2 HL] Hw; simpl.
  - rewrite filter_all; [done|]. eapply Forall_impl; [exact Hpos|]. intros p Hp. simpl in *. lia.
  - rewrite HL in Hs |- *. rewrite keep_from by done. unfold writer_at in *. rewrite Hw, HL, fmap_app, !fmap_cons, last_app_cons. done.
Qed.

Lemma cursor_at_bounds d L c rest :
  wal_dir d L -> cursor_at L c rest ->
  wc_generation c <= u32_max /\ wc_offset c <= byte_len (encode_all (log_entries L)).
Proof.
  intros Hd [Hpos|L1 g es1 es2 L2 HL]; simpl; [lia|]. pose proof (wd_files _ _ Hd) as Hf.
  rewrite HL, Forall_app, Forall_cons in Hf. destruct Hf as (_ & (Hb & _) & _). split; [done|].
  rewrite HL, log_entries_app, log_entries_cons, !encode_all_app, !byte_len_app. lia.
Qed.

End log.

(** ** The log as a queue *)

Section queue.
Context `{OJ : OpsJson} `{CK : Checksum}.

(** The log directory, its writer and reader, and the saved cursor. *)
Record wal_state : Type := MkWalState {
  ws_dir : dir;
  ws_writer : WalWriter;
  ws_cursor : WalCursor;
  ws_saved : option string;
}.

Inductive wal_event : Type :=
| WAppend (batch : list EntityOps)
| WRead (max_records : nat)
| WSave
| WRetain
| WRestart.

(** What each event does, and the entries it delivers. *)
Definition wal_step (st : wal_state) (ev : wal_event) : wal_state * list EntityOps :=
  match ev with
  | WAppend batch =>
      let r := append_batch (ws_writer st) (ws_dir st) batch in
      (MkWalState r.2 r.1.2 (ws_cursor st) (ws_saved st), [])
  | WRead max =>
      let r := read_batch (ws_dir st) (ws_cursor st) max in
      (MkWalState (ws_dir st) (ws_writer st) r.2 (ws_saved st), wb_entries r.1)
  | WSave => (MkWalState (ws_dir st) (ws_writer st) (ws_cursor st) (save_cursor (ws_cursor st)), [])
  | WRetain =>
      let d := delete_gens_below (ws_dir st) (wc_generation (load_cursor (ws_saved st))) in
      (MkWalState d (ws_writer st) (ws_cursor st) (ws_saved st), [])
  | WRestart =>
      (MkWalState (ws_dir st) (with_rotation_size (ws_dir st) (rotation_size (ws_writer st)))
         (load_cursor (ws_saved st)) (ws_saved st), [])
  end.

Fixpoint wal_run (st : wal_state) (evs : list wal_event) : list (list EntityOps) :=
  match evs with
  | [] => []
  | ev :: evs => (wal_step st ev).2 :: wal_run (wal_step st ev).1 evs
  end.

Definition wal_init (rotation : N) : wal_state :=
  MkWalState ∅ (with_rotation_size ∅ rotation) (load_cursor None) None.

(** The specification: everything appended, how much of it is delivered and how
    much of that is acknowledged. *)
Record queue : Type := MkQueue { q_log : list EntityOps; q_next : nat; q_saved : nat }.

Definition queue_step (q : queue) (ev : wal_event) : queue * list EntityOps :=
  match ev with
  | WAppend batch => (MkQueue (q_log q ++ batch) (q_next q) (q_saved q), [])
  | WRead max =>
      let out := take max (drop (q_next q) (q_log q)) in
      (MkQueue (q_log q) (q_next q + length out) (q_saved q), out)
  | WSave => (MkQueue (q_log q) (q_next q) (q_next q), [])
  | WRetain => (q, [])
  | WRestart => (MkQueue (q_log q) (q_saved q) (q_saved q), [])
  end.

Fixpoint queue_run (q : queue) (evs : list wal_event) : list (list EntityOps) :=
  match evs with
  | [] => []
  | ev :: evs => (queue_step q ev).2 :: queue_run (queue_step q ev).1 evs
  end.

Definition batch_of (ev : wal_event) : list EntityOps := match ev with WAppend batch => batch | _ => [] end.

Record wal_sim (n : N) (st : wal_state) (q : queue) (L : list (N * list EntityOps)) : Prop := {
  sim_dir : wal_dir (ws_dir st) L;
  sim_writer : writer_at (ws_writer st) L;
  sim_gen : ww_generation (ws_writer st) <= n;
  sim_next : cursor_at L (ws_cursor st) (drop (q_next q) (q_log q));
  sim_saved : cursor_at L (load_cursor (ws_saved st)) (drop (q_saved q) (q_log q));
  sim_order : wc_generation (load_cursor (ws_saved st)) <= wc_generation (ws_cursor st);
  sim_next_le : (q_next q <= length (q_log q))%nat;
  sim_saved_le : (q_saved q <= length (q_log q))%nat;
  sim_log : exists old, q_log q = old ++ log_entries L;
}.

Lemma drop_take_len {A : Type} (l : list A) k m : drop (k + length (take m (drop k l))) l = drop m (drop k l).
Proof.
  rewrite <- drop_drop. rewrite length_take. destruct (Nat.le_gt_cases m (length (drop k l))) as [H|H].
  - by rewrite Nat.min_l.
  - rewrite Nat.min_r by lia. by rewrite !drop_ge by lia.
Qed.

Lemma wal_sim_read n st q L max :
  wal_sim n st q L ->
  (wal_step st (WRead max)).2 = (queue_step q (WRead max)).2
  /\ wal_sim n (wal_step st (WRead max)).1 (queue_step q (WRead max)).1 L.
Proof.
  intros [Hd Hw Hg Hn Hs Ho Hnl Hsl Hl].
  destruct (read_batch_at _ _ _ _ max Hd Hn) as (H1 & _ & _ & H4 & H5). simpl in *. rewrite Nat.sub_0_r in *.
  split; [done|]. split; simpl; try done.
  - by rewrite drop_take_len.
  - lia.
  - rewrite length_take, length_drop. lia.
Qed.

Lemma wal_sim_append n st q L batch :
  wal_sim n st q L -> Forall entry_fits batch -> n < u32_max ->
  exists L', wal_sim (n + 1) (wal_step st (WAppend batch)).1 (queue_step q (WAppend batch)).1 L'.
Proof.
  intros [Hd Hw Hg Hn Hs Ho Hnl Hsl [old Hl]] Hb Hmax.
  destruct (append_batch_at (ws_dir st) L (ws_writer st) batch) as (L' & Hd' & Hw' & Hl' & Hc & Hg' & _); [done..|lia|].
  exists L'. split; simpl; try done.
  - lia.
  - rewrite drop_app_le by lia. by apply Hc.
  - rewrite drop_app_le by lia. by apply Hc.
  - rewrite length_app. lia.
  - rewrite length_app. lia.
  - exists old. by rewrite Hl', Hl, app_assoc.
Qed.

Lemma encode_all_suffix old es : byte_len (encode_all es) <= byte_len (encode_all (old ++ es)).
Proof. rewrite encode_all_app, byte_len_app. lia. Qed.

(** Saving stores a cursor that loads back. *)
Lemma wal_sim_save n st q L :
  wal_sim n st q L -> byte_len (encode_all (q_log q)) <= u64_max ->
  wal_sim n (wal_step st WSave).1 (queue_step q WSave).1 L.
Proof.
  intros [Hd Hw Hg Hn Hs Ho Hnl Hsl [old Hl]] Hmax. destruct (cursor_at_bounds _ _ _ _ Hd Hn) as [Hgb Hob].
  assert (load_cursor (save_cursor (ws_cursor st)) = ws_cursor st) as Hload.
  { simpl. apply parse_serialize_cursor; [done|]. rewrite Hl in Hmax. pose proof (encode_all_suffix old (log_entries L)). lia. }
  split; cbn [wal_step queue_step fst ws_dir ws_writer ws_cursor ws_saved q_log q_next q_saved]; rewrite ?Hload; try done. by exists old.
Qed.

Lemma wal_sim_retain n st q L :
  wal_sim n st q L -> exists L', wal_sim n (wal_step st WRetain).1 q L'.
Proof.
  intros [Hd Hw Hg Hn Hs Ho Hnl Hsl [old Hl]]. pose proof (wd_sorted _ _ Hd) as Hso.
  set (gen := wc_generation (load_cursor (ws_saved st))) in *.
  exists (filter (fun p => gen <= p.1) L). split; cbn [wal_step fst ws_dir ws_writer ws_cursor ws_saved]; try done.
  - by apply delete_gens_at.
  - by apply (writer_at_keep _ _ _ _ Hso Hs).
  - by apply cursor_at_keep.
  - by apply cursor_at_keep.
  - destruct (keep_suffix L gen Hso) as [A HA]. exists (old ++ log_entries A). rewrite <- app_assoc, <- log_entries_app, <- HA. done.
Qed.

Lemma wal_sim_restart n st q L :
  wal_sim n st q L -> wal_sim n (wal_step st WRestart).1 (queue_step q WRestart).1 L.
Proof.
  intros [Hd Hw Hg Hn Hs Ho Hnl Hsl Hl]. split; simpl; try done.
  - unfold writer_at. simpl. by rewrite (wd_gens _ _ Hd).
  - rewrite (wd_gens _ _ Hd). unfold writer_at in Hw. lia.
Qed.

Lemma wal_sim_weaken n m st q L : wal_sim n st q L -> n <= m -> wal_sim m st q L.
Proof. intros [Hd Hw Hg Hn Hs Ho Hnl Hsl Hl] Hnm. split; try done. lia. Qed.

Lemma wal_step_sim n st q L ev :
  wal_sim n st q L -> Forall entry_fits (batch_of ev) -> n < u32_max -> byte_len (encode_all (q_log q)) <= u64_max ->
  (wal_step st ev).2 = (queue_step q ev).2 /\ exists L', wal_sim (n + 1) (wal_step st ev).1 (queue_step q ev).1 L'.
Proof.
  intros Hsim Hfit Hn Hb. destruct ev as [batch|max| | |].
  - split; [done|]. by apply (wal_sim_append _ _ _ L).
  - apply (wal_sim_read _ _ _ _ max) in Hsim as [Hout Hsim]. split; [done|]. exists L. apply (wal_sim_weaken n); [done|lia].
  - split; [done|]. exists L. apply (wal_sim_weaken n); [by apply wal_sim_save|lia].
  - split; [done|]. apply wal_sim_retain in Hsim as [L' Hsim]. exists L'. apply (wal_sim_weaken n); [done|lia].
  - split; [done|]. exists L. apply (wal_sim_weaken n); [by apply wal_sim_restart|lia].
Qed.

Lemma queue_step_log q ev : q_log (queue_step q ev).1 = q_log q ++ batch_of ev.
Proof. destruct ev; simpl; by rewrite ?app_nil_r. Qed.

Lemma wal_run_sim evs : forall n st q L,
  wal_sim n st q L -> Forall (fun ev => Forall entry_fits (batch_of ev)) evs -> n + N.of_nat (length evs) <= u32_max ->
  byte_len (encode_all (q_log q ++ mjoin (batch_of <$> evs))) <= u64_max ->
  wal_run st evs = queue_run q evs.
Proof.
  induction evs as [|ev evs IH]; intros n st q L Hsim Hfit Hn Hb; simpl; [done|].
  apply Forall_cons in Hfit as [Hev Hfit]. simpl in Hn, Hb. rewrite app_assoc in Hb.
  destruct (wal_step_sim n st q L ev) as [Hout [L' Hsim']]; [done|done|lia| |].
  { revert Hb. rewrite <- app_assoc, (encode_all_app (q_log q)), byte_len_app. lia. }
  f_equal; [done|]. apply (IH _ _ _ _ Hsim'); [done|lia|by rewrite queue_step_log].
Qed.

Lemma wal_sim_init rotation : wal_sim 1 (wal_init rotation) (MkQueue [] 0 0) [].
Proof.
  assert (list_generations ∅ = []) as Hg by (unfold list_generations; by rewrite dom_empty_L, elements_empty).
  split; simpl; rewrite ?Hg; try done; try (by apply at_start).
  - split; [done|constructor|constructor].
  - by exists [].
Qed.

(** C12: the operations log is a queue.  Whatever the interleaving of appends,
    reads, cursor saves, deletions of old generations and restarts (the writer
    reopens the newest file, the reader the saved cursor), starting from an empty
    directory and for any rotation threshold, every read delivers exactly the next
    entries in the order they were appended, nothing is lost or delivered twice
    except what a restart replays from the saved cursor, and retention never removes
    an entry the saved cursor has yet to deliver.  (Entries fit their records,
    generation numbers do not overflow 32 bits and offsets 64 bits.) *)
Theorem wal_refines_queue rotation (evs : list wal_event) :
  Forall (fun ev => Forall entry_fits (batch_of ev)) evs ->
  N.of_nat (length evs) < u32_max ->
  byte_len (encode_all (mjoin (batch_of <$> evs))) <= u64_max ->
  wal_run (wal_init rotation) evs = queue_run (MkQueue [] 0 0) evs.
Proof.
  intros Hfit Hn Hb. apply (wal_run_sim evs 1 _ _ []); [apply wal_sim_init|done|lia|done].
Qed.

(** a torn record hides what follows it.  When a crash leaves the first [k]
    bytes of a record (its header at least) at the end of the newest file, the
    restarted writer appends behind them, and as long as the file is shorter than
    the torn record claims, the reader delivers none of the complete records behind
    it and does not advance. *)
Theorem torn_record_hides_appends d L g (es : list EntityOps) (torn : EntityOps) (k : nat) (batch : list EntityOps) max :
  wal_dir d (L ++ [(g, es)]) -> 0 < g -> Forall entry_fits es -> entry_fits torn ->
  (13 <= k < length (encode_record torn))%nat ->
  N.of_nat k + byte_len (encode_all batch) < byte_len (encode_record torn) ->
  let tail := encode_all es ++ take k (encode_record torn) ++ encode_all batch in
  read_batch (<[wal_filename g := tail]> d) (MkWalCursor g (byte_len (encode_all es))) max
  = (MkWalBatch [] 0 0, MkWalCursor g (byte_len (encode_all es))).
Proof.
  intros Hd Hg Hes Ht Hk Hshort tail. set (d' := <[wal_filename g := tail]> d). set (rest := take k (encode_record torn) ++ encode_all batch).
  assert (d !! wal_filename g = Some (encode_all es)) as Hf by apply (wal_dir_extend d L g es [] Hd Hg (Forall_nil_2 _)).
  assert (list_generations d' = list_generations d) as Hgens by (apply list_generations_old; by rewrite Hf).
  assert (next_gen d' g = None) as Hnext.
  { unfold next_gen. rewrite Hgens. by apply (next_gen_split d L g es []). }
  assert (byte_len (take k (encode_record torn)) = N.of_nat k) as Hlk.
  { unfold byte_len. rewrite length_take. lia. }
  assert (byte_len rest = N.of_nat k + byte_len (encode_all batch)) as Hlr by (subst rest; by rewrite byte_len_app, Hlk).
  assert (from_le_bytes (slice rest 0 4) = byte_len (ops_to_json (eo_ops torn))) as Hplen.
  { subst rest. rewrite slice_app_l by lia. rewrite slice_take by lia.
    destruct (record_fields torn [] Ht) as (H & _). by rewrite app_nil_r in H. }
  unfold read_batch. cbn [read_loop wc_generation wc_offset]. rewrite (gen_path_pos d' g) by done. unfold d' at 1.
  rewrite lookup_insert_eq. fold d'. unfold tail. fold rest. rewrite byte_len_app.
  rewrite (proj2 (N.leb_gt _ _)) by lia. unfold read_file. rewrite byte_len_app, (proj2 (N.leb_gt _ _)) by lia.
  rewrite drop_byte_len.
  rewrite read_records_short; [| |rewrite Hplen; rewrite byte_len_record in Hshort]; [|lia..].
  cbn [wb_entries wb_bytes_read wb_crc_failures length app]. rewrite !N.add_0_r, N.eqb_refl, orb_true_r, Hnext.
  by destruct (max <=? 0)%nat.
Qed.

End queue.

(** ** Concrete runs *)

(** The JSON text of a list of bare [Delete] and [Alive] operations, as a stand-in
    for serde: one byte per operation. *)
Definition demo_op_byte (op : Op) : N := match op with OpDelete => 100 | _ => 97 end.

#[local] Instance demo_ops_json : OpsJson := {|
  ops_to_json ops := demo_op_byte <$> ops;
  ops_from_json bytes := Some ((fun b => if b =? 100 then OpDelete else OpAlive) <$> bytes);
|}.

Definition demo_entry (id : Z) (n : nat) : EntityOps := MkEntityOps id (repeat OpDelete n) true.

Lemma demo_entry_fits id n : is_i64 id -> N.of_nat n < 4294967296 -> entry_fits (demo_entry id n).
Proof.
  intros Hid Hn. split_and!; [done|simpl; unfold byte_len; by rewrite length_fmap, repeat_length|]. simpl. f_equal.
  clear. induction n as [|n IH]; cbn; [done|]. f_equal. exact IH.
Qed.

Definition demo_events : list wal_event :=
  [WAppend [demo_entry 7 1; demo_entry (-8) 2]; WRead 1; WSave; WAppend [demo_entry 9 0]; WRead 5; WRetain; WRestart; WRead 2].

Lemma wal_refines_queue_witness :
  wal_run (wal_init 20) demo_events
  = [[]; [demo_entry 7 1]; []; []; [demo_entry (-8) 2; demo_entry 9 0]; []; []; [demo_entry (-8) 2; demo_entry 9 0]].
Proof.
  rewrite (wal_refines_queue 20 demo_events); [reflexivity| |done|by vm_compute].
  repeat constructor; apply demo_entry_fits; done.
Defined.

Definition torn_dir : dir := {["ops_000001.wal"%string := encode_all [demo_entry 7 1]]}.

Lemma torn_record_hides_appends_witness :
  read_batch (<["ops_000001.wal"%string :=
      encode_all [demo_entry 7 1] ++ take 13 (encode_record (demo_entry 8 40)) ++ encode_all [demo_entry 9 2]]> torn_dir)
    (MkWalCursor 1 18) 10
  = (MkWalBatch [] 0 0, MkWalCursor 1 18).
Proof.
  change "ops_000001.wal"%string with (wal_filename 1). change 18 with (byte_len (encode_all [demo_entry 7 1])).
  apply (torn_record_hides_appends torn_dir [] 1 [demo_entry 7 1] (demo_entry 8 40) 13 [demo_entry 9 2] 10).
  - split; [vm_compute; reflexivity|repeat constructor|]. constructor; [|constructor].
    split_and!; [done|vm_compute; reflexivity|]. constructor; [by apply demo_entry_fits|constructor].
  - done.
  - constructor; [by apply demo_entry_fits|constructor].
  - by apply demo_entry_fits.
  - vm_compute. lia.
  - vm_compute. reflexivity.
Defined.
