(* ===== verification/CacheKeys.v ===== *)
(** * Canonical cache keys (src/cache.rs)

    A set of filter clauses is turned into a sorted list of (field, operator, value)
    triples, the key under which its result is cached. *)

From S2P Require Import Prelude Roaring Config Sort Float64 Bytes BucketDiffLog TimeBuckets Query.
From Stdlib Require Ascii.
Local Open Scope string_scope.

Record CanonicalClause : Type := MkCanonical { cc_field : string; cc_op : string; cc_value_repr : string }.

Global Instance CanonicalClause_eq_dec : EqDecision CanonicalClause.
Proof. solve_decision. Defined.

Global Program Instance CanonicalClause_countable : Countable CanonicalClause :=
  inj_countable' (fun c => (cc_field c, cc_op c, cc_value_repr c)) (fun '(f, o, v) => MkCanonical f o v) _.
Next Obligation. by intros []. Qed.

Global Program Instance SortDirection_countable : Countable SortDirection :=
  inj_countable' (fun d => match d with Asc => true | Desc => false end) (fun b => if b : bool then Asc else Desc) _.
Next Obligation. by intros []. Qed.

(** The derived [Ord]: field, then operator, then value. *)
Definition clause_le (a b : CanonicalClause) : Prop :=
  match String.compare (cc_field a) (cc_field b) with
  | Datatypes.Lt => True
  | Datatypes.Gt => False
  | Datatypes.Eq =>
      match String.compare (cc_op a) (cc_op b) with
      | Datatypes.Lt => True
      | Datatypes.Gt => False
      | Datatypes.Eq => String.le (cc_value_repr a) (cc_value_repr b)
      end
  end.

Global Instance clause_le_dec : RelDecision clause_le.
Proof. intros a b. hnf. unfold clause_le. repeat case_match; exact (decide _). Defined.

Section keys.
Context {B : Type} (fmt_f64 : spec_float -> string).

Notation show := (value_to_string fmt_f64).

(** [values.sort(); values.join(sep)]. *)
Definition sorted_join (sep : string) (parts : list string) : string := join sep (merge_sort String.le parts).

Definition part_repr (k : CanonicalClause) : string := cc_field k ++ ":" ++ cc_op k ++ ":" ++ cc_value_repr k.

Fixpoint from_filter (clause : FilterClause B) : option CanonicalClause :=
  match clause with
  | Eq field value => Some (MkCanonical field "eq" (show value))
  | NotEq field value => Some (MkCanonical field "neq" (show value))
  | In field values => Some (MkCanonical field "in" (sorted_join "," (show <$> values)))
  | NotIn field values => Some (MkCanonical field "notin" (sorted_join "," (show <$> values)))
  | Gt field value => Some (MkCanonical field "gt" (show value))
  | Gte field value => Some (MkCanonical field "gte" (show value))
  | Lt field value => Some (MkCanonical field "lt" (show value))
  | Lte field value => Some (MkCanonical field "lte" (show value))
  | BucketBitmap field bucket_name _ => Some (MkCanonical field "bucket" bucket_name)
  | Not inner => k ← from_filter inner; Some (MkCanonical (cc_field k) ("not(" ++ cc_op k ++ ")") (cc_value_repr k))
  | And inner => ks ← mapM from_filter inner; Some (MkCanonical "" "and" (sorted_join "+" (part_repr <$> ks)))
  | Or inner => ks ← mapM from_filter inner; Some (MkCanonical "" "or" (sorted_join "|" (part_repr <$> ks)))
  | IsNull field => Some (MkCanonical field "isnull" "")
  | IsNotNull field => Some (MkCanonical field "isnotnull" "")
  end.

(** A top-level [And] is flattened. *)
Definition clause_keys (clause : FilterClause B) : option (list CanonicalClause) :=
  match clause with
  | And inner => mapM from_filter inner
  | _ => k ← from_filter clause; Some [k]
  end.

Definition canonicalize (clauses : list (FilterClause B)) : option (list CanonicalClause) :=
  kss ← mapM clause_keys clauses; Some (merge_sort clause_le (mjoin kss)).

Section buckets.
Context `{!RoaringOps B}.

(** [None] inside is the panic of a missing bucket. *)
Definition snap_clause_key (clause : FilterClause B) (tb : TimeBucketManager.t B) (now_unix : N) : option CanonicalClause :=
  let key := fun field value op (duration : N -> N) =>
    match value with
    | Integer v =>
        if bool_decide (field = TimeBucketManager.field_name tb) then
          match TimeBucketManager.snap_duration tb (duration (ts_secs_u64 (i64_as_u64 v))) (f64_ratio 1 10) with
          | Some (Some bucket_name) => Some (MkCanonical field op bucket_name)
          | _ => None
          end
        else None
    | _ => None
    end in
  match clause with
  | Gt field value | Gte field value => key field value "bucket_gte" (fun threshold => now_unix - threshold)%N
  | Lt field value | Lte field value => key field value "bucket_lte" (fun threshold => threshold - now_unix)%N
  | _ => None
  end.

Definition clause_keys_with_buckets (tb : option (TimeBucketManager.t B)) (now_unix : N) (clause : FilterClause B)
  : option (list CanonicalClause) :=
  match (tb ← tb; snap_clause_key clause tb now_unix) with
  | Some snapped => Some [snapped]
  | None => clause_keys clause
  end.

Definition canonicalize_with_buckets (clauses : list (FilterClause B)) (tb : option (TimeBucketManager.t B))
    (now_unix : N) : option (list CanonicalClause) :=
  kss ← mapM (clause_keys_with_buckets tb now_unix) clauses; Some (merge_sort clause_le (mjoin kss)).

End buckets.
End keys.

(** ** The order on keys *)

Lemma string_compare_refl s : String.compare s s = Datatypes.Eq.
Proof. induction s as [|c s IH]; simpl; [done|]. unfold Ascii.compare. by rewrite N.compare_refl. Qed.

Lemma string_le_compare s t : String.le s t <-> String.compare s t <> Datatypes.Gt.
Proof. unfold String.le, String.leb. by destruct (String.compare s t). Qed.

Lemma clause_le_spec a b :
  clause_le a b <->
  String.le (cc_field a) (cc_field b)
  /\ (cc_field a = cc_field b -> String.le (cc_op a) (cc_op b)
      /\ (cc_op a = cc_op b -> String.le (cc_value_repr a) (cc_value_repr b))).
Proof.
  unfold clause_le. rewrite (string_le_compare (cc_field a)), (string_le_compare (cc_op a)).
  destruct (String.compare (cc_field a) (cc_field b)) eqn:Ef.
  - apply String.compare_eq_iff in Ef. destruct (String.compare (cc_op a) (cc_op b)) eqn:Eo.
    + apply String.compare_eq_iff in Eo. naive_solver.
    + split; [|done]. intros _. split; [done|]. intros _. split; [done|]. intros Ho.
      rewrite Ho, string_compare_refl in Eo. done.
    + split; [done|]. intros [_ H]. by destruct (H Ef).
  - split; [|done]. intros _. split; [done|]. intros Hf. by rewrite Hf, string_compare_refl in Ef.
  - naive_solver.
Qed.

Global Instance clause_le_total : Total clause_le.
Proof.
  intros a b. rewrite !clause_le_spec.
  destruct (decide (cc_field a = cc_field b)) as [Hf|Hf].
  - rewrite Hf. destruct (decide (cc_op a = cc_op b)) as [Ho|Ho].
    + rewrite Ho. destruct (total String.le (cc_value_repr a) (cc_value_repr b)); [left|right]; done.
    + destruct (total String.le (cc_op a) (cc_op b)); [left|right]; naive_solver.
  - destruct (total String.le (cc_field a) (cc_field b)); [left|right]; naive_solver.
Qed.

Global Instance clause_le_trans : Transitive clause_le.
Proof.
  intros a b c. rewrite !clause_le_spec. intros [F1 G1] [F2 G2]. split; [by etrans|]. intros Hac.
  assert (cc_field a = cc_field b) as Hab by (apply (anti_symm String.le); [done|by rewrite Hac]).
  destruct (G1 Hab) as [O1 V1], (G2 ltac:(congruence)) as [O2 V2]. split; [by etrans|]. intros Hoac.
  assert (cc_op a = cc_op b) as Hoab by (apply (anti_symm String.le); [done|by rewrite Hoac]).
  etrans; [by apply V1|apply V2; congruence].
Qed.

Global Instance clause_le_antisymm : AntiSymm (=) clause_le.
Proof.
  intros [f1 o1 v1] [f2 o2 v2]. rewrite !clause_le_spec. simpl. intros [F1 G1] [F2 G2].
  assert (f1 = f2) as -> by (by apply (anti_symm String.le)).
  destruct (G1 eq_refl) as [O1 V1], (G2 eq_refl) as [O2 V2].
  assert (o1 = o2) as -> by (by apply (anti_symm String.le)).
  by assert (v1 = v2) as -> by (apply (anti_symm String.le); auto).
Qed.

(** ** Keys exist and forget the order of clauses *)

Section stable.
Context {B : Type} (fmt_f64 : spec_float -> string).
Implicit Types (c : FilterClause B) (cs : list (FilterClause B)).

Notation from_filter := (from_filter fmt_f64).

Definition key_of c : CanonicalClause := default (MkCanonical "" "" "") (from_filter c).

Lemma mapM_total {A C : Type} (f : A -> option C) (g : A -> C) (l : list A) :
  Forall (fun a => f a = Some (g a)) l -> mapM f l = Some (g <$> l).
Proof. induction 1 as [|a l Ha _ IH]; [done|]. cbn. rewrite Ha. cbn. by rewrite IH. Qed.

(** Every clause has a key. *)
Lemma from_filter_total c : from_filter c = Some (key_of c).
Proof.
  unfold key_of. enough (exists k, from_filter c = Some k) as [k ->] by done.
  induction c as [| | | | | | | |c [k IH]|cs IH|cs IH| | |] using FilterClause_nested_ind; try by eexists.
  - cbn. rewrite IH. by eexists.
  - cbn [CacheKeys.from_filter]. rewrite (mapM_total _ key_of); [by eexists|].
    eapply Forall_impl; [exact IH|]. intros c [k Hk]. unfold key_of. by rewrite Hk.
  - cbn [CacheKeys.from_filter]. rewrite (mapM_total _ key_of); [by eexists|].
    eapply Forall_impl; [exact IH|]. intros c [k Hk]. unfold key_of. by rewrite Hk.
Qed.

Lemma mapM_from_filter cs : mapM from_filter cs = Some (key_of <$> cs).
Proof. apply mapM_total, Forall_true. intros c. apply from_filter_total. Qed.

Lemma key_of_And cs : key_of (And cs) = MkCanonical "" "and" (sorted_join "+" (part_repr <$> (key_of <$> cs))).
Proof. unfold key_of at 1. cbn [CacheKeys.from_filter]. by rewrite mapM_from_filter. Qed.

Lemma key_of_Or cs : key_of (Or cs) = MkCanonical "" "or" (sorted_join "|" (part_repr <$> (key_of <$> cs))).
Proof. unfold key_of at 1. cbn [CacheKeys.from_filter]. by rewrite mapM_from_filter. Qed.

Lemma key_of_Not c : key_of (Not c) = MkCanonical (cc_field (key_of c)) ("not(" ++ cc_op (key_of c) ++ ")") (cc_value_repr (key_of c)).
Proof. unfold key_of at 1. cbn. by rewrite from_filter_total. Qed.

Definition flat_keys c : list CanonicalClause := match c with And inner => key_of <$> inner | _ => [key_of c] end.

Lemma canonicalize_eq cs : canonicalize fmt_f64 cs = Some (merge_sort clause_le (mjoin (flat_keys <$> cs))).
Proof.
  unfold canonicalize. rewrite (mapM_total _ flat_keys); [done|]. apply Forall_true. intros c.
  unfold clause_keys. destruct c; try (by rewrite from_filter_total). apply mapM_from_filter.
Qed.

Lemma sorted_join_perm sep ps ps' : ps ≡ₚ ps' -> sorted_join sep ps = sorted_join sep ps'.
Proof.
  intros Hp. unfold sorted_join. f_equal. apply (merge_sort_unique String.le); [apply (merge_sort_sorted String.le)|].
  by rewrite merge_sort_Permutation.
Qed.

(** One reordering somewhere in a clause. *)
Inductive reorders : FilterClause B -> FilterClause B -> Prop :=
| re_in f vs vs' : vs ≡ₚ vs' -> reorders (In f vs) (In f vs')
| re_notin f vs vs' : vs ≡ₚ vs' -> reorders (NotIn f vs) (NotIn f vs')
| re_not c c' : reorders c c' -> reorders (Not c) (Not c')
| re_and cs cs' : cs ≡ₚ cs' -> reorders (And cs) (And cs')
| re_or cs cs' : cs ≡ₚ cs' -> reorders (Or cs) (Or cs')
| re_and_in l c c' r : reorders c c' -> reorders (And (l ++ c :: r)) (And (l ++ c' :: r))
| re_or_in l c c' r : reorders c c' -> reorders (Or (l ++ c :: r)) (Or (l ++ c' :: r)).

Lemma reorders_key c c' : reorders c c' -> key_of c = key_of c'.
Proof.
  induction 1 as [f vs vs' Hp|f vs vs' Hp|c c' _ IH|cs cs' Hp|cs cs' Hp|l c c' r _ IH|l c c' r _ IH].
  1,2: unfold key_of; cbn; by erewrite sorted_join_perm by (apply fmap_Permutation, Hp).
  - by rewrite !key_of_Not, IH.
  - rewrite !key_of_And. f_equal. by apply sorted_join_perm, fmap_Permutation, fmap_Permutation.
  - rewrite !key_of_Or. f_equal. by apply sorted_join_perm, fmap_Permutation, fmap_Permutation.
  - by rewrite !key_of_And, !fmap_app, !fmap_cons, IH.
  - by rewrite !key_of_Or, !fmap_app, !fmap_cons, IH.
Qed.

Lemma reorders_flat c c' : reorders c c' -> flat_keys c ≡ₚ flat_keys c'.
Proof.
  intros Hr. pose proof (reorders_key _ _ Hr) as Hk. destruct Hr; cbn [flat_keys]; try (by rewrite Hk).
  - by apply fmap_Permutation.
  - rewrite !fmap_app, !fmap_cons. by erewrite reorders_key.
Qed.

Lemma canonicalize_flat cs cs' :
  mjoin (flat_keys <$> cs) ≡ₚ mjoin (flat_keys <$> cs') -> canonicalize fmt_f64 cs = canonicalize fmt_f64 cs'.
Proof.
  intros Hp. rewrite !canonicalize_eq. f_equal. apply (merge_sort_unique clause_le); [apply (merge_sort_sorted clause_le)|].
  by rewrite merge_sort_Permutation.
Qed.

(** cache keys do not depend on how a query is written.  Every filter has a key,
    and reordering the clauses, the operands of nested conjunctions and disjunctions
    or the values of a membership test, at any depth, gives the same key. *)
Theorem cache_key_stable cs cs1 cs2 :
  cs ≡ₚ cs1 -> Forall2 (rtc reorders) cs1 cs2 ->
  exists key, canonicalize fmt_f64 cs = Some key /\ canonicalize fmt_f64 cs2 = Some key
    /\ StronglySorted clause_le key.
Proof.
  intros Hp Hr. rewrite (canonicalize_flat cs cs2).
  - rewrite canonicalize_eq. eexists; split_and!; [done..|]. apply (merge_sort_sorted clause_le).
  - transitivity (mjoin (flat_keys <$> cs1)); [by rewrite Hp|]. clear Hp.
    induction Hr as [|c c' cs1' cs2' Hc _ IH]; [done|]. cbn. f_equiv; [|done].
    clear -Hc. induction Hc as [|c1 c2 c3 H1 _ IH2]; [done|]. by rewrite (reorders_flat _ _ H1).
Qed.

End stable.

Lemma cache_key_stable_witness :
  exists key : list CanonicalClause,
    canonicalize (B := unit) (fun _ => "") [In "f" [Integer 2; Integer 1]; Or [Eq "g" (Bool true); IsNull "h"]] = Some key
    /\ canonicalize (B := unit) (fun _ => "") [Or [IsNull "h"; Eq "g" (Bool true)]; In "f" [Integer 1; Integer 2]] = Some key
    /\ StronglySorted clause_le key.
Proof.
  apply (cache_key_stable (fun _ => "") _ [Or [Eq "g" (Bool true); IsNull "h"]; In "f" [Integer 2; Integer 1]]).
  - apply Permutation_swap.
  - repeat constructor; apply rtc_once; constructor; apply Permutation_swap.
Defined.

(** Values are joined without escaping, and an integer prints like the string of its
    digits, so distinct filters can share a key. *)
Lemma canonical_key_collision {B : Type} (fmt_f64 : spec_float -> string) (f : string) :
  canonicalize (B := B) fmt_f64 [In f [Str "a,b"]] = canonicalize (B := B) fmt_f64 [In f [Str "a"; Str "b"]]
  /\ canonicalize (B := B) fmt_f64 [Eq f (Integer 5)] = canonicalize (B := B) fmt_f64 [Eq f (Str "5")].
Proof. split; reflexivity. Qed.
