(* ===== verification/MetaIndex.v ===== *)
(** * The meta-index (src/meta_index.rs)

    Which cache entries mention a filter clause, a filter field or a sort order: one
    small bitmap of entry ids per clause, field and sort specification. *)

From S2P Require Import Prelude Roaring Config Sort Float64 Bytes BucketDiffLog TimeBuckets Query CacheKeys.

(** What an entry is registered under.  [ClauseKey] has the fields of a canonical
    clause, [FieldKey] wraps a field name. *)
Record EntryRegistration : Type := MkRegistration {
  clause_keys : list CanonicalClause;
  field_keys : list string;
  sort_key : option (string * SortDirection);
}.

(** The leaf fields of a clause tree, [collect_leaf_fields]. *)
Fixpoint collect_leaf_fields {B : Type} (clause : FilterClause B) : gset string :=
  match clause with
  | Eq f _ | NotEq f _ | Gt f _ | Gte f _ | Lt f _ | Lte f _ => {[f]}
  | In f _ | NotIn f _ => {[f]}
  | IsNull f | IsNotNull f => {[f]}
  | BucketBitmap f _ _ => {[f]}
  | Not inner => collect_leaf_fields inner
  | And parts | Or parts => ⋃ (map collect_leaf_fields parts)
  end.

Module MetaIndex.

Record t (B : Type) : Type := mk {
  next_id : N;
  free_ids : list N;
  clause_bitmaps : gmap CanonicalClause B;
  field_bitmaps : gmap string B;
  sort_bitmaps : gmap (string * SortDirection) B;
  registrations : gmap N EntryRegistration;
  tombstoned : B;
}.
Arguments mk {B} _ _ _ _ _ _ _.
Arguments next_id {B} _.
Arguments free_ids {B} _.
Arguments clause_bitmaps {B} _.
Arguments field_bitmaps {B} _.
Arguments sort_bitmaps {B} _.
Arguments registrations {B} _.
Arguments tombstoned {B} _.

Section ops.
Context {B : Type} `{!RoaringOps B}.

Definition new : t B := mk 0 [] ∅ ∅ ∅ ∅ rb_new.

(** [entry(key).or_default().insert(id)] *)
Definition bm_insert {K : Type} `{Countable K} (m : gmap K B) (key : K) (id : N) : gmap K B :=
  <[key := rb_insert (default rb_new (m !! key)) id]> m.

(** Remove the id; an empty bitmap is dropped. *)
Definition bm_remove {K : Type} `{Countable K} (m : gmap K B) (key : K) (id : N) : gmap K B :=
  match m !! key with
  | Some bm => let bm' := rb_remove bm id in if rb_is_empty bm' then delete key m else <[key := bm']> m
  | None => m
  end.

(** The free list is a stack with its top at the end. *)
Definition allocate_id (m : t B) : N * N * list N :=
  match last (free_ids m) with
  | Some id => (id, next_id m, removelast (free_ids m))
  | None => (next_id m, wrap32 (next_id m + 1), free_ids m)
  end.

(** The fields a new registration is listed under: those of its canonical clauses
    and, when the clause tree is known, its leaf fields.  The code keeps each field
    once; in which order does not matter. *)
Definition fields_of (clauses : list CanonicalClause) (original : option (list (FilterClause B))) : list string :=
  elements (list_to_set (cc_field <$> clauses) ∪ ⋃ (collect_leaf_fields <$> default [] original) : gset string).

Definition sort_of (sort_field : option string) (direction : option SortDirection) : option (string * SortDirection) :=
  f ← sort_field; d ← direction; Some (f, d).

(** The part [register] and [register_with_id] share. *)
Definition insert_registration (m : t B) (id next : N) (free : list N) (clauses : list CanonicalClause)
    (original : option (list (FilterClause B))) (sort : option (string * SortDirection)) : t B :=
  let fields := fields_of clauses original in
  mk next free
    (foldl (fun bms ck => bm_insert bms ck id) (clause_bitmaps m) clauses)
    (foldl (fun bms f => bm_insert bms f id) (field_bitmaps m) fields)
    (match sort with Some sk => bm_insert (sort_bitmaps m) sk id | None => sort_bitmaps m end)
    (<[id := MkRegistration clauses fields sort]> (registrations m))
    (tombstoned m).

Definition register (m : t B) (clauses : list CanonicalClause) (original : option (list (FilterClause B)))
    (sort_field : option string) (direction : option SortDirection) : N * t B :=
  let '(id, next, free) := allocate_id m in
  (id, insert_registration m id next free clauses original (sort_of sort_field direction)).

Definition register_with_id (m : t B) (id : N) (clauses : list CanonicalClause)
    (original : option (list (FilterClause B))) (sort_field : option string) (direction : option SortDirection) : t B :=
  let next := if next_id m <=? id then wrap32 (id + 1) else next_id m in
  insert_registration m id next (free_ids m) clauses original (sort_of sort_field direction).

Definition deregister (m : t B) (id : N) : t B :=
  match registrations m !! id with
  | None => m
  | Some reg =>
      mk (next_id m) (free_ids m ++ [id])
        (foldl (fun bms ck => bm_remove bms ck id) (clause_bitmaps m) (clause_keys reg))
        (foldl (fun bms f => bm_remove bms f id) (field_bitmaps m) (field_keys reg))
        (match sort_key reg with Some sk => bm_remove (sort_bitmaps m) sk id | None => sort_bitmaps m end)
        (delete id (registrations m)) (tombstoned m)
  end.

Definition entries_for_filter_field (m : t B) (field : string) : option B := field_bitmaps m !! field.

Definition entries_for_sort (m : t B) (field : string) (direction : SortDirection) : option B :=
  sort_bitmaps m !! (field, direction).

Definition entries_for_sort_field (m : t B) (field : string) : B :=
  rb_or (default rb_new (entries_for_sort m field Asc)) (default rb_new (entries_for_sort m field Desc)).

Definition entries_for_clause (m : t B) (field op value_repr : string) : option B :=
  clause_bitmaps m !! MkCanonical field op value_repr.

(** The intersection loop; [None] is the early return. *)
Fixpoint intersect_clauses (m : t B) (acc : option B) (clauses : list CanonicalClause) : option (option B) :=
  match clauses with
  | [] => Some acc
  | ck :: rest =>
      match clause_bitmaps m !! ck with
      | Some bm => intersect_clauses m (Some (match acc with Some r => rb_and r bm | None => bm end)) rest
      | None => None
      end
  end.

Definition find_matching_entries (m : t B) (clauses : list CanonicalClause) (sort_field : option string)
    (direction : option SortDirection) : B :=
  match clauses with
  | [] => rb_new
  | _ =>
      match intersect_clauses m None clauses with
      | None => rb_new
      | Some acc =>
          let result := default rb_new acc in
          match sort_of sort_field direction with
          | Some sk => match sort_bitmaps m !! sk with Some bm => rb_and result bm | None => rb_new end
          | None => result
          end
      end
  end.

Definition set_tombstoned (m : t B) (b : B) : t B :=
  mk (next_id m) (free_ids m) (clause_bitmaps m) (field_bitmaps m) (sort_bitmaps m) (registrations m) b.

Definition set_next_id (m : t B) (id : N) : t B :=
  mk id (free_ids m) (clause_bitmaps m) (field_bitmaps m) (sort_bitmaps m) (registrations m) (tombstoned m).

Definition tombstone (m : t B) (id : N) : t B := set_tombstoned m (rb_insert (tombstoned m) id).
Definition is_tombstoned (m : t B) (id : N) : bool := rb_contains (tombstoned m) id.
Definition clear_tombstone (m : t B) (id : N) : t B := set_tombstoned m (rb_remove (tombstoned m) id).
Definition set_tombstones (m : t B) (tombstones : B) : t B := set_tombstoned m tombstones.
Definition tombstone_count (m : t B) : N := rb_len (tombstoned m).

Definition is_registered (m : t B) (id : N) : bool := bool_decide (is_Some (registrations m !! id)).
Definition all_registered_ids (m : t B) : gset N := dom (registrations m).
Definition entry_count (m : t B) : nat := size (registrations m).
Definition clause_bitmap_count (m : t B) : nat := size (clause_bitmaps m).
Definition sort_bitmap_count (m : t B) : nat := size (sort_bitmaps m).

End ops.

End MetaIndex.
