(* ===== verification/MetaIndexTheorems.v ===== *)
(** * The meta-index: properties

    The bitmaps list exactly the live registrations, whatever the sequence of
    registrations, removals and restores. *)

From S2P Require Import Prelude Roaring Config Sort Float64 Bytes BucketDiffLog TimeBuckets Query CacheKeys MetaIndex.
Import MetaIndex.

Section facts.
Context {B : Type} `{HB : Roaring B}.
Implicit Types (m : t B) (id : N) (reg : EntryRegistration).

(** Entry [id] is in the bitmap of [key]. *)
Definition listed {K : Type} `{Countable K} (bms : gmap K B) (key : K) id : Prop :=
  exists bm, bms !! key = Some bm /\ id ∈ bm.

(** No bitmap is kept empty. *)
Definition no_empty {K : Type} `{Countable K} (bms : gmap K B) : Prop :=
  map_Forall (fun _ bm => exists id, id ∈ bm) bms.

Lemma listed_default {K : Type} `{Countable K} (bms : gmap K B) key id :
  id ∈ default rb_new (bms !! key) <-> listed bms key id.
Proof.
  unfold listed. destruct (bms !! key) as [bm|]; simpl.
  - naive_solver.
  - split; [intros Hx; by apply rb_elem_of_new in Hx|naive_solver].
Qed.

Lemma listed_insert {K : Type} `{Countable K} (bms : gmap K B) key k id i :
  listed (bm_insert bms key id) k i <-> (k = key /\ i = id) \/ listed bms k i.
Proof.
  unfold listed, bm_insert. destruct (decide (k = key)) as [->|Hne].
  - rewrite lookup_insert_eq. split.
    + intros (bm & [= <-] & Hi). apply rb_elem_of_insert in Hi as [->|Hi]; [by left|]. right. by apply listed_default.
    + intros [[_ ->]|Hl]; eexists; (split; [done|]); apply rb_elem_of_insert; [by left|right; by apply listed_default].
  - rewrite lookup_insert_ne by done. naive_solver.
Qed.

Lemma listed_remove {K : Type} `{Countable K} (bms : gmap K B) key k id i :
  listed (bm_remove bms key id) k i <-> listed bms k i /\ ~ (k = key /\ i = id).
Proof.
  unfold listed, bm_remove. destruct (bms !! key) as [bm|] eqn:E.
  - assert (forall j, j ∈ rb_remove bm id <-> j <> id /\ j ∈ bm) as Hj by (intros j; apply rb_elem_of_remove).
    destruct (rb_is_empty (rb_remove bm id)) eqn:Ee.
    + apply rb_is_empty_true in Ee. destruct (decide (k = key)) as [->|Hne].
      * rewrite lookup_delete_eq. split; [naive_solver|]. intros [(bm' & Hb & Hi) Hn]. exfalso.
        rewrite E in Hb. injection Hb as <-. destruct (decide (i = id)) as [->|Hid]; [naive_solver|].
        pose proof (proj2 (Hj i) (conj Hid Hi)) as H1. unfold elem_of, rb_elem_of in H1. rewrite Ee in H1. by apply not_elem_of_nil in H1.
      * rewrite lookup_delete_ne by done. naive_solver.
    + destruct (decide (k = key)) as [->|Hne].
      * rewrite lookup_insert_eq, E. setoid_rewrite (inj_iff Some). naive_solver.
      * rewrite lookup_insert_ne by done. naive_solver.
  - split; [|naive_solver]. intros (bm & Hb & Hi). split; [by exists bm|]. intros [-> _]. congruence.
Qed.

Lemma no_empty_insert {K : Type} `{Countable K} (bms : gmap K B) key id : no_empty bms -> no_empty (bm_insert bms key id).
Proof.
  intros Hn. apply map_Forall_insert_2; [|done]. exists id. apply rb_elem_of_insert. by left.
Qed.

Lemma no_empty_remove {K : Type} `{Countable K} (bms : gmap K B) key id : no_empty bms -> no_empty (bm_remove bms key id).
Proof.
  intros Hn. unfold bm_remove. destruct (bms !! key) as [bm|] eqn:E; [|done].
  destruct (rb_is_empty (rb_remove bm id)) eqn:Ee; [by apply map_Forall_delete|].
  apply map_Forall_insert_2; [|done]. destruct (rb_iter (rb_remove bm id)) as [|x l] eqn:Ei.
  - apply rb_is_empty_true in Ei. congruence.
  - exists x. unfold elem_of, rb_elem_of. rewrite Ei. by left.
Qed.

Lemma listed_insert_all {K : Type} `{Countable K} (keys : list K) id : forall (bms : gmap K B) k i,
  listed (foldl (fun bms key => bm_insert bms key id) bms keys) k i <-> (k ∈ keys /\ i = id) \/ listed bms k i.
Proof.
  induction keys as [|key keys IH]; intros bms k i; simpl; [set_solver|].
  rewrite IH, listed_insert, elem_of_cons. naive_solver.
Qed.

Lemma listed_remove_all {K : Type} `{Countable K} (keys : list K) id : forall (bms : gmap K B) k i,
  listed (foldl (fun bms key => bm_remove bms key id) bms keys) k i <-> listed bms k i /\ ~ (k ∈ keys /\ i = id).
Proof.
  induction keys as [|key keys IH]; intros bms k i; simpl; [set_solver|].
  rewrite IH, listed_remove, elem_of_cons. naive_solver.
Qed.

Lemma no_empty_foldl {K : Type} `{Countable K} (f : gmap K B -> K -> gmap K B) (keys : list K) :
  (forall bms k, no_empty bms -> no_empty (f bms k)) -> forall bms, no_empty bms -> no_empty (foldl f bms keys).
Proof. intros Hf. induction keys as [|k keys IH]; intros bms Hn; simpl; auto. Qed.

(** ** The invariant *)

Record meta_ok m : Prop := {
  mo_clause : forall ck id, listed (clause_bitmaps m) ck id <-> exists reg, registrations m !! id = Some reg /\ ck ∈ clause_keys reg;
  mo_field : forall f id, listed (field_bitmaps m) f id <-> exists reg, registrations m !! id = Some reg /\ f ∈ field_keys reg;
  mo_sort : forall sk id, listed (sort_bitmaps m) sk id <-> exists reg, registrations m !! id = Some reg /\ sort_key reg = Some sk;
  mo_clause_used : no_empty (clause_bitmaps m);
  mo_field_used : no_empty (field_bitmaps m);
  mo_sort_used : no_empty (sort_bitmaps m);
  mo_free_nodup : NoDup (free_ids m);
  mo_free : forall id, id ∈ free_ids m -> id < next_id m /\ registrations m !! id = None;
  mo_live : forall id reg, registrations m !! id = Some reg -> id < next_id m;
}.

Lemma meta_ok_new : meta_ok new.
Proof.
  split; simpl; unfold listed; try (intros; split; naive_solver); try done; try (by intros ??[]%lookup_empty_Some).
  - constructor.
  - intros id Hid. by apply not_elem_of_nil in Hid.
Qed.

Lemma allocate_fresh m id next free :
  meta_ok m -> next_id m < 4294967295 -> allocate_id m = (id, next, free) ->
  registrations m !! id = None /\ id < next /\ next_id m <= next <= next_id m + 1 /\ NoDup (id :: free)
  /\ (forall i, i ∈ free -> i ∈ free_ids m).
Proof.
  intros Hm Hn. unfold allocate_id. destruct (last (free_ids m)) as [i|] eqn:El; intros [= <- <- <-].
  - apply last_Some in El as [l El]. pose proof (mo_free _ Hm i) as Hi. pose proof (mo_free_nodup _ Hm) as Hnd. rewrite El in Hnd.
    rewrite El in Hi |- *. rewrite removelast_last. destruct Hi as [Hlt Hreg]; [set_solver|].
    split_and!; [done|done|lia|lia| |set_solver]. by rewrite Permutation_cons_append.
  - apply last_None in El. rewrite El. unfold wrap32. rewrite N.mod_small by lia.
    split_and!; [|lia|lia|lia|repeat constructor; set_solver|done].
    apply eq_None_not_Some. intros [reg Hreg]. apply (mo_live _ Hm) in Hreg. lia.
Qed.

(** Registering under a fresh id. *)
Lemma insert_registration_ok m id next free clauses original sort :
  meta_ok m -> registrations m !! id = None -> id < next -> next_id m <= next -> NoDup (id :: free) ->
  (forall i, i ∈ free -> i ∈ free_ids m) ->
  meta_ok (insert_registration m id next free clauses original sort).
Proof.
  intros Hm Hid Hlt Hnext [Hnot Hnd]%NoDup_cons Hfree. unfold insert_registration. set (fields := fields_of clauses original).
  assert (forall (P : EntryRegistration -> Prop) i, (exists reg, <[id := MkRegistration clauses fields sort]> (registrations m) !! i = Some reg /\ P reg)
    <-> (i = id /\ P (MkRegistration clauses fields sort)) \/ (exists reg, registrations m !! i = Some reg /\ P reg)) as Hreg.
  { intros P i. destruct (decide (i = id)) as [->|Hne].
    - rewrite lookup_insert_eq, Hid. naive_solver.
    - rewrite lookup_insert_ne by done. naive_solver. }
  split; simpl.
  - intros ck i. rewrite listed_insert_all, (mo_clause _ Hm), (Hreg (fun reg => ck ∈ clause_keys reg)). simpl. naive_solver.
  - intros f i. rewrite listed_insert_all, (mo_field _ Hm), (Hreg (fun reg => f ∈ field_keys reg)). simpl. naive_solver.
  - intros sk i. rewrite (Hreg (fun reg => sort_key reg = Some sk)). simpl. destruct sort as [sk'|].
    + rewrite listed_insert, (mo_sort _ Hm). naive_solver.
    + rewrite (mo_sort _ Hm). naive_solver.
  - apply no_empty_foldl; [|apply Hm]. intros; by apply no_empty_insert.
  - apply no_empty_foldl; [|apply Hm]. intros; by apply no_empty_insert.
  - destruct sort; [apply no_empty_insert|]; apply Hm.
  - done.
  - intros i Hi. destruct (mo_free _ Hm i (Hfree i Hi)) as [H1 H2]. split; [lia|].
    rewrite lookup_insert_ne; [done|]. by intros ->.
  - intros i reg. destruct (decide (i = id)) as [->|Hne]; [done|]. rewrite lookup_insert_ne by done.
    intros Hi%(mo_live _ Hm). lia.
Qed.

Lemma deregister_ok m id : meta_ok m -> meta_ok (deregister m id).
Proof.
  intros Hm. unfold deregister. destruct (registrations m !! id) as [reg|] eqn:E; [|done].
  assert (forall (P : EntryRegistration -> Prop) i, (exists r, delete id (registrations m) !! i = Some r /\ P r)
    <-> (exists r, registrations m !! i = Some r /\ P r) /\ i <> id) as Hreg.
  { intros P i. destruct (decide (i = id)) as [->|Hne].
    - rewrite lookup_delete_eq. naive_solver.
    - rewrite lookup_delete_ne by done. naive_solver. }
  split; simpl.
  - intros ck i. rewrite listed_remove_all, (mo_clause _ Hm), (Hreg (fun r => ck ∈ clause_keys r)). naive_solver.
  - intros f i. rewrite listed_remove_all, (mo_field _ Hm), (Hreg (fun r => f ∈ field_keys r)). naive_solver.
  - intros sk i. rewrite (Hreg (fun r => sort_key r = Some sk)). destruct (sort_key reg) as [sk'|] eqn:Es.
    + rewrite listed_remove, (mo_sort _ Hm). naive_solver.
    + rewrite (mo_sort _ Hm). naive_solver.
  - apply no_empty_foldl; [|apply Hm]. intros; by apply no_empty_remove.
  - apply no_empty_foldl; [|apply Hm]. intros; by apply no_empty_remove.
  - destruct (sort_key reg); [apply no_empty_remove|]; apply Hm.
  - apply NoDup_app. split_and!; [apply Hm| |repeat constructor; set_solver].
    intros i Hi ->%list_elem_of_singleton. apply (mo_free _ Hm) in Hi as [_ Hi]. congruence.
  - intros i [Hi| ->%list_elem_of_singleton]%elem_of_app.
    + destruct (mo_free _ Hm i Hi) as [H1 H2]. split; [done|]. destruct (decide (i = id)) as [->|]; [congruence|].
      by rewrite lookup_delete_ne.
    + split; [by apply (mo_live _ Hm) in E|]. apply lookup_delete_eq.
  - intros i r. rewrite lookup_delete_Some. intros [_ Hi]. by apply (mo_live _ Hm) in Hi.
Qed.

(** ** Reachable states *)

(** The states a running index goes through: registrations, restores under ids that
    are neither live nor free, removals and tombstones, while ids fit 32 bits. *)
Inductive reachable : t B -> Prop :=
| reach_new : reachable new
| reach_register m clauses original sf dir :
    reachable m -> next_id m < 4294967295 -> reachable (register m clauses original sf dir).2
| reach_restore m id clauses original sf dir :
    reachable m -> registrations m !! id = None -> id ∉ free_ids m -> id < 4294967295 ->
    reachable (register_with_id m id clauses original sf dir)
| reach_next m id : reachable m -> next_id m <= id -> reachable (set_next_id m id)
| reach_deregister m id : reachable m -> reachable (deregister m id)
| reach_tombstones m b : reachable m -> reachable (set_tombstoned m b).

Lemma register_ok m clauses original sf dir :
  meta_ok m -> next_id m < 4294967295 -> meta_ok (register m clauses original sf dir).2.
Proof.
  intros Hm Hn. unfold register. destruct (allocate_id m) as [[id next] free] eqn:Ea.
  destruct (allocate_fresh m id next free Hm Hn Ea) as (H1 & H2 & H3 & H4 & H5). simpl. apply insert_registration_ok; try done. lia.
Qed.

Lemma register_with_id_ok m id clauses original sf dir :
  meta_ok m -> registrations m !! id = None -> id ∉ free_ids m -> id < 4294967295 -> meta_ok (register_with_id m id clauses original sf dir).
Proof.
  intros Hm Hid Hfree Hlt. unfold register_with_id. apply insert_registration_ok; try done.
  - destruct (N.leb_spec (next_id m) id); [unfold wrap32; rewrite N.mod_small by lia; lia|done].
  - destruct (N.leb_spec (next_id m) id); [unfold wrap32; rewrite N.mod_small by lia; lia|done].
  - constructor; [done|apply Hm].
Qed.

Lemma reachable_ok m : reachable m -> meta_ok m.
Proof.
  induction 1 as [|m clauses original sf dir _ IH Hn|m id clauses original sf dir _ IH Hid Hfree Hlt|m id _ IH Hle|m id _ IH|m b _ IH].
  - apply meta_ok_new.
  - by apply register_ok.
  - by apply register_with_id_ok.
  - destruct IH. split; simpl; try done.
    + intros i Hi. destruct (mo_free0 i Hi). split; [lia|done].
    + intros i reg Hi. apply mo_live0 in Hi. lia.
  - by apply deregister_ok.
  - by destruct IH.
Qed.

Lemma intersect_clauses_spec m clauses : forall acc,
  meta_ok m ->
  let live id := exists reg, registrations m !! id = Some reg /\ forall ck, ck ∈ clauses -> ck ∈ clause_keys reg in
  match intersect_clauses m acc clauses with
  | None => forall id, ~ live id
  | Some None => clauses = [] /\ acc = None
  | Some (Some b) => forall id, id ∈ b <->
      (match acc with Some a => id ∈ a | None => True end) /\ (clauses = [] \/ live id)
  end.
Proof.
  intros acc Hm. revert acc. induction clauses as [|ck rest IH]; intros acc; simpl.
  { destruct acc; naive_solver. }
  destruct (clause_bitmaps m !! ck) as [bm|] eqn:E.
  - assert (forall id, id ∈ bm <-> exists reg, registrations m !! id = Some reg /\ ck ∈ clause_keys reg) as Hbm.
    { intros id. rewrite <- (mo_clause _ Hm). unfold listed. rewrite E. naive_solver. }
    specialize (IH (Some match acc with Some r => rb_and r bm | None => bm end)).
    destruct (intersect_clauses m _ rest) as [[b|]|].
    + intros id. rewrite IH. setoid_rewrite elem_of_cons.
      assert (id ∈ (match acc with Some r => rb_and r bm | None => bm end) <->
        (match acc with Some a => id ∈ a | None => True end) /\ id ∈ bm) as ->.
      { destruct acc; [apply rb_elem_of_and|naive_solver]. }
      rewrite Hbm. destruct rest as [|ck' rest]; [set_solver|]. naive_solver.
    + naive_solver.
    + intros id (reg & Hr & Hc). apply (IH id). exists reg. split; [done|]. intros ck' Hck'. apply Hc. by apply elem_of_cons; right.
  - intros id (reg & Hr & Hc). assert (listed (clause_bitmaps m) ck id) as (bm & Hbm & _); [|congruence].
    apply (mo_clause _ Hm). exists reg. split; [done|]. apply Hc. by left.
Qed.

Lemma elem_of_fields_of clauses original f :
  f ∈ fields_of clauses original
  <-> (exists ck, ck ∈ clauses /\ f = cc_field ck) \/ (exists c : FilterClause B, c ∈ default [] original /\ f ∈ collect_leaf_fields c).
Proof.
  unfold fields_of. rewrite elem_of_elements, elem_of_union, elem_of_list_to_set, list_elem_of_fmap.
  rewrite elem_of_union_list. setoid_rewrite list_elem_of_fmap. naive_solver.
Qed.

(** the meta-index lists exactly the live cache entries.  In every reachable
    state the entries found for a clause, a field or a sort order are those whose
    registration names it, the entries found for a set of clauses and a sort order
    are those registered under all of them, and a new entry gets an id no live entry
    has and is listed under every field its clauses mention, at any depth. *)
Theorem meta_index_exact m :
  reachable m ->
  (forall field op v id, id ∈ default rb_new (entries_for_clause m field op v)
     <-> exists reg, registrations m !! id = Some reg /\ MkCanonical field op v ∈ clause_keys reg)
  /\ (forall field id, id ∈ default rb_new (entries_for_filter_field m field)
     <-> exists reg, registrations m !! id = Some reg /\ field ∈ field_keys reg)
  /\ (forall field id, id ∈ entries_for_sort_field m field
     <-> exists reg dir, registrations m !! id = Some reg /\ sort_key reg = Some (field, dir))
  /\ (forall clauses sf dir id, clauses <> [] ->
     id ∈ find_matching_entries m clauses sf dir
     <-> exists reg, registrations m !! id = Some reg /\ (forall ck, ck ∈ clauses -> ck ∈ clause_keys reg)
           /\ (forall sk, sort_of sf dir = Some sk -> sort_key reg = Some sk))
  /\ (forall clauses original sf dir, next_id m < 4294967295 ->
     let id := (register m clauses original sf dir).1 in
     registrations m !! id = None
     /\ exists reg, registrations (register m clauses original sf dir).2 = <[id := reg]> (registrations m)
          /\ clause_keys reg = clauses /\ sort_key reg = sort_of sf dir
          /\ forall f c, c ∈ default [] original -> f ∈ collect_leaf_fields c -> f ∈ field_keys reg).
Proof.
  intros Hm%reachable_ok. split_and!.
  - intros field op v id. unfold entries_for_clause. by rewrite listed_default, (mo_clause _ Hm).
  - intros field id. unfold entries_for_filter_field. by rewrite listed_default, (mo_field _ Hm).
  - intros field id. unfold entries_for_sort_field, entries_for_sort. rewrite rb_elem_of_or, !listed_default, !(mo_sort _ Hm).
    split; [naive_solver|]. intros (reg & [] & Hr & Hs); naive_solver.
  - intros clauses sf dir id Hne. unfold find_matching_entries. destruct clauses as [|ck rest]; [done|].
    pose proof (intersect_clauses_spec m (ck :: rest) None Hm) as Hi. cbv zeta in Hi.
    destruct (intersect_clauses m None (ck :: rest)) as [[b|]|]; [|by destruct Hi|].
    + simpl default. destruct (sort_of sf dir) as [sk|].
      * pose proof (mo_sort _ Hm sk id) as Hsk. rewrite <- listed_default in Hsk.
        assert (id ∈ (match sort_bitmaps m !! sk with Some bm => rb_and b bm | None => rb_new end)
                <-> id ∈ b /\ id ∈ default rb_new (sort_bitmaps m !! sk)) as ->.
        { destruct (sort_bitmaps m !! sk) as [bm|]; simpl; [apply rb_elem_of_and|]. split; [|by intros []].
          intros Hx. by apply rb_elem_of_new in Hx. }
        rewrite Hi, Hsk. clear Hi Hsk. split.
        -- intros [[_ [?|(reg & Hr & Hc)]] (reg' & Hr' & Hs)]; [done|]. exists reg. split_and!; [done|done|].
           intros sk' [= <-]. congruence.
        -- intros (reg & Hr & Hc & Hs). split; [split; [done|]|]; [right|]; exists reg; auto.
      * rewrite Hi. clear Hi. split.
        -- intros [_ [?|(reg & Hr & Hc)]]; [done|]. exists reg. by split_and!.
        -- intros (reg & Hr & Hc & _). split; [done|]. right. by exists reg.
    + split; [intros Hx; by apply rb_elem_of_new in Hx|]. intros (reg & Hr & Hc & _). destruct (Hi id). by exists reg.
  - intros clauses original sf dir Hn. unfold register. destruct (allocate_id m) as [[id next] free] eqn:Ea.
    destruct (allocate_fresh m id next free Hm Hn Ea) as (H1 & _). simpl. split; [done|]. eexists; split_and!; [done..|].
    intros f c Hc Hf. simpl. apply elem_of_fields_of. right. by exists c.
Qed.

(** Recycled ids keep their tombstone: it belongs to the id, not the entry. *)
Lemma tombstone_survives_recycling m id clauses original sf dir :
  meta_ok m -> is_Some (registrations m !! id) ->
  let m' := register (deregister (tombstone m id) id) clauses original sf dir in
  m'.1 = id /\ is_tombstoned m'.2 id = true.
Proof.
  intros Hm [reg Hreg]. unfold deregister. simpl. rewrite Hreg. unfold register, allocate_id. simpl. rewrite last_snoc.
  simpl. split; [done|]. apply rb_contains_true, rb_elem_of_insert. by left.
Qed.

End facts.

(** ** Witness *)

Definition demo_meta : t Bitset :=
  (register (deregister (register (register new
     [MkCanonical "level" "eq" "3"] None (Some "likes"%string) (Some Desc)).2
     [MkCanonical "level" "eq" "3"; MkCanonical "tag" "in" "1,2"] None (Some "likes"%string) (Some Asc)).2 0)
     [MkCanonical "" "and" "x"] (Some [Not (And [Eq "model"%string (Integer 1)])]) None None).2.

Lemma meta_index_exact_witness :
  rb_iter (find_matching_entries demo_meta [MkCanonical "tag" "in" "1,2"] (Some "likes"%string) (Some Asc)) = [1]
  /\ 0 ∈ default rb_new (entries_for_filter_field demo_meta "model").
Proof.
  split; [by vm_compute|].
  assert (reachable demo_meta) as Hr.
  { apply reach_register; [|by vm_compute]. apply reach_deregister. apply reach_register; [|by vm_compute].
    apply reach_register; [|by vm_compute]. apply reach_new. }
  destruct (meta_index_exact demo_meta Hr) as (_ & Hf & _). apply (proj2 (Hf "model"%string 0)). eexists. split; [by vm_compute|]. by left.
Defined.
