(* ===== verification/CacheEntry.v ===== *)
(** * Cache entries (src/unified_cache.rs, [UnifiedEntry])

    An entry holds the top of a sorted filter result: a bitmap of slots, the sort
    value of the last of them (the bound), and either the slots' packed sort keys or,
    once expanded, a radix index.  Flags the code keeps in atomics are plain fields;
    the clock is an argument. *)

From S2P Require Import Prelude Roaring Versioned Slot Config Sort Filter Float64 Bytes.
From S2P Require Import BucketDiffLog TimeBuckets Query Dictionary Planner Executor Radix CacheKeys.

(** A genuine time-bucket clause; pre-filters also use the operator "bucket". *)
Definition is_time_bucket_clause (c : CanonicalClause) : bool :=
  bool_decide (cc_op c = "bucket"%string) && negb (bool_decide (cc_field c = "__prefilter"%string)).

(** Cost classes for cheap-first ordering. *)
Fixpoint clause_atom_cost {B : Type} (c : FilterClause B) : N :=
  match c with
  | Eq _ _ | IsNull _ | IsNotNull _ | BucketBitmap _ _ _ => 1
  | NotEq _ _ | Gt _ _ | Gte _ _ | Lt _ _ | Lte _ _ => 2
  | In _ _ | NotIn _ _ => 3
  | And parts | Or parts => N.max (foldr N.max 0 (map clause_atom_cost parts)) 4
  | Not inner => match inner with And _ | Or _ => 5 | other => clause_atom_cost other end
  end.

Definition saturating_add32 (a b : N) : N := N.min (a + b) u32_max.

Fixpoint count_one_leaf_atom {B : Type} (c : FilterClause B) : N :=
  match c with
  | In _ vs | NotIn _ vs => wrap32 (N.of_nat (length vs))
  | Not inner => count_one_leaf_atom inner
  | And parts | Or parts => foldl saturating_add32 0 (map count_one_leaf_atom parts)
  | _ => 1
  end.

Definition count_leaf_atoms {B : Type} (clauses : list (FilterClause B)) : N :=
  foldl saturating_add32 0 (map count_one_leaf_atom clauses).

(** Inside the bound: strictly above the floor, or below the ceiling. *)
Definition sort_qualifies_raw (value min_tracked_value : N) (direction : SortDirection) : bool :=
  match direction with
  | Desc => min_tracked_value <? value
  | Asc => value <? min_tracked_value
  end.

Module UnifiedEntry.

Record t (B : Type) : Type := mk {
  bitmap : B;
  min_tracked_value : N;
  capacity : nat;
  max_capacity : nat;
  has_more : bool;
  total_matched : N;
  needs_rebuild : bool;
  rebuilding : bool;
  prefetching : bool;
  last_used : N;
  formed_at_ms : N;
  meta_id : N;
  persist_dirty : bool;
  sorted_keys : option (list N);
  radix : option (RadixSortIndex.t B);
  direction : SortDirection;
  bucket_cutoff : N;
  uses_bucket : bool;
  original_filter_clauses : list (FilterClause B);
}.
Arguments mk {B}.
Arguments bitmap {B} _.
Arguments min_tracked_value {B} _.
Arguments capacity {B} _.
Arguments max_capacity {B} _.
Arguments has_more {B} _.
Arguments total_matched {B} _.
Arguments needs_rebuild {B} _.
Arguments rebuilding {B} _.
Arguments prefetching {B} _.
Arguments last_used {B} _.
Arguments formed_at_ms {B} _.
Arguments meta_id {B} _.
Arguments persist_dirty {B} _.
Arguments sorted_keys {B} _.
Arguments radix {B} _.
Arguments direction {B} _.
Arguments bucket_cutoff {B} _.
Arguments uses_bucket {B} _.
Arguments original_filter_clauses {B} _.

Section ops.
Context {B : Type} `{!RoaringOps B}.

(** The contents maintenance changes: bitmap, bound, capacity, [has_more], sort keys,
    radix; everything else is copied. *)
Definition with_contents (e : t B) (b : B) (min : N) (cap : nat) (more dirty : bool) (keys : option (list N))
    (rx : option (RadixSortIndex.t B)) : t B :=
  mk b min cap (max_capacity e) more (total_matched e) (needs_rebuild e) (rebuilding e) (prefetching e)
     (last_used e) (formed_at_ms e) (meta_id e) dirty keys rx (direction e) (bucket_cutoff e) (uses_bucket e)
     (original_filter_clauses e).

Definition with_flags (e : t B) (rebuild in_progress prefetch : bool) (used : N) (dirty : bool) : t B :=
  mk (bitmap e) (min_tracked_value e) (capacity e) (max_capacity e) (has_more e) (total_matched e)
     rebuild in_progress prefetch used (formed_at_ms e) (meta_id e) dirty (sorted_keys e) (radix e) (direction e)
     (bucket_cutoff e) (uses_bucket e) (original_filter_clauses e).

Definition set_bucket_cutoff (e : t B) (cutoff : N) : t B :=
  mk (bitmap e) (min_tracked_value e) (capacity e) (max_capacity e) (has_more e) (total_matched e)
     (needs_rebuild e) (rebuilding e) (prefetching e) (last_used e) (formed_at_ms e) (meta_id e) (persist_dirty e)
     (sorted_keys e) (radix e) (direction e) cutoff (uses_bucket e) (original_filter_clauses e).

Definition set_uses_bucket (e : t B) (uses : bool) : t B :=
  mk (bitmap e) (min_tracked_value e) (capacity e) (max_capacity e) (has_more e) (total_matched e)
     (needs_rebuild e) (rebuilding e) (prefetching e) (last_used e) (formed_at_ms e) (meta_id e) (persist_dirty e)
     (sorted_keys e) (radix e) (direction e) (bucket_cutoff e) uses (original_filter_clauses e).

Definition insert_all (b : B) (slots : list N) : B := foldl rb_insert b slots.
Definition remove_all (b : B) (slots : list N) : B := foldl rb_remove b slots.

(** Packed keys, in traversal order. *)
Definition build_sorted_keys (slots : list N) (dir : SortDirection) (value_fn : N -> N) : list N :=
  let keys := (fun slot => N.lor (N.shiftl (value_fn slot) 32) slot) <$> slots in
  match dir with
  | Desc => merge_sort (flip N.le) keys
  | Asc => merge_sort N.le keys
  end.

Definition new_with_clauses (now : N) (sorted_slots : list N) (cap max_cap : nat) (more : bool) (total id : N)
    (dir : SortDirection) (clauses : list (FilterClause B)) (value_fn : N -> N) : t B :=
  let taken := take cap sorted_slots in
  mk (insert_all rb_new taken) (default 0 (value_fn <$> last taken)) cap max_cap more total
     false false false now now id true
     (match taken with [] => None | _ => Some (build_sorted_keys taken dir value_fn) end)
     None dir 0 false clauses.

Definition from_restored_with_clauses (now : N) (bm : B) (id : N) (initial_cap max_cap : nat) (dir : SortDirection)
    (persisted_keys : option (list N)) (value_fn : N -> N) (more : bool) (persisted_total : N)
    (clauses : list (FilterClause B)) : t B :=
  let card := N.to_nat (rb_len bm) in
  let cap := if (initial_cap <? card)%nat then max_cap else initial_cap in
  let keys := match persisted_keys with
              | Some sk => match sk with [] => None | _ => Some sk end
              | None =>
                  let slots := rb_iter bm in
                  match slots with
                  | [] => None
                  | _ => if (card <=? max_cap)%nat then Some (build_sorted_keys slots dir value_fn) else None
                  end
              end in
  let min := default 0 ((fun k => wrap32 (N.shiftr k 32)) <$> (keys ≫= last)) in
  let total := if 0 <? persisted_total then persisted_total else N.of_nat card in
  mk bm min cap max_cap more total false false false now now id false keys None dir 0 false clauses.

Definition is_bucket_ttl_expired (e : t B) (now ttl_ms : N) : bool :=
  uses_bucket e && (0 <? ttl_ms) && (ttl_ms <? now - formed_at_ms e).

Definition apply_bucket_diff (e : t B) (candidates own_bucket_live : B) (new_cutoff : N) : bool * t B :=
  let to_remove := rb_sub (rb_and (bitmap e) candidates) own_bucket_live in
  if negb (rb_is_empty candidates) && negb (rb_is_empty to_remove) then
    (true, set_bucket_cutoff
       (with_contents e (rb_sub (bitmap e) to_remove) (min_tracked_value e) (capacity e) (has_more e) true None
          ((fun r => foldl RadixSortIndex.remove_blind r (rb_iter to_remove)) <$> radix e)) new_cutoff)
  else (false, set_bucket_cutoff e new_cutoff).

Definition mark_for_rebuild (e : t B) : t B :=
  with_flags e true (rebuilding e) (prefetching e) (last_used e) (persist_dirty e).

Definition touch (e : t B) (now : N) : t B :=
  with_flags e (needs_rebuild e) (rebuilding e) (prefetching e) now (persist_dirty e).

Definition set_prefetching (e : t B) (val : bool) : t B :=
  with_flags e (needs_rebuild e) (rebuilding e) val (last_used e) (persist_dirty e).

Definition mark_persist_dirty (e : t B) : t B :=
  with_flags e (needs_rebuild e) (rebuilding e) (prefetching e) (last_used e) true.

Definition clear_persist_dirty (e : t B) : t B :=
  with_flags e (needs_rebuild e) (rebuilding e) (prefetching e) (last_used e) false.

(** [compare_exchange(false, true)]. *)
Definition try_start_rebuild (e : t B) : bool * t B :=
  if rebuilding e then (false, e)
  else (true, with_flags e (needs_rebuild e) true (prefetching e) (last_used e) (persist_dirty e)).

Definition cardinality (e : t B) : N := rb_len (bitmap e).

(** The bloat check at the end of an addition. *)
Definition check_bloat (e : t B) : bool * t B :=
  if N.of_nat (capacity e * 2) <? rb_len (bitmap e) then (true, mark_for_rebuild e) else (false, e).

Definition add_slot (e : t B) (slot sort_value : N) : bool * t B :=
  check_bloat (with_contents e (rb_insert (bitmap e) slot) (min_tracked_value e) (capacity e) (has_more e) true None
                 ((fun r => RadixSortIndex.insert r slot sort_value) <$> radix e)).

Definition add_slots_bulk (e : t B) (adds : list (N * N)) : bool * t B :=
  match adds with
  | [] => (false, e)
  | _ => check_bloat
      (with_contents e (insert_all (bitmap e) adds.*1) (min_tracked_value e) (capacity e) (has_more e) true None
         ((fun r => foldl (fun r a => RadixSortIndex.insert r a.1 a.2) r adds) <$> radix e))
  end.

Definition remove_slots_bulk (e : t B) (removes : list (N * N)) : bool * t B :=
  let present := filter (fun slot => rb_contains (bitmap e) slot = true) removes.*1 in
  match present with
  | [] => (false, e)
  | _ => (true, with_contents e (remove_all (bitmap e) present) (min_tracked_value e) (capacity e) (has_more e) true None
                  ((fun r => foldl RadixSortIndex.remove_blind r present) <$> radix e))
  end.

Definition remove_slot (e : t B) (slot sort_value : N) : t B :=
  with_contents e (rb_remove (bitmap e) slot) (min_tracked_value e) (capacity e) (has_more e) true None
    ((fun r => RadixSortIndex.remove r slot sort_value) <$> radix e).

Definition remove_slot_blind (e : t B) (slot : N) : t B :=
  with_contents e (rb_remove (bitmap e) slot) (min_tracked_value e) (capacity e) (has_more e) true None
    ((fun r => RadixSortIndex.remove_blind r slot) <$> radix e).

Definition sort_qualifies (e : t B) (value : N) (dir : SortDirection) : bool :=
  sort_qualifies_raw value (min_tracked_value e) dir.

Definition expand (e : t B) (new_slots : list N) (value_fn : N -> N) : nat * t B :=
  let bm := insert_all (bitmap e) new_slots in
  let min := match last new_slots with Some slot => value_fn slot | None => min_tracked_value e end in
  let expected_chunk := (max_capacity e - capacity e)%nat in
  let more := if (length new_slots <? expected_chunk)%nat then false else has_more e in
  (max_capacity e, with_contents e bm min (max_capacity e) more true None
     (Some (RadixSortIndex.from_bitmap bm value_fn))).

Definition rebuild (e : t B) (sorted_slots : list N) (value_fn : N -> N) : t B :=
  let taken := take (capacity e) sorted_slots in
  let bm := insert_all rb_new taken in
  let expanded := (max_capacity e <=? capacity e)%nat in
  let keys := if expanded then None
              else match taken with [] => None | _ => Some (build_sorted_keys taken (direction e) value_fn) end in
  let rx := if expanded then Some (RadixSortIndex.from_bitmap bm value_fn) else None in
  with_flags (with_contents e bm (default 0 (value_fn <$> last taken)) (capacity e) (has_more e) (persist_dirty e) keys rx)
    false false (prefetching e) (last_used e) (persist_dirty e).

End ops.

End UnifiedEntry.
