(* ===== verification/CacheEval.v ===== *)
(** * Evaluating cache maintenance (src/unified_cache.rs, free functions)

    The cache worker re-checks the slots a flush changed against every cached entry
    they may affect: does the slot match the entry's filter, and does its sort value
    lie inside the entry's bound?  Two evaluators exist, one on canonical keys and one
    on the original clauses; the results are lists of additions and removals. *)

From S2P Require Import Prelude Roaring Versioned Slot Config Sort Filter Float64 Bytes.
From S2P Require Import BucketDiffLog TimeBuckets Query Dictionary Planner Executor Radix CacheKeys CacheEntry OpsWal.
From Stdlib Require Import Ascii.

Record UnifiedKey : Type := MkUnifiedKey {
  uk_filter_clauses : list CanonicalClause;
  uk_sort_field : string;
  uk_direction : SortDirection;
}.

Global Instance UnifiedKey_eq_dec : EqDecision UnifiedKey.
Proof. solve_decision. Defined.

Global Program Instance UnifiedKey_countable : Countable UnifiedKey :=
  inj_countable' (fun k => (uk_filter_clauses k, uk_sort_field k, uk_direction k))
    (fun '(c, f, d) => MkUnifiedKey c f d) _.
Next Obligation. by intros []. Qed.

Record CacheMaintenanceItem (B : Type) : Type := MkItem {
  it_key : UnifiedKey;
  it_slots : list N;
  it_min_tracked_value : N;
  it_direction : SortDirection;
  it_original_filter_clauses : list (FilterClause B);
}.
Arguments MkItem {B}.
Arguments it_key {B} _.
Arguments it_slots {B} _.
Arguments it_min_tracked_value {B} _.
Arguments it_direction {B} _.
Arguments it_original_filter_clauses {B} _.

Record CacheMaintenanceResult : Type := MkMaintenance {
  mr_key : UnifiedKey;
  mr_adds : list (N * N);
  mr_removes : list (N * N);
  mr_sort_bound_removes : list (N * N);
}.

(** [s.split(c)]: always at least one piece. *)
Fixpoint split_on (c : ascii) (s : string) : list string :=
  match s with
  | EmptyString => [""%string]
  | String a s' =>
      if bool_decide (a = c) then ""%string :: split_on c s'
      else match split_on c s' with
           | piece :: pieces => String a piece :: pieces
           | [] => [String a ""%string]
           end
  end.

Section eval.
Context {B : Type} `{!RoaringOps B}.
Context (to_lowercase : string -> string).
Context (filters : gmap string (FilterField.t B)) (sorts : gmap string (SortField.t B)).
Context (bucket_mgr : option (TimeBucketManager.t B)).
Context (maps : option StringMaps) (dicts : option (gmap string FieldDictionary.t)).

(** [filters.get_field(field).and_then(|f| f.get_versioned(v)).map(|vb| vb.contains(slot)).unwrap_or(false)]. *)
Definition field_contains (field : string) (value slot : N) : bool :=
  match (f ← filters !! field; FilterField.get_versioned f value) with
  | Some vb => VersionedBitmap.contains vb slot
  | None => false
  end.

Definition bucket_contains (mgr : TimeBucketManager.t B) (name : string) (slot : N) : bool :=
  match TimeBucketManager.get_bucket mgr name with
  | Some b => rb_contains (TimeBucket.bitmap b) slot
  | None => false
  end.

(** The operand of a negated operator: ["not("] and the last character stripped.  The
    operators of a key always close their parenthesis, so the slice is in range. *)
Definition strip_not (op : string) : option string :=
  if String.prefix "not(" op then Some (String.substring 4 (String.length op - 5) op) else None.

Definition range_holds (op : string) (v threshold : N) : bool :=
  if bool_decide (op = "gte"%string) then threshold <=? v
  else if bool_decide (op = "gt"%string) then threshold <? v
  else if bool_decide (op = "lt"%string) then v <? threshold
  else v <=? threshold.

(** The fuel is the length of the operator, which each negation shortens. *)
Fixpoint slot_matches_op (mgr : option (TimeBucketManager.t B)) (fuel : nat) (slot : N) (field op value_repr : string)
  : bool :=
  if bool_decide (op = "eq"%string) then
    match parse_dec u64_max value_repr with
    | Some value => field_contains field value slot
    | None => true
    end
  else if bool_decide (op = "neq"%string) then
    match parse_dec u64_max value_repr with
    | Some value => negb (field_contains field value slot)
    | None => true
    end
  else if bool_decide (op = "in"%string) then
    existsb (fun v_str => match parse_dec u64_max v_str with
                          | Some value => field_contains field value slot
                          | None => false
                          end) (split_on ","%char value_repr)
  else if bool_decide (op = "notin"%string) then
    forallb (fun v_str => match parse_dec u64_max v_str with
                          | Some value => negb (field_contains field value slot)
                          | None => true
                          end) (split_on ","%char value_repr)
  else if bool_decide (op ∈ ["gte"%string; "gt"%string; "lt"%string; "lte"%string]) then
    match parse_dec u64_max value_repr with
    | None => true
    | Some threshold =>
        match sorts !! field with
        | Some f => range_holds op (SortField.reconstruct_value f slot) threshold
        | None => true
        end
    end
  else if bool_decide (op = "bucket"%string) then
    match mgr with
    | None => true
    | Some m => bucket_contains m value_repr slot
    end
  else match strip_not op with
       | Some inner_op =>
           if bool_decide (inner_op = "and"%string) || bool_decide (inner_op = "or"%string) then true
           else match fuel with
                | O => true
                | S fuel => negb (slot_matches_op mgr fuel slot field inner_op value_repr)
                end
       | None => true
       end.

Definition slot_matches_clause (mgr : option (TimeBucketManager.t B)) (slot : N) (clause : CanonicalClause) : bool :=
  slot_matches_op mgr (String.length (cc_op clause)) slot (cc_field clause) (cc_op clause) (cc_value_repr clause).

Definition slot_matches_filter (slot : N) (clauses : list CanonicalClause) : bool :=
  forallb (slot_matches_clause bucket_mgr slot) clauses.

(** The bitmap of every bucket clause, by position. *)
Definition resolve_bucket_bitmaps (clauses : list CanonicalClause) : list (nat * option B) :=
  omap (fun ic : nat * CanonicalClause =>
          if bool_decide (cc_op ic.2 = "bucket"%string)
          then Some (ic.1, m ← bucket_mgr; TimeBucket.bitmap <$> TimeBucketManager.get_bucket m (cc_value_repr ic.2))
          else None) (imap pair clauses).

Definition bucket_mgr_present : bool := match bucket_mgr with Some _ => true | None => false end.

Definition slot_matches_filter_resolved (slot : N) (clauses : list CanonicalClause)
    (resolved_buckets : list (nat * option B)) : bool :=
  forallb (fun ic : nat * CanonicalClause =>
      if bool_decide (cc_op ic.2 = "bucket"%string) then
        match list_find (fun ib : nat * option B => ib.1 = ic.1) resolved_buckets with
        | Some (_, (_, Some bm)) => rb_contains bm slot
        | Some (_, (_, None)) => negb bucket_mgr_present
        | None => true
        end
      else slot_matches_clause None slot ic.2) (imap pair clauses).

(** ** The evaluator on original clauses *)

Definition resolve_filter_value (field : string) (val : Value) : option N :=
  match val with
  | Bool b => Some (if b then 1 else 0)
  | Integer v => Some (i64_as_u64 v)
  | Float _ => None
  | Str s =>
      let from_maps :=
        maps ← maps; field_map ← maps !! field;
        match field_map !! s with
        | Some v => Some v
        | None =>
            let lower := to_lowercase s in
            if bool_decide (lower = s) then None else field_map !! lower
        end in
      match from_maps with
      | Some v => Some (i64_as_u64 v)
      | None => dicts ← dicts; dict ← dicts !! field; i64_as_u64 <$> FieldDictionary.get to_lowercase dict s
      end
  end.

Definition range_native (field : string) (val : Value) (slot : N) (rel : N -> N -> bool) : bool :=
  match resolve_filter_value field val with
  | None => false
  | Some threshold =>
      match sorts !! field with
      | Some f => rel (SortField.reconstruct_value f slot) threshold
      | None => false
      end
  end.

Definition value_contains (field : string) (slot : N) (val : Value) : bool :=
  match resolve_filter_value field val with
  | Some key => field_contains field key slot
  | None => false
  end.

Fixpoint slot_matches_clause_native (slot : N) (clause : FilterClause B) : bool :=
  match clause with
  | Eq field val => value_contains field slot val
  | NotEq field val => negb (value_contains field slot val)
  | In field vals => existsb (value_contains field slot) vals
  | NotIn field vals => forallb (fun val => negb (value_contains field slot val)) vals
  | Gt field val => range_native field val slot (fun v t => t <? v)
  | Gte field val => range_native field val slot (fun v t => t <=? v)
  | Lt field val => range_native field val slot (fun v t => v <? t)
  | Lte field val => range_native field val slot (fun v t => v <=? t)
  | Not inner => negb (slot_matches_clause_native slot inner)
  | And parts => forallb (slot_matches_clause_native slot) parts
  | Or parts => existsb (slot_matches_clause_native slot) parts
  | IsNull field => field_contains field NULL_BITMAP_KEY slot
  | IsNotNull field => negb (field_contains field NULL_BITMAP_KEY slot)
  | BucketBitmap field bucket_name bitmap =>
      match bucket_mgr with
      | Some mgr => if bool_decide (field = "__prefilter"%string) then rb_contains bitmap slot
                    else bucket_contains mgr bucket_name slot
      | None => rb_contains bitmap slot
      end
  end.

Definition slot_matches_filter_native (slot : N) (clauses : list (FilterClause B)) : bool :=
  forallb (slot_matches_clause_native slot) clauses.

(** ** Work items *)

Notation item := (CacheMaintenanceItem B).

(** [Vec::dedup] on a sorted vector. *)
Fixpoint dedup_adjacent (l : list N) : list N :=
  match l with
  | x :: l' => match l' with
               | y :: _ => if x =? y then dedup_adjacent l' else x :: dedup_adjacent l'
               | [] => [x]
               end
  | [] => []
  end.

Definition slots_by_field (work : list item) : gmap string (list N) :=
  foldl (fun m it => <[uk_sort_field (it_key it) := default [] (m !! uk_sort_field (it_key it)) ++ it_slots it]> m) ∅ work.

Definition precompute_sort_values (work : list item) : gmap (string * N) N :=
  map_fold (fun field_name slots out =>
      match sorts !! field_name with
      | None => out
      | Some field => foldl (fun out slot => <[(field_name, slot) := SortField.reconstruct_value field slot]> out) out
                        (dedup_adjacent (merge_sort N.le slots))
      end) ∅ (slots_by_field work).

Definition compute_max_per_field (reconstructed : gmap (string * N) N) : gmap string N :=
  map_fold (fun fs value out => <[fs.1 := N.max value (default 0 (out !! fs.1))]> out) ∅ reconstructed.

Definition compute_min_per_field (reconstructed : gmap (string * N) N) : gmap string N :=
  map_fold (fun fs value out => <[fs.1 := N.min value (default u32_max (out !! fs.1))]> out) ∅ reconstructed.

(** The evaluator an item uses: native when it carries its clauses, else canonical,
    with the bucket bitmaps hoisted when there are any. *)
Definition item_matches (it : item) (slot : N) : bool :=
  match it_original_filter_clauses it with
  | [] =>
      match resolve_bucket_bitmaps (uk_filter_clauses (it_key it)) with
      | [] => slot_matches_filter slot (uk_filter_clauses (it_key it))
      | resolved => slot_matches_filter_resolved slot (uk_filter_clauses (it_key it)) resolved
      end
  | clauses => slot_matches_filter_native slot clauses
  end.

Inductive ItemOutcome : Type :=
  | Result (r : CacheMaintenanceResult)
  | CompoundTooLarge (k : UnifiedKey).

Definition too_large (compound_atom_limit : N) (it : item) : bool :=
  (0 <? compound_atom_limit)
  && match it_original_filter_clauses it with [] => false | cs => compound_atom_limit <? count_leaf_atoms cs end.

Definition precomputed (reconstructed : gmap (string * N) N) (it : item) (slot : N) : N :=
  default 0 (reconstructed !! (uk_sort_field (it_key it), slot)).

Definition outcome (key : UnifiedKey) (adds removes sort_bound : list (N * N)) : option ItemOutcome :=
  match adds, removes, sort_bound with
  | [], [], [] => None
  | _, _, _ => Some (Result (MkMaintenance key adds removes sort_bound))
  end.

(** The slot loop of [evaluate_filter_work]; the lists are built at their ends. *)
Definition filter_loop (it : item) (value : N -> N) (slots : list N) : list (N * N) * list (N * N) :=
  foldl (fun '(adds, removes) slot =>
      let sort_value := value slot in
      if item_matches it slot then
        if sort_qualifies_raw sort_value (it_min_tracked_value it) (it_direction it)
        then (adds ++ [(slot, sort_value)], removes) else (adds, removes)
      else (adds, removes ++ [(slot, sort_value)])) ([], []) slots.

Definition evaluate_filter_item (compound_atom_limit : N) (reconstructed : gmap (string * N) N) (it : item)
  : option ItemOutcome :=
  if too_large compound_atom_limit it then Some (CompoundTooLarge (it_key it))
  else let '(adds, removes) := filter_loop it (precomputed reconstructed it) (it_slots it) in
       outcome (it_key it) adds removes [].

(** Results and oversized entries, in the order of the work items. *)
Definition split_outcomes (os : list (option ItemOutcome)) : list CacheMaintenanceResult * list UnifiedKey :=
  (omap (fun o => match o with Some (Result r) => Some r | _ => None end) os,
   omap (fun o => match o with Some (CompoundTooLarge k) => Some k | _ => None end) os).

Definition evaluate_filter_work (compound_atom_limit : N) (work : list item)
  : list CacheMaintenanceResult * list UnifiedKey :=
  let reconstructed := precompute_sort_values work in
  split_outcomes (evaluate_filter_item compound_atom_limit reconstructed <$> work).

Definition field_loaded (it : item) : bool :=
  match sorts !! uk_sort_field (it_key it) with
  | Some f => SortField.is_fully_loaded f
  | None => false
  end.

Definition sort_loop (it : item) (value : N -> N) (slots : list N)
  : list (N * N) * list (N * N) * list (N * N) :=
  foldl (fun '(adds, removes, sort_bound) slot =>
      let sort_value := value slot in
      if negb (sort_qualifies_raw sort_value (it_min_tracked_value it) (it_direction it)) then
        (adds, removes, if field_loaded it then sort_bound ++ [(slot, sort_value)] else sort_bound)
      else if item_matches it slot then (adds ++ [(slot, sort_value)], removes, sort_bound)
      else (adds, if field_loaded it then removes ++ [(slot, sort_value)] else removes, sort_bound))
    ([], [], []) slots.

(** Whether some changed value of the field can enter, or leave, the bound. *)
Definition can_add_remove (it : item) (field_max field_min : N) : bool * bool :=
  match it_direction it with
  | Desc => (it_min_tracked_value it <? field_max, field_loaded it && (field_min <=? it_min_tracked_value it))
  | Asc => (field_min <? it_min_tracked_value it, field_loaded it && (it_min_tracked_value it <=? field_max))
  end.

Definition evaluate_sort_item (compound_atom_limit : N) (reconstructed : gmap (string * N) N)
    (max_per_field min_per_field : gmap string N) (it : item) : option ItemOutcome :=
  match max_per_field !! uk_sort_field (it_key it) with
  | None => None
  | Some field_max =>
      let field_min := default field_max (min_per_field !! uk_sort_field (it_key it)) in
      let '(can_add, can_remove) := can_add_remove it field_max field_min in
      if negb can_add && negb can_remove then None
      else if can_add && too_large compound_atom_limit it then Some (CompoundTooLarge (it_key it))
      else let '(adds, removes, sort_bound) := sort_loop it (precomputed reconstructed it) (it_slots it) in
           outcome (it_key it) adds removes sort_bound
  end.

Definition evaluate_sort_work (compound_atom_limit : N) (work : list item)
  : list CacheMaintenanceResult * list UnifiedKey :=
  let reconstructed := precompute_sort_values work in
  split_outcomes (evaluate_sort_item compound_atom_limit reconstructed (compute_max_per_field reconstructed)
    (compute_min_per_field reconstructed) <$> work).

End eval.
