(* ===== verification/CacheEvalTheorems.v ===== *)
(** * Theorems on cache maintenance (CacheEval)

    The evaluator on original clauses agrees with the executor's meaning of a filter,
    and the optimised evaluation of sort changes agrees with the direct one. *)

From S2P Require Import Prelude Roaring Versioned Slot Config Sort SortFacts Filter FilterFacts Float64 Bytes.
From S2P Require Import BucketDiffLog TimeBuckets Query Dictionary Planner Executor ExecutorFacts ExecutorTheorems Radix CacheKeys CacheEntry OpsWal CacheEval.

Lemma field_contains_true {B : Type} `{HB : Roaring B} (fs : gmap string (FilterField.t B)) (field : string) (key x : N) :
  field_contains fs field key x = true <-> exists ff, fs !! field = Some ff /\ has ff key x.
Proof.
  unfold field_contains, FilterField.get_versioned, has.
  destruct (fs !! field) as [ff|]; cbn; [|naive_solver].
  destruct (FilterField.bitmaps ff !! key) as [vb|] eqn:E; [rewrite contains_true|]; naive_solver.
Qed.

Lemma negb_iff (b : bool) (P : Prop) : (b = true <-> P) -> negb b = true <-> ~ P.
Proof. intros H. rewrite <- H. by destruct b. Qed.

Section native.
Context {B : Type} `{HB : Roaring B}.
Context (to_lowercase : string -> string) (ex : QueryExecutor B) (mgr : option (TimeBucketManager.t B)).
Implicit Types (c : FilterClause B) (x : N).

Notation sem := (matches to_lowercase ex).
Notation native := (slot_matches_clause_native to_lowercase (ex_filters ex) (ex_sorts ex) mgr (string_maps ex) (dictionaries ex)).
Notation resolve := (resolve_filter_value to_lowercase (string_maps ex) (dictionaries ex)).

(** The two copies of value resolution give the same key. *)
Definition same_key (field : string) (v : Value) : Prop := resolve field v = resolve_value_key to_lowercase ex field v.

(** A field indexed both ways: the slot's only filter key is its sort value, and no
    time bucket answers its ranges. *)
Definition range_agrees (field : string) (v : Value) x : Prop :=
  is_Some (value_to_bitmap_key v) /\ bucket_threshold ex field v = None
  /\ exists ff sf, ex_filters ex !! field = Some ff /\ ex_sorts ex !! field = Some sf
      /\ (SortField.num_bits sf <= 32)%nat
      /\ forall key, key <> NULL_BITMAP_KEY -> has ff key x <-> key = SortField.reconstruct_value sf x.

(** The clauses both evaluators are meant to agree on, for one slot. *)
Fixpoint maintained x c : Prop :=
  match c with
  | Eq field v => field <> "id"%string /\ same_key field v
  | NotEq field v => field <> "id"%string /\ same_key field v /\ ~ is_null ex field x
  | In field vs => field <> "id"%string /\ Forall (same_key field) vs
  | NotIn field vs => field <> "id"%string /\ Forall (same_key field) vs /\ ~ is_null ex field x
  | Gt field v | Gte field v | Lt field v | Lte field v => range_agrees field v x
  | Not inner => maintained x inner
  | And cs => cs <> [] /\ foldr and True (map (maintained x) cs)
  | Or cs => foldr and True (map (maintained x) cs)
  | IsNull _ | IsNotNull _ => True
  | BucketBitmap field name bitmap =>
      match mgr with
      | Some m => field = "__prefilter"%string \/ (bucket_contains m name x = rb_contains bitmap x)
      | None => True
      end
  end.

Lemma value_contains_true field v x :
  field <> "id"%string -> same_key field v ->
  value_contains to_lowercase (ex_filters ex) (string_maps ex) (dictionaries ex) field x v = true
  <-> matches_eq to_lowercase ex field v x.
Proof.
  intros Hid Hk. unfold matches_eq. rewrite bool_decide_false by done.
  unfold value_contains, holds_value. rewrite Hk.
  destruct (resolve_value_key to_lowercase ex field v) as [key|]; [rewrite field_contains_true|]; naive_solver.
Qed.

Lemma range_native_true field v x (rel : N -> N -> bool) :
  range_agrees field v x ->
  range_native to_lowercase (ex_sorts ex) (string_maps ex) (dictionaries ex) field v x rel = true
  <-> matches_range ex field v rel x.
Proof.
  intros ([t Ht] & _ & ff & sf & Hff & Hsf & Hbits & Hhas). unfold range_native, matches_range.
  assert (resolve field v = Some t) as -> by (destruct v; try done).
  rewrite Hsf, Ht, Hff. pose proof (reconstruct_bound sf x Hbits) as Hlt.
  assert (SortField.reconstruct_value sf x <> NULL_BITMAP_KEY) as Hnn.
  { assert (2 ^ N.of_nat (SortField.num_bits sf) <= 2 ^ 32) by (apply N.pow_le_mono_r; lia).
    unfold NULL_BITMAP_KEY, u64_max. change (2 ^ 32) with 4294967296 in *. lia. }
  split.
  - intros Hrel. exists ff, t, (SortField.reconstruct_value sf x). split_and!; try done. by apply Hhas.
  - intros (ff' & t' & key & [= <-] & [= <-] & Hn & Hp & Hh). apply Hhas in Hh; [|done]. by subst.
Qed.

Lemma matches_lower_range field v rel x : range_agrees field v x -> matches_lower ex field v rel x <-> matches_range ex field v rel x.
Proof. intros (_ & Hb & _). unfold matches_lower. by rewrite Hb. Qed.

Lemma matches_upper_range field v rel x : range_agrees field v x -> matches_upper ex field v rel x <-> matches_range ex field v rel x.
Proof. intros (_ & Hb & _). unfold matches_upper. by rewrite Hb. Qed.

Lemma native_correct x c : x ∈ alive ex -> maintained x c -> native x c = true <-> sem c x.
Proof.
  intros Ha.
  induction c as [f v|f v|f vs|f vs|f v|f v|f v|f v|c IH|cs IH|cs IH|f|f|f n b] using FilterClause_nested_ind; intros Hm.
  - destruct Hm as [Hid Hk]. by apply value_contains_true.
  - destruct Hm as (Hid & Hk & Hn). cbn. rewrite (negb_iff _ _ (value_contains_true f v x Hid Hk)). tauto.
  - destruct Hm as [Hid Hk]. cbn. rewrite existsb_exists. unfold matches_in.
    rewrite Forall_forall in Hk. setoid_rewrite <- list_elem_of_In.
    split; intros (v & Hv & H); exists v; (split; [done|]); by apply (value_contains_true f v x Hid (Hk v Hv)).
  - destruct Hm as (Hid & Hk & Hn). cbn. rewrite forallb_forall. unfold matches_in.
    rewrite Forall_forall in Hk. setoid_rewrite <- list_elem_of_In. split.
    + intros H. split_and!; [done| |done]. intros (v & Hv & Hm). specialize (H v Hv).
      apply (value_contains_true f v x Hid (Hk v Hv)) in Hm. by rewrite Hm in H.
    + intros (_ & H & _) v Hv. apply (negb_iff _ _ (value_contains_true f v x Hid (Hk v Hv))). naive_solver.
  - cbn in Hm |- *. by rewrite matches_lower_range, <- range_native_true.
  - cbn in Hm |- *. by rewrite matches_upper_range, <- range_native_true.
  - cbn in Hm |- *. by rewrite matches_lower_range, <- range_native_true.
  - cbn in Hm |- *. by rewrite matches_upper_range, <- range_native_true.
  - cbn in Hm |- *. rewrite (negb_iff _ _ (IH Hm)). tauto.
  - destruct Hm as [Hne Hm]. rewrite foldr_and_Forall in Hm. rewrite sem_And. cbn [slot_matches_clause_native].
    rewrite forallb_forall. setoid_rewrite <- list_elem_of_In. rewrite !Forall_forall in *. naive_solver.
  - cbn [maintained] in Hm. rewrite foldr_and_Forall in Hm. cbn [matches]. rewrite foldr_or_Exists, Exists_exists.
    cbn [slot_matches_clause_native]. rewrite existsb_exists. setoid_rewrite <- list_elem_of_In. rewrite !Forall_forall in *. naive_solver.
  - cbn. by rewrite field_contains_true.
  - cbn. rewrite (negb_iff _ _ (field_contains_true _ f NULL_BITMAP_KEY x)). unfold is_null. tauto.
  - cbn in Hm |- *. destruct mgr as [m|]; [|apply rb_contains_true].
    case_bool_decide as Hp; [apply rb_contains_true|]. destruct Hm as [|Hm]; [done|]. by rewrite Hm, rb_contains_true.
Qed.

(** C18: cache maintenance agrees with the query executor. For a live slot and an index
    whose filter and bucket bitmaps hold live slots only and that has no filter field
    called id, re-checking the slot against an entry's clauses gives the same answer as
    membership in the filter bitmap the executor computes for them, through every nesting
    of conjunctions, disjunctions and negations. The clauses name known fields within the
    range-scan limits, their pre-computed bitmaps hold live slots only, a top-level
    [NotEq] or [NotIn] is on a field without null slots; further, no equality or
    membership is on id, no conjunction is empty at any depth, equality values resolve to
    the same keys in both evaluators, a nested [NotEq] or [NotIn] is asked of a slot that
    is not null in its field, a range is on a field without a matching time bucket whose
    filter values and sort values (at most 32 layers) agree on the slot, and pre-computed
    bucket bitmaps (prefilters apart) agree with the bucket manager on the slot. (The
    finding on unified_cache.rs:2891 is what happens on id clauses and nulls.) *)
Theorem native_filter_correct (cs : list (FilterClause B)) x :
  index_ok ex -> Forall (clause_ok ex) cs -> x ∈ alive ex -> Forall (maintained x) cs ->
  exists b, compute_filters to_lowercase ex cs = Ok b
    /\ (slot_matches_filter_native to_lowercase (ex_filters ex) (ex_sorts ex) mgr (string_maps ex) (dictionaries ex) x cs = true
        <-> x ∈ b).
Proof.
  intros Hok Hcs Ha Hm. destruct (compute_filters_ok to_lowercase ex Hok cs Hcs) as (b & Hb & Hx). exists b. split; [done|].
  rewrite Hx. unfold slot_matches_filter_native. rewrite forallb_forall, Forall_forall. rewrite Forall_forall in Hm.
  setoid_rewrite <- list_elem_of_In. split.
  - intros H. split; [done|]. intros c Hc. apply native_correct; auto.
  - intros [_ H] c Hc. apply native_correct; auto.
Qed.

(** Case-insensitive string maps hold lower-case keys; then both copies of the value
    resolution agree. *)
Lemma same_key_string field s :
  (forall m fm k v, string_maps ex = Some m -> m !! field = Some fm -> fm !! k = Some v -> to_lowercase k = k) ->
  (forall cs, case_sensitive_fields ex = Some cs -> field ∉ cs) ->
  same_key field (Str s).
Proof.
  intros Hlow Hcs. unfold same_key, resolve_filter_value, resolve_value_key. cbn [value_to_bitmap_key].
  destruct (string_maps ex) as [m|]; cbn; [|done]. destruct (m !! field) as [fm|] eqn:Em; cbn; [|done].
  assert ((match case_sensitive_fields ex with Some cs => bool_decide (field ∈ cs) | None => false end) = false) as ->.
  { destruct (case_sensitive_fields ex) as [cs|]; [|done]. by apply bool_decide_eq_false, Hcs. }
  destruct (fm !! s) as [v|] eqn:Es.
  - by rewrite (Hlow m fm s v eq_refl Em Es), Es.
  - case_bool_decide as Hs; [by rewrite Hs, Es|done].
Qed.

End native.

(** ** Precomputed sort values *)

Section precompute.
Context {B : Type} `{HB : Roaring B}.
Context (sorts : gmap string (SortField.t B)).
Implicit Types (work : list (CacheMaintenanceItem B)) (it : CacheMaintenanceItem B) (x v : N) (f : string).

(** Some work item on sort field [f] looks at slot [x]. *)
Definition asks work f x : Prop := exists it, it ∈ work /\ uk_sort_field (it_key it) = f /\ x ∈ it_slots it.

Lemma slots_by_field_elem work f x : x ∈ default [] (slots_by_field work !! f) <-> asks work f x.
Proof.
  unfold slots_by_field, asks.
  enough (forall m : gmap string (list N), x ∈ default [] (foldl (fun m it =>
      <[uk_sort_field (it_key it) := default [] (m !! uk_sort_field (it_key it)) ++ it_slots it]> m) m work !! f)
    <-> x ∈ default [] (m !! f) \/ exists it, it ∈ work /\ uk_sort_field (it_key it) = f /\ x ∈ it_slots it) as H.
  { rewrite H, lookup_empty. simpl. set_solver. }
  induction work as [|it work IH]; intros m; simpl; [set_solver|]. rewrite IH. setoid_rewrite elem_of_cons.
  destruct (decide (f = uk_sort_field (it_key it))) as [->|Hne].
  - rewrite lookup_insert_eq. simpl. rewrite elem_of_app. naive_solver.
  - rewrite lookup_insert_ne by done. naive_solver.
Qed.

Lemma insert_values_lookup (sf : SortField.t B) f (slots : list N) : forall (out : gmap (string * N) N) g x,
  foldl (fun out slot => <[(f, slot) := SortField.reconstruct_value sf slot]> out) out slots !! (g, x)
  = if decide (g = f /\ x ∈ slots) then Some (SortField.reconstruct_value sf x) else out !! (g, x).
Proof.
  induction slots as [|s slots IH]; intros out g x; simpl.
  - rewrite decide_False; [done|]. by intros [_ ?%not_elem_of_nil].
  - rewrite IH. destruct (decide (g = f /\ x ∈ slots)) as [[-> Hx]|Hn].
    + rewrite decide_True; [done|]. split; [done|by right].
    + destruct (decide ((g, x) = (f, s))) as [[= -> ->]|Hne].
      * rewrite lookup_insert_eq, decide_True; [done|]. split; [done|by left].
      * rewrite lookup_insert_ne by congruence. rewrite decide_False; [done|]. rewrite elem_of_cons. naive_solver.
Qed.

Lemma dedup_adjacent_elem (l : list N) x : x ∈ dedup_adjacent l <-> x ∈ l.
Proof.
  induction l as [|a l IH]; [done|]. cbn [dedup_adjacent]. destruct l as [|b l]; [done|].
  destruct (N.eqb_spec a b) as [->|]; [rewrite IH|rewrite elem_of_cons, IH]; set_solver.
Qed.

Lemma dedup_sort_elem (l : list N) x : x ∈ dedup_adjacent (merge_sort N.le l) <-> x ∈ l.
Proof. by rewrite dedup_adjacent_elem, merge_sort_Permutation. Qed.

(** Every asked value is computed once, from the field's layers. *)
Lemma precompute_lookup work f x v :
  precompute_sort_values sorts work !! (f, x) = Some v
  <-> asks work f x /\ exists sf, sorts !! f = Some sf /\ v = SortField.reconstruct_value sf x.
Proof.
  rewrite <- slots_by_field_elem. unfold precompute_sort_values.
  apply (map_fold_weak_ind (fun out m => out !! (f, x) = Some v <-> x ∈ default [] (m !! f)
    /\ exists sf, sorts !! f = Some sf /\ v = SortField.reconstruct_value sf x)).
  - rewrite !lookup_empty. simpl. rewrite elem_of_nil. naive_solver.
  - intros g slots m out Hm IH. destruct (decide (f = g)) as [->|Hne].
    + rewrite lookup_insert_eq, Hm in *. simpl in *. rewrite elem_of_nil in IH.
      destruct (sorts !! g) as [sf|]; [|naive_solver].
      rewrite insert_values_lookup. case_decide as Hd; rewrite dedup_sort_elem in Hd; naive_solver.
    + rewrite lookup_insert_ne by done. rewrite <- IH. destruct (sorts !! g) as [sf|]; [|done].
      rewrite insert_values_lookup, decide_False by naive_solver. done.
Qed.

Lemma max_per_field_spec (r : gmap (string * N) N) f :
  match compute_max_per_field r !! f with
  | Some m => forall x v, r !! (f, x) = Some v -> v <= m
  | None => forall x, r !! (f, x) = None
  end.
Proof.
  unfold compute_max_per_field. apply (map_fold_weak_ind (fun out r => match out !! f with
    | Some m => forall x v, r !! (f, x) = Some v -> v <= m | None => forall x, r !! (f, x) = None end)); [rewrite lookup_empty; intros; apply lookup_empty|].
  intros [g y] w r' out Hr IH. cbn [fst]. destruct (decide (g = f)) as [->|Hne].
  - rewrite lookup_insert_eq. intros x v [[[= <-] <-]|[_ Hv]]%lookup_insert_Some; [lia|].
    destruct (out !! f) as [m|]; simpl; [apply IH in Hv; lia|by rewrite IH in Hv].
  - rewrite lookup_insert_ne by done. destruct (out !! f) as [m|].
    + intros x v [[Heq <-]|[_ Hv]]%lookup_insert_Some; [congruence|by eapply IH].
    + intros x. rewrite lookup_insert_ne by congruence. apply IH.
Qed.

Lemma max_per_field_some (r : gmap (string * N) N) f : is_Some (compute_max_per_field r !! f) -> exists x, is_Some (r !! (f, x)).
Proof.
  unfold compute_max_per_field. apply (map_fold_weak_ind (fun out r => is_Some (out !! f) -> exists x, is_Some (r !! (f, x)))).
  - rewrite lookup_empty. by intros [].
  - intros [g y] w r' out Hr IH. cbn [fst]. rewrite lookup_insert_is_Some. setoid_rewrite lookup_insert_is_Some.
    intros [->|[_ H]]; [exists y; by left|]. destruct (IH H) as [x Hx]. exists x. destruct (decide ((g, y) = (f, x))); auto.
Qed.

Lemma min_per_field_spec (r : gmap (string * N) N) f :
  match compute_min_per_field r !! f with
  | Some m => forall x v, r !! (f, x) = Some v -> m <= v
  | None => forall x, r !! (f, x) = None
  end.
Proof.
  unfold compute_min_per_field. apply (map_fold_weak_ind (fun out r => match out !! f with
    | Some m => forall x v, r !! (f, x) = Some v -> m <= v | None => forall x, r !! (f, x) = None end)); [rewrite lookup_empty; intros; apply lookup_empty|].
  intros [g y] w r' out Hr IH. cbn [fst]. destruct (decide (g = f)) as [->|Hne].
  - rewrite lookup_insert_eq. intros x v [[[= <-] <-]|[_ Hv]]%lookup_insert_Some; [lia|].
    destruct (out !! f) as [m|]; simpl; [apply IH in Hv; lia|by rewrite IH in Hv].
  - rewrite lookup_insert_ne by done. destruct (out !! f) as [m|].
    + intros x v [[Heq <-]|[_ Hv]]%lookup_insert_Some; [congruence|by eapply IH].
    + intros x. rewrite lookup_insert_ne by congruence. apply IH.
Qed.

End precompute.

(** ** The loops as filters *)

Section direct.
Context {B : Type} `{HB : Roaring B}.
Context (to_lowercase : string -> string).
Context (filters : gmap string (FilterField.t B)) (sorts : gmap string (SortField.t B)).
Context (bucket_mgr : option (TimeBucketManager.t B)).
Context (maps : option StringMaps) (dicts : option (gmap string FieldDictionary.t)).
Implicit Types (work : list (CacheMaintenanceItem B)) (it : CacheMaintenanceItem B) (x : N).

Notation matches it := (item_matches to_lowercase filters sorts bucket_mgr maps dicts it).

(** The slot's value, read from the sort field itself. *)
Definition direct_value it x : N :=
  match sorts !! uk_sort_field (it_key it) with Some sf => SortField.reconstruct_value sf x | None => 0 end.

Definition inside it (value : N -> N) x : bool := sort_qualifies_raw (value x) (it_min_tracked_value it) (it_direction it).

(** The slots that pass a test, with their values. *)
Definition select (value : N -> N) (test : N -> bool) (slots : list N) : list (N * N) :=
  (fun x => (x, value x)) <$> filter (fun x => test x = true) slots.

Lemma select_snoc value test slots x :
  select value test (slots ++ [x]) = if test x then select value test slots ++ [(x, value x)] else select value test slots.
Proof.
  unfold select. rewrite filter_app. destruct (test x) eqn:E.
  - by rewrite filter_cons_True, fmap_app by done.
  - by rewrite filter_cons_False, filter_nil, app_nil_r by (by rewrite E).
Qed.

Lemma filter_loop_select it value slots :
  filter_loop to_lowercase filters sorts bucket_mgr maps dicts it value slots
  = (select value (fun x => matches it x && inside it value x) slots, select value (fun x => negb (matches it x)) slots).
Proof.
  unfold filter_loop. induction slots as [|x slots IH] using rev_ind; [done|].
  rewrite foldl_app, IH. cbn [foldl]. rewrite !select_snoc. unfold inside. destruct (matches it x), (sort_qualifies_raw _ _ _); done.
Qed.

Definition when (b : bool) (l : list (N * N)) : list (N * N) := if b then l else [].

Lemma sort_loop_select it value slots :
  sort_loop to_lowercase filters sorts bucket_mgr maps dicts it value slots
  = (select value (fun x => matches it x && inside it value x) slots,
     when (field_loaded sorts it) (select value (fun x => inside it value x && negb (matches it x)) slots),
     when (field_loaded sorts it) (select value (fun x => negb (inside it value x)) slots)).
Proof.
  unfold sort_loop. induction slots as [|x slots IH] using rev_ind; [by destruct (field_loaded sorts it)|].
  rewrite foldl_app, IH. cbn [foldl]. rewrite !select_snoc. unfold inside.
  destruct (sort_qualifies_raw _ _ _), (matches it x); simpl; by destruct (field_loaded sorts it).
Qed.

Lemma select_ext value value' test test' slots :
  (forall x, x ∈ slots -> value x = value' x /\ test x = test' x) -> select value test slots = select value' test' slots.
Proof.
  unfold select. induction slots as [|x slots IH]; intros H; [done|].
  assert (forall y, y ∈ slots -> value y = value' y /\ test y = test' y) as H' by (intros y Hy; apply H; by right).
  destruct (H x (list_elem_of_here _ _)) as [Hv Ht]. specialize (IH H'). destruct (test x) eqn:E.
  - rewrite !filter_cons_True by congruence. cbn. by rewrite Hv, IH.
  - rewrite !filter_cons_False by congruence. done.
Qed.

Lemma precomputed_direct work it x :
  it ∈ work -> x ∈ it_slots it -> precomputed (precompute_sort_values sorts work) it x = direct_value it x.
Proof.
  intros Hit Hx. unfold precomputed, direct_value. set (f := uk_sort_field (it_key it)).
  destruct (precompute_sort_values sorts work !! (f, x)) as [v|] eqn:E.
  - apply precompute_lookup in E as (_ & sf & -> & ->). done.
  - destruct (sorts !! f) as [sf|] eqn:Es; [|done].
    assert (precompute_sort_values sorts work !! (f, x) = Some (SortField.reconstruct_value sf x)) as Hl; [|by rewrite Hl in E].
    apply precompute_lookup. split; [by exists it|]. by exists sf.
Qed.

Lemma select_precomputed work it (test : N -> bool -> bool) :
  it ∈ work -> let value := precomputed (precompute_sort_values sorts work) it in
  select value (fun x => test x (inside it value x)) (it_slots it)
  = select (direct_value it) (fun x => test x (inside it (direct_value it) x)) (it_slots it).
Proof. intros Hit. apply select_ext. intros x Hx. unfold inside. by rewrite (precomputed_direct work). Qed.

(** *** The reference evaluations, one slot at a time *)

Definition direct_filter_item (limit : N) it : option ItemOutcome :=
  if too_large limit it then Some (CompoundTooLarge (it_key it))
  else outcome (it_key it) (select (direct_value it) (fun x => matches it x && inside it (direct_value it) x) (it_slots it))
         (select (direct_value it) (fun x => negb (matches it x)) (it_slots it)) [].

Definition direct_sort_item it : option ItemOutcome :=
  match sorts !! uk_sort_field (it_key it) with
  | None => None
  | Some sf =>
      let loaded := SortField.is_fully_loaded sf in
      outcome (it_key it) (select (direct_value it) (fun x => matches it x && inside it (direct_value it) x) (it_slots it))
        (when loaded (select (direct_value it) (fun x => inside it (direct_value it) x && negb (matches it x)) (it_slots it)))
        (when loaded (select (direct_value it) (fun x => negb (inside it (direct_value it) x)) (it_slots it)))
  end.

Lemma filter_item_direct limit work it :
  it ∈ work ->
  evaluate_filter_item to_lowercase filters sorts bucket_mgr maps dicts limit (precompute_sort_values sorts work) it
  = direct_filter_item limit it.
Proof.
  intros Hit. unfold evaluate_filter_item, direct_filter_item. destruct (too_large limit it); [done|].
  rewrite filter_loop_select. f_equal; apply select_ext; intros x Hx; unfold inside; by rewrite (precomputed_direct work).
Qed.

Lemma select_none value test slots : (forall x, x ∈ slots -> test x = false) -> select value test slots = [].
Proof.
  intros H. rewrite (select_ext value value test (fun _ => false)); [|by auto]. unfold select.
  induction slots as [|x slots IH]; [done|]. rewrite filter_cons_False by done. apply IH. intros y Hy. apply H. by right.
Qed.

(** Some value of a skipped field can neither enter nor leave the bound. *)
Lemma fast_reject work it M m :
  it ∈ work -> let r := precompute_sort_values sorts work in let f := uk_sort_field (it_key it) in
  compute_max_per_field r !! f = Some M -> compute_min_per_field r !! f = Some m -> is_Some (sorts !! f) ->
  let '(can_add, can_remove) := can_add_remove sorts it M m in
  (can_add = false -> forall x, x ∈ it_slots it -> inside it (direct_value it) x = false)
  /\ (can_remove = false -> forall x, x ∈ it_slots it -> inside it (direct_value it) x = true \/ field_loaded sorts it = false).
Proof.
  intros Hit r f HM Hm [sf Hsf].
  assert (forall x, x ∈ it_slots it -> m <= direct_value it x <= M) as Hb.
  { intros x Hx. assert (r !! (f, x) = Some (direct_value it x)) as Hr.
    { apply precompute_lookup. split; [by exists it|]. unfold direct_value. fold f. rewrite Hsf. by exists sf. }
    pose proof (max_per_field_spec r f) as H1. pose proof (min_per_field_spec r f) as H2. rewrite HM in H1. rewrite Hm in H2.
    split; [by eapply H2|by eapply H1]. }
  unfold can_add_remove, inside, sort_qualifies_raw. destruct (it_direction it); (split; intros Hc x Hx; specialize (Hb x Hx)).
  - apply N.ltb_ge in Hc. apply N.ltb_ge. lia.
  - destruct (field_loaded sorts it); [left|by right]. apply N.leb_gt in Hc. apply N.ltb_lt. lia.
  - apply N.ltb_ge in Hc. apply N.ltb_ge. lia.
  - destruct (field_loaded sorts it); [left|by right]. apply N.leb_gt in Hc. apply N.ltb_lt. lia.
Qed.

(** The whole evaluation of one item, as the batch runs it. *)
Definition batched_sort_item limit work it : option ItemOutcome :=
  let r := precompute_sort_values sorts work in
  evaluate_sort_item to_lowercase filters sorts bucket_mgr maps dicts limit r (compute_max_per_field r) (compute_min_per_field r) it.

(** What the sort work may yield for an entry: the reference result; an entry with too
    many atoms is reported for eviction instead, unless no changed slot is inside its
    bound, when nothing has to be matched. *)
Definition sort_outcome limit it (o : option ItemOutcome) : Prop :=
  if too_large limit it then
    o = Some (CompoundTooLarge (it_key it))
    \/ o = direct_sort_item it
       /\ forall x, x ∈ it_slots it -> is_Some (sorts !! uk_sort_field (it_key it)) -> inside it (direct_value it) x = false
  else o = direct_sort_item it.

Lemma sort_outcome_direct limit it o : o = direct_sort_item it ->
  (too_large limit it = true -> forall x, x ∈ it_slots it -> is_Some (sorts !! uk_sort_field (it_key it)) -> inside it (direct_value it) x = false) ->
  sort_outcome limit it o.
Proof. intros -> H. unfold sort_outcome. destruct (too_large limit it); [right; split; [done|by apply H]|done]. Qed.

Lemma sort_item_outcome limit work it : it ∈ work -> sort_outcome limit it (batched_sort_item limit work it).
Proof.
  intros Hit. unfold batched_sort_item, evaluate_sort_item. cbv zeta. set (r := precompute_sort_values sorts work). set (f := uk_sort_field (it_key it)).
  pose proof (max_per_field_spec r f) as HM. pose proof (min_per_field_spec r f) as Hm.
  pose proof (fun M m => fast_reject work it M m Hit) as Hrej. cbv zeta in Hrej. fold r f in Hrej.
  assert (is_Some (sorts !! f) -> forall x, x ∈ it_slots it -> is_Some (r !! (f, x))) as Hasked.
  { intros [sf Hsf] x Hx. exists (SortField.reconstruct_value sf x). apply precompute_lookup. split; [by exists it|by exists sf]. }
  destruct (compute_max_per_field r !! f) as [M|] eqn:EM.
  2: { apply sort_outcome_direct; unfold direct_sort_item; fold f; destruct (sorts !! f) as [sf|] eqn:Es; [|done| |by intros _ x _ []].
       all: destruct (it_slots it) as [|x slots] eqn:Esl.
       - unfold select. rewrite !filter_nil. by destruct (SortField.is_fully_loaded sf).
       - destruct (Hasked ltac:(by eexists) x (list_elem_of_here _ _)) as [v Hv]. by rewrite HM in Hv.
       - by intros _ x ?%not_elem_of_nil.
       - destruct (Hasked ltac:(by eexists) x (list_elem_of_here _ _)) as [v Hv]. by rewrite HM in Hv. }
  destruct (max_per_field_some r f) as [y [v Hy]]; [by rewrite EM|].
  pose proof Hy as (_ & sf & Hsf & _)%precompute_lookup.
  destruct (compute_min_per_field r !! f) as [m|] eqn:Em; cbn [default from_option id].
  2: { by rewrite Hm in Hy. }
  specialize (Hrej M m eq_refl eq_refl ltac:(by eexists)).
  destruct (can_add_remove sorts it M m) as [can_add can_remove]. destruct Hrej as [Hadd Hrem].
  assert (field_loaded sorts it = SortField.is_fully_loaded sf) as Hload by (unfold field_loaded; fold f; by rewrite Hsf).
  destruct (negb can_add && negb can_remove) eqn:Eskip.
  - apply andb_true_iff in Eskip as [Ha Hr]. apply negb_true_iff in Ha, Hr. specialize (Hadd Ha). specialize (Hrem Hr).
    rewrite Hload in Hrem. apply sort_outcome_direct; [|by intros _ x Hx _; apply Hadd]. unfold direct_sort_item. fold f. rewrite Hsf.
    rewrite (select_none _ (fun x => item_matches _ _ _ _ _ _ it x && _)) by (intros x Hx; by rewrite Hadd, andb_false_r).
    destruct (SortField.is_fully_loaded sf); [|done]. simpl.
    rewrite !select_none; [done|intros x Hx..]; destruct (Hrem x Hx) as [Hi|]; try done; by rewrite Hadd in Hi.
  - destruct (can_add && too_large limit it) eqn:Elarge; [apply andb_true_iff in Elarge as [_ Hl]; unfold sort_outcome; rewrite Hl; by left|].
    apply sort_outcome_direct; [|intros Hl x Hx _; rewrite Hl, andb_true_r in Elarge; by apply Hadd].
    unfold direct_sort_item. fold f. rewrite Hsf, sort_loop_select, Hload. subst r.
    rewrite (select_precomputed work it (fun x b => item_matches to_lowercase filters sorts bucket_mgr maps dicts it x && b) Hit).
    rewrite (select_precomputed work it (fun x b => b && negb (item_matches to_lowercase filters sorts bucket_mgr maps dicts it x)) Hit).
    by rewrite (select_precomputed work it (fun _ b => negb b) Hit).
Qed.

Lemma sort_item_cases limit work it :
  it ∈ work ->
  batched_sort_item limit work it = direct_sort_item it
  \/ (too_large limit it = true /\ batched_sort_item limit work it = Some (CompoundTooLarge (it_key it))).
Proof. intros H%(sort_item_outcome limit). unfold sort_outcome in H. destruct (too_large limit it); naive_solver. Qed.


End direct.

(** ** Witnesses *)

Lemma native_filter_correct_witness :
  exists b, compute_filters string_lower demo_ex [Eq "tag" (Integer 10); Not (Or [Eq "level" (Integer 7); IsNull "tag"])] = Ok b
    /\ (slot_matches_filter_native string_lower (ex_filters demo_ex) (ex_sorts demo_ex) None (string_maps demo_ex) (dictionaries demo_ex)
          1 [Eq "tag" (Integer 10); Not (Or [Eq "level" (Integer 7); IsNull "tag"])] = true <-> 1 ∈ b).
Proof.
  apply (native_filter_correct string_lower demo_ex None).
  - apply demo_index_ok.
  - repeat constructor.
  - apply rb_contains_true. by vm_compute.
  - repeat constructor; discriminate.
Defined.

(** One entry with two changed slots, one of which leaves the bound. *)
Definition demo_item : CacheMaintenanceItem Bitset :=
  MkItem (MkUnifiedKey [MkCanonical "tag" "eq" "10"] "reactionCount" Desc) [1; 2; 3] 4 Desc [Eq "tag" (Integer 10)].

