(* ===== verification/UnifiedCache.v ===== *)
(** * The unified cache (src/unified_cache.rs, [UnifiedCache])

    Entries by key, the ids the meta-index knows them by, and the keys of each shard.
    The concurrent maps are plain maps; where the code walks one in hash order and the
    order matters, the order is an argument.  Hit and miss counters are left out.  The
    size of an entry depends on the roaring library and is a parameter. *)

From S2P Require Import Prelude Roaring Versioned Slot Config Sort Filter Float64 Bytes.
From S2P Require Import BucketDiffLog TimeBuckets Query Dictionary Planner Executor Radix CacheKeys CacheEntry OpsWal.
From S2P Require Import CacheEval MetaIndex.

Record UnifiedCacheConfig : Type := MkCacheConfig {
  max_entries : nat;
  max_bytes : N;
  initial_capacity : nat;
  max_capacity : nat;
  max_maintenance_work : N;
  max_maintenance_ms : N;
  compound_eval_atom_limit : N;
  bucket_entry_ttl_secs : N;
}.

Notation ShardKey := (string * SortDirection)%type.

Definition shard_of (key : UnifiedKey) : ShardKey := (uk_sort_field key, uk_direction key).

Module UnifiedCache.

Record t (B : Type) : Type := mk {
  entries : gmap UnifiedKey (UnifiedEntry.t B);
  meta_id_to_key : gmap N UnifiedKey;
  meta : MetaIndex.t B;
  config : UnifiedCacheConfig;
  total_bytes : N;
  pending_shards : gset ShardKey;
  loading_shards : gset ShardKey;
  meta_dirty : bool;
  shard_dirty : gset ShardKey;
  persistence_enabled : bool;
  restoring : bool;
  shard_to_keys : gmap ShardKey (gset UnifiedKey);
}.
Arguments mk {B}.
Arguments entries {B} _.
Arguments meta_id_to_key {B} _.
Arguments meta {B} _.
Arguments config {B} _.
Arguments total_bytes {B} _.
Arguments pending_shards {B} _.
Arguments loading_shards {B} _.
Arguments meta_dirty {B} _.
Arguments shard_dirty {B} _.
Arguments persistence_enabled {B} _.
Arguments restoring {B} _.
Arguments shard_to_keys {B} _.

Section ops.
Context {B : Type} `{!RoaringOps B}.
Context (memory_bytes : UnifiedEntry.t B -> N).
Implicit Types (c : t B) (key : UnifiedKey) (entry : UnifiedEntry.t B).

Definition new (cfg : UnifiedCacheConfig) : t B :=
  mk ∅ ∅ MetaIndex.new cfg 0 ∅ ∅ false ∅ false false ∅.

(** ** Field updates *)

Definition with_index c (es : gmap UnifiedKey (UnifiedEntry.t B)) (ids : gmap N UnifiedKey) (m : MetaIndex.t B)
    (bytes : N) (shards : gmap ShardKey (gset UnifiedKey)) : t B :=
  mk es ids m (config c) bytes (pending_shards c) (loading_shards c) (meta_dirty c) (shard_dirty c)
     (persistence_enabled c) (restoring c) shards.

Definition with_entries c (es : gmap UnifiedKey (UnifiedEntry.t B)) : t B :=
  with_index c es (meta_id_to_key c) (meta c) (total_bytes c) (shard_to_keys c).

Definition with_meta c (m : MetaIndex.t B) : t B :=
  with_index c (entries c) (meta_id_to_key c) m (total_bytes c) (shard_to_keys c).

Definition with_dirty c (md : bool) (sd : gset ShardKey) : t B :=
  mk (entries c) (meta_id_to_key c) (meta c) (config c) (total_bytes c) (pending_shards c) (loading_shards c) md sd
     (persistence_enabled c) (restoring c) (shard_to_keys c).

Definition with_shard_state c (pending loading : gset ShardKey) : t B :=
  mk (entries c) (meta_id_to_key c) (meta c) (config c) (total_bytes c) pending loading (meta_dirty c) (shard_dirty c)
     (persistence_enabled c) (restoring c) (shard_to_keys c).

Definition with_modes c (persistence restore : bool) : t B :=
  mk (entries c) (meta_id_to_key c) (meta c) (config c) (total_bytes c) (pending_shards c) (loading_shards c)
     (meta_dirty c) (shard_dirty c) persistence restore (shard_to_keys c).

Definition with_config c (cfg : UnifiedCacheConfig) : t B :=
  mk (entries c) (meta_id_to_key c) (meta c) cfg (total_bytes c) (pending_shards c) (loading_shards c) (meta_dirty c)
     (shard_dirty c) (persistence_enabled c) (restoring c) (shard_to_keys c).

(** Update one entry in place, if it is there. *)
Definition update_entry c key (f : UnifiedEntry.t B -> UnifiedEntry.t B) : t B := with_entries c (alter f key (entries c)).

(** ** Lookup *)

Definition bucket_entry_ttl_ms c : N := N.min (bucket_entry_ttl_secs (config c) * 1000) u64_max.

(** [lookup] and [lookup_for_read] differ in the lock they take. *)
Definition lookup (now_ms : N) c key : option (UnifiedEntry.t B) * t B :=
  match entries c !! key with
  | Some entry =>
      if UnifiedEntry.needs_rebuild entry then (None, c)
      else
        let ttl_ms := bucket_entry_ttl_ms c in
        if (0 <? ttl_ms) && UnifiedEntry.is_bucket_ttl_expired entry now_ms ttl_ms
        then (None, update_entry c key UnifiedEntry.mark_for_rebuild)
        else let entry' := UnifiedEntry.touch entry now_ms in
             (Some entry', update_entry c key (fun e => UnifiedEntry.touch e now_ms))
  | None => (None, c)
  end.

Definition set_entry_bucket_cutoff c key (cutoff : N) : t B :=
  update_entry c key (fun e => if UnifiedEntry.bucket_cutoff e <? cutoff then UnifiedEntry.set_bucket_cutoff e cutoff else e).

Definition mark_entry_for_rebuild c key : t B := update_entry c key UnifiedEntry.mark_for_rebuild.

Definition should_rebuild_single_flight c key : bool * t B :=
  match entries c !! key with
  | Some entry =>
      if UnifiedEntry.needs_rebuild entry
      then let '(won, entry') := UnifiedEntry.try_start_rebuild entry in (won, with_entries c (<[key := entry']> (entries c)))
      else (true, c)
  | None => (true, c)
  end.

(** ** Removal and eviction *)

(** [shard_to_keys]: remove a key, dropping a set that becomes empty. *)
Definition shard_remove (shards : gmap ShardKey (gset UnifiedKey)) key : gmap ShardKey (gset UnifiedKey) :=
  match shards !! shard_of key with
  | Some keys =>
      let keys' := keys ∖ {[key]} in
      if bool_decide (keys' = ∅) then delete (shard_of key) shards else <[shard_of key := keys']> shards
  | None => shards
  end.

Definition shard_insert (shards : gmap ShardKey (gset UnifiedKey)) key : gmap ShardKey (gset UnifiedKey) :=
  <[shard_of key := {[key]} ∪ default ∅ (shards !! shard_of key)]> shards.

(** What every removal of an entry does; whether the meta-index forgets it too is up
    to the caller. *)
Definition remove_entry c key (deregister : bool) : option (UnifiedEntry.t B * t B) :=
  entry ← entries c !! key;
  let id := UnifiedEntry.meta_id entry in
  Some (entry, with_index c (delete key (entries c)) (delete id (meta_id_to_key c))
    (if deregister then MetaIndex.deregister (meta c) id else meta c)
    (total_bytes c - memory_bytes entry) (shard_remove (shard_to_keys c) key)).

Definition evict_key c key : t B :=
  match remove_entry c key (negb (persistence_enabled c)) with
  | Some (_, c') => c'
  | None => c
  end.

(** The first key of the least recent use among those given. *)
Definition least_recent c (keys : list UnifiedKey) : option (N * UnifiedKey) :=
  foldl (fun best key =>
      match entries c !! key with
      | None => best
      | Some e =>
          let lu := UnifiedEntry.last_used e in
          match best with
          | None => Some (lu, key)
          | Some (t, _) => if lu <? t then Some (lu, key) else best
          end
      end) None keys.

Definition not_persist_dirty c key : bool :=
  match entries c !! key with Some e => negb (UnifiedEntry.persist_dirty e) | None => false end.

(** [order] is the order in which the map yields its keys. *)
Definition evict_lru c (order : list UnifiedKey) : option UnifiedKey * t B :=
  let all := snd <$> least_recent c order in
  let lru_key := if persistence_enabled c
                 then match least_recent c (filter (fun k => not_persist_dirty c k = true) order) with
                      | Some (_, k) => Some k
                      | None => all
                      end
                 else all in
  match lru_key with
  | Some key => (Some key, evict_key c key)
  | None => (None, c)
  end.

Definition SAMPLE_SIZE : nat := 8.

(** One round of sampled eviction over the keys the iterator yields after the skip. *)
Definition sampled_victim c (sample : list UnifiedKey) : option UnifiedKey :=
  let prefer_non_dirty := persistence_enabled c in
  let seen := take SAMPLE_SIZE sample in
  let eligible := filter (fun k => negb prefer_non_dirty || not_persist_dirty c k = true) seen in
  match least_recent c eligible with
  | Some (_, k) => Some k
  | None => if prefer_non_dirty then head sample else None
  end.

Fixpoint evict_rounds c (samples : list (list UnifiedKey)) : t B :=
  match samples with
  | [] => c
  | sample :: rest =>
      match sampled_victim c sample with
      | Some key => evict_rounds (evict_key c key) rest
      | None => c
      end
  end.

(** [samples] are the keys seen in the rounds; there are [max(1, entries / 10)] of them. *)
Definition evict_batch c (samples : list (list UnifiedKey)) : t B :=
  if bool_decide (entries c = ∅) then c
  else evict_rounds c (take (Nat.max 1 (size (entries c) / 10)) samples).

Definition over_budget c (new_bytes : N) : bool :=
  ((max_bytes (config c) <? total_bytes c + new_bytes) || (max_entries (config c) <=? size (entries c))%nat)
  && negb (bool_decide (entries c = ∅)).

(** ** Storing *)

Definition insert_entry c key entry (new_bytes : N) : t B :=
  with_index c (<[key := entry]> (entries c)) (<[UnifiedEntry.meta_id entry := key]> (meta_id_to_key c)) (meta c)
    (total_bytes c + new_bytes) (shard_insert (shard_to_keys c) key).

Definition mark_shard c key : t B := with_dirty c true ({[shard_of key]} ∪ shard_dirty c).

Definition store (samples : list (list UnifiedKey)) c key entry : t B :=
  let new_bytes := memory_bytes entry in
  let c := match remove_entry c key true with Some (_, c') => c' | None => c end in
  let c := if over_budget c new_bytes then evict_batch c samples else c in
  let c := if persistence_enabled c then mark_shard c key else c in
  insert_entry c key entry new_bytes.

Definition form_and_store_with_clauses (now_ms : N) (samples : list (list UnifiedKey)) c key (sorted_slots : list N)
    (has_more : bool) (total_matched : N) (clauses : list (FilterClause B)) (value_fn : N -> N) : N * t B :=
  let clauses := if (1 <? length clauses)%nat then stable_sort_by_key clause_atom_cost clauses else clauses in
  let '(id, m) := MetaIndex.register (meta c) (uk_filter_clauses key) (Some clauses) (Some (uk_sort_field key))
                    (Some (uk_direction key)) in
  let c := with_meta c m in
  let entry := UnifiedEntry.new_with_clauses now_ms sorted_slots (initial_capacity (config c))
                 (max_capacity (config c)) has_more total_matched id (uk_direction key) clauses value_fn in
  let entry := UnifiedEntry.set_uses_bucket entry (existsb is_time_bucket_clause (uk_filter_clauses key)) in
  (id, store samples c key entry).

Definition form_and_store (now_ms : N) (samples : list (list UnifiedKey)) c key (sorted_slots : list N)
    (has_more : bool) (total_matched : N) (value_fn : N -> N) : N * t B :=
  form_and_store_with_clauses now_ms samples c key sorted_slots has_more total_matched [] value_fn.

Definition allocate_meta_id_with_clauses c key (original : option (list (FilterClause B))) : N * t B :=
  let '(id, m) := MetaIndex.register (meta c) (uk_filter_clauses key) original (Some (uk_sort_field key))
                    (Some (uk_direction key)) in
  (id, with_meta c m).

Definition clear c : t B :=
  mk ∅ ∅ MetaIndex.new (config c) 0 ∅ ∅ false ∅ (persistence_enabled c) (restoring c) ∅.

Definition record_extension c key : t B := if persistence_enabled c then mark_shard c key else c.

Definition reconcile_bytes c : t B :=
  with_index c (entries c) (meta_id_to_key c) (meta c)
    (map_fold (fun _ e total => memory_bytes e + total) 0 (entries c)) (shard_to_keys c).

Definition count_needs_rebuild c : nat := size (filter (fun ke => UnifiedEntry.needs_rebuild ke.2 = true) (entries c)).

(** ** Shards and restoring *)

Definition enable_persistence c : t B := with_modes c true (restoring c).
Definition is_shard_pending c (shard : ShardKey) : bool := bool_decide (shard ∈ pending_shards c).
Definition is_shard_loading c (shard : ShardKey) : bool := bool_decide (shard ∈ loading_shards c).

Definition mark_shard_loading c (shard : ShardKey) : t B :=
  with_shard_state c (pending_shards c ∖ {[shard]}) ({[shard]} ∪ loading_shards c).

Definition mark_shard_loaded c (shard : ShardKey) : t B :=
  with_shard_state c (pending_shards c ∖ {[shard]}) (loading_shards c ∖ {[shard]}).

Definition add_pending_shards c (shards : list ShardKey) : t B :=
  with_shard_state c (pending_shards c ∪ list_to_set shards) (loading_shards c).

Definition insert_restored_entry (samples : list (list UnifiedKey)) c key entry : t B :=
  let bytes := memory_bytes entry in
  let c := if negb (restoring c) && over_budget c bytes then evict_batch c samples else c in
  insert_entry c key entry bytes.

Definition begin_restore c : t B := with_modes c (persistence_enabled c) true.

Fixpoint evict_to_budget c (candidates : list UnifiedKey) : t B :=
  match candidates with
  | [] => c
  | key :: rest =>
      if (total_bytes c <=? max_bytes (config c)) && (size (entries c) <=? max_entries (config c))%nat then c
      else evict_to_budget (evict_key c key) rest
  end.

Definition last_used_of c key : N := match entries c !! key with Some e => UnifiedEntry.last_used e | None => 0 end.

Definition finish_restore c (order : list UnifiedKey) : t B :=
  let c := with_modes c (persistence_enabled c) false in
  if negb (max_bytes (config c) <? total_bytes c) && negb (max_entries (config c) <? size (entries c))%nat then c
  else
    let candidates := if persistence_enabled c
                      then match filter (fun k => not_persist_dirty c k = true) order with
                           | [] => order
                           | non_dirty => non_dirty
                           end
                      else order in
    evict_to_budget c (stable_sort_by_key (last_used_of c) candidates).

Definition set_meta_dirty c : t B := with_dirty c true (shard_dirty c).
Definition clear_meta_dirty c : t B := with_dirty c false (shard_dirty c).
Definition mark_shard_dirty c (shard : ShardKey) : t B := with_dirty c (meta_dirty c) ({[shard]} ∪ shard_dirty c).
Definition clear_shard_dirty c (shard : ShardKey) : t B := with_dirty c (meta_dirty c) (shard_dirty c ∖ {[shard]}).
Definition has_entry_id c (meta_id : N) : bool := bool_decide (is_Some (meta_id_to_key c !! meta_id)).
Definition key_for_meta_id c (meta_id : N) : option UnifiedKey := meta_id_to_key c !! meta_id.

Definition keys_of_shard c (shard : ShardKey) : list UnifiedKey := elements (default ∅ (shard_to_keys c !! shard)).

Definition entries_for_shard c (shard : ShardKey) : list (N * UnifiedKey * B * option (list N)) :=
  omap (fun key => e ← entries c !! key;
          Some (UnifiedEntry.meta_id e, key, UnifiedEntry.bitmap e, UnifiedEntry.sorted_keys e)) (keys_of_shard c shard).

Definition clear_shard_entry_dirty c (shard : ShardKey) : t B :=
  foldl (fun c key => update_entry c key UnifiedEntry.clear_persist_dirty) c (keys_of_shard c shard).

Definition tombstone_entry c (meta_id : N) : t B := set_meta_dirty (with_meta c (MetaIndex.tombstone (meta c) meta_id)).

Definition finalize_shard_write c (cleaned_ids : list N) : t B :=
  with_meta c (foldl (fun m id => MetaIndex.deregister (MetaIndex.clear_tombstone m id) id) (meta c) cleaned_ids).

Definition shard_needs_cleanup c (shard : ShardKey) : bool :=
  match MetaIndex.entries_for_sort (meta c) shard.1 shard.2 with
  | None => false
  | Some bm =>
      let total := rb_len bm in
      let tombstoned := N.of_nat (length (filter (fun id => MetaIndex.is_tombstoned (meta c) id = true) (rb_iter bm))) in
      negb (total =? 0) && (total <? tombstoned * 2)
  end.

(** ** Tombstones: registered entries that are not in memory *)

Definition unloaded c (id : N) : bool := negb (has_entry_id c id) && negb (MetaIndex.is_tombstoned (meta c) id).

Definition tombstone_all c (ids : list N) : N * t B :=
  let to_tombstone := filter (fun id => unloaded c id = true) ids in
  (N.of_nat (length to_tombstone),
   match to_tombstone with
   | [] => c
   | _ => set_meta_dirty (with_meta c (foldl MetaIndex.tombstone (meta c) to_tombstone))
   end).

Definition tombstone_unloaded_for_filter c (changed_fields : list string) : N * t B :=
  if negb (persistence_enabled c) then (0, c)
  else tombstone_all c (mjoin ((fun field =>
         match MetaIndex.entries_for_filter_field (meta c) field with Some bm => rb_iter bm | None => [] end)
         <$> changed_fields)).

Definition tombstone_unloaded_for_sort c (changed_fields : list string) : N * t B :=
  if negb (persistence_enabled c) then (0, c)
  else tombstone_all c (mjoin ((fun field => rb_iter (MetaIndex.entries_for_sort_field (meta c) field)) <$> changed_fields)).

Definition tombstone_all_unloaded c : N * t B :=
  if negb (persistence_enabled c) then (0, c)
  else tombstone_all c (elements (MetaIndex.all_registered_ids (meta c))).

(** ** Deleted slots *)

(** The shards of all entries become dirty. *)
Definition dirty_all c : gset ShardKey :=
  if persistence_enabled c then list_to_set ((fun ke => shard_of ke.1) <$> map_to_list (entries c)) ∪ shard_dirty c
  else shard_dirty c.

Definition remove_slot_from_all c (slot : N) : t B :=
  with_dirty (with_entries c ((fun e => UnifiedEntry.remove_slot_blind e slot) <$> entries c)) (meta_dirty c) (dirty_all c).

Definition remove_slots (slots : list N) entry : UnifiedEntry.t B :=
  UnifiedEntry.with_contents entry (UnifiedEntry.remove_all (UnifiedEntry.bitmap entry) slots)
    (UnifiedEntry.min_tracked_value entry) (UnifiedEntry.capacity entry) (UnifiedEntry.has_more entry) true None
    ((fun r => foldl RadixSortIndex.remove_blind r slots) <$> UnifiedEntry.radix entry).

Definition remove_slots_from_all_batch c (slots : list N) : t B :=
  if bool_decide (slots = []) || bool_decide (entries c = ∅) then c
  else with_dirty (with_entries c (remove_slots slots <$> entries c)) (meta_dirty c) (dirty_all c).

(** ** Collecting maintenance work *)

Notation changes := (gmap (string * N) (list N)).

Definition add_changes (m : gmap string (gset N)) (ch : changes) : gmap string (gset N) :=
  map_fold (fun k slots m => <[k.1 := default ∅ (m !! k.1) ∪ list_to_set slots]> m) m ch.

Definition changed_slots_per_field (filter_inserts filter_removes : changes) : gmap string (gset N) :=
  add_changes (add_changes ∅ filter_inserts) filter_removes.

(** Entries with an equality on exactly a changed value. *)
Definition eq_ids c (ids : B) (ch : changes) : B :=
  map_fold (fun k _ ids =>
      match MetaIndex.entries_for_clause (meta c) k.1 "eq" (print_dec k.2) with
      | Some bm => rb_or ids bm
      | None => ids
      end) ids ch.

(** Whether an entry listed under a changed field, and not yet found, is affected: it
    has a clause on the field that is not an equality, or none that names the field. *)
Definition field_affects key (field : string) : bool :=
  let on_field := filter (fun cl => cc_field cl = field) (uk_filter_clauses key) in
  match on_field with
  | [] => true
  | _ => existsb (fun cl => negb (bool_decide (cc_op cl = "eq"%string))) on_field
  end.

Definition field_ids c (ids : B) (field : string) : B :=
  match MetaIndex.entries_for_filter_field (meta c) field with
  | None => ids
  | Some field_bm =>
      foldl (fun ids id => match meta_id_to_key c !! id with
                           | Some key => if field_affects key field then rb_insert ids id else ids
                           | None => ids
                           end) ids (rb_iter (rb_sub field_bm ids))
  end.

Definition affected_ids c (filter_inserts filter_removes : changes) : B :=
  map_fold (fun field _ ids => field_ids c ids field)
    (eq_ids c (eq_ids c rb_new filter_inserts) filter_removes) (changed_slots_per_field filter_inserts filter_removes).

(** The changed slots an entry has to look at: those of its leaf fields, or of its
    canonical clauses when the clause tree is unknown. *)
Definition slots_for key entry (changed : gmap string (gset N)) : list N :=
  let fields := match UnifiedEntry.original_filter_clauses entry with
                | [] => cc_field <$> uk_filter_clauses key
                | orig => elements (⋃ (collect_leaf_fields <$> orig) : gset string)
                end in
  dedup_adjacent (merge_sort N.le (mjoin ((fun f => elements (default ∅ (changed !! f))) <$> fields))).

Definition work_item key entry (slots : list N) : option (CacheMaintenanceItem B) :=
  match slots with
  | [] => None
  | _ => Some (MkItem key slots (UnifiedEntry.min_tracked_value entry) (UnifiedEntry.direction entry)
                 (UnifiedEntry.original_filter_clauses entry))
  end.

(** The items of the affected entries that are in memory and fresh. *)
Definition collect_items c (ids : B) (slots : UnifiedKey -> UnifiedEntry.t B -> list N) : list (CacheMaintenanceItem B) :=
  omap (fun id => key ← meta_id_to_key c !! id; entry ← entries c !! key;
          if UnifiedEntry.needs_rebuild entry then None else work_item key entry (slots key entry)) (rb_iter ids).

Definition total_changed (changed : gmap string (gset N)) : N := map_fold (fun _ s n => N.of_nat (size s) + n) 0 changed.

(** Over the work budget: every affected key is to be evicted. *)
Definition work_overrun c (ids : B) (changed : gmap string (gset N)) : bool :=
  (max_maintenance_ms (config c) =? 0) && (0 <? max_maintenance_work (config c))
  && (max_maintenance_work (config c) <? rb_len ids * total_changed changed).

Definition affected_keys c (ids : B) : list UnifiedKey := omap (fun id => meta_id_to_key c !! id) (rb_iter ids).

Definition collect_filter_work c (filter_inserts filter_removes : changes)
  : list (CacheMaintenanceItem B) * list UnifiedKey :=
  if bool_decide (entries c = ∅) then ([], [])
  else
    let changed := changed_slots_per_field filter_inserts filter_removes in
    if bool_decide (changed = ∅) then ([], [])
    else
      let ids := affected_ids c filter_inserts filter_removes in
      if rb_is_empty ids then ([], [])
      else if work_overrun c ids changed then ([], affected_keys c ids)
      else (collect_items c ids (fun key entry => slots_for key entry changed), []).

Definition sort_affected_ids c (sort_mutations : gmap string (gset N)) : B :=
  map_fold (fun field _ ids => rb_or ids (MetaIndex.entries_for_sort_field (meta c) field)) rb_new sort_mutations.

Definition collect_sort_work c (sort_mutations : gmap string (gset N))
  : list (CacheMaintenanceItem B) * list UnifiedKey :=
  if bool_decide (entries c = ∅) || bool_decide (sort_mutations = ∅) then ([], [])
  else
    let ids := sort_affected_ids c sort_mutations in
    if rb_is_empty ids then ([], [])
    else if work_overrun c ids sort_mutations then ([], affected_keys c ids)
    else (collect_items c ids (fun key _ => elements (default ∅ (sort_mutations !! uk_sort_field key))), []).

(** ** Applying results *)

Definition apply_result (r : CacheMaintenanceResult) entry : bool * UnifiedEntry.t B :=
  if UnifiedEntry.needs_rebuild entry then (false, entry)
  else
    let '(modified, entry) := match mr_adds r with
                              | [] => (false, entry)
                              | adds => (true, (UnifiedEntry.add_slots_bulk entry adds).2)
                              end in
    let '(removed, entry) := UnifiedEntry.remove_slots_bulk entry (mr_removes r) in
    let current_min := UnifiedEntry.min_tracked_value entry in
    let to_remove := filter (fun sv => sort_qualifies_raw sv.2 current_min (uk_direction (mr_key r)) = false)
                       (mr_sort_bound_removes r) in
    let '(removed', entry) := UnifiedEntry.remove_slots_bulk entry to_remove in
    (modified || removed || removed', entry).

Definition apply_one (acc : t B * gset ShardKey) (r : CacheMaintenanceResult) : t B * gset ShardKey :=
  let '(c, dirty) := acc in
  match entries c !! mr_key r with
  | None => (c, dirty)
  | Some entry =>
      let '(modified, entry') := apply_result r entry in
      (with_entries c (<[mr_key r := entry']> (entries c)),
       if modified && persistence_enabled c then {[shard_of (mr_key r)]} ∪ dirty else dirty)
  end.

Definition apply_maintenance_results c (results : list CacheMaintenanceResult) : t B :=
  let '(c', dirty) := foldl apply_one (c, ∅) results in
  with_dirty c' (meta_dirty c') (shard_dirty c' ∪ dirty).

Definition mark_for_rebuild_batch c (keys : list UnifiedKey) : t B := foldl mark_entry_for_rebuild c keys.

Definition evict_keys_on_overrun c (keys : list UnifiedKey) : N * t B :=
  foldl (fun '(count, c) key =>
      match remove_entry c key (negb (persistence_enabled c)) with
      | Some (_, c') => (count + 1, c')
      | None => (count, c)
      end) (0, c) keys.

(** ** Invalidation *)

Definition maintain_alive_changes c : N * t B :=
  (N.of_nat (size (entries c)), with_entries c (UnifiedEntry.mark_for_rebuild <$> entries c)).

Definition invalidate_filter_field c (field : string) : N * t B :=
  let names key := existsb (fun cl => bool_decide (cc_field cl = field)) (uk_filter_clauses key) in
  (N.of_nat (size (filter (fun ke => names ke.1 = true) (entries c))),
   with_entries c (map_imap (fun key e => Some (if names key then UnifiedEntry.mark_for_rebuild e else e)) (entries c))).

Definition invalidate_prefilter c (name : string) : N * t B :=
  match MetaIndex.entries_for_clause (meta c) "__prefilter" "bucket" name with
  | None => (0, c)
  | Some ids =>
      foldl (fun '(count, c) id =>
          match (key ← meta_id_to_key c !! id; _ ← entries c !! key; Some key) with
          | Some key => (count + 1, mark_entry_for_rebuild c key)
          | None => (count, c)
          end) (0, c) (rb_iter ids)
  end.

(** ** Time-bucket membership *)

Definition BUCKET_MAINT_WORK_BUDGET : N := 200000.

Section buckets.
Context (to_lowercase : string -> string).
Context (filters : gmap string (FilterField.t B)) (sorts : gmap string (SortField.t B)).
Context (bucket_mgr : option (TimeBucketManager.t B)).
Context (maps : option StringMaps) (dicts : option (gmap string FieldDictionary.t)).

Definition entry_matches key entry (slot : N) : bool :=
  match UnifiedEntry.original_filter_clauses entry with
  | [] => slot_matches_filter filters sorts bucket_mgr slot (uk_filter_clauses key)
  | original => slot_matches_filter_native to_lowercase filters sorts bucket_mgr maps dicts slot original
  end.

Definition bucket_update key entry (changed : list N) : list (N * N) * list (N * N) :=
  foldl (fun '(adds, removes) slot =>
      if entry_matches key entry slot then
        let sort_value := match sorts !! uk_sort_field key with
                          | Some f => SortField.reconstruct_value f slot
                          | None => 0
                          end in
        if UnifiedEntry.sort_qualifies entry sort_value (uk_direction key)
        then (adds ++ [(slot, sort_value)], removes) else (adds, removes)
      else (adds, removes ++ [(slot, 0)])) ([], []) changed.

Definition maintain_target (changed : list N) (acc : t B * N) key : t B * N :=
  let '(c, count) := acc in
  match entries c !! key with
  | None => (c, count)
  | Some entry =>
      if UnifiedEntry.needs_rebuild entry then (c, count)
      else
        let '(adds, removes) := bucket_update key entry changed in
        let '(removed, entry) := UnifiedEntry.remove_slots_bulk entry removes in
        let entry := (UnifiedEntry.add_slots_bulk entry adds).2 in
        let modified := removed || match adds with [] => false | _ => true end in
        let c := with_entries c (<[key := entry]> (entries c)) in
        (if modified && persistence_enabled c then mark_shard_dirty c (shard_of key) else c,
         if modified then count + 1 else count)
  end.

Definition maintain_bucket_membership c (field bucket_name bucket_sort_field : string) (changed_slots : B) : N * t B :=
  if rb_is_empty changed_slots then (0, c)
  else match MetaIndex.entries_for_clause (meta c) field "bucket" bucket_name with
       | None => (0, c)
       | Some candidates =>
           let targets := filter (fun key => uk_sort_field key <> bucket_sort_field) (affected_keys c candidates) in
           if BUCKET_MAINT_WORK_BUDGET <? N.of_nat (length targets) * rb_len changed_slots
           then (N.of_nat (length targets), mark_for_rebuild_batch c targets)
           else let '(c', count) := foldl (maintain_target (rb_iter changed_slots)) (c, 0) targets in (count, c')
       end.

End buckets.

End ops.

End UnifiedCache.
