(* ===== verification/UnifiedCacheFacts.v ===== *)
(** * The unified cache: its indexes agree

    Entries, ids, shards and the meta-index describe the same set of cached results,
    whatever sequence of stores, evictions, invalidations and maintenance ran. *)

From S2P Require Import Prelude Roaring Versioned Slot Config Sort Filter Float64 Bytes.
From S2P Require Import BucketDiffLog TimeBuckets Query Dictionary Planner Executor Radix CacheKeys CacheEntry OpsWal.
From S2P Require Import CacheEval MetaIndex MetaIndexTheorems UnifiedCache.
Import UnifiedCache.

Section facts.
Context {B : Type} `{HB : Roaring B}.
Implicit Types (c : t B) (k key : UnifiedKey) (e entry : UnifiedEntry.t B).

(** The registration an entry must have. *)
Definition describes k e (reg : EntryRegistration) : Prop :=
  MetaIndex.clause_keys reg = uk_filter_clauses k /\ sort_key reg = Some (shard_of k)
  /\ (forall ck, ck ∈ uk_filter_clauses k -> cc_field ck ∈ field_keys reg)
  /\ (forall cl f, cl ∈ UnifiedEntry.original_filter_clauses e -> f ∈ collect_leaf_fields cl -> f ∈ field_keys reg)
  /\ UnifiedEntry.direction e = uk_direction k.

Record cache_ok c : Prop := {
  co_ids : forall k e, entries c !! k = Some e -> meta_id_to_key c !! UnifiedEntry.meta_id e = Some k;
  co_keys : forall id k, meta_id_to_key c !! id = Some k -> exists e, entries c !! k = Some e /\ UnifiedEntry.meta_id e = id;
  co_shards : forall sk k, k ∈ default ∅ (shard_to_keys c !! sk) <-> is_Some (entries c !! k) /\ shard_of k = sk;
  co_shards_used : map_Forall (fun _ ks => ks <> ∅) (shard_to_keys c);
  co_reg : forall k e, entries c !! k = Some e ->
    exists reg, MetaIndex.registrations (meta c) !! UnifiedEntry.meta_id e = Some reg /\ describes k e reg;
  co_meta : meta_ok (meta c);
}.

Lemma cache_ok_new cfg : cache_ok (new cfg).
Proof.
  split; simpl; try (by intros ??[]%lookup_empty_Some); [|apply meta_ok_new].
  intros sk k. rewrite !lookup_empty. simpl. split; [set_solver|]. by intros [[? ?] _].
Qed.

(** *** Changing entries in place *)

Definition same_identity e e' : Prop :=
  UnifiedEntry.meta_id e' = UnifiedEntry.meta_id e /\ UnifiedEntry.direction e' = UnifiedEntry.direction e
  /\ UnifiedEntry.original_filter_clauses e' = UnifiedEntry.original_filter_clauses e.

Lemma same_identity_refl e : same_identity e e.
Proof. done. Qed.

Lemma same_identity_trans e1 e2 e3 : same_identity e1 e2 -> same_identity e2 e3 -> same_identity e1 e3.
Proof. unfold same_identity. intuition congruence. Qed.

Lemma describes_same k e e' reg : same_identity e e' -> describes k e reg -> describes k e' reg.
Proof. intros (_ & Hd & Ho). unfold describes. by rewrite Hd, Ho. Qed.

(** The caches that differ in the contents of entries only. *)
Definition same_entries (es es' : gmap UnifiedKey (UnifiedEntry.t B)) : Prop :=
  forall k, option_Forall2 same_identity (es !! k) (es' !! k).

Lemma with_entries_ok c es : cache_ok c -> same_entries (entries c) es -> cache_ok (with_entries c es).
Proof.
  intros Hc Hs.
  assert (forall k e', es !! k = Some e' -> exists e, entries c !! k = Some e /\ same_identity e e') as Hback.
  { intros k e' He. specialize (Hs k). rewrite He in Hs. inversion Hs; subst. eauto. }
  assert (forall k e, entries c !! k = Some e -> exists e', es !! k = Some e' /\ same_identity e e') as Hforth.
  { intros k e He. specialize (Hs k). rewrite He in Hs. inversion Hs; subst. eauto. }
  split; simpl.
  - intros k e' (e & He & Hid & _)%Hback. rewrite Hid. by apply (co_ids _ Hc).
  - intros id k (e & He & Hid)%(co_keys _ Hc). destruct (Hforth k e He) as (e' & He' & Hid' & _). exists e'. split; [done|congruence].
  - intros sk k. rewrite (co_shards _ Hc). unfold is_Some. naive_solver.
  - apply Hc.
  - intros k e' (e & He & Hsame)%Hback. destruct (co_reg _ Hc k e He) as (reg & Hr & Hd). exists reg.
    destruct Hsame as (Hid & ?). rewrite Hid. split; [done|]. by eapply describes_same.
  - apply Hc.
Qed.

Lemma same_entries_refl (es : gmap UnifiedKey (UnifiedEntry.t B)) : same_entries es es.
Proof. intros k. destruct (es !! k); constructor. apply same_identity_refl. Qed.

Lemma same_entries_trans (es1 es2 es3 : gmap UnifiedKey (UnifiedEntry.t B)) :
  same_entries es1 es2 -> same_entries es2 es3 -> same_entries es1 es3.
Proof.
  intros H1 H2 k. specialize (H1 k). specialize (H2 k). inversion H1; inversion H2; simplify_eq; try congruence; constructor.
  eapply same_identity_trans; [done|]. congruence.
Qed.

Lemma same_entries_alter (es : gmap UnifiedKey (UnifiedEntry.t B)) key f :
  (forall e, same_identity e (f e)) -> same_entries es (alter f key es).
Proof.
  intros Hf k. destruct (decide (k = key)) as [->|Hne].
  - rewrite lookup_alter_eq. destruct (es !! key); constructor. apply Hf.
  - rewrite lookup_alter_ne by done. apply same_entries_refl.
Qed.

Lemma same_entries_insert (es : gmap UnifiedKey (UnifiedEntry.t B)) key e e' :
  es !! key = Some e -> same_identity e e' -> same_entries es (<[key := e']> es).
Proof.
  intros He Hs k. destruct (decide (k = key)) as [->|Hne].
  - rewrite lookup_insert_eq, He. by constructor.
  - rewrite lookup_insert_ne by done. apply same_entries_refl.
Qed.

Lemma same_entries_fmap (es : gmap UnifiedKey (UnifiedEntry.t B)) f :
  (forall e, same_identity e (f e)) -> same_entries es (f <$> es).
Proof. intros Hf k. rewrite lookup_fmap. destruct (es !! k); constructor. apply Hf. Qed.

Lemma update_entry_ok c key f : cache_ok c -> (forall e, same_identity e (f e)) -> cache_ok (update_entry c key f).
Proof. intros Hc Hf. apply with_entries_ok; [done|]. by apply same_entries_alter. Qed.

(** *** Flags *)

(** The parts the invariant does not read. *)
Lemma flags_ok c c' :
  entries c' = entries c -> meta_id_to_key c' = meta_id_to_key c -> meta c' = meta c -> shard_to_keys c' = shard_to_keys c ->
  cache_ok c -> cache_ok c'.
Proof. intros E1 E2 E3 E4 []. split; rewrite ?E1, ?E2, ?E3, ?E4; auto. Qed.

Lemma with_dirty_ok c md sd : cache_ok c -> cache_ok (with_dirty c md sd).
Proof. by apply flags_ok. Qed.

Lemma with_meta_ok c m :
  cache_ok c -> meta_ok m ->
  (forall id reg, is_Some (meta_id_to_key c !! id) -> MetaIndex.registrations (meta c) !! id = Some reg -> MetaIndex.registrations m !! id = Some reg) ->
  cache_ok (with_meta c m).
Proof.
  intros Hc Hm Hr. split; simpl; try apply Hc; [|done].
  intros k e He. destruct (co_reg _ Hc k e He) as (reg & Hreg & Hd). exists reg. split; [|done].
  apply Hr; [|done]. apply (co_ids _ Hc) in He. by eexists.
Qed.

(** *** Removing entries *)

Lemma elem_of_shard_remove (shards : gmap ShardKey (gset UnifiedKey)) key sk k :
  k ∈ default ∅ (shard_remove shards key !! sk)
  <-> k ∈ default ∅ (shards !! sk) /\ ~ (k = key /\ shard_of key = sk).
Proof.
  unfold shard_remove. destruct (shards !! shard_of key) as [keys|] eqn:E.
  - destruct (decide (sk = shard_of key)) as [->|Hne].
    + rewrite E. case_bool_decide as Hk; [rewrite lookup_delete_eq|rewrite lookup_insert_eq]; simpl; set_solver.
    + assert (shard_of key <> sk) by congruence.
      case_bool_decide; [rewrite lookup_delete_ne by done|rewrite lookup_insert_ne by done]; naive_solver.
  - split; [|naive_solver]. intros Hk. split; [done|]. intros [-> <-]. rewrite E in Hk. set_solver.
Qed.

Lemma shard_remove_used (shards : gmap ShardKey (gset UnifiedKey)) key :
  map_Forall (fun _ ks => ks <> ∅) shards -> map_Forall (fun _ ks => ks <> ∅) (shard_remove shards key).
Proof.
  intros Hu. unfold shard_remove. destruct (shards !! shard_of key); [|done].
  case_bool_decide; [by apply map_Forall_delete|by apply map_Forall_insert_2].
Qed.

Lemma deregister_lookup (m : MetaIndex.t B) id i :
  MetaIndex.registrations (MetaIndex.deregister m id) !! i = if decide (i = id) then None else MetaIndex.registrations m !! i.
Proof.
  unfold MetaIndex.deregister. destruct (MetaIndex.registrations m !! id) as [reg|] eqn:E; simpl.
  - case_decide as Hi; [subst; apply lookup_delete_eq|by rewrite lookup_delete_ne].
  - case_decide as Hi; by subst.
Qed.

(** An id that is registered for an entry that is not stored yet. *)
Definition spare c k e : Prop :=
  meta_id_to_key c !! UnifiedEntry.meta_id e = None
  /\ exists reg, MetaIndex.registrations (meta c) !! UnifiedEntry.meta_id e = Some reg /\ describes k e reg.

(** What evictions keep: the invariant, the absence of a key and a spare id. *)
Definition roomy k e c : Prop := cache_ok c /\ entries c !! k = None /\ spare c k e.

Lemma insert_entry_ok k e c bytes : roomy k e c -> cache_ok (insert_entry c k e bytes).
Proof.
  intros (Hc & Hk & Hn & reg & Hr & Hd). split; simpl.
  - intros k' e' [[<- <-]|[Hne He]]%lookup_insert_Some; [apply lookup_insert_eq|].
    rewrite lookup_insert_ne; [by apply (co_ids _ Hc)|]. intros Hid. apply (co_ids _ Hc) in He. congruence.
  - intros id k' [[<- <-]|[Hne He]]%lookup_insert_Some; [exists e; by rewrite lookup_insert_eq|].
    destruct (co_keys _ Hc id k' He) as (e' & He' & Hid). exists e'. split; [|done]. rewrite lookup_insert_ne; [done|]. congruence.
  - intros sk k'. unfold shard_insert. rewrite (lookup_insert_is_Some (entries c)). destruct (decide (sk = shard_of k)) as [->|Hne].
    + rewrite lookup_insert_eq. simpl. rewrite elem_of_union, elem_of_singleton, (co_shards _ Hc). 
      destruct (decide (k' = k)) as [->|Hk']; [tauto|]. split; [intros [|]; [done|]|]; intuition congruence.
    + rewrite lookup_insert_ne by done. rewrite (co_shards _ Hc). destruct (decide (k' = k)) as [->|Hk']; [|intuition congruence]. split; [|intuition congruence]. intros [_ Hx]; congruence.
  - apply map_Forall_insert_2; [set_solver|apply Hc].
  - intros k' e' [[<- <-]|[Hne He]]%lookup_insert_Some; [by exists reg|]. by apply (co_reg _ Hc).
  - apply Hc.
Qed.

Context (memory_bytes : UnifiedEntry.t B -> N).

Lemma remove_entry_ok c key d e c' :
  cache_ok c -> remove_entry memory_bytes c key d = Some (e, c') ->
  cache_ok c' /\ entries c' = delete key (entries c) /\ forall k e', spare c k e' -> spare c' k e'.
Proof.
  intros Hc. unfold remove_entry. destruct (entries c !! key) as [e0|] eqn:He; [|done]. cbn. intros [= <- <-].
  set (id := UnifiedEntry.meta_id e0).
  assert (forall k e', entries c !! k = Some e' -> k <> key -> UnifiedEntry.meta_id e' <> id) as Hother.
  { intros k e' Hk Hne Hid. apply (co_ids _ Hc) in Hk. apply (co_ids _ Hc) in He. unfold id in Hid. congruence. }
  assert (forall i reg, i <> id -> MetaIndex.registrations (meta c) !! i = Some reg ->
    MetaIndex.registrations (if d then MetaIndex.deregister (meta c) id else meta c) !! i = Some reg) as Hreg.
  { intros i reg Hi Hr. destruct d; [|done]. rewrite deregister_lookup. by rewrite decide_False. }
  split_and!; [split|done|]; simpl.
  - intros k e' [Hne Hk]%lookup_delete_Some. rewrite lookup_delete_ne; [by apply (co_ids _ Hc)|].
    apply not_eq_sym. eapply Hother; [done|congruence].
  - intros i k [Hne Hk]%lookup_delete_Some. destruct (co_keys _ Hc i k Hk) as (e' & He' & Hid). exists e'. split; [|done].
    rewrite lookup_delete_ne; [done|]. intros ->. unfold id in Hne. congruence.
  - intros sk k. rewrite elem_of_shard_remove, (co_shards _ Hc). unfold is_Some. setoid_rewrite lookup_delete_Some. naive_solver.
  - apply shard_remove_used, Hc.
  - intros k e' [Hne Hk]%lookup_delete_Some. destruct (co_reg _ Hc k e' Hk) as (reg & Hr & Hd). exists reg. split; [|done].
    apply Hreg; [|done]. eapply Hother; [done|congruence].
  - destruct d; [apply deregister_ok|]; apply Hc.
  - intros k e' [Hn (reg & Hr & Hd)]. split; simpl.
    + rewrite lookup_delete_None. by right.
    + exists reg. split; [|done]. apply Hreg; [|done]. intros Hid. apply (co_ids _ Hc) in He. unfold id in Hid. congruence.
Qed.

Lemma evict_key_ok c key : cache_ok c -> cache_ok (evict_key memory_bytes c key).
Proof.
  intros Hc. unfold evict_key. destruct (remove_entry _ _ _ _) as [[e c']|] eqn:E; [|done]. by apply remove_entry_ok in E as [??].
Qed.

Lemma evict_key_roomy k e c key : roomy k e c -> roomy k e (evict_key memory_bytes c key).
Proof.
  intros (Hc & Hk & Hs). unfold evict_key. destruct (remove_entry _ _ _ _) as [[e' c']|] eqn:E; [|done].
  apply remove_entry_ok in E as (H1 & H2 & H3); [|done]. split_and!; [done| |by apply H3]. rewrite H2, lookup_delete_None. by right.
Qed.

Lemma evict_batch_ind (Q : t B -> Prop) c samples :
  (forall c key, Q c -> Q (evict_key memory_bytes c key)) -> Q c -> Q (evict_batch memory_bytes c samples).
Proof.
  intros Hstep Hc. unfold evict_batch. case_bool_decide; [done|].
  generalize (take (Nat.max 1 (size (entries c) / 10)) samples). intros l. clear H samples. revert c Hc.
  induction l as [|s l IH]; intros c Hc; simpl; [done|]. destruct (sampled_victim c s); auto.
Qed.

Lemma evict_to_budget_ok candidates : forall c, cache_ok c -> cache_ok (evict_to_budget memory_bytes c candidates).
Proof.
  induction candidates as [|key l IH]; intros c Hc; cbn [evict_to_budget]; [done|]. destruct (_ && _); [done|]. by apply IH, evict_key_ok.
Qed.

(** *** Storing *)

Lemma store_ok samples c k e : cache_ok c -> spare c k e -> cache_ok (store memory_bytes samples c k e).
Proof.
  intros Hc Hs. unfold store.
  set (c1 := match remove_entry memory_bytes c k true with Some (_, c') => c' | None => c end).
  assert (roomy k e c1) as H1.
  { unfold c1. destruct (remove_entry memory_bytes c k true) as [[e' c']|] eqn:E.
    - apply remove_entry_ok in E as (H1 & H2 & H3); [|done]. split_and!; [done| |by apply H3]. rewrite H2. apply lookup_delete_eq.
    - split_and!; [done| |done]. unfold remove_entry in E. by destruct (entries c !! k). }
  set (c2 := if over_budget c1 (memory_bytes e) then evict_batch memory_bytes c1 samples else c1).
  assert (roomy k e c2) as H2.
  { unfold c2. destruct (over_budget _ _); [|done]. apply evict_batch_ind; [|done]. intros. by apply evict_key_roomy. }
  apply insert_entry_ok. destruct (persistence_enabled c2); [|done].
  destruct H2 as (Hc2 & Hk & Hs2). split_and!; [by apply with_dirty_ok|done|done].
Qed.

Lemma register_spare c key original id m :
  cache_ok c -> MetaIndex.next_id (meta c) < 4294967295 ->
  MetaIndex.register (meta c) (uk_filter_clauses key) original (Some (uk_sort_field key)) (Some (uk_direction key)) = (id, m) ->
  cache_ok (with_meta c m)
  /\ forall e, UnifiedEntry.meta_id e = id -> UnifiedEntry.direction e = uk_direction key ->
       (forall cl, cl ∈ UnifiedEntry.original_filter_clauses e -> cl ∈ default [] original) -> spare (with_meta c m) key e.
Proof.
  intros Hc Hn E. pose proof (register_ok (meta c) (uk_filter_clauses key) original (Some (uk_sort_field key)) (Some (uk_direction key)) (co_meta _ Hc) Hn) as Hm.
  rewrite E in Hm. simpl in Hm. revert E. unfold MetaIndex.register.
  destruct (MetaIndex.allocate_id (meta c)) as [[i next] free] eqn:Ea. intros [= <- Em].
  destruct (allocate_fresh _ _ _ _ (co_meta _ Hc) Hn Ea) as (Hfresh & _).
  assert (meta_id_to_key c !! i = None) as Hun.
  { apply eq_None_not_Some. intros [k Hk]. destruct (co_keys _ Hc i k Hk) as (e & He & Hid).
    destruct (co_reg _ Hc k e He) as (reg & Hreg & _). congruence. }
  split.
  - apply with_meta_ok; [done|done|]. intros id' reg Hid Hr. rewrite <- Em. simpl. rewrite lookup_insert_ne; [done|]. intros <-. congruence.
  - intros e <- Hd Hsub. split; [done|]. simpl. rewrite <- Em. simpl. eexists. rewrite lookup_insert_eq. split; [done|].
    split_and!; simpl; try done.
    + intros ck Hck. apply elem_of_fields_of. left. by exists ck.
    + intros cl f Hcl Hf. apply elem_of_fields_of. right. exists cl. split; [by apply Hsub|done].
Qed.

End facts.
