(* ===== verification/UnifiedCacheTheorems.v ===== *)
(** * Theorems on the unified cache

    Reachable caches keep their indexes in agreement; filter maintenance finds every
    entry a change affects, except those with an equality on a value whose key is not
    printed like the value. *)

From S2P Require Import Prelude Roaring Versioned Slot Config Sort Filter Float64 Bytes.
From S2P Require Import BucketDiffLog TimeBuckets Query Dictionary Planner Executor Radix CacheKeys CacheEntry OpsWal.
From S2P Require Import CacheEval MetaIndex MetaIndexTheorems UnifiedCache UnifiedCacheFacts.
Import UnifiedCache.

Section steps.
Context {B : Type} `{HB : Roaring B}.
Implicit Types (c : t B) (k key : UnifiedKey) (e entry : UnifiedEntry.t B).

(** ** Entries keep their identity *)

Lemma check_bloat_identity e : same_identity e (UnifiedEntry.check_bloat e).2.
Proof. unfold UnifiedEntry.check_bloat. by case_match. Qed.

Lemma add_slots_bulk_identity e adds : same_identity e (UnifiedEntry.add_slots_bulk e adds).2.
Proof.
  unfold UnifiedEntry.add_slots_bulk. destruct adds; [apply same_identity_refl|].
  eapply same_identity_trans; [|apply check_bloat_identity]. done.
Qed.

Lemma remove_slots_bulk_identity e removes : same_identity e (UnifiedEntry.remove_slots_bulk e removes).2.
Proof. unfold UnifiedEntry.remove_slots_bulk. by case_match. Qed.

Lemma apply_result_identity r e : same_identity e (apply_result r e).2.
Proof.
  unfold apply_result. destruct (UnifiedEntry.needs_rebuild e); [apply same_identity_refl|].
  destruct (match mr_adds r with [] => _ | _ => _ end) as [modified e1] eqn:E1.
  assert (same_identity e e1) as H1.
  { pose proof (add_slots_bulk_identity e (mr_adds r)) as Ha. destruct (mr_adds r) as [|a l]; [by injection E1 as <- <-|]. by injection E1 as <- <-. }
  destruct (UnifiedEntry.remove_slots_bulk e1 (mr_removes r)) as [removed e2] eqn:E2.
  assert (same_identity e1 e2) as H2 by (replace e2 with (removed, e2).2 by done; rewrite <- E2; apply remove_slots_bulk_identity).
  destruct (UnifiedEntry.remove_slots_bulk e2 _) as [removed' e3] eqn:E3.
  assert (same_identity e2 e3) as H3 by (replace e3 with (removed', e3).2 by done; rewrite <- E3; apply remove_slots_bulk_identity).
  simpl. eauto using same_identity_trans.
Qed.

Lemma try_start_rebuild_identity e : same_identity e (UnifiedEntry.try_start_rebuild e).2.
Proof. unfold UnifiedEntry.try_start_rebuild. by case_match. Qed.

(** A loop of steps that keep the invariant. *)
Lemma foldl_ok {A S : Type} (proj : S -> t B) (f : S -> A -> S) (l : list A) :
  (forall s a, cache_ok (proj s) -> cache_ok (proj (f s a))) -> forall s, cache_ok (proj s) -> cache_ok (proj (foldl f s l)).
Proof. intros Hf. induction l as [|a l IH]; intros s Hs; simpl; auto. Qed.

Lemma apply_one_ok acc r : cache_ok acc.1 -> cache_ok (apply_one acc r).1.
Proof.
  destruct acc as [c dirty]. simpl. intros Hc. destruct (entries c !! mr_key r) as [e|] eqn:He; [|done].
  pose proof (apply_result_identity r e) as Hi. destruct (apply_result r e) as [modified e']. simpl in *.
  apply with_entries_ok; [done|]. by eapply same_entries_insert.
Qed.

Lemma apply_maintenance_ok c results : cache_ok c -> cache_ok (apply_maintenance_results c results).
Proof.
  intros Hc. unfold apply_maintenance_results.
  pose proof (foldl_ok fst apply_one results apply_one_ok (c, ∅) Hc) as H.
  destruct (foldl apply_one (c, ∅) results) as [c' dirty]. by apply with_dirty_ok.
Qed.

Lemma tombstone_all_ok c ids : cache_ok c -> cache_ok (tombstone_all c ids).2.
Proof.
  intros Hc. unfold tombstone_all. destruct (filter _ ids) as [|i l]; [done|]. cbn [snd]. apply with_dirty_ok, with_meta_ok; [done| |].
  - generalize (i :: l). intros l'. clear i l. destruct Hc as [_ _ _ _ _ Hm]. revert Hm. generalize (meta c).
    induction l' as [|i l IH]; intros m Hm; simpl; [done|]. apply IH. by destruct Hm.
  - intros id reg _ Hr. rewrite <- Hr. generalize (i :: l). intros l'. clear. generalize (meta c).
    induction l' as [|i l IH]; intros m; simpl; [done|]. by rewrite IH.
Qed.

Context (memory_bytes : UnifiedEntry.t B -> N).

Lemma evict_overrun_ok c keys : cache_ok c -> cache_ok (evict_keys_on_overrun memory_bytes c keys).2.
Proof.
  intros Hc. unfold evict_keys_on_overrun. apply (foldl_ok snd); [|done]. intros [n c0] key H0. simpl in *.
  destruct (remove_entry _ _ _ _) as [[e c']|] eqn:E; [|done]. by apply remove_entry_ok in E as [??].
Qed.

Lemma finalize_ok c ids : cache_ok c -> (forall id, id ∈ ids -> meta_id_to_key c !! id = None) -> cache_ok (finalize_shard_write c ids).
Proof.
  intros Hc Hids. unfold finalize_shard_write. apply with_meta_ok; [done| |].
  - destruct Hc as [_ _ _ _ _ Hm]. revert Hm. clear Hids. generalize (meta c).
    induction ids as [|i l IH]; intros m Hm; simpl; [done|]. apply IH, deregister_ok. by destruct Hm.
  - intros id reg [k Hk] Hr. assert (id ∉ ids) as Hn by (intros ?%Hids; congruence). clear Hids.
    revert Hr. generalize (meta c). induction ids as [|i l IH]; intros m Hr; simpl; [done|].
    apply IH; [set_solver|]. rewrite deregister_lookup. rewrite decide_False by set_solver. done.
Qed.

Lemma maintain_target_ok to_lowercase filters sorts mgr maps dicts changed acc key :
  cache_ok acc.1 -> cache_ok (maintain_target to_lowercase filters sorts mgr maps dicts changed acc key).1.
Proof.
  destruct acc as [c n]. simpl. intros Hc. destruct (entries c !! key) as [e|] eqn:He; [|done].
  destruct (UnifiedEntry.needs_rebuild e); [done|]. destruct (bucket_update _ _ _ _ _ _ _ e changed) as [adds removes].
  pose proof (remove_slots_bulk_identity e removes) as H1. destruct (UnifiedEntry.remove_slots_bulk e removes) as [removed e1].
  assert (cache_ok (with_entries c (<[key := (UnifiedEntry.add_slots_bulk e1 adds).2]> (entries c)))) as H2.
  { apply with_entries_ok; [done|]. eapply same_entries_insert; [done|]. eapply same_identity_trans; [apply H1|apply add_slots_bulk_identity]. }
  simpl. destruct (_ && _); [by apply with_dirty_ok|done].
Qed.

(** ** Steps *)

Inductive cstep c : t B -> Prop :=
| st_lookup now key : cstep c (lookup now c key).2
| st_form now samples key slots more total clauses value :
    MetaIndex.next_id (meta c) < 4294967295 ->
    cstep c (form_and_store_with_clauses memory_bytes now samples c key slots more total clauses value).2
| st_evict_lru order : cstep c (evict_lru memory_bytes c order).2
| st_overrun keys : cstep c (evict_keys_on_overrun memory_bytes c keys).2
| st_cutoff key cutoff : cstep c (set_entry_bucket_cutoff c key cutoff)
| st_mark key : cstep c (mark_entry_for_rebuild c key)
| st_single_flight key : cstep c (should_rebuild_single_flight c key).2
| st_expand key slots value : cstep c (update_entry c key (fun e => (UnifiedEntry.expand e slots value).2))
| st_rebuild key slots value : cstep c (update_entry c key (fun e => UnifiedEntry.rebuild e slots value))
| st_extension key : cstep c (record_extension c key)
| st_apply results : cstep c (apply_maintenance_results c results)
| st_remove slots : cstep c (remove_slots_from_all_batch c slots)
| st_alive : cstep c (maintain_alive_changes c).2
| st_invalidate field : cstep c (invalidate_filter_field c field).2
| st_prefilter name : cstep c (invalidate_prefilter c name).2
| st_bucket to_lowercase filters sorts mgr maps dicts field name sort_field changed :
    cstep c (maintain_bucket_membership to_lowercase filters sorts mgr maps dicts c field name sort_field changed).2
| st_tomb_filter fields : cstep c (tombstone_unloaded_for_filter c fields).2
| st_tomb_sort fields : cstep c (tombstone_unloaded_for_sort c fields).2
| st_tomb_all : cstep c (tombstone_all_unloaded c).2
| st_finalize ids : (forall id, id ∈ ids -> meta_id_to_key c !! id = None) -> cstep c (finalize_shard_write c ids)
| st_restored samples key e : entries c !! key = None -> spare c key e -> cstep c (insert_restored_entry memory_bytes samples c key e)
| st_load_meta id clauses original sf dir :
    MetaIndex.registrations (meta c) !! id = None -> id ∉ MetaIndex.free_ids (meta c) -> id < 4294967295 ->
    cstep c (with_meta c (MetaIndex.register_with_id (meta c) id clauses original sf dir))
| st_finish order : cstep c (finish_restore memory_bytes c order)
| st_begin : cstep c (begin_restore c)
| st_persist : cstep c (enable_persistence c)
| st_clean_shard shard : cstep c (clear_shard_entry_dirty c shard)
| st_reconcile : cstep c (reconcile_bytes memory_bytes c)
| st_clear : cstep c (clear c).

Lemma form_and_store_ok now samples c key slots more total clauses value :
  cache_ok c -> MetaIndex.next_id (meta c) < 4294967295 ->
  cache_ok (form_and_store_with_clauses memory_bytes now samples c key slots more total clauses value).2.
Proof.
  intros Hc Hn. unfold form_and_store_with_clauses. destruct (MetaIndex.register _ _ _ _ _) as [id m] eqn:E.
  destruct (register_spare c key _ id m Hc Hn E) as [Hok Hs]. cbn [snd]. apply store_ok; [done|]. by apply Hs.
Qed.

Lemma mark_batch_ok c keys : cache_ok c -> cache_ok (mark_for_rebuild_batch c keys).
Proof. intros Hc. apply (foldl_ok id); [|done]. intros s key Hs. by apply update_entry_ok. Qed.

Lemma maintain_bucket_ok to_lowercase filters sorts mgr maps dicts c field name sort_field changed :
  cache_ok c -> cache_ok (maintain_bucket_membership to_lowercase filters sorts mgr maps dicts c field name sort_field changed).2.
Proof.
  intros Hc. unfold maintain_bucket_membership. destruct (rb_is_empty changed); [done|].
  destruct (MetaIndex.entries_for_clause _ _ _ _) as [ids|]; [|done]. set (targets := filter _ _).
  destruct (_ <? _); [by apply mark_batch_ok|].
  pose proof (foldl_ok fst (maintain_target to_lowercase filters sorts mgr maps dicts (rb_iter changed)) targets
    (maintain_target_ok _ _ _ _ _ _ _) (c, 0) Hc) as H.
  by destruct (foldl _ _ targets) as [c' n].
Qed.

Lemma invalidate_field_ok c field : cache_ok c -> cache_ok (invalidate_filter_field c field).2.
Proof.
  intros Hc. apply with_entries_ok; [done|]. intros k. rewrite map_lookup_imap.
  destruct (entries c !! k); simpl; constructor. by case_match.
Qed.

Lemma invalidate_prefilter_ok c name : cache_ok c -> cache_ok (invalidate_prefilter c name).2.
Proof.
  intros Hc. unfold invalidate_prefilter. destruct (MetaIndex.entries_for_clause _ _ _ _) as [ids|]; [|done].
  apply (foldl_ok snd); [|done]. intros [n c0] id H0. simpl in *. destruct (mbind _ _); [by apply update_entry_ok|done].
Qed.

Lemma cstep_ok c c' : cache_ok c -> cstep c c' -> cache_ok c'.
Proof.
  intros Hc Hs. destruct Hs.
  - unfold lookup. destruct (entries c !! key) as [e|]; [|done]. destruct (UnifiedEntry.needs_rebuild e); [done|].
    destruct (_ && _); by apply update_entry_ok.
  - by apply form_and_store_ok.
  - unfold evict_lru. case_match; [by apply evict_key_ok|done].
  - by apply evict_overrun_ok.
  - apply update_entry_ok; [done|]. intros e. by case_match.
  - by apply update_entry_ok.
  - unfold should_rebuild_single_flight. destruct (entries c !! key) as [e|] eqn:He; [|done].
    destruct (UnifiedEntry.needs_rebuild e); [|done]. pose proof (try_start_rebuild_identity e).
    destruct (UnifiedEntry.try_start_rebuild e). apply with_entries_ok; [done|]. by eapply same_entries_insert.
  - by apply update_entry_ok.
  - by apply update_entry_ok.
  - unfold record_extension. case_match; [by apply with_dirty_ok|done].
  - by apply apply_maintenance_ok.
  - unfold remove_slots_from_all_batch. destruct (_ || _); [done|]. apply with_dirty_ok, with_entries_ok; [done|]. by apply same_entries_fmap.
  - apply with_entries_ok; [done|]. by apply same_entries_fmap.
  - by apply invalidate_field_ok.
  - by apply invalidate_prefilter_ok.
  - by apply maintain_bucket_ok.
  - unfold tombstone_unloaded_for_filter. case_match; [done|]. by apply tombstone_all_ok.
  - unfold tombstone_unloaded_for_sort. case_match; [done|]. by apply tombstone_all_ok.
  - unfold tombstone_all_unloaded. case_match; [done|]. by apply tombstone_all_ok.
  - by apply finalize_ok.
  - pose proof (conj Hc (conj H H0) : roomy key e c) as Hr. apply insert_entry_ok.
    destruct (negb (restoring c) && over_budget c (memory_bytes e)); [|done].
    apply evict_batch_ind; [|done]. intros. by apply evict_key_roomy.
  - apply with_meta_ok; [done|by apply register_with_id_ok; [apply Hc|..]|].
    intros id' reg _ Hr. cbn. rewrite lookup_insert_ne; [done|]. intros <-. congruence.
  - unfold finish_restore. assert (cache_ok (with_modes c (persistence_enabled c) false)) as Hm by (by eapply flags_ok; [..|exact Hc]).
    destruct (_ && _); [done|]. by apply evict_to_budget_ok.
  - by eapply flags_ok; [..|exact Hc].
  - by eapply flags_ok; [..|exact Hc].
  - apply (foldl_ok id); [|done]. intros. by apply update_entry_ok.
  - by eapply flags_ok; [..|exact Hc].
  - split; simpl; try (by intros ??[]%lookup_empty_Some); [|apply meta_ok_new].
    intros sk k. rewrite !lookup_empty. simpl. split; [set_solver|]. by intros [[? ?] _].
Qed.

Lemma reachable_cache_ok cfg c : rtc cstep (new cfg) c -> cache_ok c.
Proof.
  intros Hr. assert (cache_ok (new cfg)) as H0 by apply cache_ok_new. revert H0.
  induction Hr as [|c1 c2 c3 Hs _ IH]; [done|]. intros H1. apply IH. by eapply cstep_ok.
Qed.

Lemma entries_for_shard_elem c sk id k b sks :
  cache_ok c ->
  (id, k, b, sks) ∈ entries_for_shard c sk
  <-> shard_of k = sk /\ exists e, entries c !! k = Some e /\ UnifiedEntry.meta_id e = id
        /\ UnifiedEntry.bitmap e = b /\ UnifiedEntry.sorted_keys e = sks.
Proof.
  intros Hc. unfold entries_for_shard. rewrite list_elem_of_omap. unfold keys_of_shard. setoid_rewrite elem_of_elements.
  setoid_rewrite (co_shards _ Hc). split.
  - intros (k' & [[e He] Hsk] & Heq). rewrite He in Heq. cbn in Heq. injection Heq as <- <- <- <-. eauto 10.
  - intros (Hsk & e & He & <- & <- & <-). exists k. rewrite He. cbn. split; [split; [by eexists|done]|done].
Qed.

(** A restore over a key that is stored again breaks the indexes: the entry that was
    formed while the shard was loading is replaced without being removed, so its id still
    maps to the key, whose entry now carries another id, and its bytes stay counted. *)
Lemma restore_over_live_entry samples c key old e :
  cache_ok c -> restoring c = true -> entries c !! key = Some old -> UnifiedEntry.meta_id e <> UnifiedEntry.meta_id old ->
  let c' := insert_restored_entry memory_bytes samples c key e in
  key_for_meta_id c' (UnifiedEntry.meta_id old) = Some key /\ entries c' !! key = Some e
  /\ total_bytes c' = total_bytes c + memory_bytes e /\ ~ cache_ok c'.
Proof.
  intros Hc Hr Hold Hne c'. assert (key_for_meta_id c' (UnifiedEntry.meta_id old) = Some key) as Hid.
  { unfold c', insert_restored_entry, key_for_meta_id. rewrite Hr. cbn. rewrite lookup_insert_ne by done. by apply (co_ids _ Hc). }
  assert (entries c' !! key = Some e) as He by (unfold c', insert_restored_entry; rewrite Hr; apply lookup_insert_eq).
  split_and!; [done|done|unfold c', insert_restored_entry; by rewrite Hr|].
  intros Hc'. destruct (co_keys _ Hc' _ _ Hid) as (e' & He' & Hid'). congruence.
Qed.

(** C20: the cache's indexes always agree. After any sequence of lookups, stores,
    evictions, invalidations, maintenance, restores and persistence steps from an empty
    cache, an id maps to a key exactly when the entry under that key carries the id, a
    shard lists exactly the entries with its sort order, and the meta-index finds every
    entry under each of its clauses, each field its clauses mention at any depth, and its
    sort field. Of the steps: stores and registrations use ids below 2^32-1; registrations
    from the persisted index use ids that are neither registered nor free; a restore
    inserts an entry under a key that is not stored, with a registered id of the entry's
    clauses that no stored entry carries (restoring over a stored key breaks the
    agreement, see the finding on unified_cache.rs:1726); a shard write is finalized only
    for ids of no stored entry. *)
Theorem cache_indexes_agree cfg c :
  rtc cstep (new cfg) c ->
  (forall id key, key_for_meta_id c id = Some key <-> exists e, entries c !! key = Some e /\ UnifiedEntry.meta_id e = id)
  /\ (forall shard key, (exists id b sks, (id, key, b, sks) ∈ entries_for_shard c shard)
        <-> shard_of key = shard /\ is_Some (entries c !! key))
  /\ (forall key e, entries c !! key = Some e ->
        let id := UnifiedEntry.meta_id e in
        (forall ck, ck ∈ uk_filter_clauses key ->
           id ∈ default rb_new (MetaIndex.entries_for_clause (meta c) (cc_field ck) (cc_op ck) (cc_value_repr ck)))
        /\ (forall cl f, cl ∈ UnifiedEntry.original_filter_clauses e -> f ∈ collect_leaf_fields cl ->
           id ∈ default rb_new (MetaIndex.entries_for_filter_field (meta c) f))
        /\ id ∈ MetaIndex.entries_for_sort_field (meta c) (uk_sort_field key)).
Proof.
  intros Hc%reachable_cache_ok. split_and!.
  - intros id key. split; [apply (co_keys _ Hc)|]. intros (e & He & <-). by apply (co_ids _ Hc).
  - intros sk key. split.
    + intros (id & b & sks & (Hs & e & He & _)%entries_for_shard_elem); [|done]. split; [done|by eexists].
    + intros [Hs [e He]]. eexists _, _, _. apply entries_for_shard_elem; [done|]. split; [done|]. by exists e.
  - intros key e He. destruct (co_reg _ Hc key e He) as (reg & Hreg & Hcl & Hsort & _ & Hleaf & _). cbv zeta. split_and!.
    + intros ck Hck. unfold MetaIndex.entries_for_clause. rewrite listed_default, (mo_clause _ (co_meta _ Hc)).
      exists reg. split; [done|]. rewrite Hcl. by destruct ck.
    + intros cl f H1 H2. unfold MetaIndex.entries_for_filter_field. rewrite listed_default, (mo_field _ (co_meta _ Hc)). eauto.
    + unfold MetaIndex.entries_for_sort_field, MetaIndex.entries_for_sort. rewrite rb_elem_of_or, !listed_default, !(mo_sort _ (co_meta _ Hc)).
      unfold shard_of in Hsort. destruct (uk_direction key); eauto.
Qed.

End steps.

(** ** Witness *)

Definition demo_config : UnifiedCacheConfig := MkCacheConfig 2 1000 4 16 0 10 50 0.
Definition demo_bytes (e : UnifiedEntry.t Bitset) : N := 10.

Definition demo_key (clauses : list CanonicalClause) : UnifiedKey := MkUnifiedKey clauses "likes" Desc.
Definition flag_clause : FilterClause Bitset := Eq "nsfw" (Bool true).
Definition flag_key : UnifiedKey := demo_key [MkCanonical "nsfw" "eq" "true"].
Definition level_clause : FilterClause Bitset := Eq "level" (Integer 3).
Definition level_key : UnifiedKey := demo_key [MkCanonical "level" "eq" "3"].

(** Two entries, both formed on an empty result. *)
Definition demo_cache : UnifiedCache.t Bitset :=
  (form_and_store_with_clauses demo_bytes 5 [] (form_and_store_with_clauses demo_bytes 1 [] (new demo_config)
     flag_key [] false 0 [flag_clause] (fun _ => 0)).2 level_key [] false 0 [level_clause] (fun _ => 0)).2.

Lemma demo_cache_reachable : rtc (cstep demo_bytes) (new demo_config) demo_cache.
Proof. eapply rtc_l; [apply st_form; by vm_compute|]. apply rtc_once. apply st_form. by vm_compute. Qed.

Lemma demo_cache_ok : cache_ok demo_cache.
Proof. eapply reachable_cache_ok, demo_cache_reachable. Qed.

Lemma cache_indexes_agree_witness :
  key_for_meta_id demo_cache 1 = Some level_key
  /\ exists e, entries demo_cache !! level_key = Some e /\ UnifiedEntry.meta_id e = 1.
Proof.
  split; [by vm_compute|].
  destruct (cache_indexes_agree demo_bytes demo_config demo_cache demo_cache_reachable) as (Hid & _).
  apply (proj1 (Hid 1 level_key)). by vm_compute.
Defined.
