(* ===== verification/CacheCollect.v ===== *)
(** * Filter maintenance finds the entries a flush affects

    A flush changes filter bitmaps; [collect_filter_work] must find every cached entry
    for which some slot starts or stops matching.  It does, except when an equality on
    a field is keyed by a value that does not print as its bitmap key, or when a field
    with a top-level equality also occurs inside a compound clause. *)

From S2P Require Import Prelude Roaring Versioned Slot Config Sort Filter FilterFacts Float64 Bytes.
From S2P Require Import BucketDiffLog TimeBuckets Query Dictionary Planner Executor Radix CacheKeys CacheEntry OpsWal.
From S2P Require Import CacheEval MetaIndex MetaIndexTheorems UnifiedCache UnifiedCacheFacts UnifiedCacheTheorems OpsWalFacts CacheEvalTheorems.
Import UnifiedCache.

Section collect.
Context {B : Type} `{HB : Roaring B}.
Implicit Types (c : t B) (k key : UnifiedKey) (e entry : UnifiedEntry.t B) (ids : B) (x id : N).

Notation changes := (gmap (string * N) (list N)).

(** ** The affected ids *)

Lemma elem_of_eq_ids c ids (ch : changes) id :
  id ∈ eq_ids c ids ch
  <-> id ∈ ids \/ exists f v, is_Some (ch !! (f, v)) /\ id ∈ default rb_new (MetaIndex.entries_for_clause (meta c) f "eq" (print_dec v)).
Proof.
  unfold eq_ids. apply (map_fold_weak_ind (fun r m => id ∈ r <-> id ∈ ids \/ exists f v, is_Some (m !! (f, v))
    /\ id ∈ default rb_new (MetaIndex.entries_for_clause (meta c) f "eq" (print_dec v)))).
  - setoid_rewrite lookup_empty. unfold is_Some. naive_solver.
  - intros [f v] slots m r Hk IH. setoid_rewrite lookup_insert_is_Some. cbn [fst snd].
    assert (id ∈ (match MetaIndex.entries_for_clause (meta c) f "eq" (print_dec v) with Some bm => rb_or r bm | None => r end)
      <-> id ∈ r \/ id ∈ default rb_new (MetaIndex.entries_for_clause (meta c) f "eq" (print_dec v))) as ->.
    { destruct (MetaIndex.entries_for_clause _ _ _ _); simpl; [apply rb_elem_of_or|].
      pose proof (rb_elem_of_new (B := B) id). naive_solver. }
    rewrite IH. split.
    + intros [[?|(f' & v' & H1 & H2)]|?]; [by left|right; exists f', v'|right; exists f, v; auto].
      split; [|done]. destruct (decide ((f, v) = (f', v'))); auto.
    + intros [?|(f' & v' & [[= <- <-]|[_ H1]] & H2)]; [auto|auto|]. left. right. eauto.
Qed.

Lemma elem_of_field_ids c ids field id :
  id ∈ field_ids c ids field
  <-> id ∈ ids \/ (id ∈ default rb_new (MetaIndex.entries_for_filter_field (meta c) field)
        /\ exists key, meta_id_to_key c !! id = Some key /\ field_affects key field = true).
Proof.
  unfold field_ids. destruct (MetaIndex.entries_for_filter_field (meta c) field) as [bm|]; simpl.
  2: { pose proof (rb_elem_of_new (B := B) id). naive_solver. }
  assert (forall l acc, id ∈ foldl (fun ids id => match meta_id_to_key c !! id with
      | Some key => if field_affects key field then rb_insert ids id else ids | None => ids end) acc l
    <-> id ∈ acc \/ (id ∈ l /\ exists key, meta_id_to_key c !! id = Some key /\ field_affects key field = true)) as H.
  { induction l as [|i l IH]; intros acc; simpl; [set_solver|]. rewrite IH, elem_of_cons.
    destruct (meta_id_to_key c !! i) as [key|] eqn:Ei; [destruct (field_affects key field) eqn:Ea|].
    - rewrite rb_elem_of_insert. naive_solver.
    - naive_solver congruence.
    - naive_solver. }
  rewrite H. change (id ∈ rb_iter (rb_sub bm ids)) with (id ∈ rb_sub bm ids). rewrite rb_elem_of_sub.
  destruct (rb_contains ids id) eqn:Ec; [apply rb_contains_true in Ec|apply rb_contains_false in Ec]; tauto.
Qed.

Lemma elem_of_affected_ids c (ins rem : changes) id :
  id ∈ affected_ids c ins rem
  <-> (exists f v, (is_Some (ins !! (f, v)) \/ is_Some (rem !! (f, v)))
         /\ id ∈ default rb_new (MetaIndex.entries_for_clause (meta c) f "eq" (print_dec v)))
      \/ (exists f, is_Some (changed_slots_per_field ins rem !! f)
            /\ id ∈ default rb_new (MetaIndex.entries_for_filter_field (meta c) f)
            /\ exists key, meta_id_to_key c !! id = Some key /\ field_affects key f = true).
Proof.
  unfold affected_ids. set (start := eq_ids c (eq_ids c rb_new ins) rem).
  assert (id ∈ start <-> exists f v, (is_Some (ins !! (f, v)) \/ is_Some (rem !! (f, v)))
         /\ id ∈ default rb_new (MetaIndex.entries_for_clause (meta c) f "eq" (print_dec v))) as <-.
  { unfold start. rewrite !elem_of_eq_ids. pose proof (rb_elem_of_new (B := B) id). naive_solver. }
  apply (map_fold_weak_ind (fun r m => id ∈ r <-> id ∈ start \/ exists f, is_Some (m !! f)
    /\ id ∈ default rb_new (MetaIndex.entries_for_filter_field (meta c) f)
    /\ exists key, meta_id_to_key c !! id = Some key /\ field_affects key f = true)).
  - setoid_rewrite lookup_empty. unfold is_Some. naive_solver.
  - intros f s m r Hf IH. rewrite elem_of_field_ids, IH. setoid_rewrite lookup_insert_is_Some. split.
    + intros [[?|(f' & H1 & H2)]|H]; [by left|right; exists f'|right; exists f; auto].
      split; [|done]. destruct (decide (f = f')); auto.
    + intros [?|(f' & [<-|[_ H1]] & H2)]; [auto|auto|]. left. right. eauto.
Qed.

Lemma elem_of_add_changes (m : gmap string (gset N)) (ch : changes) f x :
  x ∈ default ∅ (add_changes m ch !! f) <-> x ∈ default ∅ (m !! f) \/ exists v slots, ch !! (f, v) = Some slots /\ x ∈ slots.
Proof.
  unfold add_changes. apply (map_fold_weak_ind (fun r d => x ∈ default ∅ (r !! f)
    <-> x ∈ default ∅ (m !! f) \/ exists v slots, d !! (f, v) = Some slots /\ x ∈ slots)).
  - setoid_rewrite lookup_empty. naive_solver.
  - intros [g w] slots d r Hd IH. setoid_rewrite lookup_insert_Some. destruct (decide (f = g)) as [->|Hne].
    + rewrite lookup_insert_eq. simpl. rewrite elem_of_union, elem_of_list_to_set, IH. split.
      * intros [[?|(v & s & H1 & H2)]|?]; [by left|right; exists v, s|right; exists w, slots; auto].
        split; [|done]. destruct (decide (w = v)) as [->|]; [congruence|]. right. split; [congruence|done].
      * intros [?|(v & s & [[Hv <-]|[_ H1]] & H2)]; [auto|auto|]. left. right. eauto.
    + rewrite lookup_insert_ne by done. rewrite IH. split; [|naive_solver].
      intros [?|(v & s & H1 & H2)]; [by left|]. right. exists v, s. split; [right; split; [congruence|done]|done].
Qed.

Lemma elem_of_changed (ins rem : changes) f x :
  x ∈ default ∅ (changed_slots_per_field ins rem !! f)
  <-> exists v slots, (ins !! (f, v) = Some slots \/ rem !! (f, v) = Some slots) /\ x ∈ slots.
Proof.
  unfold changed_slots_per_field. rewrite !elem_of_add_changes, lookup_empty. simpl. set_solver.
Qed.

Lemma changed_dom (ins rem : changes) f S :
  changed_slots_per_field ins rem !! f = Some S -> exists v, is_Some (ins !! (f, v)) \/ is_Some (rem !! (f, v)).
Proof.
  assert (forall (ch : changes) m, is_Some (add_changes m ch !! f) -> is_Some (m !! f) \/ exists v, is_Some (ch !! (f, v))) as H.
  { intros ch m. unfold add_changes.
    apply (map_fold_weak_ind (fun r d => is_Some (r !! f) -> is_Some (m !! f) \/ exists v, is_Some (d !! (f, v)))); [by left|].
    intros [g w] slots d r Hd IH. rewrite lookup_insert_is_Some. cbn [fst snd]. setoid_rewrite lookup_insert_is_Some.
    intros [->|[_ Hr]]; [right; exists w; by left|]. destruct (IH Hr) as [?|[v Hv]]; [by left|right; exists v].
    destruct (decide ((g, w) = (f, v))); auto. }
  intros HS. destruct (H rem (add_changes ∅ ins)) as [H1|[v Hv]]; [by exists S| |by exists v; right].
  destruct (H ins ∅ H1) as [[? ?]|[v Hv]]; [done|]. exists v. by left.
Qed.

(** ** A changed answer comes from a changed bit *)

Section change.
Context (to_lowercase : string -> string) (fmt_f64 : spec_float -> string).
Context (filters filters' : gmap string (FilterField.t B)) (sorts : gmap string (SortField.t B)).
Context (mgr : option (TimeBucketManager.t B)) (maps : option StringMaps) (dicts : option (gmap string FieldDictionary.t)).

Notation native fs := (slot_matches_clause_native to_lowercase fs sorts mgr maps dicts).
Notation native_filter fs := (slot_matches_filter_native to_lowercase fs sorts mgr maps dicts).
Notation resolve := (resolve_filter_value to_lowercase maps dicts).

Definition bit_changed x (f : string) (v : N) : Prop := field_contains filters f v x <> field_contains filters' f v x.

Lemma value_contains_changed f val x :
  value_contains to_lowercase filters maps dicts f x val <> value_contains to_lowercase filters' maps dicts f x val ->
  exists v, resolve f val = Some v /\ bit_changed x f v.
Proof. unfold value_contains, bit_changed. destruct (resolve f val); [eauto|done]. Qed.

Lemma forallb_changed {A : Type} (p q : A -> bool) (l : list A) :
  forallb p l <> forallb q l -> exists a, a ∈ l /\ p a <> q a.
Proof.
  induction l as [|a l IH]; simpl; [done|]. intros H. destruct (decide (p a = q a)) as [Heq|Hne].
  - destruct IH as (a' & Ha & Hd); [|exists a'; split; [by right|done]]. intros E. apply H. by rewrite Heq, E.
  - exists a. split; [by left|done].
Qed.

Lemma existsb_changed {A : Type} (p q : A -> bool) (l : list A) :
  existsb p l <> existsb q l -> exists a, a ∈ l /\ p a <> q a.
Proof.
  induction l as [|a l IH]; simpl; [done|]. intros H. destruct (decide (p a = q a)) as [Heq|Hne].
  - destruct IH as (a' & Ha & Hd); [|exists a'; split; [by right|done]]. intros E. apply H. by rewrite Heq, E.
  - exists a. split; [by left|done].
Qed.

Lemma leaf_of_part (cs : list (FilterClause B)) cl f :
  cl ∈ cs -> f ∈ collect_leaf_fields cl -> f ∈ (⋃ (map collect_leaf_fields cs) : gset string).
Proof. intros Hc Hf. apply elem_of_union_list. exists (collect_leaf_fields cl). split; [|done]. by apply list_elem_of_fmap_2. Qed.

Lemma native_changed (cl : FilterClause B) x :
  native filters x cl <> native filters' x cl -> exists f v, f ∈ collect_leaf_fields cl /\ bit_changed x f v.
Proof.
  assert (forall f val, value_contains to_lowercase filters maps dicts f x val <> value_contains to_lowercase filters' maps dicts f x val ->
    exists g v, g ∈ ({[f]} : gset string) /\ bit_changed x g v) as Hval.
  { intros f val (v & _ & H)%value_contains_changed. exists f, v. split; [set_solver|done]. }
  induction cl as [f v|f v|f vs|f vs|f v|f v|f v|f v|cl IH|cs IH|cs IH|f|f|f n b] using FilterClause_nested_ind; intros H.
  - by apply (Hval f v).
  - apply (Hval f v). cbn in H. congruence.
  - cbn in H. apply existsb_changed in H as (v & _ & H). by apply (Hval f v).
  - cbn in H. apply forallb_changed in H as (v & _ & H). apply (Hval f v). congruence.
  - done.
  - done.
  - done.
  - done.
  - apply IH. cbn in H. congruence.
  - cbn [slot_matches_clause_native] in H. apply forallb_changed in H as (cl & Hcl & H).
    rewrite Forall_forall in IH. destruct (IH cl Hcl H) as (f & v & Hf & Hb). exists f, v. split; [|done]. by eapply leaf_of_part.
  - cbn [slot_matches_clause_native] in H. apply existsb_changed in H as (cl & Hcl & H).
    rewrite Forall_forall in IH. destruct (IH cl Hcl H) as (f & v & Hf & Hb). exists f, v. split; [|done]. by eapply leaf_of_part.
  - cbn in H. exists f, NULL_BITMAP_KEY. split; [set_solver|done].
  - cbn in H. exists f, NULL_BITMAP_KEY. split; [set_solver|]. unfold bit_changed. congruence.
  - done.
Qed.

(** ** Finding the entry *)

(** The clauses of a query with its top-level conjunctions flattened. *)
Definition flat (cs : list (FilterClause B)) : list (FilterClause B) :=
  mjoin ((fun cl => match cl with And inner => inner | _ => [cl] end) <$> cs).

Notation key_of := (key_of (B := B) fmt_f64).

Lemma flat_keys_flat (cs : list (FilterClause B)) : mjoin (flat_keys fmt_f64 <$> cs) = key_of <$> flat cs.
Proof.
  unfold flat. induction cs as [|cl cs IH]; [done|]. cbn. rewrite fmap_app. f_equal; [|done]. by destruct cl.
Qed.

Lemma native_filter_flat fs x cs : native_filter fs x cs = forallb (native fs x) (flat cs).
Proof.
  unfold slot_matches_filter_native, flat. induction cs as [|cl cs IH]; [done|]. cbn. rewrite forallb_app. f_equal; [|done].
  destruct cl; cbn; by rewrite ?andb_true_r.
Qed.

Lemma flat_leaf cs cl f : cl ∈ flat cs -> f ∈ collect_leaf_fields cl -> exists cl', cl' ∈ cs /\ f ∈ collect_leaf_fields cl'.
Proof.
  unfold flat. intros (l & Hcl & Hl)%list_elem_of_join Hf. apply list_elem_of_fmap in Hl as (cl' & -> & Hcl'). exists cl'. split; [done|].
  destruct cl'; cbn [collect_leaf_fields]; try (apply list_elem_of_singleton in Hcl as ->; done). by eapply leaf_of_part.
Qed.

(** The canonical operator is "eq" for equalities only. *)
Lemma key_of_eq (cl : FilterClause B) : cc_op (key_of cl) = "eq"%string -> exists f val, cl = Eq f val /\ key_of cl = MkCanonical f "eq" (value_to_string fmt_f64 val).
Proof.
  destruct cl; try (by intros ?); [by eexists _, _| | |]; unfold CacheKeys.key_of; cbn [from_filter].
  - rewrite from_filter_total. by intros ?.
  - rewrite mapM_from_filter. by intros ?.
  - rewrite mapM_from_filter. by intros ?.
Qed.

(** What the search relies on: equality values print as their keys, and a field with
    a top-level equality is mentioned only by clauses keyed under it. *)
Definition searchable (cs : list (FilterClause B)) : Prop :=
  (forall f val v, Eq f val ∈ flat cs -> resolve f val = Some v -> value_to_string fmt_f64 val = print_dec v)
  /\ (forall cl f, cl ∈ flat cs -> f ∈ collect_leaf_fields cl ->
        cc_field (key_of cl) = f \/ forall val, Eq f val ∉ flat cs).

Lemma field_affects_non_eq k cs cl f :
  uk_filter_clauses k ≡ₚ key_of <$> flat cs -> cl ∈ flat cs ->
  cc_op (key_of cl) <> "eq"%string -> cc_field (key_of cl) = f \/ (forall val, Eq f val ∉ flat cs) ->
  field_affects k f = true.
Proof.
  intros Hk Hcl Hop Hf. unfold field_affects.
  destruct (filter (fun ck => cc_field ck = f) (uk_filter_clauses k)) as [|ck l] eqn:El; [done|]. rewrite <- El.
  apply existsb_exists. setoid_rewrite <- list_elem_of_In. setoid_rewrite list_elem_of_filter. setoid_rewrite Hk.
  destruct Hf as [Hf|Hno].
  - exists (key_of cl). split_and!; [done|by apply list_elem_of_fmap_2|]. by apply negb_true_iff, bool_decide_eq_false.
  - assert (ck ∈ filter (fun ck => cc_field ck = f) (uk_filter_clauses k)) as Hck by (rewrite El; by left).
    apply list_elem_of_filter in Hck as [Hfield Hin]. rewrite Hk in Hin. exists ck. split_and!; [done|done|].
    apply negb_true_iff, bool_decide_eq_false. intros Heq. apply list_elem_of_fmap in Hin as (cl' & -> & Hin).
    destruct (key_of_eq cl' Heq) as (f' & val & -> & Hkey). rewrite Hkey in Hfield. cbn in Hfield. subst. by apply (Hno val).
Qed.

(** A changed answer puts the entry among the affected ones. *)
Lemma affected_found c k e (cs : list (FilterClause B)) (ins rem : changes) x cl :
  cache_ok c -> entries c !! k = Some e -> uk_filter_clauses k ≡ₚ key_of <$> flat cs ->
  UnifiedEntry.original_filter_clauses e ≡ₚ cs -> searchable cs ->
  (forall f v, bit_changed x f v -> exists slots, (ins !! (f, v) = Some slots \/ rem !! (f, v) = Some slots) /\ x ∈ slots) ->
  cl ∈ flat cs -> native filters x cl <> native filters' x cl ->
  exists f, f ∈ collect_leaf_fields cl /\ x ∈ default ∅ (changed_slots_per_field ins rem !! f)
    /\ UnifiedEntry.meta_id e ∈ affected_ids c ins rem.
Proof.
  intros Hc He Hperm Horig [Hprint Hmention] Hlog Hcl Hdiff.
  destruct (co_reg _ Hc k e He) as (reg & Hreg & Hclauses & _ & _ & Hleaf & _). pose proof (co_ids _ Hc k e He) as Hid.
  setoid_rewrite elem_of_affected_ids. destruct (decide (cc_op (key_of cl) = "eq"%string)) as [Heq|Hop].
  - destruct (key_of_eq cl Heq) as (f & val & -> & Hck).
    destruct (value_contains_changed f val x Hdiff) as (v & Hv & Hb). destruct (Hlog f v Hb) as (slots & Hs & Hx).
    exists f. split_and!; [set_solver|apply elem_of_changed; eauto|]. left. exists f, v. split; [unfold is_Some; naive_solver|].
    unfold MetaIndex.entries_for_clause. rewrite listed_default, (mo_clause _ (co_meta _ Hc)). exists reg. split; [done|].
    rewrite Hclauses, Hperm, <- (Hprint f val v Hcl Hv), <- Hck. by apply list_elem_of_fmap_2.
  - destruct (native_changed cl x Hdiff) as (f & v & Hf & Hb). destruct (Hlog f v Hb) as (slots & Hs & Hx).
    assert (x ∈ default ∅ (changed_slots_per_field ins rem !! f)) as Hin by (apply elem_of_changed; eauto).
    exists f. split_and!; [done|done|]. right. exists f. split_and!.
    + destruct (changed_slots_per_field ins rem !! f); [by eexists|]. by apply not_elem_of_empty in Hin.
    + unfold MetaIndex.entries_for_filter_field. rewrite listed_default, (mo_field _ (co_meta _ Hc)). exists reg. split; [done|].
      destruct (flat_leaf cs cl f Hcl Hf) as (cl' & Hcl' & Hf'). apply (Hleaf cl' f); [by rewrite Horig|done].
    + exists k. split; [done|]. eapply field_affects_non_eq; [done..|by apply Hmention].
Qed.

(** An entry looks at the changed slots of its leaf fields. *)
Lemma slots_for_found k e cl f (changed : gmap string (gset N)) x :
  cl ∈ UnifiedEntry.original_filter_clauses e -> f ∈ collect_leaf_fields cl -> x ∈ default ∅ (changed !! f) ->
  x ∈ slots_for k e changed.
Proof.
  intros Hcl Hf Hx. unfold slots_for. rewrite dedup_adjacent_elem, merge_sort_Permutation. apply list_elem_of_join.
  exists (elements (default ∅ (changed !! f))). split; [by apply elem_of_elements|].
  apply (list_elem_of_fmap_2 (fun f => elements (default ∅ (changed !! f)))).
  destruct (UnifiedEntry.original_filter_clauses e) as [|o os] eqn:Eo; [by apply not_elem_of_nil in Hcl|].
  apply elem_of_elements. by eapply leaf_of_part.
Qed.

(** An affected, fresh entry with slots to look at becomes a work item. *)
Lemma collect_items_found c k e ids (slots : UnifiedKey -> UnifiedEntry.t B -> list N) x :
  cache_ok c -> entries c !! k = Some e -> UnifiedEntry.needs_rebuild e = false ->
  UnifiedEntry.meta_id e ∈ ids -> x ∈ slots k e ->
  exists it, it ∈ collect_items c ids slots /\ it_key it = k /\ x ∈ it_slots it
    /\ it_min_tracked_value it = UnifiedEntry.min_tracked_value e /\ it_direction it = UnifiedEntry.direction e
    /\ it_original_filter_clauses it = UnifiedEntry.original_filter_clauses e.
Proof.
  intros Hc He Hfresh Hid Hx. pose proof (co_ids _ Hc k e He) as Hk.
  exists (MkItem k (slots k e) (UnifiedEntry.min_tracked_value e) (UnifiedEntry.direction e) (UnifiedEntry.original_filter_clauses e)).
  split_and!; try done. apply list_elem_of_omap. exists (UnifiedEntry.meta_id e). split; [done|].
  rewrite Hk. cbn. rewrite He. cbn. rewrite Hfresh. unfold work_item. destruct (slots k e); [by apply not_elem_of_nil in Hx|done].
Qed.

Lemma collect_filter_found c k e (cs : list (FilterClause B)) (ins rem : changes) x :
  cache_ok c -> entries c !! k = Some e -> UnifiedEntry.needs_rebuild e = false ->
  canonicalize fmt_f64 cs = Some (uk_filter_clauses k) -> UnifiedEntry.original_filter_clauses e ≡ₚ cs ->
  searchable cs ->
  (forall f v, bit_changed x f v -> exists slots, (ins !! (f, v) = Some slots \/ rem !! (f, v) = Some slots) /\ x ∈ slots) ->
  native_filter filters x cs <> native_filter filters' x cs ->
  let '(work, evicted) := collect_filter_work c ins rem in
  (exists it, it ∈ work /\ it_key it = k /\ x ∈ it_slots it) \/ k ∈ evicted.
Proof.
  intros Hc He Hfresh Hkey Horig Hsearch Hlog Hdiff.
  assert (uk_filter_clauses k ≡ₚ key_of <$> flat cs) as Hperm.
  { rewrite canonicalize_eq in Hkey. injection Hkey as <-. by rewrite merge_sort_Permutation, flat_keys_flat. }
  rewrite !native_filter_flat in Hdiff. apply forallb_changed in Hdiff as (cl & Hcl & Hdiff).
  destruct (affected_found c k e cs ins rem x cl) as (f & Hf & Hin & Haff); try done.
  destruct (flat_leaf cs cl f Hcl Hf) as (cl' & Hcl' & Hf').
  unfold collect_filter_work. rewrite bool_decide_false by (intros E; by rewrite E, lookup_empty in He).
  rewrite bool_decide_false by (intros E; rewrite E, lookup_empty in Hin; by apply not_elem_of_empty in Hin).
  destruct (rb_is_empty (affected_ids c ins rem)) eqn:Eemp.
  { apply rb_is_empty_true in Eemp. unfold elem_of, rb_elem_of in Haff. rewrite Eemp in Haff. by apply not_elem_of_nil in Haff. }
  destruct (work_overrun c _ _).
  - right. apply list_elem_of_omap. exists (UnifiedEntry.meta_id e). split; [done|]. by apply (co_ids _ Hc).
  - left. destruct (collect_items_found c k e _ (fun key entry => slots_for key entry (changed_slots_per_field ins rem)) x Hc He Hfresh Haff)
      as (it & H1 & H2 & H3 & _); [|by exists it]. eapply slots_for_found; [by rewrite Horig|done|done].
Qed.

(** C21: filter maintenance misses no affected entry.  If a flush makes a slot start
    or stop matching a cached entry's filter, and the changed bits are in the flush's
    insert and remove groups, then the entry is among the work items with that slot
    (or it is to be evicted, when the work budget is exceeded), for entries whose
    equality values print as their bitmap keys and whose equality fields do not also
    occur inside compound clauses. *)
Theorem filter_work_complete c k e (cs : list (FilterClause B)) (ins rem : changes) x :
  cache_ok c -> entries c !! k = Some e -> UnifiedEntry.needs_rebuild e = false ->
  canonicalize fmt_f64 cs = Some (uk_filter_clauses k) -> UnifiedEntry.original_filter_clauses e ≡ₚ cs ->
  searchable cs ->
  (forall f v, bit_changed x f v -> exists slots, (ins !! (f, v) = Some slots \/ rem !! (f, v) = Some slots) /\ x ∈ slots) ->
  native_filter filters x cs <> native_filter filters' x cs ->
  let '(work, evicted) := collect_filter_work c ins rem in
  (exists it, it ∈ work /\ it_key it = k /\ x ∈ it_slots it) \/ k ∈ evicted.
Proof. apply collect_filter_found. Qed.

End change.

(** A changed sort value puts every entry of the sort field among the work items. *)
Lemma collect_sort_found c k e (muts : gmap string (gset N)) x :
  cache_ok c -> entries c !! k = Some e -> UnifiedEntry.needs_rebuild e = false ->
  x ∈ default ∅ (muts !! uk_sort_field k) ->
  let '(work, evicted) := collect_sort_work c muts in
  (exists it, it ∈ work /\ it_key it = k /\ x ∈ it_slots it) \/ k ∈ evicted.
Proof.
  intros Hc He Hfresh Hx. destruct (muts !! uk_sort_field k) as [S|] eqn:HS; [|by apply not_elem_of_empty in Hx]. simpl in Hx.
  destruct (co_reg _ Hc k e He) as (reg & Hreg & _ & Hsort & _).
  assert (UnifiedEntry.meta_id e ∈ sort_affected_ids c muts) as Haff.
  { unfold sort_affected_ids. revert HS. apply (map_fold_weak_ind (fun r m => m !! uk_sort_field k = Some S -> UnifiedEntry.meta_id e ∈ r)); [by rewrite lookup_empty|].
    intros f s m r Hf IH. rewrite lookup_insert_Some, rb_elem_of_or. intros [[-> _]|[_ Hm]]; [right|left; auto].
    unfold MetaIndex.entries_for_sort_field, MetaIndex.entries_for_sort. rewrite rb_elem_of_or, !listed_default, !(mo_sort _ (co_meta _ Hc)).
    unfold shard_of in Hsort. destruct (uk_direction k); eauto. }
  unfold collect_sort_work. rewrite bool_decide_false by (intros E; by rewrite E, lookup_empty in He).
  rewrite bool_decide_false by (intros E; by rewrite E, lookup_empty in HS). cbn [orb].
  destruct (rb_is_empty (sort_affected_ids c muts)) eqn:Eemp.
  { apply rb_is_empty_true in Eemp. unfold elem_of, rb_elem_of in Haff. rewrite Eemp in Haff. by apply not_elem_of_nil in Haff. }
  destruct (work_overrun c _ _).
  - right. apply list_elem_of_omap. exists (UnifiedEntry.meta_id e). split; [done|]. by apply (co_ids _ Hc).
  - left. destruct (collect_items_found c k e _ (fun key _ => elements (default ∅ (muts !! uk_sort_field key))) x Hc He Hfresh Haff)
      as (it & H1 & H2 & H3 & _); [|by exists it]. rewrite HS. by apply elem_of_elements.
Qed.

(** ** Entries the search misses *)

(** an entry with an equality on a value that does not print as a number, such as
    a boolean or a string, is never found by filter maintenance: whatever a flush
    changes in the field, the entry is neither re-evaluated nor evicted, because the
    search looks for the printed bitmap key. *)
Theorem symbolic_equality_never_maintained c k e (f s : string) (ins rem : changes) :
  cache_ok c -> entries c !! k = Some e -> uk_filter_clauses k = [MkCanonical f "eq" s] ->
  (forall v, print_dec v <> s) ->
  (forall g v, is_Some (ins !! (g, v)) \/ is_Some (rem !! (g, v)) -> g = f) ->
  (forall it, it ∈ (collect_filter_work c ins rem).1 -> it_key it <> k) /\ k ∉ (collect_filter_work c ins rem).2.
Proof.
  intros Hc He Hk Hs Hf.
  assert (forall id, meta_id_to_key c !! id = Some k -> id ∉ affected_ids c ins rem) as Hnot.
  { intros id Hid. destruct (co_keys _ Hc id k Hid) as (e' & He' & Hid'). destruct (co_reg _ Hc k e' He') as (reg & Hreg & Hcl & _).
    rewrite elem_of_affected_ids. intros [(g & v & Hg & Hin)|(g & Hg & _ & key & Hkey & Ha)].
    - unfold MetaIndex.entries_for_clause in Hin. rewrite listed_default, (mo_clause _ (co_meta _ Hc)) in Hin.
      destruct Hin as (reg' & Hr' & Hin). rewrite <- Hid', Hreg in Hr'. injection Hr' as <-. rewrite Hcl, Hk in Hin.
      apply list_elem_of_singleton in Hin. injection Hin as _ Hv. by apply (Hs v).
    - rewrite Hid in Hkey. injection Hkey as <-. destruct Hg as [S HS].
      assert (g = f) as ->.
      { apply changed_dom in HS as (v & Hv). by apply (Hf g v). }
      unfold field_affects in Ha. rewrite Hk in Ha. rewrite filter_cons_True, filter_nil in Ha by done. done. }
  assert (forall it : CacheMaintenanceItem B, it ∈ [] -> it_key it <> k) as Hnil by (by intros it ?%not_elem_of_nil).
  assert (k ∉ []) as Hnil' by apply not_elem_of_nil.
  unfold collect_filter_work. case_bool_decide; [done|]. case_bool_decide; [done|].
  destruct (rb_is_empty _); [done|]. destruct (work_overrun _ _ _); split; simpl; try done.
  - unfold affected_keys. rewrite list_elem_of_omap. intros (id & Hin & Hid). by apply (Hnot id).
  - intros it (id & Hin & Hit)%list_elem_of_omap Hitk. destruct (meta_id_to_key c !! id) as [k'|] eqn:Hid; [|done].
    cbn in Hit. destruct (entries c !! k') as [e'|]; [|done]. cbn in Hit. destruct (UnifiedEntry.needs_rebuild e'); [done|].
    assert (it_key it = k') as <- by (unfold work_item in Hit; destruct (slots_for _ _ _); [done|by injection Hit as <-]).
    apply (Hnot id); [by rewrite Hid, Hitk|done].
Qed.

End collect.

(** ** Witnesses *)

Definition level_field : FilterField.t Bitset := FilterField.insert (FilterField.new (filter_config "level" SingleValue)) 3 7.
Definition level_filters : gmap string (FilterField.t Bitset) := {["level"%string := level_field]}.

Lemma level_changed f v : bit_changed ∅ level_filters 7 f v -> f = "level"%string /\ v = 3.
Proof.
  unfold bit_changed, field_contains. rewrite lookup_empty. cbn. intros H. unfold level_filters in H.
  destruct (decide (f = "level"%string)) as [->|Hf]; [|by rewrite lookup_singleton_ne in H].
  rewrite lookup_singleton_eq in H. cbn in H. split; [done|]. destruct (decide (v = 3)) as [|Hv]; [done|].
  unfold FilterField.get_versioned in H.
  assert (FilterField.bitmaps level_field = {[3 := default VersionedBitmap.new_empty (FilterField.bitmaps level_field !! 3)]}) as E
    by (by vm_compute).
  by rewrite E, lookup_singleton_ne in H.
Qed.

Lemma filter_work_complete_witness :
  let '(work, evicted) := collect_filter_work demo_cache {[("level"%string, 3) := [7]]} ∅ in
  (exists it, it ∈ work /\ it_key it = level_key /\ 7 ∈ it_slots it) \/ level_key ∈ evicted.
Proof.
  pose (e := default (UnifiedEntry.new_with_clauses 0 [] 0 0 false 0 0 Desc [] (fun _ => 0)) (entries demo_cache !! level_key)).
  apply (filter_work_complete id (fun _ => ""%string) ∅ level_filters ∅ None None None demo_cache level_key e [level_clause] _ ∅ 7).
  - apply demo_cache_ok.
  - by vm_compute.
  - by vm_compute.
  - by vm_compute.
  - by vm_compute.
  - split.
    + intros f val v Hin%list_elem_of_singleton. injection Hin as -> ->. intros [= <-]. by vm_compute.
    + intros cl f Hin%list_elem_of_singleton Hf. subst cl. left. cbn in Hf. apply elem_of_singleton in Hf. by subst f.
  - intros f v [-> ->]%level_changed. exists [7]. split; [left; apply lookup_singleton_eq|by left].
  - by vm_compute.
Defined.

Lemma symbolic_equality_never_maintained_witness :
  (forall it, it ∈ (collect_filter_work demo_cache {[("nsfw"%string, 1) := [7]]} ∅).1 -> it_key it <> flag_key)
  /\ flag_key ∉ (collect_filter_work demo_cache {[("nsfw"%string, 1) := [7]]} ∅).2.
Proof.
  pose (e := default (UnifiedEntry.new_with_clauses 0 [] 0 0 false 0 0 Desc [] (fun _ => 0)) (entries demo_cache !! flag_key)).
  apply (symbolic_equality_never_maintained demo_cache flag_key e "nsfw" "true" {[("nsfw"%string, 1) := [7]]} ∅).
  - apply demo_cache_ok.
  - by vm_compute.
  - done.
  - intros v Hv. pose proof (print_dec_digits v) as Hd. by rewrite Hv in Hd.
  - intros g v [[? Hs]|[? Hs]]; [|by rewrite lookup_empty in Hs]. apply lookup_singleton_Some in Hs as [[= <- <-] _]. done.
Defined.

(** An entry with an equality on a field and a compound clause that also mentions the
    field is not found when only the compound clause is affected. *)
Definition mixed_clauses : list (FilterClause Bitset) := [Eq "tag" (Integer 1); Or [Eq "tag" (Integer 2); Eq "g" (Integer 3)]].
Definition mixed_key : UnifiedKey := MkUnifiedKey (default [] (canonicalize (fun _ => ""%string) mixed_clauses)) "likes" Desc.
Definition mixed_cache : UnifiedCache.t Bitset :=
  (form_and_store_with_clauses demo_bytes 1 [] (UnifiedCache.new demo_config) mixed_key [1] false 1 mixed_clauses (fun _ => 5)).2.

Example compound_occurrence_missed :
  entries mixed_cache !! mixed_key <> None
  /\ collect_filter_work mixed_cache {[("tag"%string, 2) := [7]]} ∅ = ([], [])
  /\ collect_filter_work mixed_cache {[("g"%string, 3) := [7]]} ∅ <> ([], []).
Proof. split_and!; by vm_compute. Qed.
