(* ===== verification/CacheWorker.v ===== *)
(** * The cache worker (src/cache_worker.rs)

    After every flush the worker receives what changed, merges the queued items and
    brings the cache up to date with the published snapshot: collect, evaluate, apply.
    The thread, its channel and its metrics become one step on a cache and a queue. *)

From S2P Require Import Prelude Roaring Versioned Slot Config Sort Filter Float64 Bytes.
From S2P Require Import BucketDiffLog TimeBuckets Query Dictionary Planner Executor Radix CacheKeys CacheEntry OpsWal.
From S2P Require Import CacheEval MetaIndex UnifiedCache.

Notation changes := (gmap (string * N) (list N)).

Record CacheWorkItem (B : Type) : Type := MkWork {
  cw_filter_inserts : changes;
  cw_filter_removes : changes;
  cw_sort_mutations : gmap string (gset N);
  cw_alive_removes : list N;
  cw_mutated_filter_fields : gset string;
  cw_has_alive_mutations : bool;
  cw_bucket_changed_slots : B;
}.
Arguments MkWork {B}.
Arguments cw_filter_inserts {B} _.
Arguments cw_filter_removes {B} _.
Arguments cw_sort_mutations {B} _.
Arguments cw_alive_removes {B} _.
Arguments cw_mutated_filter_fields {B} _.
Arguments cw_has_alive_mutations {B} _.
Arguments cw_bucket_changed_slots {B} _.

(** ** Merging sorted lists of slots *)

Definition dedup_sort (v : list N) : list N :=
  if (length v <=? 1)%nat then v else dedup_adjacent (merge_sort N.le v).

(** The two-pointer walk: what is only in the first, what is only in the second. *)
Fixpoint symmetric_difference_sorted (a b : list N) : list N * list N :=
  let fix walk (b : list N) : list N * list N :=
    match a, b with
    | [], _ => ([], b)
    | _, [] => (a, [])
    | x :: a', y :: b' =>
        match x ?= y with
        | Datatypes.Lt => let '(only_a, only_b) := symmetric_difference_sorted a' b in (x :: only_a, only_b)
        | Datatypes.Gt => let '(only_a, only_b) := walk b' in (only_a, y :: only_b)
        | Datatypes.Eq => symmetric_difference_sorted a' b'
        end
    end in
  walk b.

(** A list that becomes empty takes its key with it. *)
Definition put_or_drop (m : changes) (key : string * N) (slots : list N) : changes :=
  match slots with [] => delete key m | _ => <[key := slots]> m end.

Definition cancel_key (acc : changes * changes) (key : string * N) : changes * changes :=
  let '(inserts, removes) := acc in
  match inserts !! key, removes !! key with
  | Some ins, Some rem =>
      let '(new_ins, new_rem) := symmetric_difference_sorted ins rem in
      (put_or_drop inserts key new_ins, put_or_drop removes key new_rem)
  | _, _ => acc
  end.

Definition cancel_pairs (inserts removes : changes) : changes * changes :=
  foldl cancel_key (inserts, removes) (elements (dom inserts ∩ dom removes)).

Section worker.
Context {B : Type} `{!RoaringOps B}.

Notation item := (CacheWorkItem B).

Definition is_empty (w : item) : bool :=
  bool_decide (cw_filter_inserts w = ∅) && bool_decide (cw_filter_removes w = ∅)
  && bool_decide (cw_sort_mutations w = ∅) && bool_decide (cw_alive_removes w = [])
  && negb (cw_has_alive_mutations w) && rb_is_empty (cw_bucket_changed_slots w).

(** [entry(k).or_default().append(v)] for every group of an item. *)
Definition append_changes (m ch : changes) : changes :=
  map_fold (fun k v m => <[k := default [] (m !! k) ++ v]> m) m ch.

Definition union_mutations (m ch : gmap string (gset N)) : gmap string (gset N) :=
  map_fold (fun k v m => <[k := default ∅ (m !! k) ∪ v]> m) m ch.

Definition empty_item : item := MkWork ∅ ∅ ∅ [] ∅ false rb_new.

(** The first pass: concatenate; the alive removals are collected in a set. *)
Definition merge_item (acc : item * gset N) (w : item) : item * gset N :=
  let '(m, alive) := acc in
  (MkWork (append_changes (cw_filter_inserts m) (cw_filter_inserts w))
     (append_changes (cw_filter_removes m) (cw_filter_removes w))
     (union_mutations (cw_sort_mutations m) (cw_sort_mutations w)) []
     (cw_mutated_filter_fields m ∪ cw_mutated_filter_fields w)
     (cw_has_alive_mutations m || cw_has_alive_mutations w)
     (rb_or (cw_bucket_changed_slots m) (cw_bucket_changed_slots w)),
   alive ∪ list_to_set (cw_alive_removes w)).

Definition coalesce_work_items (items : list item) : item :=
  let '(m, alive) := foldl merge_item (empty_item, ∅) items in
  let '(inserts, removes) := cancel_pairs (dedup_sort <$> cw_filter_inserts m) (dedup_sort <$> cw_filter_removes m) in
  MkWork inserts removes (cw_sort_mutations m) (merge_sort N.le (elements alive)) (cw_mutated_filter_fields m)
    (cw_has_alive_mutations m) (cw_bucket_changed_slots m).

(** ** One cycle *)

(** The published snapshot the worker evaluates against. *)
Record Snapshot : Type := MkSnapshot {
  sn_filters : gmap string (FilterField.t B);
  sn_sorts : gmap string (SortField.t B);
  sn_time_buckets : option (TimeBucketManager.t B);
  sn_string_maps : option StringMaps;
  sn_dictionaries : gmap string FieldDictionary.t;
}.

Context (memory_bytes : UnifiedEntry.t B -> N) (to_lowercase : string -> string).
Implicit Types (uc : UnifiedCache.t B) (merged : item) (snap : Snapshot).

Definition remove_deleted uc merged : UnifiedCache.t B :=
  match cw_alive_removes merged with
  | [] => uc
  | slots => if bool_decide (UnifiedCache.entries uc = ∅) then uc else UnifiedCache.remove_slots_from_all_batch uc slots
  end.

Definition tombstone_unloaded uc merged : UnifiedCache.t B :=
  if UnifiedCache.persistence_enabled uc then
    let uc := if bool_decide (cw_mutated_filter_fields merged = ∅) then uc
              else (UnifiedCache.tombstone_unloaded_for_filter uc (elements (cw_mutated_filter_fields merged))).2 in
    let uc := if bool_decide (cw_sort_mutations merged = ∅) then uc
              else (UnifiedCache.tombstone_unloaded_for_sort uc (elements (dom (cw_sort_mutations merged)))).2 in
    if cw_has_alive_mutations merged && negb (bool_decide (cw_alive_removes merged = []))
    then (UnifiedCache.tombstone_all_unloaded uc).2 else uc
  else uc.

Definition collect uc merged : (list (CacheMaintenanceItem B) * list UnifiedKey) * (list (CacheMaintenanceItem B) * list UnifiedKey) :=
  (if bool_decide (cw_mutated_filter_fields merged = ∅) then ([], [])
   else UnifiedCache.collect_filter_work uc (cw_filter_inserts merged) (cw_filter_removes merged),
   if bool_decide (cw_sort_mutations merged = ∅) then ([], [])
   else UnifiedCache.collect_sort_work uc (cw_sort_mutations merged)).

(** Collect, evaluate against the snapshot, apply, and evict what was over budget. *)
Definition maintain uc merged snap : UnifiedCache.t B :=
  let '((filter_work, filter_over_budget), (sort_work, sort_over_budget)) := collect uc merged in
  let limit := compound_eval_atom_limit (UnifiedCache.config uc) in
  let '(filter_results, filter_too_large) :=
    evaluate_filter_work to_lowercase (sn_filters snap) (sn_sorts snap) (sn_time_buckets snap) (sn_string_maps snap)
      (Some (sn_dictionaries snap)) limit filter_work in
  let '(sort_results, sort_too_large) :=
    evaluate_sort_work to_lowercase (sn_filters snap) (sn_sorts snap) (sn_time_buckets snap) (sn_string_maps snap)
      (Some (sn_dictionaries snap)) limit sort_work in
  let uc := UnifiedCache.apply_maintenance_results uc filter_results in
  let uc := UnifiedCache.apply_maintenance_results uc sort_results in
  foldl (fun uc keys => (UnifiedCache.evict_keys_on_overrun memory_bytes uc keys).2) uc
    [filter_over_budget; sort_over_budget; filter_too_large; sort_too_large].

Definition maintain_buckets uc merged snap : UnifiedCache.t B :=
  match sn_time_buckets snap with
  | Some tb =>
      if rb_is_empty (cw_bucket_changed_slots merged) then uc
      else foldl (fun uc name =>
             (UnifiedCache.maintain_bucket_membership to_lowercase (sn_filters snap) (sn_sorts snap) (Some tb)
                (sn_string_maps snap) (Some (sn_dictionaries snap)) uc (TimeBucketManager.field_name tb) name
                (TimeBucketManager.sort_field_name tb) (cw_bucket_changed_slots merged)).2) uc (TimeBucketManager.sorted_names tb)
  | None => uc
  end.

(** The periodic byte reconciliation only corrects a counter; it is left to
    [UnifiedCache.reconcile_bytes]. *)
Definition cycle uc merged snap : UnifiedCache.t B :=
  maintain_buckets (maintain (tombstone_unloaded (remove_deleted uc merged) merged) merged snap) merged snap.

(** ** Backlog *)

Definition invalidate_and_drop uc (pending : list item) : UnifiedCache.t B :=
  if existsb cw_has_alive_mutations pending then (UnifiedCache.maintain_alive_changes uc).2
  else
    let fields := elements (⋃ (cw_mutated_filter_fields <$> pending) : gset string) in
    let uc := foldl (fun uc field => (UnifiedCache.invalidate_filter_field uc field).2) uc fields in
    if existsb (fun w => negb (bool_decide (cw_sort_mutations w = ∅))) pending
    then (UnifiedCache.maintain_alive_changes uc).2 else uc.

(** Drain the channel; past the limit everything pending is dropped and the rest of
    the channel is left for the next round. *)
Fixpoint drain (limit : nat) uc (pending channel : list item) : UnifiedCache.t B * list item * list item :=
  match channel with
  | [] => (uc, pending, [])
  | w :: rest =>
      let pending := pending ++ [w] in
      if (limit <? length pending)%nat then (invalidate_and_drop uc pending, [], rest)
      else drain limit uc pending rest
  end.

Definition worker_round (limit : nat) uc (channel : list item) snap : UnifiedCache.t B * list item :=
  match channel with
  | [] => (uc, [])
  | first :: rest =>
      let '(uc, pending, channel) := drain limit uc [first] rest in
      match pending with
      | [] => (uc, channel)
      | _ => let merged := coalesce_work_items pending in
             (if is_empty merged then uc else cycle uc merged snap, channel)
      end
  end.

End worker.
Arguments MkSnapshot {B}.
Arguments Snapshot B : clear implicits.
Arguments sn_filters {B} _.
Arguments sn_sorts {B} _.
Arguments sn_time_buckets {B} _.
Arguments sn_string_maps {B} _.
Arguments sn_dictionaries {B} _.
