(* ===== verification/CacheCoherence.v ===== *)
(** * Cached results stay right

    An entry is coherent with a snapshot when its members match its filter and every
    matching slot strictly inside its bound is a member.  A worker cycle restores the
    coherence of every entry with the new snapshot, or evicts it or flags it. *)

From S2P Require Import Prelude Roaring Versioned Slot Config Sort Filter FilterFacts Float64 Bytes.
From S2P Require Import BucketDiffLog TimeBuckets Query Dictionary Planner Executor Radix CacheKeys CacheEntry OpsWal.
From S2P Require Import CacheEval MetaIndex MetaIndexTheorems UnifiedCache UnifiedCacheFacts UnifiedCacheTheorems CacheEvalTheorems.
From S2P Require Import CacheCollect CacheWorker.

Section apply.
Context {B : Type} `{HB : Roaring B}.
Implicit Types (e : UnifiedEntry.t B) (x : N).

(** ** What applying a result does to the members *)

Lemma insert_all_elem (slots : list N) x : forall b : B, x ∈ UnifiedEntry.insert_all b slots <-> x ∈ b \/ x ∈ slots.
Proof.
  unfold UnifiedEntry.insert_all. induction slots as [|s slots IH]; intros b; simpl; [rewrite elem_of_nil; tauto|].
  rewrite IH, rb_elem_of_insert, elem_of_cons. tauto.
Qed.

Lemma remove_all_elem (slots : list N) x : forall b : B, x ∈ UnifiedEntry.remove_all b slots <-> x ∈ b /\ x ∉ slots.
Proof.
  unfold UnifiedEntry.remove_all. induction slots as [|s slots IH]; intros b; simpl; [rewrite elem_of_nil; tauto|].
  rewrite IH, rb_elem_of_remove, elem_of_cons. tauto.
Qed.

Lemma add_slots_bulk_elem e adds x :
  x ∈ UnifiedEntry.bitmap (UnifiedEntry.add_slots_bulk e adds).2 <-> x ∈ UnifiedEntry.bitmap e \/ x ∈ adds.*1.
Proof.
  unfold UnifiedEntry.add_slots_bulk. destruct adds as [|a l]; [cbn; rewrite elem_of_nil; tauto|].
  rewrite <- insert_all_elem. unfold UnifiedEntry.check_bloat. by case_match.
Qed.

Lemma add_slots_bulk_min e adds :
  UnifiedEntry.min_tracked_value (UnifiedEntry.add_slots_bulk e adds).2 = UnifiedEntry.min_tracked_value e.
Proof. unfold UnifiedEntry.add_slots_bulk, UnifiedEntry.check_bloat. destruct adds; [done|]. by case_match. Qed.

Lemma remove_slots_bulk_elem e removes x :
  x ∈ UnifiedEntry.bitmap (UnifiedEntry.remove_slots_bulk e removes).2 <-> x ∈ UnifiedEntry.bitmap e /\ x ∉ removes.*1.
Proof.
  unfold UnifiedEntry.remove_slots_bulk. set (present := filter _ _).
  assert (x ∈ UnifiedEntry.remove_all (UnifiedEntry.bitmap e) present <-> x ∈ UnifiedEntry.bitmap e /\ x ∉ removes.*1) as <-.
  { rewrite remove_all_elem. unfold present. rewrite list_elem_of_filter, rb_contains_true. tauto. }
  by destruct present.
Qed.

Lemma remove_slots_bulk_min e removes :
  UnifiedEntry.min_tracked_value (UnifiedEntry.remove_slots_bulk e removes).2 = UnifiedEntry.min_tracked_value e.
Proof. unfold UnifiedEntry.remove_slots_bulk. by case_match. Qed.

Lemma apply_result_eq r e :
  UnifiedEntry.needs_rebuild e = false ->
  let e1 := (UnifiedEntry.add_slots_bulk e (mr_adds r)).2 in
  let e2 := (UnifiedEntry.remove_slots_bulk e1 (mr_removes r)).2 in
  (UnifiedCache.apply_result r e).2
  = (UnifiedEntry.remove_slots_bulk e2 (filter (fun sv => sort_qualifies_raw sv.2 (UnifiedEntry.min_tracked_value e)
       (uk_direction (mr_key r)) = false) (mr_sort_bound_removes r))).2.
Proof.
  intros Hn e1 e2. unfold UnifiedCache.apply_result. rewrite Hn.
  assert (match mr_adds r with [] => (false, e) | adds => (true, (UnifiedEntry.add_slots_bulk e adds).2) end
    = (match mr_adds r with [] => false | _ => true end, e1)) as -> by (unfold e1; by destruct (mr_adds r)).
  rewrite (surjective_pairing (UnifiedEntry.remove_slots_bulk e1 (mr_removes r))). fold e2.
  assert (UnifiedEntry.min_tracked_value e2 = UnifiedEntry.min_tracked_value e) as Hmin.
  { unfold e2, e1. by rewrite remove_slots_bulk_min, add_slots_bulk_min. }
  rewrite Hmin. by rewrite (surjective_pairing (UnifiedEntry.remove_slots_bulk e2 _)).
Qed.

Lemma apply_result_elem r e x :
  UnifiedEntry.needs_rebuild e = false ->
  x ∈ UnifiedEntry.bitmap (UnifiedCache.apply_result r e).2
  <-> (x ∈ UnifiedEntry.bitmap e \/ x ∈ (mr_adds r).*1) /\ x ∉ (mr_removes r).*1
      /\ ~ exists v, (x, v) ∈ mr_sort_bound_removes r
             /\ sort_qualifies_raw v (UnifiedEntry.min_tracked_value e) (uk_direction (mr_key r)) = false.
Proof.
  intros Hn. rewrite apply_result_eq by done. rewrite !remove_slots_bulk_elem, add_slots_bulk_elem.
  split.
  - intros [[H1 H2] H3]. split_and!; [done|done|]. intros (v & Hv & Hq). apply H3, list_elem_of_fmap. exists (x, v). split; [done|].
    by apply list_elem_of_filter.
  - intros (H1 & H2 & H3). split; [done|]. intros ([y v] & -> & [Hq Hv]%list_elem_of_filter)%list_elem_of_fmap. apply H3. by exists v.
Qed.

Lemma apply_result_min r e :
  UnifiedEntry.min_tracked_value (UnifiedCache.apply_result r e).2 = UnifiedEntry.min_tracked_value e.
Proof.
  destruct (UnifiedEntry.needs_rebuild e) eqn:En; [unfold UnifiedCache.apply_result; by rewrite En|].
  rewrite apply_result_eq by done. by rewrite !remove_slots_bulk_min, add_slots_bulk_min.
Qed.

Lemma apply_result_rebuild r e : UnifiedEntry.needs_rebuild e = true -> (UnifiedCache.apply_result r e).2 = e.
Proof. intros En. unfold UnifiedCache.apply_result. by rewrite En. Qed.

(** *** Outcomes of the direct evaluation *)

Definition apply_outcome (o : option ItemOutcome) e : UnifiedEntry.t B :=
  match o with Some (Result r) => (UnifiedCache.apply_result r e).2 | _ => e end.

Lemma apply_outcome_lists key adds removes bounds e :
  apply_outcome (outcome key adds removes bounds) e
  = match adds, removes, bounds with [], [], [] => e | _, _, _ => (UnifiedCache.apply_result (MkMaintenance key adds removes bounds) e).2 end.
Proof. by destruct adds, removes, bounds. Qed.

Lemma apply_outcome_elem key adds removes bounds e x :
  UnifiedEntry.needs_rebuild e = false ->
  x ∈ UnifiedEntry.bitmap (apply_outcome (outcome key adds removes bounds) e)
  <-> (x ∈ UnifiedEntry.bitmap e \/ x ∈ adds.*1) /\ x ∉ removes.*1
      /\ ~ exists v, (x, v) ∈ bounds /\ sort_qualifies_raw v (UnifiedEntry.min_tracked_value e) (uk_direction key) = false.
Proof.
  intros Hn. rewrite <- (apply_result_elem (MkMaintenance key adds removes bounds)) by done. rewrite apply_outcome_lists.
  destruct adds, removes, bounds; try done. rewrite apply_result_elem by done. cbn. rewrite !elem_of_nil.
  split; [|tauto]. intros Hx. split_and!; [by left|tauto|]. intros (v & Hv & _). by apply elem_of_nil in Hv.
Qed.

Lemma select_elem (value : N -> N) test (slots : list N) x : x ∈ (select value test slots).*1 <-> x ∈ slots /\ test x = true.
Proof.
  unfold select. rewrite <- list_fmap_compose. unfold compose. cbn. rewrite list_fmap_id, list_elem_of_filter. tauto.
Qed.

Lemma select_pair_elem (value : N -> N) test (slots : list N) x v :
  (x, v) ∈ select value test slots <-> v = value x /\ x ∈ slots /\ test x = true.
Proof.
  unfold select. rewrite list_elem_of_fmap. split.
  - intros (y & [= -> ->] & [Ht Hy]%list_elem_of_filter). done.
  - intros (-> & Hx & Ht). exists x. split; [done|]. by apply list_elem_of_filter.
Qed.

Context (to_lowercase : string -> string).
Context (filters : gmap string (FilterField.t B)) (sorts : gmap string (SortField.t B)).
Context (mgr : option (TimeBucketManager.t B)) (maps : option StringMaps) (dicts : option (gmap string FieldDictionary.t)).

Notation hits it := (item_matches to_lowercase filters sorts mgr maps dicts it).

(** The item describes the entry. *)
Definition item_of (it : CacheMaintenanceItem B) e : Prop :=
  it_min_tracked_value it = UnifiedEntry.min_tracked_value e /\ it_direction it = uk_direction (it_key it).

Lemma filter_effect limit it e x :
  UnifiedEntry.needs_rebuild e = false -> too_large limit it = false ->
  x ∈ UnifiedEntry.bitmap (apply_outcome (direct_filter_item to_lowercase filters sorts mgr maps dicts limit it) e)
  <-> if decide (x ∈ it_slots it) then hits it x = true /\ (inside it (direct_value sorts it) x = true \/ x ∈ UnifiedEntry.bitmap e)
      else x ∈ UnifiedEntry.bitmap e.
Proof.
  intros Hn Hs. unfold direct_filter_item. rewrite Hs, apply_outcome_elem by done. rewrite !select_elem.
  assert (~ (exists v, (x, v) ∈ ([] : list (N * N)) /\
    sort_qualifies_raw v (UnifiedEntry.min_tracked_value e) (uk_direction (it_key it)) = false)) as Hnil.
  { intros (v & Hv & _). by apply elem_of_nil in Hv. }
  destruct (hits it x) eqn:Eh, (inside it _ x) eqn:Ei; case_decide; cbn; intuition discriminate.
Qed.

Lemma sort_effect it e sf x :
  UnifiedEntry.needs_rebuild e = false -> item_of it e ->
  sorts !! uk_sort_field (it_key it) = Some sf -> SortField.is_fully_loaded sf = true ->
  x ∈ UnifiedEntry.bitmap (apply_outcome (direct_sort_item to_lowercase filters sorts mgr maps dicts it) e)
  <-> if decide (x ∈ it_slots it) then hits it x = true /\ inside it (direct_value sorts it) x = true
      else x ∈ UnifiedEntry.bitmap e.
Proof.
  intros Hn [Hmin Hdir] Hsf Hload. unfold direct_sort_item. rewrite Hsf, Hload. cbn [when].
  rewrite apply_outcome_elem by done. rewrite !select_elem. setoid_rewrite select_pair_elem.
  assert ((exists v, (v = direct_value sorts it x /\ x ∈ it_slots it /\ negb (inside it (direct_value sorts it) x) = true)
      /\ sort_qualifies_raw v (UnifiedEntry.min_tracked_value e) (uk_direction (it_key it)) = false)
    <-> x ∈ it_slots it /\ inside it (direct_value sorts it) x = false) as ->.
  { unfold inside. rewrite Hmin, Hdir. split.
    - intros (v & (-> & Hx & Hi) & _). split; [done|]. by apply negb_true_iff.
    - intros [Hx Hi]. eexists. split; [|exact Hi]. rewrite Hi. done. }
  destruct (hits it x) eqn:Eh, (inside it _ x) eqn:Ei; case_decide; cbn; intuition discriminate.
Qed.

End apply.

(** ** Applying a batch of results *)

Section batch.
Context {B : Type} `{HB : Roaring B}.
Implicit Types (c : UnifiedCache.t B) (k : UnifiedKey) (e : UnifiedEntry.t B) (it : CacheMaintenanceItem B) (x : N).

Definition apply_for k e (r : CacheMaintenanceResult) : UnifiedEntry.t B :=
  if decide (mr_key r = k) then (UnifiedCache.apply_result r e).2 else e.

Lemma apply_one_lookup acc r k :
  UnifiedCache.entries (UnifiedCache.apply_one acc r).1 !! k = (fun e => apply_for k e r) <$> UnifiedCache.entries acc.1 !! k.
Proof.
  destruct acc as [c dirty]. unfold UnifiedCache.apply_one, apply_for. destruct (UnifiedCache.entries c !! mr_key r) as [e|] eqn:E.
  - rewrite (surjective_pairing (UnifiedCache.apply_result r e)). cbn. case_decide as Hk.
    + subst k. by rewrite lookup_insert_eq, E.
    + rewrite lookup_insert_ne by done. by destruct (UnifiedCache.entries c !! k).
  - cbn. case_decide as Hk; [subst k; by rewrite E|]. by destruct (UnifiedCache.entries c !! k).
Qed.

Lemma apply_lookup c rs k :
  UnifiedCache.entries (UnifiedCache.apply_maintenance_results c rs) !! k
  = (fun e => foldl (apply_for k) e rs) <$> UnifiedCache.entries c !! k.
Proof.
  unfold UnifiedCache.apply_maintenance_results.
  assert (forall acc, UnifiedCache.entries (foldl UnifiedCache.apply_one acc rs).1 !! k
    = (fun e => foldl (apply_for k) e rs) <$> UnifiedCache.entries acc.1 !! k) as H.
  { induction rs as [|r rs IH]; intros acc; simpl; [by destruct (UnifiedCache.entries acc.1 !! k)|].
    rewrite IH, apply_one_lookup. by destruct (UnifiedCache.entries acc.1 !! k). }
  specialize (H (c, ∅)). by destruct (foldl UnifiedCache.apply_one (c, ∅) rs).
Qed.

(** Results carry the key of the item they come from. *)
Definition keyed (ev : CacheMaintenanceItem B -> option ItemOutcome) : Prop :=
  forall it r, ev it = Some (Result r) -> mr_key r = it_key it.

Lemma outcome_key key adds removes bounds r : outcome key adds removes bounds = Some (Result r) -> mr_key r = key.
Proof. destruct adds, removes, bounds; intros [= <-]; done. Qed.

Lemma apply_items ev work k : keyed ev -> forall e,
  foldl (apply_for k) e (split_outcomes (ev <$> work)).1
  = foldl (fun e it => if decide (it_key it = k) then apply_outcome (ev it) e else e) e work.
Proof.
  intros Hk. unfold split_outcomes. cbn. induction work as [|it work IH]; intros e; [done|]. cbn.
  specialize (Hk it). destruct (ev it) as [[r|key]|] eqn:E; cbn.
  - rewrite IH. unfold apply_for. by rewrite (Hk r eq_refl).
  - rewrite IH. by case_decide.
  - rewrite IH. by case_decide.
Qed.

(** With one item per key, the entry sees the outcome of its own item only. *)
Lemma apply_items_none (ev : CacheMaintenanceItem B -> option ItemOutcome) work k : forall e,
  (forall it, it ∈ work -> it_key it <> k) ->
  foldl (fun e it => if decide (it_key it = k) then apply_outcome (ev it) e else e) e work = e.
Proof.
  induction work as [|it work IH]; intros e Hn; [done|]. cbn. rewrite decide_False by (apply Hn; by left).
  apply IH. intros it' Hit. apply Hn. by right.
Qed.

Lemma apply_items_once (ev : CacheMaintenanceItem B -> option ItemOutcome) work k it : forall e,
  NoDup (it_key <$> work) -> it ∈ work -> it_key it = k ->
  foldl (fun e it => if decide (it_key it = k) then apply_outcome (ev it) e else e) e work = apply_outcome (ev it) e.
Proof.
  induction work as [|it' work IH]; intros e Hnd Hit Hk; [by apply elem_of_nil in Hit|].
  cbn in Hnd. apply NoDup_cons in Hnd as [Hnot Hnd]. cbn. apply elem_of_cons in Hit as [->|Hit].
  - rewrite decide_True by done. apply apply_items_none. intros it'' Hin Hk'. apply Hnot. rewrite Hk, <- Hk'. by apply list_elem_of_fmap_2.
  - rewrite decide_False; [by apply IH|]. intros Hk'. apply Hnot. rewrite Hk', <- Hk. by apply list_elem_of_fmap_2.
Qed.

(** ** What is collected *)

Lemma collect_items_elem c ids slots it :
  it ∈ UnifiedCache.collect_items c ids slots ->
  exists e, UnifiedCache.entries c !! it_key it = Some e /\ UnifiedEntry.needs_rebuild e = false
    /\ it = MkItem (it_key it) (slots (it_key it) e) (UnifiedEntry.min_tracked_value e) (UnifiedEntry.direction e)
              (UnifiedEntry.original_filter_clauses e).
Proof.
  intros (id & _ & Hit)%list_elem_of_omap. destruct (UnifiedCache.meta_id_to_key c !! id) as [k|]; [|done]. cbn in Hit.
  destruct (UnifiedCache.entries c !! k) as [e|] eqn:He; [|done]. cbn in Hit. destruct (UnifiedEntry.needs_rebuild e) eqn:Hn; [done|].
  unfold UnifiedCache.work_item in Hit. destruct (slots k e) eqn:Es; [done|]. injection Hit as <-. cbn. exists e. by rewrite Es.
Qed.

Lemma collect_items_NoDup c ids slots : cache_ok c -> NoDup (it_key <$> UnifiedCache.collect_items c ids slots).
Proof.
  intros Hc. unfold UnifiedCache.collect_items. assert (NoDup (rb_iter ids)) as Hnd by apply sorted_lt_NoDup, rb_iter_sorted. revert Hnd.
  induction (rb_iter ids) as [|id l IH]; intros Hnd; [constructor|]. apply NoDup_cons in Hnd as [Hnot Hnd]. cbn.
  destruct (UnifiedCache.meta_id_to_key c !! id) as [k|] eqn:Hk; [|by apply IH]. cbn.
  destruct (UnifiedCache.entries c !! k) as [e|] eqn:He; [|by apply IH]. cbn. destruct (UnifiedEntry.needs_rebuild e); [by apply IH|].
  unfold UnifiedCache.work_item at 1. destruct (slots k e) as [|s ss]; [by apply IH|]. cbn. constructor; [|by apply IH].
  intros (it & Hitk & (id' & Hin & Hit)%list_elem_of_omap)%list_elem_of_fmap.
  destruct (UnifiedCache.meta_id_to_key c !! id') as [k'|] eqn:Hk'; [|done]. cbn in Hit.
  destruct (UnifiedCache.entries c !! k') as [e'|] eqn:He'; [|done]. cbn in Hit. destruct (UnifiedEntry.needs_rebuild e'); [done|].
  unfold UnifiedCache.work_item in Hit. destruct (slots k' e'); [done|]. injection Hit as <-. cbn in Hitk. subst k'.
  destruct (co_keys _ Hc id k Hk) as (e1 & H1 & H2). destruct (co_keys _ Hc id' k Hk') as (e2 & H3 & H4).
  assert (id = id') as -> by congruence. done.
Qed.

Lemma evict_overrun_lookup (memory_bytes : UnifiedEntry.t B -> N) keys k : forall c,
  UnifiedCache.entries (UnifiedCache.evict_keys_on_overrun memory_bytes c keys).2 !! k
  = if decide (k ∈ keys) then None else UnifiedCache.entries c !! k.
Proof.
  unfold UnifiedCache.evict_keys_on_overrun. generalize 0. induction keys as [|key keys IH]; intros n c.
  - cbn. by rewrite decide_False by apply not_elem_of_nil.
  - cbn [foldl]. unfold UnifiedCache.remove_entry at 2. destruct (UnifiedCache.entries c !! key) as [e|] eqn:He; cbn [mbind option_bind].
    + rewrite IH. cbn. destruct (decide (k = key)) as [->|Hne].
      * rewrite lookup_delete_eq, (decide_True _ _ (list_elem_of_here _ _)). by case_decide.
      * rewrite lookup_delete_ne by done. case_decide as H1; case_decide as H2; set_solver.
    + rewrite IH. destruct (decide (k = key)) as [->|Hne].
      * rewrite He, (decide_True _ _ (list_elem_of_here _ _)). by case_decide.
      * case_decide as H1; case_decide as H2; set_solver.
Qed.

End batch.
