(* ===== verification/CacheWorkerTheorems.v ===== *)
(** * Theorems on the cache worker

    A cycle of the worker carries every coherent entry from the old snapshot to the
    new one; merging queued items is exact, but cancels a re-insertion. *)

From S2P Require Import Prelude Roaring Versioned Slot Config Sort Filter FilterFacts Float64 Bytes.
From S2P Require Import BucketDiffLog TimeBuckets Query Dictionary Planner Executor Radix CacheKeys CacheEntry OpsWal.
From S2P Require Import CacheEval MetaIndex MetaIndexTheorems UnifiedCache UnifiedCacheFacts UnifiedCacheTheorems CacheEvalTheorems.
From S2P Require Import CacheCollect CacheWorker CacheCoherence.
From S2P Require Import FilterTheorems SortTheorems ExecutorFacts ExecutorTheorems.

(** ** Coherence with a snapshot *)

Section coherence.
Context {B : Type} `{HB : Roaring B}.
Context (to_lowercase : string -> string) (fmt_f64 : spec_float -> string).
Implicit Types (c : UnifiedCache.t B) (k : UnifiedKey) (e : UnifiedEntry.t B) (snap : Snapshot B) (x : N) (live : N -> Prop).

(** What the entry stands for: its filter and its sort value, on a snapshot. *)
Definition matching snap (cs : list (FilterClause B)) x : bool :=
  slot_matches_filter_native to_lowercase (sn_filters snap) (sn_sorts snap) (sn_time_buckets snap) (sn_string_maps snap)
    (Some (sn_dictionaries snap)) x cs.

Definition sort_value snap k x : N :=
  match sn_sorts snap !! uk_sort_field k with Some sf => SortField.reconstruct_value sf x | None => 0 end.

(** Not beyond the bound: the last member's value itself still belongs. *)
Definition within (dir : SortDirection) (v bound : N) : Prop := match dir with Desc => bound <= v | Asc => v <= bound end.

Record coherent live snap k e : Prop := {
  ch_sound : forall x, x ∈ UnifiedEntry.bitmap e ->
    live x /\ matching snap (UnifiedEntry.original_filter_clauses e) x = true
    /\ within (uk_direction k) (sort_value snap k x) (UnifiedEntry.min_tracked_value e);
  ch_complete : forall x, live x -> matching snap (UnifiedEntry.original_filter_clauses e) x = true ->
    sort_qualifies_raw (sort_value snap k x) (UnifiedEntry.min_tracked_value e) (uk_direction k) = true ->
    x ∈ UnifiedEntry.bitmap e;
}.

Lemma qualifies_within v bound dir : sort_qualifies_raw v bound dir = true -> within dir v bound.
Proof. destruct dir; cbn; intros H%N.ltb_lt; lia. Qed.

(** No range clause, at any depth: ranges are snapped to time buckets or scanned. *)
Fixpoint no_ranges (cl : FilterClause B) : bool :=
  match cl with
  | Gt _ _ | Gte _ _ | Lt _ _ | Lte _ _ => false
  | Not inner => no_ranges inner
  | And cs | Or cs => forallb no_ranges cs
  | _ => true
  end.

Lemma native_sorts fs sorts sorts' mgr maps dicts (cl : FilterClause B) x :
  no_ranges cl = true ->
  slot_matches_clause_native to_lowercase fs sorts mgr maps dicts x cl
  = slot_matches_clause_native to_lowercase fs sorts' mgr maps dicts x cl.
Proof.
  induction cl as [f v|f v|f vs|f vs|f v|f v|f v|f v|cl IH|cs IH|cs IH|f|f|f n b] using FilterClause_nested_ind; intros Hr; try done.
  - cbn. by rewrite IH.
  - cbn [slot_matches_clause_native no_ranges] in *. induction IH as [|cl cs H1 _ IH]; [done|].
    cbn in Hr |- *. apply andb_true_iff in Hr as [Hr1 Hr2]. by rewrite H1, IH.
  - cbn [slot_matches_clause_native no_ranges] in *. induction IH as [|cl cs H1 _ IH]; [done|].
    cbn in Hr |- *. apply andb_true_iff in Hr as [Hr1 Hr2]. by rewrite H1, IH.
Qed.

(** What a flush and its work item promise the worker, for the entries of one sort
    field: every changed bit and every changed sort value is listed, every listed slot
    is live, and nothing else the evaluation reads has changed. *)
Record logged live snap snap' (w : CacheWorkItem B) k : Prop := {
  lg_filter : forall x f v, field_contains (sn_filters snap) f v x <> field_contains (sn_filters snap') f v x ->
    exists slots, (cw_filter_inserts w !! (f, v) = Some slots \/ cw_filter_removes w !! (f, v) = Some slots) /\ x ∈ slots;
  lg_sort : forall x, sort_value snap k x <> sort_value snap' k x ->
    x ∈ default ∅ (cw_sort_mutations w !! uk_sort_field k);
  lg_fields : forall f v, is_Some (cw_filter_inserts w !! (f, v)) \/ is_Some (cw_filter_removes w !! (f, v)) ->
    f ∈ cw_mutated_filter_fields w;
  lg_live : forall x, (exists f v slots, (cw_filter_inserts w !! (f, v) = Some slots \/ cw_filter_removes w !! (f, v) = Some slots) /\ x ∈ slots)
    \/ (exists f S, cw_sort_mutations w !! f = Some S /\ x ∈ S) -> live x;
  lg_same : sn_time_buckets snap' = sn_time_buckets snap /\ sn_string_maps snap' = sn_string_maps snap
    /\ sn_dictionaries snap' = sn_dictionaries snap;
  lg_alive : cw_alive_removes w = [];
  lg_buckets : rb_is_empty (cw_bucket_changed_slots w) = true;
}.

(** Coherence is about the slots that changed: a value and an answer that did not
    change need no maintenance, and the two effects handle the rest. *)
Lemma effects_coherent live snap snap' k e e' (Sf Ss : N -> Prop) :
  coherent live snap k e ->
  UnifiedEntry.original_filter_clauses e' = UnifiedEntry.original_filter_clauses e ->
  UnifiedEntry.min_tracked_value e' = UnifiedEntry.min_tracked_value e ->
  (forall x, Sf x \/ Ss x -> live x) ->
  (forall x, Sf x \/ ~ Sf x) -> (forall x, Ss x \/ ~ Ss x) ->
  (forall x, ~ Sf x -> matching snap' (UnifiedEntry.original_filter_clauses e) x = matching snap (UnifiedEntry.original_filter_clauses e) x) ->
  (forall x, ~ Ss x -> sort_value snap' k x = sort_value snap k x) ->
  let good x := matching snap' (UnifiedEntry.original_filter_clauses e) x = true in
  let deep x := sort_qualifies_raw (sort_value snap' k x) (UnifiedEntry.min_tracked_value e) (uk_direction k) = true in
  (forall x, Ss x -> x ∈ UnifiedEntry.bitmap e' <-> good x /\ deep x) ->
  (forall x, ~ Ss x -> Sf x -> x ∈ UnifiedEntry.bitmap e' <-> good x /\ (deep x \/ x ∈ UnifiedEntry.bitmap e)) ->
  (forall x, ~ Ss x -> ~ Sf x -> x ∈ UnifiedEntry.bitmap e' <-> x ∈ UnifiedEntry.bitmap e) ->
  coherent live snap' k e'.
Proof.
  intros [Hsound Hcomp] Ho Hm Hlive Df Ds Hsame Hval good deep H1 H2 H3. split; rewrite ?Ho, ?Hm; intros x.
  - intros Hx. destruct (Ds x) as [Hs|Hs].
    + apply H1 in Hx as [Hg Hd]; [|done]. split_and!; [auto|done|]. by apply qualifies_within.
    + destruct (Df x) as [Hf|Hf].
      * apply H2 in Hx as [Hg Hd]; [|done..]. split_and!; [auto|done|]. destruct Hd as [Hd|Hx]; [by apply qualifies_within|].
        rewrite Hval by done. by apply Hsound.
      * apply H3 in Hx; [|done..]. rewrite Hsame, Hval by done. by apply Hsound.
  - intros Hl Hg Hd. destruct (Ds x) as [Hs|Hs]; [by apply H1|]. destruct (Df x) as [Hf|Hf]; [apply H2; auto|].
    apply H3; [done..|]. rewrite Hsame in Hg by done. rewrite Hval in Hd by done. by apply Hcomp.
Qed.

End coherence.

(** ** A cycle *)

Section cycle.
Context {B : Type} `{HB : Roaring B}.
Context (to_lowercase : string -> string) (fmt_f64 : spec_float -> string).
Implicit Types (c : UnifiedCache.t B) (k : UnifiedKey) (e : UnifiedEntry.t B) (snap : Snapshot B) (x : N) (live : N -> Prop).

Lemma apply_outcome_rebuild o e : UnifiedEntry.needs_rebuild e = true -> apply_outcome o e = e.
Proof. intros Hn. destruct o as [[r|]|]; cbn; try done. by apply apply_result_rebuild. Qed.

Lemma apply_outcome_min o e : UnifiedEntry.min_tracked_value (apply_outcome o e) = UnifiedEntry.min_tracked_value e.
Proof. destruct o as [[r|]|]; cbn; try done. apply apply_result_min. Qed.

Lemma apply_outcome_identity o e : same_identity e (apply_outcome o e).
Proof. destruct o as [[r|]|]; cbn; try done. apply apply_result_identity. Qed.

Lemma tombstone_all_keeps c ids :
  UnifiedCache.entries (UnifiedCache.tombstone_all c ids).2 = UnifiedCache.entries c
  /\ UnifiedCache.config (UnifiedCache.tombstone_all c ids).2 = UnifiedCache.config c.
Proof. unfold UnifiedCache.tombstone_all. by destruct (filter _ ids). Qed.

(** Tombstones touch neither the entries nor the invariant. *)
Definition quiet c c' : Prop :=
  cache_ok c' /\ UnifiedCache.entries c' = UnifiedCache.entries c /\ UnifiedCache.config c' = UnifiedCache.config c.

Lemma quiet_trans c1 c2 c3 : quiet c1 c2 -> quiet c2 c3 -> quiet c1 c3.
Proof. unfold quiet. intuition congruence. Qed.

Lemma quiet_tombstones c ids : cache_ok c -> quiet c (UnifiedCache.tombstone_all c ids).2.
Proof. intros Hc. split; [by apply tombstone_all_ok|apply tombstone_all_keeps]. Qed.

Lemma quiet_if (b : bool) c c' : cache_ok c -> (cache_ok c -> quiet c c') -> quiet c (if b then c else c').
Proof. intros Hc H. destruct b; [done|]. by apply H. Qed.

Lemma tombstone_unloaded_quiet c (w : CacheWorkItem B) : cache_ok c -> quiet c (tombstone_unloaded c w).
Proof.
  intros Hc. unfold tombstone_unloaded. destruct (UnifiedCache.persistence_enabled c); [|done]. cbv zeta.
  set (c1 := if bool_decide (cw_mutated_filter_fields w = ∅) then c else _).
  assert (quiet c c1) as H1.
  { apply quiet_if; [done|]. intros _. unfold UnifiedCache.tombstone_unloaded_for_filter. destruct (negb _); [done|by apply quiet_tombstones]. }
  set (c2 := if bool_decide (cw_sort_mutations w = ∅) then c1 else _).
  assert (quiet c c2) as H2.
  { eapply quiet_trans; [apply H1|]. apply quiet_if; [apply H1|]. intros Hc1.
    unfold UnifiedCache.tombstone_unloaded_for_sort. destruct (negb _); [done|by apply quiet_tombstones]. }
  destruct (_ && _); [|done]. eapply quiet_trans; [apply H2|].
  unfold UnifiedCache.tombstone_all_unloaded. destruct H2 as [H2 _]. destruct (negb _); [done|by apply quiet_tombstones].
Qed.

(** *** What the entry is told *)

(** The work of one phase, for one entry: at most one item, made from the entry, and
    listing every slot in [changed] unless the entry is to be evicted. *)
Record phase (work : list (CacheMaintenanceItem B)) (evicted : list UnifiedKey) k e (changed listed : N -> Prop) : Prop := {
  ph_once : NoDup (it_key <$> work);
  ph_item : forall it, it ∈ work -> it_key it = k ->
    it_min_tracked_value it = UnifiedEntry.min_tracked_value e /\ it_direction it = UnifiedEntry.direction e
    /\ it_original_filter_clauses it = UnifiedEntry.original_filter_clauses e /\ (forall x, x ∈ it_slots it -> listed x);
  ph_found : forall x, changed x -> (exists it, it ∈ work /\ it_key it = k /\ x ∈ it_slots it) \/ k ∈ evicted;
}.

Lemma phase_nil k e (changed listed : N -> Prop) : (forall x, ~ changed x) -> phase [] [] k e changed listed.
Proof. intros H. split; [constructor|by intros it ?%elem_of_nil|]. intros x Hx. by destruct (H x). Qed.

(** The shape both collections share. *)
Lemma phase_items c ids slots k e (changed listed : N -> Prop) :
  cache_ok c -> UnifiedCache.entries c !! k = Some e -> (forall x, x ∈ slots k e -> listed x) ->
  NoDup (it_key <$> UnifiedCache.collect_items c ids slots)
  /\ forall it, it ∈ UnifiedCache.collect_items c ids slots -> it_key it = k ->
       it_min_tracked_value it = UnifiedEntry.min_tracked_value e /\ it_direction it = UnifiedEntry.direction e
       /\ it_original_filter_clauses it = UnifiedEntry.original_filter_clauses e /\ (forall x, x ∈ it_slots it -> listed x).
Proof.
  intros Hc He Hl. split; [by apply collect_items_NoDup|]. intros it (e' & He' & _ & Hit)%collect_items_elem Hk.
  rewrite Hk, He in He'. injection He' as <-. rewrite Hit, Hk. cbn. by split_and!.
Qed.

Lemma slots_for_changed k e (changed : gmap string (gset N)) x :
  x ∈ UnifiedCache.slots_for k e changed -> exists f, x ∈ default ∅ (changed !! f).
Proof.
  unfold UnifiedCache.slots_for. rewrite dedup_adjacent_elem, merge_sort_Permutation.
  intros (l & Hx & (f & -> & _)%list_elem_of_fmap)%list_elem_of_join. exists f. by apply elem_of_elements in Hx.
Qed.

Lemma filter_phase live c k e snap snap' (w : CacheWorkItem B) :
  let cs := UnifiedEntry.original_filter_clauses e in
  cache_ok c -> UnifiedCache.entries c !! k = Some e -> UnifiedEntry.needs_rebuild e = false ->
  canonicalize fmt_f64 cs = Some (uk_filter_clauses k) ->
  searchable to_lowercase fmt_f64 (sn_string_maps snap') (Some (sn_dictionaries snap')) cs -> forallb no_ranges cs = true ->
  logged live snap snap' w k ->
  let '(work, evicted) := (collect c w).1 in
  phase work evicted k e (fun x => matching to_lowercase snap cs x <> matching to_lowercase snap' cs x) live.
Proof.
  intros cs Hc He Hn Hkey Hs Hr Hlog. unfold collect. cbn [fst].
  assert (forall x, matching to_lowercase snap cs x <> matching to_lowercase snap' cs x ->
    slot_matches_filter_native to_lowercase (sn_filters snap) (sn_sorts snap') (sn_time_buckets snap') (sn_string_maps snap')
      (Some (sn_dictionaries snap')) x cs <> matching to_lowercase snap' cs x) as Hdiff.
  { intros x H. destruct (lg_same _ _ _ _ _ Hlog) as (E1 & E2 & E3). rewrite E1, E2, E3. intros Heq. apply H. rewrite <- Heq.
    unfold matching, slot_matches_filter_native. clear -Hr. induction cs as [|cl cs IH]; [done|]. cbn in Hr |- *.
    apply andb_true_iff in Hr as [H1 H2]. rewrite IH by done. f_equal. by apply native_sorts. }
  assert (forall x f, x ∈ default ∅ (UnifiedCache.changed_slots_per_field (cw_filter_inserts w) (cw_filter_removes w) !! f) -> live x) as Hlive.
  { intros x f (v & slots & Hs' & Hx)%elem_of_changed. apply (lg_live _ _ _ _ _ Hlog). left. eauto. }
  case_bool_decide as Hf.
  { apply phase_nil. intros x Hx. apply Hdiff in Hx. unfold matching in Hx. rewrite !native_filter_flat in Hx.
    apply forallb_changed in Hx as (cl & _ & Hx). apply native_changed in Hx as (f & v & _ & Hb).
    destruct (lg_filter _ _ _ _ _ Hlog x f v Hb) as (slots & Hs' & _).
    assert (f ∈ cw_mutated_filter_fields w) as Hin; [|rewrite Hf in Hin; by apply not_elem_of_empty in Hin].
    apply (lg_fields _ _ _ _ _ Hlog f v). unfold is_Some. naive_solver. }
  pose proof (fun x (H : matching to_lowercase snap cs x <> matching to_lowercase snap' cs x) => collect_filter_found to_lowercase fmt_f64 (sn_filters snap) (sn_filters snap') (sn_sorts snap')
    (sn_time_buckets snap') (sn_string_maps snap') (Some (sn_dictionaries snap')) c k e cs (cw_filter_inserts w) (cw_filter_removes w) x
    Hc He Hn Hkey (Permutation_refl cs) Hs (lg_filter _ _ _ _ _ Hlog x) (Hdiff x H)) as Hfound.
  destruct (phase_items c (UnifiedCache.affected_ids c (cw_filter_inserts w) (cw_filter_removes w))
    (fun key entry => UnifiedCache.slots_for key entry (UnifiedCache.changed_slots_per_field (cw_filter_inserts w) (cw_filter_removes w)))
    k e (fun _ => True) live Hc He) as [Hnd Hitems].
  { intros x (f & Hx)%slots_for_changed. by eapply Hlive. }
  unfold UnifiedCache.collect_filter_work in *.
  repeat (match goal with |- context [if ?b then _ else _] => destruct b end);
    (split; [first [constructor|exact Hnd]|first [by intros it ?%elem_of_nil|exact Hitems]|exact Hfound]).
Qed.

Lemma sort_phase live c k e snap snap' (w : CacheWorkItem B) :
  cache_ok c -> UnifiedCache.entries c !! k = Some e -> UnifiedEntry.needs_rebuild e = false -> logged live snap snap' w k ->
  let '(work, evicted) := (collect c w).2 in
  phase work evicted k e (fun x => sort_value snap k x <> sort_value snap' k x) live.
Proof.
  intros Hc He Hn Hlog. unfold collect. cbn [snd]. case_bool_decide as Hf.
  { apply phase_nil. intros x Hx%(lg_sort _ _ _ _ _ Hlog). rewrite Hf, lookup_empty in Hx. by apply not_elem_of_empty in Hx. }
  pose proof (fun x H => collect_sort_found c k e (cw_sort_mutations w) x Hc He Hn (lg_sort _ _ _ _ _ Hlog x H)) as Hfound.
  destruct (phase_items c (UnifiedCache.sort_affected_ids c (cw_sort_mutations w))
    (fun key _ => elements (default ∅ (cw_sort_mutations w !! uk_sort_field key))) k e (fun _ => True) live Hc He) as [Hnd Hitems].
  { intros x Hx%elem_of_elements. apply (lg_live _ _ _ _ _ Hlog). right. exists (uk_sort_field k).
    destruct (cw_sort_mutations w !! uk_sort_field k) as [S|]; [eauto|by apply not_elem_of_empty in Hx]. }
  unfold UnifiedCache.collect_sort_work in *.
  repeat (match goal with |- context [if ?b then _ else _] => destruct b end);
    (split; [first [constructor|exact Hnd]|first [by intros it ?%elem_of_nil|exact Hitems]|exact Hfound]).
Qed.

(** *** What the entry becomes *)

Context (snap : Snapshot B) (limit : N).

Notation eval_filter := (evaluate_filter_work to_lowercase (sn_filters snap) (sn_sorts snap) (sn_time_buckets snap)
  (sn_string_maps snap) (Some (sn_dictionaries snap)) limit).
Notation eval_sort := (evaluate_sort_work to_lowercase (sn_filters snap) (sn_sorts snap) (sn_time_buckets snap)
  (sn_string_maps snap) (Some (sn_dictionaries snap)) limit).

Definition good e x : Prop := matching to_lowercase snap (UnifiedEntry.original_filter_clauses e) x = true.
Definition deep k e x : Prop :=
  sort_qualifies_raw (sort_value snap k x) (UnifiedEntry.min_tracked_value e) (uk_direction k) = true.

(** The entry after a phase: the listed slots have been re-decided, the others kept. *)
Definition settled (verdict : N -> Prop -> Prop) (listed : N -> Prop) e e' : Prop :=
  UnifiedEntry.min_tracked_value e' = UnifiedEntry.min_tracked_value e /\ same_identity e e'
  /\ (UnifiedEntry.needs_rebuild e' = true
      \/ (UnifiedEntry.needs_rebuild e = false /\ forall x,
            (listed x -> x ∈ UnifiedEntry.bitmap e' <-> verdict x (x ∈ UnifiedEntry.bitmap e))
            /\ (~ listed x -> x ∈ UnifiedEntry.bitmap e' <-> x ∈ UnifiedEntry.bitmap e))).

(** The slots the item of [k] lists, if there is one. *)
Definition listed_by (work : list (CacheMaintenanceItem B)) k x : Prop := exists it, it ∈ work /\ it_key it = k /\ x ∈ it_slots it.

Lemma NoDup_keys_inj {A K : Type} (f : A -> K) (l : list A) a b : NoDup (f <$> l) -> a ∈ l -> b ∈ l -> f a = f b -> a = b.
Proof.
  induction l as [|c l IH]; cbn; intros Hnd Ha Hb Hf; [by apply elem_of_nil in Ha|]. apply NoDup_cons in Hnd as [Hnot Hnd].
  apply elem_of_cons in Ha as [->|Ha], Hb as [->|Hb]; [done| | |by apply IH]; exfalso; apply Hnot.
  - rewrite Hf. by apply list_elem_of_fmap_2.
  - rewrite <- Hf. by apply list_elem_of_fmap_2.
Qed.

Lemma settle (work : list (CacheMaintenanceItem B)) k e (ev : CacheMaintenanceItem B -> option ItemOutcome) (verdict : N -> Prop -> Prop) :
  NoDup (it_key <$> work) -> keyed ev ->
  (forall it, it ∈ work -> it_key it = k -> UnifiedEntry.needs_rebuild e = false -> forall x,
     x ∈ UnifiedEntry.bitmap (apply_outcome (ev it) e)
     <-> if decide (x ∈ it_slots it) then verdict x (x ∈ UnifiedEntry.bitmap e) else x ∈ UnifiedEntry.bitmap e) ->
  settled verdict (listed_by work k) e (foldl (apply_for k) e (split_outcomes (ev <$> work)).1)
  /\ forall x, listed_by work k x \/ ~ listed_by work k x.
Proof.
  intros Hnd Hk Heff. rewrite apply_items by done.
  destruct (decide (Exists (fun it => it_key it = k) work)) as [(it & Hit & Hitk)%Exists_exists|Hnone].
  - rewrite (apply_items_once ev work k it) by done.
    assert (forall x, listed_by work k x <-> x ∈ it_slots it) as Hl.
    { intros x. split; [|by exists it]. intros (it' & Hit' & Hk' & Hx). assert (it' = it) as ->; [|done]. apply (NoDup_keys_inj it_key work); congruence. }
    split; [|intros x; rewrite Hl; destruct (decide (x ∈ it_slots it)); auto].
    split_and!; [apply apply_outcome_min|apply apply_outcome_identity|].
    destruct (UnifiedEntry.needs_rebuild e) eqn:Hn; [left; by rewrite apply_outcome_rebuild|]. right. split; [done|]. intros x.
    rewrite Hl, (Heff it Hit Hitk eq_refl x). split; intros Hx; [by rewrite decide_True|by rewrite decide_False].
  - assert (forall it, it ∈ work -> it_key it <> k) as Hn by (intros it Hit Hk'; apply Hnone, Exists_exists; by exists it).
    rewrite apply_items_none by done. assert (forall x, ~ listed_by work k x) as Hl by (intros x (it & Hit & Hk' & _); by apply (Hn it)).
    split; [|auto]. split_and!; [done|apply same_identity_refl|]. destruct (UnifiedEntry.needs_rebuild e); [by left|right].
    split; [done|]. intros x. split; [|done]. intros Hx. by apply Hl in Hx.
Qed.

Lemma item_matches_native (it : CacheMaintenanceItem B) e x :
  it_original_filter_clauses it = UnifiedEntry.original_filter_clauses e -> UnifiedEntry.original_filter_clauses e <> [] ->
  item_matches to_lowercase (sn_filters snap) (sn_sorts snap) (sn_time_buckets snap) (sn_string_maps snap) (Some (sn_dictionaries snap)) it x = true
  <-> good e x.
Proof. intros Ho Hne. unfold item_matches, good, matching. rewrite Ho. by destruct (UnifiedEntry.original_filter_clauses e). Qed.

Lemma too_large_found (os : list (option ItemOutcome)) k : Some (CompoundTooLarge k) ∈ os -> k ∈ (split_outcomes os).2.
Proof. intros H. apply list_elem_of_omap. by exists (Some (CompoundTooLarge k)). Qed.

Lemma evaluate_filter_keyed work : keyed (evaluate_filter_item to_lowercase (sn_filters snap) (sn_sorts snap) (sn_time_buckets snap)
  (sn_string_maps snap) (Some (sn_dictionaries snap)) limit (precompute_sort_values (sn_sorts snap) work)).
Proof.
  intros it r. unfold evaluate_filter_item. destruct (too_large limit it); [done|]. destruct (filter_loop _ _ _ _ _ _ _ _ _). apply outcome_key.
Qed.

Lemma evaluate_sort_keyed work : keyed (batched_sort_item to_lowercase (sn_filters snap) (sn_sorts snap) (sn_time_buckets snap)
  (sn_string_maps snap) (Some (sn_dictionaries snap)) limit work).
Proof.
  intros it r. unfold batched_sort_item, evaluate_sort_item. cbv zeta. destruct (_ !! _) as [M|]; [|done].
  destruct (can_add_remove _ _ _ _). destruct (_ && _); [done|]. destruct (_ && _); [done|].
  destruct (sort_loop _ _ _ _ _ _ _ _ _) as [[? ?] ?]. apply outcome_key.
Qed.

Lemma filter_phase_settled work evicted k e (changed live : N -> Prop) :
  phase work evicted k e changed live -> UnifiedEntry.original_filter_clauses e <> [] ->
  UnifiedEntry.direction e = uk_direction k -> k ∉ (eval_filter work).2 ->
  settled (fun x p => good e x /\ (deep k e x \/ p)) (listed_by work k) e (foldl (apply_for k) e (eval_filter work).1)
  /\ forall x, listed_by work k x \/ ~ listed_by work k x.
Proof.
  intros Hp Hne Hdir Hsmall. apply settle; [apply Hp|apply evaluate_filter_keyed|].
  intros it Hit Hk Hn x. destruct (ph_item _ _ _ _ _ _ Hp it Hit Hk) as (Hmin & Hd & Ho & _).
  rewrite (filter_item_direct _ _ _ _ _ _ limit work it Hit).
  assert (too_large limit it = false) as Ht.
  { apply not_true_iff_false. intros Ht. apply Hsmall. rewrite <- Hk. apply too_large_found, list_elem_of_fmap. exists it. split; [|done].
    rewrite (filter_item_direct _ _ _ _ _ _ limit work it Hit). unfold direct_filter_item. by rewrite Ht. }
  rewrite filter_effect by done. destruct (decide (x ∈ it_slots it)); [|done]. rewrite (item_matches_native it e) by done.
  unfold deep, inside, direct_value, sort_value. by rewrite Hmin, Hd, Hdir, Hk.
Qed.

Lemma sort_phase_settled work evicted k e e1 sf (changed live : N -> Prop) :
  phase work evicted k e changed live -> UnifiedEntry.original_filter_clauses e <> [] -> UnifiedEntry.direction e = uk_direction k ->
  same_identity e e1 -> UnifiedEntry.min_tracked_value e1 = UnifiedEntry.min_tracked_value e ->
  sn_sorts snap !! uk_sort_field k = Some sf -> SortField.is_fully_loaded sf = true -> k ∉ (eval_sort work).2 ->
  settled (fun x _ => good e x /\ deep k e x) (listed_by work k) e1 (foldl (apply_for k) e1 (eval_sort work).1)
  /\ forall x, listed_by work k x \/ ~ listed_by work k x.
Proof.
  intros Hp Hne Hdir Hid Hm Hsf Hload Hsmall. apply settle; [apply Hp|apply (evaluate_sort_keyed work)|].
  intros it Hit Hk Hn x. destruct (ph_item _ _ _ _ _ _ Hp it Hit Hk) as (Hmin & Hd & Ho & _).
  change (apply_outcome _ e1) with (apply_outcome (batched_sort_item to_lowercase (sn_filters snap) (sn_sorts snap) (sn_time_buckets snap)
    (sn_string_maps snap) (Some (sn_dictionaries snap)) limit work it) e1).
  destruct (sort_item_cases to_lowercase (sn_filters snap) (sn_sorts snap) (sn_time_buckets snap) (sn_string_maps snap)
    (Some (sn_dictionaries snap)) limit work it Hit) as [E|[_ E]].
  - rewrite E, (sort_effect _ _ _ _ _ _ it e1 sf) by (rewrite ?Hk; first [done|split; congruence]).
    destruct (decide (x ∈ it_slots it)); [|done]. rewrite (item_matches_native it e) by done. unfold deep, inside, direct_value, sort_value. by rewrite Hmin, Hd, Hdir, Hk.
  - destruct Hsmall. rewrite <- Hk. apply too_large_found, list_elem_of_fmap. exists it. split; [|done]. symmetry. exact E.
Qed.

End cycle.

Section theorem.
Context {B : Type} `{HB : Roaring B}.
Context (memory_bytes : UnifiedEntry.t B -> N) (to_lowercase : string -> string) (fmt_f64 : spec_float -> string).
Implicit Types (c : UnifiedCache.t B) (k : UnifiedKey) (e : UnifiedEntry.t B) (snap : Snapshot B) (x : N) (live : N -> Prop).

(** The keys a cycle evicts. *)
Definition evicted_keys c (w : CacheWorkItem B) snap : list UnifiedKey :=
  let '((fw, fo), (sw, so)) := collect c w in
  let limit := compound_eval_atom_limit (UnifiedCache.config c) in
  fo ++ so
  ++ (evaluate_filter_work to_lowercase (sn_filters snap) (sn_sorts snap) (sn_time_buckets snap) (sn_string_maps snap)
        (Some (sn_dictionaries snap)) limit fw).2
  ++ (evaluate_sort_work to_lowercase (sn_filters snap) (sn_sorts snap) (sn_time_buckets snap) (sn_string_maps snap)
        (Some (sn_dictionaries snap)) limit sw).2.

Lemma maintain_lookup c (w : CacheWorkItem B) snap k :
  UnifiedCache.entries (maintain memory_bytes to_lowercase c w snap) !! k
  = if decide (k ∈ evicted_keys c w snap) then None
    else let '((fw, _), (sw, _)) := collect c w in
         let limit := compound_eval_atom_limit (UnifiedCache.config c) in
         (fun e => foldl (apply_for k)
            (foldl (apply_for k) e (evaluate_filter_work to_lowercase (sn_filters snap) (sn_sorts snap) (sn_time_buckets snap)
               (sn_string_maps snap) (Some (sn_dictionaries snap)) limit fw).1)
            (evaluate_sort_work to_lowercase (sn_filters snap) (sn_sorts snap) (sn_time_buckets snap) (sn_string_maps snap)
               (Some (sn_dictionaries snap)) limit sw).1) <$> UnifiedCache.entries c !! k.
Proof.
  unfold maintain, evicted_keys. destruct (collect c w) as [[fw fo] [sw so]].
  destruct (evaluate_filter_work _ _ _ _ _ _ _ fw) as [fr ft]. destruct (evaluate_sort_work _ _ _ _ _ _ _ sw) as [sr st]. cbn.
  rewrite !evict_overrun_lookup, !apply_lookup. 
  destruct (decide (k ∈ st)); [by rewrite decide_True by (rewrite !elem_of_app; tauto)|].
  destruct (decide (k ∈ ft)); [by rewrite decide_True by (rewrite !elem_of_app; tauto)|].
  destruct (decide (k ∈ so)); [by rewrite decide_True by (rewrite !elem_of_app; tauto)|].
  destruct (decide (k ∈ fo)); [by rewrite decide_True by (rewrite !elem_of_app; tauto)|].
  rewrite decide_False by (rewrite !elem_of_app; tauto). by destruct (UnifiedCache.entries c !! k).
Qed.

(** Without a work budget and an atom limit nothing is evicted. *)
Lemma evicted_keys_none c (w : CacheWorkItem B) snap :
  max_maintenance_work (UnifiedCache.config c) = 0 -> compound_eval_atom_limit (UnifiedCache.config c) = 0 -> evicted_keys c w snap = [].
Proof.
  intros Hw Hl. unfold evicted_keys. rewrite Hl.
  assert (forall ids m, UnifiedCache.work_overrun c ids m = false) as Ho.
  { intros ids m. unfold UnifiedCache.work_overrun. rewrite Hw. by destruct (_ =? 0). }
  assert ((collect c w).1.2 = [] /\ (collect c w).2.2 = []) as [E1 E2].
  { unfold collect, UnifiedCache.collect_filter_work, UnifiedCache.collect_sort_work. setoid_rewrite Ho.
    split; cbn; repeat case_match; by simplify_eq. }
  destruct (collect c w) as [[fw fo] [sw so]]. cbn in E1, E2. subst. cbn [app].
  assert (forall it : CacheMaintenanceItem B, too_large 0 it = false) as Ht by done.
  assert (forall (ev : CacheMaintenanceItem B -> option ItemOutcome) work, (forall it key, ev it <> Some (CompoundTooLarge key)) ->
    (split_outcomes (ev <$> work)).2 = []) as Hnil.
  { intros ev work Hev. cbn. induction work as [|it work IH]; [done|]. cbn. destruct (ev it) as [[r|key]|] eqn:E; try done. by apply Hev in E. }
  assert (forall key adds removes bounds key', outcome key adds removes bounds <> Some (CompoundTooLarge key')) as Hout.
  { intros key adds removes bounds key'. by destruct adds, removes, bounds. }
  unfold evaluate_filter_work, evaluate_sort_work. rewrite !Hnil; [done| |]; intros it key.
  - unfold evaluate_sort_item. destruct (_ !! _); [|done]. destruct (can_add_remove _ _ _ _). destruct (negb _ && negb _); [done|].
    rewrite Ht, andb_false_r. destruct (sort_loop _ _ _ _ _ _ _ _ _) as [[? ?] ?]. apply Hout.
  - unfold evaluate_filter_item. rewrite Ht. destruct (filter_loop _ _ _ _ _ _ _ _ _). apply Hout.
Qed.

(** C1: the cache worker keeps cached results right. An entry is right on a snapshot when
    its members are live, match its filter (as cache maintenance evaluates it) and lie
    within its bound, and it holds every live matching slot strictly inside the bound.
    Take an entry that is right on the old snapshot, of a cache whose indexes agree, not
    flagged for rebuild, and one cycle of the worker on a work item against the new
    snapshot. Afterwards the entry is right on the new snapshot, or flagged for rebuild,
    or gone, the last only when a work budget or an atom limit is configured. This is
    shown for entries with at least one clause and no range clause at any depth, whose
    equality values print as their bitmap keys and where a field with a top-level equality
    occurs in no clause keyed otherwise (the two findings on unified_cache.rs:2089 and
    2100 are what happens to other entries); the sort field is fully loaded in the new
    snapshot; the set of live slots is the same before and after; the work item lists
    every changed filter bit and sort value, mentions live slots only, and has no
    deletions and no bucket changes; buckets, string maps and dictionaries are those of
    the old snapshot. *)
Theorem worker_keeps_coherent live c k e snap snap' (w : CacheWorkItem B) sf :
  let cs := UnifiedEntry.original_filter_clauses e in
  cache_ok c -> UnifiedCache.entries c !! k = Some e -> UnifiedEntry.needs_rebuild e = false ->
  cs <> [] -> canonicalize fmt_f64 cs = Some (uk_filter_clauses k) -> forallb no_ranges cs = true ->
  searchable to_lowercase fmt_f64 (sn_string_maps snap') (Some (sn_dictionaries snap')) cs ->
  logged live snap snap' w k -> sn_sorts snap' !! uk_sort_field k = Some sf -> SortField.is_fully_loaded sf = true ->
  coherent to_lowercase live snap k e ->
  match UnifiedCache.entries (cycle memory_bytes to_lowercase c w snap') !! k with
  | Some e' => UnifiedEntry.needs_rebuild e' = true \/ coherent to_lowercase live snap' k e'
  | None => max_maintenance_work (UnifiedCache.config c) <> 0 \/ compound_eval_atom_limit (UnifiedCache.config c) <> 0
  end.
Proof.
  intros cs Hc He Hn Hne Hkey Hr Hs Hlog Hsf Hload Hcoh. unfold cycle, remove_deleted. rewrite (lg_alive _ _ _ _ _ Hlog).
  destruct (tombstone_unloaded_quiet c w Hc) as (Hc1 & He1 & Hcfg). set (c1 := tombstone_unloaded c w) in *.
  rewrite <- He1 in He. rewrite <- Hcfg. unfold maintain_buckets. rewrite (lg_buckets _ _ _ _ _ Hlog).
  assert (match sn_time_buckets snap' with Some _ => maintain memory_bytes to_lowercase c1 w snap' | None => maintain memory_bytes to_lowercase c1 w snap' end
    = maintain memory_bytes to_lowercase c1 w snap') as -> by (by destruct (sn_time_buckets snap')).
  rewrite maintain_lookup. destruct (decide (k ∈ evicted_keys c1 w snap')) as [Hev|Hev].
  { destruct (decide (max_maintenance_work (UnifiedCache.config c1) = 0)) as [Hw|]; [|by left].
    destruct (decide (compound_eval_atom_limit (UnifiedCache.config c1) = 0)) as [Hl|]; [|by right].
    rewrite (evicted_keys_none c1 w snap' Hw Hl) in Hev. by apply not_elem_of_nil in Hev. }
  pose proof (filter_phase to_lowercase fmt_f64 live c1 k e snap snap' w Hc1 He Hn Hkey Hs Hr Hlog) as Hpf.
  pose proof (sort_phase live c1 k e snap snap' w Hc1 He Hn Hlog) as Hps.
  unfold evicted_keys in Hev. destruct (collect c1 w) as [[fw fo] [sw so]]. cbn [fst snd] in Hpf, Hps.
  set (limit := compound_eval_atom_limit (UnifiedCache.config c1)) in *. rewrite !not_elem_of_app in Hev. destruct Hev as (Hfo & Hso & Hft & Hst).
  destruct (co_reg _ Hc1 k e He) as (reg & _ & _ & _ & _ & _ & Hdir).
  destruct (filter_phase_settled to_lowercase snap' limit fw fo k e _ live Hpf Hne Hdir Hft) as [(Hm1 & Hid1 & Hb1) Df].
  rewrite He. cbn [fmap option_fmap option_map]. set (e1 := foldl (apply_for k) e _) in *.
  destruct (sort_phase_settled to_lowercase snap' limit sw so k e e1 sf _ live Hps Hne Hdir Hid1 Hm1 Hsf Hload Hst) as [(Hm2 & Hid2 & Hb2) Ds].
  set (e2 := foldl (apply_for k) e1 _) in *. destruct Hb2 as [Hb2|[Hn1 Hb2]]; [by left|]. destruct Hb1 as [Hb1|[_ Hb1]]; [congruence|]. right.
  assert (forall x, listed_by fw k x -> live x) as Hlf by (intros x (it & H1 & H2 & H3); by apply (ph_item _ _ _ _ _ _ Hpf it H1 H2)).
  assert (forall x, listed_by sw k x -> live x) as Hls by (intros x (it & H1 & H2 & H3); by apply (ph_item _ _ _ _ _ _ Hps it H1 H2)).
  apply (effects_coherent to_lowercase live snap snap' k e e2 (listed_by fw k) (listed_by sw k) Hcoh).
  - destruct Hid1 as (_ & _ & H1), Hid2 as (_ & _ & H2). congruence.
  - congruence.
  - intros x [?|?]; auto.
  - done.
  - done.
  - intros x Hx. destruct (decide (matching to_lowercase snap cs x = matching to_lowercase snap' cs x)) as [|Hd]; [done|].
    destruct (ph_found _ _ _ _ _ _ Hpf x Hd) as [?|?]; done.
  - intros x Hx. destruct (decide (sort_value snap k x = sort_value snap' k x)) as [|Hd]; [done|].
    destruct (ph_found _ _ _ _ _ _ Hps x Hd) as [?|?]; done.
  - intros x Hx. by apply Hb2.
  - intros x Hx Hf. rewrite (proj2 (Hb2 x) Hx). by apply Hb1.
  - intros x Hx Hf. rewrite (proj2 (Hb2 x) Hx). by apply Hb1.
Qed.

End theorem.

(** ** Witness: a document enters a cached result *)

Definition level_ops0 : list fop := [FInsert 3 1].
Definition level_ops1 : list fop := [FInsert 3 1; FInsert 3 2].

Definition level_of (ops : list fop) : FilterField.t Bitset := frun (FilterField.new (filter_config "level" SingleValue)) ops.

Definition snap_of (ops : list fop) : Snapshot Bitset :=
  MkSnapshot {["level"%string := level_of ops]} {["reactionCount"%string := demo_sort]} None None ∅.

Definition top_key : UnifiedKey := MkUnifiedKey [MkCanonical "level" "eq" "3"] "reactionCount" Desc.
Definition top_cache (slots : list N) : UnifiedCache.t Bitset :=
  (UnifiedCache.form_and_store_with_clauses demo_bytes 1 [] (UnifiedCache.new demo_config) top_key slots false 1 [level_clause]
     (SortField.reconstruct_value demo_sort)).2.
Definition no_entry : UnifiedEntry.t Bitset := UnifiedEntry.new_with_clauses 0 [] 0 0 false 0 0 Desc [] (fun _ => 0).
Definition top_entry (slots : list N) : UnifiedEntry.t Bitset := default no_entry (UnifiedCache.entries (top_cache slots) !! top_key).

Lemma top_cache_ok slots : cache_ok (top_cache slots).
Proof. apply form_and_store_ok; [apply cache_ok_new|done]. Qed.

Definition top_live (x : N) : Prop := x ∈ [1; 2; 3; 4].
Definition level_insert (x : N) : CacheWorkItem Bitset := MkWork {[("level"%string, 3) := [x]]} ∅ ∅ [] {["level"%string]} false rb_new.

(** Only the bit the flush sets differs between the two snapshots. *)
Lemma level_bits x f v :
  field_contains (sn_filters (snap_of level_ops0)) f v x <> field_contains (sn_filters (snap_of level_ops1)) f v x ->
  f = "level"%string /\ v = 3 /\ x = 2.
Proof.
  intros H. destruct (decide (f = "level"%string)) as [->|Hf].
  2: { destruct H. unfold field_contains. cbn. by rewrite !lookup_singleton_ne. }
  destruct (decide (v = 3 /\ x = 2)) as [|Hn]; [done|]. destruct H. apply eq_true_iff_eq.
  assert (forall ops, field_contains (sn_filters (snap_of ops)) "level" v x = true <-> (v, x) ∈ fspec_run ∅ ops) as Hops.
  { intros ops. rewrite field_contains_true, <- (proj2 (demo_field (filter_config "level" SingleValue) ops) v x).
    unfold snap_of. cbn [sn_filters]. split; [|intros Hh; exists (level_of ops); split; [apply lookup_singleton_eq|done]].
    by intros (ff & [_ <-]%lookup_singleton_Some & Hh). }
  rewrite !Hops. cbn. set_solver.
Qed.

Lemma top_coherent : coherent string_lower top_live (snap_of level_ops0) top_key (top_entry [1]).
Proof.
  split.
  - intros x Hx. assert (x ∈ [1]) as Hx' by exact Hx. apply list_elem_of_singleton in Hx' as ->. split_and!; [by left|by vm_compute|by vm_compute].
  - intros x Hl Hg Hd. assert (x = 1 \/ x = 2 \/ x = 3 \/ x = 4) as Hx by (unfold top_live in Hl; rewrite !elem_of_cons, elem_of_nil in Hl; tauto).
    destruct Hx as [-> | [-> | [-> | ->]]]; vm_compute in Hg, Hd; discriminate.
Qed.

Lemma worker_keeps_coherent_witness :
  match UnifiedCache.entries (cycle demo_bytes string_lower (top_cache [1]) (level_insert 2) (snap_of level_ops1)) !! top_key with
  | Some e' => UnifiedEntry.needs_rebuild e' = true \/ coherent string_lower top_live (snap_of level_ops1) top_key e'
  | None => max_maintenance_work (UnifiedCache.config (top_cache [1])) <> 0 \/ compound_eval_atom_limit (UnifiedCache.config (top_cache [1])) <> 0
  end
  /\ (rb_iter <$> (UnifiedEntry.bitmap <$> UnifiedCache.entries (cycle demo_bytes string_lower (top_cache [1]) (level_insert 2)
        (snap_of level_ops1)) !! top_key)) = Some [1; 2].
Proof.
  split; [|by vm_compute].
  apply (worker_keeps_coherent demo_bytes string_lower (fun _ => ""%string) top_live (top_cache [1]) top_key (top_entry [1])
    (snap_of level_ops0) (snap_of level_ops1) (level_insert 2) demo_sort).
  - apply top_cache_ok.
  - by vm_compute.
  - by vm_compute.
  - by vm_compute.
  - by vm_compute.
  - by vm_compute.
  - split.
    + intros f val v Hin%list_elem_of_singleton. injection Hin as -> ->. intros [= <-]. by vm_compute.
    + intros cl f Hin%list_elem_of_singleton Hf. subst cl. left. cbn in Hf. apply elem_of_singleton in Hf. by subst f.
  - split; try done.
    + intros x f v (-> & -> & ->)%level_bits. exists [2]. split; [left; apply lookup_singleton_eq|by left].
    + intros f v [[S HS]|[S HS]]; [|discriminate HS]. unfold level_insert in HS. cbn [cw_filter_inserts] in HS. apply lookup_singleton_Some in HS as [[= <- <-] _]. by apply elem_of_singleton.
    + intros x [(f & v & slots & [HS|HS] & Hx)|(f & S & HS & _)]; [|discriminate HS..].
      unfold level_insert in HS. cbn [cw_filter_inserts] in HS. apply lookup_singleton_Some in HS as [_ <-]. apply list_elem_of_singleton in Hx as ->. right. by left.
  - apply lookup_singleton_eq.
  - by vm_compute.
  - apply top_coherent.
Defined.
