(* ===== verification/CachePage.v ===== *)
(** * Pages served from the cache

    A full page read from a coherent entry, strictly inside its bound, is the page the
    executor would compute from scratch.  Beyond the bound the cache has no opinion,
    and an entry that claims to be complete keeps missing what arrives there. *)

From S2P Require Import Prelude Roaring Versioned Slot Config Sort SortFacts Filter FilterFacts Float64 Bytes.
From S2P Require Import BucketDiffLog TimeBuckets Query Dictionary Planner Executor ExecutorFacts ExecutorTheorems Radix CacheKeys CacheEntry OpsWal.
From S2P Require Import CacheEval MetaIndex MetaIndexTheorems UnifiedCache UnifiedCacheFacts UnifiedCacheTheorems CacheEvalTheorems.
From S2P Require Import CacheCollect CacheWorker CacheCoherence CacheWorkerTheorems FilterTheorems SortTheorems.

(** ** Prefixes of sorted lists *)

Section prefix.
Context {A : Type} (R : A -> A -> Prop) (P : A -> Prop) `{!forall a, Decision (P a)}.
Context (HP : forall a b, R a b -> P b -> P a).

(** In a sorted list the elements of a downward-closed set come first. *)
Lemma sorted_partition l : StronglySorted R l -> l = filter P l ++ filter (fun a => ~ P a) l.
Proof.
  induction 1 as [|a l Hs IH Hall]; [done|]. destruct (decide (P a)) as [Ha|Ha].
  - rewrite filter_cons_True, filter_cons_False by tauto. cbn. by f_equal.
  - rewrite filter_cons_False, filter_cons_True by tauto.
    assert (filter P l = []) as E.
    { clear -Hall Ha HP. induction Hall as [|b l Hab _ IH]; [done|]. rewrite filter_cons_False; [done|]. intros Hb. eauto. }
    rewrite E in IH |- *. cbn in *. by f_equal.
Qed.

Lemma full_prefix l n : StronglySorted R l -> Forall P (take n l) -> length (take n l) = n -> take n l = take n (filter P l) /\ (n <= length (filter P l))%nat.
Proof.
  intros Hs HF Hlen. rewrite (sorted_partition l Hs) in HF, Hlen |- * at 1. rewrite length_take, length_app in Hlen.
  destruct (le_lt_dec n (length (filter P l))) as [Hle|Hlt]; [rewrite take_app_le by done; done|]. exfalso.
  rewrite take_app_ge in HF by lia. apply Forall_app in HF as [_ HF].
  destruct (filter (fun a => ~ P a) l) as [|a rest] eqn:E; [cbn in Hlen; lia|].
  destruct (n - length (filter P l))%nat eqn:En; [lia|]. cbn in HF. apply Forall_cons in HF as [Ha _].
  assert (a ∈ filter (fun a => ~ P a) l) as Hin by (rewrite E; by left). by apply list_elem_of_filter in Hin as [? _].
Qed.

End prefix.

Section pages.
Context {B : Type} `{HB : Roaring B}.

(** Strictly inside the bound is downward closed in the page order. *)
Lemma inside_closed (value : N -> N) (dir : SortDirection) (bound a b : N) :
  SortField.slot_le (bool_decide (dir = Desc)) value a b ->
  sort_qualifies_raw (value b) bound dir = true -> sort_qualifies_raw (value a) bound dir = true.
Proof.
  unfold SortField.slot_le, SortField.entry_le, sort_qualifies_raw.
  destruct dir; [rewrite bool_decide_false by done|rewrite bool_decide_true by done]; cbn; rewrite !N.ltb_lt; lia.
Qed.

(** Two lists with the same elements inside the bound have the same pages there. *)
Lemma same_page (value : N -> N) (dir : SortDirection) (bound : N) (members matched : list N) (limit : N) (cursor : option (N * N)) :
  let desc := bool_decide (dir = Desc) in
  let page := SortField.top_n_spec value members limit desc cursor in
  NoDup members -> NoDup matched ->
  (forall x, sort_qualifies_raw (value x) bound dir = true -> x ∈ members <-> x ∈ matched) ->
  Forall (fun x => sort_qualifies_raw (value x) bound dir = true) page -> length page = N.to_nat limit ->
  SortField.top_n_spec value matched limit desc cursor = page.
Proof.
  intros desc page Hn1 Hn2 Hsame HF Hlen. unfold page, SortField.top_n_spec in *.
  set (keep l := match cursor with Some c => filter (SortField.after_cursor desc value c) l | None => l end : list N).
  change (match cursor with Some c => _ | None => members end) with (keep members) in *.
  change (match cursor with Some c => _ | None => matched end) with (keep matched).
  set (P x := sort_qualifies_raw (value x) bound dir = true).
  assert (forall a b, SortField.slot_le desc value a b -> P b -> P a) as Hclosed by (intros a b; apply inside_closed).
  pose proof (fun l => merge_sort_sorted (SortField.slot_le desc value) l) as Hsorted.
  destruct (full_prefix (SortField.slot_le desc value) P Hclosed (merge_sort (SortField.slot_le desc value) (keep members)) (N.to_nat limit)
    (Hsorted _) HF Hlen) as [E Hle].
  assert (filter P (merge_sort (SortField.slot_le desc value) (keep members))
    = filter P (merge_sort (SortField.slot_le desc value) (keep matched))) as Heq.
  { rewrite !(merge_sort_filter (SortField.slot_le desc value)). apply (merge_sort_unique (SortField.slot_le desc value)); [apply Hsorted|].
    rewrite merge_sort_Permutation. apply NoDup_Permutation.
    - apply NoDup_filter. unfold keep. destruct cursor; [by apply NoDup_filter|done].
    - apply NoDup_filter. unfold keep. destruct cursor; [by apply NoDup_filter|done].
    - intros x. rewrite !list_elem_of_filter. unfold keep. destruct cursor; rewrite ?list_elem_of_filter; pose proof (Hsame x); unfold P; tauto. }
  rewrite E, Heq. rewrite (sorted_partition (SortField.slot_le desc value) P Hclosed (merge_sort (SortField.slot_le desc value) (keep matched)) (Hsorted _)) at 1.
  rewrite take_app_le; [done|]. by rewrite <- Heq.
Qed.

Context (to_lowercase : string -> string) (ex : QueryExecutor B).
Implicit Types (k : UnifiedKey) (e : UnifiedEntry.t B) (snap : Snapshot B) (x : N) (live : N -> Prop).

Lemma execute_from_bitmap_page (b : B) (sort : option SortClause) limit cursor (simple : bool) :
  sort_ok ex sort cursor -> (forall x, x ∈ b -> x <= u32_max) ->
  exists r, execute_from_bitmap ex b sort limit cursor simple = Ok r
    /\ qr_ids r = page_of ex sort (rb_iter b) (N.min limit (max_page_size ex)) cursor.
Proof.
  intros Hs Hu. unfold execute_from_bitmap, execute_from_bitmap_inner.
  destruct (paginate_page ex b sort (N.min limit (max_page_size ex)) cursor (simple || (rb_len b <? 1000)) Hs Hu) as (p & Hp & Hids).
  rewrite Hp. cbn. by eexists.
Qed.

(** C2: a page served from the cache is the page computed from scratch. If an entry is
    right on the snapshot (its members are live, match its filter and lie within its
    bound, and it holds every live matching slot strictly inside it), and the page
    [execute_from_bitmap] reads from its bitmap is full and lies strictly inside the
    entry's bound, then [execute_from_bitmap] over all the live slots that match the
    entry's clauses returns the same ids, with or without a cursor, and whichever of the
    in-memory sort and the bit walk each of the two calls is told to use. The sort field
    has at most 32 layers, slots are 32-bit numbers, and the cursor's value is below 2 to
    the number of layers (a wider cursor is read differently by the two sorts, see the
    finding on executor.rs:1046). *)
Theorem cached_page_correct live snap k e (m : B) limit cursor (simple simple' : bool) r :
  let sort := Some (MkSortClause (uk_sort_field k) (uk_direction k)) in
  coherent to_lowercase live snap k e -> ex_sorts ex = sn_sorts snap -> sort_ok ex sort cursor ->
  (forall x, x ∈ m <-> live x /\ matching to_lowercase snap (UnifiedEntry.original_filter_clauses e) x = true) ->
  (forall x, x ∈ m -> x <= u32_max) ->
  execute_from_bitmap ex (UnifiedEntry.bitmap e) sort limit cursor simple = Ok r ->
  length (qr_ids r) = N.to_nat (N.min limit (max_page_size ex)) ->
  Forall (fun x => sort_qualifies_raw (sort_value snap k x) (UnifiedEntry.min_tracked_value e) (uk_direction k) = true) (qr_ids r) ->
  exists r', execute_from_bitmap ex m sort limit cursor simple' = Ok r' /\ qr_ids r' = qr_ids r.
Proof.
  intros sort Hcoh Hsorts Hs Hm Hu Hr Hlen HF.
  assert (forall x, x ∈ UnifiedEntry.bitmap e -> x ∈ m) as Hsub by (intros x Hx; apply Hm; by apply (ch_sound _ _ _ _ _ Hcoh) in Hx as (? & ? & _)).
  destruct (execute_from_bitmap_page (UnifiedEntry.bitmap e) sort limit cursor simple Hs) as (r1 & Hr1 & Hids1); [auto|].
  assert (r1 = r) as -> by congruence. destruct (execute_from_bitmap_page m sort limit cursor simple' Hs Hu) as (r' & Hr' & Hids').
  exists r'. split; [done|]. rewrite Hids', Hids1. rewrite Hids1 in Hlen, HF. unfold page_of in *. cbn [sort sc_field sc_direction] in *.
  destruct Hs as (sf & Hsf & _). cbn [sc_field] in Hsf. rewrite Hsf in *.
  assert (forall x, sort_value snap k x = SortField.reconstruct_value sf x) as Hv by (intros x; unfold sort_value; rewrite <- Hsorts; by rewrite Hsf).
  assert (forall b : B, NoDup (rb_iter b)) as Hnd by (intros b; apply sorted_lt_NoDup, rb_iter_sorted).
  apply (same_page _ (uk_direction k) (UnifiedEntry.min_tracked_value e)); [apply Hnd|apply Hnd| | |done].
  - intros x Hx. rewrite <- !rb_elem_of_iter. split; [by apply Hsub|]. intros [Hl Hg]%Hm. apply (ch_complete _ _ _ _ _ Hcoh); [done..|]. by rewrite Hv.
  - eapply Forall_impl; [exact HF|]. cbn. intros x. by rewrite Hv.
Qed.

End pages.

(** ** What a complete entry misses *)

Section complete.
Context {B : Type} `{HB : Roaring B}.
Context (memory_bytes : UnifiedEntry.t B -> N) (to_lowercase : string -> string).
Implicit Types (c : UnifiedCache.t B) (k : UnifiedKey) (e : UnifiedEntry.t B) (snap : Snapshot B) (x : N).

Lemma apply_for_has_more k (rs : list CacheMaintenanceResult) : forall e,
  UnifiedEntry.has_more (foldl (apply_for k) e rs) = UnifiedEntry.has_more e.
Proof.
  assert (forall e adds, UnifiedEntry.has_more (UnifiedEntry.add_slots_bulk e adds).2 = UnifiedEntry.has_more e) as Ha.
  { intros e adds. unfold UnifiedEntry.add_slots_bulk, UnifiedEntry.check_bloat. destruct adds; [done|]. by case_match. }
  assert (forall e removes, UnifiedEntry.has_more (UnifiedEntry.remove_slots_bulk e removes).2 = UnifiedEntry.has_more e) as Hr.
  { intros e removes. unfold UnifiedEntry.remove_slots_bulk. by case_match. }
  induction rs as [|r rs IH]; intros e; [done|]. cbn. rewrite IH. unfold apply_for. case_decide; [|done].
  destruct (UnifiedEntry.needs_rebuild e) eqn:En; [by rewrite apply_result_rebuild|]. rewrite apply_result_eq by done. by rewrite !Hr, Ha.
Qed.

Lemma items_phase c ids slots k e :
  cache_ok c -> UnifiedCache.entries c !! k = Some e ->
  phase (UnifiedCache.collect_items c ids slots) [] k e (fun _ => False) (fun _ => True).
Proof. intros Hc He. destruct (phase_items c ids slots k e (fun _ => True) (fun _ => True) Hc He) as [H1 H2]; [done|]. by split. Qed.

Lemma collect_phases c (w : CacheWorkItem B) k e :
  cache_ok c -> UnifiedCache.entries c !! k = Some e ->
  phase (collect c w).1.1 [] k e (fun _ => False) (fun _ => True) /\ phase (collect c w).2.1 [] k e (fun _ => False) (fun _ => True).
Proof.
  intros Hc He. assert (phase [] [] k e (fun _ => False) (fun _ => True)) as Hnil by (apply phase_nil; by intros ? []).
  unfold collect, UnifiedCache.collect_filter_work, UnifiedCache.collect_sort_work. cbn [fst snd].
  split; repeat (match goal with |- context [if ?b then _ else _] => destruct b end); first [exact Hnil|by apply items_phase].
Qed.

(** an entry never admits a slot that is not strictly inside its bound, not even
    when its result was complete.  A slot outside a fresh entry whose value does not
    pass the bound stays outside through every cycle, and the entry keeps claiming, or
    not claiming, to be complete: a new document at or below the last member of a
    complete result never shows up in it. *)
Theorem slot_at_bound_never_cached c k e snap (w : CacheWorkItem B) sf x :
  cache_ok c -> UnifiedCache.entries c !! k = Some e -> UnifiedEntry.needs_rebuild e = false ->
  UnifiedEntry.original_filter_clauses e <> [] -> cw_alive_removes w = [] -> rb_is_empty (cw_bucket_changed_slots w) = true ->
  sn_sorts snap !! uk_sort_field k = Some sf -> SortField.is_fully_loaded sf = true ->
  sort_qualifies_raw (SortField.reconstruct_value sf x) (UnifiedEntry.min_tracked_value e) (uk_direction k) = false ->
  x ∉ UnifiedEntry.bitmap e ->
  match UnifiedCache.entries (cycle memory_bytes to_lowercase c w snap) !! k with
  | Some e' => UnifiedEntry.needs_rebuild e' = true
               \/ (x ∉ UnifiedEntry.bitmap e' /\ UnifiedEntry.has_more e' = UnifiedEntry.has_more e)
  | None => True
  end.
Proof.
  intros Hc He Hn Hne Halive Hb Hsf Hload Hout Hx. unfold cycle, remove_deleted. rewrite Halive.
  destruct (tombstone_unloaded_quiet c w Hc) as (Hc1 & He1 & _). set (c1 := tombstone_unloaded c w) in *. rewrite <- He1 in He.
  unfold maintain_buckets. rewrite Hb.
  assert (match sn_time_buckets snap with Some _ => maintain memory_bytes to_lowercase c1 w snap | None => maintain memory_bytes to_lowercase c1 w snap end
    = maintain memory_bytes to_lowercase c1 w snap) as -> by (by destruct (sn_time_buckets snap)).
  rewrite maintain_lookup. destruct (decide (k ∈ evicted_keys to_lowercase c1 w snap)) as [Hev|Hev]; [done|].
  destruct (collect_phases c1 w k e Hc1 He) as [Hpf Hps]. unfold evicted_keys in Hev.
  destruct (collect c1 w) as [[fw fo] [sw so]]. cbn [fst snd] in Hpf, Hps. rewrite !not_elem_of_app in Hev. destruct Hev as (_ & _ & Hft & Hst).
  destruct (co_reg _ Hc1 k e He) as (reg & _ & _ & _ & _ & _ & Hdir). rewrite He. cbn [fmap option_fmap option_map].
  destruct (filter_phase_settled to_lowercase snap _ fw [] k e _ _ Hpf Hne Hdir Hft) as [(Hm1 & Hid1 & Hb1) Df]. set (e1 := foldl _ e _) in *.
  destruct (sort_phase_settled to_lowercase snap _ sw [] k e e1 sf _ _ Hps Hne Hdir Hid1 Hm1 Hsf Hload Hst) as [(_ & _ & Hb2) Ds].
  destruct Hb2 as [Hb2|[Hn1 Hb2]]; [by left|]. destruct Hb1 as [Hb1|[_ Hb1]]; [congruence|]. right.
  assert (~ deep snap k e x) as Hdeep by (unfold deep, sort_value; rewrite Hsf; by rewrite Hout).
  split; [|unfold e1; by rewrite !apply_for_has_more]. specialize (Hb1 x). specialize (Hb2 x). destruct (Df x), (Ds x); tauto.
Qed.

End complete.

(** ** Witnesses *)

Lemma pair_coherent : coherent string_lower top_live (snap_of level_ops1) top_key (top_entry [2; 1]).
Proof.
  split.
  - intros x Hx. assert (x ∈ [1; 2]) as Hx' by exact Hx. rewrite !elem_of_cons, elem_of_nil in Hx'.
    destruct Hx' as [-> | [-> | []]]; (split_and!; [unfold top_live; rewrite !elem_of_cons; tauto|by vm_compute|by vm_compute]).
  - intros x Hl Hg Hd. unfold top_live in Hl. rewrite !elem_of_cons, elem_of_nil in Hl.
    destruct Hl as [-> | [-> | [-> | [-> | []]]]]; vm_compute in Hg, Hd; try discriminate. vm_compute. right. by left.
Qed.

Lemma pair_matching x :
  x ∈ bitset [1; 2] <-> top_live x /\ matching string_lower (snap_of level_ops1) (UnifiedEntry.original_filter_clauses (top_entry [2; 1])) x = true.
Proof.
  split.
  - intros Hx. apply (ch_sound _ _ _ _ _ pair_coherent) in Hx as (H1 & H2 & _). done.
  - intros [Hl Hg]. unfold top_live in Hl. rewrite !elem_of_cons, elem_of_nil in Hl.
    destruct Hl as [-> | [-> | [-> | [-> | []]]]]; vm_compute in Hg; try discriminate; vm_compute; [by left|right; by left].
Qed.

Lemma cached_page_correct_witness :
  exists r', execute_from_bitmap demo_ex (bitset [1; 2]) (Some (MkSortClause "reactionCount" Desc)) 1 None false = Ok r'
    /\ qr_ids r' = [2].
Proof.
  apply (cached_page_correct string_lower demo_ex top_live (snap_of level_ops1) top_key (top_entry [2; 1]) (bitset [1; 2]) 1 None true false
    (MkQueryResult [2] (Some (MkCursorPosition 7 2)) 2)).
  - apply pair_coherent.
  - done.
  - exists demo_sort. split; [reflexivity|]. split; [apply demo_sort_wf|]. split; [vm_compute; lia|done].
  - apply pair_matching.
  - intros x [Hl _]%pair_matching. unfold top_live in Hl. rewrite !elem_of_cons, elem_of_nil in Hl. unfold u32_max.
    destruct Hl as [-> | [-> | [-> | [-> | []]]]]; lia.
  - by vm_compute.
  - by vm_compute.
  - repeat constructor.
Defined.

(** Slot 4 ties with the only member of a complete result and never enters it. *)
Lemma slot_at_bound_never_cached_witness :
  match UnifiedCache.entries (cycle demo_bytes string_lower (top_cache [1]) (level_insert 4) (snap_of [FInsert 3 1; FInsert 3 4])) !! top_key with
  | Some e' => UnifiedEntry.needs_rebuild e' = true
               \/ (4 ∉ UnifiedEntry.bitmap e' /\ UnifiedEntry.has_more e' = UnifiedEntry.has_more (top_entry [1]))
  | None => True
  end
  /\ matching string_lower (snap_of [FInsert 3 1; FInsert 3 4]) [level_clause] 4 = true
  /\ UnifiedEntry.has_more (top_entry [1]) = false.
Proof.
  split; [|split; by vm_compute].
  apply (slot_at_bound_never_cached demo_bytes string_lower (top_cache [1]) top_key (top_entry [1]) _ (level_insert 4) demo_sort 4).
  - apply top_cache_ok.
  - by vm_compute.
  - by vm_compute.
  - by vm_compute.
  - done.
  - by vm_compute.
  - apply lookup_singleton_eq.
  - by vm_compute.
  - by vm_compute.
  - apply rb_contains_false. by vm_compute.
Defined.
