(* ===== verification/CacheMerge.v ===== *)
(** * Merging queued work items (src/cache_worker.rs, [coalesce_work_items])

    The merged item lists a slot under a group exactly when some item inserts it there
    and none removes it, or the other way round; everything else is a union. *)

From S2P Require Import Prelude Roaring Versioned Slot Config Sort Filter Float64 Bytes.
From S2P Require Import BucketDiffLog TimeBuckets Query Dictionary Planner Executor Radix CacheKeys CacheEntry OpsWal.
From S2P Require Import CacheEval CacheEvalTheorems MetaIndex UnifiedCache UnifiedCacheTheorems CacheWorker CacheWorkerTheorems.

(** ** Sorted lists *)

Lemma symmetric_difference_cons (y z : N) (a b : list N) :
  symmetric_difference_sorted (y :: a) (z :: b)
  = match y ?= z with
    | Datatypes.Lt => let '(only_a, only_b) := symmetric_difference_sorted a (z :: b) in (y :: only_a, only_b)
    | Datatypes.Gt => let '(only_a, only_b) := symmetric_difference_sorted (y :: a) b in (only_a, z :: only_b)
    | Datatypes.Eq => symmetric_difference_sorted a b
    end.
Proof. reflexivity. Qed.

Lemma symmetric_difference_elem (a b : list N) x :
  StronglySorted N.lt a -> StronglySorted N.lt b ->
  (x ∈ (symmetric_difference_sorted a b).1 <-> x ∈ a /\ x ∉ b) /\ (x ∈ (symmetric_difference_sorted a b).2 <-> x ∈ b /\ x ∉ a).
Proof.
  intros Ha. revert b. induction Ha as [|y a Ha IHa Hya]; intros b Hb.
  { destruct b; cbn; rewrite !elem_of_nil; tauto. }
  induction Hb as [|z b Hb IHb Hzb]; [cbn; rewrite !elem_of_nil; tauto|].
  rewrite Forall_forall in Hya, Hzb. rewrite symmetric_difference_cons. destruct (N.compare_spec y z) as [->|Hlt|Hgt].
  - specialize (IHa b Hb). destruct (symmetric_difference_sorted a b) as [oa ob]. cbn [fst snd] in *. destruct IHa as [-> ->]. rewrite !elem_of_cons.
    assert (x ∈ a -> x <> z) by (intros H ->; specialize (Hya z H); lia). assert (x ∈ b -> x <> z) by (intros H' ->; specialize (Hzb z H'); lia). tauto.
  - specialize (IHa (z :: b) ltac:(constructor; [done|by apply Forall_forall])).
    destruct (symmetric_difference_sorted a (z :: b)) as [oa ob]. cbn [fst snd] in *. destruct IHa as [IH1 IH2]. rewrite !elem_of_cons, IH1, IH2, ?elem_of_cons.
    assert (x = y -> ~ (x = z \/ x ∈ b)) by (intros -> [->|H]; [lia|specialize (Hzb y H); lia]). tauto.
  - destruct (symmetric_difference_sorted (y :: a) b) as [oa ob]. cbn [fst snd] in *.
    destruct IHb as [IH1 IH2]. rewrite !elem_of_cons, IH1, IH2, ?elem_of_cons.
    assert (x = z -> ~ (x = y \/ x ∈ a)) by (intros -> [->|H]; [lia|specialize (Hya z H); lia]). tauto.
Qed.

Lemma dedup_adjacent_sorted (l : list N) : StronglySorted N.le l -> StronglySorted N.lt (dedup_adjacent l).
Proof.
  induction 1 as [|a l Hl IH Ha]; [constructor|]. cbn [dedup_adjacent]. destruct l as [|b l]; [repeat constructor|].
  destruct (N.eqb_spec a b) as [->|Hne]; [done|]. constructor; [done|].
  apply Forall_forall. intros x Hx. rewrite dedup_adjacent_elem in Hx. rewrite Forall_forall in Ha. pose proof (Ha x Hx). pose proof (Ha b (list_elem_of_here _ _)).
  apply elem_of_cons in Hx as [->|Hx]; [lia|]. inversion Hl as [|? ? _ Hb]; subst. rewrite Forall_forall in Hb. specialize (Hb x Hx). lia.
Qed.

Lemma dedup_sort_spec (l : list N) : StronglySorted N.lt (dedup_sort l) /\ forall x, x ∈ dedup_sort l <-> x ∈ l.
Proof.
  unfold dedup_sort. destruct (Nat.leb_spec (length l) 1) as [Hl|_].
  - split; [|done]. destruct l as [|a [|b l]]; [constructor|repeat constructor|cbn in Hl; lia].
  - split; [apply dedup_adjacent_sorted, (merge_sort_sorted N.le)|]. intros x. apply CacheEvalTheorems.dedup_sort_elem.
Qed.

(** ** Groups *)

Notation slots_at m key := (default [] (m !! key)).

Lemma append_changes_lookup (m ch : changes) key x : x ∈ slots_at (append_changes m ch) key <-> x ∈ slots_at m key \/ x ∈ slots_at ch key.
Proof.
  unfold append_changes. apply (map_fold_weak_ind (fun r d => x ∈ slots_at r key <-> x ∈ slots_at m key \/ x ∈ slots_at d key)).
  - rewrite lookup_empty. cbn. rewrite elem_of_nil. tauto.
  - intros k v d r Hd IH. destruct (decide (key = k)) as [->|Hne].
    + rewrite !lookup_insert_eq. cbn. rewrite elem_of_app, IH, Hd. cbn. rewrite elem_of_nil. tauto.
    + by rewrite !lookup_insert_ne.
Qed.

Lemma union_mutations_lookup (m ch : gmap string (gset N)) f x :
  x ∈ default ∅ (union_mutations m ch !! f) <-> x ∈ default ∅ (m !! f) \/ x ∈ default ∅ (ch !! f).
Proof.
  unfold union_mutations. apply (map_fold_weak_ind (fun r d => x ∈ default ∅ (r !! f) <-> x ∈ default ∅ (m !! f) \/ x ∈ default ∅ (d !! f))).
  - rewrite lookup_empty. cbn. rewrite elem_of_empty. tauto.
  - intros k v d r Hd IH. destruct (decide (f = k)) as [->|Hne].
    + rewrite !lookup_insert_eq. cbn. rewrite elem_of_union, IH, Hd. cbn. rewrite elem_of_empty. tauto.
    + by rewrite !lookup_insert_ne.
Qed.

Lemma put_or_drop_lookup (m : changes) key slots k :
  slots_at (put_or_drop m key slots) k = if decide (k = key) then slots else slots_at m k.
Proof.
  unfold put_or_drop. destruct slots as [|s slots]; case_decide as Hk; subst;
    rewrite ?lookup_delete_eq, ?lookup_insert_eq, ?lookup_delete_ne, ?lookup_insert_ne by done; done.
Qed.

Lemma cancel_key_other acc key k : k <> key ->
  slots_at (cancel_key acc key).1 k = slots_at acc.1 k /\ slots_at (cancel_key acc key).2 k = slots_at acc.2 k
  /\ ((cancel_key acc key).1 !! k = acc.1 !! k /\ (cancel_key acc key).2 !! k = acc.2 !! k).
Proof.
  intros Hne. destruct acc as [ins rem]. cbn. destruct (ins !! key) as [a|], (rem !! key) as [b|]; try done.
  destruct (symmetric_difference_sorted a b) as [oa ob]. cbn.
  rewrite !put_or_drop_lookup, !decide_False by done. unfold put_or_drop.
  split_and!; try done; [destruct oa|destruct ob]; rewrite ?lookup_delete_ne, ?lookup_insert_ne by done; done.
Qed.

Lemma cancel_key_congr (acc acc' : changes * changes) k :
  acc'.1 !! k = acc.1 !! k -> acc'.2 !! k = acc.2 !! k ->
  slots_at (cancel_key acc' k).1 k = slots_at (cancel_key acc k).1 k /\ slots_at (cancel_key acc' k).2 k = slots_at (cancel_key acc k).2 k.
Proof.
  destruct acc as [ins rem], acc' as [ins' rem']. cbn. intros E1 E2. rewrite E1, E2.
  destruct (ins !! k) as [a|] eqn:Ea, (rem !! k) as [b|] eqn:Eb; cbn; rewrite ?E1, ?E2, ?Ea, ?Eb; try done.
  destruct (symmetric_difference_sorted a b). cbn. by rewrite !put_or_drop_lookup, !decide_True.
Qed.

(** Each shared key is cancelled once. *)
Lemma cancel_fold keys : forall acc k, NoDup keys ->
  let acc' := foldl cancel_key acc keys in
  slots_at acc'.1 k = (if decide (k ∈ keys) then slots_at (cancel_key acc k).1 k else slots_at acc.1 k)
  /\ slots_at acc'.2 k = (if decide (k ∈ keys) then slots_at (cancel_key acc k).2 k else slots_at acc.2 k).
Proof.
  induction keys as [|key keys IH]; intros acc k Hnd; cbv zeta.
  { rewrite decide_False by apply not_elem_of_nil. done. }
  apply NoDup_cons in Hnd as [Hnot Hnd]. cbn [foldl]. destruct (IH (cancel_key acc key) k Hnd) as [-> ->].
  destruct (decide (k = key)) as [->|Hne].
  - rewrite !(decide_False (P := key ∈ keys)), !(decide_True (P := key ∈ key :: keys)) by first [done|by left]. done.
  - destruct (cancel_key_other acc key k Hne) as (H1 & H2 & H3 & H4).
    destruct (decide (k ∈ keys)) as [Hin|Hin].
    + rewrite !(decide_True (P := k ∈ key :: keys)) by (by right). apply cancel_key_congr; done.
    + rewrite !(decide_False (P := k ∈ key :: keys)) by (rewrite elem_of_cons; tauto). done.
Qed.

Lemma cancel_pairs_elem (ins rem : changes) key x :
  map_Forall (fun _ l => StronglySorted N.lt l) ins -> map_Forall (fun _ l => StronglySorted N.lt l) rem ->
  (x ∈ slots_at (cancel_pairs ins rem).1 key <-> x ∈ slots_at ins key /\ x ∉ slots_at rem key)
  /\ (x ∈ slots_at (cancel_pairs ins rem).2 key <-> x ∈ slots_at rem key /\ x ∉ slots_at ins key).
Proof.
  intros Hi Hr. unfold cancel_pairs. destruct (cancel_fold (elements (dom ins ∩ dom rem)) (ins, rem) key (NoDup_elements _)) as [-> ->].
  destruct (decide (key ∈ elements (dom ins ∩ dom rem))) as [Hk|Hk]; rewrite elem_of_elements, elem_of_intersection, !elem_of_dom in Hk.
  - destruct Hk as [[a Ha] [b Hb]]. cbn. rewrite Ha, Hb. destruct (symmetric_difference_elem a b x (Hi _ _ Ha) (Hr _ _ Hb)) as [<- <-].
    destruct (symmetric_difference_sorted a b). cbn. by rewrite !put_or_drop_lookup, !decide_True.
  - cbn. destruct (ins !! key) as [a|], (rem !! key) as [b|]; cbn; rewrite ?elem_of_nil; try tauto. destruct Hk. split; by eexists.
Qed.

Section merge.
Context {B : Type} `{HB : Roaring B}.
Implicit Types (w : CacheWorkItem B) (items : list (CacheWorkItem B)).

(** Some item lists slot [x] in a group. *)
Definition some_item items (get : CacheWorkItem B -> list N) (x : N) : Prop := exists w, w ∈ items /\ x ∈ get w.

Lemma merge_fold items : forall acc key f x,
  let r := foldl merge_item acc items in
  (x ∈ slots_at (cw_filter_inserts r.1) key <-> x ∈ slots_at (cw_filter_inserts acc.1) key \/ some_item items (fun w => slots_at (cw_filter_inserts w) key) x)
  /\ (x ∈ slots_at (cw_filter_removes r.1) key <-> x ∈ slots_at (cw_filter_removes acc.1) key \/ some_item items (fun w => slots_at (cw_filter_removes w) key) x)
  /\ (x ∈ default ∅ (cw_sort_mutations r.1 !! f) <-> x ∈ default ∅ (cw_sort_mutations acc.1 !! f) \/ exists w, w ∈ items /\ x ∈ default ∅ (cw_sort_mutations w !! f))
  /\ (x ∈ r.2 <-> x ∈ acc.2 \/ some_item items cw_alive_removes x).
Proof.
  unfold some_item. induction items as [|w items IH]; intros acc key f x; cbv zeta; [cbn; setoid_rewrite elem_of_nil; naive_solver|].
  cbn [foldl]. destruct (IH (merge_item acc w) key f x) as (H1 & H2 & H3 & H4). rewrite H1, H2, H3, H4. clear.
  destruct acc as [m alive]. cbn. rewrite !append_changes_lookup, union_mutations_lookup, elem_of_union, elem_of_list_to_set.
  setoid_rewrite elem_of_cons. split_and!; naive_solver.
Qed.

(** merging queued cache work is exact: a slot is listed as inserted into a group
    when some item inserts it and no item removes it, and conversely for removals; the
    sort mutations are the union, and the deleted slots are the sorted union without
    duplicates. *)
Theorem coalesce_exact items :
  let m := coalesce_work_items items in
  (forall key x, x ∈ slots_at (cw_filter_inserts m) key
     <-> some_item items (fun w => slots_at (cw_filter_inserts w) key) x /\ ~ some_item items (fun w => slots_at (cw_filter_removes w) key) x)
  /\ (forall key x, x ∈ slots_at (cw_filter_removes m) key
     <-> some_item items (fun w => slots_at (cw_filter_removes w) key) x /\ ~ some_item items (fun w => slots_at (cw_filter_inserts w) key) x)
  /\ (forall f x, x ∈ default ∅ (cw_sort_mutations m !! f) <-> exists w, w ∈ items /\ x ∈ default ∅ (cw_sort_mutations w !! f))
  /\ StronglySorted N.le (cw_alive_removes m) /\ NoDup (cw_alive_removes m)
  /\ (forall x, x ∈ cw_alive_removes m <-> some_item items cw_alive_removes x).
Proof.
  unfold coalesce_work_items. pose proof (merge_fold items (empty_item, ∅)) as Hm. cbv zeta in Hm |- *.
  destruct (foldl merge_item (empty_item, ∅) items) as [m alive]. cbn [fst snd empty_item cw_filter_inserts cw_filter_removes cw_sort_mutations] in Hm.
  assert (forall (ch : changes) key x, x ∈ slots_at (dedup_sort <$> ch) key <-> x ∈ slots_at ch key) as Hd.
  { intros ch key x. rewrite lookup_fmap. destruct (ch !! key) as [l|]; [|done]. cbn. apply dedup_sort_spec. }
  assert (forall ch : changes, map_Forall (fun _ l => StronglySorted N.lt l) (dedup_sort <$> ch)) as Hs.
  { intros ch key l. rewrite lookup_fmap. destruct (ch !! key) as [l'|]; [|done]. cbn. intros [= <-]. apply dedup_sort_spec. }
  pose proof (fun key x => cancel_pairs_elem (dedup_sort <$> cw_filter_inserts m) (dedup_sort <$> cw_filter_removes m) key x (Hs _) (Hs _)) as Hc.
  destruct (cancel_pairs _ _) as [ins rem]. cbn [fst snd] in Hc. cbn.
  assert (forall (A : Prop), (False \/ A) <-> A) as HF by tauto.
  split_and!.
  - intros key x. destruct (Hc key x) as [-> _]. rewrite !Hd. destruct (Hm key ""%string x) as (-> & -> & _). rewrite lookup_empty. cbn. rewrite elem_of_nil, !HF. done.
  - intros key x. destruct (Hc key x) as [_ ->]. rewrite !Hd. destruct (Hm key ""%string x) as (-> & -> & _). rewrite lookup_empty. cbn. rewrite elem_of_nil, !HF. done.
  - intros f x. destruct (Hm (""%string, 0) f x) as (_ & _ & -> & _). rewrite lookup_empty. cbn. rewrite elem_of_empty. tauto.
  - apply (merge_sort_sorted N.le).
  - rewrite merge_sort_Permutation. apply NoDup_elements.
  - intros x. rewrite merge_sort_Permutation, elem_of_elements. destruct (Hm (""%string, 0) ""%string x) as (_ & _ & _ & ->). rewrite elem_of_empty. tauto.
Qed.

(** ** A re-insertion is cancelled *)

Definition insert_work (f : string) (v x : N) : CacheWorkItem B := MkWork {[(f, v) := [x]]} ∅ ∅ [] {[f]} false rb_new.
Definition remove_work (f : string) (v x : N) : CacheWorkItem B := MkWork ∅ {[(f, v) := [x]]} ∅ [] {[f]} false rb_new.

(** merging cancels an insertion against a removal without regard to their order:
    three flushes that insert, remove and re-insert one slot in one group leave the
    worker with nothing to do, so entries the slot now matches are not told, whatever
    the snapshot says. *)
Theorem reinsertion_lost (memory_bytes : UnifiedEntry.t B -> N) (to_lowercase : string -> string) (limit : nat)
    (uc : UnifiedCache.t B) (snap : Snapshot B) (f : string) (v x : N) :
  (3 <= limit)%nat ->
  worker_round memory_bytes to_lowercase limit uc [insert_work f v x; remove_work f v x; insert_work f v x] snap = (uc, []).
Proof.
  intros Hl. unfold worker_round. cbn [drain app length].
  assert ((limit <? 2)%nat = false) as -> by (apply Nat.ltb_ge; lia). assert ((limit <? 3)%nat = false) as -> by (apply Nat.ltb_ge; lia).
  assert (is_empty (coalesce_work_items [insert_work f v x; remove_work f v x; insert_work f v x]) = true) as ->; [|done].
  unfold coalesce_work_items. cbn [foldl merge_item empty_item insert_work remove_work cw_filter_inserts cw_filter_removes].
  assert (append_changes ∅ ∅ = ∅) as E0 by done.
  assert (append_changes ∅ {[(f, v) := [x]]} = {[(f, v) := [x]]}) as E1 by (unfold append_changes; by rewrite map_fold_singleton, lookup_empty).
  assert (append_changes {[(f, v) := [x]]} ∅ = {[(f, v) := [x]]}) as E2 by done.
  assert (append_changes {[(f, v) := [x]]} {[(f, v) := [x]]} = {[(f, v) := [x; x]]}) as E3.
  { unfold append_changes. rewrite map_fold_singleton, lookup_singleton_eq. cbn. apply insert_singleton_eq. }
  rewrite ?E0, ?E1, ?E2, ?E3. rewrite !map_fmap_singleton.
  assert (dedup_sort [x; x] = [x]) as E4.
  { destruct (dedup_sort_spec [x; x]) as [Hs He]. eapply sorted_lt_ext; [done|repeat constructor|]. intros y. rewrite He. set_solver. }
  rewrite E4. change (dedup_sort [x]) with [x]. unfold cancel_pairs. rewrite !dom_singleton_L, intersection_idemp_L, elements_singleton.
  cbn [foldl cancel_key]. rewrite !lookup_singleton_eq. cbn [symmetric_difference_sorted]. rewrite N.compare_refl. cbn [put_or_drop].
  rewrite !delete_singleton_eq. unfold is_empty. cbn.
  change (union_mutations (union_mutations (union_mutations ∅ ∅) ∅) ∅) with (∅ : gmap string (gset N)).
  rewrite !union_empty_l_L, elements_empty, !bool_decide_true by done. cbn. apply rb_is_empty_spec. intros y.
  rewrite !rb_elem_of_or. pose proof (rb_elem_of_new y). tauto.
Qed.

End merge.

(** ** Witnesses *)

Lemma coalesce_exact_witness :
  2 ∈ slots_at (cw_filter_inserts (coalesce_work_items [insert_work (B := Bitset) "level" 3 2; remove_work "level" 3 4])) ("level"%string, 3).
Proof.
  destruct (coalesce_exact [insert_work (B := Bitset) "level" 3 2; remove_work "level" 3 4]) as [H _].
  apply H. split.
  - exists (insert_work "level" 3 2). split; [by left|]. cbn. by left.
  - intros (w & Hw & Hx). apply elem_of_cons in Hw as [-> | Hw]; [by apply elem_of_nil in Hx|].
    apply list_elem_of_singleton in Hw as ->. change (2 ∈ [4]) in Hx. by apply list_elem_of_singleton in Hx.
Defined.

Lemma reinsertion_lost_witness :
  worker_round demo_bytes string_lower 4096 (top_cache [1])
    [insert_work "level" 3 2; remove_work "level" 3 2; insert_work "level" 3 2] (snap_of level_ops1) = (top_cache [1], []).
Proof. apply (reinsertion_lost demo_bytes string_lower 4096 (top_cache [1]) (snap_of level_ops1) "level" 3 2). lia. Defined.
