(* ===== verification/ShardStore.v ===== *)
(** * The shard store (src/shard_store.rs)

    Every shard is one file: a 28-byte header, a snapshot section and a log of
    operations, each with its length and checksum.  Reads replay the log over the
    snapshot; compaction folds it into a new snapshot, written to a [.new] file that is
    renamed over the shard.  The store is generic in its codecs and its sharding, which
    are type classes here as they are traits there.

    The directory tree is a finite map from paths to bytes.  System calls succeed unless
    the file is missing or too short; a crash is an intermediate state ([write_crash],
    [append_crash]).  Operations run one at a time, except that appends to one shard, which
    hold its lock shared, may interleave ([append_step]).  The rewrite counters and the
    injected failure of the tests are left out. *)

From S2P Require Import Prelude Bytes.
From Stdlib Require Import Ascii.

(** ** I/O results *)

Inductive IoErrorKind : Type := UnexpectedEof | InvalidData | NotFound | OtherError.

(** [io::Result], or a panic (an index out of range). *)
Inductive io_result (A : Type) : Type :=
  | IoOk (a : A)
  | IoErr (e : IoErrorKind)
  | IoPanic.
Arguments IoOk {A} _.
Arguments IoErr {A} _.
Arguments IoPanic {A}.

Definition io_bind {A C : Type} (m : io_result A) (k : A -> io_result C) : io_result C :=
  match m with
  | IoOk a => k a
  | IoErr e => IoErr e
  | IoPanic => IoPanic
  end.

Notation "'let!' x := m 'in' k" := (io_bind m (fun x => k))
  (at level 10, x pattern, m at level 100, k at level 200) : bitdex_scope.
Local Open Scope bitdex_scope.

(** ** Paths *)

(** The directories below the root, and the file name. *)
Definition path : Type := list string * string.

Fixpoint rsplit_dot (s : string) : option (string * string) :=
  match s with
  | EmptyString => None
  | String c s' =>
      match rsplit_dot s' with
      | Some (before, after) => Some (String c before, after)
      | None => if Ascii.eqb c "."%char then Some (EmptyString, s') else None
      end
  end.

(** [Path::extension] and [Path::with_extension]; a leading dot starts no extension. *)
Definition extension (p : path) : option string :=
  match rsplit_dot p.2 with
  | Some (EmptyString, _) | None => None
  | Some (_, after) => Some after
  end.

Definition with_extension (p : path) (ext : string) : path :=
  match rsplit_dot p.2 with
  | Some (EmptyString, _) | None => (p.1, p.2 ++ "." ++ ext)
  | Some (before, _) => (p.1, before ++ "." ++ ext)
  end%string.

(** ** Codecs and sharding *)

Class SnapshotCodec (S : Type) : Type := {
  sc_encode : S -> list N;
  sc_decode : list N -> io_result S;
  sc_empty : S;
}.

Class OpCodec (O S : Type) : Type := {
  encode_op : O -> list N;
  decode_op : list N -> io_result O;
  apply_op : S -> O -> S;
}.

Notation files := (gmap path (list N)).

Class ShardingStrategy (K : Type) : Type := {
  shard_path : K -> path;
  list_shards : files -> list K;
}.

(** ** File format *)

(** "BDSS" *)
Definition SHARD_MAGIC : list N := [66; 68; 83; 83].
Definition SHARD_VERSION : N := 1.
Definition SHARD_HEADER_SIZE : N := 28.
Definition HEADER_OPS_COUNT_OFFSET : N := 20.
Definition DEFAULT_COMPACT_THRESHOLD : N := 100000.

Module ShardHeader.

Record t : Type := mk {
  version : N;
  ops_section_offset : N;
  snapshot_len : N;
  ops_count : N;
  flags : N;
}.

Definition encode (h : t) : list N :=
  SHARD_MAGIC ++ to_le_bytes 4 (version h) ++ to_le_bytes 8 (ops_section_offset h)
  ++ to_le_bytes 4 (snapshot_len h) ++ to_le_bytes 4 (ops_count h) ++ to_le_bytes 4 (flags h).

Definition decode (bytes : list N) : io_result t :=
  if byte_len bytes <? SHARD_HEADER_SIZE then IoErr UnexpectedEof
  else if negb (bool_decide (slice bytes 0 4 = SHARD_MAGIC)) then IoErr InvalidData
  else
    let version := from_le_bytes (slice bytes 4 8) in
    if negb (version =? SHARD_VERSION) then IoErr InvalidData
    else IoOk (mk version (from_le_bytes (slice bytes 8 16)) (from_le_bytes (slice bytes 16 20))
                 (from_le_bytes (slice bytes 20 24)) (from_le_bytes (slice bytes 24 28))).

End ShardHeader.

Section format.
Context `{CK : Checksum} {O S : Type} `{!OpCodec O S}.

Definition write_op_entry (op : O) : list N :=
  let payload := encode_op op in
  to_le_bytes 4 (byte_len payload) ++ payload ++ to_le_bytes 4 (crc32 payload).

Definition write_op_entries (ops : list O) : list N := mjoin (write_op_entry <$> ops).

(** The reading loop; [data] is what is left of the section.  A round consumes at least
    eight bytes, so the length of the data bounds the rounds.  Errors end the loop
    silently; a panic of the decoder does not. *)
Fixpoint read_entries (fuel : nat) (data : list N) (ops : list O) : io_result (list O) :=
  match fuel with
  | Datatypes.O => IoOk ops
  | Datatypes.S fuel =>
      if byte_len data <? 4 then IoOk ops
      else
        let payload_len := from_le_bytes (slice data 0 4) in
        if byte_len data <? 4 + payload_len + 4 then IoOk ops
        else
          let payload := slice data 4 (4 + payload_len) in
          let stored_crc := from_le_bytes (slice data (4 + payload_len) (4 + payload_len + 4)) in
          if negb (stored_crc =? crc32 payload) then IoOk ops
          else match decode_op payload with
               | IoOk op => read_entries fuel (drop (N.to_nat (4 + payload_len + 4)) data) (ops ++ [op])
               | IoErr _ => IoOk ops
               | IoPanic => IoPanic
               end
  end.

Definition read_op_entries (data : list N) : io_result (list O) := read_entries (length data) data [].

End format.

Definition read_shard_file_raw (data : list N) : io_result (ShardHeader.t * list N * list N) :=
  if byte_len data <? SHARD_HEADER_SIZE then IoErr UnexpectedEof
  else
    let! header := ShardHeader.decode (slice data 0 SHARD_HEADER_SIZE) in
    let snapshot_end := SHARD_HEADER_SIZE + ShardHeader.snapshot_len header in
    if byte_len data <? snapshot_end then IoErr UnexpectedEof
    else
      let snapshot_bytes := slice data SHARD_HEADER_SIZE snapshot_end in
      let ops_offset := ShardHeader.ops_section_offset header in
      let ops_bytes := if ops_offset <=? byte_len data then drop (N.to_nat ops_offset) data else [] in
      IoOk (header, snapshot_bytes, ops_bytes).

Definition shard_bytes (header : ShardHeader.t) (snapshot_bytes ops_bytes : list N) : list N :=
  ShardHeader.encode header ++ snapshot_bytes ++ ops_bytes.

(** Write [.new], sync, rename over the shard. *)
Definition write_shard_file_atomic (fs : files) (p : path) (header : ShardHeader.t) (snapshot_bytes ops_bytes : list N)
  : files :=
  let new_path := with_extension p "new" in
  let fs := <[new_path := shard_bytes header snapshot_bytes ops_bytes]> fs in
  <[p := shard_bytes header snapshot_bytes ops_bytes]> (delete new_path fs).

Definition is_valid_shard_file (fs : files) (p : path) : bool :=
  match fs !! p with Some data => SHARD_HEADER_SIZE <=? byte_len data | None => false end.

(** [File::open] and [read_exact] of the header. *)
Definition read_header_of (data : list N) : io_result ShardHeader.t :=
  if byte_len data <? SHARD_HEADER_SIZE then IoErr UnexpectedEof
  else ShardHeader.decode (slice data 0 SHARD_HEADER_SIZE).

(** [write_all] at a file position. *)
Definition write_at (data : list N) (pos : N) (bytes : list N) : list N :=
  take (N.to_nat pos) data ++ bytes ++ drop (N.to_nat pos + length bytes) data.

(** Append at the end of the file, then overwrite the count in the header. *)
Definition append_ops_to_shard_opts (fs : files) (p : path) (new_ops_bytes : list N) (additional_count : N)
  : io_result files :=
  match fs !! p with
  | None => IoErr NotFound
  | Some data =>
      let! header := read_header_of data in
      let count := wrap32 (ShardHeader.ops_count header + additional_count) in
      let data := write_at data (byte_len data) new_ops_bytes in
      IoOk (<[p := write_at data HEADER_OPS_COUNT_OFFSET (to_le_bytes 4 count)]> fs)
  end.

(** ** The store *)

Module ShardStore.

Record t : Type := mk { tree : files; compact_threshold : N }.

(** A [.new] file is promoted when its header is complete and announces a snapshot. *)
Definition new_file_is_promotable (data : list N) : bool :=
  match read_header_of data with
  | IoOk h => 0 <? ShardHeader.snapshot_len h
  | _ => false
  end.

Definition sweep_file (fs : files) (p : path) : files :=
  if bool_decide (extension p = Some "new"%string) then
    match fs !! p with
    | None => fs
    | Some data =>
        if new_file_is_promotable data then <[with_extension p "shard" := data]> (delete p fs) else delete p fs
    end
  else fs.

Definition sweep_orphan_new_files (fs : files) : files := foldl sweep_file fs (map_to_list fs).*1.

Definition new (fs : files) : t := mk (sweep_orphan_new_files fs) DEFAULT_COMPACT_THRESHOLD.

Section ops.
Context `{CK : Checksum} {K S O : Type}.
Context `{!SnapshotCodec S, !OpCodec O S, !ShardingStrategy K}.
Implicit Types (st : t) (key : K) (ops : list O).

Definition shard_exists st key : bool := bool_decide (is_Some (tree st !! shard_path key)).

(** What [read] does with the bytes of a shard. *)
Definition materialize (data : list N) : io_result S :=
  let! (header, snapshot_bytes, ops_bytes) := read_shard_file_raw data in
  let! snapshot := (if 0 <? ShardHeader.snapshot_len header then sc_decode snapshot_bytes else IoOk sc_empty) in
  if 0 <? ShardHeader.ops_count header then
    let! ops := read_op_entries (O := O) ops_bytes in
    IoOk (foldl apply_op snapshot ops)
  else IoOk snapshot.

Definition read_unlocked st key : io_result (option S) :=
  match tree st !! shard_path key with
  | None => IoOk None
  | Some data => if negb (is_valid_shard_file (tree st) (shard_path key)) then IoOk None
                 else let! s := materialize data in IoOk (Some s)
  end.

Definition read st key : io_result (option S) := read_unlocked st key.

Definition read_header_at st (p : path) : io_result (option ShardHeader.t) :=
  match tree st !! p with
  | None => IoOk None
  | Some data => let! h := read_header_of data in IoOk (Some h)
  end.

Definition read_header st key : io_result (option ShardHeader.t) := read_header_at st (shard_path key).

Definition ops_count st key : io_result (option N) :=
  match tree st !! shard_path key with
  | None => IoOk None
  | Some data => let! h := read_header_of data in IoOk (Some (ShardHeader.ops_count h))
  end.

Definition with_tree st (fs : files) : t := mk fs (compact_threshold st).

Definition append_ops_opts st key ops : io_result t :=
  match ops with
  | [] => IoOk st
  | _ =>
      let ops_buf := write_op_entries ops in
      let count := wrap32 (N.of_nat (length ops)) in
      if is_valid_shard_file (tree st) (shard_path key) then
        let! fs := append_ops_to_shard_opts (tree st) (shard_path key) ops_buf count in IoOk (with_tree st fs)
      else
        let header := ShardHeader.mk SHARD_VERSION SHARD_HEADER_SIZE 0 count 0 in
        IoOk (with_tree st (write_shard_file_atomic (tree st) (shard_path key) header [] ops_buf))
  end.

Definition append_ops st key ops : io_result t := append_ops_opts st key ops.

Definition append_op_opts st key (op : O) : io_result t :=
  let ops_buf := write_op_entry op in
  if is_valid_shard_file (tree st) (shard_path key) then
    let! fs := append_ops_to_shard_opts (tree st) (shard_path key) ops_buf 1 in IoOk (with_tree st fs)
  else
    let header := ShardHeader.mk SHARD_VERSION SHARD_HEADER_SIZE 0 1 0 in
    IoOk (with_tree st (write_shard_file_atomic (tree st) (shard_path key) header [] ops_buf)).

Definition append_op st key (op : O) : io_result t := append_op_opts st key op.

(** The header of a shard with a snapshot and no operations. *)
Definition snapshot_header (snapshot_bytes : list N) : ShardHeader.t :=
  ShardHeader.mk SHARD_VERSION (SHARD_HEADER_SIZE + byte_len snapshot_bytes) (wrap32 (byte_len snapshot_bytes)) 0 0.

Definition write_snapshot st key (snapshot : S) : t :=
  let snapshot_bytes := sc_encode snapshot in
  with_tree st (write_shard_file_atomic (tree st) (shard_path key) (snapshot_header snapshot_bytes) snapshot_bytes []).

Definition write_snapshots_batch st (entries : list (K * S)) : t :=
  foldl (fun st e => write_snapshot st e.1 e.2) st entries.

Definition should_compact st key (threshold : N) : io_result bool :=
  let! count := ops_count st key in
  IoOk (match count with Some count => threshold <? count | None => false end).

Definition needs_compaction st key : io_result bool :=
  if compact_threshold st =? 0 then IoOk false else should_compact st key (compact_threshold st).

Definition set_compact_threshold st (threshold : N) : t := mk (tree st) threshold.

Definition compact_shard st key : io_result (bool * t) :=
  let! clean := (let! h := read_header_at st (shard_path key) in
                 IoOk (match h with
                       | Some h => (0 <? ShardHeader.snapshot_len h) && (ShardHeader.ops_count h =? 0)
                       | None => false
                       end)) in
  if clean then IoOk (false, st)
  else
    let! snapshot := read_unlocked st key in
    match snapshot with
    | None => IoOk (false, st)
    | Some snapshot =>
        let snapshot_bytes := sc_encode snapshot in
        IoOk (true, with_tree st (write_shard_file_atomic (tree st) (shard_path key) (snapshot_header snapshot_bytes)
                                    snapshot_bytes []))
    end.

Definition compact_current st key : io_result t := let! r := compact_shard st key in IoOk r.2.

End ops.

End ShardStore.

(** ** Crashes *)

(** States a crash during [write_shard_file_atomic] can leave: nothing done, a [.new]
    file cut anywhere, or the finished rename. *)
Inductive write_crash (fs : files) (p : path) (header : ShardHeader.t) (snapshot_bytes ops_bytes : list N) : files -> Prop :=
  | crash_before : write_crash fs p header snapshot_bytes ops_bytes fs
  | crash_torn n : write_crash fs p header snapshot_bytes ops_bytes
      (<[with_extension p "new" := take n (shard_bytes header snapshot_bytes ops_bytes)]> fs)
  | crash_after : write_crash fs p header snapshot_bytes ops_bytes (write_shard_file_atomic fs p header snapshot_bytes ops_bytes).

(** States a crash during an append can leave, before the header is updated: any prefix
    of the new bytes is in the file. *)
Definition append_crash (fs : files) (p : path) (data new_ops_bytes : list N) (n : nat) : files :=
  <[p := data ++ take n new_ops_bytes]> fs.

(** ** Interleaved appends *)

(** Where an appender is in [append_ops_to_shard_opts]: the count it read, the position
    it seeked to. *)
Inductive append_pc : Type :=
  | AStart
  | AOpened (ops_count : N)
  | ASought (ops_count pos : N)
  | AWritten (ops_count : N)
  | ADone.

(** One system call of an appender on the shared file. *)
Definition append_step (new_ops_bytes : list N) (additional_count : N) (data : list N) (pc : append_pc)
  : io_result (list N * append_pc) :=
  match pc with
  | AStart => let! header := read_header_of data in IoOk (data, AOpened (ShardHeader.ops_count header))
  | AOpened count => IoOk (data, ASought count (byte_len data))
  | ASought count pos => IoOk (write_at data pos new_ops_bytes, AWritten count)
  | AWritten count => IoOk (write_at data HEADER_OPS_COUNT_OFFSET (to_le_bytes 4 (wrap32 (count + additional_count))), ADone)
  | ADone => IoOk (data, ADone)
  end.

(** Two appenders; [true] schedules the first. *)
Fixpoint interleave (a b : list N * N) (sched : list bool) (data : list N) (pa pb : append_pc) : io_result (list N * append_pc * append_pc) :=
  match sched with
  | [] => IoOk (data, pa, pb)
  | true :: sched => let! (data, pa) := append_step a.1 a.2 data pa in interleave a b sched data pa pb
  | false :: sched => let! (data, pb) := append_step b.1 b.2 data pb in interleave a b sched data pa pb
  end.
