(* ===== verification/ShardStoreTheorems.v ===== *)
(** * The shard store: properties

    The files, their headers and their operation logs implement a map from keys to
    values: appends apply operations, snapshots replace values, compaction and restarts
    change nothing.  A crash during an append keeps a prefix of its operations; a crash
    during a rewrite keeps the old or the new value, unless the [.new] file is cut inside
    its snapshot section, in which case the restart replaces the shard by the torn file. *)

From S2P Require Import Prelude Bytes ShardStore.
From Stdlib Require Import Ascii.
Local Open Scope bitdex_scope.

(** ** What the codecs and the sharding promise *)

Class SnapshotLaws (S : Type) `{!Equiv S, !SnapshotCodec S} : Type := {
  snap_equivalence :: Equivalence (≡@{S});
  snapshot_ok : S -> Prop;
  sc_roundtrip : forall s, snapshot_ok s -> exists s', sc_decode (sc_encode s) = IoOk s' /\ s' ≡ s;
  sc_encode_nil : forall s, snapshot_ok s -> sc_encode s = [] -> s ≡ sc_empty;
}.

Class OpLaws (O S : Type) `{!Equiv S, !OpCodec O S} : Type := {
  op_ok : O -> Prop;
  op_roundtrip : forall o, op_ok o -> decode_op (encode_op o) = IoOk o;
  apply_proper :: Proper ((≡) ==> (=) ==> (≡)) (apply_op (O := O) (S := S));
}.

Class ShardingLaws (K : Type) `{!ShardingStrategy K} : Type := {
  key_ok : K -> Prop;
  shard_path_inj : forall k1 k2, key_ok k1 -> key_ok k2 -> shard_path k1 = shard_path k2 -> k1 = k2;
  shard_path_ext : forall k, key_ok k -> extension (shard_path k) = Some "shard"%string;
}.

(** ** Paths *)

Local Arguments String.append !_ _ : simpl nomatch.

Lemma rsplit_dot_app (s ext : string) :
  rsplit_dot ext = None -> rsplit_dot (s ++ "." ++ ext)%string = Some (s, ext).
Proof. intros He. induction s as [|c s IH]; cbn; [by rewrite He|]. cbn in IH. by rewrite IH. Qed.

Lemma rsplit_dot_join (s before after : string) :
  rsplit_dot s = Some (before, after) -> s = (before ++ "." ++ after)%string /\ rsplit_dot after = None.
Proof.
  revert before. induction s as [|c s IH]; intros before; cbn; [done|].
  destruct (rsplit_dot s) as [[b a]|] eqn:E.
  - intros [= <- <-]. destruct (IH b eq_refl) as [-> ?]. done.
  - destruct (Ascii.eqb_spec c "."%char) as [->|]; [|done]. by intros [= <- <-].
Qed.

Lemma extension_with (p : path) ext :
  extension p <> None -> rsplit_dot ext = None -> extension (with_extension p ext) = Some ext.
Proof.
  unfold extension, with_extension. intros Hp He. destruct (rsplit_dot p.2) as [[b a]|]; [|done].
  destruct b as [|c b]; [done|]. cbn [snd]. by rewrite rsplit_dot_app.
Qed.

(** Changing the extension and back. *)
Lemma with_extension_back (p : path) e1 e2 :
  extension p = Some e1 -> rsplit_dot e2 = None -> with_extension (with_extension p e2) e1 = p.
Proof.
  destruct p as [dir name]. unfold extension, with_extension. cbn [fst snd]. intros Hp He.
  destruct (rsplit_dot name) as [[b a]|] eqn:E; [|done]. destruct b as [|c b]; [done|]. injection Hp as <-.
  apply rsplit_dot_join in E as [-> ?]. cbn [snd]. rewrite rsplit_dot_app by done. cbn. done.
Qed.

(** ** Headers *)

Definition header_ok (h : ShardHeader.t) : Prop :=
  ShardHeader.version h = SHARD_VERSION /\ ShardHeader.ops_section_offset h < 18446744073709551616
  /\ ShardHeader.snapshot_len h < 4294967296 /\ ShardHeader.ops_count h < 4294967296 /\ ShardHeader.flags h < 4294967296.

Lemma byte_len_header h : byte_len (ShardHeader.encode h) = 28.
Proof. unfold ShardHeader.encode, SHARD_MAGIC. autorewrite with bitdex. done. Qed.

Lemma header_prefix h rest : slice (ShardHeader.encode h ++ rest) 0 SHARD_HEADER_SIZE = ShardHeader.encode h.
Proof. apply slice_here, byte_len_header. Qed.

Lemma header_roundtrip h : header_ok h -> ShardHeader.decode (ShardHeader.encode h) = IoOk h.
Proof.
  intros (Hv & Ho & Hs & Hc & Hf). unfold ShardHeader.decode. rewrite byte_len_header. cbn [N.ltb N.compare].
  unfold ShardHeader.encode. rewrite slice_here by done. rewrite bool_decide_true by done. cbn [negb].
  rewrite (slice_skip SHARD_MAGIC) by done. rewrite (slice_here (to_le_bytes 4 _)) by apply byte_len_le_bytes.
  rewrite from_to_le_bytes_small by (rewrite Hv; done). rewrite Hv at 1. cbn [N.eqb negb SHARD_VERSION Pos.eqb].
  destruct h as [v o s c f]. cbn [ShardHeader.version ShardHeader.ops_section_offset ShardHeader.snapshot_len ShardHeader.ops_count ShardHeader.flags] in *.
  do 2 f_equal; rewrite ?(slice_skip SHARD_MAGIC) by done;
    repeat (rewrite (slice_skip (to_le_bytes _ _)) by (rewrite byte_len_le_bytes; done));
    rewrite ?byte_len_le_bytes; cbn [N.of_nat Pos.of_succ_nat Pos.succ];
    first [rewrite (slice_here (to_le_bytes _ _)) by apply byte_len_le_bytes | rewrite (slice_all (to_le_bytes _ _)) by apply byte_len_le_bytes];
    by apply from_to_le_bytes_small.
Qed.

(** ** Operation entries *)

Section entries.
Context `{CK : Checksum} {O S : Type} `{!Equiv S, !OpCodec O S, !OpLaws O S}.
Implicit Types (ops : list O).

Definition op_fits (o : O) : Prop := op_ok (S := S) o /\ byte_len (encode_op o) < 4294967296.

Lemma byte_len_op_entry o : byte_len (write_op_entry (S := S) o) = 8 + byte_len (encode_op (O := O) o).
Proof. unfold write_op_entry. autorewrite with bitdex. lia. Qed.

Lemma write_op_entries_cons o ops : write_op_entries (S := S) (o :: ops) = write_op_entry o ++ write_op_entries ops.
Proof. done. Qed.

Lemma write_op_entries_app ops1 ops2 : write_op_entries (S := S) (ops1 ++ ops2) = write_op_entries ops1 ++ write_op_entries ops2.
Proof. induction ops1 as [|o ops1 IH]; [done|]. cbn [app]. by rewrite !write_op_entries_cons, IH, app_assoc. Qed.

(** A complete entry is read back, whatever follows. *)
Lemma read_entry fuel o rest acc : op_fits o ->
  read_entries (S := S) (Datatypes.S fuel) (write_op_entry o ++ rest) acc = read_entries (S := S) fuel rest (acc ++ [o]).
Proof.
  intros [Hok Hfit]. cbn [read_entries]. rewrite byte_len_app, byte_len_op_entry.
  destruct (N.ltb_spec (8 + byte_len (encode_op o) + byte_len rest) 4); [lia|].
  unfold write_op_entry. rewrite <- !app_assoc.
  rewrite (slice_here (to_le_bytes 4 _)) by apply byte_len_le_bytes. rewrite from_to_le_bytes_small by done.
  destruct (N.ltb_spec (8 + byte_len (encode_op o) + byte_len rest) (4 + byte_len (encode_op o) + 4)); [lia|].
  set (file := to_le_bytes 4 (byte_len (encode_op o)) ++ encode_op o ++ to_le_bytes 4 (crc32 (encode_op o)) ++ rest).
  assert (slice file 4 (4 + byte_len (encode_op o)) = encode_op o) as ->.
  { unfold file. rewrite slice_skip by (rewrite byte_len_le_bytes; lia). rewrite byte_len_le_bytes. apply slice_here. lia. }
  assert (slice file (4 + byte_len (encode_op o)) (4 + byte_len (encode_op o) + 4) = to_le_bytes 4 (crc32 (encode_op o))) as ->.
  { unfold file. rewrite slice_skip by (rewrite byte_len_le_bytes; lia). rewrite byte_len_le_bytes, slice_skip by lia.
    replace (_ - _ - _) with 0 by lia. apply slice_here. rewrite byte_len_le_bytes. lia. }
  rewrite from_to_le_bytes_small by apply crc32_bound. subst file.
  rewrite N.eqb_refl. cbn [negb]. rewrite (op_roundtrip (S := S)) by done.
  f_equal. rewrite drop_app_ge by (rewrite length_to_le_bytes; lia). rewrite length_to_le_bytes.
  unfold byte_len. rewrite drop_app_ge by lia. rewrite drop_app_ge by (rewrite length_to_le_bytes; lia).
  rewrite length_to_le_bytes. replace (_ - _ - _ - _)%nat with 0%nat by lia. apply drop_0.
Qed.

Lemma read_entries_app ops : forall fuel rest acc, Forall op_fits ops ->
  read_entries (S := S) (length ops + fuel) (write_op_entries (S := S) ops ++ rest) acc = read_entries (S := S) fuel rest (acc ++ ops).
Proof.
  induction ops as [|o ops IH]; intros fuel rest acc Hok; cbn [length Nat.add]; [by rewrite app_nil_r|].
  apply Forall_cons in Hok as [Ho Hok]. rewrite write_op_entries_cons, <- app_assoc, read_entry by done.
  rewrite IH by done. by rewrite <- app_assoc.
Qed.

Lemma entries_length ops : (8 * length ops <= length (write_op_entries (S := S) ops))%nat.
Proof.
  induction ops as [|o ops IH]; [cbn; lia|]. rewrite write_op_entries_cons, length_app. cbn [length].
  pose proof (byte_len_op_entry o) as H. unfold byte_len in H. lia.
Qed.

(** A cut entry ends the loop. *)
Lemma read_entries_torn fuel o n acc : op_fits o -> (n < length (write_op_entry (S := S) o))%nat ->
  read_entries (S := S) fuel (take n (write_op_entry (S := S) o)) acc = IoOk acc.
Proof.
  intros [Hok Hfit] Hn. destruct fuel as [|fuel]; [done|]. cbn [read_entries].
  pose proof (byte_len_op_entry o) as Hl. unfold byte_len in Hl.
  assert (byte_len (take n (write_op_entry (S := S) o)) = N.of_nat n) as Hb by (unfold byte_len; rewrite length_take; lia).
  rewrite Hb. destruct (N.ltb_spec (N.of_nat n) 4) as [|H4]; [done|].
  rewrite slice_take by lia. unfold write_op_entry at 1. rewrite slice_here by apply byte_len_le_bytes.
  rewrite from_to_le_bytes_small by done. destruct (N.ltb_spec (N.of_nat n) (4 + byte_len (encode_op o) + 4)) as [|Hge]; [done|].
  unfold byte_len in Hge. lia.
Qed.

Lemma read_op_entries_all ops : Forall op_fits ops -> read_op_entries (S := S) (write_op_entries (S := S) ops) = IoOk ops.
Proof.
  intros Hok. unfold read_op_entries. pose proof (entries_length ops) as Hl.
  replace (length (write_op_entries ops)) with (length ops + (length (write_op_entries (S := S) ops) - length ops))%nat by lia.
  rewrite <- (app_nil_r (write_op_entries ops)) at 2. rewrite read_entries_app by done.
  by destruct (_ - _)%nat.
Qed.

(** Whatever a cut leaves, the loop reads a prefix of the operations. *)
Lemma read_op_entries_cut ops1 ops2 n : Forall op_fits ops1 -> Forall op_fits ops2 ->
  exists j, read_op_entries (S := S) (write_op_entries (S := S) ops1 ++ take n (write_op_entries (S := S) ops2)) = IoOk (ops1 ++ take j ops2).
Proof.
  intros H1 H2. revert ops1 n H1. induction H2 as [|o ops2 Ho H2 IH]; intros ops1 n H1.
  { exists 0%nat. cbn [write_op_entries fmap list_fmap mjoin list_join]. rewrite take_nil, !app_nil_r. by apply read_op_entries_all. }
  rewrite write_op_entries_cons. destruct (decide (length (write_op_entry (S := S) o) <= n)%nat) as [Hle|Hlt].
  - rewrite take_app_ge by done. rewrite app_assoc.
    assert (write_op_entries (S := S) ops1 ++ write_op_entry o = write_op_entries (ops1 ++ [o])) as ->.
    { rewrite write_op_entries_app. f_equal. unfold write_op_entries. cbn. by rewrite app_nil_r. }
    destruct (IH (ops1 ++ [o]) (n - length (write_op_entry (S := S) o))%nat) as [j Hj]; [by apply Forall_app; split; [|constructor]|].
    exists (Datatypes.S j). rewrite Hj. cbn [take]. by rewrite <- app_assoc.
  - rewrite take_app_le by lia. exists 0%nat. cbn [take]. rewrite app_nil_r. unfold read_op_entries.
    pose proof (entries_length ops1) as Hl. rewrite length_app.
    replace (length (write_op_entries (S := S) ops1) + length (take n (write_op_entry (S := S) o)))%nat
      with (length ops1 + (length (write_op_entries (S := S) ops1) - length ops1 + length (take n (write_op_entry (S := S) o))))%nat by lia.
    rewrite read_entries_app by done. apply read_entries_torn; [done|lia].
Qed.

End entries.

(** ** Shard files and the values they hold *)

Section store.
Context `{CK : Checksum} {K S O : Type} `{!EqDecision K}.
Context `{!Equiv S, !SnapshotCodec S, !OpCodec O S, !ShardingStrategy K}.
Context `{!SnapshotLaws S, !OpLaws O S, !ShardingLaws K}.
Implicit Types (st : ShardStore.t) (k : K) (ops : list O) (s : S).

Notation op_fits := (op_fits (O := O) (S := S)).
Notation write_op_entries := (write_op_entries (O := O) (S := S)).
Notation materialize := (ShardStore.materialize (S := S) (O := O)).

Definition shard_header (snapb : list N) ops : ShardHeader.t :=
  ShardHeader.mk SHARD_VERSION (SHARD_HEADER_SIZE + byte_len snapb) (byte_len snapb) (N.of_nat (length ops)) 0.

Definition shard_file (snapb : list N) ops : list N := shard_bytes (shard_header snapb ops) snapb (write_op_entries ops).

(** The value of the snapshot section. *)
Definition base_of (snapb : list N) s : Prop := match snapb with [] => s = sc_empty | _ => sc_decode snapb = IoOk s end.

Record shard_holds (data snapb : list N) ops (s0 s : S) : Prop := {
  sh_data : data = shard_file snapb ops;
  sh_len : byte_len snapb < 4294967296;
  sh_count : N.of_nat (length ops) < 4294967296;
  sh_fits : Forall op_fits ops;
  sh_base : base_of snapb s0;
  sh_value : s ≡ foldl apply_op s0 ops;
}.

Lemma header_ok_shard snapb ops : byte_len snapb < 4294967296 -> N.of_nat (length ops) < 4294967296 -> header_ok (shard_header snapb ops).
Proof. intros H1 H2. unfold header_ok, shard_header, SHARD_HEADER_SIZE. cbn. split_and!; try done; lia. Qed.

(** Reading the raw file splits it, whatever bytes follow the known operations. *)
Lemma read_raw_shard snapb ops tail : byte_len snapb < 4294967296 -> N.of_nat (length ops) < 4294967296 ->
  read_shard_file_raw (shard_file snapb ops ++ tail) = IoOk (shard_header snapb ops, snapb, write_op_entries ops ++ tail).
Proof.
  intros H1 H2. unfold read_shard_file_raw, shard_file, shard_bytes. rewrite <- !app_assoc, header_prefix.
  rewrite !byte_len_app, byte_len_header. unfold SHARD_HEADER_SIZE at 1. destruct (N.ltb_spec (28 + (byte_len snapb + (byte_len (write_op_entries ops) + byte_len tail))) 28); [lia|].
  rewrite header_roundtrip by (by apply header_ok_shard). cbn [io_bind shard_header ShardHeader.snapshot_len ShardHeader.ops_section_offset].
  unfold SHARD_HEADER_SIZE. destruct (N.ltb_spec (28 + (byte_len snapb + (byte_len (write_op_entries ops) + byte_len tail))) (28 + byte_len snapb)); [lia|].
  destruct (N.leb_spec (28 + byte_len snapb) (28 + (byte_len snapb + (byte_len (write_op_entries ops) + byte_len tail)))); [|lia].
  rewrite slice_skip by (rewrite byte_len_header; lia). rewrite byte_len_header. rewrite slice_here by lia.
  rewrite (app_assoc (ShardHeader.encode _) snapb). do 2 f_equal.
  replace (28 + byte_len snapb) with (byte_len (ShardHeader.encode (shard_header snapb ops) ++ snapb)) by (rewrite byte_len_app, byte_len_header; lia).
  apply drop_byte_len.
Qed.

Lemma materialize_base snapb s0 : base_of snapb s0 ->
  (if 0 <? byte_len snapb then sc_decode snapb else IoOk sc_empty) = IoOk s0.
Proof. unfold base_of, byte_len. destruct snapb as [|b snapb]; [by intros ->|]. by intros ->. Qed.

Lemma materialize_tail snapb ops s0 s tail : shard_holds (shard_file snapb ops) snapb ops s0 s ->
  materialize (shard_file snapb ops ++ tail)
  = match ops with
    | [] => IoOk s0
    | _ => let! l := read_op_entries (S := S) (write_op_entries ops ++ tail) in IoOk (foldl apply_op s0 l)
    end.
Proof.
  intros H. unfold ShardStore.materialize. rewrite read_raw_shard by apply H. cbn [io_bind shard_header ShardHeader.snapshot_len ShardHeader.ops_count].
  rewrite (materialize_base _ s0) by apply H. cbn [io_bind]. by destruct ops.
Qed.

Lemma materialize_shard data snapb ops s0 s : shard_holds data snapb ops s0 s ->
  exists s', materialize data = IoOk s' /\ s' ≡ s.
Proof.
  intros H. pose proof (sh_data _ _ _ _ _ H) as ->. rewrite <- (app_nil_r (shard_file snapb ops)), (materialize_tail _ _ s0 s) by done.
  rewrite app_nil_r. exists (foldl apply_op s0 ops). split; [|symmetry; apply H].
  destruct ops as [|o ops]; [done|]. by rewrite read_op_entries_all by apply H.
Qed.

Lemma read_header_shard snapb ops tail : byte_len snapb < 4294967296 -> N.of_nat (length ops) < 4294967296 ->
  read_header_of (shard_file snapb ops ++ tail) = IoOk (shard_header snapb ops).
Proof.
  intros H1 H2. unfold read_header_of, shard_file, shard_bytes. rewrite <- !app_assoc, header_prefix, byte_len_app, byte_len_header.
  unfold SHARD_HEADER_SIZE. destruct (N.ltb_spec (28 + byte_len (snapb ++ write_op_entries ops ++ tail)) 28); [lia|].
  by apply header_roundtrip, header_ok_shard.
Qed.

Lemma valid_shard fs p snapb ops tail : fs !! p = Some (shard_file snapb ops ++ tail) -> is_valid_shard_file fs p = true.
Proof.
  intros H. unfold is_valid_shard_file. rewrite H. unfold shard_file, shard_bytes. rewrite <- app_assoc, byte_len_app, byte_len_header.
  apply N.leb_le. unfold SHARD_HEADER_SIZE. lia.
Qed.

Lemma invalid_absent fs p : (match fs !! p with Some d => byte_len d < 28 | None => True end) -> is_valid_shard_file fs p = false.
Proof. unfold is_valid_shard_file. destruct (fs !! p) as [d|]; [|done]. intros H. apply N.leb_gt. exact H. Qed.

Lemma shard_file_len snapb ops : byte_len (shard_file snapb ops) = 28 + byte_len snapb + byte_len (write_op_entries ops).
Proof. unfold shard_file, shard_bytes. rewrite !byte_len_app, byte_len_header. lia. Qed.

Lemma drop_shard_ops snapb ops : drop (N.to_nat (28 + byte_len snapb)) (shard_file snapb ops) = write_op_entries ops.
Proof.
  unfold shard_file, shard_bytes. set (hb := ShardHeader.encode _). rewrite app_assoc.
  assert (length (hb ++ snapb) = N.to_nat (28 + byte_len snapb)) as <-; [|apply drop_app_length].
  pose proof (byte_len_header (shard_header snapb ops)) as H. fold hb in H. unfold byte_len in *. rewrite length_app. lia.
Qed.

(** Decoding the header from the whole file. *)
Lemma header_decode_shard snapb ops : byte_len snapb < 4294967296 -> N.of_nat (length ops) < 4294967296 ->
  ShardHeader.decode (shard_file snapb ops) = IoOk (shard_header snapb ops).
Proof.
  intros H1 H2. rewrite <- (header_roundtrip (shard_header snapb ops)) by (by apply header_ok_shard).
  unfold shard_file, shard_bytes, ShardHeader.decode, SHARD_HEADER_SIZE. rewrite byte_len_app, !byte_len_header.
  match goal with |- context [28 + ?n <? 28] => destruct (N.ltb_spec (28 + n) 28); [lia|] end.
  by rewrite !slice_app_l by (rewrite ?byte_len_header; lia).
Qed.

(** *** Appending *)

Lemma write_at_end data bytes : write_at data (byte_len data) bytes = data ++ bytes.
Proof. unfold write_at, byte_len. rewrite Nat2N.id, take_ge, drop_ge by lia. by rewrite app_nil_r. Qed.

(** Overwriting the count in the header. *)
Lemma patch_count snapb (ops1 ops2 : list O) tail :
  write_at (shard_bytes (shard_header snapb ops1) snapb tail) HEADER_OPS_COUNT_OFFSET (to_le_bytes 4 (N.of_nat (length ops2)))
  = shard_bytes (shard_header snapb ops2) snapb tail.
Proof.
  unfold shard_bytes, ShardHeader.encode.
  cbn [shard_header ShardHeader.version ShardHeader.ops_section_offset ShardHeader.snapshot_len ShardHeader.ops_count ShardHeader.flags].
  set (h1 := SHARD_MAGIC ++ to_le_bytes 4 SHARD_VERSION ++ to_le_bytes 8 (SHARD_HEADER_SIZE + byte_len snapb) ++ to_le_bytes 4 (byte_len snapb)).
  assert (forall x, SHARD_MAGIC ++ to_le_bytes 4 SHARD_VERSION ++ to_le_bytes 8 (SHARD_HEADER_SIZE + byte_len snapb) ++ to_le_bytes 4 (byte_len snapb) ++ x = h1 ++ x) as E
    by (intros x; unfold h1; by rewrite <- !app_assoc).
  rewrite !E, <- !app_assoc. unfold write_at. replace (N.to_nat HEADER_OPS_COUNT_OFFSET) with (length h1) by done. by rewrite take_app_length.
Qed.

Lemma wrap_count ops new : N.of_nat (length (ops ++ new)) < 4294967296 ->
  wrap32 (N.of_nat (length ops) + wrap32 (N.of_nat (length new))) = N.of_nat (length (ops ++ new)).
Proof. intros Hc. rewrite length_app in *. unfold wrap32. rewrite (N.mod_small (N.of_nat (length new))) by lia. rewrite N.mod_small; lia. Qed.

(** Patching the count after the entries are written. *)
Lemma write_count snapb ops new : N.of_nat (length (ops ++ new)) < 4294967296 ->
  write_at (shard_file snapb ops ++ write_op_entries new) HEADER_OPS_COUNT_OFFSET
    (to_le_bytes 4 (wrap32 (N.of_nat (length ops) + wrap32 (N.of_nat (length new)))))
  = shard_file snapb (ops ++ new).
Proof.
  intros Hc. rewrite wrap_count by done. unfold shard_file at 2. rewrite <- (patch_count snapb ops). f_equal.
  unfold shard_file, shard_bytes. by rewrite write_op_entries_app, <- !app_assoc.
Qed.

Lemma append_shard fs p snapb ops new : fs !! p = Some (shard_file snapb ops) ->
  byte_len snapb < 4294967296 -> N.of_nat (length (ops ++ new)) < 4294967296 ->
  append_ops_to_shard_opts fs p (write_op_entries new) (wrap32 (N.of_nat (length new))) = IoOk (<[p := shard_file snapb (ops ++ new)]> fs).
Proof.
  intros Hp Hs Hc. unfold append_ops_to_shard_opts. rewrite Hp. pose proof Hc as Hc'. rewrite length_app in Hc'.
  rewrite <- (app_nil_r (shard_file snapb ops)) at 1. rewrite read_header_shard by lia. cbn [io_bind shard_header ShardHeader.ops_count].
  by rewrite write_at_end, write_count.
Qed.

(** A shard created by its first operations. *)
Lemma cold_shard fs p ops : N.of_nat (length ops) < 4294967296 ->
  write_shard_file_atomic fs p (ShardHeader.mk SHARD_VERSION SHARD_HEADER_SIZE 0 (wrap32 (N.of_nat (length ops))) 0) [] (write_op_entries ops)
  = <[p := shard_file [] ops]> (delete (with_extension p "new") fs).
Proof. intros H. unfold write_shard_file_atomic, wrap32. rewrite N.mod_small by done. by rewrite delete_insert_eq. Qed.

Lemma snapshot_shard fs p bytes : byte_len bytes < 4294967296 ->
  write_shard_file_atomic fs p (ShardStore.snapshot_header bytes) bytes [] = <[p := shard_file bytes []]> (delete (with_extension p "new") fs).
Proof.
  intros H. unfold write_shard_file_atomic, ShardStore.snapshot_header, wrap32. rewrite N.mod_small by done. by rewrite delete_insert_eq.
Qed.

(** ** The abstract store *)

(** Key to value, and how many operations its log holds. *)
Notation spec := (K -> option (S * N)).
Implicit Types (m : spec).

Definition supdate m k (v : S * N) : spec := fun k' => if decide (k' = k) then Some v else m k'.

Inductive store_op : Type :=
  | SAppend (k : K) (ops : list O)
  | SSnapshot (k : K) (s : S)
  | SCompact (k : K)
  | SReopen.

Definition exec_store st (o : store_op) : io_result ShardStore.t :=
  match o with
  | SAppend k ops => ShardStore.append_ops (S := S) st k ops
  | SSnapshot k s => IoOk (ShardStore.write_snapshot st k s)
  | SCompact k => ShardStore.compact_current (S := S) (O := O) st k
  | SReopen => IoOk (ShardStore.new (ShardStore.tree st))
  end.

Definition pending m k : N := match m k with Some (_, n) => n | None => 0 end.
Definition value_of m k : S := match m k with Some (s, _) => s | None => sc_empty end.

Definition spec_step m (o : store_op) : spec :=
  match o with
  | SAppend k [] => m
  | SAppend k ops => supdate m k (foldl apply_op (value_of m k) ops, pending m k + N.of_nat (length ops))
  | SSnapshot k s => supdate m k (s, 0)
  | SCompact k => match m k with Some (s, _) => supdate m k (s, 0) | None => m end
  | SReopen => m
  end.

Definition snapshot_fits s : Prop := snapshot_ok s /\ byte_len (sc_encode s) < 4294967296.

(** The sizes fit the 32-bit fields of the format; compaction is asked for shards that
    were written ([compact_unwritten] says what it does to others). *)
Definition store_op_fits m (o : store_op) : Prop :=
  match o with
  | SAppend k ops => key_ok k /\ Forall op_fits ops /\ pending m k + N.of_nat (length ops) < 4294967296
  | SSnapshot k s => key_ok k /\ snapshot_fits s
  | SCompact k => key_ok k /\ exists s n, m k = Some (s, n) /\ forall s', s' ≡ s -> snapshot_fits s'
  | SReopen => True
  end.

Definition key_rep (fs : files) k (v : option (S * N)) : Prop :=
  match v with
  | None => match fs !! shard_path k with Some d => byte_len d < 28 | None => True end
  | Some (s, n) => exists data snapb ops s0, fs !! shard_path k = Some data /\ n = N.of_nat (length ops) /\ shard_holds data snapb ops s0 s
  end.

Record store_rep st m : Prop := {
  sr_keys : forall k, key_ok k -> key_rep (ShardStore.tree st) k (m k);
  sr_clean : forall p, extension p = Some "new"%string -> ShardStore.tree st !! p = None;
}.

Lemma shard_not_new k : key_ok k -> extension (with_extension (shard_path k) "new") = Some "new"%string.
Proof. intros Hk. apply extension_with; [|done]. by rewrite shard_path_ext. Qed.

(** Replacing one shard file, as every writer does. *)
Lemma replace_rep st m k data snapb ops s0 s n : store_rep st m -> key_ok k -> n = N.of_nat (length ops) ->
  shard_holds data snapb ops s0 s ->
  store_rep (ShardStore.with_tree st (<[shard_path k := data]> (ShardStore.tree st))) (supdate m k (s, n)).
Proof.
  intros Hr Hk Hn Hh. split; cbn [ShardStore.tree ShardStore.with_tree].
  - intros k' Hk'. unfold supdate. destruct (decide (k' = k)) as [->|Hne].
    + cbn. exists data, snapb, ops, s0. by rewrite lookup_insert_eq.
    + unfold key_rep. rewrite lookup_insert_ne by (intros E; by apply shard_path_inj in E). by apply (sr_keys _ _ Hr).
  - intros p Hp. rewrite lookup_insert_ne; [by apply Hr|]. intros <-. rewrite shard_path_ext in Hp by done. done.
Qed.

Lemma delete_new st m k : store_rep st m -> key_ok k ->
  delete (with_extension (shard_path k) "new") (ShardStore.tree st) = ShardStore.tree st.
Proof. intros Hr Hk. apply delete_id, Hr. by apply shard_not_new. Qed.

Lemma snapshot_holds s : snapshot_fits s -> exists s0, shard_holds (shard_file (sc_encode s) []) (sc_encode s) [] s0 s.
Proof.
  intros [Hok Hlen]. destruct (sc_roundtrip s Hok) as (s' & Hd & He). destruct (sc_encode s) as [|b bytes] eqn:E.
  - exists sc_empty. split; try done. by apply sc_encode_nil.
  - exists s'. by split.
Qed.

Lemma snapshot_write_rep st m k s : store_rep st m -> key_ok k -> snapshot_fits s ->
  store_rep (ShardStore.write_snapshot st k s) (supdate m k (s, 0)).
Proof.
  intros Hr Hk Hs. unfold ShardStore.write_snapshot. rewrite snapshot_shard by apply Hs. rewrite (delete_new st m) by done.
  destruct (snapshot_holds s Hs) as [s0 Hh]. by apply (replace_rep st m k _ (sc_encode s) [] s0).
Qed.

Lemma foldl_apply_proper ops : Proper ((≡) ==> (≡)) (fun s => foldl (apply_op (O := O)) s ops).
Proof. induction ops as [|o ops IH]; intros s s' Hs; cbn; [done|]. apply IH. by apply apply_proper. Qed.

Lemma append_rep st m k ops : store_rep st m -> store_op_fits m (SAppend k ops) ->
  exists st', ShardStore.append_ops (S := S) st k ops = IoOk st' /\ store_rep st' (spec_step m (SAppend k ops)).
Proof.
  intros Hr (Hk & Hfit & Hcnt). unfold ShardStore.append_ops, ShardStore.append_ops_opts. destruct ops as [|o ops'] eqn:Eops; [by exists st|].
  rewrite <- Eops in *. assert (spec_step m (SAppend k ops) = supdate m k (foldl apply_op (value_of m k) ops, pending m k + N.of_nat (length ops))) as -> by (by subst).
  clear Eops. pose proof (sr_keys _ _ Hr k Hk) as Hrep. unfold pending, value_of in *. destruct (m k) as [[s n]|]; cbn [key_rep] in Hrep.
  - destruct Hrep as (data & snapb & old & s0 & Hd & -> & Hh). pose proof (sh_data _ _ _ _ _ Hh) as ->.
    rewrite (valid_shard _ _ snapb old []) by (by rewrite app_nil_r).
    rewrite (append_shard _ _ snapb old) by (rewrite ?length_app; first [done|apply Hh|lia]). cbn [io_bind]. eexists. split; [done|].
    eapply (replace_rep st m k _ snapb (old ++ ops) s0); [done|done|by rewrite length_app, Nat2N.inj_add|].
    split; [done|apply Hh|rewrite length_app; lia|by apply Forall_app; split; [apply Hh|]|apply Hh|].
    rewrite foldl_app. apply foldl_apply_proper, Hh.
  - rewrite invalid_absent by done. rewrite cold_shard by lia. rewrite (delete_new st m) by done. eexists. split; [done|].
    eapply (replace_rep st m k _ [] ops sc_empty); [done|done|lia|]. by split; try done; lia.
Qed.

(** Reading one key, whatever the rest of the store holds. *)
Lemma read_key st k v : key_rep (ShardStore.tree st) k v ->
  match v with
  | Some (s, n) => (exists s', ShardStore.read (S := S) (O := O) st k = IoOk (Some s') /\ s' ≡ s) /\ ShardStore.ops_count st k = IoOk (Some n)
  | None => ShardStore.read (S := S) (O := O) st k = IoOk None
  end.
Proof.
  intros Hrep. destruct v as [[s n]|]; cbn [key_rep] in Hrep.
  - destruct Hrep as (data & snapb & ops & s0 & Hd & -> & Hh). unfold ShardStore.read, ShardStore.read_unlocked, ShardStore.ops_count. rewrite Hd.
    pose proof (materialize_shard _ _ _ _ _ Hh) as (s' & Hm & He). pose proof (sh_data _ _ _ _ _ Hh) as ->.
    rewrite (valid_shard _ _ snapb ops []) by (by rewrite app_nil_r). cbn [negb]. rewrite Hm. split; [by eexists|].
    rewrite <- (app_nil_r (shard_file snapb ops)), read_header_shard by apply Hh. done.
  - unfold ShardStore.read, ShardStore.read_unlocked. pose proof (invalid_absent _ _ Hrep) as Hv.
    destruct (_ !! _); [|done]. by rewrite Hv.
Qed.

Lemma read_rep st m k : store_rep st m -> key_ok k ->
  match m k with
  | Some (s, n) => (exists s', ShardStore.read (S := S) (O := O) st k = IoOk (Some s') /\ s' ≡ s) /\ ShardStore.ops_count st k = IoOk (Some n)
  | None => ShardStore.read (S := S) (O := O) st k = IoOk None
  end.
Proof. intros Hr Hk. apply read_key. by apply (sr_keys _ _ Hr). Qed.

Lemma compact_rep st m k : store_rep st m -> store_op_fits m (SCompact k) ->
  exists st', ShardStore.compact_current (S := S) (O := O) st k = IoOk st' /\ store_rep st' (spec_step m (SCompact k)).
Proof.
  intros Hr (Hk & s & n & Hm & Hfit). cbn [spec_step]. rewrite Hm. pose proof (sr_keys _ _ Hr k Hk) as Hrep. rewrite Hm in Hrep.
  destruct Hrep as (data & snapb & ops & s0 & Hd & -> & Hh). pose proof (read_rep st m k Hr Hk) as Hread. rewrite Hm in Hread.
  destruct Hread as [(s' & Hread & He) _]. unfold ShardStore.compact_current, ShardStore.compact_shard, ShardStore.read_header_at.
  unfold ShardStore.read in Hread. rewrite Hread. rewrite Hd. pose proof (sh_data _ _ _ _ _ Hh) as ->.
  rewrite <- (app_nil_r (shard_file snapb ops)), read_header_shard by apply Hh. cbn [io_bind shard_header ShardHeader.snapshot_len ShardHeader.ops_count].
  destruct ((0 <? byte_len snapb) && (N.of_nat (length ops) =? 0)) eqn:Eclean.
  - bool_to_prop. destruct ops; [|done]. exists st. split; [done|]. split; [|apply Hr]. intros k' Hk'. unfold supdate.
    destruct (decide (k' = k)) as [->|]; [|by apply Hr]. cbn. by exists (shard_file snapb []), snapb, [], s0.
  - cbn [io_bind snd]. destruct (Hfit s' He) as [Hok Hlen]. rewrite snapshot_shard by done. rewrite (delete_new st m) by done. eexists. split; [done|].
    destruct (snapshot_holds s' (conj Hok Hlen)) as [s1 Hh']. eapply (replace_rep st m k _ (sc_encode s') [] s1); [done..|].
    destruct Hh'. split; try done. by rewrite <- He.
Qed.

(** Compacting a key that was never written: nothing without a file, an error when a
    placeholder too short for a header exists. *)
Lemma compact_unwritten st m k : store_rep st m -> key_ok k -> m k = None ->
  ShardStore.compact_shard (S := S) (O := O) st k
  = match ShardStore.tree st !! shard_path k with Some _ => IoErr UnexpectedEof | None => IoOk (false, st) end.
Proof.
  intros Hr Hk Hm. pose proof (sr_keys _ _ Hr k Hk) as Hrep. rewrite Hm in Hrep. cbn [key_rep] in Hrep.
  unfold ShardStore.compact_shard, ShardStore.read_header_at, ShardStore.read_unlocked. destruct (_ !! _) as [d|]; [|done].
  unfold read_header_of. destruct (N.ltb_spec (byte_len d) SHARD_HEADER_SIZE) as [_|Hge]; [done|]. unfold SHARD_HEADER_SIZE in Hge. lia.
Qed.

(** ** Restarts *)

Definition no_new (fs : files) : Prop := forall p, extension p = Some "new"%string -> fs !! p = None.

Lemma sweep_file_clean fs p : no_new fs -> ShardStore.sweep_file fs p = fs.
Proof. intros H. unfold ShardStore.sweep_file. case_bool_decide as Hp; [|done]. by rewrite (H p Hp). Qed.

Lemma sweep_clean fs : no_new fs -> ShardStore.sweep_orphan_new_files fs = fs.
Proof.
  intros H. unfold ShardStore.sweep_orphan_new_files. generalize (map_to_list fs).*1 as l. induction l as [|p l IH]; [done|].
  cbn [foldl]. by rewrite sweep_file_clean.
Qed.

(** What a restart makes of one orphan. *)
Definition swept (fs : files) (q : path) (d : list N) : files :=
  if ShardStore.new_file_is_promotable d then <[with_extension q "shard" := d]> fs else fs.

Lemma sweep_orphan fs q d : no_new fs -> extension q = Some "new"%string ->
  ShardStore.sweep_orphan_new_files (<[q := d]> fs) = swept fs q d.
Proof.
  intros Hfs Hq. assert (no_new (swept fs q d)) as Hs.
  { intros p Hp. unfold swept. destruct (ShardStore.new_file_is_promotable d); [|by apply Hfs].
    rewrite lookup_insert_ne; [by apply Hfs|]. intros <-. rewrite extension_with in Hp; [done|by rewrite Hq|done]. }
  unfold ShardStore.sweep_orphan_new_files.
  assert (q ∈ (map_to_list (<[q := d]> fs)).*1) as Hin.
  { apply list_elem_of_fmap. exists (q, d). split; [done|]. apply elem_of_map_to_list, lookup_insert_eq. }
  revert Hin. generalize (map_to_list (<[q := d]> fs)).*1 as l. induction l as [|p l IH]; [by intros ?%not_elem_of_nil|].
  intros Hin. cbn [foldl]. destruct (decide (p = q)) as [->|Hne].
  - assert (ShardStore.sweep_file (<[q := d]> fs) q = swept fs q d) as ->.
    { unfold ShardStore.sweep_file, swept. rewrite bool_decide_true by done. rewrite lookup_insert_eq, delete_insert_id by (by apply Hfs). done. }
    clear -Hs. induction l as [|p l IH]; [done|]. cbn [foldl]. by rewrite sweep_file_clean.
  - assert (ShardStore.sweep_file (<[q := d]> fs) p = <[q := d]> fs) as ->.
    { unfold ShardStore.sweep_file. case_bool_decide as Hp; [|done]. rewrite lookup_insert_ne by done. by rewrite (Hfs p Hp). }
    apply IH. apply elem_of_cons in Hin as [->|]; done.
Qed.

Lemma reopen_rep st m : store_rep st m -> store_rep (ShardStore.new (ShardStore.tree st)) m.
Proof. intros Hr. unfold ShardStore.new. rewrite sweep_clean by exact (sr_clean _ _ Hr). split; apply Hr. Qed.

(** ** Refinement *)

Fixpoint run_store st (l : list store_op) : io_result ShardStore.t :=
  match l with
  | [] => IoOk st
  | o :: l => let! st := exec_store st o in run_store st l
  end.

Fixpoint run_spec m (l : list store_op) : spec :=
  match l with [] => m | o :: l => run_spec (spec_step m o) l end.

Fixpoint all_fit m (l : list store_op) : Prop :=
  match l with [] => True | o :: l => store_op_fits m o /\ all_fit (spec_step m o) l end.

Lemma exec_rep st m o : store_rep st m -> store_op_fits m o ->
  exists st', exec_store st o = IoOk st' /\ store_rep st' (spec_step m o).
Proof.
  intros Hr Hf. destruct o as [k ops|k s|k|]; cbn [exec_store].
  - by apply append_rep.
  - eexists. split; [done|]. destruct Hf. by apply snapshot_write_rep.
  - by apply compact_rep.
  - eexists. split; [done|]. by apply reopen_rep.
Qed.

Lemma run_rep l : forall st m, store_rep st m -> all_fit m l ->
  exists st', run_store st l = IoOk st' /\ store_rep st' (run_spec m l).
Proof.
  induction l as [|o l IH]; intros st m Hr Hf; [by exists st|]. destruct Hf as [Ho Hf]. destruct (exec_rep st m o Hr Ho) as (st' & He & Hr').
  cbn [run_store run_spec]. rewrite He. cbn [io_bind]. by apply IH.
Qed.

(** C26: the shard store implements a map from keys to values. Any sequence of appends,
    snapshot writes, restarts and compactions of keys written before, whose sizes fit the
    file format, succeeds; afterwards reading a key gives its last snapshot with the
    operations appended since applied in order (up to the equivalence of the snapshot
    type), and the header counts the operations since the last compaction. A key never
    written reads as missing; compacting it does nothing when it has no file and fails
    with UnexpectedEof when an undersized placeholder file exists. *)
Theorem shard_store_refines st m (l : list store_op) k :
  store_rep st m -> all_fit m l -> key_ok k ->
  exists st', run_store st l = IoOk st'
    /\ match run_spec m l k with
       | Some (s, n) => (exists s', ShardStore.read (S := S) (O := O) st' k = IoOk (Some s') /\ s' ≡ s)
                        /\ ShardStore.ops_count st' k = IoOk (Some n)
       | None => ShardStore.read (S := S) (O := O) st' k = IoOk None
                 /\ ShardStore.compact_shard (S := S) (O := O) st' k
                    = match ShardStore.tree st' !! shard_path k with Some _ => IoErr UnexpectedEof | None => IoOk (false, st') end
       end.
Proof.
  intros Hr Hf Hk. destruct (run_rep l st m Hr Hf) as (st' & Hrun & Hr'). exists st'. split; [done|].
  pose proof (read_rep st' _ k Hr' Hk) as Hread. pose proof (compact_unwritten st' _ k Hr' Hk) as Hcompact.
  destruct (run_spec m l k) as [[s n]|]; [done|]. split; [done|by apply Hcompact].
Qed.

(** ** Crashes *)

(** A crash while operations are appended to a shard keeps a prefix of them: after
    the restart the key reads as its old value with some initial part of the new
    operations applied, none if the log was empty before. *)
Theorem append_crash_keeps_prefix st m k s n ops cut data :
  store_rep st m -> key_ok k -> m k = Some (s, n) -> Forall op_fits ops ->
  ShardStore.tree st !! shard_path k = Some data ->
  exists j s', ShardStore.read (S := S) (O := O) (ShardStore.new (append_crash (ShardStore.tree st) (shard_path k) data (write_op_entries ops) cut)) k
               = IoOk (Some s') /\ s' ≡ foldl apply_op s (take j ops).
Proof.
  intros Hr Hk Hm Hf Hdata. pose proof (sr_keys _ _ Hr k Hk) as Hrep. rewrite Hm in Hrep. destruct Hrep as (d & snapb & old & s0 & Hd & -> & Hh).
  rewrite Hd in Hdata. injection Hdata as <-. pose proof (sh_data _ _ _ _ _ Hh) as ->. unfold ShardStore.new, append_crash. rewrite sweep_clean.
  2: { intros p Hp. rewrite lookup_insert_ne; [by apply Hr|]. intros <-. by rewrite shard_path_ext in Hp. }
  unfold ShardStore.read, ShardStore.read_unlocked. cbn [ShardStore.tree]. rewrite lookup_insert_eq.
  rewrite (valid_shard _ _ snapb old (take cut (write_op_entries ops))) by apply lookup_insert_eq. cbn [negb].
  rewrite (materialize_tail _ _ s0 s) by done. destruct old as [|o old].
  - exists 0%nat, s0. split; [done|]. symmetry. apply Hh.
  - destruct (read_op_entries_cut (o :: old) ops cut (sh_fits _ _ _ _ _ Hh) Hf) as [j Hj]. exists j. rewrite Hj. cbn [io_bind]. eexists. split; [done|].
    rewrite foldl_app. apply foldl_apply_proper. symmetry. apply Hh.
Qed.

Lemma snapshot_bytes_file bytes : byte_len bytes < 4294967296 ->
  shard_bytes (ShardStore.snapshot_header bytes) bytes [] = shard_file bytes [].
Proof. intros H. unfold shard_file, ShardStore.snapshot_header, wrap32. by rewrite N.mod_small. Qed.

Lemma snapshot_file_len bytes : byte_len (shard_file bytes []) = 28 + byte_len bytes.
Proof. unfold shard_file, shard_bytes. rewrite !byte_len_app, byte_len_header. change (byte_len (write_op_entries [])) with 0. lia. Qed.

(** The torn file a crash in the middle of a snapshot write leaves. *)
Lemma promotable_cut bytes ops cut : byte_len bytes < 4294967296 -> N.of_nat (length ops) < 4294967296 ->
  ShardStore.new_file_is_promotable (take cut (shard_file bytes ops))
  = (28 <=? N.of_nat cut) && (0 <? byte_len bytes).
Proof.
  intros Hb Ho. unfold ShardStore.new_file_is_promotable, read_header_of. unfold SHARD_HEADER_SIZE.
  assert (28 <= byte_len (shard_file bytes ops)) as Hl by (unfold shard_file, shard_bytes; rewrite byte_len_app, byte_len_header; lia).
  unfold byte_len in Hl at 1. unfold byte_len at 1. rewrite length_take. destruct (N.leb_spec 28 (N.of_nat cut)) as [Hc|Hc].
  - destruct (N.ltb_spec (N.of_nat (cut `min` length (shard_file bytes ops))) 28); [lia|]. rewrite slice_take by lia.
    unfold shard_file, shard_bytes. rewrite header_prefix, header_roundtrip by (by apply header_ok_shard). done.
  - destruct (N.ltb_spec (N.of_nat (cut `min` length (shard_file bytes ops))) 28); [done|lia].
Qed.

(** a crash while a shard is rewritten (compacted, or given a new snapshot) is
    harmless when the [.new] file is complete or cut inside its header: after the restart
    every key holds what it held before, or the rewritten key holds the new snapshot. *)
Theorem rewrite_crash_safe st m k s fs' :
  store_rep st m -> key_ok k -> snapshot_fits s ->
  write_crash (ShardStore.tree st) (shard_path k) (ShardStore.snapshot_header (sc_encode s)) (sc_encode s) [] fs' ->
  (forall d, fs' !! with_extension (shard_path k) "new" = Some d -> byte_len d < 28 \/ byte_len d = 28 + byte_len (sc_encode s)) ->
  store_rep (ShardStore.new fs') m \/ store_rep (ShardStore.new fs') (supdate m k (s, 0)).
Proof.
  intros Hr Hk [Hok Hlen] Hcrash Hcut. pose proof (shard_not_new k Hk) as Hq. destruct Hcrash as [|cut|].
  - left. by apply reopen_rep.
  - specialize (Hcut _ (lookup_insert_eq _ _ _)).
    rewrite snapshot_bytes_file in * by done. unfold ShardStore.new. rewrite sweep_orphan by (done || exact (sr_clean _ _ Hr)). unfold swept. rewrite promotable_cut by done.
    rewrite (with_extension_back _ "shard") by (done || by apply shard_path_ext).
    destruct (N.leb_spec 28 (N.of_nat cut)) as [H28|H28]; [|left; split; apply Hr].
    destruct (N.ltb_spec 0 (byte_len (sc_encode s))) as [Hpos|Hpos]; [|left; split; apply Hr]. cbn [andb].
    pose proof (snapshot_file_len (sc_encode s)) as Hl.
    rewrite take_ge in *.
    2, 3: unfold byte_len in *; rewrite length_take in Hcut; lia.
    right. destruct (snapshot_holds s (conj Hok Hlen)) as [s0 Hh].
    destruct (replace_rep st m k _ (sc_encode s) [] s0 s 0 Hr Hk eq_refl Hh) as [R1 R2]. split; [apply R1|apply R2].
  - right. pose proof (snapshot_write_rep st m k s Hr Hk (conj Hok Hlen)) as Hr'. by apply reopen_rep in Hr'.
Qed.

(** C37: a crash while a shard is rewritten can destroy it.  If the [.new] file is cut
    after its header but before the end of its snapshot section, the restart takes it for
    a finished rewrite because only the header is checked, renames it over the intact
    shard, and reading the key fails. *)
Theorem torn_rewrite_promoted st m k s cut :
  store_rep st m -> key_ok k -> snapshot_fits s -> (28 <= cut)%nat -> N.of_nat cut < 28 + byte_len (sc_encode s) ->
  let fs' := <[with_extension (shard_path k) "new" := take cut (shard_bytes (ShardStore.snapshot_header (sc_encode s)) (sc_encode s) [])]> (ShardStore.tree st) in
  write_crash (ShardStore.tree st) (shard_path k) (ShardStore.snapshot_header (sc_encode s)) (sc_encode s) [] fs'
  /\ ShardStore.read (S := S) (O := O) (ShardStore.new fs') k = IoErr UnexpectedEof.
Proof.
  intros Hr Hk [Hok Hlen] H28 Hcut fs'. split; [constructor|]. unfold fs'.
  rewrite snapshot_bytes_file by done. unfold ShardStore.new. rewrite sweep_orphan by (exact (sr_clean _ _ Hr) || by apply shard_not_new). unfold swept. rewrite promotable_cut by done.
  destruct (N.leb_spec 28 (N.of_nat cut)); [|lia]. destruct (N.ltb_spec 0 (byte_len (sc_encode s))); [|lia]. cbn [andb].
  rewrite (with_extension_back _ "shard") by (done || by apply shard_path_ext).
  pose proof (snapshot_file_len (sc_encode s)) as Hl.
  assert (byte_len (take cut (shard_file (sc_encode s) [])) = N.of_nat cut) as Hb by (unfold byte_len in *; rewrite length_take; lia).
  unfold ShardStore.read, ShardStore.read_unlocked, is_valid_shard_file. cbn [ShardStore.tree]. rewrite lookup_insert_eq.
  unfold SHARD_HEADER_SIZE at 1. rewrite Hb. destruct (N.leb_spec 28 (N.of_nat cut)); [|lia]. cbn [negb].
  unfold ShardStore.materialize, read_shard_file_raw. rewrite Hb. unfold SHARD_HEADER_SIZE at 1. destruct (N.ltb_spec (N.of_nat cut) 28); [lia|].
  rewrite slice_take by (unfold SHARD_HEADER_SIZE; lia). unfold shard_file at 1, shard_bytes. rewrite header_prefix, header_roundtrip by (by apply header_ok_shard).
  cbn [io_bind shard_header ShardHeader.snapshot_len]. unfold SHARD_HEADER_SIZE. destruct (N.ltb_spec (N.of_nat cut) (28 + byte_len (sc_encode s))); [done|lia].
Qed.

(** ** Interleaved appends *)

(** Overwriting from the same position. *)
Lemma write_at_over data bytes1 bytes2 : (length bytes1 <= length bytes2)%nat ->
  write_at (data ++ bytes1) (byte_len data) bytes2 = data ++ bytes2.
Proof.
  intros Hl. unfold write_at, byte_len. rewrite Nat2N.id, take_app_length, drop_ge by (rewrite length_app; lia). by rewrite app_nil_r.
Qed.

(** The position of an appender that seeked before another appended. *)
Lemma write_at_lost snapb ops a b : (length (write_op_entries b) <= length (write_op_entries a))%nat ->
  write_at (shard_file snapb (ops ++ b)) (byte_len (shard_file snapb ops)) (write_op_entries a)
  = shard_bytes (shard_header snapb (ops ++ b)) snapb (write_op_entries (ops ++ a)).
Proof.
  intros Hl. assert (forall x, shard_file snapb (ops ++ x) = shard_bytes (shard_header snapb (ops ++ x)) snapb (write_op_entries ops) ++ write_op_entries x) as E
    by (intros x; unfold shard_file, shard_bytes; by rewrite write_op_entries_app, <- !app_assoc).
  rewrite (E b). replace (byte_len (shard_file snapb ops)) with (byte_len (shard_bytes (shard_header snapb (ops ++ b)) snapb (write_op_entries ops))).
  - rewrite write_at_over by done. unfold shard_bytes. by rewrite write_op_entries_app, <- !app_assoc.
  - unfold shard_file, shard_bytes. by rewrite !byte_len_app, !byte_len_header.
Qed.

(** One appender running alone. *)
Lemma append_alone snapb ops new b pb sched : byte_len snapb < 4294967296 -> N.of_nat (length (ops ++ new)) < 4294967296 ->
  interleave (write_op_entries new, wrap32 (N.of_nat (length new))) b (true :: true :: true :: true :: sched) (shard_file snapb ops) AStart pb
  = interleave (write_op_entries new, wrap32 (N.of_nat (length new))) b sched (shard_file snapb (ops ++ new)) ADone pb.
Proof.
  intros Hs Hc. pose proof Hc as Hc'. rewrite length_app in Hc'. cbn [interleave append_step fst snd].
  pose proof (read_header_shard snapb ops [] Hs ltac:(lia)) as Hh. rewrite app_nil_r in Hh. rewrite Hh.
  cbn [io_bind interleave append_step fst snd shard_header ShardHeader.ops_count]. by rewrite write_at_end, write_count.
Qed.

Lemma interleave_swap a b sched : forall data pa pb,
  interleave a b sched data pa pb = let! (data, pb, pa) := interleave b a (negb <$> sched) data pb pa in IoOk (data, pa, pb).
Proof.
  induction sched as [|[] sched IH]; intros data pa pb; [done| |]; cbn [interleave fmap list_fmap negb].
  - destruct (append_step a.1 a.2 data pa) as [[d p]|e|]; cbn [io_bind]; [apply IH|done|done].
  - destruct (append_step b.1 b.2 data pb) as [[d p]|e|]; cbn [io_bind]; [apply IH|done|done].
Qed.

(** two appends to the same shard, which hold its lock shared, can lose operations.
    If the first has read the header and found the end of the file before the second
    runs, and its entries take at least as many bytes, the file ends up exactly as if
    only the first had run: the second's operations are gone, although both appends
    succeeded.  Run one after the other, both are kept. *)
Theorem concurrent_append_lost snapb ops a b :
  byte_len snapb < 4294967296 -> N.of_nat (length (ops ++ a ++ b)) < 4294967296 ->
  (length (write_op_entries b) <= length (write_op_entries a))%nat ->
  let ca := (write_op_entries a, wrap32 (N.of_nat (length a))) in
  let cb := (write_op_entries b, wrap32 (N.of_nat (length b))) in
  interleave ca cb [true; true; true; true; false; false; false; false] (shard_file snapb ops) AStart AStart
    = IoOk (shard_file snapb (ops ++ a ++ b), ADone, ADone)
  /\ interleave ca cb [true; true; false; false; false; false; true; true] (shard_file snapb ops) AStart AStart
    = IoOk (shard_file snapb (ops ++ a), ADone, ADone).
Proof.
  intros Hs Hc Hl ca cb. rewrite !length_app in Hc. split.
  - unfold ca. rewrite append_alone by (rewrite ?length_app; lia). rewrite interleave_swap. cbn [fmap list_fmap negb].
    unfold cb. rewrite append_alone by (rewrite ?length_app; lia). cbn [interleave io_bind]. by rewrite <- app_assoc.
  - cbn [interleave append_step]. pose proof (read_header_shard snapb ops [] Hs ltac:(lia)) as Hh. rewrite app_nil_r in Hh. rewrite Hh.
    cbn [io_bind interleave append_step fst snd shard_header ShardHeader.ops_count]. rewrite Hh.
    cbn [io_bind interleave append_step fst snd shard_header ShardHeader.ops_count]. unfold ca, cb. cbn [fst snd].
    rewrite write_at_end, write_count by (rewrite length_app; lia). rewrite write_at_lost by done.
    rewrite wrap_count by (rewrite length_app; lia). by rewrite patch_count.
Qed.

End store.
