(* ===== verification/ShardBitmap.v ===== *)
(** * Bitmap shards (src/shard_store_bitmap.rs)

    The codecs and shardings that store the index: filter buckets (up to 256 files per
    field, each holding the bitmaps of many values behind an index table), packed sort
    fields (all bit layers in one file), and the alive bitmap.  Slicing out of range
    panics, as in the source. *)

From S2P Require Import Prelude Roaring Bytes OpsWal ShardStore.
From Stdlib Require Import Ascii.
Local Open Scope bitdex_scope.

(** [&data[lo..hi]] with [lo <= hi]. *)
Definition checked_slice (data : list N) (lo hi : N) : io_result (list N) :=
  if hi <=? byte_len data then IoOk (slice data lo hi) else IoPanic.

Definition read_le (data : list N) (lo hi : N) : io_result N :=
  let! bytes := checked_slice data lo hi in IoOk (from_le_bytes bytes).

(** [count] consecutive [u32]s from [pos]. *)
Fixpoint read_u32s (data : list N) (pos : N) (count : nat) : io_result (list N) :=
  match count with
  | O => IoOk []
  | S count =>
      let! b := read_le data pos (pos + 4) in
      let! bs := read_u32s data (pos + 4) count in
      IoOk (b :: bs)
  end.

Definition u32s_bytes (bits : list N) : list N :=
  to_le_bytes 4 (N.of_nat (length bits)) ++ mjoin (to_le_bytes 4 <$> bits).

(** ** Filter buckets *)

Record BucketSnapshot (B : Type) : Type := MkBucket { values : gmap N B }.
Arguments MkBucket {B} _.
Arguments values {B} _.

Inductive FilterOp : Type :=
  | FSetBit (value bit : N)
  | FClearBit (value bit : N)
  | FBatchSet (value : N) (bits : list N)
  | FBatchClear (value : N) (bits : list N).

Definition FILTER_OP_SET : N := 17.
Definition FILTER_OP_CLEAR : N := 18.
Definition FILTER_OP_BATCH_SET : N := 19.
Definition FILTER_OP_BATCH_CLEAR : N := 20.

Definition encode_filter_op (op : FilterOp) : list N :=
  match op with
  | FSetBit value bit => FILTER_OP_SET :: to_le_bytes 8 value ++ to_le_bytes 4 bit
  | FClearBit value bit => FILTER_OP_CLEAR :: to_le_bytes 8 value ++ to_le_bytes 4 bit
  | FBatchSet value bits => FILTER_OP_BATCH_SET :: to_le_bytes 8 value ++ u32s_bytes bits
  | FBatchClear value bits => FILTER_OP_BATCH_CLEAR :: to_le_bytes 8 value ++ u32s_bytes bits
  end.

Definition decode_filter_op (bytes : list N) : io_result FilterOp :=
  match bytes with
  | [] => IoErr InvalidData
  | tag :: _ =>
      let! value := read_le bytes 1 9 in
      if tag =? FILTER_OP_SET then let! bit := read_le bytes 9 13 in IoOk (FSetBit value bit)
      else if tag =? FILTER_OP_CLEAR then let! bit := read_le bytes 9 13 in IoOk (FClearBit value bit)
      else if tag =? FILTER_OP_BATCH_SET then
        let! count := read_le bytes 9 13 in
        let! bits := read_u32s bytes 13 (N.to_nat count) in IoOk (FBatchSet value bits)
      else if tag =? FILTER_OP_BATCH_CLEAR then
        let! count := read_le bytes 9 13 in
        let! bits := read_u32s bytes 13 (N.to_nat count) in IoOk (FBatchClear value bits)
      else IoErr InvalidData
  end.

(** ** Single bitmaps *)

Inductive BitmapOp : Type :=
  | SetBit (bit : N)
  | ClearBit (bit : N)
  | BatchSet (bits : list N)
  | BatchClear (bits : list N).

Definition OP_TAG_SET_BIT : N := 1.
Definition OP_TAG_CLEAR_BIT : N := 2.
Definition OP_TAG_BATCH_SET : N := 3.
Definition OP_TAG_BATCH_CLEAR : N := 4.

Definition encode_bitmap_op (op : BitmapOp) : list N :=
  match op with
  | SetBit bit => OP_TAG_SET_BIT :: to_le_bytes 4 bit
  | ClearBit bit => OP_TAG_CLEAR_BIT :: to_le_bytes 4 bit
  | BatchSet bits => OP_TAG_BATCH_SET :: u32s_bytes bits
  | BatchClear bits => OP_TAG_BATCH_CLEAR :: u32s_bytes bits
  end.

Definition decode_bitmap_op (bytes : list N) : io_result BitmapOp :=
  match bytes with
  | [] => IoErr InvalidData
  | tag :: _ =>
      if tag =? OP_TAG_SET_BIT then let! bit := read_le bytes 1 5 in IoOk (SetBit bit)
      else if tag =? OP_TAG_CLEAR_BIT then let! bit := read_le bytes 1 5 in IoOk (ClearBit bit)
      else if tag =? OP_TAG_BATCH_SET then
        let! count := read_le bytes 1 5 in
        let! bits := read_u32s bytes 5 (N.to_nat count) in IoOk (BatchSet bits)
      else if tag =? OP_TAG_BATCH_CLEAR then
        let! count := read_le bytes 1 5 in
        let! bits := read_u32s bytes 5 (N.to_nat count) in IoOk (BatchClear bits)
      else IoErr InvalidData
  end.

(** ** Packed sort fields *)

Record SortFieldSnapshot (B : Type) : Type := MkSortSnapshot { layers : gmap N B }.
Arguments MkSortSnapshot {B} _.
Arguments layers {B} _.

Inductive SortLayerOp : Type :=
  | LSetBit (bit_position slot : N)
  | LClearBit (bit_position slot : N)
  | LBatchSet (bit_position : N) (slots : list N)
  | LBatchClear (bit_position : N) (slots : list N).

Definition SORT_LAYER_OP_SET : N := 33.
Definition SORT_LAYER_OP_CLEAR : N := 34.
Definition SORT_LAYER_OP_BATCH_SET : N := 35.
Definition SORT_LAYER_OP_BATCH_CLEAR : N := 36.

Definition encode_sort_op (op : SortLayerOp) : list N :=
  match op with
  | LSetBit bit_position slot => SORT_LAYER_OP_SET :: bit_position :: to_le_bytes 4 slot
  | LClearBit bit_position slot => SORT_LAYER_OP_CLEAR :: bit_position :: to_le_bytes 4 slot
  | LBatchSet bit_position slots => SORT_LAYER_OP_BATCH_SET :: bit_position :: u32s_bytes slots
  | LBatchClear bit_position slots => SORT_LAYER_OP_BATCH_CLEAR :: bit_position :: u32s_bytes slots
  end.

Definition decode_sort_op (bytes : list N) : io_result SortLayerOp :=
  match bytes with
  | tag :: bit_position :: _ =>
      if byte_len bytes <? 6 then IoErr UnexpectedEof
      else
        let! slot := read_le bytes 2 6 in
        if tag =? SORT_LAYER_OP_SET then IoOk (LSetBit bit_position slot)
        else if tag =? SORT_LAYER_OP_CLEAR then IoOk (LClearBit bit_position slot)
        else if (tag =? SORT_LAYER_OP_BATCH_SET) || (tag =? SORT_LAYER_OP_BATCH_CLEAR) then
          if byte_len bytes <? 6 + slot * 4 then IoErr UnexpectedEof
          else
            let! slots := read_u32s bytes 6 (N.to_nat slot) in
            if tag =? SORT_LAYER_OP_BATCH_SET then IoOk (LBatchSet bit_position slots)
            else IoOk (LBatchClear bit_position slots)
        else IoErr InvalidData
  | _ => IoErr UnexpectedEof
  end.

Section codecs.
Context {B : Type} `{RS : RoaringSerde B}.

Definition deserialize (bytes : list N) : io_result B :=
  match rb_deserialize bytes with Some b => IoOk b | None => IoErr InvalidData end.

(** An index table followed by the packed bitmaps: [id_width] bytes of identifier, a
    32-bit offset and a 32-bit length per entry.  Buckets use eight bytes, sort fields
    one. *)
Fixpoint index_table (id_width : nat) (offset : N) (data : list (N * list N)) : list N :=
  match data with
  | [] => []
  | (id, bm_buf) :: data =>
      to_le_bytes id_width id ++ to_le_bytes 4 offset ++ to_le_bytes 4 (wrap32 (byte_len bm_buf))
      ++ index_table id_width (wrap32 (offset + wrap32 (byte_len bm_buf))) data
  end.

Definition packed (id_width : nat) (data : list (N * list N)) : list N := index_table id_width 0 data ++ mjoin data.*2.

(** The decoding loop over the index; [index_start] and [data_start] are positions. *)
Fixpoint unpack (id_width : N) (bytes : list N) (index_start data_start : N) (count : nat) (acc : gmap N B) : io_result (gmap N B) :=
  match count with
  | O => IoOk acc
  | S count =>
      let! id := read_le bytes index_start (index_start + id_width) in
      let! bm_offset := read_le bytes (index_start + id_width) (index_start + id_width + 4) in
      let! bm_length := read_le bytes (index_start + id_width + 4) (index_start + id_width + 8) in
      let bm_start := data_start + bm_offset in
      let bm_end := bm_start + bm_length in
      if byte_len bytes <? bm_end then IoErr UnexpectedEof
      else
        let! bm := deserialize (slice bytes bm_start bm_end) in
        unpack id_width bytes (index_start + id_width + 8) data_start count (<[id := bm]> acc)
  end.

Definition serialize_all (entries : list (N * B)) : list (N * list N) := prod_map id rb_serialize <$> entries.

(** The bucket format, from (value, bitmap) pairs in the order given. *)
Definition encode_bucket (entries : list (N * B)) : list N :=
  to_le_bytes 4 (wrap32 (N.of_nat (length entries))) ++ packed 8 (serialize_all entries).

Definition decode_bucket (bytes : list N) : io_result (BucketSnapshot B) :=
  if byte_len bytes <? 4 then IoOk (MkBucket ∅)
  else
    let count := from_le_bytes (slice bytes 0 4) in
    if count =? 0 then IoOk (MkBucket ∅)
    else let! m := unpack 8 bytes 4 (4 + count * 16) (N.to_nat count) ∅ in IoOk (MkBucket m).

(** Any order of the hash map would do; see [bucket_roundtrip]. *)
#[export] Instance BucketSnapshotCodec : SnapshotCodec (BucketSnapshot B) := {
  sc_encode s := encode_bucket (map_to_list (values s));
  sc_decode := decode_bucket;
  sc_empty := MkBucket ∅;
}.

Definition set_bits (b : B) (bits : list N) : B := foldl rb_insert b bits.
Definition clear_bits (b : B) (bits : list N) : B := foldl rb_remove b bits.

Definition entry_set (m : gmap N B) (key : N) (bits : list N) : gmap N B := <[key := set_bits (default rb_new (m !! key)) bits]> m.
Definition entry_clear (m : gmap N B) (key : N) (bits : list N) : gmap N B := alter (fun b => clear_bits b bits) key m.

Definition apply_filter_op (m : gmap N B) (op : FilterOp) : gmap N B :=
  match op with
  | FSetBit value bit => entry_set m value [bit]
  | FClearBit value bit => entry_clear m value [bit]
  | FBatchSet value bits => entry_set m value bits
  | FBatchClear value bits => entry_clear m value bits
  end.

#[export] Instance FilterOpCodec : OpCodec FilterOp (BucketSnapshot B) := {
  encode_op := encode_filter_op;
  decode_op := decode_filter_op;
  apply_op s op := MkBucket (apply_filter_op (values s) op);
}.

#[export] Instance BitmapSnapshotCodec : SnapshotCodec B := {
  sc_encode := rb_serialize;
  sc_decode := deserialize;
  sc_empty := rb_new;
}.

Definition apply_bitmap_op (b : B) (op : BitmapOp) : B :=
  match op with
  | SetBit bit => rb_insert b bit
  | ClearBit bit => rb_remove b bit
  | BatchSet bits => set_bits b bits
  | BatchClear bits => clear_bits b bits
  end.

#[export] Instance BitmapOpCodec : OpCodec BitmapOp B := {
  encode_op := encode_bitmap_op;
  decode_op := decode_bitmap_op;
  apply_op := apply_bitmap_op;
}.

(** Layers in the order given, empty ones skipped. *)
Definition encode_from_layers (ls : list (N * B)) : list N :=
  let data := serialize_all (filter (fun l => rb_is_empty l.2 = false) ls) in
  N.of_nat (length data) mod 256 :: packed 1 data.

Definition decode_layers (bytes : list N) : io_result (SortFieldSnapshot B) :=
  match bytes with
  | [] => IoOk (MkSortSnapshot ∅)
  | num_layers :: _ =>
      if num_layers =? 0 then IoOk (MkSortSnapshot ∅)
      else if byte_len bytes <? 1 + num_layers * 9 then IoErr UnexpectedEof
      else let! m := unpack 1 bytes 1 (1 + num_layers * 9) (N.to_nat num_layers) ∅ in IoOk (MkSortSnapshot m)
  end.

Definition key_le (a b : N * B) : Prop := a.1 <= b.1.
#[local] Instance key_le_dec : RelDecision key_le := fun a b => decide (a.1 <= b.1).

(** A [BTreeMap] iterates in ascending order. *)
Definition ascending (m : gmap N B) : list (N * B) := merge_sort key_le (map_to_list m).

#[export] Instance SortFieldSnapshotCodec : SnapshotCodec (SortFieldSnapshot B) := {
  sc_encode s := encode_from_layers (ascending (layers s));
  sc_decode := decode_layers;
  sc_empty := MkSortSnapshot ∅;
}.

Definition apply_sort_op (m : gmap N B) (op : SortLayerOp) : gmap N B :=
  match op with
  | LSetBit bit_position slot => entry_set m bit_position [slot]
  | LClearBit bit_position slot => entry_clear m bit_position [slot]
  | LBatchSet bit_position slots => entry_set m bit_position slots
  | LBatchClear bit_position slots => entry_clear m bit_position slots
  end.

#[export] Instance SortLayerOpCodec : OpCodec SortLayerOp (SortFieldSnapshot B) := {
  encode_op := encode_sort_op;
  decode_op := decode_sort_op;
  apply_op s op := MkSortSnapshot (apply_sort_op (layers s) op);
}.

End codecs.

(** ** Sharding *)

Record FilterBucketKey : Type := MkFilterKey { fk_field : string; fk_bucket : N }.
#[export] Instance filter_key_eq_dec : EqDecision FilterBucketKey.
Proof. solve_decision. Defined.

Definition bucket_of (value : N) : N := N.land (N.shiftr value 8) 255.
Definition from_value (field : string) (value : N) : FilterBucketKey := MkFilterKey field (bucket_of value).

Definition hex_digit (d : N) : ascii := ascii_of_N (if d <? 10 then 48 + d else 87 + d).
(** [format!("{:02x}")] of a [u8]. *)
Definition hex2 (b : N) : string := String (hex_digit (b / 16)) (String (hex_digit (b mod 16)) EmptyString).

Definition hex_value (c : ascii) : option N :=
  let n := N_of_ascii c in
  if (48 <=? n) && (n <=? 57) then Some (n - 48)
  else if (97 <=? n) && (n <=? 102) then Some (n - 87)
  else if (65 <=? n) && (n <=? 70) then Some (n - 55)
  else None.

Fixpoint hex_digits (acc : N) (s : string) : option N :=
  match s with
  | EmptyString => Some acc
  | String c s => d ← hex_value c; let n := acc * 16 + d in if n <=? 255 then hex_digits n s else None
  end.

(** [u8::from_str_radix(s, 16)]. *)
Definition from_str_radix16 (s : string) : option N :=
  match s with
  | EmptyString => None
  | String "+"%char EmptyString => None
  | String "+"%char rest => hex_digits 0 rest
  | _ => hex_digits 0 s
  end.

Definition filter_key_of (p : path) : option FilterBucketKey :=
  match p.1 with
  | [dir; field] =>
      if bool_decide (dir = "filter"%string) then
        hex ← strip_suffix ".shard" p.2; bucket ← from_str_radix16 hex; Some (MkFilterKey field bucket)
      else None
  | _ => None
  end.

#[export] Instance FieldValueBucketShard : ShardingStrategy FilterBucketKey := {
  shard_path key := (["filter"%string; fk_field key], hex2 (fk_bucket key) ++ ".shard")%string;
  list_shards fs := omap filter_key_of (map_to_list fs).*1;
}.

Record SortLayerShardKey : Type := MkLayerKey { lk_field : string; lk_bit : N }.
#[export] Instance layer_key_eq_dec : EqDecision SortLayerShardKey.
Proof. solve_decision. Defined.

(** [format!("bit{:02}.shard")]. *)
Definition pad2 (s : string) : string := String.append (zeros (2 - String.length s)) s.

Definition strip_bit (s : string) : option string :=
  match s with
  | String "b"%char (String "i"%char (String "t"%char rest)) => Some rest
  | _ => None
  end.

Definition layer_key_of (p : path) : option SortLayerShardKey :=
  match p.1 with
  | [dir; field] =>
      if bool_decide (dir = "sort"%string) then
        rest ← strip_bit p.2; num ← strip_suffix ".shard" rest; bit ← parse_dec 255 num; Some (MkLayerKey field bit)
      else None
  | _ => None
  end.

#[export] Instance SortLayerShard : ShardingStrategy SortLayerShardKey := {
  shard_path key := (["sort"%string; lk_field key], "bit" ++ pad2 (print_dec (lk_bit key)) ++ ".shard")%string;
  list_shards fs := omap layer_key_of (map_to_list fs).*1;
}.

Record SortFieldShardKey : Type := MkSortKey { sk_field : string }.
#[export] Instance sort_key_eq_dec : EqDecision SortFieldShardKey.
Proof. solve_decision. Defined.

Definition sort_key_of (p : path) : option SortFieldShardKey :=
  match p.1 with
  | [dir] => if bool_decide (dir = "sort"%string) then field ← strip_suffix ".shard" p.2; Some (MkSortKey field) else None
  | _ => None
  end.

#[export] Instance SortFieldShard : ShardingStrategy SortFieldShardKey := {
  shard_path key := (["sort"%string], sk_field key ++ ".shard")%string;
  list_shards fs := omap sort_key_of (map_to_list fs).*1;
}.

Inductive AliveShardKey : Type := MkAliveKey.
#[export] Instance alive_key_eq_dec : EqDecision AliveShardKey.
Proof. solve_decision. Defined.

Definition alive_path : path := (["system"%string], "alive.shard"%string).

#[export] Instance SingletonShard : ShardingStrategy AliveShardKey := {
  shard_path _ := alive_path;
  list_shards fs := if bool_decide (is_Some (fs !! alive_path)) then [MkAliveKey] else [];
}.

(** ** Stores *)

Section stores.
Context `{CK : Checksum} {B : Type} `{RS : RoaringSerde B}.
Implicit Types (st : ShardStore.t) (field : string).

(** *** Filter bitmaps *)

(** The buckets of a field, in directory order. *)
Definition field_buckets st field : list FilterBucketKey :=
  filter (fun key => fk_field key = field) (list_shards (ShardStore.tree st)).

(** Buckets that fail to read are skipped. *)
Definition existence_set st field : gset N :=
  foldl (fun acc key => match ShardStore.read (S := BucketSnapshot B) (O := FilterOp) st key with
                        | IoOk (Some snap) => acc ∪ dom (values snap)
                        | _ => acc
                        end) ∅ (field_buckets st field).

(** The first bitmap found for a value wins. *)
Fixpoint load_buckets st (keys : list FilterBucketKey) (acc : gmap N B) : io_result (gmap N B) :=
  match keys with
  | [] => IoOk acc
  | key :: keys =>
      let! snap := ShardStore.read (S := BucketSnapshot B) (O := FilterOp) st key in
      load_buckets st keys (match snap with Some snap => acc ∪ values snap | None => acc end)
  end.

Definition load_field st field : io_result (gmap N B) := load_buckets st (field_buckets st field) ∅.

(** The index walk of the fast path: value, position and length of the wanted bitmaps. *)
Fixpoint find_wanted (index_buf : list N) (wanted : gset N) (data_section_start snapshot_end : N) (count : nat) (off : N)
    (found : list (N * N * N)) : io_result (list (N * N * N)) :=
  match count with
  | O => IoOk found
  | S count =>
      let value_id := from_le_bytes (slice index_buf off (off + 8)) in
      if bool_decide (value_id ∈ wanted) then
        let bm_offset := from_le_bytes (slice index_buf (off + 8) (off + 12)) in
        let bm_length := from_le_bytes (slice index_buf (off + 12) (off + 16)) in
        let abs := data_section_start + bm_offset in
        if snapshot_end <? abs + bm_length then IoErr UnexpectedEof
        else find_wanted index_buf wanted data_section_start snapshot_end count (off + 16) (found ++ [(value_id, abs, bm_length)])
      else find_wanted index_buf wanted data_section_start snapshot_end count (off + 16) found
  end.

(** [seek] and [read_exact] of each found bitmap. *)
Fixpoint read_found (data : list N) (found : list (N * N * N)) (acc : gmap N B) : io_result (gmap N B) :=
  match found with
  | [] => IoOk acc
  | (value, abs, len) :: found =>
      if byte_len data <? abs + len then IoErr UnexpectedEof
      else
        let! bm := deserialize (slice data abs (abs + len)) in
        read_found data found (<[value := bm]> acc)
  end.

Definition abs_le (a b : N * N * N) : Prop := a.1.2 <= b.1.2.
#[export] Instance abs_le_dec : RelDecision abs_le := fun a b => decide (a.1.2 <= b.1.2).

Definition op_value (op : FilterOp) : N :=
  match op with FSetBit v _ | FClearBit v _ | FBatchSet v _ | FBatchClear v _ => v end.

(** The snapshot part of the fast path. *)
Definition read_index (data : list N) (header : ShardHeader.t) (wanted : gset N) : io_result (gmap N B) :=
  if 4 <=? ShardHeader.snapshot_len header then
    let count := from_le_bytes (slice data SHARD_HEADER_SIZE (SHARD_HEADER_SIZE + 4)) in
    if 0 <? count then
      let index_size := count * 16 in
      if ShardHeader.snapshot_len header <? 4 + index_size then IoErr InvalidData
      else
        let index_buf := slice data (SHARD_HEADER_SIZE + 4) (SHARD_HEADER_SIZE + 4 + index_size) in
        let! found := find_wanted index_buf wanted (SHARD_HEADER_SIZE + 4 + index_size)
                        (SHARD_HEADER_SIZE + ShardHeader.snapshot_len header) (N.to_nat count) 0 [] in
        read_found data (merge_sort abs_le found) ∅
    else IoOk ∅
  else IoOk ∅.

Definition read_bucket_values_indexed st (key : FilterBucketKey) (wanted : list N) : io_result (gmap N B) :=
  match wanted with
  | [] => IoOk ∅
  | _ =>
      if negb (is_valid_shard_file (ShardStore.tree st) (shard_path key)) then IoOk ∅
      else
        let data := default [] (ShardStore.tree st !! shard_path key) in
        let! header := read_header_of data in
        let snapshot_end_declared := SHARD_HEADER_SIZE + ShardHeader.snapshot_len header in
        if (byte_len data <? snapshot_end_declared) || (byte_len data <? ShardHeader.ops_section_offset header)
           || (ShardHeader.ops_section_offset header <? snapshot_end_declared) then IoErr InvalidData
        else
          let wanted_set := list_to_set wanted : gset N in
          let! result := read_index data header wanted_set in
          if 0 <? ShardHeader.ops_count header then
            let! ops := read_op_entries (S := BucketSnapshot B) (drop (N.to_nat (ShardHeader.ops_section_offset header)) data) in
            IoOk (foldl (fun m op => if bool_decide (op_value op ∈ wanted_set) then apply_filter_op m op else m) result ops)
          else IoOk result
  end.

Definition by_bucket (wanted : list N) : gmap N (list N) :=
  foldl (fun m v => <[bucket_of v := default [] (m !! bucket_of v) ++ [v]]> m) ∅ wanted.

(** One bucket of [load_field_values]: the fast path, or the full read if it fails. *)
Definition load_bucket_values st field (bucket : N) (wanted : list N) : io_result (gmap N B) :=
  let key := MkFilterKey field bucket in
  match read_bucket_values_indexed st key wanted with
  | IoOk m => IoOk m
  | IoPanic => IoPanic
  | IoErr _ =>
      let! snap := ShardStore.read (S := BucketSnapshot B) (O := FilterOp) st key in
      IoOk (match snap with
            | Some snap => filter (fun vb => vb.1 ∈ wanted) (values snap)
            | None => ∅
            end)
  end.

Definition load_field_values st field (wanted : list N) : io_result (gmap N B) :=
  map_fold (fun bucket ws acc =>
      let! result := acc in
      let! m := load_bucket_values st field bucket ws in
      IoOk (m ∪ result)) (IoOk ∅) (by_bucket wanted).

Definition read_filter_bucket st field (bucket : N) : io_result (list (N * B)) :=
  let! snap := ShardStore.read (S := BucketSnapshot B) (O := FilterOp) st (MkFilterKey field bucket) in
  IoOk (match snap with Some snap => map_to_list (values snap) | None => [] end).

Definition write_filter_bucket st field (bucket : N) (entries : list (N * B)) : ShardStore.t :=
  ShardStore.write_snapshot st (MkFilterKey field bucket) (MkBucket (foldl (fun m e => <[e.1 := e.2]> m) ∅ entries)).

Definition write_filter_bucket_raw st field (bucket : N) (entries : list (N * B)) : ShardStore.t :=
  let snapshot_bytes := encode_bucket entries in
  ShardStore.with_tree st (write_shard_file_atomic (ShardStore.tree st) (shard_path (MkFilterKey field bucket))
    (ShardStore.snapshot_header snapshot_bytes) snapshot_bytes []).

Definition group_entries (entries : list (string * N * B)) : gmap (string * N) (list (N * B)) :=
  foldl (fun m '(field, value, bm) =>
      <[(field, bucket_of value) := default [] (m !! (field, bucket_of value)) ++ [(value, bm)]]> m) ∅ entries.

Definition write_full_filter st (entries : list (string * N * B)) : ShardStore.t :=
  map_fold (fun fb es st => write_filter_bucket_raw st fb.1 fb.2 es) st (group_entries entries).

(** *** Sort layers *)

Definition packed_path field : path := shard_path (MkSortKey field).

(** [data[lo..]] *)
Definition checked_from (data : list N) (lo : N) : io_result (list N) :=
  if lo <=? byte_len data then IoOk (drop (N.to_nat lo) data) else IoPanic.

(** The packed shard without its operations, then with them. *)
Definition packed_snapshot (data : list N) (header : ShardHeader.t) : io_result (SortFieldSnapshot B) :=
  let! snap := (if 0 <? ShardHeader.snapshot_len header
                then let! bytes := checked_slice data SHARD_HEADER_SIZE (SHARD_HEADER_SIZE + ShardHeader.snapshot_len header) in sc_decode bytes
                else IoOk sc_empty) in
  if 0 <? ShardHeader.ops_count header then
    let! ops_data := checked_from data (ShardHeader.ops_section_offset header) in
    let! ops := read_op_entries (O := SortLayerOp) (S := SortFieldSnapshot B) ops_data in
    IoOk (foldl apply_op snap ops)
  else IoOk snap.

Definition layer_list (snap : SortFieldSnapshot B) (bits : nat) : list B :=
  (fun bit => default rb_new (layers snap !! (N.of_nat bit mod 256))) <$> seq 0 bits.

(** The legacy layout: one file per layer; whether any exists, and the layers. *)
Fixpoint load_legacy st field (bits : list nat) : io_result (bool * list B) :=
  match bits with
  | [] => IoOk (false, [])
  | bit :: bits =>
      let! layer := ShardStore.read (S := B) (O := BitmapOp) st (MkLayerKey field (N.of_nat bit mod 256)) in
      let! (any, rest) := load_legacy st field bits in
      IoOk (match layer with Some bm => (true, bm :: rest) | None => (any, rb_new :: rest) end)
  end.

Definition load_sort_layers st field (bits : nat) : io_result (option (list B)) :=
  match ShardStore.tree st !! packed_path field with
  | Some data =>
      let! header := ShardHeader.decode data in
      let! snap := packed_snapshot data header in
      IoOk (Some (layer_list snap bits))
  | None =>
      let! (any, ls) := load_legacy st field (seq 0 bits) in
      IoOk (if any then Some ls else None)
  end.

Definition numbered (ls : list B) : list (N * B) := imap (fun i bm => (N.of_nat i mod 256, bm)) ls.

Definition write_sort_layers st field (ls : list B) : ShardStore.t :=
  let snapshot_bytes := encode_from_layers (numbered ls) in
  ShardStore.with_tree st (write_shard_file_atomic (ShardStore.tree st) (packed_path field)
    (ShardStore.snapshot_header snapshot_bytes) snapshot_bytes []).

(** A missing packed shard is created from the legacy layers before the operations are
    appended to it. *)
Definition ensure_packed st field (num_bits : nat) : io_result files :=
  if is_valid_shard_file (ShardStore.tree st) (packed_path field) then IoOk (ShardStore.tree st)
  else
    let! (any, ls) := load_legacy st field (seq 0 num_bits) in
    let snapshot_bytes := if any : bool then encode_from_layers (numbered ls) else [] in
    IoOk (write_shard_file_atomic (ShardStore.tree st) (packed_path field) (ShardStore.snapshot_header snapshot_bytes)
            snapshot_bytes []).

Definition append_packed_sort_ops st field (num_bits : nat) (ops : list SortLayerOp) : io_result ShardStore.t :=
  match ops with
  | [] => IoOk st
  | _ =>
      let! fs := ensure_packed st field num_bits in
      let! fs := append_ops_to_shard_opts fs (packed_path field) (write_op_entries (S := SortFieldSnapshot B) ops)
                   (wrap32 (N.of_nat (length ops))) in
      IoOk (ShardStore.with_tree st fs)
  end.

Definition compact_packed_sort_if_needed st field (bits : nat) (threshold : N) : io_result (bool * ShardStore.t) :=
  if threshold =? 0 then IoOk (false, st)
  else match ShardStore.tree st !! packed_path field with
       | None => IoOk (false, st)
       | Some data =>
           let! header := read_header_of data in
           if ShardHeader.ops_count header <? threshold then IoOk (false, st)
           else if (byte_len data <? SHARD_HEADER_SIZE + ShardHeader.snapshot_len header)
                   || (byte_len data <? ShardHeader.ops_section_offset header) then IoErr UnexpectedEof
           else
             let! snap := packed_snapshot data header in
             let kept := omap (fun bit => let pos := N.of_nat bit mod 256 in bm ← layers snap !! pos; Some (pos, bm)) (seq 0 bits) in
             let snapshot_bytes := encode_from_layers kept in
             IoOk (true, ShardStore.with_tree st (write_shard_file_atomic (ShardStore.tree st) (packed_path field)
                           (ShardStore.snapshot_header snapshot_bytes) snapshot_bytes []))
       end.

(** The packed store used through the generic interface. *)
Definition append_sort_op st field (bit_position slot : N) (set : bool) : io_result ShardStore.t :=
  ShardStore.append_op (S := SortFieldSnapshot B) st (MkSortKey field)
    (if set then LSetBit bit_position slot else LClearBit bit_position slot).

Definition packed_load_sort_layers st field (bits : nat) : io_result (option (list B)) :=
  let! snap := ShardStore.read (S := SortFieldSnapshot B) (O := SortLayerOp) st (MkSortKey field) in
  IoOk ((fun snap => layer_list snap bits) <$> snap).

Definition packed_write_sort_layers st field (ls : list B) : ShardStore.t :=
  ShardStore.write_snapshot st (MkSortKey field)
    (MkSortSnapshot (foldl (fun m l => if rb_is_empty l.2 then m else <[l.1 := l.2]> m) ∅ (numbered ls))).

(** *** The alive bitmap *)

Definition load_alive st : io_result (option B) := ShardStore.read (S := B) (O := BitmapOp) st MkAliveKey.
Definition write_alive st (bitmap : B) : ShardStore.t := ShardStore.write_snapshot st MkAliveKey bitmap.

End stores.
