(* ===== verification/ShardBitmapTheorems.v ===== *)
(** * Bitmap shards: properties

    The codecs read back what they write and the shardings give every key its own file,
    so the theorems on the shard store apply to filter buckets, packed sort fields and
    the alive bitmap; reading single values through the index table equals reading the
    whole bucket; and sort layers survive writes, appends, compaction and the migration
    from one file per layer. *)

From S2P Require Import Prelude Roaring Bytes OpsWal OpsWalFacts ShardStore ShardStoreTheorems ShardBitmap.
From Stdlib Require Import Ascii.
Local Open Scope bitdex_scope.

(** ** Reading back integers *)

Lemma checked_slice_app (pre x post : list N) :
  checked_slice (pre ++ x ++ post) (byte_len pre) (byte_len pre + byte_len x) = IoOk x.
Proof.
  unfold checked_slice. rewrite !byte_len_app. destruct (N.leb_spec (byte_len pre + byte_len x) (byte_len pre + (byte_len x + byte_len post))); [|lia].
  by rewrite slice_after0, slice_here.
Qed.

Lemma read_le_app pre w n post lo hi : n < 256 ^ N.of_nat w -> byte_len pre = lo -> hi = lo + N.of_nat w ->
  read_le (pre ++ to_le_bytes w n ++ post) lo hi = IoOk n.
Proof.
  intros Hn <- ->. unfold read_le. rewrite <- (byte_len_le_bytes w n), checked_slice_app. cbn [io_bind].
  by rewrite from_to_le_bytes_small.
Qed.

Lemma slice_le_app pre w n post lo hi : n < 256 ^ N.of_nat w -> byte_len pre = lo -> hi = lo + N.of_nat w ->
  from_le_bytes (slice (pre ++ to_le_bytes w n ++ post) lo hi) = n.
Proof. intros Hn <- ->. rewrite slice_after0, slice_here by apply byte_len_le_bytes. by rewrite from_to_le_bytes_small. Qed.

Lemma read_u32s_app bits : forall pre post pos, Forall (fun b => b < 4294967296) bits -> byte_len pre = pos ->
  read_u32s (pre ++ mjoin (to_le_bytes 4 <$> bits) ++ post) pos (length bits) = IoOk bits.
Proof.
  induction bits as [|b bits IH]; intros pre post pos Hb <-; [done|]. apply Forall_cons in Hb as [Hb Hbs]. cbn [length read_u32s].
  change (mjoin (to_le_bytes 4 <$> b :: bits)) with (to_le_bytes 4 b ++ mjoin (to_le_bytes 4 <$> bits)). rewrite <- app_assoc.
  rewrite read_le_app by done. cbn [io_bind]. rewrite (app_assoc pre), IH; [done|done|]. by rewrite byte_len_app, byte_len_le_bytes.
Qed.

(** ** Operations *)

Definition bits_ok (bits : list N) : Prop := Forall (fun b => b < 4294967296) bits /\ N.of_nat (length bits) < 4294967296.

Definition filter_op_ok (op : FilterOp) : Prop :=
  match op with
  | FSetBit v b | FClearBit v b => v < 18446744073709551616 /\ b < 4294967296
  | FBatchSet v bits | FBatchClear v bits => v < 18446744073709551616 /\ bits_ok bits
  end.

Lemma read_u32s_bytes pre bits pos : bits_ok bits -> byte_len pre = pos ->
  read_le (pre ++ u32s_bytes bits) pos (pos + 4) = IoOk (N.of_nat (length bits))
  /\ read_u32s (pre ++ u32s_bytes bits) (pos + 4) (length bits) = IoOk bits.
Proof.
  intros [Hb Hl] <-. unfold u32s_bytes. split.
  - by apply read_le_app.
  - rewrite app_assoc. rewrite <- (app_nil_r (mjoin _)). apply read_u32s_app; [done|]. by rewrite byte_len_app, byte_len_le_bytes.
Qed.

Lemma filter_op_roundtrip op : filter_op_ok op -> decode_filter_op (encode_filter_op op) = IoOk op.
Proof.
  assert (forall tag v rest, v < 18446744073709551616 -> read_le (tag :: to_le_bytes 8 v ++ rest) 1 9 = IoOk v) as Hv
    by (intros tag v rest Hv; by apply (read_le_app [tag] 8)).
  assert (forall tag v b, b < 4294967296 -> read_le (tag :: to_le_bytes 8 v ++ to_le_bytes 4 b) 9 13 = IoOk b) as Hb.
  { intros tag v b Hb. rewrite <- (app_nil_r (to_le_bytes 4 b)). by apply (read_le_app (tag :: to_le_bytes 8 v) 4). }
  assert (forall tag v bits, bits_ok bits -> read_le (tag :: to_le_bytes 8 v ++ u32s_bytes bits) 9 13 = IoOk (N.of_nat (length bits))
    /\ read_u32s (tag :: to_le_bytes 8 v ++ u32s_bytes bits) 13 (length bits) = IoOk bits) as Hs
    by (intros tag v bits Hs; by apply (read_u32s_bytes (tag :: to_le_bytes 8 v))).
  destruct op as [v b|v b|v bits|v bits]; intros [H1 H2]; unfold decode_filter_op; cbn [encode_filter_op]; rewrite Hv by done; cbn [io_bind].
  - by rewrite Hb.
  - by rewrite Hb.
  - destruct (Hs FILTER_OP_BATCH_SET v bits H2) as [-> Hr]. cbn -[u32s_bytes to_le_bytes read_u32s]. by rewrite Nat2N.id, Hr.
  - destruct (Hs FILTER_OP_BATCH_CLEAR v bits H2) as [-> Hr]. cbn -[u32s_bytes to_le_bytes read_u32s]. by rewrite Nat2N.id, Hr.
Qed.

Definition bitmap_op_ok (op : BitmapOp) : Prop :=
  match op with SetBit b | ClearBit b => b < 4294967296 | BatchSet bits | BatchClear bits => bits_ok bits end.

Lemma bitmap_op_roundtrip op : bitmap_op_ok op -> decode_bitmap_op (encode_bitmap_op op) = IoOk op.
Proof.
  assert (forall tag b, b < 4294967296 -> read_le (tag :: to_le_bytes 4 b) 1 5 = IoOk b) as Hb.
  { intros tag b Hb. rewrite <- (app_nil_r (to_le_bytes 4 b)). by apply (read_le_app [tag] 4). }
  assert (forall tag bits, bits_ok bits -> read_le (tag :: u32s_bytes bits) 1 5 = IoOk (N.of_nat (length bits))
    /\ read_u32s (tag :: u32s_bytes bits) 5 (length bits) = IoOk bits) as Hs by (intros tag bits Hs; by apply (read_u32s_bytes [tag])).
  destruct op as [b|b|bits|bits]; intros H; unfold decode_bitmap_op; cbn [encode_bitmap_op].
  - cbn -[to_le_bytes read_le]. by rewrite Hb.
  - cbn -[to_le_bytes read_le]. by rewrite Hb.
  - destruct (Hs OP_TAG_BATCH_SET bits H) as [H1 H2]. cbn -[u32s_bytes read_le read_u32s]. rewrite H1. cbn [io_bind]. by rewrite Nat2N.id, H2.
  - destruct (Hs OP_TAG_BATCH_CLEAR bits H) as [H1 H2]. cbn -[u32s_bytes read_le read_u32s]. rewrite H1. cbn [io_bind]. by rewrite Nat2N.id, H2.
Qed.

Definition sort_op_ok (op : SortLayerOp) : Prop :=
  match op with LSetBit _ s | LClearBit _ s => s < 4294967296 | LBatchSet _ l | LBatchClear _ l => bits_ok l end.

Lemma byte_len_u32s bits : byte_len (u32s_bytes bits) = 4 + N.of_nat (length bits) * 4.
Proof.
  unfold u32s_bytes. rewrite byte_len_app, byte_len_le_bytes. f_equal. induction bits as [|b bits IH]; [done|].
  change (mjoin (to_le_bytes 4 <$> b :: bits)) with (to_le_bytes 4 b ++ mjoin (to_le_bytes 4 <$> bits)).
  rewrite byte_len_app, byte_len_le_bytes, IH. cbn [length]. lia.
Qed.

Lemma sort_op_roundtrip op : sort_op_ok op -> decode_sort_op (encode_sort_op op) = IoOk op.
Proof.
  assert (forall tag p b, b < 4294967296 -> read_le (tag :: p :: to_le_bytes 4 b) 2 6 = IoOk b) as Hb.
  { intros tag p b Hb. rewrite <- (app_nil_r (to_le_bytes 4 b)). by apply (read_le_app [tag; p] 4). }
  assert (forall tag p bits, bits_ok bits -> read_le (tag :: p :: u32s_bytes bits) 2 6 = IoOk (N.of_nat (length bits))
    /\ read_u32s (tag :: p :: u32s_bytes bits) 6 (length bits) = IoOk bits) as Hs by (intros tag p bits Hs; by apply (read_u32s_bytes [tag; p])).
  assert (forall tag p bits, byte_len (tag :: p :: u32s_bytes bits) = 6 + N.of_nat (length bits) * 4) as Hl.
  { intros tag p bits. change (tag :: p :: u32s_bytes bits) with ([tag; p] ++ u32s_bytes bits). rewrite byte_len_app, byte_len_u32s. change (byte_len [tag; p]) with 2. lia. }
  destruct op as [p b|p b|p bits|p bits]; intros H; unfold decode_sort_op; cbn [encode_sort_op].
  - rewrite Hb by done. done.
  - rewrite Hb by done. done.
  - destruct (Hs SORT_LAYER_OP_BATCH_SET p bits H) as [H1 H2]. rewrite H1, Hl. destruct (N.ltb_spec (6 + N.of_nat (length bits) * 4) 6); [lia|].
    cbn -[u32s_bytes read_u32s N.mul N.add]. rewrite N.ltb_irrefl, Nat2N.id, H2. done.
  - destruct (Hs SORT_LAYER_OP_BATCH_CLEAR p bits H) as [H1 H2]. rewrite H1, Hl. destruct (N.ltb_spec (6 + N.of_nat (length bits) * 4) 6); [lia|].
    cbn -[u32s_bytes read_u32s N.mul N.add]. rewrite N.ltb_irrefl, Nat2N.id, H2. done.
Qed.

(** ** Packed bitmaps *)

Section packed.
Context {B : Type} `{HB : Roaring B} `{!RoaringSerde B}.
Implicit Types (entries : list (N * B)) (bytes pre post : list N).

Definition insert_all (m : gmap N B) entries : gmap N B := foldl (fun m e => <[e.1 := e.2]> m) m entries.
Definition blobs entries : list N := mjoin (serialize_all entries).*2.

Lemma blobs_cons v b entries : blobs ((v, b) :: entries) = rb_serialize b ++ blobs entries.
Proof. done. Qed.

Lemma index_table_cons w off v b entries :
  index_table w off (serialize_all ((v, b) :: entries))
  = to_le_bytes w v ++ to_le_bytes 4 off ++ to_le_bytes 4 (wrap32 (byte_len (rb_serialize b)))
    ++ index_table w (wrap32 (off + wrap32 (byte_len (rb_serialize b)))) (serialize_all entries).
Proof. done. Qed.

Lemma unpack_spec w entries : forall bytes pre mid off dpre post data_start acc,
  Forall (fun e => e.1 < 256 ^ N.of_nat w) entries ->
  bytes = pre ++ index_table w off (serialize_all entries) ++ mid ->
  bytes = dpre ++ blobs entries ++ post -> byte_len dpre = data_start + off ->
  off + byte_len (blobs entries) < 4294967296 ->
  unpack (N.of_nat w) bytes (byte_len pre) data_start (length entries) acc = IoOk (insert_all acc entries).
Proof.
  induction entries as [|[v b] entries IH]; intros bytes pre mid off dpre post data_start acc Hids Hbytes Hblobs Hd Hsmall; [done|].
  apply Forall_cons in Hids as [Hv Hids]. cbn [fst] in Hv. rewrite blobs_cons, byte_len_app in Hsmall.
  assert (wrap32 (byte_len (rb_serialize b)) = byte_len (rb_serialize b)) as Hw1 by (apply N.mod_small; lia).
  assert (wrap32 (off + byte_len (rb_serialize b)) = off + byte_len (rb_serialize b)) as Hw2 by (apply N.mod_small; lia).
  rewrite index_table_cons, Hw1, Hw2, <- !app_assoc in Hbytes. cbn [length unpack].
  assert (read_le bytes (byte_len pre) (byte_len pre + N.of_nat w) = IoOk v) as -> by (rewrite Hbytes; by apply read_le_app).
  cbn [io_bind].
  assert (read_le bytes (byte_len pre + N.of_nat w) (byte_len pre + N.of_nat w + 4) = IoOk off) as ->.
  { rewrite Hbytes, app_assoc. apply (read_le_app _ 4); [lia| |lia]. by rewrite byte_len_app, byte_len_le_bytes. }
  cbn [io_bind].
  assert (read_le bytes (byte_len pre + N.of_nat w + 4) (byte_len pre + N.of_nat w + 8) = IoOk (byte_len (rb_serialize b))) as ->.
  { rewrite Hbytes, (app_assoc pre), (app_assoc (pre ++ to_le_bytes w v)).
    apply (read_le_app _ 4); [lia| |lia]. rewrite !byte_len_app, !byte_len_le_bytes. lia. }
  cbn [io_bind]. rewrite blobs_cons in Hblobs.
  assert (byte_len bytes = byte_len dpre + byte_len (rb_serialize b) + byte_len (blobs entries) + byte_len post) as Hlen
    by (rewrite Hblobs, !byte_len_app; lia).
  destruct (N.ltb_spec (byte_len bytes) (data_start + off + byte_len (rb_serialize b))); [lia|].
  rewrite <- Hd. rewrite Hblobs at 1. rewrite <- app_assoc, slice_after0, slice_here by done.
  unfold deserialize. rewrite rb_serde_roundtrip. cbn [io_bind].
  replace (byte_len pre + N.of_nat w + 8) with (byte_len (pre ++ to_le_bytes w v ++ to_le_bytes 4 off ++ to_le_bytes 4 (byte_len (rb_serialize b))))
    by (rewrite !byte_len_app, !byte_len_le_bytes; lia).
  apply (IH bytes _ mid (off + byte_len (rb_serialize b)) (dpre ++ rb_serialize b) post); [done| | |rewrite byte_len_app; lia|lia].
  - rewrite Hbytes. by rewrite <- !app_assoc.
  - rewrite Hblobs. by rewrite <- !app_assoc.
Qed.

Lemma insert_all_list_to_map entries m : NoDup entries.*1 -> insert_all m entries = list_to_map entries ∪ m.
Proof.
  revert m. induction entries as [|[v b] entries IH]; intros m Hnd; [symmetry; apply map_empty_union|].
  rewrite list_to_map_cons. cbn [insert_all foldl fst snd].
  apply NoDup_cons in Hnd as [Hv Hnd]. fold (insert_all (<[v := b]> m) entries). rewrite IH by done.
  rewrite <- insert_union_l. symmetry. apply insert_union_r. by apply not_elem_of_list_to_map_1.
Qed.

Lemma byte_len_index w : forall entries off, byte_len (index_table w off (serialize_all entries)) = N.of_nat (length entries) * (N.of_nat w + 8).
Proof.
  induction entries as [|[v b] entries IH]; intros off; [done|]. cbn [length].
  rewrite index_table_cons, !byte_len_app, !byte_len_le_bytes, IH. lia.
Qed.

(** *** Filter buckets *)

(** The values fit their 64-bit field and the packed bitmaps their 32-bit offsets. *)
Definition bucket_fits entries : Prop :=
  NoDup entries.*1 /\ Forall (fun e => e.1 < 18446744073709551616) entries
  /\ N.of_nat (length entries) < 4294967296 /\ byte_len (blobs entries) < 4294967296.

Lemma bucket_roundtrip entries : bucket_fits entries -> decode_bucket (encode_bucket entries) = IoOk (MkBucket (list_to_map entries)).
Proof.
  intros (Hnd & Hids & Hlen & Hb). unfold decode_bucket, encode_bucket, packed, wrap32. rewrite N.mod_small by done.
  rewrite !byte_len_app, byte_len_le_bytes, byte_len_index.
  match goal with |- context [?n <? 4] => destruct (N.ltb_spec n 4); [lia|] end.
  rewrite slice_here by apply byte_len_le_bytes. rewrite from_to_le_bytes_small by done.
  destruct (N.eqb_spec (N.of_nat (length entries)) 0) as [E|_]; [by destruct entries|].
  rewrite Nat2N.id. set (n := N.of_nat (length entries)).
  pose proof (unpack_spec 8 entries (to_le_bytes 4 n ++ index_table 8 0 (serialize_all entries) ++ blobs entries) (to_le_bytes 4 n) (blobs entries) 0
    (to_le_bytes 4 n ++ index_table 8 0 (serialize_all entries)) [] (4 + n * 16) ∅) as Hu.
  rewrite byte_len_le_bytes in Hu. change (mjoin (serialize_all entries).*2) with (blobs entries). change (N.of_nat 4) with 4 in Hu. change (N.of_nat 8) with 8 in Hu.
  rewrite Hu; [|done|done|by rewrite app_nil_r, <- app_assoc|rewrite byte_len_app, byte_len_le_bytes, byte_len_index; lia|lia].
  cbn [io_bind]. by rewrite insert_all_list_to_map, map_union_empty.
Qed.

(** *** Sort layers *)

Definition nonempty entries : list (N * B) := filter (fun l => rb_is_empty l.2 = false) entries.

Definition layers_fit entries : Prop :=
  NoDup entries.*1 /\ Forall (fun e => e.1 < 256) entries /\ (length (nonempty entries) < 256)%nat
  /\ byte_len (blobs (nonempty entries)) < 4294967296.

Lemma layers_roundtrip entries : layers_fit entries ->
  decode_layers (encode_from_layers entries) = IoOk (MkSortSnapshot (list_to_map (nonempty entries))).
Proof.
  intros (Hnd & Hids & Hlen & Hb). unfold encode_from_layers. fold (nonempty entries).
  assert (length (serialize_all (nonempty entries)) = length (nonempty entries)) as Hls by apply length_fmap.
  rewrite Hls, N.mod_small by lia. set (es := nonempty entries) in *. set (n := N.of_nat (length es)). unfold decode_layers.
  destruct (N.eqb_spec n 0) as [E|Hn0]; [by destruct es|].
  change (n :: packed 1 (serialize_all es)) with ([n] ++ index_table 1 0 (serialize_all es) ++ blobs es).
  rewrite !byte_len_app, byte_len_index. change (byte_len [n]) with 1. change (N.of_nat 1) with 1.
  match goal with |- context [?a <? ?b] => destruct (N.ltb_spec a b); [lia|] end.
  unfold n at 3. rewrite Nat2N.id.
  pose proof (unpack_spec 1 es ([n] ++ index_table 1 0 (serialize_all es) ++ blobs es) [n] (blobs es) 0
    ([n] ++ index_table 1 0 (serialize_all es)) [] (1 + n * 9) ∅) as Hu.
  change (byte_len [n]) with 1 in Hu. change (N.of_nat 1) with 1 in Hu.
  rewrite Hu; [|apply Forall_forall; intros e [_ He]%list_elem_of_filter; rewrite Forall_forall in Hids; by apply Hids|done|by rewrite app_nil_r, <- app_assoc|rewrite byte_len_app, byte_len_index; change (byte_len [n]) with 1; lia|lia].
  cbn [io_bind]. rewrite insert_all_list_to_map, map_union_empty; [done|]. unfold es, nonempty.
  eapply sublist_NoDup; [apply Hnd|]. apply fmap_sublist, sublist_filter.
Qed.

(** ** Laws *)

#[export] Instance rb_equivalence : Equivalence (≡@{B}).
Proof. split; [by intros a x|intros a b H x; by rewrite (H x)|intros a b c H1 H2 x; by rewrite (H1 x)]. Qed.

#[export] Instance bucket_equiv : Equiv (BucketSnapshot B) := eq.
#[export] Instance sort_snapshot_equiv : Equiv (SortFieldSnapshot B) :=
  fun s1 s2 => forall pos, default rb_new (layers s1 !! pos) ≡ default rb_new (layers s2 !! pos).

#[export, refine] Instance BucketLaws : SnapshotLaws (BucketSnapshot B) := {|
  snapshot_ok s := bucket_fits (map_to_list (values s));
|}.
Proof.
  - intros s Hs. cbn [sc_encode sc_decode BucketSnapshotCodec]. rewrite bucket_roundtrip by done. eexists. split; [done|].
    destruct s as [m]. cbn [values]. by rewrite list_to_map_to_list.
  - intros s Hs E. apply (f_equal byte_len) in E. cbn [sc_encode BucketSnapshotCodec] in E. unfold encode_bucket in E.
    rewrite byte_len_app, byte_len_le_bytes in E. change (byte_len []) with 0 in E. lia.
Defined.

#[export, refine] Instance FilterOpLaws : OpLaws FilterOp (BucketSnapshot B) := {| op_ok := filter_op_ok |}.
Proof. apply filter_op_roundtrip. Defined.

(** The portable format always starts with a cookie. *)
#[export, refine] Instance BitmapLaws : SnapshotLaws B := {| snapshot_ok b := rb_serialize b <> [] |}.
Proof.
  - intros b _. exists b. split; [|done]. cbn. unfold deserialize. by rewrite rb_serde_roundtrip.
  - intros b Hb. by intros.
Defined.

Lemma elem_of_set_bits bits : forall (b : B) x, x ∈ set_bits b bits <-> x ∈ b \/ x ∈ bits.
Proof.
  induction bits as [|y bits IH]; intros b x; [cbn; rewrite elem_of_nil; tauto|]. change (set_bits b (y :: bits)) with (set_bits (rb_insert b y) bits).
  rewrite IH, rb_elem_of_insert, elem_of_cons. tauto.
Qed.

Lemma elem_of_clear_bits bits : forall (b : B) x, x ∈ clear_bits b bits <-> x ∈ b /\ x ∉ bits.
Proof.
  induction bits as [|y bits IH]; intros b x; [cbn; rewrite elem_of_nil; tauto|]. change (clear_bits b (y :: bits)) with (clear_bits (rb_remove b y) bits).
  rewrite IH, rb_elem_of_remove, elem_of_cons. tauto.
Qed.

#[export] Instance set_bits_proper : Proper ((≡) ==> (=) ==> (≡)) (set_bits (B := B)).
Proof. intros a b H l l' -> x. rewrite !elem_of_set_bits. by rewrite (H x). Qed.
#[export] Instance clear_bits_proper : Proper ((≡) ==> (=) ==> (≡)) (clear_bits (B := B)).
Proof. intros a b H l l' -> x. rewrite !elem_of_clear_bits. by rewrite (H x). Qed.

#[export, refine] Instance BitmapOpLaws : OpLaws BitmapOp B := {| op_ok := bitmap_op_ok |}.
Proof.
  - apply bitmap_op_roundtrip.
  - intros b b' Hb op op' <-. cbn. destruct op; cbn [apply_bitmap_op]; by rewrite Hb.
Defined.

Lemma entry_set_default (m : gmap N B) key bits pos :
  default rb_new (entry_set m key bits !! pos) = (if decide (pos = key) then set_bits (default rb_new (m !! key)) bits else default rb_new (m !! pos)).
Proof. unfold entry_set. destruct (decide (pos = key)) as [->|Hne]; [by rewrite lookup_insert_eq|by rewrite lookup_insert_ne]. Qed.

Lemma clear_bits_new bits : clear_bits (rb_new : B) bits ≡ rb_new.
Proof. intros x. rewrite elem_of_clear_bits. pose proof (rb_elem_of_new (B := B) x). tauto. Qed.

Lemma entry_clear_default (m : gmap N B) key bits pos :
  default rb_new (entry_clear m key bits !! pos)
  ≡ (if decide (pos = key) then clear_bits (default rb_new (m !! key)) bits else default rb_new (m !! pos)).
Proof.
  unfold entry_clear. destruct (decide (pos = key)) as [->|Hne]; [|by rewrite lookup_alter_ne].
  rewrite lookup_alter_eq. destruct (m !! key); cbn [default fmap option_fmap option_map from_option]; [done|]. symmetry. apply clear_bits_new.
Qed.

#[export] Instance apply_sort_op_proper : Proper ((≡) ==> (=) ==> (≡)) (apply_op (O := SortLayerOp) (S := SortFieldSnapshot B)).
Proof.
  intros [m] [m'] Hm op op' <- pos. unfold equiv, sort_snapshot_equiv in Hm. cbn [layers] in Hm. cbn [apply_op SortLayerOpCodec layers].
  destruct op; cbn [apply_sort_op]; rewrite ?entry_set_default, ?entry_clear_default; destruct (decide _); rewrite ?Hm; done.
Qed.

#[export, refine] Instance SortOpLaws : OpLaws SortLayerOp (SortFieldSnapshot B) := {| op_ok := sort_op_ok |}.
Proof. apply sort_op_roundtrip. Defined.

Lemma ascending_perm (m : gmap N B) : ascending m ≡ₚ map_to_list m.
Proof. apply merge_sort_Permutation. Qed.

(** Dropping empty layers changes no layer. *)
Lemma nonempty_layers entries pos : NoDup entries.*1 ->
  default rb_new ((list_to_map (nonempty entries) : gmap N B) !! pos) ≡ default rb_new ((list_to_map entries : gmap N B) !! pos).
Proof.
  induction entries as [|[v b] entries IH]; intros Hnd; [done|]. apply NoDup_cons in Hnd as [Hv Hnd]. specialize (IH Hnd).
  unfold nonempty. rewrite filter_cons. fold (nonempty entries). rewrite list_to_map_cons. cbn [snd]. case_decide as Hb.
  - rewrite list_to_map_cons. destruct (decide (pos = v)) as [->|Hne]; [by rewrite !lookup_insert_eq|by rewrite !lookup_insert_ne].
  - destruct (decide (pos = v)) as [->|Hne]; [|by rewrite lookup_insert_ne]. rewrite lookup_insert_eq, IH.
    rewrite (not_elem_of_list_to_map_1 entries v) by done. cbn. apply not_false_iff_true in Hb. rewrite rb_is_empty_spec in Hb.
    intros x. specialize (Hb x). pose proof (rb_elem_of_new (B := B) x). tauto.
Qed.

#[export] Instance sort_snapshot_equivalence : Equivalence (≡@{SortFieldSnapshot B}).
Proof. split; [by intros s pos|by intros s t H pos|by intros s t u H1 H2 pos; rewrite (H1 pos)]. Qed.

#[export, refine] Instance SortLaws : SnapshotLaws (SortFieldSnapshot B) := {|
  snapshot_ok s := layers_fit (ascending (layers s));
|}.
Proof.
  - intros s Hs. cbn [sc_encode sc_decode SortFieldSnapshotCodec]. rewrite layers_roundtrip by done. eexists. split; [done|].
    intros pos. cbn [layers]. rewrite nonempty_layers by apply Hs. destruct Hs as (Hnd & _).
    rewrite (list_to_map_proper (M := gmap N) _ (map_to_list (layers s))); [by rewrite list_to_map_to_list|done|apply ascending_perm].
  - done.
Defined.

End packed.

(** ** Shard paths *)

Lemma name_extension (dirs : list string) (name : string) : name <> EmptyString ->
  extension (dirs, name ++ ".shard")%string = Some "shard"%string.
Proof.
  intros Hne. unfold extension. cbn [snd]. change ".shard"%string with ("." ++ "shard")%string. rewrite rsplit_dot_app by done. by destruct name.
Qed.

Lemma below_256 (P : N -> Prop) `{!forall n, Decision (P n)} :
  forallb (fun n => bool_decide (P n)) (N.of_nat <$> seq 0 256) = true -> forall n, n < 256 -> P n.
Proof.
  intros Hall n Hn. rewrite forallb_forall in Hall. apply (bool_decide_eq_true_1 (P n)), Hall, list_elem_of_In, list_elem_of_fmap.
  exists (N.to_nat n). split; [lia|]. apply elem_of_seq. lia.
Qed.

(** A bucket's file name can be read back. *)
Lemma hex2_roundtrip b : b < 256 -> from_str_radix16 (hex2 b) = Some b.
Proof. revert b. refine (below_256 _ _). vm_compute. reflexivity. Qed.

Lemma pad2_roundtrip b : b < 256 -> parse_dec 255 (pad2 (print_dec b)) = Some b.
Proof. revert b. refine (below_256 _ _). vm_compute. reflexivity. Qed.

(** Directory listings find the keys whose shards exist. *)
Lemma filter_key_roundtrip key : fk_bucket key < 256 -> filter_key_of (shard_path key) = Some key.
Proof.
  intros Hb. destruct key as [f b]. cbn [shard_path FieldValueBucketShard filter_key_of fst snd fk_field fk_bucket]. rewrite bool_decide_eq_true_2 by done.
  rewrite strip_suffix_app. cbn [mbind option_bind]. by rewrite hex2_roundtrip.
Qed.

Lemma layer_key_roundtrip key : lk_bit key < 256 -> layer_key_of (shard_path key) = Some key.
Proof.
  intros Hb. destruct key as [f b]. cbn [shard_path SortLayerShard layer_key_of fst snd lk_field lk_bit]. rewrite bool_decide_eq_true_2 by done.
  change (strip_bit _) with (Some (pad2 (print_dec b) ++ ".shard")%string). cbn [mbind option_bind]. rewrite strip_suffix_app. cbn [mbind option_bind]. by rewrite pad2_roundtrip.
Qed.

Lemma sort_key_roundtrip key : sort_key_of (shard_path key) = Some key.
Proof. destruct key as [f]. cbn [shard_path SortFieldShard sort_key_of fst snd sk_field]. rewrite bool_decide_eq_true_2 by done. by rewrite strip_suffix_app. Qed.

#[export, refine] Instance FilterSharding : ShardingLaws FilterBucketKey := {| key_ok key := fk_bucket key < 256 |}.
Proof.
  - intros k1 k2 H1 H2 E. apply (f_equal filter_key_of) in E. rewrite !filter_key_roundtrip in E by done. congruence.
  - intros k Hk. by apply name_extension.
Defined.

#[export, refine] Instance LayerSharding : ShardingLaws SortLayerShardKey := {| key_ok key := lk_bit key < 256 |}.
Proof.
  - intros k1 k2 H1 H2 E. apply (f_equal layer_key_of) in E. rewrite !layer_key_roundtrip in E by done. congruence.
  - intros k Hk. by apply (name_extension ["sort"; lk_field k]%string ("bit" ++ pad2 (print_dec (lk_bit k)))).
Defined.

#[export, refine] Instance SortSharding : ShardingLaws SortFieldShardKey := {| key_ok key := sk_field key <> EmptyString |}.
Proof.
  - intros k1 k2 H1 H2 E. apply (f_equal sort_key_of) in E. rewrite !sort_key_roundtrip in E by done. congruence.
  - intros k Hk. by apply name_extension.
Defined.

#[export, refine] Instance AliveSharding : ShardingLaws AliveShardKey := {| key_ok _ := True |}.
Proof.
  - by intros [] [].
  - done.
Defined.

(** ** Reading values through the index table *)

Section indexed.
Context `{CK : Checksum} {B : Type} `{HB : Roaring B} `{RS : !RoaringSerde B}.
Implicit Types (entries : list (N * B)) (data pre post : list N) (wanted : gset N) (m : gmap N B).

Notation op_fits := (op_fits (O := FilterOp) (S := BucketSnapshot B)).
Notation shard_file := (shard_file (O := FilterOp) (S := BucketSnapshot B)).
Notation shard_holds := (shard_holds (O := FilterOp) (S := BucketSnapshot B)).

(** Where the wanted bitmaps are. *)
Fixpoint located_at wanted (pos : N) entries : list (N * N * N) :=
  match entries with
  | [] => []
  | (v, b) :: entries =>
      let len := byte_len (rb_serialize b) in
      (if bool_decide (v ∈ wanted) then [(v, pos, len)] else []) ++ located_at wanted (pos + len) entries
  end.

Lemma find_wanted_spec wanted ds send entries : forall pre post off found,
  Forall (fun e => e.1 < 18446744073709551616) entries ->
  off + byte_len (blobs entries) < 4294967296 -> ds + off + byte_len (blobs entries) <= send ->
  find_wanted (pre ++ index_table 8 off (serialize_all entries) ++ post) wanted ds send (length entries) (byte_len pre) found
  = IoOk (found ++ located_at wanted (ds + off) entries).
Proof.
  induction entries as [|[v b] entries IH]; intros pre post off found Hids Hsmall Hend; [by rewrite app_nil_r|].
  apply Forall_cons in Hids as [Hv Hids]. cbn [fst] in Hv. rewrite blobs_cons, byte_len_app in Hsmall, Hend.
  assert (wrap32 (byte_len (rb_serialize b)) = byte_len (rb_serialize b)) as Hw1 by (apply N.mod_small; lia).
  assert (wrap32 (off + byte_len (rb_serialize b)) = off + byte_len (rb_serialize b)) as Hw2 by (apply N.mod_small; lia).
  rewrite index_table_cons, Hw1, Hw2. set (len := byte_len (rb_serialize b)) in *. rewrite <- !app_assoc. cbn [length find_wanted located_at].
  set (rest := index_table 8 (off + len) (serialize_all entries) ++ post).
  set (buf := pre ++ to_le_bytes 8 v ++ to_le_bytes 4 off ++ to_le_bytes 4 len ++ rest).
  assert (from_le_bytes (slice buf (byte_len pre) (byte_len pre + 8)) = v) as -> by (by apply slice_le_app).
  assert (from_le_bytes (slice buf (byte_len pre + 8) (byte_len pre + 12)) = off) as ->.
  { unfold buf. rewrite app_assoc. apply (slice_le_app _ 4); [lia| |lia]. by rewrite byte_len_app, byte_len_le_bytes. }
  assert (from_le_bytes (slice buf (byte_len pre + 12) (byte_len pre + 16)) = len) as ->.
  { unfold buf. rewrite !(app_assoc pre), (app_assoc (pre ++ _)). apply (slice_le_app _ 4); [lia| |lia]. rewrite !byte_len_app, !byte_len_le_bytes. lia. }
  assert (buf = (pre ++ to_le_bytes 8 v ++ to_le_bytes 4 off ++ to_le_bytes 4 len) ++ rest) as -> by (unfold buf; by rewrite <- !app_assoc).
  replace (byte_len pre + 16) with (byte_len (pre ++ to_le_bytes 8 v ++ to_le_bytes 4 off ++ to_le_bytes 4 len))
    by (rewrite !byte_len_app, !byte_len_le_bytes; lia).
  case_bool_decide; [destruct (N.ltb_spec send (ds + off + len)); [lia|]|]; unfold rest; rewrite IH by (done || lia);
    rewrite <- ?app_assoc; by replace (ds + (off + len)) with (ds + off + len) by lia.
Qed.

(** A located bitmap of [entries] in [data]. *)
Definition located data entries (f : N * N * N) : Prop :=
  exists b, (f.1.1, b) ∈ entries /\ f.1.2 + f.2 <= byte_len data /\ slice data f.1.2 (f.1.2 + f.2) = rb_serialize b.

Lemma located_at_located wanted entries : forall data all pre post, data = pre ++ blobs entries ++ post -> (forall e, e ∈ entries -> e ∈ all) ->
  Forall (located data all) (located_at wanted (byte_len pre) entries).
Proof.
  induction entries as [|[v b] entries IH]; intros data all pre post Hd Hall; [constructor|]. cbn [located_at]. rewrite blobs_cons, <- app_assoc in Hd.
  apply Forall_app. split.
  - case_bool_decide; [|constructor]. constructor; [|constructor]. exists b. cbn [fst snd]. split; [apply Hall; by left|]. split.
    + rewrite Hd, !byte_len_app. lia.
    + rewrite Hd, slice_after0. by apply slice_here.
  - rewrite <- byte_len_app. apply (IH data all _ post); [by rewrite Hd, <- app_assoc|]. intros e He. apply Hall. by right.
Qed.

Lemma located_at_values wanted entries v : forall pos, v ∈ (located_at wanted pos entries).*1.*1 <-> v ∈ wanted /\ v ∈ entries.*1.
Proof.
  induction entries as [|[v' b] entries IH]; intros pos; [cbn; rewrite !elem_of_nil; tauto|]. cbn [located_at].
  rewrite !fmap_app, elem_of_app, IH, fmap_cons, elem_of_cons. cbn [fst]. case_bool_decide; cbn; rewrite ?list_elem_of_singleton, ?elem_of_nil; naive_solver.
Qed.

Lemma read_found_spec data entries found : forall m, Forall (located data entries) found -> NoDup entries.*1 ->
  exists m', read_found data found m = IoOk m'
    /\ forall v, m' !! v = if decide (v ∈ found.*1.*1) then (list_to_map entries : gmap N B) !! v else m !! v.
Proof.
  induction found as [|[[v abs] len] found IH]; intros m Hf Hnd; [exists m; split; [done|]; intros v; by rewrite decide_False by apply not_elem_of_nil|].
  apply Forall_cons in Hf as [(b & Hb & Hend & Hs) Hf]. cbn [fst snd] in *. cbn [read_found].
  destruct (N.ltb_spec (byte_len data) (abs + len)); [lia|]. rewrite Hs. unfold deserialize. rewrite rb_serde_roundtrip. cbn [io_bind].
  destruct (IH (<[v := b]> m) Hf Hnd) as (m' & -> & Hm'). exists m'. split; [done|]. intros v'. rewrite Hm'. cbn [fmap list_fmap].
  destruct (decide (v' ∈ found.*1.*1)); [by rewrite decide_True by (by right)|]. destruct (decide (v' = v)) as [->|Hne].
  - rewrite decide_True by (by left). rewrite lookup_insert_eq. symmetry. by apply elem_of_list_to_map_1.
  - rewrite decide_False by (rewrite elem_of_cons; naive_solver). by rewrite lookup_insert_ne.
Qed.

(** The operations of other values do not matter. *)
Lemma filter_replay wanted ops : forall m,
  foldl (fun m op => if bool_decide (op_value op ∈ wanted) then apply_filter_op m op else m) (filter (fun vb => vb.1 ∈ wanted) m) ops
  = filter (fun vb => vb.1 ∈ wanted) (foldl apply_filter_op m ops).
Proof.
  induction ops as [|op ops IH]; intros m; [done|]. cbn [foldl]. rewrite <- IH. f_equal.
  apply map_eq. intros v. case_bool_decide as Hop; destruct op; cbn [op_value apply_filter_op] in *; unfold entry_set, entry_clear;
    repeat rewrite ?map_lookup_filter, ?lookup_insert, ?lookup_alter; repeat case_decide; subst; repeat destruct (m !! _); cbn; repeat (case_guard; cbn); done.
Qed.

Lemma located_wanted data entries wanted pre post : data = pre ++ blobs entries ++ post -> NoDup entries.*1 ->
  read_found data (merge_sort abs_le (located_at wanted (byte_len pre) entries)) ∅
  = IoOk (filter (fun vb => vb.1 ∈ wanted) (list_to_map entries : gmap N B)).
Proof.
  intros Hd Hnd. set (found := located_at wanted (byte_len pre) entries).
  assert (merge_sort abs_le found ≡ₚ found) as Hp by apply merge_sort_Permutation.
  destruct (read_found_spec data entries (merge_sort abs_le found) ∅) as (m & -> & Hm); [|done|].
  - rewrite Hp. by apply (located_at_located wanted entries data entries pre post).
  - f_equal. apply map_eq. intros v. rewrite Hm, map_lookup_filter, lookup_empty.
    assert (v ∈ (merge_sort abs_le found).*1.*1 <-> v ∈ wanted /\ v ∈ entries.*1) as Hv by (rewrite Hp; apply located_at_values).
    destruct (list_to_map entries !! v) as [b|] eqn:E; cbn.
    + apply elem_of_list_to_map_2 in E. assert (v ∈ entries.*1) by (apply list_elem_of_fmap; by exists (v, b)).
      case_decide; case_guard; cbn; done || tauto.
    + by destruct (decide _).
Qed.

(** The snapshot section of a bucket: empty, or written by the encoder. *)
Definition bucket_section (snapb : list N) entries : Prop :=
  (snapb = [] /\ entries = []) \/ (snapb = encode_bucket entries /\ bucket_fits entries).

Lemma read_index_spec snapb entries ops wanted : bucket_section snapb entries ->
  read_index (shard_file snapb ops) (shard_header snapb ops) wanted
  = IoOk (filter (fun vb => vb.1 ∈ wanted) (list_to_map entries : gmap N B)).
Proof.
  intros [[-> ->]|[-> (Hnd & Hids & Hlen & Hb)]]; [done|]. unfold read_index. set (n := N.of_nat (length entries)) in *.
  set (hb := ShardHeader.encode (shard_header (encode_bucket entries) ops)).
  assert (byte_len hb = 28) as Hhb by apply byte_len_header.
  assert (byte_len (encode_bucket entries) = 4 + n * 16 + byte_len (blobs entries)) as Hlen'.
  { unfold encode_bucket, packed. rewrite !byte_len_app, byte_len_le_bytes, byte_len_index. change (mjoin _) with (blobs entries). lia. }
  assert (shard_file (encode_bucket entries) ops
    = hb ++ to_le_bytes 4 n ++ index_table 8 0 (serialize_all entries) ++ blobs entries ++ write_op_entries (S := BucketSnapshot B) ops) as Hfile.
  { unfold shard_file, shard_bytes, encode_bucket, packed, wrap32. fold n. rewrite N.mod_small by done. by rewrite <- !app_assoc. }
  cbn [shard_header ShardHeader.snapshot_len]. rewrite Hlen'. unfold SHARD_HEADER_SIZE. destruct (N.leb_spec 4 (4 + n * 16 + byte_len (blobs entries))); [|lia].
  assert (from_le_bytes (slice (shard_file (encode_bucket entries) ops) 28 (28 + 4)) = n) as -> by (rewrite Hfile; by apply slice_le_app).
  destruct (N.ltb_spec 0 n) as [Hn|Hn]; [|by assert (entries = []) as -> by (destruct entries; [done|cbn in n; lia])].
  destruct (N.ltb_spec (4 + n * 16 + byte_len (blobs entries)) (4 + n * 16)); [lia|].
  assert (slice (shard_file (encode_bucket entries) ops) (28 + 4) (28 + 4 + n * 16) = index_table 8 0 (serialize_all entries)) as ->.
  { rewrite Hfile, (app_assoc hb). replace (28 + 4) with (byte_len (hb ++ to_le_bytes 4 n)) by (rewrite byte_len_app, byte_len_le_bytes; lia).
    rewrite slice_after0. apply slice_here. rewrite byte_len_index. lia. }
  pose proof (find_wanted_spec wanted (28 + 4 + n * 16) (28 + (4 + n * 16 + byte_len (blobs entries))) entries [] [] 0 []) as Hfind.
  change (byte_len []) with 0 in Hfind. cbn [app] in Hfind. rewrite app_nil_r in Hfind. replace (N.to_nat n) with (length entries) by lia.
  rewrite Hfind by (done || lia). cbn [io_bind]. rewrite N.add_0_r.
  rewrite Hfile, (app_assoc hb), (app_assoc (hb ++ _)).
  replace (28 + 4 + n * 16) with (byte_len ((hb ++ to_le_bytes 4 n) ++ index_table 8 0 (serialize_all entries)))
    by (rewrite !byte_len_app, byte_len_le_bytes, byte_len_index; lia).
  by apply (located_wanted _ _ _ _ (write_op_entries (S := BucketSnapshot B) ops)).
Qed.

Lemma bucket_section_base snapb entries s0 : bucket_section snapb entries -> base_of snapb s0 -> s0 = MkBucket (list_to_map entries : gmap N B).
Proof.
  intros [[-> ->]|[-> Hf]]; [done|]. unfold base_of. destruct (encode_bucket entries) eqn:E; [|rewrite <- E; cbn [sc_decode BucketSnapshotCodec]; rewrite bucket_roundtrip by done; by intros [=]].
  apply (f_equal byte_len) in E. unfold encode_bucket in E. rewrite byte_len_app, byte_len_le_bytes in E. change (byte_len []) with 0 in E. lia.
Qed.

Lemma values_replay ops (s : BucketSnapshot B) : values (foldl apply_op s ops) = foldl apply_filter_op (values s) ops.
Proof. revert s. induction ops as [|op ops IH]; intros s; [done|]. cbn [foldl]. by rewrite IH. Qed.

Lemma filter_wanted_set (wanted : list N) m : filter (fun vb => vb.1 ∈ (list_to_set wanted : gset N)) m = filter (fun vb => vb.1 ∈ wanted) m.
Proof. apply map_filter_ext. intros v b _. cbn. apply elem_of_list_to_set. Qed.

(** C28: reading some values of a filter bucket through its index table, without loading
    the bucket, gives the same bitmaps as reading the whole bucket and keeping those
    values: the offsets of the table find the right bytes, values that are not in the
    bucket are left out, and only the operations on wanted values are replayed. *)
Theorem indexed_read_exact st key (wanted : list N) data snapb entries ops s0 s :
  ShardStore.tree st !! shard_path key = Some data -> shard_holds data snapb ops s0 s -> bucket_section snapb entries ->
  exists full, ShardStore.read (S := BucketSnapshot B) (O := FilterOp) st key = IoOk (Some full)
    /\ read_bucket_values_indexed st key wanted = IoOk (filter (fun vb => vb.1 ∈ wanted) (values full)).
Proof.
  intros Hd Hh Hsec. pose proof (sh_data _ _ _ _ _ Hh) as E. rewrite E in Hd, Hh.
  assert (is_valid_shard_file (ShardStore.tree st) (shard_path key) = true) as Hvalid
    by (apply (valid_shard _ _ snapb ops []); by rewrite app_nil_r).
  pose proof (sh_value _ _ _ _ _ Hh) as Hs. exists s. split.
  - unfold ShardStore.read, ShardStore.read_unlocked. rewrite Hd, Hvalid. cbn [negb].
    destruct (materialize_shard _ _ _ _ _ Hh) as (s' & -> & Hs'). cbn [io_bind]. by rewrite Hs'.
  - unfold read_bucket_values_indexed. destruct wanted as [|w ws].
    { f_equal. apply map_eq. intros v. rewrite map_lookup_filter, lookup_empty. destruct (values s !! v); [|done]. cbn. case_guard as Hv; [by destruct (not_elem_of_nil _ Hv)|done]. }
    set (wanted := w :: ws). rewrite Hvalid, Hd. cbn [negb default from_option].
    pose proof (read_header_shard snapb ops [] (sh_len _ _ _ _ _ Hh) (sh_count _ _ _ _ _ Hh)) as Hhd. rewrite app_nil_r in Hhd.
    unfold id. rewrite Hhd. cbn [io_bind]. rewrite (read_index_spec _ entries) by done.
    cbn [shard_header ShardHeader.snapshot_len ShardHeader.ops_section_offset ShardHeader.ops_count io_bind]. rewrite shard_file_len, N.ltb_irrefl.
    unfold SHARD_HEADER_SIZE. destruct (N.ltb_spec (28 + byte_len snapb + byte_len (write_op_entries (S := BucketSnapshot B) ops)) (28 + byte_len snapb)); [lia|].
    cbn [orb]. rewrite (bucket_section_base _ _ _ Hsec (sh_base _ _ _ _ _ Hh)) in Hs. apply (f_equal values) in Hs. rewrite values_replay in Hs. cbn [values] in Hs.
    rewrite Hs, <- filter_wanted_set, <- filter_replay. destruct ops as [|op ops]; [done|].
    change (0 <? N.of_nat (length (op :: ops))) with true. rewrite drop_shard_ops, read_op_entries_all by apply Hh. done.
Qed.

End indexed.

(** ** Sort layers *)

Section sort_layers.
Context `{CK : Checksum} {B : Type} `{HB : Roaring B} `{RS : !RoaringSerde B}.
Implicit Types (ls : list B) (s : SortFieldSnapshot B) (ops : list SortLayerOp).

Notation op_fits := (op_fits (O := SortLayerOp) (S := SortFieldSnapshot B)).
Notation shard_file := (shard_file (O := SortLayerOp) (S := SortFieldSnapshot B)).
Notation shard_holds := (shard_holds (O := SortLayerOp) (S := SortFieldSnapshot B)).

Context (field : string) (bits : nat) (Hbits : (bits < 256)%nat).

(** What the operations mean for the list of layers. *)
Definition apply_layer ls (op : SortLayerOp) : list B :=
  match op with
  | LSetBit p slot => alter (fun b => set_bits b [slot]) (N.to_nat p) ls
  | LClearBit p slot => alter (fun b => clear_bits b [slot]) (N.to_nat p) ls
  | LBatchSet p slots => alter (fun b => set_bits b slots) (N.to_nat p) ls
  | LBatchClear p slots => alter (fun b => clear_bits b slots) (N.to_nat p) ls
  end.

Lemma layer_list_lookup s i : layer_list s bits !! i = if decide (i < bits)%nat then Some (default rb_new (layers s !! N.of_nat i)) else None.
Proof.
  unfold layer_list. rewrite list_lookup_fmap. destruct (decide (i < bits)%nat).
  - rewrite lookup_seq_lt by done. cbn. by rewrite N.mod_small by lia.
  - by rewrite lookup_seq_ge by lia.
Qed.

Lemma layer_list_apply s op : layer_list (apply_op s op) bits ≡ apply_layer (layer_list s bits) op.
Proof.
  apply list_equiv_lookup. intros i. destruct op as [p x|p x|p l|p l]; cbn [apply_layer apply_op SortLayerOpCodec apply_sort_op];
    destruct (decide (i = N.to_nat p)) as [->|Hne]; rewrite ?list_lookup_alter_eq, ?list_lookup_alter_ne, !layer_list_lookup by done;
    cbn [layers]; rewrite ?N2Nat.id; (destruct (decide (_ < bits)%nat); [|done]); cbn; constructor;
    rewrite ?entry_set_default, ?entry_clear_default; case_decide; done || lia.
Qed.

Lemma layer_list_proper s s' : s ≡ s' -> layer_list s bits ≡ layer_list s' bits.
Proof. intros H. apply list_equiv_lookup. intros i. rewrite !layer_list_lookup. case_decide; [|done]. constructor. apply H. Qed.

#[local] Instance apply_layer_proper : Proper ((≡) ==> (=) ==> (≡)) apply_layer.
Proof.
  intros ls ls' H op op' <-. apply list_equiv_lookup. intros i. rewrite list_equiv_lookup in H.
  destruct op as [p x|p x|p l|p l]; cbn [apply_layer]; destruct (decide (i = N.to_nat p)) as [->|Hne];
    rewrite ?list_lookup_alter_eq, ?list_lookup_alter_ne by done; try apply H;
    specialize (H (N.to_nat p)); inversion H as [a b Hab|]; cbn; constructor; by rewrite Hab.
Qed.

Lemma layer_list_replay ops : forall s ls, layer_list s bits ≡ ls -> layer_list (foldl apply_op s ops) bits ≡ foldl apply_layer ls ops.
Proof. induction ops as [|op ops IH]; intros s ls H; [done|]. cbn [foldl]. apply IH. by rewrite layer_list_apply, H. Qed.

(** Numbering and dropping empty layers. *)
Lemma numbered_lookup ls i e : (length ls < 256)%nat -> numbered ls !! i = Some e <-> exists b, ls !! i = Some b /\ e = (N.of_nat i, b).
Proof.
  intros Hl. unfold numbered. rewrite list_lookup_imap. destruct (ls !! i) as [b|] eqn:E; cbn; [|naive_solver].
  apply lookup_lt_Some in E. rewrite N.mod_small by lia. naive_solver.
Qed.

Lemma numbered_fst ls : (length ls < 256)%nat -> (numbered ls).*1 = N.of_nat <$> seq 0 (length ls).
Proof.
  intros Hl. apply list_eq. intros i. unfold numbered. rewrite !list_lookup_fmap, list_lookup_imap. destruct (ls !! i) as [b|] eqn:E; cbn.
  - apply lookup_lt_Some in E. by rewrite lookup_seq_lt, N.mod_small by lia.
  - apply lookup_ge_None in E. by rewrite lookup_seq_ge.
Qed.

Lemma numbered_map ls i : (length ls < 256)%nat -> (list_to_map (numbered ls) : gmap N B) !! N.of_nat i = ls !! i.
Proof.
  intros Hl. assert (NoDup (numbered ls).*1) as Hnd by (rewrite numbered_fst by done; apply NoDup_fmap_2_strong; [lia|apply NoDup_seq]).
  destruct (ls !! i) as [b|] eqn:E.
  - apply elem_of_list_to_map_1; [done|]. apply list_elem_of_lookup. exists i. apply numbered_lookup; [done|]. by exists b.
  - apply not_elem_of_list_to_map_1. rewrite numbered_fst by done. intros (j & Hj & Hs)%list_elem_of_fmap. apply elem_of_seq in Hs. apply lookup_ge_None in E. lia.
Qed.

Lemma numbered_layer_list s :
  numbered (layer_list s bits) = (fun bit => (N.of_nat bit mod 256, default rb_new (layers s !! (N.of_nat bit mod 256)))) <$> seq 0 bits.
Proof.
  apply list_eq. intros i. unfold numbered, layer_list. rewrite list_lookup_imap, !list_lookup_fmap.
  destruct (decide (i < bits)%nat); [by rewrite !lookup_seq_lt|by rewrite !lookup_seq_ge by lia].
Qed.

(** Compaction keeps the layers present in the snapshot; the others are empty anyway. *)
Lemma nonempty_kept s (l : list nat) :
  nonempty (omap (fun bit => let pos := N.of_nat bit mod 256 in bm ← layers s !! pos; Some (pos, bm)) l)
  = nonempty ((fun bit => (N.of_nat bit mod 256, default rb_new (layers s !! (N.of_nat bit mod 256)))) <$> l).
Proof.
  induction l as [|i l IH]; [done|]. cbn [omap list_omap fmap list_fmap]. unfold nonempty in *.
  destruct (layers s !! (N.of_nat i mod 256)) as [b|] eqn:E; cbn [mbind option_bind default from_option id].
  - rewrite !filter_cons. cbn [snd]. by rewrite IH.
  - rewrite IH, filter_cons, decide_False; [done|]. cbn [snd]. apply not_false_iff_true, rb_is_empty_spec. apply rb_elem_of_new.
Qed.

Lemma encode_nonempty (es es' : list (N * B)) : nonempty es = nonempty es' -> encode_from_layers es = encode_from_layers es'.
Proof. unfold nonempty, encode_from_layers. by intros ->. Qed.

(** A list of layers whose encodings fit the 32-bit length of a snapshot. *)
Definition writable ls : Prop :=
  length ls = bits /\ forall ls', ls' ≡ ls -> byte_len (encode_from_layers (numbered ls')) < 4294967296.

Lemma writable_equiv ls ls' : ls' ≡ ls -> writable ls -> writable ls'.
Proof.
  intros E [Hl Hw]. split; [by rewrite E|]. intros ls'' E'. apply Hw. by rewrite E'.
Qed.

Lemma layers_written ls : writable ls -> exists s, decode_layers (encode_from_layers (numbered ls)) = IoOk s /\ layer_list s bits ≡ ls.
Proof.
  intros [Hl Hw]. specialize (Hw ls (reflexivity _)). assert (length ls < 256)%nat as Hl' by lia.
  assert (NoDup (numbered ls).*1) as Hnd by (rewrite numbered_fst by done; apply NoDup_fmap_2_strong; [lia|apply NoDup_seq]).
  eexists. split; [apply layers_roundtrip; split_and!; [done| | |]|].
  - apply Forall_forall. intros e (i & Hi)%list_elem_of_lookup. apply numbered_lookup in Hi as (b & Hi & ->); [|done].
    apply lookup_lt_Some in Hi. cbn. lia.
  - eapply Nat.le_lt_trans; [apply length_filter|]. unfold numbered. rewrite length_imap. lia.
  - unfold encode_from_layers, packed in Hw. fold (nonempty (numbered ls)) in Hw. unfold blobs.
    match type of Hw with byte_len (?x :: ?y ++ ?z) < _ => change (x :: y ++ z) with ([x] ++ y ++ z) in Hw end. rewrite !byte_len_app in Hw. lia.
  - apply list_equiv_lookup. intros i. rewrite layer_list_lookup. cbn [layers]. destruct (decide (i < bits)%nat) as [Hi|Hi].
    + destruct (lookup_lt_is_Some_2 ls i) as [b Hb]; [lia|]. rewrite Hb. constructor. rewrite nonempty_layers by done. by rewrite numbered_map, Hb.
    + by rewrite lookup_ge_None_2 by lia.
Qed.

(** The packed shard, read from its bytes. *)
Lemma packed_snapshot_shard data snapb ops s0 s : shard_holds data snapb ops s0 s ->
  packed_snapshot data (shard_header snapb ops) = IoOk (foldl apply_op s0 ops).
Proof.
  intros Hh. pose proof (sh_data _ _ _ _ _ Hh) as ->. unfold packed_snapshot.
  cbn [shard_header ShardHeader.snapshot_len ShardHeader.ops_count ShardHeader.ops_section_offset].
  assert (checked_slice (shard_file snapb ops) SHARD_HEADER_SIZE (SHARD_HEADER_SIZE + byte_len snapb) = IoOk snapb) as ->
    by apply (checked_slice_app (ShardHeader.encode (shard_header snapb ops))).
  cbn [io_bind]. rewrite (materialize_base _ s0) by apply Hh. cbn [io_bind]. destruct ops as [|op ops]; [done|].
  change (0 <? N.of_nat (length (op :: ops))) with true. unfold checked_from, SHARD_HEADER_SIZE. rewrite shard_file_len.
  destruct (N.leb_spec (28 + byte_len snapb) (28 + byte_len snapb + byte_len (write_op_entries (S := SortFieldSnapshot B) (op :: ops)))); [|lia].
  cbn [io_bind]. rewrite drop_shard_ops, read_op_entries_all by apply Hh. done.
Qed.

(** *** What a sort field holds *)

(** The layers, if any, and how many operations the log of the packed shard holds. *)
Notation spec := (option (list B) * N)%type.
Implicit Types (m : spec) (st : ShardStore.t).

Definition packed_rep (data : list N) m : Prop :=
  exists snapb ops s0 s ls, m = (Some ls, N.of_nat (length ops)) /\ shard_holds data snapb ops s0 s /\ layer_list s bits ≡ ls.

(** The old layout: layer [i] is the bitmap shard of bit [i], which may be missing (or a
    placeholder); a missing layer counts as empty as long as another one is there. *)
Definition legacy_rep st m : Prop :=
  exists ls : list (option B),
    length ls = bits
    /\ (forall i o, ls !! i = Some o ->
         exists n, key_rep (O := BitmapOp) (ShardStore.tree st) (MkLayerKey field (N.of_nat i)) ((fun b => (b, n)) <$> o))
    /\ m.1 ≡ (if decide (Forall (fun o => o = None) ls) then None else Some (default rb_new <$> ls)) /\ m.2 = 0.

Definition layers_rep st m : Prop :=
  match ShardStore.tree st !! packed_path field with
  | Some data => packed_rep data m
  | None => legacy_rep st m
  end.

(** What the loop over the layer files reads. *)
Lemma legacy_loop st (ls : list (option B)) i :
  (i + length ls <= bits)%nat ->
  (forall j o, ls !! j = Some o ->
     exists n, key_rep (O := BitmapOp) (ShardStore.tree st) (MkLayerKey field (N.of_nat (i + j))) ((fun b => (b, n)) <$> o)) ->
  exists any read, load_legacy st field (seq i (length ls)) = IoOk (any, read)
    /\ (any = false <-> Forall (fun o => o = None) ls) /\ read ≡ default rb_new <$> ls.
Proof.
  revert i. induction ls as [|o ls IH]; intros i Hi Hk; cbn [length seq load_legacy].
  { exists false, []. split_and!; [done| |done]. by split. }
  destruct (Hk 0%nat o eq_refl) as [n Ho]. rewrite Nat.add_0_r in Ho. apply read_key in Ho.
  rewrite N.mod_small by (cbn [length] in Hi; lia). destruct (IH (S i)) as (any & read & Hl & Hany & Hr).
  { cbn [length] in Hi. lia. }
  { intros j o' Hj. destruct (Hk (S j) o' Hj) as [n' Ho']. exists n'. by rewrite Nat.add_succ_r in Ho'. }
  destruct o as [b|]; cbn [fmap option_fmap option_map] in Ho.
  - destruct Ho as [(b' & -> & Hb) _]. cbn [io_bind]. rewrite Hl. cbn [io_bind]. exists true, (b' :: read). split_and!; [done| |].
    + split; [done|]. intros [? _]%Forall_cons. done.
    + cbn. by constructor.
  - rewrite Ho. cbn [io_bind]. rewrite Hl. cbn [io_bind]. exists any, (rb_new :: read). split_and!; [done| |].
    + rewrite Forall_cons. tauto.
    + cbn. by constructor.
Qed.

Lemma legacy_load st m : legacy_rep st m ->
  exists any ls, load_legacy st field (seq 0 bits) = IoOk (any, ls)
    /\ (if any then exists ls', m = (Some ls', 0) /\ ls ≡ ls' else m = (None, 0)).
Proof.
  intros (files & Hlen & Hk & Hm & H0). destruct (legacy_loop st files 0) as (any & ls & Hl & Hany & Hls); [lia|done|].
  rewrite Hlen in Hl. exists any, ls. split; [done|]. destruct m as [o n]. cbn in Hm, H0. subst n. destruct any.
  - rewrite decide_False in Hm by (intros Hf; by apply Hany in Hf). inversion Hm as [ls' ? E|]; subst. exists ls'. split; [done|]. by rewrite Hls.
  - rewrite decide_True in Hm by (by apply Hany). by inversion Hm.
Qed.

Lemma load_rep st m : layers_rep st m -> exists o, load_sort_layers st field bits = IoOk o /\ o ≡ m.1.
Proof.
  unfold layers_rep, load_sort_layers. destruct (ShardStore.tree st !! packed_path field) as [data|].
  - intros (snapb & ops & s0 & s & ls & -> & Hh & Hls).
    assert (ShardHeader.decode data = IoOk (shard_header snapb ops)) as -> by (rewrite (sh_data _ _ _ _ _ Hh); apply header_decode_shard; apply Hh).
    cbn [io_bind]. rewrite (packed_snapshot_shard _ _ _ _ _ Hh). cbn [io_bind]. eexists. split; [done|].
    constructor. rewrite <- Hls. apply layer_list_proper. symmetry. apply Hh.
  - intros (any & ls & -> & Ho)%legacy_load. cbn [io_bind]. eexists. split; [done|]. destruct any; [|by subst]. destruct Ho as (ls' & -> & E). by constructor.
Qed.

(** A snapshot of layers, without operations. *)
Lemma written_holds ls : writable ls ->
  exists s, shard_holds (shard_file (encode_from_layers (numbered ls)) []) (encode_from_layers (numbered ls)) [] s s /\ layer_list s bits ≡ ls.
Proof. intros Hw. destruct (layers_written ls Hw) as (s & Hd & Hs). exists s. split; [|done]. by split; [|apply Hw| | | |]. Qed.

Lemma empty_holds : shard_holds (shard_file [] []) [] [] sc_empty sc_empty /\ layer_list (sc_empty : SortFieldSnapshot B) bits ≡ replicate bits rb_new.
Proof.
  split; [by split|]. apply list_equiv_lookup. intros i. rewrite layer_list_lookup. case_decide.
  - rewrite lookup_replicate_2 by done. by constructor.
  - by rewrite (proj2 (lookup_ge_None (replicate bits rb_new) i)) by (rewrite length_replicate; lia).
Qed.

Lemma append_holds fs p snapb old new s0 s : fs !! p = Some (shard_file snapb old) -> shard_holds (shard_file snapb old) snapb old s0 s ->
  Forall op_fits new -> N.of_nat (length (old ++ new)) < 4294967296 ->
  append_ops_to_shard_opts fs p (write_op_entries (S := SortFieldSnapshot B) new) (wrap32 (N.of_nat (length new)))
  = IoOk (<[p := shard_file snapb (old ++ new)]> fs)
  /\ shard_holds (shard_file snapb (old ++ new)) snapb (old ++ new) s0 (foldl apply_op s new).
Proof.
  intros Hp Hh Hf Hc. split; [by apply append_shard; [|apply Hh|]|]. split; [done|apply Hh|done| |apply Hh|].
  - apply Forall_app. split; [apply Hh|done].
  - rewrite foldl_app. apply foldl_apply_proper. apply Hh.
Qed.

(** *** Operations on a sort field *)

Inductive layer_step : Type :=
  | WriteLayers (ls : list B)
  | AppendLayerOps (ops : list SortLayerOp)
  | CompactLayers (threshold : N).

Definition exec_layers st (o : layer_step) : io_result ShardStore.t :=
  match o with
  | WriteLayers ls => IoOk (write_sort_layers st field ls)
  | AppendLayerOps ops => append_packed_sort_ops (B := B) st field bits ops
  | CompactLayers threshold => let! r := compact_packed_sort_if_needed (B := B) st field bits threshold in IoOk r.2
  end.

Definition held m : list B := default (replicate bits rb_new) m.1.

Definition layers_step m (o : layer_step) : spec :=
  match o with
  | WriteLayers ls => (Some ls, 0)
  | AppendLayerOps [] => m
  | AppendLayerOps ops => (Some (foldl apply_layer (held m) ops), m.2 + N.of_nat (length ops))
  | CompactLayers threshold => (m.1, if (threshold =? 0) || (m.2 <? threshold) then m.2 else 0)
  end.

(** Sizes fit the 32-bit fields of the format. *)
Definition layer_step_fits m (o : layer_step) : Prop :=
  match o with
  | WriteLayers ls => writable ls
  | AppendLayerOps ops => writable (held m) /\ Forall op_fits ops /\ m.2 + N.of_nat (length ops) < 4294967296
  | CompactLayers _ => writable (held m)
  end.

Lemma layers_rep_equiv st ls ls' n : layers_rep st (Some ls, n) -> ls ≡ ls' -> layers_rep st (Some ls', n).
Proof.
  unfold layers_rep, packed_rep. destruct (_ !! packed_path field).
  - intros (snapb & ops & s0 & s & ls0 & [= <- ->] & Hh & Hs) E. exists snapb, ops, s0, s, ls'. split_and!; [done|done|by rewrite Hs].
  - intros (files & Hl & Hk & Hm & H0) E. exists files. split_and!; [done|done| |done]. rewrite <- Hm. by constructor.
Qed.

Lemma write_layers_rep st ls : writable ls -> layers_rep (write_sort_layers st field ls) (Some ls, 0).
Proof.
  intros Hw. destruct (written_holds ls Hw) as (s & Hh & Hs). unfold layers_rep, write_sort_layers. cbn [ShardStore.tree ShardStore.with_tree].
  rewrite (snapshot_shard (O := SortLayerOp) (S := SortFieldSnapshot B)) by apply Hh. rewrite lookup_insert_eq. exists (encode_from_layers (numbered ls)), [], s, s, ls. done.
Qed.

Lemma ensure_packed_rep st m : layers_rep st m -> writable (held m) ->
  exists fs snapb old s0 s, ensure_packed (B := B) st field bits = IoOk fs
    /\ fs !! packed_path field = Some (shard_file snapb old) /\ shard_holds (shard_file snapb old) snapb old s0 s
    /\ layer_list s bits ≡ held m /\ N.of_nat (length old) = m.2.
Proof.
  unfold layers_rep, ensure_packed. destruct (ShardStore.tree st !! packed_path field) as [data|] eqn:E; intros Hr Hw.
  - destruct Hr as (snapb & ops & s0 & s & ls & -> & Hh & Hls). pose proof (sh_data _ _ _ _ _ Hh) as ->.
    rewrite (valid_shard (O := SortLayerOp) (S := SortFieldSnapshot B) _ _ snapb ops []) by (by rewrite app_nil_r).
    exists (ShardStore.tree st), snapb, ops, s0, s. done.
  - apply legacy_load in Hr as (any & ls & -> & Ho). rewrite invalid_absent by (by rewrite E). cbn [io_bind]. destruct any.
    + destruct Ho as (ls' & -> & Els). destruct (written_holds ls) as (s & Hh & Hs); [by eapply writable_equiv|].
      rewrite (snapshot_shard (O := SortLayerOp) (S := SortFieldSnapshot B)) by apply Hh.
      eexists _, _, [], s, s. split_and!; [done|apply lookup_insert_eq|done|by rewrite Hs|done].
    + subst. destruct empty_holds as [Hh Hs]. rewrite (snapshot_shard (O := SortLayerOp) (S := SortFieldSnapshot B)) by done.
      eexists _, _, [], _, _. split_and!; [done|apply lookup_insert_eq|done|done|done].
Qed.

Lemma append_layers_rep st m ops : layers_rep st m -> layer_step_fits m (AppendLayerOps ops) ->
  exists st', append_packed_sort_ops (B := B) st field bits ops = IoOk st' /\ layers_rep st' (layers_step m (AppendLayerOps ops)).
Proof.
  intros Hr (Hw & Hf & Hc). unfold append_packed_sort_ops. destruct ops as [|op ops]; [by exists st|]. set (new := op :: ops) in *.
  destruct (ensure_packed_rep st m Hr Hw) as (fs & snapb & old & s0 & s & -> & Hp & Hh & Hs & Hn).
  cbn [io_bind]. destruct (append_holds fs (packed_path field) snapb old new s0 s Hp Hh Hf) as [-> Hh']; [rewrite length_app; lia|].
  cbn [io_bind]. eexists. split; [done|]. unfold layers_rep. cbn [ShardStore.tree ShardStore.with_tree]. rewrite lookup_insert_eq.
  exists snapb, (old ++ new), s0, (foldl apply_op s new), (foldl apply_layer (held m) new). split_and!; [|done|by apply layer_list_replay].
  unfold layers_step, new. rewrite length_app, <- Hn. f_equal. cbn [length]. lia.
Qed.

Lemma compact_layers_rep st m threshold : layers_rep st m -> writable (held m) ->
  exists b st', compact_packed_sort_if_needed (B := B) st field bits threshold = IoOk (b, st') /\ layers_rep st' (layers_step m (CompactLayers threshold)).
Proof.
  intros Hr Hw. unfold compact_packed_sort_if_needed, layers_step. destruct (N.eqb_spec threshold 0) as [->|Ht]; [exists false, st; by destruct m|].
  pose proof Hr as Hr0. unfold layers_rep in Hr0. destruct (ShardStore.tree st !! packed_path field) as [data|] eqn:E.
  - destruct Hr0 as (snapb & ops & s0 & s & ls & -> & Hh & Hls). pose proof (sh_data _ _ _ _ _ Hh) as ->. cbn [fst snd] in *.
    pose proof (read_header_shard snapb ops [] (sh_len _ _ _ _ _ Hh) (sh_count _ _ _ _ _ Hh)) as Hhd. rewrite app_nil_r in Hhd. rewrite Hhd.
    cbn [io_bind shard_header ShardHeader.snapshot_len ShardHeader.ops_section_offset ShardHeader.ops_count orb].
    destruct (N.ltb_spec (N.of_nat (length ops)) threshold) as [_|_]; [by exists false, st|]. rewrite shard_file_len. unfold SHARD_HEADER_SIZE.
    match goal with |- context [?a <? ?b] => destruct (N.ltb_spec a b); [lia|] end. cbn [orb].
    rewrite (packed_snapshot_shard _ _ _ _ _ Hh). cbn [io_bind]. set (s' := foldl apply_op s0 ops).
    rewrite (encode_nonempty _ (numbered (layer_list s' bits))) by (rewrite numbered_layer_list; apply nonempty_kept).
    assert (layer_list s' bits ≡ ls) as Hs' by (rewrite <- Hls; apply layer_list_proper; symmetry; apply Hh).
    eexists true, _. split; [done|]. apply (layers_rep_equiv _ (layer_list s' bits)); [|done].
    apply (write_layers_rep st). by eapply writable_equiv.
  - destruct Hr0 as (_ & _ & _ & _ & H0). exists false, st. split; [done|]. destruct m as [o n]. cbn [fst snd orb] in *. subst n.
    destruct (N.ltb_spec 0 threshold); [done|lia].
Qed.

Fixpoint run_layers st (l : list layer_step) : io_result ShardStore.t :=
  match l with
  | [] => IoOk st
  | o :: l => let! st := exec_layers st o in run_layers st l
  end.

Fixpoint layers_fit_all m (l : list layer_step) : Prop :=
  match l with [] => True | o :: l => layer_step_fits m o /\ layers_fit_all (layers_step m o) l end.

Lemma exec_layers_rep st m o : layers_rep st m -> layer_step_fits m o ->
  exists st', exec_layers st o = IoOk st' /\ layers_rep st' (layers_step m o).
Proof.
  intros Hr Hf. destruct o as [ls|ops|threshold]; cbn [exec_layers].
  - eexists. split; [done|]. by apply write_layers_rep.
  - by apply append_layers_rep.
  - destruct (compact_layers_rep st m threshold Hr Hf) as (b & st' & -> & Hr'). by exists st'.
Qed.

(** C27: the layers of a sort field survive every way of storing them. From a field stored
    in one file per layer (where the file of layer i holds bit i), in one packed file, or
    not at all, any sequence of full writes, appended bit operations (the first of which
    migrates the old layout) and compactions succeeds as long as the sizes fit the format
    (layer numbers and the number of layers below 256, sections and operation counts below
    2^32), and loading the field then gives the layers last written with the operations
    since applied in order; a field that was never stored loads as missing. (The comment
    on load_sort_layers says that it returns nothing without a packed file; it falls back
    to the per-layer files, see the findings.) *)
Theorem sort_layers_durable l : forall st m, layers_rep st m -> layers_fit_all m l ->
  exists st' o, run_layers st l = IoOk st' /\ load_sort_layers st' field bits = IoOk o /\ o ≡ (foldl layers_step m l).1.
Proof.
  induction l as [|a l IH]; intros st m Hr Hf.
  - destruct (load_rep st m Hr) as (o & Ho & E). by exists st, o.
  - destruct Hf as [Ha Hf]. destruct (exec_layers_rep st m a Hr Ha) as (st' & He & Hr'). cbn [run_layers foldl]. rewrite He. cbn [io_bind]. by apply IH.
Qed.

End sort_layers.

(** ** Concrete runs *)

Lemma bitset_leibniz (a b : Bitset) : a ≡ b -> a = b.
Proof.
  destruct a as [X], b as [Y]. intros H. f_equal. apply set_eq. intros x.
  exact (iff_trans (iff_sym (Bitset_elem_of (MkBitset X) x)) (iff_trans (H x) (Bitset_elem_of (MkBitset Y) x))).
Qed.

Notation alive_op := (store_op (K := AliveShardKey) (S := Bitset) (O := BitmapOp)).
Definition demo_store : ShardStore.t := ShardStore.new ∅.
Definition demo_spec : AliveShardKey -> option (Bitset * N) := fun _ => None.
Definition demo_steps : list alive_op :=
  [SAppend MkAliveKey [SetBit 3; BatchSet [4; 5]]; SSnapshot MkAliveKey (bitset [1; 2]); SAppend MkAliveKey [ClearBit 1; SetBit 9];
   SReopen; SCompact MkAliveKey].

Lemma demo_store_rep : store_rep (S := Bitset) (O := BitmapOp) demo_store demo_spec.
Proof. by split. Qed.

(** The alive bitmap with one operation logged after its snapshot. *)
Definition demo_alive : ShardStore.t :=
  ShardStore.mk {[alive_path := shard_file (S := Bitset) (rb_serialize (bitset [1; 2])) [SetBit 3]]} 100.
Definition demo_alive_spec : AliveShardKey -> option (Bitset * N) := fun _ => Some (bitset [1; 2; 3], 1).

Lemma demo_alive_rep : store_rep (S := Bitset) (O := BitmapOp) demo_alive demo_alive_spec.
Proof.
  split.
  - intros [] _. exists (shard_file (S := Bitset) (rb_serialize (bitset [1; 2])) [SetBit 3]), (rb_serialize (bitset [1; 2])), [SetBit 3], (bitset [1; 2]).
    split; [vm_compute; reflexivity|]. split; [done|]. split; [done|vm_compute; reflexivity|done|by repeat constructor|vm_compute; reflexivity|].
    assert (bitset [1; 2; 3] = foldl apply_op (bitset [1; 2]) [SetBit 3]) as -> by (vm_compute; reflexivity). done.
  - intros p Hp. apply lookup_singleton_ne. by intros <-.
Qed.

Lemma demo_fits : all_fit demo_spec demo_steps.
Proof.
  assert (snapshot_fits (bitset [1; 2])) as H1 by (split; [done|vm_compute; reflexivity]).
  assert (snapshot_fits (foldl apply_op (bitset [1; 2]) [ClearBit 1; SetBit 9])) as H2 by (split; [by vm_compute|vm_compute; reflexivity]).
  repeat split; try done; try by repeat constructor. eexists _, _. split; [reflexivity|]. intros s' ->%bitset_leibniz. exact H2.
Qed.

Lemma shard_store_refines_witness : exists st',
  run_store demo_store demo_steps = IoOk st' /\ (exists s', ShardStore.read (O := BitmapOp) st' MkAliveKey = IoOk (Some s') /\ s' ≡ bitset [2; 9]).
Proof.
  destruct (shard_store_refines demo_store demo_spec demo_steps MkAliveKey demo_store_rep demo_fits I) as (st' & H1 & H2 & _).
  exists st'. split; [exact H1|]. exact H2.
Defined.

(** The second of two appended entries is cut. *)
Lemma append_crash_keeps_prefix_witness : exists j s',
  ShardStore.read (O := BitmapOp) (ShardStore.new (append_crash (ShardStore.tree demo_alive) alive_path
    (shard_file (S := Bitset) (rb_serialize (bitset [1; 2])) [SetBit 3]) (write_op_entries (S := Bitset) [ClearBit 1; SetBit 9]) 20)) MkAliveKey = IoOk (Some s')
  /\ s' ≡ foldl apply_op (bitset [1; 2; 3]) (take j [ClearBit 1; SetBit 9]).
Proof.
  apply (append_crash_keeps_prefix demo_alive demo_alive_spec MkAliveKey (bitset [1; 2; 3]) 1 [ClearBit 1; SetBit 9] 20 _ demo_alive_rep I eq_refl).
  - by repeat constructor.
  - vm_compute. reflexivity.
Defined.

Lemma rewrite_crash_safe_witness :
  let fs' := <[with_extension alive_path "new" := take 10 (shard_bytes (ShardStore.snapshot_header (sc_encode (bitset [7]))) (sc_encode (bitset [7])) [])]>
               (ShardStore.tree demo_alive) in
  store_rep (O := BitmapOp) (ShardStore.new fs') demo_alive_spec
  \/ store_rep (O := BitmapOp) (ShardStore.new fs') (supdate demo_alive_spec MkAliveKey (bitset [7], 0)).
Proof.
  apply (rewrite_crash_safe demo_alive demo_alive_spec MkAliveKey (bitset [7]) _ demo_alive_rep I).
  - split; [by vm_compute|vm_compute; reflexivity].
  - apply crash_torn.
  - intros d Hd. left. change (with_extension (shard_path MkAliveKey) "new") with (with_extension alive_path "new") in Hd.
    rewrite lookup_insert_eq in Hd. injection Hd as <-. vm_compute. reflexivity.
Defined.

Lemma torn_rewrite_promoted_witness :
  ShardStore.read (S := Bitset) (O := BitmapOp) demo_alive MkAliveKey = IoOk (Some (bitset [1; 2; 3]))
  /\ ShardStore.read (S := Bitset) (O := BitmapOp) (ShardStore.new (<[with_extension alive_path "new" :=
       take 30 (shard_bytes (ShardStore.snapshot_header (sc_encode (bitset [7]))) (sc_encode (bitset [7])) [])]> (ShardStore.tree demo_alive))) MkAliveKey
     = IoErr UnexpectedEof.
Proof.
  split; [vm_compute; reflexivity|].
  apply (torn_rewrite_promoted demo_alive demo_alive_spec MkAliveKey (bitset [7]) 30 demo_alive_rep I); [split; [by vm_compute|]|lia|]; vm_compute; reflexivity.
Defined.

Definition demo_bucket : list (N * Bitset) := [(7, bitset [1; 4]); (3, bitset [2]); (9, bitset [])].
Definition demo_bucket_ops : list FilterOp := [FSetBit 3 8; FSetBit 5 1; FClearBit 7 4].
Definition demo_filters : ShardStore.t :=
  ShardStore.mk {[shard_path (MkFilterKey "nsfw" 0) := shard_file (S := BucketSnapshot Bitset) (encode_bucket demo_bucket) demo_bucket_ops]} 100.

Lemma demo_bucket_fits : bucket_fits demo_bucket.
Proof. split_and!; [|repeat constructor|done|vm_compute; reflexivity]. apply (bool_decide_unpack (NoDup demo_bucket.*1)). vm_compute. exact I. Qed.

Lemma indexed_read_exact_witness : exists full,
  ShardStore.read (S := BucketSnapshot Bitset) (O := FilterOp) demo_filters (MkFilterKey "nsfw" 0) = IoOk (Some full)
  /\ read_bucket_values_indexed demo_filters (MkFilterKey "nsfw" 0) [7; 5; 6] = IoOk (filter (fun vb => vb.1 ∈ [7; 5; 6]) (values full)).
Proof.
  apply (indexed_read_exact demo_filters (MkFilterKey "nsfw" 0) [7; 5; 6]
    (shard_file (S := BucketSnapshot Bitset) (encode_bucket demo_bucket) demo_bucket_ops) (encode_bucket demo_bucket) demo_bucket demo_bucket_ops
    (MkBucket (list_to_map demo_bucket)) (foldl apply_op (MkBucket (list_to_map demo_bucket)) demo_bucket_ops)).
  - vm_compute. reflexivity.
  - split; [reflexivity|vm_compute; reflexivity|done|by repeat constructor|vm_compute; reflexivity|reflexivity].
  - right. split; [reflexivity|exact demo_bucket_fits].
Defined.

(** A field in the old layout with one layer stored. *)
Definition demo_legacy : ShardStore.t :=
  ShardStore.mk {[shard_path (MkLayerKey "sortAt" 1) := shard_file (O := BitmapOp) (S := Bitset) (rb_serialize (bitset [4; 6])) []]} 100.
Definition demo_layers : list Bitset := [bitset []; bitset [4; 6]; bitset []].
Definition demo_layer_steps : list (layer_step (B := Bitset)) := [AppendLayerOps [LSetBit 0 9; LClearBit 1 4]; CompactLayers 2; AppendLayerOps [LBatchSet 2 [9]]].

Lemma demo_writable (ls : list Bitset) : length ls = 3%nat -> byte_len (encode_from_layers (numbered ls)) < 4294967296 -> writable 3 ls.
Proof.
  intros Hl Hb. split; [done|]. intros ls' E. assert (ls' = ls) as ->; [|done]. clear -E. induction E as [|a b l l' Hab _ IH]; [done|]. by rewrite (bitset_leibniz a b), IH.
Qed.

Lemma sort_layers_durable_witness : exists st' o,
  run_layers "sortAt" 3 demo_legacy demo_layer_steps = IoOk st' /\ load_sort_layers st' "sortAt" 3 = IoOk o
  /\ o ≡ Some [bitset [9]; bitset [6]; bitset [9]].
Proof.
  apply (sort_layers_durable "sortAt" 3 ltac:(lia) demo_layer_steps demo_legacy (Some demo_layers, 0)).
  - exists [None; Some (bitset [4; 6]); None]. split_and!; [reflexivity| |reflexivity|reflexivity].
    intros [|[|[|i]]] o; intros [= <-]; exists 0; [exact I| |exact I].
    exists (shard_file (O := BitmapOp) (S := Bitset) (rb_serialize (bitset [4; 6])) []), (rb_serialize (bitset [4; 6])), [], (bitset [4; 6]).
    split_and!; [vm_compute; reflexivity|done|]. split; [reflexivity|vm_compute; reflexivity|done|by constructor|vm_compute; reflexivity|reflexivity].
  - split; [split; [apply demo_writable; vm_compute; reflexivity|split; [by repeat constructor|done]]|].
    split; [apply demo_writable; vm_compute; reflexivity|].
    split; [split; [apply demo_writable; vm_compute; reflexivity|split; [by repeat constructor|done]]|exact I].
Defined.

Lemma concurrent_append_lost_witness :
  let file := shard_file (O := BitmapOp) (S := Bitset) (rb_serialize (bitset [1; 2])) in
  let entry op := (write_op_entries (S := Bitset) [op], 1) in
  interleave (entry (SetBit 3)) (entry (SetBit 4)) [true; true; true; true; false; false; false; false] (file []) AStart AStart
    = IoOk (file [SetBit 3; SetBit 4], ADone, ADone)
  /\ interleave (entry (SetBit 3)) (entry (SetBit 4)) [true; true; false; false; false; false; true; true] (file []) AStart AStart
    = IoOk (file [SetBit 3], ADone, ADone).
Proof.
  intros file entry. apply (concurrent_append_lost (O := BitmapOp) (S := Bitset) (rb_serialize (bitset [1; 2])) [] [SetBit 3] [SetBit 4]).
  - vm_compute. reflexivity.
  - done.
  - by apply Nat.leb_le.
Defined.
