(* ===== verification/Encoding.v ===== *)
(** * Text and floating-point encodings

    The bit pattern of an [f64] ([to_le_bytes] and [from_le_bytes] of the type) and the
    UTF-8 bytes of a string.  A Rust string is the list of its UTF-8 bytes; one that is
    valid is unchanged by [String::from_utf8_lossy], which replaces every invalid
    sequence by U+FFFD. *)

From S2P Require Import Prelude Float64 Bytes.
From Stdlib Require Import Ascii.

(** ** Bits of a double *)

Definition sign_bit (s : bool) : N := if s then 9223372036854775808 else 0.

(** Canonical doubles: a 53-bit mantissa, or a subnormal. *)
Definition f64_to_bits (x : spec_float) : N :=
  match x with
  | S754_zero s => sign_bit s
  | S754_infinity s => sign_bit s + 9218868437227405312
  | S754_nan => 9221120237041090560
  | S754_finite s m e =>
      sign_bit s + (if Npos m <? 4503599627370496 then Npos m
                    else Z.to_N (e + 1075) * 4503599627370496 + (Npos m - 4503599627370496))
  end.

Definition f64_from_bits (bits : N) : spec_float :=
  let s := 9223372036854775808 <=? bits in
  let expo := (bits / 4503599627370496) mod 2048 in
  let mant := bits mod 4503599627370496 in
  if expo =? 2047 then if mant =? 0 then S754_infinity s else S754_nan
  else if expo =? 0 then match mant with 0 => S754_zero s | Npos m => S754_finite s m (-1074) end
  else match mant + 4503599627370496 with
       | 0 => S754_zero s
       | Npos m => S754_finite s m (Z.of_N expo - 1075)
       end.

(** The values [f64] has. *)
Definition is_f64 (x : spec_float) : Prop :=
  match x with
  | S754_finite _ m e =>
      (Npos m < 4503599627370496 /\ e = (-1074)%Z)
      \/ (4503599627370496 <= Npos m < 9007199254740992 /\ (-1074 <= e <= 971)%Z)
  | _ => True
  end.

Lemma f64_to_bits_bound x : is_f64 x -> f64_to_bits x < 18446744073709551616.
Proof.
  destruct x as [s|s| |s m e]; unfold f64_to_bits, sign_bit; cbn [is_f64]; try (intros _; destruct s; lia); [lia|].
  intros [[Hm ->]|[Hm He]]; destruct (N.ltb_spec (Npos m) 4503599627370496); destruct s; lia.
Qed.

(** Splitting a pattern into its fields. *)
Lemma bits_fields s expo mant : expo < 2048 -> mant < 4503599627370496 ->
  let bits := sign_bit s + (expo * 4503599627370496 + mant) in
  (9223372036854775808 <=? bits) = s /\ (bits / 4503599627370496) mod 2048 = expo /\ bits mod 4503599627370496 = mant.
Proof.
  intros He Hm bits. assert (bits = 4503599627370496 * ((if s then 2048 else 0) + expo) + mant) as Hb by (unfold bits, sign_bit; destruct s; lia).
  split_and!.
  - destruct s; [apply N.leb_le|apply N.leb_gt]; unfold bits, sign_bit; lia.
  - replace (bits / 4503599627370496) with ((if s then 2048 else 0) + expo) by (apply (N.div_unique _ _ _ mant); lia).
    destruct s; [|by apply N.mod_small]. symmetry. apply (N.mod_unique _ _ 1); lia.
  - rewrite Hb. symmetry. by apply (N.mod_unique _ _ ((if s then 2048 else 0) + expo)).
Qed.

Lemma f64_bits_roundtrip x : is_f64 x -> f64_from_bits (f64_to_bits x) = x.
Proof.
  destruct x as [s|s| |s m e]; cbn [is_f64]; try (intros _; by destruct s || done).
  intros H. cbn [f64_to_bits]. set (mant := if Npos m <? 4503599627370496 then Npos m else Npos m - 4503599627370496).
  set (expo := if Npos m <? 4503599627370496 then 0 else Z.to_N (e + 1075)).
  assert (sign_bit s + (if Npos m <? 4503599627370496 then Npos m else Z.to_N (e + 1075) * 4503599627370496 + (Npos m - 4503599627370496))
    = sign_bit s + (expo * 4503599627370496 + mant)) as -> by (unfold expo, mant; by destruct (Npos m <? 4503599627370496)).
  destruct (bits_fields s expo mant) as (H1 & H2 & H3); [unfold expo|unfold mant|];
    [destruct (N.ltb_spec (Npos m) 4503599627370496); lia|destruct (N.ltb_spec (Npos m) 4503599627370496); lia|].
  unfold f64_from_bits. rewrite H1, H2, H3. unfold expo, mant. destruct (N.ltb_spec (Npos m) 4503599627370496) as [Hlt|Hge].
  - destruct H as [[_ ->]|]; [done|lia].
  - destruct H as [[? _]|[Hm He]]; [lia|]. destruct (N.eqb_spec (Z.to_N (e + 1075)) 2047); [lia|]. destruct (N.eqb_spec (Z.to_N (e + 1075)) 0); [lia|].
    replace (Npos m - 4503599627370496 + 4503599627370496) with (Npos m) by lia. f_equal. lia.
Qed.

Example f64_bits_demo : f64_to_bits (f64_ratio 3 2) = 0x3FF8000000000000 /\ f64_from_bits 0x3FF8000000000000 = f64_ratio 3 2.
Proof. split; vm_compute; reflexivity. Qed.

(** ** UTF-8 *)

Definition string_bytes (s : string) : list N := N_of_ascii <$> String.list_ascii_of_string s.
Definition bytes_string (l : list N) : string := String.string_of_list_ascii (ascii_of_N <$> l).

Lemma bytes_string_bytes s : bytes_string (string_bytes s) = s.
Proof.
  unfold bytes_string, string_bytes. rewrite <- list_fmap_compose. rewrite (list_fmap_ext _ id); [|intros i c _; apply ascii_N_embedding].
  rewrite list_fmap_id. apply String.string_of_list_ascii_of_string.
Qed.

Lemma length_string_bytes s : length (string_bytes s) = String.length s.
Proof. unfold string_bytes. rewrite length_fmap. induction s as [|c s IH]; [done|]. cbn. by rewrite IH. Qed.

Definition between (lo hi b : N) : bool := (lo <=? b) && (b <=? hi).
Definition continuation (b : N) : bool := between 128 191 b.

(** The first scalar value of a byte list: how many bytes it takes, or how many bytes
    of an ill-formed sequence are replaced together. *)
Definition utf8_step (l : list N) : bool * nat :=
  match l with
  | [] => (true, 0%nat)
  | b0 :: rest =>
      if b0 <? 128 then (true, 1%nat)
      else
        let second (ok : N -> bool) (more : nat) :=
          match rest with
          | b1 :: rest =>
              if ok b1 then
                match more, rest with
                | 0%nat, _ => (true, 2%nat)
                | 1%nat, b2 :: _ => if continuation b2 then (true, 3%nat) else (false, 2%nat)
                | 1%nat, [] => (false, 2%nat)
                | _, b2 :: rest =>
                    if continuation b2 then
                      match rest with b3 :: _ => if continuation b3 then (true, 4%nat) else (false, 3%nat) | [] => (false, 3%nat) end
                    else (false, 2%nat)
                | _, [] => (false, 2%nat)
                end
              else (false, 1%nat)
          | [] => (false, 1%nat)
          end in
        if between 194 223 b0 then second continuation 0%nat
        else if b0 =? 224 then second (between 160 191) 1%nat
        else if between 225 236 b0 || between 238 239 b0 then second continuation 1%nat
        else if b0 =? 237 then second (between 128 159) 1%nat
        else if b0 =? 240 then second (between 144 191) 2%nat
        else if between 241 243 b0 then second continuation 2%nat
        else if b0 =? 244 then second (between 128 143) 2%nat
        else (false, 1%nat)
  end.

(** The length of the list bounds the rounds. *)
Fixpoint lossy_loop (fuel : nat) (l : list N) : list N :=
  match fuel, l with
  | O, _ | _, [] => []
  | S fuel, _ =>
      let '(ok, n) := utf8_step l in
      (if ok : bool then take n l else [239; 191; 189]) ++ lossy_loop fuel (drop n l)
  end.

Fixpoint valid_loop (fuel : nat) (l : list N) : bool :=
  match fuel, l with
  | _, [] => true
  | O, _ => false
  | S fuel, _ => let '(ok, n) := utf8_step l in ok && valid_loop fuel (drop n l)
  end.

Definition from_utf8_lossy (l : list N) : string := bytes_string (lossy_loop (length l) l).
Definition valid_utf8 (s : string) : bool := valid_loop (String.length s) (string_bytes s).

Lemma lossy_valid fuel l : valid_loop fuel l = true -> lossy_loop fuel l = l.
Proof.
  revert l. induction fuel as [|fuel IH]; intros [|b l]; [done|done|done|]. cbn [valid_loop lossy_loop].
  destruct (utf8_step (b :: l)) as [[] n]; [|done]. cbn [andb]. intros H. rewrite IH by done. apply take_drop.
Qed.

Lemma from_utf8_lossy_valid s : valid_utf8 s = true -> from_utf8_lossy (string_bytes s) = s.
Proof. intros H. unfold from_utf8_lossy. rewrite length_string_bytes, lossy_valid by done. apply bytes_string_bytes. Qed.

Example utf8_demo :
  valid_utf8 (bytes_string [195; 169; 97]) = true
  /\ string_bytes (from_utf8_lossy [97; 195; 40; 240; 159]) = [97; 239; 191; 189; 40; 239; 191; 189].
Proof. split; vm_compute; reflexivity. Qed.
