(* ===== verification/DocShards.v ===== *)
(** * Document shards (src/shard_store_doc.rs)

    Documents are stored 512 to a shard as lists of (field index, packed value) pairs; a
    shard is a snapshot of documents and a log of document operations.  The field
    dictionary maps names to indices and is kept in a file beside the shards.  MessagePack
    (the [rmp_serde] crate) is an interface.  Schema history files and path statistics are
    left out, and the state after a failed operation is not tracked.  The bulk and
    streaming writers of the dump pipeline are in [DocWriters]. *)

From S2P Require Import Prelude Roaring Bytes Encoding Config Float64 Query Coalescer Mutation Ops OpsWal ShardStore ShardBitmap.
From Stdlib Require Import Ascii.
Local Open Scope bitdex_scope.

(** ** Packed values *)

Inductive PackedValue : Type :=
| PI (i : Z)
| PF (f : spec_float)
| PB (b : bool)
| PS (s : string)
| PMi (v : list Z)
| PMm (v : list PackedValue)
| PNull.

Section packed_ind.
Context (P : PackedValue -> Prop).
Context (HI : forall i, P (PI i)) (HF : forall f, P (PF f)) (HB : forall b, P (PB b)) (HS : forall s, P (PS s)).
Context (HMi : forall v, P (PMi v)) (HMm : forall v, Forall P v -> P (PMm v)) (HN : P PNull).

Fixpoint PackedValue_nested_ind (v : PackedValue) : P v :=
  match v with
  | PI i => HI i
  | PF f => HF f
  | PB b => HB b
  | PS s => HS s
  | PMi v => HMi v
  | PMm v => HMm v ((fix go (l : list PackedValue) : Forall P l :=
      match l with [] => Forall_nil_2 _ | x :: l => Forall_cons_2 _ _ _ (PackedValue_nested_ind x) (go l) end) v)
  | PNull => HN
  end.
End packed_ind.

Definition PV_TAG_I : N := 1.
Definition PV_TAG_F : N := 2.
Definition PV_TAG_B : N := 3.
Definition PV_TAG_S : N := 4.
Definition PV_TAG_MI : N := 5.
Definition PV_TAG_MM : N := 6.
Definition PV_TAG_NULL : N := 7.

Definition i64_bytes (v : Z) : list N := to_le_bytes 8 (i64_as_u64 v).

Fixpoint encode_packed_value (pv : PackedValue) : list N :=
  match pv with
  | PI v => PV_TAG_I :: i64_bytes v
  | PF v => PV_TAG_F :: to_le_bytes 8 (f64_to_bits v)
  | PB v => [PV_TAG_B; if v then 1 else 0]
  | PS v => PV_TAG_S :: to_le_bytes 4 (wrap32 (byte_len (string_bytes v))) ++ string_bytes v
  | PMi v => PV_TAG_MI :: to_le_bytes 4 (wrap32 (N.of_nat (length v))) ++ mjoin (i64_bytes <$> v)
  | PMm v => PV_TAG_MM :: to_le_bytes 4 (wrap32 (N.of_nat (length v))) ++ mjoin (encode_packed_value <$> v)
  | PNull => [PV_TAG_NULL]
  end.

(** A loop of [n] decodings, each from where the last one stopped. *)
Fixpoint decode_many {A : Type} (d : N -> io_result (A * N)) (n : nat) (pos : N) : io_result (list A * N) :=
  match n with
  | O => IoOk ([], pos)
  | S n =>
      let! (v, pos) := d pos in
      let! (vs, pos) := decode_many d n pos in
      IoOk (v :: vs, pos)
  end.

Definition decode_i64 (data : list N) (pos : N) : io_result (Z * N) :=
  let! v := read_le data pos (pos + 8) in IoOk (u64_as_i64 v, pos + 8).

(** [fuel] bounds the nesting, which the length of the data does. *)
Fixpoint decode_value (fuel : nat) (data : list N) (pos : N) : io_result (PackedValue * N) :=
  match fuel with
  | O => IoErr UnexpectedEof
  | S fuel =>
      if byte_len data <=? pos then IoErr UnexpectedEof
      else
        let! tag := read_le data pos (pos + 1) in
        let pos := pos + 1 in
        if tag =? PV_TAG_I then let! (v, pos) := decode_i64 data pos in IoOk (PI v, pos)
        else if tag =? PV_TAG_F then let! v := read_le data pos (pos + 8) in IoOk (PF (f64_from_bits v), pos + 8)
        else if tag =? PV_TAG_B then let! v := read_le data pos (pos + 1) in IoOk (PB (negb (v =? 0)), pos + 1)
        else if tag =? PV_TAG_S then
          let! len := read_le data pos (pos + 4) in
          let! bytes := checked_slice data (pos + 4) (pos + 4 + len) in
          IoOk (PS (from_utf8_lossy bytes), pos + 4 + len)
        else if tag =? PV_TAG_MI then
          let! len := read_le data pos (pos + 4) in
          let! (vs, pos) := decode_many (decode_i64 data) (N.to_nat len) (pos + 4) in IoOk (PMi vs, pos)
        else if tag =? PV_TAG_MM then
          let! len := read_le data pos (pos + 4) in
          let! (vs, pos) := decode_many (decode_value fuel data) (N.to_nat len) (pos + 4) in IoOk (PMm vs, pos)
        else if tag =? PV_TAG_NULL then IoOk (PNull, pos)
        else IoErr InvalidData
  end.

Definition decode_packed_value (data : list N) (pos : N) : io_result (PackedValue * N) :=
  decode_value (S (length data)) data pos.

Notation pair_t := (N * PackedValue)%type.

Definition encode_field_pair (p : pair_t) : list N := to_le_bytes 2 p.1 ++ encode_packed_value p.2.

Definition decode_field_pair (data : list N) (pos : N) : io_result (pair_t * N) :=
  if byte_len data <? pos + 2 then IoErr UnexpectedEof
  else
    let! field := read_le data pos (pos + 2) in
    let! (value, pos) := decode_packed_value data (pos + 2) in
    IoOk ((field, value), pos).

(** ** Snapshots *)

Record DocSnapshot : Type := MkDocSnapshot { docs : gmap N (list pair_t) }.

Definition encode_doc_entry (d : N * list pair_t) : list N :=
  to_le_bytes 4 d.1 ++ to_le_bytes 2 (N.of_nat (length d.2) mod 65536) ++ mjoin (encode_field_pair <$> d.2).

(** In any order of the hash map. *)
Definition encode_docs (ds : list (N * list pair_t)) : list N :=
  to_le_bytes 4 (wrap32 (N.of_nat (length ds))) ++ mjoin (encode_doc_entry <$> ds).

Definition decode_doc_entry (data : list N) (pos : N) : io_result ((N * list pair_t) * N) :=
  if byte_len data <? pos + 6 then IoErr UnexpectedEof
  else
    let! slot := read_le data pos (pos + 4) in
    let! num_fields := read_le data (pos + 4) (pos + 6) in
    let! (fields, pos) := decode_many (decode_field_pair data) (N.to_nat num_fields) (pos + 6) in
    IoOk ((slot, fields), pos).

Definition decode_docs (bytes : list N) : io_result DocSnapshot :=
  if byte_len bytes <? 4 then IoOk (MkDocSnapshot ∅)
  else
    let! num_docs := read_le bytes 0 4 in
    let! (ds, _) := decode_many (decode_doc_entry bytes) (N.to_nat num_docs) 4 in
    IoOk (MkDocSnapshot (foldl (fun m d => <[d.1 := d.2]> m) ∅ ds)).

#[export] Instance DocSnapshotCodec : SnapshotCodec DocSnapshot := {
  sc_encode s := encode_docs (map_to_list (docs s));
  sc_decode := decode_docs;
  sc_empty := MkDocSnapshot ∅;
}.

(** ** Operations *)

Inductive DocOp : Type :=
| DSet (slot field : N) (value : PackedValue)
| DAppend (slot field : N) (value : PackedValue)
| DRemove (slot field : N) (value : PackedValue)
| DDelete (slot : N)
| DCreate (slot : N) (fields : list pair_t)
| DMerge (slot : N) (fields : list pair_t).

Definition OP_TAG_SET : N := 1.
Definition OP_TAG_APPEND : N := 2.
Definition OP_TAG_REMOVE : N := 3.
Definition OP_TAG_DELETE : N := 4.
Definition OP_TAG_CREATE : N := 5.
Definition OP_TAG_MERGE : N := 6.

Definition encode_fields (fields : list pair_t) : list N :=
  to_le_bytes 2 (N.of_nat (length fields) mod 65536) ++ mjoin (encode_field_pair <$> fields).

Definition encode_doc_op (op : DocOp) : list N :=
  match op with
  | DSet slot field value => OP_TAG_SET :: to_le_bytes 4 slot ++ encode_field_pair (field, value)
  | DAppend slot field value => OP_TAG_APPEND :: to_le_bytes 4 slot ++ encode_field_pair (field, value)
  | DRemove slot field value => OP_TAG_REMOVE :: to_le_bytes 4 slot ++ encode_field_pair (field, value)
  | DDelete slot => OP_TAG_DELETE :: to_le_bytes 4 slot
  | DCreate slot fields => OP_TAG_CREATE :: to_le_bytes 4 slot ++ encode_fields fields
  | DMerge slot fields => OP_TAG_MERGE :: to_le_bytes 4 slot ++ encode_fields fields
  end.

Definition decode_doc_op (bytes : list N) : io_result DocOp :=
  match bytes with
  | [] => IoErr InvalidData
  | tag :: _ =>
      if (tag =? OP_TAG_SET) || (tag =? OP_TAG_APPEND) || (tag =? OP_TAG_REMOVE) then
        let! slot := read_le bytes 1 5 in
        let! (p, _) := decode_field_pair bytes 5 in
        IoOk (if tag =? OP_TAG_SET then DSet slot p.1 p.2
              else if tag =? OP_TAG_APPEND then DAppend slot p.1 p.2 else DRemove slot p.1 p.2)
      else if tag =? OP_TAG_DELETE then let! slot := read_le bytes 1 5 in IoOk (DDelete slot)
      else if (tag =? OP_TAG_CREATE) || (tag =? OP_TAG_MERGE) then
        let! slot := read_le bytes 1 5 in
        let! num_fields := read_le bytes 5 7 in
        let! (fields, _) := decode_many (decode_field_pair bytes) (N.to_nat num_fields) 7 in
        IoOk (if tag =? OP_TAG_MERGE then DMerge slot fields else DCreate slot fields)
      else IoErr InvalidData
  end.

Fixpoint packed_value_eq (a b : PackedValue) : bool :=
  match a, b with
  | PI x, PI y => (x =? y)%Z
  | PF x, PF y => SFeqb x y
  | PB x, PB y => Bool.eqb x y
  | PS x, PS y => bool_decide (x = y)
  | PMi x, PMi y => bool_decide (x = y)
  | PMm x, PMm y =>
      (fix go (x y : list PackedValue) : bool :=
         match x, y with
         | [], [] => true
         | a :: x, b :: y => packed_value_eq a b && go x y
         | _, _ => false
         end) x y
  | PNull, PNull => true
  | _, _ => false
  end.

(** [iter().find(|(f, _)| f == field)], and updating the found entry in place. *)
Fixpoint find_field (fields : list pair_t) (field : N) : option PackedValue :=
  match fields with
  | [] => None
  | (f, v) :: fields => if f =? field then Some v else find_field fields field
  end.

Fixpoint update_field (fields : list pair_t) (field : N) (g : PackedValue -> PackedValue) : list pair_t :=
  match fields with
  | [] => []
  | (f, v) :: fields => if f =? field then (f, g v) :: fields else (f, v) :: update_field fields field g
  end.

Definition drop_field (fields : list pair_t) (field : N) : list pair_t := filter (fun p => p.1 <> field) fields.

Definition is_null_value (v : PackedValue) : bool := match v with PNull => true | _ => false end.

(** A value written over a field: null drops it. *)
Definition set_field (g : PackedValue -> PackedValue -> PackedValue) (fields : list pair_t) (p : pair_t) : list pair_t :=
  if is_null_value p.2 then drop_field fields p.1
  else match find_field fields p.1 with
       | Some _ => update_field fields p.1 (fun old => g old p.2)
       | None => fields ++ [p]
       end.

Definition append_value (old value : PackedValue) : PackedValue :=
  match old with
  | PMi v => match value with PI i => if bool_decide (i ∈ v) then old else PMi (v ++ [i]) | _ => old end
  | PMm v => if existsb (fun x => packed_value_eq x value) v then old else PMm (v ++ [value])
  | _ => PMm [old; value]
  end.

Definition append_field (fields : list pair_t) (field : N) (value : PackedValue) : list pair_t :=
  match find_field fields field with
  | Some _ => update_field fields field (fun old => append_value old value)
  | None => fields ++ [(field, match value with PI i => PMi [i] | _ => PMm [value] end)]
  end.

Definition remove_value (value old : PackedValue) : PackedValue :=
  match old with
  | PMi v => match value with PI i => PMi (filter (fun x => x <> i) v) | _ => old end
  | PMm v => PMm (List.filter (fun x => negb (packed_value_eq x value)) v)
  | _ => old
  end.

(** Two integer lists are united; anything else is replaced. *)
Definition merge_value (old value : PackedValue) : PackedValue :=
  match old, value with
  | PMi existing, PMi incoming =>
      PMi (foldl (fun acc v => if bool_decide (v ∈ acc) then acc else acc ++ [v]) existing incoming)
  | _, _ => value
  end.

Definition apply_doc_op (m : gmap N (list pair_t)) (op : DocOp) : gmap N (list pair_t) :=
  match op with
  | DSet slot field value => <[slot := set_field (fun _ v => v) (default [] (m !! slot)) (field, value)]> m
  | DAppend slot field value => <[slot := append_field (default [] (m !! slot)) field value]> m
  | DRemove slot field value => alter (fun fields => update_field fields field (remove_value value)) slot m
  | DDelete slot => delete slot m
  | DCreate slot fields => <[slot := fields]> m
  | DMerge slot fields => <[slot := foldl (set_field merge_value) (default [] (m !! slot)) fields]> m
  end.

#[export] Instance DocOpCodec : OpCodec DocOp DocSnapshot := {
  encode_op := encode_doc_op;
  decode_op := decode_doc_op;
  apply_op s op := MkDocSnapshot (apply_doc_op (docs s) op);
}.

(** ** Sharding *)

Definition SHARD_SHIFT : N := 9.
Definition slot_to_shard (slot_id : N) : N := N.shiftr slot_id SHARD_SHIFT.

Record DocShardKey : Type := MkDocKey { dk_shard : N }.
#[export] Instance doc_key_eq_dec : EqDecision DocShardKey.
Proof. solve_decision. Defined.

Definition doc_key_of (p : path) : option DocShardKey :=
  match p.1 with
  | [dir; _] => if bool_decide (dir = "shards"%string) then id_str ← strip_suffix ".shard" p.2; MkDocKey <$> parse_dec u32_max id_str else None
  | _ => None
  end.

#[export] Instance SlotHexShard : ShardingStrategy DocShardKey := {
  shard_path key := (["shards"%string; hex2 (N.land (N.shiftr (dk_shard key) 8) 255)], pad6 (print_dec (dk_shard key)) ++ ".shard")%string;
  list_shards fs := omap doc_key_of (map_to_list fs).*1;
}.

(** ** Values of a document *)

Definition value_to_packed (v : Value) : PackedValue :=
  match v with Integer i => PI i | Float f => PF f | Bool b => PB b | Str s => PS s end.

Definition field_value_to_packed (fv : FieldValue) : PackedValue :=
  match fv with
  | Single v => value_to_packed v
  | Multi vs =>
      if forallb (fun v => match v with Integer _ => true | _ => false end) vs
      then PMi (omap (fun v => match v with Integer i => Some i | _ => None end) vs)
      else PMm (value_to_packed <$> vs)
  end.

Definition scalar_of (pv : PackedValue) : option Value :=
  match pv with
  | PI i => Some (Integer i)
  | PF f => Some (Float f)
  | PB b => Some (Bool b)
  | PS s => Some (Str s)
  | _ => None
  end.

Definition packed_to_field_value (pv : PackedValue) : FieldValue :=
  match pv with
  | PMi v => Multi (Integer <$> v)
  | PMm v => Multi (omap scalar_of v)
  | PNull => Multi []
  | _ => match scalar_of pv with Some v => Single v | None => Multi [] end
  end.

(** JSON numbers: [as_i64], [as_u64], [as_f64]. *)
Definition in_i64 (n : Z) : bool := ((-9223372036854775808 <=? n) && (n <=? 9223372036854775807))%Z.
Definition as_i64 (v : JsonValue) : option Z := match v with JInt n => if in_i64 n then Some n else None | _ => None end.

Definition f64_of_Z (n : Z) : spec_float := binary_normalize f64_prec f64_emax n 0 false.
Definition as_f64 (v : JsonValue) : option spec_float :=
  match v with JInt n => Some (f64_of_Z n) | JFloat f => Some f | _ => None end.

Definition json_to_packed_default (val : JsonValue) : option PackedValue :=
  match val with
  | JBool b => Some (PB b)
  | JInt n => if in_i64 n then Some (PI n) else Some (PF (f64_of_Z n))
  | JFloat f => Some (PF f)
  | JString s => Some (PS s)
  | JArray [] => Some (PMi [])
  | JArray arr =>
      if forallb (fun v => match v with JInt _ => true | _ => false end) arr
      then Some (PMi (omap (fun v => match v with JInt n => Some (u64_as_i64 (i64_as_u64 n)) | _ => None end) arr))
      else None
  | JNull | JObject _ => None
  end.

(** [json!] of a float that is not finite is null. *)
Fixpoint packed_value_to_json (pv : PackedValue) : JsonValue :=
  match pv with
  | PI i => JInt i
  | PF f => match f with S754_nan | S754_infinity _ => JNull | _ => JFloat f end
  | PB b => JBool b
  | PS s => JString s
  | PMi arr => JArray (JInt <$> arr)
  | PMm arr => JArray (packed_value_to_json <$> arr)
  | PNull => JNull
  end.

(** ** MessagePack *)

Class MsgPack : Type := {
  rmp_packed_to_vec : PackedValue -> list N;
  rmp_packed_from_slice : list N -> option PackedValue;
  rmp_names_to_vec : list string -> list N;
  rmp_names_from_slice : list N -> option (list string);
  rmp_pairs_to_vec : list pair_t -> list N;
  rmp_pairs_from_slice : list N -> option (list pair_t);
}.

(** ** The store *)

Module DocStoreV3.

Definition DEFAULT_DOC_COMPACT_THRESHOLD : N := 1000.

Record t : Type := mk {
  store : ShardStore.t;
  field_to_idx : gmap string N;
  idx_to_field : list string;
  field_defaults : gmap N PackedValue;
  ds_schema_version : N;
  historical_defaults : gmap N (gmap N PackedValue);
  compact_threshold : N;
  dirty_shards : gset N;
}.

Section ops.
Context `{CK : Checksum, MP : MsgPack}.
Implicit Types (d : t).

Definition with_store d (s : ShardStore.t) : t :=
  mk s (field_to_idx d) (idx_to_field d) (field_defaults d) (ds_schema_version d) (historical_defaults d) (compact_threshold d) (dirty_shards d).

Definition mark_dirty d (key : N) : t :=
  mk (store d) (field_to_idx d) (idx_to_field d) (field_defaults d) (ds_schema_version d) (historical_defaults d) (compact_threshold d)
    ({[key]} ∪ dirty_shards d).

Definition dict_path : path := (["meta"%string], "field_dict.bin"%string).

Definition index_names (names : list string) : gmap string N :=
  foldl (fun m '(i, n) => <[n := i mod 65536]> m) ∅ (imap (fun i n => (N.of_nat i, n)) names).

Definition load_field_dict (fs : files) : io_result (gmap string N * list string) :=
  match fs !! dict_path with
  | Some data => match rmp_names_from_slice data with
                 | Some names => IoOk (index_names names, names)
                 | None => IoErr InvalidData
                 end
  | None => IoOk (∅, [])
  end.

(** Written to a temporary file and renamed. *)
Definition save_field_dict d : t :=
  with_store d (ShardStore.with_tree (store d) (<[dict_path := rmp_names_to_vec (idx_to_field d)]> (ShardStore.tree (store d)))).

(** Opening without recorded schema versions. *)
Definition open (fs : files) : io_result t :=
  let s := ShardStore.set_compact_threshold (ShardStore.new fs) DEFAULT_DOC_COMPACT_THRESHOLD in
  let! (f2i, i2f) := load_field_dict (ShardStore.tree s) in
  IoOk (mk s f2i i2f ∅ 1 ∅ DEFAULT_DOC_COMPACT_THRESHOLD ∅).

Definition ensure_field_idx d (name : string) : io_result (N * t) :=
  match field_to_idx d !! name with
  | Some idx => IoOk (idx, d)
  | None =>
      if 65535 <=? N.of_nat (length (idx_to_field d)) then IoErr OtherError
      else
        let idx := N.of_nat (length (idx_to_field d)) in
        IoOk (idx, mk (store d) (<[name := idx]> (field_to_idx d)) (idx_to_field d ++ [name]) (field_defaults d) (ds_schema_version d)
                     (historical_defaults d) (compact_threshold d) (dirty_shards d))
  end.

Definition field_index d (name : string) : option N := field_to_idx d !! name.

Definition ensure_field_index d (name : string) : io_result (N * t) :=
  let existed := bool_decide (is_Some (field_to_idx d !! name)) in
  let! (idx, d) := ensure_field_idx d name in
  IoOk (idx, if existed then d else save_field_dict d).

Definition field_dict_snapshot d : gmap string N := field_to_idx d.

(** [set_field_defaults], on the (target, default) pairs of the schema. *)
Definition set_field_defaults d (version : N) (schema : list (string * option JsonValue)) : t :=
  let defaults := foldl (fun m '(target, default_val) =>
      match default_val with
      | Some v => match field_to_idx d !! target, json_to_packed_default v with
                  | Some idx, Some pv => <[idx := pv]> m
                  | _, _ => m
                  end
      | None => m
      end) ∅ schema in
  mk (store d) (field_to_idx d) (idx_to_field d) defaults version (<[version := defaults]> (historical_defaults d))
    (compact_threshold d) (dirty_shards d).

Definition idx_defaults_to_named d (defaults : gmap N PackedValue) : gmap string JsonValue :=
  map_fold (fun idx pv acc => match idx_to_field d !! N.to_nat idx with Some name => <[name := packed_value_to_json pv]> acc | None => acc end) ∅ defaults.

Definition build_schema_registry d : gmap N (gmap string JsonValue) :=
  let current_defaults :=
    if bool_decide (field_defaults d = ∅) then
      match historical_defaults d !! ds_schema_version d with Some hist => idx_defaults_to_named d hist | None => ∅ end
    else idx_defaults_to_named d (field_defaults d) in
  <[ds_schema_version d := current_defaults]> (idx_defaults_to_named d <$> historical_defaults d).

(** *** Conversions *)

Definition named_fields d (fields : list pair_t) : Fields :=
  foldl (fun m '(idx, pv) => match idx_to_field d !! N.to_nat idx with Some name => <[name := packed_to_field_value pv]> m | None => m end) ∅ fields.

Definition fields_to_stored_doc d (fields : list pair_t) : StoredDoc :=
  let m := named_fields d fields in
  let defaults := map_fold (fun idx pv acc =>
      match idx_to_field d !! N.to_nat idx with Some name => <[name := packed_to_field_value pv]> acc | None => acc end) ∅ (field_defaults d) in
  MkStoredDoc (m ∪ defaults) (ds_schema_version d).

(** [&pv == default_pv] is the derived equality. *)
Definition stored_doc_to_fields d (doc : StoredDoc) : list pair_t :=
  omap (fun '(name, fv) =>
      match field_to_idx d !! name with
      | Some idx =>
          let pv := field_value_to_packed fv in
          match field_defaults d !! idx with
          | Some default_pv => if packed_value_eq pv default_pv then None else Some (idx, pv)
          | None => Some (idx, pv)
          end
      | None => None
      end) (map_to_list (sd_fields doc)).

(** *** Reading *)

Definition read_shard d (shard_id : N) : io_result (option DocSnapshot) :=
  ShardStore.read (S := DocSnapshot) (O := DocOp) (store d) (MkDocKey shard_id).

Definition get d (id : N) : io_result (option StoredDoc) :=
  let! snap := read_shard d (slot_to_shard id) in
  IoOk (match snap with
        | Some snap => fields_to_stored_doc d <$> docs snap !! id
        | None => None
        end).

Definition get_shard d (shard_id : N) : io_result (list (N * StoredDoc)) :=
  let! snap := read_shard d shard_id in
  IoOk (match snap with
        | Some snap => prod_map id (fields_to_stored_doc d) <$> map_to_list (docs snap)
        | None => []
        end).

Definition get_shard_packed d (shard_id : N) : io_result (list (N * list pair_t)) :=
  let! snap := read_shard d shard_id in
  IoOk (match snap with Some snap => map_to_list (docs snap) | None => [] end).

(** *** Writing *)

Definition op_slot (op : DocOp) : N :=
  match op with
  | DSet slot _ _ | DAppend slot _ _ | DRemove slot _ _ | DDelete slot | DCreate slot _ | DMerge slot _ => slot
  end.

(** Operations grouped by shard, in order within a shard. *)
Definition push_op (groups : gmap N (list DocOp)) (op : DocOp) : gmap N (list DocOp) :=
  let key := slot_to_shard (op_slot op) in <[key := default [] (groups !! key) ++ [op]]> groups.

Definition by_shard (ops : list DocOp) : gmap N (list DocOp) := foldl push_op ∅ ops.

(** The groups are appended one after the other, in any order of the hash map. *)
Fixpoint append_groups d (groups : list (N * list DocOp)) : io_result t :=
  match groups with
  | [] => IoOk d
  | (shard_key, ops) :: groups =>
      let! s := ShardStore.append_ops (S := DocSnapshot) (store d) (MkDocKey shard_key) ops in
      append_groups (mark_dirty (with_store d s) shard_key) groups
  end.

Definition append_all d (ops : list DocOp) : io_result t := append_groups d (map_to_list (by_shard ops)).

Fixpoint ensure_names d (names : list string) : io_result t :=
  match names with
  | [] => IoOk d
  | name :: names => let! (_, d) := ensure_field_idx d name in ensure_names d names
  end.

Definition doc_names (docs : list (N * StoredDoc)) : list string := mjoin ((fun e : N * StoredDoc => (map_to_list (sd_fields e.2)).*1) <$> docs).

Definition create_ops d (docs : list (N * StoredDoc)) : list DocOp := (fun e : N * StoredDoc => DCreate e.1 (stored_doc_to_fields d e.2)) <$> docs.

Definition put_batch d (docs : list (N * StoredDoc)) : io_result t :=
  match docs with
  | [] => IoOk d
  | _ =>
      let old_len := length (idx_to_field d) in
      let! d := ensure_names d (doc_names docs) in
      let d := if (old_len <? length (idx_to_field d))%nat then save_field_dict d else d in
      append_all d (create_ops d docs)
  end.

Definition put d (id : N) (doc : StoredDoc) : io_result t := put_batch d [(id, doc)].

(** The path that holds no exclusive lock: every field must be known. *)
Definition put_batch_known_fields d (docs : list (N * StoredDoc)) : io_result (bool * t) :=
  match docs with
  | [] => IoOk (true, d)
  | _ =>
      if forallb (fun name => bool_decide (is_Some (field_to_idx d !! name))) (doc_names docs) then
        let! d := append_all d (create_ops d docs) in IoOk (true, d)
      else IoOk (false, d)
  end.

(** Set operations from MessagePack bytes. *)
Fixpoint set_ops (tuples : list (N * N * list N)) : io_result (list DocOp) :=
  match tuples with
  | [] => IoOk []
  | (slot, field_idx, value_bytes) :: tuples =>
      match rmp_packed_from_slice value_bytes with
      | Some pv => let! ops := set_ops tuples in IoOk (DSet slot field_idx pv :: ops)
      | None => IoErr InvalidData
      end
  end.

Definition append_tuples_batch d (tuples : list (N * N * list N)) : io_result t :=
  let! ops := set_ops tuples in append_all d ops.

Definition multi_ops (appends removes : list (N * N * PackedValue)) : list DocOp :=
  ((fun '(slot, field, value) => DAppend slot field value) <$> appends)
  ++ ((fun '(slot, field, value) => DRemove slot field value) <$> removes).

Definition append_multi_ops_batch d (appends removes : list (N * N * PackedValue)) : io_result t :=
  append_all d (multi_ops appends removes).

Definition append_mixed_batch d (sets : list (N * N * list N)) (appends removes : list (N * N * PackedValue)) : io_result t :=
  let! ops := set_ops sets in append_all d (ops ++ multi_ops appends removes).

(** A failed compaction only prints a message. *)
Definition maybe_auto_compact d (shard_key : N) : t :=
  if compact_threshold d =? 0 then d
  else match ShardStore.ops_count (store d) (MkDocKey shard_key) with
       | IoOk (Some count) =>
           if compact_threshold d <? count then
             match ShardStore.compact_current (S := DocSnapshot) (O := DocOp) (store d) (MkDocKey shard_key) with
             | IoOk s => with_store d s
             | _ => d
             end
           else d
       | _ => d
       end.

Definition append_tuple d (slot field_idx : N) (value_bytes : list N) : io_result t :=
  match rmp_packed_from_slice value_bytes with
  | Some pv =>
      let shard_key := slot_to_shard slot in
      let! s := ShardStore.append_op (S := DocSnapshot) (store d) (MkDocKey shard_key) (DSet slot field_idx pv) in
      IoOk (maybe_auto_compact (with_store d s) shard_key)
  | None => IoErr InvalidData
  end.

Fixpoint compact_keys d (keys : list DocShardKey) (did_compact : bool) : io_result (bool * t) :=
  match keys with
  | [] => IoOk (did_compact, d)
  | key :: keys =>
      let! should := ShardStore.should_compact (store d) key (compact_threshold d) in
      if should : bool then
        let! s := ShardStore.compact_current (S := DocSnapshot) (O := DocOp) (store d) key in compact_keys (with_store d s) keys true
      else compact_keys d keys did_compact
  end.

Definition compact d : io_result (bool * t) := compact_keys d (list_shards (ShardStore.tree (store d))) false.

Definition set_compact_threshold d (threshold : N) : t :=
  mk (ShardStore.set_compact_threshold (store d) threshold) (field_to_idx d) (idx_to_field d) (field_defaults d) (ds_schema_version d)
    (historical_defaults d) threshold (dirty_shards d).

Definition drain_dirty_shards d : list N * t :=
  (elements (dirty_shards d),
   mk (store d) (field_to_idx d) (idx_to_field d) (field_defaults d) (ds_schema_version d) (historical_defaults d) (compact_threshold d) ∅).

End ops.

End DocStoreV3.
