(* ===== verification/DocShardsTheorems.v ===== *)
(** * Document shards: properties

    The document codecs read back what they write, so the theorems on the shard store
    apply to documents; sharding is transparent (operations grouped by shard act like the
    operations in order on one map of documents); and a document that is put is read
    back. *)

From S2P Require Import Prelude Roaring Bytes Encoding Config Float64 Query Coalescer Mutation Ops OpsWal OpsWalFacts ShardStore ShardStoreTheorems ShardBitmap ShardBitmapTheorems DocShards.
From Stdlib Require Import Ascii.
Local Open Scope bitdex_scope.

(** ** Packed values *)

(** The values the types of the source have, with lengths that fit 32 bits. *)
Fixpoint packed_ok (pv : PackedValue) : Prop :=
  match pv with
  | PI i => is_i64 i
  | PF f => is_f64 f
  | PB _ | PNull => True
  | PS s => valid_utf8 s = true /\ byte_len (string_bytes s) < 4294967296
  | PMi v => Forall is_i64 v /\ N.of_nat (length v) < 4294967296
  | PMm v => (fix go l : Prop := match l with [] => True | x :: l => packed_ok x /\ go l end) v /\ N.of_nat (length v) < 4294967296
  end.

Lemma packed_ok_all v : packed_ok (PMm v) -> Forall packed_ok v.
Proof. cbn. intros [H _]. induction v as [|x v IH]; [constructor|]. destruct H as [H1 H2]. constructor; [done|by apply IH]. Qed.

Fixpoint packed_depth (pv : PackedValue) : nat :=
  match pv with PMm v => S (foldr Nat.max 0%nat (packed_depth <$> v)) | _ => 0%nat end.

Lemma max_depth_elem (v : list PackedValue) x : x ∈ v -> (packed_depth x <= foldr Nat.max 0 (packed_depth <$> v))%nat.
Proof. induction 1 as [x v|x y v _ IH]; cbn; lia. Qed.

(** Each nesting level takes at least a byte. *)
Lemma packed_depth_length pv : (packed_depth pv < length (encode_packed_value pv))%nat.
Proof.
  induction pv as [i|f|b|s|v|v IH|] using PackedValue_nested_ind; cbn [packed_depth encode_packed_value length]; try lia.
  rewrite length_app, length_to_le_bytes. enough (foldr Nat.max 0 (packed_depth <$> v) <= length (mjoin (encode_packed_value <$> v)))%nat by lia.
  induction IH as [|x v Hx _ IHv]; [cbn; lia|]. change (mjoin (encode_packed_value <$> x :: v)) with (encode_packed_value x ++ mjoin (encode_packed_value <$> v)).
  rewrite length_app. cbn. lia.
Qed.

(** A decoder reads [v] back wherever its encoding is in [data]. *)
Definition reads {A : Type} (data : list N) (d : N -> io_result (A * N)) (enc : A -> list N) (v : A) : Prop :=
  forall pre post, data = pre ++ enc v ++ post -> d (byte_len pre) = IoOk (v, byte_len pre + byte_len (enc v)).

Lemma decode_many_reads {A : Type} (data : list N) (d : N -> io_result (A * N)) (enc : A -> list N) vs :
  Forall (reads data d enc) vs -> forall pre post, data = pre ++ mjoin (enc <$> vs) ++ post ->
  decode_many d (length vs) (byte_len pre) = IoOk (vs, byte_len pre + byte_len (mjoin (enc <$> vs))).
Proof.
  induction 1 as [|v vs Hv _ IH]; intros pre post Hd; [cbn; by rewrite N.add_0_r|].
  change (mjoin (enc <$> v :: vs)) with (enc v ++ mjoin (enc <$> vs)) in *. rewrite <- app_assoc in Hd. cbn [length decode_many].
  rewrite (Hv _ _ Hd). cbn [io_bind]. rewrite <- byte_len_app. rewrite (IH _ post) by (by rewrite Hd, <- app_assoc). cbn [io_bind].
  do 2 f_equal. rewrite !byte_len_app. lia.
Qed.

Lemma read_tag pre tag rest lo : tag < 256 -> byte_len pre = lo -> read_le (pre ++ tag :: rest) lo (lo + 1) = IoOk tag.
Proof.
  intros Ht <-. pose proof (read_le_app pre 1 tag rest (byte_len pre) (byte_len pre + 1)) as H. cbn [to_le_bytes app] in H. rewrite N.mod_small in H by done. by apply H.
Qed.

Lemma reads_i64 data v : is_i64 v -> reads data (decode_i64 data) i64_bytes v.
Proof.
  intros Hv pre post ->. unfold decode_i64, i64_bytes. rewrite read_le_app; [|apply i64_as_u64_bound|done|done]. cbn [io_bind].
  by rewrite u64_as_i64_as_u64, byte_len_le_bytes.
Qed.

(** The bytes after the tag. *)
Lemma read_after_tag data pre tag w n post hi : data = pre ++ tag :: to_le_bytes w n ++ post -> n < 256 ^ N.of_nat w ->
  hi = byte_len pre + 1 + N.of_nat w -> read_le data (byte_len pre + 1) hi = IoOk n.
Proof.
  intros -> Hn ->. change (tag :: to_le_bytes w n ++ post) with ([tag] ++ to_le_bytes w n ++ post). rewrite app_assoc.
  apply read_le_app; [done|by rewrite byte_len_app|done].
Qed.

Lemma cons_app3 {A : Type} (pre : list A) tag (a b : list A) : pre ++ tag :: a ++ b = (pre ++ tag :: a) ++ b.
Proof. by rewrite <- app_assoc. Qed.

Lemma byte_len_tagged pre tag w n : byte_len (pre ++ tag :: to_le_bytes w n) = byte_len pre + 1 + N.of_nat w.
Proof. change (tag :: to_le_bytes w n) with ([tag] ++ to_le_bytes w n). rewrite !byte_len_app, byte_len_le_bytes. change (byte_len [tag]) with 1. lia. Qed.

Lemma byte_len_cons (b : N) l : byte_len (b :: l) = 1 + byte_len l.
Proof. unfold byte_len. cbn [length]. lia. Qed.

Lemma checked_slice_at data pre x post lo hi : data = pre ++ x ++ post -> lo = byte_len pre -> hi = lo + byte_len x ->
  checked_slice data lo hi = IoOk x.
Proof. intros -> -> ->. apply checked_slice_app. Qed.

(** A length-prefixed list of values. *)
Lemma decode_counted {A : Type} (data : list N) (d : N -> io_result (A * N)) (enc : A -> list N) tag vs pre post :
  Forall (reads data d enc) vs -> N.of_nat (length vs) < 4294967296 ->
  data = pre ++ tag :: to_le_bytes 4 (wrap32 (N.of_nat (length vs))) ++ mjoin (enc <$> vs) ++ post ->
  read_le data (byte_len pre + 1) (byte_len pre + 1 + 4) = IoOk (N.of_nat (length vs))
  /\ decode_many d (N.to_nat (N.of_nat (length vs))) (byte_len pre + 1 + 4) = IoOk (vs, byte_len pre + 5 + byte_len (mjoin (enc <$> vs))).
Proof.
  intros Hr Hl Hd. unfold wrap32 in Hd. rewrite N.mod_small in Hd by done. split.
  - by apply (read_after_tag data pre tag 4 (N.of_nat (length vs)) (mjoin (enc <$> vs) ++ post)).
  - rewrite Nat2N.id. change 4 with (N.of_nat 4) at 1. rewrite <- (byte_len_tagged pre tag 4 (N.of_nat (length vs))).
    rewrite (decode_many_reads data d enc vs Hr _ post) by (rewrite Hd; by rewrite cons_app3).
    rewrite byte_len_tagged. do 2 f_equal. lia.
Qed.

Lemma decode_value_reads pv : packed_ok pv -> forall fuel data, (packed_depth pv < fuel)%nat -> reads data (decode_value fuel data) encode_packed_value pv.
Proof.
  induction pv as [i|f|b|s|v|v IH|] using PackedValue_nested_ind; intros Hok fuel data Hfuel pre post Hd; (destruct fuel as [|fuel]; [lia|]);
    cbn [decode_value]; cbn [encode_packed_value app] in Hd |- *.
  all: destruct (N.leb_spec (byte_len data) (byte_len pre)) as [Hle|_]; [rewrite Hd, byte_len_app, byte_len_cons in Hle; lia|].
  all: replace (read_le data (byte_len pre) (byte_len pre + 1)) with (read_le (pre ++ drop (length pre) data) (byte_len pre) (byte_len pre + 1))
    by (by rewrite Hd, drop_app_length); rewrite Hd at 1; rewrite drop_app_length, read_tag by done; cbn [io_bind];
    cbv [PV_TAG_I PV_TAG_F PV_TAG_B PV_TAG_S PV_TAG_MI PV_TAG_MM PV_TAG_NULL] in Hd |- *; cbn [N.eqb Pos.eqb]; rewrite byte_len_cons.
  - unfold decode_i64. rewrite (read_after_tag data pre 1 8 (i64_as_u64 i) post) by (done || apply i64_as_u64_bound). cbn [io_bind].
    rewrite u64_as_i64_as_u64 by done. unfold i64_bytes. rewrite byte_len_le_bytes. do 2 f_equal. lia.
  - rewrite (read_after_tag data pre 2 8 (f64_to_bits f) post) by (done || by apply f64_to_bits_bound). cbn [io_bind].
    rewrite f64_bits_roundtrip by done. rewrite byte_len_le_bytes. do 2 f_equal. lia.
  - rewrite (read_after_tag data pre 3 1 (if b then 1 else 0) post); [|by destruct b|by destruct b|done]. cbn [io_bind]. destruct b; do 2 f_equal; change (byte_len [_]) with 1; lia.
  - destruct Hok as [Hu Hl]. unfold wrap32 in Hd |- *. rewrite N.mod_small in Hd |- * by done. rewrite <- app_assoc in Hd.
    rewrite (read_after_tag data pre 4 4 _ _ _ Hd) by done. cbn [io_bind].
    assert (checked_slice data (byte_len pre + 1 + 4) (byte_len pre + 1 + 4 + byte_len (string_bytes s)) = IoOk (string_bytes s)) as ->.
    { apply (checked_slice_at _ (pre ++ 4 :: to_le_bytes 4 (byte_len (string_bytes s))) _ post); [by rewrite <- cons_app3|by rewrite byte_len_tagged|done]. }
    cbn [io_bind]. rewrite from_utf8_lossy_valid by done. rewrite byte_len_app, byte_len_le_bytes. do 2 f_equal. lia.
  - destruct Hok as [Hv Hl]. rewrite <- app_assoc in Hd.
    destruct (decode_counted data (decode_i64 data) i64_bytes 5 v pre post) as [H1 H2]; [|done|done|].
    { eapply Forall_impl; [exact Hv|]. intros x. apply reads_i64. }
    rewrite H1. cbn [io_bind]. rewrite H2. cbn [io_bind]. rewrite byte_len_app, byte_len_le_bytes. do 2 f_equal. lia.
  - pose proof (packed_ok_all v Hok) as Hv. destruct Hok as [_ Hl]. rewrite <- app_assoc in Hd. cbn [packed_depth] in Hfuel.
    destruct (decode_counted data (decode_value fuel data) encode_packed_value 6 v pre post) as [H1 H2]; [|done|done|].
    { apply Forall_forall. intros x Hx. rewrite Forall_forall in IH, Hv. apply IH; [done|by apply Hv|]. pose proof (max_depth_elem v x Hx). lia. }
    rewrite H1. cbn [io_bind]. rewrite H2. cbn [io_bind]. rewrite byte_len_app, byte_len_le_bytes. do 2 f_equal. lia.
  - done.
Qed.

Lemma decode_packed_reads data pv : packed_ok pv -> reads data (decode_packed_value data) encode_packed_value pv.
Proof.
  intros Hok pre post Hd. apply (decode_value_reads pv Hok _ _) with post; [|done].
  pose proof (packed_depth_length pv). rewrite Hd, !length_app. lia.
Qed.

(** ** Pairs, documents and snapshots *)

Definition pair_ok (p : pair_t) : Prop := p.1 < 65536 /\ packed_ok p.2.

Lemma read_le_at data pre w n post lo hi : data = pre ++ to_le_bytes w n ++ post -> lo = byte_len pre -> hi = lo + N.of_nat w ->
  n < 256 ^ N.of_nat w -> read_le data lo hi = IoOk n.
Proof. intros -> -> -> Hn. by apply read_le_app. Qed.

Lemma field_pair_reads data p : pair_ok p -> reads data (decode_field_pair data) encode_field_pair p.
Proof.
  intros [Hf Hv] pre post Hd. destruct p as [f v]. unfold encode_field_pair, decode_field_pair in *. cbn [fst snd] in *. rewrite <- app_assoc in Hd.
  assert (byte_len data = byte_len pre + (2 + byte_len (encode_packed_value v ++ post))) as Hl by (rewrite Hd, !byte_len_app, byte_len_le_bytes; lia).
  destruct (N.ltb_spec (byte_len data) (byte_len pre + 2)); [lia|]. rewrite (read_le_at data pre 2 f _ _ _ Hd) by done. cbn [io_bind].
  replace (byte_len pre + 2) with (byte_len (pre ++ to_le_bytes 2 f)) by (rewrite byte_len_app, byte_len_le_bytes; lia).
  rewrite (decode_packed_reads data v Hv _ post) by (by rewrite Hd, <- app_assoc). cbn [io_bind]. do 2 f_equal.
  rewrite !byte_len_app, byte_len_le_bytes. lia.
Qed.

Definition fields_ok (fields : list pair_t) : Prop := Forall pair_ok fields /\ N.of_nat (length fields) < 65536.
Definition doc_entry_ok (d : N * list pair_t) : Prop := d.1 < 4294967296 /\ fields_ok d.2.

(** The count and the pairs of a document. *)
Lemma fields_read data pre fields post lo : data = pre ++ encode_fields fields ++ post -> lo = byte_len pre -> fields_ok fields ->
  read_le data lo (lo + 2) = IoOk (N.of_nat (length fields))
  /\ decode_many (decode_field_pair data) (N.to_nat (N.of_nat (length fields))) (lo + 2) = IoOk (fields, lo + byte_len (encode_fields fields)).
Proof.
  intros Hd -> [Hok Hl]. unfold encode_fields in *. rewrite N.mod_small in * by done. rewrite <- app_assoc in Hd. split; [by apply (read_le_at data pre 2 _ _ _ _ Hd)|].
  rewrite Nat2N.id. replace (byte_len pre + 2) with (byte_len (pre ++ to_le_bytes 2 (N.of_nat (length fields)))) by (rewrite byte_len_app, byte_len_le_bytes; lia).
  rewrite (decode_many_reads data (decode_field_pair data) encode_field_pair fields) with (post := post); [| |by rewrite Hd, <- app_assoc].
  - do 2 f_equal. rewrite !byte_len_app, byte_len_le_bytes. lia.
  - eapply Forall_impl; [exact Hok|]. intros p. apply field_pair_reads.
Qed.

Lemma doc_entry_reads data d : doc_entry_ok d -> reads data (decode_doc_entry data) encode_doc_entry d.
Proof.
  intros [Hs Hf] pre post Hd. destruct d as [slot fields]. unfold encode_doc_entry, decode_doc_entry in *. cbn [fst snd] in *.
  fold (encode_fields fields) in Hd |- *. rewrite <- app_assoc in Hd. rewrite byte_len_app, byte_len_le_bytes.
  assert (byte_len data = byte_len pre + (4 + (2 + byte_len (mjoin (encode_field_pair <$> fields)) + byte_len post))) as Hl
    by (rewrite Hd; unfold encode_fields; rewrite !byte_len_app, !byte_len_le_bytes; lia).
  destruct (N.ltb_spec (byte_len data) (byte_len pre + 6)); [lia|]. rewrite (read_le_at data pre 4 slot _ _ _ Hd) by done. cbn [io_bind].
  destruct (fields_read data (pre ++ to_le_bytes 4 slot) fields post (byte_len pre + 4)) as [H1 H2];
    [by rewrite Hd, <- app_assoc|by rewrite byte_len_app, byte_len_le_bytes|done|].
  replace (byte_len pre + 6) with (byte_len pre + 4 + 2) by lia. rewrite H1. cbn [io_bind]. rewrite H2. cbn [io_bind]. do 2 f_equal. lia.
Qed.

Definition docs_ok (ds : list (N * list pair_t)) : Prop := Forall doc_entry_ok ds /\ NoDup ds.*1 /\ N.of_nat (length ds) < 4294967296.

Lemma docs_roundtrip ds : docs_ok ds -> decode_docs (encode_docs ds) = IoOk (MkDocSnapshot (list_to_map ds)).
Proof.
  intros (Hok & Hnd & Hl). unfold decode_docs, encode_docs, wrap32. rewrite N.mod_small by done. set (data := to_le_bytes 4 (N.of_nat (length ds)) ++ mjoin (encode_doc_entry <$> ds)).
  assert (byte_len data = 4 + byte_len (mjoin (encode_doc_entry <$> ds))) as Hb by (unfold data; rewrite byte_len_app, byte_len_le_bytes; lia).
  destruct (N.ltb_spec (byte_len data) 4); [lia|]. rewrite (read_le_at data [] 4 (N.of_nat (length ds)) (mjoin (encode_doc_entry <$> ds))) by done. cbn [io_bind].
  rewrite Nat2N.id. change 4 with (byte_len (to_le_bytes 4 (N.of_nat (length ds)))) at 1.
  rewrite (decode_many_reads data (decode_doc_entry data) encode_doc_entry ds) with (post := []); [| |by rewrite app_nil_r].
  - cbn [io_bind]. fold (insert_all ∅ ds). by rewrite insert_all_list_to_map, map_union_empty.
  - eapply Forall_impl; [exact Hok|]. intros d. apply doc_entry_reads.
Qed.

(** ** Operations *)

Definition doc_op_ok (op : DocOp) : Prop :=
  match op with
  | DSet slot field v | DAppend slot field v | DRemove slot field v => slot < 4294967296 /\ pair_ok (field, v)
  | DDelete slot => slot < 4294967296
  | DCreate slot fields | DMerge slot fields => slot < 4294967296 /\ fields_ok fields
  end.

Lemma doc_op_roundtrip op : doc_op_ok op -> decode_doc_op (encode_doc_op op) = IoOk op.
Proof.
  assert (forall tag slot rest, slot < 4294967296 -> read_le (tag :: to_le_bytes 4 slot ++ rest) 1 5 = IoOk slot) as Hs
    by (intros tag slot rest Hs; by apply (read_le_at _ [tag] 4 slot rest)).
  assert (forall tag slot p, pair_ok p -> exists pos, decode_field_pair (tag :: to_le_bytes 4 slot ++ encode_field_pair p) 5 = IoOk (p, pos)) as Hp.
  { intros tag slot p Hp. eexists. change 5 with (byte_len (tag :: to_le_bytes 4 slot)) at 1.
    apply (field_pair_reads _ p Hp _ []). by rewrite app_nil_r. }
  assert (forall tag slot fields, fields_ok fields -> let data := tag :: to_le_bytes 4 slot ++ encode_fields fields in
    read_le data 5 7 = IoOk (N.of_nat (length fields))
    /\ exists pos, decode_many (decode_field_pair data) (N.to_nat (N.of_nat (length fields))) 7 = IoOk (fields, pos)) as Hf.
  { intros tag slot fields Hf data. destruct (fields_read data (tag :: to_le_bytes 4 slot) fields [] 5) as [H1 H2];
      [unfold data; by rewrite app_nil_r|done|done|]. split; [exact H1|]. eexists. exact H2. }
  destruct op as [slot f v|slot f v|slot f v|slot|slot fields|slot fields]; cbn [doc_op_ok]; intros Hok; unfold decode_doc_op; cbn [encode_doc_op].
  - destruct Hok as [H1 H2]. destruct (Hp OP_TAG_SET slot (f, v) H2) as [pos Hpos]. cbn [N.eqb Pos.eqb orb OP_TAG_SET]. rewrite Hs by done. cbn [io_bind]. by rewrite Hpos.
  - destruct Hok as [H1 H2]. destruct (Hp OP_TAG_APPEND slot (f, v) H2) as [pos Hpos]. cbn [N.eqb Pos.eqb orb]. rewrite Hs by done. cbn [io_bind]. by rewrite Hpos.
  - destruct Hok as [H1 H2]. destruct (Hp OP_TAG_REMOVE slot (f, v) H2) as [pos Hpos]. cbn [N.eqb Pos.eqb orb]. rewrite Hs by done. cbn [io_bind]. by rewrite Hpos.
  - pose proof (Hs OP_TAG_DELETE slot [] Hok) as H. rewrite app_nil_r in H. cbn [N.eqb Pos.eqb orb]. by rewrite H.
  - destruct Hok as [H1 H2]. destruct (Hf OP_TAG_CREATE slot fields H2) as (Hn & pos & Hpos). cbn [N.eqb Pos.eqb orb]. rewrite Hs by done. cbn [io_bind]. rewrite Hn. cbn [io_bind]. by rewrite Hpos.
  - destruct Hok as [H1 H2]. destruct (Hf OP_TAG_MERGE slot fields H2) as (Hn & pos & Hpos). cbn [N.eqb Pos.eqb orb]. rewrite Hs by done. cbn [io_bind]. rewrite Hn. cbn [io_bind]. by rewrite Hpos.
Qed.

(** ** Laws *)

#[export] Instance doc_snapshot_equiv : Equiv DocSnapshot := eq.

#[export, refine] Instance DocLaws : SnapshotLaws DocSnapshot := {| snapshot_ok s := docs_ok (map_to_list (docs s)) |}.
Proof.
  - intros s Hs. cbn [sc_encode sc_decode DocSnapshotCodec]. rewrite docs_roundtrip by done. eexists. split; [done|].
    destruct s as [m]. cbn [docs]. by rewrite list_to_map_to_list.
  - intros s Hs E. apply (f_equal byte_len) in E. cbn [sc_encode DocSnapshotCodec] in E. unfold encode_docs in E.
    rewrite byte_len_app, byte_len_le_bytes in E. change (byte_len []) with 0 in E. lia.
Defined.

#[export, refine] Instance DocOpLaws : OpLaws DocOp DocSnapshot := {| op_ok := doc_op_ok |}.
Proof. apply doc_op_roundtrip. Defined.

Lemma doc_key_roundtrip key : dk_shard key <= u32_max -> doc_key_of (shard_path key) = Some key.
Proof.
  intros Hk. destruct key as [k]. cbn [shard_path SlotHexShard doc_key_of fst snd dk_shard]. rewrite bool_decide_eq_true_2 by done.
  rewrite strip_suffix_app. cbn [mbind option_bind]. by rewrite parse_pad6.
Qed.

#[export, refine] Instance DocSharding : ShardingLaws DocShardKey := {| key_ok key := dk_shard key <= u32_max |}.
Proof.
  - intros k1 k2 H1 H2 E. apply (f_equal doc_key_of) in E. rewrite !doc_key_roundtrip in E by done. congruence.
  - intros k Hk. apply name_extension. unfold pad6. destruct (zeros _); [|done]. apply print_dec_nonempty.
Defined.

(** ** The documents of a store *)

Section store.
Context `{CK : Checksum, MP : MsgPack}.
Implicit Types (d : DocStoreV3.t) (m : gmap N (list pair_t)) (ops : list DocOp).

Notation spec := (DocShardKey -> option (DocSnapshot * N)).
Notation op_slot := DocStoreV3.op_slot.

(** The documents of one shard. *)
Definition shard_docs (k : N) m : gmap N (list pair_t) := filter (fun e => slot_to_shard e.1 = k) m.
Definition shard_ops (k : N) ops : list DocOp := filter (fun op => slot_to_shard (op_slot op) = k) ops.

Lemma lookup_shard_docs k m slot : shard_docs k m !! slot = (if decide (slot_to_shard slot = k) then m !! slot else None).
Proof. unfold shard_docs. rewrite map_lookup_filter. destruct (m !! slot); cbn; repeat case_decide; repeat case_guard; done. Qed.

Lemma apply_other_shard k m op : slot_to_shard (op_slot op) <> k -> shard_docs k (apply_doc_op m op) = shard_docs k m.
Proof.
  intros Hk. apply map_eq. intros slot. rewrite !lookup_shard_docs. case_decide as Hs; [|done].
  assert (slot <> op_slot op) by (intros ->; done). destruct op; cbn [apply_doc_op DocStoreV3.op_slot] in *; by rewrite ?lookup_insert_ne, ?lookup_alter_ne, ?lookup_delete_ne.
Qed.

Lemma apply_same_shard k m op : slot_to_shard (op_slot op) = k -> shard_docs k (apply_doc_op m op) = apply_doc_op (shard_docs k m) op.
Proof.
  intros Hk. apply map_eq. intros slot. rewrite lookup_shard_docs. destruct op as [s f v|s f v|s f v|s|s fs|s fs]; cbn [apply_doc_op DocStoreV3.op_slot] in *;
    (destruct (decide (s = slot)) as [->|Hne];
     [rewrite ?lookup_insert_eq, ?lookup_alter_eq, ?lookup_delete_eq, ?lookup_shard_docs, decide_True by done; rewrite ?lookup_shard_docs, ?decide_True by done; done
     |rewrite ?lookup_insert_ne, ?lookup_alter_ne, ?lookup_delete_ne, lookup_shard_docs by done; done]).
Qed.

(** Sharding is transparent. *)
Lemma shard_docs_replay k ops : forall m, shard_docs k (foldl apply_doc_op m ops) = foldl apply_doc_op (shard_docs k m) (shard_ops k ops).
Proof.
  induction ops as [|op ops IH]; intros m; [done|]. cbn [foldl]. rewrite IH. unfold shard_ops. rewrite filter_cons. case_decide as Hk.
  - cbn [foldl]. by rewrite apply_same_shard.
  - by rewrite apply_other_shard.
Qed.

(** Grouping by shard. *)
Lemma by_shard_spec ops k : default [] (DocStoreV3.by_shard ops !! k) = shard_ops k ops
  /\ (is_Some (DocStoreV3.by_shard ops !! k) <-> shard_ops k ops <> []).
Proof.
  assert (forall g, default [] (foldl DocStoreV3.push_op g ops !! k) = default [] (g !! k) ++ shard_ops k ops
    /\ (is_Some (foldl DocStoreV3.push_op g ops !! k) <-> is_Some (g !! k) \/ shard_ops k ops <> [])) as H.
  { induction ops as [|op ops IH]; intros g; [cbn; rewrite app_nil_r; split; [done|]; split; [by left|by intros [|]]|]. cbn [foldl].
    destruct (IH (DocStoreV3.push_op g op)) as [-> ->]. unfold DocStoreV3.push_op, shard_ops. rewrite filter_cons.
    destruct (decide (slot_to_shard (op_slot op) = k)) as [->|Hne].
    - rewrite lookup_insert_eq. cbn [default from_option id]. split; [by rewrite <- app_assoc|]. split; [by right|by left].
    - by rewrite lookup_insert_ne. }
  destruct (H ∅) as [H1 H2]. unfold DocStoreV3.by_shard. rewrite H1, H2, lookup_empty. cbn. split; [done|]. split; [intros [[? [=]]|]; done|by right].
Qed.

(** The store holds the documents [m]; [n] counts the logged operations of each shard. *)
Definition shard_spec m (n : N -> option N) : spec := fun key => (fun c => (MkDocSnapshot (shard_docs (dk_shard key) m), c)) <$> n (dk_shard key).

Record doc_rep d m (n : N -> option N) : Prop := {
  dr_store : store_rep (DocStoreV3.store d) (shard_spec m n);
  dr_counted : forall k, n k = None -> shard_docs k m = ∅;
}.

Lemma slot_shard_ok slot : slot < 4294967296 -> slot_to_shard slot <= u32_max.
Proof. intros H. unfold slot_to_shard, SHARD_SHIFT, u32_max. rewrite N.shiftr_div_pow2. pose proof (N.Div0.div_le_upper_bound slot (2 ^ 9) 4294967295). apply H0. lia. Qed.

Lemma get_rep d m n id : doc_rep d m n -> id < 4294967296 ->
  DocStoreV3.get d id = IoOk (DocStoreV3.fields_to_stored_doc d <$> m !! id).
Proof.
  intros [Hr Hc] Hid. unfold DocStoreV3.get, DocStoreV3.read_shard.
  pose proof (read_rep _ _ (MkDocKey (slot_to_shard id)) Hr (slot_shard_ok id Hid)) as H. unfold shard_spec in H. cbn [dk_shard] in H.
  pose proof (lookup_shard_docs (slot_to_shard id) m id) as Hl. rewrite decide_True in Hl by done.
  destruct (n (slot_to_shard id)) as [c|] eqn:E; cbn [fmap option_fmap option_map] in H.
  - destruct H as [(s' & -> & Hs) _]. cbn [io_bind]. rewrite Hs. cbn [docs]. by rewrite Hl.
  - rewrite H. cbn [io_bind]. rewrite (Hc _ E), lookup_empty in Hl. by rewrite <- Hl.
Qed.

(** *** Appending *)

Lemma store_rep_ext st (sp sp' : spec) : store_rep (O := DocOp) st sp -> (forall key, key_ok key -> sp key = sp' key) -> store_rep (O := DocOp) st sp'.
Proof. intros [H1 H2] E. split; [|done]. intros key Hk. rewrite <- E by done. by apply H1. Qed.

Definition group_fits (sp : spec) (g : N * list DocOp) : Prop :=
  g.1 <= u32_max /\ g.2 <> [] /\ Forall (op_fits (S := DocSnapshot)) g.2
  /\ pending (K := DocShardKey) sp (MkDocKey g.1) + N.of_nat (length g.2) < 4294967296.

(** The specification after some groups, at one key. *)
Definition after_groups (sp : spec) (groups : list (N * list DocOp)) : spec := fun key =>
  match (list_to_map groups : gmap N (list DocOp)) !! dk_shard key with
  | Some ops => Some (foldl apply_op (value_of (K := DocShardKey) sp key) ops, pending (K := DocShardKey) sp key + N.of_nat (length ops))
  | None => sp key
  end.

Definition same_dict d d' : Prop :=
  DocStoreV3.field_to_idx d' = DocStoreV3.field_to_idx d /\ DocStoreV3.idx_to_field d' = DocStoreV3.idx_to_field d
  /\ DocStoreV3.field_defaults d' = DocStoreV3.field_defaults d /\ DocStoreV3.ds_schema_version d' = DocStoreV3.ds_schema_version d.

Lemma append_groups_rep groups : forall d (sp : spec), store_rep (DocStoreV3.store d) sp -> NoDup groups.*1 -> Forall (group_fits sp) groups ->
  exists d', DocStoreV3.append_groups d groups = IoOk d' /\ store_rep (DocStoreV3.store d') (after_groups sp groups) /\ same_dict d d'.
Proof.
  induction groups as [|[k ops] groups IH]; intros d sp Hr Hnd Hf; [exists d; split_and!; [done| |done]; by apply (store_rep_ext _ sp)|].
  apply NoDup_cons in Hnd as [Hk Hnd]. apply Forall_cons in Hf as [(Hkey & Hne & Hops & Hc) Hf]. cbn [fst snd] in *. cbn [DocStoreV3.append_groups].
  destruct (append_rep _ _ (MkDocKey k) ops Hr) as (s & -> & Hr'); [by split_and!|]. cbn [io_bind].
  destruct ops as [|op ops]; [done|]. set (new := op :: ops) in *. cbn [spec_step] in Hr'. fold new in Hr'.
  destruct (IH (DocStoreV3.mark_dirty (DocStoreV3.with_store d s) k) _ Hr' Hnd) as (d' & -> & Hd & Hs).
  { apply Forall_forall. intros [k' ops'] Hg. rewrite Forall_forall in Hf. destruct (Hf _ Hg) as (H1 & H2 & H3 & H4). split_and!; try done.
    unfold pending, supdate in *. cbn [fst snd] in *. rewrite decide_False; [done|]. intros [= ->]. apply Hk, list_elem_of_fmap. by exists (k, ops'). }
  exists d'. split_and!; [done| |apply Hs..]. eapply store_rep_ext; [exact Hd|]. intros [k'] Hk'. unfold after_groups. cbn [dk_shard]. rewrite list_to_map_cons.
  unfold value_of, pending, supdate. destruct (decide (k' = k)) as [->|Hne'].
  - rewrite lookup_insert_eq, (not_elem_of_list_to_map_1 groups k) by done. by rewrite decide_True.
  - rewrite lookup_insert_ne by done. destruct (list_to_map groups !! k'); by rewrite decide_False by (by intros [= ->]).
Qed.

Lemma docs_foldl (x : gmap N (list pair_t)) ops : foldl apply_op (MkDocSnapshot x) ops = MkDocSnapshot (foldl apply_doc_op x ops).
Proof. revert x. induction ops as [|op ops IH]; intros x; [done|]. cbn [foldl]. by rewrite <- IH. Qed.

Definition count_after (n : N -> option N) ops : N -> option N := fun k =>
  match shard_ops k ops with [] => n k | l => Some (default 0 (n k) + N.of_nat (length l)) end.

(** Operations that fit the format, in logs that do not overflow. *)
Definition ops_fit (n : N -> option N) ops : Prop :=
  Forall (op_fits (S := DocSnapshot)) ops /\ forall k, default 0 (n k) + N.of_nat (length (shard_ops k ops)) < 4294967296.

Lemma doc_op_slot_ok op : doc_op_ok op -> op_slot op < 4294967296.
Proof. destruct op; cbn; tauto. Qed.

Lemma append_all_rep d m n ops : doc_rep d m n -> ops_fit n ops ->
  exists d', DocStoreV3.append_all d ops = IoOk d' /\ doc_rep d' (foldl apply_doc_op m ops) (count_after n ops) /\ same_dict d d'.
Proof.
  intros [Hr Hc] [Hf Hn]. assert (forall k, (DocStoreV3.by_shard ops !! k) = match shard_ops k ops with [] => None | l => Some l end) as Hby.
  { intros k. destruct (by_shard_spec ops k) as [H1 H2]. destruct (DocStoreV3.by_shard ops !! k) as [l|]; cbn in H1.
    - subst l. destruct (shard_ops k ops); [|done]. exfalso. by apply H2.
    - destruct (shard_ops k ops); [done|]. exfalso. destruct (proj2 H2) as [? ?]; done. }
  assert (forall k, pending (K := DocShardKey) (shard_spec m n) (MkDocKey k) = default 0 (n k)) as Hp
    by (intros k; unfold pending, shard_spec; cbn [dk_shard]; by destruct (n k)).
  destruct (append_groups_rep (map_to_list (DocStoreV3.by_shard ops)) d (shard_spec m n) Hr) as (d' & He & Hr' & Hs).
  - apply NoDup_fst_map_to_list.
  - apply Forall_forall. intros [k l] Hl%elem_of_map_to_list. rewrite Hby in Hl. destruct (shard_ops k ops) as [|op l'] eqn:E; [done|]. injection Hl as <-.
    assert (forall o, o ∈ shard_ops k ops -> op_fits (S := DocSnapshot) o /\ slot_to_shard (op_slot o) = k) as Hin
      by (intros o [Ho1 Ho2]%list_elem_of_filter; rewrite Forall_forall in Hf; split; [by apply Hf|done]). rewrite E in Hin.
    split_and!; cbn [fst snd]; [|done| |].
    + destruct (Hin op) as [[Ho _] <-]; [by left|]. by apply slot_shard_ok, doc_op_slot_ok.
    + apply Forall_forall. intros o Ho. by apply Hin.
    + rewrite Hp, <- E. apply Hn.
  - exists d'. split_and!; [done| |apply Hs..]. split.
    + eapply store_rep_ext; [exact Hr'|]. intros [k] Hk. unfold after_groups, shard_spec, count_after. cbn [dk_shard]. rewrite list_to_map_to_list, Hby.
      rewrite shard_docs_replay. destruct (shard_ops k ops) as [|o l]; [done|]. cbn [fmap option_fmap option_map].
      fold (shard_spec m n). rewrite Hp. unfold value_of, shard_spec. cbn [dk_shard].
      destruct (n k) eqn:E; cbn [fmap option_fmap option_map]; [by rewrite docs_foldl|]. rewrite (Hc _ E).
      change (sc_empty : DocSnapshot) with (MkDocSnapshot ∅). by rewrite docs_foldl.
    + intros k Hk. rewrite shard_docs_replay. unfold count_after in Hk. destruct (shard_ops k ops); [|done]. by apply Hc.
Qed.

(** *** The field dictionary *)

Record dict_ok d : Prop := {
  dict_names : forall name i, DocStoreV3.field_to_idx d !! name = Some i <-> exists j, i = N.of_nat j /\ DocStoreV3.idx_to_field d !! j = Some name;
  dict_small : N.of_nat (length (DocStoreV3.idx_to_field d)) <= 65535;
}.

Lemma dict_bound d name i : dict_ok d -> DocStoreV3.field_to_idx d !! name = Some i -> i < 65536.
Proof. intros [H1 H2] (j & -> & Hj)%H1. apply lookup_lt_Some in Hj. lia. Qed.

Lemma ensure_field_idx_ok d name : dict_ok d -> N.of_nat (length (DocStoreV3.idx_to_field d)) < 65535 ->
  exists i d', DocStoreV3.ensure_field_idx d name = IoOk (i, d') /\ dict_ok d' /\ DocStoreV3.store d' = DocStoreV3.store d
    /\ DocStoreV3.field_defaults d' = DocStoreV3.field_defaults d /\ DocStoreV3.ds_schema_version d' = DocStoreV3.ds_schema_version d
    /\ is_Some (DocStoreV3.field_to_idx d' !! name)
    /\ DocStoreV3.field_to_idx d ⊆ DocStoreV3.field_to_idx d'
    /\ DocStoreV3.idx_to_field d `prefix_of` DocStoreV3.idx_to_field d'
    /\ (length (DocStoreV3.idx_to_field d') <= S (length (DocStoreV3.idx_to_field d)))%nat.
Proof.
  intros Hd Hl. unfold DocStoreV3.ensure_field_idx. destruct (DocStoreV3.field_to_idx d !! name) as [i|] eqn:E.
  { exists i, d. split_and!; try done. lia. }
  destruct (N.leb_spec 65535 (N.of_nat (length (DocStoreV3.idx_to_field d)))); [lia|]. eexists _, _. split; [done|]. cbn.
  destruct Hd as [H1 H2]. split_and!; try done.
  - split; cbn; [|rewrite length_app; cbn; lia]. intros nm i. destruct (decide (nm = name)) as [->|Hne].
    + rewrite lookup_insert_eq. split.
      * intros [= <-]. exists (length (DocStoreV3.idx_to_field d)). split; [done|]. rewrite lookup_app_r by lia. by rewrite Nat.sub_diag.
      * intros (j & -> & Hj). apply lookup_app_Some in Hj as [Hj|[Hj1 Hj2]].
        -- assert (DocStoreV3.field_to_idx d !! name = Some (N.of_nat j)) by (apply H1; by exists j). congruence.
        -- apply list_lookup_singleton_Some in Hj2 as [Hj2 _]. f_equal. lia.
    + rewrite lookup_insert_ne, H1 by done. split; intros (j & -> & Hj); exists j; (split; [done|]).
      * by apply lookup_app_l_Some.
      * apply lookup_app_Some in Hj as [Hj|[_ Hj]]; [done|]. apply list_lookup_singleton_Some in Hj as [_ ->]. done.
  - rewrite lookup_insert_eq. done.
  - by apply insert_subseteq.
  - by eexists.
  - rewrite length_app. cbn. lia.
Qed.

Lemma ensure_names_ok names : forall d, dict_ok d -> N.of_nat (length (DocStoreV3.idx_to_field d) + length names) <= 65535 ->
  exists d', DocStoreV3.ensure_names d names = IoOk d' /\ dict_ok d' /\ DocStoreV3.store d' = DocStoreV3.store d
    /\ DocStoreV3.field_defaults d' = DocStoreV3.field_defaults d /\ DocStoreV3.ds_schema_version d' = DocStoreV3.ds_schema_version d
    /\ (forall name, name ∈ names -> is_Some (DocStoreV3.field_to_idx d' !! name))
    /\ DocStoreV3.field_to_idx d ⊆ DocStoreV3.field_to_idx d'
    /\ DocStoreV3.idx_to_field d `prefix_of` DocStoreV3.idx_to_field d'.
Proof.
  induction names as [|name names IH]; intros d Hd Hl; [exists d; split_and!; try done; by intros name ?%not_elem_of_nil|]. cbn [length] in Hl.
  destruct (ensure_field_idx_ok d name Hd) as (i & d1 & E1 & Hd1 & Hs1 & Hf1 & Hv1 & Hn1 & Hsub1 & Hp1 & Hl1); [lia|].
  destruct (IH d1 Hd1) as (d2 & E2 & Hd2 & Hs2 & Hf2 & Hv2 & Hn2 & Hsub2 & Hp2); [lia|]. exists d2. cbn [DocStoreV3.ensure_names]. rewrite E1. cbn [io_bind].
  split_and!; [done|done|congruence|congruence|congruence| |by etrans|by etrans]. intros nm [->|Hnm]%elem_of_cons; [|by apply Hn2].
  destruct Hn1 as [j Hj]. exists j. by eapply lookup_weaken.
Qed.

Lemma save_dict_rep d m n : doc_rep d m n -> doc_rep (DocStoreV3.save_field_dict d) m n.
Proof.
  intros [[H1 H2] H3]. split; [|done]. unfold DocStoreV3.save_field_dict, DocStoreV3.with_store, ShardStore.with_tree. split; cbn [DocStoreV3.store ShardStore.tree].
  - intros key Hk. specialize (H1 key Hk). unfold key_rep in *. assert (shard_path key <> DocStoreV3.dict_path) as Hne.
    { intros E. pose proof (shard_path_ext key Hk) as He. rewrite E in He. discriminate He. }
    by destruct (shard_spec m n key) as [[]|]; rewrite lookup_insert_ne by done.
  - intros p Hp. rewrite lookup_insert_ne; [by apply H2|]. intros <-. discriminate Hp.
Qed.

(** *** Conversions *)

Lemma packed_field_value fv : packed_to_field_value (field_value_to_packed fv) = fv.
Proof.
  destruct fv as [v|vs]; [by destruct v|]. cbn [field_value_to_packed]. destruct (forallb _ vs) eqn:E; cbn [packed_to_field_value]; f_equal.
  - induction vs as [|v vs IH]; [done|]. cbn in E. destruct v; try done. cbn. f_equal. by apply IH.
  - clear E. induction vs as [|v vs IH]; [done|]. cbn. rewrite IH. by destruct v.
Qed.

(** The defaults a read document is filled up with. *)
Definition default_fields d : Fields := sd_fields (DocStoreV3.fields_to_stored_doc d []).

Lemma fields_to_stored_doc_eq d fields :
  DocStoreV3.fields_to_stored_doc d fields = MkStoredDoc (DocStoreV3.named_fields d fields ∪ default_fields d) (DocStoreV3.ds_schema_version d).
Proof. unfold default_fields, DocStoreV3.fields_to_stored_doc. cbn [sd_fields]. f_equal. f_equal. change (DocStoreV3.named_fields d []) with (∅ : Fields). by rewrite map_empty_union. Qed.

Lemma dict_name_idx d name i : dict_ok d -> DocStoreV3.field_to_idx d !! name = Some i <-> DocStoreV3.idx_to_field d !! N.to_nat i = Some name.
Proof.
  intros [H _]. rewrite H. split.
  - intros (j & -> & Hj). by rewrite Nat2N.id.
  - intros Hj. exists (N.to_nat i). by rewrite N2Nat.id.
Qed.

Lemma lookup_default_fields d name : dict_ok d ->
  default_fields d !! name = (i ← DocStoreV3.field_to_idx d !! name; packed_to_field_value <$> DocStoreV3.field_defaults d !! i).
Proof.
  intros Hd. unfold default_fields, DocStoreV3.fields_to_stored_doc. cbn [sd_fields]. change (DocStoreV3.named_fields d []) with (∅ : Fields). rewrite map_empty_union.
  revert name. apply (map_fold_weak_ind (fun (acc : Fields) defaults => forall name,
    acc !! name = (i ← DocStoreV3.field_to_idx d !! name; packed_to_field_value <$> defaults !! i))).
  { intros name. rewrite lookup_empty. destruct (DocStoreV3.field_to_idx d !! name); cbn; [by rewrite lookup_empty|done]. }
  intros i pv defaults acc Hi IH name. destruct (DocStoreV3.idx_to_field d !! N.to_nat i) as [nm|] eqn:E.
  - apply (dict_name_idx d nm i Hd) in E. destruct (decide (nm = name)) as [->|Hne].
    + rewrite lookup_insert_eq, E. cbn. by rewrite lookup_insert_eq.
    + rewrite lookup_insert_ne, IH by done. destruct (DocStoreV3.field_to_idx d !! name) as [j|] eqn:Ej; [cbn|done].
      rewrite lookup_insert_ne; [done|]. intros <-. apply (dict_name_idx d name i Hd) in Ej. apply (dict_name_idx d nm i Hd) in E. congruence.
  - rewrite IH. destruct (DocStoreV3.field_to_idx d !! name) as [j|] eqn:Ej; [cbn|done]. rewrite lookup_insert_ne; [done|].
    intros <-. apply (dict_name_idx d name i Hd) in Ej. congruence.
Qed.

(** Elision is exact for the defaults that are not floats: [0.0 == -0.0]. *)
Definition exact_default (pv : PackedValue) : Prop := match pv with PI _ | PB _ | PS _ | PMi _ => True | _ => False end.

Lemma exact_default_eq pv dv : exact_default dv -> packed_value_eq pv dv = true -> pv = dv.
Proof.
  destruct pv, dv; cbn; try done; intros _; [intros ->%Z.eqb_eq|intros ->%Bool.eqb_prop|intros ->%bool_decide_eq_true|intros ->%bool_decide_eq_true]; done.
Qed.

(** Whether a field is written: it differs from its default. *)
Definition kept d (e : string * FieldValue) : bool :=
  match DocStoreV3.field_to_idx d !! e.1 ≫= fun i => DocStoreV3.field_defaults d !! i with
  | Some dv => negb (packed_value_eq (field_value_to_packed e.2) dv)
  | None => true
  end.

Definition names_known d (doc : StoredDoc) : Prop := forall name fv, sd_fields doc !! name = Some fv -> is_Some (DocStoreV3.field_to_idx d !! name).
Definition defaults_exact d : Prop := forall i dv, DocStoreV3.field_defaults d !! i = Some dv -> exact_default dv.

Lemma foldl_insert {A : Type} (l : list (string * A)) : forall acc : gmap string A, NoDup l.*1 ->
  foldl (fun (x : gmap string A) e => <[e.1 := e.2]> x) acc l = list_to_map l ∪ acc.
Proof.
  induction l as [|[k v] l IH]; intros acc Hnd; [symmetry; apply map_empty_union|]. apply NoDup_cons in Hnd as [Hk Hnd]. cbn [foldl fst snd].
  rewrite IH, list_to_map_cons by done. rewrite <- insert_union_r by (by apply not_elem_of_list_to_map_1). by rewrite insert_union_l.
Qed.

Lemma named_stored d doc : dict_ok d -> names_known d doc ->
  DocStoreV3.named_fields d (DocStoreV3.stored_doc_to_fields d doc) = filter (fun e => kept d e) (sd_fields doc).
Proof.
  intros Hd Hk. unfold DocStoreV3.named_fields, DocStoreV3.stored_doc_to_fields.
  trans (foldl (fun (m : Fields) e => <[e.1 := e.2]> m) ∅ (filter (fun e => kept d e) (map_to_list (sd_fields doc)))).
  - assert (Forall (fun e => is_Some (DocStoreV3.field_to_idx d !! e.1)) (map_to_list (sd_fields doc))) as Hl
      by (apply Forall_forall; intros [name fv] Hin%elem_of_map_to_list; by apply (Hk name fv)).
    generalize (∅ : Fields). induction Hl as [|[name fv] l [i Hi] _ IH]; intros acc; [done|]. cbn [omap list_omap fst] in *. rewrite Hi.
    assert (kept d (name, fv) = match DocStoreV3.field_defaults d !! i with
      Some dv => negb (packed_value_eq (field_value_to_packed fv) dv) | None => true end) as Hkv by (unfold kept; cbn [fst snd]; by rewrite Hi).
    pose proof (proj1 (dict_name_idx d name i Hd) Hi) as Hn. rewrite filter_cons.
    destruct (DocStoreV3.field_defaults d !! i) as [dv|]; [destruct (packed_value_eq _ dv)|]; cbn [negb] in Hkv;
      (case_decide as Hdec; rewrite Hkv in Hdec; try done); cbn [foldl fst snd]; rewrite ?Hn, ?packed_field_value; apply IH.
  - rewrite foldl_insert, map_union_empty by (eapply sublist_NoDup; [apply (NoDup_fst_map_to_list (sd_fields doc))|apply fmap_sublist, sublist_filter]).
    by rewrite map_filter_alt.
Qed.

Lemma stored_doc_roundtrip d doc : dict_ok d -> names_known d doc -> defaults_exact d ->
  DocStoreV3.fields_to_stored_doc d (DocStoreV3.stored_doc_to_fields d doc) = MkStoredDoc (sd_fields doc ∪ default_fields d) (DocStoreV3.ds_schema_version d).
Proof.
  intros Hd Hk He. rewrite fields_to_stored_doc_eq, named_stored by done. f_equal. apply map_eq. intros name.
  rewrite !lookup_union, map_lookup_filter. destruct (sd_fields doc !! name) as [fv|] eqn:E; [|done]. cbn [mbind option_bind].
  case_guard as Hkept; [done|]. rewrite lookup_default_fields by done. unfold kept in Hkept. cbn [fst snd] in Hkept.
  destruct (DocStoreV3.field_to_idx d !! name) as [i|]; [cbn [mbind option_bind] in *|by destruct Hkept].
  destruct (DocStoreV3.field_defaults d !! i) as [dv|] eqn:Ei; [|by destruct Hkept]. cbn. destruct (packed_value_eq _ dv) eqn:Ed; [|by destruct Hkept].
  apply exact_default_eq in Ed as <-; [|by apply (He i)]. by rewrite packed_field_value.
Qed.

(** *** The size of a document *)

Definition value_bytes (fv : FieldValue) : N := byte_len (encode_packed_value (field_value_to_packed fv)).
Definition doc_bytes (doc : StoredDoc) : N := foldr (fun e acc => 2 + value_bytes e.2 + acc) 7 (map_to_list (sd_fields doc)).

Record doc_fits (doc : StoredDoc) : Prop := {
  df_values : forall name fv, sd_fields doc !! name = Some fv -> packed_ok (field_value_to_packed fv);
  df_count : N.of_nat (size (sd_fields doc)) < 65536;
  df_bytes : doc_bytes doc < 4294967296;
}.

Lemma create_fits d id doc : dict_ok d -> doc_fits doc -> id < 4294967296 ->
  op_fits (S := DocSnapshot) (DCreate id (DocStoreV3.stored_doc_to_fields d doc)).
Proof.
  intros Hd [Hv Hc Hb] Hid. unfold DocStoreV3.stored_doc_to_fields. rewrite <- length_map_to_list in Hc.
  assert (Forall (fun e => packed_ok (field_value_to_packed e.2)) (map_to_list (sd_fields doc))) as Hl
    by (apply Forall_forall; intros [name fv] Hin%elem_of_map_to_list; by apply (Hv name fv)). unfold doc_bytes in Hb. clear Hv.
  set (f := fun _ => _). assert (Forall pair_ok (omap f (map_to_list (sd_fields doc)))
    /\ (length (omap f (map_to_list (sd_fields doc))) <= length (map_to_list (sd_fields doc)))%nat
    /\ 7 + byte_len (mjoin (encode_field_pair <$> omap f (map_to_list (sd_fields doc)))) <= foldr (fun e acc => 2 + value_bytes e.2 + acc) 7 (map_to_list (sd_fields doc)))
    as (H1 & H2 & H3).
  { clear Hc Hb. induction Hl as [|[name fv] l Hfv _ (IH1 & IH2 & IH3)]; [split_and!; [by apply Forall_nil|cbn; lia|exact (N.le_refl 7)]|].
    cbn [omap list_omap foldr length fst snd] in *. assert (forall i, DocStoreV3.field_to_idx d !! name = Some i -> f (name, fv) = Some (i, field_value_to_packed fv) \/ f (name, fv) = None) as Hf.
    { intros i Hi. unfold f. rewrite Hi. destruct (DocStoreV3.field_defaults d !! i); [destruct (packed_value_eq _ _)|]; tauto. }
    destruct (DocStoreV3.field_to_idx d !! name) as [i|] eqn:Ei; [destruct (Hf i eq_refl) as [->| ->]|replace (f (name, fv)) with (@None pair_t) by (unfold f; by rewrite Ei)].
    - split_and!; [apply Forall_cons; split; [split; [by eapply dict_bound|done]|done]|cbn [length]; lia|].
      set (rest := omap f l) in *. change (mjoin (encode_field_pair <$> ?p :: rest)) with (encode_field_pair p ++ mjoin (encode_field_pair <$> rest)).
      rewrite byte_len_app. unfold encode_field_pair at 1. rewrite byte_len_app, byte_len_le_bytes. cbn [fst snd]. fold (value_bytes fv). lia.
    - split_and!; [done|lia|lia].
    - split_and!; [done|lia|lia]. }
  split.
  - cbn. unfold fields_ok. split_and!; [done|exact H1|lia].
  - cbn [encode_op DocOpCodec encode_doc_op]. rewrite byte_len_cons, byte_len_app. unfold encode_fields. rewrite byte_len_app, !byte_len_le_bytes. lia.
Qed.

(** *** Putting and getting *)

Lemma lookup_creates d docs id : forall m, foldl apply_doc_op m (DocStoreV3.create_ops d docs) !! id =
  match (list_to_map (reverse docs) : gmap N StoredDoc) !! id with Some doc => Some (DocStoreV3.stored_doc_to_fields d doc) | None => m !! id end.
Proof.
  induction docs as [|[i doc] docs IH] using rev_ind; intros m; [done|]. unfold DocStoreV3.create_ops in *. rewrite fmap_app, foldl_app, reverse_snoc. cbn [list_to_map foldl fmap list_fmap foldr apply_doc_op fst snd].
  destruct (decide (i = id)) as [->|Hne]; [by rewrite !lookup_insert_eq|]. rewrite !lookup_insert_ne by done. apply IH.
Qed.

(** Every index that is stored or has a default is in the dictionary. *)
Definition indices_known d m : Prop :=
  (forall id fields i pv, m !! id = Some fields -> (i, pv) ∈ fields -> (N.to_nat i < length (DocStoreV3.idx_to_field d))%nat)
  /\ forall i dv, DocStoreV3.field_defaults d !! i = Some dv -> (N.to_nat i < length (DocStoreV3.idx_to_field d))%nat.

(** A dictionary that only grew reads stored fields as before. *)
Lemma read_after_growth d d' m id fields : indices_known d m -> m !! id = Some fields -> DocStoreV3.idx_to_field d `prefix_of` DocStoreV3.idx_to_field d' ->
  DocStoreV3.field_defaults d' = DocStoreV3.field_defaults d -> DocStoreV3.ds_schema_version d' = DocStoreV3.ds_schema_version d ->
  DocStoreV3.fields_to_stored_doc d' fields = DocStoreV3.fields_to_stored_doc d fields.
Proof.
  intros [Hk Hdef] Hm [l Hp] Hf Hv. unfold DocStoreV3.fields_to_stored_doc. rewrite Hf, Hv. f_equal.
  assert (forall i, (i < length (DocStoreV3.idx_to_field d))%nat -> DocStoreV3.idx_to_field d' !! i = DocStoreV3.idx_to_field d !! i) as Hi
    by (intros i Hi; rewrite Hp; by apply lookup_app_l). f_equal.
  - unfold DocStoreV3.named_fields. specialize (Hk id fields). generalize (∅ : Fields). assert (Forall (fun p => (N.to_nat p.1 < length (DocStoreV3.idx_to_field d))%nat) fields) as Hall
      by (apply Forall_forall; intros [i pv] Hin; by apply (Hk i pv)). clear -Hall Hi.
    induction Hall as [|[i pv] fields Hb _ IH]; intros acc; [done|]. cbn [foldl fst] in *. rewrite (Hi _ Hb). apply IH.
  - rewrite !map_fold_foldr. assert (Forall (fun p => (N.to_nat p.1 < length (DocStoreV3.idx_to_field d))%nat) (map_to_list (DocStoreV3.field_defaults d))) as Hall
      by (apply Forall_forall; intros [i dv] Hin%elem_of_map_to_list; by apply (Hdef i dv)). clear -Hall Hi.
    induction Hall as [|[i pv] l' Hb _ IH]; [done|]. cbn [foldr uncurry fst] in *. by rewrite (Hi _ Hb), IH.
Qed.

Lemma default_fields_growth d d' m : indices_known d m -> DocStoreV3.idx_to_field d `prefix_of` DocStoreV3.idx_to_field d' ->
  DocStoreV3.field_defaults d' = DocStoreV3.field_defaults d -> DocStoreV3.ds_schema_version d' = DocStoreV3.ds_schema_version d ->
  default_fields d' = default_fields d.
Proof.
  intros [_ Hdef] Hp Hf Hv. unfold default_fields. f_equal. apply (read_after_growth d d' {[0 := []]} 0); [|by rewrite lookup_singleton_eq|done..].
  split; [|done]. intros id fields i pv [_ <-]%lookup_singleton_Some Hin. by apply not_elem_of_nil in Hin.
Qed.

Lemma stored_index d doc i pv : dict_ok d -> (i, pv) ∈ DocStoreV3.stored_doc_to_fields d doc -> (N.to_nat i < length (DocStoreV3.idx_to_field d))%nat.
Proof.
  intros Hd Hin. apply list_elem_of_omap in Hin as ([name fv] & _ & H). destruct (DocStoreV3.field_to_idx d !! name) as [j|] eqn:E; [|done].
  apply (dict_name_idx d name j Hd), lookup_lt_Some in E. destruct (DocStoreV3.field_defaults d !! j); cbn zeta in H; repeat case_match; naive_solver.
Qed.

Lemma names_in_batch docs id doc name fv : (id, doc) ∈ docs -> sd_fields doc !! name = Some fv -> name ∈ DocStoreV3.doc_names docs.
Proof.
  intros Hin Hf. unfold DocStoreV3.doc_names. apply list_elem_of_join. eexists. split; [|apply list_elem_of_fmap; exists (id, doc); by split].
  apply list_elem_of_fmap. exists (name, fv). split; [done|]. by apply elem_of_map_to_list.
Qed.

(** The dictionary step of a batch. *)
Lemma batch_dictionary d m n docs : doc_rep d m n -> dict_ok d -> N.of_nat (length (DocStoreV3.idx_to_field d) + length (DocStoreV3.doc_names docs)) <= 65535 ->
  docs <> [] -> exists d', DocStoreV3.put_batch d docs = DocStoreV3.append_all d' (DocStoreV3.create_ops d' docs) /\ doc_rep d' m n /\ dict_ok d'
    /\ DocStoreV3.field_defaults d' = DocStoreV3.field_defaults d /\ DocStoreV3.ds_schema_version d' = DocStoreV3.ds_schema_version d
    /\ DocStoreV3.idx_to_field d `prefix_of` DocStoreV3.idx_to_field d' /\ forall e, e ∈ docs -> names_known d' e.2.
Proof.
  intros Hr Hd Hl Hne. destruct (ensure_names_ok (DocStoreV3.doc_names docs) d Hd Hl) as (d1 & E & Hd1 & Hs & Hf & Hv & Hn & _ & Hp).
  assert (doc_rep d1 m n) as Hr1 by (destruct Hr as [H1 H2]; split; [by rewrite Hs|done]).
  assert (forall e, e ∈ docs -> names_known d1 e.2) as Hk by (intros [id doc] He name fv Hfv; apply Hn; by eapply names_in_batch).
  unfold DocStoreV3.put_batch. destruct docs as [|e docs]; [done|]. rewrite E. cbn [io_bind].
  destruct (length (DocStoreV3.idx_to_field d) <? length (DocStoreV3.idx_to_field d1))%nat; [exists (DocStoreV3.save_field_dict d1)|by exists d1; split_and!].
  split_and!; [done|by apply save_dict_rep|by destruct Hd1; split|done..].
Qed.

Lemma creates_fit d n docs : dict_ok d -> Forall (fun e => e.1 < 4294967296 /\ doc_fits e.2) docs ->
  (forall k, default 0 (n k) + N.of_nat (length docs) < 4294967296) -> ops_fit n (DocStoreV3.create_ops d docs).
Proof.
  intros Hd Hf Hn. split.
  - apply Forall_fmap. eapply Forall_impl; [exact Hf|]. intros [id doc] [H1 H2]. by apply create_fits.
  - intros k. specialize (Hn k). pose proof (length_filter (fun op => slot_to_shard (op_slot op) = k) (DocStoreV3.create_ops d docs)) as H.
    unfold shard_ops. unfold DocStoreV3.create_ops in H at 2. rewrite length_fmap in H. lia.
Qed.

(** A batch, with what it leaves of the dictionary and how much the logs grow. *)
Lemma put_batch_rep d m n docs :
  doc_rep d m n -> dict_ok d -> indices_known d m -> defaults_exact d ->
  Forall (fun e => e.1 < 4294967296 /\ doc_fits e.2) docs ->
  N.of_nat (length (DocStoreV3.idx_to_field d) + length (DocStoreV3.doc_names docs)) <= 65535 ->
  (forall k, default 0 (n k) + N.of_nat (length docs) < 4294967296) ->
  exists d' m' n', DocStoreV3.put_batch d docs = IoOk d' /\ doc_rep d' m' n' /\ dict_ok d' /\ indices_known d' m'
    /\ (DocStoreV3.idx_to_field d `prefix_of` DocStoreV3.idx_to_field d' /\ DocStoreV3.field_defaults d' = DocStoreV3.field_defaults d
        /\ DocStoreV3.ds_schema_version d' = DocStoreV3.ds_schema_version d /\ forall k, default 0 (n' k) <= default 0 (n k) + N.of_nat (length docs))
    /\ forall id, id < 4294967296 -> DocStoreV3.get d' id =
         match (list_to_map (reverse docs) : gmap N StoredDoc) !! id with
         | Some doc => IoOk (Some (MkStoredDoc (sd_fields doc ∪ default_fields d) (DocStoreV3.ds_schema_version d)))
         | None => DocStoreV3.get d id
         end.
Proof.
  intros Hr Hd Hi He Hf Hl Hn. destruct (decide (docs = [])) as [->|Hne]; [exists d, m, n; split_and!; try done; intros; lia|].
  destruct (batch_dictionary d m n docs Hr Hd Hl Hne) as (d1 & -> & Hr1 & Hd1 & Hf1 & Hv1 & Hp1 & Hk1).
  destruct (append_all_rep d1 m n (DocStoreV3.create_ops d1 docs) Hr1) as (d2 & E & Hr2 & Hs1 & Hs2 & Hs3 & Hs4); [by apply creates_fit|].
  assert (dict_ok d2) as Hd2 by (destruct Hd1 as [H1 H2]; split; by rewrite ?Hs1, ?Hs2).
  exists d2, (foldl apply_doc_op m (DocStoreV3.create_ops d1 docs)), (count_after n (DocStoreV3.create_ops d1 docs)).
  split_and!; [exact E|done|done| |by rewrite Hs2|congruence|congruence| |].
  - destruct Hi as [Hi1 Hi2]. rewrite <- Hs2 in Hp1. split; [intros id fields i pv|intros i dv; rewrite Hs3, Hf1; intros Hin]; [|apply prefix_length in Hp1; specialize (Hi2 i dv Hin); lia].
    rewrite lookup_creates. destruct (list_to_map (reverse docs) !! id) as [doc|].
    + intros [= <-] Hin. rewrite Hs2. by eapply stored_index.
    + intros Hm Hin. apply prefix_length in Hp1. specialize (Hi1 id fields i pv Hm Hin). lia.
  - intros k. pose proof (length_filter (fun op => slot_to_shard (op_slot op) = k) (DocStoreV3.create_ops d1 docs)) as Hlen.
    unfold DocStoreV3.create_ops in Hlen at 2. rewrite length_fmap in Hlen. unfold count_after, shard_ops. destruct (filter _ _); cbn [default from_option id]; lia.
  - intros id Hid. rewrite (get_rep _ _ _ id Hr2 Hid), lookup_creates. destruct (list_to_map (reverse docs) !! id) as [doc|] eqn:El; cbn [fmap option_fmap option_map].
    + do 2 f_equal. trans (DocStoreV3.fields_to_stored_doc d1 (DocStoreV3.stored_doc_to_fields d1 doc)).
      { unfold DocStoreV3.fields_to_stored_doc, DocStoreV3.named_fields. by rewrite Hs2, Hs3, Hs4. }
      apply elem_of_list_to_map_2 in El.
      rewrite stored_doc_roundtrip; [|done| |]; [|apply (Hk1 (id, doc)); by apply elem_of_reverse|unfold defaults_exact; by rewrite Hf1].
      by rewrite (default_fields_growth d d1 m), Hv1.
    + rewrite (get_rep _ _ _ id Hr Hid). f_equal. destruct (m !! id) as [fields|] eqn:Em; [cbn|done]. f_equal.
      apply (read_after_growth d d2 m id); [done|done|by rewrite Hs2|congruence|congruence].
Qed.

(** C29: documents that are put are read back: after a batch of documents that fit the
    format, each document reads as the last one put under its id, with the recorded
    defaults filled in and the store's schema version, and every other document reads as
    before; the dictionary stays a bijection that only grew. The recorded defaults are
    integers, booleans, strings or integer lists, dictionary entries and field occurrences
    of the batch add up to at most 65535, and the operation counts of the shards stay
    below 2^32. *)
Theorem doc_put_get d m n docs :
  doc_rep d m n -> dict_ok d -> indices_known d m -> defaults_exact d ->
  Forall (fun e => e.1 < 4294967296 /\ doc_fits e.2) docs ->
  N.of_nat (length (DocStoreV3.idx_to_field d) + length (DocStoreV3.doc_names docs)) <= 65535 ->
  (forall k, default 0 (n k) + N.of_nat (length docs) < 4294967296) ->
  exists d' m' n', DocStoreV3.put_batch d docs = IoOk d' /\ doc_rep d' m' n' /\ dict_ok d' /\ indices_known d' m'
    /\ DocStoreV3.idx_to_field d `prefix_of` DocStoreV3.idx_to_field d'
    /\ forall id, id < 4294967296 -> DocStoreV3.get d' id =
         match (list_to_map (reverse docs) : gmap N StoredDoc) !! id with
         | Some doc => IoOk (Some (MkStoredDoc (sd_fields doc ∪ default_fields d) (DocStoreV3.ds_schema_version d)))
         | None => DocStoreV3.get d id
         end.
Proof.
  intros Hr Hd Hi He Hf Hl Hn. destruct (put_batch_rep d m n docs Hr Hd Hi He Hf Hl Hn) as (d' & m' & n' & H1 & H2 & H3 & H4 & (H5 & _) & H6).
  by exists d', m', n'.
Qed.

End store.

(** ** A concrete store *)

(** Length-prefixed names, and the packed encoding of values. *)
Fixpoint names_from (fuel : nat) (data : list N) : option (list string) :=
  match fuel, data with
  | _, [] => Some []
  | S fuel, len :: data => cons (bytes_string (take (N.to_nat len) data)) <$> names_from fuel (drop (N.to_nat len) data)
  | O, _ => None
  end.

#[export] Instance demo_msgpack : MsgPack := {
  rmp_packed_to_vec := encode_packed_value;
  rmp_packed_from_slice data := match decode_packed_value data 0 with IoOk (v, _) => Some v | _ => None end;
  rmp_names_to_vec names := mjoin ((fun n => byte_len (string_bytes n) :: string_bytes n) <$> names);
  rmp_names_from_slice data := names_from (length data) data;
  rmp_pairs_to_vec := encode_fields;
  rmp_pairs_from_slice data :=
    match read_le data 0 2 with
    | IoOk n => match decode_many (decode_field_pair data) (N.to_nat n) 2 with IoOk (fields, _) => Some fields | _ => None end
    | _ => None
    end;
}.

(** A dictionary with one field, whose default is 0. *)
Definition demo_docs : DocStoreV3.t :=
  DocStoreV3.mk (ShardStore.new ∅) {["nsfw"%string := 0]} ["nsfw"%string] {[0 := PI 0]} 1 ∅ 1000 ∅.

Definition demo_doc : StoredDoc := MkStoredDoc {["nsfw"%string := Single (Integer 0); "tags"%string := Multi [Integer 7; Integer 9]; "name"%string := Single (Str "a")]} 1.

Lemma demo_docs_rep : doc_rep demo_docs ∅ (fun _ => None).
Proof.
  split; [|intros k _; apply map_eq; intros i; by rewrite lookup_shard_docs, lookup_empty; case_decide].
  split; [|done]. intros key _. done.
Qed.

Lemma demo_dict_ok : dict_ok demo_docs.
Proof.
  split; [|by vm_compute]. intros name i. cbn. rewrite lookup_singleton_Some. split.
  - intros [<- <-]. by exists 0%nat.
  - intros ([|j] & -> & Hj); [|done]. by injection Hj as <-.
Qed.

Lemma doc_put_get_witness : exists d', DocStoreV3.put_batch demo_docs [(700, demo_doc)] = IoOk d'
  /\ DocStoreV3.get d' 700 = IoOk (Some demo_doc) /\ DocStoreV3.get d' 701 = IoOk None.
Proof.
  destruct (doc_put_get demo_docs ∅ (fun _ => None) [(700, demo_doc)]) as (d' & _ & _ & H1 & _ & _ & _ & _ & H2).
  - exact demo_docs_rep.
  - exact demo_dict_ok.
  - split; [done|]. intros i dv H. change (({[0 := PI 0]} : gmap N PackedValue) !! i = Some dv) in H. apply lookup_singleton_Some in H as [<- _]. cbn. lia.
  - intros i dv H. change (({[0 := PI 0]} : gmap N PackedValue) !! i = Some dv) in H. by apply lookup_singleton_Some in H as [_ <-].
  - apply Forall_singleton. split; [done|]. split; [|by vm_compute|by vm_compute]. intros name fv H. cbn [snd demo_doc sd_fields] in H.
    repeat (apply lookup_insert_Some in H as [[_ <-]|[_ H]]; [by repeat constructor|]). apply lookup_singleton_Some in H as [_ <-]. by repeat constructor.
  - by vm_compute.
  - done.
  - exists d'. split; [exact H1|]. split; [rewrite H2 by done; vm_compute; reflexivity|rewrite H2 by done; vm_compute; reflexivity].
Defined.
