(* ===== verification/EngineStore.v ===== *)
(** * The engine over the shard store of documents

    [src/engine.rs] keeps its documents in [DocStoreV3].  Opened without recorded field
    defaults (as [Engine::new] does, and [new_with_path] over a directory without schema
    versions) this store satisfies the laws the engine's properties rely on, so they hold
    of the engine over real shard files; with recorded defaults it does not, and the
    difference is visible in queries. *)

From S2P Require Import Prelude Roaring Versioned Slot Config Sort Filter Float64 Bytes Query Dictionary Planner Executor ExecutorTheorems.
From S2P Require Import Coalescer Mutation MutationTheorems Engine EngineFacts EngineInvariant EngineTheorems Encoding Ops OpsWal ShardStore ShardStoreTheorems ShardBitmap ShardBitmapTheorems DocShards DocShardsTheorems.

(** ** The store as an instance *)

Section instance.
Context `{CK : Checksum, MP : MsgPack}.
Implicit Types (d : DocStoreV3.t) (fields : Fields).

(** [?] on an [io::Result]; a panic would unwind through the engine and is kept apart
    from the other failures by its message. *)
Definition from_io {A : Type} (r : io_result A) : result A :=
  match r with
  | IoOk a => Ok a
  | IoErr _ => Err (Io "io error")
  | IoPanic => Err (Io "panic")
  end.

#[export] Instance docstore_v3_ops : DocStoreOps DocStoreV3.t := {
  ds_get d id := from_io (DocStoreV3.get d id);
  ds_put d id doc := from_io (DocStoreV3.put d id doc);
}.

(** A store without defaults whose logs take [j] more operations. *)
Definition room d (j : N) : Prop :=
  exists m n, doc_rep d m n /\ dict_ok d /\ indices_known d m /\ DocStoreV3.field_defaults d = ∅
    /\ forall k, default 0 (n k) + j < 4294967296.

(** The document fits an operation, its fields fit the dictionary, and the logs take one
    more operation. *)
Definition fits d fields : Prop :=
  doc_fits (MkStoredDoc fields 0) /\ N.of_nat (length (DocStoreV3.idx_to_field d) + size fields) <= 65535 /\ room d 1.

#[export] Instance docstore_v3_view : DocStoreView DocStoreV3.t := {
  ds_sound d := room d 0;
  ds_fits := fits;
  ds_version := DocStoreV3.ds_schema_version;
}.

Lemma room_less d j j' : room d j -> j' <= j -> room d j'.
Proof. intros (m & n & H1 & H2 & H3 & H4 & H5) Hj. exists m, n. split_and!; try done. intros k. specialize (H5 k). lia. Qed.

Lemma no_default_fields d : DocStoreV3.field_defaults d = ∅ -> default_fields d = ∅.
Proof. intros H. unfold default_fields, DocStoreV3.fields_to_stored_doc. rewrite H. by vm_compute. Qed.

(** One put: the document is read back as it was put, with the store's schema version. *)
Lemma put_room d id fields j :
  id <= u32_max -> doc_fits (MkStoredDoc fields 0) -> N.of_nat (length (DocStoreV3.idx_to_field d) + size fields) <= 65535 -> room d (j + 1) ->
  exists d', DocStoreV3.put d id (MkStoredDoc fields 0) = IoOk d' /\ room d' j /\ DocStoreV3.ds_schema_version d' = DocStoreV3.ds_schema_version d
    /\ forall i, i <= u32_max ->
         DocStoreV3.get d' i = if decide (i = id) then IoOk (Some (MkStoredDoc fields (DocStoreV3.ds_schema_version d))) else DocStoreV3.get d i.
Proof.
  intros Hid Hdoc Hdict (m & n & Hr & Hd & Hi & Hdef & Hn). assert (forall i, i <= u32_max -> i < 4294967296) as H32 by (unfold u32_max; lia).
  destruct (put_batch_rep d m n [(id, MkStoredDoc fields 0)] Hr Hd Hi) as (d' & m' & n' & Hp & Hr' & Hd' & Hi' & (Hpre & Hdef' & Hver & Hgrow) & Hget).
  - intros i dv H. by rewrite Hdef in H.
  - apply Forall_singleton. split; [by apply H32|done].
  - unfold DocStoreV3.doc_names. cbn. rewrite app_nil_r, length_fmap, length_map_to_list. done.
  - intros k. specialize (Hn k). cbn [length]. lia.
  - exists d'. split; [exact Hp|]. split; [|split; [done|]].
    + exists m', n'. split_and!; [done|done|done|congruence|]. intros k. specialize (Hn k). specialize (Hgrow k). cbn [length] in Hgrow. lia.
    + intros i Hi32. rewrite Hget by (by apply H32).
      change (list_to_map (reverse [(id, MkStoredDoc fields 0)])) with ({[id := MkStoredDoc fields 0]} : gmap N StoredDoc).
      rewrite lookup_singleton. destruct (decide (i = id)) as [->|Hne].
      * rewrite decide_True by done. cbn [sd_fields]. by rewrite (no_default_fields d Hdef), map_union_empty.
      * by rewrite decide_False.
Qed.

#[export] Instance docstore_v3 : DocStore DocStoreV3.t.
Proof.
  split.
  - intros d id (m & n & Hr & _) Hid. exists (DocStoreV3.fields_to_stored_doc d <$> m !! id). unfold ds_get, docstore_v3_ops. rewrite (get_rep d m n id Hr); [done|]. unfold u32_max in Hid. lia.
  - intros d id fields _ Hid (Hdoc & Hdict & Hroom). destruct (put_room d id fields 0 Hid Hdoc Hdict Hroom) as (d' & Hp & Hr & Hv & Hg).
    exists d'. split_and!; [unfold ds_put, docstore_v3_ops; by rewrite Hp|done|done|]. intros i Hi. unfold ds_get, docstore_v3_ops. rewrite Hg by done. by case_decide.
Qed.

(** A fresh directory opens as a store with all the room. *)
Lemma open_room d : DocStoreV3.open ∅ = IoOk d -> room d 4294967295.
Proof.
  intros H. assert (d = DocStoreV3.mk (ShardStore.set_compact_threshold (ShardStore.new ∅) 1000) ∅ [] ∅ 1 ∅ 1000 ∅) as ->.
  { enough (IoOk d = IoOk (DocStoreV3.mk (ShardStore.set_compact_threshold (ShardStore.new ∅) 1000) ∅ [] ∅ 1 ∅ 1000 ∅)) as E by congruence. by rewrite <- H. }
  set (d := DocStoreV3.mk _ _ _ _ _ _ _ _).
  assert (doc_rep d ∅ (fun _ => None)) as Hr.
  { split; [|intros k _; apply map_eq; intros i; by rewrite lookup_shard_docs, lookup_empty; case_decide]. split; [|done]. intros key _. done. }
  assert (dict_ok d) as Hd.
  { split; [|by vm_compute]. intros name i. cbn. rewrite lookup_empty. split; [done|]. intros (j & _ & Hj). done. }
  exists ∅, (fun _ => None). split; [exact Hr|]. split; [exact Hd|]. split; [|done]. split; [|done]. intros id fields i pv H0. by rewrite lookup_empty in H0.
Qed.

End instance.

(** ** Witnesses *)

Definition temp_store : DocStoreV3.t := match DocStoreV3.open ∅ with IoOk d => d | _ => demo_docs end.

Definition put_engine (e : Engine.t (B := Bitset) (D := DocStoreV3.t)) (id : N) (tags : list Z) (score : Z) : Engine.t (B := Bitset) (D := DocStoreV3.t) :=
  (Engine.put e id (MkDocument (MutationTheorems.demo_doc tags score))).2.

(** Three documents, one of them replaced, one deleted and one put back. *)
Definition engine0 := Engine.new (B := Bitset) demo_cfg temp_store.
Definition engine1 := put_engine engine0 1 [10%Z] 5.
Definition engine2 := put_engine engine1 2 [10%Z; 20%Z] 9.
Definition engine3 := put_engine engine2 3 [20%Z] 7.
Definition engine4 := put_engine engine3 1 [20%Z] 8.
Definition engine5 := (Engine.delete engine4 2).2.
Definition demo_engine := put_engine engine5 2 [10%Z] 1.

Notation doc := MutationTheorems.demo_doc.

Definition held_docs : Docs :=
  <[2 := doc [10%Z] 1]> (delete 2 (<[1 := doc [20%Z] 8]> (<[3 := doc [20%Z] 7]> (<[2 := doc [10%Z; 20%Z] 9]> (<[1 := doc [10%Z] 5]> ∅))))).

Lemma demo_cfg_ok : config_ok demo_cfg.
Proof.
  split; cbn.
  - apply NoDup_singleton.
  - apply NoDup_singleton.
  - by rewrite list_elem_of_singleton.
  - apply Forall_singleton. cbn. lia.
Qed.

Lemma doc_fits_demo tags score :
  packed_ok (field_value_to_packed (Multi (Integer <$> tags))) -> packed_ok (PI score) -> doc_bytes (MkStoredDoc (doc tags score) 0) < 4294967296 ->
  doc_fits (MkStoredDoc (doc tags score) 0).
Proof.
  intros Ht Hs Hb. split; [|by vm_compute|done]. intros name fv H. cbn [sd_fields] in H. unfold MutationTheorems.demo_doc in H.
  apply lookup_insert_Some in H as [[_ <-]|[_ H]]; [done|]. by apply lookup_singleton_Some in H as [_ <-].
Qed.

(** One put of the run: it extends the history and uses one operation of the room. *)
Lemma demo_put e docs id tags score j d' :
  history string_lower demo_cfg e docs -> room (Engine.docstore e) (j + 1) -> id < u32_max -> doc_fits (MkStoredDoc (doc tags score) 0) ->
  N.of_nat (length (DocStoreV3.idx_to_field (Engine.docstore e)) + 2) <= 65535 ->
  DocStoreV3.put (Engine.docstore e) id (MkStoredDoc (doc tags score) 0) = IoOk d' -> Engine.docstore (put_engine e id tags score) = d' ->
  history string_lower demo_cfg (put_engine e id tags score) (<[id := doc tags score]> docs) /\ room (Engine.docstore (put_engine e id tags score)) j.
Proof.
  intros Hh Hr Hid Hf Hd Hp ->. assert (size (doc tags score) = 2%nat) as Hsize by reflexivity. rewrite <- Hsize in Hd. split.
  - apply (history_put _ _ _ _ id (MkDocument (doc tags score)) Hh Hid). split_and!; [done|done|]. eapply room_less; [exact Hr|lia].
  - destruct (put_room (Engine.docstore e) id (doc tags score) j) as (d & Hd1 & Hr1 & _); [lia|done..|]. congruence.
Qed.

Ltac demo_step H := destruct H as [?Hh ?Hr]; eapply demo_put;
  [eassumption|eassumption|done|apply doc_fits_demo; [by repeat constructor..|by vm_compute]|by vm_compute|vm_compute; reflexivity|vm_compute; reflexivity].

Lemma engine_history : history string_lower demo_cfg demo_engine held_docs.
Proof.
  assert (history string_lower demo_cfg engine0 ∅ /\ room (Engine.docstore engine0) (0 + 1 + 1 + 1 + 1 + 1)) as H0.
  { assert (room temp_store 4294967295) as Hr by by apply open_room. split; [apply history_new|]; (eapply room_less; [exact Hr|lia]). }
  assert (history string_lower demo_cfg engine1 _ /\ room (Engine.docstore engine1) (0 + 1 + 1 + 1 + 1)) as H1 by (demo_step H0).
  assert (history string_lower demo_cfg engine2 _ /\ room (Engine.docstore engine2) (0 + 1 + 1 + 1)) as H2 by (demo_step H1).
  assert (history string_lower demo_cfg engine3 _ /\ room (Engine.docstore engine3) (0 + 1 + 1)) as H3 by (demo_step H2).
  assert (history string_lower demo_cfg engine4 _ /\ room (Engine.docstore engine4) (0 + 1)) as H4 by (demo_step H3).
  destruct H4 as [Hh Hr]. apply (history_delete _ _ _ _ 2) in Hh; [|done].
  assert (Engine.docstore engine5 = Engine.docstore engine4) as E5 by (vm_compute; reflexivity). rewrite <- E5 in Hr.
  pose proof (conj Hh Hr) as H5.
  assert (history string_lower demo_cfg demo_engine held_docs /\ room (Engine.docstore demo_engine) 0) as H6 by (demo_step H5).
  apply H6.
Qed.

Lemma engine_query_correct_witness :
  Engine.execute_query string_lower demo_engine
    (MkBitdexQuery [Eq "tag" (Integer 20)] (Some (MkSortClause "score" Desc)) 10 None None false)
  = Ok (MkQueryResult [1; 3] (Some (MkCursorPosition 7 3)) 2)
  /\ exists matched, StronglySorted N.lt matched /\ 2 = N.of_nat (length matched)
     /\ [1; 3] = doc_page demo_cfg held_docs (Some (MkSortClause "score" Desc)) matched 10 None.
Proof.
  set (q := MkBitdexQuery (B := Bitset) [Eq "tag" (Integer 20)] (Some (MkSortClause "score" Desc)) 10 None None false).
  assert (Engine.execute_query string_lower demo_engine q = Ok (MkQueryResult [1; 3] (Some (MkCursorPosition 7 3)) 2)) as Hq
    by (vm_compute; reflexivity).
  split; [exact Hq|].
  destruct (engine_query_correct string_lower demo_cfg demo_engine held_docs q demo_cfg_ok engine_history)
    as (r & matched & Hr & Hs & _ & Ht & Hi); [vm_compute; reflexivity|reflexivity|reflexivity|vm_compute; discriminate|].
  rewrite Hq in Hr. injection Hr as <-. exists matched. split; [exact Hs|]. split; [exact Ht|exact Hi].
Defined.

Lemma engine_mutations_correct_witness :
  Engine.alive_count demo_engine = 3 /\ (Engine.delete demo_engine 9).1 = Err (SlotNotFound 9)
  /\ (Engine.delete_where string_lower demo_engine [Eq "tag" (Integer 20)]).1 = Ok 2
  /\ ds_get (Engine.docstore demo_engine) 1 = Ok (Some (MkStoredDoc (doc [20%Z] 8) (ds_version (Engine.docstore demo_engine))))
  /\ ds_version (Engine.docstore demo_engine) = 1.
Proof.
  destruct (engine_mutations_correct string_lower demo_cfg demo_engine held_docs demo_cfg_ok engine_history)
    as (_ & Hd & Hw & Hg & _ & Hc).
  split; [exact Hc|]. split; [by apply (Hd 9)|]. split; [apply (Hw [Eq "tag" (Integer 20)]); vm_compute; reflexivity|].
  split; [|vm_compute; reflexivity]. apply Hg. vm_compute. reflexivity.
Defined.

(** ** Limits of the engine *)

(** [patch] moves the bitmaps but not the stored document, so a later put diffs
    against the document before the patch and leaves the patched bit behind: the
    document with tag 30 still answers for tag 20. *)
Lemma patch_leaves_store_behind :
  let e := put_engine demo_engine 1 [10%Z] 5 in
  let e := (Engine.patch e 1 (MkPatchPayload [("tag"%string,
              MkPatchField (Multi [Integer 10]) (Multi [Integer 20]))])).2 in
  let e := put_engine e 1 [30%Z] 5 in
  qr_ids <$> (match Engine.query string_lower e [Eq "tag" (Integer 20); Eq "tag" (Integer 30)] None 10 with
              | Ok r => Some r | Err _ => None end) = Some [1].
Proof. vm_compute. reflexivity. Qed.

(** The page fetched for an offset query is clamped to the maximal page size, so an
    offset of at least that size returns nothing although more documents match. *)
Lemma offset_beyond_page_size :
  let cfg := basic_config (filter_fields demo_cfg) (sort_fields demo_cfg) 2 in
  let e := Engine.mk (Engine.index demo_engine) ∅ (Engine.docstore demo_engine) cfg in
  Engine.execute_query string_lower e (MkBitdexQuery [] None 1 None (Some 2) false) = Ok (MkQueryResult [] None 3).
Proof. vm_compute. reflexivity. Qed.

(** With a recorded default the store fills it into the document it returns, while the
    bitmaps hold only what was put.  A put that adds the default value explicitly is then
    diffed against the filled-in document, finds no change, and never sets the bit: the
    document holds the value and no query for the value finds it. *)
Lemma default_value_never_indexed :
  let cfg := basic_config [filter_config "nsfw" SingleValue] [] 100 in
  let e := Engine.new (B := Bitset) cfg demo_docs in
  let e := (Engine.put e 1 (MkDocument ∅)).2 in
  let e := (Engine.put e 1 (MkDocument {["nsfw"%string := Single (Integer 0)]})).2 in
  DocStoreV3.get (Engine.docstore e) 1 = IoOk (Some (MkStoredDoc {["nsfw"%string := Single (Integer 0)]} 1))
  /\ qr_ids <$> (match Engine.query string_lower e [Eq "nsfw" (Integer 0)] None 10 with Ok r => Some r | Err _ => None end) = Some [].
Proof. vm_compute. split; reflexivity. Qed.
