(* ===== verification/DocWriters.v ===== *)
(** * Document writers of the dump pipeline (src/shard_store_doc.rs)

    The bulk writer buffers documents in memory and merges them into the shards when it is
    flushed; the streaming writer appends operations to the shard files through buffered
    file writers and patches the operation counts when it is finalized.  Both hold one lock
    per shard around each step, so a concurrent run is a sequence of steps. *)

From S2P Require Import Prelude Roaring Bytes Encoding Config Float64 Query Coalescer Mutation Ops OpsWal ShardStore ShardBitmap DocShards.
Local Open Scope bitdex_scope.

(** ** Writing merge operations from borrowed data *)

Definition write_merge_header (slot num_fields : N) : list N := OP_TAG_MERGE :: to_le_bytes 4 slot ++ to_le_bytes 2 num_fields.
Definition write_field_int (field : N) (value : Z) : list N := to_le_bytes 2 field ++ PV_TAG_I :: i64_bytes value.
Definition write_field_bool (field : N) (value : bool) : list N := to_le_bytes 2 field ++ [PV_TAG_B; if value then 1 else 0].
Definition write_field_str (field : N) (value : string) : list N :=
  to_le_bytes 2 field ++ PV_TAG_S :: to_le_bytes 4 (wrap32 (byte_len (string_bytes value))) ++ string_bytes value.
Definition write_field_multi_int (field : N) (values : list Z) : list N :=
  to_le_bytes 2 field ++ PV_TAG_MI :: to_le_bytes 4 (wrap32 (N.of_nat (length values))) ++ mjoin (i64_bytes <$> values).

(** A field that is written: [map_or(true, |d| d != val)]. *)
Definition non_default (defaults : gmap N PackedValue) (p : pair_t) : bool :=
  match defaults !! p.1 with Some d => negb (packed_value_eq p.2 d) | None => true end.

(** ** The dictionary handed to a writer *)

Section dict.
Context `{MP : MsgPack}.

Definition prepare_names (d : DocStoreV3.t) (field_names : list string) : io_result DocStoreV3.t :=
  let old_len := length (DocStoreV3.idx_to_field d) in
  let! d := DocStoreV3.ensure_names d field_names in
  IoOk (if (old_len <? length (DocStoreV3.idx_to_field d))%nat then DocStoreV3.save_field_dict d else d).
End dict.

(** ** The bulk writer *)

Module ShardStoreBulkWriter.

Record t : Type := mk {
  field_to_idx : gmap string N;
  field_defaults : gmap N PackedValue;
  shard_buffers : gmap N (gmap N (list pair_t));
}.

Section ops.
Context `{CK : Checksum, MP : MsgPack}.
Implicit Types (w : t) (slot : N).

Definition prepare_bulk_load (d : DocStoreV3.t) (field_names : list string) : io_result (t * DocStoreV3.t) :=
  let! d := prepare_names d field_names in
  IoOk (mk (DocStoreV3.field_to_idx d) (DocStoreV3.field_defaults d) ∅, d).

Definition with_buffers w (b : gmap N (gmap N (list pair_t))) : t := mk (field_to_idx w) (field_defaults w) b.

(** Changing the fields buffered for a slot: both map entries are created when missing. *)
Definition on_slot w slot (g : list pair_t -> list pair_t) : t :=
  let key := slot_to_shard slot in
  let shard := default ∅ (shard_buffers w !! key) in
  with_buffers w (<[key := <[slot := g (default [] (shard !! slot))]> shard]> (shard_buffers w)).

Definition append_tuple_raw w slot (field_idx : N) (value_bytes : list N) : t :=
  match rmp_packed_from_slice value_bytes with
  | Some pv => if non_default (field_defaults w) (field_idx, pv) then on_slot w slot (fun fields => fields ++ [(field_idx, pv)]) else w
  | None => w
  end.

(** The decoded tuples that are not defaults. *)
Definition decoded_fields (defaults : gmap N PackedValue) (tuples : list (N * list N)) : list pair_t :=
  omap (fun '(field_idx, value_bytes) =>
      match rmp_packed_from_slice value_bytes with
      | Some pv => if non_default defaults (field_idx, pv) then Some (field_idx, pv) else None
      | None => None
      end) tuples.

Definition append_tuples_raw w slot (tuples : list (N * list N)) : t :=
  match tuples with
  | [] => w
  | _ => on_slot w slot (fun fields => fields ++ decoded_fields (field_defaults w) tuples)
  end.

(** Buffered fields replace stored fields with the same index, in order. *)
Definition overlay_field (doc : list pair_t) (p : pair_t) : list pair_t :=
  match find_field doc p.1 with
  | Some _ => update_field doc p.1 (fun _ => p.2)
  | None => doc ++ [p]
  end.

Definition overlay_docs (m : gmap N (list pair_t)) (shard_data : list (N * list pair_t)) : gmap N (list pair_t) :=
  foldl (fun m '(slot, fields) => <[slot := foldl overlay_field (default [] (m !! slot)) fields]> m) m shard_data.

(** An unreadable shard is replaced by what is buffered.  File errors are not modelled, so
    the path that puts the buffer back is not either. *)
Definition flush_shard (ws : t * ShardStore.t) (shard_key : N) : io_result (t * ShardStore.t) :=
  let '(w, s) := ws in
  match shard_buffers w !! shard_key with
  | Some shard_data =>
      if bool_decide (shard_data = ∅) then IoOk ws
      else
        let! snapshot := match ShardStore.read (S := DocSnapshot) (O := DocOp) s (MkDocKey shard_key) with
                         | IoOk (Some snap) => IoOk (docs snap)
                         | IoOk None | IoErr _ => IoOk ∅
                         | IoPanic => IoPanic
                         end in
        IoOk (with_buffers w (<[shard_key := ∅]> (shard_buffers w)),
              ShardStore.write_snapshot s (MkDocKey shard_key) (MkDocSnapshot (overlay_docs snapshot (map_to_list shard_data))))
  | None => IoOk ws
  end.

Fixpoint flush_shards (ws : t * ShardStore.t) (keys : list N) : io_result (t * ShardStore.t) :=
  match keys with
  | [] => IoOk ws
  | shard_key :: keys => let! ws := flush_shard ws shard_key in flush_shards ws keys
  end.

Definition flush_to_shardstore w (fs : files) : io_result (t * ShardStore.t) :=
  flush_shards (w, ShardStore.new fs) (map_to_list (shard_buffers w)).*1.

Definition write_batch_encoded w (encoded : list (N * list N)) : t :=
  foldl (fun w '(slot, bytes) => match rmp_pairs_from_slice bytes with Some pairs => on_slot w slot (fun _ => pairs) | None => w end) w encoded.

Definition encode_doc w (doc : StoredDoc) : list N :=
  rmp_pairs_to_vec (omap (fun '(name, fv) =>
      match field_to_idx w !! name with
      | Some idx => if non_default (field_defaults w) (idx, field_value_to_packed fv) then Some (idx, field_value_to_packed fv) else None
      | None => None
      end) (map_to_list (sd_fields doc))).

End ops.
End ShardStoreBulkWriter.

(** ** The streaming writer *)

(** [BufWriter::write_all]: the bytes on disk and the bytes in the buffer. *)
Definition BUF_CAPACITY : N := 8192.

Definition buf_write (disk buf bytes : list N) : list N * list N :=
  let spare := BUF_CAPACITY - byte_len buf in
  if byte_len bytes <? spare then (disk, buf ++ bytes)
  else
    let '(disk, buf) := if spare <? byte_len bytes then (disk ++ buf, []) else (disk, buf) in
    if BUF_CAPACITY <=? byte_len bytes then (disk ++ bytes, buf) else (disk, buf ++ bytes).

Module StreamingDocWriter.

Record ShardFileWriter : Type := MkShardFileWriter { sw_buf : list N; sw_ops_count : N }.

(** The files are those of the store's directory. *)
Record t : Type := mk {
  field_to_idx : gmap string N;
  field_defaults : gmap N PackedValue;
  root : files;
  shards : gmap N ShardFileWriter;
}.

Section ops.
Context `{CK : Checksum, MP : MsgPack}.
Implicit Types (w : t) (slot shard_key : N).

Definition new (fs : files) (f2i : gmap string N) (defaults : gmap N PackedValue) : t := mk f2i defaults fs ∅.

Definition prepare_streaming_writer (d : DocStoreV3.t) (field_names : list string) : io_result (t * DocStoreV3.t) :=
  let! d := prepare_names d field_names in
  IoOk (new (ShardStore.tree (DocStoreV3.store d)) (DocStoreV3.field_to_idx d) (DocStoreV3.field_defaults d), d).

Definition doc_path shard_key : path := shard_path (MkDocKey shard_key).

(** The header of a shard created by the writer. *)
Definition stream_header : ShardHeader.t := ShardHeader.mk SHARD_VERSION SHARD_HEADER_SIZE 0 0 0.

(** A file with a readable header is appended to; any other file is replaced. *)
Definition open_shard w shard_key : ShardFileWriter * files :=
  let fresh := let '(disk, buf) := buf_write [] [] (ShardHeader.encode stream_header) in (MkShardFileWriter buf 0, <[doc_path shard_key := disk]> (root w)) in
  match root w !! doc_path shard_key with
  | Some data =>
      if SHARD_HEADER_SIZE <=? byte_len data then
        match ShardHeader.decode (slice data 0 SHARD_HEADER_SIZE) with
        | IoOk header => (MkShardFileWriter [] (ShardHeader.ops_count header), root w)
        | _ => fresh
        end
      else fresh
  | None => fresh
  end.

Definition shard_writer w shard_key : ShardFileWriter * files :=
  match shards w !! shard_key with Some sw => (sw, root w) | None => open_shard w shard_key end.

(** The three writes of an operation entry. *)
Definition write_entry (disk buf payload : list N) : list N * list N :=
  let '(disk, buf) := buf_write disk buf (to_le_bytes 4 (wrap32 (byte_len payload))) in
  let '(disk, buf) := buf_write disk buf payload in
  buf_write disk buf (to_le_bytes 4 (crc32 payload)).

Definition write_payload w slot (payload : list N) : t :=
  let shard_key := slot_to_shard slot in
  let '(sw, fs) := shard_writer w shard_key in
  let '(disk, buf) := write_entry (default [] (fs !! doc_path shard_key)) (sw_buf sw) payload in
  mk (field_to_idx w) (field_defaults w) (<[doc_path shard_key := disk]> fs)
    (<[shard_key := MkShardFileWriter buf (wrap32 (sw_ops_count sw + 1))]> (shards w)).

Definition write_doc w slot (fields : list pair_t) : t :=
  match List.filter (non_default (field_defaults w)) fields with
  | [] => w
  | fields => write_payload w slot (encode_doc_op (DCreate slot fields))
  end.

Definition write_merge_doc w slot (fields : list pair_t) : t :=
  match List.filter (non_default (field_defaults w)) fields with
  | [] => w
  | fields => write_payload w slot (encode_doc_op (DMerge slot fields))
  end.

Definition write_field w slot (field_idx : N) (value : PackedValue) : t :=
  if non_default (field_defaults w) (field_idx, value) then write_payload w slot (encode_doc_op (DSet slot field_idx value)) else w.

Definition append_tuples_raw w slot (tuples : list (N * list N)) : t :=
  match ShardStoreBulkWriter.decoded_fields (field_defaults w) tuples with
  | [] => w
  | fields => write_payload w slot (encode_doc_op (DCreate slot fields))
  end.

Definition append_tuples_merge w slot (tuples : list (N * list N)) : t :=
  match ShardStoreBulkWriter.decoded_fields (field_defaults w) tuples with
  | [] => w
  | fields => write_payload w slot (encode_doc_op (DMerge slot fields))
  end.

Definition append_merge_payload w slot (payload : list N) : t :=
  match payload with [] => w | _ => write_payload w slot payload end.

Definition append_tuple_raw w slot (field_idx : N) (value_bytes : list N) : t :=
  match rmp_packed_from_slice value_bytes with
  | Some pv => if non_default (field_defaults w) (field_idx, pv) then write_field w slot field_idx pv else w
  | None => w
  end.

(** Flush, patch the count, and seek to the end again. *)
Definition finalize_shard w shard_key : t :=
  match shards w !! shard_key with
  | Some sw =>
      let disk := default [] (root w !! doc_path shard_key) ++ sw_buf sw in
      mk (field_to_idx w) (field_defaults w)
        (<[doc_path shard_key := write_at disk HEADER_OPS_COUNT_OFFSET (to_le_bytes 4 (sw_ops_count sw))]> (root w))
        (<[shard_key := MkShardFileWriter [] (sw_ops_count sw)]> (shards w))
  | None => w
  end.

Definition finalize w : t := foldl finalize_shard w (map_to_list (shards w)).*1.

End ops.
End StreamingDocWriter.
