(* ===== verification/DocWritersTheorems.v ===== *)
(** * Document writers: properties

    The streaming writer refines the shard store: whatever its buffering, after
    finalization the store reads the documents with every written operation applied.
    Leaving out values equal to their default loses updates over documents that exist. *)

From S2P Require Import Prelude Roaring Bytes Encoding Config Float64 Query Coalescer Mutation Ops OpsWal OpsWalFacts ShardStore ShardStoreTheorems ShardBitmap ShardBitmapTheorems DocShards DocShardsTheorems DocWriters.
Local Open Scope bitdex_scope.

Import StreamingDocWriter.

(** ** Merge operations from borrowed data *)

Inductive borrowed : Type := BInt (v : Z) | BBool (v : bool) | BStr (v : string) | BMulti (v : list Z).

Definition write_borrowed (p : N * borrowed) : list N :=
  match p.2 with
  | BInt v => write_field_int p.1 v
  | BBool v => write_field_bool p.1 v
  | BStr v => write_field_str p.1 v
  | BMulti v => write_field_multi_int p.1 v
  end.

Definition borrowed_pair (p : N * borrowed) : pair_t :=
  (p.1, match p.2 with BInt v => PI v | BBool v => PB v | BStr v => PS v | BMulti v => PMi v end).

(** The zero-copy helpers write the bytes of the owned encoder. *)
Lemma borrowed_merge slot (fields : list (N * borrowed)) : N.of_nat (length fields) < 65536 ->
  write_merge_header slot (N.of_nat (length fields)) ++ mjoin (write_borrowed <$> fields) = encode_doc_op (DMerge slot (borrowed_pair <$> fields)).
Proof.
  intros H. unfold write_merge_header. cbn [encode_doc_op app]. unfold encode_fields. rewrite length_fmap, N.mod_small by done. rewrite <- app_assoc. do 3 f_equal.
  rewrite <- list_fmap_compose. f_equal. apply list_fmap_ext. intros i [f v] _. by destruct v.
Qed.

(** ** Buffered writes *)

Lemma buf_write_concat disk buf bytes : let '(d, b) := buf_write disk buf bytes in d ++ b = disk ++ buf ++ bytes.
Proof.
  unfold buf_write. destruct (N.ltb_spec (byte_len bytes) (BUF_CAPACITY - byte_len buf)); [done|].
  destruct (N.ltb_spec (BUF_CAPACITY - byte_len buf) (byte_len bytes)); destruct (N.leb_spec BUF_CAPACITY (byte_len bytes)).
  - by rewrite app_nil_r, <- app_assoc.
  - cbn [app]. by rewrite <- app_assoc.
  - assert (buf = []) as -> by (destruct buf; [done|]; rewrite byte_len_cons in *; unfold BUF_CAPACITY in *; lia). by rewrite !app_nil_r.
  - done.
Qed.

Section stream.
Context `{CK : Checksum, MP : MsgPack}.
Implicit Types (w : StreamingDocWriter.t) (k : N) (op : DocOp) (ops : list DocOp).

Notation spec := (DocShardKey -> option (DocSnapshot * N)).
Notation entries := (write_op_entries (O := DocOp) (S := DocSnapshot)).
Notation header := (shard_header (O := DocOp)).
Notation holds snapb ops := (shard_holds (S := DocSnapshot) (shard_file (S := DocSnapshot) snapb ops) snapb ops).

Lemma write_entry_concat disk buf op : byte_len (encode_doc_op op) < 4294967296 ->
  let '(d, b) := write_entry disk buf (encode_doc_op op) in d ++ b = disk ++ buf ++ entries [op].
Proof.
  intros Hl. unfold write_entry. pose proof (buf_write_concat disk buf (to_le_bytes 4 (wrap32 (byte_len (encode_doc_op op))))) as H1.
  destruct (buf_write disk buf _) as [d1 b1]. pose proof (buf_write_concat d1 b1 (encode_doc_op op)) as H2.
  destruct (buf_write d1 b1 _) as [d2 b2]. pose proof (buf_write_concat d2 b2 (to_le_bytes 4 (crc32 (encode_doc_op op)))) as H3.
  destruct (buf_write d2 b2 _) as [d3 b3]. rewrite H3, app_assoc, H2, app_assoc, app_assoc, H1.
  unfold write_op_entries, write_op_entry. cbn [fmap list_fmap mjoin list_join encode_op DocOpCodec]. rewrite app_nil_r, <- !app_assoc.
  unfold wrap32. by rewrite N.mod_small.
Qed.

(** The bytes of an open shard: everything but the count in its header. *)
Record open_holds (data : list N) (v : option (DocSnapshot * N)) (count : N) (snapb : list N) ops (s0 s : DocSnapshot) : Prop := {
  oh_value : v = Some (s, N.of_nat (length ops));
  oh_count : count = N.of_nat (length ops);
  oh_bytes : exists stale, data = shard_bytes (header snapb stale) snapb (entries ops);
  oh_holds : holds snapb ops s0 s;
}.

Definition stream_key w k (v : option (DocSnapshot * N)) : Prop :=
  match shards w !! k with
  | None => key_rep (O := DocOp) (root w) (MkDocKey k) v
  | Some sw => exists snapb ops s0 s, is_Some (root w !! doc_path k) /\ open_holds (default [] (root w !! doc_path k) ++ sw_buf sw) v (sw_ops_count sw) snapb ops s0 s
  end.

Record stream_rep w (sp : spec) : Prop := {
  st_keys : forall k, k <= u32_max -> stream_key w k (sp (MkDocKey k));
  st_open : forall k, is_Some (shards w !! k) -> k <= u32_max;
  st_clean : forall p, extension p = Some "new"%string -> root w !! p = None;
}.

Notation value_of := (value_of (K := DocShardKey)).
Notation pending := (pending (K := DocShardKey)).

(** Opening a shard: what it holds, and which files changed. *)
Lemma writer_open w sp k : stream_rep w sp -> k <= u32_max ->
  exists snapb ops s0 s,
    open_holds (default [] ((shard_writer w k).2 !! doc_path k) ++ sw_buf (shard_writer w k).1)
      (Some (value_of sp (MkDocKey k), pending sp (MkDocKey k))) (sw_ops_count (shard_writer w k).1) snapb ops s0 s
    /\ ((shard_writer w k).2 = root w \/ (shard_writer w k).2 = <[doc_path k := []]> (root w)).
Proof.
  intros Hr Hk. pose proof (st_keys _ _ Hr k Hk) as H. unfold stream_key in H. unfold shard_writer, ShardStoreTheorems.value_of, ShardStoreTheorems.pending.
  destruct (shards w !! k) as [sw|].
  { destruct H as (snapb & ops & s0 & s & _ & Ho). exists snapb, ops, s0, s. rewrite (oh_value _ _ _ _ _ _ _ Ho). cbn [fst snd]. split; [|by left].
    destruct Ho. by split. }
  unfold open_shard. change (buf_write [] [] (ShardHeader.encode stream_header)) with (@nil N, ShardHeader.encode stream_header).
  assert (exists snapb ops s0 s, open_holds ([] ++ ShardHeader.encode stream_header) (Some (sc_empty : DocSnapshot, 0)) 0 snapb ops s0 s) as Hfresh.
  { exists [], [], sc_empty, sc_empty. split; [done|done| |by split]. exists []. done. }
  destruct (sp (MkDocKey k)) as [[s n]|]; cbn [key_rep] in H.
  - destruct H as (data & snapb & ops & s0 & Hd & -> & Hh). pose proof (sh_data _ _ _ _ _ Hh) as ->. fold (doc_path k) in Hd. rewrite Hd.
    pose proof (read_header_shard (S := DocSnapshot) snapb ops [] (sh_len _ _ _ _ _ Hh) (sh_count _ _ _ _ _ Hh)) as Hhd. rewrite app_nil_r in Hhd. unfold read_header_of in Hhd.
    rewrite N.leb_antisym. destruct (byte_len _ <? SHARD_HEADER_SIZE); [done|]. cbn [negb]. rewrite Hhd. cbn [fst snd sw_buf sw_ops_count].
    exists snapb, ops, s0, s. split; [|by left]. rewrite Hd, app_nil_r. split; [done|done|by exists ops|done].
  - destruct Hfresh as (snapb & ops & s0 & s & Ho). exists snapb, ops, s0, s. fold (doc_path k) in H. destruct (root w !! doc_path k) as [data|] eqn:Ed.
    + unfold SHARD_HEADER_SIZE. destruct (N.leb_spec 28 (byte_len data)); [lia|]. cbn [fst snd sw_buf sw_ops_count]. rewrite lookup_insert_eq. split; [done|by right].
    + cbn [fst snd sw_buf sw_ops_count]. rewrite lookup_insert_eq. split; [done|by right].
Qed.

Lemma doc_path_inj k1 k2 : k1 <= u32_max -> k2 <= u32_max -> doc_path k1 = doc_path k2 -> k1 = k2.
Proof. intros H1 H2 E. apply (shard_path_inj (MkDocKey k1) (MkDocKey k2)) in E; [by injection E|exact H1|exact H2]. Qed.

(** Replacing the file of an open shard. *)
Lemma stream_update w sp k data sw v fs snapb ops s0 s : stream_rep w sp -> k <= u32_max ->
  (fs = root w \/ exists d, fs = <[doc_path k := d]> (root w)) ->
  open_holds (data ++ sw_buf sw) (Some v) (sw_ops_count sw) snapb ops s0 s ->
  stream_rep (mk (field_to_idx w) (field_defaults w) (<[doc_path k := data]> fs) (<[k := sw]> (shards w))) (supdate sp (MkDocKey k) v).
Proof.
  intros Hr Hk Hfs Ho. assert (forall p, p <> doc_path k -> fs !! p = root w !! p) as He by (intros p Hp; destruct Hfs as [->|[d ->]]; [done|by rewrite lookup_insert_ne]).
  split; cbn [root shards].
  - intros k' Hk'. unfold stream_key, supdate. cbn [root shards]. destruct (decide (k' = k)) as [->|Hne].
    + rewrite !lookup_insert_eq, decide_True by done. cbn [default from_option id]. exists snapb, ops, s0, s. split; [by eexists|done].
    + rewrite lookup_insert_ne, decide_False by (done || by intros [= ->]). pose proof (st_keys _ _ Hr k' Hk') as H. unfold stream_key, key_rep in *. change (shard_path (MkDocKey k')) with (doc_path k') in *.
      assert (doc_path k' <> doc_path k) as Hp by (intros E; by apply doc_path_inj in E). rewrite !lookup_insert_ne, He by done. exact H.
  - intros k' Hk'. destruct (decide (k' = k)) as [->|Hne]; [done|]. rewrite lookup_insert_ne in Hk' by done. by apply (st_open _ _ Hr).
  - intros p Hp. assert (p <> doc_path k) as Hne. { intros ->. pose proof (shard_path_ext (MkDocKey k) Hk) as E. fold (doc_path k) in E. congruence. }
    rewrite lookup_insert_ne, He by done. by apply (st_clean _ _ Hr).
Qed.

(** One written operation is one appended operation. *)
Lemma write_payload_rep w sp op : stream_rep w sp -> op_fits (S := DocSnapshot) op ->
  pending sp (MkDocKey (slot_to_shard (DocStoreV3.op_slot op))) + 1 < 4294967296 ->
  stream_rep (write_payload w (DocStoreV3.op_slot op) (encode_doc_op op)) (spec_step sp (SAppend (MkDocKey (slot_to_shard (DocStoreV3.op_slot op))) [op])).
Proof.
  intros Hr Hop Hc. set (k := slot_to_shard (DocStoreV3.op_slot op)) in *.
  assert (k <= u32_max) as Hk by (apply slot_shard_ok, doc_op_slot_ok, Hop). destruct (writer_open w sp k Hr Hk) as (snapb & ops & s0 & s & Ho & Hfs).
  unfold write_payload. fold k. destruct (shard_writer w k) as [sw fs]. cbn [fst snd] in *.
  pose proof (write_entry_concat (default [] (fs !! doc_path k)) (sw_buf sw) op (proj2 Hop)) as Hw.
  destruct (write_entry _ _ _) as [disk buf]. cbn [spec_step length foldl]. destruct Ho as [Hv Hcnt [stale Hb] Hh]. injection Hv as Hval Hpend.
  eapply (stream_update w sp k disk _ _ fs snapb (ops ++ [op]) s0); [done|done| |].
  { destruct Hfs as [->| ->]; [by left|right; by eexists]. }
  cbn [sw_buf sw_ops_count]. rewrite Hpend in *. split.
  - by rewrite length_app, Nat2N.inj_add.
  - rewrite Hcnt, length_app. unfold wrap32. rewrite N.mod_small; cbn [length]; lia.
  - exists stale. rewrite Hw, app_assoc, Hb. unfold shard_bytes. by rewrite write_op_entries_app, <- !app_assoc.
  - rewrite Hval. split; [done|apply Hh|rewrite length_app; cbn [length]; lia|apply Forall_app; split; [apply Hh|by apply Forall_singleton]|apply Hh|].
    rewrite foldl_app. cbn [foldl]. pose proof (sh_value _ _ _ _ _ Hh) as E. by rewrite <- E.
Qed.

Lemma supdate_id (sp : spec) key v : sp key = Some v -> forall key', supdate sp key v key' = sp key'.
Proof. intros H key'. unfold supdate. by case_decide; subst. Qed.

Lemma stream_rep_ext w sp sp' : stream_rep w sp -> (forall key, sp key = sp' key) -> stream_rep w sp'.
Proof. intros [H1 H2 H3] E. split; [|done..]. intros k Hk. rewrite <- E. by apply H1. Qed.

(** Finalizing a shard writes the file the store expects. *)
Lemma finalize_key w sp k : stream_rep w sp -> is_Some (shards w !! k) ->
  stream_rep (finalize_shard w k) sp /\ key_rep (O := DocOp) (root (finalize_shard w k)) (MkDocKey k) (sp (MkDocKey k))
  /\ (forall p, p <> doc_path k -> root (finalize_shard w k) !! p = root w !! p).
Proof.
  intros Hr Hopen. pose proof (st_open _ _ Hr k Hopen) as Hk. destruct Hopen as [sw Hsw]. pose proof (st_keys _ _ Hr k Hk) as H. unfold stream_key in H. rewrite Hsw in H.
  destruct H as (snapb & ops & s0 & s & _ & [Hv Hc [stale Hb] Hh]). unfold finalize_shard. rewrite Hsw, Hb, Hc.
  assert (write_at (shard_bytes (header snapb stale) snapb (entries ops)) HEADER_OPS_COUNT_OFFSET (to_le_bytes 4 (N.of_nat (length ops)))
    = shard_file (S := DocSnapshot) snapb ops) as -> by apply patch_count.
  split_and!; cbn [root].
  - eapply stream_rep_ext; [|by apply (supdate_id sp (MkDocKey k))].
    eapply (stream_update w sp k _ _ _ (root w) snapb ops s0); [done|done|by left|]. cbn [sw_buf sw_ops_count]. rewrite app_nil_r. split; [done|done|by exists ops|done].
  - rewrite Hv. cbn [key_rep]. exists (shard_file (S := DocSnapshot) snapb ops), snapb, ops, s0. split; [apply lookup_insert_eq|done].
  - intros p Hp. by apply lookup_insert_ne.
Qed.

Lemma finalize_opens w k k' : is_Some (shards w !! k') -> is_Some (shards (finalize_shard w k) !! k').
Proof.
  intros H. unfold finalize_shard. destruct (shards w !! k) eqn:E; [|done]. cbn [shards]. destruct (decide (k = k')) as [->|Hne]; [rewrite lookup_insert_eq|rewrite lookup_insert_ne by done]; done.
Qed.

Lemma finalize_all l : forall w sp, stream_rep w sp -> (forall k, k ∈ l -> is_Some (shards w !! k)) ->
  (forall k, k <= u32_max -> k ∉ l -> key_rep (O := DocOp) (root w) (MkDocKey k) (sp (MkDocKey k))) ->
  stream_rep (foldl finalize_shard w l) sp /\ forall k, k <= u32_max -> key_rep (O := DocOp) (root (foldl finalize_shard w l)) (MkDocKey k) (sp (MkDocKey k)).
Proof.
  induction l as [|k l IH]; intros w sp Hr Hl Hrest; [split; [done|]; intros k Hk; apply Hrest; [done|apply not_elem_of_nil]|].
  assert (is_Some (shards w !! k)) as Hopen by (apply Hl; by left). destruct (finalize_key w sp k Hr Hopen) as (H1 & H2 & H3). cbn [foldl]. apply IH; [done| |].
  - intros k' Hk'. apply finalize_opens, Hl. by right.
  - intros k' Hk' Hn. destruct (decide (k' = k)) as [->|Hne]; [done|]. assert (key_rep (O := DocOp) (root w) (MkDocKey k') (sp (MkDocKey k'))) as Hkr by (apply Hrest; set_solver).
    unfold key_rep in *. change (shard_path (MkDocKey k')) with (doc_path k') in *. rewrite H3; [done|]. intros E. pose proof (st_open _ _ Hr k Hopen). by apply doc_path_inj in E.
Qed.

Lemma finalize_rep w sp t : stream_rep w sp -> stream_rep (finalize w) sp /\ store_rep (O := DocOp) (ShardStore.mk (root (finalize w)) t) sp.
Proof.
  intros Hr. destruct (finalize_all (map_to_list (shards w)).*1 w sp Hr) as [H1 H2].
  - intros k ([k' sw] & -> & Hin)%list_elem_of_fmap. apply elem_of_map_to_list in Hin. by eexists.
  - intros k Hk Hn. pose proof (st_keys _ _ Hr k Hk) as H. unfold stream_key in H. destruct (shards w !! k) as [sw|] eqn:E; [|done].
    exfalso. apply Hn, list_elem_of_fmap. exists (k, sw). split; [done|]. by apply elem_of_map_to_list.
  - split; [exact H1|]. split; [|apply (st_clean _ _ H1)]. intros [k] Hk. apply H2, Hk.
Qed.

Lemma new_stream_rep st sp f2i defaults : store_rep (O := DocOp) st sp -> stream_rep (new (ShardStore.tree st) f2i defaults) sp.
Proof.
  intros [H1 H2]. split; cbn [new root shards]; [|intros k; rewrite lookup_empty; by intros []|done]. intros k Hk. unfold stream_key. cbn [new shards]. rewrite lookup_empty.
  by apply (H1 (MkDocKey k)).
Qed.

(** *** Calls *)

Inductive stream_call : Type :=
| CDoc (slot : N) (fields : list pair_t)
| CMerge (slot : N) (fields : list pair_t)
| CField (slot field_idx : N) (value : PackedValue)
| CTuple (slot field_idx : N) (value_bytes : list N)
| CTuples (slot : N) (tuples : list (N * list N))
| CTuplesMerge (slot : N) (tuples : list (N * list N))
| CFinalize.

Definition exec_call w (c : stream_call) : StreamingDocWriter.t :=
  match c with
  | CDoc slot fields => write_doc w slot fields
  | CMerge slot fields => write_merge_doc w slot fields
  | CField slot field_idx value => write_field w slot field_idx value
  | CTuple slot field_idx value_bytes => append_tuple_raw w slot field_idx value_bytes
  | CTuples slot tuples => append_tuples_raw w slot tuples
  | CTuplesMerge slot tuples => append_tuples_merge w slot tuples
  | CFinalize => finalize w
  end.

(** The operation a call writes, if any. *)
Definition nonempty (g : list pair_t -> DocOp) (fields : list pair_t) : list DocOp := match fields with [] => [] | _ => [g fields] end.

Definition call_ops (defaults : gmap N PackedValue) (c : stream_call) : list DocOp :=
  match c with
  | CDoc slot fields => nonempty (DCreate slot) (List.filter (non_default defaults) fields)
  | CMerge slot fields => nonempty (DMerge slot) (List.filter (non_default defaults) fields)
  | CField slot field_idx value => if non_default defaults (field_idx, value) then [DSet slot field_idx value] else []
  | CTuple slot field_idx value_bytes =>
      match rmp_packed_from_slice value_bytes with
      | Some pv => if non_default defaults (field_idx, pv) then [DSet slot field_idx pv] else []
      | None => []
      end
  | CTuples slot tuples => nonempty (DCreate slot) (ShardStoreBulkWriter.decoded_fields defaults tuples)
  | CTuplesMerge slot tuples => nonempty (DMerge slot) (ShardStoreBulkWriter.decoded_fields defaults tuples)
  | CFinalize => []
  end.

Lemma exec_call_ops w c : c <> CFinalize ->
  exec_call w c = foldl (fun w op => write_payload w (DocStoreV3.op_slot op) (encode_doc_op op)) w (call_ops (field_defaults w) c).
Proof.
  intros Hc. destruct c; cbn [exec_call call_ops]; unfold append_tuple_raw, write_doc, write_merge_doc, write_field, append_tuples_raw, append_tuples_merge, nonempty; try done.
  all: repeat case_match; congruence || done.
Qed.

(** *** What the calls ask for

    Stated on the requested fields alone: a call asks for its values in their order, less
    the ones equal to the default of their field; undecodable tuples ask for nothing, and
    a call none of whose values is left asks for nothing. *)

(** Equality of stored values; floats as IEEE numbers. *)
Inductive same_value : PackedValue -> PackedValue -> Prop :=
  | SameInt i : same_value (PI i) (PI i)
  | SameFloat f g : SFeqb f g = true -> same_value (PF f) (PF g)
  | SameBool b : same_value (PB b) (PB b)
  | SameStr x : same_value (PS x) (PS x)
  | SameInts l : same_value (PMi l) (PMi l)
  | SameList l l' : Forall2 same_value l l' -> same_value (PMm l) (PMm l')
  | SameNull : same_value PNull PNull.

Definition is_default (defaults : gmap N PackedValue) (p : pair_t) : Prop := exists dv, defaults !! p.1 = Some dv /\ same_value p.2 dv.

Inductive less_defaults (defaults : gmap N PackedValue) : list pair_t -> list pair_t -> Prop :=
  | LessNil : less_defaults defaults [] []
  | LessDropped p fields kept : is_default defaults p -> less_defaults defaults fields kept -> less_defaults defaults (p :: fields) kept
  | LessKept p fields kept : ~ is_default defaults p -> less_defaults defaults fields kept -> less_defaults defaults (p :: fields) (p :: kept).

Inductive decodes : list (N * list N) -> list pair_t -> Prop :=
  | DecodesNil : decodes [] []
  | DecodesBad f bytes tuples fields : rmp_packed_from_slice bytes = None -> decodes tuples fields -> decodes ((f, bytes) :: tuples) fields
  | DecodesGood f bytes v tuples fields : rmp_packed_from_slice bytes = Some v -> decodes tuples fields -> decodes ((f, bytes) :: tuples) ((f, v) :: fields).

Inductive asks (defaults : gmap N PackedValue) : stream_call -> list DocOp -> Prop :=
  | AskDoc slot fields kept : less_defaults defaults fields kept -> asks defaults (CDoc slot fields) (if decide (kept = []) then [] else [DCreate slot kept])
  | AskMerge slot fields kept : less_defaults defaults fields kept -> asks defaults (CMerge slot fields) (if decide (kept = []) then [] else [DMerge slot kept])
  | AskField slot f v : ~ is_default defaults (f, v) -> asks defaults (CField slot f v) [DSet slot f v]
  | AskFieldNone slot f v : is_default defaults (f, v) -> asks defaults (CField slot f v) []
  | AskTuple slot f bytes v : rmp_packed_from_slice bytes = Some v -> ~ is_default defaults (f, v) -> asks defaults (CTuple slot f bytes) [DSet slot f v]
  | AskTupleNone slot f bytes : (forall v, rmp_packed_from_slice bytes = Some v -> is_default defaults (f, v)) -> asks defaults (CTuple slot f bytes) []
  | AskTuples slot tuples fields kept : decodes tuples fields -> less_defaults defaults fields kept ->
      asks defaults (CTuples slot tuples) (if decide (kept = []) then [] else [DCreate slot kept])
  | AskTuplesMerge slot tuples fields kept : decodes tuples fields -> less_defaults defaults fields kept ->
      asks defaults (CTuplesMerge slot tuples) (if decide (kept = []) then [] else [DMerge slot kept])
  | AskFinalize : asks defaults CFinalize [].

Lemma packed_value_eq_same a b : packed_value_eq a b = true <-> same_value a b.
Proof.
  revert b. induction a as [i|f|x|x|l|l IH|] using PackedValue_nested_ind; intros b.
  all: split; [destruct b; cbn [packed_value_eq]; try done|intros H; inversion H; subst; cbn [packed_value_eq]; try done].
  - intros ->%Z.eqb_eq. constructor.
  - by rewrite Z.eqb_refl.
  - by constructor.
  - intros ->%Bool.eqb_prop. constructor.
  - by rewrite Bool.eqb_reflx.
  - intros ->%bool_decide_eq_true. constructor.
  - by rewrite bool_decide_true.
  - intros ->%bool_decide_eq_true. constructor.
  - by rewrite bool_decide_true.
  - intros H. constructor. revert v H. induction IH as [|a l Ha _ IHl]; intros [|b v] H; try done.
    apply andb_true_iff in H as [H1 H2]. constructor; [by apply Ha|by apply IHl].
  - match goal with H : Forall2 _ _ ?v |- _ => clear - IH H; revert v H end.
    induction IH as [|a l Ha _ IHl]; intros v H; inversion H; subst; try done. apply andb_true_iff. split; [by apply Ha|by apply IHl].
  - constructor.
Qed.

Lemma non_default_spec defaults p : non_default defaults p = true <-> ~ is_default defaults p.
Proof.
  unfold non_default, is_default. destruct (defaults !! p.1) as [dv|]; [|naive_solver]. rewrite negb_true_iff, <- not_true_iff_false, packed_value_eq_same. naive_solver.
Qed.

Lemma less_defaults_filter defaults fields kept : less_defaults defaults fields kept <-> kept = List.filter (non_default defaults) fields.
Proof.
  split.
  - induction 1 as [|p fields kept Hp _ ->|p fields kept Hp _ ->]; [done|..]; cbn [List.filter]; destruct (non_default defaults p) eqn:En; try done.
    + by apply non_default_spec in En.
    + by apply non_default_spec in Hp; rewrite Hp in En.
  - intros ->. induction fields as [|p fields IH]; [constructor|]. cbn [List.filter]. destruct (non_default defaults p) eqn:En.
    + constructor; [by apply non_default_spec|done].
    + constructor; [|done]. unfold non_default in En. destruct (defaults !! p.1) as [dv|] eqn:Ed; [|done]. exists dv. split; [done|].
      apply packed_value_eq_same. by apply negb_false_iff.
Qed.

Lemma decodes_filter defaults tuples fields : decodes tuples fields ->
  ShardStoreBulkWriter.decoded_fields defaults tuples = List.filter (non_default defaults) fields.
Proof.
  unfold ShardStoreBulkWriter.decoded_fields. induction 1 as [|f bytes tuples fields Hb _ IH|f bytes v tuples fields Hb _ IH]; [done|..]; cbn [omap list_omap]; rewrite Hb, IH; [done|].
  cbn [List.filter]. by destruct (non_default defaults (f, v)).
Qed.

Lemma decodes_total tuples : exists fields, decodes tuples fields.
Proof.
  induction tuples as [|[f bytes] tuples [fields IH]]; [exists []; constructor|]. destruct (rmp_packed_from_slice bytes) as [v|] eqn:E.
  - exists ((f, v) :: fields). by constructor.
  - exists fields. by constructor.
Qed.

Lemma nonempty_decide g fields : nonempty g fields = if decide (fields = []) then [] else [g fields].
Proof. by destruct fields. Qed.

Lemma is_default_cases defaults p : is_default defaults p /\ non_default defaults p = false \/ ~ is_default defaults p /\ non_default defaults p = true.
Proof.
  destruct (non_default defaults p) eqn:E; [right|left]; split; try done; [by apply non_default_spec|].
  unfold non_default in E. destruct (defaults !! p.1) as [dv|] eqn:Ed; [|done]. exists dv. split; [done|]. by apply packed_value_eq_same, negb_false_iff.
Qed.

(** The calls ask for what the writer writes; in particular every call asks for
    something definite. *)
Lemma asks_exact defaults c ops : asks defaults c ops <-> ops = call_ops defaults c.
Proof.
  split.
  - destruct 1 as [slot fields kept ->%less_defaults_filter|slot fields kept ->%less_defaults_filter|slot f v Hv|slot f v Hv|slot f bytes v Hb Hv|slot f bytes Hb
      |slot tuples fields kept Ht ->%less_defaults_filter|slot tuples fields kept Ht ->%less_defaults_filter|]; cbn [call_ops]; rewrite ?nonempty_decide, ?(decodes_filter _ _ _ Ht); try done.
    + destruct (is_default_cases defaults (f, v)) as [[? ?]|[_ ->]]; done.
    + destruct (is_default_cases defaults (f, v)) as [[_ ->]|[? _]]; done.
    + rewrite Hb. destruct (is_default_cases defaults (f, v)) as [[? ?]|[_ ->]]; done.
    + destruct (rmp_packed_from_slice bytes) as [v|] eqn:Eb; [|done]. destruct (is_default_cases defaults (f, v)) as [[_ ->]|[Hn _]]; [done|]. by destruct Hn; apply Hb.
  - intros ->. destruct c as [slot fields|slot fields|slot f v|slot f bytes|slot tuples|slot tuples|]; cbn [call_ops]; rewrite ?nonempty_decide.
    + constructor. by apply less_defaults_filter.
    + constructor. by apply less_defaults_filter.
    + destruct (is_default_cases defaults (f, v)) as [[? ->]|[? ->]]; by constructor.
    + destruct (rmp_packed_from_slice bytes) as [v|] eqn:Eb; [|constructor; intros v Hv; by rewrite Eb in Hv].
      destruct (is_default_cases defaults (f, v)) as [[? ->]|[? ->]]; [|by eapply AskTuple]. apply AskTupleNone. intros v' Hv. by rewrite Eb in Hv; injection Hv as <-.
    + destruct (decodes_total tuples) as [fields Hf]. rewrite (decodes_filter defaults _ _ Hf). apply (AskTuples _ _ _ fields); [done|]. by apply less_defaults_filter.
    + destruct (decodes_total tuples) as [fields Hf]. rewrite (decodes_filter defaults _ _ Hf). apply (AskTuplesMerge _ _ _ fields); [done|]. by apply less_defaults_filter.
    + constructor.
Qed.

Lemma asks_all defaults calls opss : Forall2 (asks defaults) calls opss -> opss = call_ops defaults <$> calls.
Proof. induction 1 as [|c ops calls opss Ha _ IH]; [done|]. cbn. apply asks_exact in Ha as ->. by rewrite IH. Qed.

(** *** Documents *)

Record stream_docs w (m : gmap N (list pair_t)) (n : N -> option N) : Prop := {
  sd_rep : stream_rep w (shard_spec m n);
  sd_counted : forall k, n k = None -> shard_docs k m = ∅;
}.

Lemma shard_ops_cons k op ops : shard_ops k (op :: ops) = (if decide (slot_to_shard (DocStoreV3.op_slot op) = k) then [op] else []) ++ shard_ops k ops.
Proof. unfold shard_ops. rewrite filter_cons. by case_decide. Qed.

Lemma count_after_cons n op ops k : count_after n (op :: ops) k = count_after (count_after n [op]) ops k.
Proof.
  unfold count_after. rewrite !shard_ops_cons. change (shard_ops k []) with (@nil DocOp). rewrite app_nil_r. case_decide; cbn [app]; [|done].
  destruct (shard_ops k ops) as [|o l]; [done|]. cbn [default from_option id]. f_equal. cbn [length]. lia.
Qed.

Lemma spec_step_docs m n op key : (forall k, n k = None -> shard_docs k m = ∅) ->
  spec_step (shard_spec m n) (SAppend (MkDocKey (slot_to_shard (DocStoreV3.op_slot op))) [op]) key = shard_spec (apply_doc_op m op) (count_after n [op]) key.
Proof.
  intros Hc. cbn [spec_step length foldl]. unfold supdate, shard_spec, count_after. destruct key as [k]. cbn [dk_shard]. rewrite shard_ops_cons. change (shard_ops k []) with (@nil DocOp).
  destruct (decide (slot_to_shard (DocStoreV3.op_slot op) = k)) as [<-|Hne].
  - rewrite decide_True by done. cbn [app fmap option_fmap option_map length]. rewrite apply_same_shard by done. unfold ShardStoreTheorems.value_of, ShardStoreTheorems.pending, shard_spec. cbn [dk_shard].
    destruct (n _) as [c|] eqn:E; cbn [fmap option_fmap option_map default from_option id]; [done|]. by rewrite (Hc _ E).
  - rewrite decide_False by (intros [= ->]; done). cbn [app]. by rewrite apply_other_shard.
Qed.

Lemma writes_docs ops : forall w m n, stream_docs w m n -> ops_fit n ops ->
  stream_docs (foldl (fun w op => write_payload w (DocStoreV3.op_slot op) (encode_doc_op op)) w ops) (foldl apply_doc_op m ops) (count_after n ops).
Proof.
  induction ops as [|op ops IH]; intros w m n Hs Hfit; [done|]. destruct Hfit as [Hf Hn]. apply Forall_cons in Hf as [Hop Hf]. cbn [foldl].
  assert (stream_docs (write_payload w (DocStoreV3.op_slot op) (encode_doc_op op)) (apply_doc_op m op) (count_after n [op])) as H1.
  { split.
    - eapply stream_rep_ext; [apply write_payload_rep; [apply Hs|done|]|intros key; apply spec_step_docs, Hs].
      specialize (Hn (slot_to_shard (DocStoreV3.op_slot op))). rewrite shard_ops_cons, decide_True, length_app in Hn by done. cbn [length] in Hn.
      unfold ShardStoreTheorems.pending, shard_spec. cbn [dk_shard]. destruct (n _); cbn in *; lia.
    - intros k. unfold count_after. rewrite shard_ops_cons. change (shard_ops k []) with (@nil DocOp). case_decide as Hk; cbn [app]; [done|]. intros E. rewrite apply_other_shard by done. by apply (sd_counted _ _ _ Hs). }
  destruct (IH _ _ _ H1) as [H2 H3].
  { split; [done|]. intros k. specialize (Hn k). rewrite shard_ops_cons, length_app in Hn. unfold count_after. rewrite shard_ops_cons. change (shard_ops k []) with (@nil DocOp).
    case_decide; cbn [app length default from_option id] in *; lia. }
  split; [eapply stream_rep_ext; [exact H2|]; intros [k]; unfold shard_spec; cbn [dk_shard]; by rewrite <- count_after_cons|].
  intros k Hk. apply H3. by rewrite <- count_after_cons.
Qed.

Lemma ops_fit_app n ops1 ops2 : ops_fit n (ops1 ++ ops2) -> ops_fit n ops1 /\ ops_fit (count_after n ops1) ops2.
Proof.
  intros [Hf Hn]. apply Forall_app in Hf as [H1 H2]. split; (split; [done|]); intros k; specialize (Hn k); unfold shard_ops in *; rewrite filter_app, length_app in Hn; [lia|].
  unfold count_after, shard_ops. destruct (filter _ ops1); cbn [default from_option id length] in *; lia.
Qed.

Lemma count_after_app n ops1 ops2 k : count_after n (ops1 ++ ops2) k = count_after (count_after n ops1) ops2 k.
Proof.
  unfold count_after, shard_ops. rewrite filter_app. destruct (filter _ ops1) as [|o1 l1]; [done|]. cbn [app].
  destruct (filter _ ops2) as [|o2 l2]; [by rewrite app_nil_r|]. cbn [default from_option id]. f_equal. rewrite app_comm_cons, length_app. lia.
Qed.

Lemma write_payload_defaults w slot payload : field_defaults (write_payload w slot payload) = field_defaults w.
Proof. unfold write_payload. destruct (shard_writer _ _) as [sw fs]. by destruct (write_entry _ _ _). Qed.

Lemma writes_defaults ops : forall w, field_defaults (foldl (fun w op => write_payload w (DocStoreV3.op_slot op) (encode_doc_op op)) w ops) = field_defaults w.
Proof. induction ops as [|op ops IH]; intros w; [done|]. cbn [foldl]. by rewrite IH, write_payload_defaults. Qed.

Lemma finalize_defaults w : field_defaults (finalize w) = field_defaults w.
Proof.
  unfold finalize. generalize ((map_to_list (shards w)).*1). intros l. revert w. induction l as [|k l IH]; intros w; [done|]. cbn [foldl]. rewrite IH.
  unfold finalize_shard. by destruct (shards w !! k).
Qed.

Lemma calls_docs calls : forall w m n, stream_docs w m n -> ops_fit n (mjoin (call_ops (field_defaults w) <$> calls)) ->
  stream_docs (foldl exec_call w calls) (foldl apply_doc_op m (mjoin (call_ops (field_defaults w) <$> calls))) (count_after n (mjoin (call_ops (field_defaults w) <$> calls))).
Proof.
  induction calls as [|c calls IH]; intros w m n Hs Hfit; [done|]. cbn [fmap list_fmap mjoin list_join foldl] in *.
  assert (c = CFinalize \/ c <> CFinalize) as [->|Hc] by (destruct c; by (left + right)).
  - cbn [exec_call call_ops app] in *. rewrite <- (finalize_defaults w) in *. apply IH; [|done]. split; [|apply Hs]. apply (finalize_rep w _ 0), Hs.
  - rewrite foldl_app, (exec_call_ops w c Hc). apply ops_fit_app in Hfit as [H1 H2]. pose proof (writes_docs _ _ _ _ Hs H1) as Hw.
    rewrite <- (writes_defaults (call_ops (field_defaults w) c) w) in H2 at 2. destruct (IH _ _ _ Hw H2) as [H3 H4]. rewrite writes_defaults in H3, H4.
    split; [eapply stream_rep_ext; [exact H3|]; intros [k]; unfold shard_spec; cbn [dk_shard]; by rewrite count_after_app|].
    intros k Hk. apply H4. by rewrite <- count_after_app.
Qed.

(** C30: the streaming writer refines the store: however its writes are buffered and its
    phases finalized, after the last finalization every document reads as if the
    operations the calls ask for had been applied in order. A call that writes a document
    or a merge asks for the creation or merge of its pairs less those whose value equals
    the recorded default of their field (nothing when none is left), a field write for
    setting the field unless the value equals the default; tuples given as bytes are the
    pairs they decode to, undecodable ones being dropped. Equality is that of packed
    values (floats by their comparison, so a NaN never equals a default). (That a default
    is dropped also when the stored document holds another value is reported as a
    finding.) Operations and counts fit the format. *)
Theorem streaming_writer_refines d m n calls asked :
  doc_rep d m n -> Forall2 (asks (DocStoreV3.field_defaults d)) calls asked ->
  let ops := mjoin asked in
  ops_fit n ops ->
  let w := foldl exec_call (new (ShardStore.tree (DocStoreV3.store d)) (DocStoreV3.field_to_idx d) (DocStoreV3.field_defaults d)) (calls ++ [CFinalize]) in
  let d' := DocStoreV3.with_store d (ShardStore.new (root w)) in
  doc_rep d' (foldl apply_doc_op m ops) (count_after n ops)
  /\ forall id, id < 4294967296 -> DocStoreV3.get d' id = IoOk (DocStoreV3.fields_to_stored_doc d <$> foldl apply_doc_op m ops !! id).
Proof.
  intros [Hr Hc] Hasked ops Hfit w d'. apply asks_all in Hasked as ->.
  assert (stream_docs (new (ShardStore.tree (DocStoreV3.store d)) (DocStoreV3.field_to_idx d) (DocStoreV3.field_defaults d)) m n) as H0 by (split; [by apply new_stream_rep|done]).
  pose proof (calls_docs calls _ _ _ H0 Hfit) as [H1 H2]. cbn [new field_defaults] in H1, H2.
  assert (doc_rep d' (foldl apply_doc_op m ops) (count_after n ops)) as Hd.
  { split; [|exact H2]. unfold d', w. rewrite foldl_app. cbn [foldl exec_call DocStoreV3.with_store DocStoreV3.store].
    apply (reopen_rep (ShardStore.mk (root (finalize _)) 0)). apply finalize_rep. exact H1. }
  split; [done|]. intros id Hid. by rewrite (get_rep _ _ _ id Hd Hid).
Qed.

Lemma find_update fields field g old : find_field fields field = Some old -> find_field (update_field fields field g) field = Some (g old).
Proof.
  induction fields as [|[f v] fields IH]; [done|]. cbn [find_field update_field]. destruct (N.eqb_spec f field) as [->|Hne]; cbn [find_field].
  - intros [= ->]. by rewrite N.eqb_refl.
  - intros H. destruct (N.eqb_spec f field); [done|]. by apply IH.
Qed.

(** C40: a field set back to its default is lost: when a stored document holds another
    value in a field, writing the field's recorded default with [write_field], or merging
    it with [write_merge_doc] unless both values are integer lists (which a merge would
    unite), is not recorded, and the document still reads with the old value, although the
    operation, had it been recorded, would have given the field the default. The default
    is not null and equals itself (is not NaN). *)
Theorem default_write_lost d m n slot field v fields old c op :
  doc_rep d m n -> slot < 4294967296 -> m !! slot = Some fields -> find_field fields field = Some old -> old <> v ->
  DocStoreV3.field_defaults d !! field = Some v -> same_value v v -> v <> PNull ->
  (c = CField slot field v /\ op = DSet slot field v)
  \/ (c = CMerge slot [(field, v)] /\ op = DMerge slot [(field, v)] /\ ~ exists l l', old = PMi l /\ v = PMi l') ->
  let w := foldl exec_call (new (ShardStore.tree (DocStoreV3.store d)) (DocStoreV3.field_to_idx d) (DocStoreV3.field_defaults d)) [c; CFinalize] in
  DocStoreV3.get (DocStoreV3.with_store d (ShardStore.new (root w))) slot = IoOk (Some (DocStoreV3.fields_to_stored_doc d fields))
  /\ exists fields', apply_doc_op m op !! slot = Some fields' /\ find_field fields' field = Some v.
Proof.
  intros Hr Hs Hm Hf Hne Hd Hv Hn Hc w. assert (is_default (DocStoreV3.field_defaults d) (field, v)) as Hdef by (by exists v).
  assert (c <> CFinalize /\ call_ops (DocStoreV3.field_defaults d) c = []) as [Hcf Hops].
  { destruct Hc as [[-> _]|[-> _]]; (split; [done|]); symmetry; apply asks_exact; [by constructor|]. apply (AskMerge _ slot [(field, v)] []). by repeat constructor. }
  split.
  - assert (stream_docs (new (ShardStore.tree (DocStoreV3.store d)) (DocStoreV3.field_to_idx d) (DocStoreV3.field_defaults d)) m n) as H0 by (split; [by apply new_stream_rep, Hr|apply Hr]).
    assert (stream_docs (foldl exec_call (new (ShardStore.tree (DocStoreV3.store d)) (DocStoreV3.field_to_idx d) (DocStoreV3.field_defaults d)) [c]) m n) as [H1 _].
    { cbn [foldl]. rewrite exec_call_ops by done. cbn [new field_defaults]. by rewrite Hops. }
    rewrite (get_rep _ m n slot); [by rewrite Hm| |done]. split; [|apply Hr]. apply (reopen_rep (ShardStore.mk (root w) 0)). apply finalize_rep. exact H1.
  - assert (forall g, g old v = v -> find_field (set_field g fields (field, v)) field = Some v) as Hset.
    { intros g Hg. unfold set_field. cbn [fst snd]. destruct (is_null_value v) eqn:En; [by destruct v|]. rewrite Hf.
      rewrite (find_update fields field (fun o => g o v) old Hf). by rewrite Hg. }
    destruct Hc as [[_ ->]|(_ & -> & Hm')]; cbn [apply_doc_op foldl]; rewrite lookup_insert_eq, Hm; eexists; (split; [done|]); apply Hset; [done|].
    unfold merge_value. destruct old, v; try done. by destruct Hm'; eauto.
Qed.

End stream.

(** ** Concrete runs *)

(** A phase of tags after a phase of documents: the shard is finalized in between. *)
Definition demo_calls : list stream_call :=
  [CDoc 700 [(0, PI 3); (1, PS "a"%string)]; CFinalize; CMerge 700 [(2, PMi [7; 9]%Z)]; CField 3 0 (PI 5)].

Lemma streaming_writer_refines_witness :
  let w := foldl exec_call (new (ShardStore.tree (DocStoreV3.store demo_docs)) (DocStoreV3.field_to_idx demo_docs) (DocStoreV3.field_defaults demo_docs)) (demo_calls ++ [CFinalize]) in
  DocStoreV3.get (DocStoreV3.with_store demo_docs (ShardStore.new (root w))) 3 = IoOk (Some (MkStoredDoc {["nsfw"%string := Single (Integer 5)]} 1)).
Proof.
  destruct (streaming_writer_refines demo_docs ∅ (fun _ => None) demo_calls (call_ops (DocStoreV3.field_defaults demo_docs) <$> demo_calls) demo_docs_rep) as [_ H].
  - apply Forall2_fmap_r, Forall_Forall2_diag, Forall_true. intros c. by apply asks_exact.
  - split; [|intros k; cbn [default from_option]; pose proof (length_filter (fun op => slot_to_shard (DocStoreV3.op_slot op) = k) (mjoin (call_ops (DocStoreV3.field_defaults demo_docs) <$> demo_calls))) as Hl].
    + repeat (apply Forall_cons; split; [split; [|by vm_compute]; repeat (split || constructor); try done|]); by apply Forall_nil.
    + unfold shard_ops. replace (length (mjoin (call_ops (DocStoreV3.field_defaults demo_docs) <$> demo_calls))) with 3%nat in Hl by (vm_compute; reflexivity). lia.
  - intros w. unfold w. rewrite H by done. vm_compute. reflexivity.
Defined.

Definition demo_stored : gmap N (list pair_t) := {[5 := [(0, PI 3)]]}.

Lemma demo_stored_rep : exists d n, doc_rep d demo_stored n /\ DocStoreV3.field_defaults d = DocStoreV3.field_defaults demo_docs.
Proof.
  destruct (append_all_rep demo_docs ∅ (fun _ => None) [DCreate 5 [(0, PI 3)]] demo_docs_rep) as (d & _ & Hr & _ & _ & Hf & _).
  - split; [apply Forall_singleton; split; [|by vm_compute]; repeat (split || constructor); done|]. intros k. cbn [default from_option].
    pose proof (length_filter (fun op => slot_to_shard (DocStoreV3.op_slot op) = k) [DCreate 5 [(0, PI 3)]]) as Hl. unfold shard_ops. cbn [length] in Hl. lia.
  - by eexists d, _.
Qed.

Lemma default_write_lost_witness : exists d,
  let w := foldl exec_call (new (ShardStore.tree (DocStoreV3.store d)) (DocStoreV3.field_to_idx d) (DocStoreV3.field_defaults d)) [CField 5 0 (PI 0); CFinalize] in
  DocStoreV3.get (DocStoreV3.with_store d (ShardStore.new (root w))) 5 = IoOk (Some (DocStoreV3.fields_to_stored_doc d [(0, PI 3)])).
Proof.
  destruct demo_stored_rep as (d & n & Hr & Hf). exists d.
  refine (proj1 (default_write_lost d demo_stored n 5 0 (PI 0) [(0, PI 3)] (PI 3) (CField 5 0 (PI 0)) (DSet 5 0 (PI 0)) Hr _ _ _ _ _ _ _ _)); try reflexivity.
  - discriminate.
  - rewrite Hf. reflexivity.
  - constructor.
  - discriminate.
  - left. split; reflexivity.
Defined.

