(* ===== verification/Text.v ===== *)
(** * Strings of the standard library

    The [str] methods and number parsers the source uses: splitting, trimming, and
    [str::parse] to [i64] and [f64].  Strings are UTF-8 byte strings; trimming removes the
    characters with the Unicode property White_Space; a decimal is rounded to the nearest
    double. *)

From S2P Require Import Prelude Encoding Float64.
From Stdlib Require Import Ascii.
Local Open Scope bitdex_scope.

(** ** Splitting *)

(** [split(sep)] for a separator that is not empty; [skip] bytes of a separator are left. *)
Fixpoint split_go (sep s cur : string) (skip : nat) : list string :=
  match s with
  | EmptyString => [cur]
  | String c rest =>
      match skip with
      | S skip => split_go sep rest cur skip
      | O => if String.prefix sep s then cur :: split_go sep rest "" (String.length sep - 1)
             else split_go sep rest (cur ++ String c "")%string 0
      end
  end.

Definition split_str (sep s : string) : list string := split_go sep s "" 0.

(** The first piece and the rest, at a character. *)
Fixpoint split_once (sep : ascii) (s cur : string) : option (string * string) :=
  match s with
  | EmptyString => None
  | String c rest => if Ascii.eqb c sep then Some (cur, rest) else split_once sep rest (cur ++ String c "")%string
  end.

(** [splitn(n, sep)] *)
Fixpoint splitn_char (n : nat) (sep : ascii) (s : string) : list string :=
  match n with
  | O => []
  | S O => [s]
  | S n => match split_once sep s "" with
           | Some (a, b) => a :: splitn_char n sep b
           | None => [s]
           end
  end.

(** ** Trimming *)

(** How many bytes of white space a string starts with: 0 for none. *)
Definition space_len (l : list N) : nat :=
  match l with
  | b :: rest =>
      if between 9 13 b || (b =? 32) then 1%nat
      else match b, rest with
           | 194, b1 :: _ => if (b1 =? 133) || (b1 =? 160) then 2%nat else 0%nat
           | 225, 154 :: 128 :: _ => 3%nat
           | 226, 128 :: b2 :: _ => if between 128 138 b2 || (b2 =? 168) || (b2 =? 169) || (b2 =? 175) then 3%nat else 0%nat
           | 226, 129 :: 159 :: _ => 3%nat
           | 227, 128 :: 128 :: _ => 3%nat
           | _, _ => 0%nat
           end
  | [] => 0%nat
  end.

(** The same at the end, on the reversed bytes. *)
Definition space_len_end (l : list N) : nat :=
  let ends (n : nat) := (n <=? length l)%nat && (space_len (reverse (take n l)) =? n)%nat in
  if ends 1%nat then 1%nat else if ends 2%nat then 2%nat else if ends 3%nat then 3%nat else 0%nat.

Fixpoint drop_spaces (len : list N -> nat) (fuel : nat) (l : list N) : list N :=
  match fuel with
  | O => l
  | S fuel => match len l with O => l | n => drop_spaces len fuel (drop n l) end
  end.

Definition trim_bytes (l : list N) : list N :=
  let l := drop_spaces space_len (length l) l in
  reverse (drop_spaces space_len_end (length l) (reverse l)).

Definition str_trim (s : string) : string := bytes_string (trim_bytes (string_bytes s)).

(** [trim_matches(c)] *)
Fixpoint drop_while_char (c : ascii) (l : list ascii) : list ascii :=
  match l with
  | x :: rest => if Ascii.eqb x c then drop_while_char c rest else l
  | [] => []
  end.

Definition trim_matches (c : ascii) (s : string) : string :=
  String.string_of_list_ascii (reverse (drop_while_char c (reverse (drop_while_char c (String.list_ascii_of_string s))))).

Definition starts_with (c : ascii) (s : string) : bool := match s with String x _ => Ascii.eqb x c | EmptyString => false end.
Definition ends_with (c : ascii) (s : string) : bool := match last (String.list_ascii_of_string s) with Some x => Ascii.eqb x c | None => false end.

(** [to_lowercase] of an ASCII string. *)
Definition lower_ascii (c : ascii) : ascii :=
  let n := N_of_ascii c in if between 65 90 n then ascii_of_N (n + 32) else c.
Definition to_ascii_lowercase (s : string) : string := String.string_of_list_ascii (lower_ascii <$> String.list_ascii_of_string s).

(** ** Numbers *)

Definition digit_of (c : ascii) : option N :=
  let n := N_of_ascii c in if between 48 57 n then Some (n - 48) else None.

(** The leading digits: their value, how many, and the rest. *)
Fixpoint take_digits (l : list ascii) (acc : N) (count : nat) : N * nat * list ascii :=
  match l with
  | c :: rest => match digit_of c with
                 | Some d => take_digits rest (acc * 10 + d) (S count)
                 | None => (acc, count, l)
                 end
  | [] => (acc, count, [])
  end.

(** An optional sign; [true] is minus. *)
Definition take_sign (l : list ascii) : bool * list ascii :=
  match l with
  | "+"%char :: rest => (false, rest)
  | "-"%char :: rest => (true, rest)
  | _ => (false, l)
  end.

Definition parse_i64 (s : string) : option Z :=
  let '(negative, l) := take_sign (String.list_ascii_of_string s) in
  match take_digits l 0 0 with
  | (_, O, _) => None
  | (n, _, []) =>
      let z := if negative then (- Z.of_N n)%Z else Z.of_N n in
      if ((-9223372036854775808 <=? z) && (z <=? 9223372036854775807))%Z then Some z else None
  | _ => None
  end.

(** [d * 10^e] rounded to the nearest double. *)
Definition decimal_to_f64 (negative : bool) (d : N) (e : Z) : spec_float :=
  match d with
  | 0 => S754_zero negative
  | Npos m =>
      if (0 <=? e)%Z then binary_normalize f64_prec f64_emax (if negative then - (Zpos m * 10 ^ e) else Zpos m * 10 ^ e)%Z 0 negative
      else match (10 ^ (- e))%Z with
           | Zpos q => SFdiv f64_prec f64_emax (S754_finite negative m 0) (S754_finite false q 0)
           | _ => S754_nan
           end
  end.

(** The exponent after an [e] or [E]. *)
Definition take_exponent (l : list ascii) : option Z :=
  match l with
  | [] => Some 0%Z
  | c :: rest =>
      if Ascii.eqb c "e" || Ascii.eqb c "E" then
        let '(negative, rest) := take_sign rest in
        match take_digits rest 0 0 with
        | (_, O, _) => None
        | (n, _, []) => Some (if negative then (- Z.of_N n)%Z else Z.of_N n)
        | _ => None
        end
      else None
  end.

Definition parse_f64 (s : string) : option spec_float :=
  let '(negative, l) := take_sign (String.list_ascii_of_string s) in
  let word := to_ascii_lowercase (String.string_of_list_ascii l) in
  if bool_decide (word = "inf"%string) || bool_decide (word = "infinity"%string) then Some (S754_infinity negative)
  else if bool_decide (word = "nan"%string) then Some S754_nan
  else
    let '(whole, n1, rest) := take_digits l 0 0 in
    let '(digits, n2, rest) := match rest with "."%char :: rest => take_digits rest whole 0 | _ => (whole, 0%nat, rest) end in
    if (n1 + n2 =? 0)%nat then None
    else e ← take_exponent rest; Some (decimal_to_f64 negative digits (e - Z.of_nat n2)).

Example split_demo : split_str " AND " "a eq 1 AND b in [2, 3]" = ["a eq 1"; "b in [2, 3]"]%string /\ splitn_char 3 " " "b in [2, 3]" = ["b"; "in"; "[2, 3]"]%string.
Proof. split; vm_compute; reflexivity. Qed.

Example trim_demo : str_trim "  a b 	" = "a b"%string /\ trim_matches "'" "'x'"%string = "x"%string.
Proof. split; vm_compute; reflexivity. Qed.

Example parse_demo : parse_i64 "-42" = Some (-42)%Z /\ parse_i64 "9223372036854775808" = None /\ parse_i64 "+" = None
  /\ parse_f64 "1.5e1" = Some (f64_of_N 15) /\ parse_f64 ".5" = Some (f64_ratio 1 2) /\ parse_f64 "5.e" = None /\ parse_f64 "." = None.
Proof. repeat split; vm_compute; reflexivity. Qed.
