(* ===== verification/OpsProcessor.v ===== *)
(** * The operation processor (src/ops_processor.rs, src/ingester.rs)

    Sync operations become bitmap mutations and document writes.  A step of the processor
    reads the engine, emits operations into a bitmap sink and writes fields through a
    document writer.  The concurrent engine is an interface ([EngineOps]): what the
    processor reads from its published snapshot and what it asks it to do.  Time is an
    argument.  Tracing, metrics and the CSV enrichment tables are left out. *)

From S2P Require Import Prelude Roaring Versioned Slot Config Sort Filter Float64 Query Dictionary Coalescer Mutation Ops Bytes Encoding OpsWal ShardStore ShardBitmap DocShards Text.
From Stdlib Require Import Ascii.
Local Open Scope bitdex_scope.

(** ** Values *)

Definition qvalue_to_json (v : Value) : JsonValue :=
  match v with
  | Integer i => JInt i
  | Float f => match f with S754_nan | S754_infinity _ => JNull | _ => JFloat f end
  | Bool b => JBool b
  | Str s => JString s
  end.

Definition field_value_to_json (fv : FieldValue) : JsonValue :=
  match fv with
  | Single v => qvalue_to_json v
  | Multi vals => JArray (qvalue_to_json <$> vals)
  end.

Fixpoint json_to_packed (v : JsonValue) : option PackedValue :=
  match v with
  | JInt n => Some (if in_i64 n then PI n else PF (f64_of_Z n))
  | JFloat f => Some (PF f)
  | JBool b => Some (PB b)
  | JString s => Some (PS s)
  | JNull => Some PNull
  | JArray arr =>
      let ints := omap as_i64 arr in
      if (length ints =? length arr)%nat then Some (PMi ints) else Some (PMm (omap json_to_packed arr))
  | JObject _ => None
  end.

Definition json_is_null (v : JsonValue) : bool := match v with JNull => true | _ => false end.

Section values.
Context `{JT : JsonText}.

Definition json_to_qvalue (v : JsonValue) : Value :=
  match v with
  | JInt n => if in_i64 n then Integer n else Float (f64_of_Z n)
  | JFloat f => Float f
  | JBool b => Bool b
  | JString s => Str s
  | JNull => Integer 0
  | JArray _ | JObject _ => Str (json_to_string v)
  end.
End values.

(** ** Documents as operations *)

Definition extract_multi_ints (fv : option FieldValue) : list Z :=
  match fv with
  | Some (Multi vals) => omap (fun v => match v with Integer i => Some i | _ => None end) vals
  | Some (Single (Integer i)) => [i]
  | _ => []
  end.

Definition is_multi_value (config : Configuration) (field : string) : bool :=
  existsb (fun f => bool_decide (ff_name f = field) && bool_decide (ff_field_type f = MultiValue)) (filter_fields config).

Definition changed_field_ops (config : Configuration) (old_fields : Fields) (field_name : string) (new_val : FieldValue) : list Op :=
  let old_val := old_fields !! field_name in
  if is_multi_value config field_name then
    let old_ints := extract_multi_ints old_val in
    let new_ints := extract_multi_ints (Some new_val) in
    ((fun v => OpRemove field_name (JInt v)) <$> filter (fun v => v ∉ new_ints) old_ints)
    ++ ((fun v => OpAdd field_name (JInt v)) <$> filter (fun v => v ∉ old_ints) new_ints)
  else
    match old_val with
    | Some old =>
        if field_values_equal (Some old) (Some new_val) then []
        else [OpRemove field_name (field_value_to_json old); OpSet field_name (field_value_to_json new_val)]
    | None => [OpSet field_name (field_value_to_json new_val)]
    end.

Definition removed_field_ops (config : Configuration) (field_name : string) (old_val : FieldValue) : list Op :=
  if is_multi_value config field_name then (fun v => OpRemove field_name (JInt v)) <$> extract_multi_ints (Some old_val)
  else [OpRemove field_name (field_value_to_json old_val)].

Definition document_to_ops (new_doc : Document) (old_doc : option StoredDoc) (config : Configuration) (is_patch : bool) : list Op :=
  let old_fields := from_option sd_fields ∅ old_doc in
  mjoin ((fun '(name, v) => changed_field_ops config old_fields name v) <$> map_to_list (doc_fields new_doc))
  ++ (if bool_decide (is_Some old_doc) && negb is_patch then
        mjoin ((fun '(name, v) =>
            if bool_decide (is_Some (doc_fields new_doc !! name)) then [] else removed_field_ops config name v) <$> map_to_list old_fields)
      else []).

(** ** Field metadata *)

Record ComputedSortInfo : Type := MkComputedSortInfo {
  csi_target : string;
  csi_target_bits : nat;
  csi_op : ComputedOp;
  csi_source_fields : list string;
}.

Module FieldMeta.

(** An [Arc<str>] of the registry is its name. *)
Record t : Type := mk {
  filter_fields : gmap string FilterFieldType;
  nullable_fields : gset string;
  sort_fields : gmap string nat;
  computed_deps : gmap string (list ComputedSortInfo);
  exists_boolean_shadows : gmap string (list string);
  deferred_alive_field : option (string * bool);
  id_field : string;
}.

Definition push {A : Type} (m : gmap string (list A)) (k : string) (v : A) : gmap string (list A) := <[k := default [] (m !! k) ++ [v]]> m.

(** Pushed unless it is there. *)
Definition push_new (m : gmap string (list string)) (k v : string) : gmap string (list string) :=
  let entry := default [] (m !! k) in <[k := if bool_decide (v ∈ entry) then entry else entry ++ [v]]> m.

Definition shadow_keys (schema : list FieldMapping) (fm : FieldMapping) : list string :=
  fm_source fm :: omap (fun s => if bool_decide (fm_source s = fm_source fm) && negb (bool_decide (fm_target s = fm_target fm)) then Some (fm_target s) else None) schema.

Definition from_config (config : Configuration) : t :=
  let filters := foldl (fun m fc => <[ff_name fc := ff_field_type fc]> m) ∅ (Mutation.filter_fields config) in
  let nullable := foldl (fun acc fm => if fm_nullable fm && bool_decide (is_Some (filters !! fm_target fm)) then {[fm_target fm]} ∪ acc else acc) ∅ (schema_fields config) in
  let sorts := foldl (fun m sc => <[sf_name sc := N.to_nat (sf_bits sc)]> m) ∅ (Mutation.sort_fields config) in
  let deps := foldl (fun m sc =>
      match computed sc with
      | Some cf =>
          let info := MkComputedSortInfo (sf_name sc) (N.to_nat (sf_bits sc)) (cf_op cf) (source_fields cf) in
          foldl (fun m source => push m source info) m (source_fields cf)
      | None => m
      end) ∅ (Mutation.sort_fields config) in
  let shadows := foldl (fun m fm =>
      if bool_decide (fm_value_type fm = FVExistsBoolean) && bool_decide (is_Some (filters !! fm_target fm)) then
        foldl (fun m k => push_new m k (fm_target fm)) m (shadow_keys (schema_fields config) fm)
      else m) ∅ (schema_fields config) in
  mk filters nullable sorts deps shadows ((fun da => (da_source_field da, da_ms_to_seconds da)) <$> deferred_alive config) (schema_id_field config).

Definition has_computed_deps (meta : t) (field : string) : bool := bool_decide (is_Some (computed_deps meta !! field)).

End FieldMeta.

(** ** Bitmap sinks (src/ingester.rs)

    The methods of a sink carry one slot each and match the constructors of
    [MutationOp]. *)

Class BitmapSink (K : Type) : Type := {
  sink_apply : K -> MutationOp -> K;
  (** What goes to the coalescer channel. *)
  sink_flush : K -> list MutationOp * K;
}.

Definition sink_all {K : Type} `{!BitmapSink K} (k : K) (ops : list MutationOp) : K := foldl sink_apply k ops.

Record CoalescerSink : Type := MkCoalescerSink { cs_pending : list MutationOp }.

#[export] Instance coalescer_sink : BitmapSink CoalescerSink := {
  sink_apply k op := MkCoalescerSink (cs_pending k ++ [op]);
  sink_flush k := (cs_pending k, MkCoalescerSink []);
}.

(** The accumulator of the bulk path ([BitmapAccum], src/loader.rs). *)
Record BitmapAccum (B : Type) : Type := MkBitmapAccum {
  ba_filter_maps : gmap string (gmap N B);
  ba_sort_maps : gmap string (gmap nat B);
  ba_alive : B;
  ba_encoded_docs : list (N * list N);
  ba_deferred_alive : list (N * N);
  ba_count : N;
  ba_errors : N;
}.
Arguments MkBitmapAccum {B} _ _ _ _ _ _ _.
Arguments ba_filter_maps {B} _.
Arguments ba_sort_maps {B} _.
Arguments ba_alive {B} _.
Arguments ba_encoded_docs {B} _.
Arguments ba_deferred_alive {B} _.
Arguments ba_count {B} _.
Arguments ba_errors {B} _.

Section accum.
Context {B : Type} `{!RoaringOps B}.

Definition accum_new (filter_names : list string) (sort_configs : list (string * N)) : BitmapAccum B :=
  MkBitmapAccum (foldl (fun m n => <[n := ∅]> m) ∅ filter_names) (foldl (fun m e => <[e.1 := ∅]> m) ∅ sort_configs) rb_new [] [] 0 0.

Definition with_maps (a : BitmapAccum B) (filters : gmap string (gmap N B)) (sorts : gmap string (gmap nat B)) (alive : B) : BitmapAccum B :=
  MkBitmapAccum filters sorts alive (ba_encoded_docs a) (ba_deferred_alive a) (ba_count a) (ba_errors a).

(** [entry(k).or_insert_with(RoaringBitmap::new).insert(slot)] in the map of a known field. *)
Definition accum_insert {K : Type} `{Countable K} (maps : gmap string (gmap K B)) (field : string) (k : K) (slot : N) : gmap string (gmap K B) :=
  alter (fun m : gmap K B => <[k := rb_insert (default rb_new (m !! k)) slot]> m) field maps.

(** Removes, clears and deferrals do nothing. *)
Definition accum_apply (a : BitmapAccum B) (op : MutationOp) : BitmapAccum B :=
  match op with
  | FilterInsert field value slots => foldl (fun a slot => with_maps a (accum_insert (ba_filter_maps a) field value slot) (ba_sort_maps a) (ba_alive a)) a slots
  | SortSet field bit slots => foldl (fun a slot => with_maps a (ba_filter_maps a) (accum_insert (ba_sort_maps a) field bit slot) (ba_alive a)) a slots
  | AliveInsert slots => with_maps a (ba_filter_maps a) (ba_sort_maps a) (foldl rb_insert (ba_alive a) slots)
  | FilterRemove _ _ _ | SortClear _ _ _ | AliveRemove _ | DeferredAlive _ _ | DeferredCancel _ => a
  end.

#[export] Instance accum_sink : BitmapSink (BitmapAccum B) := {
  sink_apply := accum_apply;
  sink_flush a := ([], a);
}.

End accum.

(** ** The document writer *)

Module DocWriter.

Record t : Type := mk {
  field_dict : gmap string N;
  pending : list (N * N * list N);
  pending_append : list (N * N * PackedValue);
  pending_remove : list (N * N * PackedValue);
}.

Section ops.
Context `{CK : Checksum, MP : MsgPack}.
Implicit Types (w : t) (d : DocStoreV3.t).

Definition new d : t := mk (DocStoreV3.field_dict_snapshot d) [] [] [].

(** A failure to add the field only prints a message. *)
Definition resolve_field w d (field : string) : option N * (t * DocStoreV3.t) :=
  match field_dict w !! field with
  | Some idx => (Some idx, (w, d))
  | None =>
      match DocStoreV3.ensure_field_index d field with
      | IoOk (idx, d) => (Some idx, (mk (<[field := idx]> (field_dict w)) (pending w) (pending_append w) (pending_remove w), d))
      | _ => (None, (w, d))
      end
  end.

(** Negative integers are stored as 0. *)
Definition clamp_negative (value : JsonValue) : JsonValue :=
  match as_i64 value with Some n => if (n <? 0)%Z then JInt 0 else value | None => value end.

Definition write_set w d (slot : N) (field : string) (value : JsonValue) : t * DocStoreV3.t :=
  match resolve_field w d field with
  | (Some idx, (w, d)) =>
      match json_to_packed (clamp_negative value) with
      | Some packed => (mk (field_dict w) (pending w ++ [(slot, idx, rmp_packed_to_vec packed)]) (pending_append w) (pending_remove w), d)
      | None => (w, d)
      end
  | (None, wd) => wd
  end.

Definition write_add w d (slot : N) (field : string) (value : JsonValue) : t * DocStoreV3.t :=
  match resolve_field w d field with
  | (Some idx, (w, d)) =>
      match as_i64 value with
      | Some v => (mk (field_dict w) (pending w) (pending_append w ++ [(slot, idx, PI v)]) (pending_remove w), d)
      | None => (w, d)
      end
  | (None, wd) => wd
  end.

Definition write_remove w d (slot : N) (field : string) (value : JsonValue) : t * DocStoreV3.t :=
  match resolve_field w d field with
  | (Some idx, (w, d)) =>
      match as_i64 value with
      | Some v => (mk (field_dict w) (pending w) (pending_append w) (pending_remove w ++ [(slot, idx, PI v)]), d)
      | None => (w, d)
      end
  | (None, wd) => wd
  end.

(** A failed write only prints a message; what was pending is dropped. *)
Definition flush w d : t * DocStoreV3.t :=
  match pending w, pending_append w, pending_remove w with
  | [], [], [] => (w, d)
  | sets, appends, removes =>
      (mk (field_dict w) [] [] [], match DocStoreV3.append_mixed_batch d sets appends removes with IoOk d => d | _ => d end)
  end.

End ops.
End DocWriter.

(** The field writes an operation asks for. *)
Inductive doc_write : Type :=
| WSet (field : string) (value : JsonValue)
| WAdd (field : string) (value : JsonValue)
| WRemove (field : string) (value : JsonValue).

(** ** The engine *)

(** What the processor uses of [ConcurrentEngine]; a result is [None] for an error.  A read
    may fill caches, which the interface does not show. *)
Class EngineOps (B E : Type) : Type := {
  engine_config : E -> Configuration;
  is_slot_alive : E -> N -> bool;
  is_slot_deferred : E -> N -> bool;
  slot_counter : E -> N;
  deferred_slots : E -> list N;
  reconstruct_sort_value : E -> string -> N -> option N;
  execute_query : E -> BitdexQuery B -> option QueryResult;
  get_document : E -> N -> option (option StoredDoc);
  docstore_arc : E -> DocStoreV3.t;
  with_docstore : E -> DocStoreV3.t -> E;
  dictionaries : E -> gmap string FieldDictionary.t;
  with_dictionaries : E -> gmap string FieldDictionary.t -> E;
  engine_delete : E -> N -> bool * E;
  force_publish_blocking : E -> bool * E;
  evict_doc_cache : E -> N -> E;
  send_batch : E -> list MutationOp -> bool * E;
  apply_accum : E -> BitmapAccum B -> E;
  membership_field : E -> option string;
  drain_activation_verify : E -> N -> list N * E;
  requeue_activation_verify : E -> list N -> E;
  recent_removes_for_slot : E -> N -> bool;
}.
Arguments execute_query {B E _} _ _.
Arguments apply_accum {B E _} _ _.

(** ** Schedules *)

Section schedules.
Context (meta : FieldMeta.t) (now : N).

(** The seconds of a timestamp of the deferred source field; division truncates. *)
Definition to_secs (ms_to_secs : bool) (ts : Z) : Z := if ms_to_secs then Z.quot ts 1000 else ts.

Definition set_value (da_field : string) (op : Op) : option Z :=
  match op with OpSet field value => if bool_decide (field = da_field) then as_i64 value else None | _ => None end.

(** The first future timestamp that is set. *)
Definition check_deferred_alive_secs (ops : list Op) : option N :=
  '(da_field, ms_to_secs) ← FieldMeta.deferred_alive_field meta;
  head (omap (fun op => ts ← set_value da_field op; let secs := to_secs ms_to_secs ts in
                        if (Z.of_N now <? secs)%Z then Some (i64_as_u64 secs) else None) ops).

(** The first timestamp that is set. *)
Definition get_deferred_timestamp (ops : list Op) : option N :=
  '(da_field, ms_to_secs) ← FieldMeta.deferred_alive_field meta;
  head (omap (fun op => ts ← set_value da_field op; Some (i64_as_u64 (to_secs ms_to_secs ts))) ops).

(** One round of [get_future_schedule]. *)
Definition schedule_step (da_field : string) (ms_to_secs : bool) (found : option N) (op : Op) : option N :=
  match op with
  | OpSet field value | OpRemove field value =>
      if bool_decide (field = da_field) then
        match as_i64 value with
        | Some ts => let secs := to_secs ms_to_secs ts in
                     if ((0 <? secs) && (Z.of_N now <? secs))%Z then Some (Z.to_N secs) else None
        | None => None
        end
      else found
  | _ => found
  end.

Definition get_future_schedule (ops : list Op) : option N :=
  '(da_field, ms_to_secs) ← FieldMeta.deferred_alive_field meta;
  foldl (schedule_step da_field ms_to_secs) None ops.

Definition da_field_name : string := from_option fst ""%string (FieldMeta.deferred_alive_field meta).

Definition modifies_schedule (ops : list Op) : bool :=
  existsb (fun op => match op with OpSet field _ | OpRemove field _ => bool_decide (field = da_field_name) | _ => false end) ops.

(** The writes of a slot that is not alive: a remove of the schedule field that carries a
    schedule stores the schedule. *)
Definition deferred_writes (carries_schedule : bool) (ops : list Op) : list doc_write :=
  omap (fun op =>
      match op with
      | OpSet field value => Some (WSet field value)
      | OpAdd field value => Some (WAdd field value)
      | OpRemove field value => Some (if carries_schedule && bool_decide (field = da_field_name) then WSet field value else WRemove field value)
      | _ => None
      end) ops.

(** The writes of a slot created with a schedule: other removes are left out. *)
Definition created_writes (ops : list Op) : list doc_write :=
  omap (fun op =>
      match op with
      | OpSet field value => Some (WSet field value)
      | OpAdd field value => Some (WAdd field value)
      | OpRemove field value => if bool_decide (field = da_field_name) then Some (WSet field value) else None
      | _ => None
      end) ops.

(** The schedule after a batch for a deferred slot. *)
Definition rescheduled (ops : list Op) : option N :=
  match get_deferred_timestamp ops with
  | Some at_ => Some at_
  | None => match get_future_schedule ops with
            | Some at_ => Some at_
            | None => if modifies_schedule ops then Some now else None
            end
  end.
End schedules.

(** ** Bitmap operations of an operation *)

Definition is_query_op (op : Op) : bool := match op with OpQueryOpSet _ _ => true | _ => false end.
Definition has_query_op_set (ops : list Op) : bool := existsb is_query_op ops.

(** A definite set or clear for every layer. *)
Definition overwrite_ops (field : string) (bits : nat) (v slot : N) : list MutationOp :=
  (fun bit => if bit_set v bit then SortSet field bit [slot] else SortClear field bit [slot]) <$> seq 0 bits.

Definition set_bits_ops (field : string) (bits : nat) (v slot : N) : list MutationOp :=
  omap (fun bit => if bit_set v bit then Some (SortSet field bit [slot]) else None) (seq 0 bits).

Definition clear_bits_ops (field : string) (bits : nat) (v slot : N) : list MutationOp :=
  omap (fun bit => if bit_set v bit then Some (SortClear field bit [slot]) else None) (seq 0 bits).

(** Flip the shadows of a field to [key], 0 or 1. *)
Definition flip_shadow_ops (meta : FieldMeta.t) (field : string) (key slot : N) : list MutationOp :=
  mjoin ((fun target => [FilterRemove target (1 - key) [slot]; FilterInsert target key [slot]])
    <$> default [] (FieldMeta.exists_boolean_shadows meta !! field)).

Section translate.
Context {B E : Type} `{JT : JsonText} `{EO : !EngineOps B E}.
Context (to_lowercase : string -> string) (live : bool) (meta : FieldMeta.t).
Implicit Types (e : E) (slot : N) (field : string) (value : JsonValue).

(** Dictionaries are consulted when there is an engine; unknown strings get a key on the
    set path only. *)
Definition resolve_filter_key e (qval : Value) field (for_set : bool) : option N * E :=
  match mutation_bitmap_key qval with
  | Some key => (Some key, e)
  | None =>
      match qval with
      | Str s =>
          if live then
            match dictionaries e !! field with
            | Some dict =>
                if for_set then
                  let '(key, dict) := FieldDictionary.get_or_insert to_lowercase dict s in
                  (Some (i64_as_u64 key), with_dictionaries e (<[field := dict]> (dictionaries e)))
                else (i64_as_u64 <$> FieldDictionary.get to_lowercase dict s, e)
            | None => (None, e)
            end
          else (None, e)
      | _ => (None, e)
      end
  end.

Definition is_nullable field : bool := bool_decide (field ∈ FieldMeta.nullable_fields meta).

(** The published value, when there is an engine. *)
Definition published_sort e field slot : option N := if live then reconstruct_sort_value e field slot else None.

Definition unchanged_sort e field slot (v : N) : bool := bool_decide (published_sort e field slot = Some v).

Definition set_filter_ops e slot field value : list MutationOp * E :=
  match FieldMeta.filter_fields meta !! field with
  | Some _ =>
      if json_is_null value && is_nullable field then ([FilterInsert field NULL_BITMAP_KEY [slot]], e)
      else
        let '(key, e) := resolve_filter_key e (json_to_qvalue value) field true in
        ((if is_nullable field then [FilterRemove field NULL_BITMAP_KEY [slot]] else [])
         ++ from_option (fun key => [FilterInsert field key [slot]]) [] key, e)
  | None => ([], e)
  end.

Definition set_sort_ops e slot field value : list MutationOp :=
  match FieldMeta.sort_fields meta !! field, value_to_sort_u32 (json_to_qvalue value) with
  | Some bits, Some v => if unchanged_sort e field slot v then [] else overwrite_ops field bits v slot
  | _, _ => []
  end.

Definition process_set_op e slot field value : list MutationOp * E :=
  let '(filter_ops, e) := set_filter_ops e slot field value in
  (filter_ops ++ set_sort_ops e slot field value ++ flip_shadow_ops meta field (if json_is_null value then 0 else 1) slot, e).

Definition process_remove_op e slot field value : list MutationOp :=
  (match FieldMeta.filter_fields meta !! field with
   | Some _ =>
       if json_is_null value && is_nullable field then [FilterRemove field NULL_BITMAP_KEY [slot]]
       else from_option (fun key => [FilterRemove field key [slot]]) [] (resolve_filter_key e (json_to_qvalue value) field false).1
   | None => []
   end)
  ++ (match FieldMeta.sort_fields meta !! field, value_to_sort_u32 (json_to_qvalue value) with
      | Some bits, Some v => clear_bits_ops field bits v slot
      | _, _ => []
      end)
  ++ flip_shadow_ops meta field 0 slot.

Definition process_add_op e slot field value : list MutationOp * E :=
  if json_is_null value && is_nullable field then ([], e)
  else
    let '(filter_ops, e) :=
      match FieldMeta.filter_fields meta !! field with
      | Some _ => let '(key, e) := resolve_filter_key e (json_to_qvalue value) field true in (from_option (fun key => [FilterInsert field key [slot]]) [] key, e)
      | None => ([], e)
      end in
    (filter_ops ++ match FieldMeta.sort_fields meta !! field, value_to_sort_u32 (json_to_qvalue value) with
                   | Some bits, Some v => set_bits_ops field bits v slot
                   | _, _ => []
                   end, e).

(** [write_shadow_target_docs] *)
Definition shadow_writes field (is_null_or_remove : bool) : list doc_write :=
  (fun target => WSet target (JBool (negb is_null_or_remove))) <$> default [] (FieldMeta.exists_boolean_shadows meta !! field).

(** The bitmap operations and field writes of one operation. *)
Definition process_op e slot (op : Op) : list MutationOp * list doc_write * E :=
  match op with
  | OpSet field value =>
      let '(ops, e) := process_set_op e slot field value in (ops, WSet field value :: shadow_writes field (json_is_null value), e)
  | OpRemove field value => (process_remove_op e slot field value, WRemove field value :: shadow_writes field true, e)
  | OpAdd field value => let '(ops, e) := process_add_op e slot field value in (ops, [WAdd field value], e)
  | OpDelete | OpQueryOpSet _ _ | OpAlive => ([], [], e)
  end.

Fixpoint process_ops e slot (ops : list Op) : list MutationOp * list doc_write * E :=
  match ops with
  | [] => ([], [], e)
  | op :: ops =>
      let '(ms, ws, e) := process_op e slot op in
      let '(ms', ws', e) := process_ops e slot ops in (ms ++ ms', ws ++ ws', e)
  end.

(** The sort values an operation list sets and removes, for computed fields. *)
Definition tracks field : bool := FieldMeta.has_computed_deps meta field || bool_decide (is_Some (FieldMeta.sort_fields meta !! field)).

Definition track (m : gmap string N) field value : gmap string N :=
  if tracks field then match value_to_sort_u32 (json_to_qvalue value) with Some v => <[field := v]> m | None => m end else m.

Definition sort_values_of (ops : list Op) : gmap string N :=
  foldl (fun m op => match op with OpSet field value => track m field value | _ => m end) ∅ ops.

Definition old_sort_values_of (ops : list Op) : gmap string N :=
  foldl (fun m op => match op with OpRemove field value => track m field value | _ => m end) ∅ ops.

End translate.

(** ** Computed sort fields *)

Section recompute.
Context {B E : Type} `{JT : JsonText} `{EO : !EngineOps B E}.
Context (live : bool) (now : N) (meta : FieldMeta.t).
Implicit Types (e : E) (slot : N) (sort_values old_sort_values : gmap string N).

(** The source fields an operation list changes, in any order of the hash set. *)
Definition changed_sources sort_values old_sort_values : list string :=
  elements (filter (fun f => FieldMeta.has_computed_deps meta f) (dom sort_values ∪ dom old_sort_values)).

Definition now_u32 : N := wrap32 now.

(** A source field of the stored document, unless it is a schedule still to come. *)
Definition stored_sort_value (doc : option StoredDoc) sort_values old_sort_values (source : string) : option N :=
  if bool_decide (is_Some (sort_values !! source)) || bool_decide (is_Some (old_sort_values !! source)) then None
  else
    doc ← doc;
    match sd_fields doc !! source with
    | Some (Single v) =>
        sv ← value_to_sort_u32 v;
        if bool_decide (fst <$> FieldMeta.deferred_alive_field meta = Some source) && (now_u32 <? sv) then None else Some sv
    | _ => None
    end.

Definition stored_doc e slot : option StoredDoc := if live then default None (get_document e slot) else None.

Definition new_source_value (doc : option StoredDoc) sort_values old_sort_values (source : string) : N :=
  match sort_values !! source with
  | Some v => v
  | None => default 0 (stored_sort_value doc sort_values old_sort_values source)
  end.

Definition recompute_dep e slot (doc : option StoredDoc) sort_values old_sort_values (dep : ComputedSortInfo) : list MutationOp * list doc_write :=
  let new_computed := apply_computed_op (csi_op dep) (new_source_value doc sort_values old_sort_values <$> csi_source_fields dep) in
  ((if unchanged_sort live e (csi_target dep) slot new_computed then [] else overwrite_ops (csi_target dep) (csi_target_bits dep) new_computed slot),
   [WSet (csi_target dep) (JInt (Z.of_N new_computed))]).

(** The raw timestamp of the deferred source field, in seconds, clamped to [u32]. *)
Definition stored_timestamp (doc : option StoredDoc) (name : string) (ms_to_secs : bool) : option N :=
  doc ← doc;
  match sd_fields doc !! name with
  | Some (Single v) =>
      raw ← match v with Integer i => Some i | _ => Z.of_N <$> value_to_sort_u32 v end;
      Some (Z.to_N (Z.max 0 (Z.min (to_secs ms_to_secs raw) 4294967295)))
  | _ => None
  end.

(** Complete an activation that was lost: a stored timestamp in the past is written to
    the source layers and the shadows become true. *)
Definition safety_net e slot : list MutationOp * list doc_write :=
  match FieldMeta.deferred_alive_field meta with
  | Some (name, ms_to_secs) =>
      match stored_timestamp (stored_doc e slot) name ms_to_secs with
      | Some pub_val =>
          if (0 <? pub_val) && (pub_val <=? now_u32) then
            (match FieldMeta.sort_fields meta !! name with Some bits => overwrite_ops name bits pub_val slot | None => [] end ++ flip_shadow_ops meta name 1 slot,
             match FieldMeta.sort_fields meta !! name with Some _ => [WSet name (JInt (Z.of_N pub_val))] | None => [] end
             ++ ((fun target => WSet target (JBool true)) <$> default [] (FieldMeta.exists_boolean_shadows meta !! name)))
          else ([], [])
      | None => ([], [])
      end
  | None => ([], [])
  end.

Definition recompute_computed_sorts_for_slot e slot sort_values old_sort_values : list MutationOp * list doc_write :=
  match changed_sources sort_values old_sort_values with
  | [] => ([], [])
  | sources =>
      let doc := stored_doc e slot in
      let parts := mjoin ((fun source => recompute_dep e slot doc sort_values old_sort_values <$> default [] (FieldMeta.computed_deps meta !! source)) <$> sources) in
      let '(net_ops, net_writes) := safety_net e slot in
      (mjoin parts.*1 ++ net_ops, mjoin parts.*2 ++ net_writes)
  end.

End recompute.

(** ** The parser of fan-out queries *)

Section parse.
Context {B : Type} (to_lowercase : string -> string).

Definition parse_query_value (s : string) : Value :=
  match parse_i64 s with
  | Some n => Integer n
  | None =>
      match parse_f64 s with
      | Some f => Float f
      | None => if bool_decide (s = "true"%string) then Bool true
                else if bool_decide (s = "false"%string) then Bool false
                else Str (trim_matches "'"%char (trim_matches "034"%char s))
      end
  end.

(** [None] is an error. *)
Definition parse_query_values_array (s : string) : option (list Value) :=
  let trimmed := str_trim s in
  if starts_with "["%char trimmed && ends_with "]"%char trimmed then
    let inner := String.substring 1 (String.length trimmed - 2) trimmed in
    Some (omap (fun part => let part := str_trim part in if bool_decide (part = ""%string) then None else Some (parse_query_value part)) (split_str "," inner))
  else None.

Definition parse_clause (clause : string) : option (FilterClause B) :=
  match splitn_char 3 " "%char (str_trim clause) with
  | [field; op; value_str] =>
      let op := to_lowercase op in
      if bool_decide (op = "eq"%string) then Some (Eq field (parse_query_value value_str))
      else if bool_decide (op = "in"%string) then In field <$> parse_query_values_array value_str
      else None
  | _ => None
  end.

Definition parse_filter_from_query_str (query_str : string) : option (list (FilterClause B)) :=
  mapM parse_clause (split_str " AND " query_str).
End parse.

(** ** Matching stored documents *)

Definition doc_field_has_value (doc : StoredDoc) (field : string) (val : Value) : bool :=
  match sd_fields doc !! field with
  | Some (Single v) => values_equal v val
  | Some (Multi vs) => existsb (fun v => values_equal v val) vs
  | None => false
  end.

Definition doc_matches_filters {B : Type} (doc : StoredDoc) (filters : list (FilterClause B)) : bool :=
  forallb (fun clause =>
      match clause with
      | Eq field val => doc_field_has_value doc field val
      | In field vals => existsb (doc_field_has_value doc field) vals
      | _ => false
      end) filters.

(** ** The batch loop *)

Record ProcState (E K : Type) : Type := MkProcState {
  p_engine : E;
  p_sink : K;
  p_docs : option DocWriter.t;
  p_memo : gset N;
}.
Arguments MkProcState {E K} _ _ _ _.
Arguments p_engine {E K} _.
Arguments p_sink {E K} _.
Arguments p_docs {E K} _.
Arguments p_memo {E K} _.

(** The counters and flags of [apply_ops_batch]. *)
Record BatchCounts : Type := MkBatchCounts {
  applied : N;
  skipped : N;
  errors : N;
  barrier_done : bool;
  barrier_failed : bool;
}.

Definition add_applied (c : BatchCounts) (n : N) : BatchCounts := MkBatchCounts (applied c + n) (skipped c) (errors c) (barrier_done c) (barrier_failed c).
Definition add_skipped (c : BatchCounts) : BatchCounts := MkBatchCounts (applied c) (skipped c + 1) (errors c) (barrier_done c) (barrier_failed c).
Definition add_error (c : BatchCounts) : BatchCounts := MkBatchCounts (applied c) (skipped c) (errors c + 1) (barrier_done c) (barrier_failed c).
Definition set_barrier (c : BatchCounts) (failed : bool) : BatchCounts := MkBatchCounts (applied c) (skipped c) (errors c) true failed.

(** What happens to an entry. *)
Inductive gate : Type :=
| Proceed (creates : bool)
| WhileDeferred
| Rearm (at_ : N)
| SkipKnown
| SkipDeleted.

Section batch.
Context {B E K : Type} `{!RoaringOps B, JT : JsonText, CK : Checksum, MP : MsgPack, EO : !EngineOps B E, BS : !BitmapSink K}.
Context (to_lowercase : string -> string) (max_fanout : N) (live : bool) (now : N) (meta : FieldMeta.t).
Implicit Types (st : ProcState E K) (slot : N) (ops : list Op).

Definition with_engine st (e : E) : ProcState E K := MkProcState e (p_sink st) (p_docs st) (p_memo st).

Definition emit st (ops : list MutationOp) : ProcState E K := MkProcState (p_engine st) (sink_all (p_sink st) ops) (p_docs st) (p_memo st).

Definition with_docs st (f : DocWriter.t -> DocStoreV3.t -> DocWriter.t * DocStoreV3.t) : ProcState E K :=
  match p_docs st with
  | Some w => let '(w, d) := f w (docstore_arc (p_engine st)) in MkProcState (with_docstore (p_engine st) d) (p_sink st) (Some w) (p_memo st)
  | None => st
  end.

Definition doc_write_one slot st (w : doc_write) : ProcState E K :=
  match w with
  | WSet field value => with_docs st (fun dw d => DocWriter.write_set dw d slot field value)
  | WAdd field value => with_docs st (fun dw d => DocWriter.write_add dw d slot field value)
  | WRemove field value => with_docs st (fun dw d => DocWriter.write_remove dw d slot field value)
  end.

Definition write_docs st slot (ws : list doc_write) : ProcState E K := foldl (doc_write_one slot) st ws.

Definition flush_docs st : ProcState E K := with_docs st DocWriter.flush.

(** [sink.flush()]: the pending operations are sent to the engine. *)
Definition flush_sink st : bool * ProcState E K :=
  let '(ops, k) := sink_flush (p_sink st) in
  let '(ok, e) := match ops with [] => (true, p_engine st) | _ => send_batch (p_engine st) ops end in
  (ok, MkProcState e k (p_docs st) (p_memo st)).

(** *** The not-alive gate *)

(** An unreadable document counts as absent. *)
Definition doc_absent (e : E) slot : bool :=
  match DocStoreV3.get (docstore_arc e) slot with IoOk (Some _) => false | _ => true end.

Definition gate_entry st (entry : EntityOps) slot : gate :=
  let e := p_engine st in
  if creates_slot entry || has_query_op_set (eo_ops entry) || negb live || is_slot_alive e slot then Proceed (creates_slot entry)
  else if is_slot_deferred e slot then WhileDeferred
  else if slot_counter e <=? slot then Proceed true
  else match get_future_schedule meta now (eo_ops entry) with
       | Some at_ => Rearm at_
       | None => if bool_decide (slot ∈ p_memo st) then SkipKnown
                 else if doc_absent e slot then Proceed true else SkipDeleted
       end.

Definition MEMO_CAP : N := 1000000.

Definition remember_confirmed_deleted st slot : ProcState E K :=
  let memo := if MEMO_CAP <=? N.of_nat (size (p_memo st)) then ∅ else p_memo st in
  MkProcState (p_engine st) (p_sink st) (p_docs st) ({[slot]} ∪ memo).

(** *** Deletes *)

Definition process_delete st slot : bool * ProcState E K :=
  if live then let '(ok, e) := engine_delete (p_engine st) slot in (ok, with_engine st e)
  else (true, emit st [AliveRemove [slot]]).

(** *** Fan-outs *)

(** Persist a fan-out to the deferred slots its filters match, and move their schedules. *)
Definition reach_deferred (filters : list (FilterClause B)) ops st slot : bool * ProcState E K :=
  let e := p_engine st in
  if is_slot_alive e slot then (false, st)
  else match get_document e slot with
       | Some (Some doc) =>
           if doc_matches_filters doc filters then
             let future := get_future_schedule meta now ops in
             let new_at := match get_deferred_timestamp meta ops with Some at_ => Some at_ | None => future end in
             (true, emit (write_docs st slot (deferred_writes meta (bool_decide (is_Some future)) ops)) [DeferredAlive slot (default now new_at)])
           else (false, st)
       | _ => (false, st)
       end.

Fixpoint reach_all (filters : list (FilterClause B)) ops st (candidates : list N) : list N * ProcState E K :=
  match candidates with
  | [] => ([], st)
  | slot :: candidates =>
      let '(hit, st) := reach_deferred filters ops st slot in
      let '(touched, st) := reach_all filters ops st candidates in (if hit : bool then slot :: touched else touched, st)
  end.

Definition evict_all st (slots : list N) : ProcState E K := with_engine st (foldl evict_doc_cache (p_engine st) slots).

Definition apply_fanout_to_deferred_slots (filters : list (FilterClause B)) ops st : N * ProcState E K :=
  match FieldMeta.deferred_alive_field meta with
  | None => (0, st)
  | Some _ =>
      if negb (modifies_schedule meta ops) then (0, st)
      else
        let '(touched, st) := reach_all filters ops st (deferred_slots (p_engine st)) in
        (N.of_nat (length touched), match touched with [] => st | _ => evict_all (flush_docs st) touched end)
  end.

(** The writes of a matched slot when the fan-out carries a schedule. *)
Definition fanout_writes ops : list doc_write :=
  omap (fun op => match op with
                  | OpSet field value => Some (WSet field value)
                  | OpRemove field value => Some (WRemove field value)
                  | OpAdd field value => Some (WAdd field value)
                  | _ => None
                  end) ops.

(** A delete inside a fan-out clears the alive bit. *)
Definition fanout_op st slot (op : Op) : ProcState E K :=
  match op with
  | OpDelete => emit st [AliveRemove [slot]]
  | _ => let '(ms, ws, e) := process_op to_lowercase live meta (p_engine st) slot op in write_docs (emit (with_engine st e) ms) slot ws
  end.

Definition recompute_slot st slot (sort_values old_sort_values : gmap string N) : ProcState E K :=
  let '(ms, ws) := recompute_computed_sorts_for_slot live now meta (p_engine st) slot sort_values old_sort_values in
  write_docs (emit st ms) slot ws.

Definition fanout_slot (deferred_at : option N) ops (sort_values old_sort_values : gmap string N) st slot : ProcState E K :=
  match deferred_at with
  | Some activate_at => emit (write_docs st slot (fanout_writes ops)) [DeferredAlive slot activate_at]
  | None => recompute_slot (foldl (fun st op => fanout_op st slot op) st ops) slot sort_values old_sort_values
  end.

Definition MAX_LIMIT : N := 18446744073709551615.

(** [None] is an error: a bad query string or a failed query. *)
Definition apply_query_op_set st (query_str : string) ops : option N * ProcState E K :=
  match parse_filter_from_query_str (B := B) to_lowercase query_str with
  | None => (None, st)
  | Some filters =>
      match execute_query (p_engine st) (MkBitdexQuery filters None MAX_LIMIT None None true) with
      | None => (None, st)
      | Some result =>
          let slot_ids := qr_ids result in
          let '(deferred_applied, st) := apply_fanout_to_deferred_slots filters ops st in
          if max_fanout <? N.of_nat (length slot_ids) then (Some deferred_applied, st)
          else match slot_ids with
               | [] => (Some deferred_applied, st)
               | _ =>
                   let slots := filter (fun id => id <= u32_max) slot_ids in
                   let any_deps := negb (bool_decide (FieldMeta.computed_deps meta = ∅)) in
                   let sort_values := if any_deps then sort_values_of meta ops else ∅ in
                   let old_sort_values := if any_deps then old_sort_values_of meta ops else ∅ in
                   let st := foldl (fanout_slot (check_deferred_alive_secs meta now ops) ops sort_values old_sort_values) st slots in
                   let total := deferred_applied + N.of_nat (length slots) in
                   (Some total, if 0 <? total then evict_all (flush_docs st) slots else st)
               end
      end
  end.

(** Before the first fan-out of a batch everything written so far is published. *)
Definition fanout_barrier st (c : BatchCounts) : ProcState E K * BatchCounts :=
  if barrier_done c then (st, c)
  else if live then
    let st := flush_docs st in
    let '(_, st) := flush_sink st in
    let '(ok, e) := force_publish_blocking (p_engine st) in (with_engine st e, set_barrier c (barrier_failed c || negb ok))
  else (st, set_barrier c (barrier_failed c)).

Definition query_op (sc : ProcState E K * BatchCounts) (op : Op) : ProcState E K * BatchCounts :=
  let '(st, c) := sc in
  match op with
  | OpQueryOpSet None _ => (st, add_skipped c)
  | OpQueryOpSet (Some query_str) ops =>
      let '(st, c) := fanout_barrier st c in
      if barrier_failed c then (st, add_error c)
      else if live then
        match apply_query_op_set st query_str ops with
        | (Some count, st) => (st, add_applied c count)
        | (None, st) => (st, add_error c)
        end
      else (st, add_skipped c)
  | _ => (st, c)
  end.

(** *** One entry *)

Definition is_field_op (op : Op) : bool := match op with OpSet _ _ | OpRemove _ _ | OpAdd _ _ => true | _ => false end.

Definition sets_field (field : string) (op : Op) : bool := match op with OpSet f _ => bool_decide (f = field) | _ => false end.

(** A created slot stores its own id. *)
Definition write_id st slot (creates : bool) ops : ProcState E K :=
  if creates && negb (bool_decide (FieldMeta.id_field meta = ""%string)) && negb (existsb (sets_field (FieldMeta.id_field meta)) ops)
  then write_docs st slot [WSet (FieldMeta.id_field meta) (JInt (Z.of_N slot))] else st.

(** The fields of an entry that passed the gate. *)
Definition apply_fields st slot (creates : bool) ops : ProcState E K :=
  let '(ms, ws, e) := process_ops to_lowercase live meta (p_engine st) slot ops in
  let st := write_docs (emit (with_engine st e) ms) slot ws in
  let st := recompute_slot st slot (sort_values_of meta ops) (old_sort_values_of meta ops) in
  if creates then emit st [AliveInsert [slot]] else st.

Definition proceed_entry st (c : BatchCounts) slot (creates : bool) ops : ProcState E K * BatchCounts :=
  let st := write_id st slot creates ops in
  match (if creates then get_future_schedule meta now ops else None) with
  | Some da_secs => (write_docs (emit st [DeferredAlive slot da_secs]) slot (created_writes meta ops), add_applied c 1)
  | None =>
      let '(st, c) := foldl query_op (st, c) ops in
      (apply_fields st slot creates ops, if existsb is_field_op ops then add_applied c 1 else c)
  end.

Definition apply_entry (sc : ProcState E K * BatchCounts) (entry : EntityOps) : ProcState E K * BatchCounts :=
  let '(st, c) := sc in
  let id := entity_id entry in
  let ops := eo_ops entry in
  if ((id <? 0) || (4294967295 <? id))%Z then (st, add_skipped c)
  else
    let slot := Z.to_N id in
    if existsb is_delete ops then
      match process_delete st slot with
      | (true, st) => (match FieldMeta.deferred_alive_field meta with Some _ => emit st [DeferredCancel slot] | None => st end, add_applied c 1)
      | (false, st) => (st, add_error c)
      end
    else match gate_entry st entry slot with
         | Proceed creates => proceed_entry st c slot creates ops
         | WhileDeferred =>
             let st := write_docs st slot (deferred_writes meta (bool_decide (is_Some (get_future_schedule meta now ops))) ops) in
             (match rescheduled meta now ops with Some at_ => emit st [DeferredAlive slot at_] | None => st end, add_applied c 1)
         | Rearm at_ => (emit (write_docs st slot (deferred_writes meta true ops)) [DeferredAlive slot at_], add_applied c 1)
         | SkipKnown => (st, add_skipped c)
         | SkipDeleted => (remember_confirmed_deleted st slot, add_skipped c)
         end.

(** Fan-outs go last: a stable sort by whether an entry has one. *)
Definition fanouts_last (batch : list EntityOps) : list EntityOps :=
  filter (fun en => has_query_op_set (eo_ops en) = false) batch ++ filter (fun en => has_query_op_set (eo_ops en) = true) batch.

Definition no_counts : BatchCounts := MkBatchCounts 0 0 0 false false.

Definition apply_ops_batch st (batch : list EntityOps) : (N * N * N) * ProcState E K :=
  let '(st, c) := foldl apply_entry (st, no_counts) (fanouts_last (dedup_ops batch)) in
  let '(ok, st) := flush_sink st in
  let c := if ok : bool then c else add_error c in
  ((applied c, skipped c, errors c), flush_docs st).

End batch.

(** ** The overdue sweep *)

Section sweep.
Context {B E K : Type} `{!RoaringOps B, JT : JsonText, CK : Checksum, MP : MsgPack, EO : !EngineOps B E, BS : !BitmapSink K}.
Context (now : N) (meta : FieldMeta.t).
Implicit Types (st : ProcState E K).

(** The stored timestamp of a candidate, in seconds, when it is past. *)
Definition overdue_secs (e : E) (source_field : string) (ms_to_secs : bool) (slot : N) : option Z :=
  doc ← default None (get_document e slot);
  match sd_fields doc !! source_field with
  | Some (Single v) =>
      raw ← match v with Integer i => Some i | _ => Z.of_N <$> value_to_sort_u32 v end;
      let secs := to_secs ms_to_secs raw in
      if ((secs <=? 0) || (Z.of_N now <? secs))%Z then None else Some secs
  | _ => None
  end.

Definition sweep_slot (source_field : string) (ms_to_secs : bool) (sh : ProcState E K * (N * list N)) (slot : N) : ProcState E K * (N * list N) :=
  let '(st, (checked, healed)) := sh in
  if u32_max <? slot then sh
  else match overdue_secs (p_engine st) source_field ms_to_secs slot with
       | Some secs => (recompute_slot true now meta st slot {[source_field := i64_as_u32 secs]} ∅, (checked + 1, healed ++ [slot]))
       | None => (st, (checked + 1, healed))
       end.

(** The page query for candidates: shadow false, most recent first. *)
Definition sweep_query (shadow sort_field : string) (page_size : N) (cursor : option CursorPosition) : BitdexQuery B :=
  MkBitdexQuery [Eq shadow (Bool false)] (Some (MkSortClause sort_field Desc)) page_size cursor None true.

(** The paging loop; [None] when the fuel runs out. *)
Fixpoint sweep_loop (fuel : nat) (source_field : string) (ms_to_secs : bool) (shadow sort_field : string) (page_size limit : N)
    (sh : ProcState E K * (N * list N)) (cursor : option CursorPosition) : option (ProcState E K * (N * list N) * option CursorPosition) :=
  match fuel with
  | O => None
  | S fuel =>
      if limit <=? sh.2.1 then Some (sh, cursor)
      else match execute_query (p_engine sh.1) (sweep_query shadow sort_field page_size cursor) with
           | None => Some (sh, cursor)
           | Some result =>
               match qr_ids result with
               | [] => Some (sh, None)
               | ids =>
                   let sh := foldl (sweep_slot source_field ms_to_secs) sh ids in
                   match qr_cursor result with
                   | None => Some (sh, None)
                   | next => if N.of_nat (length ids) <? page_size then Some (sh, None)
                             else sweep_loop fuel source_field ms_to_secs shadow sort_field page_size limit sh next
                   end
               end
           end
  end.

(** Every round that continues checks at least one candidate, so [limit] rounds and one
    more are enough. *)
Definition overdue_deferred_sweep st (limit : N) (resume : option CursorPosition) : option (ProcState E K * (N * list N) * option CursorPosition) :=
  match FieldMeta.deferred_alive_field meta with
  | None => Some ((st, (0, [])), None)
  | Some (source_field, ms_to_secs) =>
      match FieldMeta.exists_boolean_shadows meta !! source_field ≫= head with
      | None => Some ((st, (0, [])), None)
      | Some shadow =>
          let sort_field := from_option csi_target source_field (FieldMeta.computed_deps meta !! source_field ≫= head) in
          let page_size := N.max 1 (N.min (cfg_max_page_size (engine_config (p_engine st))) limit) in
          sweep_loop (S (N.to_nat limit)) source_field ms_to_secs shadow sort_field page_size limit (st, (0, [])) resume
      end
  end.
End sweep.

(** ** The activation verifier *)

Inductive OrphanVerdict : Type := PublishLag | Inconclusive | NonApply | Revert.

Definition classify (barrier_ok reread_present has_recent_removes : bool) : OrphanVerdict :=
  match barrier_ok, reread_present, has_recent_removes with
  | _, true, _ => PublishLag
  | false, false, _ => Inconclusive
  | true, false, false => NonApply
  | true, false, true => Revert
  end.

Definition redrives (v : OrphanVerdict) : bool := match v with PublishLag => false | _ => true end.
Definition is_confirmed_drop (v : OrphanVerdict) : bool := match v with NonApply | Revert => true | _ => false end.

Record VerifyOutcome : Type := MkVerifyOutcome { vo_checked : N; vo_redriven : N; vo_publish_lag : N; vo_inconclusive : N }.

Section verify.
Context {B E : Type} `{!RoaringOps B, JT : JsonText, CK : Checksum, MP : MsgPack, EO : !EngineOps B E}.
Context (now : N).

(** The state of the pass: engine, counters and the slots to check again. *)
Notation pass := (E * VerifyOutcome * list N)%type.

Definition member_query (field : string) (pid : Z) : BitdexQuery B := MkBitdexQuery [Eq field (Integer pid)] None MAX_LIMIT None None true.

Definition member_of (e : E) (field : string) (pid : Z) (slot : N) : option bool :=
  (fun r => bool_decide (slot ∈ qr_ids r)) <$> execute_query e (member_query field pid).

(** Replay the stored document, and write the shadows it implies into it. *)
Definition redrive (e : E) (slot : N) (doc : StoredDoc) : E :=
  let config := engine_config e in
  let e := foldl (fun e op => (send_batch e [op]).2) e (diff_document slot None (MkDocument (sd_fields doc)) config false now) in
  let derived := derive_exists_boolean_shadows config (sd_fields doc) in
  let e :=
    match derived with
    | [] => e
    | _ =>
        let '(dw, d) := foldl (fun '(dw, d) '(name, val) => DocWriter.write_set dw d slot name (JBool val)) (DocWriter.new (docstore_arc e), docstore_arc e) derived in
        with_docstore e (DocWriter.flush dw d).2
    end in
  evict_doc_cache e slot.

Definition verify_slot (verify_field : string) (p : pass) (slot : N) : pass :=
  let '(e, o, requeue) := p in
  match get_document e slot with
  | None => (e, o, requeue ++ [slot])
  | Some None => p
  | Some (Some doc) =>
      if negb (is_slot_alive e slot) then p
      else match sd_fields doc !! verify_field with
           | Some (Single (Integer pid)) =>
               let o := MkVerifyOutcome (vo_checked o + 1) (vo_redriven o) (vo_publish_lag o) (vo_inconclusive o) in
               match member_of e verify_field pid slot with
               | None => (e, o, requeue ++ [slot])
               | Some true => (e, o, requeue)
               | Some false =>
                   let '(barrier_ok, e) := force_publish_blocking e in
                   match member_of e verify_field pid slot with
                   | None => (e, o, requeue ++ [slot])
                   | Some present =>
                       let verdict := classify barrier_ok present (recent_removes_for_slot e slot) in
                       if negb (redrives verdict) then (e, MkVerifyOutcome (vo_checked o) (vo_redriven o) (vo_publish_lag o + 1) (vo_inconclusive o), requeue)
                       else
                         (redrive e slot doc,
                          if is_confirmed_drop verdict then MkVerifyOutcome (vo_checked o) (vo_redriven o + 1) (vo_publish_lag o) (vo_inconclusive o)
                          else MkVerifyOutcome (vo_checked o) (vo_redriven o) (vo_publish_lag o) (vo_inconclusive o + 1),
                          requeue)
                   end
               end
           | _ => p
           end
  end.

Definition verify_recent_activations (e : E) (limit : N) : VerifyOutcome * E :=
  let none := MkVerifyOutcome 0 0 0 0 in
  match membership_field e with
  | Some verify_field =>
      if negb (bool_decide (verify_field = ""%string)) && existsb (fun f => bool_decide (ff_name f = verify_field)) (filter_fields (engine_config e)) then
        match drain_activation_verify e limit with
        | ([], e) => (none, e)
        | (slots, e) =>
            let '(e, o, requeue) := foldl (verify_slot verify_field) (e, none, []) slots in
            (o, match requeue with [] => e | _ => requeue_activation_verify e requeue end)
        end
      else (none, e)
  | None => (none, e)
  end.
End verify.

(** ** Dump mode *)

Section dump.
Context {B E : Type} `{!RoaringOps B, JT : JsonText, CK : Checksum, MP : MsgPack, EO : !EngineOps B E}.
Context (to_lowercase : string -> string) (now : N).

Definition apply_ops_batch_dump (meta : FieldMeta.t) (st : ProcState E (BitmapAccum B)) (batch : list EntityOps) : (N * N * N) * ProcState E (BitmapAccum B) :=
  apply_ops_batch to_lowercase 0 false now meta st batch.

(** [apply_accum] of the engine on its bitmaps: everything accumulated is united in. *)
Definition accum_into_index (ix : IndexState B) (a : BitmapAccum B) : IndexState B :=
  let ix := map_fold (fun field m ix =>
      match ix_filters ix !! field with
      | Some f => MkIndexState (ix_slots ix) (<[field := map_fold (fun v b f => FilterField.or_bitmap f v b) f m]> (ix_filters ix)) (ix_sorts ix)
      | None => ix
      end) ix (ba_filter_maps a) in
  let ix := map_fold (fun field m ix =>
      match ix_sorts ix !! field with
      | Some sf => MkIndexState (ix_slots ix) (ix_filters ix) (<[field := map_fold (fun bit b sf => SortField.or_layer sf bit b) sf m]> (ix_sorts ix))
      | None => ix
      end) ix (ba_sort_maps a) in
  MkIndexState (SlotAllocator.alive_or_bitmap (ix_slots ix) (ba_alive a)) (ix_filters ix) (ix_sorts ix).

End dump.

(** ** The legacy cursor *)

Definition save_legacy_cursor (cursor : N) : string := print_dec cursor.
Definition load_legacy_cursor (file : option string) : N := default 0 (file ≫= fun s => parse_dec u64_max (str_trim s)).
