(* ===== verification/OpsProcessorTheorems.v ===== *)
(** * The operation processor: properties

    What the bitmap operations of a sync operation do once they are applied as one batch:
    sets are exact, scheduled slots stay hidden, computed sort fields are recomputed from
    current values; and where removes and sets of one batch interfere. *)

From S2P Require Import SortTheorems FilterFacts ShardStoreTheorems DocShardsTheorems.
From S2P Require Import Prelude Roaring Versioned Slot Config Sort SortFacts Filter Float64 Query Dictionary Coalescer IndexFacts CoalescerTheorems Mutation Ops Bytes Encoding OpsWal ShardStore ShardBitmap DocShards Text OpsProcessor.
Local Open Scope bitdex_scope.

(** ** Selecting operations *)

Lemma elem_fi f v x ops : x ∈ all_of (sel_fi f v) ops <-> exists l, FilterInsert f v l ∈ ops /\ x ∈ l.
Proof.
  rewrite elem_of_all_of. split.
  - intros (o & Ho & Hx). destruct o; cbn in Hx; try by apply not_elem_of_nil in Hx. destruct (decide _) as [[= -> ->]|]; [by eexists|by apply not_elem_of_nil in Hx].
  - intros (l & Ho & Hx). eexists. split; [done|]. cbn. by rewrite decide_True.
Qed.

Lemma elem_fr f v x ops : x ∈ all_of (sel_fr f v) ops <-> exists l, FilterRemove f v l ∈ ops /\ x ∈ l.
Proof.
  rewrite elem_of_all_of. split.
  - intros (o & Ho & Hx). destruct o; cbn in Hx; try by apply not_elem_of_nil in Hx. destruct (decide _) as [[= -> ->]|]; [by eexists|by apply not_elem_of_nil in Hx].
  - intros (l & Ho & Hx). eexists. split; [done|]. cbn. by rewrite decide_True.
Qed.

Lemma elem_ss f i x ops : x ∈ all_of (sel_ss f i) ops <-> exists l, SortSet f i l ∈ ops /\ x ∈ l.
Proof.
  rewrite elem_of_all_of. split.
  - intros (o & Ho & Hx). destruct o; cbn in Hx; try by apply not_elem_of_nil in Hx. destruct (decide _) as [[= -> ->]|]; [by eexists|by apply not_elem_of_nil in Hx].
  - intros (l & Ho & Hx). eexists. split; [done|]. cbn. by rewrite decide_True.
Qed.

Lemma elem_sc f i x ops : x ∈ all_of (sel_sc f i) ops <-> exists l, SortClear f i l ∈ ops /\ x ∈ l.
Proof.
  rewrite elem_of_all_of. split.
  - intros (o & Ho & Hx). destruct o; cbn in Hx; try by apply not_elem_of_nil in Hx. destruct (decide _) as [[= -> ->]|]; [by eexists|by apply not_elem_of_nil in Hx].
  - intros (l & Ho & Hx). eexists. split; [done|]. cbn. by rewrite decide_True.
Qed.

(** *** What the pieces of a translation contain *)

Lemma in_overwrite o f bits v s : o ∈ overwrite_ops f bits v s <->
  exists i, (i < bits)%nat /\ o = (if bit_set v i then SortSet f i [s] else SortClear f i [s]).
Proof.
  unfold overwrite_ops. rewrite list_elem_of_fmap. split.
  - intros (i & -> & Hi). apply elem_of_seq in Hi. exists i. split; [lia|done].
  - intros (i & Hi & ->). exists i. split; [done|]. apply elem_of_seq. lia.
Qed.

Lemma in_set_bits o f bits v s : o ∈ set_bits_ops f bits v s <-> exists i, (i < bits)%nat /\ bit_set v i = true /\ o = SortSet f i [s].
Proof.
  unfold set_bits_ops. rewrite list_elem_of_omap. split.
  - intros (i & Hi & E). apply elem_of_seq in Hi. destruct (bit_set v i) eqn:Eb; [|done]. injection E as <-. exists i. split_and!; [lia|done|done].
  - intros (i & Hi & Hb & ->). exists i. rewrite Hb. split; [apply elem_of_seq; lia|done].
Qed.

Lemma in_clear_bits o f bits v s : o ∈ clear_bits_ops f bits v s <-> exists i, (i < bits)%nat /\ bit_set v i = true /\ o = SortClear f i [s].
Proof.
  unfold clear_bits_ops. rewrite list_elem_of_omap. split.
  - intros (i & Hi & E). apply elem_of_seq in Hi. destruct (bit_set v i) eqn:Eb; [|done]. injection E as <-. exists i. split_and!; [lia|done|done].
  - intros (i & Hi & Hb & ->). exists i. rewrite Hb. split; [apply elem_of_seq; lia|done].
Qed.

Definition shadows_of (meta : FieldMeta.t) (f : string) : list string := default [] (FieldMeta.exists_boolean_shadows meta !! f).

Lemma in_shadow meta o f key s : o ∈ flip_shadow_ops meta f key s <->
  exists t, t ∈ shadows_of meta f /\ (o = FilterRemove t (1 - key) [s] \/ o = FilterInsert t key [s]).
Proof.
  unfold flip_shadow_ops. rewrite list_elem_of_join. setoid_rewrite list_elem_of_fmap. split.
  - intros (l & Ho & t & -> & Ht). exists t. split; [done|]. apply elem_of_cons in Ho as [->|Ho]; [by left|]. apply list_elem_of_singleton in Ho as ->. by right.
  - intros (t & Ht & [-> | ->]); (eexists; split; [|by exists t]); rewrite elem_of_cons, list_elem_of_singleton; tauto.
Qed.

(** Nothing in [ops] is about a filter value, a sort layer, or the slots of other rows. *)
Definition about_slot (s : N) (o : MutationOp) : Prop :=
  match o with
  | FilterInsert _ _ l | FilterRemove _ _ l | SortSet _ _ l | SortClear _ _ l | AliveInsert l | AliveRemove l => l = [s]
  | DeferredAlive x _ | DeferredCancel x => x = s
  end.

(** ** Sort values of a state *)

Section values.
Context {B : Type} `{HB : Roaring B}.
Implicit Types (st : IndexState B) (f : string) (s x v : N).

Definition value_in st f x : option N := (fun sf => SortField.reconstruct_value sf x) <$> ix_sorts st !! f.

Lemma sbit_at st f sf i x : ix_sorts st !! f = Some sf -> sbit st f i x <-> layer_has sf i x.
Proof. intros H. unfold sbit. rewrite H. split; [by intros (? & [= <-] & Hx)|by eexists]. Qed.

Lemma value_in_bits st f n x v : layers_of st f = Some n -> (n <= 32)%nat ->
  (forall i, (i < n)%nat -> sbit st f i x <-> bit_set v i = true) -> value_in st f x = Some (v mod 2 ^ N.of_nat n).
Proof.
  unfold layers_of, value_in. intros Hn H32 Hb. apply fmap_Some in Hn as (sf & Hsf & Hn). rewrite Hsf. cbn. f_equal. subst n.
  apply N.bits_inj. intros j. apply eq_true_iff_eq. rewrite reconstruct_testbit by done. destruct (decide (j < N.of_nat (SortField.num_bits sf))) as [Hj|Hj].
  - rewrite N.mod_pow2_bits_low by done. assert (N.testbit v j = bit_set v (N.to_nat j)) as ->. { rewrite bit_set_testbit by lia. by rewrite N2Nat.id. }
    rewrite <- Hb by lia. rewrite (sbit_at _ _ sf) by done. split.
    + intros (i & -> & Hi & Hx). by rewrite Nat2N.id.
    + intros Hx. exists (N.to_nat j). split_and!; [lia|lia|done].
  - rewrite N.mod_pow2_bits_high by lia. split; [|done]. intros (i & -> & Hi & _). lia.
Qed.

Lemma bits_of_value st f n x v i : layers_of st f = Some n -> (n <= 32)%nat -> value_in st f x = Some v -> (i < n)%nat ->
  sbit st f i x <-> bit_set v i = true.
Proof.
  unfold layers_of, value_in. intros Hn H32 Hv Hi. apply fmap_Some in Hn as (sf & Hsf & Hn). rewrite Hsf in Hv. cbn in Hv. injection Hv as <-. subst n.
  rewrite (sbit_at _ _ sf), bit_set_testbit, reconstruct_testbit by (done || lia). split.
  - intros Hx. by exists i.
  - intros (j & ->%Nat2N.inj & _ & Hx). done.
Qed.

(** A state after a batch of operations. *)
Definition after st (ops : list MutationOp) : IndexState B := WriteBatch.apply (grouped ops) st.

Lemma after_effect st ops : state_wf st -> batch_effect ops st (after st ops).
Proof. apply grouped_apply_effect. Qed.

Lemma layers_after st ops f : state_wf st -> layers_of (after st ops) f = layers_of st f.
Proof. intros Hw. apply (be_fields _ _ _ (after_effect st ops Hw)). Qed.

(** Overwriting every layer is exact, whatever clears go with it. *)
Lemma overwrite_exact st ops f n s v : state_wf st -> layers_of st f = Some n -> (n <= 32)%nat ->
  (forall o, o ∈ overwrite_ops f n v s -> o ∈ ops) ->
  (forall i l, SortSet f i l ∈ ops -> s ∈ l -> bit_set v i = true) ->
  value_in (after st ops) f s = Some (v mod 2 ^ N.of_nat n).
Proof.
  intros Hw Hn H32 Hin Hsets. apply value_in_bits; [by rewrite layers_after|done|]. intros i Hi.
  rewrite (be_sort _ _ _ (after_effect st ops Hw)), elem_ss, elem_sc. split.
  - intros [[_ (l & Ho & Hl)]|[_ Hno]]; [by eapply Hsets|]. destruct (bit_set v i) eqn:Eb; [done|]. exfalso. apply Hno. exists [s]. split; [|by left].
    apply Hin, in_overwrite. exists i. by rewrite Eb.
  - intros Hb. left. split; [by exists n|]. exists [s]. split; [|by left]. apply Hin, in_overwrite. exists i. by rewrite Hb.
Qed.

(** A field no sort operation for the slot touches keeps its value. *)
Lemma untouched_value st ops f n s v : state_wf st -> layers_of st f = Some n -> (n <= 32)%nat -> value_in st f s = Some v ->
  (forall i l, (SortSet f i l ∈ ops \/ SortClear f i l ∈ ops) -> s ∉ l) -> value_in (after st ops) f s = Some (v mod 2 ^ N.of_nat n).
Proof.
  intros Hw Hn H32 Hv Hno. apply value_in_bits; [by rewrite layers_after|done|]. intros i Hi. rewrite <- (bits_of_value st f n s v i) by done.
  rewrite (be_sort _ _ _ (after_effect st ops Hw)), elem_ss, elem_sc. split.
  - intros [[_ (l & Ho & Hl)]|[H _]]; [exfalso; by apply (Hno i l (or_introl Ho))|done].
  - intros H. right. split; [done|]. intros (l & Ho & Hl). by apply (Hno i l (or_intror Ho)).
Qed.

Lemma fhas_after st ops f k x : state_wf st -> fhas (after st ops) f k x <->
  (is_Some (ix_filters st !! f) /\ exists l, FilterInsert f k l ∈ ops /\ x ∈ l) \/ (fhas st f k x /\ ~ exists l, FilterRemove f k l ∈ ops /\ x ∈ l).
Proof. intros Hw. by rewrite (be_filter _ _ _ (after_effect st ops Hw)), elem_fi, elem_fr. Qed.

End values.

(** ** Single operations *)

(** What the processor relies on: dictionaries and documents are apart from bitmaps. *)
Class EngineLaws (B E : Type) `{EO : !EngineOps B E} : Prop := {
  reconstruct_dictionaries : forall e d f s, reconstruct_sort_value (with_dictionaries e d) f s = reconstruct_sort_value e f s;
  document_dictionaries : forall e d s, get_document (with_dictionaries e d) s = get_document e s;
  reconstruct_docstore : forall e d f s, reconstruct_sort_value (with_docstore e d) f s = reconstruct_sort_value e f s;
  docstore_same : forall e, with_docstore e (docstore_arc e) = e;
}.

Section single.
Context {B E : Type} `{HB : Roaring B, JT : JsonText, EO : !EngineOps B E, EL : !EngineLaws B E}.
Context (to_lowercase : string -> string) (meta : FieldMeta.t).
Implicit Types (e : E) (st : IndexState B) (f : string) (s x : N) (value : JsonValue).

Notation resolve := (resolve_filter_key to_lowercase).
Notation set_op := (process_set_op to_lowercase).

(** The engine reads the bitmaps [st]. *)
Definition publishes e st : Prop := forall f s, reconstruct_sort_value e f s = value_in st f s.

Lemma resolve_publishes lv e st q f b : publishes e st -> publishes (resolve lv e q f b).2 st.
Proof.
  intros H. unfold resolve_filter_key. repeat case_match; simplify_eq; try done. intros g s0. cbn. by rewrite reconstruct_dictionaries.
Qed.

Lemma set_filter_publishes lv e st s f value : publishes e st -> publishes (set_filter_ops to_lowercase lv meta e s f value).2 st.
Proof.
  intros H. unfold set_filter_ops. destruct (FieldMeta.filter_fields meta !! f); [|done]. destruct (json_is_null value && is_nullable meta f); [done|].
  pose proof (resolve_publishes lv e st (json_to_qvalue value) f true H) as Hr. by destruct (resolve lv e (json_to_qvalue value) f true).
Qed.

(** The filter operations of a set are about its own field. *)
Lemma in_set_filter lv e s f value o : o ∈ (set_filter_ops to_lowercase lv meta e s f value).1 ->
  exists k, o = FilterInsert f k [s] \/ o = FilterRemove f k [s] /\ k = NULL_BITMAP_KEY.
Proof.
  unfold set_filter_ops. destruct (FieldMeta.filter_fields meta !! f); [|by intros ?%not_elem_of_nil]. destruct (json_is_null value && is_nullable meta f).
  { intros ->%list_elem_of_singleton. eexists. by left. }
  destruct (resolve lv e (json_to_qvalue value) f true) as [k e']. cbn [fst]. rewrite elem_of_app. intros [H|H].
  - case_match; [apply list_elem_of_singleton in H as ->; eexists; by right|by apply not_elem_of_nil in H].
  - destruct k; cbn in H; [apply list_elem_of_singleton in H as ->; eexists; by left|by apply not_elem_of_nil in H].
Qed.

Lemma in_set_sort lv e s f value o : o ∈ set_sort_ops lv meta e s f value ->
  exists n v, FieldMeta.sort_fields meta !! f = Some n /\ value_to_sort_u32 (json_to_qvalue value) = Some v
    /\ unchanged_sort lv e f s v = false /\ o ∈ overwrite_ops f n v s.
Proof. unfold set_sort_ops. repeat case_match; try (by intros ?%not_elem_of_nil). intros H'. by eexists _, _. Qed.

Lemma set_op_split lv e s f value : (set_op lv meta e s f value).1
  = (set_filter_ops to_lowercase lv meta e s f value).1 ++ set_sort_ops lv meta (set_filter_ops to_lowercase lv meta e s f value).2 s f value
    ++ flip_shadow_ops meta f (if json_is_null value then 0 else 1) s.
Proof. unfold process_set_op. by destruct (set_filter_ops _ _ _ _ _ _ _). Qed.

(** The sort value a field has when the engine publishes [st]. *)
Lemma unchanged_value lv e st f s v : publishes e st -> unchanged_sort lv e f s v = true -> value_in st f s = Some v.
Proof. intros Hp H. unfold unchanged_sort, published_sort in H. apply bool_decide_eq_true in H. destruct lv; [|done]. by rewrite <- Hp. Qed.

Lemma no_sort_in_filters lv e s f value g i l : ~ (SortSet g i l ∈ (set_filter_ops to_lowercase lv meta e s f value).1 \/ SortClear g i l ∈ (set_filter_ops to_lowercase lv meta e s f value).1).
Proof. intros [H|H]; apply in_set_filter in H as (k & [? | [? ?]]); done. Qed.

Lemma no_sort_in_shadows f key s g i l : ~ (SortSet g i l ∈ flip_shadow_ops meta f key s \/ SortClear g i l ∈ flip_shadow_ops meta f key s).
Proof. intros [H|H]; apply in_shadow in H as (t & _ & [? | ?]); done. Qed.

(** The sort part of a set. *)
Lemma set_op_sort lv e st s f value n v : state_wf st -> publishes e st -> FieldMeta.sort_fields meta !! f = Some n -> layers_of st f = Some n -> (n <= 32)%nat ->
  value_to_sort_u32 (json_to_qvalue value) = Some v -> value_in (after st (set_op lv meta e s f value).1) f s = Some (v mod 2 ^ N.of_nat n).
Proof.
  intros Hw Hp Hs Hn H32 Hv. rewrite set_op_split. set (e' := (set_filter_ops to_lowercase lv meta e s f value).2).
  assert (publishes e' st) as Hp' by (by apply set_filter_publishes). unfold set_sort_ops. rewrite Hs, Hv.
  destruct (unchanged_sort lv e' f s v) eqn:Eu.
  - apply (untouched_value st _ f n s v Hw Hn H32 (unchanged_value lv e' st f s v Hp' Eu)). intros i l Hin _. rewrite !elem_of_app in Hin.
    destruct Hin as [[H|[H|H]]|[H|[H|H]]]; try (by apply not_elem_of_nil in H);
      solve [apply (no_sort_in_filters lv e s f value f i l); tauto|eapply (no_sort_in_shadows f _ s f i l); eauto].
  - apply overwrite_exact; [done|done|done| |].
    + intros o Ho. rewrite !elem_of_app. tauto.
    + intros i l Ho Hl. rewrite !elem_of_app in Ho. destruct Ho as [H|[H|H]].
      * exfalso. apply (no_sort_in_filters lv e s f value f i l). tauto.
      * apply in_overwrite in H as (j & Hj & Ho). destruct (bit_set v j) eqn:Eb; [|done]. by injection Ho as -> ->.
      * exfalso. eapply (no_sort_in_shadows f _ s f i l). eauto.
Qed.

(** The filter part of a set. *)
Lemma set_op_filter lv e st s f value : state_wf st -> f ∉ shadows_of meta f -> is_Some (FieldMeta.filter_fields meta !! f) -> is_Some (ix_filters st !! f) ->
  let st' := after st (set_op lv meta e s f value).1 in
  if json_is_null value && is_nullable meta f then fhas st' f NULL_BITMAP_KEY s
  else forall k, (resolve lv e (json_to_qvalue value) f true).1 = Some k -> fhas st' f k s /\ (is_nullable meta f = true -> k <> NULL_BITMAP_KEY -> ~ fhas st' f NULL_BITMAP_KEY s).
Proof.
  intros Hw Hsh [ty Hf] Hix st'. unfold st'. rewrite set_op_split.
  assert (forall k key, ~ FilterInsert f k [s] ∈ flip_shadow_ops meta f key s) as Hno by (intros k key H; apply in_shadow in H as (t & Ht & [?|[= -> _]]); done).
  assert (forall k l e', ~ FilterInsert f k l ∈ set_sort_ops lv meta e' s f value) as Hns.
  { intros k l e' (n & v & _ & _ & _ & H)%in_set_sort. apply in_overwrite in H as (i & _ & H). by destruct (bit_set v i). }
  unfold set_filter_ops. rewrite Hf. destruct (json_is_null value && is_nullable meta f).
  { rewrite fhas_after by done. left. split; [done|]. exists [s]. cbn [fst]. rewrite !elem_of_app, list_elem_of_singleton. split; [by left|by left]. }
  intros k Hk. destruct (resolve lv e (json_to_qvalue value) f true) as [k' e'] eqn:Er. cbn [fst snd] in *. subst k'. cbn [from_option]. split.
  - rewrite fhas_after by done. left. split; [done|]. exists [s]. rewrite !elem_of_app, list_elem_of_singleton. split; [left; by right|by left].
  - intros Hnu Hne. rewrite fhas_after by done. rewrite Hnu. intros [[_ (l & Hin & Hl)]|[_ H]].
    + rewrite !elem_of_app, !list_elem_of_singleton in Hin. destruct Hin as [[H|[= E1 _]]|[H|H]]; [done|done|by eapply Hns|].
      apply in_shadow in H as (t & Ht & [?|[= -> _]]); done.
    + apply H. exists [s]. rewrite !elem_of_app, !list_elem_of_singleton. split; [left; by left|done].
Qed.

(** The shadows of a set. *)
Lemma set_op_shadow lv e st s f value t : state_wf st -> f ∉ shadows_of meta f -> t ∈ shadows_of meta f -> is_Some (ix_filters st !! t) ->
  let key := if json_is_null value then 0 else 1 in let st' := after st (set_op lv meta e s f value).1 in fhas st' t key s /\ ~ fhas st' t (1 - key) s.
Proof.
  intros Hw Hsh Ht Hix key st'. unfold st'. rewrite set_op_split. fold key. split.
  - rewrite fhas_after by done. left. split; [done|]. exists [s]. rewrite !elem_of_app. split; [|by left]. do 2 right. apply in_shadow. exists t. split; [done|by right].
  - rewrite fhas_after by done. intros [[_ (l & Hin & Hl)]|[_ H]].
    + rewrite !elem_of_app in Hin. destruct Hin as [H|[H|H]].
      * apply in_set_filter in H as (k & [[= -> _ _]|[? _]]); done.
      * apply in_set_sort in H as (n & v & _ & _ & _ & H). apply in_overwrite in H as (i & _ & H). by destruct (bit_set v i).
      * apply in_shadow in H as (t' & _ & [?|[= _ E1 _]]); [done|]. unfold key in E1. destruct (json_is_null value); cbn in E1; lia.
    + apply H. exists [s]. rewrite !elem_of_app. split; [|by left]. do 2 right. apply in_shadow. exists t. split; [done|by left].
Qed.

(** Rows of other slots are left alone. *)
Lemma about_other st ops s x : state_wf st -> Forall (about_slot s) ops -> x <> s ->
  (forall g k, fhas (after st ops) g k x <-> fhas st g k x) /\ forall g i, sbit (after st ops) g i x <-> sbit st g i x.
Proof.
  intros Hw Ha Hx. rewrite Forall_forall in Ha. split; intros g k.
  - rewrite fhas_after by done. split; [intros [[_ (l & Hin & Hl)]|[H _]]; [|done]|intros H; right; split; [done|]; intros (l & Hin & Hl)];
      apply Ha in Hin; cbn in Hin; subst l; by apply list_elem_of_singleton in Hl.
  - rewrite (be_sort _ _ _ (after_effect st ops Hw)), elem_ss, elem_sc.
    split; [intros [[_ (l & Hin & Hl)]|[H _]]; [|done]|intros H; right; split; [done|]; intros (l & Hin & Hl)];
      apply Ha in Hin; cbn in Hin; subst l; by apply list_elem_of_singleton in Hl.
Qed.

Lemma set_op_about lv e s f value : Forall (about_slot s) (set_op lv meta e s f value).1.
Proof.
  apply Forall_forall. intros o. rewrite set_op_split, !elem_of_app. intros [H|[H|H]].
  - by apply in_set_filter in H as (k & [-> | [-> _]]).
  - apply in_set_sort in H as (n & v & _ & _ & _ & H). apply in_overwrite in H as (i & _ & ->). by destruct (bit_set v i).
  - by apply in_shadow in H as (t & _ & [-> | ->]).
Qed.

(** C6: a set operation is exact when the engine publishes the state the batch is applied
    to (operations of earlier batches that are flushed but not yet published, which the
    comment near ops_processor.rs:1715 admits, are excluded). Applied as a batch: for a
    sort field of at most 32 layers the slot's value becomes the new value reduced to the
    layers, whatever it was before, also when it is the published one and the overwrite is
    skipped; in a filter field the slot gains the key of the value, or the null key when
    the value is null and the field nullable, and a nullable field loses the null key on a
    non-null value whose key is another one; every existence shadow of the field holds the
    slot under present or absent as the value is, and not under the other; the sort bits
    and filter keys of the other slots do not change. The field is not its own shadow. *)
Theorem set_op_exact e st s f value :
  state_wf st -> publishes e st -> f ∉ shadows_of meta f ->
  let st' := after st (set_op true meta e s f value).1 in
  (forall n v, FieldMeta.sort_fields meta !! f = Some n -> layers_of st f = Some n -> (n <= 32)%nat -> value_to_sort_u32 (json_to_qvalue value) = Some v ->
     value_in st' f s = Some (v mod 2 ^ N.of_nat n))
  /\ (is_Some (FieldMeta.filter_fields meta !! f) -> is_Some (ix_filters st !! f) ->
     if json_is_null value && is_nullable meta f then fhas st' f NULL_BITMAP_KEY s
     else forall k, (resolve true e (json_to_qvalue value) f true).1 = Some k ->
       fhas st' f k s /\ (is_nullable meta f = true -> k <> NULL_BITMAP_KEY -> ~ fhas st' f NULL_BITMAP_KEY s))
  /\ (forall t, t ∈ shadows_of meta f -> is_Some (ix_filters st !! t) ->
     let key := if json_is_null value then 0 else 1 in fhas st' t key s /\ ~ fhas st' t (1 - key) s)
  /\ forall x, x <> s -> (forall g k, fhas st' g k x <-> fhas st g k x) /\ forall g i, sbit st' g i x <-> sbit st g i x.
Proof.
  intros Hw Hp Hsh st'. split_and!.
  - intros n v. by apply set_op_sort.
  - by apply set_op_filter.
  - intros t Ht Hix. by apply set_op_shadow.
  - intros x Hx. apply (about_other st _ s x Hw); [apply set_op_about|done].
Qed.

End single.

(** ** Removes and sets in one batch *)

Section pairs.
Context {B E : Type} `{HB : Roaring B, JT : JsonText, EO : !EngineOps B E, EL : !EngineLaws B E}.
Context (to_lowercase : string -> string) (meta : FieldMeta.t).
Implicit Types (e : E) (st : IndexState B) (f : string) (s x : N) (value : JsonValue).

Notation ops_of lv e s ops := (process_ops to_lowercase lv meta e s ops).1.1.

Lemma pair_ops lv e s f old new : ops_of lv e s [OpRemove f old; OpSet f new] =
  process_remove_op to_lowercase lv meta e s f old ++ (process_set_op to_lowercase lv meta e s f new).1.
Proof.
  cbn [process_ops process_op]. destruct (process_set_op to_lowercase lv meta e s f new) as [ms e'] eqn:E1. cbn [fst snd]. by rewrite app_nil_r.
Qed.

Lemma in_remove lv e s f value o : o ∈ process_remove_op to_lowercase lv meta e s f value <->
  (exists k, o = FilterRemove f k [s] /\ is_Some (FieldMeta.filter_fields meta !! f)
     /\ (if json_is_null value && is_nullable meta f then k = NULL_BITMAP_KEY else (resolve_filter_key to_lowercase lv e (json_to_qvalue value) f false).1 = Some k))
  \/ (exists n v, FieldMeta.sort_fields meta !! f = Some n /\ value_to_sort_u32 (json_to_qvalue value) = Some v /\ o ∈ clear_bits_ops f n v s)
  \/ o ∈ flip_shadow_ops meta f 0 s.
Proof.
  unfold process_remove_op. rewrite !elem_of_app. split.
  - intros [H|[H|H]]; [left|right; left|by right; right].
    + destruct (FieldMeta.filter_fields meta !! f) eqn:Ef; [|by apply not_elem_of_nil in H]. destruct (json_is_null value && is_nullable meta f).
      * apply list_elem_of_singleton in H as ->. by eexists.
      * destruct (resolve_filter_key _ _ _ _ _ _) as [[k|] e']; cbn in H; [|by apply not_elem_of_nil in H]. apply list_elem_of_singleton in H as ->. by eexists.
    + destruct (FieldMeta.sort_fields meta !! f) as [n|]; [|by apply not_elem_of_nil in H]. destruct (value_to_sort_u32 _) as [v|]; [|by apply not_elem_of_nil in H]. by exists n, v.
  - intros [(k & -> & [ty ->] & Hk)|[(n & v & -> & -> & H)|H]]; [left| |by right; right].
    + destruct (json_is_null value && is_nullable meta f); [subst k; by apply list_elem_of_singleton|]. rewrite Hk. by apply list_elem_of_singleton.
    + right. by left.
Qed.

(** an update leaves a slot under both values of an existence shadow: the removal of
    the old value inserts false, the set of the new one inserts true, and a batch applies
    removals before insertions; the comment of the remove path says the set overrides. *)
Theorem update_leaves_both_shadows lv e st s f old new t :
  state_wf st -> t ∈ shadows_of meta f -> is_Some (ix_filters st !! t) -> json_is_null new = false ->
  let st' := after st (ops_of lv e s [OpRemove f old; OpSet f new]) in fhas st' t 0 s /\ fhas st' t 1 s.
Proof.
  intros Hw Ht Hix Hn st'. unfold st'. rewrite pair_ops. split; (rewrite fhas_after by done; left; split; [done|]; exists [s]; split; [|by left]); rewrite elem_of_app.
  - left. apply in_remove. right. right. apply in_shadow. exists t. split; [done|by right].
  - right. rewrite set_op_split, Hn, !elem_of_app. do 2 right. apply in_shadow. exists t. split; [done|by right].
Qed.

(** What deduplication leaves of a value that moves away and back. *)
Lemma dedup_away_and_back f a b :
  dedup_entity_ops [OpRemove f b; OpSet f a; OpRemove f a; OpSet f b] = [OpRemove f a; OpSet f b].
Proof.
  unfold dedup_entity_ops. cbn [ops_depth map foldr op_depth Nat.max dedup_fuel existsb is_delete orb].
  set (fs := set_fields_of _). assert (bool_decide (f ∈ fs) = true) as Hf by (apply bool_decide_eq_true; unfold fs; cbn; set_solver).
  cbn [foldl dedup_op]. rewrite Hf. cbn [last_set last_remove last_scalar_is_set scalar_field_order multi_value_net multi_value_order query_ops query_order dedup_init].
  rewrite !(bool_decide_eq_true_2 ((∅ : gmap string JsonValue) !! f = None)) by apply lookup_empty.
  repeat match goal with |- context [bool_decide (<[f := ?v]> ?m !! f = None)] => rewrite (bool_decide_eq_false_2 (<[f := v]> m !! f = None)) by (by rewrite lookup_insert_eq) end.
  cbn [andb app]. unfold emit_removes, emit_sets, emit_multi.
  cbn [last_set last_remove last_scalar_is_set scalar_field_order multi_value_net multi_value_order query_ops query_order omap list_omap app].
  rewrite !lookup_insert_eq. done.
Qed.

(** C39: a value that moves away and back inside one batch corrupts the published sort
    value: deduplication keeps the removal of the passing value and the set of the old
    one, the set is suppressed because the engine already publishes it, and the removal
    clears the bits both values share. *)
Theorem away_and_back_corrupts_sort e st s f n a b va vb :
  state_wf st -> publishes e st -> FieldMeta.sort_fields meta !! f = Some n -> layers_of st f = Some n -> (n <= 32)%nat ->
  value_to_sort_u32 (json_to_qvalue a) = Some va -> value_to_sort_u32 (json_to_qvalue b) = Some vb -> value_in st f s = Some vb ->
  value_in (after st (ops_of true e s (dedup_entity_ops [OpRemove f b; OpSet f a; OpRemove f a; OpSet f b]))) f s = Some (N.ldiff vb va mod 2 ^ N.of_nat n).
Proof.
  intros Hw Hp Hs Hn H32 Ha Hb Hv. rewrite dedup_away_and_back, pair_ops, set_op_split. set (e' := (set_filter_ops to_lowercase true meta e s f b).2).
  assert (unchanged_sort true e' f s vb = true) as Hu. { apply bool_decide_eq_true. unfold published_sort, e'. by rewrite (set_filter_publishes to_lowercase meta true e st s f b Hp). }
  unfold set_sort_ops. rewrite Hs, Hb, Hu. cbn [app]. apply value_in_bits; [by rewrite layers_after|done|]. intros i Hi.
  rewrite (be_sort _ _ _ (after_effect st _ Hw)), elem_ss, elem_sc, (bits_of_value st f n s vb i) by done.
  assert (bit_set (N.ldiff vb va) i = bit_set vb i && negb (bit_set va i)) as -> by (rewrite !bit_set_testbit by lia; apply N.ldiff_spec).
  rewrite andb_true_iff, negb_true_iff, <- not_true_iff_false. split.
  - intros [[_ (l & Hin & _)]|[H Hno]].
    + exfalso. rewrite !elem_of_app in Hin. destruct Hin as [H|[H|H]].
      * apply in_remove in H as [(k & ? & _)|[(n' & v & _ & _ & H)|H]]; [done| |]; [apply in_clear_bits in H as (? & _ & _ & ?); done|eapply (no_sort_in_shadows meta f 0 s f i l); eauto].
      * eapply (no_sort_in_filters to_lowercase meta true e s f b f i l); eauto.
      * eapply (no_sort_in_shadows meta f _ s f i l); eauto.
    + split; [done|]. intros Hva. apply Hno. exists [s]. split; [|by left]. rewrite elem_of_app. left. apply in_remove. right. left. exists n, va. split_and!; [done|done|]. apply in_clear_bits. by exists i.
  - intros [H1 H2]. right. split; [done|]. intros (l & Hin & Hl). rewrite !elem_of_app in Hin. destruct Hin as [H|[H|H]].
    + apply in_remove in H as [(k & ? & _)|[(n' & v & E1 & E2 & H)|H]]; [done| |eapply (no_sort_in_shadows meta f 0 s f i l); eauto].
      apply in_clear_bits in H as (j & _ & Hj & [= -> ->]). congruence.
    + eapply (no_sort_in_filters to_lowercase meta true e s f b f i l); eauto.
    + eapply (no_sort_in_shadows meta f _ s f i l); eauto.
Qed.

End pairs.

(** ** A reference engine *)

Record RefEngine : Type := MkRefEngine {
  re_config : Configuration;
  re_index : IndexState Bitset;
  re_documents : gmap N StoredDoc;
  re_store : DocStoreV3.t;
  re_dicts : gmap string FieldDictionary.t;
}.

Definition re_with_index (e : RefEngine) (ix : IndexState Bitset) : RefEngine := MkRefEngine (re_config e) ix (re_documents e) (re_store e) (re_dicts e).

(** Queries are answered by a scan of the stored documents. *)
Definition re_query (e : RefEngine) (q : BitdexQuery Bitset) : option QueryResult :=
  let ids := filter (fun s => live (re_index e) s /\ s <= u32_max) (map_to_list (re_documents e)).*1 in
  Some (MkQueryResult (take (N.to_nat (q_limit q)) ids) None (N.of_nat (length ids))).

#[export] Instance RefEngine_ops : EngineOps Bitset RefEngine := {
  engine_config := re_config;
  is_slot_alive e s := bool_decide (live (re_index e) s);
  is_slot_deferred e s := SlotAllocator.is_deferred (ix_slots (re_index e)) s;
  slot_counter e := SlotAllocator.next_slot (ix_slots (re_index e));
  deferred_slots e := mjoin (map_to_list (SlotAllocator.deferred (ix_slots (re_index e)))).*2;
  reconstruct_sort_value e f s := value_in (re_index e) f s;
  execute_query := re_query;
  get_document e s := Some (re_documents e !! s);
  docstore_arc := re_store;
  with_docstore e d := MkRefEngine (re_config e) (re_index e) (re_documents e) d (re_dicts e);
  dictionaries := re_dicts;
  with_dictionaries e d := MkRefEngine (re_config e) (re_index e) (re_documents e) (re_store e) d;
  engine_delete e s := (true, MkRefEngine (re_config e) (after (re_index e) [AliveRemove [s]]) (delete s (re_documents e)) (re_store e) (re_dicts e));
  force_publish_blocking e := (true, e);
  evict_doc_cache e _ := e;
  send_batch e ops := (true, re_with_index e (after (re_index e) ops));
  apply_accum e a := re_with_index e (accum_into_index (re_index e) a);
  membership_field _ := None;
  drain_activation_verify e _ := ([], e);
  requeue_activation_verify e _ := e;
  recent_removes_for_slot _ _ := false;
}.

#[export] Instance RefEngine_laws : EngineLaws Bitset RefEngine.
Proof. split; try done. by intros []. Qed.

(** ** Witnesses *)

#[export] Instance ref_json : JsonText := { json_to_string v := match v with JInt n => pretty n | _ => "null" end; json_from_str _ := None }.

(** A publication time with its shadow and a computed sort field. *)
Definition ref_dep : ComputedSortInfo := MkComputedSortInfo "sortAt" 8 Greatest ["existedAt"; "publishedAt"]%string.

Definition ref_meta : FieldMeta.t :=
  FieldMeta.mk {["isPublished"%string := SingleValue; "level"%string := SingleValue]} {["level"%string]} {["publishedAt"%string := 8%nat; "sortAt"%string := 8%nat]}
    {["publishedAt"%string := [ref_dep]; "existedAt"%string := [ref_dep]]} {["publishedAt"%string := ["isPublished"%string]]} (Some ("publishedAt"%string, false)) "id".

(** Slot 1 is published at 12; slot 2 is not alive. *)
Definition ref_index : IndexState Bitset :=
  MkIndexState (SlotAllocator.merge_alive (SlotAllocator.allocate SlotAllocator.new 1).2)
    {["isPublished"%string := FilterField.insert (FilterField.new (filter_config "isPublished" SingleValue)) 1 1;
      "level"%string := FilterField.insert (FilterField.new (filter_config "level" SingleValue)) NULL_BITMAP_KEY 1]}
    {["publishedAt"%string := SortField.insert (SortField.new (sort_config "publishedAt" 8)) 1 12;
      "sortAt"%string := SortField.insert (SortField.new (sort_config "sortAt" 8)) 1 12]}.

Lemma ref_index_wf : state_wf ref_index.
Proof.
  split.
  - intros field ff. cbn [ref_index ix_filters]. rewrite lookup_insert_Some, lookup_singleton_Some. intros [[_ <-]|[_ [_ <-]]]; apply fwf_insert, fwf_new.
  - intros field sf. cbn [ref_index ix_sorts]. rewrite lookup_insert_Some, lookup_singleton_Some. intros [[_ <-]|[_ [_ <-]]]; apply wf_insert_sf, wf_new_sf.
  - apply wf_merge, wf_insert, wf_new.
Qed.

Definition ref_engine : RefEngine :=
  MkRefEngine (basic_config [] [] 100) ref_index {[1 := MkStoredDoc {["publishedAt"%string := Single (Integer 12)]} 1]} demo_docs ∅.

Lemma ref_publishes : publishes ref_engine ref_index.
Proof. done. Qed.

Lemma set_op_exact_witness :
  let st' := after ref_index (process_set_op id true ref_meta ref_engine 1 "publishedAt" (JInt 40)).1 in
  value_in st' "publishedAt" 1 = Some 40 /\ fhas st' "isPublished" 1 1 /\ ~ fhas st' "isPublished" 0 1.
Proof.
  destruct (set_op_exact id ref_meta ref_engine ref_index 1 "publishedAt" (JInt 40) ref_index_wf ref_publishes) as (H1 & _ & H2 & _); [by vm_compute; set_solver|].
  split; [apply (H1 8%nat 40); (reflexivity || lia)|]. apply (H2 "isPublished"%string); [by left|by eexists].
Defined.

Lemma update_leaves_both_shadows_witness :
  let st' := after ref_index (process_ops id true ref_meta ref_engine 1 [OpRemove "publishedAt" (JInt 12); OpSet "publishedAt" (JInt 40)]).1.1 in
  fhas st' "isPublished" 0 1 /\ fhas st' "isPublished" 1 1.
Proof.
  apply (update_leaves_both_shadows id ref_meta true ref_engine ref_index 1 "publishedAt" (JInt 12) (JInt 40) "isPublished" ref_index_wf);
    [by left|by eexists|reflexivity].
Defined.

(** The value 12 comes out as 4: it loses the bit it shares with 40. *)
Lemma away_and_back_corrupts_sort_witness :
  value_in (after ref_index (process_ops id true ref_meta ref_engine 1
    (dedup_entity_ops [OpRemove "publishedAt" (JInt 12); OpSet "publishedAt" (JInt 40); OpRemove "publishedAt" (JInt 40); OpSet "publishedAt" (JInt 12)])).1.1) "publishedAt" 1 = Some 4.
Proof.
  apply (away_and_back_corrupts_sort id ref_meta ref_engine ref_index 1 "publishedAt" 8 (JInt 40) (JInt 12) 40 12 ref_index_wf ref_publishes);
    first [reflexivity | lia].
Defined.
