(* ===== verification/OpsBatchTheorems.v ===== *)
(** * The batch loop of the operation processor: properties

    What an entry adds to the pending bitmap operations: scheduled slots touch no bitmap,
    computed sort fields are exact; where the safety net of lost activations undoes a
    change of its source field; the sweep terminates. *)

From S2P Require Import SortTheorems FilterFacts ShardStoreTheorems DocShardsTheorems.
From S2P Require Import Prelude Roaring Versioned Slot Config Sort SortFacts Filter Float64 Query Dictionary Coalescer IndexFacts CoalescerTheorems Mutation Ops Bytes Encoding OpsWal ShardStore ShardBitmap DocShards Text OpsProcessor OpsProcessorTheorems.
Local Open Scope bitdex_scope.

(** ** Steps of the batch loop *)

Section steps.
Context {B E K : Type} `{HB : Roaring B, JT : JsonText, CK : Checksum, MP : MsgPack, EO : !EngineOps B E, BS : !BitmapSink K}.
Context (to_lowercase : string -> string) (max_fanout : N) (now : N) (meta : FieldMeta.t).
Implicit Types (st : ProcState E K) (s : N) (ops : list Op).

Lemma write_docs_sink st s ws : p_sink (write_docs st s ws) = p_sink st.
Proof.
  unfold write_docs. revert st. induction ws as [|w ws IH]; intros st; [done|]. cbn [foldl]. rewrite IH. unfold doc_write_one, with_docs.
  destruct w; destruct (p_docs st); try done; by destruct (_ : DocWriter.t * DocStoreV3.t).
Qed.

Lemma emit_one_sink st op : p_sink (emit st [op]) = sink_apply (p_sink st) op.
Proof. done. Qed.

Lemma write_id_sink st s creates ops : p_sink (write_id meta st s creates ops) = p_sink st.
Proof. unfold write_id. case_match; [apply write_docs_sink|done]. Qed.

(** The time a scheduled slot is put down for. *)
Definition scheduled_at (e : E) (entry : EntityOps) s (at_ : N) : N :=
  if negb (creates_slot entry) && is_slot_deferred e s then default at_ (get_deferred_timestamp meta (eo_ops entry)) else at_.

Lemma scheduled_entry st c entry s at_ :
  entity_id entry = Z.of_N s -> s <= u32_max -> existsb is_delete (eo_ops entry) = false -> has_query_op_set (eo_ops entry) = false ->
  get_future_schedule meta now (eo_ops entry) = Some at_ -> creates_slot entry = true \/ is_slot_alive (p_engine st) s = false ->
  p_sink (apply_entry to_lowercase max_fanout true now meta (st, c) entry).1 = sink_apply (p_sink st) (DeferredAlive s (scheduled_at (p_engine st) entry s at_)).
Proof.
  intros Hid Hs Hdel Hq Hat Hgate. unfold apply_entry. rewrite Hid, Hdel, N2Z.id.
  destruct (Z.ltb_spec (Z.of_N s) 0); [lia|]. destruct (Z.ltb_spec 4294967295 (Z.of_N s)); [unfold u32_max in Hs; lia|]. cbn [orb].
  assert (forall creates, creates = true -> p_sink (proceed_entry to_lowercase max_fanout true now meta st c s creates (eo_ops entry)).1 = sink_apply (p_sink st) (DeferredAlive s at_)) as Hproceed.
  { intros creates ->. unfold proceed_entry. rewrite Hat. cbn [fst]. by rewrite write_docs_sink, emit_one_sink, write_id_sink. }
  unfold gate_entry, scheduled_at. rewrite Hq. cbn [negb orb]. rewrite !orb_false_r.
  destruct (creates_slot entry) eqn:Ec; cbn [orb negb andb]; [by apply Hproceed|].
  destruct Hgate as [?|Ha]; [done|]. rewrite Ha. destruct (is_slot_deferred (p_engine st) s).
  - unfold rescheduled. rewrite Hat. destruct (get_deferred_timestamp meta (eo_ops entry)); cbn [fst default from_option id]; by rewrite emit_one_sink, write_docs_sink.
  - destruct (slot_counter (p_engine st) <=? s); [by apply Hproceed|]. rewrite Hat. cbn [fst]. by rewrite emit_one_sink, write_docs_sink.
Qed.

End steps.

(** ** Scheduled slots *)

Section scheduled.
Context {B E : Type} `{HB : Roaring B, JT : JsonText, CK : Checksum, MP : MsgPack, EO : !EngineOps B E}.
Context (to_lowercase : string -> string) (max_fanout : N) (now : N) (meta : FieldMeta.t).
Implicit Types (st : ProcState E CoalescerSink) (s x : N) (ix : IndexState B).

Lemma future_schedule_later ops at_ : get_future_schedule meta now ops = Some at_ -> now < at_.
Proof.
  unfold get_future_schedule. destruct (FieldMeta.deferred_alive_field meta) as [[f ms]|]; [|done]. cbn [mbind option_bind].
  assert (forall found, (forall a, found = Some a -> now < a) -> foldl (schedule_step now f ms) found ops = Some at_ -> now < at_) as H; [|by apply H].
  induction ops as [|op ops IH]; intros found Hf; [apply Hf|]. cbn [foldl]. apply IH. intros a. unfold schedule_step.
  destruct op; try apply Hf; case_bool_decide; try apply Hf; destruct (as_i64 value) as [ts|]; try done;
    (destruct (Z.ltb_spec 0 (to_secs ms ts)); destruct (Z.ltb_spec (Z.of_N now) (to_secs ms ts)); cbn [andb]; try done; intros [= <-]; lia).
Qed.

(** A scheduling operation in a batch moves the schedule and no bitmap. *)
Lemma after_deferred ix ops s t : state_wf ix -> let a := after ix ops in let a' := after ix (ops ++ [DeferredAlive s t]) in
  (forall f k x, fhas a' f k x <-> fhas a f k x) /\ (forall f i x, sbit a' f i x <-> sbit a f i x) /\ (forall x, live a' x <-> live a x)
  /\ exists slots, SlotAllocator.deferred (ix_slots a') !! t = Some (slots ++ [s]).
Proof.
  intros Hw a a'. pose proof (after_effect ix ops Hw) as E1. pose proof (after_effect ix (ops ++ [DeferredAlive s t]) Hw) as E2. fold a in E1. fold a' in E2. split_and!.
  - intros f k x. rewrite (be_filter _ _ _ E1), (be_filter _ _ _ E2), !all_of_app, !all_of_one. cbn [sel_fi sel_fr]. by rewrite !app_nil_r.
  - intros f i x. rewrite (be_sort _ _ _ E1), (be_sort _ _ _ E2), !all_of_app, !all_of_one. cbn [sel_ss sel_sc]. by rewrite !app_nil_r.
  - intros x. rewrite (be_live _ _ _ E1), (be_live _ _ _ E2), !all_of_app, !all_of_one. cbn [sel_ai sel_ar]. by rewrite !app_nil_r.
  - rewrite (be_deferred _ _ _ E2), all_of_app, all_of_one, foldl_app. cbn [sel_dm foldl WriteBatch.apply_deferred fst snd]. eexists. apply lookup_insert_eq.
Qed.

(** C8: an entry scheduled for later only schedules. Take an entry for a 32-bit slot that
    is created or not alive, without a delete and without a query operation, whose
    deferral field is set to a time in the future: whatever other fields it carries, the
    batch gains one scheduling operation, so no filter, sort layer or alive bit of any
    slot changes, and the slot waits under the scheduled time. (The comments on
    config.rs:171, write_coalescer.rs:117 and ingester.rs:49 say otherwise: that the
    filter and sort bitmaps are set at once and only the alive bit waits; see the
    findings.) *)
Theorem scheduled_slot_hidden st c entry s at_ ix :
  entity_id entry = Z.of_N s -> s <= u32_max -> existsb is_delete (eo_ops entry) = false -> has_query_op_set (eo_ops entry) = false ->
  get_future_schedule meta now (eo_ops entry) = Some at_ -> creates_slot entry = true \/ is_slot_alive (p_engine st) s = false -> state_wf ix ->
  let st' := (apply_entry to_lowercase max_fanout true now meta (st, c) entry).1 in
  let a := after ix (cs_pending (p_sink st)) in let a' := after ix (cs_pending (p_sink st')) in
  (forall f k x, fhas a' f k x <-> fhas a f k x) /\ (forall f i x, sbit a' f i x <-> sbit a f i x) /\ (forall x, live a' x <-> live a x)
  /\ now < at_ /\ exists slots, SlotAllocator.deferred (ix_slots a') !! scheduled_at meta (p_engine st) entry s at_ = Some (slots ++ [s]).
Proof.
  intros Hid Hs Hd Hq Hat Hg Hw st' a a'.
  assert (cs_pending (p_sink st') = cs_pending (p_sink st) ++ [DeferredAlive s (scheduled_at meta (p_engine st) entry s at_)]) as Hp by (unfold st'; by erewrite scheduled_entry).
  unfold a'. rewrite Hp. destruct (after_deferred ix (cs_pending (p_sink st)) s (scheduled_at meta (p_engine st) entry s at_) Hw) as (H1 & H2 & H3 & H4).
  pose proof (future_schedule_later _ _ Hat). done.
Qed.

End scheduled.

(** ** Recomputed sort fields *)

Section recomputed.
Context {B E : Type} `{HB : Roaring B, JT : JsonText, EO : !EngineOps B E, EL : !EngineLaws B E}.
Context (now : N) (meta : FieldMeta.t).
Implicit Types (e : E) (s x : N) (ix : IndexState B) (f : string) (sv osv : gmap string N).

Notation recompute := (recompute_computed_sorts_for_slot true now meta).

Lemma elem_changed_sources sv osv f : f ∈ changed_sources meta sv osv <-> FieldMeta.has_computed_deps meta f = true /\ (is_Some (sv !! f) \/ is_Some (osv !! f)).
Proof. unfold changed_sources. rewrite elem_of_elements, elem_of_filter, elem_of_union, !elem_of_dom, Is_true_true. done. Qed.

Definition dep_value e s sv osv (dep : ComputedSortInfo) : N :=
  apply_computed_op (csi_op dep) (new_source_value now meta (stored_doc true e s) sv osv <$> csi_source_fields dep).

Lemma recompute_split e s sv osv : changed_sources meta sv osv <> [] ->
  recompute e s sv osv =
    let parts := mjoin ((fun source => recompute_dep true now meta e s (stored_doc true e s) sv osv <$> default [] (FieldMeta.computed_deps meta !! source)) <$> changed_sources meta sv osv) in
    (mjoin parts.*1 ++ (safety_net true now meta e s).1, mjoin parts.*2 ++ (safety_net true now meta e s).2).
Proof. intros Hc. unfold recompute_computed_sorts_for_slot. destruct (changed_sources meta sv osv); [done|]. by destruct (safety_net true now meta e s). Qed.

(** What a recomputation emits. *)
Lemma in_recompute e s sv osv o : o ∈ (recompute e s sv osv).1 <->
  changed_sources meta sv osv <> [] /\
  ((exists source dep, source ∈ changed_sources meta sv osv /\ dep ∈ default [] (FieldMeta.computed_deps meta !! source)
      /\ unchanged_sort true e (csi_target dep) s (dep_value e s sv osv dep) = false
      /\ o ∈ overwrite_ops (csi_target dep) (csi_target_bits dep) (dep_value e s sv osv dep) s)
   \/ o ∈ (safety_net true now meta e s).1).
Proof.
  destruct (decide (changed_sources meta sv osv = [])) as [Hc|Hc].
  { unfold recompute_computed_sorts_for_slot. rewrite Hc. cbn. rewrite elem_of_nil. naive_solver. }
  rewrite recompute_split by done. cbn [fst]. rewrite elem_of_app. split.
  - intros [H|H]; (split; [done|]); [left|by right]. apply list_elem_of_join in H as (l & Ho & H). apply list_elem_of_fmap in H as ([ms ws] & -> & H).
    apply list_elem_of_join in H as (ps & Hp & H). apply list_elem_of_fmap in H as (source & -> & Hs). apply list_elem_of_fmap in Hp as (dep & E1 & Hd).
    exists source, dep. unfold recompute_dep in E1. injection E1 as -> ->. cbn [fst] in Ho. fold (dep_value e s sv osv dep) in Ho.
    destruct (unchanged_sort _ _ _ _ _); [by apply not_elem_of_nil in Ho|done].
  - intros [_ [(source & dep & Hs & Hd & Hu & Ho)|H]]; [left|by right]. apply list_elem_of_join. eexists. split; [exact Ho|]. apply list_elem_of_fmap.
    exists (recompute_dep true now meta e s (stored_doc true e s) sv osv dep). split.
    + unfold recompute_dep. fold (dep_value e s sv osv dep). by rewrite Hu.
    + apply list_elem_of_join. eexists. split; [by apply list_elem_of_fmap_2|]. by apply list_elem_of_fmap; eexists.
Qed.

Lemma in_recompute_writes e s sv osv source dep : source ∈ changed_sources meta sv osv -> dep ∈ default [] (FieldMeta.computed_deps meta !! source) ->
  WSet (csi_target dep) (JInt (Z.of_N (dep_value e s sv osv dep))) ∈ (recompute e s sv osv).2.
Proof.
  intros Hs Hd. rewrite recompute_split by (intros Hn; rewrite Hn in Hs; by apply not_elem_of_nil in Hs). cbn [snd]. apply elem_of_app. left.
  apply list_elem_of_join. exists (recompute_dep true now meta e s (stored_doc true e s) sv osv dep).2. split; [by left|]. apply list_elem_of_fmap_2.
  apply list_elem_of_join. eexists. split; [by apply list_elem_of_fmap_2|]. by apply list_elem_of_fmap; eexists.
Qed.

(** The safety net writes the layers of its own field only. *)
Lemma in_safety_net e s o : o ∈ (safety_net true now meta e s).1 -> exists name ms pub,
  FieldMeta.deferred_alive_field meta = Some (name, ms) /\ stored_timestamp (stored_doc true e s) name ms = Some pub
  /\ ((exists n, FieldMeta.sort_fields meta !! name = Some n /\ o ∈ overwrite_ops name n pub s) \/ o ∈ flip_shadow_ops meta name 1 s).
Proof.
  unfold safety_net. destruct (FieldMeta.deferred_alive_field meta) as [[name ms]|]; [|by intros ?%not_elem_of_nil].
  destruct (stored_timestamp _ name ms) as [pub|] eqn:Ep; [|by intros ?%not_elem_of_nil]. destruct (_ && _); [|by intros ?%not_elem_of_nil]. cbn [fst].
  rewrite elem_of_app. intros Ho. exists name, ms, pub. split_and!; [done|done|]. destruct (FieldMeta.sort_fields meta !! name) as [n|]; [|by right; destruct Ho as [?%not_elem_of_nil|?]].
  destruct Ho as [Ho|Ho]; [left; by exists n|by right].
Qed.

(** A sort operation on another field than the schedule comes from a dependency. *)
Lemma recompute_sort_op e s sv osv f i l (set : bool) : fst <$> FieldMeta.deferred_alive_field meta <> Some f ->
  (if set then SortSet f i l else SortClear f i l) ∈ (recompute e s sv osv).1 ->
  exists source dep, source ∈ changed_sources meta sv osv /\ dep ∈ default [] (FieldMeta.computed_deps meta !! source) /\ csi_target dep = f
    /\ unchanged_sort true e f s (dep_value e s sv osv dep) = false /\ l = [s] /\ bit_set (dep_value e s sv osv dep) i = set.
Proof.
  intros Hf [_ [(source & dep & Hs & Hd & Hu & Ho)|Ho]]%in_recompute.
  - apply in_overwrite in Ho as (j & Hj & Ho). exists source, dep. destruct set, (bit_set _ j) eqn:Eb; simplify_eq; done.
  - exfalso. apply in_safety_net in Ho as (name & ms & pub & Hn & _ & [(n & _ & Ho)|Ho]).
    + apply in_overwrite in Ho as (j & _ & Ho). apply Hf. rewrite Hn. destruct set, (bit_set pub j); simplify_eq; done.
    + apply in_shadow in Ho as (t & _ & [Ho|Ho]); by destruct set.
Qed.

(** ** What a recomputed field must hold

    Stated on the entry and the stored document alone: the value an operation of the entry
    gives a source; 0 for a source the entry only removes; else the stored single value,
    except a schedule that is still to come, which counts as 0 like a missing value. *)
Inductive source_reads (doc : option StoredDoc) sv osv f : N -> Prop :=
  | SourceSet v : sv !! f = Some v -> source_reads doc sv osv f v
  | SourceRemoved : sv !! f = None -> is_Some (osv !! f) -> source_reads doc sv osv f 0
  | SourceStored d val v : sv !! f = None -> osv !! f = None -> doc = Some d -> sd_fields d !! f = Some (Single val) ->
      value_to_sort_u32 val = Some v -> ~ (fst <$> FieldMeta.deferred_alive_field meta = Some f /\ wrap32 now < v) -> source_reads doc sv osv f v
  | SourceFuture d val v : sv !! f = None -> osv !! f = None -> doc = Some d -> sd_fields d !! f = Some (Single val) ->
      value_to_sort_u32 val = Some v -> fst <$> FieldMeta.deferred_alive_field meta = Some f -> wrap32 now < v -> source_reads doc sv osv f 0
  | SourceMissing : sv !! f = None -> osv !! f = None ->
      (forall d val v, doc = Some d -> sd_fields d !! f = Some (Single val) -> value_to_sort_u32 val <> Some v) -> source_reads doc sv osv f 0.

(** The greatest (least) of the values the sources read as; 0 without sources. *)
Definition extremum (op : ComputedOp) (reads : string -> N -> Prop) (sources : list string) (v : N) : Prop :=
  match sources with
  | [] => v = 0
  | _ => (exists f, f ∈ sources /\ reads f v)
      /\ forall f u, f ∈ sources -> reads f u -> match op with Greatest => u <= v | Least => v <= u end
  end.

Lemma source_reads_value doc sv osv f u : source_reads doc sv osv f u <-> new_source_value now meta doc sv osv f = u.
Proof.
  unfold new_source_value, stored_sort_value, now_u32. split.
  - intros [v Hs|Hs Ho|d val v Hs Ho -> Hd Hv Hn|d val v Hs Ho -> Hd Hv Hf Hn|Hs Ho Hm]; rewrite Hs; try done.
    + rewrite (bool_decide_eq_true_2 _ Ho). by rewrite orb_true_r.
    + rewrite Ho, !bool_decide_eq_false_2 by apply is_Some_None. cbn. rewrite Hd. cbn. rewrite Hv. cbn.
      destruct (_ && _) eqn:Ed; [|done]. destruct Hn. apply andb_true_iff in Ed as [Ed%bool_decide_eq_true Et%N.ltb_lt]. done.
    + rewrite Ho, !bool_decide_eq_false_2 by apply is_Some_None. cbn. rewrite Hd. cbn. rewrite Hv. cbn.
      rewrite (bool_decide_eq_true_2 _ Hf), (proj2 (N.ltb_lt _ _) Hn). done.
    + rewrite Ho, !bool_decide_eq_false_2 by apply is_Some_None. cbn. destruct doc as [d|]; [cbn|done].
      destruct (sd_fields d !! f) as [[val|]|] eqn:Hd; try done. destruct (value_to_sort_u32 val) as [v|] eqn:Hv; [|done]. by destruct (Hm d val v).
  - destruct (sv !! f) as [v|] eqn:Hs; [intros <-; by apply SourceSet|].
    destruct (osv !! f) as [o|] eqn:Ho; [intros <-; rewrite orb_true_r; by apply SourceRemoved|]. rewrite !bool_decide_eq_false_2 by apply is_Some_None. cbn.
    assert ((forall d val v, doc = Some d -> sd_fields d !! f = Some (Single val) -> value_to_sort_u32 val <> Some v) -> 0 = u -> source_reads doc sv osv f u) as Hmiss
      by (intros ? <-; by apply SourceMissing).
    destruct doc as [d|]; [cbn|by apply Hmiss]. destruct (sd_fields d !! f) as [[val|l]|] eqn:Hd; [cbn|by apply Hmiss; intros ??? [= ->]; rewrite Hd..].
    destruct (value_to_sort_u32 val) as [v|] eqn:Hv; [cbn|apply Hmiss; intros ??? [= ->]; rewrite Hd; intros [= ->]; by rewrite Hv].
    destruct (_ && _) eqn:Ed; cbn; intros <-.
    + apply andb_true_iff in Ed as [E1%bool_decide_eq_true E2%N.ltb_lt]. by eapply SourceFuture.
    + eapply SourceStored; try done. intros [E1 E2]. rewrite (bool_decide_eq_true_2 _ E1), (proj2 (N.ltb_lt _ _) E2) in Ed. done.
Qed.

Lemma foldl_extremum (f : N -> N -> N) (R : N -> N -> Prop) `{!Reflexive R, !Transitive R} (v : N) l :
  (forall a b, (f a b = a \/ f a b = b) /\ R a (f a b) /\ R b (f a b)) ->
  foldl f v l ∈ v :: l /\ forall u, u ∈ v :: l -> R u (foldl f v l).
Proof.
  intros Hf. revert v. induction l as [|x l IH]; intros v.
  - cbn. split; [by left|]. by intros u ->%list_elem_of_singleton.
  - cbn [foldl]. destruct (IH (f v x)) as [Hin Hb]. destruct (Hf v x) as (Hor & Hv & Hx). split.
    + rewrite !elem_of_cons in *. destruct Hor as [Ef|Ef]; rewrite Ef in *; tauto.
    + intros u Hu. rewrite !elem_of_cons in Hu. destruct Hu as [->|[->|Hu]].
      * etransitivity; [exact Hv|]. apply Hb. by left.
      * etransitivity; [exact Hx|]. apply Hb. by left.
      * apply Hb. by right.
Qed.

(** The value the code computes is the specified one. *)
Lemma dep_value_extremum e s sv osv dep :
  extremum (csi_op dep) (source_reads (stored_doc true e s) sv osv) (csi_source_fields dep) (dep_value e s sv osv dep).
Proof.
  unfold dep_value, extremum. destruct (csi_source_fields dep) as [|f0 fs]; [done|]. cbn [fmap list_fmap apply_computed_op].
  set (g := new_source_value now meta (stored_doc true e s) sv osv).
  assert (forall v0, v0 ∈ g f0 :: (g <$> fs) -> exists f, f ∈ f0 :: fs /\ source_reads (stored_doc true e s) sv osv f v0) as Hin.
  { intros v0 Hv. change (v0 ∈ g <$> (f0 :: fs)) in Hv. apply list_elem_of_fmap in Hv as (f & -> & Hf). exists f. by rewrite source_reads_value. }
  assert (forall f u, f ∈ f0 :: fs -> source_reads (stored_doc true e s) sv osv f u -> u ∈ g f0 :: (g <$> fs)) as Hall.
  { intros f u Hf Hr. apply source_reads_value in Hr as <-. change (g f ∈ g <$> (f0 :: fs)). by apply list_elem_of_fmap_2. }
  destruct (csi_op dep).
  - destruct (foldl_extremum N.max N.le (g f0) (g <$> fs)) as [H1 H2]; [intros; lia|]. split; [by apply Hin|]. intros f u Hf Hr. apply H2. eauto.
  - destruct (foldl_extremum N.min (flip N.le) (g f0) (g <$> fs)) as [H1 H2]; [intros; unfold flip; lia|]. split; [by apply Hin|]. intros f u Hf Hr. apply H2. eauto.
Qed.


End recomputed.

(** ** The safety net against a change of its field *)

Section net.
Context {B E : Type} `{HB : Roaring B, JT : JsonText, CK : Checksum, MP : MsgPack, EO : !EngineOps B E, EL : !EngineLaws B E}.
Context (to_lowercase : string -> string) (now : N) (meta : FieldMeta.t).
Implicit Types (e : E) (st : ProcState E CoalescerSink) (s x : N) (ix : IndexState B) (f : string).

Notation recompute := (recompute_computed_sorts_for_slot true now meta).
Notation fields_of := (apply_fields to_lowercase true now meta).

Definition write_field (w : doc_write) : string := match w with WSet f _ | WAdd f _ | WRemove f _ => f end.

(** The document writer has an index for a field already. *)
Definition knows st f : Prop := forall w, p_docs st = Some w -> is_Some (DocWriter.field_dict w !! f).

Lemma known_write st s w : knows st (write_field w) -> p_engine (doc_write_one s st w) = p_engine st /\ forall f, knows st f -> knows (doc_write_one s st w) f.
Proof.
  unfold knows. intros Hk. unfold doc_write_one, with_docs, DocWriter.write_set, DocWriter.write_add, DocWriter.write_remove, DocWriter.resolve_field.
  destruct (p_docs st) as [dw|] eqn:Ed; [|destruct w; by rewrite ?Ed]. destruct (Hk dw eq_refl) as [idx Hidx].
  destruct w; cbn [write_field] in Hidx; rewrite Hidx; repeat case_match; simplify_eq; cbn [p_engine p_docs]; rewrite docstore_same; (split; [done|]);
    intros g Hg w' [= <-]; apply (Hg _ eq_refl).
Qed.

Lemma known_writes st s ws : (forall w, w ∈ ws -> knows st (write_field w)) -> p_engine (write_docs st s ws) = p_engine st.
Proof.
  unfold write_docs. revert st. induction ws as [|w ws IH]; intros st Hk; [done|]. cbn [foldl]. destruct (known_write st s w) as [He Hks]; [apply Hk; by left|].
  rewrite IH; [done|]. intros w' Hw'. apply Hks, Hk. by right.
Qed.

Lemma emit_pending st ms : cs_pending (p_sink (emit st ms)) = cs_pending (p_sink st) ++ ms.
Proof.
  unfold emit, sink_all. cbn [p_sink]. generalize (p_sink st). induction ms as [|m ms IH]; intros k; [by rewrite app_nil_r|]. cbn [foldl]. rewrite IH. cbn. by rewrite <- app_assoc.
Qed.

(** The pending operations an entry adds. *)
Lemma apply_fields_pending st s ops : (forall w, w ∈ (process_ops to_lowercase true meta (p_engine st) s ops).1.2 -> knows st (write_field w)) ->
  let '(ms, _, e') := process_ops to_lowercase true meta (p_engine st) s ops in
  cs_pending (p_sink (fields_of st s false ops)) = cs_pending (p_sink st) ++ ms ++ (recompute e' s (sort_values_of meta ops) (old_sort_values_of meta ops)).1.
Proof.
  unfold apply_fields. destruct (process_ops to_lowercase true meta (p_engine st) s ops) as [[ms ws] e'] eqn:Eo. cbn [fst snd]. intros Hk. unfold recompute_slot.
  rewrite known_writes by done. cbn [p_engine emit with_engine].
  destruct (recompute e' s _ _) as [ms' ws'] eqn:Er. cbn [fst]. rewrite write_docs_sink, emit_pending, write_docs_sink, emit_pending. cbn [p_sink with_engine]. by rewrite <- app_assoc.
Qed.

Context (f : string) (ms_to_secs : bool) (n : nat) (pub : N).
Hypothesis Hda : FieldMeta.deferred_alive_field meta = Some (f, ms_to_secs).
Hypothesis Hsf : FieldMeta.sort_fields meta !! f = Some n.
Hypothesis Hdeps : FieldMeta.has_computed_deps meta f = true.
Hypothesis Htgt : forall source dep, dep ∈ default [] (FieldMeta.computed_deps meta !! source) -> csi_target dep <> f.
Hypothesis Hpast : 0 < pub <= now_u32 now.

Lemma net_fires e s : stored_timestamp (stored_doc true e s) f ms_to_secs = Some pub -> (safety_net true now meta e s).1 = overwrite_ops f n pub s ++ flip_shadow_ops meta f 1 s.
Proof.
  intros Hp. unfold safety_net. rewrite Hda, Hp, Hsf. destruct (N.ltb_spec 0 pub); [|lia]. destruct (N.leb_spec pub (now_u32 now)); [|lia]. done.
Qed.

(** Whenever the field changes, the recomputation is the net and layers of other fields. *)
Lemma net_in_recompute e s sv osv o : stored_timestamp (stored_doc true e s) f ms_to_secs = Some pub -> is_Some (sv !! f) \/ is_Some (osv !! f) ->
  o ∈ overwrite_ops f n pub s \/ o ∈ flip_shadow_ops meta f 1 s -> o ∈ (recompute e s sv osv).1.
Proof.
  intros Hp Hc Ho. apply in_recompute. split; [|right; by rewrite net_fires, elem_of_app by done].
  assert (f ∈ changed_sources meta sv osv) as Hin by (by apply elem_changed_sources). intros E0. rewrite E0 in Hin. by apply not_elem_of_nil in Hin.
Qed.

Lemma sort_in_recompute e s sv osv i l (set : bool) : stored_timestamp (stored_doc true e s) f ms_to_secs = Some pub ->
  (if set then SortSet f i l else SortClear f i l) ∈ (recompute e s sv osv).1 -> bit_set pub i = set.
Proof.
  intros Hp [_ [(source & dep & _ & Hd & _ & Ho)|Ho]]%in_recompute.
  - apply in_overwrite in Ho as (j & _ & Ho). exfalso. eapply Htgt; [done|]. destruct set, (bit_set _ j); simplify_eq; done.
  - rewrite net_fires, elem_of_app in Ho by done. destruct Ho as [Ho|Ho].
    + apply in_overwrite in Ho as (j & _ & Ho). destruct set, (bit_set pub j) eqn:Eb; simplify_eq; done.
    + apply in_shadow in Ho as (t & _ & [Ho|Ho]); by destruct set.
Qed.

Lemma tracked_remove value v : value_to_sort_u32 (json_to_qvalue value) = Some v -> old_sort_values_of meta [OpRemove f value] !! f = Some v.
Proof. intros Hv. unfold old_sort_values_of, track, tracks. cbn. rewrite Hdeps, Hv. cbn. apply lookup_insert_eq. Qed.

Lemma tracked_set value old v : value_to_sort_u32 (json_to_qvalue value) = Some v -> sort_values_of meta [OpRemove f old; OpSet f value] !! f = Some v.
Proof. intros Hv. unfold sort_values_of, track, tracks. cbn. rewrite Hdeps, Hv. cbn. apply lookup_insert_eq. Qed.

(** unpublishing a slot is undone within its own batch: the recomputation reads the
    document before the removal is flushed, takes the old publication time for a lost
    activation and writes it back, so the source layers keep the old time and the slot is
    under both values of its publication shadow. *)
Theorem unpublish_undone st s value v ix t :
  state_wf ix -> layers_of ix f = Some n -> (n <= 32)%nat ->
  cs_pending (p_sink st) = [] -> (forall g, g = f \/ g ∈ shadows_of meta f -> knows st g) ->
  stored_timestamp (stored_doc true (p_engine st) s) f ms_to_secs = Some pub -> value_to_sort_u32 (json_to_qvalue value) = Some v ->
  t ∈ shadows_of meta f -> is_Some (ix_filters ix !! t) ->
  let ix' := after ix (cs_pending (p_sink (fields_of st s false [OpRemove f value]))) in
  value_in ix' f s = Some (pub mod 2 ^ N.of_nat n) /\ fhas ix' t 1 s /\ fhas ix' t 0 s.
Proof.
  intros Hw Hn H32 Hpend Hk Hp Hv Ht Hix ix'.
  assert (cs_pending (p_sink (fields_of st s false [OpRemove f value])) = process_remove_op to_lowercase true meta (p_engine st) s f value
    ++ (recompute (p_engine st) s (sort_values_of meta [OpRemove f value]) (old_sort_values_of meta [OpRemove f value])).1) as Hops.
  { pose proof (apply_fields_pending st s [OpRemove f value]) as H. cbn [process_ops process_op fst snd] in H. rewrite !app_nil_r, Hpend in H. apply H. intros w Hin. apply Hk.
    apply elem_of_cons in Hin as [->|Hin]; [by left|right]. apply list_elem_of_fmap in Hin as (g & -> & Hg). done. }
  unfold ix'. rewrite Hops. set (rest := (recompute _ _ _ _).1).
  assert (forall o, o ∈ overwrite_ops f n pub s \/ o ∈ flip_shadow_ops meta f 1 s -> o ∈ rest) as Hnet.
  { intros o. apply net_in_recompute; [done|]. right. rewrite (tracked_remove value v Hv). by eexists. }
  split_and!.
  - apply overwrite_exact; [done|done|done| |].
    + intros o Ho. apply elem_of_app. right. auto.
    + intros i l Ho _. apply elem_of_app in Ho as [Ho|Ho]; [|by apply (sort_in_recompute _ _ _ _ i l true Hp Ho)].
      apply in_remove in Ho as [(k & ? & _)|[(n' & v' & _ & _ & Ho)|Ho]]; [done| |].
      * apply in_clear_bits in Ho as (j & _ & _ & ?). done.
      * apply in_shadow in Ho as (t' & _ & [?|?]); done.
  - rewrite fhas_after by done. left. split; [done|]. exists [s]. split; [|by left]. apply elem_of_app. right. apply Hnet. right. apply in_shadow. exists t. split; [done|by right].
  - rewrite fhas_after by done. left. split; [done|]. exists [s]. split; [|by left]. apply elem_of_app. left. apply in_remove. right. right. apply in_shadow. exists t. split; [done|by right].
Qed.

Lemma set_op_documents e s g value x : get_document (process_set_op to_lowercase true meta e s g value).2 x = get_document e x.
Proof.
  unfold process_set_op, set_filter_ops, resolve_filter_key. repeat case_match; simplify_eq; try done; cbn [snd]; by rewrite document_dictionaries.
Qed.

(** What an update of the field adds. *)
Lemma update_pending st s old value : cs_pending (p_sink st) = [] -> (forall g, g = f \/ g ∈ shadows_of meta f -> knows st g) ->
  exists e', stored_doc true e' s = stored_doc true (p_engine st) s
    /\ cs_pending (p_sink (fields_of st s false [OpRemove f old; OpSet f value])) = process_remove_op to_lowercase true meta (p_engine st) s f old
         ++ (process_set_op to_lowercase true meta (p_engine st) s f value).1
         ++ (recompute e' s (sort_values_of meta [OpRemove f old; OpSet f value]) (old_sort_values_of meta [OpRemove f old; OpSet f value])).1.
Proof.
  intros Hpend Hk. pose proof (apply_fields_pending st s [OpRemove f old; OpSet f value]) as H. pose proof (set_op_documents (p_engine st) s f value s) as Hdoc.
  cbn [process_ops process_op] in H. destruct (process_set_op to_lowercase true meta (p_engine st) s f value) as [ms e'] eqn:Es. cbn [fst snd] in *. exists e'.
  split; [unfold stored_doc; by rewrite Hdoc|]. rewrite !app_nil_r, Hpend in H. cbn [app] in H. rewrite <- app_assoc in H. apply H. intros w Hin. apply Hk.
  apply elem_of_cons in Hin as [->|Hin]; [by left|]. apply elem_of_app in Hin as [Hin|Hin]; [right; by apply list_elem_of_fmap in Hin as (g & -> & Hg)|].
  apply elem_of_cons in Hin as [->|Hin]; [by left|right; by apply list_elem_of_fmap in Hin as (g & -> & Hg)].
Qed.

(** C38: moving a publication time mixes the two times: the overwrite with the new time and
    the safety net's overwrite with the stored one go into the same batch, which clears
    before it sets, so the slot ends with the bitwise or of both. *)
Theorem republish_mixes_times st s old value v ix :
  state_wf ix -> publishes (p_engine st) ix -> layers_of ix f = Some n -> (n <= 32)%nat ->
  cs_pending (p_sink st) = [] -> (forall g, g = f \/ g ∈ shadows_of meta f -> knows st g) ->
  stored_timestamp (stored_doc true (p_engine st) s) f ms_to_secs = Some pub -> value_to_sort_u32 (json_to_qvalue value) = Some v ->
  value_in ix f s <> Some v ->
  value_in (after ix (cs_pending (p_sink (fields_of st s false [OpRemove f old; OpSet f value])))) f s = Some (N.lor v pub mod 2 ^ N.of_nat n).
Proof.
  intros Hw Hpb Hn H32 Hpend Hk Hp Hv Hne. destruct (update_pending st s old value Hpend Hk) as (e' & Hdoc & ->). rewrite set_op_split.
  set (e1 := (set_filter_ops to_lowercase true meta (p_engine st) s f value).2).
  assert (unchanged_sort true e1 f s v = false) as Hu.
  { apply bool_decide_eq_false. unfold published_sort, e1. by rewrite (set_filter_publishes to_lowercase meta true _ ix s f value Hpb). }
  rewrite <- Hdoc in Hp. unfold set_sort_ops. rewrite Hsf, Hv, Hu. set (rest := (recompute _ _ _ _).1).
  assert (forall o, o ∈ overwrite_ops f n pub s -> o ∈ rest) as Hnet.
  { intros o Ho. apply net_in_recompute; [done| |by left]. left. rewrite (tracked_set value old v Hv). by eexists. }
  apply value_in_bits; [by rewrite layers_after|done|]. intros i Hi.
  assert (bit_set (N.lor v pub) i = bit_set v i || bit_set pub i) as -> by (rewrite !bit_set_testbit by lia; apply N.lor_spec).
  rewrite (be_sort _ _ _ (after_effect ix _ Hw)), elem_ss, elem_sc, orb_true_iff. split.
  - intros [[_ (l & Hin & _)]|[_ Hno]].
    + rewrite !elem_of_app in Hin. destruct Hin as [H|[[H|[H|H]]|H]].
      * apply in_remove in H as [(k & ? & _)|[(n' & v' & _ & _ & H)|H]]; [done|apply in_clear_bits in H as (j & _ & _ & ?); done|].
        exfalso. eapply (no_sort_in_shadows meta f 0 s f i l). eauto.
      * exfalso. eapply (no_sort_in_filters to_lowercase meta true (p_engine st) s f value f i l). eauto.
      * left. apply in_overwrite in H as (j & _ & H). destruct (bit_set v j) eqn:Eb; [|done]. by injection H as -> ->.
      * exfalso. eapply (no_sort_in_shadows meta f _ s f i l). eauto.
      * right. by apply (sort_in_recompute _ _ _ _ i l true Hp H).
    + destruct (bit_set v i) eqn:Eb; [by left|]. exfalso. apply Hno. exists [s]. split; [|by left]. rewrite !elem_of_app. right. left. right. left.
      apply in_overwrite. exists i. by rewrite Eb.
  - intros Hb. left. split; [by exists n|]. exists [s]. split; [|by left]. rewrite !elem_of_app. destruct Hb as [Hb|Hb].
    + right. left. right. left. apply in_overwrite. exists i. by rewrite Hb.
    + right. right. apply Hnet, in_overwrite. exists i. by rewrite Hb.
Qed.

End net.

(** ** The overdue sweep *)

Section sweeping.
Context {B E K : Type} `{HB : Roaring B, JT : JsonText, CK : Checksum, MP : MsgPack, EO : !EngineOps B E, BS : !BitmapSink K}.
Context (now : N) (meta : FieldMeta.t) (source_field : string) (ms_to_secs : bool).
Implicit Types (st : ProcState E K) (sh : ProcState E K * (N * list N)).

(** Slots are 32-bit numbers. *)
Hypothesis query_slots : forall (e : E) q r, execute_query e q = Some r -> Forall (fun id => id <= u32_max) (qr_ids r).

Lemma sweep_slot_checked sh slot : slot <= u32_max -> (sweep_slot now meta source_field ms_to_secs sh slot).2.1 = sh.2.1 + 1.
Proof. intros Hs. unfold sweep_slot. destruct sh as [st [checked healed]]. destruct (N.ltb_spec u32_max slot); [lia|]. by destruct (overdue_secs _ _ _ _ _). Qed.

Lemma sweep_page_checked sh ids : Forall (fun id => id <= u32_max) ids -> (foldl (sweep_slot now meta source_field ms_to_secs) sh ids).2.1 = sh.2.1 + N.of_nat (length ids).
Proof.
  intros Hi. revert sh. induction Hi as [|id ids Hid Hi IH]; intros sh; cbn [foldl]; [cbn; lia|]. rewrite IH, sweep_slot_checked by done. cbn [length]. lia.
Qed.

(** A run of the loop that ended: how far it got. *)
Definition sweep_ended (shadow sort_field : string) (page_size limit : N) (r : ProcState E K * (N * list N) * option CursorPosition) : Prop :=
  r.2 = None \/ limit <= r.1.2.1 \/ execute_query (p_engine r.1.1) (sweep_query (B := B) shadow sort_field page_size r.2) = None.

Lemma sweep_loop_ends fuel shadow sort_field page_size limit sh cursor : limit - sh.2.1 < N.of_nat fuel ->
  exists r, sweep_loop now meta fuel source_field ms_to_secs shadow sort_field page_size limit sh cursor = Some r
    /\ sweep_ended shadow sort_field page_size limit r /\ sh.2.1 <= r.1.2.1.
Proof.
  revert sh cursor. induction fuel as [|fuel IH]; intros sh cursor Hf; [lia|]. cbn [sweep_loop]. destruct (N.leb_spec limit sh.2.1) as [Hl|Hl].
  { exists (sh, cursor). split_and!; [done|right; by left|cbn; lia]. }
  destruct (execute_query (p_engine sh.1) _) as [result|] eqn:Eq; [|exists (sh, cursor); split_and!; [done|by right; right|cbn; lia]].
  pose proof (query_slots _ _ _ Eq) as Hids. pose proof (sweep_page_checked sh (qr_ids result) Hids) as Hc. destruct (qr_ids result) as [|id ids] eqn:Ei.
  { exists (sh, None). split_and!; [done|by left|cbn; lia]. }
  set (sh' := foldl _ sh (id :: ids)) in *. cbn [length] in Hc. destruct (qr_cursor result) as [next|]; [|exists (sh', None); split_and!; [done|by left|cbn [fst]; lia]].
  case_match; [exists (sh', None); split_and!; [done|by left|cbn [fst]; lia]|]. destruct (IH sh' (Some next)) as (r & Hr & He & Hle); [lia|]. exists r. split_and!; [done|done|lia].
Qed.

End sweeping.


(** ** Unreadable documents *)

Section unreadable.
Context {B E : Type} `{HB : Roaring B, JT : JsonText, CK : Checksum, MP : MsgPack, EO : !EngineOps B E}.
Context (to_lowercase : string -> string) (max_fanout : N) (now : N) (meta : FieldMeta.t).
Implicit Types (st : ProcState E CoalescerSink) (s : N).

Lemma query_free_ops live (sc : ProcState E CoalescerSink * BatchCounts) ops : has_query_op_set ops = false -> foldl (query_op to_lowercase max_fanout live now meta) sc ops = sc.
Proof.
  unfold has_query_op_set. revert sc. induction ops as [|op ops IH]; intros sc Hq; [done|]. cbn in Hq. apply orb_false_iff in Hq as [Ho Hq]. cbn [foldl]. rewrite IH by done.
  destruct sc. by destruct op.
Qed.

(** An operation on a filter or sort field. *)
Definition field_op (o : MutationOp) : Prop :=
  match o with FilterInsert _ _ _ | FilterRemove _ _ _ | SortSet _ _ _ | SortClear _ _ _ => True | _ => False end.

Lemma overwrite_field_ops f n v s : Forall field_op (overwrite_ops f n v s).
Proof. apply Forall_forall. intros o (i & _ & ->)%in_overwrite. by destruct (bit_set v i). Qed.

Lemma shadow_field_ops f key s : Forall field_op (flip_shadow_ops meta f key s).
Proof. apply Forall_forall. by intros o (t & _ & [-> | ->])%in_shadow. Qed.

Lemma op_field_ops (e : E) s op : Forall field_op (process_op to_lowercase true meta e s op).1.1.
Proof.
  destruct op; cbn [process_op]; try constructor.
  - pose proof (set_op_split to_lowercase meta true e s field value) as Hsp. destruct (process_set_op _ _ _ _ _ _ _) as [ms e']. cbn [fst] in *. subst ms. rewrite !Forall_app. split_and!.
    + apply Forall_forall. by intros o (k & [-> | [-> _]])%in_set_filter.
    + apply Forall_forall. intros o (n & v & _ & _ & _ & Ho)%in_set_sort. by eapply Forall_forall in Ho; [|apply overwrite_field_ops].
    + apply shadow_field_ops.
  - apply Forall_forall. cbn [fst]. intros o [(k & -> & _)|[(n & v & _ & _ & Ho)|Ho]]%in_remove; [done|by apply in_clear_bits in Ho as (i & _ & _ & ->)|].
    by eapply Forall_forall in Ho; [|apply shadow_field_ops].
  - unfold process_add_op. destruct (json_is_null value && is_nullable meta field); [constructor|].
    assert (forall l e', (match FieldMeta.filter_fields meta !! field with
        | Some _ => let '(key, e) := resolve_filter_key to_lowercase true e (json_to_qvalue value) field true in (from_option (fun key => [FilterInsert field key [s]]) [] key, e)
        | None => ([], e) end) = (l, e') -> Forall field_op l) as Hl.
    { intros l e' H. repeat case_match; simplify_eq; [|constructor]. destruct o; repeat constructor. }
    destruct (match FieldMeta.filter_fields meta !! field with Some _ => _ | None => _ end) as [l e'] eqn:El. cbn [fst]. apply Forall_app. split; [by eapply Hl|].
    repeat case_match; try (by constructor); apply Forall_forall; by intros o1 (i & _ & _ & ->)%in_set_bits.
Qed.

Lemma ops_field_ops (e : E) s ops : Forall field_op (process_ops to_lowercase true meta e s ops).1.1.
Proof.
  revert e. induction ops as [|op ops IH]; intros e; [constructor|]. cbn [process_ops]. pose proof (op_field_ops e s op) as H. destruct (process_op _ _ _ _ _ _) as [[ms ws] e'].
  specialize (IH e'). destruct (process_ops _ _ _ _ _ _) as [[ms' ws'] e'']. by apply Forall_app.
Qed.

Lemma recompute_field_ops (e : E) s sv osv : Forall field_op (recompute_computed_sorts_for_slot true now meta e s sv osv).1.
Proof.
  apply Forall_forall. intros o [_ [(source & dep & _ & _ & _ & Ho)|Ho]]%in_recompute.
  - by eapply Forall_forall in Ho; [|apply overwrite_field_ops].
  - apply in_safety_net in Ho as (name & ms & pub & _ & _ & [(n & _ & Ho)|Ho]); (eapply Forall_forall in Ho; [|apply overwrite_field_ops || apply shadow_field_ops]); done.
Qed.

(** A created slot becomes alive with its fields. *)
Lemma created_pending st s ops : exists ms, Forall field_op ms /\ cs_pending (p_sink (apply_fields to_lowercase true now meta st s true ops)) = cs_pending (p_sink st) ++ ms ++ [AliveInsert [s]].
Proof.
  unfold apply_fields. pose proof (ops_field_ops (p_engine st) s ops) as H1. destruct (process_ops to_lowercase true meta (p_engine st) s ops) as [[ms ws] e']. cbn [fst] in H1.
  unfold recompute_slot. set (st1 := write_docs _ s ws). pose proof (recompute_field_ops (p_engine st1) s (sort_values_of meta ops) (old_sort_values_of meta ops)) as H2.
  destruct (recompute_computed_sorts_for_slot true now meta (p_engine st1) s _ _) as [ms' ws']. cbn [fst] in H2. exists (ms ++ ms'). split; [by apply Forall_app|].
  rewrite emit_pending, write_docs_sink, emit_pending. unfold st1. rewrite write_docs_sink, emit_pending. cbn [p_sink with_engine]. by rewrite <- !app_assoc.
Qed.

(** an operation on a deleted slot brings it back when its document cannot be read:
    the gate takes a failed read for an absent document, lets the entry through as the
    creation of the slot, and the alive bit is set. *)
Theorem unreadable_document_revives st c entry s err ix :
  entity_id entry = Z.of_N s -> s <= u32_max -> creates_slot entry = false -> existsb is_delete (eo_ops entry) = false -> has_query_op_set (eo_ops entry) = false ->
  get_future_schedule meta now (eo_ops entry) = None ->
  is_slot_alive (p_engine st) s = false -> is_slot_deferred (p_engine st) s = false -> s < slot_counter (p_engine st) -> s ∉ p_memo st ->
  DocStoreV3.get (docstore_arc (p_engine st)) s = IoErr err -> state_wf ix -> s ∉ all_of sel_ar (cs_pending (p_sink st)) ->
  live (after ix (cs_pending (p_sink (apply_entry to_lowercase max_fanout true now meta (st, c) entry).1))) s.
Proof.
  intros Hid Hs Hc Hd Hq Hf Ha Hdef Hct Hm Hg Hw Hno. unfold apply_entry. rewrite Hid, Hd, N2Z.id.
  destruct (Z.ltb_spec (Z.of_N s) 0); [lia|]. destruct (Z.ltb_spec 4294967295 (Z.of_N s)); [unfold u32_max in Hs; lia|]. cbn [orb].
  unfold gate_entry. rewrite Hc, Hq, Ha, Hdef, Hf. cbn [orb negb]. destruct (N.leb_spec (slot_counter (p_engine st)) s); [lia|].
  rewrite bool_decide_eq_false_2 by done. unfold doc_absent. rewrite Hg. unfold proceed_entry. rewrite Hf, query_free_ops by done. cbn [fst].
  destruct (created_pending (write_id meta st s true (eo_ops entry)) s (eo_ops entry)) as (ms & Hms & ->). rewrite write_id_sink.
  apply (be_live _ _ _ (after_effect ix _ Hw)). rewrite !all_of_app, !elem_of_app, all_of_one. split; [right; right; right; by left|].
  intros [H'|[H'|H']]; [done| |by apply not_elem_of_nil in H']. apply elem_of_all_of in H' as (o & Ho & H'). rewrite Forall_forall in Hms. apply Hms in Ho. destruct o; cbn in H'; try done; by apply not_elem_of_nil in H'.
Qed.

End unreadable.

(** ** Witnesses *)

Definition ref_state (e : RefEngine) (docs : option DocWriter.t) : ProcState RefEngine CoalescerSink := MkProcState e (MkCoalescerSink []) docs ∅.

Definition ref_writer : DocWriter.t := DocWriter.mk {["publishedAt"%string := 1; "isPublished"%string := 2]} [] [] [].

Lemma scheduled_slot_hidden_witness :
  let st' := (apply_entry id 100 true 50 ref_meta (ref_state ref_engine None, no_counts) (MkEntityOps 7 [OpSet "publishedAt" (JInt 90); OpSet "level" (JInt 3)] true)).1 in
  let a' := after ref_index (cs_pending (p_sink st')) in
  ~ live a' 7 /\ ~ fhas a' "level" 3 7 /\ exists slots, SlotAllocator.deferred (ix_slots a') !! 90 = Some (slots ++ [7]).
Proof.
  destruct (scheduled_slot_hidden id 100 50 ref_meta (ref_state ref_engine None) no_counts (MkEntityOps 7 [OpSet "publishedAt" (JInt 90); OpSet "level" (JInt 3)] true) 7 90 ref_index)
    as (H1 & _ & H2 & _ & H3); [reflexivity|done|reflexivity|reflexivity|reflexivity|by left|exact ref_index_wf|].
  intros st' a'. unfold a', st'. rewrite H1, H2. split; [by eapply bool_decide_eq_false_1; vm_compute|]. split; [|exact H3].
  change (after ref_index (cs_pending (p_sink (ref_state ref_engine None)))) with (after ref_index []). intros (ff & Hff & vb & Hvb & _). vm_compute in Hff. injection Hff as <-. by vm_compute in Hvb.
Defined.


Lemma ref_deps_target source dep : dep ∈ default [] (FieldMeta.computed_deps ref_meta !! source) -> csi_target dep <> "publishedAt"%string.
Proof.
  intros Hd. unfold ref_meta in Hd. cbn [FieldMeta.computed_deps] in Hd. destruct (decide (source = "publishedAt"%string)) as [->|H1]; [by apply list_elem_of_singleton in Hd as ->|].
  rewrite lookup_insert_ne in Hd by done. destruct (decide (source = "existedAt"%string)) as [->|H2]; [by apply list_elem_of_singleton in Hd as ->|].
  rewrite lookup_singleton_ne in Hd by done. by apply not_elem_of_nil in Hd.
Qed.

Lemma ref_knows g : g = "publishedAt"%string \/ g ∈ shadows_of ref_meta "publishedAt" -> knows (ref_state ref_engine (Some ref_writer)) g.
Proof. intros Hg w [= <-]. destruct Hg as [->|Hg]; [by eexists|]. apply list_elem_of_singleton in Hg as ->. by eexists. Qed.

(** The publication time 12 is removed and stays. *)
Lemma unpublish_undone_witness :
  let ix' := after ref_index (cs_pending (p_sink (apply_fields id true 50 ref_meta (ref_state ref_engine (Some ref_writer)) 1 false [OpRemove "publishedAt" (JInt 12)]))) in
  value_in ix' "publishedAt" 1 = Some 12 /\ fhas ix' "isPublished" 1 1 /\ fhas ix' "isPublished" 0 1.
Proof.
  apply (unpublish_undone id 50 ref_meta "publishedAt" false 8 12 eq_refl eq_refl eq_refl ref_deps_target ltac:(split; by vm_compute)
    (ref_state ref_engine (Some ref_writer)) 1 (JInt 12) 12 ref_index "isPublished");
    [exact ref_index_wf|reflexivity|by apply Nat.leb_le|reflexivity|exact ref_knows|reflexivity|reflexivity|by left|by eexists].
Defined.

(** Moving 12 to 40 gives 44. *)
Lemma republish_mixes_times_witness :
  value_in (after ref_index (cs_pending (p_sink (apply_fields id true 50 ref_meta (ref_state ref_engine (Some ref_writer)) 1 false
    [OpRemove "publishedAt" (JInt 12); OpSet "publishedAt" (JInt 40)])))) "publishedAt" 1 = Some 44.
Proof.
  apply (republish_mixes_times id 50 ref_meta "publishedAt" false 8 12 eq_refl eq_refl eq_refl ref_deps_target ltac:(split; by vm_compute)
    (ref_state ref_engine (Some ref_writer)) 1 (JInt 12) (JInt 40) 40 ref_index);
    [exact ref_index_wf|exact ref_publishes|reflexivity|by apply Nat.leb_le|reflexivity|exact ref_knows|reflexivity|reflexivity|by vm_compute].
Defined.

Lemma ref_query_slots (e : RefEngine) q r : execute_query e q = Some r -> Forall (fun s => s <= u32_max) (qr_ids r).
Proof. intros [= <-]. cbn [qr_ids]. apply Forall_forall. intros x Hx%(subseteq_take _ _ x). by apply list_elem_of_filter in Hx as [[_ Hx] _]. Qed.


(** The header of the shard of slot 0 is damaged. *)
Definition ref_damaged : RefEngine :=
  MkRefEngine (basic_config [] [] 100) ref_index ∅ (DocStoreV3.with_store demo_docs (ShardStore.new {[shard_path (MkDocKey 0) := repeat 0 28]})) ∅.

Lemma unreadable_document_revives_witness :
  live (after ref_index (cs_pending (p_sink (apply_entry id 100 true 50 ref_meta (ref_state ref_damaged None, no_counts) (MkEntityOps 0 [OpSet "level" (JInt 3)] false)).1))) 0.
Proof.
  eapply (unreadable_document_revives id 100 50 ref_meta (ref_state ref_damaged None) no_counts (MkEntityOps 0 [OpSet "level" (JInt 3)] false) 0);
    [reflexivity|done|reflexivity|reflexivity|reflexivity|reflexivity|reflexivity|reflexivity|reflexivity|apply not_elem_of_empty|vm_compute; reflexivity|exact ref_index_wf|apply not_elem_of_nil].
Defined.
