(* ===== verification/Parsing.v ===== *)
(** * Recursive-descent parsing

    The results of a parser, the two ways the source's parsers read binary operators (one
    operator between two operands; a loop that folds to the left), the phrases they
    accept as relations on token lists, and that the combinators are sound, complete and
    total for those relations when their operand parser is. *)

From S2P Require Import Prelude.
Local Open Scope nat_scope.

(** A result, an error, or no fuel left. *)
Inductive parsed (Err A : Type) : Type :=
| POk (a : A)
| PErr (e : Err)
| PFuel.
Arguments POk {Err A} _.
Arguments PErr {Err A} _.
Arguments PFuel {Err A}.

Definition pbind {Err A B : Type} (m : parsed Err A) (k : A -> parsed Err B) : parsed Err B :=
  match m with POk a => k a | PErr e => PErr e | PFuel => PFuel end.

Notation "'let^' x := m 'in' k" := (pbind m (fun x => k)) (at level 200, x name, m at level 100, k at level 200) : bitdex_scope.
Notation "'let^' ( x , y ) := m 'in' k" := (pbind m (fun '(x, y) => k)) (at level 200, x name, y name, m at level 100, k at level 200) : bitdex_scope.
Local Open Scope bitdex_scope.
Local Open Scope nat_scope.

(** [iter().map(f).collect::<Result<Vec<_>, _>>()] *)
Fixpoint pmap {Err A B : Type} (f : A -> parsed Err B) (l : list A) : parsed Err (list B) :=
  match l with
  | [] => POk []
  | a :: l => let^ b := f a in let^ bs := pmap f l in POk (b :: bs)
  end.

Lemma pbind_ok {Err A B : Type} (m : parsed Err A) (k : A -> parsed Err B) b : pbind m k = POk b <-> exists a, m = POk a /\ k a = POk b.
Proof. destruct m; cbn; naive_solver. Qed.

Lemma pmap_ok {Err A B : Type} (f : A -> parsed Err B) l bs : pmap f l = POk bs <-> Forall2 (fun a b => f a = POk b) l bs.
Proof.
  revert bs. induction l as [|a l IH]; intros bs; cbn [pmap].
  - split; [by intros [= <-]|]. by intros ->%Forall2_nil_inv_l.
  - rewrite pbind_ok. setoid_rewrite pbind_ok. setoid_rewrite IH. split.
    + intros (b & Hb & bs' & Hbs & [= <-]). by constructor.
    + intros (b & bs' & Hb & Hbs & ->)%Forall2_cons_inv_l. eauto.
Qed.

Section combinators.
Context {Tok Err A : Type}.

Notation parser := (list Tok -> parsed Err (A * list Tok)).
Notation phrases := (list Tok -> A -> Prop).
Implicit Types (sub : parser) (D : phrases) (ts pre rest : list Tok).

(** At most one operator. *)
Definition infix sub (op : Tok -> option (A -> A -> parsed Err A)) : parser := fun tokens =>
  let^ (left, rest) := sub tokens in
  match rest with
  | t :: rest' =>
      match op t with
      | Some build => let^ (right, rest) := sub rest' in let^ e := build left right in POk (e, rest)
      | None => POk (left, rest)
      end
  | [] => POk (left, rest)
  end.

(** Any number of operators, from left to right. *)
Fixpoint chain_loop (fuel : nat) sub (op : Tok -> option (A -> A -> A)) (left : A) rest : parsed Err (A * list Tok) :=
  match rest with
  | t :: rest' =>
      match op t with
      | Some build =>
          match fuel with
          | O => PFuel
          | S fuel => let^ (right, rest) := sub rest' in chain_loop fuel sub op (build left right) rest
          end
      | None => POk (left, rest)
      end
  | [] => POk (left, rest)
  end.

(** A round consumes its operator, so the tokens left bound the rounds. *)
Definition chain sub (op : Tok -> option (A -> A -> A)) : parser := fun tokens =>
  let^ (left, rest) := sub tokens in chain_loop (length rest) sub op left rest.

(** ** Phrases *)

Inductive infix_phrase D (op : Tok -> option (A -> A -> parsed Err A)) : phrases :=
| infix_one pre a : D pre a -> infix_phrase D op pre a
| infix_two pre1 l t build pre2 r a : D pre1 l -> op t = Some build -> D pre2 r -> build l r = POk a -> infix_phrase D op (pre1 ++ t :: pre2) a.

Inductive chain_phrase D (op : Tok -> option (A -> A -> A)) : phrases :=
| chain_one pre a : D pre a -> chain_phrase D op pre a
| chain_more pre1 l t build pre2 r : chain_phrase D op pre1 l -> op t = Some build -> D pre2 r -> chain_phrase D op (pre1 ++ t :: pre2) (build l r).

Definition sound sub D : Prop := forall ts a rest, sub ts = POk (a, rest) -> exists pre, ts = pre ++ rest /\ D pre a.
Definition total_below sub (n : nat) : Prop := forall ts, length ts < n -> sub ts <> PFuel.
Definition complete_below sub D (follow : list Tok -> Prop) (n : nat) : Prop :=
  forall pre a rest, D pre a -> follow rest -> length (pre ++ rest) < n -> sub (pre ++ rest) = POk (a, rest).
Definition nonempty D : Prop := forall a, ~ D [] a.

(** The tokens that end a phrase: not an operator of it. *)
Definition ends {O : Type} (op : Tok -> option O) (follow : list Tok -> Prop) rest : Prop :=
  follow rest /\ match rest with t :: _ => op t = None | [] => True end.

Lemma sound_shorter sub D ts a rest : sound sub D -> nonempty D -> sub ts = POk (a, rest) -> length rest < length ts.
Proof. intros Hs Hn H. apply Hs in H as (pre & -> & Hd). rewrite length_app. destruct pre; [by apply Hn in Hd|cbn; lia]. Qed.

(** *** One operator *)

Lemma infix_nonempty D op : nonempty D -> nonempty (infix_phrase D op).
Proof. intros Hn a H. inversion H as [? ? Hd|pre1 ? ? ? ? ? ? Hd]; subst; [by apply Hn in Hd|]. by destruct pre1. Qed.

Lemma infix_sound sub D op : sound sub D -> sound (infix sub op) (infix_phrase D op).
Proof.
  intros Hs ts a rest. unfold infix. rewrite pbind_ok. intros ([l r] & (pre1 & -> & Hd1)%Hs & H). destruct r as [|t r]; [injection H as <- <-; exists pre1; split; [done|by constructor]|].
  destruct (op t) as [build|] eqn:Eo; [|injection H as <- <-; exists pre1; split; [done|by constructor]].
  apply pbind_ok in H as ([r1 rest1] & (pre2 & -> & Hd2)%Hs & H). apply pbind_ok in H as (e & He & [= <- <-]).
  exists (pre1 ++ t :: pre2). split; [by rewrite <- app_assoc|]. by eapply infix_two.
Qed.

Lemma infix_total sub D op n : sound sub D -> nonempty D -> (forall t build l r, op t = Some build -> build l r <> PFuel) -> total_below sub n -> total_below (infix sub op) n.
Proof.
  intros Hs Hn Hb Ht ts Hl. unfold infix. destruct (sub ts) as [[l [|t r]]|?|] eqn:E1; cbn [pbind]; [done| |done|by apply Ht in E1].
  destruct (op t) as [build|] eqn:Eo; [|done]. pose proof (sound_shorter _ _ _ _ _ Hs Hn E1) as Hlt. cbn [length] in Hlt.
  destruct (sub r) as [[r1 rest]|?|] eqn:E2; cbn [pbind]; [|done|apply Ht in E2; [done|lia]]. specialize (Hb t build l r1 Eo). by destruct (build l r1).
Qed.

Lemma infix_complete sub D op follow n : nonempty D -> (forall t r, is_Some (op t) -> follow (t :: r)) -> complete_below sub D follow n ->
  complete_below (infix sub op) (infix_phrase D op) (ends op follow) n.
Proof.
  intros Hn Hop Hc pre a rest Hd [Hf He] Hl. unfold infix. destruct Hd as [pre a Hd|pre1 l t build pre2 r a Hd1 Ho Hd2 Hb].
  - rewrite (Hc pre a rest Hd Hf Hl). cbn [pbind]. destruct rest as [|t rest]; [done|]. by rewrite He.
  - rewrite <- app_assoc in *. cbn [app] in *. rewrite (Hc pre1 l (t :: pre2 ++ rest) Hd1 (Hop t _ ltac:(by eexists)) Hl). cbn [pbind]. rewrite Ho.
    rewrite (Hc pre2 r rest Hd2 Hf) by (rewrite length_app in Hl; cbn [length] in Hl; lia). cbn [pbind]. by rewrite Hb.
Qed.

(** *** Any number *)

Lemma chain_nonempty D op : nonempty D -> nonempty (chain_phrase D op).
Proof. intros Hn a H. inversion H as [? ? Hd|pre1 ? ? ? ? ? Hd]; subst; [by apply Hn in Hd|]. by destruct pre1. Qed.

Lemma chain_loop_sound sub D op fuel pre l rest a rest' : sound sub D -> chain_phrase D op pre l -> chain_loop fuel sub op l rest = POk (a, rest') ->
  exists mid, rest = mid ++ rest' /\ chain_phrase D op (pre ++ mid) a.
Proof.
  intros Hs. revert pre l rest. induction fuel as [|fuel IH]; intros pre l rest Hd H; cbn [chain_loop] in H.
  - assert (POk (Err := Err) (l, rest) = POk (a, rest')) as [= <- <-] by (destruct rest as [|t r]; [done|]; by destruct (op t)).
    exists []. rewrite app_nil_r. done.
  - destruct rest as [|t r]; [injection H as <- <-; exists []; by rewrite !app_nil_r|].
    destruct (op t) as [build|] eqn:Eo; [|injection H as <- <-; exists []; by rewrite !app_nil_r].
    apply pbind_ok in H as ([r1 rest1] & (pre2 & -> & Hd2)%Hs & H). apply (IH (pre ++ t :: pre2)) in H as (mid & -> & Hd'); [|by eapply chain_more].
    exists (t :: pre2 ++ mid). split; [cbn; by rewrite <- app_assoc|]. by rewrite <- app_assoc in Hd'.
Qed.

Lemma chain_sound sub D op : sound sub D -> sound (chain sub op) (chain_phrase D op).
Proof.
  intros Hs ts a rest. unfold chain. rewrite pbind_ok. intros ([l r] & (pre & -> & Hd)%Hs & H).
  apply (chain_loop_sound sub D op _ pre) in H as (mid & -> & Hd'); [|done|by constructor]. exists (pre ++ mid). by rewrite <- app_assoc.
Qed.

Lemma chain_loop_total sub D op n fuel l rest : sound sub D -> nonempty D -> total_below sub n -> length rest < n -> length rest <= fuel -> chain_loop fuel sub op l rest <> PFuel.
Proof.
  intros Hs Hn Ht. revert l rest. induction fuel as [|fuel IH]; intros l [|t r] Hlt Hle; cbn [chain_loop]; try done; cbn [length] in *; [lia|].
  destruct (op t) as [build|]; [|done]. destruct (sub r) as [[r1 rest]|?|] eqn:E; cbn [pbind]; [|done|apply Ht in E; [done|lia]].
  apply (sound_shorter _ _ _ _ _ Hs Hn) in E. apply IH; lia.
Qed.

Lemma chain_total sub D op n : sound sub D -> nonempty D -> total_below sub n -> total_below (chain sub op) n.
Proof.
  intros Hs Hn Ht ts Hl. unfold chain. destruct (sub ts) as [[l r]|?|] eqn:E; cbn [pbind]; [|done|by apply Ht in E].
  apply (sound_shorter _ _ _ _ _ Hs Hn) in E. eapply chain_loop_total; eauto; lia.
Qed.

(** The fuel of the loop does not matter when it is enough. *)
Lemma chain_loop_fuel sub D op f1 f2 l rest : sound sub D -> nonempty D -> length rest <= f1 -> length rest <= f2 -> chain_loop f1 sub op l rest = chain_loop f2 sub op l rest.
Proof.
  intros Hs Hn. revert f2 l rest. induction f1 as [|f1 IH]; intros [|f2] l [|t r] H1 H2; cbn [chain_loop length] in *; try done; try lia.
  destruct (op t) as [build|]; [|done]. destruct (sub r) as [[r1 rest]|?|] eqn:E; cbn [pbind]; [|done|done]. apply (sound_shorter _ _ _ _ _ Hs Hn) in E. apply IH; lia.
Qed.

Lemma chain_loop_complete sub D op follow n pre l rest : sound sub D -> nonempty D -> (forall t r, is_Some (op t) -> follow (t :: r)) -> complete_below sub D follow n ->
  chain_phrase D op pre l -> follow rest -> length (pre ++ rest) < n -> chain sub op (pre ++ rest) = chain_loop (length rest) sub op l rest.
Proof.
  intros Hs Hn Hop Hc Hd. revert rest. induction Hd as [pre l Hd|pre1 l t build pre2 r Hd1 IH Ho Hd2]; intros rest Hf Hl.
  - unfold chain. by rewrite (Hc pre l rest Hd Hf Hl).
  - rewrite <- app_assoc in *. cbn [app] in *. rewrite IH; [|by apply Hop; eexists|done]. cbn [length chain_loop]. rewrite Ho.
    rewrite (Hc pre2 r rest Hd2 Hf) by (rewrite length_app in Hl; cbn [length] in Hl; lia). cbn [pbind].
    apply (chain_loop_fuel sub D); [done|done|rewrite length_app; lia|lia].
Qed.

Lemma chain_complete sub D op follow n : sound sub D -> nonempty D -> (forall t r, is_Some (op t) -> follow (t :: r)) -> complete_below sub D follow n ->
  complete_below (chain sub op) (chain_phrase D op) (ends op follow) n.
Proof.
  intros Hs Hn Hop Hc pre a rest Hd [Hf He] Hl. rewrite (chain_loop_complete sub D op follow n pre a rest) by done.
  destruct rest as [|t rest]; [done|]. cbn [length chain_loop]. by rewrite He.
Qed.

End combinators.
