(* ===== verification/Expression.v ===== *)
(** * Dump expressions (src/dump_expression.rs)

    The filter and computed-field expressions of the dump pipeline: values, the syntax
    tree, evaluation against a row by name and by column index, the tokenizer and the
    recursive-descent parser, and the two kinds of expression definition built on it.
    Error messages are constructors.  A shift wider than a word wraps its amount, as a
    release build does. *)

From S2P Require Import Prelude Encoding Float64 Text Parsing.
From Stdlib Require Import Ascii.
Local Open Scope bitdex_scope.

Module DumpExpr.

Inductive ExprValue : Type := VBool (b : bool) | VInt (n : Z) | VStr (s : string) | VNull.

Definition as_bool (v : ExprValue) : bool :=
  match v with
  | VBool b => b
  | VInt n => negb (n =? 0)%Z
  | VStr s => negb (bool_decide (s = ""%string))
  | VNull => false
  end.

Definition as_i64 (v : ExprValue) : option Z :=
  match v with
  | VInt n => Some n
  | VBool b => Some (if b then 1 else 0)%Z
  | VStr s => parse_i64 s
  | VNull => None
  end.

Definition is_null (v : ExprValue) : bool := match v with VNull => true | _ => false end.

Inductive Expr : Type :=
| Column (name : string)
| IntLit (n : Z)
| StrLit (s : string)
| BoolLit (b : bool)
| NullLit
| LookupKey
| BitfieldExtract (expr : Expr) (shift mask : N)
| Eq (left right : Expr)
| NotEq (left right : Expr)
| And (left right : Expr)
| Or (left right : Expr)
| Max (columns : list string).

(** ** Evaluation *)

Notation CsvRow := (gmap string (option string)).

Record EvalContext : Type := MkEvalContext { row : CsvRow; ctx_lookup_key : option Z }.

Notation ColumnIndex := (gmap string nat).

Definition build_column_index (headers : list string) : ColumnIndex := foldl (fun m '(i, name) => <[name := i]> m) ∅ (imap pair headers).

Record IndexedEvalContext : Type := MkIndexedEvalContext { fields : list (option string); col_idx : ColumnIndex; idx_lookup_key : option Z }.

Definition get (ctx : IndexedEvalContext) (name : string) : option string := idx ← col_idx ctx !! name; mjoin (fields ctx !! idx).

(** The value of a cell that is not empty. *)
Definition cell_value (val : string) : ExprValue :=
  match parse_i64 val with
  | Some n => VInt n
  | None => if bool_decide (val = "true"%string) || bool_decide (val = "t"%string) then VBool true
            else if bool_decide (val = "false"%string) || bool_decide (val = "f"%string) then VBool false
            else VStr val
  end.

(** [(n >> shift) & (mask as i64)] *)
Definition extract (n : Z) (shift mask : N) : Z := Z.land (Z.shiftr n (Z.of_N (shift mod 64))) (u64_as_i64 mask).

Definition eq_values (l r : ExprValue) : bool :=
  if is_null l && is_null r then true
  else if is_null l || is_null r then false
  else match l, r with
       | VInt a, VInt b => (a =? b)%Z
       | VStr a, VStr b => bool_decide (a = b)
       | VBool a, VBool b => Bool.eqb a b
       | _, _ => bool_decide (as_i64 l = as_i64 r)
       end.

Definition not_eq_values (l r : ExprValue) : bool :=
  if is_null r then negb (is_null l)
  else if is_null l then true
  else match l, r with
       | VInt a, VInt b => negb (a =? b)%Z
       | VStr a, VStr b => negb (bool_decide (a = b))
       | VBool a, VBool b => negb (Bool.eqb a b)
       | _, _ => negb (bool_decide (as_i64 l = as_i64 r))
       end.

(** One column of [max]. *)
Definition max_step (max_val : option Z) (val : option string) : option Z :=
  match val ≫= parse_i64 with
  | Some n => Some (match max_val with Some cur => Z.max cur n | None => n end)
  | None => max_val
  end.

Fixpoint eval (ctx : EvalContext) (e : Expr) : ExprValue :=
  match e with
  | Column name =>
      match row ctx !! name with
      | Some (Some val) => if bool_decide (val = ""%string) then VNull else cell_value val
      | _ => VNull
      end
  | IntLit n => VInt n
  | StrLit s => VStr s
  | BoolLit b => VBool b
  | NullLit => VNull
  | LookupKey => match ctx_lookup_key ctx with Some k => VInt k | None => VNull end
  | BitfieldExtract expr shift mask => match as_i64 (eval ctx expr) with Some n => VInt (extract n shift mask) | None => VNull end
  | Eq l r => VBool (eq_values (eval ctx l) (eval ctx r))
  | NotEq l r => VBool (not_eq_values (eval ctx l) (eval ctx r))
  | And l r => if negb (as_bool (eval ctx l)) then VBool false else VBool (as_bool (eval ctx r))
  | Or l r => if as_bool (eval ctx l) then VBool true else VBool (as_bool (eval ctx r))
  | Max columns => match foldl (fun m col => max_step m (mjoin (row ctx !! col))) None columns with Some n => VInt n | None => VNull end
  end.

Fixpoint eval_indexed (ctx : IndexedEvalContext) (e : Expr) : ExprValue :=
  match e with
  | Column name =>
      match get ctx name with
      | Some val => if bool_decide (val = ""%string) then VNull else cell_value val
      | None => VNull
      end
  | IntLit n => VInt n
  | StrLit s => VStr s
  | BoolLit b => VBool b
  | NullLit => VNull
  | LookupKey => match idx_lookup_key ctx with Some k => VInt k | None => VNull end
  | BitfieldExtract expr shift mask => match as_i64 (eval_indexed ctx expr) with Some n => VInt (extract n shift mask) | None => VNull end
  | Eq l r => VBool (eq_values (eval_indexed ctx l) (eval_indexed ctx r))
  | NotEq l r => VBool (not_eq_values (eval_indexed ctx l) (eval_indexed ctx r))
  | And l r => if negb (as_bool (eval_indexed ctx l)) then VBool false else VBool (as_bool (eval_indexed ctx r))
  | Or l r => if as_bool (eval_indexed ctx l) then VBool true else VBool (as_bool (eval_indexed ctx r))
  | Max columns => match foldl (fun m col => max_step m (get ctx col)) None columns with Some n => VInt n | None => VNull end
  end.

(** ** Tokens *)

Inductive Token : Type :=
| TIdent (s : string) | TInt (n : Z) | TStr (s : string)
| LParen | RParen | ShiftRight | Ampersand | EqEq | TEq | TNotEq | AndAnd | OrOr | Comma.

Inductive ExprError : Type :=
| EmptyExpression | TrailingTokens | UnterminatedString | InvalidInteger | UnexpectedCharacter (c : ascii)
| MaskNotLiteral | ShiftNotLiteral | ExpectedClose | ExpectedColumn | ExpectedCommaOrClose | ExpectedOpenAfterMax | UnexpectedEnd | UnexpectedToken (t : Token).

Definition is_lower (c : ascii) : bool := between 97 122 (N_of_ascii c).
Definition is_upper (c : ascii) : bool := between 65 90 (N_of_ascii c).
Definition is_digit (c : ascii) : bool := between 48 57 (N_of_ascii c).
Definition starts_ident (c : ascii) : bool := is_lower c || is_upper c || Ascii.eqb c "_".
Definition in_ident (c : ascii) : bool := starts_ident c || is_digit c.
Definition is_blank (c : ascii) : bool := let n := N_of_ascii c in (n =? 32) || (n =? 9) || (n =? 10) || (n =? 13).

(** The longest prefix whose characters satisfy [p], and the rest. *)
Fixpoint span (p : ascii -> bool) (l : list ascii) : list ascii * list ascii :=
  match l with
  | c :: rest => if p c then let '(a, b) := span p rest in (c :: a, b) else ([], l)
  | [] => ([], [])
  end.

(** The text of an identifier, integer or string token and what follows; [None] when the
    first character starts none of them.  A slice of a string between ASCII characters is
    a string. *)
Definition word_token (c : ascii) (rest : list ascii) : parsed ExprError (Token * list ascii) :=
  if Ascii.eqb c "'" then
    match span (fun x => negb (Ascii.eqb x "'")) rest with
    | (s, _ :: rest) => POk (TStr (String.string_of_list_ascii s), rest)
    | (_, []) => PErr UnterminatedString
    end
  else if is_digit c then
    let '(digits, rest) := span is_digit (c :: rest) in
    match parse_i64 (String.string_of_list_ascii digits) with
    | Some n => POk (TInt n, rest)
    | None => PErr InvalidInteger
    end
  else if starts_ident c then let '(s, rest) := span in_ident (c :: rest) in POk (TIdent (String.string_of_list_ascii s), rest)
  else PErr (UnexpectedCharacter c).

(** One token; [None] for white space. *)
Definition next_token (c : ascii) (rest : list ascii) : parsed ExprError (option Token * list ascii) :=
  if is_blank c then POk (None, rest)
  else if Ascii.eqb c "(" then POk (Some LParen, rest)
  else if Ascii.eqb c ")" then POk (Some RParen, rest)
  else if Ascii.eqb c "," then POk (Some Comma, rest)
  else match c, rest with
       | ">"%char, ">"%char :: rest => POk (Some ShiftRight, rest)
       | "&"%char, "&"%char :: rest => POk (Some AndAnd, rest)
       | "&"%char, _ => POk (Some Ampersand, rest)
       | "="%char, "="%char :: rest => POk (Some EqEq, rest)
       | "="%char, _ => POk (Some TEq, rest)
       | "!"%char, "="%char :: rest => POk (Some TNotEq, rest)
       | "|"%char, "|"%char :: rest => POk (Some OrOr, rest)
       | _, _ => let^ (t, rest) := word_token c rest in POk (Some t, rest)
       end.

Fixpoint tokenize_from (fuel : nat) (input : list ascii) : parsed ExprError (list Token) :=
  match input with
  | [] => POk []
  | c :: rest =>
      match fuel with
      | O => PFuel
      | S fuel => let^ (t, rest) := next_token c rest in let^ ts := tokenize_from fuel rest in POk (match t with Some t => t :: ts | None => ts end)
      end
  end.

(** A round consumes at least one byte. *)
Definition tokenize (input : string) : parsed ExprError (list Token) := let l := String.list_ascii_of_string input in tokenize_from (length l) l.

(** ** The parser *)

(** The arguments of [max]; the list is never empty when it closes. *)
Fixpoint max_args (tokens : list Token) (args : list string) : parsed ExprError (Expr * list Token) :=
  match tokens with
  | TIdent col :: Comma :: r => max_args r (args ++ [col])
  | TIdent col :: RParen :: r => POk (Max (args ++ [col]), r)
  | TIdent _ :: _ => PErr ExpectedCommaOrClose
  | _ => PErr ExpectedColumn
  end.

Definition ident_atom (name : string) (rest : list Token) : parsed ExprError (Expr * list Token) :=
  if bool_decide (name = "null"%string) then POk (NullLit, rest)
  else if bool_decide (name = "true"%string) then POk (BoolLit true, rest)
  else if bool_decide (name = "false"%string) then POk (BoolLit false, rest)
  else if bool_decide (name = "lookup_key"%string) then POk (LookupKey, rest)
  else if bool_decide (name = "max"%string) then match rest with LParen :: r => max_args r [] | _ => PErr ExpectedOpenAfterMax end
  else POk (Column name, rest).

Definition parse_atom (parse_or : list Token -> parsed ExprError (Expr * list Token)) (tokens : list Token) : parsed ExprError (Expr * list Token) :=
  match tokens with
  | LParen :: rest =>
      let^ (expr, rest) := parse_or rest in
      match rest with RParen :: rest => POk (expr, rest) | _ => PErr ExpectedClose end
  | TInt n :: rest => POk (IntLit n, rest)
  | TStr s :: rest => POk (StrLit s, rest)
  | TIdent name :: rest => ident_atom name rest
  | [] => PErr UnexpectedEnd
  | t :: _ => PErr (UnexpectedToken t)
  end.

(** [left >> right] *)
Definition shift_op (t : Token) : option (Expr -> Expr -> parsed ExprError Expr) :=
  match t with
  | ShiftRight => Some (fun left right =>
      match right with IntLit n => POk (BitfieldExtract left (i64_as_u32 n) u64_max) | _ => PErr ShiftNotLiteral end)
  | _ => None
  end.

(** The mask of an extraction is replaced. *)
Definition with_mask (left : Expr) (mask : N) : Expr :=
  match left with
  | BitfieldExtract expr shift _ => BitfieldExtract expr shift mask
  | other => BitfieldExtract other 0 mask
  end.

Definition bitwise_op (t : Token) : option (Expr -> Expr -> parsed ExprError Expr) :=
  match t with
  | Ampersand => Some (fun left right => match right with IntLit n => POk (with_mask left (i64_as_u64 n)) | _ => PErr MaskNotLiteral end)
  | _ => None
  end.

Definition comparison_op (t : Token) : option (Expr -> Expr -> parsed ExprError Expr) :=
  match t with
  | EqEq | TEq => Some (fun left right => POk (Eq left right))
  | TNotEq => Some (fun left right => POk (NotEq left right))
  | _ => None
  end.

Definition and_op (t : Token) : option (Expr -> Expr -> Expr) := match t with AndAnd => Some And | _ => None end.
Definition or_op (t : Token) : option (Expr -> Expr -> Expr) := match t with OrOr => Some Or | _ => None end.

Section levels.
Context (parse_or : list Token -> parsed ExprError (Expr * list Token)).

Definition parse_shift := infix (parse_atom parse_or) shift_op.
Definition parse_bitwise := infix parse_shift bitwise_op.
Definition parse_comparison := infix parse_bitwise comparison_op.
Definition parse_and := chain parse_comparison and_op.
End levels.

Fixpoint parse_or (fuel : nat) (tokens : list Token) : parsed ExprError (Expr * list Token) :=
  match fuel with
  | O => PFuel
  | S fuel => chain (parse_and (parse_or fuel)) or_op tokens
  end.

(** Parentheses nest at most as deep as there are tokens. *)
Definition parse_expression (input : string) : parsed ExprError Expr :=
  let input := str_trim input in
  if bool_decide (input = ""%string) then PErr EmptyExpression
  else
    let^ tokens := tokenize input in
    let^ (expr, rest) := parse_or (S (length tokens)) tokens in
    match rest with [] => POk expr | _ => PErr TrailingTokens end.

(** ** Display *)

Definition print_z (n : Z) : string := pretty n.

Fixpoint display (e : Expr) : string :=
  (match e with
  | Column name => name
  | IntLit n => print_z n
  | StrLit s => "'" ++ s ++ "'"
  | BoolLit b => if b then "true" else "false"
  | NullLit => "null"
  | LookupKey => "lookup_key"
  | BitfieldExtract expr shift mask => "(" ++ display expr ++ " >> " ++ pretty shift ++ ") & " ++ pretty mask
  | Eq l r => display l ++ " == " ++ display r
  | NotEq l r => display l ++ " != " ++ display r
  | And l r => display l ++ " && " ++ display r
  | Or l r => display l ++ " || " ++ display r
  | Max cols => "max(" ++ String.concat ", " cols ++ ")"
  end)%string.

(** ** Filters and computed fields *)

Record FilterExpression : Type := MkFilterExpression { fe_expr : Expr; fe_source : string }.

Definition filter_parse (source : string) : parsed ExprError FilterExpression :=
  let^ expr := parse_expression source in POk (MkFilterExpression expr source).

Definition filter_eval (f : FilterExpression) (r : CsvRow) (lookup_key : option Z) : bool := as_bool (eval (MkEvalContext r lookup_key) (fe_expr f)).

Definition filter_eval_indexed (f : FilterExpression) (fs : list (option string)) (ci : ColumnIndex) (lookup_key : option Z) : bool :=
  as_bool (eval_indexed (MkIndexedEvalContext fs ci lookup_key) (fe_expr f)).

Record ComputedFieldDef : Type := MkComputedFieldDef { cd_target : string; cd_expr : Expr; cd_source : string; cd_value_column : option string }.

Definition computed_parse (target expression : string) (value_column : option string) : parsed ExprError ComputedFieldDef :=
  let^ expr := parse_expression expression in POk (MkComputedFieldDef target expr expression value_column).

(** The value taken from a column: booleans are not recognised. *)
Definition column_value (val : option string) : option ExprValue :=
  match val with
  | Some val => if bool_decide (val = ""%string) then None else Some (match parse_i64 val with Some n => VInt n | None => VStr val end)
  | None => None
  end.

Definition not_null (v : ExprValue) : option ExprValue := if is_null v then None else Some v.

Definition computed_eval (c : ComputedFieldDef) (r : CsvRow) (lookup_key : option Z) : option ExprValue :=
  let ctx := MkEvalContext r lookup_key in
  match cd_value_column c with
  | Some value_col => if as_bool (eval ctx (cd_expr c)) then column_value (mjoin (r !! value_col)) else None
  | None => not_null (eval ctx (cd_expr c))
  end.

Definition computed_eval_indexed (c : ComputedFieldDef) (fs : list (option string)) (ci : ColumnIndex) (lookup_key : option Z) : option ExprValue :=
  let ctx := MkIndexedEvalContext fs ci lookup_key in
  match cd_value_column c with
  | Some value_col => if as_bool (eval_indexed ctx (cd_expr c)) then column_value (get ctx value_col) else None
  | None => not_null (eval_indexed ctx (cd_expr c))
  end.

End DumpExpr.

Import DumpExpr.

Example bitfield_demo : parse_expression " (flags >> 13) & 1 == 1 && type = 'Checkpoint'" =
  POk (And (Eq (BitfieldExtract (Column "flags") 13 1) (IntLit 1)) (Eq (Column "type") (StrLit "Checkpoint"))).
Proof. vm_compute. reflexivity. Qed.

Example max_demo : parse_expression "max(scannedAtSecs, createdAtSecs)" = POk (Max ["scannedAtSecs"; "createdAtSecs"]%string)
  /\ parse_expression "a || b" = POk (Or (Column "a") (Column "b")) /\ parse_expression "a >> b" = PErr ShiftNotLiteral /\ parse_expression "'x" = PErr UnterminatedString.
Proof. repeat split; vm_compute; reflexivity. Qed.
