(* ===== verification/ExpressionTheorems.v ===== *)
(** * Dump expressions: properties

    The parser accepts exactly the phrases of its grammar and always answers; evaluation
    by column index agrees with evaluation by name; masks. *)

From S2P Require Import Prelude Encoding Float64 Text Parsing Expression.
From Stdlib Require Import Ascii.
Import DumpExpr.
Local Open Scope bitdex_scope.
Local Open Scope nat_scope.

(** ** The grammar *)

Inductive atom_phrase (or_phrase : list Token -> Expr -> Prop) : list Token -> Expr -> Prop :=
| atom_paren pre e : or_phrase pre e -> atom_phrase or_phrase (LParen :: pre ++ [RParen]) e
| atom_int n : atom_phrase or_phrase [TInt n] (IntLit n)
| atom_str s : atom_phrase or_phrase [TStr s] (StrLit s)
| atom_null : atom_phrase or_phrase [TIdent "null"] NullLit
| atom_true : atom_phrase or_phrase [TIdent "true"] (BoolLit true)
| atom_false : atom_phrase or_phrase [TIdent "false"] (BoolLit false)
| atom_lookup : atom_phrase or_phrase [TIdent "lookup_key"] LookupKey
| atom_column name : name ∉ ["null"; "true"; "false"; "lookup_key"; "max"]%string -> atom_phrase or_phrase [TIdent name] (Column name)
| atom_max cols col : atom_phrase or_phrase (TIdent "max" :: LParen :: mjoin ((fun c => [TIdent c; Comma]) <$> cols) ++ [TIdent col; RParen]) (Max (cols ++ [col])).

(** From the tightest to the loosest operators. *)
Definition comparison_phrase (or_phrase : list Token -> Expr -> Prop) := infix_phrase (infix_phrase (infix_phrase (atom_phrase or_phrase) shift_op) bitwise_op) comparison_op.

Inductive or_phrase : list Token -> Expr -> Prop :=
| or_phrase_intro pre e : chain_phrase (chain_phrase (comparison_phrase or_phrase) and_op) or_op pre e -> or_phrase pre e.

(** ** The parser and the grammar *)

Notation eparser := (list Token -> parsed ExprError (Expr * list Token)).

Definition anything (rest : list Token) : Prop := True.

Lemma anything_follows {O : Type} (op : Token -> option O) t r : is_Some (op t) -> anything (t :: r).
Proof. done. Qed.

Lemma atom_nonempty D : nonempty (atom_phrase D).
Proof. intros a H. inversion H. Qed.

(** *** Atoms *)

Lemma max_args_sound tokens args e rest : max_args tokens args = POk (e, rest) ->
  exists cols col, tokens = (mjoin ((fun c => [TIdent c; Comma]) <$> cols) ++ [TIdent col; RParen]) ++ rest /\ e = Max (args ++ cols ++ [col]).
Proof.
  revert args. induction tokens as [tokens IH] using (induction_ltof1 _ (@length _)). unfold ltof in IH. intros args.
  destruct tokens as [|[col| | | | | | | | | | | |] [|[] r]]; cbn [max_args]; try done.
  - intros [= <- <-]. by exists [], col.
  - intros H. apply IH in H as (cols & col' & -> & ->); [|cbn; lia]. exists (col :: cols), col'. split; [done|]. by rewrite <- app_assoc.
Qed.

Lemma max_args_total tokens args : max_args tokens args <> PFuel.
Proof.
  revert args. induction tokens as [tokens IH] using (induction_ltof1 _ (@length _)). unfold ltof in IH. intros args.
  destruct tokens as [|[] [|[] r]]; cbn [max_args]; try done. apply IH. cbn. lia.
Qed.

Lemma max_args_complete cols col args rest : max_args ((mjoin ((fun c => [TIdent c; Comma]) <$> cols) ++ [TIdent col; RParen]) ++ rest) args = POk (Max (args ++ cols ++ [col]), rest).
Proof. revert args. induction cols as [|c cols IH]; intros args; [done|]. cbn. rewrite IH. by rewrite <- app_assoc. Qed.

Lemma ident_atom_sound D name rest e rest' : ident_atom name rest = POk (e, rest') -> exists pre, TIdent name :: rest = pre ++ rest' /\ atom_phrase D pre e.
Proof.
  unfold ident_atom. repeat (case_bool_decide; [subst|]); try (intros [= <- <-]; eexists [_]; split; [done|constructor]).
  - destruct rest as [|[] r]; try done. intros (cols & col & -> & ->)%max_args_sound.
    exists (TIdent "max" :: LParen :: mjoin ((fun c => [TIdent c; Comma]) <$> cols) ++ [TIdent col; RParen]). split; [done|constructor].
  - rewrite !not_elem_of_cons. split_and!; try done. apply not_elem_of_nil.
Qed.

Lemma atom_sound (rec : eparser) D : sound rec D -> sound (parse_atom rec) (atom_phrase D).
Proof.
  intros Hs [|t ts] a rest; [done|]. destruct t; cbn [parse_atom]; try done.
  - apply ident_atom_sound.
  - intros [= <- <-]. eexists [_]. split; [done|constructor].
  - intros [= <- <-]. eexists [_]. split; [done|constructor].
  - rewrite pbind_ok. intros ([e r] & (pre & -> & Hd)%Hs & H). destruct r as [|[] r]; try done. injection H as <- <-.
    exists (LParen :: pre ++ [RParen]). split; [cbn; by rewrite <- app_assoc|by constructor].
Qed.

Lemma atom_total (rec : eparser) n : total_below rec n -> total_below (parse_atom rec) (S n).
Proof.
  intros Ht [|t ts] Hl; [done|]. destruct t; cbn [parse_atom]; try done.
  - unfold ident_atom. repeat case_bool_decide; try done. destruct ts as [|[] r]; try done. apply max_args_total.
  - cbn [length] in Hl. destruct (rec ts) as [[e r]|?|] eqn:E; cbn [pbind]; [by destruct r as [|[] r]|done|]. apply Ht in E; [done|lia].
Qed.

Lemma atom_complete (rec : eparser) D (follow : list Token -> Prop) n :
  (forall r, follow (RParen :: r)) -> complete_below rec D follow n -> complete_below (parse_atom rec) (atom_phrase D) anything (S n).
Proof.
  intros Hf Hc pre a rest Hd _ Hl. destruct Hd as [pre e Hd| | | | | | |name Hn|cols col]; try done.
  - cbn [app parse_atom] in *. rewrite <- app_assoc in *. cbn [length app] in *. by rewrite (Hc pre e (RParen :: rest) Hd (Hf _)) by lia.
  - cbn [app parse_atom]. unfold ident_atom. rewrite !not_elem_of_cons in Hn. destruct_and!. by rewrite !bool_decide_eq_false_2 by done.
  - cbn [app parse_atom]. unfold ident_atom. do 4 rewrite bool_decide_eq_false_2 by done. rewrite bool_decide_eq_true_2 by done. apply max_args_complete.
Qed.

(** *** All levels *)

Lemma comparison_nonempty D : nonempty (comparison_phrase D).
Proof. apply infix_nonempty, infix_nonempty, infix_nonempty, atom_nonempty. Qed.

Lemma comparison_sound rec D : sound rec D -> sound (parse_comparison rec) (comparison_phrase D).
Proof. intros Hs. by apply infix_sound, infix_sound, infix_sound, atom_sound. Qed.

Lemma comparison_total rec D n : sound rec D -> total_below rec n -> total_below (parse_comparison rec) (S n).
Proof.
  intros Hs Ht. assert (sound (parse_atom rec) (atom_phrase D)) as Ha by by apply atom_sound.
  eapply infix_total; [by apply infix_sound, infix_sound|apply infix_nonempty, infix_nonempty, atom_nonempty|by intros [] ? ? ? [= <-]|].
  eapply infix_total; [by apply infix_sound|apply infix_nonempty, atom_nonempty|intros [] ? l r [= <-]; by destruct r|].
  eapply infix_total; [done|apply atom_nonempty|intros [] ? l r [= <-]; by destruct r|]. by apply atom_total.
Qed.

(** What may follow a comparison, and a whole expression. *)
Definition after_comparison : list Token -> Prop := ends comparison_op (ends bitwise_op (ends shift_op anything)).
Definition after_expression : list Token -> Prop := ends or_op (ends and_op after_comparison).

Ltac operator_follows := intros [] r [? [=]]; repeat split.

Lemma comparison_complete rec D n : (forall r, after_expression (RParen :: r)) -> complete_below rec D after_expression n ->
  complete_below (parse_comparison rec) (comparison_phrase D) after_comparison (S n).
Proof.
  intros Hf Hc. apply infix_complete; [apply infix_nonempty, infix_nonempty, atom_nonempty|operator_follows|].
  apply infix_complete; [apply infix_nonempty, atom_nonempty|operator_follows|].
  apply infix_complete; [apply atom_nonempty|operator_follows|]. by eapply atom_complete.
Qed.

Lemma parse_or_sound fuel : sound (parse_or fuel) or_phrase.
Proof.
  induction fuel as [|fuel IH]; [done|]. intros ts a rest H. cbn [parse_or] in H.
  apply (chain_sound _ _ _ (chain_sound _ _ _ (comparison_sound _ _ IH))) in H as (pre & -> & Hd). exists pre. split; [done|by constructor].
Qed.

Lemma parse_or_total fuel : total_below (parse_or fuel) fuel.
Proof.
  induction fuel as [|fuel IH]; [intros ts Hl; lia|]. pose proof (comparison_sound _ _ (parse_or_sound fuel)) as Hs.
  eapply chain_total; [by apply chain_sound|apply chain_nonempty, comparison_nonempty|].
  eapply chain_total; [done|apply comparison_nonempty|]. eapply comparison_total; [apply parse_or_sound|done].
Qed.

Lemma close_follows r : after_expression (RParen :: r).
Proof. done. Qed.

Lemma parse_or_complete fuel : complete_below (parse_or fuel) or_phrase after_expression fuel.
Proof.
  induction fuel as [|fuel IH]; [intros pre a rest _ _ Hl; lia|]. pose proof (comparison_sound _ _ (parse_or_sound fuel)) as Hs. intros pre a rest [pre' a' Hd] Hf Hl.
  revert Hd Hf Hl. apply chain_complete; [by apply chain_sound|apply chain_nonempty, comparison_nonempty|operator_follows|].
  apply chain_complete; [done|apply comparison_nonempty|operator_follows|]. apply comparison_complete; [apply close_follows|done].
Qed.

(** *** The tokenizer answers *)

Lemma span_app p l : (span p l).1 ++ (span p l).2 = l.
Proof. induction l as [|c l IH]; [done|]. cbn [span]. destruct (p c); [|done]. destruct (span p l). cbn in *. by rewrite IH. Qed.

Lemma span_rest p l : length (span p l).2 <= length l.
Proof. rewrite <- (span_app p l) at 2. rewrite length_app. lia. Qed.

Lemma span_head p c l : p c = true -> length (span p (c :: l)).2 <= length l.
Proof. intros H. cbn [span]. rewrite H. pose proof (span_rest p l). by destruct (span p l). Qed.

Lemma next_token_shorter c rest t rest' : next_token c rest = POk (t, rest') -> length rest' <= length rest.
Proof.
  assert (forall t r, word_token c rest = POk (t, r) -> length r <= length rest) as Hw.
  { intros t0 r0. unfold word_token. destruct (Ascii.eqb c "'").
    - pose proof (span_rest (fun x => negb (Ascii.eqb x "'")) rest) as Hs. destruct (span _ rest) as [s [|x r]]; [done|]. intros [= _ <-]. cbn in *. lia.
    - destruct (is_digit c) eqn:Ed; [pose proof (span_head is_digit c rest Ed) as Hs; destruct (span is_digit (c :: rest)); destruct (parse_i64 _); [|done]; by intros [= _ <-]|].
      destruct (starts_ident c) eqn:Ei; [|done]. pose proof (span_head in_ident c rest) as Hs. unfold in_ident at 1 in Hs. rewrite Ei in Hs. specialize (Hs eq_refl).
      destruct (span in_ident (c :: rest)). by intros [= _ <-]. }
  assert (forall t r, (let^ (t0, rest0) := word_token c rest in POk (Some t0, rest0)) = POk (t, r) -> length r <= length rest) as Hw'.
  { intros t0 r0. rewrite pbind_ok. intros ([t1 r1] & H1%Hw & [= _ <-]). done. }
  unfold next_token. repeat (match goal with |- context [if ?b then _ else _] => destruct b; [by intros [= _ <-]|] end).
  destruct c as [[] [] [] [] [] [] [] []]; try apply Hw'; destruct rest as [|[[] [] [] [] [] [] [] []] rest]; try apply Hw'; try (intros [= _ <-]; cbn; lia).
Qed.

Lemma next_token_total c rest : next_token c rest <> PFuel.
Proof.
  assert (word_token c rest <> PFuel) as Hw by (unfold word_token; repeat case_match; done).
  assert ((let^ (t, r) := word_token c rest in POk (Some t, r)) <> PFuel) as Hw' by (destruct (word_token c rest) as [[]| |]; done).
  unfold next_token. repeat (match goal with |- context [if ?b then _ else _] => destruct b; [done|] end).
  destruct c as [[] [] [] [] [] [] [] []]; try apply Hw'; destruct rest as [|[[] [] [] [] [] [] [] []] rest]; try apply Hw'; done.
Qed.

Lemma tokenize_total fuel l : length l <= fuel -> tokenize_from fuel l <> PFuel.
Proof.
  revert l. induction fuel as [|fuel IH]; intros [|c l] Hl; try done; [cbn in Hl; lia|]. cbn [tokenize_from length] in *. pose proof (next_token_total c l).
  destruct (next_token c l) as [[t r]|?|] eqn:E; cbn [pbind]; [|done|done]. apply next_token_shorter in E. specialize (IH r ltac:(lia)). by destruct (tokenize_from fuel r).
Qed.

(** C33: the parser decides its grammar: it returns an expression exactly when the trimmed
    input is not empty and its tokens form a phrase of the grammar (parentheses, then
    shift, mask, comparison, conjunction, disjunction, the last two folded to the left)
    for that expression; the fuel it is given is always enough, whatever the input. *)
Theorem expression_grammar input e :
  (parse_expression input = POk e <-> str_trim input <> ""%string /\ exists tokens, tokenize (str_trim input) = POk tokens /\ or_phrase tokens e)
  /\ parse_expression input <> PFuel.
Proof.
  unfold parse_expression. set (s := str_trim input). split.
  - case_bool_decide as He; [by split; [|intros [? _]]|]. rewrite pbind_ok. setoid_rewrite pbind_ok. split.
    + intros (tokens & Ht & [e' rest] & Hp & H). destruct rest; [|done]. injection H as ->. split; [done|]. exists tokens. split; [done|].
      apply parse_or_sound in Hp as (pre & -> & Hd). by rewrite app_nil_r.
    + intros [_ (tokens & Ht & Hd)]. exists tokens. split; [done|]. exists (e, []). split; [|done].
      rewrite <- (app_nil_r tokens) at 2. apply parse_or_complete; [done|done|]. rewrite app_nil_r. lia.
  - case_bool_decide; [done|]. unfold tokenize. pose proof (tokenize_total (length (String.list_ascii_of_string s)) (String.list_ascii_of_string s) ltac:(lia)) as Ht.
    destruct (tokenize_from _ _) as [tokens|?|]; cbn [pbind]; [|done|done]. pose proof (parse_or_total (S (length tokens)) tokens ltac:(lia)) as Hp.
    destruct (parse_or _ tokens) as [[e' rest]|?|]; cbn [pbind]; [by destruct rest|done|done].
Qed.

(** Every expression has one reading. *)
Lemma grammar_unambiguous tokens e1 e2 : or_phrase tokens e1 -> or_phrase tokens e2 -> e1 = e2.
Proof.
  intros H1 H2. pose proof (parse_or_complete (S (length tokens)) tokens e1 [] H1) as P1. pose proof (parse_or_complete (S (length tokens)) tokens e2 [] H2) as P2.
  rewrite app_nil_r in *. assert (after_expression []) as Hf by done. specialize (P1 Hf ltac:(lia)). specialize (P2 Hf ltac:(lia)). congruence.
Qed.

(** ** Evaluation by index *)

Lemma column_index_lookup headers name i : NoDup headers -> build_column_index headers !! name = Some i <-> headers !! i = Some name.
Proof.
  unfold build_column_index. revert i. induction headers as [|x headers IH] using rev_ind; intros i; [done|]. rewrite NoDup_app, imap_app, foldl_app. cbn [imap foldl].
  intros (Hn & Hx & _). destruct (decide (name = x)) as [->|Hne].
  - rewrite Nat.add_0_r, lookup_insert_eq. split; [intros [= <-]; by rewrite list_lookup_middle|]. rewrite lookup_snoc_Some. intros [[_ Hi]|[-> _]]; [|done].
    exfalso. apply (Hx x); [by eapply list_elem_of_lookup_2|by left].
  - rewrite lookup_insert_ne by done. rewrite (IH i Hn). rewrite lookup_snoc_Some. split; [intros H; left; split; [by eapply lookup_lt_Some|done]|]. by intros [[_ ?]|[_ ->]].
Qed.

Lemma row_lookup (headers : list string) (fs : list (option string)) name : NoDup headers ->
  (list_to_map (zip headers fs) : gmap string (option string)) !! name = (build_column_index headers !! name) ≫= fun i => fs !! i.
Proof.
  intros Hn. apply option_eq. intros v. rewrite <- elem_of_list_to_map.
  - rewrite bind_Some. setoid_rewrite column_index_lookup; [|done]. rewrite list_elem_of_lookup. setoid_rewrite lookup_zip_Some. naive_solver.
  - revert fs Hn. clear. intros fs. revert headers. induction fs as [|v fs IH]; intros [|h headers] Hn; cbn; try constructor.
    + apply NoDup_cons in Hn as [Hh _]. intros Hin. apply Hh. clear -Hin. revert fs Hin. induction headers as [|x headers IH]; intros [|v fs] H; cbn in H; try by apply not_elem_of_nil in H.
      apply elem_of_cons in H as [->|H]; [by left|right; by eapply IH].
    + apply NoDup_cons in Hn as [_ Hn]. by apply IH.
Qed.

Section indexed.
Context (headers : list string) (fs : list (option string)) (key : option Z).
Hypothesis Hheaders : NoDup headers.

Notation by_name := (MkEvalContext (list_to_map (zip headers fs)) key).
Notation by_index := (MkIndexedEvalContext fs (build_column_index headers) key).

Lemma get_agrees name : get by_index name = mjoin (row by_name !! name).
Proof. unfold get. cbn [row col_idx fields]. rewrite row_lookup by done. by destruct (build_column_index headers !! name). Qed.

Lemma eval_agrees e : eval_indexed by_index e = eval by_name e.
Proof.
  induction e as [name| | | | | |e IH shift mask|l IHl r IHr|l IHl r IHr|l IHl r IHr|l IHl r IHr|cols]; cbn [eval eval_indexed]; rewrite ?IH, ?IHl, ?IHr; try done.
  - rewrite get_agrees. by destruct (row by_name !! name) as [[val|]|].
  - f_equal. assert (forall m, foldl (fun m col => max_step m (get by_index col)) m cols = foldl (fun m col => max_step m (mjoin (row by_name !! col))) m cols) as H; [|by rewrite H].
    induction cols as [|c cols IH]; intros m; [done|]. cbn [foldl]. by rewrite get_agrees, IH.
Qed.

End indexed.

(** C34: the two evaluators agree: for a header without duplicates, evaluating a filter or a
    computed field against the cells of a row by column index gives what evaluating it
    against the row as a map from names to cells gives, also for rows shorter or longer
    than the header. *)
Theorem indexed_evaluation_agrees (headers : list string) (fs : list (option string)) (key : option Z) (f : FilterExpression) (c : ComputedFieldDef) :
  NoDup headers ->
  filter_eval_indexed f fs (build_column_index headers) key = filter_eval f (list_to_map (zip headers fs)) key
  /\ computed_eval_indexed c fs (build_column_index headers) key = computed_eval c (list_to_map (zip headers fs)) key.
Proof.
  intros Hn. unfold filter_eval_indexed, filter_eval, computed_eval_indexed, computed_eval. rewrite !eval_agrees by done. split; [done|].
  destruct (cd_value_column c) as [col|]; [|done]. by rewrite (get_agrees headers fs key Hn col).
Qed.

(** ** Masks *)

(** A mask on a shift, or on anything that is not an extraction, is the bitwise and. *)
Lemma mask_exact ctx left mask :
  match left with BitfieldExtract _ _ m => m = u64_max | _ => True end ->
  as_i64 (eval ctx (with_mask left mask)) = (fun n => Z.land n (u64_as_i64 mask)) <$> as_i64 (eval ctx left).
Proof.
  intros H. assert (forall e, as_i64 (eval ctx (BitfieldExtract e 0 mask)) = (fun n => Z.land n (u64_as_i64 mask)) <$> as_i64 (eval ctx e)) as H0.
  { intros e. cbn [eval]. by destruct (as_i64 (eval ctx e)). }
  destruct left as [| | | | | |e shift m| | | | |]; try apply H0. subst m. cbn [with_mask eval]. destruct (as_i64 (eval ctx e)) as [n|]; [|done].
  cbn [as_i64 fmap option_fmap option_map]. unfold extract. replace (u64_as_i64 u64_max) with (-1)%Z by done. by rewrite Z.land_m1_r.
Qed.

(** A second mask replaces the first. *)
Lemma inner_mask_lost : parse_expression "(flags & 1) & 2" = POk (BitfieldExtract (Column "flags") 0 2).
Proof. vm_compute. reflexivity. Qed.

Lemma string_app_assoc (a b c : string) : ((a ++ b) ++ c = a ++ (b ++ c))%string.
Proof. induction a as [|x a IH]; [done|]. change (String x ((a ++ b) ++ c) = String x (a ++ (b ++ c)))%string. by rewrite IH. Qed.

(** Printing drops parentheses. *)
Lemma display_drops_grouping (a b c : Expr) : display (And (Or a b) c) = display (Or a (And b c)).
Proof. cbn [display]. by rewrite !string_app_assoc. Qed.

(** ** Witnesses *)

Definition demo_headers : list string := ["id"; "flags"; "type"]%string.

Lemma indexed_evaluation_agrees_witness :
  filter_eval_indexed (MkFilterExpression (Eq (BitfieldExtract (Column "flags") 13 1) (IntLit 1)) "") [Some "7"; Some "8192"]%string (build_column_index demo_headers) None = true
  /\ computed_eval_indexed (MkComputedFieldDef "kind" (Column "type") "" None) [Some "7"; Some "8192"]%string (build_column_index demo_headers) None = None.
Proof.
  assert (NoDup demo_headers) as Hn by (apply (bool_decide_unpack _); vm_compute; reflexivity).
  destruct (indexed_evaluation_agrees demo_headers [Some "7"; Some "8192"]%string None (MkFilterExpression (Eq (BitfieldExtract (Column "flags") 13 1) (IntLit 1)) "")
    (MkComputedFieldDef "kind" (Column "type") "" None) Hn) as [-> ->]. split; vm_compute; reflexivity.
Defined.
