(* ===== verification/Parsers.v ===== *)
(** * Query parsers (src/parser/)

    The three surface syntaxes of queries: the JSON format, the compact format and the
    Meilisearch filter strings, and the registry that chooses between them.  Reading JSON
    text is the interface [JsonText]; an object is the list of its entries in key order,
    with distinct keys.  Error messages are constructors. *)

From S2P Require Import Prelude Encoding Float64 Query Ops OpsWal DocShards Text Parsing Expression.
From Stdlib Require Import Ascii.
Local Open Scope bitdex_scope.

Inductive QueryError : Type :=
| InvalidJson | NotAnObject | NestingTooDeep | FieldNameExpected | EmptyField | EmptyCompound | ArrayExpected | OpExpected | ValueExpected | InvalidValue
| UnsupportedOp | SortExpected | InvalidDirection | InvalidLimit | ZeroLimit | InvalidOffset | InvalidCursor | SlotTooLarge | InvalidPage | UnknownFormat
| UnterminatedLiteral | UnexpectedByte | NullExpected | InExpected | ToExpected | OperatorExpected | FilterExpected | ListExpected | TrailingToken.

Notation presult := (parsed QueryError).

Definition ok_or {A : Type} (o : option A) (e : QueryError) : presult A := match o with Some a => POk a | None => PErr e end.

(** ** JSON values *)

Definition as_object (v : JsonValue) : option (list (string * JsonValue)) := match v with JObject fields => Some fields | _ => None end.
Definition as_array (v : JsonValue) : option (list JsonValue) := match v with JArray vs => Some vs | _ => None end.
Definition as_str (v : JsonValue) : option string := match v with JString s => Some s | _ => None end.
Definition as_bool (v : JsonValue) : option bool := match v with JBool b => Some b | _ => None end.
Definition as_u64 (v : JsonValue) : option N :=
  match v with JInt n => if ((0 <=? n) && (n <=? 18446744073709551615))%Z then Some (Z.to_N n) else None | _ => None end.

Definition obj_get (obj : list (string * JsonValue)) (key : string) : option JsonValue := snd <$> List.find (fun kv => bool_decide (kv.1 = key)) obj.

(** Both parsers have this function; numbers outside [i64] become floats. *)
Definition json_to_value (json : JsonValue) : presult Value :=
  match json with
  | JInt n => POk (if in_i64 n then Integer n else Float (f64_of_Z n))
  | JFloat f => POk (Float f)
  | JBool b => POk (Bool b)
  | JString s => POk (Str s)
  | JNull | JArray _ | JObject _ => PErr InvalidValue
  end.

Definition MAX_PAGE_LIMIT : N := 10000.
Definition MAX_NESTING_DEPTH : nat := 16.

(** ** The JSON format *)

Module JsonQuery.

Definition DEFAULT_LIMIT : N := 50.

Record RawQuery : Type := MkRawQuery {
  raw_filters : option JsonValue;
  raw_sort : option JsonValue;
  raw_limit : option N;
  raw_cursor : option JsonValue;
  raw_offset : option N;
  raw_skip_cache : bool;
}.

(** Derived deserialization: an optional member that is absent or null is [None]. *)
Definition optional {A : Type} (read : JsonValue -> option A) (v : option JsonValue) : option (option A) :=
  match v with
  | None | Some JNull => Some None
  | Some v => Some <$> read v
  end.

(** The members as an object gives them by name, or an array by position (five of them, or
    six with the flag). *)
Definition raw_from_json (v : JsonValue) : option RawQuery :=
  let read filters sort limit cursor offset skip :=
    limit ← optional as_u64 limit; offset ← optional as_u64 offset;
    filters ← optional Some filters; sort ← optional Some sort; cursor ← optional Some cursor;
    skip ← match skip with None => Some false | Some v => as_bool v end;
    Some (MkRawQuery filters sort limit cursor offset skip) in
  match v with
  | JObject obj => read (obj_get obj "filters") (obj_get obj "sort") (obj_get obj "limit") (obj_get obj "cursor") (obj_get obj "offset") (obj_get obj "skip_cache")
  | JArray [f; s; l; c; o] => read (Some f) (Some s) (Some l) (Some c) (Some o) None
  | JArray [f; s; l; c; o; k] => read (Some f) (Some s) (Some l) (Some c) (Some o) (Some k)
  | _ => None
  end.

(** The key as it is written, then in lower case. *)
Definition get_case_insensitive (obj : list (string * JsonValue)) (key : string) : option JsonValue :=
  match obj_get obj key with Some v => Some v | None => obj_get obj (to_ascii_lowercase key) end.

Definition field_name (v : option JsonValue) : presult string :=
  let^ field := ok_or (v ≫= as_str) FieldNameExpected in if bool_decide (field = ""%string) then PErr EmptyField else POk field.

Section filters.
Context {B : Type}.

Definition compound (build : list (FilterClause B) -> FilterClause B) (clauses : list (FilterClause B)) : presult (FilterClause B) :=
  match clauses with [] => PErr EmptyCompound | _ => POk (build clauses) end.

(** A clause on one field. *)
Definition simple_clause (obj : list (string * JsonValue)) (field op : string) : presult (FilterClause B) :=
  let value := ok_or (obj_get obj "value") ValueExpected in
  let compare build := let^ raw := value in let^ val := json_to_value raw in POk (build field val) in
  if bool_decide (op = "is_null"%string) then POk (IsNull field)
  else if bool_decide (op = "is_not_null"%string) then POk (IsNotNull field)
  else if bool_decide (op = "eq"%string) then
    let^ raw := value in match raw with JNull => POk (IsNull field) | _ => let^ val := json_to_value raw in POk (Eq field val) end
  else if bool_decide (op = "not_eq"%string) then
    let^ raw := value in match raw with JNull => POk (IsNotNull field) | _ => let^ val := json_to_value raw in POk (NotEq field val) end
  else if bool_decide (op = "in"%string) then
    let^ raw := ok_or (obj_get obj "value" ≫= as_array) ArrayExpected in let^ values := pmap json_to_value raw in POk (In field values)
  else if bool_decide (op = "gt"%string) then compare Gt
  else if bool_decide (op = "lt"%string) then compare Lt
  else if bool_decide (op = "gte"%string) then compare Gte
  else if bool_decide (op = "lte"%string) then compare Lte
  else PErr UnsupportedOp.

(** [levels] is what is left of the nesting depth: depth 0 has 17 levels, and a clause
    deeper than 16 has none. *)
Fixpoint parse_filter_node (levels : nat) (value : JsonValue) : presult (FilterClause B) :=
  match levels with
  | O => PErr NestingTooDeep
  | S levels =>
      let parse_filter_array v := let^ arr := ok_or (as_array v) ArrayExpected in pmap (parse_filter_node levels) arr in
      let^ obj := ok_or (as_object value) NotAnObject in
      match get_case_insensitive obj "IsNull" with
      | Some v => let^ field := field_name (Some v) in POk (IsNull field)
      | None =>
      match get_case_insensitive obj "IsNotNull" with
      | Some v => let^ field := field_name (Some v) in POk (IsNotNull field)
      | None =>
      match get_case_insensitive obj "AND" with
      | Some v => let^ clauses := parse_filter_array v in compound And clauses
      | None =>
      match get_case_insensitive obj "OR" with
      | Some v => let^ clauses := parse_filter_array v in compound Or clauses
      | None =>
      match get_case_insensitive obj "NOT" with
      | Some v => let^ inner := parse_filter_node levels v in POk (Not inner)
      | None =>
          let^ field := field_name (obj_get obj "field") in
          let^ op := ok_or (obj_get obj "op" ≫= as_str) OpExpected in
          simple_clause obj field op
      end end end end end
  end.

Definition parse_direction (s : string) : presult SortDirection :=
  if bool_decide (s = "asc"%string) then POk Asc else if bool_decide (s = "desc"%string) then POk Desc else PErr InvalidDirection.

Definition parse_sort (value : JsonValue) : presult SortClause :=
  let^ obj := ok_or (as_object value) SortExpected in
  let^ field := field_name (obj_get obj "field") in
  let^ direction := parse_direction (default "asc"%string (obj_get obj "direction" ≫= as_str)) in
  POk (MkSortClause field direction).

Definition parse_cursor (value : JsonValue) : presult CursorPosition :=
  let^ obj := ok_or (as_object value) InvalidCursor in
  let^ sort_value := ok_or (obj_get obj "sort_value" ≫= as_u64) InvalidCursor in
  let^ slot_id := ok_or (obj_get obj "slot_id" ≫= as_u64) InvalidCursor in
  if u32_max <? slot_id then PErr SlotTooLarge else POk (MkCursorPosition sort_value slot_id).

(** [map(f).transpose()?] *)
Definition transpose {A C : Type} (o : option A) (f : A -> presult C) : presult (option C) :=
  match o with None => POk None | Some a => let^ c := f a in POk (Some c) end.

Definition parse_raw (raw : RawQuery) : presult (BitdexQuery B) :=
  let^ filters := match raw_filters raw with Some v => let^ c := parse_filter_node (S MAX_NESTING_DEPTH) v in POk [c] | None => POk [] end in
  let^ sort := transpose (raw_sort raw) parse_sort in
  let limit := N.min (default DEFAULT_LIMIT (raw_limit raw)) MAX_PAGE_LIMIT in
  if limit =? 0 then PErr ZeroLimit
  else let^ cursor := transpose (raw_cursor raw) parse_cursor in
       POk (MkBitdexQuery filters sort limit cursor (raw_offset raw) (raw_skip_cache raw)).

Definition parse `{JT : JsonText} (input : string) : presult (BitdexQuery B) :=
  match json_from_str input ≫= raw_from_json with Some raw => parse_raw raw | None => PErr InvalidJson end.

End filters.
End JsonQuery.

(** ** The compact format *)

Module CompactQuery.

Section filters.
Context {B : Type}.

(** One clause, or the conjunction of the clauses. *)
Definition as_one (clauses : list (FilterClause B)) : FilterClause B := match clauses with [c] => c | _ => And clauses end.

Definition parse_operator (field op : string) (v : JsonValue) : presult (FilterClause B) :=
  let compare build := let^ val := json_to_value v in POk (build field val) in
  let membership build := let^ arr := ok_or (as_array v) ArrayExpected in let^ values := pmap json_to_value arr in POk (build field values) in
  if bool_decide (op = "$exists"%string) then let^ exists_ := ok_or (as_bool v) InvalidValue in POk (if exists_ : bool then IsNotNull field else IsNull field)
  else if bool_decide (op = "$eq"%string) then match v with JNull => POk (IsNull field) | _ => compare Eq end
  else if bool_decide (op = "$ne"%string) then match v with JNull => POk (IsNotNull field) | _ => compare NotEq end
  else if bool_decide (op = "$gt"%string) then compare Gt
  else if bool_decide (op = "$gte"%string) then compare Gte
  else if bool_decide (op = "$lt"%string) then compare Lt
  else if bool_decide (op = "$lte"%string) then compare Lte
  else if bool_decide (op = "$in"%string) then membership In
  else if bool_decide (op = "$nin"%string) then membership NotIn
  else PErr UnsupportedOp.

Definition parse_field_predicate (field : string) (value : JsonValue) : presult (list (FilterClause B)) :=
  if bool_decide (field = ""%string) then PErr EmptyField
  else match value with
       | JInt _ | JFloat _ | JBool _ | JString _ => let^ val := json_to_value value in POk [Eq field val]
       | JArray arr => let^ values := pmap json_to_value arr in POk [In field values]
       | JObject ops => pmap (fun kv => parse_operator field kv.1 kv.2) ops
       | JNull => POk [IsNull field]
       end.

Fixpoint parse_filter_object (levels : nat) (value : JsonValue) : presult (list (FilterClause B)) :=
  match levels with
  | O => PErr NestingTooDeep
  | S levels =>
      let^ obj := ok_or (as_object value) NotAnObject in
      let items v := let^ arr := ok_or (as_array v) ArrayExpected in
                     match arr with [] => PErr EmptyCompound | _ => pmap (parse_filter_object levels) arr end in
      let^ parts := pmap (fun kv : string * JsonValue =>
          if bool_decide (kv.1 = "$or"%string) then let^ inner := items kv.2 in POk [Or (as_one <$> inner)]
          else if bool_decide (kv.1 = "$and"%string) then let^ inner := items kv.2 in POk [And (mjoin inner)]
          else if bool_decide (kv.1 = "$not"%string) then let^ inner := parse_filter_object levels kv.2 in POk [Not (as_one inner)]
          else parse_field_predicate kv.1 kv.2) obj in
      POk (mjoin parts)
  end.

Definition parse_sort_string (s : string) : presult SortClause :=
  let s := str_trim s in
  if bool_decide (s = ""%string) then PErr EmptyField
  else let '(field, direction) := match s with String "-"%char field => (field, Desc) | _ => (s, Asc) end in
       if bool_decide (field = ""%string) then PErr EmptyField else POk (MkSortClause field direction).

Definition parse_cursor_string (s : string) : presult CursorPosition :=
  match split_str ":" s with
  | [a; b] =>
      let^ sort_value := ok_or (parse_dec u64_max a) InvalidCursor in
      let^ slot_id := ok_or (parse_dec u64_max b) InvalidCursor in
      if u32_max <? slot_id then PErr SlotTooLarge else POk (MkCursorPosition sort_value slot_id)
  | _ => PErr InvalidCursor
  end.

(** The limit and the offset, which the Meilisearch format reads the same way. *)
Definition parse_limit (default_limit : N) (obj : list (string * JsonValue)) : presult N :=
  let^ limit := match obj_get obj "limit" with Some v => ok_or (as_u64 v) InvalidLimit | None => POk default_limit end in
  let limit := N.min limit MAX_PAGE_LIMIT in if limit =? 0 then PErr ZeroLimit else POk limit.

Definition parse_offset (obj : list (string * JsonValue)) : presult (option N) :=
  match obj_get obj "offset" with
  | Some JNull | None => POk None
  | Some v => let^ n := ok_or (as_u64 v) InvalidOffset in POk (Some n)
  end.

Definition parse_skip_cache (obj : list (string * JsonValue)) : bool := default false (obj_get obj "skip_cache" ≫= as_bool).

Definition parse_object (obj : list (string * JsonValue)) : presult (BitdexQuery B) :=
  let^ filters := match obj_get obj "filter" with Some v => parse_filter_object (S MAX_NESTING_DEPTH) v | None => POk [] end in
  let^ sort := match obj_get obj "sort" with
               | Some (JString s) => let^ c := parse_sort_string s in POk (Some c)
               | Some _ => PErr SortExpected
               | None => POk None
               end in
  let^ limit := parse_limit JsonQuery.DEFAULT_LIMIT obj in
  let^ offset := parse_offset obj in
  let^ cursor := match obj_get obj "cursor" with
                 | Some (JString s) => let^ c := parse_cursor_string s in POk (Some c)
                 | Some JNull | None => POk None
                 | Some _ => PErr InvalidCursor
                 end in
  POk (MkBitdexQuery filters sort limit cursor offset (parse_skip_cache obj)).

Definition parse `{JT : JsonText} (input : string) : presult (BitdexQuery B) :=
  let^ raw := ok_or (json_from_str input) InvalidJson in
  let^ obj := ok_or (as_object raw) NotAnObject in parse_object obj.

End filters.
End CompactQuery.

(** ** The Meilisearch format *)

Module MeiliQuery.

Definition DEFAULT_LIMIT : N := 20.

(** [Eof] is the end of the token list. *)
Inductive Token : Type :=
| TIdent (s : string) | TStr (s : string) | TNumber (n : spec_float)
| TTrue | TFalse | TNull | TIs | TEq | TNotEq | TGt | TGte | TLt | TLte | TAnd | TOr | TNot | TIn | TTo
| TLParen | TRParen | TLBracket | TRBracket | TComma.

(** *** Tokens *)

Definition is_ascii_whitespace (c : ascii) : bool := let n := N_of_ascii c in (n =? 32) || (n =? 9) || (n =? 10) || (n =? 12) || (n =? 13).

(** A quoted string: a backslash keeps the next character from closing it; both stay in the
    text. *)
Fixpoint quoted (quote : ascii) (l : list ascii) : option (list ascii * list ascii) :=
  match l with
  | [] => None
  | c :: rest =>
      if Ascii.eqb c quote then Some ([], rest)
      else match rest with
           | d :: rest' => if Ascii.eqb c "092" then '(s, r) ← quoted quote rest'; Some (c :: d :: s, r)
                           else '(s, r) ← quoted quote rest; Some (c :: s, r)
           | [] => None
           end
  end.

(** An optional minus sign, digits, and digits after a point. *)
Definition read_number (l : list ascii) : presult (Token * list ascii) :=
  let '(sign, l) := match l with "-"%char :: rest => (["-"%char], rest) | _ => ([], l) end in
  let '(whole, l) := DumpExpr.span DumpExpr.is_digit l in
  let '(fraction, l) := match l with "."%char :: rest => let '(ds, r) := DumpExpr.span DumpExpr.is_digit rest in ("."%char :: ds, r) | _ => ([], l) end in
  match parse_f64 (String.string_of_list_ascii (sign ++ whole ++ fraction)) with
  | Some n => POk (TNumber n, l)
  | None => PErr InvalidValue
  end.

Definition keyword (word : string) : Token :=
  let word_is a b := bool_decide (word = a) || bool_decide (word = b) in
  if word_is "AND" "and" then TAnd else if word_is "OR" "or" then TOr else if word_is "NOT" "not" then TNot else if word_is "IN" "in" then TIn
  else if word_is "TO" "to" then TTo else if word_is "IS" "is" then TIs else if word_is "NULL" "null" then TNull
  else if word_is "true" "TRUE" then TTrue else if word_is "false" "FALSE" then TFalse else TIdent word.

(** The token that starts with [c]. *)
Definition next_token (c : ascii) (rest : list ascii) : presult (Token * list ascii) :=
  let quoted_token := match quoted c rest with Some (s, r) => POk (TStr (String.string_of_list_ascii s), r) | None => PErr UnterminatedLiteral end in
  match c, rest with
  | "("%char, _ => POk (TLParen, rest)
  | ")"%char, _ => POk (TRParen, rest)
  | "["%char, _ => POk (TLBracket, rest)
  | "]"%char, _ => POk (TRBracket, rest)
  | ","%char, _ => POk (TComma, rest)
  | "="%char, _ => POk (TEq, rest)
  | "!"%char, "="%char :: rest => POk (TNotEq, rest)
  | ">"%char, "="%char :: rest => POk (TGte, rest)
  | ">"%char, _ => POk (TGt, rest)
  | "<"%char, "="%char :: rest => POk (TLte, rest)
  | "<"%char, _ => POk (TLt, rest)
  | "'"%char, _ => quoted_token
  | "034"%char, _ => quoted_token
  | "-"%char, d :: _ => if DumpExpr.is_digit d then read_number (c :: rest) else PErr UnexpectedByte
  | _, _ => if DumpExpr.is_digit c then read_number (c :: rest)
            else if DumpExpr.starts_ident c then let '(s, rest) := DumpExpr.span DumpExpr.in_ident (c :: rest) in POk (keyword (String.string_of_list_ascii s), rest)
            else PErr UnexpectedByte
  end.

Fixpoint tokenize (fuel : nat) (input : list ascii) : presult (list Token) :=
  match (DumpExpr.span is_ascii_whitespace input).2 with
  | [] => POk []
  | c :: rest =>
      match fuel with
      | O => PFuel
      | S fuel => let^ (t, rest) := next_token c rest in let^ ts := tokenize fuel rest in POk (t :: ts)
      end
  end.

(** *** Values *)

(** The integer a number with no fractional part is. *)
Definition integral (n : spec_float) : option Z :=
  match n with
  | S754_zero _ => Some 0%Z
  | S754_finite s m e =>
      let signed z := if s : bool then (- z)%Z else z in
      if (0 <=? e)%Z then Some (signed (Zpos m * 2 ^ e)%Z)
      else if (Zpos m mod 2 ^ (- e) =? 0)%Z then Some (signed (Zpos m / 2 ^ (- e))%Z) else None
  | S754_infinity _ | S754_nan => None
  end.

(** [i64::MAX as f64] is 2^63, and the cast back saturates. *)
Definition number_value (n : spec_float) : Value :=
  match integral n with
  | Some z => if ((-9223372036854775808 <=? z) && (z <=? 9223372036854775808))%Z then Integer (Z.min z 9223372036854775807) else Float n
  | None => Float n
  end.

Definition value_of (t : Token) : option Value :=
  match t with
  | TNumber n => Some (number_value n)
  | TStr s | TIdent s => Some (Str s)
  | TTrue => Some (Bool true)
  | TFalse => Some (Bool false)
  | _ => None
  end.

Definition parse_value (tokens : list Token) : presult (Value * list Token) :=
  match tokens with
  | t :: rest => let^ v := ok_or (value_of t) ValueExpected in POk (v, rest)
  | [] => PErr ValueExpected
  end.

(** After the first value of a list: [, v]* and perhaps a trailing comma. *)
Fixpoint more_values (tokens : list Token) (values : list Value) : presult (list Value * list Token) :=
  match tokens with
  | TComma :: TRBracket :: rest => POk (values, rest)
  | TComma :: t :: rest => let^ v := ok_or (value_of t) ValueExpected in more_values rest (values ++ [v])
  | TRBracket :: rest => POk (values, rest)
  | [TComma] => PErr ValueExpected
  | _ => PErr ListExpected
  end.

Definition parse_value_list (tokens : list Token) : presult (list Value * list Token) :=
  match tokens with
  | TLBracket :: TRBracket :: rest => POk ([], rest)
  | TLBracket :: rest => let^ (v, rest) := parse_value rest in more_values rest [v]
  | _ => PErr ListExpected
  end.

(** *** Clauses *)

Section clauses.
Context {B : Type}.
Notation clause_parser := (list Token -> presult (FilterClause B * list Token)).

(** What follows a field name. *)
Definition parse_predicate (field : string) (tokens : list Token) : presult (FilterClause B * list Token) :=
  let compare build rest := let^ (v, rest) := parse_value rest in POk (build field v, rest) in
  match tokens with
  | TIs :: TNot :: TNull :: rest => POk (IsNotNull field, rest)
  | TIs :: TNull :: rest => POk (IsNull field, rest)
  | TIs :: _ => PErr NullExpected
  | TEq :: TNull :: rest => POk (IsNull field, rest)
  | TEq :: rest => compare Eq rest
  | TNotEq :: TNull :: rest => POk (IsNotNull field, rest)
  | TNotEq :: rest => compare NotEq rest
  | TGt :: rest => compare Gt rest
  | TGte :: rest => compare Gte rest
  | TLt :: rest => compare Lt rest
  | TLte :: rest => compare Lte rest
  | TIn :: rest => let^ (vs, rest) := parse_value_list rest in POk (In field vs, rest)
  | TNot :: TIn :: rest => let^ (vs, rest) := parse_value_list rest in POk (NotIn field vs, rest)
  | TNot :: _ => PErr InExpected
  | TNumber n :: TTo :: rest => let^ (v, rest) := parse_value rest in POk (And [Gte field (number_value n); Lte field v], rest)
  | TNumber _ :: _ => PErr ToExpected
  | _ => PErr OperatorExpected
  end.

Definition parse_primary (parse_expr : clause_parser) (tokens : list Token) : presult (FilterClause B * list Token) :=
  match tokens with
  | TLParen :: rest =>
      let^ (expr, rest) := parse_expr rest in
      match rest with TRParen :: rest => POk (expr, rest) | _ => PErr FilterExpected end
  | TIdent field :: rest => parse_predicate field rest
  | _ => PErr FilterExpected
  end.

Fixpoint parse_not (parse_expr : clause_parser) (tokens : list Token) : presult (FilterClause B * list Token) :=
  match tokens with
  | TNot :: rest => let^ (inner, rest) := parse_not parse_expr rest in POk (Not inner, rest)
  | _ => parse_primary parse_expr tokens
  end.

(** A conjunction on the left grows. *)
Definition and_op (t : Token) : option (FilterClause B -> FilterClause B -> FilterClause B) :=
  match t with TAnd => Some (fun left right => match left with And cs => And (cs ++ [right]) | _ => And [left; right] end) | _ => None end.

Definition or_op (t : Token) : option (FilterClause B -> FilterClause B -> FilterClause B) :=
  match t with TOr => Some (fun left right => match left with Or cs => Or (cs ++ [right]) | _ => Or [left; right] end) | _ => None end.

Definition parse_and (parse_expr : clause_parser) : clause_parser := chain (parse_not parse_expr) and_op.

Fixpoint parse_expr (fuel : nat) (tokens : list Token) : presult (FilterClause B * list Token) :=
  match fuel with
  | O => PFuel
  | S fuel => chain (parse_and (parse_expr fuel)) or_op tokens
  end.

(** There is no limit on the nesting of a filter string; it nests at most as deep as it has
    tokens. *)
Definition parse_filter_string (input : string) : presult (FilterClause B) :=
  let l := String.list_ascii_of_string input in
  let^ tokens := tokenize (length l) l in
  let^ (result, rest) := parse_expr (S (length tokens)) tokens in
  match rest with [] => POk result | _ => PErr TrailingToken end.

(** Strings that are not blank, parsed. *)
Fixpoint parse_strings (items : list (option string)) : presult (list (FilterClause B)) :=
  match items with
  | [] => POk []
  | None :: _ => PErr FilterExpected
  | Some s :: items =>
      if bool_decide (str_trim s = ""%string) then parse_strings items
      else let^ c := parse_filter_string s in let^ cs := parse_strings items in POk (c :: cs)
  end.

(** The outer array is a conjunction, an inner one a disjunction. *)
Fixpoint parse_array_filter (arr : list JsonValue) : presult (list (FilterClause B)) :=
  match arr with
  | [] => POk []
  | item :: arr =>
      let^ cs := match item with
                 | JString s => parse_strings [Some s]
                 | JArray inner => let^ ors := parse_strings (as_str <$> inner) in POk (match ors with [] => [] | [c] => [c] | _ => [Or ors] end)
                 | _ => PErr FilterExpected
                 end in
      let^ rest := parse_array_filter arr in POk (cs ++ rest)
  end.

(** Split at the last colon. *)
Fixpoint rsplit_colon (l : list ascii) : option (list ascii * list ascii) :=
  match l with
  | [] => None
  | c :: rest =>
      match rsplit_colon rest with
      | Some (a, b) => Some (c :: a, b)
      | None => if Ascii.eqb c ":" then Some ([], rest) else None
      end
  end.

Definition parse_sort_entry (s : string) : presult SortClause :=
  let s := str_trim s in
  match rsplit_colon (String.list_ascii_of_string s) with
  | Some ([], _) => PErr EmptyField
  | Some (field, dir) => let^ d := JsonQuery.parse_direction (String.string_of_list_ascii dir) in POk (MkSortClause (String.string_of_list_ascii field) d)
  | None => if bool_decide (s = ""%string) then PErr EmptyField else POk (MkSortClause s Asc)
  end.

(** Page and hits per page replace offset and limit; the product of two machine words
    wraps. *)
Definition parse_page (obj : list (string * JsonValue)) (offset : option N) (limit : N) : presult (option N * N) :=
  match obj_get obj "page" with
  | None => POk (offset, limit)
  | Some page_val =>
      let^ page := ok_or (as_u64 page_val) InvalidPage in
      let^ hits := match obj_get obj "hitsPerPage" with Some v => ok_or (as_u64 v) InvalidPage | None => POk 20 end in
      if page =? 0 then PErr InvalidPage else POk (Some (wrap64 ((page - 1) * hits)), N.min hits MAX_PAGE_LIMIT)
  end.

Definition parse_object (obj : list (string * JsonValue)) : presult (BitdexQuery B) :=
  let^ filters := match obj_get obj "filter" with
                  | Some (JString s) => if bool_decide (str_trim s = ""%string) then POk [] else let^ c := parse_filter_string s in POk [c]
                  | Some (JArray arr) => parse_array_filter arr
                  | Some JNull | None => POk []
                  | Some _ => PErr FilterExpected
                  end in
  let^ sort := match obj_get obj "sort" with
               | Some (JArray (first :: _)) => let^ s := ok_or (as_str first) SortExpected in let^ c := parse_sort_entry s in POk (Some c)
               | Some (JArray []) | Some JNull | None => POk None
               | Some _ => PErr SortExpected
               end in
  let^ limit := CompactQuery.parse_limit DEFAULT_LIMIT obj in
  let^ offset := CompactQuery.parse_offset obj in
  let^ (offset, limit) := parse_page obj offset limit in
  POk (MkBitdexQuery filters sort limit None offset (CompactQuery.parse_skip_cache obj)).

Definition parse `{JT : JsonText} (input : string) : presult (BitdexQuery B) :=
  let^ raw := ok_or (json_from_str input) InvalidJson in
  let^ obj := ok_or (as_object raw) NotAnObject in parse_object obj.

End clauses.
End MeiliQuery.

(** ** The registry (src/parser/registry.rs) *)

Module ParserRegistry.

Section registry.
Context {B : Type} `{JT : JsonText}.

Record t : Type := mk { parsers : gmap string (string -> presult (BitdexQuery B)); default_format : string }.

Definition new : t := mk ∅ "bitdex".
Definition register (r : t) (format : string) (p : string -> presult (BitdexQuery B)) : t := mk (<[format := p]> (parsers r)) (default_format r).
Definition set_default (r : t) (format : string) : t := mk (parsers r) format.

Definition parse (r : t) (format : option string) (input : string) : presult (BitdexQuery B) :=
  match parsers r !! default (default_format r) format with
  | Some p => p input
  | None => PErr UnknownFormat
  end.

Definition default_registry : t :=
  set_default (register (register (register new "bitdex" JsonQuery.parse) "compact" CompactQuery.parse) "meilisearch" MeiliQuery.parse) "bitdex".
End registry.
End ParserRegistry.

Example meili_demo : MeiliQuery.parse_filter_string (B := unit) "nsfwLevel = 1 AND (tagIds IN [12, 45,] OR NOT type = 'image') AND score 1 TO 5" =
  POk (And [Eq "nsfwLevel" (Integer 1); Or [In "tagIds" [Integer 12; Integer 45]; Not (Eq "type" (Str "image"))];
            And [Gte "score" (Integer 1); Lte "score" (Integer 5)]]).
Proof. vm_compute. reflexivity. Qed.
