(* ===== verification/ParserTheorems.v ===== *)
(** * Query parsers: properties

    The JSON format reads back every query it can express, within its nesting limit; the
    Meilisearch parser decides its grammar and always answers. *)

From S2P Require Import Prelude Encoding Float64 Query Ops OpsWal OpsWalFacts DocShards Text Parsing Expression ExpressionTheorems Parsers.
From Stdlib Require Import Ascii.
Local Open Scope bitdex_scope.

(** ** The JSON format *)

Section json.
Context {B : Type}.
Implicit Types (c : FilterClause B) (q : BitdexQuery B) (v : Value) (f : string).

Definition value_to_json v : JsonValue := match v with Integer n => JInt n | Float x => JFloat x | Bool b => JBool b | Str s => JString s end.

Definition field_object f (op : string) (value : option JsonValue) : JsonValue :=
  JObject ([("field"%string, JString f); ("op"%string, JString op)] ++ match value with Some v => [("value"%string, v)] | None => [] end).

(** How a client writes a clause. *)
Fixpoint clause_to_json c : JsonValue :=
  match c with
  | Eq f v => field_object f "eq" (Some (value_to_json v))
  | NotEq f v => field_object f "not_eq" (Some (value_to_json v))
  | In f vs => field_object f "in" (Some (JArray (value_to_json <$> vs)))
  | Gt f v => field_object f "gt" (Some (value_to_json v))
  | Lt f v => field_object f "lt" (Some (value_to_json v))
  | Gte f v => field_object f "gte" (Some (value_to_json v))
  | Lte f v => field_object f "lte" (Some (value_to_json v))
  | Not c => JObject [("NOT"%string, clause_to_json c)]
  | And cs => JObject [("AND"%string, JArray (clause_to_json <$> cs))]
  | Or cs => JObject [("OR"%string, JArray (clause_to_json <$> cs))]
  | IsNull f => field_object f "is_null" None
  | IsNotNull f => field_object f "is_not_null" None
  | NotIn _ _ | BucketBitmap _ _ _ => JNull
  end.

Definition value_ok v : Prop := match v with Integer n => in_i64 n = true | _ => True end.

(** A clause the format can express within [levels] levels. *)
Fixpoint expressible (levels : nat) c : Prop :=
  match levels with
  | O => False
  | S levels =>
      match c with
      | Eq f v | NotEq f v | Gt f v | Lt f v | Gte f v | Lte f v => f <> ""%string /\ value_ok v
      | In f vs => f <> ""%string /\ Forall value_ok vs
      | IsNull f | IsNotNull f => f <> ""%string
      | Not c => expressible levels c
      | And cs | Or cs => cs <> [] /\ Forall (expressible levels) cs
      | NotIn _ _ | BucketBitmap _ _ _ => False
      end
  end.

Lemma value_roundtrip v : value_ok v -> json_to_value (value_to_json v) = POk v.
Proof. destruct v; cbn; intros H; by rewrite ?H. Qed.

Lemma values_roundtrip vs : Forall value_ok vs -> pmap json_to_value (value_to_json <$> vs) = POk vs.
Proof. induction 1 as [|v vs Hv _ IH]; [done|]. rewrite fmap_cons. cbn [pmap]. rewrite value_roundtrip by done. cbn [pbind]. by rewrite IH. Qed.

Lemma value_not_null v : value_to_json v <> JNull.
Proof. by destruct v. Qed.

Lemma clauses_roundtrip n cs : (forall c, expressible n c -> JsonQuery.parse_filter_node n (clause_to_json c) = POk c) -> Forall (expressible n) cs ->
  pmap (JsonQuery.parse_filter_node n) (clause_to_json <$> cs) = POk cs.
Proof. intros IH. induction 1 as [|c cs Hc _ IHcs]; [done|]. rewrite fmap_cons. cbn [pmap]. rewrite IH by done. cbn [pbind]. by rewrite IHcs. Qed.

Lemma field_name_ok f : f <> ""%string -> JsonQuery.field_name (Some (JString f)) = POk f.
Proof. intros H. unfold JsonQuery.field_name. cbn. by rewrite bool_decide_eq_false_2. Qed.

Definition members f (op : string) (value : option JsonValue) : list (string * JsonValue) :=
  [("field"%string, JString f); ("op"%string, JString op)] ++ match value with Some v => [("value"%string, v)] | None => [] end.

(** A clause written with a field name is read by its operator. *)
Lemma field_object_parse n f op value : f <> ""%string -> JsonQuery.parse_filter_node (S n) (field_object f op value) = JsonQuery.simple_clause (B := B) (members f op value) f op.
Proof.
  intros Hf. cbn [JsonQuery.parse_filter_node]. change (as_object (field_object f op value)) with (Some (members f op value)). cbn [ok_or pbind].
  assert (forall key, key ∈ ["IsNull"; "IsNotNull"; "AND"; "OR"; "NOT"]%string -> JsonQuery.get_case_insensitive (members f op value) key = None) as Hno.
  { intros key Hk. rewrite !elem_of_cons, elem_of_nil in Hk. destruct value; destruct_or? Hk; subst; done. }
  rewrite !Hno by set_solver. change (obj_get (members f op value) "field") with (Some (JString f)). rewrite field_name_ok by done. done.
Qed.

Lemma simple_value f op (jv : JsonValue) : obj_get (members f op (Some jv)) "value" = Some jv.
Proof. done. Qed.

Lemma single_hit key jv : JsonQuery.get_case_insensitive [(key, jv)] key = Some jv.
Proof. unfold JsonQuery.get_case_insensitive, obj_get. cbn. by rewrite bool_decide_eq_true_2. Qed.

Lemma single_miss key k jv : bool_decide (key = k) || bool_decide (key = to_ascii_lowercase k) = false -> JsonQuery.get_case_insensitive [(key, jv)] k = None.
Proof. intros [H1 H2]%orb_false_iff. unfold JsonQuery.get_case_insensitive, obj_get. cbn [List.find fst]. by rewrite H1, H2. Qed.

Lemma clause_roundtrip n c : expressible n c -> JsonQuery.parse_filter_node n (clause_to_json c) = POk c.
Proof.
  revert c. induction n as [|n IH]; intros c He; [done|]. destruct c; cbn [expressible] in He; try done; cbn [clause_to_json].
  - destruct He as [Hf Hv]. rewrite field_object_parse by done. unfold JsonQuery.simple_clause. rewrite simple_value. cbn. pose proof (value_roundtrip value Hv) as Hr. by destruct value; rewrite Hr.
  - destruct He as [Hf Hv]. rewrite field_object_parse by done. unfold JsonQuery.simple_clause. rewrite simple_value. cbn. pose proof (value_roundtrip value Hv) as Hr. by destruct value; rewrite Hr.
  - destruct He as [Hf Hv]. rewrite field_object_parse by done. unfold JsonQuery.simple_clause. rewrite simple_value. cbn. by rewrite values_roundtrip.
  - destruct He as [Hf Hv]. rewrite field_object_parse by done. unfold JsonQuery.simple_clause. rewrite simple_value. cbn. by rewrite value_roundtrip.
  - destruct He as [Hf Hv]. rewrite field_object_parse by done. unfold JsonQuery.simple_clause. rewrite simple_value. cbn. by rewrite value_roundtrip.
  - destruct He as [Hf Hv]. rewrite field_object_parse by done. unfold JsonQuery.simple_clause. rewrite simple_value. cbn. by rewrite value_roundtrip.
  - destruct He as [Hf Hv]. rewrite field_object_parse by done. unfold JsonQuery.simple_clause. rewrite simple_value. cbn. by rewrite value_roundtrip.
  - cbn [JsonQuery.parse_filter_node as_object ok_or pbind]. rewrite !single_miss, single_hit by reflexivity. by rewrite IH.
  - destruct He as [Hne He]. cbn [JsonQuery.parse_filter_node as_object ok_or pbind]. rewrite !single_miss, single_hit by reflexivity.
    cbn [as_array ok_or pbind]. rewrite clauses_roundtrip by done. by destruct clauses.
  - destruct He as [Hne He]. cbn [JsonQuery.parse_filter_node as_object ok_or pbind]. rewrite !single_miss, single_hit by reflexivity.
    cbn [as_array ok_or pbind]. rewrite clauses_roundtrip by done. by destruct clauses.
  - by rewrite field_object_parse.
  - by rewrite field_object_parse.
Qed.

(** *** Whole queries *)

Definition direction_to_string (d : SortDirection) : string := match d with Asc => "asc" | Desc => "desc" end.

Definition sort_to_json (s : SortClause) : JsonValue := JObject [("direction"%string, JString (direction_to_string (sc_direction s))); ("field"%string, JString (sc_field s))].
Definition cursor_to_json (p : CursorPosition) : JsonValue := JObject [("slot_id"%string, JInt (Z.of_N (cp_slot_id p))); ("sort_value"%string, JInt (Z.of_N (cp_sort_value p)))].
Definition member {A : Type} (name : string) (o : option A) (to_json : A -> JsonValue) : string * JsonValue := (name, from_option to_json JNull o).

Definition query_to_json q : JsonValue :=
  JObject [member "cursor" (q_cursor q) cursor_to_json; member "filters" (head (q_filters q)) clause_to_json; ("limit"%string, JInt (Z.of_N (q_limit q)));
           member "offset" (q_offset q) (fun n => JInt (Z.of_N n)); ("skip_cache"%string, JBool (q_skip_cache q)); member "sort" (q_sort q) sort_to_json].

Record query_ok q : Prop := {
  qo_filters : match q_filters q with [] => True | [c] => expressible (S MAX_NESTING_DEPTH) c | _ => False end;
  qo_sort : forall s, q_sort q = Some s -> sc_field s <> ""%string;
  qo_limit : 1 <= q_limit q <= MAX_PAGE_LIMIT;
  qo_cursor : forall p, q_cursor q = Some p -> cp_sort_value p <= u64_max /\ cp_slot_id p <= u32_max;
  qo_offset : forall n, q_offset q = Some n -> n <= u64_max;
}.

Lemma as_u64_of_N n : n <= u64_max -> as_u64 (JInt (Z.of_N n)) = Some n.
Proof. unfold u64_max. intros H. cbn. destruct (Z.leb_spec 0 (Z.of_N n)); [|lia]. destruct (Z.leb_spec (Z.of_N n) 18446744073709551615); [|lia]. cbn. by rewrite N2Z.id. Qed.

Lemma sort_roundtrip s : sc_field s <> ""%string -> JsonQuery.parse_sort (sort_to_json s) = POk s.
Proof.
  destruct s as [f d]. cbn [sc_field]. intros Hf. unfold JsonQuery.parse_sort, sort_to_json. cbn [as_object ok_or pbind sc_field sc_direction].
  change (obj_get _ "field") with (Some (JString f)). rewrite field_name_ok by done. change (obj_get _ "direction") with (Some (JString (direction_to_string d))). by destruct d.
Qed.

Lemma cursor_roundtrip p : cp_sort_value p <= u64_max -> cp_slot_id p <= u32_max -> JsonQuery.parse_cursor (cursor_to_json p) = POk p.
Proof.
  destruct p as [sv s]. cbn [cp_sort_value cp_slot_id]. intros H1 H2. unfold JsonQuery.parse_cursor, cursor_to_json. cbn [as_object ok_or pbind cp_sort_value cp_slot_id].
  change (obj_get _ "sort_value") with (Some (JInt (Z.of_N sv))). change (obj_get _ "slot_id") with (Some (JInt (Z.of_N s))). cbn [mbind option_bind].
  rewrite !as_u64_of_N by (unfold u64_max, u32_max in *; lia). cbn [ok_or pbind]. destruct (N.ltb_spec u32_max s); [lia|done].
Qed.

Lemma optional_number (o : option N) : (forall n, o = Some n -> n <= u64_max) ->
  JsonQuery.optional as_u64 (Some (from_option (fun n => JInt (Z.of_N n)) JNull o)) = Some o.
Proof. intros Ho. destruct o as [n|]; [|done]. cbn [from_option JsonQuery.optional]. by rewrite as_u64_of_N by auto. Qed.

Lemma optional_json {A : Type} (o : option A) (to_json : A -> JsonValue) :
  (forall a, o = Some a -> to_json a <> JNull) -> JsonQuery.optional Some (Some (from_option to_json JNull o)) = Some (to_json <$> o).
Proof. intros Hn. destruct o as [a|]; [|done]. specialize (Hn a eq_refl). cbn. by destruct (to_json a). Qed.

Lemma expressible_not_null n c : expressible n c -> clause_to_json c <> JNull.
Proof. destruct n; [done|]. by destruct c. Qed.

(** The members of a query, read back. *)
Lemma raw_roundtrip q : query_ok q -> JsonQuery.raw_from_json (query_to_json q) =
  Some (JsonQuery.MkRawQuery (clause_to_json <$> head (q_filters q)) (sort_to_json <$> q_sort q) (Some (q_limit q)) (cursor_to_json <$> q_cursor q) (q_offset q) (q_skip_cache q)).
Proof.
  intros [Hf Hs Hl Hc Ho]. unfold JsonQuery.raw_from_json, query_to_json, member. set (obj := [_; _; _; _; _; _]).
  change (obj_get obj "filters") with (Some (from_option clause_to_json JNull (head (q_filters q)))).
  change (obj_get obj "sort") with (Some (from_option sort_to_json JNull (q_sort q))). change (obj_get obj "limit") with (Some (JInt (Z.of_N (q_limit q)))).
  change (obj_get obj "cursor") with (Some (from_option cursor_to_json JNull (q_cursor q))). change (obj_get obj "skip_cache") with (Some (JBool (q_skip_cache q))).
  change (obj_get obj "offset") with (Some (from_option (fun n => JInt (Z.of_N n)) JNull (q_offset q))).
  rewrite optional_number by done. rewrite (optional_json (head (q_filters q)) clause_to_json), (optional_json (q_sort q) sort_to_json), (optional_json (q_cursor q) cursor_to_json); try done.
  - cbn [JsonQuery.optional]. rewrite as_u64_of_N by (unfold MAX_PAGE_LIMIT, u64_max in *; lia). done.
  - intros c Hc'. destruct (q_filters q) as [|c0 [|]]; try done. injection Hc' as ->. by eapply expressible_not_null.
Qed.

(** C31: the JSON format reads back every query it can express: a query with at most one
    filter clause nested at most 16 levels deep, without empty names or empty compounds,
    with 64-bit integers and a limit between 1 and 10000, comes back from the text of its
    JSON form unchanged. *)
Theorem json_query_roundtrip `{JT : JsonText} q :
  json_from_str (json_to_string (query_to_json q)) = Some (query_to_json q) -> query_ok q -> JsonQuery.parse (json_to_string (query_to_json q)) = POk q.
Proof.
  intros Htext Hq. unfold JsonQuery.parse. rewrite Htext. cbn [mbind option_bind]. rewrite raw_roundtrip by done. destruct Hq as [Hf Hs Hl Hc Ho].
  destruct q as [filters sort limit cursor offset skip]. cbn [q_filters q_sort q_limit q_cursor q_offset q_skip_cache] in *. unfold JsonQuery.parse_raw.
  cbn [JsonQuery.raw_filters JsonQuery.raw_sort JsonQuery.raw_limit JsonQuery.raw_cursor JsonQuery.raw_offset JsonQuery.raw_skip_cache].
  assert (match clause_to_json <$> head filters with Some v => let^ c := JsonQuery.parse_filter_node (S MAX_NESTING_DEPTH) v in POk [c] | None => POk [] end = POk filters) as ->.
  { destruct filters as [|c [|]]; try done. cbn [head fmap option_fmap option_map]. by rewrite clause_roundtrip. }
  assert (JsonQuery.transpose (sort_to_json <$> sort) JsonQuery.parse_sort = POk sort) as ->.
  { destruct sort as [s|]; [|done]. cbn [JsonQuery.transpose fmap option_fmap option_map]. by rewrite sort_roundtrip by auto. }
  assert (JsonQuery.transpose (cursor_to_json <$> cursor) JsonQuery.parse_cursor = POk cursor) as ->.
  { destruct cursor as [p|]; [|done]. cbn [JsonQuery.transpose fmap option_fmap option_map]. destruct (Hc p eq_refl). by rewrite cursor_roundtrip. }
  cbn [pbind default from_option id]. rewrite N.min_l by lia. destruct (N.eqb_spec limit 0); [lia|]. done.
Qed.

(** One level more is rejected. *)
Lemma nesting_limit c : JsonQuery.parse_filter_node (B := B) (S MAX_NESTING_DEPTH) (clause_to_json (Nat.iter (S MAX_NESTING_DEPTH) Not c)) = PErr NestingTooDeep.
Proof.
  generalize (S MAX_NESTING_DEPTH). intros n. induction n as [|n IH]; [done|]. change (Nat.iter (S n) Not c) with (Not (Nat.iter n Not c)).
  cbn [clause_to_json JsonQuery.parse_filter_node as_object ok_or pbind].
  rewrite !single_miss, single_hit by reflexivity. by rewrite IH.
Qed.

End json.

(** ** The Meilisearch grammar *)

Section meili.
Import MeiliQuery.
Context {B : Type}.
Implicit Types (ts pre rest : list Token) (c : FilterClause B) (f : string).

(** A bracketed list, with or without a comma after its last value. *)
Inductive values_phrase : list Token -> list Value -> Prop :=
| values_none : values_phrase [TLBracket; TRBracket] []
| values_some t v more trailing : value_of t = Some v -> Forall (fun tv => value_of tv.1 = Some tv.2) more ->
    values_phrase (TLBracket :: t :: mjoin ((fun tv => [TComma; tv.1]) <$> more) ++ (if trailing : bool then [TComma] else []) ++ [TRBracket]) (v :: more.*2).

Inductive predicate_phrase f : list Token -> FilterClause B -> Prop :=
| p_is_null : predicate_phrase f [TIs; TNull] (IsNull f)
| p_is_not_null : predicate_phrase f [TIs; TNot; TNull] (IsNotNull f)
| p_eq_null : predicate_phrase f [TEq; TNull] (IsNull f)
| p_not_eq_null : predicate_phrase f [TNotEq; TNull] (IsNotNull f)
| p_compare op build t v : (op, build) ∈ [(TEq, Eq); (TNotEq, NotEq); (TGt, Gt); (TGte, Gte); (TLt, Lt); (TLte, Lte)] -> value_of t = Some v -> predicate_phrase f [op; t] (build f v)
| p_in pre vs : values_phrase pre vs -> predicate_phrase f (TIn :: pre) (In f vs)
| p_not_in pre vs : values_phrase pre vs -> predicate_phrase f (TNot :: TIn :: pre) (NotIn f vs)
| p_range n t v : value_of t = Some v -> predicate_phrase f [TNumber n; TTo; t] (And [Gte f (number_value n); Lte f v]).

Inductive not_phrase (expr_phrase : list Token -> FilterClause B -> Prop) : list Token -> FilterClause B -> Prop :=
| not_paren pre c : expr_phrase pre c -> not_phrase expr_phrase (TLParen :: pre ++ [TRParen]) c
| not_field f pre c : predicate_phrase f pre c -> not_phrase expr_phrase (TIdent f :: pre) c
| not_not pre c : not_phrase expr_phrase pre c -> not_phrase expr_phrase (TNot :: pre) (Not c).

(** Operands between separators. *)
Inductive operands (D : list Token -> FilterClause B -> Prop) (sep : Token) : list Token -> list (FilterClause B) -> Prop :=
| operands_one pre c : D pre c -> operands D sep pre [c]
| operands_more pre cs pre' c : operands D sep pre cs -> D pre' c -> operands D sep (pre ++ sep :: pre') (cs ++ [c]).

(** The clause of a list of operands: one operand stands for itself, several become one
    clause, into which a first operand that is such a clause itself is merged. *)
Inductive joined (K : list (FilterClause B) -> FilterClause B) : list (FilterClause B) -> FilterClause B -> Prop :=
| joined_one c : joined K [c] c
| joined_merged cs c' tail : joined K (K cs :: c' :: tail) (K (cs ++ c' :: tail))
| joined_several c c' tail : (forall cs, c <> K cs) -> joined K (c :: c' :: tail) (K (c :: c' :: tail)).

Inductive level_phrase (D : list Token -> FilterClause B -> Prop) (sep : Token) (K : list (FilterClause B) -> FilterClause B) : list Token -> FilterClause B -> Prop :=
| level_intro pre cs c : operands D sep pre cs -> joined K cs c -> level_phrase D sep K pre c.

(** NOT binds tighter than AND, AND tighter than OR. *)
Inductive expr_phrase : list Token -> FilterClause B -> Prop :=
| expr_intro pre c : level_phrase (level_phrase (not_phrase expr_phrase) TAnd And) TOr Or pre c -> expr_phrase pre c.

(** *** Levels as left folds *)

Section level.
Context (sep : Token) (K : list (FilterClause B) -> FilterClause B) (grow : FilterClause B -> FilterClause B -> FilterClause B).
Context (op : Token -> option (FilterClause B -> FilterClause B -> FilterClause B)).
Hypothesis Hop : forall t build, op t = Some build <-> t = sep /\ build = grow.
Hypothesis Hmerge : forall cs c, grow (K cs) c = K (cs ++ [c]).
Hypothesis Hother : forall c c', (forall cs, c <> K cs) -> grow c c' = K [c; c'].
Hypothesis Hshape : forall c, (exists cs, c = K cs) \/ forall cs, c <> K cs.

Lemma foldl_grow cs tail : foldl grow (K cs) tail = K (cs ++ tail).
Proof. revert cs. induction tail as [|c tail IH]; intros cs; cbn; [by rewrite app_nil_r|]. by rewrite Hmerge, IH, <- app_assoc. Qed.

Lemma joined_fold c tail x : joined K (c :: tail) x <-> x = foldl grow c tail.
Proof.
  split.
  - intros H. inversion H; subst; [done|by rewrite foldl_grow|]. cbn [foldl]. by rewrite Hother, foldl_grow by done.
  - intros ->. destruct tail as [|c' tail]; [constructor|]. destruct (Hshape c) as [[cs ->]|Hn].
    + rewrite foldl_grow. constructor.
    + cbn [foldl]. rewrite Hother, foldl_grow by done. by constructor.
Qed.

Lemma chain_operands D pre x : chain_phrase D op pre x <-> exists c tail, operands D sep pre (c :: tail) /\ x = foldl grow c tail.
Proof.
  split.
  - induction 1 as [pre c Hd|pre1 l t build pre2 r _ (c & tail & Ho & ->) Ht Hr]; [exists c, []; split; [by constructor|done]|].
    apply Hop in Ht as [-> ->]. exists c, (tail ++ [r]). split; [by apply (operands_more D sep pre1 (c :: tail))|by rewrite foldl_app].
  - intros (c & tail & Ho & ->). remember (c :: tail) as cs eqn:E. revert c tail E. induction Ho as [pre a Hd|pre cs pre' a Ho IH Ha]; intros c tail E.
    + injection E as -> <-. by constructor.
    + destruct cs as [|c0 cs]; [inversion Ho; by destruct cs|]. injection E as -> <-. rewrite foldl_app. cbn [foldl].
      eapply chain_more; [by apply IH|by apply Hop|done].
Qed.

Lemma operands_nonempty D pre : ~ operands D sep pre [].
Proof. intros H. inversion H. by destruct cs. Qed.

Lemma chain_level D pre x : chain_phrase D op pre x <-> level_phrase D sep K pre x.
Proof.
  rewrite chain_operands. split.
  - intros (c & tail & Ho & Hx). econstructor; [exact Ho|]. by apply joined_fold.
  - intros [pre' cs c Ho Hj]. destruct cs as [|c0 tail]; [by apply operands_nonempty in Ho|]. exists c0, tail. split; [done|]. by apply joined_fold.
Qed.

End level.

Lemma chain_mono (D D' : list Token -> FilterClause B -> Prop) op pre c : (forall pre c, D pre c -> D' pre c) -> chain_phrase D op pre c -> chain_phrase D' op pre c.
Proof. intros H. induction 1; [constructor|eapply chain_more]; eauto. Qed.

Definition grow_and (l r : FilterClause B) : FilterClause B := match l with And cs => And (cs ++ [r]) | _ => And [l; r] end.
Definition grow_or (l r : FilterClause B) : FilterClause B := match l with Or cs => Or (cs ++ [r]) | _ => Or [l; r] end.

Lemma and_level D pre c : chain_phrase D and_op pre c <-> level_phrase D TAnd And pre c.
Proof.
  apply (chain_level TAnd And grow_and); try done.
  - intros [] build; cbn; naive_solver.
  - intros c1 c' H. destruct c1; try done. by edestruct H.
  - intros []; try (by right). left. by eexists.
Qed.

Lemma or_level D pre c : chain_phrase D or_op pre c <-> level_phrase D TOr Or pre c.
Proof.
  apply (chain_level TOr Or grow_or); try done.
  - intros [] build; cbn; naive_solver.
  - intros c1 c' H. destruct c1; try done. by edestruct H.
  - intros []; try (by right). left. by eexists.
Qed.

Lemma expr_levels D pre c : chain_phrase (chain_phrase D and_op) or_op pre c <-> level_phrase (level_phrase D TAnd And) TOr Or pre c.
Proof. rewrite <- or_level. split; apply chain_mono; intros; by apply and_level. Qed.

Notation cparser := (list Token -> presult (FilterClause B * list Token)).

(** *** Values *)

Lemma parse_value_ok ts v rest : parse_value ts = POk (v, rest) <-> exists t, ts = t :: rest /\ value_of t = Some v.
Proof.
  destruct ts as [|t ts]; cbn [parse_value]; [naive_solver|]. rewrite pbind_ok. split.
  - intros (v' & Hv & [= -> ->]). exists t. destruct (value_of t); cbn in Hv; naive_solver.
  - intros (t' & [= -> ->] & Hv). exists v. by rewrite Hv.
Qed.

Lemma more_values_sound ts values vs rest : more_values ts values = POk (vs, rest) ->
  exists more (trailing : bool), ts = (mjoin ((fun tv => [TComma; tv.1]) <$> more) ++ (if trailing then [TComma] else []) ++ [TRBracket]) ++ rest
    /\ Forall (fun tv => value_of tv.1 = Some tv.2) more /\ vs = values ++ more.*2.
Proof.
  revert values. induction ts as [ts IH] using (induction_ltof1 _ (@length _)). unfold ltof in IH. intros values.
  destruct ts as [|t ts]; [done|]. destruct t; try done; cbn [more_values].
  - intros [= <- <-]. exists [], false. cbn. by rewrite app_nil_r.
  - destruct ts as [|t ts]; [done|]. assert (t = TRBracket \/ t <> TRBracket) as [->|Hb] by (destruct t; first [by left|by right]).
    + intros [= <- <-]. exists [], true. cbn. by rewrite app_nil_r.
    + intros H. assert ((let^ v := ok_or (value_of t) ValueExpected in more_values ts (values ++ [v])) = POk (vs, rest)) as H' by (by destruct t).
      apply pbind_ok in H' as (v & Hv & H'). apply IH in H' as (more & trailing & -> & Hm & ->); [|cbn; lia].
      exists ((t, v) :: more), trailing. split; [done|]. split; [constructor; [cbn [fst snd]; destruct (value_of t); [by injection Hv as ->|done]|done]|]. cbn. by rewrite <- app_assoc.
Qed.

Lemma more_values_complete more (trailing : bool) values rest : Forall (fun tv => value_of tv.1 = Some tv.2) more ->
  more_values ((mjoin ((fun tv : Token * Value => [TComma; tv.1]) <$> more) ++ (if trailing then [TComma] else []) ++ [TRBracket]) ++ rest) values = POk (values ++ more.*2, rest).
Proof.
  intros Hm. revert values. induction Hm as [|[t v] more Hv _ IH]; intros values; [destruct trailing; cbn; by rewrite app_nil_r|]. cbn [fst snd] in Hv.
  rewrite fmap_cons. cbn [mjoin list_join app fst]. assert (forall r, more_values (TComma :: t :: r) values = more_values r (values ++ [v])) as -> by (intros r; destruct t; try done; cbn [more_values]; by rewrite ?Hv).
  rewrite IH. by rewrite <- app_assoc.
Qed.

Lemma more_values_total ts values : more_values ts values <> PFuel.
Proof.
  revert values. induction ts as [ts IH] using (induction_ltof1 _ (@length _)). unfold ltof in IH. intros values.
  destruct ts as [|t ts]; [done|]. destruct t; try done. cbn [more_values]. destruct ts as [|t ts]; [done|].
  assert (t = TRBracket \/ t <> TRBracket) as [->|Hb] by (destruct t; first [by left|by right]); [done|].
  assert ((let^ v := ok_or (value_of t) ValueExpected in more_values ts (values ++ [v])) <> PFuel) as H; [|by destruct t].
  destruct (value_of t); [|done]. apply IH. cbn. lia.
Qed.

Lemma value_list_sound ts vs rest : parse_value_list ts = POk (vs, rest) -> exists pre, ts = pre ++ rest /\ values_phrase pre vs.
Proof.
  destruct ts as [|t ts]; [done|]. destruct t; try done. cbn [parse_value_list]. intros H.
  assert ((exists r, ts = TRBracket :: r /\ vs = [] /\ rest = r) \/ (let^ (v, rest) := parse_value ts in more_values rest [v]) = POk (vs, rest)) as [(r & -> & -> & ->)|H'].
  { destruct ts as [|t ts]; [by right|]. destruct t; try (by right). injection H as <- <-. left. by eexists. }
  - exists [TLBracket; TRBracket]. split; [done|constructor].
  - apply pbind_ok in H' as ([v r] & (t & -> & Hv)%parse_value_ok & H'). apply more_values_sound in H' as (more & trailing & -> & Hm & ->).
    eexists (TLBracket :: t :: _ ++ _ ++ _). split; [|by apply values_some]. cbn. done.
Qed.

Lemma value_list_complete pre vs rest : values_phrase pre vs -> parse_value_list (pre ++ rest) = POk (vs, rest).
Proof.
  intros [|t v more trailing Hv Hm]; [done|]. cbn [app]. assert (forall r, parse_value_list (TLBracket :: t :: r) = let^ (v, rest) := parse_value (t :: r) in more_values rest [v]) as ->.
  { intros r. by destruct t. }
  cbn [parse_value]. rewrite Hv. cbn [ok_or pbind]. by rewrite more_values_complete.
Qed.

Lemma value_list_total ts : parse_value_list ts <> PFuel.
Proof.
  destruct ts as [|t ts]; [done|]. destruct t; try done. cbn [parse_value_list].
  assert ((let^ (v, rest) := parse_value ts in more_values rest [v]) <> PFuel) as H; [|by destruct ts as [|[] ts]].
  destruct ts as [|t ts]; [done|]. cbn [parse_value]. destruct (value_of t); [|done]. apply more_values_total.
Qed.

(** *** Predicates *)

(** Reading one value after an operator. *)
Lemma compare_ok f (build : string -> Value -> FilterClause B) ts c rest :
  (let^ (v, rest) := parse_value ts in POk (build f v, rest)) = POk (c, rest) <-> exists t v, ts = t :: rest /\ value_of t = Some v /\ c = build f v.
Proof.
  rewrite pbind_ok. split.
  - intros ([v r] & (t & -> & Hv)%parse_value_ok & [= <- <-]). by exists t, v.
  - intros (t & v & -> & Hv & ->). exists (v, rest). split; [|done]. apply parse_value_ok. by exists t.
Qed.

Ltac compare_sound H := apply compare_ok in H as (?t & ?v & -> & ?Hv & ->); eexists [_; _]; split; [done|]; apply p_compare; [set_solver|done].

Lemma predicate_sound f ts c rest : parse_predicate f ts = POk (c, rest) -> exists pre, ts = pre ++ rest /\ predicate_phrase f pre c.
Proof.
  intros H. destruct ts as [|t ts]; [done|]. destruct t; try done; cbn [parse_predicate] in H.
  - destruct ts as [|t ts]; [done|]. destruct t; try done. apply pbind_ok in H as ([v r] & (t & -> & Hv)%parse_value_ok & [= <- <-]).
    eexists [_; _; _]. split; [done|]. by apply p_range.
  - destruct ts as [|t ts]; [done|]. destruct t; try done; [injection H as <- <-; eexists [_; _]; split; [done|constructor]|].
    destruct ts as [|t ts]; [done|]. destruct t; try done. injection H as <- <-. eexists [_; _; _]. split; [done|constructor].
  - destruct ts as [|t ts]; [done|]. destruct t; try (compare_sound H). injection H as <- <-. eexists [_; _]. split; [done|constructor].
  - destruct ts as [|t ts]; [done|]. destruct t; try (compare_sound H). injection H as <- <-. eexists [_; _]. split; [done|constructor].
  - compare_sound H.
  - compare_sound H.
  - compare_sound H.
  - compare_sound H.
  - destruct ts as [|t ts]; [done|]. destruct t; try done. apply pbind_ok in H as ([vs r] & (pre & -> & Hp)%value_list_sound & [= <- <-]).
    eexists (_ :: _ :: pre). split; [done|]. by constructor.
  - apply pbind_ok in H as ([vs r] & (pre & -> & Hp)%value_list_sound & [= <- <-]). eexists (_ :: pre). split; [done|]. by constructor.
Qed.

Lemma predicate_complete f pre c rest : predicate_phrase f pre c -> parse_predicate f (pre ++ rest) = POk (c, rest).
Proof.
  intros [ | | | |op build t v Hop Hv|pre' vs Hp|pre' vs Hp|n t v Hv]; try done; cbn [app parse_predicate].
  - assert (parse_value (t :: rest) = POk (v, rest)) as Hpv by (apply parse_value_ok; by exists t).
    rewrite !elem_of_cons, elem_of_nil in Hop. assert (t <> TNull) as Hn by (by intros ->).
    destruct_or? Hop; simplify_eq; cbn [parse_predicate]; try (by rewrite Hpv); destruct t; try done; by rewrite Hpv.
  - by rewrite (value_list_complete pre' vs).
  - by rewrite (value_list_complete pre' vs).
  - cbn [parse_value]. by rewrite Hv.
Qed.

Lemma predicate_total f ts : parse_predicate (B := B) f ts <> PFuel.
Proof.
  assert (forall (build : string -> Value -> FilterClause B) r, (let^ (v, rest) := parse_value r in POk (build f v, rest)) <> PFuel) as Hc.
  { intros build [|t r]; [done|]. cbn [parse_value]. by destruct (value_of t). }
  assert (forall (build : string -> list Value -> FilterClause B) r, (let^ (vs, rest) := parse_value_list r in POk (build f vs, rest)) <> PFuel) as Hl.
  { intros build r. pose proof (value_list_total r). by destruct (parse_value_list r) as [[]| |]. }
  destruct ts as [|t ts]; [done|]. destruct t; try done; cbn [parse_predicate]; try apply Hc; try apply Hl.
  all: destruct ts as [|t ts]; try done; destruct t; try done; try apply (Hc Eq); try apply (Hc NotEq); try apply Hl.
  - destruct ts as [|t r]; [done|]. cbn [parse_value]. by destruct (value_of t).
  - by destruct ts as [|[] ts].
Qed.

(** *** Levels *)

Lemma not_nonempty D : nonempty (not_phrase D).
Proof. intros a H. inversion H. Qed.

Lemma primary_sound (rec : cparser) D ts c rest : sound rec D -> parse_primary rec ts = POk (c, rest) -> exists pre, ts = pre ++ rest /\ not_phrase D pre c.
Proof.
  intros Hs. destruct ts as [|t ts]; [done|]. destruct t; try done; cbn [parse_primary].
  - intros (pre & -> & Hp)%predicate_sound. eexists (_ :: pre). split; [done|by constructor].
  - rewrite pbind_ok. intros ([e r] & (pre & -> & Hd)%Hs & H). destruct r as [|[] r]; try done. injection H as <- <-.
    exists (TLParen :: pre ++ [TRParen]). split; [cbn; by rewrite <- app_assoc|by constructor].
Qed.

Lemma not_step (rec : cparser) t ts : t <> TNot -> parse_not rec (t :: ts) = parse_primary rec (t :: ts).
Proof. by destruct t. Qed.

Lemma is_not t : t = TNot \/ t <> TNot.
Proof. destruct t; first [by left|by right]. Qed.

Lemma not_sound (rec : cparser) D : sound rec D -> sound (parse_not rec) (not_phrase D).
Proof.
  intros Hs ts. induction ts as [|t ts IH]; intros c rest; [done|]. destruct (is_not t) as [->|Hn]; [|rewrite not_step by done; by apply primary_sound].
  cbn [parse_not]. rewrite pbind_ok. intros ([inner r] & (pre & -> & Hd)%IH & [= <- <-]). eexists (_ :: pre). split; [done|by constructor].
Qed.

Lemma not_total (rec : cparser) n : total_below rec n -> total_below (parse_not rec) (S n).
Proof.
  intros Ht ts. induction ts as [|t ts IH]; intros Hl; [done|]. cbn [length] in Hl. destruct (is_not t) as [->|Hn].
  - cbn [parse_not]. specialize (IH ltac:(lia)). by destruct (parse_not rec ts) as [[]| |].
  - rewrite not_step by done. destruct t; try done; cbn [parse_primary]; [apply predicate_total|].
    destruct (rec ts) as [[e r]|?|] eqn:E; cbn [pbind]; [by destruct r as [|[] r]|done|]. apply Ht in E; [done|lia].
Qed.

Definition anything_after (rest : list Token) : Prop := True.
Definition after_filter : list Token -> Prop := ends (or_op (B := B)) (ends (and_op (B := B)) anything_after).

Lemma not_complete (rec : cparser) D n : complete_below rec D after_filter n -> complete_below (parse_not rec) (not_phrase D) anything_after (S n).
Proof.
  intros Hc pre a rest Hd _. induction Hd as [pre c Hd|f pre c Hp|pre c Hd IH]; intros Hl; cbn [app].
  - cbn [app length] in Hl. rewrite not_step by done. cbn [parse_primary]. rewrite <- app_assoc in *. cbn [app] in *. by rewrite (Hc pre c (TRParen :: rest) Hd) by (done || lia).
  - rewrite not_step by done. cbn [parse_primary]. by apply predicate_complete.
  - cbn [parse_not]. rewrite IH; [done|]. cbn [app length] in Hl. lia.
Qed.

Ltac connective_follows := intros [] r [? [=]]; repeat split.

Lemma parse_expr_sound fuel : sound (parse_expr fuel) expr_phrase.
Proof.
  induction fuel as [|fuel IH]; [done|]. intros ts a rest H. cbn [parse_expr] in H.
  apply (chain_sound _ _ _ (chain_sound _ _ _ (not_sound _ _ IH))) in H as (pre & -> & Hd). exists pre. split; [done|]. constructor. by apply expr_levels.
Qed.

Lemma parse_expr_total fuel : total_below (parse_expr (B := B) fuel) fuel.
Proof.
  induction fuel as [|fuel IH]; [intros ts Hl; lia|]. pose proof (not_sound _ _ (parse_expr_sound fuel)) as Hs.
  eapply chain_total; [by apply chain_sound|apply chain_nonempty, not_nonempty|]. eapply chain_total; [done|apply not_nonempty|by apply not_total].
Qed.

Lemma parse_expr_complete fuel : complete_below (parse_expr fuel) expr_phrase after_filter fuel.
Proof.
  induction fuel as [|fuel IH]; [intros pre a rest _ _ Hl; lia|]. pose proof (not_sound _ _ (parse_expr_sound fuel)) as Hs. intros pre a rest [pre' a' Hd] Hf Hl.
  apply expr_levels in Hd. revert Hd Hf Hl. apply chain_complete; [by apply chain_sound|apply chain_nonempty, not_nonempty|connective_follows|].
  apply chain_complete; [done|apply not_nonempty|connective_follows|]. by apply not_complete.
Qed.

(** *** The tokenizer answers *)

Lemma quoted_shorter quote l s r : quoted quote l = Some (s, r) -> (length r < length l)%nat.
Proof.
  revert s r. induction l as [l IH] using (induction_ltof1 _ (@length _)). unfold ltof in IH. intros s r. destruct l as [|c l]; [done|]. cbn [quoted].
  destruct (Ascii.eqb c quote); [intros [= _ <-]; cbn; lia|]. destruct l as [|d l]; [done|]. destruct (Ascii.eqb c "092").
  - intros H. apply bind_Some in H as ([s' r'] & H & [= _ <-]). apply IH in H; cbn in *; lia.
  - intros H. apply bind_Some in H as ([s' r'] & H & [= _ <-]). apply IH in H; cbn in *; lia.
Qed.

Lemma read_number_shorter (l : list ascii) t r (c : ascii) (rest : list ascii) : l = c :: rest -> (DumpExpr.is_digit c = true \/ c = "-"%char) -> read_number l = POk (t, r) -> (length r <= length rest)%nat.
Proof.
  intros -> Hc. unfold read_number.
  assert (forall (sign : list ascii) l0, (length (DumpExpr.span DumpExpr.is_digit l0).2 <= length rest)%nat ->
    (let '(whole, l) := DumpExpr.span DumpExpr.is_digit l0 in
     let '(fraction, l) := match l with "."%char :: rest => let '(ds, r) := DumpExpr.span DumpExpr.is_digit rest in ("."%char :: ds, r) | _ => ([], l) end in
     match parse_f64 (String.string_of_list_ascii (sign ++ whole ++ fraction)) with Some n => POk (TNumber n, l) | None => PErr InvalidValue end) = POk (t, r) -> (length r <= length rest)%nat) as Hgo.
  { intros sign l0 Hl0. destruct (DumpExpr.span DumpExpr.is_digit l0) as [whole l1]. cbn [snd] in Hl0.
    set (m := match l1 with "."%char :: rest => let '(ds, r) := DumpExpr.span DumpExpr.is_digit rest in ("."%char :: ds, r) | _ => ([], l1) end).
    assert (length m.2 <= length l1)%nat as Hm.
    { unfold m. destruct l1 as [|x l1]; [done|]. destruct x as [[] [] [] [] [] [] [] []]; try (cbn; lia). pose proof (span_rest DumpExpr.is_digit l1). destruct (DumpExpr.span _ l1). cbn in *. lia. }
    destruct m as [fraction l2]. cbn [snd] in Hm. destruct (parse_f64 _); [|done]. intros [= _ <-]. lia. }
  destruct Hc as [Hd| ->].
  - pose proof (span_head DumpExpr.is_digit c rest Hd) as Hh. assert (match c :: rest with "-"%char :: rest => (["-"%char], rest) | _ => ([], c :: rest) end = ([], c :: rest)) as ->.
    { destruct c as [[] [] [] [] [] [] [] []]; try done. }
    by apply Hgo.
  - apply Hgo, span_rest.
Qed.
Lemma next_shorter (c : ascii) (rest : list ascii) t r : next_token c rest = POk (t, r) -> (length r <= length rest)%nat.
Proof.
  assert (forall t r, match quoted c rest with Some (s, r) => POk (TStr (String.string_of_list_ascii s), r) | None => PErr UnterminatedLiteral end = POk (Err := QueryError) (t, r) -> (length r <= length rest)%nat) as Hq.
  { intros t0 r0. destruct (quoted c rest) as [[s0 r1]|] eqn:E; [|done]. intros [= _ <-]. apply quoted_shorter in E. lia. }
  assert (forall t r, (if DumpExpr.is_digit c then read_number (c :: rest)
      else if DumpExpr.starts_ident c then let '(s, rest) := DumpExpr.span DumpExpr.in_ident (c :: rest) in POk (keyword (String.string_of_list_ascii s), rest)
      else PErr UnexpectedByte) = POk (t, r) -> (length r <= length rest)%nat) as Hw.
  { intros t0 r0. destruct (DumpExpr.is_digit c) eqn:Ed; [apply (read_number_shorter _ _ _ c rest eq_refl); by left|]. destruct (DumpExpr.starts_ident c) eqn:Ei; [|done].
    pose proof (span_head DumpExpr.in_ident c rest) as Hs. unfold DumpExpr.in_ident at 1 in Hs. rewrite Ei in Hs. specialize (Hs eq_refl).
    destruct (DumpExpr.span DumpExpr.in_ident (c :: rest)). by intros [= _ <-]. }
  unfold next_token. destruct c as [[] [] [] [] [] [] [] []]; try apply Hw; try apply Hq; try (by intros [= _ <-]);
    destruct rest as [|d rest]; try apply Hw; try (by intros [= _ <-]).
  all: try (destruct (DumpExpr.is_digit d); [apply (read_number_shorter _ _ _ _ _ eq_refl); by right|done]).
  all: destruct d as [[] [] [] [] [] [] [] []]; try apply Hw; try (intros [= _ <-]; cbn; lia).
Qed.

Lemma next_total (c : ascii) (rest : list ascii) : next_token c rest <> PFuel.
Proof.
  assert (forall l, read_number l <> PFuel) as Hr by (intros l; unfold read_number; repeat case_match; done).
  assert (match quoted c rest with Some (s, r) => POk (TStr (String.string_of_list_ascii s), r) | None => PErr (Err := QueryError) UnterminatedLiteral end <> PFuel) as Hq by (by destruct (quoted c rest) as [[]|]).
  assert ((if DumpExpr.is_digit c then read_number (c :: rest)
      else if DumpExpr.starts_ident c then let '(s, rest) := DumpExpr.span DumpExpr.in_ident (c :: rest) in POk (keyword (String.string_of_list_ascii s), rest)
      else PErr UnexpectedByte) <> PFuel) as Hw.
  { destruct (DumpExpr.is_digit c); [apply Hr|]. destruct (DumpExpr.starts_ident c); [|done]. by destruct (DumpExpr.span _ _). }
  unfold next_token. destruct c as [[] [] [] [] [] [] [] []]; try apply Hw; try apply Hq; try done; destruct rest as [|d rest]; try apply Hw; try done.
  all: try (destruct (DumpExpr.is_digit d); [apply Hr|done]).
  all: destruct d as [[] [] [] [] [] [] [] []]; try apply Hw; done.
Qed.

Lemma tokenize_answers fuel (l : list ascii) : (length l <= fuel)%nat -> tokenize fuel l <> PFuel.
Proof.
  revert l. induction fuel as [|fuel IH]; intros l Hl; cbn [tokenize]; pose proof (span_rest is_ascii_whitespace l) as Hs;
    destruct (DumpExpr.span is_ascii_whitespace l).2 as [|c rest]; try done; cbn [length] in Hs; [lia|].
  pose proof (next_total c rest). destruct (next_token c rest) as [[t r]|?|] eqn:E; cbn [pbind]; [|done|done]. apply next_shorter in E.
  specialize (IH r ltac:(lia)). by destruct (tokenize fuel r).
Qed.

(** C32: the Meilisearch parser decides its grammar: a filter string gives a clause
    exactly when its tokens form a phrase of the grammar for that clause, and the fuel is
    enough for every string. NOT binds tighter than AND and AND tighter than OR; one
    operand stands for itself, several operands joined by the same connective form one
    compound clause of all of them in order, and when the first operand is itself a
    compound of that connective (in parentheses) its members and the other operands form
    one clause. The grammar includes IS NULL and IS NOT NULL, which two guides call
    unsupported (see the findings). *)
Theorem meili_grammar input (clause : FilterClause B) :
  (parse_filter_string input = POk clause <->
     exists tokens, tokenize (length (String.list_ascii_of_string input)) (String.list_ascii_of_string input) = POk tokens /\ expr_phrase tokens clause)
  /\ parse_filter_string (B := B) input <> PFuel.
Proof.
  unfold parse_filter_string. set (l := String.list_ascii_of_string input). split.
  - rewrite pbind_ok. setoid_rewrite pbind_ok. split.
    + intros (tokens & Ht & [c rest] & Hp & H). destruct rest; [|done]. injection H as ->. exists tokens. split; [done|].
      apply parse_expr_sound in Hp as (pre & -> & Hd). by rewrite app_nil_r.
    + intros (tokens & Ht & Hd). exists tokens. split; [done|]. exists (clause, []). split; [|done].
      rewrite <- (app_nil_r tokens) at 2. apply parse_expr_complete; [done|done|]. rewrite app_nil_r. lia.
  - pose proof (tokenize_answers (length l) l ltac:(lia)) as Ht. destruct (tokenize (length l) l) as [tokens|?|]; cbn [pbind]; [|done|done].
    pose proof (parse_expr_total (S (length tokens)) tokens ltac:(lia)) as Hp. destruct (parse_expr _ tokens) as [[c rest]|?|]; cbn [pbind]; [by destruct rest|done|done].
Qed.

(** A string literal keeps its escapes. *)
Lemma escapes_kept : parse_filter_string (B := B) "name = 'it\'s'" = POk (Eq "name" (Str "it\'s")).
Proof. vm_compute. reflexivity. Qed.

(** Integers go through doubles. *)
Lemma large_integer_rounded : parse_filter_string (B := B) "id = 9007199254740993" = POk (Eq "id" (Integer 9007199254740992)).
Proof. vm_compute. reflexivity. Qed.

(** Paging by page number skips the check of the limit. *)
Lemma zero_hits_accepted : parse_object (B := B) [("hitsPerPage"%string, JInt 0); ("page"%string, JInt 3)] = POk (MkBitdexQuery [] None 0 None (Some 0) false).
Proof. vm_compute. reflexivity. Qed.

End meili.

(** ** Witnesses *)

Definition demo_query : BitdexQuery unit :=
  MkBitdexQuery [And [Eq "nsfwLevel" (Integer 1); Not (In "tagIds" [Integer 12; Str "x"])]] (Some (MkSortClause "reactionCount" Desc)) 50 (Some (MkCursorPosition 342 7042)) None true.

(** A reader for one text. *)
Local Instance one_text : JsonText := { json_to_string _ := "q"; json_from_str _ := Some (query_to_json demo_query) }.

Lemma demo_expressible n : (2 <= n)%nat -> expressible (B := unit) (S n) (And [Eq "nsfwLevel" (Integer 1); Not (In "tagIds" [Integer 12; Str "x"])]).
Proof.
  destruct n as [|[|n]]; [lia|lia|]. intros _. split; [done|]. constructor; [by split|]. constructor; [|constructor]. split; [done|by repeat constructor].
Qed.

Lemma demo_query_ok : query_ok demo_query.
Proof.
  split; [apply demo_expressible; by apply Nat.leb_le|by intros s [= <-]|by split|by intros p [= <-]|done].
Qed.

Lemma json_query_roundtrip_witness : JsonQuery.parse (json_to_string (query_to_json demo_query)) = POk demo_query.
Proof. exact (json_query_roundtrip demo_query eq_refl demo_query_ok). Defined.
