(* ===== verification/WarmRegistry.v ===== *)
(** * Warm registry (src/warm_registry.rs)

    The frequency table of query shapes: every query is counted under its canonical
    filter clauses, sort field and direction; the most frequent shapes are written to
    a file that is replayed on boot, and filter sets that are frequent over all sorts
    are offered for promotion to prefilters.  The table stays within its capacity, a
    recorded shape is counted, and a crash while the file is written leaves the old or
    the new list. *)

From S2P Require Import Prelude Roaring Config Sort Float64 Bytes BucketDiffLog TimeBuckets Query CacheKeys.
Local Open Scope N_scope.

Record QueryShape : Type := MkQueryShape {
  qs_filter_clauses : list CanonicalClause;
  qs_sort_field : string;
  qs_direction : SortDirection;
}.

Global Instance QueryShape_eq_dec : EqDecision QueryShape.
Proof. solve_decision. Defined.

Global Program Instance QueryShape_countable : Countable QueryShape :=
  inj_countable' (fun s => (qs_filter_clauses s, qs_sort_field s, qs_direction s))
    (fun '(c, f, d) => MkQueryShape c f d) _.
Next Obligation. by intros []. Qed.

Record WarmEntry (B : Type) : Type := MkWarmEntry {
  we_filters : list (FilterClause B);
  we_sort_field : string;
  we_direction : SortDirection;
  we_frequency : N;
}.
Arguments MkWarmEntry {B}.
Arguments we_filters {B} _.
Arguments we_sort_field {B} _.
Arguments we_direction {B} _.
Arguments we_frequency {B} _.

(** [HotFilterSet]; the accumulator [HotFilterAccum] has the same four fields. *)
Record HotFilterSet (B : Type) : Type := MkHotFilterSet {
  hfs_filters : list (FilterClause B);
  hfs_canonical : list CanonicalClause;
  hfs_total_frequency : N;
  hfs_sort_variants : N;
}.
Arguments MkHotFilterSet {B}.
Arguments hfs_filters {B} _.
Arguments hfs_canonical {B} _.
Arguments hfs_total_frequency {B} _.
Arguments hfs_sort_variants {B} _.

Record ShapeRecord (B : Type) : Type := MkShapeRecord {
  sr_frequency : N;
  sr_filters : list (FilterClause B);
}.
Arguments MkShapeRecord {B}.
Arguments sr_frequency {B} _.
Arguments sr_filters {B} _.

(** [serde_json::to_string_pretty] and [serde_json::from_str] on the entry list; a
    clause that holds a bitmap cannot be written. *)
Class WarmText (B : Type) := {
  warm_to_string : list (WarmEntry B) -> option string;
  warm_from_str : string -> option (list (WarmEntry B));
}.

Module WarmRegistry.

Definition MAX_TRACKED_SHAPES : N := 10000.
Definition MAX_WARM_SHAPES : nat := 500.

Record t (B : Type) : Type := mk {
  shapes : gmap QueryShape (ShapeRecord B);
  persist_path : option string;
  total_recorded : N;
}.
Arguments mk {B}.
Arguments shapes {B} _.
Arguments persist_path {B} _.
Arguments total_recorded {B} _.

Section ops.
Context {B : Type}.
(** The order in which the hash map is iterated. *)
Context (iter : gmap QueryShape (ShapeRecord B) -> list (QueryShape * ShapeRecord B)).
Implicit Types (w : t B).

Definition new (path : option string) : t B := mk ∅ path 0.

(** [iter().min_by_key(frequency)]: the first of the least frequent shapes. *)
Fixpoint min_by_frequency (l : list (QueryShape * ShapeRecord B)) : option (QueryShape * ShapeRecord B) :=
  match l with
  | [] => None
  | x :: rest =>
      match min_by_frequency rest with
      | Some y => Some (if sr_frequency x.2 <=? sr_frequency y.2 then x else y)
      | None => Some x
      end
  end.

Definition evict_least (m : gmap QueryShape (ShapeRecord B)) : gmap QueryShape (ShapeRecord B) :=
  match min_by_frequency (iter m) with
  | Some (min_key, _) => delete min_key m
  | None => m
  end.

Definition record w (filter_clauses : list (FilterClause B)) (canonical : list CanonicalClause) (sort_field : string)
    (direction : SortDirection) : t B :=
  let shape := MkQueryShape canonical sort_field direction in
  let shapes' :=
    match shapes w !! shape with
    | Some r => <[shape := MkShapeRecord (sr_frequency r + 1) (sr_filters r)]> (shapes w)
    | None =>
        let room := if MAX_TRACKED_SHAPES <=? N.of_nat (size (shapes w)) then evict_least (shapes w) else shapes w in
        <[shape := MkShapeRecord 1 filter_clauses]> room
    end in
  mk shapes' (persist_path w) (total_recorded w + 1).

Definition warm_entry (e : QueryShape * ShapeRecord B) : WarmEntry B :=
  MkWarmEntry (sr_filters e.2) (qs_sort_field e.1) (qs_direction e.1) (sr_frequency e.2).

Definition more_frequent (a b : WarmEntry B) : Prop := we_frequency b <= we_frequency a.

Global Instance more_frequent_dec : RelDecision more_frequent.
Proof. intros a b. unfold more_frequent. apply _. Defined.

Definition top_shapes w (n : nat) : list (WarmEntry B) := take n (merge_sort more_frequent (warm_entry <$> iter (shapes w))).

Definition shape_count w : nat := size (shapes w).

(** One shape joins the group of its canonical clauses. *)
Definition group_shape (groups : gmap (list CanonicalClause) (HotFilterSet B)) (e : QueryShape * ShapeRecord B)
  : gmap (list CanonicalClause) (HotFilterSet B) :=
  let canonical := qs_filter_clauses e.1 in
  let acc := default (MkHotFilterSet (sr_filters e.2) canonical 0 0) (groups !! canonical) in
  <[canonical := MkHotFilterSet (hfs_filters acc) (hfs_canonical acc) (hfs_total_frequency acc + sr_frequency e.2)
                   (hfs_sort_variants acc + 1)]> groups.

Definition hotter (a b : HotFilterSet B) : Prop := hfs_total_frequency b <= hfs_total_frequency a.

Global Instance hotter_dec : RelDecision hotter.
Proof. intros a b. unfold hotter. apply _. Defined.

(** [into_values]: the order in which the groups are iterated. *)
Context (group_iter : gmap (list CanonicalClause) (HotFilterSet B) -> list (HotFilterSet B)).

Definition hot_filter_sets w (min_frequency : N) : list (HotFilterSet B) :=
  merge_sort hotter
    (filter (fun a => (min_frequency <=? hfs_total_frequency a) && (3 <=? N.of_nat (length (hfs_canonical a))))
       (group_iter (foldl group_shape ∅ (iter (shapes w))))).

(** ** The warm file *)

Section persistence.
Context `{!WarmText B}.

(** The contents of [warm.json] and of its temporary file. *)
Record files : Type := MkFiles { warm_file : option string; tmp_file : option string }.

(** The states the two file operations go through: the temporary file is written,
    then renamed over the warm file. *)
Definition persist_steps (fs : files) (json : string) : list files :=
  [fs; MkFiles (warm_file fs) (Some json); MkFiles (Some json) None].

(** The number of shapes written and the states of the files, or an error when the
    entries have no text. *)
Definition persist w (fs : files) : option (nat * list files) :=
  match persist_path w with
  | None => Some (0%nat, [fs])
  | Some _ =>
      let entries := top_shapes w MAX_WARM_SHAPES in
      if bool_decide (length entries = 0%nat) then Some (0%nat, [fs])
      else json ← warm_to_string entries; Some (length entries, persist_steps fs json)
  end.

Definition load (fs : files) : list (WarmEntry B) :=
  match warm_file fs with
  | Some json => default [] (warm_from_str json)
  | None => []
  end.

End persistence.
End ops.
End WarmRegistry.

Local Open Scope N_scope.

Section facts.
Context {B : Type}.
Context (iter : gmap QueryShape (ShapeRecord B) -> list (QueryShape * ShapeRecord B)).
(** Iteration visits every shape once. *)
Hypothesis iter_shapes : forall m, iter m ≡ₚ map_to_list m.
Implicit Types (w : WarmRegistry.t B).

Lemma min_by_frequency_elem (l : list (QueryShape * ShapeRecord B)) :
  l <> [] -> exists x, WarmRegistry.min_by_frequency l = Some x /\ x ∈ l
    /\ Forall (fun y => sr_frequency x.2 <= sr_frequency y.2) l.
Proof.
  induction l as [|x l IH]; [done|]. intros _. simpl. destruct l as [|y l].
  - exists x. split; [done|]. split; [by left|]. constructor; [lia|constructor].
  - destruct IH as (z & -> & Hz & Hmin); [done|]. destruct (N.leb_spec (sr_frequency x.2) (sr_frequency z.2)).
    + exists x. split; [done|]. split; [by left|]. constructor; [lia|]. apply (Forall_impl _ _ _ Hmin). intros a Ha. lia.
    + exists z. split; [done|]. split; [by right|]. constructor; [lia|done].
Qed.

(** Eviction drops one shape, one of the least frequent. *)
Lemma evict_least_spec (m : gmap QueryShape (ShapeRecord B)) :
  m <> ∅ -> exists k r, m !! k = Some r /\ WarmRegistry.evict_least iter m = delete k m
    /\ map_Forall (fun _ r' => sr_frequency r <= sr_frequency r') m.
Proof.
  intros Hm. destruct (min_by_frequency_elem (iter m)) as ([k r] & Hmin & Hin & Hall).
  - intros Hn. apply Hm. apply map_to_list_empty_iff. apply Permutation_nil_r. by rewrite <- Hn, iter_shapes.
  - rewrite iter_shapes in Hin, Hall. exists k, r. split; [by apply elem_of_map_to_list|]. split.
    + unfold WarmRegistry.evict_least. by rewrite Hmin.
    + apply map_Forall_to_list. apply (Forall_impl _ _ _ Hall). by intros [].
Qed.

(** The table never grows past its capacity. *)
Lemma record_bounded w fs canonical sort_field direction :
  N.of_nat (size (WarmRegistry.shapes w)) <= WarmRegistry.MAX_TRACKED_SHAPES ->
  N.of_nat (size (WarmRegistry.shapes (WarmRegistry.record iter w fs canonical sort_field direction))) <= WarmRegistry.MAX_TRACKED_SHAPES.
Proof.
  intros Hb. unfold WarmRegistry.record. simpl. set (shape := MkQueryShape _ _ _).
  destruct (WarmRegistry.shapes w !! shape) as [r|] eqn:E.
  - rewrite map_size_insert_Some by eauto. done.
  - destruct (N.leb_spec WarmRegistry.MAX_TRACKED_SHAPES (N.of_nat (size (WarmRegistry.shapes w)))) as [Hf|Hf].
    + destruct (evict_least_spec (WarmRegistry.shapes w)) as (k & r & Hk & -> & _).
      { intros He. rewrite He in Hf. unfold WarmRegistry.MAX_TRACKED_SHAPES in Hf. rewrite map_size_empty in Hf. lia. }
      rewrite map_size_insert_None by (by rewrite lookup_delete_None; right).
      assert (size (delete k (WarmRegistry.shapes w)) = pred (size (WarmRegistry.shapes w))) as -> by (apply map_size_delete_Some; eauto).
      unfold WarmRegistry.MAX_TRACKED_SHAPES in *. lia.
    + rewrite map_size_insert_None by done. lia.
Qed.

(** Recording a shape raises its count by one, from zero if it was not tracked. *)
Lemma record_counts w fs canonical sort_field direction :
  let shape := MkQueryShape canonical sort_field direction in
  exists r, WarmRegistry.shapes (WarmRegistry.record iter w fs canonical sort_field direction) !! shape = Some r
    /\ sr_frequency r = 1 + match WarmRegistry.shapes w !! shape with Some r0 => sr_frequency r0 | None => 0 end.
Proof.
  intros shape. unfold WarmRegistry.record. fold shape. simpl. destruct (WarmRegistry.shapes w !! shape) as [r|] eqn:E.
  - rewrite lookup_insert_eq. eexists. split; [done|]. simpl. lia.
  - rewrite lookup_insert_eq. eexists. split; [done|]. done.
Qed.

(** Wherever the machine stops while the warm file is written, the next start loads the
    old list or the new one. *)
Lemma persist_crash_safe `{!WarmText B} w fs n states st :
  (forall es s, warm_to_string es = Some s -> warm_from_str s = Some es) ->
  WarmRegistry.persist iter w fs = Some (n, states) -> st ∈ states ->
  WarmRegistry.load st = WarmRegistry.load fs \/ WarmRegistry.load st = WarmRegistry.top_shapes iter w WarmRegistry.MAX_WARM_SHAPES.
Proof.
  intros Hrt. unfold WarmRegistry.persist. destruct (WarmRegistry.persist_path w).
  - case_bool_decide; [intros [= <- <-] ->%list_elem_of_singleton; by left|].
    destruct (warm_to_string _) as [json|] eqn:Hj; simpl; [|done]. intros [= <- <-].
    intros [->|[->|[->|[]%elem_of_nil]%elem_of_cons]%elem_of_cons]%elem_of_cons; [by left..|].
    right. unfold WarmRegistry.load. simpl. by rewrite (Hrt _ _ Hj).
  - intros [= <- <-] ->%list_elem_of_singleton. by left.
Qed.

End facts.
