(* ===== verification/Prefilter.v ===== *)
(** * Prefilters (src/prefilter.rs and the prefilter parts of src/concurrent_engine.rs)

    Named, precomputed filter bitmaps.  When the canonical clauses of a query contain
    the canonical clauses of a registered prefilter, those clauses are replaced by its
    bitmap.  The registry, canonicalization, matching and substitution; and the
    engine's registration, refresh, eviction and automatic promotion. *)

From S2P Require Import Prelude Roaring Versioned Slot Config Sort Filter Float64 Bytes BucketDiffLog TimeBuckets Query Dictionary Planner Executor.
From S2P Require Import CacheKeys MetaIndex CacheEntry CacheEval UnifiedCache WarmRegistry.
Local Open Scope bitdex_scope.
Local Open Scope string_scope.

(** ** The derived equality of clauses *)

(** [f64] compares by IEEE equality: a NaN differs from itself, the zeros are equal. *)
Definition value_eqb (a b : Value) : bool :=
  match a, b with
  | Integer x, Integer y => (x =? y)%Z
  | Float x, Float y => SFeqb x y
  | Bool x, Bool y => Bool.eqb x y
  | Str x, Str y => bool_decide (x = y)
  | _, _ => false
  end.

Fixpoint list_eqb {A : Type} (eqb : A -> A -> bool) (l k : list A) : bool :=
  match l, k with
  | [], [] => true
  | x :: l, y :: k => eqb x y && list_eqb eqb l k
  | _, _ => false
  end.

Section clause_eq.
Context {B : Type} `{!RoaringOps B}.

(** Bitmaps are equal when they hold the same slots. *)
Definition bitmap_eqb (a b : B) : bool := bool_decide (rb_iter a = rb_iter b).

Fixpoint clause_eqb (a b : FilterClause B) : bool :=
  match a, b with
  | Eq f v, Eq g w | NotEq f v, NotEq g w | Gt f v, Gt g w | Lt f v, Lt g w
  | Gte f v, Gte g w | Lte f v, Lte g w => bool_decide (f = g) && value_eqb v w
  | In f vs, In g ws | NotIn f vs, NotIn g ws => bool_decide (f = g) && list_eqb value_eqb vs ws
  | Not a, Not b => clause_eqb a b
  | And l, And k | Or l, Or k =>
      (fix go (l k : list (FilterClause B)) : bool :=
         match l, k with
         | [], [] => true
         | x :: l, y :: k => clause_eqb x y && go l k
         | _, _ => false
         end) l k
  | IsNull f, IsNull g | IsNotNull f, IsNotNull g => bool_decide (f = g)
  | BucketBitmap f n b, BucketBitmap g m d => bool_decide (f = g) && bool_decide (n = m) && bitmap_eqb b d
  | _, _ => false
  end.

End clause_eq.

(** [Vec::dedup]: an element equal to the one kept before it is dropped. *)
Section dedup.
Context {A : Type} (eqb : A -> A -> bool).

Fixpoint dedup_after (kept : A) (l : list A) : list A :=
  match l with
  | [] => []
  | x :: rest => if eqb kept x then dedup_after kept rest else x :: dedup_after x rest
  end.

Definition vec_dedup (l : list A) : list A := match l with [] => [] | x :: rest => x :: dedup_after x rest end.

End dedup.

(** ** Canonicalization *)

Section canonical.
Context {B : Type} `{!RoaringOps B}.
Context (fmt_f64 : spec_float -> string).
Implicit Types (c : FilterClause B).

Definition value_text_le (a b : Value) : Prop := String.le (value_to_string fmt_f64 a) (value_to_string fmt_f64 b).

Global Instance value_text_le_dec : RelDecision value_text_le.
Proof. intros a b. unfold value_text_le. apply _. Defined.

Definition clause_text_le (a b : FilterClause B) : Prop := String.le (clause_to_string fmt_f64 a) (clause_to_string fmt_f64 b).

Global Instance clause_text_le_dec : RelDecision clause_text_le.
Proof. intros a b. unfold clause_text_le. apply _. Defined.

Definition sort_values (values : list Value) : list Value := merge_sort value_text_le values.

Definition canonical_values (values : list Value) : list Value := vec_dedup value_eqb (sort_values values).

Fixpoint flatten_and_into c : list (FilterClause B) :=
  match c with
  | And children => concat (map flatten_and_into children)
  | other => [other]
  end.

Definition sort_clauses (cs : list (FilterClause B)) : list (FilterClause B) :=
  vec_dedup clause_eqb (merge_sort clause_text_le cs).

(** [canonicalize_clause]; the recursion goes through the flattened children, so it is
    bounded by the height of the clause. *)
Fixpoint canonicalize_fuel (fuel : nat) c : FilterClause B :=
  match fuel with
  | O => c
  | S fuel =>
      match c with
      | In field values => In field (canonical_values values)
      | NotIn field values => NotIn field (canonical_values values)
      | Not (Not inner2) => canonicalize_fuel fuel inner2
      | Not inner => Not (canonicalize_fuel fuel inner)
      | And children => And (sort_clauses (map (canonicalize_fuel fuel) (concat (map flatten_and_into children))))
      | Or children => Or (map (canonicalize_fuel fuel) children)
      | other => other
      end
  end.

Fixpoint clause_height c : nat :=
  match c with
  | Not inner => S (clause_height inner)
  | And children | Or children => S (list_max (map clause_height children))
  | _ => 1%nat
  end.

Definition canonicalize_clause c : FilterClause B := canonicalize_fuel (clause_height c) c.

Definition canonicalize_clauses (clauses : list (FilterClause B)) : list (FilterClause B) :=
  sort_clauses (map canonicalize_clause (concat (map flatten_and_into clauses))).

(** ** Matching *)

(** The first unused index whose clause equals [pc]. *)
Fixpoint find_unused (pc : FilterClause B) (query_clauses : list (FilterClause B)) (used : list nat) (i : nat) : option nat :=
  match query_clauses with
  | [] => None
  | qc :: rest => if negb (bool_decide (i ∈ used)) && clause_eqb qc pc then Some i else find_unused pc rest used (S i)
  end.

Fixpoint match_all (prefilter_clauses query_clauses : list (FilterClause B)) (matched : list nat) : option (list nat) :=
  match prefilter_clauses with
  | [] => Some matched
  | pc :: rest => i ← find_unused pc query_clauses matched 0; match_all rest query_clauses (matched ++ [i])
  end.

Definition subset_match (prefilter_clauses query_clauses : list (FilterClause B)) : option (list nat) :=
  if bool_decide (length prefilter_clauses = 0%nat) || (length query_clauses <? length prefilter_clauses)%nat then None
  else merge_sort Nat.le <$> match_all prefilter_clauses query_clauses [].

End canonical.

(** ** The registry *)

Definition DEFAULT_REFRESH_INTERVAL_SECS : N := 300.
Definition MIN_REFRESH_INTERVAL_SECS : N := 30.
Definition MAX_REFRESH_INTERVAL_SECS : N := 86400.
Definition MAX_REGISTERED_PREFILTERS : N := 32.

Inductive RegistryError : Type :=
  | RegistryFull (max : N)
  | InvalidClauses (msg : string).

Definition registry_error_to_string (e : RegistryError) : string :=
  match e with
  | RegistryFull n => "prefilter registry full (max=" ++ pretty n ++ ")"
  | InvalidClauses msg => "invalid clause set: " ++ msg
  end.

Module PrefilterEntry.

Record t (B : Type) : Type := mk {
  name : string;
  clauses : list (FilterClause B);
  bitmap : B;
  refresh_interval_secs : N;
  last_refreshed : Z;
  compute_duration_nanos : N;
  cardinality : N;
  refresh_errors : N;
  substitutions : N;
}.
Arguments mk {B}.
Arguments name {B} _.
Arguments clauses {B} _.
Arguments bitmap {B} _.
Arguments refresh_interval_secs {B} _.
Arguments last_refreshed {B} _.
Arguments compute_duration_nanos {B} _.
Arguments cardinality {B} _.
Arguments refresh_errors {B} _.
Arguments substitutions {B} _.

Section ops.
Context {B : Type} `{!RoaringOps B}.
Implicit Types (e : t B).

Definition compute_ms e : N := (compute_duration_nanos e / 1000000)%N.

(** [i64::saturating_sub]. *)
Definition i64_saturating_sub (a b : Z) : Z := Z.max (-9223372036854775808) (Z.min 9223372036854775807 (a - b)).

Definition is_stale e (now_unix : Z) : bool :=
  (u64_as_i64 (refresh_interval_secs e) <=? i64_saturating_sub now_unix (last_refreshed e))%Z.

Definition publish_refresh e (bm : B) (nanos : N) (now : Z) : t B :=
  mk (name e) (clauses e) bm (refresh_interval_secs e) now nanos (rb_len bm) (refresh_errors e) (substitutions e).

Definition count_substitution e : t B :=
  mk (name e) (clauses e) (bitmap e) (refresh_interval_secs e) (last_refreshed e) (compute_duration_nanos e) (cardinality e)
     (refresh_errors e) (substitutions e + 1)%N.

Definition count_refresh_error e : t B :=
  mk (name e) (clauses e) (bitmap e) (refresh_interval_secs e) (last_refreshed e) (compute_duration_nanos e) (cardinality e)
     (refresh_errors e + 1)%N (substitutions e).

End ops.
End PrefilterEntry.

Module PrefilterRegistry.

Record t (B : Type) : Type := mk {
  entries : gmap string (PrefilterEntry.t B);
  max_entries : N;
}.
Arguments mk {B}.
Arguments entries {B} _.
Arguments max_entries {B} _.

Section ops.
Context {B : Type} `{!RoaringOps B}.
Context (fmt_f64 : spec_float -> string).
(** The order in which the concurrent map is iterated. *)
Context (iter : gmap string (PrefilterEntry.t B) -> list (PrefilterEntry.t B)).
Implicit Types (r : t B).

Definition new_with_cap (cap : N) : t B := mk ∅ cap.
Definition new : t B := new_with_cap MAX_REGISTERED_PREFILTERS.
Definition set_max_entries r (n : N) : t B := mk (entries r) n.
Definition len r : N := N.of_nat (size (entries r)).
Definition is_empty r : bool := bool_decide (size (entries r) = 0%nat).
Definition get r (name : string) : option (PrefilterEntry.t B) := entries r !! name.

Definition remove r (name : string) : bool * t B :=
  (bool_decide (is_Some (entries r !! name)), mk (delete name (entries r)) (max_entries r)).

(** Entries are shared: a counter or bitmap changed through any handle is seen in the map. *)
Definition update r (name : string) (f : PrefilterEntry.t B -> PrefilterEntry.t B) : t B :=
  mk (alter f name (entries r)) (max_entries r).

Definition insert r (name : string) (clauses : list (FilterClause B)) (bm : B) (refresh_interval_secs nanos : N) (now : Z)
  : (PrefilterEntry.t B * t B) + RegistryError :=
  let interval := N.max MIN_REFRESH_INTERVAL_SECS (N.min MAX_REFRESH_INTERVAL_SECS refresh_interval_secs) in
  if bool_decide (length clauses = 0%nat) then inr (InvalidClauses "clause list is empty")
  else
    let canonical := canonicalize_clauses fmt_f64 clauses in
    if bool_decide (length canonical = 0%nat) then inr (InvalidClauses "clauses reduced to empty after canonicalization")
    else
      let cap := max_entries r in
      if bool_decide (entries r !! name = None) && (cap <=? len r)%N then inr (RegistryFull cap)
      else
        let entry := PrefilterEntry.mk name canonical bm interval now nanos (rb_len bm) 0 0 in
        inl (entry, mk (<[name := entry]> (entries r)) cap).

Definition entry_list r : list (PrefilterEntry.t B) := iter (entries r).

(** The entry with the most matched clauses, the first such in iteration order. *)
Definition better_match (best : option (PrefilterEntry.t B * list nat)) (entry : PrefilterEntry.t B) (matched : list nat)
  : option (PrefilterEntry.t B * list nat) :=
  match best with
  | None => Some (entry, matched)
  | Some (_, prev) => if (length prev <? length matched)%nat then Some (entry, matched) else best
  end.

Definition find_substitution r (canonical_query_clauses : list (FilterClause B)) : option (PrefilterEntry.t B * list nat) :=
  if bool_decide (length canonical_query_clauses = 0%nat) || is_empty r then None
  else foldl (fun best entry =>
    match subset_match (PrefilterEntry.clauses entry) canonical_query_clauses with
    | Some matched => better_match best entry matched
    | None => best
    end) None (entry_list r).

(** The clauses at the indices not in [matched]. *)
Definition without_indices (cs : list (FilterClause B)) (matched : list nat) : list (FilterClause B) :=
  (filter (fun ic : nat * FilterClause B => ic.1 ∉ matched) (imap pair cs)).*2.

Definition prefilter_clause (entry : PrefilterEntry.t B) : FilterClause B :=
  BucketBitmap "__prefilter" (PrefilterEntry.name entry) (PrefilterEntry.bitmap entry).

(** The rewritten clauses, the entry used, and the registry with its counter raised. *)
Definition substitute r (query_clauses : list (FilterClause B))
  : list (FilterClause B) * option (PrefilterEntry.t B) * t B :=
  if is_empty r then (query_clauses, None, r)
  else
    let canonical_query := canonicalize_clauses fmt_f64 query_clauses in
    match find_substitution r canonical_query with
    | None => (query_clauses, None, r)
    | Some (entry, matched) =>
        (prefilter_clause entry :: without_indices canonical_query matched, Some entry,
         update r (PrefilterEntry.name entry) PrefilterEntry.count_substitution)
    end.

End ops.
End PrefilterRegistry.

(** ** The engine's use of the registry (concurrent_engine.rs) *)

Record InnerEngine (B : Type) : Type := MkInnerEngine {
  ie_slots : SlotAllocator.t B;
  ie_filters : gmap string (FilterField.t B);
  ie_sorts : gmap string (SortField.t B);
}.
Arguments MkInnerEngine {B}.
Arguments ie_slots {B} _.
Arguments ie_filters {B} _.
Arguments ie_sorts {B} _.

Section engine.
Context {B : Type} `{!RoaringOps B}.
Context (to_lowercase : string -> string) (fmt_f64 : spec_float -> string).
Context (iter : gmap string (PrefilterEntry.t B) -> list (PrefilterEntry.t B)).
Implicit Types (r : PrefilterRegistry.t B) (snap : InnerEngine B).

(** Prefilters are computed by an executor without string maps, dictionaries or time
    buckets. *)
Definition prefilter_executor snap (max_page : N) : QueryExecutor B :=
  new_executor (ie_slots snap) (ie_filters snap) (ie_sorts snap) max_page.

Definition register_prefilter snap r (max_page : N) (name : string) (clauses : list (FilterClause B))
    (refresh_interval_secs nanos : N) (now : Z) : result (PrefilterEntry.t B * PrefilterRegistry.t B) :=
  let? bm := compute_filters to_lowercase (prefilter_executor snap max_page) clauses in
  match PrefilterRegistry.insert fmt_f64 r name clauses bm refresh_interval_secs nanos now with
  | inl er => Ok er
  | inr e => Err (Config (registry_error_to_string e))
  end.

(** One entry of the refresh loop; the counter is the number of refreshed entries. *)
Definition refresh_entry snap (max_page : N) (now_secs : Z) (nanos : N) (acc : nat * PrefilterRegistry.t B)
    (entry : PrefilterEntry.t B) : nat * PrefilterRegistry.t B :=
  let '(refreshed, r) := acc in
  if negb (PrefilterEntry.is_stale entry now_secs) then (refreshed, r)
  else
    match compute_filters to_lowercase (prefilter_executor snap max_page) (PrefilterEntry.clauses entry) with
    | Ok bm => (S refreshed, PrefilterRegistry.update r (PrefilterEntry.name entry)
                  (fun e => PrefilterEntry.publish_refresh e bm nanos now_secs))
    | Err _ => (refreshed, PrefilterRegistry.update r (PrefilterEntry.name entry) PrefilterEntry.count_refresh_error)
    end.

Definition refresh_stale_prefilters snap r (max_page : N) (now_secs : Z) (nanos : N) : nat * PrefilterRegistry.t B :=
  foldl (refresh_entry snap max_page now_secs nanos) (0%nat, r) (PrefilterRegistry.entry_list iter r).

Definition remove_prefilter r (cache : UnifiedCache.t B) (name : string) : bool * PrefilterRegistry.t B * UnifiedCache.t B :=
  let '(removed, r') := PrefilterRegistry.remove r name in
  (removed, r', if removed then (UnifiedCache.invalidate_prefilter cache name).2 else cache).

(** [entries().into_iter().min_by_key(substitutions)]. *)
Fixpoint least_substituted (l : list (PrefilterEntry.t B)) : option (PrefilterEntry.t B) :=
  match l with
  | [] => None
  | x :: rest =>
      match least_substituted rest with
      | Some y => Some (if (PrefilterEntry.substitutions x <=? PrefilterEntry.substitutions y)%N then x else y)
      | None => Some x
      end
  end.

(** The merge thread's evict-to-fit loop; [fuel] bounds the number of evictions. *)
Fixpoint evict_to_fit (fuel : nat) (target : N) r (cache : UnifiedCache.t B) : PrefilterRegistry.t B * UnifiedCache.t B :=
  match fuel with
  | O => (r, cache)
  | S fuel =>
      if (target <? PrefilterRegistry.len r)%N then
        match least_substituted (PrefilterRegistry.entry_list iter r) with
        | Some victim =>
            evict_to_fit fuel target (PrefilterRegistry.remove r (PrefilterEntry.name victim)).2
              (UnifiedCache.invalidate_prefilter cache (PrefilterEntry.name victim)).2
        | None => (r, cache)
        end
      else (r, cache)
  end.

(** The merge thread's automatic promotion of one hot filter set.  [auto_name] is the
    hash of the canonical clauses in hexadecimal. *)
Definition promote_one snap (auto_name : list CanonicalClause -> string) (now : Z) (nanos : N) r (hfs : HotFilterSet B)
  : PrefilterRegistry.t B :=
  match PrefilterRegistry.substitute fmt_f64 iter r (hfs_filters hfs) with
  | (_, Some _, r') => r'
  | (_, None, r') =>
      let name := "auto_" ++ auto_name (hfs_canonical hfs) in
      if bool_decide (is_Some (PrefilterRegistry.get r' name)) then r'
      else
        match compute_filters to_lowercase (prefilter_executor snap 1) (hfs_filters hfs) with
        | Ok bm =>
            if (rb_len bm =? 0)%N then r'
            else match PrefilterRegistry.insert fmt_f64 r' name (hfs_filters hfs) bm 300 nanos now with
                 | inl (_, r'') => r''
                 | inr _ => r'
                 end
        | Err _ => r'
        end
  end.

Definition auto_promote snap (auto_name : list CanonicalClause -> string) (now : Z) (nanos : N) r (total_recorded : N)
    (hot : list (HotFilterSet B)) : PrefilterRegistry.t B :=
  if (PrefilterRegistry.len r <? PrefilterRegistry.max_entries r)%N && (50 <=? total_recorded)%N
  then foldl (promote_one snap auto_name now nanos) r hot else r.

End engine.
