(* ===== verification/PrefilterTheorems.v ===== *)
(** * Prefilters: theorems

    Substituting an exact prefilter into a query changes neither its page nor its
    total; what canonicalization preserves and what it does not; what the engine's
    registration computes, for clauses with and without string values; and which cached
    results a change of the registry reaches. *)

From S2P Require Import Prelude Roaring Versioned Slot Config Sort SortFacts SortTheorems Filter FilterFacts Float64 Bytes BucketDiffLog TimeBuckets Query Dictionary.
From S2P Require Import Planner Executor ExecutorFacts ExecutorTheorems CacheKeys MetaIndex MetaIndexTheorems CacheEntry CacheEval UnifiedCache UnifiedCacheFacts UnifiedCacheTheorems WarmRegistry Prefilter.
Local Open Scope bitdex_scope.

(** ** Equality *)

Lemma value_eqb_cases a b : value_eqb a b = true -> a = b \/ exists f g, a = Float f /\ b = Float g.
Proof.
  destruct a, b; simpl; try done.
  - rewrite Z.eqb_eq. intros ->. by left.
  - right. eauto.
  - rewrite eqb_true_iff. intros ->. by left.
  - rewrite bool_decide_eq_true. intros ->. by left.
Qed.

Lemma list_eqb_Forall2 {A} (eqb : A -> A -> bool) l k : list_eqb eqb l k = true <-> Forall2 (fun a b => eqb a b = true) l k.
Proof.
  revert k. induction l as [|x l IH]; intros [|y k]; cbn [list_eqb]; [split; [constructor|done]|split; by inversion 1..|].
  rewrite andb_true_iff, IH. split; [intros []; by constructor|by inversion 1].
Qed.

(** Dropping repeated neighbours keeps every property that equal elements share. *)
Section dedup_facts.
Context {A : Type} (eqb : A -> A -> bool) (P : A -> Prop).
Hypothesis same : forall a b, eqb a b = true -> P a <-> P b.

Lemma dedup_after_Forall kept l : P kept -> Forall P (dedup_after eqb kept l) <-> Forall P l.
Proof.
  revert kept. induction l as [|x l IH]; intros kept Hk; simpl; [done|].
  destruct (eqb kept x) eqn:E.
  - rewrite IH, Forall_cons by done. apply same in E. tauto.
  - rewrite !Forall_cons. specialize (IH x). tauto.
Qed.

Lemma vec_dedup_Forall l : Forall P (vec_dedup eqb l) <-> Forall P l.
Proof. destruct l as [|x l]; simpl; [done|]. rewrite !Forall_cons. pose proof (dedup_after_Forall x l). tauto. Qed.

Lemma dedup_after_Exists kept l : P kept \/ Exists P (dedup_after eqb kept l) <-> P kept \/ Exists P l.
Proof.
  revert kept. induction l as [|x l IH]; intros kept; simpl; [done|].
  destruct (eqb kept x) eqn:E.
  - rewrite IH, Exists_cons. apply same in E. tauto.
  - rewrite !Exists_cons, IH. tauto.
Qed.

Lemma vec_dedup_Exists l : Exists P (vec_dedup eqb l) <-> Exists P l.
Proof. destruct l as [|x l]; simpl; [done|]. rewrite !Exists_cons. apply dedup_after_Exists. Qed.

End dedup_facts.

Lemma vec_dedup_nil {A} (eqb : A -> A -> bool) l : vec_dedup eqb l = [] <-> l = [].
Proof. by destruct l. Qed.

Lemma vec_dedup_incl {A} (eqb : A -> A -> bool) x l : x ∈ vec_dedup eqb l -> x ∈ l.
Proof.
  assert (forall l kept, x ∈ dedup_after eqb kept l -> x ∈ l) as Hd.
  { induction l0 as [|y l0 IH]; intros kept; simpl; [done|]. rewrite elem_of_cons.
    destruct (eqb kept y); [eauto|]. rewrite elem_of_cons. naive_solver. }
  destruct l as [|y l]; simpl; [done|]. rewrite !elem_of_cons. naive_solver.
Qed.

(** ** The meaning of canonical clauses *)

Section semantics.
Context {B : Type} `{!RoaringOps B, !Roaring B}.
Context (to_lowercase : string -> string) (fmt_f64 : spec_float -> string) (ex : QueryExecutor B).
Implicit Types (c : FilterClause B) (cs : list (FilterClause B)) (x : N).
Notation sem := (matches to_lowercase ex).

Lemma matches_eq_same field a b x : value_eqb a b = true -> matches_eq to_lowercase ex field a x <-> matches_eq to_lowercase ex field b x.
Proof.
  intros [->|(f & g & -> & ->)]%value_eqb_cases; [done|]. unfold matches_eq. case_bool_decide.
  - split; intros (_ & v & [=] & _).
  - split; intros (ff & key & _ & [=] & _).
Qed.

Lemma matches_in_Exists field vs x : matches_in to_lowercase ex field vs x <-> Exists (fun v => matches_eq to_lowercase ex field v x) vs.
Proof. unfold matches_in. rewrite Exists_exists. done. Qed.

Lemma matches_in_same field vs ws x :
  Forall2 (fun a b => value_eqb a b = true) vs ws -> matches_in to_lowercase ex field vs x <-> matches_in to_lowercase ex field ws x.
Proof.
  rewrite !matches_in_Exists. induction 1 as [|a b vs ws Hab _ IH]; [done|].
  by rewrite !Exists_cons, IH, (matches_eq_same field a b) by done.
Qed.

Lemma float_no_range field f p x : ~ matches_range ex field (Float f) p x.
Proof. intros (ff & target & key & _ & [=] & _). Qed.

Lemma matches_lower_same field a b p x : value_eqb a b = true -> matches_lower ex field a p x <-> matches_lower ex field b p x.
Proof.
  intros [->|(f & g & -> & ->)]%value_eqb_cases; [done|]. unfold matches_lower, bucket_threshold.
  destruct (time_buckets ex); simpl; repeat case_bool_decide; simpl;
    try (split; intros []%float_no_range).
Qed.

Lemma matches_upper_same field a b p x : value_eqb a b = true -> matches_upper ex field a p x <-> matches_upper ex field b p x.
Proof.
  intros [->|(f & g & -> & ->)]%value_eqb_cases; [done|]. unfold matches_upper, bucket_threshold.
  destruct (time_buckets ex); simpl; repeat case_bool_decide; simpl;
    try (split; intros []%float_no_range).
Qed.

Lemma clause_list_same l k x :
  Forall (fun a => forall b, clause_eqb a b = true -> sem a x <-> sem b x) l ->
  (fix go (l k : list (FilterClause B)) : bool :=
     match l, k with [], [] => true | x :: l, y :: k => clause_eqb x y && go l k | _, _ => false end) l k = true ->
  (l = [] <-> k = []) /\ (Forall (fun c => sem c x) l <-> Forall (fun c => sem c x) k)
  /\ (Exists (fun c => sem c x) l <-> Exists (fun c => sem c x) k).
Proof.
  intros Hl. revert k. induction Hl as [|a l Ha _ IH]; intros [|b k]; simpl; try done.
  intros [Hab Hk]%andb_true_iff. destruct (IH k Hk) as (_ & Hf & He). apply Ha in Hab.
  rewrite !Forall_cons, !Exists_cons, Hf, He, Hab. done.
Qed.

(** Equal clauses match the same slots. *)
Lemma clause_eqb_matches a b x : clause_eqb a b = true -> sem a x <-> sem b x.
Proof.
  revert b. induction a as [f v|f v|f vs|f vs|f v|f v|f v|f v|c IH|cs IH|cs IH|f|f|f n bm]
    using FilterClause_nested_ind; intros b; destruct b; simpl clause_eqb; try done;
    rewrite ?andb_true_iff, ?bool_decide_eq_true; try (intros [-> Hv]); try (intros ->; done).
  - by apply matches_eq_same.
  - simpl. by rewrite (matches_eq_same _ v value).
  - apply list_eqb_Forall2 in Hv. by apply matches_in_same.
  - apply list_eqb_Forall2 in Hv. simpl. by rewrite (matches_in_same _ vs values).
  - by apply matches_lower_same.
  - by apply matches_upper_same.
  - by apply matches_lower_same.
  - by apply matches_upper_same.
  - intros Hc. simpl. by rewrite (IH _ Hc).
  - intros Hk. apply (clause_list_same _ _ x) in Hk as (Hn & Hf & _).
    + rewrite !sem_And, Hf. tauto.
    + exact IH.
  - intros Hk. apply (clause_list_same _ _ x) in Hk as (_ & _ & He).
    + by rewrite !sem_Or.
    + exact IH.
  - intros [[-> ->] Hb]. simpl. unfold bitmap_eqb in Hb.
    apply bool_decide_eq_true in Hb. by rewrite !rb_elem_of_iter, Hb.
Qed.

(** ** Canonicalization preserves the meaning *)

(** No conjunction in the clause is empty. *)
Fixpoint nonempty_ands c : bool :=
  match c with
  | Not inner => nonempty_ands inner
  | And children => negb (bool_decide (length children = 0%nat)) && forallb nonempty_ands children
  | Or children => forallb nonempty_ands children
  | _ => true
  end.

Definition good c : Prop := valid_clause ex c = true /\ nonempty_ands c = true.

Lemma good_Not c : good (Not c) -> good c.
Proof. by unfold good. Qed.

Lemma good_children cs : forallb (valid_clause ex) cs = true -> forallb nonempty_ands cs = true -> Forall good cs.
Proof.
  rewrite forallb_forall. intros Hv Hn. apply Forall_forall. intros c Hc. split.
  - apply Hv. by apply list_elem_of_In.
  - revert Hn. rewrite forallb_forall. intros Hn. apply Hn. by apply list_elem_of_In.
Qed.

Lemma good_Or cs : good (Or cs) -> Forall good cs.
Proof. intros [Hv Hn]. by apply good_children. Qed.

Lemma good_And cs : good (And cs) -> cs <> [] /\ Forall good cs.
Proof.
  intros [Hv Hn]. simpl in Hn. apply andb_true_iff in Hn as [Hl Hn].
  apply negb_true_iff, bool_decide_eq_false in Hl. split; [by intros ->|]. by apply good_children.
Qed.

(** Flattening a conjunction. *)
Lemma flatten_concat cs x :
  Forall (fun c => Forall (fun d => sem d x) (flatten_and_into c) <-> sem c x) cs ->
  Forall (fun d => sem d x) (concat (map flatten_and_into cs)) <-> Forall (fun d => sem d x) cs.
Proof.
  induction 1 as [|c cs Hc _ IH]; simpl; [done|]. by rewrite Forall_app, Forall_cons, Hc, IH.
Qed.

Lemma flatten_spec c x :
  good c -> flatten_and_into c <> [] /\ Forall good (flatten_and_into c) /\ (Forall (fun d => sem d x) (flatten_and_into c) <-> sem c x).
Proof.
  induction c as [f v|f v|f vs|f vs|f v|f v|f v|f v|c IH|cs IH|cs IH|f|f|f n bm] using FilterClause_nested_ind; intros Hg;
    try (split; [done|]; simpl flatten_and_into; by rewrite !Forall_singleton).
  apply good_And in Hg as [Hne Hg]. simpl flatten_and_into.
  assert (Forall (fun c => flatten_and_into c <> [] /\ Forall good (flatten_and_into c)
    /\ (Forall (fun d => sem d x) (flatten_and_into c) <-> sem c x)) cs) as Hall.
  { apply Forall_forall. intros c Hc. rewrite Forall_forall in IH, Hg. by apply IH; [|apply Hg]. }
  rewrite sem_And. split_and!.
  - destruct cs as [|c cs]; [done|]. inversion_clear Hall as [|?? (Hn & _) _]. simpl. by destruct (flatten_and_into c).
  - clear -Hall. induction Hall as [|c cs (_ & Hc & _) _ IH]; simpl; [done|]. by apply Forall_app.
  - rewrite flatten_concat; [tauto|]. apply (Forall_impl _ _ _ Hall). tauto.
Qed.

Lemma flatten_all_spec cs x :
  Forall good cs ->
  Forall good (concat (map flatten_and_into cs)) /\ (cs <> [] -> concat (map flatten_and_into cs) <> [])
  /\ (Forall (fun d => sem d x) (concat (map flatten_and_into cs)) <-> Forall (fun d => sem d x) cs).
Proof.
  intros Hg. split_and!.
  - induction Hg as [|c cs Hc _ IH]; simpl; [done|]. apply Forall_app. split; [|done]. by apply (flatten_spec c x).
  - destruct Hg as [|c cs Hc _]; [done|]. intros _. simpl. destruct (flatten_spec c x Hc) as [Hn _]. by destruct (flatten_and_into c).
  - apply flatten_concat. apply (Forall_impl _ _ _ Hg). intros c Hc. by apply flatten_spec.
Qed.

Lemma sort_clauses_Forall cs x : Forall (fun d => sem d x) (sort_clauses fmt_f64 cs) <-> Forall (fun d => sem d x) cs.
Proof.
  unfold sort_clauses. rewrite (vec_dedup_Forall clause_eqb (fun d => sem d x)) by (intros; by apply clause_eqb_matches).
  by rewrite (merge_sort_Permutation (clause_text_le fmt_f64) cs).
Qed.

Lemma sort_clauses_nil cs : sort_clauses fmt_f64 cs = [] <-> cs = [].
Proof.
  unfold sort_clauses. rewrite vec_dedup_nil. split; [|by intros ->].
  intros H. apply Permutation_nil_r. by rewrite <- H, merge_sort_Permutation.
Qed.

Lemma canonical_values_in field vs x :
  matches_in to_lowercase ex field (canonical_values fmt_f64 vs) x <-> matches_in to_lowercase ex field vs x.
Proof.
  rewrite !matches_in_Exists. unfold canonical_values, sort_values.
  rewrite (vec_dedup_Exists value_eqb) by (intros; by apply matches_eq_same).
  by rewrite (merge_sort_Permutation (value_text_le fmt_f64) vs).
Qed.

Context (Hwf : fields_wf ex).

(** A valid clause either matches a slot or does not: its bitmap decides. *)
Lemma matches_decided c x : valid_clause ex c = true -> sem c x \/ ~ sem c x.
Proof.
  intros Hv. destruct (evaluate_clause_ok to_lowercase ex Hwf c Hv) as (b & _ & Hb).
  rewrite <- (Hb x). destruct (decide (x ∈ b)); tauto.
Qed.

Lemma map_sem (f : FilterClause B -> FilterClause B) cs x :
  Forall (fun c => sem (f c) x <-> sem c x) cs ->
  (Forall (fun d => sem d x) (map f cs) <-> Forall (fun d => sem d x) cs)
  /\ (Exists (fun d => sem d x) (map f cs) <-> Exists (fun d => sem d x) cs).
Proof.
  induction 1 as [|c cs Hc _ [IHf IHe]]; simpl; [done|]. by rewrite !Forall_cons, !Exists_cons, Hc, IHf, IHe.
Qed.

Lemma canonicalize_fuel_sem n : forall c x, good c -> x ∈ alive ex -> sem (canonicalize_fuel fmt_f64 n c) x <-> sem c x.
Proof.
  induction n as [|n IH]; intros c x Hg Hx; [done|].
  assert (forall cs, Forall good cs -> Forall (fun c => sem (canonicalize_fuel fmt_f64 n c) x <-> sem c x) cs) as Hmap.
  { intros cs Hcs. apply (Forall_impl _ _ _ Hcs). intros d Hd. by apply IH. }
  destruct c as [f v|f v|f vs|f vs|f v|f v|f v|f v|c|cs|cs|f|f|f m bm]; try done.
  - simpl. apply canonical_values_in.
  - simpl. by rewrite canonical_values_in.
  - apply good_Not in Hg. assert (sem (Not (canonicalize_fuel fmt_f64 n c)) x <-> sem (Not c) x) as Hnot.
    { simpl. by rewrite IH. }
    destruct c as [| | | | | | | |c2| | | | |]; try exact Hnot.
    apply good_Not in Hg. simpl canonicalize_fuel. rewrite IH by done. simpl.
    pose proof (matches_decided c2 x (proj1 Hg)). tauto.
  - apply good_And in Hg as [Hne Hg]. destruct (flatten_all_spec cs x Hg) as (Hfg & Hfn & Hf).
    destruct (map_sem (canonicalize_fuel fmt_f64 n) _ x (Hmap _ Hfg)) as [Hm _].
    change (sem (And (sort_clauses fmt_f64 (map (canonicalize_fuel fmt_f64 n) (concat (map flatten_and_into cs))))) x <-> sem (And cs) x).
    rewrite !sem_And, sort_clauses_Forall, Hm, Hf, sort_clauses_nil.
    specialize (Hfn Hne). destruct (concat (map flatten_and_into cs)); [done|]. simpl. split; intros [_ H]; by split.
  - apply good_Or in Hg. destruct (map_sem (canonicalize_fuel fmt_f64 n) _ x (Hmap _ Hg)) as [_ He].
    change (sem (Or (map (canonicalize_fuel fmt_f64 n) cs)) x <-> sem (Or cs) x). by rewrite !sem_Or.
Qed.

(** A live slot matches all canonical clauses when it matches all given clauses. *)
Lemma canonicalize_clauses_sem cs x :
  Forall good cs -> x ∈ alive ex -> Forall (fun d => sem d x) (canonicalize_clauses fmt_f64 cs) <-> Forall (fun d => sem d x) cs.
Proof.
  intros Hg Hx. destruct (flatten_all_spec cs x Hg) as (Hfg & _ & Hf). unfold canonicalize_clauses.
  rewrite sort_clauses_Forall, <- Hf. apply map_sem. apply (Forall_impl _ _ _ Hfg). intros c Hc. by apply canonicalize_fuel_sem.
Qed.

End semantics.

(** ** Enough fuel *)

Section fuel.
Context {B : Type} `{!RoaringOps B}.
Context (fmt_f64 : spec_float -> string).
Implicit Types (c : FilterClause B) (cs : list (FilterClause B)).

Lemma clause_height_elem c cs : c ∈ cs -> (clause_height c <= list_max (map clause_height cs))%nat.
Proof.
  induction cs as [|d cs IH]; [by intros ?%elem_of_nil|]. rewrite elem_of_cons. simpl.
  intros [->|Hc]; [lia|]. specialize (IH Hc). lia.
Qed.

Lemma flatten_height c d : d ∈ flatten_and_into c -> (clause_height d <= clause_height c)%nat.
Proof.
  revert d. induction c as [f v|f v|f vs|f vs|f v|f v|f v|f v|c IH|cs IH|cs IH|f|f|f n bm] using FilterClause_nested_ind; intros d Hd;
    try (simpl flatten_and_into in Hd; apply list_elem_of_singleton in Hd as ->; lia).
  simpl in Hd |- *. apply list_elem_of_In, in_concat in Hd as (l & Hl & Hd). apply in_map_iff in Hl as (c & <- & Hc).
  apply list_elem_of_In in Hc, Hd. rewrite Forall_forall in IH. specialize (IH c Hc d Hd).
  pose proof (clause_height_elem c cs Hc). lia.
Qed.

Lemma flatten_all_height cs d : d ∈ concat (map flatten_and_into cs) -> (clause_height d <= list_max (map clause_height cs))%nat.
Proof.
  intros Hd. apply list_elem_of_In, in_concat in Hd as (l & Hl & Hd). apply in_map_iff in Hl as (c & <- & Hc).
  apply list_elem_of_In in Hc, Hd. apply flatten_height in Hd. pose proof (clause_height_elem c cs Hc). lia.
Qed.

(** Any fuel of at least the height of the clause gives the same result. *)
Lemma canonicalize_fuel_enough n : forall m c,
  (clause_height c <= n)%nat -> (clause_height c <= m)%nat -> canonicalize_fuel fmt_f64 n c = canonicalize_fuel fmt_f64 m c.
Proof.
  induction n as [|n IH]; intros m c Hn Hm; [destruct c; simpl in Hn; lia|].
  destruct m as [|m]; [destruct c; simpl in Hm; lia|].
  destruct c as [| | | | | | | |c|cs|cs| | |]; try done.
  - destruct c as [| | | | | | | |c2| | | | |]; simpl canonicalize_fuel; simpl in Hn, Hm; try (f_equal; apply IH; simpl; lia).
    apply IH; lia.
  - simpl in Hn, Hm |- *. do 2 f_equal. apply map_ext_in. intros d Hd%list_elem_of_In%flatten_all_height. apply IH; lia.
  - simpl in Hn, Hm |- *. f_equal. apply map_ext_in. intros d Hd%list_elem_of_In%clause_height_elem. apply IH; lia.
Qed.

(** The recursion of the code on a conjunction. *)
Lemma canonicalize_clause_And cs :
  canonicalize_clause fmt_f64 (And cs)
  = And (sort_clauses fmt_f64 (map (canonicalize_clause fmt_f64) (concat (map flatten_and_into cs)))).
Proof.
  unfold canonicalize_clause at 1. simpl. do 2 f_equal. apply map_ext_in.
  intros d Hd%list_elem_of_In%flatten_all_height. apply canonicalize_fuel_enough; lia.
Qed.

End fuel.

(** ** Matching *)

Section matching.
Context {B : Type} `{!RoaringOps B}.
Implicit Types (c : FilterClause B) (cs : list (FilterClause B)).

Lemma find_unused_spec pc qs used i j :
  find_unused pc qs used i = Some j ->
  exists k qc, j = (i + k)%nat /\ qs !! k = Some qc /\ clause_eqb qc pc = true.
Proof.
  revert i. induction qs as [|qc qs IH]; intros i; simpl; [done|]. destruct (_ && _) eqn:E.
  - intros [= <-]. exists 0%nat, qc. apply andb_true_iff in E as [_ E]. split; [lia|done].
  - intros (k & d & -> & Hk & Hd)%IH. exists (S k), d. split; [lia|done].
Qed.

Definition found_at (qs : list (FilterClause B)) (pc : FilterClause B) (j : nat) : Prop :=
  exists qc, qs !! j = Some qc /\ clause_eqb qc pc = true.

Lemma match_all_spec ps qs matched l :
  match_all ps qs matched = Some l -> exists k, l = matched ++ k /\ Forall2 (found_at qs) ps k.
Proof.
  revert matched. induction ps as [|p ps IH]; intros matched; simpl.
  - intros [= <-]. exists []. by rewrite app_nil_r.
  - destruct (find_unused p qs matched 0) as [i|] eqn:Hi; simpl; [|done].
    intros (k & -> & Hk)%IH. exists (i :: k). rewrite <- app_assoc. split; [done|]. constructor; [|done].
    apply find_unused_spec in Hi as (j & qc & -> & Hq & He). by exists qc.
Qed.

(** A match pairs every clause of the prefilter with a query clause equal to it, and
    every matched index with a prefilter clause. *)
Lemma subset_match_spec ps qs matched :
  subset_match ps qs = Some matched ->
  (forall p, p ∈ ps -> exists j, j ∈ matched /\ found_at qs p j) /\ (forall j, j ∈ matched -> exists p, p ∈ ps /\ found_at qs p j).
Proof.
  unfold subset_match. destruct (_ || _); [done|]. intros (l & Hl & ->)%fmap_Some.
  apply match_all_spec in Hl as (k & -> & Hk). simpl.
  assert (forall j, j ∈ merge_sort Nat.le k <-> j ∈ k) as Hin by (intros j; by rewrite merge_sort_Permutation).
  split.
  - intros p (i & Hi)%list_elem_of_lookup. destruct (Forall2_lookup_l _ _ _ _ _ Hk Hi) as (j & Hj & Hf).
    exists j. split; [|done]. apply Hin. by eapply list_elem_of_lookup_2.
  - intros j (i & Hi)%Hin%list_elem_of_lookup. destruct (Forall2_lookup_r _ _ _ _ _ Hk Hi) as (p & Hp & Hf).
    exists p. split; [|done]. by eapply list_elem_of_lookup_2.
Qed.

Lemma without_indices_elem cs matched c :
  c ∈ PrefilterRegistry.without_indices cs matched <-> exists i, cs !! i = Some c /\ i ∉ matched.
Proof.
  unfold PrefilterRegistry.without_indices. rewrite list_elem_of_fmap. split.
  - intros ([i d] & -> & [Hn Hi]%list_elem_of_filter). exists i. split; [|done].
    apply elem_of_lookup_imap in Hi as (j & y & [= -> ->] & Hj). done.
  - intros (i & Hi & Hn). exists (i, c). split; [done|]. apply list_elem_of_filter. split; [done|].
    apply elem_of_lookup_imap. eauto.
Qed.

End matching.

(** ** Substitution *)

Section substitution.
Context {B : Type} `{!RoaringOps B, !Roaring B}.
Context (to_lowercase : string -> string) (fmt_f64 : spec_float -> string).
Context (iter : gmap string (PrefilterEntry.t B) -> list (PrefilterEntry.t B)).
(** Iteration visits every entry once. *)
Hypothesis iter_values : forall m, iter m ≡ₚ (map_to_list m).*2.
Implicit Types (r : PrefilterRegistry.t B) (e : PrefilterEntry.t B) (c : FilterClause B) (x : N).

Lemma find_fold_spec q l best e matched :
  foldl (fun best entry =>
    match subset_match (PrefilterEntry.clauses entry) q with
    | Some matched => PrefilterRegistry.better_match best entry matched
    | None => best
    end) best l = Some (e, matched) ->
  best = Some (e, matched) \/ (e ∈ l /\ subset_match (PrefilterEntry.clauses e) q = Some matched).
Proof.
  revert best. induction l as [|d l IH]; intros best; simpl; [by left|]. intros [Hb|[Hl Hm]]%IH; [|right; split; [by right|done]].
  destruct (subset_match (PrefilterEntry.clauses d) q) as [md|] eqn:Hd; [|by left].
  unfold PrefilterRegistry.better_match in Hb. destruct best as [[b prev]|].
  - destruct (_ <? _)%nat; [|by left]. injection Hb as -> ->. right. split; [by left|done].
  - injection Hb as -> ->. right. split; [by left|done].
Qed.

Lemma iter_elem r e : e ∈ iter (PrefilterRegistry.entries r) <-> exists name, PrefilterRegistry.entries r !! name = Some e.
Proof.
  rewrite iter_values, list_elem_of_fmap. split.
  - intros ([name d] & -> & Hd%elem_of_map_to_list). eauto.
  - intros (name & Hn%elem_of_map_to_list). by exists (name, e).
Qed.

Lemma find_substitution_spec r q e matched :
  PrefilterRegistry.find_substitution iter r q = Some (e, matched) ->
  (exists name, PrefilterRegistry.entries r !! name = Some e) /\ subset_match (PrefilterEntry.clauses e) q = Some matched.
Proof.
  unfold PrefilterRegistry.find_substitution. destruct (_ || _); [done|]. intros [[=]|[Hl Hm]]%find_fold_spec.
  split; [|done]. by apply iter_elem.
Qed.

Section exact.
Context (ex : QueryExecutor B).
Notation sem := (matches to_lowercase ex).

(** The bitmap of the entry is the conjunction of its clauses over the live slots. *)
Definition entry_exact e : Prop := forall x, x ∈ PrefilterEntry.bitmap e <-> x ∈ alive ex /\ Forall (fun c => sem c x) (PrefilterEntry.clauses e).

Lemma substituted_clauses_sem (q : list (FilterClause B)) e matched x :
  entry_exact e -> subset_match (PrefilterEntry.clauses e) q = Some matched -> x ∈ alive ex ->
  Forall (fun c => sem c x) (PrefilterRegistry.prefilter_clause e :: PrefilterRegistry.without_indices q matched)
  <-> Forall (fun c => sem c x) q.
Proof.
  intros He Hm Hx. apply subset_match_spec in Hm as [Hp Hj]. rewrite Forall_cons. simpl. rewrite (He x).
  rewrite !Forall_forall. split.
  - intros [[_ Hc] Hrest] c (i & Hi)%list_elem_of_lookup. destruct (decide (i ∈ matched)) as [Him|Him].
    + destruct (Hj i Him) as (p & Hin & qc & Hq & Heq). simplify_eq. apply (clause_eqb_matches to_lowercase ex c p x Heq). auto.
    + apply Hrest. apply without_indices_elem. eauto.
  - intros Hall. split; [split; [done|]|].
    + intros p Hin. destruct (Hp p Hin) as (j & _ & qc & Hq & Heq). apply (clause_eqb_matches to_lowercase ex qc p x Heq).
      apply Hall. by eapply list_elem_of_lookup_2.
    + intros c (i & Hi & _)%without_indices_elem. apply Hall. by eapply list_elem_of_lookup_2.
Qed.

Lemma substitute_cases r q :
  (exists r', PrefilterRegistry.substitute fmt_f64 iter r q = (q, None, r'))
  \/ exists name e matched r', PrefilterRegistry.entries r !! name = Some e
    /\ subset_match (PrefilterEntry.clauses e) (canonicalize_clauses fmt_f64 q) = Some matched
    /\ PrefilterRegistry.substitute fmt_f64 iter r q
       = (PrefilterRegistry.prefilter_clause e :: PrefilterRegistry.without_indices (canonicalize_clauses fmt_f64 q) matched, Some e, r').
Proof.
  unfold PrefilterRegistry.substitute. destruct (PrefilterRegistry.is_empty r); [left; eauto|].
  destruct (PrefilterRegistry.find_substitution iter r (canonicalize_clauses fmt_f64 q)) as [[e matched]|] eqn:Hf; [|left; eauto].
  right. apply find_substitution_spec in Hf as [(name & Hn) Hm]. eauto 10.
Qed.

(** Replacing matched clauses by a prefilter's bitmap does not change a query.  If
    every registered bitmap is exact, the query's clauses are accepted by the executor
    (as given and in canonical form) and hold no empty conjunction, then the rewritten
    query succeeds like the original and returns the same ids and the same total, for
    every sort, limit and cursor. *)
Theorem substitution_preserves_results r (q : list (FilterClause B)) (sort : option SortClause) (limit : N)
    (cursor : option CursorPosition) :
  index_ok ex -> sort_ok ex sort cursor -> (forall x, x ∈ alive ex -> x <= u32_max) ->
  Forall (clause_ok ex) q -> Forall (fun c => nonempty_ands c = true) q ->
  Forall (clause_ok ex) (canonicalize_clauses fmt_f64 q) ->
  (forall name e, PrefilterRegistry.entries r !! name = Some e -> entry_exact e) ->
  exists res res',
    execute to_lowercase ex q sort limit cursor = Ok res
    /\ execute to_lowercase ex (PrefilterRegistry.substitute fmt_f64 iter r q).1.1 sort limit cursor = Ok res'
    /\ qr_ids res' = qr_ids res /\ qr_total_matched res' = qr_total_matched res.
Proof.
  intros Hok Hsort Hu Hq Hne Hcq Hr.
  destruct (execute_page to_lowercase ex q sort limit cursor Hok Hq Hsort Hu) as (res & l & Hres & Hl & Hin & Htot & Hids).
  destruct (substitute_cases r q) as [(r' & ->)|(name & e & matched & r' & Hn & Hm & ->)]; [by exists res, res|]. simpl.
  assert (Forall (clause_ok ex) (PrefilterRegistry.prefilter_clause e :: PrefilterRegistry.without_indices (canonicalize_clauses fmt_f64 q) matched)) as Hout.
  { constructor.
    - split; [done|]. split; [done|]. simpl. intros x Hx. by apply (Hr name e Hn) in Hx as [? _].
    - apply Forall_forall. intros c (i & Hi & _)%without_indices_elem. rewrite Forall_forall in Hcq. apply Hcq. by eapply list_elem_of_lookup_2. }
  destruct (execute_page to_lowercase ex _ sort limit cursor Hok Hout Hsort Hu) as (res' & l' & Hres' & Hl' & Hin' & Htot' & Hids').
  exists res, res'. split; [done|]. split; [done|].
  assert (l' = l) as ->; [|by rewrite Hids', Hids, Htot', Htot].
  apply sorted_lt_ext; [done..|]. intros x. rewrite Hin, Hin'.
  assert (Forall (good ex) q) as Hgood.
  { apply Forall_forall. intros c Hc. rewrite Forall_forall in Hq, Hne. split; [by apply Hq|by apply Hne]. }
  split; intros [Hx Hs]; (split; [done|]).
  - apply (canonicalize_clauses_sem to_lowercase fmt_f64 ex (ok_wf _ Hok) q x Hgood Hx).
    by apply (substituted_clauses_sem _ e matched x (Hr name e Hn) Hm Hx).
  - apply (substituted_clauses_sem _ e matched x (Hr name e Hn) Hm Hx).
    by apply (canonicalize_clauses_sem to_lowercase fmt_f64 ex (ok_wf _ Hok) q x Hgood Hx).
Qed.

End exact.
End substitution.

(** ** What the engine registers *)

Section registration.
Context {B : Type} `{!RoaringOps B, !Roaring B}.
Context (to_lowercase : string -> string) (fmt_f64 : spec_float -> string).
Implicit Types (r : PrefilterRegistry.t B) (e : PrefilterEntry.t B) (c : FilterClause B) (x : N).

Section plain.
Context (ex : QueryExecutor B).

(** Clauses that need neither string maps nor time buckets. *)
Definition no_string (v : Value) : bool := match v with Str _ => false | _ => true end.

Fixpoint plain c : bool :=
  match c with
  | Eq _ v | NotEq _ v => no_string v
  | In _ vs | NotIn _ vs => forallb no_string vs
  | Gt f v | Gte f v | Lt f v | Lte f v => match bucket_threshold ex f v with Some _ => false | None => true end
  | Not inner => plain inner
  | And children | Or children => forallb plain children
  | _ => true
  end.

Context (snap : InnerEngine B) (max_page : N).
Hypothesis same_slots : ie_slots snap = ex_slots ex.
Hypothesis same_filters : ie_filters snap = ex_filters ex.
Notation bare := (prefilter_executor snap max_page).

Lemma bare_alive : alive bare = alive ex.
Proof. unfold alive, prefilter_executor, new_executor. simpl. by rewrite same_slots. Qed.

Lemma bare_filters : ex_filters bare = ex_filters ex.
Proof. exact same_filters. Qed.

Lemma no_string_key field v : no_string v = true -> resolve_value_key to_lowercase bare field v = resolve_value_key to_lowercase ex field v.
Proof. by destruct v. Qed.

Lemma bare_matches_eq field v x : no_string v = true -> matches_eq to_lowercase bare field v x <-> matches_eq to_lowercase ex field v x.
Proof.
  intros Hv. unfold matches_eq, holds_value. case_bool_decide; [by rewrite bare_alive|].
  by rewrite no_string_key, bare_filters.
Qed.

Lemma bare_matches_in field vs x :
  forallb no_string vs = true -> matches_in to_lowercase bare field vs x <-> matches_in to_lowercase ex field vs x.
Proof.
  intros Hv. rewrite forallb_forall in Hv. unfold matches_in. split; intros (v & Hin & Hm); exists v; (split; [done|]);
    (apply bare_matches_eq; [apply Hv; by apply list_elem_of_In|done]).
Qed.

Lemma bare_is_null field x : is_null bare field x <-> is_null ex field x.
Proof. unfold is_null. by rewrite bare_filters. Qed.

Lemma bare_matches_range field v p x : matches_range bare field v p x <-> matches_range ex field v p x.
Proof. unfold matches_range. by rewrite bare_filters. Qed.

Lemma bare_matches c x : plain c = true -> matches to_lowercase bare c x <-> matches to_lowercase ex c x.
Proof.
  assert (forall cs, Forall (fun c => plain c = true -> matches to_lowercase bare c x <-> matches to_lowercase ex c x) cs ->
    forallb plain cs = true -> (Forall (fun c => matches to_lowercase bare c x) cs <-> Forall (fun c => matches to_lowercase ex c x) cs)
    /\ (Exists (fun c => matches to_lowercase bare c x) cs <-> Exists (fun c => matches to_lowercase ex c x) cs)) as Hl.
  { induction 1 as [|d cs Hc _ IH]; simpl; [by rewrite !Forall_nil, !Exists_nil|]. intros [Hp Hps]%andb_true_iff. destruct (IH Hps) as [Hf He].
    rewrite !Forall_cons, !Exists_cons, Hf, He, Hc; done. }
  induction c as [f v|f v|f vs|f vs|f v|f v|f v|f v|c IH|cs IH|cs IH|f|f|f n bm] using FilterClause_nested_ind; intros Hp; simpl in Hp.
  - by apply bare_matches_eq.
  - cbn [matches]. by rewrite bare_alive, bare_matches_eq, bare_is_null.
  - by apply bare_matches_in.
  - cbn [matches]. by rewrite bare_alive, bare_matches_in, bare_is_null.
  - cbn [matches]. unfold matches_lower. destruct (bucket_threshold ex f v); [done|]. apply bare_matches_range.
  - cbn [matches]. unfold matches_upper. destruct (bucket_threshold ex f v); [done|]. apply bare_matches_range.
  - cbn [matches]. unfold matches_lower. destruct (bucket_threshold ex f v); [done|]. apply bare_matches_range.
  - cbn [matches]. unfold matches_upper. destruct (bucket_threshold ex f v); [done|]. apply bare_matches_range.
  - cbn [matches]. by rewrite bare_alive, IH.
  - rewrite !sem_And. by rewrite (proj1 (Hl cs IH Hp)).
  - rewrite !sem_Or. by rewrite (proj2 (Hl cs IH Hp)).
  - cbn [matches]. apply bare_is_null.
  - cbn [matches]. by rewrite bare_alive, bare_is_null.
  - done.
Qed.

Lemma register_entry r name cs interval nanos now e r' :
  register_prefilter to_lowercase fmt_f64 snap r max_page name cs interval nanos now = Ok (e, r') ->
  exists bm, compute_filters to_lowercase bare cs = Ok bm /\ PrefilterEntry.bitmap e = bm
    /\ PrefilterEntry.clauses e = canonicalize_clauses fmt_f64 cs /\ PrefilterEntry.name e = name
    /\ r' = PrefilterRegistry.mk (<[name := e]> (PrefilterRegistry.entries r)) (PrefilterRegistry.max_entries r).
Proof.
  unfold register_prefilter, PrefilterRegistry.insert. destruct (compute_filters _ _ _) as [bm|]; [|done]. cbn [result_bind].
  repeat destruct (bool_decide _); try done; cbn [andb]; try destruct (_ <=? _); try done; intros [= <- <-]; eauto 10.
Qed.

(** Registering clauses without strings or bucketed ranges stores an exact entry. *)
Lemma register_exact r name cs interval nanos now e r' :
  index_ok ex -> index_ok bare -> Forall (clause_ok bare) cs -> Forall (good ex) cs -> Forall (fun c => plain c = true) cs ->
  register_prefilter to_lowercase fmt_f64 snap r max_page name cs interval nanos now = Ok (e, r') ->
  entry_exact to_lowercase ex e.
Proof.
  intros Hex Hbare Hc Hg Hp Hreg. apply register_entry in Hreg as (bm & Hbm & He & Hcl & _). intros x.
  destruct (compute_filters_ok to_lowercase bare Hbare cs Hc) as (b & Hb & Hin). rewrite Hbm in Hb. injection Hb as <-.
  rewrite He, Hcl, Hin, bare_alive.
  assert (Forall (fun c => matches to_lowercase bare c x) cs <-> Forall (fun c => matches to_lowercase ex c x) cs) as ->.
  { rewrite Forall_forall in Hp. rewrite !Forall_forall. split; intros Hall c Hic; (apply bare_matches; [by apply Hp|by apply Hall]). }
  split; intros [Hx Hs]; (split; [done|]); by apply (canonicalize_clauses_sem to_lowercase fmt_f64 ex (ok_wf _ Hex) cs x Hg Hx).
Qed.

End plain.

(** *** String values *)

Lemma canonicalize_one c : (forall d, c <> Not d) -> (forall cs, c <> And cs /\ c <> Or cs) -> (forall f vs, c <> In f vs /\ c <> NotIn f vs) ->
  canonicalize_clauses fmt_f64 [c] = [c].
Proof.
  intros Hn Ha Hi. destruct c as [| |f vs|f vs| | | | |d|cs|cs| | |]; try done; exfalso.
  - by destruct (Hi f vs).
  - by destruct (Hi f vs).
  - by apply (Hn d).
  - by destruct (Ha cs).
  - by destruct (Ha cs).
Qed.

Lemma clause_eqb_not_eq_str field s : clause_eqb (NotEq (B := B) field (Str s)) (NotEq field (Str s)) = true.
Proof. simpl. by rewrite !bool_decide_true. Qed.

Context (iter : gmap string (PrefilterEntry.t B) -> list (PrefilterEntry.t B)).
Hypothesis iter_values : forall m, iter m ≡ₚ (map_to_list m).*2.

(** A registry with one entry substitutes it into the query it was registered for. *)
Lemma substitute_only name e cap q :
  PrefilterEntry.name e = name -> PrefilterEntry.clauses e = [q] -> clause_eqb q q = true -> canonicalize_clauses fmt_f64 [q] = [q] ->
  exists r', PrefilterRegistry.substitute fmt_f64 iter (PrefilterRegistry.mk {[name := e]} cap) [q]
    = ([PrefilterRegistry.prefilter_clause e], Some e, r').
Proof.
  intros Hn Hc Heq Hcan. unfold PrefilterRegistry.substitute, PrefilterRegistry.is_empty. simpl.
  rewrite bool_decide_false by (rewrite map_size_singleton; done). rewrite Hcan.
  unfold PrefilterRegistry.find_substitution, PrefilterRegistry.is_empty, PrefilterRegistry.entry_list. simpl.
  rewrite (bool_decide_false (size _ = 0%nat)) by (rewrite map_size_singleton; done). simpl.
  assert (iter {[name := e]} = [e]) as ->.
  { apply Permutation_singleton_r. rewrite iter_values, map_to_list_singleton. done. }
  simpl. rewrite Hc. unfold subset_match. simpl. rewrite Heq. simpl. eauto.
Qed.

(** Prefilters are computed by an executor that has no string maps and no
    dictionaries, so a string value matches nothing there.  Registering
    [field != string] stores every live slot that is not null; the query that is then
    rewritten returns the slots that do hold the string, which the query as given
    excludes. *)
Theorem string_prefilter_overmatches (ex : QueryExecutor B) (snap : InnerEngine B) (max_page : N) (field s name : string)
    (ff : FilterField.t B) (cap interval nanos : N) (now : Z) (x : N) :
  fields_wf ex -> ie_slots snap = ex_slots ex -> ie_filters snap = ex_filters ex -> field <> "id"%string ->
  ex_filters ex !! field = Some ff -> 0 < cap ->
  x ∈ alive ex -> holds_value to_lowercase ex field (Str s) x -> ~ is_null ex field x ->
  let q := NotEq field (Str s) in
  exists e r r',
    register_prefilter to_lowercase fmt_f64 snap (PrefilterRegistry.new_with_cap cap) max_page name [q] interval nanos now = Ok (e, r)
    /\ PrefilterRegistry.substitute fmt_f64 iter r [q] = ([PrefilterRegistry.prefilter_clause e], Some e, r')
    /\ (exists b, compute_filters to_lowercase ex [PrefilterRegistry.prefilter_clause e] = Ok b /\ x ∈ b)
    /\ (exists b, compute_filters to_lowercase ex [q] = Ok b /\ x ∉ b).
Proof.
  intros Hwf Hslots Hfil Hid Hff Hcap Hx Hval Hnull q. set (bare := prefilter_executor snap max_page).
  assert (forall ex', ex_filters ex' = ex_filters ex -> valid_clause ex' q = true) as Hvalid.
  { intros ex' Hf. unfold q. simpl. unfold valid_eq, known. rewrite bool_decide_false by done. by rewrite Hf, Hff, bool_decide_true. }
  assert (fields_wf bare) as Hwfb by (unfold fields_wf; simpl; by rewrite Hfil).
  destruct (evaluate_clause_ok to_lowercase bare Hwfb q (Hvalid bare Hfil)) as (bb & Hbb & Hbin).
  destruct (evaluate_clause_ok to_lowercase ex Hwf q (Hvalid ex eq_refl)) as (be & Hbe & Hein).
  assert (canonicalize_clauses fmt_f64 [q] = [q]) as Hcan by (by apply canonicalize_one).
  set (e := PrefilterEntry.mk name [q] bb (N.max MIN_REFRESH_INTERVAL_SECS (N.min MAX_REFRESH_INTERVAL_SECS interval)) now nanos (rb_len bb) 0 0).
  set (r := PrefilterRegistry.mk {[name := e]} cap).
  destruct (substitute_only name e cap q eq_refl eq_refl (clause_eqb_not_eq_str field s) Hcan) as (r' & Hsub).
  exists e, r, r'. split_and!.
  - unfold register_prefilter, compute_filters. cbn [compute_loop]. fold bare. rewrite Hbb. cbn [result_bind or_default default].
    unfold PrefilterRegistry.insert. cbn [length PrefilterRegistry.entries PrefilterRegistry.new_with_cap]. rewrite Hcan.
    rewrite (bool_decide_true (∅ !! name = None)) by apply lookup_empty.
    assert (PrefilterRegistry.len (PrefilterRegistry.new_with_cap (B := B) cap) = 0) as -> by done.
    simpl. destruct (N.leb_spec cap 0); [lia|]. done.
  - exact Hsub.
  - exists bb. split; [done|]. apply Hbin. unfold q. simpl. unfold bare. rewrite (bare_alive ex snap max_page Hslots). split; [done|].
    split; [|by rewrite (bare_is_null ex snap max_page Hfil)].
    unfold matches_eq. rewrite bool_decide_false by done. intros (ff' & key & _ & Hkey & _). done.
  - exists be. split; [unfold compute_filters; cbn [compute_loop]; by rewrite Hbe|]. rewrite (Hein x). unfold q. simpl.
    unfold matches_eq. rewrite bool_decide_false by done. tauto.
Qed.

End registration.

(** ** The registry and the query cache *)

Section caching.
Context {B : Type} `{!RoaringOps B, !Roaring B}.
Context (to_lowercase : string -> string) (fmt_f64 : spec_float -> string).
Context (iter : gmap string (PrefilterEntry.t B) -> list (PrefilterEntry.t B)).
Hypothesis iter_values : forall m, iter m ≡ₚ (map_to_list m).*2.
Implicit Types (r : PrefilterRegistry.t B) (e : PrefilterEntry.t B).

(** The key under which the result of a clause list is cached. *)
Definition cache_key (cs : list (FilterClause B)) (sort_field : string) (direction : SortDirection) : option UnifiedKey :=
  (fun ks => MkUnifiedKey ks sort_field direction) <$> CacheKeys.canonicalize fmt_f64 cs.

Lemma prefilter_cache_key e sort_field direction :
  cache_key [PrefilterRegistry.prefilter_clause e] sort_field direction
  = Some (MkUnifiedKey [MkCanonical "__prefilter" "bucket" (PrefilterEntry.name e)] sort_field direction).
Proof. done. Qed.

Lemma register_eq snap max_page r name field v bm interval nanos now :
  compute_filters to_lowercase (prefilter_executor snap max_page) [Eq field (Integer v)] = Ok bm ->
  (PrefilterRegistry.entries r !! name <> None \/ PrefilterRegistry.len r < PrefilterRegistry.max_entries r) ->
  let e := PrefilterEntry.mk name [Eq field (Integer v)] bm (N.max MIN_REFRESH_INTERVAL_SECS (N.min MAX_REFRESH_INTERVAL_SECS interval))
             now nanos (rb_len bm) 0 0 in
  register_prefilter to_lowercase fmt_f64 snap r max_page name [Eq field (Integer v)] interval nanos now
  = Ok (e, PrefilterRegistry.mk (<[name := e]> (PrefilterRegistry.entries r)) (PrefilterRegistry.max_entries r)).
Proof.
  intros Hbm Hroom e. unfold register_prefilter. rewrite Hbm. cbn [result_bind]. unfold PrefilterRegistry.insert.
  rewrite canonicalize_one by done. cbn [length]. cbv beta iota zeta.
  rewrite (bool_decide_false (1%nat = 0%nat)) by done. cbv iota.
  destruct (bool_decide (PrefilterRegistry.entries r !! name = None)) eqn:E; simpl; [|done].
  apply bool_decide_eq_true in E. destruct Hroom as [Hn|Hroom]; [done|]. destruct (N.leb_spec (PrefilterRegistry.max_entries r) (PrefilterRegistry.len r)); [lia|done].
Qed.

(** Registering a prefilter under a name that is taken replaces the clauses but
    leaves the cached results of the old ones in place: the two different queries,
    which had different cache keys, are rewritten to clauses with the same key, so a
    lookup for the second query finds what was stored for the first, whatever it
    matched. *)
Theorem reregistered_name_shares_results (snap : InnerEngine B) (max_page cap interval nanos : N) (now : Z)
    (name field : string) (v1 v2 : Z) (b1 b2 : B) :
  v1 <> v2 -> 0 < cap ->
  compute_filters to_lowercase (prefilter_executor snap max_page) [Eq field (Integer v1)] = Ok b1 ->
  compute_filters to_lowercase (prefilter_executor snap max_page) [Eq field (Integer v2)] = Ok b2 ->
  exists e1 e2 r1 r2,
    register_prefilter to_lowercase fmt_f64 snap (PrefilterRegistry.new_with_cap cap) max_page name [Eq field (Integer v1)] interval nanos now = Ok (e1, r1)
    /\ register_prefilter to_lowercase fmt_f64 snap r1 max_page name [Eq field (Integer v2)] interval nanos now = Ok (e2, r2)
    /\ PrefilterEntry.bitmap e1 = b1 /\ PrefilterEntry.bitmap e2 = b2
    /\ (PrefilterRegistry.substitute fmt_f64 iter r1 [Eq field (Integer v1)]).1 = ([PrefilterRegistry.prefilter_clause e1], Some e1)
    /\ (PrefilterRegistry.substitute fmt_f64 iter r2 [Eq field (Integer v2)]).1 = ([PrefilterRegistry.prefilter_clause e2], Some e2)
    /\ forall sort_field direction,
         cache_key [Eq field (Integer v1)] sort_field direction <> cache_key [Eq field (Integer v2)] sort_field direction
         /\ exists key, cache_key [PrefilterRegistry.prefilter_clause e1] sort_field direction = Some key
              /\ cache_key [PrefilterRegistry.prefilter_clause e2] sort_field direction = Some key.
Proof.
  intros Hne Hcap Hb1 Hb2.
  pose proof (register_eq snap max_page (PrefilterRegistry.new_with_cap cap) name field v1 b1 interval nanos now Hb1 (or_intror Hcap)) as H1.
  set (e1 := PrefilterEntry.mk name [Eq field (Integer v1)] b1 _ _ _ _ _ _) in H1. cbv zeta in H1.
  set (r1 := PrefilterRegistry.mk _ _) in H1.
  assert (PrefilterRegistry.entries r1 !! name <> None) as Hin by (simpl; by rewrite lookup_insert_eq).
  pose proof (register_eq snap max_page r1 name field v2 b2 interval nanos now Hb2 (or_introl Hin)) as H2.
  set (e2 := PrefilterEntry.mk name [Eq field (Integer v2)] b2 _ _ _ _ _ _) in H2. cbv zeta in H2.
  set (r2 := PrefilterRegistry.mk (<[name := e2]> _) _) in H2.
  assert (forall v, clause_eqb (Eq (B := B) field (Integer v)) (Eq field (Integer v)) = true) as Heq.
  { intros v. simpl. by rewrite bool_decide_true, Z.eqb_refl. }
  assert (r2 = PrefilterRegistry.mk {[name := e2]} cap) as Hr2.
  { unfold r2. simpl. f_equal. rewrite insert_insert_eq. done. }
  exists e1, e2, r1, r2. split_and!; try done.
  - assert (r1 = PrefilterRegistry.mk {[name := e1]} cap) as -> by done.
    destruct (substitute_only fmt_f64 iter iter_values name e1 cap (Eq field (Integer v1))) as (r' & ->); done.
  - rewrite Hr2. destruct (substitute_only fmt_f64 iter iter_values name e2 cap (Eq field (Integer v2))) as (r' & ->); done.
  - intros sf d. split; [|eauto]. intros [= H]. apply Hne. by apply (inj pretty) in H.
Qed.

Lemma mark_fold_needs_rebuild (ids : list N) (n : N) (c : UnifiedCache.t B) (key : UnifiedKey) :
  let step := fun '(count, c) id =>
    match (key ← UnifiedCache.meta_id_to_key c !! id; _ ← UnifiedCache.entries c !! key; Some key) with
    | Some key => (count + 1, UnifiedCache.mark_entry_for_rebuild c key)
    | None => (count, c)
    end in
  forall e' : UnifiedEntry.t B, UnifiedCache.entries (foldl step (n, c) ids).2 !! key = Some e' ->
  exists e : UnifiedEntry.t B, UnifiedCache.entries c !! key = Some e /\ UnifiedEntry.meta_id e' = UnifiedEntry.meta_id e
    /\ (UnifiedEntry.needs_rebuild e = true \/ (exists id, id ∈ ids /\ UnifiedCache.meta_id_to_key c !! id = Some key)
        -> UnifiedEntry.needs_rebuild e' = true).
Proof.
  intros step. revert n c. induction ids as [|id ids IH]; intros n c e' He'; simpl in He'.
  { exists e'. split; [done|]. split; [done|]. intros [?|(id & ?%elem_of_nil & _)]; done. }
  destruct (UnifiedCache.meta_id_to_key c !! id) as [k|] eqn:Hk; simpl in He'.
  - destruct (UnifiedCache.entries c !! k) as [d|] eqn:Hd; simpl in He'.
    + apply IH in He' as (e1 & He1 & Hid & Hn). simpl in He1, Hn. destruct (decide (k = key)) as [->|Hne].
      * rewrite lookup_alter_eq, Hd in He1. injection He1 as <-. exists d. split; [done|]. split; [done|]. intros _. apply Hn. by left.
      * rewrite lookup_alter_ne in He1 by done. exists e1. split; [done|]. split; [done|].
        intros [?|(id' & Hin & Hk')]; apply Hn; [by left|]. right. exists id'. split; [|done]. apply elem_of_cons in Hin as [->|]; [congruence|done].
    + apply IH in He' as (e1 & He1 & Hid & Hn). exists e1. split; [done|]. split; [done|].
      intros [?|(id' & Hin & Hk')]; apply Hn; [by left|]. right. exists id'. split; [|done]. apply elem_of_cons in Hin as [->|]; [congruence|done].
  - apply IH in He' as (e1 & He1 & Hid & Hn). exists e1. split; [done|]. split; [done|].
    intros [?|(id' & Hin & Hk')]; apply Hn; [by left|]. right. exists id'. split; [|done]. apply elem_of_cons in Hin as [->|]; [congruence|done].
Qed.

(** Removing a prefilter flags every cached result that was computed with it. *)
Lemma remove_prefilter_invalidates r (cache : UnifiedCache.t B) (name : string) (key : UnifiedKey) (e' : UnifiedEntry.t B) :
  cache_ok cache -> is_Some (PrefilterRegistry.entries r !! name) ->
  MkCanonical "__prefilter" "bucket" name ∈ uk_filter_clauses key ->
  UnifiedCache.entries (remove_prefilter r cache name).2 !! key = Some e' -> UnifiedEntry.needs_rebuild e' = true.
Proof.
  intros Hc Hr Hkey. unfold remove_prefilter, PrefilterRegistry.remove. rewrite bool_decide_true by done. simpl.
  unfold UnifiedCache.invalidate_prefilter. destruct (MetaIndex.entries_for_clause _ _ _ _) as [ids|] eqn:Hids.
  - intros He'. apply mark_fold_needs_rebuild in He' as (e & He & _ & Hn). apply Hn. right.
    destruct (co_reg _ Hc key e He) as (reg & Hreg & Hd & _). exists (UnifiedEntry.meta_id e). split; [|by apply (co_ids _ Hc)].
    assert (listed (MetaIndex.clause_bitmaps (UnifiedCache.meta cache)) (MkCanonical "__prefilter" "bucket" name) (UnifiedEntry.meta_id e)) as (bm & Hbm & Hin).
    { apply (mo_clause _ (co_meta _ Hc)). exists reg. by rewrite Hd. }
    unfold MetaIndex.entries_for_clause in Hids. rewrite Hbm in Hids. injection Hids as <-. done.
  - intros He. exfalso. destruct (co_reg _ Hc key e' He) as (reg & Hreg & Hd & _).
    assert (listed (MetaIndex.clause_bitmaps (UnifiedCache.meta cache)) (MkCanonical "__prefilter" "bucket" name) (UnifiedEntry.meta_id e')) as (bm & Hbm & Hin).
    { apply (mo_clause _ (co_meta _ Hc)). exists reg. by rewrite Hd. }
    unfold MetaIndex.entries_for_clause in Hids. by rewrite Hbm in Hids.
Qed.

(** ** Eviction to the cap *)

(** Entries are stored under their own names. *)
Definition named r : Prop := forall name e, PrefilterRegistry.entries r !! name = Some e -> PrefilterEntry.name e = name.

Lemma least_substituted_elem (l : list (PrefilterEntry.t B)) : l <> [] -> exists e, least_substituted l = Some e /\ e ∈ l.
Proof.
  induction l as [|x l IH]; [done|]. intros _. simpl. destruct l as [|y l].
  - simpl. exists x. split; [done|by left].
  - destruct IH as (e & -> & He); [done|]. eexists. split; [done|]. destruct (_ <=? _); [by left|by right].
Qed.

(** The eviction loop ends with the registry within the cap, after at most as many
    rounds as there are entries. *)
Lemma evict_to_fit_fits fuel target r cache :
  named r -> (size (PrefilterRegistry.entries r) <= fuel)%nat -> PrefilterRegistry.len (evict_to_fit iter fuel target r cache).1 <= target.
Proof.
  revert r cache. induction fuel as [|fuel IH]; intros r cache Hn Hf; simpl.
  - unfold PrefilterRegistry.len. lia.
  - destruct (N.ltb_spec target (PrefilterRegistry.len r)) as [Hlt|Hle]; [|done].
    destruct (least_substituted_elem (PrefilterRegistry.entry_list iter r)) as (e & He & Hin).
    { unfold PrefilterRegistry.entry_list. intros Hnil. pose proof (iter_values (PrefilterRegistry.entries r)) as Hp.
      rewrite Hnil in Hp. apply Permutation_length in Hp. rewrite length_fmap, length_map_to_list in Hp. unfold PrefilterRegistry.len in Hlt. simpl in Hp. lia. }
    rewrite He. apply (iter_elem iter iter_values) in Hin as (name & Hname). pose proof (Hn name e Hname) as ->.
    apply IH.
    + intros n d. simpl. intros [_ Hd]%lookup_delete_Some. by apply Hn.
    + simpl. assert (size (delete name (PrefilterRegistry.entries r)) = pred (size (PrefilterRegistry.entries r))) as ->
        by (apply map_size_delete_Some; eauto). lia.
Qed.

End caching.

(** ** The empty conjunction

    The executor evaluates an empty conjunction to no slots; flattening drops it. *)
Lemma empty_and_dropped {B : Type} `{!RoaringOps B} (fmt_f64 : spec_float -> string) (to_lowercase : string -> string)
    (ex : QueryExecutor B) (cs : list (FilterClause B)) (x : N) :
  canonicalize_clauses fmt_f64 (And [] :: cs) = canonicalize_clauses fmt_f64 cs
  /\ ~ Forall (fun c => matches to_lowercase ex c x) (And [] :: cs).
Proof. split; [done|]. intros [H _]%Forall_cons. by apply H. Qed.

(** ** Witnesses *)

Section witnesses.
Definition demo_fmt (f : spec_float) : string := "f".
Definition demo_iter (m : gmap string (PrefilterEntry.t Bitset)) : list (PrefilterEntry.t Bitset) := (map_to_list m).*2.

Definition demo_snap : InnerEngine Bitset :=
  MkInnerEngine demo_slots {["level"%string := demo_level; "tag"%string := demo_tag]} {["reactionCount"%string := demo_sort]}.

Definition demo_registered : result (PrefilterEntry.t Bitset * PrefilterRegistry.t Bitset) :=
  register_prefilter string_lower demo_fmt demo_snap PrefilterRegistry.new 100 "safe" [Eq "tag" (Integer 10)] 300 0 0.

Definition demo_registry : PrefilterRegistry.t Bitset :=
  match demo_registered with Ok (_, r) => r | Err _ => PrefilterRegistry.new end.

Lemma demo_registry_exact name e : PrefilterRegistry.entries demo_registry !! name = Some e -> entry_exact string_lower demo_ex e.
Proof.
  unfold demo_registry. destruct demo_registered as [[d r]|] eqn:Hr; [|done]. unfold demo_registered in Hr.
  pose proof (register_entry string_lower demo_fmt demo_snap 100 _ _ _ _ _ _ _ _ Hr) as (bm & _ & _ & _ & _ & ->).
  cbn [PrefilterRegistry.entries]. rewrite lookup_insert_Some. intros [[<- <-]|[_ He]]; [|by exfalso; apply (lookup_empty_Some name e)].
  apply (register_exact string_lower demo_fmt demo_ex demo_snap 100 eq_refl eq_refl _ _ _ _ _ _ _ _ demo_index_ok demo_index_ok) in Hr; try done.
  - repeat constructor.
  - repeat constructor.
  - repeat constructor.
Qed.

Lemma substitution_preserves_results_witness :
  exists res res',
    execute string_lower demo_ex [In "level" [Integer 7; Integer 5]; And [Eq "tag" (Integer 10)]] None 10 None = Ok res
    /\ execute string_lower demo_ex
         (PrefilterRegistry.substitute demo_fmt demo_iter demo_registry [In "level" [Integer 7; Integer 5]; And [Eq "tag" (Integer 10)]]).1.1
         None 10 None = Ok res'
    /\ qr_ids res' = qr_ids res /\ qr_total_matched res' = qr_total_matched res.
Proof.
  apply (substitution_preserves_results string_lower demo_fmt demo_iter (fun m => Permutation_refl _) demo_ex demo_registry).
  - apply demo_index_ok.
  - exact I.
  - intros x Hx. apply rb_contains_true in Hx. unfold alive in Hx.
    assert (x ∈ bitset [1; 2; 3; 4]) as Hx'.
    { apply rb_contains_true. rewrite <- Hx. reflexivity. }
    revert Hx'. apply bitset_u32. repeat constructor; vm_compute; discriminate.
  - repeat constructor.
  - repeat constructor.
  - assert (canonicalize_clauses demo_fmt [In "level" [Integer 7; Integer 5]; And [Eq "tag" (Integer 10)]]
      = ([In "level" [Integer 5; Integer 7]; Eq "tag" (Integer 10)] : list (FilterClause Bitset))) as -> by (vm_compute; reflexivity).
    repeat constructor.
  - apply demo_registry_exact.
Defined.

(** The executor of queries, with a string map for the levels. *)
Definition named_ex : QueryExecutor Bitset :=
  MkQueryExecutor demo_slots {["level"%string := demo_level; "tag"%string := demo_tag]}
    {["reactionCount"%string := demo_sort]} 100 None 0 (Some {["level"%string := {["adult"%string := 7%Z]}]}) None None.

Lemma string_prefilter_overmatches_witness :
  exists e r r',
    register_prefilter string_lower demo_fmt demo_snap (PrefilterRegistry.new_with_cap 32) 100 "safe" [NotEq "level" (Str "adult")] 300 0 0 = Ok (e, r)
    /\ PrefilterRegistry.substitute demo_fmt demo_iter r [NotEq "level" (Str "adult")] = ([PrefilterRegistry.prefilter_clause e], Some e, r')
    /\ (exists b, compute_filters string_lower named_ex [PrefilterRegistry.prefilter_clause e] = Ok b /\ 2 ∈ b)
    /\ (exists b, compute_filters string_lower named_ex [NotEq "level" (Str "adult")] = Ok b /\ 2 ∉ b).
Proof.
  apply (string_prefilter_overmatches string_lower demo_fmt demo_iter (fun m => Permutation_refl _) named_ex demo_snap 100 "level" "adult"
    "safe" demo_level 32 300 0 0 2).
  - exact demo_fields_wf.
  - reflexivity.
  - reflexivity.
  - done.
  - reflexivity.
  - lia.
  - apply rb_contains_true. vm_compute. reflexivity.
  - exists demo_level, 7. split; [reflexivity|]. split; [reflexivity|]. apply (demo_field _ level_ops).
    apply (bool_decide_unpack _). vm_compute. exact I.
  - intros (ff & Hff & Hx). simpl in Hff. injection Hff as <-. apply (demo_field _ level_ops) in Hx. revert Hx.
    apply (bool_decide_unpack _). vm_compute. exact I.
Defined.

Lemma reregistered_name_shares_results_witness :
  exists e1 e2 r1 r2,
    register_prefilter string_lower demo_fmt demo_snap (PrefilterRegistry.new_with_cap 32) 100 "safe" [Eq "level" (Integer 5)] 300 0 0 = Ok (e1, r1)
    /\ register_prefilter string_lower demo_fmt demo_snap r1 100 "safe" [Eq "level" (Integer 7)] 300 0 0 = Ok (e2, r2)
    /\ cache_key demo_fmt [PrefilterRegistry.prefilter_clause e1] "id" Desc = cache_key demo_fmt [PrefilterRegistry.prefilter_clause e2] "id" Desc.
Proof.
  destruct (reregistered_name_shares_results string_lower demo_fmt demo_iter (fun m => Permutation_refl _) demo_snap 100 32 300 0 0 "safe" "level" 5 7
    (bitset [1; 4]) (bitset [2])) as (e1 & e2 & r1 & r2 & H1 & H2 & _ & _ & _ & _ & Hk).
  - done.
  - lia.
  - vm_compute. reflexivity.
  - vm_compute. reflexivity.
  - exists e1, e2, r1, r2. split; [exact H1|]. split; [exact H2|]. destruct (Hk "id"%string Desc) as (_ & k & -> & ->). done.
Defined.
End witnesses.
