(* ===== verification/DocCache.v ===== *)
(** * Document cache (src/doc_cache.rs and the document reads of src/concurrent_engine.rs)

    A generational cache of stored documents.  Generations are shared objects: the
    cache holds a list of references to them, newest first, and a thread works on the
    list it loaded, which another thread may have replaced meanwhile.  So the
    generations live in a heap, and every operation is given the list it loaded; the
    operation of a single thread loads the current one. *)

From S2P Require Import Prelude Roaring Config Sort Float64 Bytes BucketDiffLog TimeBuckets Query Mutation ShardStore DocShards.
Local Open Scope N_scope.

(** [AtomicU64::fetch_add] and [fetch_sub] wrap. *)
Definition u64_add (a b : N) : N := wrap64 (a + b).
Definition u64_sub (a b : N) : N := wrap64 (a + (18446744073709551616 - wrap64 b)).

(** ** Size estimates *)

Definition next_power_of_two (n : N) : N := 2 ^ N.log2_up n.

Definition SMALL : list N := [8; 16; 32; 48; 64; 80; 96; 112; 128].

Definition jemalloc_rounded (bytes : N) : N :=
  if bytes =? 0 then 0
  else match list_find (fun c => bytes <= c) SMALL with
       | Some (_, c) => c
       | None =>
           if bytes <=? 256 then (bytes + 31) / 32 * 32
           else if bytes <=? 4096 then next_power_of_two bytes
           else N.ldiff (bytes + 4095) 4095
       end.

Definition hashbrown_backing_bytes (len entry_bytes : N) : N :=
  if len =? 0 then 0
  else
    let target := N.max (len * 8 / 7) 4 in
    let buckets := next_power_of_two target in
    let per_bucket := (entry_bytes + 1 + 7) / 8 * 8 in
    jemalloc_rounded (buckets * per_bucket).

Definition string_heap_bytes (len : N) : N := jemalloc_rounded len.

(** [std::mem::size_of] of the types involved, which the compiler chooses. *)
Record Layout : Type := MkLayout {
  size_of_string : N;
  size_of_field_value : N;
  size_of_value : N;
  size_of_cached_entry : N;
}.

Section estimates.
Context (layout : Layout).

Definition estimate_value_payload_bytes (value : Value) : N :=
  match value with
  | Integer _ | Float _ | Bool _ => 0
  | Str s => string_heap_bytes (N.of_nat (String.length s))
  end.

Definition estimate_field_value_size (value : FieldValue) : N :=
  match value with
  | Single v => estimate_value_payload_bytes v
  | Multi values =>
      let cap := next_power_of_two (N.max (N.of_nat (length values)) 1) in
      let backing := jemalloc_rounded (cap * size_of_value layout) in
      backing + foldr N.add 0 (estimate_value_payload_bytes <$> values)
  end.

Definition estimate_doc_size (doc : StoredDoc) : N :=
  let key_val_bytes := size_of_string layout + size_of_field_value layout in
  let dashmap_bucket := jemalloc_rounded (4 + size_of_cached_entry layout + 1) in
  let fixed_header := size_of_cached_entry layout in
  let inner_backing := hashbrown_backing_bytes (N.of_nat (size (sd_fields doc))) key_val_bytes in
  let fields_heap := map_fold (fun key value acc =>
    acc + string_heap_bytes (N.of_nat (String.length key)) + estimate_field_value_size value) 0 (sd_fields doc) in
  dashmap_bucket + fixed_header + inner_backing + fields_heap.

End estimates.

(** ** Generations *)

Record DocCacheConfig : Type := MkDocCacheConfig {
  max_bytes : N;
  generation_interval_secs : N;
  max_generations : nat;
}.

Definition default_doc_cache_config : DocCacheConfig := MkDocCacheConfig 1073741824 60 30.

Record CachedEntry : Type := MkCachedEntry { ce_doc : StoredDoc; ce_size : N }.

Module Generation.

Record t : Type := mk {
  entries : gmap N CachedEntry;
  size_bytes : N;
  created_at : N;
}.

(** [new] at the current instant, and [with_created_at]. *)
Definition with_created_at (created_at : N) : t := mk ∅ 0 created_at.

Definition len (g : t) : nat := size (entries g).

(** [entries.remove] with the subtraction of the removed size. *)
Definition take_out (g : t) (slot : N) : t :=
  match entries g !! slot with
  | Some old => mk (delete slot (entries g)) (u64_sub (size_bytes g) (ce_size old)) (created_at g)
  | None => g
  end.

(** [entries.insert] with the addition of the new size; a replaced entry is not subtracted. *)
Definition put_in (g : t) (slot : N) (e : CachedEntry) : t :=
  mk (<[slot := e]> (entries g)) (u64_add (size_bytes g) (ce_size e)) (created_at g).

(** The in-place update of a present entry. *)
Definition overwrite (g : t) (slot : N) (doc : StoredDoc) (new_size : N) : t :=
  match entries g !! slot with
  | Some old =>
      mk (<[slot := MkCachedEntry doc new_size]> (entries g))
         (if ce_size old <? new_size then u64_add (size_bytes g) (new_size - ce_size old)
          else u64_sub (size_bytes g) (ce_size old - new_size))
         (created_at g)
  | None => g
  end.

(** The entries of [smaller] that [larger] lacks are copied into it, with their sizes. *)
Definition absorb (larger smaller : t) : t :=
  mk (entries larger ∪ entries smaller)
     (map_fold (fun slot e acc => if bool_decide (is_Some (entries larger !! slot)) then acc else u64_add acc (ce_size e))
        (size_bytes larger) (entries smaller))
     (created_at larger).

End Generation.

Module DocCache.

Record t : Type := mk {
  heap : list Generation.t;
  generations : list nat;
  config : DocCacheConfig;
  hits : N;
  misses : N;
  evictions : N;
}.

Implicit Types (c : t) (gens : list nat).

Definition new (cfg : DocCacheConfig) (now : N) : t := mk [Generation.with_created_at now] [0%nat] cfg 0 0 0.

Definition with_heap c (h : list Generation.t) : t := mk h (generations c) (config c) (hits c) (misses c) (evictions c).
Definition with_generations c gens : t := mk (heap c) gens (config c) (hits c) (misses c) (evictions c).
Definition count_hit c : t := mk (heap c) (generations c) (config c) (u64_add (hits c) 1) (misses c) (evictions c).
Definition count_miss c : t := mk (heap c) (generations c) (config c) (hits c) (u64_add (misses c) 1) (evictions c).
Definition count_evictions c (n : N) : t := mk (heap c) (generations c) (config c) (hits c) (misses c) (u64_add (evictions c) n).

Definition update_gen c (g : nat) (f : Generation.t -> Generation.t) : t := with_heap c (alter f g (heap c)).

(** [Arc::new]: a fresh reference. *)
Definition alloc c (g : Generation.t) : nat * t := (length (heap c), with_heap c (heap c ++ [g])).

Definition entry_in c (g : nat) (slot : N) : option CachedEntry := gen ← heap c !! g; Generation.entries gen !! slot.

(** The first generation of the loaded list that holds the slot. *)
Fixpoint find_in c gens (slot : N) : option (nat * CachedEntry) :=
  match gens with
  | [] => None
  | g :: rest => match entry_in c g slot with Some e => Some (g, e) | None => find_in c rest slot end
  end.

(** ** Reads *)

Definition promote c (slot : N) (from to : nat) (size : N) (doc : StoredDoc) : t :=
  let c := update_gen c from (fun g =>
    match Generation.entries g !! slot with
    | Some _ => Generation.mk (delete slot (Generation.entries g)) (u64_sub (Generation.size_bytes g) size) (Generation.created_at g)
    | None => g
    end) in
  update_gen c to (fun g => Generation.put_in g slot (MkCachedEntry doc size)).

Definition get_from c gens (slot : N) : option StoredDoc * t :=
  match find_in c gens slot, gens with
  | Some (g, e), current :: _ =>
      if bool_decide (g = current) then (Some (ce_doc e), count_hit c)
      else (Some (ce_doc e), count_hit (promote c slot g current (ce_size e) (ce_doc e)))
  | _, _ => (None, count_miss c)
  end.

Definition get c (slot : N) : option StoredDoc * t := get_from c (generations c) slot.

(** ** Writes *)

(** The removal from the first generation that holds the slot. *)
Definition take_from c gens (slot : N) : t :=
  match find_in c gens slot with
  | Some (g, _) => update_gen c g (fun gen => Generation.take_out gen slot)
  | None => c
  end.

Section writes.
Context (layout : Layout).

Definition insert_from c gens (slot : N) (doc : StoredDoc) : t :=
  let c := take_from c gens slot in
  match gens with
  | current :: _ => update_gen c current (fun g => Generation.put_in g slot (MkCachedEntry doc (estimate_doc_size layout doc)))
  | [] => c
  end.

Definition insert c (slot : N) (doc : StoredDoc) : t := insert_from c (generations c) slot doc.

Definition insert_batch_from c gens (docs : list (N * StoredDoc)) : t :=
  foldl (fun c e => insert_from c gens e.1 e.2) c docs.

Definition insert_batch c (docs : list (N * StoredDoc)) : t := insert_batch_from c (generations c) docs.

Definition update_from c gens (slot : N) (doc : StoredDoc) : t :=
  match find_in c gens slot with
  | Some (g, _) => update_gen c g (fun gen => Generation.overwrite gen slot doc (estimate_doc_size layout doc))
  | None => c
  end.

Definition update_batch_from c gens (docs : list (N * StoredDoc)) : t :=
  foldl (fun c e => update_from c gens e.1 e.2) c docs.

Definition update_batch_if_cached c (docs : list (N * StoredDoc)) : t := update_batch_from c (generations c) docs.

End writes.

Definition remove c (slot : N) : t := take_from c (generations c) slot.

(** ** Generations *)

(** [merge_oldest]: the larger of the last two generations absorbs the other and stays
    in the list.  The merged copy the code also builds is not used. *)
Definition merge_oldest c gens : t * list nat :=
  match reverse gens with
  | oldest :: second_oldest :: rest =>
      match heap c !! oldest, heap c !! second_oldest with
      | Some o, Some s =>
          let '(smaller, larger) := if (Generation.len o <=? Generation.len s)%nat then (oldest, second_oldest) else (second_oldest, oldest) in
          let small := if (Generation.len o <=? Generation.len s)%nat then o else s in
          (update_gen c larger (fun g => Generation.absorb g small), reverse rest ++ [larger])
      | _, _ => (c, gens)
      end
  | _ => (c, gens)
  end.

Definition push_new_generation c (now : N) : t :=
  let '(current, c) := alloc c (Generation.with_created_at now) in
  let new_gens := current :: generations c in
  let '(c, new_gens) := if (max_generations (config c) <? length new_gens)%nat then merge_oldest c new_gens else (c, new_gens) in
  with_generations c new_gens.

Definition drop_oldest_generation c : nat * t :=
  match generations c, last (generations c) with
  | _ :: _ :: _, Some oldest =>
      let evicted := match heap c !! oldest with Some g => Generation.len g | None => 0%nat end in
      (evicted, count_evictions (with_generations c (take (length (generations c) - 1) (generations c))) (N.of_nat evicted))
  | _, _ => (0%nat, c)
  end.

Definition bytes_of c (g : nat) : N := match heap c !! g with Some gen => Generation.size_bytes gen | None => 0 end.
Definition total_bytes c : N := wrap64 (foldr N.add 0 (bytes_of c <$> generations c)).
Definition len c : nat := foldr Nat.add 0%nat ((fun g => match heap c !! g with Some gen => Generation.len gen | None => 0%nat end) <$> generations c).
Definition generation_count c : nat := length (generations c).
Definition needs_eviction c : bool := max_bytes (config c) <? total_bytes c.

(** [evict], and the eviction loop of the background thread; [fuel] bounds the drops. *)
Fixpoint evict_loop (fuel : nat) (total : N) c : N * t :=
  match fuel with
  | O => (total, c)
  | S fuel =>
      if max_bytes (config c) <? total_bytes c then
        if (generation_count c <=? 1)%nat then (total, c)
        else let '(n, c') := drop_oldest_generation c in evict_loop fuel (total + N.of_nat n) c'
      else (total, c)
  end.

Definition evict c : N * t := evict_loop (S (generation_count c)) 0 c.

Definition clear c (now : N) : t :=
  let '(g, c) := alloc c (Generation.with_created_at now) in with_generations c [g].

(** One round of [eviction_thread] at time [now]: rotate when the interval has passed
    since the last rotation, then evict.  Returns the time of the last rotation. *)
Definition eviction_round c (last_rotation now : N) : N * t :=
  let '(last_rotation, c) :=
    if generation_interval_secs (config c) <=? now - last_rotation then (now, push_new_generation c now) else (last_rotation, c) in
  (last_rotation, (evict c).2).

End DocCache.

(** ** Document reads and write-through (concurrent_engine.rs)

    The document store is an interface here: point reads, shard reads, and batch
    writes that may fail. *)

Class DocDisk (D : Type) := {
  disk_get : D -> N -> io_result (option StoredDoc);
  disk_get_shard : D -> N -> io_result (list (N * StoredDoc));
  disk_put_batch : D -> list (N * StoredDoc) -> io_result D;
}.

Section reads.
Context {D : Type} `{!DocDisk D} (layout : Layout).
Implicit Types (c : DocCache.t) (d : D).

Definition get_document c d (slot : N) : io_result (option StoredDoc) * DocCache.t :=
  match DocCache.get c slot with
  | (Some doc, c') => (IoOk (Some doc), c')
  | (None, c') =>
      match disk_get d slot with
      | IoOk (Some doc) => (IoOk (Some doc), DocCache.insert layout c' slot doc)
      | r => (r, c')
      end
  end.

(** The cache check of [get_documents]: the results found, position by position. *)
Fixpoint check_cache c (slots : list N) : list (option StoredDoc) * DocCache.t :=
  match slots with
  | [] => ([], c)
  | slot :: rest =>
      let '(r, c') := DocCache.get c slot in
      let '(rs, c'') := check_cache c' rest in
      (r :: rs, c'')
  end.

(** What the shard reads give for a slot that was not cached. *)
Definition read_from_shard d (slot : N) : option StoredDoc :=
  match disk_get_shard d (slot_to_shard slot) with
  | IoOk docs => (list_to_map (reverse docs) : gmap N StoredDoc) !! slot
  | _ => None
  end.

(** The documents to cache: the first occurrence of every slot that was read. *)
Fixpoint to_cache (seen : list N) (pairs : list (N * option StoredDoc)) : list (N * StoredDoc) :=
  match pairs with
  | [] => []
  | (slot, Some doc) :: rest => if bool_decide (slot ∈ seen) then to_cache seen rest else (slot, doc) :: to_cache (slot :: seen) rest
  | (_, None) :: rest => to_cache seen rest
  end.

(** The misses group by group, in the order [shard_order] in which the shards are visited. *)
Definition shard_groups (shard_order : list N -> list N) (misses : list N) : list N :=
  mjoin ((fun shard => filter (fun slot => slot_to_shard slot = shard) misses) <$> shard_order (slot_to_shard <$> misses)).

Definition get_documents (shard_order : list N -> list N) c d (slots : list N) : list (option StoredDoc) * DocCache.t :=
  let '(found, c) := check_cache c slots in
  let misses := (filter (fun e : N * option StoredDoc => e.2 = None) (zip slots found)).*1 in
  let read := (fun slot => (slot, read_from_shard d slot)) <$> shard_groups shard_order misses in
  let results := zip_with (fun slot f => match f with Some doc => Some doc | None => read_from_shard d slot end) slots found in
  match to_cache [] read with
  | [] => (results, c)
  | docs => (results, DocCache.insert_batch layout c docs)
  end.

(** The two steps of the flush thread for a batch of documents: the cache first, then
    the disk; a failed write is logged and skipped. *)
Definition flush_update_cache c (batch : list (N * StoredDoc)) : DocCache.t := DocCache.update_batch_if_cached layout c batch.
Definition flush_write_disk d (batch : list (N * StoredDoc)) : D := match disk_put_batch d batch with IoOk d' => d' | _ => d end.

Definition evict_doc_cache c (slot : N) : DocCache.t := DocCache.remove c slot.
Definition clear_doc_cache c (now : N) : DocCache.t := DocCache.clear c now.

End reads.
